(* ===== verification/_CoqProject ===== *)
-Q . S2P
Prelude.v
Bits.v
Field.v
Goldilocks.v
Types.v
Events.v
Instances.v
Operations.v
Batching.v
BatchCorrect.v
BatchValid.v
BlockSerde.v
BlockRoundtrip.v
OperandStack.v
StackRefinement.v
Memory.v
Advice.v
Ace.v
AceCorrect.v
AceLayout.v
AceDag.v
AceDagCorrect.v
AceLower.v
AceVerifier.v
AceCircuit.v
AceCircuitCorrect.v
AceEncode.v
CallGraph.v
CallGraphCorrect.v
CallGraphReach.v
Processor.v
SysEvents.v
Frame.v
Execution.v
Stepping.v
BasicBlocks.v
Contexts.v
Refinement.v
ExecRefinement.v
OpSpecs.v
CryptoOps.v
Air.v
AirFlags.v
AirStack.v
AirRows.v
AirSound.v
AirComplete.v
AirDecoder.v
AirTrace.v
AirGroups.v
AirFree.v
Chiplets.v
ChipletRegions.v
ChipletPermutation.v
ChipletBitwise.v
ChipletMemory.v
ChipletAce.v
ChipletMerkle.v
ChipletFree.v
ChipletConcrete.v
TraceTables.v
TraceMemory.v
TraceAce.v
TraceHasher.v
TraceRequests.v
TraceChiplets.v
Assembly.v
AsmField.v
AsmU32.v
AsmCount.v
AsmExt2.v
AsmEvents.v
MachineTheorems.v
OperationTheorems.v
BlockTheorems.v
AssemblerTheorems.v
CodegenTheorems.v
LinkerTheorems.v
AirTheorems.v
ChipletTheorems.v
