(* ===== verification/Prelude.v ===== *)
(** * A verification library for the Miden virtual machine

    The Miden VM ([src/miden-vm]) runs programs given as forests of MAST nodes on a stack machine over the
    Goldilocks field, with word-granular memory per execution context and an advice provider for
    nondeterministic inputs; the assembler compiles assembly instructions to the operations of the
    machine; and executions are proved by traces that satisfy the constraints of an AIR, which a recursive verifier
    evaluates as an arithmetic circuit.  This library models the synchronous interpreter ([processor/src], the fast
    processor), the parts of [core/src] it runs on (operations, events, batches of basic blocks and their encoding), the
    lowering of instructions and the call graph of the assembler ([crates/assembly/src]), the generator of circuits
    ([crates/ace-codegen]) and the main constraints of the trace ([air/src/constraints]), and proves them correct.

    ** The parts and where they are modelled

    Foundations.
    - [Prelude]: outcomes of fallible code ([Ok], [Err], [Panic]) and their monad, loops, arrays whose accesses
      panic out of range, tactics, hints and shared lemmas.  [Bits]: bit counts of 32-bit words.
    - [Field], [Types]: interfaces of the items of the [miden-crypto] package the code calls (field elements, the
      quadratic extension, the permutation, Merkle paths and store) as classes with their documented laws; the words,
      errors and helper registers of [processor/src]; integers in the field, and the ring of the quadratic extension.
      [Goldilocks] and [Instances] give executable instances, with the primality of the modulus, so that no
      theorem is vacuous and the witnesses run.

    Data of the core crate.
    - [Events] ([core/src/events]), [Operations] ([core/src/operations/mod.rs]): system events, the operation
      set, opcodes, stack-effect metadata and encoding.
    - [Batching] ([core/src/mast/node/basic_block_node/op_batch.rs], [mod.rs]): [OpBatchAccumulator] and [batch_ops],
      iterators, validators, translation of indices.  [BlockSerde] ([core/src/mast/serialization/basic_blocks.rs]): encoding
      and decoding of a block.  [BatchCorrect], [BatchValid], [BlockRoundtrip]: their lemmas.

    The processor.
    - [OperandStack]: the stack interface of [processor/src/processor.rs], the buffer of [fast/mod.rs] and [fast/operation.rs]
      as its instance [Fast], and the abstract stack of the documentation as [Ideal]; [StackRefinement]: the buffer
      invariant and the simulation of every method.
    - [Memory] ([fast/memory.rs]), [Advice] ([host/advice/mod.rs], [core/src/advice/map.rs]), [Ace]
      ([trace/chiplets/ace], [eval_circuit.rs]) with [AceCorrect], a reference evaluator of circuits.
    - [Processor]: the state [Proc] of [FastProcessor] and one definition for each operation handler of
      [execution/operations], written once against the stack interface.  [SysEvents]
      ([fast/basic_block/sys_event_handlers.rs]): the handlers of system events.
    - [Execution] ([execution], [continuation_stack.rs], [fast/execution_api.rs], [fast/step.rs],
      [fast/call_and_dyn.rs]): MAST nodes, continuations, the handler of every continuation, breaks to the host, the
      loop, stoppers, running and stepping.
    - [Frame], [Stepping], [BasicBlocks], [Contexts], [Refinement], [ExecRefinement]: invariants
      and simulations of the whole machine.  [OpSpecs], [CryptoOps]: what operations compute.

    The assembler.
    - [Assembly]: the operation sequences of field, extension-field, 32-bit, stack and constant instructions.
      [AsmField], [AsmU32], [AsmCount], [AsmExt2], [AsmEvents]: what the sequences compute when run.
    - [CallGraph] ([linker/callgraph.rs], and the part of [linker/mod.rs] that fills it): the graph of calls between procedures
      and its topological sorts.  [CallGraphCorrect], [CallGraphReach]: their lemmas.

    Circuit generation ([crates/ace-codegen]).
    - [AceLayout]: layouts of the inputs.  [AceDag]: the hash-consed graph, its builder, the lowering of symbolic constraints, the
      recomposition of the quotient, and the reference evaluators.  [AceCircuit]: emission and encoding of circuits.
      [AceDagCorrect], [AceLower], [AceVerifier], [AceCircuitCorrect], [AceEncode]: their lemmas.

    Constraints of the trace ([air/src/constraints]).
    - [Air]: columns, expressions, the builder, values, and a partial evaluator that specializes constraints to rows of which some
      bits are known.  [AirFlags] ([op_flags]), [AirStack] ([stack]), [AirDecoder] ([decoder], [system], [range]): the
      constraints.  [AirRows], [AirTrace]: rows that show a processor, and traces.  [AirSound], [AirComplete],
      [AirGroups], [AirFree]: what the constraints imply and leave open.
    - [Chiplets] ([chiplets]): the selectors, the hash controller, the permutation, bitwise, memory, circuit and kernel ROM
      chiplets and the periodic columns.  [ChipletRegions]: the regions the selectors make.  [ChipletPermutation],
      [ChipletBitwise], [ChipletMemory], [ChipletAce], [ChipletMerkle]: each chiplet against a reference that does not look
      at rows.  [ChipletFree]: columns left free.  [ChipletConcrete]: concrete rows and traces.

    Trace generation of the chiplets ([processor/src/trace/chiplets]).
    - [TraceTables] ([bitwise], [kernel_rom]), [TraceMemory] ([memory]), [TraceAce] ([ace]), [TraceHasher] ([hasher]): the tables, the
      operations that record requests in them, and their rows.  [TraceRequests]: the invariant of the hash table.
      [TraceChiplets] ([mod.rs], and [initialize_chiplets] of [trace/parallel/mod.rs]): the replay of recorded requests and the
      stacking of the tables into columns.

    ** What the theorems show

    - [MachineTheorems]: a program on the buffer ends as on the unbounded stack or fails because the buffer is full; the
      loop returns within an explicit number of rounds; stepping and running agree; no operation indexes out
      of the buffer; calls start on fresh memory and return to the context and the overflow elements of the caller, on the buffer itself; syscalls reach only
      kernel procedures; basic blocks run their operations in order; operations and events change nothing outside
      their part of the state.
    - [OperationTheorems]: memory, operation encoding, advice map and stack, circuits, FRI folding, polynomial
      evaluation, Merkle paths and the stream cipher, each against a mathematical description.
    - [BlockTheorems]: batching keeps the operations and satisfies every validator; blocks survive serialization;
      padding does not change the execution; indices and iterators agree.
    - [AssemblerTheorems]: every compiled instruction modelled computes what the language promises, fails on exactly the
      operands it must fail on, and, where it takes advice, accepts no wrong advice.
    - [CodegenTheorems]: the generated, emitted and encoded verifier circuit is accepted by the processor exactly when the folded
      constraints equal the quotient times the vanishing polynomial; sharing and constant folding change no value.
    - [LinkerTheorems]: the topological sorts end, return an order exactly for acyclic graphs, and report cycles, but for a
      class of graphs on which they panic.
    - [AirTheorems]: every step of the processor satisfies the stack constraints ([FRIE2F4] with a condition on an item it does not read), and
      for the operations whose result these constraints fix, rows that satisfy them are a step of the processor; the decoder decodes the operations of the
      groups; clock, context and range column; and positions of the stack that no constraint fixes.
    - [ChipletTheorems]: the regions of the chiplets; the permutation chiplet computes Poseidon2, the bitwise chiplet AND and
      XOR, the memory chiplet is a memory, circuit sections evaluate their gates to zero, Merkle paths of the controller
      compute the root; two first rows the constraints leave free when the chiplet below has no rows; and, of the generated
      trace: it satisfies all these constraints, it answers every requested permutation with its multiplicity, Merkle requests give
      the roots, and the memory table behaves as the memory of the processor.

    ** Choices

    - Field elements are an abstract type; their canonical value is an integer.  A [u32] or [u64] is an integer with its
      wrap-around written out; [usize] counters that cannot reach [2^64] are natural numbers, with subtractions
      that panic below zero.  Where a caller's counts can make a [usize] overflow (the layouts of [AceLayout]) sums and products
      are checked, and so are the [u32] row indices of [TraceChiplets]: an overflow is a [Panic], as in builds with overflow checks, and
      where there is none, builds without them compute the same.
    - A failed array access, [unwrap], [expect] or explicit panic is [Panic]; debug-only assertions are left out, since
      release builds do not have them.  Error values keep their variant and data, not their source locations and messages.
    - The loop of [execute_impl] takes fuel and returns [None] when it runs out.  Every round advances the clock, which the
      cycle limit bounds, or shortens the continuation stack, which its own limit bounds; the termination theorem
      gives the fuel from these, so [None] is never the answer with that fuel.
    - The loops of the topological sorts take fuel too: each round removes a node or an edge, so twice the size of the graph,
      and the square of it for the search from a caller, are enough, which the theorems prove.
    - The operand-stack buffer has its 6850 cells.  A full buffer is an error of the buffer that the abstract stack does
      not have; it is the only difference the refinement theorems allow.
    - The machine runs with the no-op tracer and outside debug mode, as in [FastProcessor::new].  The host is user
      code: an interface without assumptions about its answers.
    - Constraints are expressions over the columns of two rows; a list of constraints is what the builder of the source collects, each with
      the rows it applies to.  Periodic columns and the transition selector, which the proof system supplies, are columns with
      the hypothesis [supplied].  What the buses ensure (16-bit limbs, the link between controller rows and permutation cycles)
      is a hypothesis of the theorems that need it.  The round constants of the permutation, which are in
      [miden-crypto], are a parameter.
    - The generated tables call functions of packages: the layers of the permutation and the bytes of a word ([miden-crypto]) and the
      merge of sorted sequences ([itertools]) are the classes [HasherFunctions], [WordBytes] and [KMerge], which the witnesses
      instantiate.  A [BTreeMap] is a finite map whose entries are listed in the order of the keys.

    ** Not modelled

    The buses of the trace (running products over verifier challenges, whose guarantees are probabilistic) and public
    inputs; the tracers and the generation of the other columns of the trace; prover and verifier (third-party proof system); decorators and debug
    information; the asynchronous copies of the entry points; display and error reports; building, merging, and
    serialization of whole MAST forests; the assembler's parser, name resolution and driver and its memory,
    cryptographic, procedure and debug instructions; packages, projects and registries; the client and the
    tools, which wrap a network protocol library. *)

From stdpp Require Export base list numbers option.
From Stdlib Require Export ZArith Lia.

#[global] Set Default Proof Using "Type".
Declare Scope vm_scope.
Delimit Scope vm_scope with vm.

(** ** Outcomes of fallible code

    A Rust function that returns [Result<A, E>] and may also panic (an index
    out of bounds, an [unwrap] of [None], an explicit [panic!]) is modelled by a
    function into [outcome E A]. *)

Inductive outcome (E A : Type) : Type :=
  | Ok (a : A)
  | Err (e : E)
  | Panic.
Arguments Ok {E A} a.
Arguments Err {E A} e.
Arguments Panic {E A}.

#[global] Instance outcome_ret {E} : MRet (outcome E) := fun A a => Ok a.
#[global] Instance outcome_bind {E} : MBind (outcome E) := fun A B f o =>
  match o with
  | Ok a => f a
  | Err e => Err e
  | Panic => Panic
  end.
#[global] Instance outcome_fmap {E} : FMap (outcome E) := fun A B f o =>
  match o with
  | Ok a => Ok (f a)
  | Err e => Err e
  | Panic => Panic
  end.

(** [expect]ing an option: [None] panics. *)
Definition or_panic {E A} (o : option A) : outcome E A :=
  match o with
  | Some a => Ok a
  | None => Panic
  end.

(** [map_err]: change the error, keep values and panics. *)
Definition map_err {E E' A} (f : E -> E') (o : outcome E A) : outcome E' A :=
  match o with
  | Ok a => Ok a
  | Err e => Err (f e)
  | Panic => Panic
  end.

(** [assert_or e b] is the Rust idiom [if !b { return Err(e) }]. *)
Definition guard_err {E} (b : bool) (e : E) : outcome E unit :=
  if b then Ok () else Err e.

Lemma bind_Ok_inv {E A B} (f : A -> outcome E B) (o : outcome E A) b :
  (o ≫= f) = Ok b -> exists a, o = Ok a /\ f a = Ok b.
Proof. destruct o; simpl; intros; try discriminate; eauto. Qed.

Lemma bind_Ok {E A B} (f : A -> outcome E B) a : (Ok a ≫= f) = f a.
Proof. reflexivity. Qed.

Lemma bind_assoc {E A B C} (f : A -> outcome E B) (g : B -> outcome E C) (o : outcome E A) :
  ((o ≫= f) ≫= g) = (o ≫= (fun a => f a ≫= g)).
Proof. by destruct o. Qed.

(** A loop [for x in l { s = body(s, x)? }] over a state. *)
Fixpoint for_each {E S X} (l : list X) (body : S -> X -> outcome E S) (s : S) : outcome E S :=
  match l with
  | [] => Ok s
  | x :: l => s ← body s x; for_each l body s
  end.

Lemma for_each_app {E S X} (l1 l2 : list X) (body : S -> X -> outcome E S) s :
  for_each (l1 ++ l2) body s = (for_each l1 body s ≫= for_each l2 body).
Proof.
  revert s. induction l1 as [|x l1 IH]; intros s; [done|]. simpl.
  destruct (body s x); simpl; auto.
Qed.

(** The usual loop rule: an invariant indexed by the number of iterations. *)
Lemma for_each_inv {E St X} (Inv : nat -> St -> Prop) (l : list X)
    (body : St -> X -> outcome E St) s :
  Inv 0 s ->
  (forall i x s, l !! i = Some x -> Inv i s -> exists s', body s x = Ok s' /\ Inv (i + 1)%nat s') ->
  exists s', for_each l body s = Ok s' /\ Inv (length l) s'.
Proof.
  revert Inv s. induction l as [|x l IH]; intros Inv s H0 Hstep; [by exists s|].
  destruct (Hstep 0 x s eq_refl H0) as (s1 & Hb & H1).
  destruct (IH (fun i => Inv (i + 1)%nat) s1 H1) as (s' & Hf & H').
  { intros i y t Hi Ht. apply (Hstep (i + 1)%nat); [|done]. by rewrite Nat.add_1_r. }
  exists s'. simpl. rewrite Hb. simpl. split; [done|].
  replace (S (length l)) with (length l + 1)%nat by lia. done.
Qed.

(** A loop over the indices of a list whose body is a function of the element. *)
Lemma for_each_indices {E St X} (l : list X) (body : St -> nat -> outcome E St) (f : St -> X -> St) s n :
  (forall i x s, l !! i = Some x -> body s (n + i)%nat = Ok (f s x)) ->
  for_each (seq n (length l)) body s = Ok (foldl f s l).
Proof.
  revert s n. induction l as [|x l IH]; intros s n Hb; [done|]. cbn [length seq for_each foldl].
  pose proof (Hb 0 x s eq_refl) as H0. rewrite Nat.add_0_r in H0. rewrite H0. cbn [mbind outcome_bind].
  apply IH. intros i y t Hi. rewrite Nat.add_succ_comm. by apply Hb.
Qed.

(** A loop that only checks. *)
Lemma for_each_check {E X} (l : list X) (body : unit -> X -> outcome E unit) :
  (forall x, x ∈ l -> body () x = Ok ()) -> for_each l body () = Ok ().
Proof.
  induction l as [|x l IH]; intros Hb; [done|]. cbn [for_each]. rewrite Hb by left. cbn [mbind outcome_bind].
  apply IH. intros y Hy. apply Hb. by right.
Qed.

Lemma foldl_app_concat {A B} (f : A -> list B) l acc : foldl (fun r x => r ++ f x) acc l = acc ++ concat (f <$> l).
Proof.
  revert acc. induction l as [|x l IH]; intros acc; cbn; [by rewrite app_nil_r|]. by rewrite IH, app_assoc.
Qed.

(** Arrays and unsigned arithmetic of Rust: reads, writes and slices panic out of range, and so does a
    subtraction that underflows (in a release build it would wrap and the index that follows would
    be out of range). *)
Definition usub {E} (a b : nat) : outcome E nat := if (b <=? a)%nat then Ok (a - b)%nat else Panic.
Definition arr_read {E A} (b : list A) (i : nat) : outcome E A := or_panic (b !! i).
Definition arr_write {E A} (b : list A) (i : nat) (v : A) : outcome E (list A) :=
  if (i <? length b)%nat then Ok (<[i:=v]> b) else Panic.
Definition arr_slice {E A} (b : list A) (i j : nat) : outcome E (list A) :=
  if ((i <=? j) && (j <=? length b))%nat then Ok (take (j - i) (drop i b)) else Panic.

Lemma usub_Ok {E} a b : (b <= a)%nat -> usub (E := E) a b = Ok (a - b)%nat.
Proof. intros. unfold usub. by rewrite (proj2 (Nat.leb_le _ _)). Qed.
Lemma arr_read_Ok {E A} (b : list A) i v : b !! i = Some v -> arr_read (E := E) b i = Ok v.
Proof. unfold arr_read. by intros ->. Qed.
Lemma arr_write_Ok {E A} (b : list A) i v : (i < length b)%nat -> arr_write (E := E) b i v = Ok (<[i:=v]> b).
Proof. intros. unfold arr_write. by rewrite (proj2 (Nat.ltb_lt _ _)). Qed.
Lemma arr_slice_Ok {E A} (b : list A) i j :
  (i <= j <= length b)%nat -> arr_slice (E := E) b i j = Ok (take (j - i) (drop i b)).
Proof. intros [? ?]. unfold arr_slice. by rewrite !(proj2 (Nat.leb_le _ _)). Qed.

(** Arithmetic on [usize] that panics when the result does not fit, as in builds with overflow checks; where it does not
    panic, it is the arithmetic of builds without them. *)
Definition USIZE_MAX : Z := 2 ^ 64 - 1.
Definition usize {E} (n : nat) : outcome E nat := if (Z.of_nat n <=? USIZE_MAX)%Z then Ok n else Panic.
Definition uadd {E} (a b : nat) : outcome E nat := usize (a + b).
Definition umul {E} (a b : nat) : outcome E nat := usize (a * b).

Lemma usize_Ok {E} n : (Z.of_nat n <= USIZE_MAX)%Z -> usize (E := E) n = Ok n.
Proof. intros. unfold usize. by rewrite (proj2 (Z.leb_le _ _)). Qed.
Lemma usize_inv {E} n m : usize (E := E) n = Ok m -> m = n /\ (Z.of_nat n <= USIZE_MAX)%Z.
Proof. unfold usize. destruct (Z.leb_spec (Z.of_nat n) USIZE_MAX); [|done]. by intros [= <-]. Qed.

(** Panic freedom is compositional. *)
Definition no_panic {E A} (o : outcome E A) : Prop := o <> Panic.

Lemma no_panic_bind {E A B} (o : outcome E A) (f : A -> outcome E B) :
  no_panic o -> (forall a, o = Ok a -> no_panic (f a)) -> no_panic (o ≫= f).
Proof. destruct o; simpl; intros H Hf; [by apply Hf|done|done]. Qed.

Lemma no_panic_for_each {E S X} (l : list X) (body : S -> X -> outcome E S) s :
  (forall s x, no_panic (body s x)) -> no_panic (for_each l body s).
Proof.
  intros Hb. revert s. induction l as [|x l IH]; intros s; [done|].
  simpl. apply no_panic_bind; auto.
Qed.

(** ** Simulation of outcomes

    [outcome_sim X RA o1 o2]: the run [o1] of a detailed machine is explained by
    the run [o2] of an abstract one: both return related values or fail with
    the same error, or the detailed run fails with an error of the class [X]
    that only it can raise (a resource limit). Neither run panics. *)
Inductive outcome_sim {E A B} (X : E -> Prop) (RA : A -> B -> Prop) :
    outcome E A -> outcome E B -> Prop :=
  | sim_Ok a b : RA a b -> outcome_sim X RA (Ok a) (Ok b)
  | sim_Err e : outcome_sim X RA (Err e) (Err e)
  | sim_limit e o : X e -> outcome_sim X RA (Err e) o.

Lemma outcome_sim_bind {E A B A' B'} (X : E -> Prop) (R : A -> B -> Prop) (R' : A' -> B' -> Prop)
    (o1 : outcome E A) (o2 : outcome E B) f g :
  outcome_sim X R o1 o2 ->
  (forall a b, R a b -> outcome_sim X R' (f a) (g b)) ->
  outcome_sim X R' (o1 ≫= f) (o2 ≫= g).
Proof. intros [] Hk; simpl; eauto using @outcome_sim. Qed.

Lemma outcome_sim_weaken {E A B} (X : E -> Prop) (R R' : A -> B -> Prop) o1 o2 :
  (forall a b, R a b -> R' a b) -> outcome_sim X R o1 o2 -> outcome_sim X R' o1 o2.
Proof. intros ? []; eauto using @outcome_sim. Qed.

(** ** Automation *)

Create HintDb vm discriminated.

(** Destruct the bind at the head of a hypothesis [H : _ = Ok _]. *)
Ltac bind_inv H :=
  let a := fresh "a" in let Ha := fresh "Ha" in
  apply bind_Ok_inv in H; destruct H as (a & Ha & H).

(** Case-split the scrutinee of a match or an if in the goal. *)
Ltac split_match :=
  match goal with
  | |- context [match ?x with _ => _ end] => destruct x eqn:?
  end.

(** [lia] with division and remainder by constants. *)
Ltac zlia := intros; Z.to_euclidean_division_equations; lia.

(** ** Lists *)

Lemma lookup_slice {A} (l : list A) (bot top i : nat) :
  (bot <= top <= length l)%nat -> (i < top - bot)%nat ->
  reverse (take (top - bot) (drop bot l)) !! i = l !! (top - 1 - i)%nat.
Proof.
  intros Hb Hi.
  assert (length (take (top - bot) (drop bot l)) = top - bot)%nat as Hlen.
  { rewrite length_take, length_drop. lia. }
  rewrite reverse_lookup by lia. rewrite Hlen.
  rewrite lookup_take by lia. case_decide; [|lia]. rewrite lookup_drop. f_equal. lia.
Qed.

Lemma length_slice {A} (l : list A) (bot top : nat) :
  (bot <= top <= length l)%nat ->
  length (reverse (take (top - bot) (drop bot l))) = (top - bot)%nat.
Proof. intros. rewrite length_reverse, length_take, length_drop. lia. Qed.

Lemma list_lookup_insert_dec {A} (l : list A) i j x :
  (i < length l)%nat ->
  <[i:=x]> l !! j = if decide (i = j) then Some x else l !! j.
Proof.
  intros. case_decide as Heq; [subst; by apply list_lookup_insert_eq|].
  by apply list_lookup_insert_ne.
Qed.

(** ** Alignment *)
#[local] Open Scope nat_scope.

(** [usize::next_multiple_of] for a non-zero argument. *)
Definition next_multiple_of (n d : nat) : nat :=
  match n mod d with
  | 0 => n
  | r => n + (d - r)
  end.

Lemma next_multiple_of_ge n d : d <> 0 -> n <= next_multiple_of n d.
Proof. intros. unfold next_multiple_of. destruct (n mod d); lia. Qed.

Lemma next_multiple_of_spec n d :
  d <> 0 -> next_multiple_of n d mod d = 0 /\ next_multiple_of n d < n + d.
Proof.
  intros Hd. unfold next_multiple_of.
  pose proof (Nat.mod_upper_bound n d Hd) as Hr. pose proof (Nat.div_mod n d Hd) as Hn.
  destruct (n mod d) as [|r] eqn:E; [lia|]. split; [|lia].
  replace (n + (d - S r)) with (0 + (n / d + 1) * d) by nia.
  by rewrite Nat.Div0.mod_add, Nat.Div0.mod_0_l.
Qed.
