(* ===== verification/Bits.v ===== *)
(** * Bits of 32-bit words

    Counting leading and trailing bits, as [u32::leading_zeros] and its relatives
    do, the equations a count satisfies, and masks of high and low bits. *)

From S2P Require Import Prelude.
#[local] Open Scope Z_scope.

Definition u32 (z : Z) : Prop := 0 <= z < 2 ^ 32.

(** ** What is counted *)

(** [u32::leading_zeros], [u32::trailing_zeros], and the same for ones. *)
Definition leading_zeros (n : Z) : Z := if n =? 0 then 32 else 31 - Z.log2 n.
Fixpoint pos_trailing_zeros (p : positive) : Z :=
  match p with
  | xO p => pos_trailing_zeros p + 1
  | _ => 0
  end.
Definition trailing_zeros (n : Z) : Z :=
  match n with
  | Zpos p => pos_trailing_zeros p
  | _ => 32
  end.
Definition leading_ones (n : Z) : Z := leading_zeros (2 ^ 32 - 1 - n).
Definition trailing_ones (n : Z) : Z := trailing_zeros (2 ^ 32 - 1 - n).

Lemma leading_zeros_range n : u32 n -> 0 <= leading_zeros n <= 32.
Proof.
  intros Hn. unfold leading_zeros, u32 in *. destruct (Z.eqb_spec n 0); [lia|].
  assert (Z.log2 n < 32) by (apply Z.log2_lt_pow2; lia). pose proof (Z.log2_nonneg n). lia.
Qed.

(** A count below 32 is right when the next bit is the first one set. *)
Lemma leading_zeros_iff n c : u32 n -> 0 <= c < 32 ->
  c = leading_zeros n <-> n / 2 ^ (31 - c) = 1.
Proof.
  unfold leading_zeros. intros Hn Hc. unfold u32 in Hn. assert (0 < 2 ^ (31 - c)) as Hp by lia.
  assert (2 ^ (31 - c + 1) = 2 * 2 ^ (31 - c)) as Hs by (rewrite Z.pow_add_r; lia).
  destruct (Z.eqb_spec n 0) as [->|Hne].
  - rewrite Z.div_0_l by lia. lia.
  - split.
    + intros ->. destruct (Z.log2_spec n) as [H1 H2]; [lia|].
      replace (31 - (31 - Z.log2 n)) with (Z.log2 n) in * by lia.
      rewrite Z.pow_succ_r in H2 by apply Z.log2_nonneg.
      symmetry. apply Z.div_unique with (n - 2 ^ Z.log2 n); lia.
    + intros Hd. pose proof (Z.div_mod n (2 ^ (31 - c))) as Hdm.
      pose proof (Z.mod_pos_bound n (2 ^ (31 - c))).
      rewrite (Z.log2_unique n (31 - c)); [lia..|]. split; [lia|]. rewrite <-Z.add_1_r. lia.
Qed.

Lemma leading_ones_iff n c : u32 n -> 0 <= c < 32 ->
  c = leading_ones n <-> n / 2 ^ (31 - c) = 2 ^ (c + 1) - 2.
Proof.
  intros Hn Hc. unfold leading_ones.
  rewrite leading_zeros_iff by (unfold u32 in *; lia).
  assert (0 < 2 ^ (31 - c)) as Hp by lia. assert (2 ^ (c + 1) * 2 ^ (31 - c) = 2 ^ 32) as Hs.
  { rewrite <-Z.pow_add_r by lia. f_equal. lia. }
  pose proof (Z.div_mod n (2 ^ (31 - c)) ltac:(lia)) as H1.
  pose proof (Z.mod_pos_bound n (2 ^ (31 - c)) Hp).
  pose proof (Z.div_mod (2 ^ 32 - 1 - n) (2 ^ (31 - c)) ltac:(lia)) as H2.
  pose proof (Z.mod_pos_bound (2 ^ 32 - 1 - n) (2 ^ (31 - c)) Hp).
  split; intros Hd; rewrite Hd in *; nia.
Qed.

Lemma pos_trailing_zeros_iff p c : 0 <= c ->
  c = pos_trailing_zeros p <-> Zpos p mod 2 ^ (c + 1) = 2 ^ c.
Proof.
  assert (forall x c, 0 <= c -> (2 * x) mod 2 ^ (c + 1) = 2 * (x mod 2 ^ c)) as Heven.
  { intros x k Hk. rewrite Z.pow_add_r, (Z.mul_comm (2 ^ k)), Zmult_mod_distr_l by lia. done. }
  revert c. induction p as [p IH|p IH|]; intros c Hc; cbn [pos_trailing_zeros].
  - split.
    + intros ->. change (2 ^ (0 + 1)) with 2. change (2 ^ 0) with 1. zlia.
    + intros H. destruct (Z.eq_dec c 0) as [->|]; [done|exfalso].
      assert (2 ^ (c + 1) = 2 * 2 ^ c) as Hs by (rewrite Z.pow_add_r; lia).
      assert (2 ^ c = 2 * 2 ^ (c - 1)) as Hs' by (rewrite <-Z.pow_succ_r by lia; f_equal; lia).
      pose proof (Z.div_mod (Zpos p~1) (2 ^ (c + 1)) ltac:(lia)). lia.
  - destruct (Z.eq_dec c 0) as [->|].
    + split.
      * intros H. assert (forall p, 0 <= pos_trailing_zeros p) as Hge.
        { clear. induction p; simpl; lia. } specialize (Hge p). lia.
      * change (2 ^ (0 + 1)) with 2. change (2 ^ 0) with 1. zlia.
    + change (Zpos p~0) with (2 * Zpos p). rewrite Heven by lia.
      assert (2 ^ c = 2 * 2 ^ (c - 1)) as Hs' by (rewrite <-Z.pow_succ_r by lia; f_equal; lia).
      specialize (IH (c - 1) ltac:(lia)). replace (c - 1 + 1) with c in IH by lia. lia.
  - split.
    + intros ->. reflexivity.
    + intros H. destruct (Z.eq_dec c 0) as [->|]; [done|exfalso].
      assert (1 < 2 ^ c) by (apply Z.pow_gt_1; lia).
      rewrite Z.mod_small in H by (rewrite Z.pow_add_r; lia). lia.
Qed.

Lemma trailing_zeros_iff n c : u32 n -> 0 <= c < 32 ->
  c = trailing_zeros n <-> n mod 2 ^ (c + 1) = 2 ^ c.
Proof.
  intros Hn Hc. unfold u32 in Hn. destruct n as [|p|p]; [|apply pos_trailing_zeros_iff; lia|lia].
  cbn [trailing_zeros]. rewrite Z.mod_0_l by lia. lia.
Qed.

Lemma trailing_ones_iff n c : u32 n -> 0 <= c < 32 ->
  c = trailing_ones n <-> n mod 2 ^ (c + 1) = 2 ^ c - 1.
Proof.
  intros Hn Hc. unfold trailing_ones. rewrite trailing_zeros_iff by (unfold u32 in *; lia).
  assert (2 ^ (c + 1) = 2 * 2 ^ c) as Hs by (rewrite Z.pow_add_r; lia).
  assert (2 ^ (31 - c) * 2 ^ (c + 1) = 2 ^ 32) as Hm.
  { rewrite <-Z.pow_add_r by lia. f_equal. lia. }
  assert (0 < 2 ^ c) by lia. assert ((2 ^ 32 - 1 - n) mod 2 ^ (c + 1) = 2 ^ (c + 1) - 1 - n mod 2 ^ (c + 1)) as ->.
  { symmetry. pose proof (Z.mod_pos_bound n (2 ^ (c + 1))).
    apply Z.mod_unique with (2 ^ (31 - c) - 1 - n / 2 ^ (c + 1)); [lia|].
    pose proof (Z.div_mod n (2 ^ (c + 1)) ltac:(lia)). nia. }
  lia.
Qed.

Lemma trailing_zeros_range n : u32 n -> 0 <= trailing_zeros n <= 32.
Proof.
  intros Hn. unfold u32 in Hn. destruct n as [|p|p]; simpl; [lia| |lia].
  assert (forall p, 0 <= pos_trailing_zeros p /\ 2 ^ pos_trailing_zeros p <= Zpos p) as H.
  { clear. induction p as [p IH|p [IH1 IH2]|]; simpl; [lia| |lia]. split; [lia|].
    rewrite Z.pow_add_r by lia. change (2 ^ 1) with 2. lia. }
  destruct (H p) as [H1 H2]. split; [done|]. destruct (Z.le_gt_cases (pos_trailing_zeros p) 32); [done|].
  assert (2 ^ 32 < 2 ^ pos_trailing_zeros p) by (apply Z.pow_lt_mono_r; lia). lia.
Qed.

(** A count of 32 is right for the one word without a bit of the other kind. *)
Lemma leading_zeros_32 n : u32 n -> leading_zeros n = 32 <-> n = 0.
Proof.
  unfold leading_zeros. intros. destruct (Z.eqb_spec n 0); [lia|]. pose proof (Z.log2_nonneg n). lia.
Qed.
Lemma trailing_zeros_32 n : u32 n -> trailing_zeros n = 32 <-> n = 0.
Proof.
  intros Hn. split; [|by intros ->]. intros H. destruct n as [|p|p]; [done| |unfold u32 in Hn; lia].
  exfalso. cbn in H. symmetry in H. apply pos_trailing_zeros_iff in H; [|lia].
  unfold u32 in Hn. rewrite Z.mod_small in H by lia. lia.
Qed.

(** ** Masks *)

(** Clearing the low bits of a 32-bit word. *)
Lemma land_high n k : u32 n -> 0 <= k <= 32 -> Z.land n (2 ^ 32 - 2 ^ k) = n / 2 ^ k * 2 ^ k.
Proof.
  intros Hn Hk. assert (2 ^ 32 - 2 ^ k = Z.ldiff (Z.ones 32) (Z.ones k)) as ->.
  { rewrite Z.ldiff_ones_r, Z.shiftl_mul_pow2, Z.shiftr_div_pow2, Z.ones_equiv by lia.
    assert (2 ^ (32 - k) * 2 ^ k = 2 ^ 32) as Hm by (rewrite <-Z.pow_add_r by lia; f_equal; lia).
    assert (0 < 2 ^ k) by lia.
    rewrite <-(Z.div_unique (Z.pred (2 ^ 32)) (2 ^ k) (2 ^ (32 - k) - 1) (2 ^ k - 1)) by nia. lia. }
  assert (Z.land n (Z.ldiff (Z.ones 32) (Z.ones k)) = Z.ldiff n (Z.ones k)) as ->.
  { rewrite <-(Z.mod_small n (2 ^ 32)) at 2 by apply Hn. rewrite <-Z.land_ones by done.
    apply Z.bits_inj'. intros i Hi. rewrite !Z.ldiff_spec, !Z.land_spec, Z.ldiff_spec. by destruct (Z.testbit n i). }
  by rewrite Z.ldiff_ones_r, Z.shiftl_mul_pow2, Z.shiftr_div_pow2 by lia.
Qed.

Lemma land_low n k : 0 <= k -> Z.land n (2 ^ k - 1) = n mod 2 ^ k.
Proof. intros Hk. rewrite <-Z.land_ones by done. by rewrite Z.ones_equiv, Z.sub_1_r. Qed.

Lemma div_2_pow_pred k : 0 <= k -> (2 ^ (k + 1) - 1) / 2 = 2 ^ k - 1.
Proof.
  intros Hk. assert (2 ^ (k + 1) = 2 * 2 ^ k) as -> by (rewrite Z.pow_add_r; lia). zlia.
Qed.
