(* ===== verification/Field.v ===== *)
(** * Field elements

    [Felt], the element type of every register, stack slot and memory cell of the
    VM, is defined in the [miden-crypto] package, outside this repository.  It is
    therefore an interface here: the class [Felt] lists the operations the VM
    uses with the documented behaviour of the Goldilocks field of order
    [2^64 - 2^32 + 1], and every component is developed against the class.
    [Goldilocks.v] gives an executable instance, so nothing proved from the class
    is vacuous. *)

From S2P Require Import Prelude.
From Stdlib Require Import Ring Field.
#[local] Open Scope Z_scope.

(** The order of the field, [Felt::ORDER]. *)
Definition modulus : Z := 18446744069414584321.

Lemma modulus_eq : modulus = 2 ^ 64 - 2 ^ 32 + 1.
Proof. reflexivity. Qed.

Class Felt := {
  felt : Type;
  #[global] felt_eq_dec :: EqDecision felt;
  (** [Felt::as_canonical_u64] *)
  as_canonical_u64 : felt -> Z;
  (** [Felt::new_unchecked], used by the VM on canonical values only *)
  new_unchecked : Z -> felt;
  (** [Felt::from_u32] *)
  from_u32 : Z -> felt;
  ZERO : felt;
  ONE : felt;
  felt_add : felt -> felt -> felt;
  felt_sub : felt -> felt -> felt;
  felt_mul : felt -> felt -> felt;
  felt_neg : felt -> felt;
  (** [Field::inverse], specified on non-zero elements *)
  inverse : felt -> felt;

  canonical_range x : 0 <= as_canonical_u64 x < modulus;
  canonical_inj x y : as_canonical_u64 x = as_canonical_u64 y -> x = y;
  canonical_new z : 0 <= z < modulus -> as_canonical_u64 (new_unchecked z) = z;
  canonical_from_u32 z : 0 <= z < 2 ^ 32 -> as_canonical_u64 (from_u32 z) = z;
  canonical_ZERO : as_canonical_u64 ZERO = 0;
  canonical_ONE : as_canonical_u64 ONE = 1;
  canonical_add x y :
    as_canonical_u64 (felt_add x y) = (as_canonical_u64 x + as_canonical_u64 y) mod modulus;
  canonical_sub x y :
    as_canonical_u64 (felt_sub x y) = (as_canonical_u64 x - as_canonical_u64 y) mod modulus;
  canonical_mul x y :
    as_canonical_u64 (felt_mul x y) = (as_canonical_u64 x * as_canonical_u64 y) mod modulus;
  canonical_neg x : as_canonical_u64 (felt_neg x) = (- as_canonical_u64 x) mod modulus;
  inverse_mul x : x <> ZERO -> felt_mul (inverse x) x = ONE;
}.

Declare Scope felt_scope.
Delimit Scope felt_scope with F.
Bind Scope felt_scope with felt.
Infix "+" := felt_add : felt_scope.
Infix "-" := felt_sub : felt_scope.
Infix "*" := felt_mul : felt_scope.
Notation "- x" := (felt_neg x) : felt_scope.
(** [⟦x⟧] is the canonical integer of the element [x]. *)
Notation "⟦ x ⟧" := (as_canonical_u64 x%F) (format "⟦ x ⟧") : Z_scope.

Create Rewrite HintDb felt.
#[export] Hint Rewrite @canonical_ZERO @canonical_ONE @canonical_add @canonical_sub
  @canonical_mul @canonical_neg : felt.
#[export] Hint Rewrite @canonical_new @canonical_from_u32 using
  (unfold modulus; lia) : felt.

(** Bring the range of every canonical integer of the goal and the context into scope. *)
Ltac felt_ranges :=
  repeat match goal with
  | |- context [as_canonical_u64 ?x] =>
      lazymatch goal with
      | _ : 0 <= as_canonical_u64 x < modulus |- _ => fail
      | _ => pose proof (canonical_range x)
      end
  | _ : context [as_canonical_u64 ?x] |- _ =>
      lazymatch goal with
      | _ : 0 <= as_canonical_u64 x < modulus |- _ => fail
      | _ => pose proof (canonical_range x)
      end
  end.

Section Laws.
Context {F : Felt}.

Lemma felt_eq_iff (x y : felt) : x = y <-> ⟦x⟧ = ⟦y⟧.
Proof. split; [by intros -> | apply canonical_inj]. Qed.

Lemma new_canonical (x : felt) : new_unchecked ⟦x⟧ = x.
Proof. apply canonical_inj, canonical_new, canonical_range. Qed.
Lemma new_unchecked_0 : new_unchecked 0 = ZERO.
Proof. rewrite <-(new_canonical ZERO). f_equal. symmetry. apply canonical_ZERO. Qed.
Lemma new_unchecked_1 : new_unchecked 1 = ONE.
Proof. rewrite <-(new_canonical ONE). f_equal. symmetry. apply canonical_ONE. Qed.

(** Field equations are congruences between canonical integers. *)
Lemma felt_ring_theory : ring_theory ZERO ONE felt_add felt_mul felt_sub felt_neg eq.
Proof.
  split; intros; apply canonical_inj; autorewrite with felt;
    rewrite ?Z.add_mod_idemp_l, ?Z.add_mod_idemp_r, ?Z.mul_mod_idemp_l,
      ?Z.mul_mod_idemp_r, ?Z.sub_0_l, ?Z.add_0_l, ?Z.mul_1_l by done;
    rewrite <-?Z.add_mod by done;
    try (f_equal; ring); try (apply Z.mod_small, canonical_range).
  by rewrite Z.add_opp_diag_r.
Qed.

Lemma ONE_neq_ZERO : ONE <> ZERO.
Proof. rewrite felt_eq_iff. autorewrite with felt. lia. Qed.

Definition felt_div (x y : felt) : felt := (x * inverse y)%F.

Lemma felt_field_theory :
  field_theory ZERO ONE felt_add felt_mul felt_sub felt_neg felt_div inverse eq.
Proof.
  split; [apply felt_ring_theory | apply ONE_neq_ZERO | done | apply inverse_mul].
Qed.

Add Field felt_field_local : felt_field_theory.

Lemma felt_mul_zero (x y : felt) : (x * y)%F = ZERO -> x = ZERO \/ y = ZERO.
Proof.
  intros H. destruct (decide (x = ZERO)) as [->|Hx]; [by left|right].
  transitivity ((inverse x * x) * y)%F; [rewrite inverse_mul by done; ring|].
  transitivity (inverse x * (x * y))%F; [ring|]. rewrite H. ring.
Qed.

Lemma felt_sub_zero (x y : felt) : (x - y)%F = ZERO -> x = y.
Proof. intros H. transitivity ((x - y) + y)%F; [ring|]. rewrite H. ring. Qed.

Lemma felt_inverse_unique (x y : felt) : (x * y)%F = ONE -> y = inverse x.
Proof.
  intros H. assert (x <> ZERO) as Hx.
  { intros ->. apply ONE_neq_ZERO. rewrite <-H. ring. }
  transitivity ((inverse x * x) * y)%F; [rewrite inverse_mul by done; ring|].
  transitivity (inverse x * (x * y))%F; [ring|]. rewrite H. ring.
Qed.

(** An element is binary when it is [ZERO] or [ONE]; over the field this is
    the quadratic constraint [x * (x - 1) = 0]. *)
Definition is_binary (x : felt) : bool := bool_decide (x = ZERO) || bool_decide (x = ONE).

Lemma is_binary_spec x : is_binary x = true <-> x = ZERO \/ x = ONE.
Proof. unfold is_binary. by rewrite orb_true_iff, !bool_decide_eq_true. Qed.

(** Exact results: no reduction happens when the integers stay below the order. *)
Lemma canonical_add_small (x y : felt) : ⟦x⟧ + ⟦y⟧ < modulus -> ⟦x + y⟧ = ⟦x⟧ + ⟦y⟧.
Proof. intros. felt_ranges. rewrite canonical_add. apply Z.mod_small. lia. Qed.

Lemma canonical_mul_small (x y : felt) : ⟦x⟧ * ⟦y⟧ < modulus -> ⟦x * y⟧ = ⟦x⟧ * ⟦y⟧.
Proof. intros. felt_ranges. rewrite canonical_mul. apply Z.mod_small. nia. Qed.

Lemma canonical_sub_small (x y : felt) : ⟦y⟧ <= ⟦x⟧ -> ⟦x - y⟧ = ⟦x⟧ - ⟦y⟧.
Proof. intros. felt_ranges. rewrite canonical_sub. apply Z.mod_small. lia. Qed.
End Laws.

(** [u32] range test on a field element: [as_canonical_u64() <= u32::MAX]. *)
Definition is_u32 {F : Felt} (x : felt) : bool := ⟦x⟧ <=? 4294967295.

Lemma is_u32_spec {F : Felt} (x : felt) : is_u32 x = true <-> 0 <= ⟦x⟧ < 2 ^ 32.
Proof. unfold is_u32. felt_ranges. lia. Qed.

(** ** Integers in the field *)
From Stdlib Require Import Ring Zdiv.
Create Rewrite HintDb of_Z.

Section FeltInt.
Context {F : Felt}.

Definition of_Z (z : Z) : felt := new_unchecked (z mod modulus).

Lemma modulus_pos : 0 < modulus.
Proof. done. Qed.
Lemma canonical_of_Z z : ⟦of_Z z⟧ = z mod modulus.
Proof. apply canonical_new, Z.mod_pos_bound, modulus_pos. Qed.
Lemma of_Z_small z : 0 <= z < modulus -> of_Z z = new_unchecked z.
Proof. intros Hz. unfold of_Z. by rewrite Z.mod_small. Qed.
Lemma of_Z_canonical x : of_Z ⟦x⟧ = x.
Proof. rewrite of_Z_small by apply canonical_range. apply new_canonical. Qed.
Lemma of_Z_0 : of_Z 0 = ZERO.
Proof. rewrite of_Z_small by (unfold modulus; lia). apply new_unchecked_0. Qed.
Lemma of_Z_1 : of_Z 1 = ONE.
Proof. rewrite of_Z_small by (unfold modulus; lia). apply new_unchecked_1. Qed.
Lemma of_Z_add a b : of_Z (a + b) = (of_Z a + of_Z b)%F.
Proof. apply canonical_inj. by rewrite canonical_add, !canonical_of_Z, <-Z.add_mod by done. Qed.
Lemma of_Z_mul a b : of_Z (a * b) = (of_Z a * of_Z b)%F.
Proof. apply canonical_inj. by rewrite canonical_mul, !canonical_of_Z, <-Z.mul_mod by done. Qed.
Lemma of_Z_sub a b : of_Z (a - b) = (of_Z a - of_Z b)%F.
Proof. apply canonical_inj. by rewrite canonical_sub, !canonical_of_Z, <-Zminus_mod by done. Qed.
Lemma of_Z_neg a : of_Z (- a) = (- of_Z a)%F.
Proof.
  apply canonical_inj. rewrite canonical_neg, !canonical_of_Z. rewrite <-(Z.sub_0_l (a mod modulus)), <-(Z.sub_0_l a), Zminus_mod_idemp_r. done.
Qed.

(** Small integers are told apart. *)
Lemma of_Z_inj a b : 0 <= a < modulus -> 0 <= b < modulus -> of_Z a = of_Z b -> a = b.
Proof. intros Ha Hb H. apply (f_equal as_canonical_u64) in H. rewrite !canonical_of_Z, !Z.mod_small in H by done. done. Qed.
(** Integers whose difference is below the modulus are equal when their elements are. *)
Lemma of_Z_close a b : - modulus < a - b < modulus -> of_Z a = of_Z b -> a = b.
Proof.
  intros Hd H. apply (f_equal as_canonical_u64) in H. rewrite !canonical_of_Z in H.
  assert ((a - b) mod modulus = 0) as Hz by (rewrite Zminus_mod, H, Z.sub_diag; done).
  apply Z.mod_divide in Hz as [k Hk]; [|done]. pose proof modulus_pos. assert (k = 0) by nia. lia.
Qed.
End FeltInt.
#[export] Hint Rewrite @of_Z_add @of_Z_mul @of_Z_sub @of_Z_neg @of_Z_0 @of_Z_1 : of_Z.
