(* ===== verification/Goldilocks.v ===== *)
(** * The Goldilocks instance of the field interface

    Discharges the class [Felt] with integers modulo [2^64 - 2^32 + 1].  The
    one law with content, the existence of inverses, needs the order to be prime;
    the order is a Proth number [k * 2^32 + 1] with [k < 2^32], so a single
    modular exponentiation certifies it. *)

From S2P Require Import Prelude Field.
From Stdlib Require Import Znumtheory Zpow_facts Zmod.
#[local] Open Scope Z_scope.

Module Proth.
Lemma prime_two_le q : prime q -> 2 <= q.
Proof. intros Hq. apply Z.prime_ge_2. by apply prime_alt. Qed.

Lemma two_adic n : 0 < n -> exists j m, 0 <= j /\ 0 <= m /\ n = 2 ^ j * (2 * m + 1).
Proof.
  intros Hn. assert (0 <= n) as Hge by lia. revert Hn. pattern n.
  apply Z_lt_induction; [|done]. clear n Hge. intros n IH Hn.
  destruct (Z.Even_or_Odd n) as [[h ->] | [h ->]].
  - destruct (IH h) as (j & m & ? & ? & Hh); [lia..|].
    exists (j + 1), m. split_and!; [lia..|].
    rewrite Z.pow_add_r by lia. lia.
  - exists 0, h. lia.
Qed.

Lemma odd_power_minus_one q m : 1 < q -> 0 <= m -> (-1) ^ (2 * m + 1) mod q = (-1) mod q.
Proof.
  intros. rewrite Z.pow_add_r, Z.pow_mul_r by lia. change ((-1) ^ 2) with 1.
  by rewrite Z.pow_1_l by lia.
Qed.

(** A prime divisor [q] of a number for which some power [a^h] is [-1]
    modulo it satisfies [2^(e+1) | q - 1], where [2^e | h]. *)
Lemma prime_divisor_large n a e k q :
  prime q -> (q | n) -> 2 < q -> 0 <= e -> 0 <= k ->
  a ^ (2 ^ e * k) mod n = n - 1 -> 1 < n -> (2 ^ (e + 1) | q - 1).
Proof.
  intros Hq Hqn Hq2 He Hk Hpow Hn.
  set (b := a ^ k).
  assert (Hb : (b ^ 2 ^ e) mod q = (-1) mod q).
  { unfold b. rewrite <-Z.pow_mul_r, (Z.mul_comm k) by lia.
    rewrite <-(Z.mod_mod_divide _ n q), Hpow by done.
    destruct Hqn as [c ->]. replace (c * q - 1) with (-1 + c * q) by lia.
    apply Z.mod_add. lia. }
  assert (Hb0 : b mod q <> 0).
  { intros E. rewrite Zpower_mod, E, Z.pow_0_l in Hb by lia.
    rewrite Z.mod_0_l in Hb by lia.
    apply (f_equal (fun z => (z + 1) mod q)) in Hb.
    rewrite Z.add_mod_idemp_l in Hb by lia.
    change (-1 + 1) with 0 in Hb. rewrite Z.mod_0_l, Z.mod_small in Hb; lia. }
  pose proof (Z.fermat_nz q b (proj2 (prime_alt q) Hq) Hb0) as Hf.
  destruct (two_adic (q - 1)) as (j & m & Hj & Hm & Hqm); [lia|].
  destruct (Z.le_gt_cases (e + 1) j) as [Hle|Hgt].
  { exists (2 ^ (j - (e + 1)) * (2 * m + 1)). rewrite Hqm.
    replace j with ((j - (e + 1)) + (e + 1)) at 1 by lia.
    rewrite Z.pow_add_r by lia. ring. }
  exfalso.
  assert (H1 : b ^ (2 ^ e * (2 * m + 1)) mod q = 1).
  { replace (2 ^ e) with (2 ^ (e - j) * 2 ^ j) by (rewrite <-Z.pow_add_r by lia; f_equal; lia).
    replace (2 ^ (e - j) * 2 ^ j * (2 * m + 1)) with ((q - 1) * 2 ^ (e - j)) by lia.
    rewrite Z.pow_mul_r, Zpower_mod, Hf, Z.pow_1_l by lia. apply Z.mod_small. lia. }
  rewrite Z.pow_mul_r, Zpower_mod, Hb, <-Zpower_mod, odd_power_minus_one in H1 by lia.
  apply (f_equal (fun z => (z + 1) mod q)) in H1.
  rewrite Z.add_mod_idemp_l in H1 by lia.
  change (-1 + 1) with 0 in H1. change (1 + 1) with 2 in H1.
  rewrite Z.mod_0_l, Z.mod_small in H1; lia.
Qed.

Lemma small_prime_divisor n : 1 < n -> ~ prime n -> exists q, prime q /\ (q | n) /\ q * q <= n.
Proof.
  intros Hn Hnp.
  assert (Hpd : forall d, 1 < d -> exists q, prime q /\ (q | d) /\ q <= d).
  { intros d Hd. assert (0 <= d) as Hge by lia. revert Hd. pattern d.
    apply Z_lt_induction; [|done]. clear d Hge. intros d IH Hd.
    destruct (prime_dec d) as [Hp|Hp].
    - exists d. split_and!; [done | apply Z.divide_refl | lia].
    - destruct (not_prime_divide d Hd Hp) as (c & Hc & Hcd).
      destruct (IH c) as (q & ? & ? & ?); [lia..|].
      exists q. split_and!; [done | by apply Z.divide_trans with c | lia]. }
  destruct (not_prime_divide n Hn Hnp) as (d & Hd & [c Hc]).
  assert (1 < c) by nia.
  destruct (Z.le_gt_cases c d).
  - destruct (Hpd c) as (q & Hq & ? & ?); [done|]. exists q. split_and!; [done| |].
    + apply Z.divide_trans with c; [done|]. rewrite Hc. apply Z.divide_factor_l.
    + pose proof (prime_two_le q Hq). nia.
  - destruct (Hpd d) as (q & Hq & ? & ?); [lia|]. exists q. split_and!; [done| |].
    + apply Z.divide_trans with d; [done|]. rewrite Hc. apply Z.divide_factor_r.
    + pose proof (prime_two_le q Hq). nia.
Qed.
End Proth.

Lemma modulus_prime : prime modulus.
Proof.
  destruct (prime_dec modulus) as [|Hnp]; [done|exfalso].
  destruct (Proth.small_prime_divisor modulus) as (q & Hq & Hd & Hsq); [done..|].
  assert (q <> 2) as Hq2.
  { intros ->. destruct Hd as [c Hc]. unfold modulus in Hc. lia. }
  pose proof (Proth.prime_two_le q Hq).
  assert (2 < q) as Hq3 by lia.
  assert (0 <= 31 /\ 0 <= 2 ^ 32 - 1) as [He Hk] by lia.
  assert (7 ^ (2 ^ 31 * (2 ^ 32 - 1)) mod modulus = modulus - 1) as Hpow.
  { rewrite <-Zpow_mod_correct by done. vm_compute. reflexivity. }
  pose proof (Proth.prime_divisor_large modulus 7 31 (2 ^ 32 - 1) q Hq Hd Hq3 He Hk Hpow eq_refl)
    as [c Hc].
  clear Hpow.
  change (31 + 1) with 32 in Hc. change (2 ^ 32) with 4294967296 in Hc.
  unfold modulus in Hsq. nia.
Qed.

(** ** The executable instance *)

Lemma Zmod_range (x : Zmod modulus) : 0 <= Zmod.to_Z x < modulus.
Proof. destruct (Zmod.unsigned_range x) as [?|[H|H]]; [done | discriminate | unfold modulus in H; lia]. Qed.

#[refine] #[global] Instance Goldilocks : Felt := {|
  felt := Zmod modulus;
  felt_eq_dec x y := match Z.eq_dec (Zmod.to_Z x) (Zmod.to_Z y) with
                     | left e => left (Zmod.unsigned_inj _ _ _ e)
                     | right n => right (fun e => n (f_equal Zmod.to_Z e))
                     end;
  as_canonical_u64 x := Zmod.to_Z x;
  new_unchecked z := Zmod.of_Z modulus z;
  from_u32 z := Zmod.of_Z modulus z;
  ZERO := Zmod.zero;
  ONE := Zmod.one;
  felt_add := Zmod.add;
  felt_sub := Zmod.sub;
  felt_mul := Zmod.mul;
  felt_neg := Zmod.opp;
  inverse := Zmod.inv;
|}.
Proof.
  - apply Zmod_range.
  - apply Zmod.unsigned_inj.
  - intros z Hz. rewrite Zmod.unsigned_of_Z. by apply Z.mod_small.
  - intros z Hz. rewrite Zmod.unsigned_of_Z. apply Z.mod_small. unfold modulus. lia.
  - reflexivity.
  - reflexivity.
  - intros. apply Zmod.unsigned_add.
  - intros. apply Zmod.unsigned_sub.
  - intros. apply Zmod.unsigned_mul.
  - intros. apply Zmod.unsigned_opp.
  - intros x Hx. apply Zmod.mul_inv_same_l_prime; [apply prime_alt, modulus_prime | done].
Defined.
