(* ===== verification/Types.v ===== *)
(** * Data shared by the components of the processor

    Words, extension-field elements, the errors of [processor/src/errors.rs] and
    the helper registers of [processor/src/tracer.rs]; and the interfaces of the
    parts of the [miden-crypto] package the processor calls: the quadratic
    extension [QuadFelt], the Poseidon2 permutation and the Merkle store. *)

From stdpp Require Export gmap.
From S2P Require Import Prelude Field.
From Stdlib Require Import String.
#[local] Open Scope Z_scope.

(** ** Words: four field elements *)

Record Word {F : Felt} := mkWord { w0 : felt; w1 : felt; w2 : felt; w3 : felt }.
Arguments Word : clear implicits.
Arguments Word {F}.
Arguments mkWord {F}.

Section Words.
Context {F : Felt}.

Definition WORD_SIZE : nat := 4.

Definition EMPTY_WORD : Word := mkWord ZERO ZERO ZERO ZERO.

Definition word_elements (w : Word) : list felt := [w0 w; w1 w; w2 w; w3 w].

(** [word[i]]; an index past 3 panics in the source, so callers match on it. *)
Definition word_get (w : Word) (i : nat) : option felt := word_elements w !! i.

Definition word_set (w : Word) (i : nat) (v : felt) : Word :=
  match i with
  | 0%nat => mkWord v (w1 w) (w2 w) (w3 w)
  | 1%nat => mkWord (w0 w) v (w2 w) (w3 w)
  | 2%nat => mkWord (w0 w) (w1 w) v (w3 w)
  | _ => mkWord (w0 w) (w1 w) (w2 w) v
  end.

#[global] Instance felt_countable : Countable felt :=
  inj_countable' as_canonical_u64 new_unchecked new_canonical.

#[global] Instance word_eq_dec : EqDecision Word.
Proof. solve_decision. Defined.

Definition word_tuple (w : Word) := (w0 w, w1 w, w2 w, w3 w).
Definition word_of_tuple (t : felt * felt * felt * felt) : Word :=
  let '(a, b, c, d) := t in mkWord a b c d.

#[global] Instance word_countable : Countable Word.
Proof. by refine (inj_countable' word_tuple word_of_tuple _); intros []. Defined.
End Words.

(** ** The quadratic extension field

    [QuadFelt] is [F_p[x] / (x^2 - 7)]; its operations are given by their effect
    on the two basis coefficients. *)
Class Quad {F : Felt} := {
  QuadFelt : Type;
  #[global] quad_eq_dec :: EqDecision QuadFelt;
  (** [QuadFelt::from_basis_coefficients_fn] on a pair of coefficients *)
  quad_new : felt -> felt -> QuadFelt;
  coef0 : QuadFelt -> felt;
  coef1 : QuadFelt -> felt;
  (** [QuadFelt::from(Felt)] *)
  quad_from : felt -> QuadFelt;
  quad_add : QuadFelt -> QuadFelt -> QuadFelt;
  quad_sub : QuadFelt -> QuadFelt -> QuadFelt;
  quad_mul : QuadFelt -> QuadFelt -> QuadFelt;
  (** [QuadFelt * Felt] *)
  quad_scale : QuadFelt -> felt -> QuadFelt;
  (** [Field::inverse], specified on non-zero elements *)
  quad_inverse : QuadFelt -> QuadFelt;

  coef0_new a b : coef0 (quad_new a b) = a;
  coef1_new a b : coef1 (quad_new a b) = b;
  quad_ext x y : coef0 x = coef0 y -> coef1 x = coef1 y -> x = y;
  quad_from_new a : quad_from a = quad_new a ZERO;
  quad_add_new x y : quad_add x y = quad_new (coef0 x + coef0 y)%F (coef1 x + coef1 y)%F;
  quad_sub_new x y : quad_sub x y = quad_new (coef0 x - coef0 y)%F (coef1 x - coef1 y)%F;
  quad_mul_new x y :
    quad_mul x y = quad_new (coef0 x * coef0 y + new_unchecked 7 * (coef1 x * coef1 y))%F
                            (coef0 x * coef1 y + coef1 x * coef0 y)%F;
  quad_scale_new x a : quad_scale x a = quad_new (coef0 x * a)%F (coef1 x * a)%F;
  quad_inverse_mul x : x <> quad_new ZERO ZERO -> quad_mul x (quad_inverse x) = quad_new ONE ZERO;
}.

(** ** Hashing and Merkle trees *)

(** The state of the Poseidon2 sponge: two rate words and the capacity word
    (ranges [0..4], [4..8] and [8..12] of the 12-element array). *)
Definition HasherState {F : Felt} : Type := Word * Word * Word.

Class Crypto {F : Felt} := {
  (** [Poseidon2::apply_permutation] *)
  apply_permutation : HasherState -> HasherState;
  (** [Poseidon2::merge_in_domain], [Poseidon2::hash_elements] *)
  merge_in_domain : Word -> Word -> felt -> Word;
  hash_elements : list felt -> Word;
  NodeIndex : Type;
  (** [NodeIndex::from_elements(depth, index)] *)
  node_index_from_elements : felt -> felt -> option NodeIndex;
  MerklePath : Type;
  path_len : MerklePath -> Z;
  (** [MerklePath::compute_root(index, node)] *)
  compute_root : MerklePath -> Z -> Word -> option Word;
  (** [MerklePath::verify(index, node, root).is_ok()] *)
  path_verify : MerklePath -> Z -> Word -> Word -> bool;
  MerkleStore : Type;
  store_get_node : MerkleStore -> Word -> NodeIndex -> option Word;
  store_get_path : MerkleStore -> Word -> NodeIndex -> option MerklePath;
  (** [MerkleStore::set_node]: the updated store, the path and the new root *)
  store_set_node : MerkleStore -> Word -> NodeIndex -> Word -> option (MerkleStore * MerklePath * Word);
  store_merge_roots : MerkleStore -> Word -> Word -> option (MerkleStore * Word);
  store_has_path : MerkleStore -> Word -> NodeIndex -> bool;
  (** [NodeIndex::root] *)
  node_index_root : NodeIndex;
  InnerNodeInfo : Type;
  (** [Extend::extend] *)
  store_extend : MerkleStore -> list InnerNodeInfo -> MerkleStore;
  (** [Ord for Word], the order in which a [BTreeMap] keyed by words is iterated *)
  word_le : Word -> Word -> Prop;
  #[global] word_le_dec :: forall a b, Decision (word_le a b);
  (** A path verifies against a root exactly when it computes that root. *)
  path_verify_spec p index node root :
    path_verify p index node root = true <-> compute_root p index node = Some root;
}.

(** ** Errors *)

(** [ContextId] is a [u32]; the root context is 0. *)
Definition ContextId := Z.
Definition root_context : ContextId := 0.

Section Errors.
Context {F : Felt}.

Inductive MemoryError :=
  | AddressOutOfBounds (addr : Z)
  | IllegalMemoryAccess (ctx : ContextId) (addr : Z) (clk : Z)
  | UnalignedWordAccess (addr : Z) (ctx : ContextId)
  | InvalidMemoryRange (start_addr end_addr : Z).

Inductive AdviceError :=
  | StackReadFailed
  | StackSizeExceeded (push_count max : nat)
  | MapKeyNotFound (key : Word)
  | AdvMapValueSizeExceeded (size max : nat)
  | MapKeyAlreadyPresent (key : Word) (prev_values new_values : list felt)
  | InvalidMerkleTreeNodeIndex (depth index : felt)
  | MerkleStoreLookupFailed
  | MerkleStoreUpdateFailed
  | MerkleStoreMergeFailed.

(** The cases of [OperationError::FriError], which carries a message. *)
Inductive FriErrorKind :=
  | FriDomainSizeZero
  | FriDomainSegmentTooLarge (segment : Z)
  | FriInconsistentProjection.

(** The messages of [AceError]. *)
Inductive AceErrorKind :=
  | AceTooManyWires (num_wires : Z)
  | AceBadNumVars (num_vars : Z)
  | AceBadNumEval (num_eval : Z)
  | AceDecodeFailed
  | AceWireReadFailed
  | AceNonZeroOutput.

Inductive OperationError :=
  | CircularExternalNode (digest : Word)
  | DivideByZero
  | FailedAssertion (err_code : felt)
  | U32AssertionFailed (err_code : felt) (invalid_values : list felt)
  | FriError (kind : FriErrorKind)
  | InvalidMerklePathLength (path_len : Z) (depth : felt)
  | InvalidStackDepthOnReturn (depth : nat)
  | LogArgumentZero
  | MalformedMastForestInHost (root_digest : Word)
  | MerklePathVerificationFailed (value : Word) (index : felt) (root : Word) (err_code : felt)
  | NotBinaryValue (value : felt)
  | NotBinaryValueIf (value : felt)
  | NotBinaryValueLoop (value : felt)
  | NotU32Values (values : list felt)
  | SyscallTargetNotInKernel (proc_root : Word).

Inductive ExecutionError :=
  | AdviceErr (e : AdviceError)
  | AceChipletErr (e : AceErrorKind)
  | CycleLimitExceeded (max_cycles : Z)
  | EventErr (event_id : felt)
  | InternalErr (msg : string)
  | MemoryErr (e : MemoryError)
  | OperationErr (e : OperationError)
  | OutputStackOverflow (n : nat)
  | ProcedureNotFound (root_digest : Word)
  | TraceLenExceeded (max : nat).
End Errors.

(** Results of the operation handlers. *)
Abbreviation result := (outcome ExecutionError).

(** The buffer of the operand stack is exhausted: the one error a machine with an
    unbounded operand stack does not have. *)
Definition stack_overflow {F : Felt} : ExecutionError   := InternalErr "stack overflow"%string.

(** ** Helper registers produced by the operations *)
Inductive OperationHelperRegisters {F : Felt} {Q : Quad} :=
  | HEq (stack_second stack_first : felt)
  | HU32Split (lo hi : felt)
  | HEqz (top : felt)
  | HExpacc (acc_update_val : felt)
  | HFriExt2Fold4 (ev es : QuadFelt) (x x_inv : felt)
  | HU32Add (sum carry : felt)
  | HU32Add3 (sum carry : felt)
  | HU32Sub (second_new : felt)
  | HU32Mul (lo hi : felt)
  | HU32Madd (lo hi : felt)
  | HU32Div (lo hi : felt)
  | HU32Assert2 (first second : felt)
  | HHPerm (addr : felt)
  | HMerklePath (addr : felt)
  | HHornerEvalBase (alpha tmp0 tmp1 : QuadFelt)
  | HHornerEvalExt (alpha : QuadFelt) (k0 k1 : felt) (acc_tmp : QuadFelt)
  | HLogPrecompile (addr : felt) (cap_prev : Word)
  | HEmpty.

(** ** The quadratic extension as a ring *)
From Stdlib Require Import Ring.
(** ** The ring of the quadratic extension *)
Section QuadRing.
Context {F : Felt} {Q : Quad}.

Add Ring felt_ring_quad : felt_ring_theory.

Definition quad_neg (x : QuadFelt) : QuadFelt := quad_sub (quad_new ZERO ZERO) x.

Lemma quad_ring_theory :
  ring_theory (quad_new ZERO ZERO) (quad_new ONE ZERO) quad_add quad_mul quad_sub quad_neg eq.
Proof.
  split; intros; unfold quad_neg; apply quad_ext;
    rewrite ?quad_add_new, ?quad_mul_new, ?quad_sub_new, ?coef0_new, ?coef1_new;
    rewrite ?quad_add_new, ?quad_mul_new, ?quad_sub_new, ?coef0_new, ?coef1_new; ring.
Qed.

Lemma quad_scale_from x a : quad_scale x a = quad_mul x (quad_from a).
Proof.
  rewrite quad_scale_new, quad_from_new, quad_mul_new, coef0_new, coef1_new. f_equal; ring.
Qed.

Lemma quad_from_mul a b : quad_from (a * b)%F = quad_mul (quad_from a) (quad_from b).
Proof. rewrite !quad_from_new, quad_mul_new, !coef0_new, !coef1_new. f_equal; ring. Qed.

Lemma quad_from_neg a : quad_from (- a)%F = quad_neg (quad_from a).
Proof. unfold quad_neg. rewrite !quad_from_new, quad_sub_new, !coef0_new, !coef1_new. f_equal; ring. Qed.

Lemma quad_eta (x : QuadFelt) : quad_new (coef0 x) (coef1 x) = x.
Proof. apply quad_ext; [apply coef0_new|apply coef1_new]. Qed.

#[global] Instance quad_countable : Countable QuadFelt.
Proof.
  refine (inj_countable' (fun x => (coef0 x, coef1 x)) (fun '(a, b) => quad_new a b) _). intros x. apply quad_eta.
Defined.

Add Ring quad_ring_local : quad_ring_theory.

(** There are no zero divisors. *)
Lemma quad_mul_zero (x y : QuadFelt) :
  quad_mul x y = quad_new ZERO ZERO -> x = quad_new ZERO ZERO \/ y = quad_new ZERO ZERO.
Proof.
  intros H. destruct (decide (x = quad_new ZERO ZERO)) as [|Hx]; [by left|]. right.
  assert (y = quad_mul (quad_mul x (quad_inverse x)) y) as -> by (rewrite quad_inverse_mul by done; ring).
  replace (quad_mul (quad_mul x (quad_inverse x)) y) with (quad_mul (quad_inverse x) (quad_mul x y)) by ring.
  rewrite H. ring.
Qed.

(** ** Polynomials *)

(** The value at [x] of the polynomial with the given coefficients, constant one first. *)
Fixpoint eval_poly (cs : list QuadFelt) (x : QuadFelt) : QuadFelt :=
  match cs with
  | [] => quad_new ZERO ZERO
  | c :: cs => quad_add c (quad_mul x (eval_poly cs x))
  end.

(** Horner's rule over a list, highest coefficient first. *)
Lemma horner_fold x cs hs acc : acc = eval_poly (reverse hs) x ->
  foldl (fun acc c => quad_add (quad_mul acc x) c) acc cs = eval_poly (reverse (hs ++ cs)) x.
Proof.
  revert hs acc. induction cs as [|c cs IH]; intros hs acc ->; [by rewrite app_nil_r|]. cbn [foldl].
  rewrite (IH (hs ++ [c])); [by rewrite <-app_assoc|]. rewrite reverse_app. cbn. ring.
Qed.

Lemma horner_fold_ext x cs hs acc : acc = eval_poly (reverse hs) x ->
  foldl (fun acc c => quad_add c (quad_mul x acc)) acc cs = eval_poly (reverse (hs ++ cs)) x.
Proof.
  revert hs acc. induction cs as [|c cs IH]; intros hs acc ->; [by rewrite app_nil_r|]. cbn [foldl].
  rewrite (IH (hs ++ [c])); [by rewrite <-app_assoc|]. rewrite reverse_app. done.
Qed.
End QuadRing.
