(* ===== verification/Events.v ===== *)
(** * System events

    [core/src/events/]: the events the processor handles itself.  An event is
    identified on the operand stack by a field element; the table of identifiers is
    fixed in the source. *)

From S2P Require Import Prelude Field.
#[local] Open Scope Z_scope.

Inductive SystemEvent :=
  | MerkleNodeMerge
  | MerkleNodeToStack
  | MapValueToStack
  | MapValueCountToStack
  | MapValueToStackN0
  | MapValueToStackN4
  | MapValueToStackN8
  | HasMapKey
  | Ext2Inv
  | U32Clz
  | U32Ctz
  | U32Clo
  | U32Cto
  | ILog2
  | MemToMap
  | HdwordToMap
  | HdwordToMapWithDomain
  | HqwordToMap
  | HpermToMap.

#[global] Instance SystemEvent_eq_dec : EqDecision SystemEvent.
Proof. solve_decision. Defined.

(** [EventId::from_u64] reduces modulo the order of the field. *)
Definition EventId_from_u64 (event_id : Z) : Z := event_id mod modulus.

(** [SystemEvent::LOOKUP] *)
Definition LOOKUP_raw : list (Z * SystemEvent) :=
  [(7243907139105902342, MerkleNodeMerge);
   (6873007751276594108, MerkleNodeToStack);
   (17843484659000820118, MapValueToStack);
   (3470274154276391308, MapValueCountToStack);
   (11775886982554463322, MapValueToStackN0);
   (3443305460233942990, MapValueToStackN4);
   (1741586542981559489, MapValueToStackN8);
   (5642583036089175977, HasMapKey);
   (9660728691489438960, Ext2Inv);
   (1503707361178382932, U32Clz);
   (10656887096526143429, U32Ctz);
   (12846584985739176048, U32Clo);
   (6773574803673468616, U32Cto);
   (7444351342957461231, ILog2);
   (5768534446586058686, MemToMap);
   (5988159172915333521, HdwordToMap);
   (6143777601072385586, HdwordToMapWithDomain);
   (11723176702659679401, HqwordToMap);
   (6190830263511605775, HpermToMap)].
Definition LOOKUP : list (Z * SystemEvent) :=
  (fun '(id, ev) => (EventId_from_u64 id, ev)) <$> LOOKUP_raw.

(** The discriminant, the index of an event in the table. *)
Definition discriminant (ev : SystemEvent) : nat :=
  match ev with
  | MerkleNodeMerge => 0
  | MerkleNodeToStack => 1
  | MapValueToStack => 2
  | MapValueCountToStack => 3
  | MapValueToStackN0 => 4
  | MapValueToStackN4 => 5
  | MapValueToStackN8 => 6
  | HasMapKey => 7
  | Ext2Inv => 8
  | U32Clz => 9
  | U32Ctz => 10
  | U32Clo => 11
  | U32Cto => 12
  | ILog2 => 13
  | MemToMap => 14
  | HdwordToMap => 15
  | HdwordToMapWithDomain => 16
  | HqwordToMap => 17
  | HpermToMap => 18
  end.

(** [SystemEvent::event_id] *)
Definition event_id (ev : SystemEvent) : Z :=
  match LOOKUP !! discriminant ev with
  | Some (id, _) => id
  | None => 0
  end.

(** [SystemEvent::from_event_id]: the first entry with the identifier. *)
Definition from_event_id (id : Z) : option SystemEvent :=
  snd <$> List.find (fun entry => fst entry =? id) LOOKUP.

(** [SystemEvent::all] *)
Definition all_events : list SystemEvent :=
  [MerkleNodeMerge; MerkleNodeToStack; MapValueToStack; MapValueCountToStack; MapValueToStackN0; MapValueToStackN4; MapValueToStackN8; HasMapKey; Ext2Inv; U32Clz; U32Ctz; U32Clo; U32Cto; ILog2; MemToMap; HdwordToMap; HdwordToMapWithDomain; HqwordToMap; HpermToMap].

Lemma all_events_complete ev : ev ∈ all_events.
Proof. apply (bool_decide_eq_true_1 _). by destruct ev. Qed.

Lemma event_id_range ev : 0 <= event_id ev < modulus.
Proof. destruct ev; vm_compute; by split. Qed.

(** Looking up the identifier of an event finds the event: the table lists the
    events in the order of their discriminants and no identifier occurs twice. *)
Lemma from_event_id_event_id ev : from_event_id (event_id ev) = Some ev.
Proof. destruct ev; vm_compute; reflexivity. Qed.

Lemma from_event_id_sound id ev : from_event_id id = Some ev -> id = event_id ev.
Proof.
  unfold from_event_id. intros H.
  destruct (List.find _ LOOKUP) as [[i e]|] eqn:Hf; cbn in H; simplify_eq.
  apply List.find_some in Hf as [Hin Heq]. cbn in Heq. apply Z.eqb_eq in Heq. subst i.
  assert (forallb (fun '(i, e) => i =? event_id e) LOOKUP = true) as Hall by (vm_compute; reflexivity).
  rewrite forallb_forall in Hall. specialize (Hall _ Hin). cbn in Hall. by apply Z.eqb_eq.
Qed.
