(* ===== verification/Instances.v ===== *)
(** * Concrete instances of the interfaces

    The quadratic extension of the Goldilocks field, and a small executable
    stand-in for the cryptographic package: a sponge permutation that mixes with
    field arithmetic, Merkle trees whose inner nodes are one permutation of their
    children, and a Merkle store that keeps inner nodes by digest.  It is no
    cryptography; it shows that the interfaces of [Types.v] are inhabited and
    lets the witnesses run the whole processor. *)

From S2P Require Import Prelude Field Goldilocks Types.
From Stdlib Require Import Ring Znumtheory Zpow_facts Zmod.
#[local] Open Scope Z_scope.

(** ** [QuadFelt] as a pair of coefficients *)

Add Ring goldilocks_ring : (@felt_ring_theory Goldilocks).

(** 7 is not a square: its power to half the order of the group is [-1]. *)
Lemma seven_nonresidue a b : 0 < b < modulus -> (a * a) mod modulus <> (7 * (b * b)) mod modulus.
Proof.
  intros Hb H. set (h := 2 ^ 31 * (2 ^ 32 - 1)).
  assert (0 <= h) as Hh by (vm_compute; done). assert (modulus - 1 = 2 * h) as Hmh by reflexivity.
  assert (7 ^ h mod modulus = modulus - 1) as H7.
  { rewrite <-Zpow_mod_correct by done. vm_compute. reflexivity. }
  assert (forall z, z mod modulus <> 0 -> (z * z) ^ h mod modulus = 1) as Hfermat.
  { intros z Hz. replace (z * z) with (z ^ 2) by ring. rewrite <-Z.pow_mul_r, <-Hmh by lia.
    apply Z.fermat_nz; [apply prime_alt, modulus_prime|done]. }
  assert (b mod modulus <> 0) as Hb0 by (rewrite Z.mod_small; lia).
  assert (a mod modulus <> 0) as Ha0.
  { intros Ha. rewrite Z.mul_mod, Ha, Z.mul_0_l, Z.mod_0_l in H by done. symmetry in H.
    apply Z.mod_divide in H; [|done]. apply prime_mult in H as [H|H]; [| |apply modulus_prime].
    - apply Z.divide_pos_le in H; unfold modulus in H; lia.
    - apply prime_mult in H; [|apply modulus_prime]. apply Hb0, Z.mod_divide; [done|tauto]. }
  pose proof (Hfermat a Ha0) as Hpa. pose proof (Hfermat b Hb0) as Hpb.
  rewrite Zpower_mod, H, <-Zpower_mod, Z.pow_mul_l, Z.mul_mod, H7, Hpb in Hpa by done.
  vm_compute in Hpa. discriminate Hpa.
Qed.

Definition quad_norm (x : felt * felt) : felt := (x.1 * x.1 - new_unchecked 7 * (x.2 * x.2))%F.

Lemma quad_norm_nonzero x : x <> (ZERO, ZERO) -> quad_norm x <> ZERO.
Proof.
  destruct x as [a b]. intros Hx Hn. unfold quad_norm in Hn. cbn [fst snd] in Hn.
  apply felt_sub_zero in Hn. pose proof (f_equal as_canonical_u64 Hn) as Hz.
  rewrite !canonical_mul, (canonical_new 7), Z.mul_mod_idemp_r in Hz by (unfold modulus; done || lia).
  destruct (decide (b = ZERO)) as [->|Hb].
  - rewrite canonical_ZERO in Hz. change ((7 * (0 * 0)) mod modulus) with 0 in Hz.
    destruct (felt_mul_zero a a) as [->| ->]; [|done..].
    apply canonical_inj. by rewrite canonical_mul, Hz, canonical_ZERO.
  - apply (seven_nonresidue ⟦a⟧ ⟦b⟧) in Hz; [done|]. pose proof (canonical_range b).
    assert (⟦b⟧ <> 0); [|lia]. intros H0. apply Hb, canonical_inj. by rewrite canonical_ZERO.
Qed.

#[refine] #[global] Instance GoldilocksQuad : Quad := {|
  QuadFelt := felt * felt;
  quad_new a b := (a, b);
  coef0 := fst;
  coef1 := snd;
  quad_from a := (a, ZERO);
  quad_add x y := (x.1 + y.1, x.2 + y.2)%F;
  quad_sub x y := (x.1 - y.1, x.2 - y.2)%F;
  quad_mul x y := (x.1 * y.1 + new_unchecked 7 * (x.2 * y.2), x.1 * y.2 + x.2 * y.1)%F;
  quad_scale x a := (x.1 * a, x.2 * a)%F;
  quad_inverse x := let n := inverse (quad_norm x) in (x.1 * n, - (x.2 * n))%F;
|}.
Proof.
  all: try reflexivity.
  - intros [] []. simpl. by intros -> ->.
  - intros [a b] Hx. cbn [fst snd]. assert (quad_norm (a, b) <> ZERO) as Hn by by apply quad_norm_nonzero.
    pose proof (inverse_mul _ Hn) as Hi. revert Hi. unfold quad_norm. cbn [fst snd].
    set (n := inverse _). intros Hi. f_equal; [|ring]. rewrite <-Hi. ring.
Defined.

(** ** The toy cryptographic package *)
Module ToyCrypto.

Definition mix (seed : Z) (a b c : felt) : felt := (a * a + b * new_unchecked seed + c)%F.

(** Every output element depends on three input elements. *)
Definition permutation (s : HasherState) : HasherState :=
  let '(r0, r1, cap) := s in
  (mkWord (mix 3 (w0 r0) (w0 r1) (w0 cap)) (mix 5 (w1 r0) (w1 r1) (w1 cap))
          (mix 7 (w2 r0) (w2 r1) (w2 cap)) (mix 11 (w3 r0) (w3 r1) (w3 cap)),
   mkWord (mix 13 (w0 r1) (w1 r0) (w2 cap)) (mix 17 (w1 r1) (w2 r0) (w3 cap))
          (mix 19 (w2 r1) (w3 r0) (w0 cap)) (mix 23 (w3 r1) (w0 r0) (w1 cap)),
   mkWord (w1 cap) (w2 cap) (w3 cap) (w0 cap)).

Definition merge (l r : Word) : Word := (permutation (l, r, EMPTY_WORD)).1.1.

(** Absorb eight elements at a time. *)
Fixpoint absorb (l : list felt) (s : HasherState) : Word :=
  match l with
  | a0 :: a1 :: a2 :: a3 :: a4 :: a5 :: a6 :: a7 :: l =>
    absorb l (permutation (mkWord a0 a1 a2 a3, mkWord a4 a5 a6 a7, s.2))
  | a :: l => absorb l (permutation (mkWord a ZERO ZERO ZERO, s.1.2, s.2))
  | [] => s.1.1
  end.

(** Siblings from the leaf to the root; the low bit of the index selects the side. *)
Fixpoint root_of (path : list Word) (index : Z) (node : Word) : Word :=
  match path with
  | [] => node
  | s :: path => root_of path (index / 2) (if Z.odd index then merge s node else merge node s)
  end.

Definition path_root (path : list Word) (index : Z) (node : Word) : option Word :=
  if index / 2 ^ Z.of_nat (length path) =? 0 then Some (root_of path index node) else None.

(** Inner nodes by digest. *)
Definition store : Type := gmap Word (Word * Word).
Definition node_id : Type := nat * Z.

Definition from_elements (depth index : felt) : option node_id :=
  if (⟦depth⟧ <=? 64) && (⟦index⟧ <? 2 ^ ⟦depth⟧) then Some (Z.to_nat ⟦depth⟧, ⟦index⟧) else None.

(** The node at an index, with its siblings from the leaf to the root. *)
Fixpoint walk (m : store) (root : Word) (depth : nat) (index : Z) (path : list Word) :
    option (Word * list Word) :=
  match depth with
  | O => Some (root, path)
  | S d =>
    '(l, r) ← m !! root;
    if Z.testbit index (Z.of_nat d) then walk m r d index (l :: path) else walk m l d index (r :: path)
  end.

(** Add the inner nodes from a leaf up. *)
Fixpoint add_path (m : store) (path : list Word) (index : Z) (node : Word) : store * Word :=
  match path with
  | [] => (m, node)
  | s :: path =>
    let '(l, r) := if Z.odd index then (s, node) else (node, s) in
    add_path (<[merge l r := (l, r)]> m) path (index / 2) (merge l r)
  end.

Definition set_node (m : store) (root : Word) (i : node_id) (value : Word) : option (store * list Word * Word) :=
  '(_, path) ← walk m root i.1 i.2 [];
  let '(m', root') := add_path m path i.2 value in
  Some (m', path, root').

(** Words as integers in base [2^64], to order them. *)
Definition word_rank (w : Word) : Z :=
  ((⟦w0 w⟧ * 2 ^ 64 + ⟦w1 w⟧) * 2 ^ 64 + ⟦w2 w⟧) * 2 ^ 64 + ⟦w3 w⟧.
End ToyCrypto.

#[refine] #[global] Instance Toy : Crypto := {|
  apply_permutation := ToyCrypto.permutation;
  merge_in_domain l r d := (ToyCrypto.permutation (l, r, mkWord ZERO d ZERO ZERO)).1.1;
  hash_elements l := ToyCrypto.absorb l (EMPTY_WORD, EMPTY_WORD, EMPTY_WORD);
  NodeIndex := ToyCrypto.node_id;
  node_index_from_elements := ToyCrypto.from_elements;
  MerklePath := list Word;
  path_len p := Z.of_nat (length p);
  compute_root := ToyCrypto.path_root;
  path_verify p index node root := bool_decide (ToyCrypto.path_root p index node = Some root);
  MerkleStore := ToyCrypto.store;
  store_get_node m root i := fst <$> ToyCrypto.walk m root i.1 i.2 [];
  store_get_path m root i := snd <$> ToyCrypto.walk m root i.1 i.2 [];
  store_set_node := ToyCrypto.set_node;
  store_merge_roots m l r := Some (<[ToyCrypto.merge l r := (l, r)]> m, ToyCrypto.merge l r);
  store_has_path m root i := bool_decide (is_Some (ToyCrypto.walk m root i.1 i.2 []));
  node_index_root := (0%nat, 0);
  InnerNodeInfo := Word * Word;
  store_extend m infos := foldl (fun m '(l, r) => <[ToyCrypto.merge l r := (l, r)]> m) m infos;
  word_le a b := ToyCrypto.word_rank a <= ToyCrypto.word_rank b;
|}.
Proof.
  - intros a b. apply Z.le_dec.
  - intros. apply bool_decide_eq_true.
Defined.
