(* ===== verification/Operations.v ===== *)
(** * Operations of the virtual machine

    The operation set of [core/src/operations/mod.rs]: opcodes, the enum of basic
    block operations, its classification by stack effect and its binary encoding. *)

From S2P Require Import Prelude Field Types.
#[local] Open Scope Z_scope.

(** ** Opcodes *)
Module opcodes.
Definition NOOP : Z := 0. (* 0b00000000 *)
Definition EQZ : Z := 1. (* 0b00000001 *)
Definition NEG : Z := 2. (* 0b00000010 *)
Definition INV : Z := 3. (* 0b00000011 *)
Definition INCR : Z := 4. (* 0b00000100 *)
Definition NOT : Z := 5. (* 0b00000101 *)
Definition MLOAD : Z := 7. (* 0b00000111 *)
Definition SWAP : Z := 8. (* 0b00001000 *)
Definition CALLER : Z := 9. (* 0b00001001 *)
Definition MOVUP2 : Z := 10. (* 0b00001010 *)
Definition MOVDN2 : Z := 11. (* 0b00001011 *)
Definition MOVUP3 : Z := 12. (* 0b00001100 *)
Definition MOVDN3 : Z := 13. (* 0b00001101 *)
Definition ADVPOPW : Z := 14. (* 0b00001110 *)
Definition EXPACC : Z := 15. (* 0b00001111 *)
Definition MOVUP4 : Z := 16. (* 0b00010000 *)
Definition MOVDN4 : Z := 17. (* 0b00010001 *)
Definition MOVUP5 : Z := 18. (* 0b00010010 *)
Definition MOVDN5 : Z := 19. (* 0b00010011 *)
Definition MOVUP6 : Z := 20. (* 0b00010100 *)
Definition MOVDN6 : Z := 21. (* 0b00010101 *)
Definition MOVUP7 : Z := 22. (* 0b00010110 *)
Definition MOVDN7 : Z := 23. (* 0b00010111 *)
Definition SWAPW : Z := 24. (* 0b00011000 *)
Definition EXT2MUL : Z := 25. (* 0b00011001 *)
Definition MOVUP8 : Z := 26. (* 0b00011010 *)
Definition MOVDN8 : Z := 27. (* 0b00011011 *)
Definition SWAPW2 : Z := 28. (* 0b00011100 *)
Definition SWAPW3 : Z := 29. (* 0b00011101 *)
Definition SWAPDW : Z := 30. (* 0b00011110 *)
Definition EMIT : Z := 31. (* 0b00011111 *)
Definition ASSERT : Z := 32. (* 0b00100000 *)
Definition EQ : Z := 33. (* 0b00100001 *)
Definition ADD : Z := 34. (* 0b00100010 *)
Definition MUL : Z := 35. (* 0b00100011 *)
Definition AND : Z := 36. (* 0b00100100 *)
Definition OR : Z := 37. (* 0b00100101 *)
Definition U32AND : Z := 38. (* 0b00100110 *)
Definition U32XOR : Z := 39. (* 0b00100111 *)
Definition FRIE2F4 : Z := 40. (* 0b00101000 *)
Definition DROP : Z := 41. (* 0b00101001 *)
Definition CSWAP : Z := 42. (* 0b00101010 *)
Definition CSWAPW : Z := 43. (* 0b00101011 *)
Definition MLOADW : Z := 44. (* 0b00101100 *)
Definition MSTORE : Z := 45. (* 0b00101101 *)
Definition MSTOREW : Z := 46. (* 0b00101110 *)
Definition PAD : Z := 48. (* 0b00110000 *)
Definition DUP0 : Z := 49. (* 0b00110001 *)
Definition DUP1 : Z := 50. (* 0b00110010 *)
Definition DUP2 : Z := 51. (* 0b00110011 *)
Definition DUP3 : Z := 52. (* 0b00110100 *)
Definition DUP4 : Z := 53. (* 0b00110101 *)
Definition DUP5 : Z := 54. (* 0b00110110 *)
Definition DUP6 : Z := 55. (* 0b00110111 *)
Definition DUP7 : Z := 56. (* 0b00111000 *)
Definition DUP9 : Z := 57. (* 0b00111001 *)
Definition DUP11 : Z := 58. (* 0b00111010 *)
Definition DUP13 : Z := 59. (* 0b00111011 *)
Definition DUP15 : Z := 60. (* 0b00111100 *)
Definition ADVPOP : Z := 61. (* 0b00111101 *)
Definition SDEPTH : Z := 62. (* 0b00111110 *)
Definition CLK : Z := 63. (* 0b00111111 *)
Definition U32ADD : Z := 64. (* 0b01000000 *)
Definition U32SUB : Z := 66. (* 0b01000010 *)
Definition U32MUL : Z := 68. (* 0b01000100 *)
Definition U32DIV : Z := 70. (* 0b01000110 *)
Definition U32SPLIT : Z := 72. (* 0b01001000 *)
Definition U32ASSERT2 : Z := 74. (* 0b01001010 *)
Definition U32ADD3 : Z := 76. (* 0b01001100 *)
Definition U32MADD : Z := 78. (* 0b01001110 *)
Definition HPERM : Z := 80. (* 0b01010000 *)
Definition MPVERIFY : Z := 81. (* 0b01010001 *)
Definition PIPE : Z := 82. (* 0b01010010 *)
Definition MSTREAM : Z := 83. (* 0b01010011 *)
Definition SPLIT : Z := 84. (* 0b01010100 *)
Definition LOOP : Z := 85. (* 0b01010101 *)
Definition SPAN : Z := 86. (* 0b01010110 *)
Definition JOIN : Z := 87. (* 0b01010111 *)
Definition DYN : Z := 88. (* 0b01011000 *)
Definition HORNERBASE : Z := 89. (* 0b01011001 *)
Definition HORNEREXT : Z := 90. (* 0b01011010 *)
Definition PUSH : Z := 91. (* 0b01011011 *)
Definition DYNCALL : Z := 92. (* 0b01011100 *)
Definition EVALCIRCUIT : Z := 93. (* 0b01011101 *)
Definition LOGPRECOMPILE : Z := 94. (* 0b01011110 *)
Definition MRUPDATE : Z := 96. (* 0b01100000 *)
Definition CRYPTOSTREAM : Z := 100. (* 0b01100100 *)
Definition SYSCALL : Z := 104. (* 0b01101000 *)
Definition CALL : Z := 108. (* 0b01101100 *)
Definition END : Z := 112. (* 0b01110000 *)
Definition REPEAT : Z := 116. (* 0b01110100 *)
Definition RESPAN : Z := 120. (* 0b01111000 *)
Definition HALT : Z := 124. (* 0b01111100 *)
End opcodes.

(** ** The operations that can appear in a basic block *)
Module Op.
Section Op.
Context {F : Felt}.

Inductive Operation :=
  | Noop
  | Assert (err_code : felt)
  | SDepth
  | Caller
  | Clk
  | Emit
  | Add
  | Neg
  | Mul
  | Inv
  | Incr
  | And
  | Or
  | Not
  | Eq
  | Eqz
  | Expacc
  | Ext2Mul
  | U32split
  | U32add
  | U32assert2 (err_code : felt)
  | U32add3
  | U32sub
  | U32mul
  | U32madd
  | U32div
  | U32and
  | U32xor
  | Pad
  | Drop
  | Dup0
  | Dup1
  | Dup2
  | Dup3
  | Dup4
  | Dup5
  | Dup6
  | Dup7
  | Dup9
  | Dup11
  | Dup13
  | Dup15
  | Swap
  | SwapW
  | SwapW2
  | SwapW3
  | SwapDW
  | MovUp2
  | MovUp3
  | MovUp4
  | MovUp5
  | MovUp6
  | MovUp7
  | MovUp8
  | MovDn2
  | MovDn3
  | MovDn4
  | MovDn5
  | MovDn6
  | MovDn7
  | MovDn8
  | CSwap
  | CSwapW
  | Push (value : felt)
  | AdvPop
  | AdvPopW
  | MLoadW
  | MStoreW
  | MLoad
  | MStore
  | MStream
  | Pipe
  | CryptoStream
  | HPerm
  | MpVerify (err_code : felt)
  | MrUpdate
  | FriE2F4
  | HornerBase
  | HornerExt
  | EvalCircuit
  | LogPrecompile.

#[global] Instance Operation_eq_dec : EqDecision Operation.
Proof. solve_decision. Defined.

(** [Operation::op_code], the discriminant of the enum. *)
Definition op_code (op : Operation) : Z :=
  match op with
  | Noop => opcodes.NOOP
  | Assert _ => opcodes.ASSERT
  | SDepth => opcodes.SDEPTH
  | Caller => opcodes.CALLER
  | Clk => opcodes.CLK
  | Emit => opcodes.EMIT
  | Add => opcodes.ADD
  | Neg => opcodes.NEG
  | Mul => opcodes.MUL
  | Inv => opcodes.INV
  | Incr => opcodes.INCR
  | And => opcodes.AND
  | Or => opcodes.OR
  | Not => opcodes.NOT
  | Eq => opcodes.EQ
  | Eqz => opcodes.EQZ
  | Expacc => opcodes.EXPACC
  | Ext2Mul => opcodes.EXT2MUL
  | U32split => opcodes.U32SPLIT
  | U32add => opcodes.U32ADD
  | U32assert2 _ => opcodes.U32ASSERT2
  | U32add3 => opcodes.U32ADD3
  | U32sub => opcodes.U32SUB
  | U32mul => opcodes.U32MUL
  | U32madd => opcodes.U32MADD
  | U32div => opcodes.U32DIV
  | U32and => opcodes.U32AND
  | U32xor => opcodes.U32XOR
  | Pad => opcodes.PAD
  | Drop => opcodes.DROP
  | Dup0 => opcodes.DUP0
  | Dup1 => opcodes.DUP1
  | Dup2 => opcodes.DUP2
  | Dup3 => opcodes.DUP3
  | Dup4 => opcodes.DUP4
  | Dup5 => opcodes.DUP5
  | Dup6 => opcodes.DUP6
  | Dup7 => opcodes.DUP7
  | Dup9 => opcodes.DUP9
  | Dup11 => opcodes.DUP11
  | Dup13 => opcodes.DUP13
  | Dup15 => opcodes.DUP15
  | Swap => opcodes.SWAP
  | SwapW => opcodes.SWAPW
  | SwapW2 => opcodes.SWAPW2
  | SwapW3 => opcodes.SWAPW3
  | SwapDW => opcodes.SWAPDW
  | MovUp2 => opcodes.MOVUP2
  | MovUp3 => opcodes.MOVUP3
  | MovUp4 => opcodes.MOVUP4
  | MovUp5 => opcodes.MOVUP5
  | MovUp6 => opcodes.MOVUP6
  | MovUp7 => opcodes.MOVUP7
  | MovUp8 => opcodes.MOVUP8
  | MovDn2 => opcodes.MOVDN2
  | MovDn3 => opcodes.MOVDN3
  | MovDn4 => opcodes.MOVDN4
  | MovDn5 => opcodes.MOVDN5
  | MovDn6 => opcodes.MOVDN6
  | MovDn7 => opcodes.MOVDN7
  | MovDn8 => opcodes.MOVDN8
  | CSwap => opcodes.CSWAP
  | CSwapW => opcodes.CSWAPW
  | Push _ => opcodes.PUSH
  | AdvPop => opcodes.ADVPOP
  | AdvPopW => opcodes.ADVPOPW
  | MLoadW => opcodes.MLOADW
  | MStoreW => opcodes.MSTOREW
  | MLoad => opcodes.MLOAD
  | MStore => opcodes.MSTORE
  | MStream => opcodes.MSTREAM
  | Pipe => opcodes.PIPE
  | CryptoStream => opcodes.CRYPTOSTREAM
  | HPerm => opcodes.HPERM
  | MpVerify _ => opcodes.MPVERIFY
  | MrUpdate => opcodes.MRUPDATE
  | FriE2F4 => opcodes.FRIE2F4
  | HornerBase => opcodes.HORNERBASE
  | HornerExt => opcodes.HORNEREXT
  | EvalCircuit => opcodes.EVALCIRCUIT
  | LogPrecompile => opcodes.LOGPRECOMPILE
  end.

(** [Operation::imm_value] *)
Definition imm_value (op : Operation) : option felt :=
  match op with
  | Push imm => Some imm
  | _ => None
  end.

(** [Operation::increments_stack_size] *)
Definition increments_stack_size (op : Operation) : bool :=
  match op with
  | Push _ | Pad | Dup0 | Dup1 | Dup2 | Dup3
  | Dup4 | Dup5 | Dup6 | Dup7 | Dup9 | Dup11
  | Dup13 | Dup15 | U32split | SDepth | Clk | AdvPop => true
  | _ => false
  end.

(** [Operation::decrements_stack_size] *)
Definition decrements_stack_size (op : Operation) : bool :=
  match op with
  | Drop | Assert _ | Add | Mul | And | Or
  | Eq | U32add3 | U32madd | U32and | U32xor | CSwap
  | CSwapW | MLoadW | MStoreW | MStore | FriE2F4 => true
  | _ => false
  end.

(** ** Binary encoding

    Bytes are integers in [0..256).  Field elements and 64-bit integers are
    written and read by the serialization traits of [miden-crypto]; the encoding
    of an operation uses both: [Push] writes the canonical integer of its operand
    and reads a field element back. *)
Class FeltSerde := {
  write_felt : felt -> list Z;
  write_u64 : Z -> list Z;
  read_felt : list Z -> option (felt * list Z);
  (** A field element is encoded as its canonical 64-bit integer. *)
write_felt_u64 x : write_felt x = write_u64 ⟦x⟧;
  read_write_felt x rest : read_felt (write_felt x ++ rest) = Some (x, rest);
}.

(** [Serializable::write_into] *)
Definition write_into `{FeltSerde} (op : Operation) : list Z :=
  op_code op ::
  match op with
  | Assert err_code | MpVerify err_code | U32assert2 err_code => write_felt err_code
  | Push value => write_u64 ⟦value⟧
  | _ => []
  end.

Definition read_payload `{FeltSerde} (c : felt -> Operation) (src : list Z) : option (Operation * list Z) :=
  match read_felt src with
  | Some (x, rest) => Some (c x, rest)
  | None => None
  end.

(** The operations without a payload, in the order of the match of [read_from]. *)
Definition plain_operations : list (Z * Operation) := [
  (opcodes.NOOP, Noop);
  (opcodes.EQZ, Eqz);
  (opcodes.NEG, Neg);
  (opcodes.INV, Inv);
  (opcodes.INCR, Incr);
  (opcodes.NOT, Not);
  (opcodes.MLOAD, MLoad);
  (opcodes.SWAP, Swap);
  (opcodes.CALLER, Caller);
  (opcodes.MOVUP2, MovUp2);
  (opcodes.MOVDN2, MovDn2);
  (opcodes.MOVUP3, MovUp3);
  (opcodes.MOVDN3, MovDn3);
  (opcodes.ADVPOPW, AdvPopW);
  (opcodes.EXPACC, Expacc);
  (opcodes.MOVUP4, MovUp4);
  (opcodes.MOVDN4, MovDn4);
  (opcodes.MOVUP5, MovUp5);
  (opcodes.MOVDN5, MovDn5);
  (opcodes.MOVUP6, MovUp6);
  (opcodes.MOVDN6, MovDn6);
  (opcodes.MOVUP7, MovUp7);
  (opcodes.MOVDN7, MovDn7);
  (opcodes.SWAPW, SwapW);
  (opcodes.EXT2MUL, Ext2Mul);
  (opcodes.MOVUP8, MovUp8);
  (opcodes.MOVDN8, MovDn8);
  (opcodes.SWAPW2, SwapW2);
  (opcodes.SWAPW3, SwapW3);
  (opcodes.SWAPDW, SwapDW);
  (opcodes.EMIT, Emit);
  (opcodes.EQ, Eq);
  (opcodes.ADD, Add);
  (opcodes.MUL, Mul);
  (opcodes.AND, And);
  (opcodes.OR, Or);
  (opcodes.U32AND, U32and);
  (opcodes.U32XOR, U32xor);
  (opcodes.FRIE2F4, FriE2F4);
  (opcodes.DROP, Drop);
  (opcodes.CSWAP, CSwap);
  (opcodes.CSWAPW, CSwapW);
  (opcodes.MLOADW, MLoadW);
  (opcodes.MSTORE, MStore);
  (opcodes.MSTOREW, MStoreW);
  (opcodes.PAD, Pad);
  (opcodes.DUP0, Dup0);
  (opcodes.DUP1, Dup1);
  (opcodes.DUP2, Dup2);
  (opcodes.DUP3, Dup3);
  (opcodes.DUP4, Dup4);
  (opcodes.DUP5, Dup5);
  (opcodes.DUP6, Dup6);
  (opcodes.DUP7, Dup7);
  (opcodes.DUP9, Dup9);
  (opcodes.DUP11, Dup11);
  (opcodes.DUP13, Dup13);
  (opcodes.DUP15, Dup15);
  (opcodes.ADVPOP, AdvPop);
  (opcodes.SDEPTH, SDepth);
  (opcodes.CLK, Clk);
  (opcodes.U32ADD, U32add);
  (opcodes.U32SUB, U32sub);
  (opcodes.U32MUL, U32mul);
  (opcodes.U32DIV, U32div);
  (opcodes.U32SPLIT, U32split);
  (opcodes.U32ADD3, U32add3);
  (opcodes.U32MADD, U32madd);
  (opcodes.HPERM, HPerm);
  (opcodes.PIPE, Pipe);
  (opcodes.MSTREAM, MStream);
  (opcodes.CRYPTOSTREAM, CryptoStream);
  (opcodes.HORNERBASE, HornerBase);
  (opcodes.HORNEREXT, HornerExt);
  (opcodes.LOGPRECOMPILE, LogPrecompile);
  (opcodes.EVALCIRCUIT, EvalCircuit);
  (opcodes.MRUPDATE, MrUpdate)].

(** [Deserializable::read_from] *)
Definition read_from `{FeltSerde} (source : list Z) : option (Operation * list Z) :=
  match source with
  | [] => None
  | code :: rest =>
      if code =? opcodes.ASSERT then read_payload Assert rest
      else if code =? opcodes.U32ASSERT2 then read_payload U32assert2 rest
      else if code =? opcodes.MPVERIFY then read_payload MpVerify rest
      else if code =? opcodes.PUSH then read_payload Push rest
      else match list_find (fun p => code = p.1) plain_operations with
           | Some (_, (_, op)) => Some (op, rest)
           | None => None
           end
  end.

(** Reading back a written operation returns it and leaves the rest of the
    stream: opcodes are distinct and every payload is consumed exactly. *)
Lemma read_write_operation `{FeltSerde} op rest :
  read_from (write_into op ++ rest) = Some (op, rest).
Proof.
destruct op; simpl; unfold read_payload; rewrite <-?write_felt_u64, ?read_write_felt; reflexivity.
Qed.
End Op.
End Op.
