(* ===== verification/Batching.v ===== *)
(** * Operation batches of a basic block

    [core/src/mast/node/basic_block_node/]: a basic block keeps its operations in batches of up to
    eight groups; a group is up to nine operations packed into a field element, or
    one immediate value.  [OpBatchAccumulator] packs operations and their immediates as they
    come and pads groups and batches with [Noop]; the validators of [BasicBlockNode] check the
    layout of a block that was read from bytes; the two prefix tables translate between
    indices with and without padding.

    Fixed-size arrays are lists, read and written through the functions of [Prelude] that panic out of
    range; [usize] is [nat] and the packed [u64] is an integer with its wrap-around. *)

From S2P Require Import Prelude Field Types Operations.
Import Op.

Definition GROUP_SIZE : nat := 9.
Definition BATCH_SIZE : nat := 8.
Definition OP_BITS : nat := 7.

(** The error strings of the validators. *)
Inductive BatchError :=
  | NotFullBatch (num_groups : nat)
  | NotPowerOfTwo (num_groups : nat)
  | ImmediateInLastGroup (group_idx op_idx : nat)
  | EndsWithImmediate (group_idx : nat)
  | TooManyGroups (num_groups : nat)
  | NotMonotonic (i : nat)
  | FinalIndptrMismatch
  | GroupTooLarge (group_idx group_size : nat)
  | OpcodeGroupMismatch (group_idx : nat)
  | ImmediateExceedsSlots
  | ImmediateExceedsNumGroups (next_group_idx num_groups : nat)
  | ImmediateOverlapsGroup (next_group_idx : nat)
  | ImmediateMismatch (imm_group_idx : nat)
  | EmptyGroupNotZero (group_idx : nat)
  | EmptyGroupPadded (group_idx : nat)
  | MissingMetadata (group_idx : nat)
  | InvalidGroupBounds (group_idx : nat)
  | PaddedWithoutNoop (group_idx : nat)
  | InBatch (batch_idx : nat) (e : BatchError).

(** [Option::ok_or_else] *)
Definition ok_or {E A} (o : option A) (e : E) : outcome E A :=
  match o with Some a => Ok a | None => Err e end.

(** [usize::next_power_of_two], on the range of group counts and beyond *)
Definition next_power_of_two (n : nat) : nat := 2 ^ Nat.log2_up n.
Definition is_power_of_two (n : nat) : bool := negb (n =? 0) && (next_power_of_two n =? n).

Section Batching.
Context {F : Felt}.
Abbreviation bresult := (outcome BatchError).

Record OpBatch := mkOpBatch {
  ops : list Operation;
  indptr : list nat;
  padding : list bool;
  groups : list felt;
  num_groups : nat;
}.

(** ** The accumulator: [op_batch.rs] *)

Record OpBatchAccumulator := mkAccumulator {
  acc_ops : list Operation;
  acc_indptr : list nat;
  acc_padding : list bool;
  acc_groups : list felt;
  group : Z;
  op_idx : nat;
  group_idx : nat;
  next_group_idx : nat;
}.

Definition INVALID_IDX : nat := BATCH_SIZE * GROUP_SIZE + 1.

(** [OpBatchAccumulator::new] *)
Definition new_accumulator : OpBatchAccumulator :=
  mkAccumulator [] (replicate (BATCH_SIZE + 1) 0) (replicate BATCH_SIZE false) (replicate BATCH_SIZE ZERO) 0 0 0 1.

Definition is_empty (a : OpBatchAccumulator) : bool :=
  match acc_ops a with [] => true | _ => false end.

Definition has_immediate (op : Operation) : bool :=
  match imm_value op with Some _ => true | None => false end.

Definition can_accept_op (a : OpBatchAccumulator) (op : Operation) : bool :=
  if has_immediate op then
    if op_idx a <? GROUP_SIZE - 1 then next_group_idx a <? BATCH_SIZE
    else next_group_idx a + 1 <? BATCH_SIZE
  else (op_idx a <? GROUP_SIZE) || (next_group_idx a <? BATCH_SIZE).

(** [self.group |= opcode << (OP_BITS * self.op_idx)] on [u64] *)
Definition pack_opcode (group : Z) (op : Operation) (idx : nat) : Z :=
  Z.lor group (Z.shiftl (op_code op) (Z.of_nat (OP_BITS * idx)) mod 2 ^ 64).

Definition push_op (a : OpBatchAccumulator) (op : Operation) : OpBatchAccumulator :=
  mkAccumulator (acc_ops a ++ [op]) (acc_indptr a) (acc_padding a) (acc_groups a)
    (pack_opcode (group a) op (op_idx a)) (op_idx a + 1) (group_idx a) (next_group_idx a).

Definition pad_if_needed (a : OpBatchAccumulator) : bresult OpBatchAccumulator :=
  if (op_idx a =? 0) || (match last (acc_ops a) with Some op => has_immediate op | None => false end) then
    let a := push_op a Noop in
    padding ← arr_write (acc_padding a) (group_idx a) true;
    Ok (mkAccumulator (acc_ops a) (acc_indptr a) padding (acc_groups a) (group a) (op_idx a) (group_idx a)
          (next_group_idx a))
  else Ok a.

(** The loop of [finalize_indptr]: from [uninit_group_idx] down to [group_idx] while the entry is
    [INVALID_IDX]; the decrement underflows when [group_idx] is zero and the entry is invalid. *)
Fixpoint fix_immediate_starts (len group_idx : nat) (uninit_group_idx : nat) (indptr : list nat) : bresult (list nat) :=
  if group_idx <=? uninit_group_idx then
    p ← arr_read indptr uninit_group_idx;
    if p =? INVALID_IDX then
      indptr ← arr_write indptr uninit_group_idx len;
      match uninit_group_idx with
      | O => Panic
      | S i => fix_immediate_starts len group_idx i indptr
      end
    else Ok indptr
  else Ok indptr.

Definition finalize_indptr (a : OpBatchAccumulator) : bresult OpBatchAccumulator :=
  let len := length (acc_ops a) in
  indptr ← arr_write (acc_indptr a) (next_group_idx a) len;
  i ← usub (next_group_idx a) 1;
  indptr ← fix_immediate_starts len (group_idx a) i indptr;
  Ok (mkAccumulator (acc_ops a) indptr (acc_padding a) (acc_groups a) (group a) (op_idx a) (group_idx a)
        (next_group_idx a)).

Definition save_group (a : OpBatchAccumulator) : bresult OpBatchAccumulator :=
  groups ← arr_write (acc_groups a) (group_idx a) (new_unchecked (group a));
  Ok (mkAccumulator (acc_ops a) (acc_indptr a) (acc_padding a) groups (group a) (op_idx a) (group_idx a)
        (next_group_idx a)).

Definition finalize_op_group (a : OpBatchAccumulator) : bresult OpBatchAccumulator :=
  a ← pad_if_needed a;
  a ← save_group a;
  a ← finalize_indptr a;
  Ok (mkAccumulator (acc_ops a) (acc_indptr a) (acc_padding a) (acc_groups a) 0 0 (next_group_idx a)
        (next_group_idx a + 1)).

(** The branch of [add_op] for immediate values *)
Definition place_immediate (a : OpBatchAccumulator) (imm : felt) : bresult OpBatchAccumulator :=
  groups ← arr_write (acc_groups a) (next_group_idx a) imm;
  indptr ← arr_write (acc_indptr a) (next_group_idx a) INVALID_IDX;
  Ok (mkAccumulator (acc_ops a) indptr (acc_padding a) groups (group a) (op_idx a) (group_idx a)
        (next_group_idx a + 1)).

Definition add_op (a : OpBatchAccumulator) (op : Operation) : bresult OpBatchAccumulator :=
  a ← (if op_idx a =? GROUP_SIZE then finalize_op_group a else Ok a);
  a ← match imm_value op with
      | Some imm =>
        a ← (if op_idx a =? GROUP_SIZE - 1 then finalize_op_group a else Ok a);
        place_immediate a imm
      | None => Ok a
      end;
  Ok (push_op a op).

Definition into_batch (a : OpBatchAccumulator) : bresult OpBatch :=
  let num_groups := next_group_idx a in
  let target_num_groups := next_power_of_two num_groups in
  a ← for_each (seq num_groups (target_num_groups - num_groups)) (fun a _ => finalize_op_group a) a;
  a ← (if negb (group a =? 0)%Z || negb (op_idx a =? 0) then save_group a else Ok a);
  a ← pad_if_needed a;
  a ← finalize_indptr a;
  let final_ops_count := length (acc_ops a) in
  indptr ← for_each (seq (next_group_idx a) (BATCH_SIZE + 1 - next_group_idx a))
             (fun p i => arr_write p i final_ops_count) (acc_indptr a);
  Ok (mkOpBatch (acc_ops a) indptr (acc_padding a) (acc_groups a) (next_group_idx a)).

(** ** Batching a block: [basic_block_node/mod.rs] *)

Definition batch_step (s : list OpBatch * OpBatchAccumulator) (op : Operation) :
    bresult (list OpBatch * OpBatchAccumulator) :=
  let '(batches, batch_acc) := s in
  '(batches, batch_acc) ← (if negb (can_accept_op batch_acc op) then
                            batch ← into_batch batch_acc;
                            Ok (batches ++ [batch], new_accumulator)
                          else Ok (batches, batch_acc));
  batch_acc ← add_op batch_acc op;
  Ok (batches, batch_acc).

Definition batch_ops (l : list Operation) : bresult (list OpBatch) :=
  '(batches, batch_acc) ← for_each l batch_step ([], new_accumulator);
  if negb (is_empty batch_acc) then
    batch ← into_batch batch_acc;
    Ok (batches ++ [batch])
  else Ok batches.

(** The elements [batch_and_hash_ops] hashes. *)
Definition op_groups (batches : list OpBatch) : list felt := concat (groups <$> batches).

(** [BasicBlockNode::num_op_groups] *)
Definition num_op_groups (batches : list OpBatch) : bresult nat :=
  b ← or_panic (last batches);
  Ok ((length batches - 1) * BATCH_SIZE + next_power_of_two (num_groups b)).

(** ** Accessors of a batch *)

(** [OpBatch::raw_ops]: group by group, without the padding *)
Definition group_raw_ops (b : OpBatch) (group_idx : nat) : bresult (list Operation) :=
  padded ← arr_read (padding b) group_idx;
  start_idx ← arr_read (indptr b) group_idx;
  group_end ← arr_read (indptr b) (group_idx + 1);
  end_idx ← usub group_end (Nat.b2n padded);
  arr_slice (ops b) start_idx end_idx.

Definition raw_ops (b : OpBatch) : bresult (list Operation) :=
  for_each (seq 0 (num_groups b)) (fun l i => g ← group_raw_ops b i; Ok (l ++ g)) [].

(** [BasicBlockNode::operations] and [raw_operations] *)
Definition operations (batches : list OpBatch) : list Operation := concat (ops <$> batches).
Definition raw_operations (batches : list OpBatch) : bresult (list Operation) :=
  for_each batches (fun l b => r ← raw_ops b; Ok (l ++ r)) [].

(** [slice::partition_point]: the length of the prefix that satisfies the predicate *)
Fixpoint partition_point (p : nat -> bool) (l : list nat) : nat :=
  match l with
  | x :: l => if p x then S (partition_point p l) else 0
  | [] => 0
  end.

Definition op_idx_in_batch_to_group (b : OpBatch) (op_idx_in_batch : nat) : bresult (option (nat * nat)) :=
  if length (ops b) <=? op_idx_in_batch then Ok None
  else
    ends ← arr_slice (indptr b) 1 (num_groups b + 1);
    let group_idx := partition_point (fun e => e <=? op_idx_in_batch) ends in
    start ← arr_read (indptr b) group_idx;
    i ← usub op_idx_in_batch start;
    Ok (Some (group_idx, i)).

(** [OpBatchIterator]: the loop that skips finished groups, at most [n] of them *)
Fixpoint skip_groups (b : OpBatch) (current_op_idx : nat) (n grp_idx : nat) : bresult nat :=
  match n with
  | O => Ok grp_idx
  | S n =>
    if grp_idx + 1 <? num_groups b then
      e ← arr_read (indptr b) (grp_idx + 1);
      if e <=? current_op_idx then skip_groups b current_op_idx n (grp_idx + 1) else Ok grp_idx
    else Ok grp_idx
  end.

(** [OpBatchIterator::next], on the position and the current group *)
Definition batch_iter_next (b : OpBatch) (current_op_idx grp_idx : nat) :
    bresult (option ((nat * nat * Operation) * (nat * nat))) :=
  if length (ops b) <=? current_op_idx then Ok None
  else
    op ← arr_read (ops b) current_op_idx;
    grp_idx ← skip_groups b current_op_idx (num_groups b) grp_idx;
    start ← arr_read (indptr b) grp_idx;
    i ← usub current_op_idx start;
    Ok (Some ((grp_idx, i, op), (current_op_idx + 1, grp_idx))).

(** [iter_with_groups], collected *)
Fixpoint iter_from (b : OpBatch) (n current_op_idx grp_idx : nat) : bresult (list (nat * nat * Operation)) :=
  match n with
  | O => Ok []
  | S n =>
    r ← batch_iter_next b current_op_idx grp_idx;
    match r with
    | None => Ok []
    | Some (x, (c, g)) => l ← iter_from b n c g; Ok (x :: l)
    end
  end.
Definition iter_with_groups (b : OpBatch) : bresult (list (nat * nat * Operation)) :=
  iter_from b (S (length (ops b))) 0 0.

(** ** Validation *)

(** [OpBatch::validate_padding_semantics] *)
Definition validate_group_padding (b : OpBatch) (group_idx : nat) : bresult unit :=
  is_padded ← ok_or (padding b !! group_idx) (MissingMetadata group_idx);
  if negb is_padded then Ok ()
  else
    group_start ← ok_or (indptr b !! group_idx) (MissingMetadata group_idx);
    group_end ← ok_or (indptr b !! (group_idx + 1)) (MissingMetadata group_idx);
    guard_err (negb (group_start =? group_end)) (EmptyGroupPadded group_idx);;
    guard_err (group_start <=? group_end) (InvalidGroupBounds group_idx);;
    last_op_idx ← usub group_end 1;
    last_op ← ok_or (ops b !! last_op_idx) (InvalidGroupBounds group_idx);
    guard_err (match last_op with Noop => true | _ => false end) (PaddedWithoutNoop group_idx).

Definition validate_padding_of_batch (b : OpBatch) : bresult unit :=
  guard_err (num_groups b <=? BATCH_SIZE) (TooManyGroups (num_groups b));;
  for_each (seq 0 (num_groups b)) (fun _ group_idx => validate_group_padding b group_idx) ().

(** One iteration of [collect_immediate_placements] *)
Definition place_step (indptr : list nat) (max_groups : nat) (num_groups : option nat)
    (s : list (nat * felt) * nat) (op : Operation) : bresult (list (nat * felt) * nat) :=
  let '(placements, next_group_idx) := s in
  match imm_value op with
  | Some imm =>
    guard_err (next_group_idx <? max_groups) ImmediateExceedsSlots;;
    match num_groups with
    | Some num_groups =>
      guard_err (next_group_idx <? num_groups) (ImmediateExceedsNumGroups next_group_idx num_groups)
    | None => Ok ()
    end;;
    s ← arr_read indptr next_group_idx;
    e ← arr_read indptr (next_group_idx + 1);
    guard_err (s =? e) (ImmediateOverlapsGroup next_group_idx);;
    Ok (placements ++ [(next_group_idx, imm)], next_group_idx + 1)
  | None => Ok (placements, next_group_idx)
  end.

(** [collect_immediate_placements] *)
Definition collect_immediate_placements (ops : list Operation) (indptr : list nat) (group_idx max_groups : nat)
    (num_groups : option nat) : bresult (list (nat * felt) * nat) :=
  start ← arr_read indptr group_idx;
  end_ ← arr_read indptr (group_idx + 1);
  group_ops ← arr_slice ops start end_;
  for_each group_ops (place_step indptr max_groups num_groups) ([], group_idx + 1).

(** The loop that recomputes a packed group. *)
Definition pack_group (group_ops : list Operation) : Z :=
  foldl (fun v '(i, op) => pack_opcode v op i) 0%Z (zip (seq 0 (length group_ops)) group_ops).

Definition for_each_batch (batches : list OpBatch) (check : nat -> OpBatch -> bresult unit) : bresult unit :=
  for_each (zip (seq 0 (length batches)) batches) (fun _ '(i, b) => map_err (InBatch i) (check i b)) ().

Definition validate_power_of_two_groups (batches : list OpBatch) : bresult unit :=
  for_each_batch batches (fun batch_idx b =>
    if batch_idx + 1 <? length batches
    then guard_err (num_groups b =? BATCH_SIZE) (NotFullBatch (num_groups b))
    else guard_err (is_power_of_two (num_groups b)) (NotPowerOfTwo (num_groups b))).

Definition validate_group_endings (b : OpBatch) (group_idx : nat) : bresult unit :=
  group_start ← arr_read (indptr b) group_idx;
  group_end ← arr_read (indptr b) (group_idx + 1);
  if group_start =? group_end then Ok ()
  else
    group_ops ← arr_slice (ops b) group_start group_end;
    if group_idx =? num_groups b - 1 then
      for_each (zip (seq 0 (length group_ops)) group_ops)
        (fun _ '(op_idx, op) => guard_err (negb (has_immediate op)) (ImmediateInLastGroup group_idx op_idx)) ()
    else
      guard_err (match last group_ops with Some op => negb (has_immediate op) | None => true end)
        (EndsWithImmediate group_idx).

Definition validate_no_immediate_endings (batches : list OpBatch) : bresult unit :=
  for_each_batch batches (fun _ b =>
    for_each (seq 0 (num_groups b)) (fun _ group_idx => validate_group_endings b group_idx) ()).

Definition validate_structure (b : OpBatch) : bresult unit :=
  guard_err (num_groups b <=? BATCH_SIZE) (TooManyGroups (num_groups b));;
  n ← usub (length (indptr b)) 1;
  for_each (seq 0 n) (fun _ i =>
    s ← arr_read (indptr b) i;
    e ← arr_read (indptr b) (i + 1);
    guard_err (s <=? e) (NotMonotonic i)) ();;
  final_indptr ← arr_read (indptr b) n;
  guard_err (final_indptr =? length (ops b)) FinalIndptrMismatch;;
  for_each (seq 0 (num_groups b)) (fun _ group_idx =>
    group_start ← arr_read (indptr b) group_idx;
    group_end ← arr_read (indptr b) (group_idx + 1);
    group_size ← usub group_end group_start;
    guard_err (group_size <=? GROUP_SIZE) (GroupTooLarge group_idx group_size)) ().

Definition validate_batch_structure (batches : list OpBatch) : bresult unit :=
  for_each_batch batches (fun _ b => validate_structure b).

(** One iteration of the first loop of [validate_immediate_commitment] over the groups of a batch; the
    state is [immediate_slots]. *)
Definition check_group_commitment (b : OpBatch) (immediate_slots : list bool) (group_idx : nat) : bresult (list bool) :=
  group_start ← arr_read (indptr b) group_idx;
  group_end ← arr_read (indptr b) (group_idx + 1);
  if group_start =? group_end then Ok immediate_slots
  else
    group_ops ← arr_slice (ops b) group_start group_end;
    g ← arr_read (groups b) group_idx;
    guard_err (bool_decide (g = new_unchecked (pack_group group_ops))) (OpcodeGroupMismatch group_idx);;
    '(placements, _) ← collect_immediate_placements (ops b) (indptr b) group_idx BATCH_SIZE (Some (num_groups b));
    for_each placements (fun slots '(imm_group_idx, imm_value) =>
      g ← arr_read (groups b) imm_group_idx;
      guard_err (bool_decide (g = imm_value)) (ImmediateMismatch imm_group_idx);;
      arr_write slots imm_group_idx true) immediate_slots.

Definition validate_commitment (b : OpBatch) : bresult unit :=
  immediate_slots ← for_each (seq 0 (num_groups b)) (check_group_commitment b) (replicate BATCH_SIZE false);
  for_each (seq 0 (num_groups b)) (fun _ group_idx =>
    s ← arr_read (indptr b) group_idx;
    e ← arr_read (indptr b) (group_idx + 1);
    slot ← arr_read immediate_slots group_idx;
    g ← arr_read (groups b) group_idx;
    guard_err (negb ((s =? e) && negb slot && negb (bool_decide (g = ZERO)))) (EmptyGroupNotZero group_idx)) ().

Definition validate_immediate_commitment (batches : list OpBatch) : bresult unit :=
  for_each_batch batches (fun _ b => validate_commitment b).

Definition validate_padding_semantics (batches : list OpBatch) : bresult unit :=
  for_each_batch batches (fun _ b => validate_padding_of_batch b).

(** [BasicBlockNode::validate_batch_invariants] *)
Definition validate_batch_invariants (batches : list OpBatch) : bresult unit :=
  validate_power_of_two_groups batches;;
  validate_batch_structure batches;;
  validate_no_immediate_endings batches;;
  validate_immediate_commitment batches;;
  validate_padding_semantics batches.

(** ** Indices with and without padding *)

Definition group_lengths (b : OpBatch) (g : nat) : bresult (nat * nat) :=
  e ← arr_read (indptr b) (g + 1);
  s ← arr_read (indptr b) g;
  group_len ← usub e s;
  p ← arr_read (padding b) g;
  raw_in_g ← usub group_len (Nat.b2n p);
  Ok (raw_in_g, Nat.b2n p).

(** [RawToPaddedPrefix::new] *)
Definition RawToPaddedPrefix (batches : list OpBatch) : bresult (list nat) :=
  '(v, pads_so_far) ← for_each batches (fun s b =>
    for_each (seq 0 (num_groups b)) (fun '(v, pads_so_far) g =>
      '(raw_in_g, has_pad) ← group_lengths b g;
      Ok (v ++ replicate raw_in_g pads_so_far, pads_so_far + has_pad)) s) ([], 0);
  Ok (v ++ [pads_so_far]).

(** [PaddedToRawPrefix::new] *)
Definition PaddedToRawPrefix (batches : list OpBatch) : bresult (list nat) :=
  '(v, pads_so_far) ← for_each batches (fun s b =>
    for_each (seq 0 (num_groups b)) (fun '(v, pads_so_far) g =>
      '(raw_in_g, has_pad) ← group_lengths b g;
      let v := v ++ replicate raw_in_g pads_so_far in
      if has_pad =? 1 then Ok (v ++ [pads_so_far], pads_so_far + 1) else Ok (v, pads_so_far)) s) ([], 0);
  Ok (v ++ [pads_so_far]).

(** [adjust_asm_op_indices], and [adjust_decorators] *)
Definition adjust_asm_op_indices {T} (asm_ops : list (nat * T)) (batches : list OpBatch) : bresult (list (nat * T)) :=
  raw2pad ← RawToPaddedPrefix batches;
  for_each asm_ops (fun l '(raw_idx, id) => p ← arr_read raw2pad raw_idx; Ok (l ++ [(raw_idx + p, id)])) [].

(** [unadjust_asm_op_indices] *)
Definition unadjust_asm_op_indices {T} (asm_ops : list (nat * T)) (batches : list OpBatch) : bresult (list (nat * T)) :=
  pad2raw ← PaddedToRawPrefix batches;
  for_each asm_ops (fun l '(padded_idx, id) =>
    p ← arr_read pad2raw padded_idx; raw ← usub padded_idx p; Ok (l ++ [(raw, id)])) [].
End Batching.
