(* ===== verification/BatchCorrect.v ===== *)
(** * Batching keeps the operations and produces valid batches

    An accumulator is described by the groups it has closed and the group it is filling, all without
    padding; a batch by its groups.  [acc_of] and [batch_of] give the arrays of the code for such a
    description, so that each operation of the accumulator becomes an equation on lists of groups. *)

From S2P Require Import Prelude Field Types Operations Batching.
Import Op.

Section Layout.
Context {F : Felt}.

(** ** Groups and slots *)

(** An operation group without its padding. *)
Abbreviation opgroup := (list Operation).

Definition needs_pad (c : opgroup) : bool :=
  match last c with Some op => has_immediate op | None => true end.
Definition padded (c : opgroup) : list Operation := c ++ if needs_pad c then [Noop] else [].
Definition imms (c : opgroup) : list felt := omap imm_value c.

(** A slot of the group arrays: operations or an immediate value. *)
Inductive slot := OpSlot (c : opgroup) | ImmSlot (v : felt).

(** A group takes a slot of its own and one for each immediate. *)
Definition group_slots (c : opgroup) : list slot := OpSlot c :: (ImmSlot <$> imms c).
Definition slots (cs : list opgroup) : list slot := concat (group_slots <$> cs).

Definition slot_ops (s : slot) : list Operation := match s with OpSlot c => padded c | ImmSlot _ => [] end.
Definition slot_pad (s : slot) : bool := match s with OpSlot c => needs_pad c | ImmSlot _ => false end.
Definition slot_value (s : slot) : felt := match s with OpSlot c => new_unchecked (pack_group c) | ImmSlot v => v end.

(** Where the operations of each slot start. *)
Fixpoint starts (n : nat) (ss : list slot) : list nat :=
  match ss with
  | [] => []
  | s :: ss => n :: starts (n + length (slot_ops s)) ss
  end.

Definition fill {A} (n : nat) (d : A) (l : list A) : list A := l ++ replicate (n - length l) d.

Definition all_ops (cs : list opgroup) : list Operation := concat (padded <$> cs).

Definition batch_of (cs : list opgroup) : OpBatch :=
  mkOpBatch (all_ops cs) (fill (BATCH_SIZE + 1) (length (all_ops cs)) (starts 0 (slots cs)))
    (fill BATCH_SIZE false (slot_pad <$> slots cs)) (fill BATCH_SIZE ZERO (slot_value <$> slots cs))
    (length (slots cs)).

(** [tl] is what the index array holds beyond the groups in use, [v] the element kept for the current
    group. *)
Definition open_acc (cs : list opgroup) (cur : opgroup) (tl : list nat) (v : felt) : OpBatchAccumulator :=
  let n := length (slots cs) in
  mkAccumulator (all_ops cs ++ cur)
    (starts 0 (slots cs) ++ length (all_ops cs) :: replicate (length (imms cur)) INVALID_IDX ++ tl)
    (fill BATCH_SIZE false (slot_pad <$> slots cs))
    (fill BATCH_SIZE ZERO ((slot_value <$> slots cs) ++ v :: imms cur))
    (pack_group cur) (length cur) n (n + 1 + length (imms cur)).
Definition acc_of (cs : list opgroup) (cur : opgroup) (tl : list nat) : OpBatchAccumulator := open_acc cs cur tl ZERO.

(** What fits: nine operations to a group with the padding, eight slots. *)
Definition group_ok (c : opgroup) : Prop := length (padded c) <= GROUP_SIZE.
Definition acc_ok (cs : list opgroup) (cur : opgroup) (tl : list nat) : Prop :=
  Forall group_ok (cs ++ [cur]) /\ length (slots (cs ++ [cur])) <= BATCH_SIZE /\
  length (slots (cs ++ [cur])) + length tl = BATCH_SIZE + 1.

(** ** Facts about slots *)

Lemma slots_app cs ds : slots (cs ++ ds) = slots cs ++ slots ds.
Proof. unfold slots. by rewrite fmap_app, concat_app. Qed.

Lemma slots_one c : slots [c] = group_slots c.
Proof. apply app_nil_r. Qed.

Lemma length_group_slots c : length (group_slots c) = S (length (imms c)).
Proof. unfold group_slots. cbn. by rewrite length_fmap. Qed.

Lemma all_ops_app cs ds : all_ops (cs ++ ds) = all_ops cs ++ all_ops ds.
Proof. unfold all_ops. by rewrite fmap_app, concat_app. Qed.

Lemma all_ops_one c : all_ops [c] = padded c.
Proof. apply app_nil_r. Qed.

Lemma imm_slots_ops (vs : list felt) : concat (slot_ops <$> (ImmSlot <$> vs)) = [].
Proof. by induction vs. Qed.

Lemma imm_slots_pad (vs : list felt) : slot_pad <$> (ImmSlot <$> vs) = replicate (length vs) false.
Proof. by induction vs as [|v vs IH]; [|cbn; f_equal]. Qed.
Lemma imm_slots_value (c : opgroup) : slot_value <$> group_slots c = new_unchecked (pack_group c) :: imms c.
Proof. unfold group_slots. cbn. f_equal. by induction (imms c) as [|v vs IH]; [|cbn; f_equal]. Qed.

Lemma all_ops_slots cs : all_ops cs = concat (slot_ops <$> slots cs).
Proof.
  induction cs as [|c cs IH]; [done|]. change (c :: cs) with ([c] ++ cs).
  rewrite all_ops_app, all_ops_one, IH, slots_app, slots_one, fmap_app, concat_app. f_equal.
  unfold group_slots. cbn. rewrite imm_slots_ops. by rewrite app_nil_r.
Qed.

Lemma starts_app n ss tt : starts n (ss ++ tt) = starts n ss ++ starts (n + length (concat (slot_ops <$> ss))) tt.
Proof.
  revert n. induction ss as [|s ss IH]; intros n; cbn; [by rewrite Nat.add_0_r|].
  rewrite IH, length_app. do 3 f_equal. lia.
Qed.

Lemma length_starts n ss : length (starts n ss) = length ss.
Proof. revert n. induction ss; intros n; cbn; auto. Qed.

Lemma starts_imms n vs : starts n (ImmSlot <$> vs) = replicate (length vs) n.
Proof. induction vs as [|v vs IH]; [done|]. cbn. by rewrite Nat.add_0_r, IH. Qed.

Lemma padded_nonempty c : padded c <> [].
Proof. unfold padded, needs_pad. destruct c using rev_ind; [done|]. by destruct c. Qed.

Lemma length_padded c : length (padded c) = length c + Nat.b2n (needs_pad c).
Proof. unfold padded. rewrite length_app. by destruct (needs_pad c). Qed.

Lemma all_ops_bound cs : Forall group_ok cs -> length (all_ops cs) <= GROUP_SIZE * length cs.
Proof.
  induction 1 as [|c cs Hc _ IH]; [done|]. change (c :: cs) with ([c] ++ cs).
  rewrite all_ops_app, all_ops_one, length_app, length_app. unfold group_ok in Hc. cbn [length]. lia.
Qed.

Lemma length_slots_ge cs : length cs <= length (slots cs).
Proof.
  induction cs as [|c cs IH]; [done|]. change (c :: cs) with ([c] ++ cs).
  rewrite slots_app, slots_one, !length_app, length_group_slots. cbn. lia.
Qed.

(** The packed value does not see padding. *)
Lemma pack_group_snoc c op : pack_group (c ++ [op]) = pack_opcode (pack_group c) op (length c).
Proof.
  unfold pack_group. rewrite length_app, seq_app, zip_with_app by (by rewrite length_seq).
  rewrite foldl_app. reflexivity.
Qed.

Lemma pack_noop v n : pack_opcode v Noop n = v.
Proof. unfold pack_opcode. cbn [op_code]. change opcodes.NOOP with 0%Z. rewrite Z.shiftl_0_l. apply Z.lor_0_r. Qed.

Lemma imms_snoc c op : imms (c ++ [op]) = imms c ++ match imm_value op with Some v => [v] | None => [] end.
Proof. unfold imms. rewrite omap_app. cbn. by destruct (imm_value op). Qed.

Lemma needs_pad_snoc c op : needs_pad (c ++ [op]) = has_immediate op.
Proof. unfold needs_pad. by rewrite last_snoc. Qed.

(** ** Arrays *)

Lemma length_fill {A} n (d : A) l : length l <= n -> length (fill n d l) = n.
Proof. intros. unfold fill. rewrite length_app, length_replicate. lia. Qed.

Lemma fill_snoc {A} n (d : A) l : length l < n -> fill n d (l ++ [d]) = fill n d l.
Proof.
  intros Hl. unfold fill. rewrite length_app, <-app_assoc. f_equal. cbn.
  by replace (n - length l) with (S (n - (length l + 1))) by lia.
Qed.

Lemma fill_insert {A} n (d v w : A) l r : <[length l := w]> (fill n d (l ++ v :: r)) = fill n d (l ++ w :: r).
Proof.
  unfold fill. rewrite !length_app. cbn [length]. rewrite <-!app_assoc.
  rewrite <-(Nat.add_0_r (length l)), insert_app_r. reflexivity.
Qed.

Lemma fill_extend {A} n (d v : A) l : length l < n -> <[length l := v]> (fill n d l) = fill n d (l ++ [v]).
Proof. intros Hl. rewrite <-fill_snoc by done. apply fill_insert. Qed.

Lemma fill_lookup {A} n (d : A) l i x : l !! i = Some x -> fill n d l !! i = Some x.
Proof. apply lookup_app_l_Some. Qed.

(** ** The accumulator *)

Lemma fix_immediate_starts_eq len g u p : fix_immediate_starts len g u p =
  if g <=? u then
    x ← arr_read p u;
    if x =? INVALID_IDX then
      p ← arr_write p u len;
      match u with O => Panic | S i => fix_immediate_starts len g i p end
    else Ok p
  else Ok p.
Proof. by destruct u. Qed.

Lemma fix_starts len k p x r : x <> INVALID_IDX ->
  fix_immediate_starts len (length p) (length p + k) (p ++ x :: replicate k INVALID_IDX ++ r) =
  Ok (p ++ x :: replicate k len ++ r).
Proof.
  intros Hx. revert r. induction k as [|k IH]; intros r; rewrite fix_immediate_starts_eq.
  - rewrite Nat.add_0_r, Nat.leb_refl, (arr_read_Ok _ _ x) by (by rewrite list_lookup_middle).
    cbn [mbind outcome_bind]. by rewrite (proj2 (Nat.eqb_neq _ _) Hx).
  - rewrite (proj2 (Nat.leb_le _ _)) by lia. rewrite replicate_S_end, <-app_assoc, app_comm_cons, app_assoc.
    assert (Hl : length p + S k = length (p ++ x :: replicate k INVALID_IDX))
      by (rewrite length_app; cbn; rewrite length_replicate; lia).
    cbn [app]. rewrite Hl at 1. rewrite (arr_read_Ok _ _ INVALID_IDX) by (by rewrite list_lookup_middle).
    cbn [mbind outcome_bind]. rewrite Nat.eqb_refl. rewrite Hl at 1.
    rewrite arr_write_Ok by (rewrite !length_app; cbn; lia). rewrite <-(Nat.add_0_r (length (p ++ _))), insert_app_r.
    cbn [mbind outcome_bind list_insert insert]. rewrite Nat.add_succ_r, <-app_assoc, <-app_comm_cons, IH.
    by rewrite (replicate_S_end k len), <-app_assoc.
Qed.

Lemma finalize_indptr_eq a p x k y tl : acc_indptr a = p ++ x :: replicate k INVALID_IDX ++ y :: tl ->
  group_idx a = length p -> next_group_idx a = length p + 1 + k -> x <> INVALID_IDX ->
  finalize_indptr a =
  Ok (mkAccumulator (acc_ops a) (p ++ x :: replicate k (length (acc_ops a)) ++ length (acc_ops a) :: tl)
        (acc_padding a) (acc_groups a) (group a) (op_idx a) (group_idx a) (next_group_idx a)).
Proof.
  intros Hp Hg Hn Hx. unfold finalize_indptr. rewrite Hp, Hg, Hn.
  assert (Hl : length p + 1 + k = length (p ++ x :: replicate k INVALID_IDX) + 0)
    by (rewrite length_app; cbn; rewrite length_replicate; lia).
  rewrite app_comm_cons, app_assoc, Hl, arr_write_Ok by (rewrite !length_app; cbn; lia).
  rewrite insert_app_r. cbn [mbind outcome_bind list_insert insert]. rewrite <-Hl, usub_Ok by lia.
  cbn [mbind outcome_bind]. replace (length p + 1 + k - 1) with (length p + k) by lia.
  rewrite <-app_assoc, <-app_comm_cons, fix_starts by done. reflexivity.
Qed.

(** The accumulator with the current group padded, before and after its value is saved. *)
Definition padded_acc (cs : list opgroup) (cur : opgroup) (tl : list nat) (v : felt) : OpBatchAccumulator :=
  let n := length (slots cs) in
  mkAccumulator (all_ops cs ++ padded cur)
    (starts 0 (slots cs) ++ length (all_ops cs) :: replicate (length (imms cur)) INVALID_IDX ++ tl)
    (fill BATCH_SIZE false ((slot_pad <$> slots cs) ++ [needs_pad cur]))
    (fill BATCH_SIZE ZERO ((slot_value <$> slots cs) ++ v :: imms cur))
    (pack_group cur) (length (padded cur)) n (n + 1 + length (imms cur)).

Lemma slots_snoc cs cur : length (slots (cs ++ [cur])) = length (slots cs) + 1 + length (imms cur).
Proof. rewrite slots_app, slots_one, length_app, length_group_slots. lia. Qed.

Lemma fill_replicate {A} n (d : A) l k : length l + k <= n -> fill n d (l ++ replicate k d) = fill n d l.
Proof.
  intros Hl. unfold fill. rewrite length_app, length_replicate, <-app_assoc, <-replicate_add. do 2 f_equal. lia.
Qed.

Lemma pad_ok cs cur tl v : length (slots cs) < BATCH_SIZE ->
  pad_if_needed (open_acc cs cur tl v) = Ok (padded_acc cs cur tl v).
Proof.
  intros Hn. unfold pad_if_needed, padded_acc, padded, push_op, open_acc.
  cbn [acc_ops acc_padding acc_indptr acc_groups group op_idx group_idx next_group_idx].
  replace ((length cur =? 0) || _) with (needs_pad cur).
  - destruct (needs_pad cur) eqn:Hp.
    + rewrite arr_write_Ok by (rewrite length_fill by (rewrite length_fmap; lia); lia). cbn [mbind outcome_bind].
      rewrite <-(length_fmap slot_pad (slots cs)) at 1. rewrite fill_extend by (by rewrite length_fmap).
      by rewrite pack_noop, <-app_assoc, length_app.
    + rewrite app_nil_r, fill_snoc by (by rewrite length_fmap). reflexivity.
  - destruct cur as [|op cur _] using rev_ind; [done|].
    by rewrite app_assoc, last_snoc, needs_pad_snoc, length_app, Nat.add_1_r.
Qed.

Lemma save_open cs cur tl v : length (slots cs) + 1 + length (imms cur) <= BATCH_SIZE ->
  save_group (open_acc cs cur tl v) = Ok (open_acc cs cur tl (new_unchecked (pack_group cur))).
Proof.
  intros Hn. unfold save_group. cbn [open_acc acc_groups group_idx group acc_ops acc_indptr acc_padding op_idx next_group_idx].
  rewrite arr_write_Ok by (rewrite length_fill by (rewrite length_app, length_fmap; cbn; lia); lia). cbn [mbind outcome_bind].
  rewrite <-(length_fmap slot_value (slots cs)) at 1. by rewrite fill_insert.
Qed.

Lemma save_padded cs cur tl v : length (slots cs) + 1 + length (imms cur) <= BATCH_SIZE ->
  save_group (padded_acc cs cur tl v) = Ok (padded_acc cs cur tl (new_unchecked (pack_group cur))).
Proof.
  intros Hn. unfold save_group. cbn [padded_acc acc_groups group_idx group acc_ops acc_indptr acc_padding op_idx next_group_idx].
  rewrite arr_write_Ok by (rewrite length_fill by (rewrite length_app, length_fmap; cbn; lia); lia). cbn [mbind outcome_bind].
  rewrite <-(length_fmap slot_value (slots cs)) at 1. by rewrite fill_insert.
Qed.

(** A group start is never mistaken for the mark of an immediate. *)
Lemma start_valid cs cur : Forall group_ok (cs ++ [cur]) -> length (slots (cs ++ [cur])) <= BATCH_SIZE ->
  length (all_ops cs) <> INVALID_IDX.
Proof.
  rewrite Forall_app. intros [Hcs _] Hn. rewrite slots_snoc in Hn. apply all_ops_bound in Hcs.
  pose proof (length_slots_ge cs). unfold INVALID_IDX, BATCH_SIZE, GROUP_SIZE in *. lia.
Qed.

Lemma finalize_padded cs cur y tl v : Forall group_ok (cs ++ [cur]) -> length (slots (cs ++ [cur])) <= BATCH_SIZE ->
  finalize_indptr (padded_acc cs cur (y :: tl) v) =
  Ok (mkAccumulator (all_ops (cs ++ [cur])) (starts 0 (slots (cs ++ [cur])) ++ length (all_ops (cs ++ [cur])) :: tl)
        (fill BATCH_SIZE false (slot_pad <$> slots (cs ++ [cur])))
        (fill BATCH_SIZE ZERO ((slot_value <$> slots cs) ++ v :: imms cur))
        (pack_group cur) (length (padded cur)) (length (slots cs)) (length (slots (cs ++ [cur])))).
Proof.
  intros Hok Hn. pose proof (start_valid _ _ Hok Hn) as Hv. rewrite slots_snoc in *.
  rewrite (finalize_indptr_eq _ (starts 0 (slots cs)) (length (all_ops cs)) (length (imms cur)) y tl);
    [|done|cbn; by rewrite length_starts|cbn; by rewrite length_starts|done].
  cbn [padded_acc acc_ops acc_padding acc_groups group op_idx group_idx next_group_idx].
  rewrite slots_app, slots_one, all_ops_app, all_ops_one, starts_app, <-all_ops_slots, fmap_app, length_app.
  unfold group_slots. cbn [starts fmap list_fmap slot_ops slot_pad length]. rewrite starts_imms. f_equal. f_equal.
  - by rewrite <-app_assoc.
  - rewrite imm_slots_pad, (cons_middle (needs_pad cur) _ (replicate _ _)), (app_assoc _ [_]), fill_replicate; [done|].
    rewrite length_app, length_fmap. cbn. lia.
Qed.

Lemma finalize_op_group_eq cs cur y tl : Forall group_ok (cs ++ [cur]) -> length (slots (cs ++ [cur])) < BATCH_SIZE ->
  finalize_op_group (acc_of cs cur (y :: tl)) = Ok (acc_of (cs ++ [cur]) [] tl).
Proof.
  intros Hok Hn. pose proof (slots_snoc cs cur) as Hs. unfold finalize_op_group, acc_of at 1.
  rewrite pad_ok by lia. cbn [mbind outcome_bind]. rewrite save_padded by lia. cbn [mbind outcome_bind].
  rewrite finalize_padded by (done || lia). cbn [mbind outcome_bind acc_ops acc_indptr acc_padding acc_groups next_group_idx].
  unfold acc_of, open_acc. rewrite app_nil_r. cbn [imms omap list_omap length replicate app pack_group seq zip_with foldl].
  rewrite Nat.add_0_r. f_equal. f_equal. rewrite fill_snoc by (by rewrite length_fmap).
  by rewrite slots_app, slots_one, fmap_app, imm_slots_value.
Qed.

Lemma push_op_eq cs cur tl op : imm_value op = None ->
  push_op (acc_of cs cur tl) op = acc_of cs (cur ++ [op]) tl.
Proof.
  intros Hi. unfold push_op, acc_of, open_acc. cbn. rewrite pack_group_snoc, imms_snoc, Hi, app_nil_r, length_app.
  by rewrite app_assoc.
Qed.

Lemma push_immediate_eq cs cur y tl op v : imm_value op = Some v ->
  length (slots (cs ++ [cur])) < BATCH_SIZE ->
  (a ← place_immediate (acc_of cs cur (y :: tl)) v; Ok (push_op a op)) = Ok (acc_of cs (cur ++ [op]) tl).
Proof.
  intros Hi Hn. rewrite slots_snoc in Hn. unfold place_immediate, acc_of, open_acc.
  cbn [acc_ops acc_padding acc_indptr acc_groups group op_idx group_idx next_group_idx].
  set (m := length (slots cs) + 1 + length (imms cur)).
  assert (H1 : m = length ((slot_value <$> slots cs) ++ ZERO :: imms cur))
    by (unfold m; rewrite length_app, length_fmap; cbn; lia).
  assert (H2 : m = length (starts 0 (slots cs) ++ length (all_ops cs) :: replicate (length (imms cur)) INVALID_IDX) + 0)
    by (unfold m; rewrite length_app, length_starts; cbn; rewrite length_replicate; lia).
  assert (H3 : forall L, m = length L -> <[m := v]> (fill BATCH_SIZE ZERO L) = fill BATCH_SIZE ZERO (L ++ [v]))
    by (intros L HL; rewrite HL; apply fill_extend; lia).
  assert (H4 : forall L, m = length L + 0 -> <[m := INVALID_IDX]> (L ++ y :: tl) = L ++ INVALID_IDX :: tl)
    by (intros L HL; rewrite HL; by rewrite insert_app_r).
  rewrite (arr_write_Ok (fill _ _ _)) by (rewrite length_fill by lia; lia). cbn [mbind outcome_bind].
  rewrite H3 by done. rewrite (app_comm_cons _ (y :: tl)), (app_assoc _ _ (y :: tl)).
  rewrite arr_write_Ok by (rewrite length_app; cbn [length]; lia). cbn [mbind outcome_bind]. rewrite H4 by done.
  unfold push_op. cbn [acc_ops acc_padding acc_indptr acc_groups group op_idx group_idx next_group_idx].
  rewrite imms_snoc, Hi, pack_group_snoc, !length_app, <-!app_assoc. cbn [length app].
  rewrite replicate_add, <-app_assoc. unfold m. f_equal. f_equal. lia.
Qed.

(** What [add_op] makes of the groups: the operation joins the current group, or starts the next one. *)
Definition joins (cur : opgroup) (op : Operation) : bool :=
  length cur <? (if has_immediate op then GROUP_SIZE - 1 else GROUP_SIZE).
Definition add_to (cs : list opgroup) (cur : opgroup) (op : Operation) : list opgroup * opgroup :=
  if joins cur op then (cs, cur ++ [op]) else (cs ++ [cur], [op]).

Lemma can_accept_eq cs cur tl op : length (slots (cs ++ [cur])) <= BATCH_SIZE ->
  can_accept_op (acc_of cs cur tl) op =
  (length (slots (cs ++ [cur])) + Nat.b2n (has_immediate op) + Nat.b2n (negb (joins cur op)) <=? BATCH_SIZE).
Proof.
  intros Hn. unfold can_accept_op, joins. cbn [acc_of open_acc op_idx next_group_idx]. rewrite slots_snoc in *.
  set (m := length (slots cs) + 1 + length (imms cur)) in *.
  destruct (has_immediate op).
  - destruct (length cur <? GROUP_SIZE - 1); cbn [negb Nat.b2n];
      [destruct (Nat.ltb_spec m BATCH_SIZE), (Nat.leb_spec (m + 1 + 0) BATCH_SIZE)
      |destruct (Nat.ltb_spec (m + 1) BATCH_SIZE), (Nat.leb_spec (m + 1 + 1) BATCH_SIZE)]; lia || done.
  - destruct (length cur <? GROUP_SIZE); cbn [negb Nat.b2n orb];
      [destruct (Nat.leb_spec (m + 0 + 0) BATCH_SIZE)
      |destruct (Nat.ltb_spec m BATCH_SIZE), (Nat.leb_spec (m + 0 + 1) BATCH_SIZE)]; lia || done.
Qed.

Lemma length_imms_snoc c op : length (imms (c ++ [op])) = length (imms c) + Nat.b2n (has_immediate op).
Proof. rewrite imms_snoc, length_app. unfold has_immediate. by destruct (imm_value op). Qed.

Lemma group_ok_snoc c op : length c < (if has_immediate op then GROUP_SIZE - 1 else GROUP_SIZE) -> group_ok (c ++ [op]).
Proof.
  unfold group_ok. rewrite length_padded, needs_pad_snoc, length_app. cbn [length].
  destruct (has_immediate op); cbn [Nat.b2n]; unfold GROUP_SIZE; lia.
Qed.

(** The operation joins the current group. *)
Lemma add_joining cs cur tl op : acc_ok cs cur tl -> joins cur op = true ->
  length (slots (cs ++ [cur])) + Nat.b2n (has_immediate op) <= BATCH_SIZE ->
  exists tl', add_op (acc_of cs cur tl) op = Ok (acc_of cs (cur ++ [op]) tl') /\ acc_ok cs (cur ++ [op]) tl'.
Proof.
  intros (Hok & Hn & Ht) Hj Hfit. unfold joins in Hj. apply Nat.ltb_lt in Hj.
  assert (Hok' : Forall group_ok (cs ++ [cur ++ [op]])).
  { apply Forall_app in Hok as [? _]. apply Forall_app; auto using group_ok_snoc. }
  assert (Hs : length (slots (cs ++ [cur ++ [op]])) = length (slots (cs ++ [cur])) + Nat.b2n (has_immediate op))
    by (rewrite !slots_snoc, length_imms_snoc; lia).
  unfold add_op. change (op_idx (acc_of cs cur tl)) with (length cur).
  rewrite (proj2 (Nat.eqb_neq (length cur) GROUP_SIZE)) by (destruct (has_immediate op); unfold GROUP_SIZE in *; lia).
  cbn [mbind outcome_bind]. unfold acc_ok. rewrite Hs. unfold has_immediate in *. destruct (imm_value op) as [v|] eqn:Hi; cbn [Nat.b2n] in *.
  - change (op_idx (acc_of cs cur tl)) with (length cur). rewrite (proj2 (Nat.eqb_neq (length cur) (GROUP_SIZE - 1))) by (unfold GROUP_SIZE in *; lia). cbn [mbind outcome_bind].
    destruct tl as [|y tl]; [cbn [length] in Ht; lia|]. exists tl. split; [|split_and!; [done|lia|cbn [length] in Ht; lia]].
    apply push_immediate_eq; [done|lia].
  - exists tl. split; [|split_and!; [done|lia..]]. cbn [mbind outcome_bind]. by rewrite <-push_op_eq.
Qed.

Lemma group_ok_nil : group_ok [].
Proof. unfold group_ok, GROUP_SIZE. cbn. lia. Qed.

Lemma acc_ok_close cs cur y tl : acc_ok cs cur (y :: tl) -> length (slots (cs ++ [cur])) < BATCH_SIZE ->
  acc_ok (cs ++ [cur]) [] tl.
Proof.
  intros (Hok & Hn & Ht) Hlt. unfold acc_ok. rewrite (slots_snoc (cs ++ [cur])). cbn in *.
  split_and!; [apply Forall_app; auto using group_ok_nil|lia..].
Qed.

Lemma add_op_fresh cs tl op : add_op (acc_of cs [] tl) op =
  (a ← match imm_value op with Some imm => place_immediate (acc_of cs [] tl) imm | None => Ok (acc_of cs [] tl) end;
   Ok (push_op a op)).
Proof. unfold add_op. by destruct (imm_value op). Qed.

(** The operation starts a new group. *)
Lemma add_starting cs cur tl op : acc_ok cs cur tl -> joins cur op = false ->
  length (slots (cs ++ [cur])) + Nat.b2n (has_immediate op) + 1 <= BATCH_SIZE ->
  exists tl', add_op (acc_of cs cur tl) op = Ok (acc_of (cs ++ [cur]) [op] tl') /\ acc_ok (cs ++ [cur]) [op] tl'.
Proof.
  intros Hacc Hj Hfit. destruct tl as [|y tl]; [destruct Hacc as (_ & _ & Ht); cbn [length] in Ht; lia|].
  assert (Hc : acc_ok (cs ++ [cur]) [] tl) by (eapply acc_ok_close; [done|lia]).
  destruct (add_joining (cs ++ [cur]) [] tl op Hc) as (tl' & He & Hok');
    [unfold joins, GROUP_SIZE; by destruct (has_immediate op)|rewrite slots_snoc; cbn; lia|].
  exists tl'. split; [|done]. rewrite add_op_fresh in He. cbn [app] in He. rewrite <-He. clear He.
  assert (Hle : length cur <= GROUP_SIZE).
  { destruct Hacc as (H & _). apply Forall_app in H as [_ H]. apply Forall_inv in H. unfold group_ok in H.
    rewrite length_padded in H. lia. }
  unfold joins in Hj. apply Nat.ltb_ge in Hj. destruct Hacc as (Hok & _).
  unfold add_op. change (op_idx (acc_of cs cur (y :: tl))) with (length cur). destruct (Nat.eqb_spec (length cur) GROUP_SIZE) as [He|He].
  - rewrite finalize_op_group_eq by (done || lia). cbn [mbind outcome_bind]. by destruct (imm_value op).
  - cbn [mbind outcome_bind]. unfold has_immediate in Hj. destruct (imm_value op); [|lia].
    change (op_idx (acc_of cs cur (y :: tl))) with (length cur). rewrite (proj2 (Nat.eqb_eq _ _)) by lia.
    by rewrite finalize_op_group_eq by (done || lia).
Qed.

Lemma add_op_eq cs cur tl op : acc_ok cs cur tl -> can_accept_op (acc_of cs cur tl) op = true ->
  let '(cs', cur') := add_to cs cur op in
  exists tl', add_op (acc_of cs cur tl) op = Ok (acc_of cs' cur' tl') /\ acc_ok cs' cur' tl'.
Proof.
  intros Hacc Hc. rewrite can_accept_eq in Hc by apply Hacc. apply Nat.leb_le in Hc. unfold add_to.
  destruct (joins cur op) eqn:Hj; cbn [negb Nat.b2n] in Hc; [apply add_joining|apply add_starting]; try done; lia.
Qed.

Lemma concat_add_to cs cur op : concat (add_to cs cur op).1 ++ (add_to cs cur op).2 = (concat cs ++ cur) ++ [op].
Proof. unfold add_to. destruct (joins cur op); cbn; [by rewrite app_assoc|]. rewrite concat_app. cbn. by rewrite app_nil_r. Qed.

(** ** Closing a batch *)

Lemma close_n k n cs cur tl : acc_ok cs cur tl -> length (slots (cs ++ [cur])) + k <= BATCH_SIZE ->
  exists cs' cur' tl', for_each (seq n k) (fun a _ => finalize_op_group a) (acc_of cs cur tl) = Ok (acc_of cs' cur' tl') /\
    acc_ok cs' cur' tl' /\ cs' ++ [cur'] = cs ++ [cur] ++ replicate k [].
Proof.
  revert n cs cur tl. induction k as [|k IH]; intros n cs cur tl Hok Hk; [by exists cs, cur, tl|].
  destruct tl as [|y tl]; [destruct Hok as (_ & _ & Ht); cbn [length] in Ht; lia|].
  cbn [seq for_each]. rewrite finalize_op_group_eq by (apply Hok || lia). cbn [mbind outcome_bind].
  destruct (IH (S n) (cs ++ [cur]) [] tl) as (cs' & cur' & tl' & He & Hok' & Hc);
    [eapply acc_ok_close; [done|lia]|rewrite slots_snoc; cbn; lia|].
  exists cs', cur', tl'. split_and!; [done..|]. rewrite Hc. by rewrite <-app_assoc.
Qed.

Lemma fill_loop {E A} (v : A) l r : for_each (seq (length l) (length r)) (fun p i => arr_write p i v) (l ++ r) =
  Ok (E := E) (l ++ replicate (length r) v).
Proof.
  revert l. induction r as [|x r IH]; intros l; [done|]. cbn [length seq for_each].
  rewrite arr_write_Ok by (rewrite length_app; cbn; lia). cbn [mbind outcome_bind].
  rewrite <-(Nat.add_0_r (length l)) at 2. rewrite insert_app_r. cbn [insert list_insert].
  rewrite cons_middle, app_assoc. replace (S (length l)) with (length (l ++ [v])) by (rewrite length_app; cbn; lia).
  rewrite IH. by rewrite <-app_assoc.
Qed.

Lemma save_if_needed cs cur tl : acc_ok cs cur tl ->
  (if negb (group (acc_of cs cur tl) =? 0)%Z || negb (op_idx (acc_of cs cur tl) =? 0)
   then save_group (acc_of cs cur tl) else Ok (acc_of cs cur tl)) =
  Ok (open_acc cs cur tl (new_unchecked (pack_group cur))).
Proof.
  intros (_ & Hn & _). rewrite slots_snoc in Hn. destruct (negb _ || negb _) eqn:E; [by apply save_open|].
  apply orb_false_iff in E as [E _]. apply negb_false_iff, Z.eqb_eq in E. change (pack_group cur = 0%Z) in E.
  by rewrite E, new_unchecked_0.
Qed.

Lemma into_batch_eq cs cur tl : acc_ok cs cur tl ->
  let m := length (slots (cs ++ [cur])) in
  into_batch (acc_of cs cur tl) = Ok (batch_of (cs ++ [cur] ++ replicate (next_power_of_two m - m) [])).
Proof.
  intros Hok. cbn zeta. unfold into_batch. cbn [acc_of open_acc next_group_idx]. fold (acc_of cs cur tl).
  rewrite <-slots_snoc. set (m := length (slots (cs ++ [cur]))).
  destruct (close_n (next_power_of_two m - m) m cs cur tl Hok) as (cs' & cur' & tl' & -> & Hok' & <-).
  { assert (1 <= m <= 8) as Hm by (unfold m; destruct Hok as (_ & ? & _); split; [rewrite slots_snoc; lia|done]).
    change (length (slots (cs ++ [cur]))) with m.
    do 9 (destruct m as [|m]; [unfold BATCH_SIZE; cbn; lia|]). lia. }
  cbn [mbind outcome_bind]. rewrite save_if_needed by done. cbn [mbind outcome_bind].
  destruct tl' as [|y tl']; [destruct Hok' as (_ & ? & Ht); cbn [length] in Ht; lia|]. destruct Hok' as (Ho & Hn & Ht).
  pose proof (slots_snoc cs' cur') as Hs. rewrite pad_ok by lia. cbn [mbind outcome_bind].
  rewrite finalize_padded by done. cbn [mbind outcome_bind acc_ops acc_indptr acc_padding acc_groups next_group_idx].
  set (n := length (slots (cs' ++ [cur']))) in *. pose proof (length_starts 0 (slots (cs' ++ [cur']))) as Hst.
  replace (BATCH_SIZE + 1 - n) with (length (length (all_ops (cs' ++ [cur'])) :: tl')) by (cbn [length] in *; lia).
  fold n in Hst. rewrite <-Hst, fill_loop. cbn [mbind outcome_bind].
  unfold batch_of, fill. rewrite Hst. f_equal. f_equal; [|rewrite slots_app, slots_one, fmap_app, imm_slots_value; done].
  do 2 f_equal. cbn [length] in *. lia.
Qed.

(** ** Batching a block *)

Definition batch_ok (cs : list opgroup) : Prop :=
  Forall group_ok cs /\ length (slots cs) <= BATCH_SIZE /\ is_power_of_two (length (slots cs)) = true.

Lemma length_slots_empty k : length (slots (replicate k [])) = k.
Proof. induction k as [|k IH]; [done|]. cbn. by f_equal. Qed.

Lemma concat_nils {A} k : concat (replicate k ([] : list A)) = [].
Proof. by induction k. Qed.

Lemma concat_snoc {A} (css : list (list (list A))) gs : concat (concat (css ++ [gs])) = concat (concat css) ++ concat gs.
Proof. rewrite concat_app. cbn. by rewrite app_nil_r, concat_app. Qed.

Lemma group_counts m : 1 <= m <= BATCH_SIZE ->
  m <= next_power_of_two m <= BATCH_SIZE /\ is_power_of_two (next_power_of_two m) = true /\
  (4 < m -> next_power_of_two m = BATCH_SIZE).
Proof. intros Hm. unfold BATCH_SIZE in *. do 9 (destruct m as [|m]; [split_and!; cbn; (lia || done)|]). lia. Qed.

Lemma into_batch_ok cs cur tl : acc_ok cs cur tl ->
  exists gs, into_batch (acc_of cs cur tl) = Ok (batch_of gs) /\ batch_ok gs /\ concat gs = concat cs ++ cur /\
    (4 < length (slots (cs ++ [cur])) -> length (slots gs) = BATCH_SIZE).
Proof.
  intros Hok. pose proof (into_batch_eq _ _ _ Hok) as He. cbn zeta in He. destruct Hok as (Ho & Hn & _).
  set (m := length (slots (cs ++ [cur]))) in *. eexists. split; [exact He|].
  destruct (group_counts m) as (H1 & H2 & H3); [split; [unfold m; rewrite slots_snoc; lia|done]|].
  assert (Hl : length (slots (cs ++ [cur] ++ replicate (next_power_of_two m - m) [])) = next_power_of_two m).
  { rewrite app_assoc, slots_app, length_app, length_slots_empty. fold m. lia. }
  unfold batch_ok. rewrite Hl. split_and!; [|lia|done| |done].
  - rewrite app_assoc. apply Forall_app. split; [done|]. apply Forall_replicate, group_ok_nil.
  - rewrite concat_app, concat_app, concat_nils. cbn. by rewrite !app_nil_r.
Qed.

(** The state between operations, with what has been batched so far. *)
Definition batched (l : list Operation) (s : list OpBatch * OpBatchAccumulator) : Prop :=
  exists css cs cur tl, s = (batch_of <$> css, acc_of cs cur tl) /\ acc_ok cs cur tl /\
    Forall (fun gs => batch_ok gs /\ length (slots gs) = BATCH_SIZE) css /\
    concat (concat css) ++ concat cs ++ cur = l.

Lemma new_accumulator_eq : new_accumulator = acc_of [] [] (replicate BATCH_SIZE 0).
Proof. reflexivity. Qed.

Lemma new_accumulator_ok : acc_ok [] [] (replicate BATCH_SIZE 0).
Proof. split_and!; [apply Forall_singleton, group_ok_nil|cbn; unfold BATCH_SIZE; lia|done]. Qed.

Lemma batch_step_ok l s op : batched l s -> exists s', batch_step s op = Ok s' /\ batched (l ++ [op]) s'.
Proof.
  intros (css & cs & cur & tl & -> & Hok & Hcss & <-). unfold batch_step.
  assert (Hadd : forall css' cs' cur' tl', acc_ok cs' cur' tl' ->
    Forall (fun gs => batch_ok gs /\ length (slots gs) = BATCH_SIZE) css' ->
    can_accept_op (acc_of cs' cur' tl') op = true ->
    exists s', (batch_acc ← add_op (acc_of cs' cur' tl') op; Ok (batch_of <$> css', batch_acc)) = Ok s' /\
      batched ((concat (concat css') ++ concat cs' ++ cur') ++ [op]) s').
  { intros css' cs' cur' tl' Hok' Hcss' Hacc. pose proof (add_op_eq _ _ _ _ Hok' Hacc) as H.
    pose proof (concat_add_to cs' cur' op) as Hc. destruct (add_to cs' cur' op) as [cs2 cur2].
    destruct H as (tl2 & -> & Hok2). eexists. split; [reflexivity|]. exists css', cs2, cur2, tl2.
    split_and!; [done..|]. cbn in Hc. by rewrite Hc, app_assoc. }
  destruct (can_accept_op (acc_of cs cur tl) op) eqn:Hacc; cbn [negb].
  - cbn [mbind outcome_bind]. by apply Hadd.
  - destruct (into_batch_ok _ _ _ Hok) as (gs & -> & Hgs & Hc & Hfull). cbn [mbind outcome_bind].
    assert (Hf : length (slots gs) = BATCH_SIZE).
    { apply Hfull. rewrite can_accept_eq in Hacc by apply Hok. apply Nat.leb_gt in Hacc. unfold BATCH_SIZE in Hacc.
      destruct (has_immediate op), (joins cur op); cbn in Hacc; lia. }
    replace ((batch_of <$> css) ++ [batch_of gs]) with (batch_of <$> css ++ [gs]) by (by rewrite fmap_app).
    replace (concat (concat css) ++ concat cs ++ cur) with (concat (concat (css ++ [gs])) ++ concat [] ++ ([] : list Operation))
      by (rewrite concat_snoc, Hc; cbn; by rewrite app_nil_r).
    rewrite new_accumulator_eq. apply Hadd; [apply new_accumulator_ok| |].
    + apply Forall_app. auto.
    + unfold can_accept_op, has_immediate. by destruct (imm_value op).
Qed.

Lemma batch_loop_ok l l0 s : batched l0 s -> exists s', for_each l batch_step s = Ok s' /\ batched (l0 ++ l) s'.
Proof.
  revert l0 s. induction l as [|op l IH]; intros l0 s H; [rewrite app_nil_r; by exists s|].
  destruct (batch_step_ok _ _ op H) as (s1 & H1 & H1'). cbn [for_each]. rewrite H1. cbn [mbind outcome_bind].
  destruct (IH _ _ H1') as (s' & H' & H''). exists s'. split; [done|]. by rewrite <-app_assoc in H''.
Qed.

(** The batches of a block in terms of their groups. *)
Definition block_ok (css : list (list opgroup)) : Prop :=
  Forall batch_ok css /\ forall i cs, css !! i = Some cs -> i + 1 < length css -> length (slots cs) = BATCH_SIZE.

Lemma batch_ops_eq l : exists css, batch_ops l = Ok (batch_of <$> css) /\ concat (concat css) = l /\ block_ok css.
Proof.
  unfold batch_ops. destruct (batch_loop_ok l [] ([], new_accumulator)) as (s & -> & css & cs & cur & tl & -> & Hok & Hcss & Hl).
  { exists [], [], [], (replicate BATCH_SIZE 0). split_and!; [done|apply new_accumulator_ok|constructor|done]. }
  cbn [mbind outcome_bind]. cbn in Hl. assert (Hall : Forall batch_ok css) by (eapply Forall_impl; [done|by intros ? [? _]]).
  unfold is_empty. change (acc_ops (acc_of cs cur tl)) with (all_ops cs ++ cur).
  destruct (all_ops cs ++ cur) as [|op0 r] eqn:E; cbn [negb].
  - exists css. split_and!; [done| |split; [done|]].
    + apply app_eq_nil in E as [E ->]. destruct cs as [|c cs]; [by rewrite !app_nil_r in Hl|].
      change (c :: cs) with ([c] ++ cs) in E. rewrite all_ops_app, all_ops_one in E. apply app_eq_nil in E as [E _].
      by destruct (padded_nonempty c).
    + intros i gs Hi _. by apply (Forall_lookup_1 _ _ _ _ Hcss Hi).
  - destruct (into_batch_ok _ _ _ Hok) as (gs & -> & Hgs & Hc & _). cbn [mbind outcome_bind]. exists (css ++ [gs]).
    split_and!; [by rewrite fmap_app| |split; [by apply Forall_app; auto|]].
    + by rewrite concat_snoc, Hc.
    + intros i gs' Hi Hlt. rewrite length_app in Hlt. cbn in Hlt. rewrite lookup_app_l in Hi by lia.
      by apply (Forall_lookup_1 _ _ _ _ Hcss Hi).
Qed.
End Layout.
