(* ===== verification/BatchValid.v ===== *)
(** * Batches are well formed

    The accessors and validators of [basic_block_node/mod.rs] on the batches of [BatchCorrect]: the operations
    without padding come back, every validator accepts, and the translations of indices
    are inverse to each other. *)

From S2P Require Import Prelude Field Types Operations Batching BatchCorrect.
Import Op.

Section Valid.
Context {F : Felt}.
Abbreviation opgroup := (list Operation).
Abbreviation bresult := (outcome BatchError).

(** ** One slot of a batch *)

Definition slot_start (cs : list opgroup) (g : nat) : nat := length (concat (slot_ops <$> take g (slots cs))).

Lemma slot_split cs g s : slots cs !! g = Some s ->
  slots cs = take g (slots cs) ++ s :: drop (S g) (slots cs) /\ length (take g (slots cs)) = g.
Proof.
  intros H. split; [by rewrite take_drop_middle|]. rewrite length_take. apply lookup_lt_Some in H. lia.
Qed.

Lemma slot_indptr cs g s : length (slots cs) <= BATCH_SIZE -> slots cs !! g = Some s ->
  indptr (batch_of cs) !! g = Some (slot_start cs g) /\
  indptr (batch_of cs) !! (g + 1) = Some (slot_start cs g + length (slot_ops s)).
Proof.
  intros Hn Hs. destruct (slot_split cs g s Hs) as [Heq Hl]. unfold batch_of. cbn [indptr].
  unfold slot_start. set (l := take g (slots cs)) in *. set (r := drop (S g) (slots cs)) in *.
  assert (Ha : length (all_ops cs) = length (concat (slot_ops <$> l)) + length (slot_ops s) + length (concat (slot_ops <$> r))).
  { rewrite all_ops_slots, Heq, fmap_app, concat_app, length_app. cbn. rewrite length_app. lia. }
  rewrite Ha. assert (Hlr : length (slots cs) = g + 1 + length r) by (rewrite Heq, length_app; cbn; lia).
  rewrite Heq, starts_app. cbn [starts Nat.add]. unfold fill. rewrite <-app_assoc. cbn [app].
  assert (Hg : g = length (starts 0 l)) by (by rewrite length_starts). split.
  - rewrite Hg at 1. by rewrite list_lookup_middle.
  - rewrite lookup_app_r by (rewrite length_starts; lia). rewrite length_starts, Hl.
    replace (g + 1 - g) with 1 by lia. cbn [lookup list_lookup]. destruct r as [|t r].
    + cbn [starts app]. rewrite length_app, length_starts, Hl. cbn [length] in *.
      replace (BATCH_SIZE + 1 - (g + 1)) with (S (BATCH_SIZE - g - 1)) by lia. cbn. f_equal. lia.
    + done.
Qed.

Lemma slot_slice cs g s : slots cs !! g = Some s ->
  slot_start cs g + length (slot_ops s) <= length (all_ops cs) /\
  take (length (slot_ops s)) (drop (slot_start cs g) (all_ops cs)) = slot_ops s.
Proof.
  intros Hs. destruct (slot_split cs g s Hs) as [Heq Hl]. rewrite all_ops_slots. rewrite Heq at 1 2.
  unfold slot_start. rewrite fmap_app, concat_app. cbn. split; [rewrite !length_app; lia|].
  by rewrite drop_app_length, take_app_length.
Qed.

Lemma slot_arrays cs g s : length (slots cs) <= BATCH_SIZE -> slots cs !! g = Some s ->
  padding (batch_of cs) !! g = Some (slot_pad s) /\ groups (batch_of cs) !! g = Some (slot_value s).
Proof. intros Hn Hs. split; apply fill_lookup; by rewrite list_lookup_fmap, Hs. Qed.

(** The reads of a slot, for rewriting. *)
Lemma read_start cs g s : length (slots cs) <= BATCH_SIZE -> slots cs !! g = Some s ->
  arr_read (E := BatchError) (indptr (batch_of cs)) g = Ok (slot_start cs g).
Proof. intros. by apply arr_read_Ok, (slot_indptr cs g s). Qed.
Lemma read_end cs g s : length (slots cs) <= BATCH_SIZE -> slots cs !! g = Some s ->
  arr_read (E := BatchError) (indptr (batch_of cs)) (g + 1) = Ok (slot_start cs g + length (slot_ops s)).
Proof. intros. by apply arr_read_Ok, (slot_indptr cs g s). Qed.
Lemma read_padding cs g s : length (slots cs) <= BATCH_SIZE -> slots cs !! g = Some s ->
  arr_read (E := BatchError) (padding (batch_of cs)) g = Ok (slot_pad s).
Proof. intros. by apply arr_read_Ok, slot_arrays. Qed.
Lemma read_group cs g s : length (slots cs) <= BATCH_SIZE -> slots cs !! g = Some s ->
  arr_read (E := BatchError) (groups (batch_of cs)) g = Ok (slot_value s).
Proof. intros. by apply arr_read_Ok, slot_arrays. Qed.
Lemma read_slice cs g s k : slots cs !! g = Some s -> k <= length (slot_ops s) ->
  arr_slice (E := BatchError) (ops (batch_of cs)) (slot_start cs g) (slot_start cs g + k) = Ok (take k (slot_ops s)).
Proof.
  intros Hs Hk. destruct (slot_slice cs g s Hs) as [H1 H2]. cbn [ops batch_of]. rewrite arr_slice_Ok by lia.
  f_equal. rewrite <-H2, take_take. f_equal. lia.
Qed.

(** ** The operations without padding *)

Definition slot_raw (s : slot) : list Operation := match s with OpSlot c => c | ImmSlot _ => [] end.

Lemma slot_raw_ops s : slot_raw s = take (length (slot_ops s) - Nat.b2n (slot_pad s)) (slot_ops s) /\
  Nat.b2n (slot_pad s) <= length (slot_ops s).
Proof.
  destruct s as [c|v]; [|done]. cbn. rewrite length_padded. split; [|lia].
  replace (length c + _ - _) with (length c) by lia. unfold padded. by rewrite take_app_length.
Qed.

Lemma concat_slot_raw cs : concat (slot_raw <$> slots cs) = concat cs.
Proof.
  induction cs as [|c cs IH]; [done|]. change (c :: cs) with ([c] ++ cs).
  rewrite slots_app, slots_one, fmap_app, !concat_app, IH. f_equal. unfold group_slots. cbn. f_equal.
  by induction (imms c).
Qed.

Lemma raw_ops_eq cs : length (slots cs) <= BATCH_SIZE -> raw_ops (batch_of cs) = Ok (concat cs).
Proof.
  intros Hn. unfold raw_ops. change (num_groups (batch_of cs)) with (length (slots cs)).
  rewrite (for_each_indices (slots cs) _ (fun l s => l ++ slot_raw s)).
  - by rewrite foldl_app_concat, concat_slot_raw.
  - intros g s l Hs. cbn [Nat.add]. unfold group_raw_ops. rewrite (read_padding _ _ _ Hn Hs). cbn [mbind outcome_bind].
    rewrite (read_start _ _ _ Hn Hs), (read_end _ _ _ Hn Hs). cbn [mbind outcome_bind].
    destruct (slot_raw_ops s) as [Hr Hp]. rewrite usub_Ok by lia. cbn [mbind outcome_bind].
    rewrite <-Nat.add_sub_assoc by done. rewrite (read_slice cs g s) by (done || lia). by rewrite Hr.
Qed.

Lemma raw_operations_eq css : Forall batch_ok css -> raw_operations (batch_of <$> css) = Ok (concat (concat css)).
Proof.
  intros Hok. unfold raw_operations. rewrite <-(app_nil_l (concat (concat css))). generalize ([] : list Operation).
  induction Hok as [|cs css (_ & Hn & _) _ IH]; intros l; [by rewrite app_nil_r|].
  cbn [fmap list_fmap for_each concat]. rewrite raw_ops_eq by done. cbn [mbind outcome_bind].
  etransitivity; [apply IH|]. by rewrite concat_app, app_assoc.
Qed.

(** ** The validators *)

Lemma for_each_batch_ok css check :
  (forall i cs, css !! i = Some cs -> check i (batch_of cs) = Ok ()) -> for_each_batch (batch_of <$> css) check = Ok ().
Proof.
  intros Hc. unfold for_each_batch. apply for_each_check. intros [i b] Hx. apply list_elem_of_lookup in Hx as [k Hx].
  apply lookup_zip_with_Some in Hx as (x & y & [= -> ->] & Hs & Hb). apply lookup_seq in Hs as [-> _].
  rewrite list_lookup_fmap in Hb. destruct (css !! k) as [cs|] eqn:E; [|done]. injection Hb as <-.
  cbn [Nat.add]. by rewrite Hc.
Qed.

Lemma validate_power_ok css : block_ok css -> validate_power_of_two_groups (batch_of <$> css) = Ok ().
Proof.
  intros [Hok Hfull]. apply for_each_batch_ok. intros i cs Hi. rewrite length_fmap. cbn [num_groups batch_of].
  destruct (Nat.ltb_spec (i + 1) (length css)).
  - by rewrite (Hfull i cs), Nat.eqb_refl by done.
  - by rewrite (proj2 (proj2 (Forall_lookup_1 _ _ _ _ Hok Hi))).
Qed.

(** A group in the slots is followed by its immediates. *)
Lemma op_slot_split cs g c : slots cs !! g = Some (OpSlot c) ->
  c ∈ cs /\ exists l r, slots cs = l ++ group_slots c ++ r /\ length l = g.
Proof.
  revert g. induction cs as [|c' cs IH]; intros g H; [done|]. change (c' :: cs) with ([c'] ++ cs) in *.
  rewrite slots_app, slots_one in *. apply lookup_app_Some in H as [H|[Hle H]].
  - destruct g as [|g].
    + cbn in H. injection H as ->. split; [left|]. by exists [], (slots cs).
    + change ((ImmSlot <$> imms c') !! g = Some (OpSlot c)) in H. rewrite list_lookup_fmap in H. by destruct (imms c' !! g).
  - destruct (IH _ H) as (Hin & l & r & Heq & Hl). split; [by right|].
    exists (group_slots c' ++ l), r. rewrite Heq, app_assoc, length_app. split; [done|lia].
Qed.

(** An immediate belongs to a group before it. *)
Lemma imm_slot_owner cs j v : slots cs !! j = Some (ImmSlot v) ->
  exists g c, slots cs !! g = Some (OpSlot c) /\ g < j <= g + length (imms c).
Proof.
  revert j. induction cs as [|c' cs IH]; intros j H; [done|]. change (c' :: cs) with ([c'] ++ cs) in *.
  rewrite slots_app, slots_one in *. apply lookup_app_Some in H as [H|[Hle H]].
  - exists 0, c'. split; [done|]. apply lookup_lt_Some in H as Hj. rewrite length_group_slots in Hj.
    destruct j; [done|lia].
  - destruct (IH _ H) as (g & c & Hg & Hj). exists (length (group_slots c') + g), c.
    split; [|lia]. rewrite lookup_app_r by lia. by replace (length (group_slots c') + g - length (group_slots c')) with g by lia.
Qed.

Lemma imm_slot_lookup cs g c i v : slots cs !! g = Some (OpSlot c) -> imms c !! i = Some v ->
  slots cs !! (g + 1 + i) = Some (ImmSlot v).
Proof.
  intros Hg Hi. destruct (op_slot_split _ _ _ Hg) as (_ & l & r & Heq & Hl). rewrite Heq.
  rewrite lookup_app_r by lia. replace (g + 1 + i - length l) with (S i) by lia. apply lookup_app_l_Some.
  change ((ImmSlot <$> imms c) !! i = Some (ImmSlot v)). by rewrite list_lookup_fmap, Hi.
Qed.

Lemma op_slot_room cs g c : slots cs !! g = Some (OpSlot c) -> g + 1 + length (imms c) <= length (slots cs).
Proof.
  intros Hg. destruct (op_slot_split _ _ _ Hg) as (_ & l & r & Heq & Hl).
  rewrite Heq, !length_app, length_group_slots. lia.
Qed.

Lemma seq_elem i n : i ∈ seq 0 n -> i < n.
Proof. rewrite elem_of_seq. lia. Qed.

Lemma slot_at cs i : i < length (slots cs) -> exists s, slots cs !! i = Some s.
Proof. intros H. by apply lookup_lt_is_Some_2. Qed.

Lemma indptr_tail cs i : length (slots cs) <= i <= BATCH_SIZE -> length (slots cs) <= BATCH_SIZE ->
  indptr (batch_of cs) !! i = Some (length (all_ops cs)).
Proof.
  intros Hi Hn. cbn [indptr batch_of]. unfold fill. rewrite lookup_app_r by (rewrite length_starts; lia).
  rewrite length_starts. apply lookup_replicate_2. lia.
Qed.

Lemma length_indptr cs : length (slots cs) <= BATCH_SIZE -> length (indptr (batch_of cs)) = BATCH_SIZE + 1.
Proof. intros Hn. cbn [indptr batch_of]. apply length_fill. rewrite length_starts. lia. Qed.

Lemma slot_size cs g s : Forall group_ok cs -> slots cs !! g = Some s -> length (slot_ops s) <= GROUP_SIZE.
Proof.
  intros Hok Hs. destruct s as [c|v]; [|cbn; unfold GROUP_SIZE; lia]. destruct (op_slot_split _ _ _ Hs) as [Hc _].
  by apply (Forall_forall group_ok cs).
Qed.

Lemma validate_structure_ok cs : batch_ok cs -> validate_structure (batch_of cs) = Ok ().
Proof.
  intros (Hok & Hn & _). unfold validate_structure. change (num_groups (batch_of cs)) with (length (slots cs)).
  rewrite (proj2 (Nat.leb_le _ _) Hn). cbn [guard_err mbind outcome_bind].
  rewrite length_indptr, usub_Ok by (done || lia). cbn [mbind outcome_bind]. replace (BATCH_SIZE + 1 - 1) with BATCH_SIZE by lia.
  rewrite (for_each_check (seq 0 BATCH_SIZE)); cbn [mbind outcome_bind].
  - rewrite (arr_read_Ok _ _ (length (all_ops cs))) by (by apply indptr_tail). cbn [mbind outcome_bind].
    change (ops (batch_of cs)) with (all_ops cs). rewrite Nat.eqb_refl. cbn [guard_err mbind outcome_bind].
    apply for_each_check. intros g Hg. apply seq_elem in Hg. destruct (slot_at cs g Hg) as [s Hs].
    rewrite (read_start cs g s), (read_end cs g s) by done. cbn [mbind outcome_bind]. rewrite usub_Ok by lia.
    cbn [mbind outcome_bind]. rewrite Nat.add_comm, Nat.add_sub.
    by rewrite (proj2 (Nat.leb_le _ _) (slot_size cs g s Hok Hs)).
  - intros i Hi. apply seq_elem in Hi. destruct (decide (i < length (slots cs))) as [Hlt|Hge].
    + destruct (slot_at cs i Hlt) as [s Hs]. rewrite (read_start cs i s), (read_end cs i s) by done.
      cbn [mbind outcome_bind]. by rewrite (proj2 (Nat.leb_le _ _)) by lia.
    + rewrite !(arr_read_Ok _ _ (length (all_ops cs))) by (apply indptr_tail; lia). cbn [mbind outcome_bind].
      by rewrite Nat.leb_refl.
Qed.

(** A padded group does not end with an immediate. *)
Lemma last_padded c : exists op, last (padded c) = Some op /\ has_immediate op = false.
Proof.
  unfold padded. destruct (needs_pad c) eqn:E; [exists Noop; by rewrite last_snoc|]. rewrite app_nil_r.
  unfold needs_pad in E. destruct (last c) as [op|] eqn:El; [|done]. eauto.
Qed.

Lemma imms_nil_Forall c : imms c = [] -> Forall (fun op => has_immediate op = false) (padded c).
Proof.
  intros H. assert (Hc : Forall (fun op => has_immediate op = false) c).
  { apply Forall_forall. intros op Hop. unfold has_immediate. destruct (imm_value op) as [v|] eqn:E; [|done].
    assert (v ∈ imms c) as Hv by (apply list_elem_of_omap; eauto). rewrite H in Hv. by apply not_elem_of_nil in Hv. }
  unfold padded. apply Forall_app. split; [done|]. destruct (needs_pad c); [by apply Forall_singleton|constructor].
Qed.

Lemma length_padded_pos c : 0 < length (padded c).
Proof. pose proof (padded_nonempty c). destruct (padded c); [done|cbn; lia]. Qed.

Lemma validate_endings_ok cs g : length (slots cs) <= BATCH_SIZE -> g < length (slots cs) ->
  validate_group_endings (batch_of cs) g = Ok ().
Proof.
  intros Hn Hg. destruct (slot_at cs g Hg) as [s Hs]. unfold validate_group_endings.
  rewrite (read_start cs g s), (read_end cs g s) by done. cbn [mbind outcome_bind]. destruct s as [c|v]; cbn [slot_ops length].
  2: { by rewrite Nat.add_0_r, Nat.eqb_refl. }
  pose proof (length_padded_pos c). rewrite (proj2 (Nat.eqb_neq _ _)) by lia.
  rewrite (read_slice cs g (OpSlot c)) by done. cbn [mbind outcome_bind slot_ops]. rewrite firstn_all.
  change (num_groups (batch_of cs)) with (length (slots cs)). destruct (Nat.eqb_spec g (length (slots cs) - 1)) as [Hl|_].
  - apply for_each_check. intros [i op] Hx. apply list_elem_of_lookup in Hx as [k Hx].
    apply lookup_zip_with_Some in Hx as (x & y & [= -> ->] & _ & Hop). pose proof (op_slot_room _ _ _ Hs) as Hr.
    assert (Hi : imms c = []) by (apply length_zero_iff_nil; lia).
    by rewrite (Forall_lookup_1 _ _ _ _ (imms_nil_Forall c Hi) Hop).
  - destruct (last_padded c) as (op & -> & H'). by rewrite H'.
Qed.

Lemma validate_padding_ok cs : batch_ok cs -> validate_padding_of_batch (batch_of cs) = Ok ().
Proof.
  intros (Hok & Hn & _). unfold validate_padding_of_batch. change (num_groups (batch_of cs)) with (length (slots cs)).
  rewrite (proj2 (Nat.leb_le _ _) Hn). cbn [guard_err mbind outcome_bind]. apply for_each_check. intros g Hg.
  apply seq_elem in Hg. destruct (slot_at cs g Hg) as [s Hs]. unfold validate_group_padding.
  rewrite (proj1 (slot_arrays cs g s Hn Hs)). cbn [ok_or mbind outcome_bind]. destruct s as [c|v]; [|done].
  cbn [slot_pad]. destruct (needs_pad c) eqn:Hp; [|done]. cbn [negb].
  destruct (slot_indptr cs g (OpSlot c) Hn Hs) as [-> ->]. cbn [ok_or mbind outcome_bind slot_ops].
  pose proof (length_padded_pos c). rewrite (proj2 (Nat.eqb_neq _ _)), (proj2 (Nat.leb_le _ _)) by lia.
  cbn [negb guard_err mbind outcome_bind]. rewrite usub_Ok by lia. cbn [mbind outcome_bind].
  destruct (slot_slice cs g _ Hs) as [_ Hsl]. cbn [slot_ops ops batch_of] in *.
  assert (Hl : all_ops cs !! (slot_start cs g + length (padded c) - 1) = Some Noop).
  { rewrite <-Nat.add_sub_assoc, <-lookup_drop by lia. rewrite <-(lookup_take_lt _ (length (padded c))), Hsl by lia.
    unfold padded. rewrite Hp, length_app. cbn [length]. rewrite Nat.add_sub. by apply list_lookup_middle. }
  by rewrite Hl.
Qed.

(** ** Immediates *)

Lemma imms_padded c : imms (padded c) = imms c.
Proof. unfold padded, imms. rewrite omap_app. destruct (needs_pad c); cbn; apply app_nil_r. Qed.

Lemma pack_padded c : pack_group (padded c) = pack_group c.
Proof.
  unfold padded. destruct (needs_pad c); [|by rewrite app_nil_r]. by rewrite pack_group_snoc, pack_noop.
Qed.

(** The places of the immediates of group [g]. *)
Definition placements (g : nat) (vs : list felt) : list (nat * felt) := zip (seq (g + 1) (length vs)) vs.

Lemma placements_snoc g vs v : placements g (vs ++ [v]) = placements g vs ++ [(g + 1 + length vs, v)].
Proof. unfold placements. rewrite length_app, seq_app, zip_with_app by (by rewrite length_seq). done. Qed.

Lemma collect_eq cs g c ng : length (slots cs) <= BATCH_SIZE -> slots cs !! g = Some (OpSlot c) ->
  ng = None \/ ng = Some (length (slots cs)) ->
  collect_immediate_placements (ops (batch_of cs)) (indptr (batch_of cs)) g BATCH_SIZE ng =
  Ok (placements g (imms c), g + 1 + length (imms c)).
Proof.
  intros Hn Hs Hng. unfold collect_immediate_placements. rewrite (read_start _ _ _ Hn Hs), (read_end _ _ _ Hn Hs).
  cbn [mbind outcome_bind]. rewrite (read_slice cs g (OpSlot c)) by done. cbn [mbind outcome_bind slot_ops]. rewrite firstn_all.
  enough (Hloop : forall p q, padded c = p ++ q -> for_each p (place_step (indptr (batch_of cs)) BATCH_SIZE ng) ([], g + 1) =
    Ok (placements g (imms p), g + 1 + length (imms p)))
    by (rewrite (Hloop (padded c) []) by (by rewrite app_nil_r); by rewrite imms_padded).
  induction p as [|op p IH] using rev_ind; intros q Hpq; [by rewrite Nat.add_0_r|].
  rewrite for_each_app, (IH (op :: q)) by (by rewrite Hpq, <-app_assoc). cbn [mbind outcome_bind for_each].
  unfold place_step. rewrite imms_snoc. destruct (imm_value op) as [v|] eqn:Hv; cbn [mbind outcome_bind]; [|by rewrite app_nil_r].
  assert (Hi : imms c !! length (imms p) = Some v).
  { rewrite <-(imms_padded c), Hpq. unfold imms. rewrite !omap_app. cbn. rewrite Hv, <-app_assoc. by apply list_lookup_middle. }
  pose proof (imm_slot_lookup cs g c _ _ Hs Hi) as Hslot. pose proof (lookup_lt_Some _ _ _ Hslot) as Hlt.
  rewrite (proj2 (Nat.ltb_lt _ _)) by lia. cbn [guard_err mbind outcome_bind].
  replace (match ng with Some _ => _ | None => _ end) with (Ok () : bresult unit)
    by (destruct Hng as [->| ->]; [done|by rewrite (proj2 (Nat.ltb_lt _ _) Hlt)]). cbn [mbind outcome_bind].
  rewrite (read_start _ _ _ Hn Hslot), (read_end _ _ _ Hn Hslot). cbn [mbind outcome_bind slot_ops length].
  rewrite Nat.add_0_r, Nat.eqb_refl. cbn [guard_err mbind outcome_bind].
  rewrite placements_snoc, length_app. cbn [length]. do 2 f_equal. lia.
Qed.

(** Marking the slots of the immediates of a group. *)
Lemma mark_loop cs g c marks : length (slots cs) <= BATCH_SIZE -> slots cs !! g = Some (OpSlot c) -> length marks = BATCH_SIZE ->
  exists marks', for_each (placements g (imms c)) (fun slots '(i, v) =>
      x ← arr_read (groups (batch_of cs)) i;
      guard_err (bool_decide (x = v)) (ImmediateMismatch i);; arr_write slots i true) marks = Ok marks' /\
    length marks' = BATCH_SIZE /\
    forall j, marks !! j = Some true \/ g < j <= g + length (imms c) -> marks' !! j = Some true.
Proof.
  intros Hn Hs Hm.
  destruct (for_each_inv (fun k m => length m = BATCH_SIZE /\ forall j, marks !! j = Some true \/ g < j <= g + k -> m !! j = Some true)
    (placements g (imms c)) (fun slots '(i, v) => x ← arr_read (groups (batch_of cs)) i;
      guard_err (bool_decide (x = v)) (ImmediateMismatch i);; arr_write slots i true) marks) as (m' & He & Hl & Hj).
  - split; [done|]. intros j [H|H]; [done|lia].
  - intros k [i v] m Hk [Hlm Hmj]. unfold placements in Hk. apply lookup_zip_with_Some in Hk as (x & y & [= <- <-] & Hx & Hy).
    apply lookup_seq in Hx as [-> Hlt]. pose proof (imm_slot_lookup cs g c _ _ Hs Hy) as Hslot.
    rewrite (read_group _ _ _ Hn Hslot). cbn [mbind outcome_bind slot_value]. rewrite bool_decide_true by done.
    cbn [guard_err mbind outcome_bind]. pose proof (lookup_lt_Some _ _ _ Hslot).
    rewrite arr_write_Ok by lia. eexists. split; [done|]. rewrite length_insert. split; [done|]. intros j Hor.
    rewrite list_lookup_insert_dec by lia. case_decide; [done|]. apply Hmj. destruct Hor; [by left|right; lia].
  - exists m'. split_and!; [done..|]. intros j H. apply Hj. unfold placements.
    rewrite length_zip_with, length_seq. destruct H; [by left|right; lia].
Qed.

Lemma check_group_ok cs g marks : length (slots cs) <= BATCH_SIZE -> g < length (slots cs) -> length marks = BATCH_SIZE ->
  exists marks', check_group_commitment (batch_of cs) marks g = Ok marks' /\ length marks' = BATCH_SIZE /\
    forall j, marks !! j = Some true \/ (exists c, slots cs !! g = Some (OpSlot c) /\ g < j <= g + length (imms c)) ->
      marks' !! j = Some true.
Proof.
  intros Hn Hg Hm. destruct (slot_at cs g Hg) as [s Hs]. unfold check_group_commitment.
  rewrite (read_start _ _ _ Hn Hs), (read_end _ _ _ Hn Hs). cbn [mbind outcome_bind]. destruct s as [c|v]; cbn [slot_ops length].
  2: { rewrite Nat.add_0_r, Nat.eqb_refl. exists marks. split_and!; [done..|]. intros j [H|(c & H & _)]; [done|congruence]. }
  pose proof (length_padded_pos c). rewrite (proj2 (Nat.eqb_neq _ _)) by lia.
  rewrite (read_slice cs g (OpSlot c)), (read_group _ _ _ Hn Hs) by done. cbn [mbind outcome_bind slot_ops slot_value].
  rewrite firstn_all, pack_padded, bool_decide_true by done. cbn [guard_err mbind outcome_bind].
  change (num_groups (batch_of cs)) with (length (slots cs)). rewrite (collect_eq cs g c) by auto. cbn [mbind outcome_bind].
  destruct (mark_loop cs g c marks Hn Hs Hm) as (m' & He & Hl & Hj). exists m'. split_and!; [exact He|done|].
  intros j [H'|(c' & H' & ?)]; apply Hj; [by left|]. rewrite Hs in H'. injection H' as <-. by right.
Qed.

Lemma validate_commitment_ok cs : batch_ok cs -> validate_commitment (batch_of cs) = Ok ().
Proof.
  intros (_ & Hn & _). unfold validate_commitment. change (num_groups (batch_of cs)) with (length (slots cs)).
  destruct (for_each_inv (fun k m => length m = BATCH_SIZE /\ forall g c j, g < k -> slots cs !! g = Some (OpSlot c) ->
      g < j <= g + length (imms c) -> m !! j = Some true) (seq 0 (length (slots cs)))
      (check_group_commitment (batch_of cs)) (replicate BATCH_SIZE false)) as (m & -> & Hl & Hm).
  - split; [done|]. lia.
  - intros i x m Hi [Hlm Hmj]. apply lookup_seq in Hi as [-> Hi].
    destruct (check_group_ok cs i m Hn Hi Hlm) as (m' & He & Hl' & Hj). exists m'. split_and!; [done..|].
    intros g c j Hg Hs Hr. apply Hj. destruct (decide (g = i)) as [->|]; [right; eauto|left]. apply (Hmj g c); [lia|done..].
  - cbn [mbind outcome_bind]. rewrite length_seq in Hm. apply for_each_check. intros g Hg. apply seq_elem in Hg.
    destruct (slot_at cs g Hg) as [s Hs]. rewrite (read_start _ _ _ Hn Hs), (read_end _ _ _ Hn Hs), (read_group _ _ _ Hn Hs).
    cbn [mbind outcome_bind]. destruct (lookup_lt_is_Some_2 m g) as [b Hb]; [lia|]. rewrite (arr_read_Ok _ _ b) by done.
    cbn [mbind outcome_bind]. destruct s as [c|v]; cbn [slot_ops length].
    + pose proof (length_padded_pos c). by rewrite (proj2 (Nat.eqb_neq _ _)) by lia.
    + destruct (imm_slot_owner _ _ _ Hs) as (g' & c & Hg' & Hr). rewrite (Hm g' c g) in Hb by (done || lia).
      injection Hb as <-. by rewrite andb_false_r.
Qed.

(** Every validator accepts the batches of a block. *)
Lemma validate_batch_invariants_ok css : block_ok css -> validate_batch_invariants (batch_of <$> css) = Ok ().
Proof.
  intros Hok. pose proof (proj1 Hok) as Hall. unfold validate_batch_invariants. rewrite validate_power_ok by done.
  unfold validate_batch_structure, validate_no_immediate_endings, validate_immediate_commitment, validate_padding_semantics.
  rewrite !for_each_batch_ok; [done|..]; intros i cs Hi; pose proof (Forall_lookup_1 _ _ _ _ Hall Hi) as Hcs;
    [by apply validate_structure_ok| |by apply validate_commitment_ok|by apply validate_padding_ok].
  apply for_each_check. intros g Hg. apply seq_elem in Hg. by apply validate_endings_ok; [apply Hcs|].
Qed.

(** ** Indices with and without padding *)

Fixpoint r2p (k : nat) (gs : list opgroup) : list nat :=
  match gs with
  | [] => [k]
  | c :: gs => replicate (length c) k ++ r2p (k + Nat.b2n (needs_pad c)) gs
  end.
Fixpoint p2r (k : nat) (gs : list opgroup) : list nat :=
  match gs with
  | [] => [k]
  | c :: gs => replicate (length (padded c)) k ++ p2r (k + Nat.b2n (needs_pad c)) gs
  end.

(** Both tables, at a position and its image; the position after the last operation included. *)
Lemma tables_agree k gs r : r <= length (concat gs) ->
  exists d, r2p k gs !! r = Some (k + d) /\ p2r k gs !! (r + d) = Some (k + d) /\ all_ops gs !! (r + d) = concat gs !! r.
Proof.
  revert k r. induction gs as [|c gs IH]; intros k r Hr.
  - cbn in Hr. exists 0. rewrite !Nat.add_0_r. replace r with 0 by lia. done.
  - cbn [r2p p2r concat]. change (all_ops (c :: gs)) with (padded c ++ all_ops gs). cbn in Hr. rewrite length_app in Hr.
    pose proof (length_padded c) as Hp. destruct (decide (r < length c)) as [Hlt|Hge].
    + exists 0. rewrite !Nat.add_0_r. split_and!; [rewrite lookup_app_l|rewrite lookup_app_l|rewrite !lookup_app_l];
        try (by apply lookup_replicate_2; lia); try (rewrite ?length_replicate; lia).
      unfold padded. by rewrite lookup_app_l.
    + destruct (IH (k + Nat.b2n (needs_pad c)) (r - length c)) as (d & H1 & H2 & H3); [lia|].
      exists (Nat.b2n (needs_pad c) + d). rewrite !lookup_app_r by (rewrite ?length_replicate; lia).
      rewrite !length_replicate, Hp. replace (r + _ - _) with (r - length c + d) by lia.
      split_and!; [rewrite H1|rewrite H2|done]; f_equal; lia.
Qed.

Lemma group_lengths_eq cs g s : length (slots cs) <= BATCH_SIZE -> slots cs !! g = Some s ->
  group_lengths (batch_of cs) g = Ok (length (slot_raw s), Nat.b2n (slot_pad s)).
Proof.
  intros Hn Hs. unfold group_lengths. rewrite (read_start _ _ _ Hn Hs), (read_end _ _ _ Hn Hs), (read_padding _ _ _ Hn Hs).
  destruct (slot_raw_ops s) as [Hr Hp]. cbn [mbind outcome_bind]. rewrite usub_Ok by lia. cbn [mbind outcome_bind].
  rewrite Nat.add_comm, Nat.add_sub, usub_Ok by done. cbn [mbind outcome_bind]. do 2 f_equal.
  rewrite Hr, length_take. lia.
Qed.

(** A pass over the slots of a block that ignores immediates is a pass over its groups. *)
Definition pass (f : list nat * nat -> slot -> list nat * nat) (css : list (list opgroup)) (s : list nat * nat) : list nat * nat :=
  foldl (fun s c => f s (OpSlot c)) s (concat css).

Lemma foldl_slots (f : list nat * nat -> slot -> list nat * nat) cs s : (forall s v, f s (ImmSlot v) = s) ->
  foldl f s (slots cs) = foldl (fun s c => f s (OpSlot c)) s cs.
Proof.
  intros Hf. revert s. induction cs as [|c cs IH]; intros s; [done|]. change (c :: cs) with ([c] ++ cs).
  rewrite slots_app, slots_one, !foldl_app, <-IH. f_equal. unfold group_slots. cbn.
  generalize (f s (OpSlot c)). by induction (imms c) as [|v vs IHv]; intros s'; [|cbn; rewrite Hf; apply IHv].
Qed.

Lemma block_pass css (f : list nat * nat -> slot -> list nat * nat) (body : OpBatch -> list nat * nat -> nat -> bresult (list nat * nat)) s :
  Forall batch_ok css -> (forall s v, f s (ImmSlot v) = s) ->
  (forall cs g x s, length (slots cs) <= BATCH_SIZE -> slots cs !! g = Some x -> body (batch_of cs) s g = Ok (f s x)) ->
  for_each (batch_of <$> css) (fun s b => for_each (seq 0 (num_groups b)) (body b) s) s = Ok (pass f css s).
Proof.
  intros Hok Hf Hb. unfold pass. revert s. induction Hok as [|cs css (_ & Hn & _) _ IH]; intros s; [done|].
  cbn [fmap list_fmap for_each concat]. change (num_groups (batch_of cs)) with (length (slots cs)).
  rewrite (for_each_indices (slots cs) _ f) by (intros g x t Hx; by apply Hb). cbn [mbind outcome_bind].
  etransitivity; [apply IH|]. by rewrite foldl_app, foldl_slots.
Qed.

Definition r2p_slot (s : list nat * nat) (x : slot) : list nat * nat :=
  (s.1 ++ replicate (length (slot_raw x)) s.2, s.2 + Nat.b2n (slot_pad x)).
Definition p2r_slot (s : list nat * nat) (x : slot) : list nat * nat :=
  (s.1 ++ replicate (length (slot_ops x)) s.2, s.2 + Nat.b2n (slot_pad x)).

Lemma raw_to_padded_eq css : Forall batch_ok css -> RawToPaddedPrefix (batch_of <$> css) = Ok (r2p 0 (concat css)).
Proof.
  intros Hok. unfold RawToPaddedPrefix. rewrite (block_pass css r2p_slot (fun b '(v, k) g =>
    '(raw_in_g, has_pad) ← group_lengths b g; Ok (v ++ replicate raw_in_g k, k + has_pad)) ([], 0) Hok).
  - cbn [mbind outcome_bind]. destruct (pass r2p_slot css ([], 0)) as [v k] eqn:E. f_equal.
    enough (H : forall gs v0 k0, let '(v, k) := foldl (fun s c => r2p_slot s (OpSlot c)) (v0, k0) gs in v ++ [k] = v0 ++ r2p k0 gs)
      by (specialize (H (concat css) [] 0); unfold pass in E; by rewrite E in H).
    induction gs as [|c gs IH]; intros v0 k0; [done|]. cbn [foldl r2p]. specialize (IH (v0 ++ replicate (length c) k0) (k0 + Nat.b2n (needs_pad c))).
    by rewrite <-app_assoc in IH.
  - intros [v k] x. unfold r2p_slot. cbn. by rewrite app_nil_r, Nat.add_0_r.
  - intros cs g x [v k] Hn Hx. by rewrite (group_lengths_eq _ _ _ Hn Hx).
Qed.

Lemma padded_to_raw_eq css : Forall batch_ok css -> PaddedToRawPrefix (batch_of <$> css) = Ok (p2r 0 (concat css)).
Proof.
  intros Hok. unfold PaddedToRawPrefix. rewrite (block_pass css p2r_slot (fun b '(v, k) g =>
    '(raw_in_g, has_pad) ← group_lengths b g;
    let v := v ++ replicate raw_in_g k in if has_pad =? 1 then Ok (v ++ [k], k + 1) else Ok (v, k)) ([], 0) Hok).
  - cbn [mbind outcome_bind]. destruct (pass p2r_slot css ([], 0)) as [v k] eqn:E. f_equal.
    enough (H : forall gs v0 k0, let '(v, k) := foldl (fun s c => p2r_slot s (OpSlot c)) (v0, k0) gs in v ++ [k] = v0 ++ p2r k0 gs)
      by (specialize (H (concat css) [] 0); unfold pass in E; by rewrite E in H).
    induction gs as [|c gs IH]; intros v0 k0; [done|]. cbn [foldl p2r].
    specialize (IH (v0 ++ replicate (length (padded c)) k0) (k0 + Nat.b2n (needs_pad c))). by rewrite <-app_assoc in IH.
  - intros [v k] x. unfold p2r_slot. cbn. by rewrite app_nil_r, Nat.add_0_r.
  - intros cs g x [v k] Hn Hx. rewrite (group_lengths_eq _ _ _ Hn Hx). cbn [mbind outcome_bind].
    destruct (slot_raw_ops x) as [Hr Hp]. unfold p2r_slot. cbn [fst snd].
    assert (Hl : length (slot_raw x) = length (slot_ops x) - Nat.b2n (slot_pad x)) by (rewrite Hr, length_take; lia).
    destruct (slot_pad x); cbn [Nat.b2n Nat.eqb] in *.
    + replace (length (slot_ops x)) with (length (slot_raw x) + 1) by lia. by rewrite replicate_add, app_assoc.
    + by rewrite Hl, Nat.sub_0_r, Nat.add_0_r.
Qed.

Lemma operations_eq css : operations (batch_of <$> css) = all_ops (concat css).
Proof.
  unfold operations. induction css as [|cs css IH]; [done|]. cbn [fmap list_fmap concat].
  by rewrite all_ops_app, <-IH.
Qed.

Lemma for_each_collect {E X Y} (l : list X) (body : list Y -> X -> outcome E (list Y)) l' acc :
  Forall2 (fun x y => forall r, body r x = Ok (r ++ [y])) l l' -> for_each l body acc = Ok (acc ++ l').
Proof.
  intros H. revert acc. induction H as [|x y l l' Hx _ IH]; intros acc; cbn; [by rewrite app_nil_r|].
  rewrite Hx. cbn. by rewrite IH, <-app_assoc.
Qed.

(** Indices carried over to the padded operations point to the same operations, and come back. *)
Lemma adjust_unadjust {T} css (asm_ops : list (nat * T)) : Forall batch_ok css ->
  Forall (fun x => x.1 <= length (concat (concat css))) asm_ops ->
  exists adjusted, adjust_asm_op_indices asm_ops (batch_of <$> css) = Ok adjusted /\
    unadjust_asm_op_indices adjusted (batch_of <$> css) = Ok asm_ops /\
    Forall2 (fun x y => x.2 = y.2 /\ operations (batch_of <$> css) !! y.1 = concat (concat css) !! x.1) asm_ops adjusted.
Proof.
  intros Hok Hb. unfold adjust_asm_op_indices, unadjust_asm_op_indices. rewrite raw_to_padded_eq, padded_to_raw_eq by done.
  cbn [mbind outcome_bind]. rewrite operations_eq.
  assert (exists adj, Forall2 (fun x y => x.2 = y.2 /\ r2p 0 (concat css) !! x.1 = Some (y.1 - x.1) /\ x.1 <= y.1 /\
    p2r 0 (concat css) !! y.1 = Some (y.1 - x.1) /\ all_ops (concat css) !! y.1 = concat (concat css) !! x.1) asm_ops adj) as [adj Hadj].
  { induction Hb as [|[r id] l Hr _ [adj IH]]; [by exists []|]. destruct (tables_agree 0 (concat css) r Hr) as (d & H1 & H2 & H3).
    exists ((r + d, id) :: adj). constructor; [|done]. cbn. replace (r + d - r) with d by lia. split_and!; auto; lia. }
  exists adj. split_and!.
  - apply (for_each_collect asm_ops _ adj []). eapply Forall2_impl; [done|].
    intros [r id] [p id'] (He & H1 & Hle & _ & _) acc. cbn in *. subst.
    rewrite (arr_read_Ok _ _ _ H1). cbn. do 4 f_equal. lia.
  - apply (for_each_collect adj _ asm_ops []). apply Forall2_flip. eapply Forall2_impl; [done|].
    intros [r id] [p id'] (He & _ & Hle & H2 & _) acc. cbn in *. subst.
    rewrite (arr_read_Ok _ _ _ H2). cbn [mbind outcome_bind]. rewrite usub_Ok by lia. cbn. do 4 f_equal. lia.
  - eapply Forall2_impl; [done|]. by intros x y (? & _ & _ & _ & ?).
Qed.

(** ** Finding the group of an operation *)

Lemma slot_start_next cs g s : slots cs !! g = Some s -> slot_start cs (g + 1) = slot_start cs g + length (slot_ops s).
Proof.
  intros Hs. unfold slot_start. rewrite Nat.add_1_r, (take_S_r _ _ s Hs), fmap_app, concat_app, length_app. cbn.
  by rewrite app_nil_r.
Qed.

Lemma slot_start_mono cs g h : g <= h -> slot_start cs g <= slot_start cs h.
Proof.
  intros Hgh. unfold slot_start. replace h with (g + (h - g)) by lia.
  rewrite <-take_take_drop, fmap_app, concat_app, length_app. lia.
Qed.

(** Operation [idx] is operation [i] of slot [g]. *)
Definition located (cs : list opgroup) (idx g i : nat) : Prop :=
  exists s, slots cs !! g = Some s /\ idx = slot_start cs g + i /\ i < length (slot_ops s).

Lemma located_exists cs idx : idx < length (all_ops cs) -> exists g i, located cs idx g i.
Proof.
  rewrite all_ops_slots. unfold located, slot_start. induction (slots cs) as [|s ss IH] using rev_ind; cbn; [lia|].
  rewrite fmap_app, concat_app, length_app. cbn. rewrite app_nil_r. intros Hlt.
  destruct (decide (idx < length (concat (slot_ops <$> ss)))) as [Hl|Hge].
  - destruct (IH Hl) as (g & i & t & Ht & Hi & Hb). exists g, i, t. pose proof (lookup_lt_Some _ _ _ Ht).
    rewrite lookup_app_l, take_app_le by lia. done.
  - exists (length ss), (idx - length (concat (slot_ops <$> ss))), s.
    rewrite take_app_length, list_lookup_middle by done. split_and!; [done|lia..].
Qed.

Lemma located_mono cs idx idx' g g' i i' : located cs idx g i -> located cs idx' g' i' -> idx <= idx' -> g <= g'.
Proof.
  intros (s & Hs & -> & Hi) (s' & Hs' & -> & Hi') Hle. destruct (decide (g <= g')) as [|Hgt]; [done|].
  pose proof (slot_start_mono cs (g' + 1) g ltac:(lia)). rewrite (slot_start_next _ _ _ Hs') in *. lia.
Qed.

Lemma partition_point_eq p l g : (forall j x, j < g -> l !! j = Some x -> p x = true) ->
  (exists x, l !! g = Some x /\ p x = false) -> partition_point p l = g.
Proof.
  revert g. induction l as [|x l IH]; intros g Hlt (y & Hy & Hp); [done|]. cbn. destruct g as [|g].
  - injection Hy as <-. by rewrite Hp.
  - rewrite (Hlt 0 x) by (done || lia). f_equal. apply IH; [|by exists y]. intros j z Hj Hz. apply (Hlt (S j) z); [lia|done].
Qed.

Lemma to_group_eq cs idx g i : length (slots cs) <= BATCH_SIZE -> located cs idx g i ->
  op_idx_in_batch_to_group (batch_of cs) idx = Ok (Some (g, i)).
Proof.
  intros Hn (s & Hs & -> & Hi). destruct (slot_slice cs g s Hs) as [Hb _]. unfold op_idx_in_batch_to_group.
  cbn [ops batch_of]. rewrite (proj2 (Nat.leb_gt _ _)) by lia. pose proof (lookup_lt_Some _ _ _ Hs) as Hg.
  rewrite arr_slice_Ok by (rewrite length_indptr by done; cbn [num_groups batch_of]; lia). cbn [mbind outcome_bind].
  rewrite (partition_point_eq _ _ g).
  - rewrite (read_start _ _ _ Hn Hs). cbn [mbind outcome_bind]. rewrite usub_Ok by lia. cbn. do 3 f_equal. lia.
  - intros j x Hj Hx. apply Nat.leb_le. apply lookup_take_Some in Hx as [Hx _]. rewrite lookup_drop in Hx.
    destruct (slot_at cs j) as [t Ht]; [lia|]. rewrite Nat.add_comm, (proj2 (slot_indptr cs j t Hn Ht)) in Hx.
    injection Hx as <-. rewrite <-(slot_start_next _ _ _ Ht). pose proof (slot_start_mono cs (j + 1) g ltac:(lia)). lia.
  - exists (slot_start cs g + length (slot_ops s)). split; [|apply Nat.leb_gt; lia].
    rewrite lookup_take_lt by (cbn [num_groups batch_of]; lia). rewrite lookup_drop, Nat.add_comm.
    by apply (slot_indptr cs g s).
Qed.

Lemma skip_groups_eq cs idx g i n g0 : length (slots cs) <= BATCH_SIZE -> located cs idx g i -> g0 <= g -> g - g0 < n ->
  skip_groups (batch_of cs) idx n g0 = Ok g.
Proof.
  intros Hn Hloc. pose proof Hloc as (s & Hs & -> & Hi). pose proof (lookup_lt_Some _ _ _ Hs) as Hg.
  revert g0. induction n as [|n IH]; intros g0 Hle Hlt; [lia|]. cbn [skip_groups].
  change (num_groups (batch_of cs)) with (length (slots cs)). destruct (slot_at cs g0) as [t Ht]; [lia|].
  destruct (Nat.ltb_spec (g0 + 1) (length (slots cs))).
  - rewrite (read_end _ _ _ Hn Ht), <-(slot_start_next _ _ _ Ht). cbn [mbind outcome_bind].
    destruct (decide (g0 = g)) as [->|Hne].
    + rewrite (slot_start_next _ _ _ Hs). by rewrite (proj2 (Nat.leb_gt _ _)) by lia.
    + pose proof (slot_start_mono cs (g0 + 1) g ltac:(lia)). rewrite (proj2 (Nat.leb_le _ _)) by lia. apply IH; lia.
  - f_equal. lia.
Qed.

Lemma iter_from_S b n c g : iter_from b (S n) c g =
  (r ← batch_iter_next b c g;
   match r with None => Ok [] | Some (x, (c, g)) => l ← iter_from b n c g; Ok (x :: l) end).
Proof. done. Qed.

Lemma batch_iter_next_eq cs idx g0 : length (slots cs) <= BATCH_SIZE -> (forall g i, located cs idx g i -> g0 <= g) ->
  match all_ops cs !! idx with
  | None => batch_iter_next (batch_of cs) idx g0 = Ok None
  | Some op => exists g i, located cs idx g i /\ batch_iter_next (batch_of cs) idx g0 = Ok (Some ((g, i, op), (idx + 1, g)))
  end.
Proof.
  intros Hn Hg0. unfold batch_iter_next. cbn [ops batch_of]. destruct (all_ops cs !! idx) as [op|] eqn:Hop.
  - pose proof (lookup_lt_Some _ _ _ Hop). destruct (located_exists cs idx) as (g & i & Hloc); [lia|]. exists g, i. split; [done|].
    rewrite (proj2 (Nat.leb_gt _ _)) by lia. rewrite (arr_read_Ok _ _ _ Hop). cbn [mbind outcome_bind].
    pose proof Hloc as (s & Hs & Hidx & Hi). pose proof (lookup_lt_Some _ _ _ Hs).
    rewrite (skip_groups_eq cs idx g i) by (done || (cbn [num_groups batch_of]; specialize (Hg0 g i Hloc); lia)). cbn [mbind outcome_bind].
    rewrite (read_start _ _ _ Hn Hs). cbn [mbind outcome_bind]. rewrite usub_Ok by lia. cbn [mbind outcome_bind].
    by replace (idx - slot_start cs g) with i by lia.
  - apply lookup_ge_None in Hop. by rewrite (proj2 (Nat.leb_le _ _)).
Qed.

Lemma iter_from_eq cs n idx g0 : length (slots cs) <= BATCH_SIZE -> n = length (all_ops cs) - idx ->
  (forall g i, located cs idx g i -> g0 <= g) ->
  exists l, iter_from (batch_of cs) (S n) idx g0 = Ok l /\ length l = n /\
    forall k x, l !! k = Some x -> all_ops cs !! (idx + k) = Some x.2 /\ located cs (idx + k) x.1.1 x.1.2.
Proof.
  intros Hn. revert idx g0. induction n as [|n IH]; intros idx g0 Hlen Hg0; rewrite iter_from_S;
    pose proof (batch_iter_next_eq cs idx g0 Hn Hg0) as Hnext.
  - rewrite (proj2 (lookup_ge_None _ _)) in Hnext by lia. rewrite Hnext. by exists [].
  - destruct (lookup_lt_is_Some_2 (all_ops cs) idx) as [op Hop]; [lia|]. rewrite Hop in Hnext.
    destruct Hnext as (g & i & Hloc & ->). cbn [mbind outcome_bind].
    destruct (IH (idx + 1) g) as (l & Hl & Hlen' & Hall); [lia| |].
    { intros g' i' Hloc'. apply (located_mono _ _ _ _ _ _ _ Hloc Hloc'). lia. }
    rewrite Hl. cbn [mbind outcome_bind]. eexists. split; [done|]. split; [cbn; lia|]. intros [|k] x Hx.
    + injection Hx as <-. by rewrite Nat.add_0_r.
    + replace (idx + S k) with (idx + 1 + k) by lia. by apply Hall.
Qed.

(** The iterator visits every operation with the group and position the search finds. *)
Lemma iter_with_groups_eq cs : length (slots cs) <= BATCH_SIZE ->
  exists l, iter_with_groups (batch_of cs) = Ok l /\ snd <$> l = ops (batch_of cs) /\
    forall k x, l !! k = Some x -> op_idx_in_batch_to_group (batch_of cs) k = Ok (Some x.1).
Proof.
  intros Hn. destruct (iter_from_eq cs (length (all_ops cs)) 0 0 Hn) as (l & Hl & Hlen & Hall); [lia..|].
  exists l. split_and!; [exact Hl| |].
  - apply list_eq. intros k. cbn [ops batch_of]. rewrite list_lookup_fmap. destruct (l !! k) as [x|] eqn:E.
    + destruct (Hall k x E) as [H _]. cbn [Nat.add] in H. by rewrite H.
    + symmetry. apply lookup_ge_None. apply lookup_ge_None in E. lia.
  - intros k x Hx. destruct (Hall k x Hx) as [_ Hloc]. cbn [Nat.add] in Hloc. rewrite (to_group_eq _ _ _ _ Hn Hloc).
    by destruct x as [[g i] op].
Qed.
End Valid.
