(* ===== verification/BlockSerde.v ===== *)
(** * Serialized basic blocks

    [core/src/mast/serialization/basic_blocks.rs]: a basic block is written as its padded operations, the number of
    batches, the group boundaries of each batch as eight four-bit differences, and
    one byte of padding flags for each batch; reading it back rebuilds the group values.

    Bytes are integers in [0..256).  The readers and writers of integers belong to [miden-crypto] and are
    parameters; a [BudgetedReader] over the rest of a slice whose budget is its length is the list of the remaining
    bytes. *)

From S2P Require Import Prelude Field Types Operations Batching.
Import Op.

(** [ByteWriter::write_usize], [write_u32] and their readers. *)
Class IntSerde := {
  write_usize : nat -> list Z;
  read_usize : list Z -> option (nat * list Z);
  write_u32 : Z -> list Z;
  read_u32 : list Z -> option (Z * list Z);
  read_write_usize n rest : (Z.of_nat n < 2 ^ 64)%Z -> read_usize (write_usize n ++ rest) = Some (n, rest);
  read_write_u32 z rest : (0 <= z < 2 ^ 32)%Z -> read_u32 (write_u32 z ++ rest) = Some (z, rest);
}.

Inductive DeserializationError :=
  | UnexpectedEOF
  | OffsetExceedsData (offset : nat)
  | BatchCountExceedsCapacity (num_batches max_batches : nat)
  | DeltaExceedsMaximum (delta i : nat)
  | BatchExceedsOperations (batch_ops_end : nat)
  | InvalidBatch (e : BatchError).

Section BlockSerde.
Context {F : Felt} {FS : FeltSerde} {IS : IntSerde}.
Abbreviation dresult := (outcome DeserializationError).

(** ** Writing *)

(** [Vec<Operation>::write_into] *)
Definition write_operations (l : list Operation) : list Z := write_usize (length l) ++ concat (write_into <$> l).

(** [pack_indptr_deltas] *)
Definition pack_step (indptr : list nat) (packed : list Z) (i : nat) : dresult (list Z) :=
  e ← arr_read indptr (i + 1);
  s ← arr_read indptr i;
  delta ← usub e s;
  let byte_idx := i / 2 in
  let nibble_shift := Z.of_nat (i mod 2 * 4) in
  b ← arr_read packed byte_idx;
  arr_write packed byte_idx (Z.lor b (Z.shiftl (Z.of_nat delta mod 256) nibble_shift mod 256))%Z.
Definition pack_indptr_deltas (indptr : list nat) : dresult (list Z) :=
  for_each (seq 0 8) (pack_step indptr) (replicate 4 0%Z).

(** The padding byte: [packed |= 1 << i] for each flag *)
Definition pack_padding (padding : list bool) : Z :=
  foldl (fun packed '(i, is_padded) => if is_padded : bool then Z.lor packed (Z.shiftl 1 (Z.of_nat i)) else packed) 0%Z
    (zip (seq 0 8) padding).

(** [BasicBlockDataBuilder::encode_basic_block]: the offset of the block, cast to a [u32], and the data with the bytes of the block *)
Definition encode_basic_block (node_data : list Z) (op_batches : list OpBatch) : dresult (Z * list Z) :=
  let ops_offset := (Z.of_nat (length node_data) mod 2 ^ 32)%Z in
  indptrs ← for_each op_batches (fun out b => packed ← pack_indptr_deltas (indptr b); Ok (out ++ packed)) [];
  Ok (ops_offset, node_data ++ write_operations (operations op_batches) ++ write_u32 (Z.of_nat (length op_batches) mod 2 ^ 32) ++ indptrs ++
      (pack_padding ∘ padding <$> op_batches)).

(** ** Reading *)

Definition from_reader {A} (o : option A) : dresult A := ok_or o UnexpectedEOF.

Fixpoint read_many (n : nat) (src : list Z) : dresult (list Operation * list Z) :=
  match n with
  | O => Ok ([], src)
  | S n =>
    '(op, src) ← from_reader (read_from src);
    '(l, src) ← read_many n src;
    Ok (op :: l, src)
  end.

(** [Vec<Operation>::read_from]: the length is checked against the bytes left before anything is allocated. *)
Definition read_operations (src : list Z) : dresult (list Operation * list Z) :=
  '(n, src) ← from_reader (read_usize src);
  guard_err (n <=? length src) UnexpectedEOF;;
  read_many n src.

Definition read_bytes (n : nat) (src : list Z) : dresult (list Z * list Z) :=
  if n <=? length src then Ok (take n src, drop n src) else Err UnexpectedEOF.

(** [unpack_indptr_deltas] *)
Definition unpack_step (packed : list Z) (indptr : list nat) (i : nat) : dresult (list nat) :=
  let byte_idx := i / 2 in
  let nibble_shift := Z.of_nat (i mod 2 * 4) in
  b ← arr_read packed byte_idx;
  let delta := Z.to_nat (Z.land (Z.shiftr b nibble_shift) 15) in
  guard_err (delta <=? GROUP_SIZE) (DeltaExceedsMaximum delta i);;
  s ← arr_read indptr i;
  arr_write indptr (i + 1) (s + delta).
Definition unpack_indptr_deltas (packed : list Z) : dresult (list nat) :=
  for_each (seq 0 8) (unpack_step packed) (replicate 9 0).

Definition unpack_padding (packed : Z) : list bool :=
  (fun i => negb (Z.land packed (Z.shiftl 1 (Z.of_nat i)) =? 0)%Z) <$> seq 0 8.

(** The two loops over the batches that read the metadata *)
Fixpoint read_indptrs (n : nat) (src : list Z) : dresult (list (list nat) * list Z) :=
  match n with
  | O => Ok ([], src)
  | S n =>
    '(packed, src) ← read_bytes 4 src;
    indptr ← unpack_indptr_deltas packed;
    '(l, src) ← read_indptrs n src;
    Ok (indptr :: l, src)
  end.
Definition read_paddings (n : nat) (src : list Z) : dresult (list (list bool) * list Z) :=
  '(bytes, src) ← read_bytes n src;
  Ok (map unpack_padding bytes, src).

(** [(1..=8).rev().find(|&i| indptr[i] > indptr[i - 1]).unwrap_or(1)] *)
Fixpoint highest_op_group (indptr : list nat) (i : nat) : dresult nat :=
  match i with
  | O => Ok 1
  | S j =>
    e ← arr_read indptr i;
    s ← arr_read indptr j;
    if s <? e then Ok i else highest_op_group indptr j
  end.

(** One iteration of the loop that rebuilds the groups of a batch; the state is [groups] and [next_group_idx] *)
Definition rebuild_group (batch_ops : list Operation) (indptr : list nat) (s : list felt * nat) (array_idx : nat) :
    dresult (list felt * nat) :=
  let '(groups, next_group_idx) := s in
  start ← arr_read indptr array_idx;
  end_ ← arr_read indptr (array_idx + 1);
  if start <? end_ then
    group_ops ← arr_slice batch_ops start end_;
    groups ← arr_write groups array_idx (new_unchecked (pack_group group_ops));
    '(placements, next_group_idx_after) ←
      map_err InvalidBatch (collect_immediate_placements batch_ops indptr array_idx BATCH_SIZE None);
    groups ← for_each placements (fun groups '(imm_group_idx, imm_value) => arr_write groups imm_group_idx imm_value) groups;
    Ok (groups, next_group_idx_after)
  else Ok (groups, next_group_idx).

(** One iteration of the loop that rebuilds the batches; the state is [op_batches] and [global_op_offset] *)
Definition rebuild_batch (operations : list Operation) (s : list OpBatch * nat) (x : nat * (list nat * list bool)) :
    dresult (list OpBatch * nat) :=
  let '(op_batches, global_op_offset) := s in
  let '(batch_idx, (indptr, padding)) := x in
  h ← highest_op_group indptr 8;
  batch_num_ops ← arr_read indptr h;
  let batch_ops_end := global_op_offset + batch_num_ops in
  guard_err (batch_ops_end <=? length operations) (BatchExceedsOperations batch_ops_end);;
  batch_ops ← arr_slice operations global_op_offset batch_ops_end;
  '(groups, num_groups) ← for_each (seq 0 h) (rebuild_group batch_ops indptr) (replicate 8 (new_unchecked 0), 0);
  let op_batch := mkOpBatch batch_ops indptr padding groups num_groups in
  map_err (fun e => InvalidBatch (InBatch batch_idx e)) (validate_padding_of_batch op_batch);;
  Ok (op_batches ++ [op_batch], batch_ops_end).

(** [BasicBlockDataDecoder::decode_operations]; the offset is a [u32] *)
Definition decode_operations (node_data : list Z) (ops_offset : Z) : dresult (list OpBatch) :=
  let offset := Z.to_nat ops_offset in
  guard_err (offset <=? length node_data) (OffsetExceedsData offset);;
  '(operations, src) ← read_operations (drop offset node_data);
  '(num_batches, src) ← from_reader (read_u32 src);
  let num_batches := Z.to_nat num_batches in
  let max_batches := length src / 5 in
  guard_err (num_batches <=? max_batches) (BatchCountExceedsCapacity num_batches max_batches);;
  '(batch_indptrs, src) ← read_indptrs num_batches src;
  '(batch_padding, _) ← read_paddings num_batches src;
  '(op_batches, _) ← for_each (zip (seq 0 num_batches) (zip batch_indptrs batch_padding)) (rebuild_batch operations) ([], 0);
  Ok op_batches.
End BlockSerde.
