(* ===== verification/BlockRoundtrip.v ===== *)
(** * Reading back a serialized basic block

    [decode_operations] returns the batches that [encode_basic_block] wrote, with every group value recomputed, wherever
    the block lies in the data. *)

From S2P Require Import Prelude Field Types Operations Batching BatchCorrect BatchValid BlockSerde.
Import Op.

(** ** Group boundaries: four bytes *)

(** Two differences in a byte *)
Definition nibbles (a b : nat) : Z :=
  Z.lor (Z.lor 0 (Z.shiftl (Z.of_nat a mod 256) 0 mod 256)) (Z.shiftl (Z.of_nat b mod 256) 4 mod 256).

Definition nibbles_ok (a b : nat) : bool :=
  (Z.to_nat (Z.land (Z.shiftr (nibbles a b) 0) 15) =? a) && (Z.to_nat (Z.land (Z.shiftr (nibbles a b) 4) 15) =? b).

Lemma all_nibbles_ok : forallb (fun a => forallb (nibbles_ok a) (seq 0 10)) (seq 0 10) = true.
Proof. vm_compute. reflexivity. Qed.

Lemma nibbles_spec a b : a <= 9 -> b <= 9 ->
  Z.to_nat (Z.land (Z.shiftr (nibbles a b) 0) 15) = a /\ Z.to_nat (Z.land (Z.shiftr (nibbles a b) 4) 15) = b.
Proof.
  intros Ha Hb. pose proof all_nibbles_ok as H. rewrite forallb_forall in H. specialize (H a).
  rewrite forallb_forall in H. assert (Hok : nibbles_ok a b = true) by (apply H; apply in_seq; lia).
  unfold nibbles_ok in Hok. apply andb_true_iff in Hok as [H1 H2]. by rewrite !Nat.eqb_eq in *.
Qed.

Section Roundtrip.
Context {F : Felt} {FS : FeltSerde} {IS : IntSerde}.
Abbreviation opgroup := (list Operation).

Ltac array_steps :=
  cbn [Nat.add lookup list_lookup or_panic mbind outcome_bind replicate Nat.div Nat.modulo Nat.divmod fst snd Nat.sub Nat.mul
       length Nat.ltb Nat.leb insert list_insert];
  change (Z.of_nat 4) with 4%Z; change (Z.of_nat 0) with 0%Z.

(** Bounds on differences, from the bounds on the boundaries alone *)
Ltac bound := match goal with H : ?a <= ?b <= _ |- ?b - ?a <= _ => clear -H; lia end.

(** Nine boundaries that start at zero and grow by at most nine *)
Definition boundaries (p : list nat) : Prop :=
  length p = 9 /\ p !! 0 = Some 0 /\ forall i a b, p !! i = Some a -> p !! (i + 1) = Some b -> a <= b <= a + 9.

Lemma for_each_step {E St X} (x : X) l (body : St -> X -> outcome E St) s s' r :
  body s x = Ok s' -> for_each l body s' = r -> for_each (x :: l) body s = r.
Proof. intros H. cbn. by rewrite H. Qed.

Lemma unpack_step_eq packed p i b d x sh : Z.of_nat (i mod 2 * 4) = sh -> packed !! (i / 2) = Some b ->
  Z.to_nat (Z.land (Z.shiftr b sh) 15) = d -> d <= 9 -> p !! i = Some x -> i + 1 < length p ->
  unpack_step packed p i = Ok (<[i + 1 := x + d]> p).
Proof.
  intros Hsh Hb Hd Hle Hx Hi. unfold unpack_step. rewrite Hsh, (arr_read_Ok _ _ _ Hb), (arr_read_Ok _ _ _ Hx). cbn [mbind outcome_bind].
  rewrite Hd, (proj2 (Nat.leb_le d GROUP_SIZE) Hle). cbn [guard_err mbind outcome_bind]. by apply arr_write_Ok.
Qed.

Lemma pack_unpack p : boundaries p ->
  exists packed, pack_indptr_deltas p = Ok packed /\ length packed = 4 /\ unpack_indptr_deltas packed = Ok p.
Proof.
  intros (Hlen & H0 & Hstep).
  do 9 (destruct p as [|? p]; [discriminate Hlen|]). destruct p; [|discriminate Hlen]. injection H0 as ->.
  pose proof (Hstep 0 _ _ eq_refl eq_refl) as S0. pose proof (Hstep 1 _ _ eq_refl eq_refl) as S1.
  pose proof (Hstep 2 _ _ eq_refl eq_refl) as S2. pose proof (Hstep 3 _ _ eq_refl eq_refl) as S3.
  pose proof (Hstep 4 _ _ eq_refl eq_refl) as S4. pose proof (Hstep 5 _ _ eq_refl eq_refl) as S5.
  pose proof (Hstep 6 _ _ eq_refl eq_refl) as S6. pose proof (Hstep 7 _ _ eq_refl eq_refl) as S7.
  clear Hstep Hlen. exists [nibbles (n0 - 0) (n1 - n0); nibbles (n2 - n1) (n3 - n2); nibbles (n4 - n3) (n5 - n4); nibbles (n6 - n5) (n7 - n6)].
  split_and!; [|done|].
  - unfold pack_indptr_deltas, pack_step, arr_read, arr_write. cbn [seq for_each]. array_steps.
    repeat (rewrite usub_Ok by lia; array_steps). reflexivity.
  - destruct (nibbles_spec (n0 - 0) (n1 - n0)) as [N0 N1]; [lia..|].
    destruct (nibbles_spec (n2 - n1) (n3 - n2)) as [N2 N3]; [lia..|].
    destruct (nibbles_spec (n4 - n3) (n5 - n4)) as [N4 N5]; [lia..|].
    destruct (nibbles_spec (n6 - n5) (n7 - n6)) as [N6 N7]; [lia..|].
    unfold unpack_indptr_deltas. cbn [seq replicate].
    generalize dependent (nibbles (n0 - 0) (n1 - n0)). generalize dependent (nibbles (n2 - n1) (n3 - n2)).
    generalize dependent (nibbles (n4 - n3) (n5 - n4)). generalize dependent (nibbles (n6 - n5) (n7 - n6)).
    intros B3 N6 N7 B2 N4 N5 B1 N2 N3 B0 N0 N1.
    eapply for_each_step; [eapply (unpack_step_eq [B0; B1; B2; B3] _ 0 B0 _ _ 0%Z eq_refl eq_refl N0 ltac:(bound)); [reflexivity|repeat constructor]|cbn [insert list_insert Nat.add]].
    eapply for_each_step; [eapply (unpack_step_eq [B0; B1; B2; B3] _ 1 B0 _ _ 4%Z eq_refl eq_refl N1 ltac:(bound)); [reflexivity|repeat constructor]|cbn [insert list_insert Nat.add]].
    eapply for_each_step; [eapply (unpack_step_eq [B0; B1; B2; B3] _ 2 B1 _ _ 0%Z eq_refl eq_refl N2 ltac:(bound)); [reflexivity|repeat constructor]|cbn [insert list_insert Nat.add]].
    eapply for_each_step; [eapply (unpack_step_eq [B0; B1; B2; B3] _ 3 B1 _ _ 4%Z eq_refl eq_refl N3 ltac:(bound)); [reflexivity|repeat constructor]|cbn [insert list_insert Nat.add]].
    eapply for_each_step; [eapply (unpack_step_eq [B0; B1; B2; B3] _ 4 B2 _ _ 0%Z eq_refl eq_refl N4 ltac:(bound)); [reflexivity|repeat constructor]|cbn [insert list_insert Nat.add]].
    eapply for_each_step; [eapply (unpack_step_eq [B0; B1; B2; B3] _ 5 B2 _ _ 4%Z eq_refl eq_refl N5 ltac:(bound)); [reflexivity|repeat constructor]|cbn [insert list_insert Nat.add]].
    eapply for_each_step; [eapply (unpack_step_eq [B0; B1; B2; B3] _ 6 B3 _ _ 0%Z eq_refl eq_refl N6 ltac:(bound)); [reflexivity|repeat constructor]|cbn [insert list_insert Nat.add]].
    eapply for_each_step; [eapply (unpack_step_eq [B0; B1; B2; B3] _ 7 B3 _ _ 4%Z eq_refl eq_refl N7 ltac:(bound)); [reflexivity|repeat constructor]|cbn [insert list_insert Nat.add]].
    cbn [for_each]. clear -S0 S1 S2 S3 S4 S5 S6 S7. f_equal. repeat f_equal; lia.
Qed.

Lemma indptr_boundaries cs : batch_ok cs -> boundaries (indptr (batch_of cs)).
Proof.
  intros (Hok & Hn & Hp). assert (Hpos : 0 < length (slots cs)).
  { unfold is_power_of_two in Hp. destruct (length (slots cs)); [done|lia]. }
  split_and!; [by rewrite length_indptr| |].
  - destruct (slot_at cs 0 Hpos) as [s Hs]. by rewrite (proj1 (slot_indptr cs 0 s Hn Hs)).
  - intros i a b Ha Hb. destruct (decide (i < length (slots cs))) as [Hlt|Hge].
    + destruct (slot_at cs i Hlt) as [s Hs]. destruct (slot_indptr cs i s Hn Hs) as [H1 H2].
      rewrite H1 in Ha. rewrite H2 in Hb. injection Ha as <-. injection Hb as <-.
      pose proof (slot_size cs i s Hok Hs). unfold GROUP_SIZE in *. lia.
    + apply lookup_lt_Some in Hb as Hi. rewrite length_indptr in Hi by done.
      rewrite indptr_tail in Ha, Hb by lia. injection Ha as <-. injection Hb as <-. lia.
Qed.

(** ** Padding flags: one byte *)

Lemma unpack_pack_padding p : length p = 8 -> unpack_padding (pack_padding p) = p.
Proof.
  intros Hl. do 8 (destruct p as [|[] p]; [discriminate Hl|..]); destruct p; try discriminate Hl; reflexivity.
Qed.

(** ** Operations *)

Lemma read_many_eq l rest : read_many (length l) (concat (write_into <$> l) ++ rest) = Ok (l, rest).
Proof.
  induction l as [|op l IH]; [done|]. cbn [length read_many fmap list_fmap concat]. rewrite <-app_assoc, read_write_operation.
  cbn [from_reader ok_or mbind outcome_bind]. by rewrite IH.
Qed.

Lemma length_written l : length l <= length (concat (write_into <$> l)).
Proof.
  induction l as [|op l IH]; [done|]. cbn [fmap list_fmap concat length]. rewrite length_app.
  assert (1 <= length (write_into op)) by (unfold write_into; cbn; lia). lia.
Qed.

Lemma read_operations_eq l rest : (Z.of_nat (length l) < 2 ^ 64)%Z -> read_operations (write_operations l ++ rest) = Ok (l, rest).
Proof.
  intros Hl. unfold read_operations, write_operations. rewrite <-app_assoc, read_write_usize by done.
  cbn [from_reader ok_or mbind outcome_bind]. pose proof (length_written l).
  rewrite (proj2 (Nat.leb_le _ _)) by (rewrite length_app; lia). cbn [guard_err mbind outcome_bind]. apply read_many_eq.
Qed.

(** ** Metadata of the batches *)

Lemma read_bytes_eq l rest : read_bytes (length l) (l ++ rest) = Ok (l, rest).
Proof.
  unfold read_bytes. rewrite (proj2 (Nat.leb_le _ _)) by (rewrite length_app; lia).
  by rewrite take_app_length, drop_app_length.
Qed.

Lemma indptrs_roundtrip css acc : Forall batch_ok css -> exists bytes,
  for_each (batch_of <$> css) (fun out b => packed ← pack_indptr_deltas (indptr b); Ok (out ++ packed)) acc = Ok (acc ++ bytes) /\
  length bytes = 4 * length css /\
  forall rest, read_indptrs (length css) (bytes ++ rest) = Ok (indptr <$> (batch_of <$> css), rest).
Proof.
  intros Hok. revert acc. induction Hok as [|cs css Hcs _ IH]; intros acc; [exists []; by rewrite app_nil_r|].
  destruct (pack_unpack _ (indptr_boundaries cs Hcs)) as (packed & Hp & Hl & Hu).
  destruct (IH (acc ++ packed)) as (bytes & He & Hb & Hr). exists (packed ++ bytes).
  cbn [fmap list_fmap for_each length read_indptrs]. rewrite Hp. cbn [mbind outcome_bind]. split_and!.
  - rewrite app_assoc. exact He.
  - rewrite length_app. lia.
  - intros rest. rewrite <-app_assoc, <-Hl, read_bytes_eq. cbn [mbind outcome_bind]. rewrite Hu. cbn [mbind outcome_bind].
    by rewrite Hr.
Qed.

Lemma paddings_roundtrip css rest : Forall batch_ok css ->
  read_paddings (length css) ((pack_padding ∘ padding <$> (batch_of <$> css)) ++ rest) = Ok (padding <$> (batch_of <$> css), rest).
Proof.
  intros Hok. unfold read_paddings. set (l := pack_padding ∘ padding <$> (batch_of <$> css)).
  replace (length css) with (length l) by (unfold l; by rewrite !length_fmap). rewrite read_bytes_eq. cbn [mbind outcome_bind].
  do 2 f_equal. unfold l. clear l. induction Hok as [|cs css (_ & Hn & _) _ IH]; [done|]. cbn [fmap list_fmap map]. f_equal; [|exact IH].
  apply unpack_pack_padding. cbn [padding batch_of]. apply length_fill. by rewrite length_fmap.
Qed.

(** ** Group values *)

Lemma batch_last cs : batch_ok cs -> exists cs0 c, cs = cs0 ++ [c].
Proof.
  intros (_ & _ & Hp). destruct cs as [|c cs _] using rev_ind; [done|eauto].
Qed.

(** After the last group of operations the boundaries stay at the end. *)
Lemma indptr_after cs0 c j : length (slots (cs0 ++ [c])) <= BATCH_SIZE -> length (slots cs0) < j <= BATCH_SIZE ->
  indptr (batch_of (cs0 ++ [c])) !! j = Some (length (all_ops (cs0 ++ [c]))).
Proof.
  intros Hn Hj. set (cs := cs0 ++ [c]) in *. destruct (decide (j < length (slots cs))) as [Hlt|Hge]; [|apply indptr_tail; lia].
  destruct (slot_at cs j Hlt) as [s Hs]. rewrite (proj1 (slot_indptr cs j s Hn Hs)). unfold slot_start. do 2 f_equal.
  rewrite all_ops_slots. unfold cs. rewrite slots_app, slots_one. unfold group_slots.
  rewrite take_app_ge by lia. replace (j - length (slots cs0)) with (S (j - length (slots cs0) - 1)) by lia.
  rewrite firstn_cons, <-fmap_take, !fmap_app, !concat_app. cbn [fmap list_fmap concat]. by rewrite !imm_slots_ops.
Qed.

Lemma highest_eq cs0 c i : length (slots (cs0 ++ [c])) <= BATCH_SIZE -> length (slots cs0) < i <= BATCH_SIZE ->
  highest_op_group (indptr (batch_of (cs0 ++ [c]))) i = Ok (length (slots cs0) + 1).
Proof.
  intros Hn. induction i as [|i IH]; intros Hi; [lia|]. cbn [highest_op_group].
  rewrite (arr_read_Ok _ _ _ (indptr_after cs0 c (S i) Hn ltac:(lia))). cbn [mbind outcome_bind].
  destruct (decide (i = length (slots cs0))) as [->|Hne].
  - assert (Hs : slots (cs0 ++ [c]) !! length (slots cs0) = Some (OpSlot c))
      by (rewrite slots_app, slots_one; by apply list_lookup_middle).
    destruct (slot_indptr _ _ _ Hn Hs) as [H1 H2]. rewrite (arr_read_Ok _ _ _ H1). cbn [mbind outcome_bind].
    rewrite indptr_after in H2 by lia. injection H2 as H2. pose proof (length_padded_pos c). cbn [slot_ops] in H2.
    rewrite (proj2 (Nat.ltb_lt _ _)) by lia. f_equal. lia.
  - rewrite (arr_read_Ok _ _ _ (indptr_after cs0 c i Hn ltac:(lia))). cbn [mbind outcome_bind].
    rewrite Nat.ltb_irrefl. apply IH. lia.
Qed.

Lemma place_all g (l vs : list felt) : length l = g + 1 -> length l + length vs <= BATCH_SIZE ->
  for_each (placements g vs) (fun groups '(i, v) => arr_write groups i v) (fill BATCH_SIZE ZERO l) =
  Ok (E := DeserializationError) (fill BATCH_SIZE ZERO (l ++ vs)).
Proof.
  intros Hl. induction vs as [|v vs IH] using rev_ind; intros Hn; [by rewrite app_nil_r|]. rewrite length_app in Hn. cbn in Hn.
  rewrite placements_snoc, for_each_app, IH by lia. cbn [mbind outcome_bind for_each].
  rewrite arr_write_Ok by (rewrite length_fill by (rewrite length_app; lia); lia). cbn [mbind outcome_bind].
  replace (g + 1 + length vs) with (length (l ++ vs)) by (rewrite length_app; lia).
  by rewrite fill_extend, <-app_assoc by (rewrite length_app; lia).
Qed.

Definition rebuilt (cs : list opgroup) : list felt * nat := (fill BATCH_SIZE ZERO (slot_value <$> slots cs), length (slots cs)).

(** The step at a group of operations *)
Lemma rebuild_op_slot cs cs1 c cs2 : cs = cs1 ++ c :: cs2 -> length (slots cs) <= BATCH_SIZE ->
  rebuild_group (ops (batch_of cs)) (indptr (batch_of cs)) (rebuilt cs1) (length (slots cs1)) = Ok (rebuilt (cs1 ++ [c])).
Proof.
  intros Hcs Hn. assert (Hs : slots cs !! length (slots cs1) = Some (OpSlot c)).
  { rewrite Hcs, slots_app. change (c :: cs2) with ([c] ++ cs2). rewrite slots_app, slots_one. by apply list_lookup_middle. }
  pose proof (op_slot_room _ _ _ Hs) as Hroom. destruct (slot_indptr _ _ _ Hn Hs) as [H1 H2].
  unfold rebuild_group, rebuilt. rewrite (arr_read_Ok _ _ _ H1), (arr_read_Ok _ _ _ H2). cbn [mbind outcome_bind slot_ops].
  pose proof (length_padded_pos c). rewrite (proj2 (Nat.ltb_lt _ _)) by lia.
  destruct (slot_slice _ _ _ Hs) as [Hb Hsl]. cbn [slot_ops] in Hb, Hsl. rewrite arr_slice_Ok by (cbn [ops batch_of]; lia).
  cbn [mbind outcome_bind]. rewrite (Nat.add_comm (slot_start _ _)), Nat.add_sub.
  change (all_ops cs) with (ops (batch_of cs)) in Hsl. rewrite Hsl, pack_padded.
  rewrite arr_write_Ok by (rewrite length_fill by (rewrite length_fmap; lia); lia). cbn [mbind outcome_bind].
  rewrite (collect_eq cs _ c None Hn Hs) by auto. cbn [map_err mbind outcome_bind].
  pose proof (fill_extend BATCH_SIZE ZERO (new_unchecked (pack_group c)) (slot_value <$> slots cs1)) as Hf.
  rewrite length_fmap in Hf. rewrite Hf by lia.
  rewrite place_all by (rewrite length_app, length_fmap; cbn; lia). cbn [mbind outcome_bind].
  rewrite slots_app, slots_one, fmap_app, imm_slots_value, <-app_assoc, length_app, length_group_slots. do 2 f_equal. lia.
Qed.

Lemma rebuild_imm_slots cs c g s n : length (slots cs) <= BATCH_SIZE -> slots cs !! g = Some (OpSlot c) -> n <= length (imms c) ->
  for_each (seq (g + 1) n) (rebuild_group (ops (batch_of cs)) (indptr (batch_of cs))) s = Ok s.
Proof.
  intros Hn Hs. induction n as [|n IH]; intros Hle; [done|]. rewrite seq_S, for_each_app, IH by lia. cbn [mbind outcome_bind for_each].
  destruct (lookup_lt_is_Some_2 (imms c) n) as [v Hv]; [lia|]. pose proof (imm_slot_lookup _ _ _ _ _ Hs Hv) as Hi.
  destruct (slot_indptr _ _ _ Hn Hi) as [H1 H2]. unfold rebuild_group. destruct s as [gs k].
  rewrite (arr_read_Ok _ _ _ H1), (arr_read_Ok _ _ _ H2). cbn [mbind outcome_bind slot_ops length].
  by rewrite Nat.add_0_r, Nat.ltb_irrefl.
Qed.

Lemma rebuild_prefix cs cs1 cs2 : cs = cs1 ++ cs2 -> length (slots cs) <= BATCH_SIZE ->
  for_each (seq 0 (length (slots cs1))) (rebuild_group (ops (batch_of cs)) (indptr (batch_of cs)))
    (replicate 8 (new_unchecked 0), 0) = Ok (rebuilt cs1).
Proof.
  revert cs2. induction cs1 as [|c cs1 IH] using rev_ind; intros cs2 Hcs Hn.
  - by rewrite new_unchecked_0.
  - rewrite <-app_assoc in Hcs. cbn in Hcs. rewrite slots_snoc, <-Nat.add_assoc, seq_app, for_each_app, (IH (c :: cs2)) by done.
    cbn [mbind outcome_bind Nat.add seq for_each]. rewrite (rebuild_op_slot cs cs1 c cs2) by done. cbn [mbind outcome_bind].
    rewrite <-Nat.add_1_r. apply (rebuild_imm_slots cs c); [done| |done].
    rewrite Hcs, slots_app. change (c :: cs2) with ([c] ++ cs2). rewrite slots_app, slots_one. by apply list_lookup_middle.
Qed.

Lemma rebuild_batch_eq css cs operations i offset rest : batch_ok cs ->
  drop offset operations = all_ops cs ++ rest -> offset <= length operations ->
  rebuild_batch operations (css, offset) (i, (indptr (batch_of cs), padding (batch_of cs))) =
  Ok (css ++ [batch_of cs], offset + length (all_ops cs)).
Proof.
  intros Hok Hd Hoff. pose proof Hok as (_ & Hn & _). destruct (batch_last cs Hok) as (cs0 & c & Hcs).
  pose proof (slots_snoc cs0 c) as Hs. rewrite <-Hcs in Hs.
  assert (Hlen : length operations = offset + length (all_ops cs) + length rest).
  { apply (f_equal length) in Hd. rewrite length_drop, length_app in Hd. lia. }
  assert (Hh : highest_op_group (indptr (batch_of cs)) 8 = Ok (length (slots cs0) + 1))
    by (rewrite Hcs; apply highest_eq; rewrite <-?Hcs; unfold BATCH_SIZE in *; lia).
  assert (He : indptr (batch_of cs) !! (length (slots cs0) + 1) = Some (length (all_ops cs)))
    by (rewrite Hcs; apply indptr_after; rewrite <-?Hcs; lia).
  unfold rebuild_batch. rewrite Hh. cbn [mbind outcome_bind]. rewrite (arr_read_Ok _ _ _ He). cbn [mbind outcome_bind].
  rewrite (proj2 (Nat.leb_le _ _)) by lia. cbn [guard_err mbind outcome_bind]. rewrite arr_slice_Ok by lia. cbn [mbind outcome_bind].
  rewrite (Nat.add_comm offset), Nat.add_sub, Hd, take_app_length. change (all_ops cs) with (ops (batch_of cs)).
  rewrite seq_app, for_each_app, (rebuild_prefix cs cs0 [c]) by done. cbn [mbind outcome_bind Nat.add seq for_each].
  rewrite (rebuild_op_slot cs cs0 c []) by done. cbn [mbind outcome_bind]. rewrite <-Hcs. unfold rebuilt.
  change (mkOpBatch _ _ _ _ _) with (batch_of cs). rewrite validate_padding_ok by done. cbn [map_err mbind outcome_bind].
  reflexivity.
Qed.

Lemma rebuild_all css done_ offset operations n : Forall batch_ok css -> drop offset operations = all_ops (concat css) ->
  offset <= length operations ->
  exists o', for_each (zip (seq n (length css)) (zip (indptr <$> (batch_of <$> css)) (padding <$> (batch_of <$> css))))
    (rebuild_batch operations) (done_, offset) = Ok (done_ ++ (batch_of <$> css), o').
Proof.
  intros Hok. revert done_ offset n. induction Hok as [|cs css Hcs _ IH]; intros done_ offset n Hd Hoff.
  - exists offset. by rewrite app_nil_r.
  - cbn [length seq fmap list_fmap zip_with for_each concat] in *. rewrite all_ops_app in Hd.
    erewrite rebuild_batch_eq by done. cbn [mbind outcome_bind].
    destruct (IH (done_ ++ [batch_of cs]) (offset + length (all_ops cs)) (S n)) as [o' Ho].
    + by rewrite <-drop_drop, Hd, drop_app_length.
    + apply (f_equal length) in Hd. rewrite length_drop, length_app in Hd. lia.
    + exists o'. rewrite <-app_assoc in Ho. exact Ho.
Qed.

(** ** The whole block *)

Lemma batches_le_operations css : Forall batch_ok css -> length css <= length (operations (batch_of <$> css)).
Proof.
  rewrite operations_eq. induction 1 as [|cs css Hcs _ IH]; [done|]. cbn [concat length]. rewrite all_ops_app, length_app.
  destruct (batch_last cs Hcs) as (cs0 & c & ->). rewrite all_ops_app, all_ops_one, length_app. pose proof (length_padded_pos c). lia.
Qed.

Lemma decode_encode css before after : Forall batch_ok css ->
  (Z.of_nat (length (operations (batch_of <$> css))) < 2 ^ 32)%Z ->
  exists bytes, encode_basic_block before (batch_of <$> css) = Ok (Z.of_nat (length before) mod 2 ^ 32, before ++ bytes)%Z /\
    decode_operations (before ++ bytes ++ after) (Z.of_nat (length before)) = Ok (batch_of <$> css).
Proof.
  intros Hok Hlen. pose proof (batches_le_operations css Hok) as Hcount.
  destruct (indptrs_roundtrip css [] Hok) as (ip & Hip & Hipl & Hipr). unfold encode_basic_block. rewrite Hip. cbn [mbind outcome_bind app].
  eexists. split; [reflexivity|]. rewrite length_fmap, Z.mod_small by lia. unfold decode_operations. rewrite Nat2Z.id.
  rewrite (proj2 (Nat.leb_le _ _)) by (rewrite length_app; lia). cbn [guard_err mbind outcome_bind].
  rewrite drop_app_length, <-!app_assoc, read_operations_eq by lia. cbn [mbind outcome_bind].
  rewrite read_write_u32 by lia. cbn [from_reader ok_or mbind outcome_bind]. rewrite Nat2Z.id.
  assert (Hcap : length css <= length (ip ++ (pack_padding ∘ padding <$> (batch_of <$> css)) ++ after) / 5).
  { apply Nat.div_le_lower_bound; [lia|]. rewrite !length_app, !length_fmap. lia. }
  rewrite (proj2 (Nat.leb_le _ _) Hcap). cbn [guard_err mbind outcome_bind]. rewrite Hipr. cbn [mbind outcome_bind].
  rewrite paddings_roundtrip by done. cbn [mbind outcome_bind].
  destruct (rebuild_all css [] 0 (operations (batch_of <$> css)) 0 Hok) as [o' Ho]; [cbn; apply operations_eq|lia|].
  rewrite Ho. reflexivity.
Qed.
End Roundtrip.
