(* ===== verification/OperandStack.v ===== *)
(** * The operand stack

    [StackInterface] is the trait of [processor/src/processor.rs] the operation
    handlers are written against.  Two instances are given:

    - [Fast]: the stack of [FastProcessor] ([processor/src/fast/mod.rs],
      [operation.rs], [call_and_dyn.rs]): a fixed buffer of 6850 cells with a top
      and a bottom index, the top of the stack at the highest index, moved inside the
      buffer when it reaches its lower end;
    - [Ideal]: a list with the top at its head that is at least 16 deep and
      padded with zeros, the stack of the VM's documentation.

    [StackRefinement] shows that the buffer implements the ideal stack: every
    method run on the buffer does on the abstraction what the ideal method does,
    without ever indexing out of bounds, except that the buffer may be full. *)

From S2P Require Import Prelude Field Types.
#[local] Open Scope nat_scope.

Definition MIN_STACK_DEPTH : nat := 16.

(** The methods used by the operation handlers.  [&mut self] methods return
    the new stack; [st_truncate] and [st_restore_overflow] are the stack parts of
    [save_context_and_truncate_stack] and [restore_context]. *)
Class StackInterface {F : Felt} (S : Type) := {
  st_get : S -> nat -> result felt;
  st_get_word : S -> nat -> result Word;
  st_get_word_safe : S -> nat -> result Word;
  st_depth : S -> nat;
  (** all elements, top first *)
  st_elements : S -> result (list felt);
  st_set : S -> nat -> felt -> result S;
  st_set_word : S -> nat -> Word -> result S;
  st_swap : S -> nat -> nat -> result S;
  st_swapw_nth : S -> nat -> result S;
  st_rotate_left : S -> nat -> result S;
  st_rotate_right : S -> nat -> result S;
  st_increment_size : S -> result S;
  st_decrement_size : S -> result S;
  st_truncate : S -> result (list felt * S);
  st_restore_overflow : S -> list felt -> result S;
}.

(** [get_double_word], the trait's default method: eight [get]s. *)
Fixpoint st_get_list {F : Felt} {S} `{!StackInterface S} (s : S) (start n : nat) : result (list felt) :=
  match n with
  | 0 => Ok []
  | S n => x ← st_get s start; l ← st_get_list s (start + 1) n; Ok (x :: l)
  end.

(** ** The buffer of the fast processor *)
Module Fast.
Section Fast.
Context {F : Felt}.

Definition STACK_BUFFER_SIZE : nat := Z.to_nat 6850.
Definition INITIAL_STACK_TOP_IDX : nat := Z.to_nat 250.

(** The three stack fields of [struct FastProcessor]. *)
Record stack := mkStack {
  buf : list felt;
  stack_top_idx : nat;
  stack_bot_idx : nat;
}.

Definition with_buf (b : list felt) (s : stack) : stack :=
  mkStack b (stack_top_idx s) (stack_bot_idx s).

(** [copy_from_slice] into a part of the buffer *)
Definition buf_copy (b : list felt) (i : nat) (vs : list felt) : result (list felt) :=
  if i + length vs <=? length b then Ok (take i b ++ vs ++ drop (i + length vs) b) else Panic.

(** [FastProcessor::new_with_options]: the inputs at the top, zeros elsewhere. *)
Definition new_stack (inputs : list felt) : result stack :=
  b ← for_each (zip (seq 0 (length inputs)) inputs)
        (fun b '(i, input) => j ← usub (INITIAL_STACK_TOP_IDX - 1) i; arr_write b j input)
        (replicate STACK_BUFFER_SIZE ZERO);
  Ok (mkStack b INITIAL_STACK_TOP_IDX (INITIAL_STACK_TOP_IDX - MIN_STACK_DEPTH)).

Definition stack_size (s : stack) : nat := stack_top_idx s - stack_bot_idx s.

(** [FastProcessor::stack], reversed: [self.stack[bot..top].iter().rev()] *)
Definition elements (s : stack) : result (list felt) :=
  l ← arr_slice (buf s) (stack_bot_idx s) (stack_top_idx s);
  Ok (reverse l).

(** [FastProcessor::stack_get] *)
Definition stack_get (s : stack) (idx : nat) : result felt :=
  i ← usub (stack_top_idx s) idx;
  i ← usub i 1;
  arr_read (buf s) i.

(** [FastProcessor::stack_get_safe] *)
Definition stack_get_safe (s : stack) (idx : nat) : result felt :=
  if idx <? stack_top_idx s
  then arr_read (buf s) (stack_top_idx s - idx - 1)
  else Ok ZERO.

Definition word_of_reversed (l : list felt) : result Word :=
  match l with
  | [d; c; b; a] => Ok (mkWord a b c d)
  | _ => Panic
  end.

(** [FastProcessor::stack_get_word]: slice of four cells, reversed. *)
Definition stack_get_word (s : stack) (start_idx : nat) : result Word :=
  i ← usub (stack_top_idx s) start_idx;
  i ← usub i WORD_SIZE;
  l ← arr_slice (buf s) i (i + WORD_SIZE);
  word_of_reversed l.

(** [FastProcessor::stack_get_word_safe]: cells below index 0 read as zero
    ([saturating_sub] is the truncated subtraction of [nat]). *)
Definition stack_get_word_safe (s : stack) (start_idx : nat) : result Word :=
  let buf_end := stack_top_idx s - start_idx in
  let buf_start := stack_top_idx s - (start_idx + WORD_SIZE) in
  let num_elements_to_read_from_buf := buf_end - buf_start in
  l ← (if num_elements_to_read_from_buf =? WORD_SIZE
       then arr_slice (buf s) buf_start (buf_start + WORD_SIZE)
       else if 0 <? num_elements_to_read_from_buf
       then
         let offset := WORD_SIZE - num_elements_to_read_from_buf in
         l ← arr_slice (buf s) buf_start (buf_start + num_elements_to_read_from_buf);
         Ok (replicate offset ZERO ++ l)
       else Ok (replicate WORD_SIZE ZERO));
  word_of_reversed l.

(** [FastProcessor::stack_write] *)
Definition stack_write (s : stack) (idx : nat) (v : felt) : result stack :=
  i ← usub (stack_top_idx s) idx;
  i ← usub i 1;
  b ← arr_write (buf s) i v;
  Ok (with_buf b s).

(** [FastProcessor::stack_write_word] *)
Definition stack_write_word (s : stack) (start_idx : nat) (w : Word) : result stack :=
  i ← usub (stack_top_idx s) start_idx;
  i ← usub i WORD_SIZE;
  b ← buf_copy (buf s) i (reverse (word_elements w));
  Ok (with_buf b s).

(** [FastProcessor::stack_swap] *)
Definition stack_swap (s : stack) (idx1 idx2 : nat) : result stack :=
  a ← stack_get s idx1;
  b ← stack_get s idx2;
  s ← stack_write s idx1 b;
  stack_write s idx2 a.

(** [swapw_nth]: the buffer is split at [top - 4] and at [top - 4 - 4n]; the
    four cells at the two split points are exchanged. *)
Definition swapw_nth (s : stack) (n : nat) : result stack :=
  top_word ← usub (stack_top_idx s) WORD_SIZE;
  nth_word ← usub top_word (n * WORD_SIZE);
  a ← arr_slice (buf s) nth_word (nth_word + WORD_SIZE);
  b ← arr_slice (buf s) top_word (top_word + WORD_SIZE);
  bf ← buf_copy (buf s) nth_word b;
  bf ← buf_copy bf top_word a;
  Ok (with_buf bf s).

(** [rotate_left] *)
Definition rotate_left (s : stack) (n : nat) : result stack :=
  rotation_bot_index ← usub (stack_top_idx s) n;
  new_stack_top_element ← arr_read (buf s) rotation_bot_index;
  b ← for_each (seq 0 (n - 1))
        (fun b i => x ← arr_read b (rotation_bot_index + i + 1);
                    arr_write b (rotation_bot_index + i) x)
        (buf s);
  stack_write (with_buf b s) 0 new_stack_top_element.

(** [rotate_right] *)
Definition rotate_right (s : stack) (n : nat) : result stack :=
  rotation_bot_index ← usub (stack_top_idx s) n;
  top ← usub (stack_top_idx s) 1;
  new_stack_bot_element ← arr_read (buf s) top;
  b ← for_each (seq 1 (n - 1))
        (fun b i => dst ← usub (stack_top_idx s) i;
                    src ← usub dst 1;
                    x ← arr_read b src;
                    arr_write b dst x)
        (buf s);
  b ← arr_write b rotation_bot_index new_stack_bot_element;
  Ok (with_buf b s).

(** [StackInterface::increment_size] with [increment_stack_size] *)
Definition increment_size (s : stack) : result stack :=
  if stack_top_idx s <? STACK_BUFFER_SIZE - 1
  then Ok (mkStack (buf s) (stack_top_idx s + 1) (stack_bot_idx s))
  else Err stack_overflow.

(** [reset_stack_in_buffer] *)
Definition reset_stack_in_buffer (s : stack) (new_stack_top_idx : nat) : result stack :=
  new_stack_bot_idx ← usub new_stack_top_idx MIN_STACK_DEPTH;
  l ← arr_slice (buf s) (stack_bot_idx s) (stack_top_idx s);
  b ← buf_copy (buf s) new_stack_bot_idx l;
  b ← buf_copy b 0 (replicate new_stack_bot_idx ZERO);
  Ok (mkStack b new_stack_top_idx new_stack_bot_idx).

(** [decrement_stack_size] *)
Definition decrement_stack_size (s : stack) : result stack :=
  s ← (if stack_top_idx s =? MIN_STACK_DEPTH
       then reset_stack_in_buffer s INITIAL_STACK_TOP_IDX
       else Ok s);
  top ← usub (stack_top_idx s) 1;
  bot ← usub top MIN_STACK_DEPTH;
  Ok (mkStack (buf s) top (Nat.min (stack_bot_idx s) bot)).

(** The stack part of [save_context_and_truncate_stack]: the cells below the top
    16 are returned and zeroed. *)
Definition truncate (s : stack) : result (list felt * stack) :=
  new_bot ← usub (stack_top_idx s) MIN_STACK_DEPTH;
  if MIN_STACK_DEPTH <? stack_size s then
    overflow_stack ← arr_slice (buf s) (stack_bot_idx s) new_bot;
    b ← buf_copy (buf s) (stack_bot_idx s) (replicate (new_bot - stack_bot_idx s) ZERO);
    Ok (overflow_stack, mkStack b (stack_top_idx s) new_bot)
  else Ok ([], mkStack (buf s) (stack_top_idx s) new_bot).

(** [restore_overflow_stack] *)
Definition restore_overflow_stack (s : stack) (overflow_stack : list felt) : result stack :=
  let target_overflow_len := length overflow_stack in
  s ← (if stack_bot_idx s <? target_overflow_len then
         let new_stack_top_idx :=
           Nat.min (INITIAL_STACK_TOP_IDX + target_overflow_len) (STACK_BUFFER_SIZE - 1) in
         reset_stack_in_buffer s new_stack_top_idx
       else Ok s);
  start ← usub (stack_bot_idx s) target_overflow_len;
  b ← buf_copy (buf s) start overflow_stack;
  Ok (mkStack b (stack_top_idx s) start).

#[global] Instance fast_interface : StackInterface stack := {|
  st_get := stack_get;
  st_get_word := stack_get_word;
  st_get_word_safe := stack_get_word_safe;
  st_depth := stack_size;
  st_elements := elements;
  st_set := stack_write;
  st_set_word := stack_write_word;
  st_swap := stack_swap;
  st_swapw_nth := swapw_nth;
  st_rotate_left := rotate_left;
  st_rotate_right := rotate_right;
  st_increment_size := increment_size;
  st_decrement_size := decrement_stack_size;
  st_truncate := truncate;
  st_restore_overflow := restore_overflow_stack;
|}.
End Fast.
End Fast.

(** ** The ideal stack *)
Module Ideal.
Section Ideal.
Context {F : Felt}.

Definition word_of (l : list felt) : result Word :=
  match l with
  | [a; b; c; d] => Ok (mkWord a b c d)
  | _ => Panic
  end.

Definition get (l : list felt) (i : nat) : result felt := or_panic (l !! i).
Definition get_word (l : list felt) (i : nat) : result Word := word_of (take 4 (drop i l)).
(** Elements below the bottom read as zero. *)
Definition get_word_safe (l : list felt) (i : nat) : result Word :=
  let elem k := default ZERO (l !! (i + k)) in
  Ok (mkWord (elem 0) (elem 1) (elem 2) (elem 3)).
Definition set (l : list felt) (i : nat) (v : felt) : result (list felt) :=
  if i <? length l then Ok (<[i:=v]> l) else Panic.
Definition set_word (l : list felt) (i : nat) (w : Word) : result (list felt) :=
  if i + 4 <=? length l then Ok (take i l ++ word_elements w ++ drop (i + 4) l) else Panic.
Definition swap (l : list felt) (i j : nat) : result (list felt) :=
  match l !! i, l !! j with
  | Some a, Some b => Ok (<[j:=a]> (<[i:=b]> l))
  | _, _ => Panic
  end.
(** Exchange the top word with the [n]-th one, counting the top word as 0. *)
Definition swapw_nth (l : list felt) (n : nat) : result (list felt) :=
  if (1 <=? n) && (4 * n + 4 <=? length l) then
    Ok (take 4 (drop (4 * n) l) ++ take (4 * n - 4) (drop 4 l) ++ take 4 l ++ drop (4 * n + 4) l)
  else Panic.
(** Move the element at position [n - 1] to the top. *)
Definition rotate_left (l : list felt) (n : nat) : result (list felt) :=
  match l !! (n - 1) with
  | Some x => Ok (x :: take (n - 1) l ++ drop n l)
  | None => Panic
  end.
(** Move the top element to position [n - 1]. *)
Definition rotate_right (l : list felt) (n : nat) : result (list felt) :=
  match l with
  | x :: r => if n <=? length l then Ok (take (n - 1) r ++ x :: drop (n - 1) r) else Panic
  | [] => Panic
  end.
(** A new top element is announced and written right after; [ZERO] until then. *)
Definition increment_size (l : list felt) : result (list felt) := Ok (ZERO :: l).
(** A list padded with zeros at the bottom up to a depth. *)
Definition pad_to (n : nat) (l : list felt) : list felt := l ++ replicate (n - length l) ZERO.
(** Drop the top; the stack is refilled at the bottom to keep its depth at 16. *)
Definition decrement_size (l : list felt) : result (list felt) :=
  match l with
  | _ :: r => Ok (pad_to MIN_STACK_DEPTH r)
  | [] => Panic
  end.
Definition truncate (l : list felt) : result (list felt * list felt) :=
  Ok (reverse (drop MIN_STACK_DEPTH l), take MIN_STACK_DEPTH l).
Definition restore_overflow (l : list felt) (ov : list felt) : result (list felt) :=
  Ok (l ++ reverse ov).

#[global] Instance ideal_interface : StackInterface (list felt) := {|
  st_get := get;
  st_get_word := get_word;
  st_get_word_safe := get_word_safe;
  st_depth := length;
  st_elements := Ok;
  st_set := set;
  st_set_word := set_word;
  st_swap := swap;
  st_swapw_nth := swapw_nth;
  st_rotate_left := rotate_left;
  st_rotate_right := rotate_right;
  st_increment_size := increment_size;
  st_decrement_size := decrement_size;
  st_truncate := truncate;
  st_restore_overflow := restore_overflow;
|}.
End Ideal.
End Ideal.
