(* ===== verification/StackRefinement.v ===== *)
(** * The stack buffer implements the ideal stack

    The invariant of the buffer ([stack_inv]), the relation between a buffer and
    the list it stands for ([stack_rel]) and, method by method, that the relation is
    kept: the simulation the whole processor's refinement is built from. *)

From S2P Require Import Prelude Field Types OperandStack.
Import Fast.
#[local] Open Scope nat_scope.

#[global] Opaque STACK_BUFFER_SIZE INITIAL_STACK_TOP_IDX.

Lemma STACK_BUFFER_SIZE_eq : STACK_BUFFER_SIZE = Z.to_nat 6850.
Proof. reflexivity. Qed.
Lemma INITIAL_STACK_TOP_IDX_eq : INITIAL_STACK_TOP_IDX = Z.to_nat 250.
Proof. reflexivity. Qed.

(** [lia] with the buffer constants in scope. *)
Ltac blia :=
  pose proof STACK_BUFFER_SIZE_eq; pose proof INITIAL_STACK_TOP_IDX_eq;
  unfold MIN_STACK_DEPTH, WORD_SIZE, stack_size in *;
  cbn [buf stack_top_idx stack_bot_idx with_buf] in *; lia.

(** Decide the boolean comparisons of the goal whose truth follows from the context. *)
Ltac decide_cmp :=
  repeat match goal with
  | |- context [?a <=? ?b] =>
      first [ rewrite (proj2 (Nat.leb_le a b)) by blia | rewrite (proj2 (Nat.leb_gt a b)) by blia ]
  | |- context [?a <? ?b] =>
      first [ rewrite (proj2 (Nat.ltb_lt a b)) by blia | rewrite (proj2 (Nat.ltb_ge a b)) by blia ]
  | |- context [?a =? ?b] =>
      first [ rewrite (proj2 (Nat.eqb_eq a b)) by blia | rewrite (proj2 (Nat.eqb_neq a b)) by blia ]
  end; cbn [andb].

Section Lists.
Context {A : Type}.
Implicit Types (l vs : list A).

Lemma lookup_splice l vs i j :
  i + length vs <= length l ->
  (take i l ++ vs ++ drop (i + length vs) l) !! j =
  if decide (i <= j < i + length vs) then vs !! (j - i) else l !! j.
Proof.
  intros Hi. rewrite !lookup_app, lookup_drop.
  destruct (decide (j < i)) as [Hj|Hj].
  - rewrite (decide_False (P := _ <= _ < _)) by lia.
    rewrite lookup_take_lt by lia. destruct (lookup_lt_is_Some_2 l j) as [x ->]; [lia|done].
  - rewrite lookup_take_ge by lia. rewrite length_take, Nat.min_l by lia.
    case_decide.
    + destruct (lookup_lt_is_Some_2 vs (j - i)) as [x ->]; [lia|done].
    + rewrite (lookup_ge_None_2 vs) by lia. f_equal. lia.
Qed.

Lemma length_splice l vs i :
  i + length vs <= length l -> length (take i l ++ vs ++ drop (i + length vs) l) = length l.
Proof. intros. rewrite !length_app, length_take, length_drop. lia. Qed.

Lemma take_drop_4 l i a b c d :
  l !! i = Some a -> l !! (i + 1) = Some b -> l !! (i + 2) = Some c -> l !! (i + 3) = Some d ->
  take 4 (drop i l) = [a; b; c; d].
Proof.
  intros Ha Hb Hc Hd. rewrite (drop_S l a i Ha).
  replace (S i) with (i + 1) by lia. rewrite (drop_S l b (i + 1) Hb).
  replace (S (i + 1)) with (i + 2) by lia. rewrite (drop_S l c (i + 2) Hc).
  replace (S (i + 2)) with (i + 3) by lia. rewrite (drop_S l d (i + 3) Hd). done.
Qed.

Lemma lookup_window l i j k :
  k < j - i -> j <= length l -> take (j - i) (drop i l) !! k = l !! (i + k).
Proof. intros. rewrite lookup_take_lt by lia. by rewrite lookup_drop. Qed.
End Lists.

(** *** Array accesses in range *)
Section Accesses.
Context {F : Felt}.

Lemma buf_copy_Ok (b : list felt) i vs :
  i + length vs <= length b -> buf_copy b i vs = Ok (take i b ++ vs ++ drop (i + length vs) b).
Proof. intros. unfold buf_copy. by decide_cmp. Qed.
End Accesses.

(** Run a method whose accesses are in range. *)
Ltac run :=
  repeat first
    [ rewrite usub_Ok by blia
    | rewrite bind_Ok
    | rewrite arr_write_Ok by blia
    | rewrite arr_slice_Ok by blia
    | erewrite arr_read_Ok by eassumption ].

(** Execute a loop of the goal with an invariant: initialisation, step, use. *)
Tactic Notation "loop" uconstr(Inv) "as" ident(b) ident(H) :=
  match goal with
  | |- context [for_each ?xs ?body ?b0] =>
      let E := fresh in
      destruct (for_each_inv Inv xs body b0) as (b & E & H); [ | | rewrite E; clear E]
  end.

Section Rel.
Context {F : Felt}.
Implicit Types (s : stack) (l : list felt).

(** What the fast processor relies on: the buffer has its full size, at least
    16 elements are on the stack, the top stays inside the buffer, and every
    cell below the bottom is zero (these cells become stack elements when the
    depth would drop below 16). *)
Record stack_inv s : Prop := {
  inv_len : length (buf s) = STACK_BUFFER_SIZE;
  inv_depth : stack_bot_idx s + MIN_STACK_DEPTH <= stack_top_idx s;
  inv_top : stack_top_idx s < STACK_BUFFER_SIZE;
  inv_zero i : i < stack_bot_idx s -> buf s !! i = Some ZERO;
}.

(** [l] is the stack held by the buffer, top first. *)
Record stack_rel s l : Prop := {
  rel_inv : stack_inv s;
  rel_len : length l = stack_size s;
  rel_lookup i : i < stack_size s -> l !! i = buf s !! (stack_top_idx s - 1 - i);
}.

Definition stack_abs s : list felt :=
  reverse (take (stack_size s) (drop (stack_bot_idx s) (buf s))).

Lemma stack_rel_abs s l : stack_rel s l <-> stack_inv s /\ l = stack_abs s.
Proof.
  split.
  - intros [Hi Hl Hk]. split; [done|]. destruct Hi.
    assert (length (stack_abs s) = stack_size s) as Hla.
    { unfold stack_abs. apply length_slice. blia. }
    apply list_eq_same_length with (n := stack_size s); [done..|].
    intros i x y Hlt Hx Hy. rewrite Hk in Hx by done.
    unfold stack_abs, stack_size in Hy. rewrite lookup_slice in Hy by blia. congruence.
  - intros [Hi ->]. destruct (Hi). split; [done| |].
    + apply length_slice. blia.
    + intros i Hlt. unfold stack_abs, stack_size. apply lookup_slice; blia.
Qed.

(** Under the relation every in-range index of the list is an in-range cell. *)
Lemma rel_bounds s l : stack_rel s l ->
  length (buf s) = STACK_BUFFER_SIZE /\ stack_bot_idx s + 16 <= stack_top_idx s /\
  stack_top_idx s < STACK_BUFFER_SIZE /\ length l = stack_top_idx s - stack_bot_idx s.
Proof. intros [[] Hl _]. rewrite Hl. split_and!; blia. Qed.

Lemma rel_depth s l : stack_rel s l -> 16 <= length l.
Proof. intros H. destruct (rel_bounds s l H). blia. Qed.

Lemma rel_cell s l i : stack_rel s l -> i < length l ->
  exists x, l !! i = Some x /\ buf s !! (stack_top_idx s - 1 - i) = Some x.
Proof.
  intros H Hi. destruct (lookup_lt_is_Some_2 l i Hi) as [x Hx].
  exists x. split; [done|]. rewrite <-(rel_lookup _ _ H); [done|].
  rewrite <-(rel_len _ _ H). done.
Qed.

Lemma elements_rel s l : stack_rel s l -> elements s = Ok l.
Proof.
  intros H. pose proof (rel_bounds s l H) as (? & ? & ? & ?).
  apply stack_rel_abs in H as [Hi ->]. unfold elements. rewrite arr_slice_Ok by blia. done.
Qed.

(** The simulation of one method: related results, or the buffer is full. *)
Definition msim {A B} (R : A -> B -> Prop) (o1 : result A) (o2 : result B) : Prop :=
  outcome_sim (eq stack_overflow) R o1 o2.

(** *** Writes *)

(** Rewriting the cells above the bottom keeps the invariant. *)
Lemma inv_rewrite s b :
  stack_inv s -> length b = length (buf s) ->
  (forall i, i < stack_bot_idx s -> b !! i = buf s !! i) -> stack_inv (with_buf b s).
Proof.
  intros [] Hl Hb. split; simpl; [congruence|done|done|].
  intros i Hi. rewrite Hb by done. auto.
Qed.

Lemma rel_rewrite s l b l' :
  stack_rel s l -> length b = length (buf s) -> length l' = length l ->
  (forall i, i < stack_bot_idx s -> b !! i = buf s !! i) ->
  (forall i, i < length l -> l' !! i = b !! (stack_top_idx s - 1 - i)) ->
  stack_rel (with_buf b s) l'.
Proof.
  intros [Hi Hl Hk] Hb Hl' Hlow Hhigh. split.
  - by apply inv_rewrite.
  - rewrite Hl', Hl. done.
  - intros i Hlt. apply Hhigh. rewrite Hl. done.
Qed.

(** A write of one cell on the stack is a write of the list. *)
Lemma rel_write s l i v : stack_rel s l -> i < length l ->
  stack_rel (with_buf (<[stack_top_idx s - 1 - i := v]> (buf s)) s) (<[i := v]> l).
Proof.
  intros H Hi. pose proof (rel_bounds s l H) as (? & ? & ? & ?).
  apply (rel_rewrite s l); [done | by rewrite length_insert | by rewrite length_insert | |].
  - intros j Hj. apply list_lookup_insert_ne. blia.
  - intros j Hj. rewrite !list_lookup_insert_dec by blia.
    destruct (decide (i = j)) as [->|Hne]; [by rewrite decide_True by done|].
    rewrite decide_False by blia. apply (rel_lookup _ _ H). blia.
Qed.

Lemma stack_write_Ok s l i v : stack_rel s l -> i < length l ->
  exists s', stack_write s i v = Ok s' /\ Ideal.set l i v = Ok (<[i:=v]> l) /\
    stack_rel s' (<[i:=v]> l).
Proof.
  intros H Hi. pose proof (rel_bounds s l H) as (? & ? & ? & ?).
  unfold stack_write, Ideal.set. run. decide_cmp. eexists. split_and!; [done..|].
  replace (stack_top_idx s - i - 1) with (stack_top_idx s - 1 - i) by blia.
  by apply rel_write.
Qed.

Lemma stack_write_rel s l i v : stack_rel s l -> i < length l ->
  msim stack_rel (stack_write s i v) (Ideal.set l i v).
Proof.
  intros H Hi. destruct (stack_write_Ok s l i v H Hi) as (s' & -> & -> & ?). by constructor.
Qed.

Lemma stack_get_rel s l i : stack_rel s l -> i < length l ->
  exists x, stack_get s i = Ok x /\ Ideal.get l i = Ok x /\ l !! i = Some x.
Proof.
  intros H Hi. pose proof (rel_bounds s l H) as (? & ? & ? & ?).
  destruct (rel_cell s l i H Hi) as (x & Hx & Hb). exists x.
  unfold stack_get, Ideal.get. run.
  replace (stack_top_idx s - i - 1) with (stack_top_idx s - 1 - i) by blia.
  run. by rewrite Hx.
Qed.

Lemma stack_swap_rel s l i j : stack_rel s l -> i < length l -> j < length l ->
  msim stack_rel (stack_swap s i j) (Ideal.swap l i j).
Proof.
  intros H Hi Hj. unfold stack_swap, Ideal.swap.
  destruct (stack_get_rel s l i H Hi) as (a & -> & _ & ->).
  destruct (stack_get_rel s l j H Hj) as (b & -> & _ & ->). run.
  destruct (stack_write_Ok s l i b H Hi) as (s1 & -> & _ & H1). run.
  destruct (stack_write_Ok s1 _ j a H1) as (s2 & -> & _ & H2); [by rewrite length_insert|].
  by constructor.
Qed.

(** *** Words *)

Lemma rel_word s l i : stack_rel s l -> i + 4 <= length l ->
  exists a b c d, take 4 (drop i l) = [a; b; c; d] /\
    take 4 (drop (stack_top_idx s - i - 4) (buf s)) = [d; c; b; a].
Proof.
  intros H Hi. pose proof (rel_bounds s l H) as (? & ? & ? & ?).
  destruct (rel_cell s l i H) as (a & Ha & Ha'); [lia|].
  destruct (rel_cell s l (i + 1) H) as (b & Hb & Hb'); [lia|].
  destruct (rel_cell s l (i + 2) H) as (c & Hc & Hc'); [lia|].
  destruct (rel_cell s l (i + 3) H) as (d & Hd & Hd'); [lia|].
  exists a, b, c, d. split; [by apply take_drop_4|].
  apply take_drop_4; [rewrite <-Hd' | rewrite <-Hc' | rewrite <-Hb' | rewrite <-Ha'];
    f_equal; blia.
Qed.

Lemma stack_get_word_rel s l i : stack_rel s l -> i + 4 <= length l ->
  exists w, stack_get_word s i = Ok w /\ Ideal.get_word l i = Ok w.
Proof.
  intros H Hi. pose proof (rel_bounds s l H) as (? & ? & ? & ?).
  destruct (rel_word s l i H Hi) as (a & b & c & d & Hl & Hb).
  exists (mkWord a b c d). unfold stack_get_word, Ideal.get_word. rewrite Hl.
  split; [|done]. run. unfold WORD_SIZE.
  replace (stack_top_idx s - i - 4 + 4 - (stack_top_idx s - i - 4)) with 4 by lia.
  by rewrite Hb.
Qed.

(** A cell above index 0 holds the element at its depth, or the zero below the stack. *)
Lemma rel_cell_safe s l i : stack_rel s l -> i < stack_top_idx s ->
  buf s !! (stack_top_idx s - 1 - i) = Some (default ZERO (l !! i)).
Proof.
  intros H Hi. pose proof (rel_bounds s l H) as (? & ? & ? & Hlen).
  destruct (Nat.lt_ge_cases i (length l)) as [Hlt|Hge].
  - destruct (rel_cell s l i H Hlt) as (x & -> & ->). done.
  - rewrite (lookup_ge_None_2 l i) by lia. apply (inv_zero _ (rel_inv _ _ H)). blia.
Qed.

(** A word of which only the lowest cells of the buffer are read. *)
Ltac short_word s :=
  destruct s as [[|b0 [|b1 [|b2 bs]]] top bot]; simpl in *; try blia;
  unfold arr_slice; simpl;
  repeat match goal with H : top = _ -> Some _ = Some _ |- _ => specialize (H ltac:(lia)) end;
  simplify_eq; done.

Lemma stack_get_word_safe_rel s l i : stack_rel s l ->
  exists w, stack_get_word_safe s i = Ok w /\ Ideal.get_word_safe l i = Ok w.
Proof.
  intros H. pose proof (rel_bounds s l H) as (? & ? & ? & Hlen).
  eexists. split; [|reflexivity]. unfold stack_get_word_safe, WORD_SIZE.
  assert (forall k, stack_top_idx s <= i + k -> default ZERO (l !! (i + k)) = ZERO) as Hout.
  { intros k Hk. rewrite (lookup_ge_None_2 l) by blia. done. }
  assert (forall k n, stack_top_idx s = n + 1 + (i + k) -> buf s !! n = Some (default ZERO (l !! (i + k)))) as Hin.
  { intros k n Hn. rewrite <-(rel_cell_safe s l (i + k) H) by lia. f_equal. lia. }
  assert (i + 4 <= stack_top_idx s \/ stack_top_idx s = i + 3 \/ stack_top_idx s = i + 2 \/
    stack_top_idx s = i + 1 \/ stack_top_idx s <= i) as [Hc|[Hc|[Hc|[Hc|Hc]]]] by lia.
  - replace (stack_top_idx s - i - (stack_top_idx s - (i + 4))) with 4 by lia. cbn [Nat.eqb].
    rewrite arr_slice_Ok by blia. replace (_ + 4 - _) with 4 by lia. cbn.
    rewrite (take_drop_4 _ _ (default ZERO (l !! (i + 3))) (default ZERO (l !! (i + 2)))
      (default ZERO (l !! (i + 1))) (default ZERO (l !! (i + 0)))) by (apply Hin; lia). done.
  - replace (stack_top_idx s - i - (stack_top_idx s - (i + 4))) with 3 by lia.
    replace (stack_top_idx s - (i + 4)) with 0 by lia. pose proof (Hin 0 2). pose proof (Hin 1 1).
    pose proof (Hin 2 0). rewrite (Hout 3) by lia. short_word s.
  - replace (stack_top_idx s - i - (stack_top_idx s - (i + 4))) with 2 by lia.
    replace (stack_top_idx s - (i + 4)) with 0 by lia. pose proof (Hin 0 1). pose proof (Hin 1 0).
    rewrite (Hout 2), (Hout 3) by lia. short_word s.
  - replace (stack_top_idx s - i - (stack_top_idx s - (i + 4))) with 1 by lia.
    replace (stack_top_idx s - (i + 4)) with 0 by lia. pose proof (Hin 0 0).
    rewrite (Hout 1), (Hout 2), (Hout 3) by lia. short_word s.
  - replace (stack_top_idx s - i - (stack_top_idx s - (i + 4))) with 0 by lia.
    rewrite (Hout 0), (Hout 1), (Hout 2), (Hout 3) by lia. done.
Qed.

(** A slice copy inside the stack, top first on the list side. *)
Lemma rel_copy s l k vs : stack_rel s l -> k + length vs <= length l ->
  let i := stack_top_idx s - k - length vs in
  stack_rel (with_buf (take i (buf s) ++ vs ++ drop (i + length vs) (buf s)) s)
            (take k l ++ reverse vs ++ drop (k + length vs) l).
Proof.
  intros H Hk i. pose proof (rel_bounds s l H) as (? & ? & ? & ?).
  assert (i + length vs <= length (buf s)) by (unfold i; blia).
  apply (rel_rewrite s l); [done | by apply length_splice | | |].
  - rewrite !length_app, length_take, length_reverse, length_drop. lia.
  - intros j Hj. rewrite lookup_splice by done.
    destruct (decide (i <= j < i + length vs)) as [Hd|_]; [|done]. unfold i in *. blia.
  - intros j Hj. rewrite lookup_splice by done.
    rewrite <-(length_reverse vs) at 1. rewrite lookup_splice by (rewrite length_reverse; lia).
    rewrite length_reverse. destruct (decide (k <= j < k + length vs)) as [Hin|Hout].
    + rewrite decide_True by (unfold i; blia). rewrite reverse_lookup by lia.
      f_equal. unfold i. blia.
    + rewrite decide_False by (unfold i; blia). apply (rel_lookup _ _ H). blia.
Qed.

Lemma stack_write_word_rel s l i w : stack_rel s l -> i + 4 <= length l ->
  msim stack_rel (stack_write_word s i w) (Ideal.set_word l i w).
Proof.
  intros H Hi. pose proof (rel_bounds s l H) as (? & ? & ? & ?).
  unfold stack_write_word, Ideal.set_word. run. decide_cmp.
  pose proof (rel_copy s l i (reverse (word_elements w)) H) as Hc.
  rewrite length_reverse, reverse_involutive in Hc. change (length (word_elements w)) with 4 in Hc.
  rewrite buf_copy_Ok, length_reverse by (rewrite length_reverse; simpl; blia). run.
  constructor. by apply Hc.
Qed.

(** *** Rotations *)

Lemma rotate_left_buf s l n : stack_rel s l -> 2 <= n <= length l ->
  exists s', rotate_left s n = Ok s' /\
    length (buf s') = length (buf s) /\ s' = with_buf (buf s') s /\
    forall j, buf s' !! j =
      if decide (j = stack_top_idx s - 1) then buf s !! (stack_top_idx s - n)
      else if decide (stack_top_idx s - n <= j < stack_top_idx s - 1) then buf s !! (j + 1)
      else buf s !! j.
Proof.
  intros H Hn. pose proof (rel_bounds s l H) as (? & ? & ? & ?).
  unfold rotate_left. run.
  destruct (lookup_lt_is_Some_2 (buf s) (stack_top_idx s - n)) as [x Hx]; [blia|]. run.
  loop (fun k b => length b = length (buf s) /\
      forall j, b !! j = if decide (stack_top_idx s - n <= j < stack_top_idx s - n + k)
                        then buf s !! (j + 1) else buf s !! j) as b Hb.
  - split; [done|]. intros j. by rewrite decide_False by lia.
  - intros i y b Hy (Hlen & Hb). apply lookup_seq in Hy as [-> Hi].
    destruct (lookup_lt_is_Some_2 (buf s) (stack_top_idx s - n + (0 + i) + 1)) as [z Hz]; [blia|].
    rewrite (arr_read_Ok _ _ z) by (rewrite Hb, decide_False by blia; done). run.
    eexists. split; [done|]. split; [by rewrite length_insert|].
    intros j. rewrite list_lookup_insert_dec by blia. case_decide as Heq.
    + subst j. rewrite decide_True by blia. by rewrite Hz.
    + rewrite Hb. destruct (decide (stack_top_idx s - n <= j < stack_top_idx s - n + i)).
      * by rewrite decide_True by blia.
      * by rewrite decide_False by blia.
  - destruct Hb as [Hlen Hb]. rewrite length_seq in Hb. run. unfold stack_write. run.
    eexists. split; [done|]. cbn [buf with_buf stack_top_idx stack_bot_idx].
    split_and!; [by rewrite length_insert | done |].
    intros j. rewrite list_lookup_insert_dec by blia.
    destruct (decide (j = stack_top_idx s - 1)) as [->|Hj].
    + by rewrite decide_True by lia.
    + rewrite decide_False by lia. rewrite Hb.
      destruct (decide (stack_top_idx s - n <= j < stack_top_idx s - 1)).
      * by rewrite decide_True by blia.
      * by rewrite decide_False by blia.
Qed.

Lemma rotate_right_buf s l n : stack_rel s l -> 2 <= n <= length l ->
  exists s', rotate_right s n = Ok s' /\
    length (buf s') = length (buf s) /\ s' = with_buf (buf s') s /\
    forall j, buf s' !! j =
      if decide (j = stack_top_idx s - n) then buf s !! (stack_top_idx s - 1)
      else if decide (stack_top_idx s - n < j < stack_top_idx s) then buf s !! (j - 1)
      else buf s !! j.
Proof.
  intros H Hn. pose proof (rel_bounds s l H) as (? & ? & ? & ?).
  unfold rotate_right. run.
  destruct (lookup_lt_is_Some_2 (buf s) (stack_top_idx s - 1)) as [x Hx]; [blia|]. run.
  loop (fun k b => length b = length (buf s) /\
      forall j, b !! j = if decide (stack_top_idx s - 1 - k < j < stack_top_idx s)
                        then buf s !! (j - 1) else buf s !! j) as b Hb.
  - split; [done|]. intros j. by rewrite decide_False by lia.
  - intros i y b Hy (Hlen & Hb). apply lookup_seq in Hy as [-> Hi].
    destruct (lookup_lt_is_Some_2 (buf s) (stack_top_idx s - (1 + i) - 1)) as [z Hz]; [blia|].
    run. rewrite (arr_read_Ok _ _ z) by (rewrite Hb, decide_False by blia; done). run.
    eexists. split; [done|]. split; [by rewrite length_insert|].
    intros j. rewrite list_lookup_insert_dec by blia. case_decide as Heq.
    + subst j. rewrite decide_True by blia. by rewrite Hz.
    + rewrite Hb. destruct (decide (stack_top_idx s - 1 - i < j < stack_top_idx s)).
      * by rewrite decide_True by blia.
      * by rewrite decide_False by blia.
  - destruct Hb as [Hlen Hb]. rewrite length_seq in Hb. run.
    eexists. split; [done|]. cbn [buf with_buf stack_top_idx stack_bot_idx].
    split_and!; [by rewrite length_insert | done |].
    intros j. rewrite list_lookup_insert_dec by blia.
    destruct (decide (j = stack_top_idx s - n)) as [->|Hj].
    + by rewrite decide_True by lia.
    + rewrite decide_False by lia. rewrite Hb.
      destruct (decide (stack_top_idx s - n < j < stack_top_idx s)).
      * by rewrite decide_True by blia.
      * by rewrite decide_False by blia.
Qed.

Lemma lookup_rotl l n x j : 1 <= n <= length l -> l !! (n - 1) = Some x ->
  (x :: take (n - 1) l ++ drop n l) !! j =
  if decide (j = 0) then l !! (n - 1) else if decide (j < n) then l !! (j - 1) else l !! j.
Proof.
  intros Hn Hx. destruct j as [|j]; [by rewrite decide_True|].
  rewrite decide_False by done. simpl. rewrite Nat.sub_0_r, lookup_app, lookup_drop.
  destruct (decide (S j < n)).
  - rewrite lookup_take_lt by lia. destruct (lookup_lt_is_Some_2 l j) as [y ->]; [lia|done].
  - rewrite lookup_take_ge by lia. rewrite length_take, Nat.min_l by lia. f_equal. lia.
Qed.

Lemma lookup_rotr l n x r j : l = x :: r -> 1 <= n <= length l ->
  (take (n - 1) r ++ x :: drop (n - 1) r) !! j =
  if decide (j = n - 1) then Some x else if decide (j < n - 1) then l !! (j + 1) else l !! j.
Proof.
  intros -> Hn. simpl in Hn. rewrite lookup_app.
  destruct (decide (j < n - 1)) as [Hj|Hj].
  - rewrite decide_False by lia. rewrite lookup_take_lt by lia.
    rewrite Nat.add_1_r. simpl. destruct (lookup_lt_is_Some_2 r j) as [y ->]; [lia|done].
  - rewrite lookup_take_ge by lia. rewrite length_take, Nat.min_l by lia.
    destruct (decide (j = n - 1)) as [->|Hne]; [by rewrite Nat.sub_diag|].
    replace (j - (n - 1)) with (S (j - n)) by lia. simpl. rewrite lookup_drop.
    destruct j as [|j]; [lia|]. simpl. f_equal. lia.
Qed.

Lemma rotate_left_rel s l n : stack_rel s l -> 2 <= n <= length l ->
  msim stack_rel (rotate_left s n) (Ideal.rotate_left l n).
Proof.
  intros H Hn. pose proof (rel_bounds s l H) as (? & ? & ? & ?).
  destruct (rotate_left_buf s l n H Hn) as (s' & -> & Hlen & -> & Hb).
  unfold Ideal.rotate_left.
  destruct (lookup_lt_is_Some_2 l (n - 1)) as [x Hx]; [lia|]. rewrite Hx. constructor.
  cbn [buf with_buf] in *. apply (rel_rewrite s l); [done..| | |].
  - simpl. rewrite length_app, length_take, length_drop. lia.
  - intros i Hi. rewrite Hb, !decide_False by blia. done.
  - intros i Hi. rewrite (lookup_rotl l n x), Hb by (done || lia).
    destruct (decide (i = 0)) as [->|].
    + rewrite decide_True by lia. rewrite (rel_lookup _ _ H) by blia. f_equal. lia.
    + rewrite (decide_False (P := _ - 1 - i = _)) by lia. destruct (decide (i < n)).
      * rewrite decide_True by blia. rewrite (rel_lookup _ _ H) by blia. f_equal. blia.
      * rewrite decide_False by blia. apply (rel_lookup _ _ H). blia.
Qed.

Lemma rotate_right_rel s l n : stack_rel s l -> 2 <= n <= length l ->
  msim stack_rel (rotate_right s n) (Ideal.rotate_right l n).
Proof.
  intros H Hn. pose proof (rel_bounds s l H) as (? & ? & ? & ?).
  destruct (rotate_right_buf s l n H Hn) as (s' & -> & Hlen & -> & Hb).
  unfold Ideal.rotate_right. destruct l as [|x r] eqn:El; [simpl in *; lia|].
  decide_cmp. constructor. cbn [buf with_buf] in *. rewrite <-El in *.
  apply (rel_rewrite s l); [done..| | |].
  - rewrite El, length_app, length_take. simpl. rewrite length_drop. simpl in Hn.
    assert (length l = S (length r)) by by rewrite El. lia.
  - intros i Hi. rewrite Hb, !decide_False by blia. done.
  - intros i Hi. rewrite (lookup_rotr l n x r), Hb by (done || lia).
    destruct (decide (i = n - 1)) as [->|].
    + rewrite decide_True by lia. replace (Some x) with (l !! 0) by by rewrite El.
      rewrite (rel_lookup _ _ H) by blia. f_equal. lia.
    + rewrite (decide_False (P := _ - 1 - i = _)) by lia. destruct (decide (i < n - 1)).
      * rewrite decide_True by blia. rewrite (rel_lookup _ _ H) by blia. f_equal. blia.
      * rewrite decide_False by blia. apply (rel_lookup _ _ H). blia.
Qed.

Lemma swapw_nth_rel s l n : stack_rel s l -> 1 <= n -> 4 * n + 4 <= length l ->
  msim stack_rel (swapw_nth s n) (Ideal.swapw_nth l n).
Proof.
  intros H Hn Hl. pose proof (rel_bounds s l H) as (? & ? & ? & ?).
  unfold swapw_nth, Ideal.swapw_nth, WORD_SIZE. rewrite (Nat.mul_comm n 4).
  assert (4 <= 4 * n) as Hm by lia. decide_cmp.
  revert Hl Hm. generalize (4 * n) as m. clear n Hn. intros m Hl Hm.
  destruct (rel_word s l 0 H) as (a & b & c & d & Ht & Htb); [lia|].
  destruct (rel_word s l m H) as (a' & b' & c' & d' & Hw & Hwb); [lia|].
  rewrite drop_0 in Ht. rewrite Nat.sub_0_r in Htb. run.
  replace (stack_top_idx s - 4 - m) with (stack_top_idx s - m - 4) by lia.
  rewrite !(Nat.add_comm _ 4), !Nat.add_sub, Htb, Hwb. run.
  assert (stack_top_idx s - m - 4 + 4 <= length (buf s)) by blia.
  rewrite buf_copy_Ok by done. run.
  rewrite buf_copy_Ok by (rewrite length_splice; simpl; blia). run. constructor.
  pose proof (rel_copy s l m [d; c; b; a] H Hl) as R1.
  pose proof (fun Hx => rel_copy _ _ 0 [d'; c'; b'; a'] R1 Hx) as R2.
  cbn [length] in *. rewrite Nat.sub_0_r in R2. change (0 + 4) with 4 in R2.
  match type of R2 with ?P -> _ => assert P as HP end.
  { rewrite !length_app, length_take, length_drop. cbn [length]. simpl. lia. }
  specialize (R2 HP). cbn [buf with_buf stack_top_idx stack_bot_idx] in R2.
  match goal with |- stack_rel _ ?L => match type of R2 with stack_rel _ ?L' => replace L with L' end end;
    [exact R2|].
  rewrite Hw, Ht. change (reverse [d; c; b; a]) with [a; b; c; d].
  change (reverse [d'; c'; b'; a']) with [a'; b'; c'; d'].
  change (take 0 ?x) with (@nil felt). rewrite app_nil_l. f_equal.
  rewrite drop_app, length_take, Nat.min_l by lia.
  replace (4 - m) with 0 by lia. rewrite drop_0, skipn_firstn_comm. simpl.
  do 6 f_equal. lia.
Qed.

(** *** Changing the depth *)

(** [increment_size] followed by the write of the new top, the only way the
    handlers grow the stack. *)
Lemma push_rel s l v : stack_rel s l ->
  msim stack_rel (s' ← increment_size s; stack_write s' 0 v)
                 (l' ← Ideal.increment_size l; Ideal.set l' 0 v).
Proof.
  intros H. pose proof (rel_bounds s l H) as (? & ? & ? & ?).
  unfold increment_size. destruct (Nat.ltb_spec (stack_top_idx s) (STACK_BUFFER_SIZE - 1)).
  - rewrite bind_Ok. unfold stack_write. run. constructor.
    destruct H as [[] Hl Hk]. split; [split|..]; cbn [buf with_buf stack_top_idx stack_bot_idx].
    + by rewrite length_insert.
    + blia.
    + blia.
    + intros i Hi. rewrite list_lookup_insert_ne by blia. auto.
    + simpl. rewrite Hl. blia.
    + intros [|i] Hi; simpl.
      * symmetry. replace (_ + 1 - 1 - 0) with (stack_top_idx s + 1 - 0 - 1) by lia.
        apply list_lookup_insert_eq. blia.
      * rewrite list_lookup_insert_ne by blia. rewrite Hk by blia. f_equal. blia.
  - by apply sim_limit.
Qed.

(** Moving the stack inside the buffer does not change it. *)
Lemma reset_rel s l top : stack_rel s l -> length l = MIN_STACK_DEPTH ->
  MIN_STACK_DEPTH <= top < STACK_BUFFER_SIZE ->
  exists s', reset_stack_in_buffer s top = Ok s' /\ stack_rel s' l /\
    stack_top_idx s' = top /\ stack_bot_idx s' = top - MIN_STACK_DEPTH.
Proof.
  intros H Hl16 Ht. pose proof (rel_bounds s l H) as (? & ? & ? & ?).
  unfold reset_stack_in_buffer. run.
  assert (length (take (stack_top_idx s - stack_bot_idx s) (drop (stack_bot_idx s) (buf s))) = 16)
    as Hsl by (rewrite length_take, length_drop; blia).
  rewrite buf_copy_Ok by blia. run.
  rewrite buf_copy_Ok by (rewrite length_splice, length_replicate; blia). run.
  eexists. split_and!; [done| |done..]. destruct H as [[] Hlen Hk].
  split; [split|..]; cbn [buf stack_top_idx stack_bot_idx].
  - rewrite !length_splice by (rewrite ?length_splice, ?length_replicate; blia). done.
  - blia.
  - blia.
  - intros i Hi. rewrite lookup_splice by (rewrite ?length_splice, ?length_replicate; blia).
    rewrite length_replicate, decide_True by blia. apply lookup_replicate_2. blia.
  - blia.
  - intros i Hi. rewrite !lookup_splice by (rewrite ?length_splice, ?length_replicate; blia).
    rewrite length_replicate. rewrite decide_False by blia. rewrite Hsl, decide_True by blia.
    rewrite lookup_window by blia. rewrite Hk by blia. f_equal. blia.
Qed.

Lemma drop_top_rel s x r : stack_rel s (x :: r) -> MIN_STACK_DEPTH < stack_top_idx s ->
  stack_rel (mkStack (buf s) (stack_top_idx s - 1)
               (Nat.min (stack_bot_idx s) (stack_top_idx s - 1 - MIN_STACK_DEPTH)))
            (Ideal.pad_to MIN_STACK_DEPTH r).
Proof.
  intros H Ht. unfold Ideal.pad_to. pose proof (rel_bounds s _ H) as (? & ? & ? & Hlen). simpl in Hlen.
  assert (forall i, i < length r -> r !! i = buf s !! (stack_top_idx s - 1 - 1 - i)) as Hr.
  { intros i Hi. change (r !! i) with ((x :: r) !! S i). rewrite (rel_lookup _ _ H) by blia.
    f_equal. lia. }
  destruct H as [[? ? ? Hz] _ _].
  destruct (Nat.ltb_spec (length r) MIN_STACK_DEPTH).
  - replace (MIN_STACK_DEPTH - length r) with 1 by blia. cbn [replicate].
    split; [split|..]; cbn [buf stack_top_idx stack_bot_idx]; [done|blia|blia| | |].
    + intros i Hi. apply Hz. lia.
    + rewrite length_app. cbn [length]. blia.
    + intros i Hi. destruct (decide (i < length r)).
      * rewrite lookup_app_l by done. by apply Hr.
      * rewrite lookup_app_r by lia. replace (i - length r) with 0 by blia. simpl.
        symmetry. apply Hz. blia.
  - replace (MIN_STACK_DEPTH - length r) with 0 by blia. cbn [replicate]. rewrite app_nil_r.
    split; [split|..]; cbn [buf stack_top_idx stack_bot_idx]; [done|blia|blia| | |].
    + intros i Hi. apply Hz. lia.
    + blia.
    + intros i Hi. apply Hr. blia.
Qed.

Lemma decrement_rel s l : stack_rel s l ->
  msim stack_rel (decrement_stack_size s) (Ideal.decrement_size l).
Proof.
  intros H. pose proof (rel_bounds s l H) as (? & ? & ? & ?).
  unfold decrement_stack_size, Ideal.decrement_size.
  destruct l as [|x r]; [simpl in *; blia|].
  assert (exists s', (if stack_top_idx s =? MIN_STACK_DEPTH
                      then reset_stack_in_buffer s INITIAL_STACK_TOP_IDX else Ok s) = Ok s' /\
            stack_rel s' (x :: r) /\ MIN_STACK_DEPTH < stack_top_idx s') as (s' & -> & H' & Htop).
  { destruct (Nat.eqb_spec (stack_top_idx s) MIN_STACK_DEPTH) as [E|E].
    - destruct (reset_rel s (x :: r) INITIAL_STACK_TOP_IDX H) as (s' & -> & ? & ? & ?);
        [blia..|]. exists s'. split_and!; [done..|blia].
    - exists s. split_and!; [done..|blia]. }
  run. constructor. by apply drop_top_rel with x.
Qed.

(** *** Context switches *)

Lemma truncate_rel s l : stack_rel s l ->
  msim (fun '(ov, s') '(ov', l') => ov = ov' /\ stack_rel s' l')
    (truncate s) (Ideal.truncate l).
Proof.
  intros H. pose proof (rel_bounds s l H) as (? & ? & ? & Hlen).
  unfold truncate, Ideal.truncate. run.
  assert (forall b, length b = length (buf s) ->
    (forall i, i < stack_bot_idx s -> b !! i = Some ZERO) ->
    (forall i, stack_bot_idx s <= i < stack_top_idx s - MIN_STACK_DEPTH -> b !! i = Some ZERO) ->
    (forall i, stack_top_idx s - MIN_STACK_DEPTH <= i -> b !! i = buf s !! i) ->
    stack_rel (mkStack b (stack_top_idx s) (stack_top_idx s - MIN_STACK_DEPTH))
      (take MIN_STACK_DEPTH l)) as Hrel.
  { intros b Hb Hz1 Hz2 Hz3. split; [split|..]; cbn [buf stack_top_idx stack_bot_idx];
      [congruence|blia|done| |rewrite length_take; blia|].
    - intros i Hi. destruct (decide (i < stack_bot_idx s)); [by apply Hz1|apply Hz2; blia].
    - intros i Hi. rewrite lookup_take_lt by blia. rewrite (rel_lookup _ _ H) by blia.
      symmetry. apply Hz3. blia. }
  destruct (Nat.ltb_spec MIN_STACK_DEPTH (stack_size s)) as [Hgt|Hle].
  - run. rewrite buf_copy_Ok by (rewrite length_replicate; blia). run. constructor. split.
    + apply list_eq. intros i. destruct (decide (i < length l - 16)) as [Hi|Hi].
      * rewrite lookup_window by blia. rewrite reverse_lookup by (rewrite length_drop; blia).
        rewrite lookup_drop, length_drop. rewrite (rel_lookup _ _ H) by blia. f_equal. blia.
      * rewrite !lookup_ge_None_2; [done|rewrite length_reverse, length_drop; blia|].
        rewrite length_take, length_drop. blia.
    + apply Hrel.
      * rewrite length_splice by (rewrite length_replicate; blia). done.
      * intros i Hi. rewrite lookup_splice by (rewrite length_replicate; blia).
        rewrite decide_False by lia. by apply (inv_zero _ (rel_inv _ _ H)).
      * intros i Hi. rewrite lookup_splice by (rewrite length_replicate; blia).
        rewrite length_replicate, decide_True by blia. apply lookup_replicate_2. blia.
      * intros i Hi. rewrite lookup_splice by (rewrite length_replicate; blia).
        rewrite length_replicate, decide_False by blia. done.
  - constructor. split; [rewrite drop_ge by blia; done|]. apply Hrel; [done| |blia|done].
    intros i Hi. by apply (inv_zero _ (rel_inv _ _ H)).
Qed.

Lemma restore_rel s l ov : stack_rel s l -> length l = MIN_STACK_DEPTH ->
  length ov < STACK_BUFFER_SIZE - MIN_STACK_DEPTH ->
  msim stack_rel (restore_overflow_stack s ov) (Ideal.restore_overflow l ov).
Proof.
  intros H Hl16 Hov. pose proof (rel_bounds s l H) as (? & ? & ? & ?).
  unfold restore_overflow_stack, Ideal.restore_overflow.
  assert (exists s', (if stack_bot_idx s <? length ov
     then reset_stack_in_buffer s
            (Nat.min (INITIAL_STACK_TOP_IDX + length ov) (STACK_BUFFER_SIZE - 1))
     else Ok s) = Ok s' /\ stack_rel s' l /\ length ov <= stack_bot_idx s')
    as (s' & -> & H' & Hroom).
  { destruct (Nat.ltb_spec (stack_bot_idx s) (length ov)).
    - destruct (reset_rel s l (Nat.min (INITIAL_STACK_TOP_IDX + length ov) (STACK_BUFFER_SIZE - 1)) H)
        as (s' & -> & ? & ? & ?); [done|blia|].
      exists s'. split_and!; [done..|]. blia.
    - exists s. done. }
  pose proof (rel_bounds s' l H') as (? & ? & ? & ?). run.
  rewrite buf_copy_Ok by blia. run. constructor. destruct H' as [[? ? ? Hz] Hlen Hk].
  split; [split|..]; cbn [buf stack_top_idx stack_bot_idx].
  - by rewrite length_splice by blia.
  - blia.
  - blia.
  - intros i Hi. rewrite lookup_splice, decide_False by blia. apply Hz. blia.
  - rewrite length_app, length_reverse. blia.
  - intros i Hi. rewrite lookup_splice by blia. destruct (decide (i < length l)).
    + rewrite lookup_app_l by done. rewrite decide_False by blia. apply Hk. blia.
    + rewrite lookup_app_r by lia. rewrite decide_True by blia.
      rewrite reverse_lookup by blia. f_equal. blia.
Qed.

(** These methods report no error of their own, so they return what the simulation says. *)
Lemma usub_no_Err a b (e : ExecutionError) : usub a b <> Err e.
Proof. unfold usub. by case_match. Qed.
Lemma arr_slice_no_Err (b : list felt) i j (e : ExecutionError) : arr_slice b i j <> Err e.
Proof. unfold arr_slice. by case_match. Qed.
Lemma buf_copy_no_Err b i vs e : buf_copy b i vs <> Err e.
Proof. unfold buf_copy. by case_match. Qed.
Lemma bind_no_Err {A B} (o : result A) (f : A -> result B) : (forall e, o <> Err e) -> (forall a e, f a <> Err e) -> forall e, o ≫= f <> Err e.
Proof. intros Ho Hf e. destruct o as [a|e'|]; cbn; [apply Hf|by destruct (Ho e')|done]. Qed.
#[local] Hint Resolve usub_no_Err arr_slice_no_Err buf_copy_no_Err : core.
Ltac no_err := repeat first [done | progress intros | apply bind_no_Err | progress auto | case_match].

Lemma truncate_Ok s l : stack_rel s l -> exists s', truncate s = Ok (reverse (drop MIN_STACK_DEPTH l), s') /\ stack_rel s' (take MIN_STACK_DEPTH l).
Proof.
  intros H. pose proof (truncate_rel s l H) as Hs. assert (forall e, truncate s <> Err e) as Hne by (unfold truncate; no_err).
  inversion Hs as [[ov s'] b Hb E1 E2|e E1 E2|e o He E1 E2]; [|by destruct (Hne e)..].
  subst b. destruct Hb as [-> Hb]. by exists s'.
Qed.
Lemma restore_Ok s l ov : stack_rel s l -> length l = MIN_STACK_DEPTH -> length ov < STACK_BUFFER_SIZE - MIN_STACK_DEPTH ->
  exists s', restore_overflow_stack s ov = Ok s' /\ stack_rel s' (l ++ reverse ov).
Proof.
  intros H Hl Ho. pose proof (restore_rel s l ov H Hl Ho) as Hs.
  assert (forall e, restore_overflow_stack s ov <> Err e) as Hne by (unfold restore_overflow_stack, reset_stack_in_buffer; no_err).
  inversion Hs as [s' b Hb E1 E2|e E1 E2|e o He E1 E2]; [|by destruct (Hne e)..]. by exists s'.
Qed.

(** *** The initial stack *)

(** The loop of the constructor: the first [n] inputs are in place. *)
Lemma new_stack_loop inputs :
  length inputs <= MIN_STACK_DEPTH ->
  exists b, new_stack inputs =
      Ok (mkStack b INITIAL_STACK_TOP_IDX (INITIAL_STACK_TOP_IDX - MIN_STACK_DEPTH)) /\
    length b = STACK_BUFFER_SIZE /\
    forall j, j < STACK_BUFFER_SIZE ->
      b !! j = if decide (INITIAL_STACK_TOP_IDX - length inputs <= j < INITIAL_STACK_TOP_IDX)
               then inputs !! (INITIAL_STACK_TOP_IDX - 1 - j) else Some ZERO.
Proof.
  intros Hn. unfold new_stack.
  loop (fun n b => length b = STACK_BUFFER_SIZE /\ forall j, j < STACK_BUFFER_SIZE ->
      b !! j = if decide (INITIAL_STACK_TOP_IDX - n <= j < INITIAL_STACK_TOP_IDX)
               then inputs !! (INITIAL_STACK_TOP_IDX - 1 - j) else Some ZERO) as b Hinv.
  - split; [apply length_replicate|]. intros j Hj. rewrite decide_False by blia.
    apply lookup_replicate_2. done.
  - intros i [i' x] b Hx [Hb Hj]. apply lookup_zip_with_Some in Hx as (i0 & x0 & [= <- <-] & Hi & Hx).
    apply lookup_seq in Hi as [-> Hlt]. cbn [Nat.add].
    assert (i < length inputs) by (by apply lookup_lt_Some with x).
    run. eexists. split; [done|]. split; [by rewrite length_insert|]. intros j Hlt'.
    rewrite list_lookup_insert_dec by blia.
    destruct (decide (INITIAL_STACK_TOP_IDX - 1 - i = j)) as [<-|Hne].
    + rewrite decide_True by blia. rewrite <-Hx. f_equal. blia.
    + rewrite Hj by done. destruct (decide (INITIAL_STACK_TOP_IDX - i <= j < INITIAL_STACK_TOP_IDX)).
      * by rewrite decide_True by blia.
      * by rewrite decide_False by blia.
  - rewrite length_zip_with, length_seq, Nat.min_id in Hinv. destruct Hinv as [Hb Hj].
    exists b. rewrite bind_Ok. done.
Qed.

(** A fresh processor holds its inputs, padded with zeros to depth 16. *)
Lemma new_stack_rel inputs : length inputs <= MIN_STACK_DEPTH ->
  exists s, new_stack inputs = Ok s /\ stack_rel s (Ideal.pad_to MIN_STACK_DEPTH inputs).
Proof.
  intros Hn. destruct (new_stack_loop inputs Hn) as (b & -> & Hb & Hj). eexists. split; [done|].
  split; [split|..]; cbn [buf stack_top_idx stack_bot_idx].
  - done.
  - blia.
  - blia.
  - intros i Hi. rewrite Hj, decide_False by blia. done.
  - unfold Ideal.pad_to. rewrite length_app, length_replicate. blia.
  - intros i Hi. unfold Ideal.pad_to. rewrite Hj by blia. destruct (decide (i < length inputs)).
    + rewrite decide_True by blia. rewrite lookup_app_l by done. f_equal. blia.
    + rewrite decide_False by blia. rewrite lookup_app_r by lia.
      apply lookup_replicate_2. blia.
Qed.
End Rel.
