(* ===== verification/Memory.v ===== *)
(** * Random access memory

    [processor/src/fast/memory.rs]: a map from (context, word address) to words
    that is read and written by element or by word.  Addresses are field
    elements; an address that is not a [u32] is an error, and so is a word access
    at an address that is not a multiple of 4.

    The abstract contract is a flat, zero-initialised array of elements per context
    ([mem_cell]); the theorems say that the word-based map implements it. *)

From S2P Require Import Prelude Field Types.
#[local] Open Scope Z_scope.

(** [Memory::memory]; keys are (context id, word-aligned address). *)
Abbreviation Memory := (gmap (ContextId * Z) Word).

Section Memory.
Context {F : Felt}.

(** [clean_addr]: the address as a [u32]. *)
Definition clean_addr (addr : felt) : result Z :=
  if ⟦addr⟧ <? 2 ^ 32 then Ok ⟦addr⟧ else Err (MemoryErr (AddressOutOfBounds ⟦addr⟧)).

(** [split_addr]: word address and index within the word. *)
Definition split_addr (addr : Z) : Z * Z :=
  let idx := addr mod Z.of_nat WORD_SIZE in (addr - idx, idx).

Definition enforce_word_aligned_addr (ctx : ContextId) (addr : Z) : result Z :=
  if addr mod Z.of_nat WORD_SIZE =? 0 then Ok addr
  else Err (MemoryErr (UnalignedWordAccess addr ctx)).

Definition read_element_impl (m : Memory) (ctx : ContextId) (addr : Z) : result (option felt) :=
  let '(word_addr, idx) := split_addr addr in
  match m !! (ctx, word_addr) with
  | Some word => v ← or_panic (word_get word (Z.to_nat idx)); Ok (Some v)
  | None => Ok None
  end.

Definition read_element (m : Memory) (ctx : ContextId) (addr : felt) : result felt :=
  addr ← clean_addr addr;
  v ← read_element_impl m ctx addr;
  Ok (default ZERO v).

Definition read_word_impl (m : Memory) (ctx : ContextId) (addr : Z) : result (option Word) :=
  addr ← enforce_word_aligned_addr ctx addr;
  Ok (m !! (ctx, addr)).

Definition read_word (m : Memory) (ctx : ContextId) (addr : felt) : result Word :=
  addr ← clean_addr addr;
  w ← read_word_impl m ctx addr;
  Ok (default EMPTY_WORD w).

(** [write_element]: [entry().and_modify().or_insert_with()]. *)
Definition write_element (m : Memory) (ctx : ContextId) (addr : felt) (v : felt) : result Memory :=
  addr ← clean_addr addr;
  let '(word_addr, idx) := split_addr addr in
  match m !! (ctx, word_addr) with
  | Some word => Ok (<[(ctx, word_addr) := word_set word (Z.to_nat idx) v]> m)
  | None => Ok (<[(ctx, word_addr) := word_set EMPTY_WORD (Z.to_nat idx) v]> m)
  end.

Definition write_word (m : Memory) (ctx : ContextId) (addr : felt) (w : Word) : result Memory :=
  addr ← clean_addr addr;
  addr ← enforce_word_aligned_addr ctx addr;
  Ok (<[(ctx, addr) := w]> m).

(** ** The flat view *)

(** The element at an integer address of a context. *)
Definition mem_cell (m : Memory) (ctx : ContextId) (a : Z) : felt :=
  default ZERO (word_get (default EMPTY_WORD (m !! (ctx, a - a mod 4))) (Z.to_nat (a mod 4))).

Lemma mod4_cases a : a mod 4 = 0 \/ a mod 4 = 1 \/ a mod 4 = 2 \/ a mod 4 = 3.
Proof. pose proof (Z.mod_pos_bound a 4). lia. Qed.

Lemma word_get_some w i : 0 <= i < 4 -> exists v, word_get w (Z.to_nat i) = Some v.
Proof.
  intros Hi. assert (i = 0 \/ i = 1 \/ i = 2 \/ i = 3) as [->|[->|[->| ->]]] by lia;
    eexists; reflexivity.
Qed.

Lemma word_get_set w i j v : 0 <= i < 4 -> 0 <= j < 4 ->
  word_get (word_set w (Z.to_nat i) v) (Z.to_nat j) =
  if decide (i = j) then Some v else word_get w (Z.to_nat j).
Proof.
  intros Hi Hj.
  assert (i = 0 \/ i = 1 \/ i = 2 \/ i = 3) as [->|[->|[->| ->]]] by lia;
  assert (j = 0 \/ j = 1 \/ j = 2 \/ j = 3) as [->|[->|[->| ->]]] by lia; reflexivity.
Qed.

Lemma clean_addr_Ok addr a : clean_addr addr = Ok a <-> a = ⟦addr⟧ /\ ⟦addr⟧ < 2 ^ 32.
Proof.
  unfold clean_addr. destruct (Z.ltb_spec ⟦addr⟧ (2 ^ 32)); split.
  - by intros [= <-].
  - by intros [-> _].
  - discriminate.
  - lia.
Qed.

(** Reading an element is reading the flat array; it fails exactly on
    addresses that do not fit in 32 bits, and never panics. *)
Lemma read_element_eq m ctx addr :
  read_element m ctx addr =
  if ⟦addr⟧ <? 2 ^ 32 then Ok (mem_cell m ctx ⟦addr⟧)
  else Err (MemoryErr (AddressOutOfBounds ⟦addr⟧)).
Proof.
  unfold read_element, clean_addr. destruct (⟦addr⟧ <? 2 ^ 32); [|done]. rewrite bind_Ok.
  unfold read_element_impl, split_addr, mem_cell. change (Z.of_nat WORD_SIZE) with 4.
  pose proof (Z.mod_pos_bound ⟦addr⟧ 4 eq_refl) as Hm.
  destruct (m !! (ctx, ⟦addr⟧ - ⟦addr⟧ mod 4)) as [w|]; simpl.
  - destruct (word_get_some w (⟦addr⟧ mod 4) Hm) as [v ->]. done.
  - destruct (mod4_cases ⟦addr⟧) as [->|[->|[->| ->]]]; done.
Qed.

Lemma write_element_Ok m ctx addr v m' :
  write_element m ctx addr v = Ok m' ->
  ⟦addr⟧ < 2 ^ 32 /\
  m' = <[(ctx, ⟦addr⟧ - ⟦addr⟧ mod 4) :=
          word_set (default EMPTY_WORD (m !! (ctx, ⟦addr⟧ - ⟦addr⟧ mod 4)))
                   (Z.to_nat (⟦addr⟧ mod 4)) v]> m.
Proof.
  intros H. apply bind_Ok_inv in H as (a & Ha%clean_addr_Ok & H).
  destruct Ha as [-> Hlt]. split; [done|].
  unfold split_addr in H. change (Z.of_nat WORD_SIZE) with 4 in H.
  destruct (m !! (ctx, ⟦addr⟧ - ⟦addr⟧ mod 4)); simpl; congruence.
Qed.

Lemma aligned_split a b : a - a mod 4 = b - b mod 4 -> a mod 4 = b mod 4 -> a = b.
Proof. lia. Qed.

(** An element write changes one cell of one context and nothing else. *)
Lemma mem_cell_write_element m ctx addr v m' c a :
  write_element m ctx addr v = Ok m' ->
  mem_cell m' c a = if decide (c = ctx /\ a = ⟦addr⟧) then v else mem_cell m c a.
Proof.
  intros [Hlt ->]%write_element_Ok. unfold mem_cell.
  pose proof (Z.mod_pos_bound ⟦addr⟧ 4 eq_refl). pose proof (Z.mod_pos_bound a 4 eq_refl).
  destruct (decide ((ctx, ⟦addr⟧ - ⟦addr⟧ mod 4) = (c, a - a mod 4))) as [Heq|Hne].
  - rewrite <-Heq at 1. rewrite lookup_insert_eq. simpl. injection Heq as -> Heq.
    rewrite word_get_set, Heq by done. destruct (decide (⟦addr⟧ mod 4 = a mod 4)) as [E|E].
    + rewrite decide_True; [done|]. split; [done|]. symmetry. by apply aligned_split.
    + rewrite decide_False; [done|]. intros [_ ->]. done.
  - rewrite lookup_insert_ne by done. rewrite decide_False; [done|]. intros [-> ->]. done.
Qed.

Lemma write_word_Ok m ctx addr w m' :
  write_word m ctx addr w = Ok m' ->
  ⟦addr⟧ < 2 ^ 32 /\ ⟦addr⟧ mod 4 = 0 /\ m' = <[(ctx, ⟦addr⟧) := w]> m.
Proof.
  intros H. apply bind_Ok_inv in H as (a & Ha%clean_addr_Ok & H). destruct Ha as [-> Hlt].
  apply bind_Ok_inv in H as (b & Hb & H). unfold enforce_word_aligned_addr in Hb.
  change (Z.of_nat WORD_SIZE) with 4 in Hb.
  destruct (Z.eqb_spec (⟦addr⟧ mod 4) 0); naive_solver.
Qed.

Definition word_elem (w : Word) (i : Z) : felt := default ZERO (word_get w (Z.to_nat i)).

(** A word write changes the four cells at the address. *)
Lemma mem_cell_write_word m ctx addr w m' c a :
  write_word m ctx addr w = Ok m' ->
  mem_cell m' c a =
  if decide (c = ctx /\ ⟦addr⟧ <= a < ⟦addr⟧ + 4) then word_elem w (a - ⟦addr⟧)
  else mem_cell m c a.
Proof.
  intros (Hlt & Hal & ->)%write_word_Ok. unfold mem_cell.
  pose proof (Z.mod_pos_bound a 4 eq_refl) as Ha.
  destruct (decide ((ctx, ⟦addr⟧) = (c, a - a mod 4))) as [Heq|Hne].
  - rewrite <-Heq at 1. rewrite lookup_insert_eq. injection Heq as -> Heq. simpl.
    rewrite decide_True by (split; [done|lia]). unfold word_elem. do 3 f_equal. lia.
  - rewrite lookup_insert_ne by done. rewrite decide_False; [done|].
    intros [-> Hr]. apply Hne. f_equal. zlia.
Qed.

(** A word read returns the four cells at the address. *)
Lemma read_word_eq m ctx addr :
  read_word m ctx addr =
  if ⟦addr⟧ <? 2 ^ 32 then
    if ⟦addr⟧ mod 4 =? 0 then
      Ok (mkWord (mem_cell m ctx ⟦addr⟧) (mem_cell m ctx (⟦addr⟧ + 1))
                 (mem_cell m ctx (⟦addr⟧ + 2)) (mem_cell m ctx (⟦addr⟧ + 3)))
    else Err (MemoryErr (UnalignedWordAccess ⟦addr⟧ ctx))
  else Err (MemoryErr (AddressOutOfBounds ⟦addr⟧)).
Proof.
  unfold read_word, clean_addr. destruct (⟦addr⟧ <? 2 ^ 32); [|done]. rewrite bind_Ok.
  unfold read_word_impl, enforce_word_aligned_addr. change (Z.of_nat WORD_SIZE) with 4.
  destruct (Z.eqb_spec (⟦addr⟧ mod 4) 0) as [E|E]; [|done]. rewrite !bind_Ok. f_equal.
  unfold mem_cell. rewrite E.
  assert (forall k, 0 <= k < 4 -> (⟦addr⟧ + k) mod 4 = k /\ ⟦addr⟧ + k - k = ⟦addr⟧) as Hk by zlia.
  rewrite (proj1 (Hk 1 ltac:(lia))), (proj1 (Hk 2 ltac:(lia))), (proj1 (Hk 3 ltac:(lia))).
  rewrite (proj2 (Hk 1 ltac:(lia))), (proj2 (Hk 2 ltac:(lia))), (proj2 (Hk 3 ltac:(lia))).
  rewrite Z.sub_0_r. by destruct (default _ _).
Qed.

(** The first elements of a word, read one by one *)
Lemma read_word_elements m ctx addr w : read_word m ctx addr = Ok w ->
  read_element m ctx addr = Ok (w0 w) /\ read_element m ctx (addr + ONE)%F = Ok (w1 w).
Proof.
  rewrite read_word_eq, !read_element_eq. destruct (Z.ltb_spec ⟦addr⟧ (2 ^ 32)) as [Hlt|]; [|done].
  destruct (Z.eqb_spec (⟦addr⟧ mod 4) 0) as [Hm|]; [|done]. intros [= <-].
  assert (Ha : ⟦(addr + ONE)%F⟧ = ⟦addr⟧ + 1) by (rewrite canonical_add_small; rewrite canonical_ONE; [done|unfold modulus; lia]).
  rewrite Ha. assert (⟦addr⟧ + 1 < 2 ^ 32) by zlia. by rewrite (proj2 (Z.ltb_lt _ _)).
Qed.

(** Two memories are equivalent when no read can tell them apart; unwritten
    words and written zero words are identified. *)
Definition mem_equiv (m1 m2 : Memory) : Prop := forall ctx a, mem_cell m1 ctx a = mem_cell m2 ctx a.

#[global] Instance mem_equiv_equivalence : Equivalence mem_equiv.
Proof. split; repeat intro; unfold mem_equiv in *; congruence. Qed.

(** ** Properties *)

(** Write then read: an element written at an address is read back, and the
    rest of the memory, other contexts included, reads as before. *)
Lemma write_read_element m ctx addr v m' :
  write_element m ctx addr v = Ok m' ->
  read_element m' ctx addr = Ok v /\
  forall c a, (c, ⟦a⟧) <> (ctx, ⟦addr⟧) -> read_element m' c a = read_element m c a.
Proof.
  intros H. split.
  - pose proof (write_element_Ok _ _ _ _ _ H) as [Hlt _].
    rewrite read_element_eq, (mem_cell_write_element _ _ _ _ _ _ _ H), decide_True by done.
    by rewrite (proj2 (Z.ltb_lt _ _) Hlt).
  - intros c a Hne. rewrite !read_element_eq, (mem_cell_write_element _ _ _ _ _ _ _ H).
    rewrite decide_False; [done|]. intros [-> E]. apply Hne. by rewrite E.
Qed.
End Memory.
