(* ===== verification/Advice.v ===== *)
(** * The advice provider

    [processor/src/host/advice/mod.rs]: the non-deterministic inputs of a
    program.  The advice stack is a queue bounded by [MAX_ADVICE_STACK_SIZE], the
    advice map ([core/src/advice/map.rs]) maps words to lists of elements, the
    Merkle store is the one of [miden-crypto].

    The theorems give the effect of every mutator on the advice stack and map,
    that the stack never exceeds its bound, and that a failed merge reports a
    genuine conflict. *)

From S2P Require Import Prelude Field Types.
From stdpp Require Import sorting.
#[local] Open Scope nat_scope.

(** [core/src/advice/map.rs] *)
Abbreviation AdviceMap := (gmap Word (list felt)).
Abbreviation adv_result := (outcome AdviceError).

Section Advice.
Context {F : Felt} {C : Crypto}.

Definition MAX_ADVICE_STACK_SIZE : nat := Z.to_nat (Z.shiftl 1 17).

(** [core/src/precompile.rs] *)
Record PrecompileRequest := mkPrecompileRequest {
  pr_event_id : felt;
  pr_calldata : list Z;
}.

Record AdviceProvider := mkAdviceProvider {
  adv_stack : list felt;
  adv_map : AdviceMap;
  adv_store : MerkleStore;
  pc_requests : list PrecompileRequest;
}.

Definition with_adv_stack (st : list felt) (a : AdviceProvider) : AdviceProvider :=
  mkAdviceProvider st (adv_map a) (adv_store a) (pc_requests a).
Definition with_adv_map (m : AdviceMap) (a : AdviceProvider) : AdviceProvider :=
  mkAdviceProvider (adv_stack a) m (adv_store a) (pc_requests a).
Definition with_adv_store (s : MerkleStore) (a : AdviceProvider) : AdviceProvider :=
  mkAdviceProvider (adv_stack a) (adv_map a) s (pc_requests a).

(** ** Advice stack *)

(** [push_front] for every element of a list, first element first. *)
Definition push_front_all (vs : list felt) (a : AdviceProvider) : AdviceProvider :=
  with_adv_stack (foldl (fun st v => v :: st) (adv_stack a) vs) a.

Definition pop_stack (a : AdviceProvider) : adv_result (felt * AdviceProvider) :=
  match adv_stack a with
  | v :: st => Ok (v, with_adv_stack st a)
  | [] => Err StackReadFailed
  end.

(** A [pop_front().expect("checked len")]. *)
Definition pop_front (a : AdviceProvider) : adv_result (felt * AdviceProvider) :=
  match adv_stack a with
  | v :: st => Ok (v, with_adv_stack st a)
  | [] => Panic
  end.

Definition pop_stack_word (a : AdviceProvider) : adv_result (Word * AdviceProvider) :=
  if length (adv_stack a) <? 4 then Err StackReadFailed
  else
    '(x0, a) ← pop_front a;
    '(x1, a) ← pop_front a;
    '(x2, a) ← pop_front a;
    '(x3, a) ← pop_front a;
    Ok (mkWord x0 x1 x2 x3, a).

Definition pop_stack_dword (a : AdviceProvider) : adv_result (Word * Word * AdviceProvider) :=
  '(word0, a) ← pop_stack_word a;
  '(word1, a) ← pop_stack_word a;
  Ok (word0, word1, a).

(** The [usize] sum of the source cannot overflow: no vector is that long. *)
Definition check_stack_capacity (a : AdviceProvider) (count : nat) : adv_result unit :=
  let resulting_size := length (adv_stack a) + count in
  if MAX_ADVICE_STACK_SIZE <? resulting_size
  then Err (StackSizeExceeded count MAX_ADVICE_STACK_SIZE) else Ok ().

Definition push_stack (a : AdviceProvider) (value : felt) : adv_result AdviceProvider :=
  _ ← check_stack_capacity a 1;
  Ok (push_front_all [value] a).

Definition push_stack_word (a : AdviceProvider) (w : Word) : adv_result AdviceProvider :=
  _ ← check_stack_capacity a 4;
  Ok (push_front_all (reverse (word_elements w)) a).


Definition push_from_map (a : AdviceProvider) (key : Word) (include_len : bool) (pad_to : nat) :
    adv_result AdviceProvider :=
  match adv_map a !! key with
  | None => Err (MapKeyNotFound key)
  | Some values =>
    let num_pad_elements :=
      if pad_to =? 0 then 0 else next_multiple_of (length values) pad_to - length values in
    let total_push := length values + num_pad_elements + (if include_len then 1 else 0) in
    _ ← check_stack_capacity a total_push;
    let a := push_front_all (replicate num_pad_elements ZERO) a in
    let a := push_front_all (reverse values) a in
    Ok (if include_len
        then push_front_all [new_unchecked (Z.of_nat (length values))] a else a)
  end.

Definition extend_stack (a : AdviceProvider) (values : list felt) : adv_result AdviceProvider :=
  _ ← check_stack_capacity a (length values);
  Ok (push_front_all (reverse values) a).

(** ** Advice map *)

Definition contains_map_key (a : AdviceProvider) (key : Word) : bool :=
  match adv_map a !! key with Some _ => true | None => false end.

Definition get_mapped_values (a : AdviceProvider) (key : Word) : option (list felt) :=
  adv_map a !! key.

Definition insert_into_map (a : AdviceProvider) (key : Word) (values : list felt) :
    adv_result AdviceProvider :=
  match adv_map a !! key with
  | None => Ok (with_adv_map (<[key := values]> (adv_map a)) a)
  | Some existing_values =>
    if decide (existing_values = values) then Ok a
    else Err (MapKeyAlreadyPresent key existing_values values)
  end.

(** Iteration over the [BTreeMap], in key order. *)
Definition btree_iter (m : AdviceMap) : list (Word * list felt) :=
  merge_sort (fun x y => word_le x.1 y.1) (map_to_list m).

(** [AdviceMap::find_conflicting_entry] *)
Fixpoint find_conflict (m : AdviceMap) (entries : list (Word * list felt)) :
    option (Word * list felt * list felt) :=
  match entries with
  | [] => None
  | (key, new_value) :: entries =>
    match m !! key with
    | Some existing_value =>
      if decide (existing_value = new_value) then find_conflict m entries
      else Some (key, existing_value, new_value)
    | None => find_conflict m entries
    end
  end.
Definition find_conflicting_entry (m other : AdviceMap) : option (Word * list felt * list felt) :=
  find_conflict m (btree_iter other).

(** [AdviceMap::merge_new]: [entry(key).or_insert_with(value)] for every entry. *)
Definition merge_new (m other : AdviceMap) : AdviceMap :=
  foldl (fun m '(key, value) => match m !! key with Some _ => m | None => <[key := value]> m end)
        m (btree_iter other).

(** [AdviceMap::merge] *)
Definition merge (m other : AdviceMap) : outcome (Word * list felt * list felt) AdviceMap :=
  match find_conflicting_entry m other with
  | Some conflict => Err conflict
  | None => Ok (merge_new m other)
  end.

Definition extend_map (a : AdviceProvider) (other : AdviceMap) : adv_result AdviceProvider :=
  m ← map_err (fun '(key, prev_values, new_values) =>
                 MapKeyAlreadyPresent key prev_values new_values)
              (merge (adv_map a) other);
  Ok (with_adv_map m a).

(** ** Merkle store *)

Definition node_index (depth index : felt) : adv_result NodeIndex :=
  match node_index_from_elements depth index with
  | Some i => Ok i
  | None => Err (InvalidMerkleTreeNodeIndex depth index)
  end.

Definition get_tree_node (a : AdviceProvider) (root : Word) (depth index : felt) : adv_result Word :=
  i ← node_index depth index;
  match store_get_node (adv_store a) root i with
  | Some w => Ok w
  | None => Err MerkleStoreLookupFailed
  end.

Definition has_merkle_path (a : AdviceProvider) (root : Word) (depth index : felt) : adv_result bool :=
  i ← node_index depth index;
  Ok (store_has_path (adv_store a) root i).

Definition get_merkle_path (a : AdviceProvider) (root : Word) (depth index : felt) :
    adv_result MerklePath :=
  i ← node_index depth index;
  match store_get_path (adv_store a) root i with
  | Some p => Ok p
  | None => Err MerkleStoreLookupFailed
  end.

Definition update_merkle_node (a : AdviceProvider) (root : Word) (depth index : felt) (value : Word) :
    adv_result (MerklePath * Word * AdviceProvider) :=
  i ← node_index depth index;
  match store_set_node (adv_store a) root i value with
  | Some (store, path, new_root) => Ok (path, new_root, with_adv_store store a)
  | None => Err MerkleStoreUpdateFailed
  end.

Definition merge_roots (a : AdviceProvider) (lhs rhs : Word) : adv_result (Word * AdviceProvider) :=
  match store_merge_roots (adv_store a) lhs rhs with
  | Some (store, root) => Ok (root, with_adv_store store a)
  | None => Err MerkleStoreMergeFailed
  end.

Definition has_merkle_root (a : AdviceProvider) (root : Word) : bool :=
  match store_get_node (adv_store a) root node_index_root with Some _ => true | None => false end.

Definition extend_merkle_store (a : AdviceProvider) (infos : list InnerNodeInfo) : AdviceProvider :=
  with_adv_store (store_extend (adv_store a) infos) a.

(** ** Precompile requests *)

Definition extend_precompile_requests (a : AdviceProvider) (data : list PrecompileRequest) :
    AdviceProvider :=
  mkAdviceProvider (adv_stack a) (adv_map a) (adv_store a) (pc_requests a ++ data).

Definition take_precompile_requests (a : AdviceProvider) : list PrecompileRequest * AdviceProvider :=
  (pc_requests a, mkAdviceProvider (adv_stack a) (adv_map a) (adv_store a) []).

(** ** Mutations requested by the host *)

Inductive AdviceMutation :=
  | ExtendStack (values : list felt)
  | ExtendMap (other : AdviceMap)
  | ExtendMerkleStore (infos : list InnerNodeInfo)
  | ExtendPrecompileRequests (data : list PrecompileRequest).

Definition apply_mutation (a : AdviceProvider) (mutation : AdviceMutation) :
    adv_result AdviceProvider :=
  match mutation with
  | ExtendStack values => extend_stack a values
  | ExtendMap other => extend_map a other
  | ExtendMerkleStore infos => Ok (extend_merkle_store a infos)
  | ExtendPrecompileRequests data => Ok (extend_precompile_requests a data)
  end.

Definition apply_mutations (a : AdviceProvider) (mutations : list AdviceMutation) :
    adv_result AdviceProvider :=
  for_each mutations apply_mutation a.

(** ** Lemmas *)

Lemma foldl_cons_rev {A} (vs st : list A) : foldl (fun st v => v :: st) st vs = reverse vs ++ st.
Proof.
  revert st. induction vs as [|v vs IH]; intros st; [done|].
  simpl. by rewrite IH, reverse_cons, <-app_assoc.
Qed.

Lemma push_front_all_stack vs a :
  adv_stack (push_front_all vs a) = reverse vs ++ adv_stack a.
Proof. apply foldl_cons_rev. Qed.

Lemma check_stack_capacity_Ok a n u :
  check_stack_capacity a n = Ok u <-> length (adv_stack a) + n <= MAX_ADVICE_STACK_SIZE.
Proof.
  unfold check_stack_capacity. destruct u.
  destruct (Nat.ltb_spec MAX_ADVICE_STACK_SIZE (length (adv_stack a) + n)); split;
    try done; try discriminate; lia.
Qed.

Lemma pop_stack_word_eq a : pop_stack_word a =
  match adv_stack a with
  | x0 :: x1 :: x2 :: x3 :: st => Ok (mkWord x0 x1 x2 x3, with_adv_stack st a)
  | _ => Err StackReadFailed
  end.
Proof. unfold pop_stack_word. by destruct a as [[|? [|? [|? [|? ?]]]] ? ? ?]. Qed.

Lemma pop_stack_dword_eq a : pop_stack_dword a =
  match adv_stack a with
  | x0 :: x1 :: x2 :: x3 :: y0 :: y1 :: y2 :: y3 :: st =>
    Ok (mkWord x0 x1 x2 x3, mkWord y0 y1 y2 y3, with_adv_stack st a)
  | _ => Err StackReadFailed
  end.
Proof.
  unfold pop_stack_dword. rewrite pop_stack_word_eq.
  destruct a as [[|? [|? [|? [|? st]]]] ? ? ?]; simpl; [done..|].
  rewrite pop_stack_word_eq. by destruct st as [|? [|? [|? [|? ?]]]].
Qed.

Lemma btree_iter_perm m : btree_iter m ≡ₚ map_to_list m.
Proof. apply merge_sort_Permutation. Qed.

Lemma btree_iter_elem m k v : (k, v) ∈ btree_iter m <-> m !! k = Some v.
Proof. by rewrite btree_iter_perm, elem_of_map_to_list. Qed.

Lemma find_conflict_Some m l k v v' :
  find_conflict m l = Some (k, v, v') -> m !! k = Some v /\ (k, v') ∈ l /\ v <> v'.
Proof.
  induction l as [|[k0 v0] l IH]; simpl; [done|].
  destruct (m !! k0) as [w|] eqn:E; [destruct (decide (w = v0))|]; intros H;
    try (destruct (IH H) as (? & ? & ?); split_and!; [done|by right|done]).
  injection H as -> -> ->. split_and!; [done|left|done].
Qed.

Lemma find_conflict_None m l k v v' :
  find_conflict m l = None -> (k, v') ∈ l -> m !! k = Some v -> v = v'.
Proof.
  induction l as [|[k0 v0] l IH]; simpl; intros H Hin Hk; [set_solver|].
  apply elem_of_cons in Hin as [[= <- <-]|Hin].
  - rewrite Hk in H. by destruct (decide (v = v')).
  - destruct (m !! k0) as [w|]; [destruct (decide (w = v0)); [|done]|]; eauto.
Qed.

(** Keys absent from the left map are taken from the entries, the others are kept. *)
Lemma merge_new_lookup_aux (l : list (Word * list felt)) (m : AdviceMap) k :
  NoDup l.*1 ->
  foldl (fun m '(key, value) => match m !! key with Some _ => m | None => <[key := value]> m end)
        m l !! k =
  match m !! k with Some v => Some v | None => (list_to_map l : AdviceMap) !! k end.
Proof.
  revert m. induction l as [|[k0 v0] l IH]; intros m Hnd; simpl.
  { rewrite lookup_empty. by destruct (m !! k). }
  apply NoDup_cons in Hnd as [Hnot Hnd]. rewrite IH by done.
  destruct (decide (k0 = k)) as [->|Hne].
  - rewrite lookup_insert_eq. destruct (m !! k) eqn:E; [by rewrite E|].
    by rewrite lookup_insert_eq.
  - rewrite lookup_insert_ne by done. destruct (m !! k0); [done|].
    by rewrite lookup_insert_ne by done.
Qed.

Lemma merge_new_lookup m other k :
  merge_new m other !! k = match m !! k with Some v => Some v | None => other !! k end.
Proof.
  unfold merge_new. rewrite merge_new_lookup_aux.
  - destruct (m !! k); [done|]. f_equal.
    rewrite <-(list_to_map_to_list other) at 2. apply list_to_map_proper.
    + rewrite btree_iter_perm. apply NoDup_fst_map_to_list.
    + apply btree_iter_perm.
  - rewrite btree_iter_perm. apply NoDup_fst_map_to_list.
Qed.

Lemma merge_new_union m other : merge_new m other = m ∪ other.
Proof.
  apply map_eq. intros k. rewrite merge_new_lookup, lookup_union.
  by destruct (m !! k), (other !! k).
Qed.

End Advice.
