(* ===== verification/Ace.v ===== *)
(** * Arithmetic circuit evaluation

    The evaluation behind the [EVAL_CIRCUIT] operation: the instruction decoder and
    the wire bus of [processor/src/trace/chiplets/ace/], and the evaluation loop
    of [processor/src/execution/operations/eval_circuit.rs].

    A circuit is laid out in memory as a READ section of extension-field inputs, two
    per word, followed by an EVAL section of gates, one element each.  The wire of
    identifier [id] is the [num_wires - 1 - id]-th inserted one. *)

From S2P Require Import Prelude Field Types Memory.
#[local] Open Scope Z_scope.

(** ** Instructions *)

Definition ID_BITS : Z := 30.
Definition MAX_ID : Z := Z.shiftl 1 ID_BITS - 1.
Definition MAX_NUM_ACE_WIRES : Z := MAX_ID.

Inductive AceOp := AceSub | AceMul | AceAdd.

(** [Op::try_from] *)
Definition ace_op_try_from (value : Z) : option AceOp :=
  match value with
  | 0 => Some AceSub
  | 1 => Some AceMul
  | 2 => Some AceAdd
  | _ => None
  end.

Definition decode_instruction {F : Felt} (instruction : felt) : option (Z * Z * AceOp) :=
  let remaining := ⟦instruction⟧ in
  let id_l := Z.land remaining MAX_ID in
  let remaining := Z.shiftr remaining ID_BITS in
  let id_r := Z.land remaining MAX_ID in
  let remaining := Z.shiftr remaining ID_BITS in
  if (MAX_ID <? id_l) || (MAX_ID <? id_r) then None
  else
    op ← ace_op_try_from remaining;
    Some (id_l, id_r, op).

(** ** The wire bus *)
Section Bus.
Context {F : Felt} {Q : Quad}.

Record WireBus := mkWireBus {
  id_next : felt;
  wires : list (QuadFelt * Z);
  num_wires : Z;
}.

Definition bus_new (num_wires : Z) : WireBus := mkWireBus (from_u32 (num_wires - 1)) [] num_wires.

(** [WireBus::insert]: the wire's identifier and the new bus. *)
Definition bus_insert (b : WireBus) (value : QuadFelt) : felt * WireBus :=
  (id_next b, mkWireBus (id_next b - ONE)%F (wires b ++ [(value, 0)]) (num_wires b)).

(** [WireBus::read_value]: the multiplicity of the wire is incremented. *)
Definition bus_read_value (b : WireBus) (id : Z) : option (QuadFelt * WireBus) :=
  if id + 1 <=? num_wires b then
    let i := Z.to_nat (num_wires b - (id + 1)) in
    '(v, m) ← wires b !! i;
    Some (v, mkWireBus (id_next b) (<[i := (v, m + 1)]> (wires b)) (num_wires b))
  else None.

Definition bus_is_finalized (b : WireBus) : bool := Z.of_nat (length (wires b)) =? num_wires b.

(** The columns [id], [v_0] and [v_1] of a wire. *)
Record WireColumn := mkWireColumn { wc_id : list felt; wc_v_0 : list felt; wc_v_1 : list felt }.

Definition column_new : WireColumn := mkWireColumn [] [] [].
Definition column_push (c : WireColumn) (id : felt) (v : QuadFelt) : WireColumn :=
  mkWireColumn (wc_id c ++ [id]) (wc_v_0 c ++ [coef0 v]) (wc_v_1 c ++ [coef1 v]).

(** ** Circuit evaluations *)

Record CircuitEvaluation := mkCircuitEvaluation {
  ce_ctx : ContextId;
  ce_clk : Z;
  wire_bus : WireBus;
  col_ptr : list felt;
  col_op : list felt;
  col_wire_out : WireColumn;
  col_wire_left : WireColumn;
  col_wire_right : WireColumn;
  num_read_rows : Z;
  num_eval_rows : Z;
}.

Definition circuit_new (ctx : ContextId) (clk : Z) (num_read_rows num_eval_rows : Z) :
    result CircuitEvaluation :=
  let num_wires := 2 * num_read_rows + num_eval_rows in
  if num_wires <=? MAX_NUM_ACE_WIRES then
    Ok (mkCircuitEvaluation ctx clk (bus_new num_wires) [] []
          column_new column_new column_new num_read_rows num_eval_rows)
  else Panic.

(** [CircuitEvaluation::do_read] *)
Definition do_read (e : CircuitEvaluation) (ptr : felt) (word : Word) : CircuitEvaluation :=
  let v_0 := quad_new (w0 word) (w1 word) in
  let '(id_0, bus) := bus_insert (wire_bus e) v_0 in
  let v_1 := quad_new (w2 word) (w3 word) in
  let '(id_1, bus) := bus_insert bus v_1 in
  mkCircuitEvaluation (ce_ctx e) (ce_clk e) bus (col_ptr e ++ [ptr]) (col_op e)
    (column_push (col_wire_out e) id_0 v_0) (column_push (col_wire_left e) id_1 v_1)
    (col_wire_right e) (num_read_rows e) (num_eval_rows e).

Definition ace_apply (op : AceOp) (v_l v_r : QuadFelt) : QuadFelt :=
  match op with
  | AceSub => quad_sub v_l v_r
  | AceMul => quad_mul v_l v_r
  | AceAdd => quad_add v_l v_r
  end.

(** The value of the op column. *)
Definition ace_op_felt (op : AceOp) : felt :=
  match op with
  | AceSub => (- ONE)%F
  | AceMul => ZERO
  | AceAdd => ONE
  end.

Definition ace_or (k : AceErrorKind) {A} (o : option A) : result A :=
  match o with Some a => Ok a | None => Err (AceChipletErr k) end.

(** [CircuitEvaluation::do_eval] *)
Definition do_eval (e : CircuitEvaluation) (ptr instruction : felt) : result CircuitEvaluation :=
  '(id_l, id_r, op) ← ace_or AceDecodeFailed (decode_instruction instruction);
  '(v_l, bus) ← ace_or AceWireReadFailed (bus_read_value (wire_bus e) id_l);
  '(v_r, bus) ← ace_or AceWireReadFailed (bus_read_value bus id_r);
  let v_out := ace_apply op v_l v_r in
  let '(id_out, bus) := bus_insert bus v_out in
  Ok (mkCircuitEvaluation (ce_ctx e) (ce_clk e) bus (col_ptr e ++ [ptr])
        (col_op e ++ [ace_op_felt op])
        (column_push (col_wire_out e) id_out v_out)
        (column_push (col_wire_left e) (from_u32 id_l) v_l)
        (column_push (col_wire_right e) (from_u32 id_r) v_r)
        (num_read_rows e) (num_eval_rows e)).

(** [CircuitEvaluation::output_value] *)
Definition output_value (e : CircuitEvaluation) : option QuadFelt :=
  if bus_is_finalized (wire_bus e) then fst <$> last (wires (wire_bus e)) else None.

Definition quad_zero : QuadFelt := quad_new ZERO ZERO.

Definition PTR_OFFSET_ELEM : felt := ONE.
Definition PTR_OFFSET_WORD : felt := new_unchecked 4.

(** The bodies of the two loops of [eval_circuit_impl]. *)
Definition read_row (mem : Memory) (ctx : ContextId) (s : felt * CircuitEvaluation) (_ : nat) :
    result (felt * CircuitEvaluation) :=
  let '(ptr, e) := s in
  word ← read_word mem ctx ptr;
  Ok ((ptr + PTR_OFFSET_WORD)%F, do_read e ptr word).
Definition eval_row (mem : Memory) (ctx : ContextId) (s : felt * CircuitEvaluation) (_ : nat) :
    result (felt * CircuitEvaluation) :=
  let '(ptr, e) := s in
  instruction ← read_element mem ctx ptr;
  e ← do_eval e ptr instruction;
  Ok ((ptr + PTR_OFFSET_ELEM)%F, e).

(** [eval_circuit_impl].  The sum of the two counts saturates at [u64::MAX]. *)
Definition eval_circuit_impl (ctx : ContextId) (ptr : felt) (clk : Z) (num_vars num_eval : felt)
    (mem : Memory) : result CircuitEvaluation :=
  let num_vars := ⟦num_vars⟧ in
  let num_eval := ⟦num_eval⟧ in
  let num_wires := Z.min (num_vars + num_eval) (2 ^ 64 - 1) in
  if MAX_NUM_ACE_WIRES <? num_wires then Err (AceChipletErr (AceTooManyWires num_wires))
  else if negb (num_vars mod 2 =? 0) || (num_vars =? 0)
  then Err (AceChipletErr (AceBadNumVars num_vars))
  else if negb (num_eval mod 4 =? 0) || (num_eval =? 0)
  then Err (AceChipletErr (AceBadNumEval num_eval))
  else
    let num_read_rows := num_vars / 2 in
    let num_eval_rows := num_eval in
    e ← circuit_new ctx clk num_read_rows num_eval_rows;
    '(ptr, e) ← for_each (seq 0 (Z.to_nat num_read_rows)) (read_row mem ctx) (ptr, e);
    '(ptr, e) ← for_each (seq 0 (Z.to_nat num_eval_rows)) (eval_row mem ctx) (ptr, e);
    if bool_decide (output_value e = Some quad_zero) then Ok e
    else Err (AceChipletErr AceNonZeroOutput).

(** ** Reference evaluator

    A circuit as its inputs and its gates; the values of its wires in order of
    insertion.  A gate may only read wires inserted before it. *)
Definition wire_value (num_wires : Z) (vals : list QuadFelt) (id : Z) : option QuadFelt :=
  if id + 1 <=? num_wires then vals !! Z.to_nat (num_wires - (id + 1)) else None.

Fixpoint eval_gates (num_wires : Z) (vals : list QuadFelt) (gates : list (Z * Z * AceOp)) :
    option (list QuadFelt) :=
  match gates with
  | [] => Some vals
  | (id_l, id_r, op) :: gates =>
    v_l ← wire_value num_wires vals id_l;
    v_r ← wire_value num_wires vals id_r;
    eval_gates num_wires (vals ++ [ace_apply op v_l v_r]) gates
  end.
End Bus.

(** [encode]: the inverse of the decoder. *)
Definition ace_op_code (op : AceOp) : Z :=
  match op with AceSub => 0 | AceMul => 1 | AceAdd => 2 end.
Definition encode_instruction {F : Felt} (id_l id_r : Z) (op : AceOp) : felt :=
  new_unchecked (id_l + id_r * 2 ^ 30 + ace_op_code op * 2 ^ 60).

(** ** Lemmas *)

Lemma land_MAX_ID x : Z.land x MAX_ID = x mod 2 ^ 30.
Proof. change MAX_ID with (Z.ones 30). by rewrite Z.land_ones. Qed.

Lemma shiftr_ID_BITS x : Z.shiftr x ID_BITS = x / 2 ^ 30.
Proof. apply Z.shiftr_div_pow2. done. Qed.

(** The decoder accepts exactly the encodings of three fields in range. *)
Lemma decode_instruction_iff {F : Felt} (i : felt) id_l id_r op :
  decode_instruction i = Some (id_l, id_r, op) <->
  0 <= id_l <= MAX_ID /\ 0 <= id_r <= MAX_ID /\ i = encode_instruction id_l id_r op.
Proof.
  unfold decode_instruction. rewrite !land_MAX_ID, !shiftr_ID_BITS.
  change MAX_ID with 1073741823. change (2 ^ 30) with 1073741824.
  pose proof (canonical_range i) as Hr. unfold modulus in Hr.
  assert (forall x, x mod 1073741824 <= 1073741823) as Hle by zlia.
  rewrite !(proj2 (Z.ltb_ge _ _)) by apply Hle. cbn [orb].
  set (a := ⟦i⟧) in *. split.
  - destruct (ace_op_try_from (a / 1073741824 / 1073741824)) as [o|] eqn:E; [|done].
    intros [= <- <- <-]. split; [zlia|]. split; [zlia|].
    assert (ace_op_code o = a / 1073741824 / 1073741824) as Ho.
    { destruct (a / 1073741824 / 1073741824) as [|[[]|[]|]|]; simpl in E; by simplify_eq. }
    unfold encode_instruction. rewrite Ho.
    change (2 ^ 30) with 1073741824. change (2 ^ 60) with 1152921504606846976.
    rewrite <-(new_canonical i). f_equal. fold a. zlia.
  - intros (Hl & Hrr & Hi).
    assert (a = id_l + id_r * 1073741824 + ace_op_code op * 1152921504606846976) as ->.
    { unfold a. rewrite Hi. unfold encode_instruction. rewrite canonical_new; [done|].
      unfold modulus. destruct op; simpl; lia. }
    replace ((id_l + id_r * 1073741824 + ace_op_code op * 1152921504606846976) mod 1073741824)
      with id_l by zlia.
    replace ((id_l + id_r * 1073741824 + ace_op_code op * 1152921504606846976) / 1073741824)
      with (id_r + ace_op_code op * 1073741824) by zlia.
    replace ((id_r + ace_op_code op * 1073741824) mod 1073741824) with id_r by zlia.
    replace ((id_r + ace_op_code op * 1073741824) / 1073741824) with (ace_op_code op) by zlia.
    by destruct op.
Qed.
