(* ===== verification/AceCorrect.v ===== *)
(** * The circuit evaluator against a reference evaluator

    [eval_circuit_impl] reads inputs and instructions from memory and keeps a wire bus
    with multiplicities and trace columns.  It accepts exactly the circuits whose gates, evaluated
    in order on the inputs, end in zero. *)

From S2P Require Import Prelude Field Types OperandStack Memory Ace.
#[local] Open Scope Z_scope.

Section AceCorrect.
Context {F : Felt} {Q : Quad}.

(** ** The circuit in memory *)

Fixpoint read_inputs (m : Memory) (c : ContextId) (ptr : felt) (n : nat) : option (list QuadFelt * felt) :=
  match n with
  | O => Some ([], ptr)
  | S n =>
    match read_word m c ptr with
    | Ok w =>
      '(vs, ptr) ← read_inputs m c (ptr + PTR_OFFSET_WORD)%F n;
      Some (quad_new (w0 w) (w1 w) :: quad_new (w2 w) (w3 w) :: vs, ptr)
    | _ => None
    end
  end.

Fixpoint read_gates (m : Memory) (c : ContextId) (ptr : felt) (n : nat) : option (list (Z * Z * AceOp)) :=
  match n with
  | O => Some []
  | S n =>
    match read_element m c ptr with
    | Ok i => g ← decode_instruction i; gs ← read_gates m c (ptr + PTR_OFFSET_ELEM)%F n; Some (g :: gs)
    | _ => None
    end
  end.

(** The values on the bus, in order of insertion. *)
Definition bus_values (e : CircuitEvaluation) : list QuadFelt := fst <$> wires (wire_bus e).
Definition bus_width (e : CircuitEvaluation) : Z := num_wires (wire_bus e).

(** ** One row *)

Lemma do_read_values e ptr w :
  bus_values (do_read e ptr w) = bus_values e ++ [quad_new (w0 w) (w1 w); quad_new (w2 w) (w3 w)] /\
  bus_width (do_read e ptr w) = bus_width e.
Proof. unfold do_read, bus_values. cbn. by rewrite !fmap_app, <-app_assoc. Qed.

Lemma bus_read_value_eq b id :
  match bus_read_value b id with
  | Some (v, b') => wire_value (num_wires b) (fst <$> wires b) id = Some v /\
                    fst <$> wires b' = fst <$> wires b /\ num_wires b' = num_wires b
  | None => wire_value (num_wires b) (fst <$> wires b) id = None
  end.
Proof.
  unfold bus_read_value, wire_value. destruct (id + 1 <=? num_wires b); [|done].
  rewrite list_lookup_fmap. destruct (wires b !! _) as [[v k]|] eqn:E; cbn; [|done].
  split_and!; [done| |done]. rewrite list_fmap_insert. cbn. apply list_insert_id. by rewrite list_lookup_fmap, E.
Qed.

Lemma do_eval_values e ptr i :
  match do_eval e ptr i with
  | Ok e' => exists l r op vl vr, decode_instruction i = Some (l, r, op) /\
      wire_value (bus_width e) (bus_values e) l = Some vl /\ wire_value (bus_width e) (bus_values e) r = Some vr /\
      bus_values e' = bus_values e ++ [ace_apply op vl vr] /\ bus_width e' = bus_width e
  | Err _ => (forall l r op, decode_instruction i = Some (l, r, op) ->
      wire_value (bus_width e) (bus_values e) l = None \/ wire_value (bus_width e) (bus_values e) r = None)
  | Panic => False
  end.
Proof.
  unfold do_eval. destruct (decode_instruction i) as [[[l r] op]|]; cbn; [|done].
  pose proof (bus_read_value_eq (wire_bus e) l) as Hl.
  destruct (bus_read_value (wire_bus e) l) as [[vl b]|]; cbn.
  2: { intros ? ? ? [= <- <- <-]. by left. }
  destruct Hl as (Hl & Hv & Hw). pose proof (bus_read_value_eq b r) as Hr. rewrite Hv, Hw in Hr.
  destruct (bus_read_value b r) as [[vr b']|]; cbn.
  2: { intros ? ? ? [= <- <- <-]. by right. }
  destruct Hr as (Hr & Hv' & Hw'). exists l, r, op, vl, vr. split_and!; [done..| |done].
  unfold bus_values. cbn. by rewrite fmap_app, Hv'.
Qed.

(** ** The loops *)

Lemma read_loop m c n k ptr e :
  match read_inputs m c ptr n with
  | Some (vs, ptr') => exists e', for_each (seq k n) (read_row m c) (ptr, e) = Ok (ptr', e') /\
      bus_values e' = bus_values e ++ vs /\ bus_width e' = bus_width e
  | None => forall s, for_each (seq k n) (read_row m c) (ptr, e) <> Ok s
  end.
Proof.
  revert k ptr e. induction n as [|n IH]; intros k ptr e; cbn [read_inputs seq for_each].
  { exists e. by rewrite app_nil_r. }
  unfold read_row at 2 4. destruct (read_word m c ptr) as [w| |]; cbn; [|done..].
  specialize (IH (S k) (ptr + PTR_OFFSET_WORD)%F (do_read e ptr w)).
  destruct (read_inputs m c (ptr + PTR_OFFSET_WORD)%F n) as [[vs ptr']|]; cbn; [|done].
  destruct IH as (e' & Hf & Hv & Hw). destruct (do_read_values e ptr w) as [Hv0 Hw0].
  exists e'. split_and!; [done| |congruence]. by rewrite Hv, Hv0, <-app_assoc.
Qed.

Lemma eval_loop m c n k ptr e vals : bus_values e = vals ->
  match gs ← read_gates m c ptr n; eval_gates (bus_width e) vals gs with
  | Some vals' => exists ptr' e', for_each (seq k n) (eval_row m c) (ptr, e) = Ok (ptr', e') /\
      bus_values e' = vals' /\ bus_width e' = bus_width e
  | None => forall s, for_each (seq k n) (eval_row m c) (ptr, e) <> Ok s
  end.
Proof.
  revert k ptr e vals. induction n as [|n IH]; intros k ptr e vals Hvals; cbn [read_gates seq for_each].
  { cbn. by exists ptr, e. }
  unfold eval_row at 2 4. destruct (read_element m c ptr) as [i| |]; cbn; [|done..].
  pose proof (do_eval_values e ptr i) as Hd. rewrite Hvals in Hd.
  destruct (do_eval e ptr i) as [e1|x|]; cbn; [|..].
  - destruct Hd as (l & r & op & vl & vr & -> & Hl & Hr & Hv & Hw). cbn.
    specialize (IH (S k) (ptr + PTR_OFFSET_ELEM)%F e1 _ Hv). rewrite Hw in IH.
    destruct (read_gates m c (ptr + PTR_OFFSET_ELEM)%F n) as [gs|]; cbn in IH |- *; [|done].
    rewrite Hl, Hr. cbn. destruct (eval_gates _ _ gs); [|done].
    destruct IH as (ptr' & e' & ? & ? & ?). exists ptr', e'. split_and!; [done..|congruence].
  - destruct (decode_instruction i) as [[[l r] op]|]; cbn; [|done].
    destruct (read_gates m c _ n) as [gs|]; cbn; [|done].
    destruct (Hd l r op eq_refl) as [->| ->]; cbn; [done|]. by destruct (wire_value _ _ l).
  - done.
Qed.

(** ** The whole evaluation *)

(** The conditions on the two counts. *)
Definition counts_ok (num_vars num_eval : felt) : Prop :=
  ⟦num_vars⟧ + ⟦num_eval⟧ <= MAX_NUM_ACE_WIRES /\
  ⟦num_vars⟧ mod 2 = 0 /\ ⟦num_vars⟧ <> 0 /\ ⟦num_eval⟧ mod 4 = 0 /\ ⟦num_eval⟧ <> 0.

(** The wires after evaluating the circuit in memory. *)
Definition circuit_values (m : Memory) (c : ContextId) (ptr num_vars num_eval : felt) : option (list QuadFelt) :=
  '(inputs, ptr) ← read_inputs m c ptr (Z.to_nat (⟦num_vars⟧ / 2));
  gates ← read_gates m c ptr (Z.to_nat ⟦num_eval⟧);
  eval_gates (⟦num_vars⟧ + ⟦num_eval⟧) inputs gates.

Lemma read_inputs_length m c ptr n vs ptr' : read_inputs m c ptr n = Some (vs, ptr') -> length vs = (2 * n)%nat.
Proof.
  revert ptr vs. induction n as [|n IH]; intros ptr vs H; cbn in H; [by simplify_eq|].
  destruct (read_word m c ptr); try done.
  destruct (read_inputs m c _ n) as [[vs0 p]|] eqn:E; cbn in H; simplify_eq.
  cbn. rewrite (IH _ _ E). lia.
Qed.

Lemma read_gates_length m c ptr n gs : read_gates m c ptr n = Some gs -> length gs = n.
Proof.
  revert ptr gs. induction n as [|n IH]; intros ptr gs H; cbn in H; [by simplify_eq|].
  destruct (read_element m c ptr); try done. destruct (decode_instruction _); cbn in H; try done.
  destruct (read_gates m c _ n) eqn:E; cbn in H; simplify_eq. cbn. f_equal. by eapply IH.
Qed.

Lemma eval_gates_length w gs vals vals' : eval_gates w vals gs = Some vals' ->
  length vals' = (length vals + length gs)%nat.
Proof.
  revert vals. induction gs as [|[[l r] op] gs IH]; intros vals H; cbn in H; [simplify_eq; cbn; lia|].
  destruct (wire_value w vals l); cbn in H; [|done]. destruct (wire_value w vals r); cbn in H; [|done].
  rewrite (IH _ H), length_app. cbn. lia.
Qed.

Lemma circuit_values_length m c ptr v e vals : circuit_values m c ptr v e = Some vals ->
  ⟦v⟧ mod 2 = 0 -> Z.of_nat (length vals) = ⟦v⟧ + ⟦e⟧.
Proof.
  unfold circuit_values. intros H Hv. felt_ranges.
  destruct (read_inputs m c ptr _) as [[ins p]|] eqn:E; cbn in H; [|done].
  destruct (read_gates m c p _) as [gs|] eqn:E'; cbn in H; [|done].
  apply read_inputs_length in E. apply read_gates_length in E'. rewrite (eval_gates_length _ _ _ _ H), E, E'. zlia.
Qed.

(** The two loops and the final check, from an empty bus. *)
Lemma rows_iff c ptr v e m e0 : ⟦v⟧ mod 2 = 0 -> bus_values e0 = [] -> bus_width e0 = ⟦v⟧ + ⟦e⟧ ->
  (exists ce, ('(ptr, e1) ← for_each (seq 0 (Z.to_nat (⟦v⟧ / 2))) (read_row m c) (ptr, e0);
     '(ptr, e2) ← for_each (seq 0 (Z.to_nat ⟦e⟧)) (eval_row m c) (ptr, e1);
     if bool_decide (output_value e2 = Some quad_zero) then Ok e2
     else Err (AceChipletErr AceNonZeroOutput)) = Ok ce) <->
  exists vals, circuit_values m c ptr v e = Some vals /\ last vals = Some quad_zero.
Proof.
  intros Hv Hb0 Hw0. unfold circuit_values.
  pose proof (read_loop m c (Z.to_nat (⟦v⟧ / 2)) 0 ptr e0) as Hr.
  destruct (read_inputs m c ptr (Z.to_nat (⟦v⟧ / 2))) as [[ins p1]|] eqn:Hin; cbn [mbind option_bind].
  2: { split; [|by intros (? & ? & ?)]. intros [ce H']. bind_inv H'. by destruct (Hr a). }
  destruct Hr as (e1 & -> & Hv1 & Hw1). rewrite bind_Ok. rewrite Hb0 in Hv1. rewrite Hw0 in Hw1.
  pose proof (eval_loop m c (Z.to_nat ⟦e⟧) 0 p1 e1 ins Hv1) as Hg. rewrite Hw1 in Hg.
  destruct (gs ← read_gates m c p1 (Z.to_nat ⟦e⟧); eval_gates (⟦v⟧ + ⟦e⟧) ins gs) as [vals|] eqn:Hgs.
  2: { split; [|by intros (? & ? & ?)]. intros [ce H']. bind_inv H'. by destruct (Hg a). }
  destruct Hg as (p2 & e2 & -> & Hv2 & Hw2). rewrite bind_Ok.
  assert (output_value e2 = last vals) as ->.
  { unfold output_value, bus_is_finalized. rewrite <-Hv2. unfold bus_values. rewrite fmap_last.
    change (num_wires (wire_bus e2)) with (bus_width e2). rewrite Hw2.
    rewrite <-(circuit_values_length m c ptr v e vals), <-Hv2 by (done || by unfold circuit_values; rewrite Hin).
    unfold bus_values. by rewrite length_fmap, Z.eqb_refl. }
  split.
  - intros [ce H']. exists vals. by case_bool_decide.
  - intros (? & [= <-] & ->). rewrite bool_decide_true by done. by eexists.
Qed.

(** The evaluator succeeds exactly when the counts are in range and the last wire is zero. *)
Lemma eval_circuit_impl_iff c ptr k v e m :
  (exists ce, eval_circuit_impl c ptr k v e m = Ok ce) <->
  counts_ok v e /\ exists vals, circuit_values m c ptr v e = Some vals /\ last vals = Some quad_zero.
Proof.
  unfold eval_circuit_impl, counts_ok. felt_ranges. change MAX_NUM_ACE_WIRES with 1073741823.
  destruct (Z.ltb_spec 1073741823 (Z.min (⟦v⟧ + ⟦e⟧) (2 ^ 64 - 1))) as [|Hle].
  { split; [by intros [? ?]|]. lia. }
  destruct (Z.eqb_spec (⟦v⟧ mod 2) 0) as [Hv|Hv]; [|split; [by intros [? ?]|tauto]].
  destruct (Z.eqb_spec ⟦v⟧ 0) as [|Hv0]; [split; [by intros [? ?]|tauto]|].
  destruct (Z.eqb_spec (⟦e⟧ mod 4) 0) as [He|He]; [|split; [by intros [? ?]|tauto]].
  destruct (Z.eqb_spec ⟦e⟧ 0) as [|He0]; [split; [by intros [? ?]|tauto]|]. cbn [negb orb].
  assert (2 * (⟦v⟧ / 2) + ⟦e⟧ = ⟦v⟧ + ⟦e⟧) as Hsum by zlia.
  unfold circuit_new. rewrite Hsum, (proj2 (Z.leb_le (⟦v⟧ + ⟦e⟧) MAX_NUM_ACE_WIRES))
    by (change MAX_NUM_ACE_WIRES with 1073741823; lia). rewrite bind_Ok.
  rewrite rows_iff by done. split; [intros H'; split; [|done]|tauto]. split_and!; [lia|done..].
Qed.
End AceCorrect.
