(* ===== verification/AceLayout.v ===== *)
(** * Input layout of generated circuits

    [crates/ace-codegen/src/layout/]: the inputs of the circuit that checks a proof are logical keys (trace openings,
    public values, challenges, verifier scalars), placed in regions of the READ section one after another,
    with the alignment that a layout policy asks for.  Offsets and widths count extension-field elements.

    Shown here: the regions do not overlap, so two keys never share a slot; every slot is below the total; a layout for
    the recursive verifier is aligned to words; the assertions of [validate] hold. *)

From S2P Require Import Prelude.
From stdpp Require Import gmap.
#[local] Open Scope nat_scope.

Definition EXT_DEGREE : nat := 2.

(** ** Keys and regions: [keys.rs], [plan.rs] *)

Inductive InputKey :=
  | Public (i : nat)
  | AuxRandAlpha
  | AuxRandBeta
  | Main (offset index : nat)
  | AuxCoord (offset index coord : nat)
  | AuxBusBoundary (i : nat)
  | VlpiReduction (i : nat)
  | Gamma
  | Alpha
  | ZPowN
  | ZK
  | IsFirst
  | IsLast
  | IsTransition
  | Weight0
  | KeyF
  | S0
  | QuotientChunkCoord (offset chunk coord : nat).

#[global] Instance InputKey_eq_dec : EqDecision InputKey.
Proof. solve_decision. Defined.

(** A key as its constructor's number and its arguments. *)
Definition key_code (k : InputKey) : nat * (nat * nat * nat) :=
  match k with
  | Public i => (0, (i, 0, 0)) | AuxRandAlpha => (1, (0, 0, 0)) | AuxRandBeta => (2, (0, 0, 0))
  | Main o i => (3, (o, i, 0)) | AuxCoord o i c => (4, (o, i, c)) | AuxBusBoundary i => (5, (i, 0, 0))
  | VlpiReduction i => (6, (i, 0, 0)) | Gamma => (7, (0, 0, 0)) | Alpha => (8, (0, 0, 0)) | ZPowN => (9, (0, 0, 0))
  | ZK => (10, (0, 0, 0)) | IsFirst => (11, (0, 0, 0)) | IsLast => (12, (0, 0, 0)) | IsTransition => (13, (0, 0, 0))
  | Weight0 => (14, (0, 0, 0)) | KeyF => (15, (0, 0, 0)) | S0 => (16, (0, 0, 0))
  | QuotientChunkCoord o i c => (17, (o, i, c))
  end.
Definition key_decode (x : nat * (nat * nat * nat)) : option InputKey :=
  let '(n, (a, b, c)) := x in
  match n with
  | 0 => Some (Public a) | 1 => Some AuxRandAlpha | 2 => Some AuxRandBeta | 3 => Some (Main a b)
  | 4 => Some (AuxCoord a b c) | 5 => Some (AuxBusBoundary a) | 6 => Some (VlpiReduction a) | 7 => Some Gamma
  | 8 => Some Alpha | 9 => Some ZPowN | 10 => Some ZK | 11 => Some IsFirst | 12 => Some IsLast
  | 13 => Some IsTransition | 14 => Some Weight0 | 15 => Some KeyF | 16 => Some S0
  | 17 => Some (QuotientChunkCoord a b c) | _ => None
  end.
#[global] Instance InputKey_countable : Countable InputKey.
Proof. by refine (inj_countable key_code key_decode _); intros []. Defined.

Record InputRegion := mkRegion { offset : nat; width : nat }.

(** [InputRegion::index] *)
Definition region_index (r : InputRegion) (local : nat) : option nat :=
  if local <? width r then Some (offset r + local) else None.

Record InputCounts := mkCounts {
  main_width : nat;
  aux_width : nat;
  num_public : nat;
  num_vlpi : nat;
  num_randomness : nat;
  num_periodic : nat;
  num_quotient_chunks : nat;
}.

Record LayoutRegions := mkRegions {
  public_values : InputRegion;
  vlpi_reductions : InputRegion;
  randomness : InputRegion;
  main_curr : InputRegion;
  aux_curr : InputRegion;
  quotient_curr : InputRegion;
  main_next : InputRegion;
  aux_next : InputRegion;
  quotient_next : InputRegion;
  aux_bus_boundary : InputRegion;
  stark_vars : InputRegion;
}.

Record StarkVarIndices := mkStark {
  st_alpha : nat; st_z_pow_n : nat; st_z_k : nat; st_is_first : nat; st_is_last : nat; st_is_transition : nat;
  st_gamma : nat; st_weight0 : nat; st_f : nat; st_s0 : nat;
}.

Record InputLayout := mkLayout {
  regions : LayoutRegions;
  aux_rand_alpha : nat;
  aux_rand_beta : nat;
  vlpi_stride : nat;
  stark : StarkVarIndices;
  total_inputs : nat;
  counts : InputCounts;
}.

(** [InputKeyMapper::index_of], the body of [InputLayout::index] *)
Definition index_of (l : InputLayout) (key : InputKey) : option nat :=
  match key with
  | Public i => region_index (public_values (regions l)) i
  | AuxRandAlpha => Some (aux_rand_alpha l)
  | AuxRandBeta => Some (aux_rand_beta l)
  | Main offset index =>
    match offset with
    | 0 => region_index (main_curr (regions l)) index
    | 1 => region_index (main_next (regions l)) index
    | _ => None
    end
  | AuxCoord offset index coord =>
    if (aux_width (counts l) <=? index) || (EXT_DEGREE <=? coord) then None
    else
      let local := index * EXT_DEGREE + coord in
      match offset with
      | 0 => region_index (aux_curr (regions l)) local
      | 1 => region_index (aux_next (regions l)) local
      | _ => None
      end
  | AuxBusBoundary i => region_index (aux_bus_boundary (regions l)) i
  | VlpiReduction i => region_index (vlpi_reductions (regions l)) (i * vlpi_stride l)
  | Alpha => Some (st_alpha (stark l))
  | ZPowN => Some (st_z_pow_n (stark l))
  | ZK => Some (st_z_k (stark l))
  | IsFirst => Some (st_is_first (stark l))
  | IsLast => Some (st_is_last (stark l))
  | IsTransition => Some (st_is_transition (stark l))
  | Gamma => Some (st_gamma (stark l))
  | Weight0 => Some (st_weight0 (stark l))
  | KeyF => Some (st_f (stark l))
  | S0 => Some (st_s0 (stark l))
  | QuotientChunkCoord offset chunk coord =>
    if (num_quotient_chunks (counts l) <=? chunk) || (EXT_DEGREE <=? coord) then None
    else
      let idx := chunk * EXT_DEGREE + coord in
      match offset with
      | 0 => region_index (quotient_curr (regions l)) idx
      | 1 => region_index (quotient_next (regions l)) idx
      | _ => None
      end
  end.

(** [InputLayout::validate]: a failed assertion panics. *)
Definition assert_true {E} (b : bool) : outcome E unit := if b then Ok () else Panic.

Definition all_regions (r : LayoutRegions) : list InputRegion :=
  [public_values r; vlpi_reductions r; randomness r; main_curr r; aux_curr r; quotient_curr r; main_next r; aux_next r;
   quotient_next r; aux_bus_boundary r; stark_vars r].

Definition stark_indices (s : StarkVarIndices) : list nat :=
  [st_alpha s; st_z_pow_n s; st_z_k s; st_is_first s; st_is_last s; st_is_transition s; st_gamma s; st_weight0 s; st_f s;
   st_s0 s].

(** [region.offset.saturating_add(region.width)] *)
Definition region_end (r : InputRegion) : Z := Z.min (Z.of_nat (offset r) + Z.of_nat (width r)) USIZE_MAX.

Definition validate {E} (l : InputLayout) : outcome E unit :=
  let max_end := foldl (fun m r => m `max` region_end r)%Z 0%Z (all_regions (regions l)) in
  assert_true (max_end <=? Z.of_nat (total_inputs l))%Z;;
  aux_coord_width ← umul (aux_width (counts l)) EXT_DEGREE;
  assert_true (width (aux_curr (regions l)) =? aux_coord_width);;
  assert_true (width (aux_next (regions l)) =? aux_coord_width);;
  quotient_width ← umul (num_quotient_chunks (counts l)) EXT_DEGREE;
  assert_true (width (quotient_curr (regions l)) =? quotient_width);;
  assert_true (width (quotient_next (regions l)) =? quotient_width);;
  assert_true (width (aux_bus_boundary (regions l)) =? aux_width (counts l));;
  let stark_start := offset (stark_vars (regions l)) in
  stark_end ← uadd stark_start (width (stark_vars (regions l)));
  for_each (stark_indices (stark l)) (fun _ idx => assert_true ((stark_start <=? idx) && (idx <? stark_end))) ();;
  let rand_start := offset (randomness (regions l)) in
  rand_end ← uadd rand_start (width (randomness (regions l)));
  assert_true ((rand_start <=? aux_rand_alpha l) && (aux_rand_alpha l <? rand_end));;
  assert_true ((rand_start <=? aux_rand_beta l) && (aux_rand_beta l <? rand_end)).

(** ** Policies: [policy.rs] *)

Inductive Alignment := Unaligned | AlignWord | DoubleWord | QuadWord.
Definition alignment_value (a : Alignment) : nat :=
  match a with Unaligned => 1 | AlignWord => 2 | DoubleWord => 4 | QuadWord => 8 end.

Record LayoutPolicy := mkPolicy {
  pol_public_values : Alignment;
  pol_vlpi : Alignment;
  pol_vlpi_stride : nat;
  pol_randomness : Alignment;
  pol_main : Alignment;
  pol_aux : Alignment;
  pol_quotient : Alignment;
  pol_aux_bus_boundary : Alignment;
  pol_stark_vars : Alignment;
  pol_end_align : option Alignment;
}.

Definition native : LayoutPolicy :=
  mkPolicy Unaligned Unaligned 1 Unaligned Unaligned Unaligned Unaligned Unaligned Unaligned None.
Definition masm : LayoutPolicy :=
  mkPolicy QuadWord AlignWord 2 AlignWord DoubleWord DoubleWord DoubleWord AlignWord AlignWord (Some AlignWord).

(** [LayoutBuilder::align] and [alloc]; the builder is its offset. *)
Definition align {E} (builder : nat) (a : Alignment) : outcome E nat := usize (next_multiple_of builder (alignment_value a)).
Definition alloc {E} (builder : nat) (w : nat) (a : Alignment) : outcome E (InputRegion * nat) :=
  o ← align builder a;
  e ← uadd o w;
  Ok (mkRegion o w, e).

(** [aux_rand_indices] of [randomness.rs], on a region of two slots *)
Definition aux_rand_indices (randomness : InputRegion) : option (nat * nat) :=
  beta_idx ← region_index randomness 0;
  alpha_idx ← region_index randomness 1;
  Some (alpha_idx, beta_idx).

Definition NUM_STARK_VARS : nat := 10.
Definition NUM_RANDOMNESS_INPUTS : nat := 2.

(** [InputLayout::build_with_policy].  The scalars are slots of the region of [NUM_STARK_VARS] slots just allocated, so their sums are in range. *)
Definition build_with_policy {E} (c : InputCounts) (policy : LayoutPolicy) : outcome E InputLayout :=
  let b := 0 in
  '(public_values, b) ← alloc b (num_public c) (pol_public_values policy);
  '(vlpi_reductions, b) ← alloc b (num_vlpi c) (pol_vlpi policy);
  '(randomness, b) ← alloc b NUM_RANDOMNESS_INPUTS (pol_randomness policy);
  '(aux_rand_alpha, aux_rand_beta) ← or_panic (aux_rand_indices randomness);
  '(main_curr, b) ← alloc b (main_width c) (pol_main policy);
  aux_coord_width ← umul (aux_width c) EXT_DEGREE;
  '(aux_curr, b) ← alloc b aux_coord_width (pol_aux policy);
  quotient_width ← umul (num_quotient_chunks c) EXT_DEGREE;
  '(quotient_curr, b) ← alloc b quotient_width (pol_quotient policy);
  '(main_next, b) ← alloc b (main_width c) (pol_main policy);
  '(aux_next, b) ← alloc b aux_coord_width (pol_aux policy);
  quotient_width ← umul (num_quotient_chunks c) EXT_DEGREE;
  '(quotient_next, b) ← alloc b quotient_width (pol_quotient policy);
  '(aux_bus_boundary, b) ← alloc b (aux_width c) (pol_aux_bus_boundary policy);
  '(stark_vars, b) ← alloc b NUM_STARK_VARS (pol_stark_vars policy);
  let s := offset stark_vars in
  b ← match pol_end_align policy with Some end_align => align b end_align | None => Ok b end;
  Ok (mkLayout
        (mkRegions public_values vlpi_reductions randomness main_curr aux_curr quotient_curr main_next aux_next
           quotient_next aux_bus_boundary stark_vars)
        aux_rand_alpha aux_rand_beta (pol_vlpi_stride policy)
        (mkStark s (s + 1) (s + 2) (s + 3) (s + 4) (s + 5) (s + 6) (s + 7) (s + 8) (s + 9))
        b c).

(** [InputLayout::new] and [new_masm] *)
Definition new_layout {E} (c : InputCounts) : outcome E InputLayout := build_with_policy c native.
Definition new_masm {E} (c : InputCounts) : outcome E InputLayout := build_with_policy c masm.

(** [LayoutKind], and the choice of [build_ace_dag_for_air] *)
Inductive LayoutKind := Native | Masm.
Definition layout_of_kind {E} (k : LayoutKind) (c : InputCounts) : outcome E InputLayout :=
  match k with Native => new_layout c | Masm => new_masm c end.

(** ** The layout in unbounded numbers

    The same regions without a bound on the offsets; the layout is built exactly when its end is a [usize]. *)
Definition align_to (b : nat) (a : Alignment) : nat := next_multiple_of b (alignment_value a).
#[local] Arguments align_to : simpl never.
Lemma align_ge b a : b <= align_to b a.
Proof. apply next_multiple_of_ge. by destruct a. Qed.

Definition place (b w : nat) (a : Alignment) : InputRegion * nat := (mkRegion (align_to b a) w, align_to b a + w).
Definition planned (c : InputCounts) (policy : LayoutPolicy) : InputLayout :=
  let '(public_values, b) := place 0 (num_public c) (pol_public_values policy) in
  let '(vlpi_reductions, b) := place b (num_vlpi c) (pol_vlpi policy) in
  let '(randomness, b) := place b 2 (pol_randomness policy) in
  let '(main_curr, b) := place b (main_width c) (pol_main policy) in
  let '(aux_curr, b) := place b (aux_width c * 2) (pol_aux policy) in
  let '(quotient_curr, b) := place b (num_quotient_chunks c * 2) (pol_quotient policy) in
  let '(main_next, b) := place b (main_width c) (pol_main policy) in
  let '(aux_next, b) := place b (aux_width c * 2) (pol_aux policy) in
  let '(quotient_next, b) := place b (num_quotient_chunks c * 2) (pol_quotient policy) in
  let '(aux_bus_boundary, b) := place b (aux_width c) (pol_aux_bus_boundary policy) in
  let '(stark_vars, b) := place b 10 (pol_stark_vars policy) in
  let s := offset stark_vars in
  let r := offset randomness in
  mkLayout
    (mkRegions public_values vlpi_reductions randomness main_curr aux_curr quotient_curr main_next aux_next
       quotient_next aux_bus_boundary stark_vars)
    (r + 1) r (pol_vlpi_stride policy) (mkStark s (s + 1) (s + 2) (s + 3) (s + 4) (s + 5) (s + 6) (s + 7) (s + 8) (s + 9))
    (match pol_end_align policy with Some a => align_to b a | None => b end) c.

Lemma alloc_place {E} b w a : alloc (E := E) b w a = if (Z.of_nat (align_to b a + w) <=? USIZE_MAX)%Z then Ok (place b w a) else Panic.
Proof.
  unfold alloc, align, uadd, usize. fold (align_to b a). destruct (Z.leb_spec (Z.of_nat (align_to b a + w)) USIZE_MAX) as [H|H].
  - rewrite (proj2 (Z.leb_le _ _)) by lia. cbn [mbind outcome_bind]. by rewrite (proj2 (Z.leb_le _ _)).
  - destruct (_ <=? _)%Z; [|done]. cbn [mbind outcome_bind]. by rewrite (proj2 (Z.leb_gt _ _)).
Qed.

Lemma aux_rand_two o : aux_rand_indices (mkRegion o 2) = Some (o + 1, o).
Proof. cbn. by rewrite Nat.add_0_r. Qed.

(** An allocation, or a product, that is at most the end [t] of the layout: when it is out of range, so is the end. *)
Definition in_usize {E X} (t : nat) (x : X) : outcome E X := if (Z.of_nat t <=? USIZE_MAX)%Z then Ok x else Panic.
Lemma alloc_then {E X} o b w a (k : InputRegion * nat -> outcome E X) t x : o = align_to b a -> o + w <= t ->
  ((Z.of_nat (o + w) <= USIZE_MAX)%Z -> k (mkRegion o w, o + w) = in_usize t x) -> alloc b w a ≫= k = in_usize t x.
Proof.
  intros -> Ht Hk. rewrite alloc_place. unfold place, in_usize in *. destruct (Z.leb_spec (Z.of_nat (align_to b a + w)) USIZE_MAX); [by apply Hk|].
  cbn [mbind outcome_bind]. by rewrite (proj2 (Z.leb_gt _ _)) by lia.
Qed.
Lemma usize_then {E X} n (k : nat -> outcome E X) t x : n <= t -> ((Z.of_nat n <= USIZE_MAX)%Z -> k n = in_usize t x) -> usize n ≫= k = in_usize t x.
Proof.
  intros Ht Hk. unfold usize, in_usize in *. destruct (Z.leb_spec (Z.of_nat n) USIZE_MAX); [by apply Hk|].
  cbn [mbind outcome_bind]. by rewrite (proj2 (Z.leb_gt _ _)) by lia.
Qed.

(** Building succeeds exactly when the end is in range, and otherwise panics. *)
Lemma build_planned {E} c pol : build_with_policy (E := E) c pol = in_usize (total_inputs (planned c pol)) (planned c pol).
Proof.
  unfold build_with_policy, planned, place, umul, NUM_RANDOMNESS_INPUTS, NUM_STARK_VARS. cbn [total_inputs offset]. change EXT_DEGREE with 2.
  set (o1 := align_to 0 (pol_public_values pol)). set (o2 := align_to (o1 + num_public c) (pol_vlpi pol)).
  set (o3 := align_to (o2 + num_vlpi c) (pol_randomness pol)). set (o4 := align_to (o3 + 2) (pol_main pol)).
  set (o5 := align_to (o4 + main_width c) (pol_aux pol)). set (o6 := align_to (o5 + aux_width c * 2) (pol_quotient pol)).
  set (o7 := align_to (o6 + num_quotient_chunks c * 2) (pol_main pol)). set (o8 := align_to (o7 + main_width c) (pol_aux pol)).
  set (o9 := align_to (o8 + aux_width c * 2) (pol_quotient pol)). set (o10 := align_to (o9 + num_quotient_chunks c * 2) (pol_aux_bus_boundary pol)).
  set (o11 := align_to (o10 + aux_width c) (pol_stark_vars pol)). set (t := match pol_end_align pol with Some _ => _ | None => _ end).
  assert (o1 + num_public c <= o2) by apply align_ge. assert (o2 + num_vlpi c <= o3) by apply align_ge. assert (o3 + 2 <= o4) by apply align_ge.
  assert (o4 + main_width c <= o5) by apply align_ge. assert (o5 + aux_width c * 2 <= o6) by apply align_ge.
  assert (o6 + num_quotient_chunks c * 2 <= o7) by apply align_ge. assert (o7 + main_width c <= o8) by apply align_ge.
  assert (o8 + aux_width c * 2 <= o9) by apply align_ge. assert (o9 + num_quotient_chunks c * 2 <= o10) by apply align_ge.
  assert (o10 + aux_width c <= o11) by apply align_ge. assert (o11 + 10 <= t) by (unfold t; destruct (pol_end_align pol); [apply align_ge|lia]).
  apply (alloc_then o1); [done|lia|intros _]. apply (alloc_then o2); [done|lia|intros _]. apply (alloc_then o3); [done|lia|intros _].
  rewrite aux_rand_two. cbn [or_panic mbind outcome_bind]. apply (alloc_then o4); [done|lia|intros _]. apply usize_then; [lia|intros _].
  apply (alloc_then o5); [done|lia|intros _]. apply usize_then; [lia|intros _]. apply (alloc_then o6); [done|lia|intros _]. apply (alloc_then o7); [done|lia|intros _].
  apply (alloc_then o8); [done|lia|intros _]. apply usize_then; [lia|intros _]. apply (alloc_then o9); [done|lia|intros _]. apply (alloc_then o10); [done|lia|intros _].
  apply (alloc_then o11); [done|lia|intros Hmax]. cbn [offset]. unfold align. destruct (pol_end_align pol) as [a|].
  - apply usize_then; [exact (le_n _)|]. intros Hend. fold (align_to (o11 + 10) a) in Hend |- *. unfold t, in_usize. by rewrite (proj2 (Z.leb_le _ _) Hend).
  - unfold t, in_usize. by rewrite (proj2 (Z.leb_le _ _) Hmax).
Qed.

(** ** Regions do not overlap *)

Fixpoint packed (b : nat) (rs : list InputRegion) (e : nat) : Prop :=
  match rs with
  | [] => b <= e
  | r :: rs => b <= offset r /\ packed (offset r + width r) rs e
  end.

Lemma packed_bounds b rs e n r : packed b rs e -> rs !! n = Some r -> b <= offset r /\ offset r + width r <= e.
Proof.
  revert b n. induction rs as [|r0 rs IH]; intros b n Hp Hn; [done|]. destruct Hp as [Hb Hp], n as [|n].
  - injection Hn as <-. split; [done|]. clear Hb IH. revert Hp. generalize (offset r0 + width r0).
    induction rs as [|r1 rs IH']; intros k; cbn; [done|]. intros [H1 H2]. apply IH' in H2. lia.
  - destruct (IH _ _ Hp Hn). lia.
Qed.

Lemma packed_lt b rs e n m r r' : packed b rs e -> n < m -> rs !! n = Some r -> rs !! m = Some r' ->
  offset r + width r <= offset r'.
Proof.
  revert b n m. induction rs as [|r0 rs IH]; intros b n m Hp Hnm Hn Hm; [done|]. destruct Hp as [Hb Hp].
  destruct m as [|m]; [lia|]. destruct n as [|n]; cbn in Hn, Hm.
  - injection Hn as <-. by destruct (packed_bounds _ _ _ _ _ Hp Hm).
  - apply (IH _ n m Hp); [lia|done..].
Qed.

(** A slot lies in one region at one place. *)
Lemma packed_inj b rs e n m r r' x y : packed b rs e -> rs !! n = Some r -> rs !! m = Some r' ->
  x < width r -> y < width r' -> offset r + x = offset r' + y -> n = m /\ x = y.
Proof.
  intros Hp Hn Hm Hx Hy Heq. destruct (Nat.lt_trichotomy n m) as [Hlt|[->|Hlt]].
  - pose proof (packed_lt _ _ _ _ _ _ _ Hp Hlt Hn Hm). lia.
  - rewrite Hn in Hm. injection Hm as <-. lia.
  - pose proof (packed_lt _ _ _ _ _ _ _ Hp Hlt Hm Hn). lia.
Qed.

(** The region and the place in it of every key. *)
Definition slot (l : InputLayout) (k : InputKey) : option (nat * nat) :=
  match k with
  | Public i => Some (0, i)
  | VlpiReduction i => Some (1, i * vlpi_stride l)
  | AuxRandBeta => Some (2, 0)
  | AuxRandAlpha => Some (2, 1)
  | Main 0 i => Some (3, i)
  | Main 1 i => Some (6, i)
  | AuxCoord 0 i c => if c <? 2 then Some (4, i * 2 + c) else None
  | AuxCoord 1 i c => if c <? 2 then Some (7, i * 2 + c) else None
  | QuotientChunkCoord 0 i c => if c <? 2 then Some (5, i * 2 + c) else None
  | QuotientChunkCoord 1 i c => if c <? 2 then Some (8, i * 2 + c) else None
  | AuxBusBoundary i => Some (9, i)
  | Alpha => Some (10, 0) | ZPowN => Some (10, 1) | ZK => Some (10, 2) | IsFirst => Some (10, 3) | IsLast => Some (10, 4)
  | IsTransition => Some (10, 5) | Gamma => Some (10, 6) | Weight0 => Some (10, 7) | KeyF => Some (10, 8)
  | S0 => Some (10, 9)
  | _ => None
  end.

Lemma slot_inj l k k' s : vlpi_stride l <> 0 -> slot l k = Some s -> slot l k' = Some s -> k = k'.
Proof.
  intros Hs H1 H2. assert (slot l k = slot l k') as H by congruence. clear H2.
  destruct k as [| | |[|[]]|[|[]] ? c| | | | | | | | | | | | |[|[]] ? c],
    k' as [| | |[|[]]|[|[]] ? c'| | | | | | | | | | | | |[|[]] ? c']; cbn [slot] in *; try done;
    repeat match type of H with context [if ?x <? 2 then _ else _] => destruct (Nat.ltb_spec x 2) end;
    try done; injection H as H; f_equal; try lia; nia.
Qed.

(** ** Layouts built by a policy *)
Section Built.
Context {E : Type} (c : InputCounts) (pol : LayoutPolicy) (l : InputLayout).
Hypothesis Hl : build_with_policy (E := E) c pol = Ok l.

Lemma built_plan : l = planned c pol /\ (Z.of_nat (total_inputs l) <= USIZE_MAX)%Z.
Proof using Hl.
  clear -Hl. revert Hl. rewrite build_planned. unfold in_usize. destruct (Z.leb_spec (Z.of_nat (total_inputs (planned c pol))) USIZE_MAX) as [H|]; [|done].
  by intros [= <-].
Qed.
Lemma built_packed : packed 0 (all_regions (regions l)) (total_inputs l).
Proof using Hl.
  destruct built_plan as [-> _]. cbn.
  repeat (split; [apply align_ge|]). destruct (pol_end_align pol); [|done]. apply align_ge.
Qed.

Lemma built_scalars :
  aux_rand_beta l = offset (randomness (regions l)) /\ aux_rand_alpha l = offset (randomness (regions l)) + 1 /\
  width (randomness (regions l)) = 2 /\ width (stark_vars (regions l)) = 10 /\
  stark_indices (stark l) = (fun j => offset (stark_vars (regions l)) + j) <$> seq 0 10.
Proof using Hl.
  destruct built_plan as [-> _]. cbn. by rewrite !Nat.add_0_r.
Qed.

(** Every region starts at a multiple of its alignment. *)
Lemma built_aligned :
  Forall2 (fun r a => exists b, offset r = align_to b a) (all_regions (regions l))
    [pol_public_values pol; pol_vlpi pol; pol_randomness pol; pol_main pol; pol_aux pol; pol_quotient pol; pol_main pol;
     pol_aux pol; pol_quotient pol; pol_aux_bus_boundary pol; pol_stark_vars pol] /\
  match pol_end_align pol with Some a => exists b, total_inputs l = align_to b a | None => True end.
Proof using Hl.
  destruct built_plan as [-> _].
  split; [repeat constructor; by eexists|]. cbn. destruct (pol_end_align pol); [by eexists|done].
Qed.

Lemma region_index_Some r n x i : all_regions (regions l) !! n = Some r -> region_index r x = Some i ->
  exists n' x' r', Some (n, x) = Some (n', x') /\ all_regions (regions l) !! n' = Some r' /\ x' < width r' /\ i = offset r' + x'.
Proof.
  unfold region_index. intros Hr. destruct (Nat.ltb_spec x (width r)); [|done]. intros [= <-]. by exists n, x, r.
Qed.

Lemma index_of_slot k i : index_of l k = Some i -> exists n x r,
  slot l k = Some (n, x) /\ all_regions (regions l) !! n = Some r /\ x < width r /\ i = offset r + x.
Proof using Hl.
  destruct built_scalars as (Hb & Ha & Hw & Hws & Hst). clear Hl. injection Hst as S0 S1 S2 S3 S4 S5 S6 S7 S8 S9.
  intros Hi. destruct k as [j| | |o j|o j co|j|j| | | | | | | | | | |o j co]; cbn [index_of slot] in Hi |- *.
  1, 6, 7: by eapply region_index_Some; [reflexivity|].
  1, 2: injection Hi as <-; eexists _, _, _; split; [reflexivity|]; split; [reflexivity|]; lia.
  1: destruct o as [|[|o]]; [by eapply region_index_Some; [reflexivity|]..|done].
  2-11: injection Hi as <-; eexists _, _, _; split; [reflexivity|]; split; [reflexivity|]; lia.
  all: destruct (_ <=? j); [done|]; unfold EXT_DEGREE in Hi; cbn [orb] in Hi;
    destruct (Nat.leb_spec 2 co) as [|Hc]; [done|]; apply Nat.ltb_lt in Hc; rewrite !Hc;
    destruct o as [|[|o]]; [by eapply region_index_Some; [reflexivity|]..|done].
Qed.

Lemma index_of_lt k i : index_of l k = Some i -> i < total_inputs l.
Proof using Hl.
  intros (n & x & r & _ & Hr & Hx & ->)%index_of_slot. destruct (packed_bounds _ _ _ _ _ built_packed Hr). lia.
Qed.

Lemma index_of_inj k k' i : pol_vlpi_stride pol <> 0 -> index_of l k = Some i -> index_of l k' = Some i -> k = k'.
Proof using Hl.
  intros Hs (n & x & r & Hk & Hr & Hx & ->)%index_of_slot (m & y & r' & Hk' & Hr' & Hy & Heq)%index_of_slot.
  destruct (packed_inj _ _ _ _ _ _ _ _ _ built_packed Hr Hr' Hx Hy Heq) as [-> ->].
  apply (slot_inj l _ _ (m, y)); [|done..].
  by destruct built_plan as [-> _].
Qed.

Lemma built_widths : let r := regions l in width (aux_curr r) = aux_width (counts l) * 2 /\ width (aux_next r) = aux_width (counts l) * 2 /\
  width (quotient_curr r) = num_quotient_chunks (counts l) * 2 /\ width (quotient_next r) = num_quotient_chunks (counts l) * 2 /\
  width (aux_bus_boundary r) = aux_width (counts l).
Proof using Hl. by destruct built_plan as [-> _]. Qed.

(** The regions end at a [usize]. *)
Lemma built_fits : Forall (fun r => Z.of_nat (offset r + width r) <= USIZE_MAX)%Z (all_regions (regions l)).
Proof using Hl.
  destruct built_plan as [_ Hmax]. apply Forall_forall. intros r Hr. apply list_elem_of_lookup in Hr as [n Hr].
  destruct (packed_bounds _ _ _ _ _ built_packed Hr). lia.
Qed.

Lemma built_validates : validate (E := E) l = Ok ().
Proof using Hl.
  pose proof built_packed as Hp. pose proof built_fits as Hf. unfold validate.
  assert (forall rs b e m, packed b rs e -> (m <= Z.of_nat e)%Z -> (foldl (fun m r => m `max` region_end r) m rs <= Z.of_nat e)%Z) as Hfold.
  { intros rs. induction rs as [|r rs IH]; intros b e m Hb Hm; [done|]. cbn. apply (IH (offset r + width r)); [apply Hb|].
    pose proof (packed_bounds _ _ _ 0 r Hb eq_refl). unfold region_end. lia. }
  rewrite (proj2 (Z.leb_le _ _) (Hfold _ _ _ 0%Z Hp ltac:(lia))). clear Hp Hfold.
  destruct built_scalars as (Hb & Ha & Hw & Hws & Hst), built_widths as (H1 & H2 & H3 & H4 & H5).
  pose proof (Forall_lookup_1 _ _ 2 _ Hf eq_refl) as F2. pose proof (Forall_lookup_1 _ _ 4 _ Hf eq_refl) as F4.
  pose proof (Forall_lookup_1 _ _ 5 _ Hf eq_refl) as F5. pose proof (Forall_lookup_1 _ _ 10 _ Hf eq_refl) as F10. cbn in F2, F4, F5, F10.
  unfold umul, uadd, EXT_DEGREE. cbn [assert_true mbind outcome_bind]. rewrite ?usize_Ok by lia. cbn [mbind outcome_bind].
  rewrite H1, H2, Nat.eqb_refl. cbn [assert_true mbind outcome_bind]. rewrite ?usize_Ok by lia. cbn [mbind outcome_bind].
  rewrite H3, H4, H5, !Nat.eqb_refl. cbn [assert_true mbind outcome_bind]. rewrite ?usize_Ok by lia. cbn [mbind outcome_bind]. rewrite for_each_check.
  - cbn [mbind outcome_bind]. rewrite ?usize_Ok, ?Hb, ?Ha, ?Hw by lia. cbn [mbind outcome_bind].
    rewrite !(proj2 (Nat.leb_le _ _)), !(proj2 (Nat.ltb_lt _ _)) by lia. done.
  - intros x Hx. rewrite Hst in Hx. apply list_elem_of_fmap in Hx as (k & -> & Hk). apply elem_of_seq in Hk.
    by rewrite (proj2 (Nat.leb_le _ _)), (proj2 (Nat.ltb_lt _ _)) by lia.
Qed.
End Built.

Lemma next_multiple_of_even n a : a <> Unaligned -> next_multiple_of n (alignment_value a) mod 2 = 0.
Proof.
  intros Ha. destruct (next_multiple_of_spec n (alignment_value a)) as [H _]; [by destruct a|].
  apply Nat.Lcm0.mod_divide in H. apply Nat.Lcm0.mod_divide. apply (Nat.divide_trans _ (alignment_value a)); [|done].
  destruct a; [done|by exists 1|by exists 2|by exists 4].
Qed.

(** The layout of the recursive verifier is read word by word. *)
Lemma masm_aligned {E} c l : build_with_policy (E := E) c masm = Ok l ->
  total_inputs l mod 2 = 0 /\ 12 <= total_inputs l /\ Forall (fun r => offset r mod 2 = 0) (all_regions (regions l)).
Proof.
  intros Hl. pose proof (built_packed c masm l Hl) as Hp. destruct (built_aligned c masm l Hl) as [Ha [b Hb]]. split_and!.
  - rewrite Hb. by apply (next_multiple_of_even _ AlignWord).
  - pose proof (packed_bounds _ _ _ 10 _ Hp eq_refl) as [_ H10].
    pose proof (packed_lt _ _ _ 2 10 _ _ Hp ltac:(lia) eq_refl eq_refl) as H.
    destruct (built_scalars c masm l Hl) as (_ & _ & Hw & Hw' & _). lia.
  - apply Forall_forall. intros r Hr. apply list_elem_of_lookup in Hr as [n Hr].
    destruct (Forall2_lookup_l _ _ _ _ _ Ha Hr) as (a & Hn & b' & ->). apply next_multiple_of_even.
    do 11 (destruct n as [|n]; [by injection Hn as <-|]). done.
Qed.
