(* ===== verification/AceDag.v ===== *)
(** * Expression graphs of the circuit generator

    [crates/ace-codegen/src/dag/], [quotient.rs], [randomness.rs]: the check of a proof at an out-of-domain point is built
    as a directed acyclic graph.  [DagBuilder] interns nodes, so that equal subexpressions are shared, and folds
    constants; [build_verifier_dag] lowers symbolic constraints, folds them with a challenge, recomposes the quotient
    from its chunks and subtracts.

    The symbolic expressions and the constraint layout are data of the proof-system package; they have the
    constructors and fields that the code matches on.  A graph number drawn from the global counter is an argument
    ([fresh]).  [testing.rs] gives direct evaluators, translated at the end; they are the reference.

    A builder operation takes the builder and returns its result with the new builder; a failed assertion
    panics. *)

From S2P Require Import Prelude Field Types Ace AceLayout.
#[local] Open Scope nat_scope.

(** [AceError]; the reasons stand for the messages of [InvalidInputLayout]. *)
Inductive LayoutReason :=
  | MissingInputKey (key : InputKey)
  | UnalignedReadSection
  | NoOperations
  | TooManyNodes (num_nodes : nat)
  | NodeIndexOutOfRange.
Inductive AceError :=
  | InvalidInputLength (expected got : nat)
  | InvalidInputLayout (reason : LayoutReason).
Abbreviation aresult := (outcome AceError).

Module Dag.
Section Dag.
Context {F : Felt} {Q : Quad}.

Definition quad_one : QuadFelt := quad_new ONE ZERO.
(** [EF::ith_basis_element] *)
Definition ith_basis_element (i : nat) : option QuadFelt :=
  match i with 0 => Some (quad_new ONE ZERO) | 1 => Some (quad_new ZERO ONE) | _ => None end.

(** ** Nodes: [ir.rs] *)

Record NodeId := mkNodeId { id_dag : nat; index : nat }.

Inductive NodeKind :=
  | Input (key : InputKey)
  | Constant (value : QuadFelt)
  | Add (a b : NodeId)
  | Sub (a b : NodeId)
  | Mul (a b : NodeId)
  | Neg (a : NodeId).

#[global] Instance NodeId_eq_dec : EqDecision NodeId.
Proof. solve_decision. Defined.
#[global] Instance NodeKind_eq_dec : EqDecision NodeKind.
Proof. solve_decision. Defined.
#[global] Instance NodeId_countable : Countable NodeId.
Proof. by refine (inj_countable' (fun n => (id_dag n, index n)) (fun '(d, i) => mkNodeId d i) _); intros []. Defined.

Definition kind_code (n : NodeKind) : InputKey + (QuadFelt + (nat * (NodeId * NodeId))) :=
  match n with
  | Input k => inl k
  | Constant v => inr (inl v)
  | Add a b => inr (inr (0, (a, b)))
  | Sub a b => inr (inr (1, (a, b)))
  | Mul a b => inr (inr (2, (a, b)))
  | Neg a => inr (inr (3, (a, a)))
  end.
Definition kind_decode (x : InputKey + (QuadFelt + (nat * (NodeId * NodeId)))) : NodeKind :=
  match x with
  | inl k => Input k
  | inr (inl v) => Constant v
  | inr (inr (0, (a, b))) => Add a b
  | inr (inr (1, (a, b))) => Sub a b
  | inr (inr (2, (a, b))) => Mul a b
  | inr (inr (_, (a, _))) => Neg a
  end.
#[global] Instance NodeKind_countable : Countable NodeKind.
Proof. by refine (inj_countable' kind_code kind_decode _); intros []. Defined.

Record AceDag := mkAceDag { dag_dag_id : nat; dag_nodes : list NodeKind; dag_root : NodeId }.

(** [DagSnapshot] and [into_snapshot] *)
Record DagSnapshot := mkSnapshot { snap_nodes : list NodeKind; snap_root : NodeId; snap_source : nat }.
Definition into_snapshot (d : AceDag) : DagSnapshot := mkSnapshot (dag_nodes d) (dag_root d) (dag_dag_id d).

(** ** The builder: [builder.rs] *)

Record ImportedDag := mkImported { source_dag_id : nat; imported_len : nat }.

Record DagBuilder := mkBuilder {
  dag_id : nat;
  nodes : list NodeKind;
  cache : gmap NodeKind NodeId;
  imported_dag : option ImportedDag;
}.

Definition B (A : Type) : Type := DagBuilder -> aresult (A * DagBuilder).
#[global] Instance B_ret : MRet B := fun A a b => Ok (a, b).
#[global] Instance B_bind : MBind B := fun A A' f m b => '(a, b) ← m b; f a b.
Definition bfail {A} : B A := fun _ => Panic.
Definition blift {A} (o : aresult A) : B A := fun b => a ← o; Ok (a, b).
(** An operation that looks at the builder *)
Definition with_builder {A} (f : DagBuilder -> B A) : B A := fun b => f b b.
(** [for x in l { s = body(s, x) }] *)
Fixpoint bfor {S X} (l : list X) (body : S -> X -> B S) (s : S) : B S :=
  match l with
  | [] => mret s
  | x :: l => s ← body s x; bfor l body s
  end.

(** [DagBuilder::new] *)
Definition builder_new (fresh : nat) : DagBuilder := mkBuilder fresh [] ∅ None.

Definition rebase_node (id : NodeId) (d : nat) : NodeId := mkNodeId d (index id).
Definition rebase_kind (d : nat) (n : NodeKind) : NodeKind :=
  match n with
  | Input key => Input key
  | Constant value => Constant value
  | Add a b => Add (rebase_node a d) (rebase_node b d)
  | Sub a b => Sub (rebase_node a d) (rebase_node b d)
  | Mul a b => Mul (rebase_node a d) (rebase_node b d)
  | Neg a => Neg (rebase_node a d)
  end.
Definition rebase_nodes (l : list NodeKind) (d : nat) : list NodeKind := rebase_kind d <$> l.

(** [infer_dag_id]: the graph of the first node that has operands *)
Fixpoint infer_dag_id (l : list NodeKind) : option nat :=
  match l with
  | [] => None
  | (Add a _ | Sub a _ | Mul a _ | Neg a) :: _ => Some (id_dag a)
  | (Input _ | Constant _) :: l => infer_dag_id l
  end.

(** [collect] into a map: a later equal node replaces an earlier one. *)
Definition from_existing_nodes (d : nat) (l : list NodeKind) (imported : option ImportedDag) : DagBuilder :=
  mkBuilder d l (foldl (fun m '(i, n) => <[n := mkNodeId d i]> m) ∅ (zip (seq 0 (length l)) l)) imported.

Definition from_nodes (fresh : nat) (l : list NodeKind) : DagBuilder :=
  from_existing_nodes fresh (rebase_nodes l fresh) ((fun s => mkImported s (length l)) <$> infer_dag_id l).
Definition from_snapshot (fresh : nat) (s : DagSnapshot) : DagBuilder :=
  from_existing_nodes fresh (rebase_nodes (snap_nodes s) fresh) (Some (mkImported (snap_source s) (length (snap_nodes s)))).
Definition from_dag (d : AceDag) : DagBuilder := from_existing_nodes (dag_dag_id d) (dag_nodes d) None.

Definition resolve_id (id : NodeId) : B NodeId := fun b =>
  if index id <? length (nodes b) then
    if id_dag id =? dag_id b then Ok (id, b)
    else
      match imported_dag b with
      | Some imported =>
        if (source_dag_id imported =? id_dag id) && (index id <? imported_len imported)
        then Ok (mkNodeId (dag_id b) (index id), b) else Panic
      | None => Panic
      end
  else Panic.

Definition const_value (b : DagBuilder) (id : NodeId) : option QuadFelt :=
  match nodes b !! index id with Some (Constant v) => Some v | _ => None end.
Definition is_zero (b : DagBuilder) (id : NodeId) : bool :=
  match const_value b id with Some v => bool_decide (v = quad_zero) | None => false end.
Definition is_one (b : DagBuilder) (id : NodeId) : bool :=
  match const_value b id with Some v => bool_decide (v = quad_one) | None => false end.

Definition intern (n : NodeKind) : B NodeId := fun b =>
  match cache b !! n with
  | Some id => Ok (id, b)
  | None =>
    let id := mkNodeId (dag_id b) (length (nodes b)) in
    Ok (id, mkBuilder (dag_id b) (nodes b ++ [n]) (<[n := id]> (cache b)) (imported_dag b))
  end.

Definition input (key : InputKey) : B NodeId := intern (Input key).
Definition constant (value : QuadFelt) : B NodeId := intern (Constant value).

(** The derived order of [NodeId] *)
Definition node_le (a b : NodeId) : bool :=
  (id_dag a <? id_dag b) || ((id_dag a =? id_dag b) && (index a <=? index b)).
Definition order_ids (a b : NodeId) : NodeId * NodeId := if node_le a b then (a, b) else (b, a).

Definition add (a b : NodeId) : B NodeId :=
  a ← resolve_id a;
  b ← resolve_id b;
  with_builder (fun s =>
    match const_value s a, const_value s b with
    | Some x, Some y => constant (quad_add x y)
    | _, _ =>
      if is_zero s a then mret b
      else if is_zero s b then mret a
      else let '(l, r) := order_ids a b in intern (Add l r)
    end).

Definition sub (a b : NodeId) : B NodeId :=
  a ← resolve_id a;
  b ← resolve_id b;
  with_builder (fun s =>
    match const_value s a, const_value s b with
    | Some x, Some y => constant (quad_sub x y)
    | _, _ => if is_zero s b then mret a else intern (Sub a b)
    end).

Definition mul (a b : NodeId) : B NodeId :=
  a ← resolve_id a;
  b ← resolve_id b;
  with_builder (fun s =>
    match const_value s a, const_value s b with
    | Some x, Some y => constant (quad_mul x y)
    | _, _ =>
      if is_zero s a || is_zero s b then constant quad_zero
      else if is_one s a then mret b
      else if is_one s b then mret a
      else let '(l, r) := order_ids a b in intern (Mul l r)
    end).

Definition neg (a : NodeId) : B NodeId :=
  a ← resolve_id a;
  with_builder (fun s =>
    match const_value s a with
    | Some x => constant (quad_neg x)
    | None => intern (Neg a)
    end).

(** [DagBuilder::build] *)
Definition build (root : NodeId) : B AceDag :=
  root ← resolve_id root;
  with_builder (fun s => mret (mkAceDag (dag_id s) (nodes s) root)).

(** ** Symbolic constraints *)

Inductive BaseEntry := EntryMain (offset : nat) | EntryPublic | EntryPeriodic | EntryPreprocessed.
Inductive BaseLeaf :=
  | LeafVariable (entry : BaseEntry) (index : nat)
  | IsFirstRow
  | IsLastRow
  | IsTransitionRow
  | BaseConstant (c : felt).
Inductive SymbolicExpression :=
  | SLeaf (leaf : BaseLeaf)
  | SAdd (x y : SymbolicExpression)
  | SSub (x y : SymbolicExpression)
  | SMul (x y : SymbolicExpression)
  | SNeg (x : SymbolicExpression).

Inductive ExtEntry := Permutation (offset : nat) | Challenge | PermutationValue.
Inductive ExtLeaf :=
  | Base (e : SymbolicExpression)
  | ExtVariable (entry : ExtEntry) (index : nat)
  | ExtConstant (c : QuadFelt).
Inductive SymbolicExpressionExt :=
  | XLeaf (leaf : ExtLeaf)
  | XAdd (x y : SymbolicExpressionExt)
  | XSub (x y : SymbolicExpressionExt)
  | XMul (x y : SymbolicExpressionExt)
  | XNeg (x : SymbolicExpressionExt).

Record ConstraintLayout := mkConstraintLayout { base_indices : list nat; ext_indices : list nat }.

(** ** Lowering: [lower.rs], [randomness.rs], [quotient.rs] *)

Fixpoint lower_base_expr (expr : SymbolicExpression) (periodic_nodes : list NodeId) : B NodeId :=
  match expr with
  | SLeaf leaf =>
    match leaf with
    | LeafVariable entry idx =>
      match entry with
      | EntryMain offset => input (Main offset idx)
      | EntryPublic => input (Public idx)
      | EntryPeriodic => blift (arr_read periodic_nodes idx)
      | EntryPreprocessed => bfail
      end
    | IsFirstRow => input IsFirst
    | IsLastRow => input IsLast
    | IsTransitionRow => input IsTransition
    | BaseConstant c => constant (quad_from c)
    end
  | SAdd x y => lx ← lower_base_expr x periodic_nodes; ly ← lower_base_expr y periodic_nodes; add lx ly
  | SSub x y => lx ← lower_base_expr x periodic_nodes; ly ← lower_base_expr y periodic_nodes; sub lx ly
  | SMul x y => lx ← lower_base_expr x periodic_nodes; ly ← lower_base_expr y periodic_nodes; mul lx ly
  | SNeg x => lx ← lower_base_expr x periodic_nodes; neg lx
  end.

Definition lower_challenge (l : InputLayout) (idx : nat) : B NodeId :=
  if idx <? num_randomness (counts l) then
    match idx with
    | 0 => input AuxRandAlpha
    | 1 => input AuxRandBeta
    | _ => bfail
    end
  else bfail.

(** The loop that merges base-field coordinates into an extension-field element *)
Definition merge_coords (key : nat -> InputKey) : B NodeId :=
  acc ← constant quad_zero;
  bfor (seq 0 EXT_DEGREE) (fun acc coord =>
    basis ← blift (or_panic (ith_basis_element coord));
    coord_node ← input (key coord);
    basis_node ← constant basis;
    term ← mul basis_node coord_node;
    add acc term) acc.

Fixpoint lower_ext_expr (expr : SymbolicExpressionExt) (l : InputLayout) (periodic_nodes : list NodeId) : B NodeId :=
  match expr with
  | XLeaf leaf =>
    match leaf with
    | Base base_expr => lower_base_expr base_expr periodic_nodes
    | ExtVariable entry idx =>
      match entry with
      | Permutation offset => merge_coords (AuxCoord offset idx)
      | Challenge => lower_challenge l idx
      | PermutationValue => input (AuxBusBoundary idx)
      end
    | ExtConstant c => constant c
    end
  | XAdd x y => lx ← lower_ext_expr x l periodic_nodes; ly ← lower_ext_expr y l periodic_nodes; add lx ly
  | XSub x y => lx ← lower_ext_expr x l periodic_nodes; ly ← lower_ext_expr y l periodic_nodes; sub lx ly
  | XMul x y => lx ← lower_ext_expr x l periodic_nodes; ly ← lower_ext_expr y l periodic_nodes; mul lx ly
  | XNeg x => lx ← lower_ext_expr x l periodic_nodes; neg lx
  end.

Definition horner_eval (point : NodeId) (coeffs : list NodeId) : B NodeId :=
  acc ← constant quad_zero;
  bfor (reverse coeffs) (fun acc coeff =>
    m ← mul point acc;
    add coeff m) acc.

(** [PeriodicColumnData] is its coefficient vectors. *)
Definition max_period (coeffs : list (list QuadFelt)) : nat := foldr (fun c m => length c `max` m) 0 coeffs.

(** [max_len / col_len] and its [ilog2] *)
Definition log_pow (max_len col_len : nat) : aresult nat :=
  if (col_len =? 0) || (max_len / col_len =? 0) then Panic else Ok (Nat.log2 (max_len / col_len)).

(** One iteration of [build_periodic_nodes]; the state is [cache] and [nodes]. *)
Definition periodic_step (max_len : nat) (s : gmap nat NodeId * list NodeId) (coeffs : list QuadFelt) :
    B (gmap nat NodeId * list NodeId) :=
  let '(c, out) := s in
  log_pow_col ← blift (log_pow max_len (length coeffs));
  '(c, z_col) ← match c !! log_pow_col with
                | Some z_col => mret (c, z_col)
                | None =>
                  z_col ← input ZK;
                  z_col ← bfor (seq 0 log_pow_col) (fun z_col _ => mul z_col z_col) z_col;
                  mret (<[log_pow_col := z_col]> c, z_col)
                end;
  coeff_nodes ← bfor coeffs (fun l c => n ← constant c; mret (l ++ [n])) [];
  value ← horner_eval z_col coeff_nodes;
  mret (c, out ++ [value]).

Definition build_periodic_nodes (l : InputLayout) (periodic : list (list QuadFelt)) : B (list NodeId) :=
  if length periodic =? 0 then mret []
  else
    _ ← blift (assert_true (match index_of l ZK with Some _ => true | None => false end));
    '(_, out) ← bfor periodic (periodic_step (max_period periodic)) (∅, []);
    mret out.

(** [compute_deltas_and_weights] on the builder *)
Definition compute_deltas_and_weights (k : nat) (z_pow_n s0 f weight0 : NodeId) : B (list NodeId * list NodeId) :=
  '(deltas, weights, _, _) ← bfor (seq 0 k) (fun '(deltas, weights, shift, weight) _ =>
    d ← sub z_pow_n shift;
    shift ← mul shift f;
    weight' ← mul weight f;
    mret (deltas ++ [d], weights ++ [weight], shift, weight')) ([], [], s0, weight0);
  mret (deltas, weights).

Definition build_quotient_recomposition_dag (l : InputLayout) : B NodeId :=
  let k := num_quotient_chunks (counts l) in
  z_pow_n ← input ZPowN;
  s0 ← input S0;
  f ← input KeyF;
  weight0 ← input Weight0;
  '(deltas, weights) ← compute_deltas_and_weights k z_pow_n s0 f weight0;
  chunk_values ← bfor (seq 0 k) (fun out chunk => value ← merge_coords (QuotientChunkCoord 0 chunk); mret (out ++ [value])) [];
  quotient ← constant quad_zero;
  bfor (zip (seq 0 (length chunk_values)) chunk_values) (fun quotient '(i, chunk_value) =>
    prod ← constant quad_one;
    prod ← bfor (zip (seq 0 (length deltas)) deltas) (fun prod '(j, delta) =>
             if i =? j then mret prod else mul prod delta) prod;
    w ← blift (arr_read weights i);
    zps ← mul w prod;
    term ← mul zps chunk_value;
    add quotient term) quotient.

(** [sort_by_key] on the position; stable. *)
Fixpoint insert_by_pos (x : nat * bool * nat) (l : list (nat * bool * nat)) : list (nat * bool * nat) :=
  match l with
  | [] => [x]
  | y :: l' => if x.1.1 <=? y.1.1 then x :: l else y :: insert_by_pos x l'
  end.
Definition sort_by_pos (l : list (nat * bool * nat)) : list (nat * bool * nat) := foldr insert_by_pos [] l.

(** The list [ordered] of positions, kinds and indices *)
Definition ordered (cl : ConstraintLayout) : list (nat * bool * nat) :=
  sort_by_pos
    (((fun '(i, pos) => (pos, false, i)) <$> zip (seq 0 (length (base_indices cl))) (base_indices cl)) ++
     ((fun '(i, pos) => (pos, true, i)) <$> zip (seq 0 (length (ext_indices cl))) (ext_indices cl))).

(** [build_verifier_dag] *)
Definition build_verifier_dag (fresh : nat) (base_constraints : list SymbolicExpression)
    (ext_constraints : list SymbolicExpressionExt) (cl : ConstraintLayout) (l : InputLayout)
    (periodic : option (list (list QuadFelt))) : aresult AceDag :=
  '(dag, _) ←
    (periodic_nodes ← match periodic with
                      | Some data =>
                        _ ← blift (assert_true (length data =? num_periodic (counts l)));
                        build_periodic_nodes l data
                      | None => mret []
                      end;
     alpha ← input Alpha;
     acc ← constant quad_zero;
     acc ← bfor (ordered cl) (fun acc '(_, is_ext, idx) =>
             node ← (if is_ext : bool
                     then e ← blift (arr_read ext_constraints idx); lower_ext_expr e l periodic_nodes
                     else e ← blift (arr_read base_constraints idx); lower_base_expr e periodic_nodes);
             acc_mul ← mul acc alpha;
             add acc_mul node) acc;
     quotient ← build_quotient_recomposition_dag l;
     z_pow_n ← input ZPowN;
     one ← constant quad_one;
     vanishing ← sub z_pow_n one;
     q_times_v ← mul quotient vanishing;
     root ← sub acc q_times_v;
     build root) (builder_new fresh);
  Ok dag.

(** ** Reference evaluation: [testing.rs] *)
Section Reference.
Variable inputs : list QuadFelt.
Variable l : InputLayout.

(** [inputs[layout.index(key).unwrap()]] *)
Definition input_at (key : InputKey) : aresult QuadFelt :=
  i ← or_panic (index_of l key);
  arr_read inputs i.

Fixpoint eval_base_expr (expr : SymbolicExpression) (periodic_values : list QuadFelt) : aresult QuadFelt :=
  match expr with
  | SLeaf leaf =>
    match leaf with
    | LeafVariable entry idx =>
      match entry with
      | EntryMain offset => input_at (Main offset idx)
      | EntryPublic => input_at (Public idx)
      | EntryPeriodic => arr_read periodic_values idx
      | EntryPreprocessed => Panic
      end
    | IsFirstRow => input_at IsFirst
    | IsLastRow => input_at IsLast
    | IsTransitionRow => input_at IsTransition
    | BaseConstant c => Ok (quad_from c)
    end
  | SAdd x y => a ← eval_base_expr x periodic_values; b ← eval_base_expr y periodic_values; Ok (quad_add a b)
  | SSub x y => a ← eval_base_expr x periodic_values; b ← eval_base_expr y periodic_values; Ok (quad_sub a b)
  | SMul x y => a ← eval_base_expr x periodic_values; b ← eval_base_expr y periodic_values; Ok (quad_mul a b)
  | SNeg x => a ← eval_base_expr x periodic_values; Ok (quad_neg a)
  end.

Definition eval_coords (key : nat -> InputKey) : aresult QuadFelt :=
  for_each (seq 0 EXT_DEGREE) (fun acc coord =>
    basis ← or_panic (ith_basis_element coord);
    value ← input_at (key coord);
    Ok (quad_add acc (quad_mul basis value))) quad_zero.

Fixpoint eval_ext_expr (expr : SymbolicExpressionExt) (periodic_values : list QuadFelt) : aresult QuadFelt :=
  match expr with
  | XLeaf leaf =>
    match leaf with
    | Base base_expr => eval_base_expr base_expr periodic_values
    | ExtVariable entry idx =>
      match entry with
      | Permutation offset => eval_coords (AuxCoord offset idx)
      | Challenge =>
        alpha ← input_at AuxRandAlpha;
        beta ← input_at AuxRandBeta;
        match idx with 0 => Ok alpha | 1 => Ok beta | _ => Panic end
      | PermutationValue => input_at (AuxBusBoundary idx)
      end
    | ExtConstant c => Ok c
    end
  | XAdd x y => a ← eval_ext_expr x periodic_values; b ← eval_ext_expr y periodic_values; Ok (quad_add a b)
  | XSub x y => a ← eval_ext_expr x periodic_values; b ← eval_ext_expr y periodic_values; Ok (quad_sub a b)
  | XMul x y => a ← eval_ext_expr x periodic_values; b ← eval_ext_expr y periodic_values; Ok (quad_mul a b)
  | XNeg x => a ← eval_ext_expr x periodic_values; Ok (quad_neg a)
  end.

Definition eval_folded_constraints (base_constraints : list SymbolicExpression)
    (ext_constraints : list SymbolicExpressionExt) (cl : ConstraintLayout) (periodic_values : list QuadFelt) :
    aresult QuadFelt :=
  alpha ← input_at Alpha;
  for_each (ordered cl) (fun acc '(_, is_ext, idx) =>
    val ← (if is_ext : bool then e ← arr_read ext_constraints idx; eval_ext_expr e periodic_values
           else e ← arr_read base_constraints idx; eval_base_expr e periodic_values);
    Ok (quad_add (quad_mul acc alpha) val)) quad_zero.

(** [compute_deltas_and_weights] on values *)
Definition deltas_and_weights (k : nat) (z_pow_n s0 f weight0 : QuadFelt) : list QuadFelt * list QuadFelt :=
  let '(deltas, weights, _, _) := foldl (fun '(deltas, weights, shift, weight) (_ : nat) =>
    (deltas ++ [quad_sub z_pow_n shift], weights ++ [weight], quad_mul shift f, quad_mul weight f))
    ([], [], s0, weight0) (seq 0 k) in
  (deltas, weights).

Definition prod_except (chunk : nat) (deltas : list QuadFelt) : QuadFelt :=
  foldl (fun prod '(j, delta) => if (chunk =? j) : bool then prod else quad_mul prod delta) quad_one
    (zip (seq 0 (length deltas)) deltas).

Definition eval_quotient : aresult QuadFelt :=
  let k := num_quotient_chunks (counts l) in
  z_pow_n ← input_at ZPowN;
  s0 ← input_at S0;
  f ← input_at KeyF;
  weight0 ← input_at Weight0;
  let '(deltas, weights) := deltas_and_weights k z_pow_n s0 f weight0 in
  for_each (seq 0 k) (fun quotient chunk =>
    chunk_value ← eval_coords (QuotientChunkCoord 0 chunk);
    w ← arr_read weights chunk;
    Ok (quad_add quotient (quad_mul (quad_mul w (prod_except chunk deltas)) chunk_value))) quad_zero.

(** [eval_periodic_values] from the coefficients of the columns *)
Definition eval_periodic_values (periodic : list (list QuadFelt)) (z_k : QuadFelt) : aresult (list QuadFelt) :=
  for_each periodic (fun out coeffs =>
    log_pow ← log_pow (max_period periodic) (length coeffs);
    let z_col := foldl (fun z (_ : nat) => quad_mul z z) z_k (seq 0 log_pow) in
    Ok (out ++ [foldl (fun acc coeff => quad_add (quad_mul acc z_col) coeff) quad_zero (reverse coeffs)])) [].

(** One iteration of [eval_dag] *)
Definition eval_node (values : list QuadFelt) (n : NodeKind) : aresult QuadFelt :=
  match n with
  | Input key =>
    match index_of l key with
    | Some i => arr_read inputs i
    | None => Err (InvalidInputLayout (MissingInputKey key))
    end
  | Constant c => Ok c
  | Add a b => x ← arr_read values (index a); y ← arr_read values (index b); Ok (quad_add x y)
  | Sub a b => x ← arr_read values (index a); y ← arr_read values (index b); Ok (quad_sub x y)
  | Mul a b => x ← arr_read values (index a); y ← arr_read values (index b); Ok (quad_mul x y)
  | Neg a => x ← arr_read values (index a); Ok (quad_neg x)
  end.
Definition eval_dag (d : AceDag) : aresult QuadFelt :=
  guard_err (length inputs =? total_inputs l) (InvalidInputLength (total_inputs l) (length inputs));;
  values ← for_each (zip (seq 0 (length (dag_nodes d))) (dag_nodes d)) (fun values '(idx, node) =>
    value ← eval_node values node;
    arr_write values idx value) (replicate (length (dag_nodes d)) quad_zero);
  arr_read values (index (dag_root d)).
End Reference.
End Dag.
End Dag.
