(* ===== verification/AceDagCorrect.v ===== *)
(** * The verifier graph computes the verifier equation

    Every builder operation keeps the graph in topological order and the cache sound, and returns a node whose value is the
    operation on the values of its operands, whatever was folded or shared ([denotes]).  The lowered constraints,
    the periodic columns and the recomposed quotient have the values of the reference evaluators, so the root is
    [acc - quotient * (z^N - 1)]; and it is the last node of the graph, which the encoding relies on. *)

From S2P Require Import Prelude Field Types Ace AceLayout AceDag.
From Stdlib Require Import Ring.
Import Dag.
#[local] Open Scope nat_scope.

(** ** Values of the nodes of a graph *)
Section Values.
Context {F : Felt} {Q : Quad}.
Variable rho : InputKey -> QuadFelt.

Definition val_at (vs : list QuadFelt) (id : NodeId) : QuadFelt := default quad_zero (vs !! index id).

Definition node_val (vs : list QuadFelt) (n : NodeKind) : QuadFelt :=
  match n with
  | Input k => rho k
  | Constant c => c
  | Add a b => quad_add (val_at vs a) (val_at vs b)
  | Sub a b => quad_sub (val_at vs a) (val_at vs b)
  | Mul a b => quad_mul (val_at vs a) (val_at vs b)
  | Neg a => quad_neg (val_at vs a)
  end.

Definition values (l : list NodeKind) : list QuadFelt := foldl (fun vs n => vs ++ [node_val vs n]) [] l.

Definition operands (n : NodeKind) : list NodeId :=
  match n with
  | Input _ | Constant _ => []
  | Add a b | Sub a b | Mul a b => [a; b]
  | Neg a => [a]
  end.

(** Operands come before the node. *)
Definition ordered_nodes (l : list NodeKind) : Prop :=
  forall i n, l !! i = Some n -> Forall (fun a => index a < i) (operands n).

Lemma values_snoc l n : values (l ++ [n]) = values l ++ [node_val (values l) n].
Proof. unfold values. by rewrite foldl_snoc. Qed.

Lemma length_values l : length (values l) = length l.
Proof. induction l as [|n l IH] using rev_ind; [done|]. by rewrite values_snoc, !length_app, IH. Qed.

Lemma values_app l l' : values l `prefix_of` values (l ++ l').
Proof.
  induction l' as [|n l' IH] using rev_ind; [by rewrite app_nil_r|]. rewrite app_assoc, values_snoc. by apply prefix_app_r.
Qed.

Lemma values_prefix l l' i v : l `prefix_of` l' -> values l !! i = Some v -> values l' !! i = Some v.
Proof. intros [k ->] H. by eapply prefix_lookup_Some; [|apply values_app]. Qed.

Lemma node_val_prefix n vs vs' : vs `prefix_of` vs' -> Forall (fun a => index a < length vs) (operands n) ->
  node_val vs' n = node_val vs n.
Proof.
  intros Hp Ho. assert (forall a, index a < length vs -> val_at vs' a = val_at vs a) as Hv.
  { intros a [v Hv]%lookup_lt_is_Some. unfold val_at. by rewrite Hv, (prefix_lookup_Some _ _ _ _ Hv Hp). }
  destruct n; cbn in *; rewrite ?Forall_cons in Ho; rewrite ?Hv by apply Ho; done.
Qed.

Lemma values_lookup l i n : ordered_nodes l -> l !! i = Some n -> values l !! i = Some (node_val (values l) n).
Proof.
  intros Ho Hi. pose proof (lookup_lt_Some _ _ _ Hi) as Hlt. rewrite <-(take_drop (S i) l) at 1.
  eapply prefix_lookup_Some; [|apply values_app]. rewrite (take_S_r _ _ _ Hi), values_snoc.
  assert (length (values (take i l)) = i) as Hlen by (rewrite length_values, length_take; lia).
  rewrite lookup_app_r, Hlen, Nat.sub_diag by lia. cbn. f_equal. symmetry. apply node_val_prefix.
  - rewrite <-(take_drop i l) at 2. apply values_app.
  - rewrite Hlen. by apply Ho.
Qed.
End Values.

(** ** Invariants of a builder *)
Section Builder.
Context {F : Felt} {Q : Quad}.
Variable rho : InputKey -> QuadFelt.

Definition key_ok (P : InputKey -> Prop) (n : NodeKind) : Prop := match n with Input k => P k | _ => True end.

(** Nodes refer to earlier nodes of the same graph, inputs have allowed keys, and the cache is sound. *)
Record builder_ok (P : InputKey -> Prop) (b : DagBuilder) : Prop := {
  ok_nodes i n : nodes b !! i = Some n -> Forall (fun a => id_dag a = dag_id b /\ index a < i) (operands n) /\ key_ok P n;
  ok_cache n id : cache b !! n = Some id -> id_dag id = dag_id b /\ nodes b !! index id = Some n;
}.

(** No node subtracts a constant from [z^N]. *)
Definition vanish_free (b : DagBuilder) : Prop := forall i a c v,
  nodes b !! i = Some (Sub a c) -> nodes b !! index a = Some (Input ZPowN) -> nodes b !! index c <> Some (Constant v).

Definition inv (P : InputKey -> Prop) (b : DagBuilder) : Prop := builder_ok P b /\ vanish_free b.

Definition ext (b b' : DagBuilder) : Prop := dag_id b' = dag_id b /\ nodes b `prefix_of` nodes b'.

Definition denotes (b : DagBuilder) (id : NodeId) (v : QuadFelt) : Prop :=
  id_dag id = dag_id b /\ values rho (nodes b) !! index id = Some v.

Definition nonconst (b : DagBuilder) (id : NodeId) : Prop :=
  exists n, nodes b !! index id = Some n /\ forall v, n <> Constant v.
Definition unitish (b : DagBuilder) (id : NodeId) : Prop :=
  nonconst b id \/ nodes b !! index id = Some (Constant quad_one).

(** [m] run on [b] returns, extends the graph and satisfies [R]. *)
Definition spec {A} (b : DagBuilder) (m : B A) (R : A -> DagBuilder -> Prop) : Prop :=
  exists a b', m b = Ok (a, b') /\ ext b b' /\ R a b'.

#[global] Instance ext_preorder : PreOrder ext.
Proof. split; [by split|]. intros b1 b2 b3 [H1 H2] [H3 H4]. split; [congruence|by etransitivity]. Qed.

Lemma ext_lookup b b' i n : ext b b' -> nodes b !! i = Some n -> nodes b' !! i = Some n.
Proof. intros [_ Hp] H. by eapply prefix_lookup_Some. Qed.
Lemma denotes_ext b b' id v : ext b b' -> denotes b id v -> denotes b' id v.
Proof. intros [Hd Hp] [H1 H2]. split; [congruence|]. by eapply values_prefix. Qed.
Lemma nonconst_ext b b' id : ext b b' -> nonconst b id -> nonconst b' id.
Proof. intros He (n & Hn & Hc). exists n. split; [by eapply ext_lookup|done]. Qed.
Lemma unitish_ext b b' id : ext b b' -> unitish b id -> unitish b' id.
Proof. intros He [H|H]; [left; by eapply nonconst_ext|right; by eapply ext_lookup]. Qed.
Lemma denotes_ext_all b b' ids vs : ext b b' -> Forall2 (denotes b) ids vs -> Forall2 (denotes b') ids vs.
Proof. intros He H. eapply Forall2_impl; [exact H|]. intros. by eapply denotes_ext. Qed.

Lemma builder_ok_weaken (P P' : InputKey -> Prop) b : (forall k, P k -> P' k) -> builder_ok P b -> builder_ok P' b.
Proof.
  intros HP [H1 H2]. split; [|done]. intros i n Hn. destruct (H1 i n Hn) as [? Hk]. split; [done|].
  destruct n; [|done..]. by apply HP.
Qed.
Lemma inv_weaken (P P' : InputKey -> Prop) b : (forall k, P k -> P' k) -> inv P b -> inv P' b.
Proof. intros HP [H1 H2]. split; [by eapply builder_ok_weaken|done]. Qed.

Lemma ok_ordered P b : builder_ok P b -> ordered_nodes (nodes b).
Proof. intros H i n Hn. destruct (ok_nodes P b H i n Hn) as [Ho _]. eapply Forall_impl; [exact Ho|]. by intros a []. Qed.

Lemma denotes_node P b id n : builder_ok P b -> id_dag id = dag_id b -> nodes b !! index id = Some n ->
  denotes b id (node_val rho (values rho (nodes b)) n).
Proof. intros Hb Hd Hn. split; [done|]. apply values_lookup; [by eapply ok_ordered|done]. Qed.

Lemma denotes_lt b id v : denotes b id v -> index id < length (nodes b).
Proof. intros [_ H]. rewrite <-(length_values rho). by eapply lookup_lt_Some. Qed.

Lemma denotes_val b id v : denotes b id v -> val_at (values rho (nodes b)) id = v.
Proof. intros [_ H]. unfold val_at. by rewrite H. Qed.

(** ** Programs *)

Lemma spec_ret {A} b (a : A) (R : A -> DagBuilder -> Prop) : R a b -> spec b (mret a) R.
Proof. intros H. by exists a, b. Qed.

Lemma spec_bind {A A'} b (m : B A) (f : A -> B A') (R : A -> DagBuilder -> Prop) (R' : A' -> DagBuilder -> Prop) :
  spec b m R -> (forall a b', ext b b' -> R a b' -> spec b' (f a) R') -> spec b (m ≫= f) R'.
Proof.
  intros (a & b1 & Hm & He & HR) Hf. destruct (Hf a b1 He HR) as (a' & b2 & Hm' & He' & HR').
  exists a', b2. unfold mbind, B_bind. rewrite Hm. cbn. split_and!; [done|by etransitivity|done].
Qed.

Lemma spec_weaken {A} b (m : B A) (R R' : A -> DagBuilder -> Prop) :
  spec b m R -> (forall a b', ext b b' -> R a b' -> R' a b') -> spec b m R'.
Proof. intros (a & b1 & ? & ? & ?) Hw. exists a, b1. auto. Qed.

Lemma spec_lift {A} b (o : aresult A) a (R : A -> DagBuilder -> Prop) : o = Ok a -> R a b -> spec b (blift o) R.
Proof. intros -> H. by exists a, b. Qed.

(** Loops against a fold, and against a loop that may fail *)
Lemma bfor_fold {S S' X X'} b0 (R : DagBuilder -> S -> S' -> Prop) (RX : X -> X' -> Prop) (l : list X) (l' : list X')
    (body : S -> X -> B S) (f : S' -> X' -> S') s s' b :
  ext b0 b -> R b s s' -> Forall2 RX l l' ->
  (forall b s s' x x', ext b0 b -> R b s s' -> RX x x' -> spec b (body s x) (fun s1 b1 => R b1 s1 (f s' x'))) ->
  spec b (bfor l body s) (fun s1 b1 => R b1 s1 (foldl f s' l')).
Proof.
  intros He HR HX Hstep. revert b s s' He HR. induction HX as [|x x' l l' Hx HX IH]; intros b s s' He HR; cbn [bfor foldl].
  { by apply spec_ret. }
  eapply spec_bind; [by apply Hstep|]. intros s1 b1 He1 HR1. apply IH; [by etransitivity|done].
Qed.

Lemma bfor_sim {S S' X} b0 (R : DagBuilder -> S -> S' -> Prop) (l : list X)
    (body : S -> X -> B S) (body' : S' -> X -> aresult S') s s' r b :
  ext b0 b -> R b s s' -> for_each l body' s' = Ok r ->
  (forall b s s' x s1', ext b0 b -> R b s s' -> body' s' x = Ok s1' -> spec b (body s x) (fun s1 b1 => R b1 s1 s1')) ->
  spec b (bfor l body s) (fun s1 b1 => R b1 s1 r).
Proof.
  intros He HR Hr Hstep. revert b s s' He HR Hr. induction l as [|x l IH]; intros b s s' He HR Hr; cbn [bfor for_each] in *.
  { injection Hr as <-. by apply spec_ret. }
  bind_inv Hr. eapply spec_bind; [by eapply Hstep|]. intros s1 b1 He1 HR1. apply (IH b1 s1 a); [by etransitivity|done..].
Qed.

(** ** Interning *)

Lemma snoc_lookup {A} (l : list A) x i y : (l ++ [x]) !! i = Some y -> l !! i = Some y \/ i = length l /\ y = x.
Proof.
  intros H. destruct (decide (i < length l)); [left; by rewrite lookup_app_l in H|].
  right. rewrite lookup_app_r in H by lia. destruct (i - length l) eqn:E; [|done]. injection H as <-. split; [lia|done].
Qed.

Lemma intern_spec P b n : builder_ok P b -> Forall (fun a => id_dag a = dag_id b /\ index a < length (nodes b)) (operands n) ->
  key_ok P n ->
  spec b (intern n) (fun id b' => builder_ok P b' /\ id_dag id = dag_id b' /\ nodes b' !! index id = Some n /\
    (cache b !! n = Some id /\ b' = b \/ cache b !! n = None /\ nodes b' = nodes b ++ [n])).
Proof.
  intros Hb Ho Hk. unfold spec, intern. destruct (cache b !! n) as [id|] eqn:E.
  { destruct (ok_cache P b Hb n id E). exists id, b. split_and!; try done. by left. }
  eexists _, _. split; [reflexivity|]. split; [split; [done|by apply prefix_app_r]|]. cbn.
  split_and!; [|done|by rewrite lookup_app_r, Nat.sub_diag by lia|by right]. split; cbn.
  - intros i m Hm. apply snoc_lookup in Hm as [Hm|[-> ->]]; [by apply (ok_nodes P b Hb)|done].
  - intros m id Hm. destruct (decide (n = m)) as [<-|Hne].
    + rewrite lookup_insert_eq in Hm. injection Hm as <-. cbn. by rewrite lookup_app_r, Nat.sub_diag by lia.
    + rewrite lookup_insert_ne in Hm by done. destruct (ok_cache P b Hb m id Hm) as [? Hl]. split; [done|].
      by apply lookup_app_l_Some.
Qed.

(** Adding a node keeps [vanish_free] unless it is the forbidden subtraction. *)
Lemma vanish_free_snoc P b b' n : builder_ok P b -> vanish_free b -> nodes b' = nodes b ++ [n] ->
  (forall a c v, n = Sub a c -> index a < length (nodes b) -> index c < length (nodes b) ->
    nodes b !! index a = Some (Input ZPowN) -> nodes b !! index c <> Some (Constant v)) ->
  Forall (fun a => index a < length (nodes b)) (operands n) -> vanish_free b'.
Proof.
  intros Hb Hv Hn Hnew Ho i a c v. rewrite Hn. intros Hi Ha Hc. apply snoc_lookup in Hi as [Hi|[-> Hi]].
  - destruct (ok_nodes P b Hb _ _ Hi) as [Hop _]. cbn in Hop. rewrite !Forall_cons in Hop.
    destruct Hop as ([_ H1] & [_ H2] & _). pose proof (lookup_lt_Some _ _ _ Hi).
    rewrite lookup_app_l in Ha, Hc by lia. by apply (Hv i a c v Hi Ha).
  - subst n. cbn in Ho. rewrite !Forall_cons in Ho. destruct Ho as (H1 & H2 & _).
    rewrite lookup_app_l in Ha, Hc by done. by apply (Hnew a c v eq_refl H1 H2 Ha).
Qed.

Lemma intern_inv P b n : inv P b -> Forall (fun a => id_dag a = dag_id b /\ index a < length (nodes b)) (operands n) ->
  key_ok P n ->
  (forall a c v, n = Sub a c -> nodes b !! index a = Some (Input ZPowN) -> nodes b !! index c <> Some (Constant v)) ->
  spec b (intern n) (fun id b' => inv P b' /\ id_dag id = dag_id b' /\ nodes b' !! index id = Some n).
Proof.
  intros [Hb Hv] Ho Hk Hnew. eapply spec_weaken; [by apply intern_spec|]. cbn.
  intros id b' He (Hb' & Hd & Hl & Hc). split_and!; [split; [done|]|done|done].
  destruct Hc as [[_ ->]|[_ Hn]]; [done|]. apply (vanish_free_snoc P b b' n); [done..| |].
  - intros. by eapply Hnew.
  - eapply Forall_impl; [exact Ho|]. by intros a [].
Qed.

(** ** Arithmetic *)

Lemma quad_one_not_zero : quad_one <> quad_zero.
Proof. unfold quad_one, quad_zero. intros H%(f_equal coef0). rewrite !coef0_new in H. by apply ONE_neq_ZERO. Qed.

Add Ring quad_ring_dag : quad_ring_theory.

(** The node stands for [v], and is not a constant when [N] holds. *)
Definition result (P : InputKey -> Prop) (v : QuadFelt) (N : Prop) (id : NodeId) (b' : DagBuilder) : Prop :=
  inv P b' /\ denotes b' id v /\ (N -> nonconst b' id).

Lemma input_spec P b k : inv P b -> P k ->
  spec b (input k) (fun id b' => result P (rho k) True id b' /\ nodes b' !! index id = Some (Input k)).
Proof.
  intros Hb Hk. eapply spec_weaken; [by apply (intern_inv P)|]. cbn. intros id b' _ (Hi & Hd & Hn).
  split; [|done]. split_and!; [done|by apply (denotes_node P b' id (Input k)); [apply Hi|..]|]. intros _. by exists (Input k).
Qed.

Lemma constant_spec P b v : inv P b ->
  spec b (constant v) (fun id b' => result P v False id b' /\ nodes b' !! index id = Some (Constant v)).
Proof.
  intros Hb. eapply spec_weaken; [by apply (intern_inv P)|]. cbn. intros id b' _ (Hi & Hd & Hn).
  split; [|done]. split_and!; [done|by apply (denotes_node P b' id (Constant v)); [apply Hi|..]|done].
Qed.

Lemma result_weaken P v (N N' : Prop) id b' : (N' -> N) -> result P v N id b' -> result P v N' id b'.
Proof. intros HN (H1 & H2 & H3). split_and!; auto. Qed.

Lemma resolve_denotes {A} b a x (f : NodeId -> B A) R : denotes b a x -> spec b (f a) R -> spec b (resolve_id a ≫= f) R.
Proof.
  intros Ha (r & b' & Hf & He). exists r, b'. split; [|done]. unfold mbind, B_bind, resolve_id.
  by rewrite (proj2 (Nat.ltb_lt _ _) (denotes_lt _ _ _ Ha)), (proj1 Ha), Nat.eqb_refl.
Qed.

Lemma const_value_denotes P b a x v : builder_ok P b -> denotes b a x -> const_value b a = Some v -> x = v.
Proof.
  intros Hb [Hd Hx] Hc. unfold const_value in Hc. destruct (nodes b !! index a) as [[]|] eqn:E; simplify_eq.
  destruct (denotes_node P b a _ Hb Hd E) as [_ H]. cbn in H. congruence.
Qed.

Lemma const_value_none b a x : denotes b a x -> const_value b a = None -> nonconst b a.
Proof.
  intros Ha Hc. destruct (lookup_lt_is_Some_2 _ _ (denotes_lt _ _ _ Ha)) as [n Hn]. exists n. split; [done|].
  intros v ->. unfold const_value in Hc. by rewrite Hn in Hc.
Qed.

Lemma nonconst_value b a : nonconst b a -> const_value b a = None.
Proof. intros (n & Hn & Hc). unfold const_value. rewrite Hn. destruct n; try done. by destruct (Hc value). Qed.

(** A fresh or cached operation node *)
Lemma operation_spec P b n v : inv P b ->
  Forall (fun a => id_dag a = dag_id b /\ index a < length (nodes b)) (operands n) -> operands n <> [] ->
  (forall a c k, n = Sub a c -> nodes b !! index a = Some (Input ZPowN) -> nodes b !! index c <> Some (Constant k)) ->
  node_val rho (values rho (nodes b)) n = v -> spec b (intern n) (result P v True).
Proof.
  intros Hb Ho Hne Hs <-. eapply spec_weaken; [apply (intern_inv P); [done..| |done]; by destruct n|]. cbn.
  intros id b' [_ Hp] (Hi & Hd & Hn). split_and!; [done| |intros _; exists n; split; [done|by destruct n]].
  replace (node_val rho (values rho (nodes b)) n) with (node_val rho (values rho (nodes b')) n);
    [by apply (denotes_node P); [apply Hi|..]|].
  apply node_val_prefix.
  - destruct Hp as [k ->]. apply values_app.
  - rewrite length_values. eapply Forall_impl; [exact Ho|]. by intros a [].
Qed.

Lemma operands2 b a c x y : denotes b a x -> denotes b c y ->
  Forall (fun a => id_dag a = dag_id b /\ index a < length (nodes b)) [a; c].
Proof.
  intros Ha Hc. repeat constructor; [apply Ha|by eapply denotes_lt|apply Hc|by eapply denotes_lt].
Qed.

Lemma order_ids_cases a c : order_ids a c = (a, c) \/ order_ids a c = (c, a).
Proof. unfold order_ids. destruct (node_le a c); auto. Qed.

Lemma is_zero_true b a : is_zero b a = true -> const_value b a = Some quad_zero.
Proof. unfold is_zero. destruct (const_value b a); [|done]. by intros ->%bool_decide_eq_true_1. Qed.
Lemma is_one_true b a : is_one b a = true -> const_value b a = Some quad_one.
Proof. unfold is_one. destruct (const_value b a); [|done]. by intros ->%bool_decide_eq_true_1. Qed.

(** The common shape of the binary operations: both operands constant, or at least one not *)
Lemma binary_spec {A} P b a c x y (f : QuadFelt -> QuadFelt -> B A) (g : B A) R : inv P b -> denotes b a x -> denotes b c y ->
  (const_value b a = Some x -> const_value b c = Some y -> spec b (f x y) R) ->
  (nonconst b a \/ nonconst b c -> spec b g R) ->
  spec b (match const_value b a, const_value b c with Some u, Some v => f u v | _, _ => g end) R.
Proof.
  intros [Hb _] Ha Hc Hf Hg. destruct (const_value b a) as [u|] eqn:Ea; [destruct (const_value b c) as [w|] eqn:Ec|].
  - rewrite (const_value_denotes P b a x u Hb Ha Ea), (const_value_denotes P b c y w Hb Hc Ec) in *. by apply Hf.
  - apply Hg. right. by eapply const_value_none.
  - apply Hg. left. by eapply const_value_none.
Qed.

Lemma is_zero_denotes P b a x : inv P b -> denotes b a x -> is_zero b a = true -> x = quad_zero /\ ~ nonconst b a.
Proof.
  intros [Hb _] Ha H%is_zero_true. split; [by eapply const_value_denotes|]. intros ?%nonconst_value. congruence.
Qed.
Lemma is_one_denotes P b a x : inv P b -> denotes b a x -> is_one b a = true -> x = quad_one /\ ~ nonconst b a.
Proof.
  intros [Hb _] Ha H%is_one_true. split; [by eapply const_value_denotes|]. intros ?%nonconst_value. congruence.
Qed.

(** Both orders of the operands of a commutative operation *)
Lemma commutative_spec P b a c x y n v (N : Prop) : inv P b -> denotes b a x -> denotes b c y -> n = Add \/ n = Mul ->
  node_val rho (values rho (nodes b)) (n a c) = v -> node_val rho (values rho (nodes b)) (n c a) = v ->
  spec b (let '(l, r) := order_ids a c in intern (n l r)) (result P v N).
Proof.
  intros Hb Ha Hc Hn Hv Hv'. destruct (order_ids_cases a c) as [-> | ->]; (eapply spec_weaken; [apply (operation_spec P)|]);
    destruct Hn as [-> | ->]; try done; try (by eapply operands2); intros id b' _; by apply result_weaken.
Qed.

Lemma add_spec P b a c x y : inv P b -> denotes b a x -> denotes b c y ->
  spec b (add a c) (result P (quad_add x y) (nonconst b a \/ nonconst b c)).
Proof.
  intros Hb Ha Hc. unfold add. eapply resolve_denotes; [done|]. eapply resolve_denotes; [done|].
  apply (binary_spec P b a c x y); [done..| |].
  { intros Ea Ec. eapply spec_weaken; [by apply (constant_spec P)|]. cbn. intros id b' _ [Hr _].
    eapply result_weaken; [|exact Hr]. intros [H%nonconst_value|H%nonconst_value]; congruence. }
  intros Hn. destruct (is_zero b a) eqn:Ea; [|destruct (is_zero b c) eqn:Ec].
  - destruct (is_zero_denotes P b a x Hb Ha Ea) as [-> ?]. apply spec_ret. split_and!; [done| |tauto].
    replace (quad_add quad_zero y) with y; [done|unfold quad_zero; ring].
  - destruct (is_zero_denotes P b c y Hb Hc Ec) as [-> ?]. apply spec_ret. split_and!; [done| |tauto].
    replace (quad_add x quad_zero) with x; [done|unfold quad_zero; ring].
  - apply (commutative_spec P b a c x y); auto; cbn; rewrite (denotes_val _ _ _ Ha), (denotes_val _ _ _ Hc); ring.
Qed.

Lemma mul_spec P b a c x y : inv P b -> denotes b a x -> denotes b c y ->
  spec b (mul a c) (result P (quad_mul x y) (unitish b a /\ unitish b c /\ (nonconst b a \/ nonconst b c))).
Proof.
  intros Hb Ha Hc. unfold mul. eapply resolve_denotes; [done|]. eapply resolve_denotes; [done|].
  assert (Hu : forall e z, denotes b e z -> is_zero b e = true -> ~ unitish b e).
  { intros e z He Hz [Hne|Hone]; [by eapply is_zero_denotes|]. apply is_zero_true in Hz. unfold const_value in Hz.
    rewrite Hone in Hz. injection Hz as Hz. by apply quad_one_not_zero. }
  apply (binary_spec P b a c x y); [done..| |].
  { intros Ea Ec. eapply spec_weaken; [by apply (constant_spec P)|]. cbn. intros id b' _ [Hr _].
    eapply result_weaken; [|exact Hr]. intros (_ & _ & [H%nonconst_value|H%nonconst_value]); congruence. }
  intros Hn. destruct (is_zero b a) eqn:Ea; [|destruct (is_zero b c) eqn:Ec]; cbn [orb].
  1, 2: eapply spec_weaken; [by apply (constant_spec P)|]; cbn; intros id b' _ [Hr _]; apply (result_weaken P _ False).
  1, 3: intros (? & ? & _); first [by eapply (Hu a)|by eapply (Hu c)].
  - destruct (is_zero_denotes P b a x Hb Ha Ea) as [-> ?]. replace (quad_mul quad_zero y) with quad_zero; [done|unfold quad_zero; ring].
  - destruct (is_zero_denotes P b c y Hb Hc Ec) as [-> ?]. replace (quad_mul x quad_zero) with quad_zero; [done|unfold quad_zero; ring].
  - destruct (is_one b a) eqn:Ea1; [|destruct (is_one b c) eqn:Ec1].
    + destruct (is_one_denotes P b a x Hb Ha Ea1) as [-> ?]. apply spec_ret. split_and!; [done| |tauto].
      replace (quad_mul quad_one y) with y; [done|unfold quad_one; ring].
    + destruct (is_one_denotes P b c y Hb Hc Ec1) as [-> ?]. apply spec_ret. split_and!; [done| |tauto].
      replace (quad_mul x quad_one) with x; [done|unfold quad_one; ring].
    + apply (commutative_spec P b a c x y); auto; cbn; rewrite (denotes_val _ _ _ Ha), (denotes_val _ _ _ Hc); ring.
Qed.

Lemma sub_spec P b a c x y : inv P b -> ~ P ZPowN \/ nonconst b c -> denotes b a x -> denotes b c y ->
  spec b (sub a c) (result P (quad_sub x y) (nonconst b a \/ nonconst b c)).
Proof.
  intros Hb HP Ha Hc. unfold sub. eapply resolve_denotes; [done|]. eapply resolve_denotes; [done|].
  apply (binary_spec P b a c x y); [done..| |].
  { intros Ea Ec. eapply spec_weaken; [by apply (constant_spec P)|]. cbn. intros id b' _ [Hr _].
    eapply result_weaken; [|exact Hr]. intros [H%nonconst_value|H%nonconst_value]; congruence. }
  intros Hn. destruct (is_zero b c) eqn:Ec.
  - destruct (is_zero_denotes P b c y Hb Hc Ec) as [-> ?]. apply spec_ret. split_and!; [done| |tauto].
    replace (quad_sub x quad_zero) with x; [done|unfold quad_zero; ring].
  - eapply spec_weaken; [apply (operation_spec P); [done|by eapply operands2|done| |]|].
    + intros a' c' v [= <- <-] Hin Hcv. destruct HP as [HP|HP].
      * apply HP. by apply (ok_nodes P b (proj1 Hb) _ _ Hin).
      * apply nonconst_value in HP. unfold const_value in HP. by rewrite Hcv in HP.
    + cbn. by rewrite (denotes_val _ _ _ Ha), (denotes_val _ _ _ Hc).
    + intros id b' _. by apply result_weaken.
Qed.

Lemma neg_spec P b a x : inv P b -> denotes b a x -> spec b (neg a) (result P (quad_neg x) (nonconst b a)).
Proof.
  intros Hb Ha. unfold neg. eapply resolve_denotes; [done|].
  change (spec b (with_builder ?f)) with (spec b (f b)). cbn beta. destruct (const_value b a) as [u|] eqn:Ea.
  - rewrite (const_value_denotes P b a x u (proj1 Hb) Ha Ea). eapply spec_weaken; [by apply (constant_spec P)|]. cbn.
    intros id b' _ [Hr _]. eapply result_weaken; [|exact Hr]. intros ?%nonconst_value. congruence.
  - eapply spec_weaken; [apply (operation_spec P); [done| |done..|]|].
    + repeat constructor; [apply Ha|by eapply denotes_lt].
    + cbn. by rewrite (denotes_val _ _ _ Ha).
    + intros id b' _. by apply result_weaken.
Qed.
End Builder.

(** ** Builders that continue an existing graph *)
Section Resume.
Context {F : Felt} {Q : Quad}.

Lemma node_val_rebase rho d vs n : node_val rho vs (rebase_kind d n) = node_val rho vs n.
Proof. by destruct n. Qed.

Lemma values_rebase rho d l : values rho (rebase_nodes l d) = values rho l.
Proof.
  induction l as [|n l IH] using rev_ind; [done|]. unfold rebase_nodes in *. rewrite fmap_app. cbn [fmap list_fmap].
  by rewrite !values_snoc, IH, node_val_rebase.
Qed.

(** The cache maps every node to a place that holds it. *)
Lemma from_existing_cache d l imported n id :
  cache (from_existing_nodes d l imported) !! n = Some id -> id_dag id = d /\ l !! index id = Some n.
Proof.
  cbn. assert (H : forall k (m : gmap NodeKind NodeId) rest, l = take k l ++ rest -> k + length rest = length l ->
    (forall n id, m !! n = Some id -> id_dag id = d /\ l !! index id = Some n) ->
    forall n id, foldl (fun m '(i, n) => <[n := mkNodeId d i]> m) m (zip (seq k (length rest)) rest) !! n = Some id ->
      id_dag id = d /\ l !! index id = Some n).
  { intros k m rest. revert k m. induction rest as [|x rest IH]; intros k m Hl Hk Hm; [exact Hm|]. cbn [length] in Hk. cbn.
    assert (Hx : l !! k = Some x) by (rewrite Hl, lookup_app_r; rewrite length_take_le; [by rewrite Nat.sub_diag|lia|lia|lia]).
    apply IH; [|lia|].
    - by rewrite (take_S_r _ _ _ Hx), <-app_assoc.
    - intros n' id' [[-> <-]|[_ ?]]%lookup_insert_Some; [by split|by apply Hm]. }
  apply (H 0 ∅ l); [done|done|]. intros n' id'. by rewrite lookup_empty.
Qed.

Lemma from_existing_ok P d l imported : (forall i n, l !! i = Some n -> Forall (fun a => id_dag a = d /\ index a < i) (operands n)) ->
  Forall (key_ok P) l -> builder_ok P (from_existing_nodes d l imported).
Proof.
  intros Ho Hk. split; [|intros n id; apply from_existing_cache]. intros i n Hi. split; [by apply Ho|]. by apply (Forall_lookup_1 _ _ _ _ Hk Hi).
Qed.

Lemma rebased_ok P fresh l : ordered_nodes l -> Forall (key_ok P) l -> forall imported,
  builder_ok P (from_existing_nodes fresh (rebase_nodes l fresh) imported).
Proof.
  intros Ho Hk imported. apply from_existing_ok.
  - intros i n Hi. unfold rebase_nodes in Hi. apply list_lookup_fmap_Some_1 in Hi as (m & -> & Hm). specialize (Ho i m Hm).
    destruct m; cbn in *; rewrite ?Forall_cons in *; cbn; intuition.
  - unfold rebase_nodes. apply Forall_fmap. eapply Forall_impl; [exact Hk|]. by intros [].
Qed.

(** A builder restored from a snapshot is well formed under its new number; the nodes of the old graph are accepted and keep
    their values. *)
Lemma from_snapshot_spec rho P fresh dag : ordered_nodes (dag_nodes dag) -> Forall (key_ok P) (dag_nodes dag) ->
  let b := from_snapshot fresh (into_snapshot dag) in
  builder_ok P b /\ forall id v, id_dag id = dag_dag_id dag -> values rho (dag_nodes dag) !! index id = Some v ->
    exists id', resolve_id id b = Ok (id', b) /\ denotes rho b id' v.
Proof.
  intros Ho Hk b. split; [by apply rebased_ok|]. intros id v Hd Hv. pose proof (lookup_lt_Some _ _ _ Hv) as Hlt. rewrite length_values in Hlt.
  assert (Hden : forall id', id_dag id' = fresh -> index id' = index id -> denotes rho b id' v).
  { intros id' H1 H2. split; [done|].
    change (nodes b) with (rebase_nodes (dag_nodes dag) fresh). by rewrite values_rebase, H2. }
  unfold resolve_id. change (length (nodes b)) with (length (rebase_nodes (dag_nodes dag) fresh)). unfold rebase_nodes.
  rewrite length_fmap. destruct (Nat.ltb_spec (index id) (length (dag_nodes dag))); [|lia]. cbn [dag_id imported_dag].
  destruct (Nat.eqb_spec (id_dag id) (dag_id b)) as [He|He]; [exists id; split; [done|by apply Hden]|].
  change (imported_dag b) with (Some (mkImported (dag_dag_id dag) (length (dag_nodes dag)))). cbn [source_dag_id imported_len].
  rewrite Hd, Nat.eqb_refl, (proj2 (Nat.ltb_lt _ _) Hlt). cbn [andb]. eexists. split; [done|]. by apply Hden.
Qed.

(** The plain node list has the number of the first operand. *)
Lemma infer_dag_id_ok d l : (forall i n, l !! i = Some n -> Forall (fun a => id_dag a = d) (operands n)) ->
  infer_dag_id l = Some d \/ infer_dag_id l = None /\ Forall (fun n => operands n = []) l.
Proof.
  induction l as [|n l IH]; intros H; [right; by split|]. pose proof (H 0 n eq_refl) as H0.
  destruct n; cbn in *; rewrite ?Forall_cons in H0; try (left; f_equal; apply H0).
  all: destruct IH as [IH|[IH1 IH2]]; [intros i m Hm; exact (H (S i) m Hm)|by left|right; split; [done|by constructor]].
Qed.
End Resume.
