(* ===== verification/AceLower.v ===== *)
(** * Lowering computes the reference values

    The nodes that [lower_base_expr], [lower_ext_expr], [build_periodic_nodes] and [build_quotient_recomposition_dag] return
    have the values that the evaluators of [testing.rs] compute from the inputs. *)

From S2P Require Import Prelude Field Types Ace AceLayout AceDag AceDagCorrect.
From Stdlib Require Import Ring.
Import Dag.
#[local] Open Scope nat_scope.

Section Lower.
Context {F : Felt} {Q : Quad}.

Lemma deltas_and_weights_length n z s f w : length (deltas_and_weights n z s f w).2 = n.
Proof.
  unfold deltas_and_weights. assert (forall m d0 w0 s0 wt0, length (let '(ds, ws, _, _) := foldl (fun '(deltas, weights, shift, weight) (_ : nat) =>
    (deltas ++ [quad_sub z shift], weights ++ [weight], quad_mul shift f, quad_mul weight f)) (d0, w0, s0, wt0) (seq m n) in (ds, ws)).2 =
    length w0 + n) as Hg; [|by rewrite Hg].
  induction n as [|n IH]; intros m d0 w0 s0 wt0; cbn; [lia|]. rewrite IH, length_app. cbn. lia.
Qed.

Variable inputs : list QuadFelt.
Variable l : InputLayout.

(** The value of a key *)
Definition rho (k : InputKey) : QuadFelt := default quad_zero (i ← index_of l k; inputs !! i).
Definition in_layout (k : InputKey) : Prop := is_Some (index_of l k).
(** The keys of the constraints *)
Definition constraint_key (k : InputKey) : Prop := k <> ZPowN /\ in_layout k.

Add Ring quad_ring_lower : quad_ring_theory.

Abbreviation denotes := (denotes rho).
Abbreviation result := (result rho).

Lemma input_at_Ok k v : input_at inputs l k = Ok v -> in_layout k /\ rho k = v.
Proof.
  unfold input_at, rho, in_layout, arr_read. destruct (index_of l k) as [i|]; cbn; [|done].
  destruct (inputs !! i); cbn; [|done]. intros [= <-]. by split.
Qed.

(** The node stands for the value. *)
Definition stands (P : InputKey -> Prop) (v : QuadFelt) (id : NodeId) (b' : DagBuilder) : Prop := inv P b' /\ denotes b' id v.

Lemma result_stands P v N b (m : B NodeId) : spec b m (result P v N) -> spec b m (stands P v).
Proof. intros H. eapply spec_weaken; [exact H|]. intros id b' _ (H1 & H2 & _). by split. Qed.

Lemma input_stands P b k v : inv P b -> P k -> rho k = v -> spec b (input k) (stands P v).
Proof.
  intros Hb Hk <-. eapply spec_weaken; [by apply (input_spec rho P)|]. intros id b' _ [(H1 & H2 & _) _]. by split.
Qed.
Lemma constant_stands P b v : inv P b -> spec b (constant v) (stands P v).
Proof.
  intros Hb. eapply spec_weaken; [by apply (constant_spec rho P)|]. intros id b' _ [(H1 & H2 & _) _]. by split.
Qed.

(** Two operands and an operation on them *)
Lemma binary_stands P b (mx my : B NodeId) (f : NodeId -> NodeId -> B NodeId) x y v :
  spec b mx (stands P x) -> (forall b', ext b b' -> inv P b' -> spec b' my (stands P y)) ->
  (forall b' i j, ext b b' -> inv P b' -> denotes b' i x -> denotes b' j y -> spec b' (f i j) (stands P v)) ->
  spec b (lx ← mx; ly ← my; f lx ly) (stands P v).
Proof.
  intros Hx Hy Hf. eapply spec_bind; [exact Hx|]. intros i b1 E1 [Hi Hd]. eapply spec_bind; [by apply Hy|].
  intros j b2 E2 [Hi2 Hd2]. apply Hf; [by etransitivity|done| |done]. by eapply denotes_ext.
Qed.

Section Constraints.
Abbreviation P := constraint_key.

Lemma not_zpown : ~ P ZPowN.
Proof. intros [H _]. by apply H. Qed.

Lemma constraint_input b k v : inv P b -> k <> ZPowN -> input_at inputs l k = Ok v -> spec b (input k) (stands P v).
Proof. intros Hb Hk [Hl Hv]%input_at_Ok. by apply input_stands. Qed.

Lemma lower_base_spec expr b pn pv v : inv P b -> Forall2 (denotes b) pn pv ->
  eval_base_expr inputs l expr pv = Ok v -> spec b (lower_base_expr expr pn) (stands P v).
Proof.
  revert b v. induction expr as [leaf|x IHx y IHy|x IHx y IHy|x IHx y IHy|x IHx]; intros b v Hb Hp He;
    cbn [eval_base_expr lower_base_expr] in *.
  { destruct leaf as [[] idx| | | |c]; try (by eapply constraint_input); [|done|by injection He as <-; apply constant_stands].
    unfold arr_read in *. destruct (pv !! idx) as [w|] eqn:E; [|done]. injection He as <-.
    destruct (Forall2_lookup_r _ _ _ _ _ Hp E) as (id & Hid & Hd). eapply spec_lift; [by rewrite Hid|]. by split. }
  1-3: bind_inv He; bind_inv He; injection He as <-; eapply binary_stands; [by apply IHx| |];
    [intros b' E Hb'; apply IHy; [done|by eapply denotes_ext_all|done]|].
  - intros. eapply result_stands. by apply add_spec.
  - intros. eapply result_stands. apply sub_spec; [done|left; apply not_zpown|done..].
  - intros. eapply result_stands. by apply mul_spec.
  - bind_inv He. injection He as <-. eapply spec_bind; [by apply IHx|]. intros i b1 E1 [Hi Hd].
    eapply result_stands. by apply neg_spec.
Qed.
End Constraints.

(** ** Coordinates *)

Definition coords_val (key : nat -> InputKey) : QuadFelt :=
  quad_add (quad_add quad_zero (quad_mul (quad_new ONE ZERO) (rho (key 0)))) (quad_mul (quad_new ZERO ONE) (rho (key 1))).

Lemma eval_coords_Ok key v : eval_coords inputs l key = Ok v -> in_layout (key 0) /\ in_layout (key 1) /\ v = coords_val key.
Proof.
  unfold eval_coords, coords_val. intros H. cbn [seq EXT_DEGREE for_each ith_basis_element or_panic] in H.
  rewrite !bind_Ok in H. bind_inv H. bind_inv Ha. injection Ha as <-. rewrite bind_Ok in H. bind_inv H. bind_inv Ha. injection Ha as <-.
  injection H as <-. apply input_at_Ok in Ha0 as [? <-]. apply input_at_Ok in Ha1 as [? <-]. done.
Qed.

(** One coordinate added to the accumulator *)
Lemma merge_step P b acc coord basis key v (N : Prop) : inv P b -> denotes b acc v -> ith_basis_element coord = Some basis -> P (key coord) ->
  (N -> nonconst b acc \/ basis = quad_one) ->
  spec b (basis ← blift (or_panic (ith_basis_element coord)); coord_node ← input (key coord); basis_node ← constant basis;
    term ← mul basis_node coord_node; add acc term) (result P (quad_add v (quad_mul basis (rho (key coord)))) N).
Proof.
  intros Hb Hacc Hbasis Hk HN. eapply spec_bind; [eapply (spec_lift _ _ basis (fun a b' => a = basis /\ b' = b)); [by rewrite Hbasis|done]|].
  intros ? ? _ [-> ->]. eapply spec_bind; [by apply (input_spec rho P)|]. intros c b1 E1 [(H1 & Hc & Hnc) _].
  eapply spec_bind; [by apply (constant_spec rho P)|]. intros k b2 E2 [(H2 & Hk2 & _) Hkn].
  assert (nonconst b2 c) as Hnc2 by (eapply nonconst_ext; [done|by apply Hnc]).
  eapply spec_bind; [apply (mul_spec rho P); [done..|by eapply denotes_ext]|]. intros t b3 E3 (H3 & Ht & Hnt).
  eapply spec_weaken; [apply (add_spec rho P); [done| |done]|].
  - eapply denotes_ext; [|done]. by etransitivity; [|etransitivity].
  - intros id b' _. apply result_weaken. intros n. destruct (HN n) as [Hacc'|Hone].
    + left. eapply nonconst_ext; [|done]. by etransitivity; [|etransitivity].
    + right. apply Hnt. split; [right; by rewrite Hkn, Hone|]. split; [by left|by right].
Qed.

Lemma merge_coords_spec P b key : inv P b -> P (key 0) -> P (key 1) ->
  spec b (merge_coords key) (result P (coords_val key) True).
Proof.
  intros Hb H0 H1. unfold merge_coords. eapply spec_bind; [by apply (constant_spec rho P)|]. intros acc b1 E1 [(Hb1 & Hacc & _) _].
  cbn [seq EXT_DEGREE bfor]. eapply spec_bind; [by eapply (merge_step P b1 acc 0 quad_one key _ True); try done; right|].
  intros a b2 E2 (Hb2 & Ha & Hna). eapply spec_bind.
  { eapply (merge_step P b2 a 1 (quad_new ZERO ONE) key _ True); try done. intros _. left. by apply Hna. }
  intros r b3 E3 Hr. by apply spec_ret.
Qed.

Lemma lower_ext_spec expr b pn pv v : num_randomness (counts l) = 2 -> inv constraint_key b -> Forall2 (denotes b) pn pv ->
  eval_ext_expr inputs l expr pv = Ok v -> spec b (lower_ext_expr expr l pn) (stands constraint_key v).
Proof.
  intros Hnum. revert b v. induction expr as [leaf|x IHx y IHy|x IHx y IHy|x IHx y IHy|x IHx]; intros b v Hb Hp He;
    cbn [eval_ext_expr lower_ext_expr] in *.
  { destruct leaf as [e|[] idx|c].
    - by eapply lower_base_spec.
    - apply eval_coords_Ok in He as (H0 & H1 & ->). eapply result_stands. by apply merge_coords_spec.
    - bind_inv He. bind_inv He. unfold lower_challenge. rewrite Hnum.
      destruct idx as [|[|idx]]; [injection He as <-; by eapply constraint_input..|done].
    - by eapply constraint_input.
    - injection He as <-. by apply constant_stands. }
  1-3: bind_inv He; bind_inv He; injection He as <-; eapply binary_stands; [by apply IHx| |];
    [intros b' E Hb'; apply IHy; [done|by eapply denotes_ext_all|done]|].
  - intros. eapply result_stands. by apply add_spec.
  - intros. eapply result_stands. apply sub_spec; [done|left; apply not_zpown|done..].
  - intros. eapply result_stands. by apply mul_spec.
  - bind_inv He. injection He as <-. eapply spec_bind; [by apply IHx|]. intros i b1 E1 [Hi Hd].
    eapply result_stands. by apply neg_spec.
Qed.

(** ** Periodic columns *)

Definition zpow (k : nat) : QuadFelt := foldl (fun z (_ : nat) => quad_mul z z) (rho ZK) (seq 0 k).

Lemma square_loop P b z n v : inv P b -> denotes b z v ->
  spec b (bfor (seq 0 n) (fun z_col _ => mul z_col z_col) z) (stands P (foldl (fun z (_ : nat) => quad_mul z z) v (seq 0 n))).
Proof.
  intros Hb Hz. eapply spec_weaken.
  - eapply (bfor_fold b (fun b id w => stands P w id b) eq); [done|by split|reflexivity|].
    intros b1 z1 v1 x x' E1 [H1 H2] _. eapply result_stands. by apply mul_spec.
  - done.
Qed.

Lemma constants_loop P b cs : inv P b ->
  spec b (bfor cs (fun l c => n ← constant c; mret (l ++ [n])) []) (fun ids b' => inv P b' /\ Forall2 (denotes b') ids cs).
Proof.
  intros Hb. eapply spec_weaken.
  - eapply (bfor_fold b (fun b ids vs => inv P b /\ Forall2 (denotes b) ids vs) eq _ cs _ (fun vs c => vs ++ [c]) [] []);
      [done|by split|reflexivity|].
    intros b1 ids vs x ? E1 [H1 H2] <-. eapply spec_bind; [by apply constant_stands|]. intros n b2 E2 [H3 H4].
    apply spec_ret. split; [done|]. apply Forall2_app; [by eapply denotes_ext_all|by constructor].
  - cbn. intros ids b' _ [H1 H2]. split; [done|]. rewrite (foldl_app_concat (fun c => [c])) in H2.
    replace (concat ((fun c : QuadFelt => [c]) <$> cs)) with cs in H2; [done|].
    clear. induction cs as [|c cs IH]; [done|]. cbn. by f_equal.
Qed.

Lemma horner_spec P b point z ids cs : inv P b -> denotes b point z -> Forall2 (denotes b) ids cs ->
  spec b (horner_eval point ids) (stands P (foldl (fun acc c => quad_add (quad_mul acc z) c) quad_zero (reverse cs))).
Proof.
  intros Hb Hz Hcs. unfold horner_eval. eapply spec_bind; [by apply constant_stands|]. intros acc b1 E1 [H1 H2].
  eapply spec_weaken; [eapply (bfor_fold b (fun b id w => stands P w id b) (denotes b)); [done|by split|by apply Forall2_reverse|]|done].
  intros b2 a v c c' E2 [H3 H4] Hc. cbn. eapply spec_bind; [apply (mul_spec rho P); [done|by eapply denotes_ext|done]|].
  intros m b3 E3 (H5 & H6 & _). replace (quad_add (quad_mul v z) c') with (quad_add c' (quad_mul z v)) by ring.
  eapply result_stands. apply add_spec; [done| |done]. eapply denotes_ext; [|done]. by etransitivity.
Qed.

(** The state of the loop over the columns *)
Definition periodic_rel (P : InputKey -> Prop) (b : DagBuilder) (s : gmap nat NodeId * list NodeId) (vs : list QuadFelt) : Prop :=
  inv P b /\ Forall2 (denotes b) s.2 vs /\ forall k id, s.1 !! k = Some id -> denotes b id (zpow k).

Lemma periodic_point P b (c : gmap nat NodeId) k : inv P b -> P ZK -> (forall k id, c !! k = Some id -> denotes b id (zpow k)) ->
  spec b (match c !! k with
          | Some z_col => mret (c, z_col)
          | None =>
            z_col ← input ZK;
            z_col ← bfor (seq 0 k) (fun z_col _ => mul z_col z_col) z_col;
            mret (<[k := z_col]> c, z_col)
          end) (fun x b' => inv P b' /\ denotes b' x.2 (zpow k) /\ forall k id, x.1 !! k = Some id -> denotes b' id (zpow k)).
Proof.
  intros Hb HZ Hc. destruct (c !! k) as [id|] eqn:E; [apply spec_ret; by split_and!; [|apply Hc|]|].
  eapply spec_bind; [by eapply input_stands|]. intros z b1 E1 [H1 H2]. eapply spec_bind; [by apply square_loop|].
  intros z' b2 E2 [H3 H4]. apply spec_ret. cbn. split_and!; [done..|]. intros j id Hj. destruct (decide (k = j)) as [<-|Hne].
  - rewrite lookup_insert_eq in Hj. by injection Hj as <-.
  - rewrite lookup_insert_ne in Hj by done. eapply denotes_ext; [|by apply Hc]. by etransitivity.
Qed.

Lemma periodic_step_spec P b n s vs coeffs r : P ZK -> periodic_rel P b s vs ->
  (log_pow ← log_pow n (length coeffs);
    let z_col := foldl (fun z (_ : nat) => quad_mul z z) (rho ZK) (seq 0 log_pow) in
    Ok (vs ++ [foldl (fun acc coeff => quad_add (quad_mul acc z_col) coeff) quad_zero (reverse coeffs)])) = Ok r ->
  spec b (periodic_step n s coeffs) (fun s' b' => periodic_rel P b' s' r).
Proof.
  intros HZ (Hb & Hout & Hc) Hr. destruct s as [c out]. cbn in *. bind_inv Hr. injection Hr as <-.
  eapply spec_bind; [eapply (spec_lift _ _ a (fun x b' => x = a /\ b' = b)); done|]. intros ? ? _ [-> ->].
  eapply spec_bind; [by apply periodic_point|]. intros [c1 z] b1 E1 (H1 & H2 & H3). cbn in *.
  eapply spec_bind; [by apply constants_loop|]. intros ids b2 E2 [H4 H5].
  eapply spec_bind; [eapply horner_spec; [done|by eapply denotes_ext|done]|]. intros v b3 E3 [H6 H7].
  apply spec_ret. split_and!; [done|cbn|cbn].
  - apply Forall2_app; [|by constructor]. eapply denotes_ext_all; [|done]. by etransitivity; [|etransitivity].
  - intros k id Hk. eapply denotes_ext; [|by apply H3]. by etransitivity.
Qed.

Lemma build_periodic_spec P b periodic vs : inv P b -> P ZK -> in_layout ZK ->
  eval_periodic_values periodic (rho ZK) = Ok vs ->
  spec b (build_periodic_nodes l periodic) (fun ids b' => inv P b' /\ Forall2 (denotes b') ids vs).
Proof.
  intros Hb HZ [i Hi] Hv. unfold build_periodic_nodes. destruct periodic as [|c0 cs].
  { injection Hv as <-. by apply spec_ret. }
  cbn [length Nat.eqb]. rewrite Hi. eapply spec_bind; [by apply (spec_lift _ _ () (fun _ b' => b' = b))|]. intros _ ? _ ->.
  eapply spec_bind.
  - eapply (bfor_sim b (periodic_rel P)); [done| |exact Hv|].
    + split_and!; [done|constructor|by intros].
    + cbn. intros b1 s vs' x s1' _ HR Hx. by eapply periodic_step_spec.
  - intros [c out] b1 E1 (H1 & H2 & _). by apply spec_ret.
Qed.

(** ** The quotient *)

(** A node that stands for a value and is not a constant *)
Definition good (b : DagBuilder) (id : NodeId) (v : QuadFelt) : Prop := denotes b id v /\ nonconst b id.

Lemma good_ext b b' id v : ext b b' -> good b id v -> good b' id v.
Proof. intros He [H1 H2]. split; [by eapply denotes_ext|by eapply nonconst_ext]. Qed.
Lemma good_ext_all b b' ids vs : ext b b' -> Forall2 (good b) ids vs -> Forall2 (good b') ids vs.
Proof. intros He H. eapply Forall2_impl; [exact H|]. intros. by eapply good_ext. Qed.

Lemma mul_good P b a c x y : inv P b -> good b a x -> good b c y ->
  spec b (mul a c) (fun id b' => inv P b' /\ good b' id (quad_mul x y)).
Proof.
  intros Hb [Ha Hna] [Hc Hnc]. eapply spec_weaken; [by apply (mul_spec rho P)|]. intros id b' _ (H1 & H2 & H3).
  split; [done|]. split; [done|]. apply H3. split_and!; [by left..|by left].
Qed.

Lemma input_good P b k : inv P b -> P k ->
  spec b (input k) (fun id b' => inv P b' /\ good b' id (rho k) /\ nodes b' !! index id = Some (Input k)).
Proof.
  intros Hb Hk. eapply spec_weaken; [by apply (input_spec rho P)|]. intros id b' _ [(H1 & H2 & H3) H4].
  split_and!; [done|split; auto|done].
Qed.

Definition deltas_rel (P : InputKey -> Prop) (b : DagBuilder) (s : list NodeId * list NodeId * NodeId * NodeId)
    (s' : list QuadFelt * list QuadFelt * QuadFelt * QuadFelt) : Prop :=
  let '(ds, ws, sh, w) := s in let '(ds', ws', sh', w') := s' in
  inv P b /\ Forall2 (good b) ds ds' /\ Forall2 (good b) ws ws' /\ good b sh sh' /\ good b w w'.

Lemma compute_deltas_spec P b k z s0 f w zv sv fv wv : inv P b -> good b z zv -> good b s0 sv -> good b f fv -> good b w wv ->
  spec b (compute_deltas_and_weights k z s0 f w) (fun x b' => inv P b' /\
    Forall2 (good b') x.1 (deltas_and_weights k zv sv fv wv).1 /\ Forall2 (good b') x.2 (deltas_and_weights k zv sv fv wv).2).
Proof.
  intros Hb Hz Hs Hf Hw. unfold compute_deltas_and_weights, deltas_and_weights. eapply spec_bind.
  - eapply (bfor_fold b (deltas_rel P) eq _ (seq 0 k) _ (fun '(deltas, weights, shift, weight) (_ : nat) =>
      (deltas ++ [quad_sub zv shift], weights ++ [weight], quad_mul shift fv, quad_mul weight fv)) _ ([], [], sv, wv));
      [done|split; [done|split; [by apply Forall2_nil|split; [by apply Forall2_nil|done]]]|reflexivity|].
    intros b1 [[[ds ws] sh] wt] [[[ds' ws'] sh'] wt'] x ? E1 (H1 & H2 & H3 & H4 & H5) _.
    eapply spec_bind; [apply (sub_spec rho P); [done|right; apply H4| |apply H4]; by eapply denotes_ext; [|apply Hz]|].
    intros d b2 E2 (H6 & H7 & H8).
    assert (ext b b2) as E02 by (by transitivity b1).
    eapply spec_bind; [apply mul_good; [done|by apply (good_ext b1)|by apply (good_ext b)]|].
    intros sh2 b3 E3 [H9 H10]. assert (ext b1 b3) as E13 by (by transitivity b2). assert (ext b b3) as E03 by (by transitivity b2).
    eapply spec_bind; [apply mul_good; [done|by apply (good_ext b1)|by apply (good_ext b)]|].
    intros w2 b4 E4 [H11 H12]. assert (ext b1 b4) as E14 by (by transitivity b3). assert (ext b2 b4) as E24 by (by transitivity b3).
    apply spec_ret. split_and!; [done|..|by apply (good_ext b3)|done].
    + apply Forall2_app; [by apply (good_ext_all b1)|]. constructor; [|done]. eapply good_ext; [exact E24|].
      split; [done|]. apply H8. right. apply H4.
    + apply Forall2_app; [by apply (good_ext_all b1)|]. constructor; [|done]. by apply (good_ext b1).
  - intros [[[ds ws] sh] wt] b1 E1. destruct (foldl _ _ _) as [[[ds' ws'] sh'] wt'].
    intros (H1 & H2 & H3 & _). by apply spec_ret.
Qed.

Definition chunk_key (chunk coord : nat) : InputKey := QuotientChunkCoord 0 chunk coord.
Definition chunk_vals (k : nat) : list QuadFelt := (fun chunk => coords_val (chunk_key chunk)) <$> seq 0 k.

Lemma chunks_loop P b k : inv P b -> (forall chunk coord, chunk < k -> coord < 2 -> P (chunk_key chunk coord)) ->
  spec b (bfor (seq 0 k) (fun out chunk => value ← merge_coords (QuotientChunkCoord 0 chunk); mret (out ++ [value])) [])
    (fun ids b' => inv P b' /\ Forall2 (good b') ids (chunk_vals k)).
Proof.
  intros Hb HP. eapply spec_weaken.
  - eapply (bfor_fold b (fun b ids vs => inv P b /\ Forall2 (good b) ids vs) (fun x x' => x = x' /\ x < k) _ (seq 0 k) _
      (fun vs chunk => vs ++ [coords_val (chunk_key chunk)]) [] []); [done|by split| |].
    + apply Forall2_same_length_lookup_2; [done|]. intros i x y Hx Hy. simplify_eq. apply lookup_seq in Hx. lia.
    + intros b1 ids vs x ? E1 [H1 H2] [<- Hx]. eapply spec_bind; [apply (merge_coords_spec P); [done|apply HP; lia..]|].
      intros n b2 E2 (H3 & H4 & H5). apply spec_ret. split; [done|].
      apply Forall2_app; [by eapply good_ext_all|]. constructor; [|done]. split; auto.
  - cbn. intros ids b' _ [H1 H2]. split; [done|]. rewrite (foldl_app_concat (fun c => [coords_val (chunk_key c)])) in H2.
    unfold chunk_vals. replace (_ <$> seq 0 k) with (concat ((fun c => [coords_val (chunk_key c)]) <$> seq 0 k)); [done|].
    clear. induction (seq 0 k) as [|c cs IH]; [done|]. cbn. by f_equal.
Qed.

Lemma zip_seq_Forall2 {A A'} (R : A -> A' -> Prop) n (xs : list A) ys : Forall2 R xs ys ->
  Forall2 (fun x y => x.1 = y.1 /\ x.1 < n + length ys /\ R x.2 y.2) (zip (seq n (length xs)) xs) (zip (seq n (length ys)) ys).
Proof.
  intros H. revert n. induction H as [|x y xs ys Hxy H IH]; intros n; cbn; constructor; cbn; [split_and!; [done|lia|done]|].
  eapply Forall2_impl; [apply IH|]. cbn. intros ? ? (? & ? & ?). split_and!; [done|lia|done].
Qed.

Lemma prod_loop P b i ds dvs p v : inv P b -> denotes b p v -> unitish b p -> Forall2 (good b) ds dvs ->
  spec b (bfor (zip (seq 0 (length ds)) ds) (fun prod '(j, delta) => if i =? j then mret prod else mul prod delta) p)
    (fun id b' => inv P b' /\ denotes b' id (foldl (fun prod '(j, delta) => if (i =? j) : bool then prod else quad_mul prod delta) v
       (zip (seq 0 (length dvs)) dvs)) /\ unitish b' id).
Proof.
  intros Hb Hp Hu Hd. eapply spec_weaken.
  - eapply (bfor_fold b (fun b id w => inv P b /\ denotes b id w /\ unitish b id) _ _ _ _
      (fun prod '(j, delta) => if (i =? j) : bool then prod else quad_mul prod delta)); [done|done|by eapply zip_seq_Forall2|].
    cbn. intros b1 q w [j d] [j' d'] E1 (H1 & H2 & H3) (Hj & _ & Hg). cbn in Hj, Hg. subst j'.
    destruct (i =? j); [by apply spec_ret|]. destruct (good_ext _ _ _ _ E1 Hg) as [Hg1 Hg2].
    eapply spec_weaken; [by apply (mul_spec rho P)|]. intros id b' _ (H4 & H5 & H6). split_and!; [done..|].
    left. apply H6. split_and!; [done|by left|by right].
  - done.
Qed.

Definition quotient_step (deltas weights : list QuadFelt) (q : QuadFelt) (x : nat * QuadFelt) : QuadFelt :=
  quad_add q (quad_mul (quad_mul (default quad_zero (weights !! x.1)) (prod_except x.1 deltas)) x.2).
Definition quotient_val (k : nat) : QuadFelt :=
  let '(deltas, weights) := deltas_and_weights k (rho ZPowN) (rho S0) (rho KeyF) (rho Weight0) in
  foldl (quotient_step deltas weights) quad_zero (zip (seq 0 k) (chunk_vals k)).

Lemma foldl_flag {A X} (f : A -> X -> A) (xs : list X) a fl :
  foldl (fun '(a, _) x => (f a x, true)) (a, fl) xs = (foldl f a xs, match xs with [] => fl | _ => true end).
Proof. revert a fl. induction xs as [|x xs IH]; intros a fl; [done|]. cbn. rewrite IH. by destruct xs. Qed.

(** One chunk of the recomposition *)
Lemma quotient_chunk P b ds ws dvs wvs q qv fl i c cv : inv P b -> Forall2 (good b) ds dvs -> Forall2 (good b) ws wvs ->
  denotes b q qv -> (fl = true -> nonconst b q) -> i < length wvs -> good b c cv ->
  spec b (prod ← constant quad_one;
    prod ← bfor (zip (seq 0 (length ds)) ds) (fun prod '(j, delta) => if i =? j then mret prod else mul prod delta) prod;
    w ← blift (arr_read ws i);
    zps ← mul w prod;
    term ← mul zps c;
    add q term) (fun id b' => inv P b' /\ good b' id (quotient_step dvs wvs qv (i, cv))).
Proof.
  intros Hb Hds Hws Hq Hfl Hi Hc. destruct (lookup_lt_is_Some_2 _ _ Hi) as [wv Hwv].
  destruct (Forall2_lookup_r _ _ _ _ _ Hws Hwv) as (w & Hw & Hgw).
  eapply spec_bind; [by apply (constant_spec rho P)|]. intros p b1 E1 [(H1 & H2 & _) Hone].
  eapply spec_bind; [apply (prod_loop P b1 i ds dvs p quad_one); [done|done|by right|by eapply good_ext_all]|].
  intros p2 b2 E2 (H3 & H4 & H5). eapply spec_bind; [eapply (spec_lift _ _ w (fun x b' => x = w /\ b' = b2)); [by apply arr_read_Ok|done]|].
  intros ? ? _ [-> ->]. assert (ext b b2) as E02 by (by etransitivity). destruct (good_ext _ _ _ _ E02 Hgw) as [Hw1 Hw2].
  eapply spec_bind; [by apply (mul_spec rho P)|]. intros z b3 E3 (H6 & H7 & H8).
  assert (ext b b3) as E03 by (by etransitivity).
  eapply spec_bind; [apply mul_good; [done|split; [done|apply H8; split_and!; [by left|done|by left]]|by eapply good_ext]|].
  intros t b4 E4 [H9 [H10 H11]]. eapply spec_weaken; [apply (add_spec rho P); [done| |done]|].
  - eapply denotes_ext; [|done]. by etransitivity.
  - intros id b' _ (H12 & H13 & H14). unfold quotient_step, prod_except. cbn. rewrite Hwv. split; [done|]. split; [done|auto].
Qed.

Lemma quotient_spec P b : inv P b -> 0 < num_quotient_chunks (counts l) -> P ZPowN -> P S0 -> P KeyF -> P Weight0 ->
  (forall chunk coord, chunk < num_quotient_chunks (counts l) -> coord < 2 -> P (chunk_key chunk coord)) ->
  spec b (build_quotient_recomposition_dag l)
    (fun id b' => inv P b' /\ good b' id (quotient_val (num_quotient_chunks (counts l)))).
Proof.
  intros Hb Hk HZ HS HF HW HC. unfold build_quotient_recomposition_dag, quotient_val. set (k := num_quotient_chunks (counts l)) in *.
  eapply spec_bind; [by apply (input_good P)|]. intros z b1 E1 (H1 & G1 & _).
  eapply spec_bind; [by apply (input_good P)|]. intros s b2 E2 (H2 & G2 & _).
  eapply spec_bind; [by apply (input_good P)|]. intros f b3 E3 (H3 & G3 & _).
  eapply spec_bind; [by apply (input_good P)|]. intros w b4 E4 (H4 & G4 & _).
  eapply spec_bind; [apply (compute_deltas_spec P b4 k z s f w); [done|eapply good_ext; [|exact G1]|eapply good_ext; [|exact G2]|
    eapply good_ext; [|exact G3]|done]; [by etransitivity; [|etransitivity]|by etransitivity|done]|].
  intros [ds ws] b5 E5 (H5 & D5 & W5). cbn in D5, W5.
  pose proof (deltas_and_weights_length k (rho ZPowN) (rho S0) (rho KeyF) (rho Weight0)) as Hlen.
  eapply spec_bind; [by apply chunks_loop|]. intros cs b6 E6 [H6 C6].
  eapply spec_bind; [by apply (constant_stands P)|]. intros q b7 E7 [H7 Q7].
  destruct (deltas_and_weights k _ _ _ _) as [dvs wvs]. cbn in D5, W5, Hlen.
  assert (length (chunk_vals k) = k) as Hcv by (unfold chunk_vals; by rewrite length_fmap, length_seq).
  eapply spec_weaken.
  - eapply (bfor_fold b6 (fun b id w => inv P b /\ denotes b id w.1 /\ (w.2 = true -> nonconst b id)) _ _ _ _
      (fun '(a, _) x => (quotient_step dvs wvs a x, true)) _ (quad_zero, false)); [done|done|by eapply zip_seq_Forall2|].
    intros b8 q' [qv fl] [i c] [i' cv] E8 (H8 & Q8 & F8) (Hi & Hlt & Hg). cbn in Hi, Hlt, Hg. subst i'.
    eapply spec_weaken; [apply (quotient_chunk P b8 ds ws dvs wvs q' qv fl i c cv); try done|].
    + eapply good_ext_all; [|done]. by etransitivity.
    + eapply good_ext_all; [|done]. by etransitivity.
    + lia.
    + by eapply good_ext.
    + cbn. intros id b' _ [? [? ?]]. by split_and!.
  - cbn. intros id b' _. rewrite foldl_flag, Hcv. cbn. intros (? & ? & Hn). split; [done|]. split; [done|]. apply Hn.
    destruct (chunk_vals k) as [|cv cvs]; [cbn in Hcv; lia|]. rewrite <-Hcv. done.
Qed.
End Lower.
