(* ===== verification/AceVerifier.v ===== *)
(** * The verifier graph

    [build_verifier_dag] on a validated layout: it returns whenever the constraints can be evaluated, the value of
    its root is the folded constraints minus the quotient times the vanishing polynomial, and the root is the
    last node. *)

From S2P Require Import Prelude Field Types Ace AceLayout AceDag AceDagCorrect AceLower.
From Stdlib Require Import Ring.
Import Dag.
#[local] Open Scope nat_scope.

(** ** Validated layouts *)

Lemma assert_true_Ok {E} b : assert_true (E := E) b = Ok () <-> b = true.
Proof. by destruct b. Qed.

Lemma for_each_check_inv {E X} (l : list X) (body : unit -> X -> outcome E unit) x :
  for_each l body () = Ok () -> x ∈ l -> body () x = Ok ().
Proof.
  induction l as [|y l IH]; intros H Hx; [by apply not_elem_of_nil in Hx|]. cbn in H. bind_inv H. destruct a.
  apply elem_of_cons in Hx as [->|Hx]; auto.
Qed.

Lemma foldl_max_le rs m n : (foldl (fun m r => m `max` region_end r) m rs <= n)%Z -> (m <= n)%Z /\ Forall (fun r => (region_end r <= n)%Z) rs.
Proof.
  revert m. induction rs as [|r rs IH]; intros m H; [by split|]. cbn in H. apply IH in H as [? ?].
  split; [lia|constructor; [lia|done]].
Qed.

(** A layout that passes its validation and whose regions end at a [usize], so that the saturating sums of the validation are exact *)
Definition validated {E} (l : InputLayout) : Prop :=
  validate (E := E) l = Ok () /\ Forall (fun r => Z.of_nat (offset r + width r) <= USIZE_MAX)%Z (all_regions (regions l)).

Section Validated.
Context {E : Type} (l : InputLayout).
Hypothesis Hv : validated (E := E) l.

Lemma validated_facts :
  Forall (fun r => offset r + width r <= total_inputs l) (all_regions (regions l)) /\
  width (quotient_curr (regions l)) = num_quotient_chunks (counts l) * EXT_DEGREE /\
  Forall (fun i => i < offset (stark_vars (regions l)) + width (stark_vars (regions l))) (stark_indices (stark l)) /\
  aux_rand_alpha l < offset (randomness (regions l)) + width (randomness (regions l)) /\
  aux_rand_beta l < offset (randomness (regions l)) + width (randomness (regions l)).
Proof using Hv.
  destruct Hv as [H Hfit]. unfold validate, umul, uadd in H. bind_inv H. bind_inv H. apply usize_inv in Ha0 as [-> _].
  do 2 bind_inv H. bind_inv H. apply usize_inv in Ha2 as [-> _]. do 3 bind_inv H. bind_inv H. apply usize_inv in Ha5 as [-> _].
  bind_inv H. bind_inv H. apply usize_inv in Ha6 as [-> _]. bind_inv H.
  repeat match goal with u : unit |- _ => destruct u end. rewrite ?assert_true_Ok in *.
  apply Z.leb_le, foldl_max_le in Ha as [_ Ha]. apply Nat.eqb_eq in Ha2.
  repeat match goal with E : (_ && _) = true |- _ => apply andb_true_iff in E as [_ E%Nat.ltb_lt] end.
  split_and!; try done.
  - apply Forall_forall. intros r Hr. pose proof (proj1 (Forall_forall _ _) Ha r Hr) as Hend. pose proof (proj1 (Forall_forall _ _) Hfit r Hr) as Hf.
    cbn in Hend, Hf. unfold region_end in Hend. lia.
  - apply Forall_forall. intros i Hi. pose proof (for_each_check_inv _ _ _ Ha5 Hi) as Hc.
    cbn in Hc. by apply assert_true_Ok, andb_true_iff in Hc as [_ Hc%Nat.ltb_lt].
Qed.

Lemma region_index_lt n r x i : all_regions (regions l) !! n = Some r -> region_index r x = Some i -> i < total_inputs l.
Proof using Hv.
  intros Hr Hi. destruct validated_facts as (Hf & _). pose proof (Forall_lookup_1 _ _ _ _ Hf Hr) as H. cbn in H.
  unfold region_index in Hi. destruct (Nat.ltb_spec x (width r)); [|done]. injection Hi as <-. lia.
Qed.

(** Every key that is present has a slot among the inputs. *)
Lemma validated_index k i : index_of l k = Some i -> i < total_inputs l.
Proof using Hv.
  destruct validated_facts as (Hf & _ & Hst & Ha & Hb).
  pose proof (Forall_lookup_1 _ _ 2 _ Hf eq_refl) as Hr. pose proof (Forall_lookup_1 _ _ 10 _ Hf eq_refl) as Hs. cbn in Hr, Hs.
  assert (Hst' : forall j x, stark_indices (stark l) !! j = Some x -> x < total_inputs l)
    by (intros j x Hj; pose proof (Forall_lookup_1 _ _ _ _ Hst Hj); cbn in *; lia).
  destruct k as [j| | |o j|o j co|j|j| | | | | | | | | | |o j co]; cbn [index_of].
  1, 6, 7: first [by apply (region_index_lt 0)|by apply (region_index_lt 9)|by apply (region_index_lt 1)].
  1, 2: intros [= <-]; lia.
  1: destruct o as [|[|o]]; [by apply (region_index_lt 3)|by apply (region_index_lt 6)|done].
  2-11: intros [= <-]; first [by apply (Hst' 0)|by apply (Hst' 1)|by apply (Hst' 2)|by apply (Hst' 3)|by apply (Hst' 4)|
    by apply (Hst' 5)|by apply (Hst' 6)|by apply (Hst' 7)|by apply (Hst' 8)|by apply (Hst' 9)].
  all: destruct (_ || _); [done|]; destruct o as [|[|o]]; [|..|done].
  - by apply (region_index_lt 4).
  - by apply (region_index_lt 7).
  - by apply (region_index_lt 5).
  - by apply (region_index_lt 8).
Qed.

Lemma validated_chunk chunk coord : chunk < num_quotient_chunks (counts l) -> coord < 2 ->
  is_Some (index_of l (QuotientChunkCoord 0 chunk coord)).
Proof using Hv.
  intros H1 H2. destruct validated_facts as (_ & Hw & _). cbn [index_of]. unfold EXT_DEGREE in *.
  rewrite (proj2 (Nat.leb_gt _ _) H1), (proj2 (Nat.leb_gt _ _) H2). cbn [orb]. unfold region_index.
  rewrite Hw, (proj2 (Nat.ltb_lt _ _)) by lia. by eexists.
Qed.
End Validated.

(** ** Nodes that are certainly new *)
Section Fresh.
Context {F : Felt} {Q : Quad}.
Variable rho : InputKey -> QuadFelt.

Lemma nonconst_not_zero b a : nonconst b a -> is_zero b a = false.
Proof. intros H. unfold is_zero. by rewrite nonconst_value. Qed.
Lemma nonconst_not_one b a : nonconst b a -> is_one b a = false.
Proof. intros H. unfold is_one. by rewrite nonconst_value. Qed.

(** Nothing refers to the last node. *)
Lemma cache_fresh P b c n : builder_ok P b -> S (index c) = length (nodes b) -> c ∈ operands n -> cache b !! n = None.
Proof.
  intros Hb Hc Hin. destruct (cache b !! n) as [id|] eqn:E; [|done]. destruct (ok_cache P b Hb n id E) as [_ Hn].
  destruct (ok_nodes P b Hb _ _ Hn) as [Ho _]. rewrite Forall_forall in Ho. destruct (Ho c Hin) as [_ Hlt].
  apply lookup_lt_Some in Hn. lia.
Qed.

(** The node is appended at the end of the graph. *)
Definition appended (P : InputKey -> Prop) (b : DagBuilder) (n : NodeKind) (v : QuadFelt) (id : NodeId) (b' : DagBuilder) : Prop :=
  builder_ok P b' /\ nodes b' = nodes b ++ [n] /\ index id = length (nodes b) /\ denotes rho b' id v.

Lemma intern_fresh P b n v : builder_ok P b -> Forall (fun a => id_dag a = dag_id b /\ index a < length (nodes b)) (operands n) ->
  operands n <> [] -> cache b !! n = None -> node_val rho (values rho (nodes b)) n = v -> spec b (intern n) (appended P b n v).
Proof.
  intros Hb Ho Hne Hc <-.
  destruct (intern_spec P b n Hb Ho) as (id & b' & Hi & He & Hb' & Hd & Hn & _); [by destruct n|].
  exists id, b'. split; [done|]. split; [done|]. unfold intern in Hi. rewrite Hc in Hi. injection Hi as <- <-.
  split_and!; [done..|]. replace (node_val rho (values rho (nodes b)) n) with (node_val rho (values rho (nodes b ++ [n])) n).
  - apply (denotes_node rho P _ _ _ Hb'); done.
  - apply node_val_prefix; [apply values_app|]. rewrite length_values. eapply Forall_impl; [exact Ho|]. by intros a [].
Qed.

Lemma sub_fresh P b a c x y : builder_ok P b -> denotes rho b a x -> denotes rho b c y -> nonconst b a \/ nonconst b c ->
  is_zero b c = false -> cache b !! Sub a c = None -> spec b (sub a c) (appended P b (Sub a c) (quad_sub x y)).
Proof.
  intros Hb Ha Hc Hn Hz Hf. unfold sub. eapply resolve_denotes; [done|]. eapply resolve_denotes; [done|].
  assert (Hg : spec b (if is_zero b c then mret a else intern (Sub a c)) (appended P b (Sub a c) (quad_sub x y))).
  { rewrite Hz. apply intern_fresh; [done|by eapply operands2|done..|]. cbn. by rewrite (denotes_val _ _ _ _ Ha), (denotes_val _ _ _ _ Hc). }
  destruct Hg as (r & b' & Hr & Hg). exists r, b'. split; [|done]. unfold with_builder.
  destruct Hn as [Hn|Hn]; apply nonconst_value in Hn; rewrite Hn; [done|]. by destruct (const_value b a).
Qed.

Add Ring quad_ring_fresh : quad_ring_theory.

Lemma mul_fresh P b a c x y : builder_ok P b -> denotes rho b a x -> denotes rho b c y -> nonconst b a -> nonconst b c ->
  cache b !! Mul a c = None -> cache b !! Mul c a = None ->
  spec b (mul a c) (fun id b' => exists p q, appended P b (Mul p q) (quad_mul x y) id b').
Proof.
  intros Hb Ha Hc Hna Hnc Hf1 Hf2. unfold mul. eapply resolve_denotes; [done|]. eapply resolve_denotes; [done|].
  unfold with_builder. assert (Hg : spec b (let '(l, r) := order_ids a c in intern (Mul l r))
    (fun id b' => exists p q, appended P b (Mul p q) (quad_mul x y) id b')).
  { assert (Hi : forall p q u w, denotes rho b p u -> denotes rho b q w -> cache b !! Mul p q = None -> quad_mul u w = quad_mul x y ->
      spec b (intern (Mul p q)) (fun id b' => exists p q, appended P b (Mul p q) (quad_mul x y) id b')).
    { intros p q u w Hp Hq Hpq <-. eapply spec_weaken; [|intros ? ? _ H; by eexists _, _].
      apply intern_fresh; [done|by eapply operands2|done..|]. cbn. by rewrite (denotes_val _ _ _ _ Hp), (denotes_val _ _ _ _ Hq). }
    destruct (order_ids_cases a c) as [-> | ->]; [by eapply Hi|]. eapply Hi; [done..|]. ring. }
  destruct Hg as (r & b' & Hr & Hg). exists r, b'. split; [|done].
  by rewrite (nonconst_value _ _ Hna), !nonconst_not_zero, !nonconst_not_one.
Qed.
End Fresh.

(** ** The whole graph *)
Section Verifier.
Context {F : Felt} {Q : Quad}.
Variable inputs : list QuadFelt.
Variable l : InputLayout.
Hypothesis Hvalid : validated (E := AceError) l.
Hypothesis Hlen : length inputs = total_inputs l.
Abbreviation rho := (rho inputs l).
Abbreviation k := (num_quotient_chunks (counts l)).

Lemma input_at_full key : in_layout l key -> input_at inputs l key = Ok (rho key).
Proof using Hvalid Hlen.
  intros [i Hi]. unfold input_at, AceLower.rho. rewrite Hi. cbn. pose proof (validated_index l Hvalid _ _ Hi) as Hlt.
  rewrite <-Hlen in Hlt. destruct (lookup_lt_is_Some_2 _ _ Hlt) as [v Hv]. by rewrite (arr_read_Ok _ _ _ Hv), Hv.
Qed.

Lemma eval_coords_full key : in_layout l (key 0) -> in_layout l (key 1) -> eval_coords inputs l key = Ok (coords_val inputs l key).
Proof using Hvalid Hlen.
  intros H0 H1. unfold eval_coords, coords_val. cbn [seq EXT_DEGREE for_each ith_basis_element or_panic]. rewrite !bind_Ok.
  rewrite (input_at_full _ H0), !bind_Ok. by rewrite (input_at_full _ H1), !bind_Ok.
Qed.

(** The reference quotient *)
Lemma eval_quotient_full : eval_quotient inputs l = Ok (quotient_val inputs l k).
Proof using Hvalid Hlen.
  unfold eval_quotient, quotient_val. rewrite (input_at_full ZPowN), (input_at_full S0), (input_at_full KeyF), (input_at_full Weight0)
    by (by eexists). rewrite !bind_Ok.
  pose proof (deltas_and_weights_length k (rho ZPowN) (rho S0) (rho KeyF) (rho Weight0)) as Hw.
  destruct (deltas_and_weights k _ _ _ _) as [ds ws]. cbn in Hw.
  assert (forall n m q, m + n <= k -> for_each (seq m n) (fun quotient chunk =>
      chunk_value ← eval_coords inputs l (QuotientChunkCoord 0 chunk);
      w ← arr_read ws chunk;
      Ok (quad_add quotient (quad_mul (quad_mul w (prod_except chunk ds)) chunk_value))) q =
    Ok (foldl (quotient_step ds ws) q (zip (seq m n) ((fun chunk => coords_val inputs l (chunk_key chunk)) <$> seq m n)))) as Hloop.
  { induction n as [|n IH]; intros m q Hm; [done|]. cbn [seq for_each fmap list_fmap zip foldl].
    rewrite (eval_coords_full (QuotientChunkCoord 0 m)) by (apply (validated_chunk l Hvalid); lia). rewrite bind_Ok.
    destruct (lookup_lt_is_Some_2 ws m) as [w Hwm]; [lia|]. rewrite (arr_read_Ok _ _ _ Hwm), !bind_Ok, IH by lia.
    f_equal. f_equal. unfold quotient_step. cbn. by rewrite Hwm. }
  apply Hloop. lia.
Qed.

(** The folded constraints *)
Lemma folded_spec b pn pv bc ec cl alpha acc v : num_randomness (counts l) = 2 ->
  inv (constraint_key l) b -> Forall2 (denotes rho b) pn pv -> denotes rho b alpha (rho Alpha) -> denotes rho b acc quad_zero ->
  eval_folded_constraints inputs l bc ec cl pv = Ok v ->
  spec b (bfor (ordered cl) (fun acc '(_, is_ext, idx) =>
     node ← (if is_ext : bool
             then e ← blift (arr_read ec idx); lower_ext_expr e l pn
             else e ← blift (arr_read bc idx); lower_base_expr e pn);
     acc_mul ← mul acc alpha;
     add acc_mul node) acc) (stands inputs l (constraint_key l) v).
Proof using Hvalid Hlen.
  intros Hnum Hb Hpn Ha Hacc Hv. unfold eval_folded_constraints in Hv. rewrite (input_at_full Alpha), bind_Ok in Hv by (by eexists).
  eapply (bfor_sim b (fun b id w => stands inputs l (constraint_key l) w id b)); [done|by split|exact Hv|].
  cbn. intros b1 a w [[pos is_ext] idx] w' E1 [H1 H2] Hw. bind_inv Hw. injection Hw as <-.
  assert (Hnode : spec b1 (if is_ext : bool then e ← blift (arr_read ec idx); lower_ext_expr e l pn
    else e ← blift (arr_read bc idx); lower_base_expr e pn) (stands inputs l (constraint_key l) a0)).
  { destruct is_ext; bind_inv Ha0; (eapply spec_bind; [eapply (spec_lift _ _ a1 (fun x b' => x = a1 /\ b' = b1)); done|]);
      intros ? ? _ [-> ->]; [eapply lower_ext_spec|eapply lower_base_spec]; try done; by eapply denotes_ext_all. }
  eapply spec_bind; [exact Hnode|]. intros n b2 E2 [H3 H4].
  eapply spec_bind; [apply (mul_spec rho (constraint_key l)); [done|by eapply denotes_ext|]|].
  { eapply denotes_ext; [|exact Ha]. by transitivity b1. }
  intros m b3 E3 (H5 & H6 & _). eapply result_stands. apply add_spec; [done..|]. by eapply denotes_ext.
Qed.

(** What the generated graph is *)
Definition verifier_graph (dag : AceDag) (v : QuadFelt) : Prop :=
  ordered_nodes (dag_nodes dag) /\ Forall (key_ok (in_layout l)) (dag_nodes dag) /\
  (exists pre a c, dag_nodes dag = pre ++ [Sub a c] /\ index (dag_root dag) = length pre) /\
  values rho (dag_nodes dag) !! index (dag_root dag) = Some v.

(** The last steps *)
Lemma root_spec b acc q v w : inv (in_layout l) b -> denotes rho b acc v -> good inputs l b q w ->
  spec b (z_pow_n ← input ZPowN;
     one ← constant quad_one;
     vanishing ← sub z_pow_n one;
     q_times_v ← mul q vanishing;
     root ← sub acc q_times_v;
     build root)
    (fun dag _ => verifier_graph dag (quad_sub v (quad_mul w (quad_sub (rho ZPowN) quad_one)))).
Proof using Hvalid Hlen.
  intros Hb Hacc Hq. eapply spec_bind; [by apply (input_good inputs l (in_layout l)); [|eexists]|].
  intros z b1 E1 (H1 & [Z1 Z2] & Z3). eapply spec_bind; [by apply (constant_spec rho (in_layout l))|].
  intros o b2 E2 [([Hb2 Hv2] & O1 & _) O2].
  assert (Hzo : is_zero b2 o = false).
  { unfold is_zero, const_value. rewrite O2. apply bool_decide_eq_false_2, quad_one_not_zero. }
  eapply spec_bind; [eapply (sub_fresh rho (in_layout l)); [done|by eapply denotes_ext|done|left; by eapply nonconst_ext|done|]|].
  { destruct (cache b2 !! Sub z o) as [id|] eqn:Ec; [|done]. destruct (ok_cache _ b2 Hb2 _ _ Ec) as [_ Hn].
    by destruct (Hv2 _ _ _ quad_one Hn (ext_lookup _ _ _ _ E2 Z3)). }
  intros vn b3 E3 (H3 & N3 & I3 & V3).
  assert (ext b b2) as E02 by (by transitivity b1). assert (ext b b3) as E03 by (by transitivity b2).
  assert (S (index vn) = length (nodes b3)) as L3 by (rewrite N3, length_app; cbn; lia).
  destruct (good_ext _ _ _ _ _ _ E03 Hq) as [Q1 Q2].
  eapply spec_bind; [eapply (mul_fresh rho (in_layout l)); [done|exact Q1|exact V3|done| |..]|].
  { exists (Sub z o). split; [|done]. by rewrite I3, N3, lookup_app_r, Nat.sub_diag by lia. }
  1, 2: eapply (cache_fresh (in_layout l)); [done..|]; cbn; set_solver.
  intros qv b4 E4 (p & q' & H4 & N4 & I4 & V4). assert (ext b b4) as E04 by (by transitivity b3).
  assert (S (index qv) = length (nodes b4)) as L4 by (rewrite N4, length_app; cbn; lia).
  assert (Hn4 : nonconst b4 qv) by (exists (Mul p q'); split; [by rewrite I4, N4, lookup_app_r, Nat.sub_diag by lia|done]).
  eapply spec_bind; [eapply (sub_fresh rho (in_layout l)); [done|by apply (denotes_ext _ b)|done|by right|by apply nonconst_not_zero|]|].
  { eapply (cache_fresh (in_layout l)); [done..|]. cbn. set_solver. }
  intros r b5 E5 (H5 & N5 & I5 & V5). unfold build. eapply resolve_denotes; [done|]. exists (mkAceDag (dag_id b5) (nodes b5) r), b5.
  split; [done|]. split; [done|]. split_and!; cbn.
  - by eapply ok_ordered.
  - apply Forall_lookup. intros i m Hm. by apply (ok_nodes _ b5 H5 i m Hm).
  - by eexists _, _, _.
  - apply V5.
Qed.

Lemma build_verifier_dag_spec fresh bc ec cl periodic pv v : num_randomness (counts l) = 2 -> 0 < k ->
  match periodic with
  | Some data => length data = num_periodic (counts l) /\ eval_periodic_values data (rho ZK) = Ok pv
  | None => pv = []
  end ->
  eval_folded_constraints inputs l bc ec cl pv = Ok v ->
  exists dag, build_verifier_dag fresh bc ec cl l periodic = Ok dag /\
    verifier_graph dag (quad_sub v (quad_mul (quotient_val inputs l k) (quad_sub (rho ZPowN) quad_one))).
Proof using Hvalid Hlen.
  intros Hnum Hk Hper Hv. unfold build_verifier_dag.
  assert (Hinv0 : inv (constraint_key l) (builder_new fresh)).
  { split; [split; cbn; [by intros ? ? ?|]|by intros ? ? ? ?]. intros n id. by rewrite lookup_empty. }
  assert (Hperiodic : spec (builder_new fresh) (match periodic with
      | Some data => _ ← blift (assert_true (length data =? num_periodic (counts l))); build_periodic_nodes l data
      | None => mret []
      end) (fun ids b' => inv (constraint_key l) b' /\ Forall2 (denotes rho b') ids pv)).
  { destruct periodic as [data|]; [|subst pv; apply spec_ret; by split; [|apply Forall2_nil]]. destruct Hper as [-> Hpv].
    rewrite Nat.eqb_refl. eapply spec_bind; [by apply (spec_lift _ _ () (fun _ b' => b' = builder_new fresh))|]. intros _ ? _ ->.
    apply build_periodic_spec; [done|by split; [|eexists]|by eexists|done]. }
  match goal with |- context [?m (builder_new fresh)] => assert (Hm : spec (builder_new fresh) m (fun dag _ =>
    verifier_graph dag (quad_sub v (quad_mul (quotient_val inputs l k) (quad_sub (rho ZPowN) quad_one))))) end.
  2: { destruct Hm as (dag & b' & -> & _ & Hg). by exists dag. }
  eapply spec_bind; [exact Hperiodic|]. intros pn b1 E1 [H1 D1].
  eapply spec_bind; [by eapply (input_stands inputs l (constraint_key l) _ Alpha); [|split; [|eexists]|]|]. intros al b2 E2 [H2 A2].
  eapply spec_bind; [by apply (constant_stands inputs l (constraint_key l))|]. intros a0 b3 E3 [H3 C3].
  eapply spec_bind; [eapply folded_spec; [done|done| |by eapply denotes_ext|done|exact Hv]|].
  { eapply denotes_ext_all; [|exact D1]. by transitivity b2. }
  intros acc b4 E4 [H4 C4].
  assert (H4' : inv (in_layout l) b4) by (eapply inv_weaken; [|exact H4]; by intros ? []).
  eapply spec_bind; [apply (quotient_spec inputs l (in_layout l)); [done|done|by eexists..|]|].
  { intros chunk coord Hc Hd. by apply (validated_chunk l Hvalid). }
  intros q b5 E5 [H5 Q5]. apply root_spec; [done|by eapply denotes_ext|done].
Qed.
End Verifier.
