(* ===== verification/AceCircuit.v ===== *)
(** * Circuits and their encoding

    [crates/ace-codegen/src/circuit.rs] and [encode.rs]: an expression graph is emitted as a flat circuit of inputs,
    constants and operations, and the circuit is encoded as the stream the processor reads: constants as pairs of field
    elements, one element per operation, padded with squarings of the last value to whole blocks.  The nodes of the stream
    are numbered downwards, inputs first. *)

From S2P Require Import Prelude Field Types Ace AceLayout AceDag.
#[local] Open Scope nat_scope.

Module Circuit.
Import Dag.
Section Circuit.
Context {F : Felt} {Q : Quad}.

(** ** The circuit: [circuit.rs] *)

Inductive AceNode := CInput (i : nat) | CConstant (i : nat) | COperation (i : nat).
Record AceOpNode := mkOp { op : AceOp; lhs : AceNode; rhs : AceNode }.
Record AceCircuit := mkCircuit {
  layout : InputLayout;
  constants : list QuadFelt;
  operations : list AceOpNode;
  root : AceNode;
}.

Definition node_value (constants : list QuadFelt) (node : AceNode) (inputs op_values : list QuadFelt) : aresult QuadFelt :=
  match node with
  | CInput i => arr_read inputs i
  | CConstant i => arr_read constants i
  | COperation i => arr_read op_values i
  end.

(** [AceCircuit::eval] *)
Definition eval (c : AceCircuit) (inputs : list QuadFelt) : aresult QuadFelt :=
  guard_err (length inputs =? total_inputs (layout c)) (InvalidInputLength (total_inputs (layout c)) (length inputs));;
  op_values ← for_each (zip (seq 0 (length (operations c))) (operations c)) (fun op_values '(idx, o) =>
    l ← node_value (constants c) (lhs o) inputs op_values;
    r ← node_value (constants c) (rhs o) inputs op_values;
    arr_write op_values idx (ace_apply (op o) l r)) (replicate (length (operations c)) quad_zero);
  node_value (constants c) (root c) inputs op_values.

Definition circuit_num_nodes (c : AceCircuit) : nat :=
  total_inputs (layout c) + length (constants c) + length (operations c).

(** The variables of [emit_circuit] *)
Record Emission := mkEmission {
  em_constants : list QuadFelt;
  em_constant_map : gmap QuadFelt nat;
  em_operations : list AceOpNode;
  em_node_map : list (option AceNode);
}.

(** [constant_map.entry(value).or_insert_with(..)] *)
Definition constant_entry (e : Emission) (value : QuadFelt) : nat * Emission :=
  match em_constant_map e !! value with
  | Some i => (i, e)
  | None =>
    let constants := em_constants e ++ [value] in
    let i := length constants - 1 in
    (i, mkEmission constants (<[value := i]> (em_constant_map e)) (em_operations e) (em_node_map e))
  end.

Definition lookup_node (map : list (option AceNode)) (id : NodeId) : aresult AceNode :=
  n ← arr_read map (index id);
  or_panic n.

Definition push_operation (e : Emission) (o : AceOpNode) : AceNode * Emission :=
  (COperation (length (em_operations e)),
   mkEmission (em_constants e) (em_constant_map e) (em_operations e ++ [o]) (em_node_map e)).

Definition emit_binary (e : Emission) (o : AceOp) (a b : NodeId) : aresult (AceNode * Emission) :=
  lhs ← lookup_node (em_node_map e) a;
  rhs ← lookup_node (em_node_map e) b;
  Ok (push_operation e (mkOp o lhs rhs)).

Definition emit_node (l : InputLayout) (e : Emission) (n : NodeKind) : aresult (AceNode * Emission) :=
  match n with
  | Input key =>
    match index_of l key with
    | Some input_idx => Ok (CInput input_idx, e)
    | None => Err (InvalidInputLayout (MissingInputKey key))
    end
  | Constant value => let '(const_idx, e) := constant_entry e value in Ok (CConstant const_idx, e)
  | Add a b => emit_binary e AceAdd a b
  | Sub a b => emit_binary e AceSub a b
  | Mul a b => emit_binary e AceMul a b
  | Neg a =>
    rhs ← lookup_node (em_node_map e) a;
    let '(zero, e) := constant_entry e quad_zero in
    Ok (push_operation e (mkOp AceSub (CConstant zero) rhs))
  end.

(** [emit_circuit] *)
Definition emit_circuit (dag : AceDag) (l : InputLayout) : aresult AceCircuit :=
  e ← for_each (zip (seq 0 (length (dag_nodes dag))) (dag_nodes dag)) (fun e '(idx, node) =>
    '(ace_node, e) ← emit_node l e node;
    node_map ← arr_write (em_node_map e) idx (Some ace_node);
    Ok (mkEmission (em_constants e) (em_constant_map e) (em_operations e) node_map))
    (mkEmission [] ∅ [] (replicate (length (dag_nodes dag)) None));
  root ← lookup_node (em_node_map e) (dag_root dag);
  Ok (mkCircuit l (em_constants e) (em_operations e) root).

(** ** The encoding: [encode.rs] *)

Definition BASE_FELTS_PER_EF : nat := EXT_DEGREE.
Definition ACE_READ_ROW_EF_NODES : nat := 2.
Definition CONST_EF_ALIGN : nat := 2.
Definition ADV_PIPE_BLOCK_FELTS : nat := 8.
Definition MAX_NODE_ID : Z := 2 ^ 30 - 1.

Record EncodedCircuit := mkEncoded { num_vars : nat; num_ops : nat; instructions : list felt }.

Definition enc_num_read_rows (e : EncodedCircuit) : nat := num_vars e / ACE_READ_ROW_EF_NODES.
Definition enc_num_eval_rows (e : EncodedCircuit) : nat := num_ops e.
Definition enc_num_constants (e : EncodedCircuit) : aresult nat :=
  n ← usub (length (instructions e)) (num_ops e);
  Ok (n / BASE_FELTS_PER_EF).
Definition enc_num_inputs (e : EncodedCircuit) : aresult nat :=
  n ← enc_num_constants e;
  usub (num_vars e) n.
Definition enc_num_nodes (e : EncodedCircuit) : nat := num_vars e + num_ops e.

(** [checked_sub(..).ok_or_else(..)] *)
Definition checked_sub (a b : nat) : aresult nat :=
  if b <=? a then Ok (a - b) else Err (InvalidInputLayout NodeIndexOutOfRange).

(** The closure [node_id] *)
Definition node_id (num_nodes num_input_nodes num_const_nodes : nat) (node : AceNode) : aresult Z :=
  input_start ← usub num_nodes 1;
  constants_start ← usub input_start num_input_nodes;
  ops_start ← usub constants_start num_const_nodes;
  id ← match node with
       | CInput idx => checked_sub input_start idx
       | CConstant idx => checked_sub constants_start idx
       | COperation idx => checked_sub ops_start idx
       end;
  Ok (Z.of_nat id).

(** The closure [op_tag] *)
Definition op_tag (o : AceOp) : Z := match o with AceSub => 0 | AceMul => 1 | AceAdd => 2 end.

(** The closure [encode_operation] *)
Definition encode_operation (num_nodes num_input_nodes num_const_nodes : nat) (o : AceOpNode) : aresult felt :=
  lhs_id ← node_id num_nodes num_input_nodes num_const_nodes (lhs o);
  rhs_id ← node_id num_nodes num_input_nodes num_const_nodes (rhs o);
  Ok (new_unchecked (lhs_id + rhs_id * 2 ^ 30 + op_tag (op o) * 2 ^ 60)).

(** The padding loop, [n] operations short of the full length *)
Fixpoint pad_operations (encode : AceOpNode -> aresult felt) (n last_node_index : nat) (instructions : list felt) :
    aresult (list felt) :=
  match n with
  | O => Ok instructions
  | S n =>
    let last_node := COperation last_node_index in
    i ← encode (mkOp AceMul last_node last_node);
    pad_operations encode n (last_node_index + 1) (instructions ++ [i])
  end.

(** [AceCircuit::to_ace] *)
Definition to_ace (c : AceCircuit) : aresult EncodedCircuit :=
  guard_err (total_inputs (layout c) mod ACE_READ_ROW_EF_NODES =? 0) (InvalidInputLayout UnalignedReadSection);;
  let num_input_nodes := total_inputs (layout c) in
  let num_const_nodes := next_multiple_of (length (constants c)) CONST_EF_ALIGN in
  let num_op_nodes := length (operations c) in
  guard_err (negb (num_op_nodes =? 0)) (InvalidInputLayout NoOperations);;
  let num_const_felts := num_const_nodes * BASE_FELTS_PER_EF in
  let num_op_felts := num_op_nodes in
  let len_circuit := num_const_felts + num_op_felts in
  let len_circuit_padded := next_multiple_of len_circuit ADV_PIPE_BLOCK_FELTS in
  num_padding_felts ← usub len_circuit_padded len_circuit;
  let num_padding_nodes := num_padding_felts in
  let num_nodes := num_input_nodes + num_const_nodes + num_op_nodes + num_padding_nodes in
  guard_err (Z.of_nat num_nodes <=? MAX_NODE_ID)%Z (InvalidInputLayout (TooManyNodes num_nodes));;
  let consts := concat ((fun k => [coef0 k; coef1 k]) <$> constants c) in
  let instructions := take num_const_felts consts ++ replicate (num_const_felts - length consts) ZERO in
  let encode := encode_operation num_nodes num_input_nodes num_const_nodes in
  instructions ← for_each (operations c) (fun instructions o => i ← encode o; Ok (instructions ++ [i])) instructions;
  last_node_index ← usub num_op_nodes 1;
  instructions ← pad_operations encode (len_circuit_padded - length instructions) last_node_index instructions;
  Ok (mkEncoded (num_input_nodes + num_const_nodes) (num_op_nodes + num_padding_nodes) instructions).

Definition is_padded (c : AceCircuit) : bool :=
  if negb (total_inputs (layout c) mod ACE_READ_ROW_EF_NODES =? 0) then false
  else if negb (length (constants c) mod CONST_EF_ALIGN =? 0) then false
  else
    let const_felts := length (constants c) * BASE_FELTS_PER_EF in
    let op_felts := length (operations c) in
    (const_felts + op_felts) mod ADV_PIPE_BLOCK_FELTS =? 0.
End Circuit.
End Circuit.
