(* ===== verification/AceCircuitCorrect.v ===== *)
(** * Emission and evaluation of circuits

    [eval_dag] computes the values of [AceDagCorrect]; the circuit that [emit_circuit] produces from a graph whose keys are
    in the layout refers only to earlier operations, and evaluates to the value of the root. *)

From S2P Require Import Prelude Field Types Ace AceLayout AceDag AceDagCorrect AceLower AceCircuit.
Import Dag Circuit.
#[local] Open Scope nat_scope.

Section CircuitCorrect.
Context {F : Felt} {Q : Quad}.
Variable inputs : list QuadFelt.
Variable l : InputLayout.
Hypothesis Hfull : forall k i, index_of l k = Some i -> i < length inputs.
Abbreviation rho := (rho inputs l).

Lemma rho_lookup k i : index_of l k = Some i -> inputs !! i = Some (rho k).
Proof using Hfull.
  intros Hi. unfold AceLower.rho. rewrite Hi. cbn. destruct (lookup_lt_is_Some_2 _ _ (Hfull _ _ Hi)) as [v Hv]. by rewrite Hv.
Qed.

(** ** Evaluation of a graph *)

Lemma eval_node_Ok vs n j : key_ok (in_layout l) n -> Forall (fun a => index a < j) (operands n) -> j <= length vs ->
  eval_node inputs l vs n = Ok (node_val rho (take j vs) n).
Proof using Hfull.
  intros Hk Ho Hj. assert (Hv : forall a, index a < j -> arr_read (E := AceError) vs (index a) = Ok (val_at (take j vs) a)).
  { intros a Ha. destruct (lookup_lt_is_Some_2 vs (index a)) as [v Hv]; [lia|]. rewrite (arr_read_Ok _ _ _ Hv).
    unfold val_at. rewrite lookup_take_lt, Hv by done. done. }
  destruct n; cbn in *; rewrite ?Forall_cons in Ho; rewrite ?Hv by apply Ho; try done.
  destruct Hk as [i Hi]. rewrite Hi. by rewrite (arr_read_Ok _ _ _ (rho_lookup _ _ Hi)).
Qed.

Lemma eval_dag_Ok dag v : length inputs = total_inputs l -> ordered_nodes (dag_nodes dag) -> Forall (key_ok (in_layout l)) (dag_nodes dag) ->
  values rho (dag_nodes dag) !! index (dag_root dag) = Some v -> eval_dag inputs l dag = Ok v.
Proof using Hfull.
  intros Hlen Ho Hk Hv. unfold eval_dag. rewrite Hlen, Nat.eqb_refl. cbn [guard_err mbind outcome_bind].
  set (ns := dag_nodes dag) in *.
  destruct (for_each_inv (fun i s => length s = length ns /\ take i s = values rho (take i ns)) (zip (seq 0 (length ns)) ns)
    (fun values '(idx, node) => value ← eval_node inputs l values node; arr_write values idx value)
    (replicate (length ns) quad_zero)) as (s & Hs & Hls & Hts).
  - split; [by rewrite length_replicate|by rewrite !take_0].
  - intros i [j n] s Hi [Hls Hts]. apply lookup_zip_Some in Hi as [Hj Hn]. apply lookup_seq in Hj as [-> Hlt]. cbn.
    rewrite (eval_node_Ok s n i); [|by eapply (Forall_lookup_1 _ _ _ _ Hk)|by apply Ho|lia]. rewrite bind_Ok.
    eexists. split; [apply arr_write_Ok; lia|]. rewrite length_insert. split; [done|].
    rewrite Nat.add_1_r, (take_S_r _ _ _ Hn), values_snoc, <-Hts.
    rewrite (take_S_r _ i (node_val rho (take i s) n)) by (apply list_lookup_insert_eq; lia). f_equal. by rewrite take_insert_ge by lia.
  - rewrite Hs, bind_Ok. rewrite length_zip, length_seq, Nat.min_id in Hts.
    rewrite !take_ge in Hts by lia. rewrite Hts. by apply arr_read_Ok.
Qed.

(** ** Values of a circuit *)

Definition cval (consts ovs : list QuadFelt) (n : AceNode) : option QuadFelt :=
  match n with CInput i => inputs !! i | CConstant i => consts !! i | COperation i => ovs !! i end.

Definition op_val (consts ovs : list QuadFelt) (o : AceOpNode) : QuadFelt :=
  ace_apply (op o) (default quad_zero (cval consts ovs (lhs o))) (default quad_zero (cval consts ovs (rhs o))).
Definition op_vals (consts : list QuadFelt) (ops : list AceOpNode) : list QuadFelt :=
  foldl (fun ovs o => ovs ++ [op_val consts ovs o]) [] ops.

(** The node exists when [nc] constants and [no] operations do. *)
Definition node_ok (nc no : nat) (n : AceNode) : Prop :=
  match n with CInput i => i < length inputs | CConstant i => i < nc | COperation i => i < no end.
Definition ops_ok (nc : nat) (ops : list AceOpNode) : Prop :=
  forall j o, ops !! j = Some o -> node_ok nc j (lhs o) /\ node_ok nc j (rhs o).

Lemma op_vals_snoc consts ops o : op_vals consts (ops ++ [o]) = op_vals consts ops ++ [op_val consts (op_vals consts ops) o].
Proof. unfold op_vals. by rewrite foldl_snoc. Qed.
Lemma length_op_vals consts ops : length (op_vals consts ops) = length ops.
Proof. induction ops as [|o ops IH] using rev_ind; [done|]. by rewrite op_vals_snoc, !length_app, IH. Qed.
Lemma op_vals_app consts ops ops' : op_vals consts ops `prefix_of` op_vals consts (ops ++ ops').
Proof.
  induction ops' as [|o ops' IH] using rev_ind; [by rewrite app_nil_r|]. rewrite app_assoc, op_vals_snoc. by apply prefix_app_r.
Qed.

Lemma cval_ok consts ovs n : node_ok (length consts) (length ovs) n -> exists v, cval consts ovs n = Some v.
Proof. destruct n; cbn; intros [v Hv]%lookup_lt_is_Some; by exists v. Qed.

Lemma cval_prefix consts consts' ovs ovs' n : consts `prefix_of` consts' -> ovs `prefix_of` ovs' ->
  node_ok (length consts) (length ovs) n -> cval consts' ovs' n = cval consts ovs n.
Proof.
  intros Hc Ho Hn. destruct n; cbn in *; [done|..]; destruct (lookup_lt_is_Some_2 _ _ Hn) as [v Hv];
    rewrite Hv; by eapply prefix_lookup_Some.
Qed.

Lemma op_val_prefix consts consts' ovs ovs' o : consts `prefix_of` consts' -> ovs `prefix_of` ovs' ->
  node_ok (length consts) (length ovs) (lhs o) -> node_ok (length consts) (length ovs) (rhs o) ->
  op_val consts' ovs' o = op_val consts ovs o.
Proof. intros. unfold op_val. by rewrite !(cval_prefix consts consts' ovs ovs'). Qed.

Lemma ops_ok_app nc ops ops' : ops_ok nc (ops ++ ops') -> ops_ok nc ops.
Proof. intros H j o Hj. apply H. by apply lookup_app_l_Some. Qed.

Lemma node_ok_mono nc no nc' no' n : nc <= nc' -> no <= no' -> node_ok nc no n -> node_ok nc' no' n.
Proof. destruct n; cbn; lia. Qed.

Lemma op_vals_consts consts consts' ops : consts `prefix_of` consts' -> ops_ok (length consts) ops ->
  op_vals consts' ops = op_vals consts ops.
Proof.
  intros Hc. induction ops as [|o ops IH] using rev_ind; intros Ho; [done|]. rewrite !op_vals_snoc, IH by (by eapply ops_ok_app).
  destruct (Ho (length ops) o) as [H1 H2]; [by rewrite lookup_app_r, Nat.sub_diag by lia|]. do 2 f_equal.
  apply op_val_prefix; rewrite ?length_op_vals; done.
Qed.

(** ** [AceCircuit::eval] *)

Lemma node_value_Ok consts n ovs v : cval consts ovs n = Some v -> node_value consts n inputs ovs = Ok v.
Proof. destruct n; cbn; apply arr_read_Ok. Qed.

Lemma eval_Ok c v : length inputs = total_inputs (layout c) -> ops_ok (length (constants c)) (operations c) ->
  cval (constants c) (op_vals (constants c) (operations c)) (root c) = Some v -> eval c inputs = Ok v.
Proof.
  intros Hlen Ho Hv. unfold eval. rewrite Hlen, Nat.eqb_refl. cbn [guard_err mbind outcome_bind].
  set (os := operations c) in *. set (cs := constants c) in *.
  destruct (for_each_inv (fun i s => length s = length os /\ take i s = op_vals cs (take i os)) (zip (seq 0 (length os)) os)
    (fun op_values '(idx, o) => l ← node_value cs (lhs o) inputs op_values; r ← node_value cs (rhs o) inputs op_values;
      arr_write op_values idx (ace_apply (op o) l r)) (replicate (length os) quad_zero)) as (s & Hs & Hls & Hts).
  - split; [by rewrite length_replicate|by rewrite !take_0].
  - intros i [j o] s Hi [Hls Hts]. apply lookup_zip_Some in Hi as [Hj Hn]. apply lookup_seq in Hj as [-> Hlt]. cbn.
    destruct (Ho _ _ Hn) as [H1 H2]. assert (length (take i s) = i) as Hti by (rewrite length_take; lia).
    assert (Hr : forall n, node_ok (length cs) i n -> node_value cs n inputs s = Ok (default quad_zero (cval cs (take i s) n))).
    { intros n Hn'. rewrite <-Hti in Hn'. destruct (cval_ok _ _ _ Hn') as [w Hw]. apply node_value_Ok.
      rewrite (cval_prefix cs cs (take i s) s), Hw; [done..| |done]. apply prefix_take. }
    rewrite (Hr _ H1), bind_Ok, (Hr _ H2), bind_Ok. eexists. split; [apply arr_write_Ok; lia|]. rewrite length_insert. split; [done|].
    rewrite Nat.add_1_r, (take_S_r _ _ _ Hn), op_vals_snoc, <-Hts. unfold op_val.
    rewrite (take_S_r _ i _ (list_lookup_insert_eq s i _ ltac:(lia))). f_equal. by rewrite take_insert_ge by lia.
  - rewrite Hs, bind_Ok. rewrite length_zip, length_seq, Nat.min_id in Hts. rewrite !take_ge in Hts by lia.
    rewrite Hts. by apply node_value_Ok.
Qed.

(** ** [emit_circuit] *)

(** The emission after the first nodes, whose values are [vs] *)
Record emission_ok (n : nat) (vs : list QuadFelt) (e : Emission) : Prop := {
  em_length : length (em_node_map e) = n;
  em_values j v : vs !! j = Some v -> exists a, em_node_map e !! j = Some (Some a) /\
    node_ok (length (em_constants e)) (length (em_operations e)) a /\
    cval (em_constants e) (op_vals (em_constants e) (em_operations e)) a = Some v;
  em_map v i : em_constant_map e !! v = Some i -> em_constants e !! i = Some v;
  em_ops : ops_ok (length (em_constants e)) (em_operations e);
}.

(** More constants and operations do not change what is there. *)
Lemma emission_grow n vs e e' : emission_ok n vs e -> em_node_map e' = em_node_map e ->
  em_constants e `prefix_of` em_constants e' -> em_operations e `prefix_of` em_operations e' ->
  (forall v i, em_constant_map e' !! v = Some i -> em_constants e' !! i = Some v) ->
  ops_ok (length (em_constants e')) (em_operations e') -> emission_ok n vs e'.
Proof.
  intros [H1 H2 H3 H4] Hm Hc Ho Hmap Hok. split; [by rewrite Hm| |done|done].
  intros j v Hj. destruct (H2 j v Hj) as (a & Ha & Hna & Hv). exists a. rewrite Hm. split; [done|].
  split; [eapply node_ok_mono; [by apply prefix_length|by apply prefix_length|done]|]. rewrite <-Hv. apply cval_prefix; [done| |].
  - rewrite <-(op_vals_consts _ _ (em_operations e) Hc H4). destruct Ho as [k ->]. apply op_vals_app.
  - by rewrite length_op_vals.
Qed.

Lemma constant_entry_ok n vs e v i e' : emission_ok n vs e -> constant_entry e v = (i, e') ->
  emission_ok n vs e' /\ em_constants e' !! i = Some v /\ em_operations e' = em_operations e /\ em_node_map e' = em_node_map e.
Proof.
  intros He Hc. unfold constant_entry in Hc. destruct (em_constant_map e !! v) as [j|] eqn:E; simplify_eq.
  { split_and!; [done| |done..]. by eapply em_map. }
  assert (length (em_constants e ++ [v]) - 1 = length (em_constants e)) as Hl by (rewrite length_app; cbn; lia).
  rewrite Hl. split_and!; [|cbn; by rewrite lookup_app_r, Nat.sub_diag by lia|done..].
  eapply emission_grow; [done|done|by apply prefix_app_r|done| |]; cbn.
  - intros w j Hj. destruct (decide (v = w)) as [<-|Hne].
    + rewrite lookup_insert_eq in Hj. injection Hj as <-. by rewrite lookup_app_r, Nat.sub_diag by lia.
    + rewrite lookup_insert_ne in Hj by done. apply lookup_app_l_Some. by eapply em_map.
  - intros j o Hj. destruct (em_ops _ _ _ He j o Hj). rewrite length_app. cbn.
    split; (eapply node_ok_mono; [| |done]; lia).
Qed.

Lemma push_operation_ok n vs e o a e' : emission_ok n vs e ->
  node_ok (length (em_constants e)) (length (em_operations e)) (lhs o) ->
  node_ok (length (em_constants e)) (length (em_operations e)) (rhs o) -> push_operation e o = (a, e') ->
  emission_ok n vs e' /\ a = COperation (length (em_operations e)) /\ em_operations e' = em_operations e ++ [o] /\
  em_node_map e' = em_node_map e /\ node_ok (length (em_constants e')) (length (em_operations e')) a /\
  cval (em_constants e') (op_vals (em_constants e') (em_operations e')) a =
    Some (op_val (em_constants e) (op_vals (em_constants e) (em_operations e)) o).
Proof.
  intros He Hl Hr Hp. injection Hp as <- <-. cbn [em_constants em_operations em_node_map]. split_and!; [|done..| |].
  - eapply emission_grow; [done|done|done|by apply prefix_app_r|exact (em_map _ _ _ He)|]. cbn.
    intros j o' Hj. apply snoc_lookup in Hj as [Hj|[-> ->]]; [by eapply em_ops|done].
  - cbn. rewrite length_app. cbn. lia.
  - cbn. by rewrite op_vals_snoc, lookup_app_r, length_op_vals, Nat.sub_diag by (rewrite length_op_vals; lia).
Qed.

Lemma lookup_node_ok n vs e a : emission_ok n vs e -> index a < length vs -> exists an,
  lookup_node (em_node_map e) a = Ok an /\ node_ok (length (em_constants e)) (length (em_operations e)) an /\
  cval (em_constants e) (op_vals (em_constants e) (em_operations e)) an = Some (val_at vs a).
Proof.
  intros He Ha. destruct (lookup_lt_is_Some_2 _ _ Ha) as [v Hv]. destruct (em_values _ _ _ He _ _ Hv) as (an & Hm & Hok & Hc).
  exists an. unfold lookup_node. rewrite (arr_read_Ok _ _ _ Hm). split_and!; [done..|]. unfold val_at. by rewrite Hv.
Qed.

(** The emitted node has the value of the graph node. *)
Definition emitted (n : nat) (vs : list QuadFelt) (e : Emission) (nk : NodeKind) (a : AceNode) (e' : Emission) : Prop :=
  emission_ok n vs e' /\ em_node_map e' = em_node_map e /\ node_ok (length (em_constants e')) (length (em_operations e')) a /\
  cval (em_constants e') (op_vals (em_constants e') (em_operations e')) a = Some (node_val rho vs nk) /\
  (operands nk <> [] -> S (length (em_operations e)) = length (em_operations e') /\ a = COperation (length (em_operations e))).

Lemma emit_binary_ok n vs e o x y nk : emission_ok n vs e -> index x < length vs -> index y < length vs ->
  ace_apply o (val_at vs x) (val_at vs y) = node_val rho vs nk ->
  exists a e', emit_binary e o x y = Ok (a, e') /\ emitted n vs e nk a e'.
Proof.
  intros He Hx Hy Hv. unfold emit_binary. destruct (lookup_node_ok _ _ _ _ He Hx) as (ax & -> & Hax & Hcx).
  destruct (lookup_node_ok _ _ _ _ He Hy) as (ay & -> & Hay & Hcy). rewrite !bind_Ok.
  destruct (push_operation e (mkOp o ax ay)) as [a e'] eqn:E.
  destruct (push_operation_ok n vs e (mkOp o ax ay) a e' He Hax Hay E) as (H1 & -> & H3 & H4 & H5 & H6).
  eexists _, _. split; [done|]. split_and!; [done..| |].
  - rewrite H6. unfold op_val. cbn. by rewrite Hcx, Hcy, <-Hv.
  - intros _. rewrite H3, length_app. cbn. split; [lia|done].
Qed.

Lemma emit_node_ok n vs e nk : emission_ok n vs e -> key_ok (in_layout l) nk -> Forall (fun a => index a < length vs) (operands nk) ->
  exists a e', emit_node l e nk = Ok (a, e') /\ emitted n vs e nk a e'.
Proof using Hfull.
  intros He Hk Ho. destruct nk as [key|c|x y|x y|x y|x]; cbn in Ho; rewrite ?Forall_cons in Ho; cbn [emit_node].
  - destruct Hk as [i Hi]. rewrite Hi. eexists _, _. split; [done|]. split_and!; [done|done|by eapply Hfull|by apply rho_lookup|done].
  - destruct (constant_entry e c) as [i e'] eqn:E. destruct (constant_entry_ok _ _ _ _ _ _ He E) as (H1 & H2 & H3 & H4).
    eexists _, _. split; [done|]. split_and!; [done|done|by eapply lookup_lt_Some|done|done].
  - apply emit_binary_ok; [done|apply Ho|apply Ho|done].
  - apply emit_binary_ok; [done|apply Ho|apply Ho|done].
  - apply emit_binary_ok; [done|apply Ho|apply Ho|done].
  - destruct (constant_entry e quad_zero) as [z e1] eqn:E. destruct (constant_entry_ok _ _ _ _ _ _ He E) as (H1 & H2 & H3 & H4).
    rewrite <-H4. destruct (lookup_node_ok _ _ _ x H1) as (ax & -> & Hax & Hcx); [tauto|]. rewrite bind_Ok.
    destruct (push_operation e1 (mkOp AceSub (CConstant z) ax)) as [a e'] eqn:Ep.
    destruct (push_operation_ok n vs e1 (mkOp AceSub (CConstant z) ax) a e' H1) as (G1 & -> & G3 & G4 & G5 & G6);
      [by eapply lookup_lt_Some|done|done|]. eexists _, _. split; [done|]. split_and!; [done|congruence|done| |].
    + rewrite G6. unfold op_val. cbn. by rewrite H2, Hcx.
    + intros _. rewrite G3, length_app, H3. cbn. split; [lia|done].
Qed.

(** One iteration of the loop *)
Lemma emit_step_ok n ns i nk e : ordered_nodes ns -> Forall (key_ok (in_layout l)) ns -> ns !! i = Some nk -> i < n ->
  emission_ok n (values rho (take i ns)) e ->
  exists a e1, emit_node l e nk = Ok (a, e1) /\ emitted n (values rho (take i ns)) e nk a e1 /\
    exists e2, (node_map ← arr_write (em_node_map e1) i (Some a);
      Ok (mkEmission (em_constants e1) (em_constant_map e1) (em_operations e1) node_map)) = Ok e2 (E := AceError) /\
    emission_ok n (values rho (take (i + 1) ns)) e2 /\ em_operations e2 = em_operations e1 /\ em_node_map e2 !! i = Some (Some a).
Proof using Hfull.
  intros Ho Hk Hi Hn He. assert (length (values rho (take i ns)) = i) as Hlen.
  { rewrite length_values, length_take. apply lookup_lt_Some in Hi. lia. }
  destruct (emit_node_ok n _ e nk He) as (a & e1 & Hem & Hd).
  { by eapply (Forall_lookup_1 _ _ _ _ Hk). }
  { rewrite Hlen. by apply Ho. }
  exists a, e1. split; [done|]. split; [done|]. destruct Hd as (H1 & H2 & H3 & H4 & _).
  rewrite arr_write_Ok by (by rewrite (em_length _ _ _ H1)). cbn. eexists. split; [done|]. cbn.
  split_and!; [|done|by apply list_lookup_insert_eq; rewrite (em_length _ _ _ H1)].
  rewrite Nat.add_1_r, (take_S_r _ _ _ Hi), values_snoc. split; cbn.
  - rewrite length_insert. apply H1.
  - intros j v Hj. apply snoc_lookup in Hj as [Hj|[-> ->]].
    + destruct (em_values _ _ _ H1 j v Hj) as (b & Hb & Hok & Hv). exists b.
      rewrite list_lookup_insert_ne by (apply lookup_lt_Some in Hj; lia). done.
    + exists a. rewrite Hlen. rewrite list_lookup_insert_eq by (by rewrite (em_length _ _ _ H1)). done.
  - apply H1.
  - apply H1.
Qed.

(** The circuit of a graph whose keys are in the layout; its last operation is the root when the root is the last node. *)
Definition circuit_of (dag : AceDag) (c : AceCircuit) (v : QuadFelt) : Prop :=
  layout c = l /\ ops_ok (length (constants c)) (operations c) /\
  node_ok (length (constants c)) (length (operations c)) (root c) /\
  cval (constants c) (op_vals (constants c) (operations c)) (root c) = Some v /\
  (forall pre nk, dag_nodes dag = pre ++ [nk] -> operands nk <> [] -> index (dag_root dag) = length pre ->
    exists n, length (operations c) = S n /\ root c = COperation n).

Lemma emit_circuit_Ok dag v : ordered_nodes (dag_nodes dag) -> Forall (key_ok (in_layout l)) (dag_nodes dag) ->
  values rho (dag_nodes dag) !! index (dag_root dag) = Some v ->
  exists c, emit_circuit dag l = Ok c /\ circuit_of dag c v.
Proof using Hfull.
  intros Ho Hk Hv. unfold emit_circuit. set (ns := dag_nodes dag) in *.
  destruct (for_each_inv (fun i e => emission_ok (length ns) (values rho (take i ns)) e /\
      forall j nk, i = S j -> ns !! j = Some nk -> operands nk <> [] ->
        exists m, length (em_operations e) = S m /\ em_node_map e !! j = Some (Some (COperation m)))
    (zip (seq 0 (length ns)) ns) (fun e '(idx, node) =>
      '(ace_node, e) ← emit_node l e node;
      node_map ← arr_write (em_node_map e) idx (Some ace_node);
      Ok (mkEmission (em_constants e) (em_constant_map e) (em_operations e) node_map))
    (mkEmission [] ∅ [] (replicate (length ns) None))) as (e & -> & He & Hlast).
  - split; [|by intros ? ? [=]]. rewrite take_0. split; cbn; [by rewrite length_replicate|by intros ? ?|by intros ? ?|by intros ? ?].
  - intros i [j nk] e Hi [He _]. apply lookup_zip_Some in Hi as [Hj Hn]. apply lookup_seq in Hj as [-> Hlt]. cbn.
    destruct (emit_step_ok (length ns) ns i nk e Ho Hk Hn Hlt He) as (a & e1 & -> & Hd & e2 & Hw & He2 & Hops & Hm).
    rewrite bind_Ok. exists e2. split; [exact Hw|]. split; [done|]. intros j nk' Hj Hnk' Hop.
    assert (j = i) as -> by lia. simplify_eq. destruct Hd as (_ & _ & _ & _ & Hd). destruct (Hd Hop) as [Hl ->].
    exists (length (em_operations e)). by rewrite Hops.
  - rewrite length_zip, length_seq, Nat.min_id in He, Hlast. rewrite take_ge in He by lia. rewrite bind_Ok.
    assert (Hroot : index (dag_root dag) < length (values rho ns)) by (by eapply lookup_lt_Some).
    destruct (lookup_node_ok _ _ _ _ He Hroot) as (an & Hl & Hok & Hc). rewrite Hl, bind_Ok. eexists. split; [done|].
    unfold val_at in Hc. rewrite Hv in Hc. split_and!; [done|apply He|done|done|]. cbn.
    intros pre nk Hpre Hop Hr. unfold ns in Hlast; rewrite Hpre in Hlast. destruct (Hlast (length pre) nk) as (m & Hm1 & Hm2).
    + rewrite length_app. cbn. lia.
    + by rewrite lookup_app_r, Nat.sub_diag by lia.
    + done.
    + exists m. split; [done|]. unfold lookup_node in Hl. rewrite Hr, (arr_read_Ok _ _ _ Hm2) in Hl. by injection Hl as <-.
Qed.

(** A circuit is emitted only when every key is in the layout. *)
Lemma emit_loop_keys (ns : list NodeKind) k e e' :
  for_each (zip (seq k (length ns)) ns) (fun e '(idx, node) =>
    '(ace_node, e) ← emit_node l e node;
    node_map ← arr_write (em_node_map e) idx (Some ace_node);
    Ok (mkEmission (em_constants e) (em_constant_map e) (em_operations e) node_map)) e = Ok e' ->
  Forall (key_ok (in_layout l)) ns.
Proof.
  revert k e. induction ns as [|n ns IH]; intros k e H; [done|]. cbn [length seq zip for_each] in H. bind_inv H. constructor; [|by eapply IH].
  destruct n as [key| | | | |]; try done. cbn in Ha. unfold in_layout. cbn. by destruct (index_of l key); [eexists|].
Qed.

Lemma emit_circuit_keys dag c : emit_circuit dag l = Ok c -> Forall (key_ok (in_layout l)) (dag_nodes dag).
Proof. unfold emit_circuit. intros H. bind_inv H. by eapply emit_loop_keys. Qed.
End CircuitCorrect.
