(* ===== verification/AceEncode.v ===== *)
(** * The encoded circuit on the processor

    The stream that [to_ace] produces, placed in memory after the inputs, is evaluated by [eval_circuit_impl] to the values
    of the circuit followed by repeated squares of the last one; so the processor accepts exactly when the
    last operation of the circuit is zero. *)

From S2P Require Import Prelude Field Types Memory Ace AceCorrect AceLayout AceDag AceDagCorrect AceCircuit AceCircuitCorrect.
From Stdlib Require Import Ring.
Import Dag Circuit.
#[local] Open Scope nat_scope.

Section Encode.
Context {F : Felt} {Q : Quad}.

(** ** The stream *)

Add Ring quad_ring_encode : quad_ring_theory.

(** The wire of a node among inputs, constants and operations *)
Definition wire (ni nc : nat) (n : AceNode) : nat :=
  match n with CInput i => i | CConstant i => ni + i | COperation i => ni + nc + i end.
Definition gate (total ni nc : nat) (o : AceOpNode) : Z * Z * AceOp :=
  (Z.of_nat (total - 1 - wire ni nc (lhs o)), Z.of_nat (total - 1 - wire ni nc (rhs o)), op o).
Definition gate_felt (total ni nc : nat) (o : AceOpNode) : felt :=
  let '(a, b, o) := gate total ni nc o in encode_instruction a b o.

(** The [n] squarings that follow operation [last] *)
Definition pads (last n : nat) : list AceOpNode := (fun i => mkOp AceMul (COperation i) (COperation i)) <$> seq last n.

Lemma node_id_Ok total ni nc n : 0 < total -> ni + nc < total -> wire ni nc n < total ->
  match n with CConstant i => i < nc | CInput i => i < ni | COperation i => True end ->
  node_id total ni nc n = Ok (Z.of_nat (total - 1 - wire ni nc n)).
Proof.
  intros H0 H1 H2 H3. unfold node_id. rewrite usub_Ok, bind_Ok, usub_Ok, bind_Ok, usub_Ok, bind_Ok by lia.
  unfold checked_sub. destruct n as [i|i|i]; cbn [wire] in *;
    match goal with |- context [?a <=? ?b] => destruct (Nat.leb_spec a b); [|lia] end; rewrite bind_Ok; do 2 f_equal; lia.
Qed.

Definition op_in (total ni nc : nat) (o : AceOpNode) : Prop :=
  (wire ni nc (lhs o) < total /\ match lhs o with CConstant i => i < nc | CInput i => i < ni | COperation i => True end) /\
  (wire ni nc (rhs o) < total /\ match rhs o with CConstant i => i < nc | CInput i => i < ni | COperation i => True end).

Lemma encode_operation_Ok total ni nc o : 0 < total -> ni + nc < total -> op_in total ni nc o ->
  encode_operation total ni nc o = Ok (gate_felt total ni nc o).
Proof.
  intros H0 H1 [[? ?] [? ?]]. unfold encode_operation. rewrite !node_id_Ok by done. by rewrite !bind_Ok.
Qed.

Lemma encode_loop total ni nc ops acc : 0 < total -> ni + nc < total -> Forall (op_in total ni nc) ops ->
  for_each ops (fun instructions o => i ← encode_operation total ni nc o; Ok (instructions ++ [i])) acc =
  Ok (acc ++ (gate_felt total ni nc <$> ops)).
Proof.
  intros H0 H1. revert acc. induction ops as [|o ops IH]; intros acc Hf; cbn [for_each]; [by rewrite app_nil_r|].
  apply Forall_cons in Hf as [Ho Hf]. rewrite encode_operation_Ok, !bind_Ok, IH by done. cbn. by rewrite <-app_assoc.
Qed.

Lemma pad_operations_Ok total ni nc n last acc : 0 < total -> ni + nc < total -> ni + nc + last + n <= total ->
  pad_operations (encode_operation total ni nc) n last acc = Ok (acc ++ (gate_felt total ni nc <$> pads last n)).
Proof.
  intros H0 H1. revert last acc. induction n as [|n IH]; intros last acc Hn; cbn [pad_operations]; [by rewrite app_nil_r|].
  rewrite encode_operation_Ok by (done || (unfold op_in; cbn; lia)). rewrite bind_Ok, IH by lia. unfold pads. cbn.
  rewrite <-app_assoc, Nat.add_1_r. done.
Qed.

(** [next_multiple_of] by cases on the divisors used *)
Lemma next_multiple_2 n : exists k, next_multiple_of n 2 = 2 * k /\ n <= 2 * k < n + 2.
Proof.
  destruct (next_multiple_of_spec n 2) as [H1 H2]; [lia|]. pose proof (next_multiple_of_ge n 2 ltac:(lia)) as H3.
  apply Nat.Lcm0.mod_divide in H1 as [k Hk]. exists k. lia.
Qed.
Lemma next_multiple_8 n : exists k, next_multiple_of n 8 = 8 * k /\ n <= 8 * k < n + 8.
Proof.
  destruct (next_multiple_of_spec n 8) as [H1 H2]; [lia|]. pose proof (next_multiple_of_ge n 8 ltac:(lia)) as H3.
  apply Nat.Lcm0.mod_divide in H1 as [k Hk]. exists k. lia.
Qed.

Definition quad_felts (vs : list QuadFelt) : list felt := concat ((fun v => [coef0 v; coef1 v]) <$> vs).

Lemma length_quad_felts vs : length (quad_felts vs) = 2 * length vs.
Proof. unfold quad_felts. induction vs as [|v vs IH]; [done|]. cbn in *. lia. Qed.
Lemma quad_felts_app vs ws : quad_felts (vs ++ ws) = quad_felts vs ++ quad_felts ws.
Proof. unfold quad_felts. by rewrite fmap_app, concat_app. Qed.
Lemma quad_felts_zeros n : quad_felts (replicate n quad_zero) = replicate (2 * n) ZERO.
Proof.
  induction n as [|n IH]; [done|]. replace (2 * S n) with (S (S (2 * n))) by lia. cbn [replicate]. rewrite <-IH.
  unfold quad_felts, quad_zero. cbn. by rewrite coef0_new, coef1_new.
Qed.

(** What [to_ace] returns: constants padded with zeros, operations padded with squarings, whole blocks. *)
Record encoding_of (c : AceCircuit) (nc np : nat) (e : EncodedCircuit) : Prop := {
  enc_vars : num_vars e = total_inputs (layout c) + nc;
  enc_ops : num_ops e = length (operations c) + np;
  enc_consts : exists k, nc = 2 * k /\ length (constants c) <= nc;
  enc_even : total_inputs (layout c) mod 2 = 0;
  enc_some : 0 < length (operations c);
  enc_block : exists k, length (operations c) + np = 4 * k;
  enc_small : (Z.of_nat (num_vars e + num_ops e) <= 2 ^ 30 - 1)%Z;
  enc_stream : instructions e = quad_felts (constants c ++ replicate (nc - length (constants c)) quad_zero) ++
    (gate_felt (num_vars e + num_ops e) (total_inputs (layout c)) nc <$>
      (operations c ++ pads (length (operations c) - 1) np));
}.

Lemma to_ace_Ok c ni : ni = total_inputs (layout c) -> (forall j o, operations c !! j = Some o ->
    (match lhs o with CInput i => i < ni | CConstant i => i < length (constants c) | COperation i => i < j end) /\
    (match rhs o with CInput i => i < ni | CConstant i => i < length (constants c) | COperation i => i < j end)) ->
  match to_ace c with
  | Ok e => exists nc np, encoding_of c nc np e
  | Err (InvalidInputLayout UnalignedReadSection) => ni mod 2 <> 0
  | Err (InvalidInputLayout NoOperations) => operations c = []
  | Err (InvalidInputLayout (TooManyNodes n)) => (2 ^ 30 <= Z.of_nat n)%Z
  | _ => False
  end.
Proof.
  intros Hni Hops. unfold to_ace, ACE_READ_ROW_EF_NODES. rewrite <-Hni. destruct (Nat.eqb_spec (ni mod 2) 0) as [Hev|]; [|done]. cbn [guard_err]. rewrite bind_Ok.
  destruct (Nat.eqb_spec (length (operations c)) 0) as [Hz|Hz]; [by apply nil_length_inv in Hz|]. cbn [guard_err negb]. rewrite bind_Ok.
  unfold CONST_EF_ALIGN, BASE_FELTS_PER_EF, EXT_DEGREE, ADV_PIPE_BLOCK_FELTS.
  cbv zeta. destruct (next_multiple_2 (length (constants c))) as (kc & -> & Hkc).
  destruct (next_multiple_8 (2 * kc * 2 + length (operations c))) as (kp & -> & Hkp).
  rewrite (usub_Ok (8 * kp)), bind_Ok by lia. set (np := 8 * kp - (2 * kc * 2 + length (operations c))).
  set (total := ni + 2 * kc + length (operations c) + np).
  destruct (Z.leb_spec (Z.of_nat total) MAX_NODE_ID) as [Hmax|Hmax].
  2: { cbn. change MAX_NODE_ID with (2 ^ 30 - 1)%Z in Hmax. lia. }
  cbn [guard_err]. rewrite bind_Ok. fold (quad_felts (constants c)). rewrite length_quad_felts, take_ge by (rewrite length_quad_felts; lia).
  rewrite encode_loop; [|lia|lia|].
  2: { apply Forall_lookup. intros j o Hj. destruct (Hops j o Hj) as [H1 H2]. apply lookup_lt_Some in Hj. unfold op_in.
       split; [destruct (lhs o)|destruct (rhs o)]; cbn in *; lia. }
  rewrite bind_Ok, usub_Ok, bind_Ok by lia.
  rewrite !length_app, length_replicate, length_fmap, length_quad_felts.
  replace (8 * kp - (2 * length (constants c) + (2 * kc * 2 - 2 * length (constants c)) + length (operations c))) with np by lia.
  rewrite pad_operations_Ok, bind_Ok by lia. exists (2 * kc), np.
  split; cbn [num_vars num_ops instructions]; rewrite <-?Hni; try done; try lia.
  - exists kc. lia.
  - exists (2 * kp - kc). lia.
  - change MAX_NODE_ID with (2 ^ 30 - 1)%Z in Hmax. replace (ni + 2 * kc + (length (operations c) + np)) with total by lia. done.
  - replace (ni + 2 * kc + (length (operations c) + np)) with total by lia.
    rewrite quad_felts_app, quad_felts_zeros, fmap_app, <-!app_assoc. do 2 f_equal. f_equal. lia.
Qed.

(** ** The circuit in memory *)

(** The memory of the context holds the elements from the address on. *)
Definition mem_holds (m : Memory) (c : ContextId) (a : Z) (data : list felt) : Prop :=
  forall i x, data !! i = Some x -> mem_cell m c (a + Z.of_nat i) = x.

Lemma mem_holds_app m c a xs ys : mem_holds m c a (xs ++ ys) <-> mem_holds m c a xs /\ mem_holds m c (a + Z.of_nat (length xs)) ys.
Proof.
  split.
  - intros H. split; intros i x Hi; [apply H; by apply lookup_app_l_Some|].
    rewrite <-Z.add_assoc, <-Nat2Z.inj_add. apply H. by rewrite lookup_app_r, Nat.add_comm, Nat.add_sub by lia.
  - intros [H1 H2] i x Hi. apply lookup_app_Some in Hi as [Hi|[Hle Hi]]; [by apply H1|].
    rewrite <-(H2 _ _ Hi). f_equal. lia.
Qed.

Lemma mem_holds_cons m c a x xs : mem_holds m c a (x :: xs) <-> mem_cell m c a = x /\ mem_holds m c (a + 1) xs.
Proof.
  change (x :: xs) with ([x] ++ xs). rewrite mem_holds_app. cbn. split; intros [H1 H2]; split; try done.
  - rewrite <-(H1 0 x eq_refl). f_equal. lia.
  - intros [|i] y Hy; [|done]. injection Hy as <-. by rewrite Z.add_0_r.
Qed.

Lemma canonical_offset (ptr : felt) d : (0 <= d)%Z -> (⟦ptr⟧ + d <= 2 ^ 32)%Z -> (⟦(ptr + new_unchecked d)%F⟧ = ⟦ptr⟧ + d)%Z.
Proof.
  intros Hd Hle. felt_ranges. rewrite canonical_add_small; rewrite canonical_new; unfold modulus; lia.
Qed.

Lemma read_inputs_mem m c n ptr vs : (⟦ptr⟧ mod 4 = 0)%Z -> length vs = 2 * n -> (⟦ptr⟧ + 4 * Z.of_nat n <= 2 ^ 32)%Z ->
  mem_holds m c ⟦ptr⟧ (quad_felts vs) -> exists ptr', read_inputs m c ptr n = Some (vs, ptr') /\ (⟦ptr'⟧ = ⟦ptr⟧ + 4 * Z.of_nat n)%Z.
Proof.
  revert ptr vs. induction n as [|n IH]; intros ptr vs Hal Hlen Hle Hm.
  { destruct vs; [|done]. exists ptr. split; [done|lia]. }
  destruct vs as [|v1 [|v2 vs]]; cbn in Hlen; try lia. felt_ranges.
  change (quad_felts (v1 :: v2 :: vs)) with (coef0 v1 :: coef1 v1 :: coef0 v2 :: coef1 v2 :: quad_felts vs) in Hm.
  rewrite !mem_holds_cons in Hm. destruct Hm as (H0 & H1 & H2 & H3 & Hm). cbn [read_inputs].
  rewrite read_word_eq, (proj2 (Z.ltb_lt _ _)), (proj2 (Z.eqb_eq _ _)) by lia.
  assert (Hp : (⟦(ptr + PTR_OFFSET_WORD)%F⟧ = ⟦ptr⟧ + 4)%Z) by (apply canonical_offset; lia).
  destruct (IH (ptr + PTR_OFFSET_WORD)%F vs) as (ptr' & Hr & Hp').
  - rewrite Hp. by rewrite <-Z.add_mod_idemp_l, Hal by lia.
  - lia.
  - lia.
  - rewrite Hp. by replace (⟦ptr⟧ + 4)%Z with (⟦ptr⟧ + 1 + 1 + 1 + 1)%Z by lia.
  - exists ptr'. rewrite Hr. cbn [mbind option_bind w0 w1 w2 w3]. split; [|lia]. rewrite H0, H1.
    replace (⟦ptr⟧ + 2)%Z with (⟦ptr⟧ + 1 + 1)%Z by lia. replace (⟦ptr⟧ + 3)%Z with (⟦ptr⟧ + 1 + 1 + 1)%Z by lia.
    by rewrite H2, H3, !quad_eta.
Qed.

Lemma read_gates_mem m c ptr total ni nc ops : (Z.of_nat total <= 2 ^ 30 - 1)%Z -> (⟦ptr⟧ + Z.of_nat (length ops) <= 2 ^ 32)%Z ->
  mem_holds m c ⟦ptr⟧ (gate_felt total ni nc <$> ops) -> read_gates m c ptr (length ops) = Some (gate total ni nc <$> ops).
Proof.
  intros Ht. revert ptr. induction ops as [|o ops IH]; intros ptr Hle Hm; [done|]. cbn [fmap list_fmap] in Hm.
  apply mem_holds_cons in Hm as [H0 Hm]. felt_ranges. cbn [length read_gates fmap list_fmap]. cbn [length] in Hle.
  rewrite read_element_eq, (proj2 (Z.ltb_lt _ _)), H0 by lia.
  assert (decode_instruction (gate_felt total ni nc o) = Some (gate total ni nc o)) as ->.
  { unfold gate_felt, gate. apply decode_instruction_iff. change MAX_ID with (2 ^ 30 - 1)%Z. split_and!; try lia. done. }
  cbn. rewrite IH; [done| |]; unfold PTR_OFFSET_ELEM; rewrite <-new_unchecked_1, canonical_offset by lia; [lia|done].
Qed.

(** ** Evaluation of the gates *)
Section Gates.
Variable inputs : list QuadFelt.

Lemma wire_value_eq total vals i : i < total -> wire_value (Z.of_nat total) vals (Z.of_nat (total - 1 - i)) = vals !! i.
Proof.
  intros Hi. unfold wire_value. rewrite (proj2 (Z.leb_le _ _)) by lia. f_equal. lia.
Qed.

Lemma wire_lookup cp ovs n : node_ok inputs (length cp) (length ovs) n ->
  (inputs ++ cp ++ ovs) !! wire (length inputs) (length cp) n = cval inputs cp ovs n /\
  wire (length inputs) (length cp) n < length inputs + length cp + length ovs.
Proof.
  destruct n as [i|i|i]; cbn; intros Hi; split; try lia.
  - by rewrite lookup_app_l by lia.
  - rewrite lookup_app_r, lookup_app_l by lia. f_equal. lia.
  - rewrite lookup_app_r, lookup_app_r by lia. f_equal. lia.
Qed.

Lemma eval_gates_ops cp os pre total : ops_ok inputs (length cp) (pre ++ os) ->
  length inputs + length cp + length (pre ++ os) <= total ->
  eval_gates (Z.of_nat total) (inputs ++ cp ++ op_vals inputs cp pre) (gate total (length inputs) (length cp) <$> os) =
  Some (inputs ++ cp ++ op_vals inputs cp (pre ++ os)).
Proof.
  revert pre. induction os as [|o os IH]; intros pre Hok Htot; cbn [fmap list_fmap eval_gates]; [by rewrite app_nil_r|].
  rewrite length_app in Htot. cbn [length] in Htot. destruct (Hok (length pre) o) as [Hl Hr].
  { by rewrite lookup_app_r, Nat.sub_diag by lia. }
  rewrite <-(length_op_vals inputs cp pre) in Hl, Hr.
  destruct (wire_lookup cp _ _ Hl) as [Hl1 Hl2]. destruct (wire_lookup cp _ _ Hr) as [Hr1 Hr2].
  rewrite length_op_vals in Hl2, Hr2. unfold gate at 1. rewrite !wire_value_eq, Hl1, Hr1 by lia.
  destruct (cval_ok inputs cp _ _ Hl) as [x Hx]. destruct (cval_ok inputs cp _ _ Hr) as [y Hy]. rewrite Hx, Hy. cbn [mbind option_bind].
  specialize (IH (pre ++ [o])). rewrite <-!app_assoc in IH. cbn [app] in IH. rewrite <-IH by (done || (rewrite length_app; cbn; lia)).
  rewrite op_vals_snoc. unfold op_val. by rewrite Hx, Hy, <-!app_assoc.
Qed.

(** Padding squares the last value; there are no zero divisors. *)
Lemma pads_last cp os n x : os <> [] -> op_vals inputs cp os !! (length os - 1) = Some x ->
  exists y, op_vals inputs cp (os ++ pads (length os - 1) n) !! (length os - 1 + n) = Some y /\ (y = quad_zero <-> x = quad_zero).
Proof.
  intros Hne Hx. assert (0 < length os) as Hpos by (destruct os; [done|cbn; lia]). induction n as [|n IH].
  { exists x. unfold pads. cbn. by rewrite app_nil_r, Nat.add_0_r. }
  destruct IH as (y & Hy & Hiff). unfold pads in *. rewrite seq_S, fmap_app, app_assoc. cbn [fmap list_fmap]. rewrite op_vals_snoc.
  eexists. split.
  - rewrite lookup_app_r; rewrite length_op_vals, length_app, length_fmap, length_seq; [|lia].
    replace (length os - 1 + S n - (length os + n)) with 0 by lia. done.
  - unfold op_val. cbn. rewrite Hy. cbn. rewrite <-Hiff. split; [|intros ->].
    + intros H. apply quad_mul_zero in H. tauto.
    + unfold quad_zero. ring.
Qed.

Lemma pads_ok nc os n : os <> [] -> ops_ok inputs nc os -> ops_ok inputs nc (os ++ pads (length os - 1) n).
Proof.
  intros Hne Hok j o Hj. assert (0 < length os) as Hpos by (destruct os; [done|cbn; lia]).
  apply lookup_app_Some in Hj as [Hj|[Hle Hj]]; [by apply Hok|].
  unfold pads in Hj. rewrite list_lookup_fmap in Hj. destruct (seq _ _ !! _) as [k|] eqn:E; [|done]. cbn in Hj. injection Hj as <-.
  apply lookup_seq in E as [-> ?]. cbn. lia.
Qed.

Lemma ops_ok_mono nc nc' os : nc <= nc' -> ops_ok inputs nc os -> ops_ok inputs nc' os.
Proof. intros Hle Hok j o Hj. destruct (Hok j o Hj). split; by eapply node_ok_mono. Qed.
End Gates.

(** The processor accepts the encoded circuit in its memory exactly when the last operation is zero. *)
Lemma encoded_circuit_accepted inputs c nc np e m ctx ptr clk x : encoding_of c nc np e ->
  length inputs = total_inputs (layout c) -> inputs <> [] -> ops_ok inputs (length (constants c)) (operations c) ->
  op_vals inputs (constants c) (operations c) !! (length (operations c) - 1) = Some x ->
  (⟦ptr⟧ mod 4 = 0)%Z -> (⟦ptr⟧ + Z.of_nat (2 * length inputs + length (instructions e)) <= 2 ^ 32)%Z ->
  mem_holds m ctx ⟦ptr⟧ (quad_felts inputs ++ instructions e) ->
  (exists ce, eval_circuit_impl ctx ptr clk (new_unchecked (Z.of_nat (num_vars e))) (new_unchecked (Z.of_nat (num_ops e))) m = Ok ce) <->
  x = quad_zero.
Proof.
  intros [Hv Ho (kc & Hnc & Hcl) Hev Hsome (kb & Hblk) Hsm Hst] Hlen Hne Hok Hx Hal Hend Hm. rewrite eval_circuit_impl_iff.
  set (cp := constants c ++ replicate (nc - length (constants c)) quad_zero) in *.
  set (os := operations c ++ pads (length (operations c) - 1) np) in *.
  assert (Hcp : length cp = nc) by (unfold cp; rewrite length_app, length_replicate; lia).
  assert (Hos : length os = num_ops e) by (unfold os, pads; rewrite length_app, length_fmap, length_seq; lia).
  assert (Hne' : operations c <> []) by (by intros H; rewrite H in Hsome; cbn in Hsome; lia).
  assert (Hin : 0 < length inputs) by (destruct inputs; [done|cbn; lia]).
  assert (Hev' : exists ki, length inputs = 2 * ki) by (rewrite Hlen; apply Nat.Lcm0.mod_divide in Hev as [ki Hki]; exists ki; lia).
  destruct Hev' as [ki Hki].
  assert (Hcv : (⟦new_unchecked (Z.of_nat (num_vars e))⟧ = Z.of_nat (num_vars e))%Z) by (apply canonical_new; unfold modulus; lia).
  assert (Hco : (⟦new_unchecked (Z.of_nat (num_ops e))⟧ = Z.of_nat (num_ops e))%Z) by (apply canonical_new; unfold modulus; lia).
  rewrite Hst, app_assoc, <-quad_felts_app in Hm. apply mem_holds_app in Hm as [Hm1 Hm2]. rewrite length_quad_felts in Hm2.
  rewrite Hst, !length_app, length_quad_felts, length_fmap, Hos, Hcp in Hend. rewrite length_app, Hcp in Hm2.
  assert (Hvars : num_vars e = 2 * (ki + kc)) by lia.
  destruct (read_inputs_mem m ctx (ki + kc) ptr (inputs ++ cp)) as (ptr' & Hri & Hp'); [done|rewrite length_app; lia|lia|done|].
  assert (Hcircuit : circuit_values m ctx ptr (new_unchecked (Z.of_nat (num_vars e))) (new_unchecked (Z.of_nat (num_ops e))) =
    Some (inputs ++ cp ++ op_vals inputs cp os)).
  { unfold circuit_values. rewrite Hcv, Hco, Hvars. replace (Z.to_nat (Z.of_nat (2 * (ki + kc)) / 2)) with (ki + kc) by zlia.
    rewrite Hri. cbn [mbind option_bind]. rewrite Nat2Z.id, <-Hos, (read_gates_mem m ctx ptr' (num_vars e + num_ops e) (length inputs) nc os).
    - cbn [mbind option_bind]. rewrite <-Hvars, Hos, <-Nat2Z.inj_add. pose proof (eval_gates_ops inputs cp os [] (num_vars e + num_ops e)) as Hg.
      cbn [op_vals foldl app] in Hg. rewrite app_nil_r, Hcp in Hg. apply Hg; [|lia]. unfold os. apply pads_ok; [done|].
      eapply ops_ok_mono; [|exact Hok]. done.
    - done.
    - rewrite Hos. lia.
    - rewrite Hlen. replace ⟦ptr'⟧%Z with (⟦ptr⟧ + Z.of_nat (2 * (length inputs + nc)))%Z by lia. done. }
  rewrite Hcircuit.
  destruct (pads_last inputs cp (operations c) np x Hne') as (y & Hy & Hiff).
  { rewrite (op_vals_consts inputs (constants c)); [done|by apply prefix_app_r|done]. }
  fold os in Hy. assert (Hlast : last (inputs ++ cp ++ op_vals inputs cp os) = Some y).
  { rewrite app_assoc, last_lookup, lookup_app_r, <-Hy; rewrite !length_app, length_op_vals; [f_equal|]; lia. }
  rewrite <-Hiff. split.
  - intros (_ & vals & [= <-] & Hz). rewrite Hlast in Hz. by injection Hz as ->.
  - intros ->. split; [|by eexists]. unfold counts_ok. rewrite Hcv, Hco. change MAX_NUM_ACE_WIRES with (2 ^ 30 - 1)%Z.
    split_and!; [lia|rewrite Hvars; zlia|lia| |lia]. rewrite Ho, Hblk. zlia.
Qed.
End Encode.
