(* ===== verification/CallGraph.v ===== *)
(** * The call graph of the linker

    [crates/assembly/src/linker/callgraph.rs]: procedures are numbered by module and item; the graph maps every known
    procedure to the ones it calls.  [toposort] is Kahn's algorithm on a copy of the graph from which edges are removed;
    [toposort_caller] runs it on the part reachable from one procedure.  The ordered map of the code is a finite
    map whose keys are listed in order.

    The loops of the code end when their queue is empty; here they have fuel, and [None] is fuel that ran out. *)

From S2P Require Import Prelude.
From stdpp Require Import gmap sorting fin_maps relations.
#[local] Open Scope nat_scope.

Record GlobalItemIndex := mkGid { gid_module : nat; gid_index : nat }.
Abbreviation gid := GlobalItemIndex.

#[global] Instance gid_eq_dec : EqDecision gid.
Proof. solve_decision. Defined.
#[global] Instance gid_countable : Countable gid.
Proof. by refine (inj_countable' (fun g => (gid_module g, gid_index g)) (fun '(m, i) => mkGid m i) _); intros []. Defined.

(** The derived order *)
Definition gid_le (a b : gid) : Prop :=
  gid_module a < gid_module b \/ gid_module a = gid_module b /\ gid_index a <= gid_index b.
#[global] Instance gid_le_dec : RelDecision gid_le.
Proof. intros a b. unfold gid_le. apply _. Defined.

Module CallGraph.

(** [CallGraph] is its map; [CycleError] is its set of nodes. *)
Abbreviation Graph := (gmap gid (list gid)).
Abbreviation CycleError := (gset gid).

(** The keys, in the order of the map *)
Definition keys (g : Graph) : list gid := merge_sort gid_le (elements (dom g)).

Definition out_edges (g : Graph) (id : gid) : list gid := default [] (g !! id).

(** [get_or_insert_node]: the entry afterwards *)
Definition get_or_insert_node (g : Graph) (id : gid) : Graph := <[id := out_edges g id]> g.

Definition add_edge {E} (g : Graph) (caller callee : gid) : outcome E Graph :=
  if bool_decide (caller = callee) then Panic
  else
    let g := get_or_insert_node g callee in
    let g := get_or_insert_node g caller in
    let callees := out_edges g caller in
    if bool_decide (callee ∈ callees) then Ok g
    else Ok (<[caller := callees ++ [callee]]> g).

Definition remove_edge (g : Graph) (caller callee : gid) : Graph :=
  match g !! caller with
  | Some out_edges => <[caller := filter (fun n => n <> callee) out_edges]> g
  | None => g
  end.

(** The nodes with an edge to [id], in the order of the map *)
Definition predecessors (g : Graph) (id : gid) : list gid := filter (fun p => id ∈ out_edges g p) (keys g).
Definition num_predecessors (g : Graph) (id : gid) : nat := length (predecessors g id).

(** The body of the sorting loop for one successor *)
Definition visit_successor (id : gid) (s : Graph * list gid) (mid : gid) : Graph * list gid :=
  let '(graph, roots) := s in
  let graph := remove_edge graph id mid in
  if num_predecessors graph mid =? 0 then (graph, roots ++ [mid]) else (graph, roots).

(** [while let Some(id) = roots.pop_front()]; indexing the map panics on an unknown node. *)
Fixpoint sort_loop (fuel : nat) (graph : Graph) (roots output : list gid) : option (outcome CycleError (Graph * list gid)) :=
  match roots with
  | [] => Some (Ok (graph, output))
  | id :: roots =>
    match fuel with
    | O => None
    | S fuel =>
      let output := output ++ [id] in
      match graph !! id with
      | None => Some Panic
      | Some successors =>
        let '(graph, roots) := foldl (visit_successor id) (graph, roots) successors in
        sort_loop fuel graph roots output
      end
    end
  end.

(** The nodes with edges left, and the ends of these edges *)
Definition in_cycle (graph : Graph) : gset gid :=
  foldl (fun s n => match out_edges graph n with [] => s | edges => s ∪ {[n]} ∪ list_to_set edges end) ∅ (keys graph).

Definition has_preds (g : Graph) : gset gid := list_to_set (concat (out_edges g <$> keys g)).

Definition toposort (fuel : nat) (self : Graph) : option (outcome CycleError (list gid)) :=
  if bool_decide (self = ∅) then Some (Ok [])
  else
    let roots := filter (fun n => n ∉ has_preds self) (keys self) in
    let '(expect_cycle, roots) :=
      match roots with
      | [] => (true, take 1 (keys self))
      | _ => (false, roots)
      end in
    match sort_loop fuel self roots [] with
    | Some (Ok (graph, output)) =>
      let has_cycle := existsb (fun n => bool_decide (n ∉ output) || bool_decide (out_edges graph n <> [])) (keys graph) in
      if has_cycle then Some (Err (in_cycle graph))
      else if expect_cycle then Some Panic
      else Some (Ok output)
    | Some (Err e) => Some (Err e)
    | Some Panic => Some Panic
    | None => None
    end.

(** The worklist of [subgraph] *)
Fixpoint subgraph_loop (self : Graph) (fuel : nat) (worklist : list gid) (graph : Graph) (visited : gset gid) : option Graph :=
  match worklist with
  | [] => Some graph
  | g :: worklist =>
    match fuel with
    | O => None
    | S fuel =>
      if bool_decide (g ∈ visited) then subgraph_loop self fuel worklist graph visited
      else
        let prev_successors := out_edges self g in
        let graph := get_or_insert_node graph g in
        subgraph_loop self fuel (worklist ++ prev_successors) (<[g := out_edges graph g ++ prev_successors]> graph) ({[g]} ∪ visited)
    end
  end.
Definition subgraph (fuel : nat) (self : Graph) (root : gid) : option Graph := subgraph_loop self fuel [root] ∅ ∅.

(** The worklist of [reverse_reachable] *)
Fixpoint reverse_loop (self : Graph) (fuel : nat) (worklist : list gid) (visited : gset gid) : option (gset gid) :=
  match worklist with
  | [] => Some visited
  | g :: worklist =>
    match fuel with
    | O => None
    | S fuel =>
      if bool_decide (g ∈ visited) then reverse_loop self fuel worklist visited
      else reverse_loop self fuel (worklist ++ predecessors self g) ({[g]} ∪ visited)
    end
  end.
Definition reverse_reachable (fuel : nat) (self : Graph) (root : gid) : option (gset gid) := reverse_loop self fuel [root] ∅.

Definition toposort_caller (fuel : nat) (self : Graph) (caller : gid) : option (outcome CycleError (list gid)) :=
  caller_subgraph ← subgraph fuel self caller;
  caller_cycle ← (if existsb (fun n => bool_decide (caller ∈ out_edges caller_subgraph n)) (keys caller_subgraph)
                  then Some <$> reverse_reachable fuel caller_subgraph caller
                  else Some None);
  let graph := filter (fun n => n <> caller) <$> caller_subgraph in
  r ← sort_loop fuel graph [caller] [];
  match r with
  | Ok (graph, output) =>
    let has_cycle := negb (length output =? size graph) || match caller_cycle with Some _ => true | None => false end in
    if has_cycle then Some (Err (in_cycle graph ∪ default ∅ caller_cycle))
    else Some (Ok output)
  | Err e => Some (Err e)
  | Panic => Some Panic
  end.

(** The end of [Linker::link_and_rewrite]: the collected edges are added and the graph is sorted. *)
Definition add_edges {E} (g : Graph) (edges : list (gid * gid)) : outcome E Graph :=
  for_each edges (fun g '(caller, callee) => add_edge g caller callee) g.
Definition link_edges (fuel : nat) (g : Graph) (edges : list (gid * gid)) : option (outcome CycleError Graph) :=
  match add_edges g edges with
  | Ok g =>
    match toposort fuel g with
    | Some (Ok _) => Some (Ok g)
    | Some (Err cycle) => Some (Err cycle)
    | Some Panic => Some Panic
    | None => None
    end
  | Err e => Some (Err e)
  | Panic => Some Panic
  end.
End CallGraph.
