(* ===== verification/CallGraphCorrect.v ===== *)
(** * Correctness of the call graph

    Graphs built by the linker are closed (the ends of edges are nodes), without repeated and without self edges.  The
    sorting loop pushes a node exactly when its last incoming edge is removed; when the queue is empty, the nodes that were
    not output each have a predecessor that was not output, hence lie behind a cycle. *)

From S2P Require Import Prelude CallGraph.
From stdpp Require Import gmap sorting fin_maps relations.
Import CallGraph.
#[local] Open Scope nat_scope.

Definition edge (g : Graph) (a b : gid) : Prop := b ∈ out_edges g a.
Definition acyclic (g : Graph) : Prop := forall n, ~ tc (edge g) n n.
(** Callers come before callees. *)
Definition topological (g : Graph) (l : list gid) : Prop :=
  forall i j a b, l !! i = Some a -> l !! j = Some b -> edge g a b -> i < j.

Record wf_graph (g : Graph) : Prop := {
  wf_closed a b : edge g a b -> b ∈ dom g;
  wf_nodup a : NoDup (out_edges g a);
  wf_irrefl a : ~ edge g a a;
}.

#[local] Instance edge_dec g a b : Decision (edge g a b).
Proof. unfold edge. apply _. Defined.

(** ** Cycles in finite relations *)

(** If every node of a bounded set of nodes has a predecessor in it, some node of it is on a cycle. *)
Lemma backward_cycle (R : gid -> gid -> Prop) (X : gset gid) : forall (P : gid -> Prop) y, P y ->
  (forall x, P x -> x ∈ X /\ exists z, P z /\ tc R z x) -> exists m, P m /\ tc R m m.
Proof.
  remember (size X) as n eqn:Hn. revert X Hn. induction n as [|n IH]; intros X Hn P y Hy HP.
  { symmetry in Hn. apply size_empty_inv in Hn. destruct (HP y Hy) as [Hin _]. set_solver. }
  destruct (HP y Hy) as (HyX & z & Hz & Hzy). destruct (decide (z = y)) as [->|Hne]; [by exists y|].
  destruct (IH (X ∖ {[y]})) with (P := fun w => P w /\ w <> y) (y := z) as (m & [Hm _] & Hc).
  - rewrite size_difference, size_singleton by set_solver. lia.
  - done.
  - intros w [Hw Hwy]. destruct (HP w Hw) as (HwX & u & Hu & Huw). split; [set_solver|].
    destruct (decide (u = y)) as [->|]; [|by exists u]. exists z. split; [done|]. by eapply tc_transitive.
  - by exists m.
Qed.

Lemma tc_first (g : Graph) a b : tc (edge g) a b -> exists m, edge g a m.
Proof. destruct 1; by eexists. Qed.

Lemma tc_r_inv (g : Graph) a b : tc (edge g) a b -> exists m, edge g m b.
Proof. induction 1; [by eexists|done]. Qed.

(** A node is behind a cycle when it can be reached from a node on a cycle. *)
Definition behind_cycle (g : Graph) (n : gid) : Prop := exists m, tc (edge g) m m /\ rtc (edge g) m n.

Lemma behind_cycle_of (g : Graph) (X : gset gid) n : n ∈ X -> (forall x, x ∈ X -> exists z, z ∈ X /\ edge g z x) -> behind_cycle g n.
Proof.
  intros Hn HX. destruct (backward_cycle (edge g) X (fun y => y ∈ X /\ rtc (edge g) y n) n) as (m & [_ Hr] & Hc).
  - split; [done|apply rtc_refl].
  - intros x [Hx Hr]. split; [done|]. destruct (HX x Hx) as (z & Hz & He). exists z. split; [|by apply tc_once].
    split; [done|]. by eapply rtc_l.
  - by exists m.
Qed.

Lemma behind_cyclic g n : behind_cycle g n -> ~ acyclic g.
Proof. intros (m & Hm & _) Ha. by apply (Ha m). Qed.

(** ** Nodes and edges of the operations *)

Lemma elem_of_keys g n : n ∈ keys g <-> n ∈ dom g.
Proof. unfold keys. by rewrite merge_sort_Permutation, elem_of_elements. Qed.
Lemma NoDup_keys g : NoDup (keys g).
Proof. unfold keys. rewrite merge_sort_Permutation. apply NoDup_elements. Qed.

Lemma edge_dom g a b : edge g a b -> a ∈ dom g.
Proof. unfold edge, out_edges. intros H. apply elem_of_dom. destruct (g !! a); [by eexists|by apply not_elem_of_nil in H]. Qed.

Lemma out_edges_insert g a l b : out_edges (<[a := l]> g) b = if decide (b = a) then l else out_edges g b.
Proof.
  unfold out_edges. destruct (decide (b = a)) as [->|]; [by rewrite lookup_insert_eq|by rewrite lookup_insert_ne].
Qed.

Lemma out_edges_get g id b : out_edges (get_or_insert_node g id) b = out_edges g b.
Proof. unfold get_or_insert_node. rewrite out_edges_insert. by destruct (decide (b = id)) as [->|]. Qed.

Lemma out_edges_remove g a b c : out_edges (remove_edge g a b) c = if decide (c = a) then filter (fun n => n <> b) (out_edges g a) else out_edges g c.
Proof.
  unfold remove_edge. destruct (g !! a) as [l|] eqn:E.
  - rewrite out_edges_insert. unfold out_edges. by rewrite E.
  - destruct (decide (c = a)) as [->|]; [|done]. unfold out_edges. by rewrite E.
Qed.

Lemma dom_remove g a b : dom (remove_edge g a b) = dom g.
Proof.
  unfold remove_edge. destruct (g !! a) eqn:E; [|done]. rewrite dom_insert_L. apply elem_of_dom_2 in E. set_solver.
Qed.

Lemma elem_of_predecessors g n p : p ∈ predecessors g n <-> edge g p n.
Proof.
  unfold predecessors. rewrite list_elem_of_filter, elem_of_keys. split; [by intros []|]. intros H. split; [done|]. by eapply edge_dom.
Qed.

Lemma num_predecessors_0 g n : num_predecessors g n = 0 <-> forall p, ~ edge g p n.
Proof.
  unfold num_predecessors. split.
  - intros H p Hp%elem_of_predecessors. apply nil_length_inv in H. rewrite H in Hp. by apply not_elem_of_nil in Hp.
  - intros H. destruct (predecessors g n) as [|p l] eqn:E; [done|]. destruct (H p). apply elem_of_predecessors. rewrite E. by left.
Qed.

Lemma elem_of_has_preds g n : n ∈ has_preds g <-> exists p, edge g p n.
Proof.
  unfold has_preds. rewrite elem_of_list_to_set, list_elem_of_In, in_concat. split.
  - intros (l & Hl & Hn). apply list_elem_of_In, list_elem_of_fmap in Hl as (p & -> & _). exists p. by apply list_elem_of_In.
  - intros [p Hp]. exists (out_edges g p). split; [|by apply list_elem_of_In].
    apply list_elem_of_In, list_elem_of_fmap. exists p. split; [done|]. apply elem_of_keys. by eapply edge_dom.
Qed.

Lemma elem_of_in_cycle g n : n ∈ in_cycle g <-> exists a, out_edges g a <> [] /\ (n = a \/ edge g a n).
Proof.
  assert (H : forall l (s : gset gid), n ∈ foldl (fun s n => match out_edges g n with [] => s | edges => s ∪ {[n]} ∪ list_to_set edges end) s l <->
    n ∈ s \/ exists a, a ∈ l /\ out_edges g a <> [] /\ (n = a \/ edge g a n)).
  { induction l as [|a l IH]; intros s; cbn [foldl].
    - split; [by left|]. intros [?|(a & Ha & _)]; [done|by apply not_elem_of_nil in Ha].
    - rewrite IH. unfold edge. destruct (out_edges g a) as [|x es] eqn:E.
      + split; (intros [?|(b & Hb & Hne & Hn)]; [by left|]); right; exists b.
        * split; [by right|done].
        * apply elem_of_cons in Hb as [->|Hb]; [by rewrite E in Hne|done].
      + rewrite !elem_of_union, elem_of_singleton, elem_of_list_to_set. split.
        * intros [[[?| ->]|He]|(b & Hb & Hn)]; [by left|right; exists a..|right; exists b].
          -- rewrite E. split; [by left|]. split; [done|by left].
          -- rewrite E. split; [by left|]. split; [done|by right].
          -- split; [by right|done].
        * intros [?|(b & Hb & Hne & Hn)]; [by left; left; left|]. apply elem_of_cons in Hb as [->|Hb]; [|right; by exists b].
          rewrite E in Hn. left. destruct Hn as [-> |Hn]; [left; by right|by right]. }
  unfold in_cycle. rewrite H. split.
  - intros [?|(a & _ & Ha)]; [set_solver|by exists a].
  - intros (a & Hne & Hn). right. exists a. split; [|done]. apply elem_of_keys. destruct (out_edges g a) as [|x es] eqn:E; [done|].
    apply (edge_dom g a x). unfold edge. rewrite E. by left.
Qed.

(** ** Building keeps graphs well formed *)

Lemma wf_empty : wf_graph ∅.
Proof. unfold edge, out_edges. split; intros; rewrite ?lookup_empty in *; cbn in *; [by apply not_elem_of_nil in H|constructor|apply not_elem_of_nil]. Qed.

Lemma wf_get_or_insert g id : wf_graph g -> wf_graph (get_or_insert_node g id).
Proof.
  intros [H1 H2 H3]. split; unfold edge; intros *; rewrite !out_edges_get; [|apply H2|apply H3].
  intros H%H1. unfold get_or_insert_node. rewrite dom_insert. set_solver.
Qed.

Lemma add_edge_spec {E} g a b : wf_graph g -> a <> b -> exists g', add_edge (E := E) g a b = Ok g' /\ wf_graph g' /\
  dom g' = dom g ∪ {[a; b]} /\ forall x y, edge g' x y <-> edge g x y \/ (x = a /\ y = b).
Proof.
  intros Hg Hne. unfold add_edge. rewrite bool_decide_eq_false_2 by done.
  set (g1 := get_or_insert_node (get_or_insert_node g b) a).
  assert (H1 : wf_graph g1) by by apply wf_get_or_insert, wf_get_or_insert.
  assert (Ho : forall x, out_edges g1 x = out_edges g x) by (intros x; unfold g1; by rewrite !out_edges_get).
  assert (Hd : dom g1 = dom g ∪ {[a; b]}) by (unfold g1, get_or_insert_node; rewrite !dom_insert_L; set_solver).
  destruct (decide (edge g1 a b)) as [Hin|Hin].
  - rewrite bool_decide_eq_true_2 by done. exists g1. split_and!; [done..|]. unfold edge in *. intros x y. rewrite Ho.
    split; [by left|]. intros [?|[-> ->]]; [done|]. by rewrite Ho in Hin.
  - rewrite bool_decide_eq_false_2 by done. eexists. split; [done|].
    assert (He : forall x y, edge (<[a := out_edges g1 a ++ [b]]> g1) x y <-> edge g x y \/ (x = a /\ y = b)).
    { intros x y. unfold edge. rewrite out_edges_insert, <-Ho. destruct (decide (x = a)) as [->|]; [|by intuition].
      rewrite elem_of_app, list_elem_of_singleton. intuition. }
    assert (Hd' : dom (<[a := out_edges g1 a ++ [b]]> g1) = dom g ∪ {[a; b]}) by (rewrite dom_insert_L; set_solver).
    split_and!; [|done|done]. destruct Hg as [G1 G2 G3]. split.
    + intros x y [H%G1|[-> ->]]%He; rewrite Hd'; set_solver.
    + intros x. rewrite out_edges_insert. destruct (decide (x = a)); [|apply (wf_nodup _ H1)].
      apply NoDup_app. split; [apply (wf_nodup _ H1)|]. split; [|apply NoDup_singleton].
      intros y Hy ->%list_elem_of_singleton. done.
    + intros x [H|[-> ?]]%He; [by apply (G3 x)|done].
Qed.

Lemma add_edges_spec {E} es : forall g, wf_graph g -> Forall (fun '(a, b) => a <> b) es ->
  exists g', add_edges (E := E) g es = Ok g' /\ wf_graph g' /\ size g' <= size g + 2 * length es /\
    forall x y, edge g' x y <-> edge g x y \/ (x, y) ∈ es.
Proof.
  induction es as [|[a b] es IH]; intros g Hg Hf.
  { exists g. split_and!; [done|done|lia|]. intros x y. split; [by left|]. intros [?|H]; [done|by apply not_elem_of_nil in H]. }
  apply Forall_cons in Hf as [Hab Hf]. destruct (add_edge_spec (E := E) g a b Hg Hab) as (g1 & H1 & Hw1 & Hd1 & He1).
  destruct (IH g1 Hw1 Hf) as (g' & H2 & Hw & Hs & He). exists g'. unfold add_edges in *. cbn [for_each length]. rewrite H1, bind_Ok.
  assert (size g1 <= size g + 2).
  { rewrite <-!size_dom, Hd1, size_union_alt. pose proof (subseteq_size ({[a; b]} ∖ dom g) ({[a; b]} : gset gid)) as H.
    rewrite (size_union {[a]} {[b]}), !size_singleton in H by set_solver. specialize (H ltac:(set_solver)). lia. }
  split_and!; [done|done|lia|]. intros x y. rewrite He, He1, elem_of_cons. split; [intros [[?|[-> ->]]|?]|intros [?|[[= -> ->]|?]]]; auto.
Qed.

(** A self edge panics. *)
Lemma add_edges_self {E} es a : forall g, (a, a) ∈ es -> add_edges (E := E) g es = Panic.
Proof.
  induction es as [|[x y] es IH]; intros g Hin; [by apply not_elem_of_nil in Hin|]. unfold add_edges in *. cbn [for_each].
  destruct (add_edge g x y) as [g1|e|] eqn:Ea; cbn [mbind outcome_bind]; [|unfold add_edge in Ea|done].
  - apply elem_of_cons in Hin as [[= <- <-]|Hin]; [unfold add_edge in Ea; by rewrite bool_decide_eq_true_2 in Ea|]. by apply IH.
  - repeat case_bool_decide; done.
Qed.

(** ** The sorting loop *)
Section Sort.
Variable G : Graph.
Variable R0 : list gid.
Hypothesis HG : wf_graph G.
Hypothesis HR0 : forall n, n ∈ R0 -> n ∈ dom G.

(** The edges left at a node once [output] was output *)
Definition remaining (output : list gid) (a : gid) : list gid := if decide (a ∈ output) then [] else out_edges G a.
(** The same while the edges of [id] are removed *)
Definition removing (output : list gid) (id : gid) (rest : list gid) (a : gid) : list gid :=
  if decide (a = id) then rest else remaining output a.

(** [pushed] lists the nodes that joined the queue after the roots [R0]: those that lost their last predecessor.
    All predecessors of such a node are earlier in the list. *)
Record kahn (cur : gid -> list gid) (g : Graph) (roots output pushed : list gid) : Prop := {
  k_dom : dom g = dom G;
  k_out a : out_edges g a = cur a;
  k_queue : output ++ roots = R0 ++ pushed;
  k_nodup : NoDup pushed;
  k_pushed n : n ∈ pushed <-> (exists p, edge G p n) /\ forall p, ~ edge g p n;
  k_before i b a : pushed !! i = Some b -> edge G a b -> exists j, j < length R0 + i /\ (R0 ++ pushed) !! j = Some a;
}.

Lemma pushed_dom cur g roots output pushed n : kahn cur g roots output pushed -> n ∈ R0 ++ pushed -> n ∈ dom G.
Proof using HG HR0.
  intros H [Hn|Hn]%elem_of_app; [by apply HR0|]. apply (k_pushed _ _ _ _ _ H) in Hn as [[p Hp] _]. by eapply wf_closed.
Qed.

Lemma pushed_length cur g roots output pushed : kahn cur g roots output pushed -> length (output ++ roots) <= length R0 + size G.
Proof using HG HR0.
  intros H. rewrite (k_queue _ _ _ _ _ H), length_app. enough (length pushed <= size G) by lia. rewrite <-size_dom.
  rewrite <-(size_list_to_set (C := gset gid)) by (by eapply k_nodup). apply subseteq_size. intros n Hn%elem_of_list_to_set.
  eapply pushed_dom; [done|]. apply elem_of_app. by right.
Qed.

Lemma filter_head (x : gid) l : NoDup (x :: l) -> filter (fun n => n <> x) (x :: l) = l.
Proof.
  intros [Hx _]%NoDup_cons. rewrite filter_cons_False by (intros H; by apply H). clear -Hx. induction l as [|y l IH]; [done|].
  apply not_elem_of_cons in Hx as [? ?]. rewrite filter_cons_True by done. by rewrite IH.
Qed.

Lemma visit_step g roots output pushed id mid rest : id ∈ output -> edge G id mid -> NoDup (mid :: rest) ->
  kahn (removing output id (mid :: rest)) g roots output pushed ->
  exists g' roots' pushed', visit_successor id (g, roots) mid = (g', roots') /\ kahn (removing output id rest) g' roots' output pushed'.
Proof using.
  intros Hid HE Hnd [K1 K2 K3 K4 K5 K6]. cbn [visit_successor]. set (g' := remove_edge g id mid).
  assert (Ho : forall a, out_edges g' a = removing output id rest a).
  { intros a. unfold g'. rewrite out_edges_remove, !K2. unfold removing. destruct (decide (id = id)); [|done].
    destruct (decide (a = id)) as [->|]; [by apply filter_head|done]. }
  assert (He : forall p n, edge g' p n <-> edge g p n /\ ~ (p = id /\ n = mid)).
  { intros p n. unfold edge. rewrite Ho, K2. unfold removing. destruct (decide (p = id)) as [->|]; [|by intuition].
    apply NoDup_cons in Hnd as [Hm _]. rewrite elem_of_cons. split; [intros Hn; split; [by right|intros [_ ->]; done]|].
    intros [[->|?] Hne]; [by destruct Hne|done]. }
  assert (Hmid : edge g id mid) by (unfold edge; rewrite K2; unfold removing; rewrite decide_True by done; by left).
  assert (Hnp : mid ∉ pushed) by (intros [_ H]%K5; by apply (H id)).
  assert (Hother : forall n, n <> mid -> (forall p, ~ edge g' p n) <-> (forall p, ~ edge g p n)).
  { intros n Hn. split; intros H p; specialize (H p); rewrite He in *; tauto. }
  assert (Hd : dom g' = dom G) by (unfold g'; by rewrite dom_remove).
  destruct (Nat.eqb_spec (num_predecessors g' mid) 0) as [Hz|Hz]; rewrite num_predecessors_0 in Hz.
  - exists g', (roots ++ [mid]), (pushed ++ [mid]). split; [done|]. split; [done|done|by rewrite !app_assoc, K3|..].
    + apply NoDup_app. split; [done|]. split; [|apply NoDup_singleton]. by intros x Hx ->%list_elem_of_singleton.
    + intros n. rewrite elem_of_app, list_elem_of_singleton. destruct (decide (n = mid)) as [->|Hne].
      * split; [intros _; split; [by exists id|done]|by right].
      * rewrite K5, (Hother n Hne). intuition.
    + intros i b a Hi Hab. apply lookup_app_Some in Hi as [Hi|[Hge Hi]].
      * destruct (K6 i b a Hi Hab) as (j & Hj & Ha). exists j. split; [done|]. rewrite app_assoc. by apply lookup_app_l_Some.
      * apply list_lookup_singleton_Some in Hi as [Hi ->].
        assert (Hao : a ∈ output).
        { destruct (decide (a = id)) as [->|]; [done|]. destruct (decide (a ∈ output)); [done|]. destruct (Hz a).
          unfold edge. rewrite Ho. unfold removing, remaining. by rewrite !decide_False. }
        assert (a ∈ R0 ++ pushed) as [j Hj]%list_elem_of_lookup by (rewrite <-K3, elem_of_app; by left).
        exists j. pose proof (lookup_lt_Some _ _ _ Hj) as Hlt. rewrite length_app in Hlt. split; [lia|]. rewrite app_assoc. by apply lookup_app_l_Some.
  - exists g', roots, pushed. split; [done|]. split; [done..| |done]. intros n. destruct (decide (n = mid)) as [->|Hne].
    + split; [done|]. by intros [_ ?].
    + by rewrite K5, (Hother n Hne).
Qed.

Lemma visit_all rest : forall g roots output pushed id, id ∈ output -> (forall n, n ∈ rest -> edge G id n) -> NoDup rest ->
  kahn (removing output id rest) g roots output pushed ->
  exists g' roots' pushed', foldl (visit_successor id) (g, roots) rest = (g', roots') /\ kahn (removing output id []) g' roots' output pushed'.
Proof using.
  induction rest as [|mid rest IH]; intros g roots output pushed id Hid HE Hnd HK; [by exists g, roots, pushed|].
  destruct (visit_step g roots output pushed id mid rest) as (g1 & roots1 & pushed1 & Hv & HK1); [done|apply HE; by left|done..|].
  apply NoDup_cons in Hnd as [_ Hnd]. cbn [foldl]. rewrite Hv. eapply IH; [done| |done..]. intros n Hn. apply HE. by right.
Qed.

Lemma sort_loop_spec fuel : forall g roots output pushed, length R0 + size G <= fuel + length output ->
  kahn (remaining output) g roots output pushed ->
  exists g' output' pushed', sort_loop fuel g roots output = Some (Ok (g', output')) /\ kahn (remaining output') g' [] output' pushed'.
Proof using HG HR0.
  induction fuel as [|fuel IH]; intros g [|id roots] output pushed Hf HK; cbn [sort_loop]; try by exists g, output, pushed.
  { pose proof (pushed_length _ _ _ _ _ HK) as Hl. rewrite length_app in Hl. cbn in *. lia. }
  assert (Hd : id ∈ dom G).
  { eapply pushed_dom; [done|]. rewrite <-(k_queue _ _ _ _ _ HK), elem_of_app. right. by left. }
  rewrite <-(k_dom _ _ _ _ _ HK) in Hd. apply elem_of_dom in Hd as [succ Hs]. rewrite Hs.
  assert (Hr : succ = remaining output id) by (rewrite <-(k_out _ _ _ _ _ HK); unfold out_edges; by rewrite Hs).
  assert (HK1 : kahn (removing (output ++ [id]) id succ) g roots (output ++ [id]) pushed).
  { destruct HK as [K1 K2 K3 K4 K5 K6]. split; [done| |by rewrite <-app_assoc|done..]. intros a. rewrite K2. unfold removing.
    destruct (decide (a = id)) as [->|Hne]; [by rewrite Hr|]. unfold remaining.
    destruct (decide (a ∈ output)), (decide (a ∈ output ++ [id])) as [H|H]; try done; rewrite elem_of_app, list_elem_of_singleton in H; tauto. }
  destruct (visit_all succ g roots (output ++ [id]) pushed id) as (g' & roots' & pushed' & -> & HK2).
  - apply elem_of_app. right. by left.
  - intros n. rewrite Hr. unfold remaining, edge. destruct (decide (id ∈ output)); [|done]. intros H. by apply not_elem_of_nil in H.
  - rewrite Hr. unfold remaining. destruct (decide (id ∈ output)); [constructor|by apply wf_nodup].
  - done.
  - apply (IH g' roots' (output ++ [id]) pushed'); [rewrite length_app; cbn; lia|]. destruct HK2 as [K1 K2 K3 K4 K5 K6]. split; try done.
    intros a. rewrite K2. unfold removing, remaining. destruct (decide (a = id)) as [->|]; [|done].
    rewrite decide_True; [done|]. apply elem_of_app. right. by left.
Qed.

Lemma kahn_start : kahn (remaining []) G R0 [] [].
Proof using HG.
  split; [done| |by rewrite app_nil_r|constructor| |done].
  - intros a. unfold remaining. rewrite decide_False; [done|apply not_elem_of_nil].
  - intros n. split; [intros H; by apply not_elem_of_nil in H|]. intros [[p Hp] H]. by destruct (H p).
Qed.
End Sort.

(** ** When the queue is empty *)
Section Sorted.
Variables (G g : Graph) (R0 output pushed : list gid).
Hypothesis HG : wf_graph G.
Hypothesis HR0 : forall n, n ∈ R0 -> n ∈ dom G.
Hypothesis HK : kahn G R0 (remaining G output) g [] output pushed.

Lemma sorted_output : output = R0 ++ pushed.
Proof using HK. pose proof (k_queue _ _ _ _ _ _ _ HK) as H. by rewrite app_nil_r in H. Qed.

Lemma left_edge a b : edge g a b <-> (a ∉ output) /\ edge G a b.
Proof using HK.
  unfold edge. rewrite (k_out _ _ _ _ _ _ _ HK). unfold remaining. destruct (decide (a ∈ output)); [|by intuition].
  split; [intros H; by apply not_elem_of_nil in H|tauto].
Qed.

Lemma left_nonempty a : out_edges g a <> [] -> (a ∉ output) /\ a ∈ dom G.
Proof using HK.
  destruct (out_edges g a) as [|b es] eqn:E; [done|]. intros _. assert (edge g a b) as [H1 H2]%left_edge by (unfold edge; rewrite E; by left).
  split; [done|]. by eapply edge_dom.
Qed.

(** Nodes that never joined the queue *)
Section Complete.
Hypothesis Hcomplete : forall n, n ∈ dom G -> n ∉ R0 -> exists p, edge G p n.

Lemma left_pred n : n ∈ dom G -> n ∉ output -> exists p, edge g p n.
Proof using HK Hcomplete.
  intros Hd Hn. rewrite sorted_output, not_elem_of_app in Hn. destruct Hn as [H1 H2].
  destruct (predecessors g n) as [|p ps] eqn:E.
  - destruct H2. apply (k_pushed _ _ _ _ _ _ _ HK). split; [by apply Hcomplete|]. apply num_predecessors_0. unfold num_predecessors. by rewrite E.
  - exists p. apply elem_of_predecessors. rewrite E. by left.
Qed.

Lemma left_behind n : n ∈ dom G -> n ∉ output -> behind_cycle G n.
Proof using HK Hcomplete.
  intros Hd Hn. apply (behind_cycle_of G (dom G ∖ list_to_set output)); [apply elem_of_difference; split; [done|by rewrite elem_of_list_to_set]|].
  intros x [Hx Hxo]%elem_of_difference. rewrite elem_of_list_to_set in Hxo. destruct (left_pred x Hx Hxo) as [p Hp].
  apply left_edge in Hp as [Hp1 Hp2]. exists p. split; [|done]. apply elem_of_difference. split; [by eapply edge_dom|by rewrite elem_of_list_to_set].
Qed.

Lemma in_cycle_behind n : n ∈ in_cycle g -> behind_cycle G n.
Proof using HK Hcomplete.
  intros (a & Ha & Hn)%elem_of_in_cycle. apply left_nonempty in Ha as [Ha1 Ha2]. destruct (left_behind a Ha2 Ha1) as (m & Hm & Hr).
  destruct Hn as [->|[_ Hn]%left_edge]; [by exists m|]. exists m. split; [done|]. by eapply rtc_r.
Qed.

Lemma in_cycle_nonempty n : n ∈ dom G -> n ∉ output -> n ∈ in_cycle g.
Proof using HK Hcomplete.
  intros Hd Hn. destruct (left_pred n Hd Hn) as [p Hp]. apply elem_of_in_cycle. exists p. split; [|by right].
  unfold edge in Hp. intros E. rewrite E in Hp. by apply not_elem_of_nil in Hp.
Qed.
End Complete.

(** From roots without predecessors, the output is in topological order. *)
Section Roots.
Hypothesis Hroots : forall n p, n ∈ R0 -> ~ edge G p n.
Hypothesis Hnd : NoDup R0.

Lemma sorted_NoDup : NoDup output.
Proof using HK Hroots Hnd.
  rewrite sorted_output. apply NoDup_app. split; [done|]. split; [|by eapply k_nodup].
  intros n Hn Hp. apply (k_pushed _ _ _ _ _ _ _ HK) in Hp as [[p Hp] _]. by apply (Hroots n p).
Qed.

Lemma sorted_before j a b : output !! j = Some b -> edge G a b -> exists i, i < j /\ output !! i = Some a.
Proof using HK Hroots.
  rewrite sorted_output. intros Hb Hab. apply lookup_app_Some in Hb as [Hb|[Hge Hb]].
  - apply list_elem_of_lookup_2 in Hb. by destruct (Hroots b a Hb).
  - destruct (k_before _ _ _ _ _ _ _ HK _ _ _ Hb Hab) as (i & Hi & Ha). exists i. split; [lia|done].
Qed.

Lemma sorted_topological : topological G output.
Proof using HK Hroots Hnd.
  intros i j a b Ha Hb Hab. destruct (sorted_before _ _ _ Hb Hab) as (i' & Hi & Ha').
  by rewrite (NoDup_lookup _ _ _ _ sorted_NoDup Ha Ha').
Qed.

Lemma sorted_before_tc m n : tc (edge G) m n -> forall j, output !! j = Some n -> exists i, i < j /\ output !! i = Some m.
Proof using HK Hroots.
  induction 1 as [m n Hmn|m k n Hmk Hkn IH]; intros j Hj; [by eapply sorted_before|].
  destruct (IH j Hj) as (i & Hi & Hk). destruct (sorted_before _ _ _ Hk Hmk) as (i' & ? & ?). exists i'. split; [lia|done].
Qed.

(** Nodes on a cycle are never output. *)
Lemma cycle_not_sorted n : tc (edge G) n n -> n ∉ output.
Proof using HK Hroots Hnd.
  intros Hc [j Hj]%list_elem_of_lookup. destruct (sorted_before_tc _ _ Hc j Hj) as (i & Hi & Hi').
  pose proof (NoDup_lookup _ _ _ _ sorted_NoDup Hi' Hj). lia.
Qed.

Lemma cycle_in_cycle n : tc (edge G) n n -> n ∈ in_cycle g.
Proof using HK Hroots Hnd.
  intros Hc. apply elem_of_in_cycle. exists n. split; [|by left]. apply cycle_not_sorted in Hc as Hn.
  destruct (tc_first _ _ _ Hc) as [m Hm].
  assert (edge g n m) as H by (by apply left_edge). intros E. unfold edge in H. rewrite E in H. by apply not_elem_of_nil in H.
Qed.

Lemma sorted_acyclic : (forall n, n ∈ dom G -> n ∈ output) -> acyclic G.
Proof using HK Hroots Hnd.
  intros Hall n Hc. apply (cycle_not_sorted n Hc), Hall. apply tc_first in Hc as [m Hm]. by eapply edge_dom.
Qed.

Lemma sorted_permutation : (forall n, n ∈ dom G -> n ∈ output) -> output ≡ₚ keys G.
Proof using HG HR0 HK Hroots Hnd.
  intros Hall. apply NoDup_Permutation; [apply sorted_NoDup|apply NoDup_keys|]. intros n. rewrite elem_of_keys. split; [|apply Hall].
  rewrite sorted_output. intros Hn. by eapply pushed_dom.
Qed.
End Roots.
End Sorted.

(** ** [toposort] *)

Definition toposort_ok (g : Graph) (r : outcome CycleError (list gid)) : Prop :=
  match r with
  | Ok output => acyclic g /\ output ≡ₚ keys g /\ topological g output
  | Err s => (exists n, n ∈ s) /\ (forall n, n ∈ s -> behind_cycle g n) /\
      ((exists n, n ∈ dom g /\ forall p, ~ edge g p n) -> forall n, tc (edge g) n n -> n ∈ s)
  | Panic => ~ acyclic g /\ forall n, n ∈ dom g -> exists p, edge g p n
  end.

Lemma all_preds_cyclic g : g <> ∅ -> (forall n, n ∈ dom g -> exists p, edge g p n) -> ~ acyclic g.
Proof.
  intros Hne Hp. destruct (set_choose_L (dom g)) as [x Hx]; [intros H; by apply dom_empty_inv_L in H|].
  eapply behind_cyclic. apply (behind_cycle_of g (dom g) x Hx). intros y Hy. destruct (Hp y Hy) as [p He]. exists p. split; [by eapply edge_dom|done].
Qed.

Lemma has_cycle_spec G g R0 output pushed : kahn G R0 (remaining G output) g [] output pushed ->
  existsb (fun n => bool_decide (n ∉ output) || bool_decide (out_edges g n <> [])) (keys g) = true <-> exists n, n ∈ dom G /\ n ∉ output.
Proof.
  intros HK. rewrite existsb_exists. split.
  - intros (n & Hn & Hb). apply list_elem_of_In, elem_of_keys in Hn. rewrite (k_dom _ _ _ _ _ _ _ HK) in Hn.
    apply orb_true_iff in Hb as [Hb|Hb]; apply bool_decide_eq_true in Hb; [by exists n|]. apply (left_nonempty _ _ _ _ _ HK) in Hb as [? ?]. by exists n.
  - intros (n & Hd & Hn). exists n. split; [by apply list_elem_of_In, elem_of_keys; rewrite (k_dom _ _ _ _ _ _ _ HK)|]. by rewrite bool_decide_eq_true_2.
Qed.

(** The nodes without predecessors *)
Definition roots_of (g : Graph) : list gid := filter (fun n => n ∉ has_preds g) (keys g).

Lemma elem_of_roots g n : n ∈ roots_of g <-> n ∈ dom g /\ forall p, ~ edge g p n.
Proof.
  unfold roots_of. rewrite list_elem_of_filter, elem_of_keys, elem_of_has_preds. split.
  - intros [H1 H2]. split; [done|]. intros p Hp. apply H1. by exists p.
  - intros [H1 H2]. split; [|done]. intros [p Hp]. by apply (H2 p).
Qed.

Lemma not_root_pred g n : n ∈ dom g -> n ∉ roots_of g -> exists p, edge g p n.
Proof.
  intros Hd Hn. destruct (predecessors g n) as [|p ps] eqn:E.
  - destruct Hn. apply elem_of_roots. split; [done|]. apply num_predecessors_0. unfold num_predecessors. by rewrite E.
  - exists p. apply elem_of_predecessors. rewrite E. by left.
Qed.

Lemma length_keys g : length (keys g) = size g.
Proof. unfold keys. rewrite merge_sort_Permutation. by rewrite <-size_dom. Qed.

Lemma sort_from fuel g R0 : wf_graph g -> (forall n, n ∈ R0 -> n ∈ dom g) -> length R0 + size g <= fuel -> exists g' output pushed,
  sort_loop fuel g R0 [] = Some (Ok (g', output)) /\ kahn g R0 (remaining g output) g' [] output pushed.
Proof. intros Hg H1 H2. eapply sort_loop_spec; [done|done|cbn; lia|by apply kahn_start]. Qed.

(** What the cycle error holds, whichever roots the loop started from *)
Lemma cycle_error_ok G g R0 output pushed n : kahn G R0 (remaining G output) g [] output pushed ->
  (forall n, n ∈ dom G -> n ∉ R0 -> exists p, edge G p n) -> n ∈ dom G -> n ∉ output ->
  (exists n, n ∈ in_cycle g) /\ forall n, n ∈ in_cycle g -> behind_cycle G n.
Proof.
  intros HK Hc Hd Hn. split; [exists n; by eapply in_cycle_nonempty|]. intros m Hm. by eapply in_cycle_behind.
Qed.

Lemma toposort_spec fuel g : wf_graph g -> 2 * size g <= fuel -> exists r, toposort fuel g = Some r /\ toposort_ok g r.
Proof.
  intros Hg Hf. unfold toposort. destruct (decide (g = ∅)) as [->|Hne].
  { rewrite bool_decide_eq_true_2 by done. exists (Ok []). split; [done|]. split_and!; [|done|done].
    intros n [m Hm]%tc_first. apply edge_dom in Hm. set_solver. }
  rewrite bool_decide_eq_false_2 by done. fold (roots_of g). destruct (roots_of g) as [|r rs'] eqn:Ers.
  - assert (Hall : forall n, n ∈ dom g -> exists p, edge g p n).
    { intros n Hd. apply not_root_pred; [done|]. rewrite Ers. apply not_elem_of_nil. }
    destruct (sort_from fuel g (take 1 (keys g)) Hg) as (g' & output & pushed & -> & HK).
    { intros n (i & Hi & _)%elem_of_take. apply elem_of_keys. by eapply list_elem_of_lookup_2. }
    { rewrite length_take, length_keys. lia. }
    pose proof (has_cycle_spec _ _ _ _ _ HK) as Hc. destruct (existsb _ _); eexists; (split; [done|]).
    + destruct Hc as [(n & Hd & Hn) _]; [done|]. destruct (cycle_error_ok g g' _ output pushed n HK) as [H1 H2]; [auto|done..|].
      split_and!; [done|done|]. intros (m & Hm & Hnp). destruct (Hall m Hm) as [p Hp]. by destruct (Hnp p).
    + split; [by apply all_preds_cyclic|done].
  - assert (Hlen : length (roots_of g) <= size g) by (rewrite <-length_keys; apply length_filter).
    assert (Hroots : forall n p, n ∈ roots_of g -> ~ edge g p n) by (intros n p [_ Hn]%elem_of_roots; apply Hn).
    assert (Hin : forall n, n ∈ roots_of g -> n ∈ dom g) by (intros n Hn; by apply elem_of_roots).
    assert (Hnd : NoDup (roots_of g)) by apply NoDup_filter, NoDup_keys. rewrite <-Ers.
    destruct (sort_from fuel g (roots_of g) Hg Hin) as (g' & output & pushed & -> & HK); [lia|].
    pose proof (has_cycle_spec _ _ _ _ _ HK) as Hc. destruct (existsb _ _); eexists; (split; [done|]).
    + destruct Hc as [(n & Hd & Hn) _]; [done|].
      destruct (cycle_error_ok g g' _ output pushed n HK) as [H1 H2]; [apply not_root_pred|done..|].
      split_and!; [done|done|]. intros _ m Hm. by eapply cycle_in_cycle.
    + assert (Hout : forall n, n ∈ dom g -> n ∈ output).
      { intros n Hd. destruct (decide (n ∈ output)); [done|]. destruct Hc as [_ Hc]. discriminate Hc. by exists n. }
      split_and!; [by eapply sorted_acyclic|by eapply sorted_permutation|by eapply sorted_topological].
Qed.
