(* ===== verification/CallGraphReach.v ===== *)
(** * Reachability in the call graph

    The worklists of [subgraph] and [reverse_reachable] visit exactly the nodes reachable forwards and backwards, within
    one plus the square of the number of nodes iterations; [toposort_caller] sorts exactly the part of the graph that the
    caller can reach. *)

From S2P Require Import Prelude CallGraph CallGraphCorrect.
From stdpp Require Import gmap sorting fin_maps relations list_numbers.
Import CallGraph.
#[local] Open Scope nat_scope.

(** ** A worklist *)
Section Worklist.
Variable next : gid -> list gid.

Fixpoint bfs (fuel : nat) (worklist : list gid) (visited : gset gid) : option (gset gid) :=
  match worklist with
  | [] => Some visited
  | g :: worklist =>
    match fuel with
    | O => None
    | S fuel =>
      if bool_decide (g ∈ visited) then bfs fuel worklist visited
      else bfs fuel (worklist ++ next g) ({[g]} ∪ visited)
    end
  end.

Abbreviation R := (fun a b => b ∈ next a).
Variable U : gset gid.
Hypothesis HU : forall a, next a <> [] -> a ∈ U.

(** The number of nodes that unvisited nodes may still add *)
Definition weight (visited : gset gid) : nat := sum_list_with (fun a => length (next a)) (elements (U ∖ visited)).

Lemma weight_visit a visited : a ∉ visited -> length (next a) + weight ({[a]} ∪ visited) = weight visited.
Proof using HU.
  intros Ha. unfold weight. destruct (decide (a ∈ U)) as [Hu|Hu].
  - replace (U ∖ visited) with ({[a]} ∪ (U ∖ ({[a]} ∪ visited))).
    + rewrite (elements_union_singleton (U ∖ ({[a]} ∪ visited)) a) by set_solver. done.
    + apply set_eq. intros x. destruct (decide (x = a)); set_solver.
  - assert (next a = []) as -> by (destruct (next a) eqn:E; [done|]; destruct Hu; apply HU; by rewrite E).
    replace (U ∖ ({[a]} ∪ visited)) with (U ∖ visited); [done|]. set_solver.
Qed.

Lemma closed_reach (V : gset gid) root x : root ∈ V -> (forall u w, u ∈ V -> w ∈ next u -> w ∈ V) -> rtc R root x -> x ∈ V.
Proof using. clear HU. intros Hr Hc. induction 1 as [u|u w z Huw _ IH]; [done|]. apply IH. by eapply Hc. Qed.

Lemma bfs_spec root fuel : forall worklist visited, length worklist + weight visited <= fuel ->
  (forall x y, x ∈ visited -> y ∈ next x -> y ∈ visited \/ y ∈ worklist) ->
  (forall x, x ∈ visited \/ x ∈ worklist -> rtc R root x) -> (root ∈ visited \/ root ∈ worklist) ->
  exists V, bfs fuel worklist visited = Some V /\ forall x, x ∈ V <-> rtc R root x.
Proof using HU.
  induction fuel as [|fuel IH]; intros [|g wl] visited Hf Hcl Hre Hroot; cbn [bfs length] in *; try lia.
  1, 2: exists visited; split; [done|]; intros x; split; [intros Hx; apply Hre; by left|apply closed_reach;
    [destruct Hroot as [?|H]; [done|by apply not_elem_of_nil in H]|]];
    intros u w Hu Hw; destruct (Hcl u w Hu Hw) as [?|H]; [done|by apply not_elem_of_nil in H].
  destruct (decide (g ∈ visited)) as [Hg|Hg].
  - rewrite bool_decide_eq_true_2 by done. apply IH; [lia|..].
    + intros x y Hx Hy. destruct (Hcl x y Hx Hy) as [?|[->|?]%elem_of_cons]; auto.
    + intros x [Hx|Hx]; apply Hre; [by left|right; by right].
    + destruct Hroot as [?|[->|?]%elem_of_cons]; auto.
  - rewrite bool_decide_eq_false_2 by done. pose proof (weight_visit g visited Hg) as Hw. apply IH.
    + rewrite length_app. lia.
    + intros x y [->%elem_of_singleton|Hx]%elem_of_union Hy; [right; apply elem_of_app; by right|].
      destruct (Hcl x y Hx Hy) as [?|[->|?]%elem_of_cons]; [left; set_solver|left; set_solver|right; apply elem_of_app; by left].
    + assert (Hgr : rtc R root g) by (apply Hre; right; by left).
      intros x [[->%elem_of_singleton|Hx]%elem_of_union|[Hx|Hx]%elem_of_app]; [done|apply Hre; by left|apply Hre; right; by right|].
      by eapply rtc_r.
    + destruct Hroot as [?|[->|?]%elem_of_cons]; [left; set_solver|left; set_solver|right; apply elem_of_app; by left].
Qed.

Lemma weight_bound k visited : (forall a, length (next a) <= k) -> weight visited <= size U * k.
Proof using.
  clear HU. intros Hk. unfold weight. assert (forall l, sum_list_with (fun a => length (next a)) l <= length l * k) as H.
  { induction l as [|a l IH]; [done|]. cbn. specialize (Hk a). lia. }
  etransitivity; [apply H|]. apply Nat.mul_le_mono_r. change (size (U ∖ visited) <= size U). apply subseteq_size. set_solver.
Qed.

Lemma bfs_from root fuel k : (forall a, length (next a) <= k) -> S (size U * k) <= fuel ->
  exists V, bfs fuel [root] ∅ = Some V /\ forall x, x ∈ V <-> rtc R root x.
Proof using HU.
  intros Hk Hf. apply bfs_spec.
  - cbn. pose proof (weight_bound k ∅ Hk). lia.
  - intros x y Hx. set_solver.
  - intros x [Hx|Hx]; [set_solver|]. apply list_elem_of_singleton in Hx as ->. done.
  - right. by left.
Qed.
End Worklist.

(** ** The two searches *)

Lemma out_edges_length g a : wf_graph g -> length (out_edges g a) <= size g.
Proof.
  intros Hg. rewrite <-size_dom, <-(size_list_to_set (C := gset gid)) by by apply wf_nodup.
  apply subseteq_size. intros n Hn%elem_of_list_to_set. by eapply wf_closed.
Qed.

Lemma reverse_loop_bfs g fuel : forall wl visited, reverse_loop g fuel wl visited = bfs (predecessors g) fuel wl visited.
Proof.
  induction fuel as [|fuel IH]; intros [|a wl] visited; try done. cbn. by rewrite !IH.
Qed.

(** [reverse_reachable] is the set of nodes that can reach the root. *)
Lemma reverse_reachable_spec fuel g root : wf_graph g -> S (size g * size g) <= fuel ->
  exists V, reverse_reachable fuel g root = Some V /\ forall n, n ∈ V <-> rtc (edge g) n root.
Proof.
  intros Hg Hf. unfold reverse_reachable. rewrite reverse_loop_bfs.
  destruct (bfs_from (predecessors g) (dom g)) with (root := root) (fuel := fuel) (k := size g) as (V & HV & Hr).
  - intros a Ha. destruct (predecessors g a) as [|p ps] eqn:E; [done|]. apply (wf_closed g Hg p a).
    apply elem_of_predecessors. rewrite E. by left.
  - intros a. rewrite <-length_keys. apply length_filter.
  - by rewrite size_dom.
  - exists V. split; [done|]. intros n. rewrite Hr. clear HV Hr. split.
    + induction 1 as [x|x y z Hxy _ IH]; [done|]. apply elem_of_predecessors in Hxy. by eapply rtc_r.
    + induction 1 as [x|x y z Hxy _ IH]; [done|]. eapply rtc_r; [exact IH|]. by apply (elem_of_predecessors g y x).
Qed.

(** The graph restricted to a set of nodes *)
Definition restricts (g : Graph) (V : gset gid) (s : Graph) : Prop :=
  dom s = V /\ forall n, n ∈ V -> out_edges s n = out_edges g n.

Lemma subgraph_loop_bfs g fuel : forall wl visited s, restricts g visited s ->
  match bfs (out_edges g) fuel wl visited with
  | Some V => exists s', subgraph_loop g fuel wl s visited = Some s' /\ restricts g V s'
  | None => subgraph_loop g fuel wl s visited = None
  end.
Proof.
  induction fuel as [|fuel IH]; intros [|a wl] visited s Hs; cbn [bfs subgraph_loop]; try (by exists s); [done|].
  destruct (decide (a ∈ visited)) as [Ha|Ha]; [rewrite !bool_decide_eq_true_2 by done; by apply IH|].
  rewrite !bool_decide_eq_false_2 by done. apply IH. destruct Hs as [Hd Ho]. split.
  - unfold get_or_insert_node. rewrite !dom_insert_L, Hd. set_solver.
  - intros n Hn. rewrite out_edges_insert, !out_edges_get. destruct (decide (n = a)) as [->|Hne].
    + assert (out_edges s a = []) as ->; [|done]. unfold out_edges. rewrite <-Hd in Ha. apply not_elem_of_dom in Ha. by rewrite Ha.
    + apply Ho. set_solver.
Qed.

(** [subgraph] holds the reachable nodes with all their edges, and nothing else. *)
Definition subgraph_ok (g : Graph) (root : gid) (s : Graph) : Prop :=
  (forall n, n ∈ dom s <-> rtc (edge g) root n) /\ (forall a b, edge s a b <-> a ∈ dom s /\ edge g a b) /\ wf_graph s.

Lemma subgraph_spec fuel g root : wf_graph g -> S (size g * size g) <= fuel ->
  exists s, subgraph fuel g root = Some s /\ subgraph_ok g root s.
Proof.
  intros Hg Hf. destruct (bfs_from (out_edges g) (dom g)) with (root := root) (fuel := fuel) (k := size g) as (V & HV & Hr).
  - intros a Ha. destruct (out_edges g a) as [|b bs] eqn:E; [done|]. apply (edge_dom g a b). unfold edge. rewrite E. by left.
  - intros a. by apply out_edges_length.
  - by rewrite size_dom.
  - pose proof (subgraph_loop_bfs g fuel [root] ∅ ∅) as H. rewrite HV in H. destruct H as (s & Hs & Hd & Ho); [split; [by rewrite dom_empty_L|set_solver]|].
    exists s. split; [done|]. assert (He : forall a b, edge s a b <-> a ∈ dom s /\ edge g a b).
    { intros a b. split.
      - intros H. pose proof (edge_dom _ _ _ H) as Ha. split; [done|]. unfold edge in *. rewrite Ho in H; [done|by rewrite <-Hd].
      - intros [Ha H]. unfold edge. rewrite Ho; [done|by rewrite <-Hd]. }
    split_and!; [intros n; by rewrite Hd, Hr|done|]. split.
    + intros a b [Ha Hb]%He. rewrite Hd, Hr in *. by eapply rtc_r.
    + intros a. destruct (decide (a ∈ dom s)) as [Ha|Ha]; [rewrite Ho by (by rewrite <-Hd); by apply wf_nodup|].
      unfold out_edges. apply not_elem_of_dom in Ha. rewrite Ha. constructor.
    + intros a [_ H]%He. by apply (wf_irrefl g Hg a).
Qed.

(** ** [toposort_caller] *)

Lemma tc_sub (R1 R2 : gid -> gid -> Prop) a b : (forall x y, R1 x y -> R2 x y) -> tc R1 a b -> tc R2 a b.
Proof. intros H. induction 1; [by apply tc_once, H|]. eapply tc_l; [by apply H|done]. Qed.

Definition toposort_caller_ok (g : Graph) (caller : gid) (r : outcome CycleError (list gid)) : Prop :=
  match r with
  | Ok output => NoDup output /\ (forall n, n ∈ output <-> rtc (edge g) caller n) /\ topological g output /\
      forall n, rtc (edge g) caller n -> ~ tc (edge g) n n
  | Err s => (exists n, n ∈ s) /\
      (forall n, n ∈ s -> exists m, rtc (edge g) caller m /\ tc (edge g) m m /\ rtc (edge g) m n) /\
      forall n, rtc (edge g) caller n -> tc (edge g) n n -> n ∈ s
  | Panic => False
  end.

Section Caller.
Variables (g s : Graph) (caller : gid).
Hypothesis Hg : wf_graph g.
Hypothesis Hs : subgraph_ok g caller s.

(** The subgraph without the edges back to the caller *)
Definition forward : Graph := filter (fun n => n <> caller) <$> s.

Lemma forward_dom : dom forward = dom s.
Proof using. unfold forward. by rewrite dom_fmap_L. Qed.

Lemma forward_edge a b : edge forward a b <-> edge s a b /\ b <> caller.
Proof using.
  unfold edge, out_edges, forward. rewrite lookup_fmap. destruct (s !! a) as [l|]; cbn.
  - rewrite list_elem_of_filter. tauto.
  - rewrite elem_of_nil. tauto.
Qed.

Lemma forward_wf : wf_graph forward.
Proof using Hs.
  destruct Hs as (_ & _ & [H1 H2 H3]). split.
  - intros a b [He _]%forward_edge. rewrite forward_dom. by eapply H1.
  - intros a. unfold out_edges, forward. rewrite lookup_fmap. specialize (H2 a). unfold out_edges in H2.
    destruct (s !! a); cbn in *; [by apply NoDup_filter|constructor].
  - intros a [He _]%forward_edge. by apply (H3 a).
Qed.

Lemma sub_edge a b : edge s a b -> edge g a b.
Proof using Hs. destruct Hs as (_ & He & _). by intros [_ ?]%He. Qed.

Lemma sub_dom a : a ∈ dom s <-> rtc (edge g) caller a.
Proof using Hs. destruct Hs as (Hd & _). apply Hd. Qed.

Lemma caller_in : caller ∈ dom s.
Proof using Hs. apply sub_dom, rtc_refl. Qed.

(** Paths from reachable nodes stay in the subgraph. *)
Lemma sub_tc a b : a ∈ dom s -> tc (edge g) a b -> tc (edge s) a b.
Proof using Hs.
  destruct Hs as (Hd & He & Hw). intros Ha H. revert Ha. induction H as [a b Hab|a k b Hak _ IH]; intros Ha; [by apply tc_once, He|].
  assert (edge s a k) as Hs' by (by apply He). eapply tc_l; [exact Hs'|]. apply IH. by eapply wf_closed.
Qed.

Lemma sub_rtc a b : a ∈ dom s -> rtc (edge g) a b -> rtc (edge s) a b.
Proof using Hs. intros Ha [->|H]%rtc_tc; [done|]. by apply tc_rtc, sub_tc. Qed.

(** Every node but the caller has a predecessor. *)
Lemma forward_pred n : n ∈ dom forward -> n ∉ [caller] -> exists p, edge forward p n.
Proof using Hs.
  rewrite forward_dom, list_elem_of_singleton. intros Hn Hne. apply sub_dom in Hn as Hr.
  apply sub_rtc, rtc_inv_r in Hr as [->|(p & _ & Hp)]; [done| |apply caller_in]. exists p. by apply forward_edge.
Qed.

Lemma forward_root n p : n ∈ [caller] -> ~ edge forward p n.
Proof using. intros ->%list_elem_of_singleton [_ ?]%forward_edge. done. Qed.

Lemma forward_in n : n ∈ [caller] -> n ∈ dom forward.
Proof using Hs. intros ->%list_elem_of_singleton. rewrite forward_dom. apply caller_in. Qed.

Lemma forward_size : size forward <= S (size g).
Proof using Hg Hs.
  rewrite <-!size_dom, forward_dom. transitivity (size ({[caller]} ∪ dom g)).
  - apply subseteq_size. intros n [->|(p & _ & Hp)]%sub_dom%rtc_inv_r; [set_solver|]. apply (wf_closed g Hg) in Hp. set_solver.
  - pose proof (size_union_alt {[caller]} (dom g)) as H. rewrite size_singleton in H.
    pose proof (subseteq_size (dom g ∖ {[caller]}) (dom g)). set_solver by lia.
Qed.

(** Whether some node calls back into the caller *)
Definition calls_back : bool := existsb (fun n => bool_decide (caller ∈ out_edges s n)) (keys s).

Lemma calls_back_true : calls_back = true <-> exists p, edge s p caller.
Proof using.
  unfold calls_back. rewrite existsb_exists. split.
  - intros (p & _ & Hp%bool_decide_eq_true). by exists p.
  - intros [p Hp]. exists p. split; [|by apply bool_decide_eq_true_2]. apply list_elem_of_In, elem_of_keys. by eapply edge_dom.
Qed.

(** A cycle of reachable nodes avoids the caller or leads back to it. *)
Lemma tc_through_caller a b : tc (edge s) a b -> tc (edge forward) a b \/ (rtc (edge s) a caller /\ exists p, edge s p caller).
Proof using.
  induction 1 as [a b Hab|a k b Hak _ IH].
  - destruct (decide (b = caller)) as [->|]; [right|left; by apply tc_once, forward_edge]. split; [by apply rtc_once|by exists a].
  - destruct (decide (k = caller)) as [->|Hne]; [right; split; [by apply rtc_once|by exists a]|].
    destruct IH as [IH|[IH Hp]]; [left|right; split; [by eapply rtc_l|done]]. eapply tc_l; [by apply forward_edge|done].
Qed.

Lemma forward_behind n : behind_cycle forward n -> exists m, rtc (edge g) caller m /\ tc (edge g) m m /\ rtc (edge g) m n.
Proof using Hs.
  intros (m & Hm & Hr). assert (forall x y, edge forward x y -> edge g x y) as Hsub by (intros x y [H _]%forward_edge; by apply sub_edge).
  exists m. split_and!; [|by eapply tc_sub|by eapply rtc_subrel]. apply sub_dom. rewrite <-forward_dom.
  apply tc_first in Hm as [k Hk]. by eapply edge_dom.
Qed.

Lemma back_behind n p : edge s p caller -> rtc (edge s) n caller ->
  exists m, rtc (edge g) caller m /\ tc (edge g) m m /\ rtc (edge g) m n.
Proof using Hs.
  intros Hp Hn. exists caller. assert (Hd : forall x, x ∈ dom s -> rtc (edge g) caller x) by (intros x; apply sub_dom).
  split_and!; [done| |].
  - eapply tc_rtc_l; [apply Hd; by eapply edge_dom|]. by apply tc_once, sub_edge.
  - apply rtc_inv in Hn as [->|(k & Hk & _)]; [done|]. apply Hd. by eapply edge_dom.
Qed.
End Caller.

(** The number of output nodes tells whether every node was output. *)
Lemma output_complete G g R0 output pushed : wf_graph G -> (forall n, n ∈ R0 -> n ∈ dom G) -> (forall n p, n ∈ R0 -> ~ edge G p n) -> NoDup R0 ->
  kahn G R0 (remaining G output) g [] output pushed -> length output = size g <-> forall n, n ∈ dom G -> n ∈ output.
Proof.
  intros HG HR0 Hroots Hnd HK. pose proof (sorted_NoDup _ _ _ _ _ HK Hroots Hnd) as Hno.
  assert (Hsub : list_to_set output ⊆ dom G).
  { intros n Hn%elem_of_list_to_set. rewrite (sorted_output _ _ _ _ _ HK) in Hn. by eapply pushed_dom. }
  rewrite <-size_dom, (k_dom _ _ _ _ _ _ _ HK), <-(size_list_to_set (C := gset gid)) by done. split.
  - intros Hsz n Hn. rewrite <-(elem_of_list_to_set (C := gset gid)). by rewrite (set_subseteq_size_eq _ _ Hsub) by lia.
  - intros Hall. f_equal. apply set_eq. intros n. split; [apply Hsub|]. intros Hn. apply elem_of_list_to_set. by apply Hall.
Qed.

(** Without calls back into the caller, a complete output is sorted for the graph itself. *)
Lemma sorted_forward g s g' caller output pushed : subgraph_ok g caller s -> calls_back s caller = false ->
  kahn (forward s caller) [caller] (remaining (forward s caller) output) g' [] output pushed ->
  (forall n, n ∈ dom (forward s caller) -> n ∈ output) ->
  (forall n, rtc (edge g) caller n -> tc (edge g) n n -> tc (edge (forward s caller)) n n) -> toposort_caller_ok g caller (Ok output).
Proof.
  intros Hs Hback HK Hall Hno. assert (Hnd : NoDup [caller]) by apply NoDup_singleton.
  assert (Hout : forall n, n ∈ output <-> rtc (edge g) caller n).
  { intros n. rewrite <-(sub_dom g s caller Hs), <-(forward_dom s caller). split; [|apply Hall].
    rewrite (sorted_output _ _ _ _ _ HK). eapply pushed_dom; [by eapply forward_wf|intros m; by eapply forward_in|exact HK]. }
  split_and!; [|done|..].
  - eapply sorted_NoDup; [exact HK|apply forward_root|done].
  - intros i j a b Ha Hb Hab. eapply (sorted_topological _ _ _ _ _ HK (forward_root s caller) Hnd); [done..|].
    assert (He : edge s a b).
    { pose proof Hs as (_ & He & _). apply He. split; [|done].
      apply list_elem_of_lookup_2, Hout in Ha. by apply (sub_dom g s caller Hs). }
    apply forward_edge. split; [done|]. intros ->. assert (calls_back s caller = true) by (apply calls_back_true; by exists a). congruence.
  - intros n Hn Hc. eapply (cycle_not_sorted _ _ _ _ _ HK (forward_root s caller) Hnd); [by apply Hno|by apply Hout].
Qed.

Lemma toposort_caller_spec fuel g caller : wf_graph g -> S (S (size g) * S (size g)) <= fuel ->
  exists r, toposort_caller fuel g caller = Some r /\ toposort_caller_ok g caller r.
Proof.
  intros Hg Hf. unfold toposort_caller. destruct (subgraph_spec fuel g caller Hg) as (s & -> & Hs); [lia|]. cbn [mbind option_bind].
  fold (calls_back s caller) (forward s caller). pose proof (forward_size g s caller Hg Hs) as Hsize.
  assert (Hss : size s = size (forward s caller)) by (rewrite <-!size_dom; by rewrite forward_dom).
  assert (Hw : wf_graph s) by apply Hs. pose proof (forward_wf g s caller Hs) as Hfw.
  destruct (sort_from fuel (forward s caller) [caller] Hfw) as (g' & output & pushed & Hsort & HK);
    [intros n Hn; by eapply forward_in|cbn; lia|].
  assert (Hnd : NoDup [caller]) by apply NoDup_singleton.
  pose proof (output_complete _ _ _ _ _ Hfw (forward_in g s caller Hs) (forward_root s caller) Hnd HK) as Hcomp.
  assert (Hcyc : forall n, rtc (edge g) caller n -> tc (edge g) n n -> tc (edge (forward s caller)) n n \/ (rtc (edge s) n caller /\ calls_back s caller = true)).
  { intros n Hn Hc. rewrite calls_back_true. apply tc_through_caller. apply (sub_tc g s caller Hs); [|done]. by apply (sub_dom g s caller Hs). }
  assert (Hin : forall n, tc (edge (forward s caller)) n n -> n ∈ in_cycle g').
  { intros n Hn. by eapply cycle_in_cycle; [exact HK|apply forward_root|..]. }
  assert (Hbe : forall n, n ∈ in_cycle g' -> exists m, rtc (edge g) caller m /\ tc (edge g) m m /\ rtc (edge g) m n).
  { intros n Hn. apply (forward_behind g s caller Hs). eapply in_cycle_behind; [exact HK|apply (forward_pred g s caller Hs)|done]. }
  destruct (calls_back s caller) eqn:Hback.
  - destruct (reverse_reachable_spec fuel s caller Hw) as (V & -> & HV); [nia|]. cbn [fmap option_fmap option_map mbind option_bind].
    rewrite Hsort. cbn [mbind option_bind]. rewrite orb_true_r. eexists. split; [done|]. cbn [default].
    apply calls_back_true in Hback as [p Hp]. split_and!.
    + exists caller. apply elem_of_union. right. by apply HV.
    + intros n [Hn|Hn%HV]%elem_of_union; [by apply Hbe|by eapply back_behind].
    + intros n Hn Hc. apply elem_of_union. destruct (Hcyc n Hn Hc) as [H|[H _]]; [left; by apply Hin|right; by apply HV].
  - cbn [mbind option_bind]. rewrite Hsort. cbn [mbind option_bind]. rewrite orb_false_r.
    assert (Hno : forall n, rtc (edge g) caller n -> tc (edge g) n n -> tc (edge (forward s caller)) n n).
    { intros n Hn Hc. by destruct (Hcyc n Hn Hc) as [?|[_ ?]]. }
    destruct (Nat.eqb_spec (length output) (size g')) as [Hlen|Hlen]; (eexists; split; [done|]).
    + eapply sorted_forward; [done..|exact (proj1 Hcomp Hlen)|done].
    + cbn [default]. rewrite union_empty_r_L. split_and!; [|done|by auto].
      destruct (decide (Forall (fun n => n ∈ output) (keys (forward s caller)))) as [Hall|Hall].
      * destruct Hlen. apply Hcomp. intros n Hn. rewrite Forall_forall in Hall. apply Hall. by apply elem_of_keys.
      * apply not_Forall_Exists, Exists_exists in Hall as (n & Hn & Hno'); [|apply _]. exists n.
        eapply in_cycle_nonempty; [exact HK|apply (forward_pred g s caller Hs)|by apply elem_of_keys|done].
Qed.
