(* ===== verification/Processor.v ===== *)
(** * The processor state and the operation handlers

    [Proc S] is [struct FastProcessor] with its three stack fields replaced by an
    implementation [S] of [StackInterface]: the handlers of
    [processor/src/execution/operations/] are written against the traits of
    [processor/src/processor.rs], so they are translated once and run on the buffer
    stack and on the ideal stack.

    A handler is a computation in the state-and-error monad [M]; its value is the
    set of helper registers it reports.  Calls to the tracer are omitted (the fast
    processor is run with [NoopTracer]), and so are source locations and messages
    attached to errors. *)

From S2P Require Import Prelude Field Types Operations OperandStack Memory Advice Ace.
Import Op.
#[local] Open Scope Z_scope.

(** [ExecutionOptions]: the limits the stoppers check. *)
Record ExecutionOptions := mkExecutionOptions {
  max_cycles : Z;
  max_adv_map_value_size : nat;
  max_num_continuations : nat;
}.

(** [struct ExecutionContextInfo] of [fast/mod.rs] *)
Record ExecutionContextInfo {F : Felt} := mkExecutionContextInfo {
  overflow_stack : list felt;
  eci_ctx : ContextId;
  fn_hash : Word;
}.
Arguments ExecutionContextInfo : clear implicits.
Arguments ExecutionContextInfo {F}.

(** [struct FastProcessor] *)
Record Proc {F : Felt} {C : Crypto} {S : Type} := mkProc {
  stack : S;
  clk : Z;
  ctx : ContextId;
  caller_hash : Word;
  advice : AdviceProvider;
  memory : Memory;
  call_stack : list ExecutionContextInfo;
  options : ExecutionOptions;
  pc_transcript : Word;
}.
Arguments Proc {F C} S.

Section Processor.
Context {F : Felt} {Q : Quad} {C : Crypto} {St : Type} `{!StackInterface St}.

Abbreviation proc := (Proc St).
Abbreviation helpers := OperationHelperRegisters.

(** ** The monad of the handlers *)

Definition M (A : Type) : Type := proc -> result (A * proc).
#[global] Instance M_ret : MRet M := fun A a p => Ok (a, p).
#[global] Instance M_bind : MBind M := fun A B f m p => '(a, p) ← m p; f a p.

Definition lift {A} (o : result A) : M A := fun p => a ← o; Ok (a, p).
Definition raise {A} (e : ExecutionError) : M A := fun _ => Err e.
Definition gets {A} (f : proc -> A) : M A := fun p => Ok (f p, p).

Definition with_stack (s : St) (p : proc) : proc :=
  mkProc _ _ _ s (clk p) (ctx p) (caller_hash p) (advice p) (memory p) (call_stack p) (options p)
    (pc_transcript p).
Definition with_clk (c : Z) (p : proc) : proc :=
  mkProc _ _ _ (stack p) c (ctx p) (caller_hash p) (advice p) (memory p) (call_stack p) (options p)
    (pc_transcript p).
Definition with_system (ctx : ContextId) (hash : Word) (p : proc) : proc :=
  mkProc _ _ _ (stack p) (clk p) ctx hash (advice p) (memory p) (call_stack p) (options p)
    (pc_transcript p).
Definition with_advice (a : AdviceProvider) (p : proc) : proc :=
  mkProc _ _ _ (stack p) (clk p) (ctx p) (caller_hash p) a (memory p) (call_stack p) (options p)
    (pc_transcript p).
Definition with_memory (m : Memory) (p : proc) : proc :=
  mkProc _ _ _ (stack p) (clk p) (ctx p) (caller_hash p) (advice p) m (call_stack p) (options p)
    (pc_transcript p).
Definition with_call_stack (cs : list ExecutionContextInfo) (p : proc) : proc :=
  mkProc _ _ _ (stack p) (clk p) (ctx p) (caller_hash p) (advice p) (memory p) cs (options p)
    (pc_transcript p).
Definition with_pc_transcript (w : Word) (p : proc) : proc :=
  mkProc _ _ _ (stack p) (clk p) (ctx p) (caller_hash p) (advice p) (memory p) (call_stack p)
    (options p) w.

(** The trait methods on the processor. *)
Definition on_stack (f : St -> result St) : M unit := fun p =>
  s ← f (stack p); Ok ((), with_stack s p).
Definition get (i : nat) : M felt := fun p => v ← st_get (stack p) i; Ok (v, p).
Definition get_word (i : nat) : M Word := fun p => w ← st_get_word (stack p) i; Ok (w, p).
Definition get_word_safe (i : nat) : M Word := fun p => w ← st_get_word_safe (stack p) i; Ok (w, p).
Definition get_double_word (i : nat) : M (list felt) := fun p =>
  l ← st_get_list (stack p) i 8; Ok (l, p).
Definition set (i : nat) (v : felt) : M unit := on_stack (fun s => st_set s i v).
Definition set_word (i : nat) (w : Word) : M unit := on_stack (fun s => st_set_word s i w).
Definition swap (i j : nat) : M unit := on_stack (fun s => st_swap s i j).
Definition swapw_nth (n : nat) : M unit := on_stack (fun s => st_swapw_nth s n).
Definition rotate_left (n : nat) : M unit := on_stack (fun s => st_rotate_left s n).
Definition rotate_right (n : nat) : M unit := on_stack (fun s => st_rotate_right s n).
Definition decrement_size : M unit := on_stack st_decrement_size.

(** [increment_size()?] followed by [set(0, v)], the only way the source grows
    the stack. *)
Definition push (v : felt) : M unit := on_stack (fun s =>
  s ← st_increment_size s; st_set s 0 v).

Definition mem_read_element (addr : felt) : M felt := fun p =>
  v ← read_element (memory p) (ctx p) addr; Ok (v, p).
Definition mem_read_word (addr : felt) : M Word := fun p =>
  w ← read_word (memory p) (ctx p) addr; Ok (w, p).
Definition mem_write_element (addr v : felt) : M unit := fun p =>
  m ← write_element (memory p) (ctx p) addr v; Ok ((), with_memory m p).
Definition mem_write_word (addr : felt) (w : Word) : M unit := fun p =>
  m ← write_word (memory p) (ctx p) addr w; Ok ((), with_memory m p).

(** A computation on the advice provider. *)
Definition on_advice {A} (f : AdviceProvider -> adv_result (A * AdviceProvider)) : M A := fun p =>
  '(a, adv) ← map_err AdviceErr (f (advice p)); Ok (a, with_advice adv p).

Definition op_err {A} (e : OperationError) : M A := raise (OperationErr e).

(** ** Stack operations: [stack_ops/mod.rs] *)

Definition op_push (element : felt) : M helpers := push element;; mret HEmpty.
Definition op_pad : M helpers := push ZERO;; mret HEmpty.
Definition op_swap : M helpers := swap 0 1;; mret HEmpty.

Definition op_swap_double_word : M helpers :=
  swap 0 8;; swap 1 9;; swap 2 10;; swap 3 11;;
  swap 4 12;; swap 5 13;; swap 6 14;; swap 7 15;; mret HEmpty.

Definition dup_nth (n : nat) : M helpers :=
  to_dup ← get n; push to_dup;; mret HEmpty.

Definition op_cswap : M helpers :=
  condition ← get 0;
  decrement_size;;
  match ⟦condition⟧ with
  | 0 => mret HEmpty
  | 1 => swap 0 1;; mret HEmpty
  | _ => op_err (NotBinaryValue condition)
  end.

Definition op_cswapw : M helpers :=
  condition ← get 0;
  decrement_size;;
  match ⟦condition⟧ with
  | 0 => mret HEmpty
  | 1 => swap 0 4;; swap 1 5;; swap 2 6;; swap 3 7;; mret HEmpty
  | _ => op_err (NotBinaryValue condition)
  end.

(** ** Field operations: [field_ops/mod.rs] *)

Definition pop2_applyfn_push (f : felt -> felt -> felt) : M unit :=
  b ← get 0; a ← get 1; decrement_size;; set 0 (f a b).

Definition pop2_applyfn_push_op (f : felt -> felt -> outcome OperationError felt) : M unit :=
  b ← get 0; a ← get 1; decrement_size;;
  c ← lift (map_err OperationErr (f a b)); set 0 c.

Definition assert_binary (value : felt) : outcome OperationError unit :=
  if bool_decide (value <> ZERO) && bool_decide (value <> ONE)
  then Err (NotBinaryValue value) else Ok ().

Definition op_add : M helpers := pop2_applyfn_push (fun a b => (a + b)%F);; mret HEmpty.
Definition op_neg : M helpers := element ← get 0; set 0 (- element)%F;; mret HEmpty.
Definition op_mul : M helpers := pop2_applyfn_push (fun a b => (a * b)%F);; mret HEmpty.

Definition op_inv : M helpers :=
  top ← get 0;
  if bool_decide (top = ZERO) then op_err DivideByZero
  else set 0 (inverse top);; mret HEmpty.

Definition op_incr : M helpers := top ← get 0; set 0 (top + ONE)%F;; mret HEmpty.

Definition op_and : M helpers :=
  pop2_applyfn_push_op (fun a b =>
    _ ← assert_binary b; _ ← assert_binary a;
    if bool_decide (a = ONE) && bool_decide (b = ONE) then Ok ONE else Ok ZERO);;
  mret HEmpty.

Definition op_or : M helpers :=
  pop2_applyfn_push_op (fun a b =>
    _ ← assert_binary b; _ ← assert_binary a;
    if bool_decide (a = ONE) || bool_decide (b = ONE) then Ok ONE else Ok ZERO);;
  mret HEmpty.

Definition op_not : M helpers :=
  top ← get 0;
  if bool_decide (top = ZERO) then set 0 ONE;; mret HEmpty
  else if bool_decide (top = ONE) then set 0 ZERO;; mret HEmpty
  else op_err (NotBinaryValue top).

Definition op_eq : M helpers :=
  b ← get 0; a ← get 1;
  decrement_size;;
  set 0 (if bool_decide (a = b) then ONE else ZERO);;
  mret (HEq a b).

Definition op_eqz : M helpers :=
  old_top ← get 0;
  set 0 (if bool_decide (old_top = ZERO) then ONE else ZERO);;
  mret (HEqz old_top).

Definition op_expacc : M helpers :=
  old_base ← get 1;
  old_acc ← get 2;
  old_exp ← get 3;
  let old_exp_int := ⟦old_exp⟧ in
  let new_exp := new_unchecked (Z.shiftr old_exp_int 1) in
  let exp_lsb := Z.land old_exp_int 1 in
  let acc_update_val := if exp_lsb =? 1 then old_base else ONE in
  let new_acc := (old_acc * acc_update_val)%F in
  let new_base := (old_base * old_base)%F in
  set 0 (new_unchecked exp_lsb);;
  set 1 new_base;;
  set 2 new_acc;;
  set 3 new_exp;;
  mret (HExpacc acc_update_val).

Definition op_ext2mul : M helpers :=
  w ← get_word 0;
  let '(b0, b1, a0, a1) := word_tuple w in
  let b0_times_a0 := (b0 * a0)%F in
  let b1_times_a1 := (b1 * a1)%F in
  let c1 := ((b0 + b1) * (a1 + a0) - b0_times_a0 - b1_times_a1)%F in
  let c0 := (b0_times_a0 + new_unchecked 7 * b1_times_a1)%F in
  set 2 c0;; set 3 c1;; mret HEmpty.

(** ** 32-bit operations: [u32_ops/mod.rs] *)

Definition U32_MAX : Z := 2 ^ 32 - 1.

Definition invalid_u32s (l : list felt) : list felt :=
  List.filter (fun x => U32_MAX <? ⟦x⟧) l.

(** [require_u32_operands!] for two and three operands. *)
Definition require_u32_operands2 (i j : nat) : M (felt * felt) :=
  a ← get i; b ← get j;
  match invalid_u32s [a; b] with
  | [] => mret (a, b)
  | invalid_values => op_err (NotU32Values invalid_values)
  end.

Definition require_u32_operands3 (i j k : nat) : M (felt * felt * felt) :=
  a ← get i; b ← get j; c ← get k;
  match invalid_u32s [a; b; c] with
  | [] => mret (a, b, c)
  | invalid_values => op_err (NotU32Values invalid_values)
  end.

(** [split_element]: (high, low). *)
Definition split_element (value : felt) : felt * felt :=
  let value := ⟦value⟧ in
  let lo := value mod 2 ^ 32 in
  let hi := Z.shiftr value 32 in
  (new_unchecked hi, new_unchecked lo).

Definition op_u32split : M helpers :=
  top ← get 0;
  let '(top_hi, top_lo) := split_element top in
  push top_lo;;
  set 1 top_hi;;
  mret (HU32Split top_lo top_hi).

Definition op_u32add : M helpers :=
  '(a, b) ← require_u32_operands2 0 1;
  let '(carry, sum) := split_element (new_unchecked (⟦a⟧ + ⟦b⟧)) in
  set 0 sum;; set 1 carry;;
  mret (HU32Add sum carry).

Definition op_u32add3 : M helpers :=
  '(a, b, c) ← require_u32_operands3 0 1 2;
  let '(carry, sum) := split_element (new_unchecked (⟦a⟧ + ⟦b⟧ + ⟦c⟧)) in
  decrement_size;;
  set 0 sum;; set 1 carry;;
  mret (HU32Add3 sum carry).

Definition op_u32sub : M helpers :=
  '(b, a) ← require_u32_operands2 0 1;
  let result := (⟦a⟧ - ⟦b⟧) mod 2 ^ 64 in
  let borrow := new_unchecked (Z.shiftr result 63) in
  let diff := new_unchecked (Z.land result U32_MAX) in
  set 0 borrow;; set 1 diff;;
  mret (HU32Sub diff).

Definition op_u32mul : M helpers :=
  '(a, b) ← require_u32_operands2 0 1;
  let '(hi, lo) := split_element (new_unchecked (⟦a⟧ * ⟦b⟧)) in
  set 0 lo;; set 1 hi;;
  mret (HU32Mul lo hi).

Definition op_u32madd : M helpers :=
  '(a, b, c) ← require_u32_operands3 0 1 2;
  let '(hi, lo) := split_element (new_unchecked (⟦a⟧ * ⟦b⟧ + ⟦c⟧)) in
  decrement_size;;
  set 0 lo;; set 1 hi;;
  mret (HU32Madd lo hi).

Definition op_u32div : M helpers :=
  '(b, a) ← require_u32_operands2 0 1;
  let denominator := ⟦b⟧ in
  let numerator := ⟦a⟧ in
  if denominator =? 0 then op_err DivideByZero
  else
    let quotient := numerator / denominator in
    let remainder := numerator - quotient * denominator in
    set 0 (new_unchecked remainder);;
    set 1 (new_unchecked quotient);;
    let lo := new_unchecked (numerator - quotient) in
    let hi := new_unchecked (denominator - remainder - 1) in
    mret (HU32Div lo hi).

Definition op_u32and : M helpers :=
  '(a, b) ← require_u32_operands2 0 1;
  decrement_size;;
  set 0 (new_unchecked (Z.land ⟦a⟧ ⟦b⟧));;
  mret HEmpty.

Definition op_u32xor : M helpers :=
  '(a, b) ← require_u32_operands2 0 1;
  decrement_size;;
  set 0 (new_unchecked (Z.lxor ⟦a⟧ ⟦b⟧));;
  mret HEmpty.

Definition op_u32assert2 (err_code : felt) : M helpers :=
  first ← get 0;
  second ← get 1;
  match invalid_u32s [first; second] with
  | [] => mret (HU32Assert2 first second)
  | invalid_values =>
    if bool_decide (err_code <> ZERO) then op_err (U32AssertionFailed err_code invalid_values)
    else op_err (NotU32Values invalid_values)
  end.

(** ** System operations: [sys_ops/mod.rs] *)

Definition op_assert (err_code : felt) : M helpers :=
  top ← get 0;
  if bool_decide (top <> ONE) then op_err (FailedAssertion err_code)
  else decrement_size;; mret HEmpty.

Definition op_sdepth : M helpers :=
  depth ← gets (fun p => st_depth (stack p));
  push (from_u32 (Z.of_nat depth));; mret HEmpty.

Definition op_caller : M helpers :=
  hash ← gets caller_hash; set_word 0 hash;; mret HEmpty.

Definition op_clk : M helpers :=
  c ← gets clk; push (from_u32 c);; mret HEmpty.

(** ** Input and output: [io_ops/mod.rs] *)

Definition WORD_SIZE_FELT : felt := new_unchecked 4.
Definition DOUBLE_WORD_SIZE : felt := new_unchecked 8.

Definition op_advpop : M helpers :=
  value ← on_advice pop_stack;
  push value;; mret HEmpty.

Definition op_advpopw : M helpers :=
  word ← on_advice pop_stack_word;
  set_word 0 word;; mret HEmpty.

Definition op_mloadw : M helpers :=
  addr ← get 0;
  decrement_size;;
  word ← mem_read_word addr;
  set_word 0 word;; mret HEmpty.

Definition op_mstorew : M helpers :=
  addr ← get 0;
  x1 ← get 1; x2 ← get 2; x3 ← get 3; x4 ← get 4;
  decrement_size;;
  mem_write_word addr (mkWord x1 x2 x3 x4);; mret HEmpty.

Definition op_mload : M helpers :=
  addr ← get 0;
  element ← mem_read_element addr;
  set 0 element;; mret HEmpty.

Definition op_mstore : M helpers :=
  addr ← get 0;
  value ← get 1;
  decrement_size;;
  mem_write_element addr value;; mret HEmpty.

Definition op_mstream : M helpers :=
  addr_first_word ← get 12;
  let addr_second_word := (addr_first_word + WORD_SIZE_FELT)%F in
  first_word ← mem_read_word addr_first_word;
  second_word ← mem_read_word addr_second_word;
  set_word 0 first_word;;
  set_word 4 second_word;;
  set 12 (addr_first_word + DOUBLE_WORD_SIZE)%F;; mret HEmpty.

Definition op_pipe : M helpers :=
  addr_first_word ← get 12;
  let addr_second_word := (addr_first_word + WORD_SIZE_FELT)%F in
  '(word0, word1) ← on_advice pop_stack_dword;
  mem_write_word addr_first_word word0;;
  mem_write_word addr_second_word word1;;
  set_word 0 word0;;
  set_word 4 word1;;
  set 12 (addr_first_word + DOUBLE_WORD_SIZE)%F;; mret HEmpty.

(** ** Cryptographic operations: [crypto_ops/mod.rs], and the hasher of
    [fast/operation.rs], whose row address is always [ZERO]. *)

Definition permute (state : HasherState) : result (felt * HasherState) :=
  Ok (ZERO, apply_permutation state).

Definition verify_merkle_root (claimed_root value : Word) (path : option MerklePath) (index : felt)
    (on_err : OperationError) : result felt :=
  path ← or_panic path;
  if path_verify path ⟦index⟧ value claimed_root then Ok ZERO else Err (OperationErr on_err).

Definition update_merkle_root (claimed_old_root old_value new_value : Word)
    (path : option MerklePath) (index : felt) (on_err : OperationError) : result (felt * Word) :=
  path ← or_panic path;
  if path_verify path ⟦index⟧ old_value claimed_old_root then
    match compute_root path ⟦index⟧ new_value with
    | Some new_root => Ok (ZERO, new_root)
    | None => Err (OperationErr on_err)
    end
  else Err (OperationErr on_err).

(** Eight elements as two words. *)
Definition double_word (l : list felt) : result (Word * Word) :=
  match l with
  | [a; b; c; d; e; f; g; h] => Ok (mkWord a b c d, mkWord e f g h)
  | _ => Panic
  end.

Definition op_hperm : M helpers :=
  dw ← get_double_word 0;
  '(rate0, rate1) ← lift (double_word dw);
  word ← get_word 8;
  '(addr, (r0, r1, cap)) ← lift (permute (rate0, rate1, word));
  set_word 0 r0;;
  set_word 4 r1;;
  set_word 8 cap;;
  mret (HHPerm addr).

Definition op_mpverify (err_code : felt) : M helpers :=
  node ← get_word 0;
  depth ← get 4;
  index ← get 5;
  root ← get_word 6;
  path ← on_advice (fun adv => p ← get_merkle_path adv root depth index; Ok (Some p, adv));
  addr ← lift (verify_merkle_root root node path index
                 (MerklePathVerificationFailed node index root err_code));
  mret (HMerklePath addr).

Definition op_mrupdate : M helpers :=
  old_value ← get_word 0;
  depth ← get 4;
  index ← get 5;
  claimed_old_root ← get_word 6;
  new_value ← get_word 10;
  path ← on_advice (fun adv =>
           '(p, _, adv) ← update_merkle_node adv claimed_old_root depth index new_value;
           Ok (Some p, adv));
  (match path with
   | Some p => if negb (path_len p =? ⟦depth⟧)
               then op_err (InvalidMerklePathLength (path_len p) depth) else mret ()
   | None => mret ()
   end : M unit);;
  '(addr, new_root) ← lift (update_merkle_root claimed_old_root old_value new_value path index
                        (MerklePathVerificationFailed old_value index claimed_old_root ZERO));
  set_word 0 new_root;;
  mret (HMerklePath addr).

Definition op_horner_eval_base : M helpers :=
  addr ← get 13;
  eval_point_0 ← mem_read_element addr;
  eval_point_1 ← mem_read_element (addr + ONE)%F;
  let alpha := quad_new eval_point_0 eval_point_1 in
  coef ← get_double_word 0;
  '(lo, hi) ← lift (double_word coef);
  let '(c0, c1, c2, c3) := word_tuple lo in
  let '(c4, c5, c6, c7) := word_tuple hi in
  acc_low ← get 14;
  acc_high ← get 15;
  let acc := quad_new acc_low acc_high in
  let horner acc c := quad_add (quad_mul acc alpha) (quad_from c) in
  let tmp0 := horner (horner acc c0) c1 in
  let tmp1 := horner (horner (horner tmp0 c2) c3) c4 in
  let acc_new := horner (horner (horner tmp1 c5) c6) c7 in
  set 15 (coef1 acc_new);;
  set 14 (coef0 acc_new);;
  mret (HHornerEvalBase alpha tmp0 tmp1).

Definition get_quad (j : nat) : M QuadFelt :=
  lo ← get (2 * j); hi ← get (2 * j + 1); mret (quad_new lo hi).

Definition op_horner_eval_ext : M helpers :=
  q0 ← get_quad 0; q1 ← get_quad 1; q2 ← get_quad 2; q3 ← get_quad 3;
  let coef := [q0; q1; q2; q3] in
  addr ← get 13;
  word ← mem_read_word addr;
  let alpha := quad_new (w0 word) (w1 word) in
  let k0 := w2 word in
  let k1 := w3 word in
  acc_low ← get 14;
  acc_high ← get 15;
  let acc_old := quad_new acc_low acc_high in
  let step acc c := quad_add c (quad_mul alpha acc) in
  let acc_tmp := foldl step acc_old (take 2 coef) in
  let acc_new := foldl step acc_tmp (drop 2 coef) in
  set 15 (coef1 acc_new);;
  set 14 (coef0 acc_new);;
  mret (HHornerEvalExt alpha k0 k1 acc_tmp).

Definition op_log_precompile : M helpers :=
  comm ← get_word 0;
  tag ← get_word 4;
  cap_prev ← gets pc_transcript;
  '(addr, (r0, r1, cap_next)) ← lift (permute (comm, tag, cap_prev));
  (fun p => Ok ((), with_pc_transcript cap_next p) : result (unit * proc));;
  set_word 0 r0;;
  set_word 4 r1;;
  set_word 8 cap_next;;
  mret (HLogPrecompile addr cap_prev).

(** [validate_dual_word_stream_addrs] *)
Definition validate_dual_word_stream_addrs (src_addr dst_addr : felt) (ctx : ContextId) (clk : Z) :
    result unit :=
  let out_of_bounds (a : Z) := MemoryErr (AddressOutOfBounds a) in
  let src := ⟦src_addr⟧ in
  let dst := ⟦dst_addr⟧ in
  _ ← guard_err (src <=? U32_MAX) (out_of_bounds src);
  let src_end := src + 8 in
  _ ← guard_err (src_end <=? U32_MAX) (out_of_bounds src);
  _ ← guard_err (dst <=? U32_MAX) (out_of_bounds dst);
  let dst_end := dst + 8 in
  _ ← guard_err (dst_end <=? U32_MAX) (out_of_bounds dst);
  if (src <? dst_end) && (dst <? src_end) then
    let dst_word2 := dst + 4 in
    let overlap_first := (src <=? dst) && (dst <? src_end) in
    let offending_addr := if overlap_first then dst else dst_word2 in
    Err (MemoryErr (IllegalMemoryAccess ctx offending_addr clk))
  else Ok ().

Definition word_add (a b : Word) : Word :=
  mkWord (w0 a + w0 b)%F (w1 a + w1 b)%F (w2 a + w2 b)%F (w3 a + w3 b)%F.

Definition op_crypto_stream : M helpers :=
  c ← gets ctx;
  k ← gets clk;
  src_addr ← get 12;
  dst_addr ← get 13;
  lift (validate_dual_word_stream_addrs src_addr dst_addr c k);;
  let src_addr_word2 := (src_addr + WORD_SIZE_FELT)%F in
  plaintext_word1 ← mem_read_word src_addr;
  plaintext_word2 ← mem_read_word src_addr_word2;
  rate ← get_double_word 0;
  '(rate0, rate1) ← lift (double_word rate);
  let ciphertext_word1 := word_add plaintext_word1 rate0 in
  let ciphertext_word2 := word_add plaintext_word2 rate1 in
  let dst_addr_word2 := (dst_addr + WORD_SIZE_FELT)%F in
  mem_write_word dst_addr ciphertext_word1;;
  mem_write_word dst_addr_word2 ciphertext_word2;;
  set_word 0 ciphertext_word1;;
  set_word 4 ciphertext_word2;;
  set 12 (src_addr + DOUBLE_WORD_SIZE)%F;;
  set 13 (dst_addr + DOUBLE_WORD_SIZE)%F;;
  mret HEmpty.

(** [op_eval_circuit] of [eval_circuit.rs] *)
Definition op_eval_circuit : M unit :=
  num_eval ← get 2;
  num_read ← get 1;
  ptr ← get 0;
  c ← gets ctx;
  k ← gets clk;
  mem ← gets memory;
  lift (eval_circuit_impl c ptr k num_read num_eval mem);;
  mret ().

(** ** FRI folding: [fri_ops/mod.rs] *)

Definition EIGHT : felt := new_unchecked 8.
Definition TWO_INV : felt := new_unchecked 9223372034707292161.
Definition TAU_INV : felt := new_unchecked 18446462594437873665.
Definition TAU2_INV : felt := new_unchecked 18446744069414584320.
Definition TAU3_INV : felt := new_unchecked 281474976710656.

Definition get_query_values : M (list QuadFelt) :=
  lo ← get_word 0;
  hi ← get_word 4;
  mret [quad_new (w0 lo) (w1 lo); quad_new (w2 lo) (w3 lo);
        quad_new (w0 hi) (w1 hi); quad_new (w2 hi) (w3 hi)].

Definition bit_reverse_segment (domain_segment : Z) : result Z :=
  match domain_segment with
  | 0 => Ok 0
  | 1 => Ok 2
  | 2 => Ok 1
  | 3 => Ok 3
  | _ => Panic
  end.

Definition reorder_bitrev4 (values : list QuadFelt) : result (list QuadFelt) :=
  match values with
  | [v0; v1; v2; v3] => Ok [v0; v2; v1; v3]
  | _ => Panic
  end.

Definition get_tau_factor (domain_segment : Z) : result felt :=
  match domain_segment with
  | 0 => Ok ONE
  | 1 => Ok TAU_INV
  | 2 => Ok TAU2_INV
  | 3 => Ok TAU3_INV
  | _ => Panic
  end.

Definition get_domain_segment_flags (domain_segment : Z) : result Word :=
  match domain_segment with
  | 0 => Ok (mkWord ONE ZERO ZERO ZERO)
  | 1 => Ok (mkWord ZERO ONE ZERO ZERO)
  | 2 => Ok (mkWord ZERO ZERO ONE ZERO)
  | 3 => Ok (mkWord ZERO ZERO ZERO ONE)
  | _ => Panic
  end.

Definition compute_evaluation_points (alpha : QuadFelt) (x_inv : felt) : QuadFelt * QuadFelt :=
  let ev := quad_scale alpha x_inv in
  let es := quad_mul ev ev in
  (ev, es).

Definition fold2 (f_x f_neg_x ep : QuadFelt) : QuadFelt :=
  quad_scale (quad_add (quad_add f_x f_neg_x) (quad_mul (quad_sub f_x f_neg_x) ep)) TWO_INV.

Definition fold4 (values : list QuadFelt) (ev es : QuadFelt) :
    result (QuadFelt * QuadFelt * QuadFelt) :=
  match values with
  | [v0; v1; v2; v3] =>
    let tmp0 := fold2 v0 v2 ev in
    let tmp1 := fold2 v1 v3 (quad_scale ev TAU_INV) in
    let folded_value := fold2 tmp0 tmp1 es in
    Ok (folded_value, tmp0, tmp1)
  | _ => Panic
  end.

Definition op_fri_ext2fold4 : M helpers :=
  query_values ← get_query_values;
  query_values_reordered ← lift (reorder_bitrev4 query_values);
  p ← get 9;
  let p := ⟦p⟧ in
  let domain_segment := Z.land p 3 in
  let folded_pos := new_unchecked (Z.shiftr p 2) in
  poe ← get 10;
  if bool_decide (poe = ZERO) then op_err (FriError FriDomainSizeZero)
  else
    pe0 ← get 11; pe1 ← get 12;
    let prev_value := quad_new pe0 pe1 in
    a0 ← get 13; a1 ← get 14;
    let alpha := quad_new a0 a1 in
    layer_ptr ← get 15;
    if 3 <? domain_segment then op_err (FriError (FriDomainSegmentTooLarge domain_segment))
    else
      let d_seg := domain_segment in
      query_value ← lift (or_panic (query_values !! Z.to_nat d_seg));
      if bool_decide (query_value <> prev_value) then op_err (FriError FriInconsistentProjection)
      else
        d_seg_rev ← lift (bit_reverse_segment d_seg);
        f_tau ← lift (get_tau_factor d_seg_rev);
        let x := (poe * f_tau)%F in
        let x_inv := inverse x in
        let '(ev, es) := compute_evaluation_points alpha x_inv in
        '(folded_value, tmp0, tmp1) ← lift (fold4 query_values_reordered ev es);
        ds ← lift (get_domain_segment_flags d_seg_rev);
        let poe2 := (poe * poe)%F in
        let poe4 := (poe2 * poe2)%F in
        decrement_size;;
        set 0 (coef0 tmp0);;
        set 1 (coef1 tmp0);;
        set 2 (coef0 tmp1);;
        set 3 (coef1 tmp1);;
        set_word 4 ds;;
        set 8 poe2;;
        set 9 f_tau;;
        set 10 (layer_ptr + EIGHT)%F;;
        set 11 poe4;;
        set 12 folded_pos;;
        set 13 (coef0 folded_value);;
        set 14 (coef1 folded_value);;
        mret (HFriExt2Fold4 ev es x x_inv).

(** ** Dispatch: [execute_op] of [operations/mod.rs] *)

Definition no_helpers (m : M unit) : M helpers := m;; mret HEmpty.

Definition execute_op (op : Operation) : M helpers :=
  match op with
  | Noop => mret HEmpty
  | Assert err_code => op_assert err_code
  | SDepth => op_sdepth
  | Caller => op_caller
  | Clk => op_clk
  | Emit => lift Panic
  | Add => op_add
  | Neg => op_neg
  | Mul => op_mul
  | Inv => op_inv
  | Incr => op_incr
  | And => op_and
  | Or => op_or
  | Not => op_not
  | Eq => op_eq
  | Eqz => op_eqz
  | Expacc => op_expacc
  | Ext2Mul => op_ext2mul
  | U32split => op_u32split
  | U32add => op_u32add
  | U32add3 => op_u32add3
  | U32sub => op_u32sub
  | U32mul => op_u32mul
  | U32madd => op_u32madd
  | U32div => op_u32div
  | U32and => op_u32and
  | U32xor => op_u32xor
  | U32assert2 err_code => op_u32assert2 err_code
  | Pad => op_pad
  | Drop => no_helpers decrement_size
  | Dup0 => dup_nth 0
  | Dup1 => dup_nth 1
  | Dup2 => dup_nth 2
  | Dup3 => dup_nth 3
  | Dup4 => dup_nth 4
  | Dup5 => dup_nth 5
  | Dup6 => dup_nth 6
  | Dup7 => dup_nth 7
  | Dup9 => dup_nth 9
  | Dup11 => dup_nth 11
  | Dup13 => dup_nth 13
  | Dup15 => dup_nth 15
  | Swap => op_swap
  | SwapW => no_helpers (swapw_nth 1)
  | SwapW2 => no_helpers (swapw_nth 2)
  | SwapW3 => no_helpers (swapw_nth 3)
  | SwapDW => op_swap_double_word
  | MovUp2 => no_helpers (rotate_left 3)
  | MovUp3 => no_helpers (rotate_left 4)
  | MovUp4 => no_helpers (rotate_left 5)
  | MovUp5 => no_helpers (rotate_left 6)
  | MovUp6 => no_helpers (rotate_left 7)
  | MovUp7 => no_helpers (rotate_left 8)
  | MovUp8 => no_helpers (rotate_left 9)
  | MovDn2 => no_helpers (rotate_right 3)
  | MovDn3 => no_helpers (rotate_right 4)
  | MovDn4 => no_helpers (rotate_right 5)
  | MovDn5 => no_helpers (rotate_right 6)
  | MovDn6 => no_helpers (rotate_right 7)
  | MovDn7 => no_helpers (rotate_right 8)
  | MovDn8 => no_helpers (rotate_right 9)
  | CSwap => op_cswap
  | CSwapW => op_cswapw
  | Push value => op_push value
  | AdvPop => op_advpop
  | AdvPopW => op_advpopw
  | MLoadW => op_mloadw
  | MStoreW => op_mstorew
  | MLoad => op_mload
  | MStore => op_mstore
  | MStream => op_mstream
  | Pipe => op_pipe
  | HPerm => op_hperm
  | MpVerify err_code => op_mpverify err_code
  | MrUpdate => op_mrupdate
  | FriE2F4 => op_fri_ext2fold4
  | HornerBase => op_horner_eval_base
  | HornerExt => op_horner_eval_ext
  | EvalCircuit => no_helpers op_eval_circuit
  | LogPrecompile => op_log_precompile
  | CryptoStream => op_crypto_stream
  end.

(** ** Contexts: [fast/call_and_dyn.rs] *)

Definition save_context_and_truncate_stack : M unit := fun p =>
  '(overflow, s) ← st_truncate (stack p);
  Ok ((), with_call_stack (mkExecutionContextInfo _ overflow (ctx p) (caller_hash p) :: call_stack p)
            (with_stack s p)).

Definition restore_context : M unit := fun p =>
  if (MIN_STACK_DEPTH <? st_depth (stack p))%nat
  then Err (OperationErr (InvalidStackDepthOnReturn (st_depth (stack p))))
  else
    match call_stack p with
    | [] => Panic
    | ctx_info :: rest =>
      s ← st_restore_overflow (stack p) (overflow_stack ctx_info);
      Ok ((), with_call_stack rest
                (with_system (eci_ctx ctx_info) (fn_hash ctx_info) (with_stack s p)))
    end.

(** The operations of a basic block, in order, without control flow. *)
Fixpoint execute_ops (ops : list Operation) : M unit :=
  match ops with
  | [] => mret ()
  | op :: ops => execute_op op;; execute_ops ops
  end.
End Processor.
