(* ===== verification/SysEvents.v ===== *)
(** * System event handlers

    [processor/src/fast/basic_block/sys_event_handlers.rs]: what the processor
    does when an [EMIT] finds the identifier of a system event on top of the
    stack.  A handler reads the operand stack below the identifier and the memory, and
    changes the advice provider only. *)

From S2P Require Import Prelude Bits Field Types Events Operations OperandStack Memory Advice Processor.
#[local] Open Scope Z_scope.

Definition HDWORD_TO_MAP_WITH_DOMAIN_DOMAIN_OFFSET : nat := 9.

Section SysEvents.
Context {F : Felt} {Q : Quad} {C : Crypto} {St : Type} `{!StackInterface St}.

Abbreviation M := (M (St := St)).

(** [processor.advice.<method>(..)?] for a method without a result *)
Definition adv (f : AdviceProvider -> adv_result AdviceProvider) : M unit :=
  on_advice (fun a => a ← f a; Ok ((), a)).

Definition mem_err {A} (e : MemoryError) : M A := raise (MemoryErr e).

(** [addr_range.map(|addr| read_element_impl(ctx, addr).unwrap_or(ZERO)).collect()] *)
Fixpoint read_range (m : Memory) (ctx : ContextId) (addr : Z) (len : nat) : result (list felt) :=
  match len with
  | O => Ok []
  | S len =>
    v ← read_element_impl m ctx addr;
    vs ← read_range m ctx (addr + 1) len;
    Ok (default ZERO v :: vs)
  end.

Definition insert_mem_values_into_adv_map : M unit :=
  start_addr ← get 5;
  end_addr ← get 6;
  let start_addr := ⟦start_addr⟧ in
  let end_addr := ⟦end_addr⟧ in
  if U32_MAX <? start_addr then mem_err (AddressOutOfBounds start_addr)
  else if U32_MAX <? end_addr then mem_err (AddressOutOfBounds end_addr)
  else if end_addr <? start_addr then mem_err (InvalidMemoryRange start_addr end_addr)
  else
    let len := Z.to_nat (end_addr - start_addr) in
    opts ← gets options;
    if (max_adv_map_value_size opts <? len)%nat
    then raise (AdviceErr (AdvMapValueSizeExceeded len (max_adv_map_value_size opts)))
    else
      c ← gets ctx;
      m ← gets memory;
      values ← lift (read_range m c start_addr len);
      key ← get_word 1;
      adv (fun a => insert_into_map a key values).

Definition insert_hdword_into_adv_map (domain : felt) : M unit :=
  a ← get_word 1;
  b ← get_word 5;
  let key := merge_in_domain a b domain in
  adv (fun p => insert_into_map p key (word_elements a ++ word_elements b)).

Definition insert_hqword_into_adv_map : M unit :=
  a ← get_word 1;
  b ← get_word 5;
  c ← get_word 9;
  d ← get_word_safe 13;
  let values := word_elements a ++ word_elements b ++ word_elements c ++ word_elements d in
  let key := hash_elements values in
  adv (fun p => insert_into_map p key values).

(** The twelve elements are read as three words. *)
Definition insert_hperm_into_adv_map : M unit :=
  r1 ← get_word 1;
  r2 ← get_word 5;
  cap ← get_word 9;
  let values := word_elements r1 ++ word_elements r2 in
  let '(key, _, _) := apply_permutation (r1, r2, cap) in
  adv (fun p => insert_into_map p key values).

Definition merge_merkle_nodes : M unit :=
  lhs ← get_word 1;
  rhs ← get_word 5;
  adv (fun a => '(_, a) ← merge_roots a lhs rhs; Ok a).

Definition copy_merkle_node_to_adv_stack : M unit :=
  depth ← get 1;
  index ← get 2;
  root ← get_word 3;
  adv (fun a => node ← get_tree_node a root depth index; push_stack_word a node).

Definition copy_map_value_to_adv_stack (include_len : bool) (pad_to : nat) : M unit :=
  key ← get_word 1;
  adv (fun a => push_from_map a key include_len pad_to).

Definition copy_map_value_length_to_adv_stack : M unit :=
  key ← get_word 1;
  adv (fun a =>
    match get_mapped_values a key with
    | Some values => push_stack a (new_unchecked (Z.of_nat (length values)))
    | None => Err (MapKeyNotFound key)
    end).

Definition push_key_presence_flag : M unit :=
  map_key ← get_word 1;
  adv (fun a => push_stack a (if contains_map_key a map_key then ONE else ZERO)).

Definition push_ext2_inv_result : M unit :=
  c0 ← get 1;
  c1 ← get 2;
  let element := quad_new c0 c1 in
  if bool_decide (element = quad_new ZERO ZERO) then op_err DivideByZero
  else
    let result := quad_inverse element in
    adv (fun a => push_stack a (coef0 result));;
    adv (fun a => push_stack a (coef1 result)).

Definition push_transformed_stack_top (f : Z -> felt) : M unit :=
  stack_top ← get 1;
  if U32_MAX <? ⟦stack_top⟧ then op_err (NotU32Values [stack_top])
  else adv (fun a => push_stack a (f ⟦stack_top⟧)).

Definition push_leading_zeros : M unit := push_transformed_stack_top (fun n => from_u32 (leading_zeros n)).
Definition push_trailing_zeros : M unit := push_transformed_stack_top (fun n => from_u32 (trailing_zeros n)).
Definition push_leading_ones : M unit := push_transformed_stack_top (fun n => from_u32 (leading_ones n)).
Definition push_trailing_ones : M unit := push_transformed_stack_top (fun n => from_u32 (trailing_ones n)).

Definition push_ilog2 : M unit :=
  n ← get 1;
  if ⟦n⟧ =? 0 then op_err LogArgumentZero
  else adv (fun a => push_stack a (from_u32 (Z.log2 ⟦n⟧))).

Definition handle_system_event (system_event : SystemEvent) : M unit :=
  match system_event with
  | MerkleNodeMerge => merge_merkle_nodes
  | MerkleNodeToStack => copy_merkle_node_to_adv_stack
  | MapValueToStack => copy_map_value_to_adv_stack false 0
  | MapValueCountToStack => copy_map_value_length_to_adv_stack
  | MapValueToStackN0 => copy_map_value_to_adv_stack true 0
  | MapValueToStackN4 => copy_map_value_to_adv_stack true 4
  | MapValueToStackN8 => copy_map_value_to_adv_stack true 8
  | HasMapKey => push_key_presence_flag
  | Ext2Inv => push_ext2_inv_result
  | U32Clz => push_leading_zeros
  | U32Ctz => push_trailing_zeros
  | U32Clo => push_leading_ones
  | U32Cto => push_trailing_ones
  | ILog2 => push_ilog2
  | MemToMap => insert_mem_values_into_adv_map
  | HdwordToMap => insert_hdword_into_adv_map ZERO
  | HdwordToMapWithDomain =>
    domain ← get HDWORD_TO_MAP_WITH_DOMAIN_DOMAIN_OFFSET;
    insert_hdword_into_adv_map domain
  | HqwordToMap => insert_hqword_into_adv_map
  | HpermToMap => insert_hperm_into_adv_map
  end.
End SysEvents.
