(* ===== verification/Frame.v ===== *)
(** * What operations and event handlers leave alone

    Operations change the operand stack, the memory of the current context, the advice
    provider and the precompile transcript.  They never change the clock, the
    context registers, the saved contexts or the options, nor any memory cell of
    another context.  System event handlers change the advice provider alone. *)

From S2P Require Import Prelude Bits Field Types Events Operations OperandStack Memory Advice Ace Processor SysEvents.
Import Op.
#[local] Open Scope Z_scope.

Section Frame.
Context {F : Felt} {Q : Quad} {C : Crypto} {St : Type} `{!StackInterface St}.
Abbreviation proc := (Proc St).
Abbreviation M := (Processor.M (St := St)).

Record framed (p p' : proc) : Prop := {
  fr_clk : clk p' = clk p;
  fr_ctx : ctx p' = ctx p;
  fr_caller : caller_hash p' = caller_hash p;
  fr_calls : call_stack p' = call_stack p;
  fr_options : options p' = options p;
  fr_memory c a : c <> ctx p -> mem_cell (memory p') c a = mem_cell (memory p) c a;
}.

#[global] Instance framed_preorder : PreOrder framed.
Proof.
  split; [by split|]. intros p q r [] []. split; [congruence..|].
  intros c a Hc. rewrite fr_memory1 by congruence. by apply fr_memory0.
Qed.

(** [m] respects a relation between states when it succeeds. *)
Definition keeps {A} (R : proc -> proc -> Prop) (m : M A) : Prop :=
  forall p a p', m p = Ok (a, p') -> R p p'.

Section Combinators.
Context (R : proc -> proc -> Prop) `{!PreOrder R}.
#[local] Set Default Proof Using "Type*".

Lemma keeps_ret {A} (a : A) : keeps R (mret a).
Proof. intros p a' p' [= -> ->]. reflexivity. Qed.

Lemma keeps_bind {A B} (m : M A) (f : A -> M B) : keeps R m -> (forall a, keeps R (f a)) -> keeps R (m ≫= f).
Proof.
  intros Hm Hf p b p' H. unfold mbind, M_bind in H.
  destruct (m p) as [[a p1]| |] eqn:E; cbn in H; try done. transitivity p1; [by eapply Hm|by eapply Hf].
Qed.

Lemma keeps_lift {A} (o : result A) : keeps R (lift o).
Proof. intros p a p' H. unfold lift in H. destruct o; cbn in H; simplify_eq. reflexivity. Qed.

Lemma keeps_raise {A} e : keeps R (raise e : M A).
Proof. by intros p a p' H. Qed.

Lemma keeps_gets {A} (f : proc -> A) : keeps R (gets f).
Proof. intros p a p' [= _ ->]. reflexivity. Qed.

Lemma keeps_get i : keeps R (get i).
Proof. intros p a p' H. unfold get in H. destruct (st_get _ _); cbn in H; simplify_eq. reflexivity. Qed.
Lemma keeps_get_word i : keeps R (get_word i).
Proof. intros p a p' H. unfold get_word in H. destruct (st_get_word _ _); cbn in H; simplify_eq. reflexivity. Qed.
Lemma keeps_get_word_safe i : keeps R (get_word_safe i).
Proof. intros p a p' H. unfold get_word_safe in H. destruct (st_get_word_safe _ _); cbn in H; simplify_eq. reflexivity. Qed.
Lemma keeps_get_double_word i : keeps R (get_double_word i).
Proof. intros p a p' H. unfold get_double_word in H. destruct (st_get_list _ _ _); cbn in H; simplify_eq. reflexivity. Qed.
Lemma keeps_read_element a : keeps R (mem_read_element a).
Proof. intros p v p' H. unfold mem_read_element in H. destruct (read_element _ _ _); cbn in H; simplify_eq. reflexivity. Qed.
Lemma keeps_read_word a : keeps R (mem_read_word a).
Proof. intros p v p' H. unfold mem_read_word in H. destruct (read_word _ _ _); cbn in H; simplify_eq. reflexivity. Qed.
End Combinators.

Lemma framed_on_stack f : keeps framed (on_stack f).
Proof. intros p a p' H. unfold on_stack in H. destruct (f _); cbn in H; simplify_eq. by split. Qed.

Lemma framed_write_element a v : keeps framed (mem_write_element a v).
Proof.
  intros p u p' Hw. unfold mem_write_element in Hw.
  destruct (write_element _ _ _ _) as [m| |] eqn:E; cbn in Hw; simplify_eq. split; try done.
  intros c x Hc. cbn. rewrite (mem_cell_write_element _ _ _ _ _ c x E).
  by rewrite decide_False by (intros []; congruence).
Qed.

Lemma framed_write_word a v : keeps framed (mem_write_word a v).
Proof.
  intros p u p' Hw. unfold mem_write_word in Hw.
  destruct (write_word _ _ _ _) as [m| |] eqn:E; cbn in Hw; simplify_eq. split; try done.
  intros c x Hc. cbn. rewrite (mem_cell_write_word _ _ _ _ _ c x E).
  by rewrite decide_False by (intros []; congruence).
Qed.

Lemma framed_on_advice {A} (f : AdviceProvider -> adv_result (A * AdviceProvider)) : keeps framed (on_advice f).
Proof.
  intros p a p' H. unfold on_advice in H. destruct (f _) as [[]| |]; cbn in H; simplify_eq. by split.
Qed.

Lemma framed_transcript w : keeps framed (fun p => Ok ((), with_pc_transcript w p)).
Proof. intros p a p' [= _ <-]. by split. Qed.
End Frame.

(** Walk through a handler. *)
Ltac keeps_prim :=
  lazymatch goal with
  | |- keeps _ (mret _) => apply keeps_ret; apply _
  | |- keeps _ (lift _) => apply keeps_lift; apply _
  | |- keeps _ (raise _) => apply keeps_raise; apply _
  | |- keeps _ (op_err _) => apply keeps_raise; apply _
  | |- keeps _ (gets _) => apply keeps_gets; apply _
  | |- keeps _ (get _) => apply keeps_get; apply _
  | |- keeps _ (get_word _) => apply keeps_get_word; apply _
  | |- keeps _ (get_word_safe _) => apply keeps_get_word_safe; apply _
  | |- keeps _ (get_double_word _) => apply keeps_get_double_word; apply _
  | |- keeps _ (mem_read_element _) => apply keeps_read_element; apply _
  | |- keeps _ (mem_read_word _) => apply keeps_read_word; apply _
  | |- keeps framed (mem_write_element _ _) => apply framed_write_element
  | |- keeps framed (mem_write_word _ _) => apply framed_write_word
  | |- keeps framed (on_advice _) => apply framed_on_advice
  | |- keeps framed (fun p => Ok (tt, with_pc_transcript _ p)) => apply framed_transcript
  | |- keeps framed (on_stack _) => apply framed_on_stack
  | |- keeps framed (set _ _) => apply framed_on_stack
  | |- keeps framed (set_word _ _) => apply framed_on_stack
  | |- keeps framed (swap _ _) => apply framed_on_stack
  | |- keeps framed (swapw_nth _) => apply framed_on_stack
  | |- keeps framed (rotate_left _) => apply framed_on_stack
  | |- keeps framed (rotate_right _) => apply framed_on_stack
  | |- keeps framed decrement_size => apply framed_on_stack
  | |- keeps framed (push _) => apply framed_on_stack
  end.
Ltac keeps_auto :=
  repeat first
    [ keeps_prim
    | apply keeps_bind; [apply _| |intros ?]
    | match goal with
      | |- keeps _ (match ?x with _ => _ end) => destruct x
      | |- keeps _ (let '(_, _) := ?x in _) => destruct x
      end ].

Section Handlers.
Context {F : Felt} {Q : Quad} {C : Crypto} {St : Type} `{!StackInterface St}.
Abbreviation proc := (Proc St).

Lemma framed_execute_op op : keeps (St := St) framed (execute_op op).
Proof.
  destruct op; cbn [execute_op];
    unfold no_helpers, op_push, op_pad, op_swap, op_swap_double_word, dup_nth, op_cswap, op_cswapw,
      op_add, op_neg, op_mul, op_inv, op_incr, op_and, op_or, op_not, op_eq, op_eqz, op_expacc,
      op_ext2mul, op_u32split, op_u32add, op_u32add3, op_u32sub, op_u32mul, op_u32madd, op_u32div,
      op_u32and, op_u32xor, op_u32assert2, op_assert, op_sdepth, op_caller, op_clk, op_advpop,
      op_advpopw, op_mloadw, op_mstorew, op_mload, op_mstore, op_mstream, op_pipe, op_hperm,
      op_mpverify, op_mrupdate, op_horner_eval_base, op_horner_eval_ext, op_log_precompile,
      op_crypto_stream, op_eval_circuit, op_fri_ext2fold4, pop2_applyfn_push, pop2_applyfn_push_op,
      require_u32_operands2, require_u32_operands3, get_quad, get_query_values;
    keeps_auto.
Qed.

(** Only the advice provider changes. *)
Definition adv_only (p p' : proc) : Prop := p' = with_advice (advice p') p.

#[global] Instance adv_only_preorder : PreOrder adv_only.
Proof.
  split; [by intros []|]. intros p q r Hq Hr. unfold adv_only in *. rewrite Hr at 1. by rewrite Hq.
Qed.

Lemma adv_only_adv f : keeps (St := St) adv_only (adv f).
Proof.
  intros p a p' H. unfold adv, on_advice in H. destruct (f (advice p)); cbn in H; by simplify_eq.
Qed.

Lemma adv_only_handle_system_event ev : keeps (St := St) adv_only (handle_system_event ev).
Proof.
  destruct ev; cbn [handle_system_event];
    unfold merge_merkle_nodes, copy_merkle_node_to_adv_stack, copy_map_value_to_adv_stack,
      copy_map_value_length_to_adv_stack, push_key_presence_flag, push_ext2_inv_result,
      push_leading_zeros, push_trailing_zeros, push_leading_ones, push_trailing_ones, push_ilog2,
      push_transformed_stack_top, insert_mem_values_into_adv_map, insert_hdword_into_adv_map,
      insert_hqword_into_adv_map, insert_hperm_into_adv_map, mem_err;
    repeat first [apply adv_only_adv | progress keeps_auto].
Qed.

Lemma adv_only_framed p p' : adv_only p p' -> framed p p'.
Proof. intros ->. by split. Qed.
End Handlers.

(** ** The advice provider *)
Section Provider.
Context {F : Felt} {C : Crypto}.

Definition bounded (a : AdviceProvider) : Prop := (length (adv_stack a) <= MAX_ADVICE_STACK_SIZE)%nat.

Record evolves (a a' : AdviceProvider) : Prop := {
  ev_stack : bounded a -> bounded a';
  ev_map : adv_map a ⊆ adv_map a';
}.

#[global] Instance evolves_preorder : PreOrder evolves.
Proof. split; [by split|]. intros a b c [] []. split; [auto|by etrans]. Qed.

Lemma evolves_shrink a st : (length st <= length (adv_stack a))%nat -> evolves a (with_adv_stack st a).
Proof. intros H. split; [unfold bounded; cbn; lia|done]. Qed.

Lemma evolves_push a vs n : check_stack_capacity a n = Ok () -> n = length vs -> evolves a (push_front_all vs a).
Proof.
  intros H ->. apply check_stack_capacity_Ok in H. split; [|done]. intros _. unfold bounded.
  rewrite push_front_all_stack. cbn. rewrite length_app, length_reverse. lia.
Qed.

Lemma evolves_store a s : evolves a (with_adv_store s a).
Proof. by split. Qed.

(** *** The advice map *)

Lemma extend_map_eq a other :
  match extend_map a other with
  | Ok a' => (forall k v v', adv_map a !! k = Some v -> other !! k = Some v' -> v = v') /\
             a' = with_adv_map (adv_map a ∪ other) a
  | Err e => exists k v v', e = MapKeyAlreadyPresent k v v' /\
             adv_map a !! k = Some v /\ other !! k = Some v' /\ v <> v'
  | Panic => False
  end.
Proof.
  unfold extend_map, merge, find_conflicting_entry.
  destruct (find_conflict (adv_map a) (btree_iter other)) as [[[k v] v']|] eqn:E; cbn.
  - apply find_conflict_Some in E as (H1 & H2 & H3). exists k, v, v'. split_and!; [done|done| |done].
    by apply btree_iter_elem.
  - split; [|by rewrite merge_new_union]. intros k v v' H1 H2.
    eapply find_conflict_None; [exact E| |exact H1]. by apply btree_iter_elem.
Qed.

Lemma evolves_extend_map a other a' : extend_map a other = Ok a' -> evolves a a'.
Proof.
  intros H. pose proof (extend_map_eq a other) as He. rewrite H in He. destruct He as [_ ->].
  split; [done|]. cbn. apply map_union_subseteq_l.
Qed.

Lemma evolves_insert a k vs a' : insert_into_map a k vs = Ok a' -> evolves a a'.
Proof.
  unfold insert_into_map. destruct (adv_map a !! k) as [vs'|] eqn:E.
  - case_decide; intros; by simplify_eq.
  - intros [= <-]. split; [done|]. cbn. by apply insert_subseteq.
Qed.

(** *** The advice stack *)

Lemma evolves_push_stack a v a' : push_stack a v = Ok a' -> evolves a a'.
Proof.
  intros H. unfold push_stack in H. destruct (check_stack_capacity a 1) as [[]| |] eqn:E; cbn in H; simplify_eq.
  by eapply evolves_push.
Qed.

Lemma evolves_push_word a w a' : push_stack_word a w = Ok a' -> evolves a a'.
Proof.
  intros H. unfold push_stack_word in H. destruct (check_stack_capacity a 4) as [[]| |] eqn:E; cbn in H; simplify_eq.
  by eapply evolves_push.
Qed.

Lemma evolves_extend_stack a vs a' : extend_stack a vs = Ok a' -> evolves a a'.
Proof.
  intros H. unfold extend_stack in H. destruct (check_stack_capacity _ _) as [[]| |] eqn:E; cbn in H; simplify_eq.
  eapply evolves_push; [done|]. by rewrite length_reverse.
Qed.

(** [push_from_map] leaves the values in order, the length in front and zeros behind them. *)
Definition map_value_block (values : list felt) (include_len : bool) (pad : nat) : list felt :=
  (if include_len then [new_unchecked (Z.of_nat (length values))] else []) ++ values ++
  replicate (if (pad =? 0)%nat then 0 else next_multiple_of (length values) pad - length values) ZERO.

Lemma push_from_map_eq a key values include_len pad : adv_map a !! key = Some values ->
  let pushed := map_value_block values include_len pad in
  push_from_map a key include_len pad =
  if (MAX_ADVICE_STACK_SIZE <? length (adv_stack a) + length pushed)%nat
  then Err (StackSizeExceeded (length pushed) MAX_ADVICE_STACK_SIZE)
  else Ok (with_adv_stack (pushed ++ adv_stack a) a).
Proof.
  intros Hk pushed. unfold push_from_map, check_stack_capacity. rewrite Hk.
  set (z := if (pad =? 0)%nat then 0%nat else _).
  assert ((length values + z + (if include_len then 1 else 0))%nat = length pushed) as ->.
  { unfold pushed, map_value_block. fold z. rewrite !length_app, length_replicate. destruct include_len; cbn; lia. }
  destruct (_ <? _)%nat; cbn; [done|]. f_equal. unfold push_front_all, with_adv_stack. cbn.
  destruct include_len; cbn; rewrite !foldl_cons_rev, reverse_involutive, reverse_replicate;
    unfold pushed, map_value_block; fold z; by rewrite <-!app_assoc.
Qed.

Lemma evolves_push_from_map a key b n a' : push_from_map a key b n = Ok a' -> evolves a a'.
Proof.
  intros H. destruct (adv_map a !! key) as [vs|] eqn:E; [|unfold push_from_map in H; by rewrite E in H].
  rewrite (push_from_map_eq a key vs b n E) in H.
  destruct (Nat.ltb_spec MAX_ADVICE_STACK_SIZE
    (length (adv_stack a) + length (map_value_block vs b n))) as [|Hle]; [done|]. simplify_eq.
  split; [|done]. intros _. unfold bounded. cbn. rewrite length_app. lia.
Qed.

Lemma evolves_mutation a m a' : apply_mutation a m = Ok a' -> evolves a a'.
Proof.
  destruct m; cbn; intros H; [by eapply evolves_extend_stack|by eapply evolves_extend_map|..]; simplify_eq; by split.
Qed.

Lemma evolves_mutations a ms a' : apply_mutations a ms = Ok a' -> evolves a a'.
Proof.
  revert a. induction ms as [|m ms IH]; intros a H; cbn in H; [by simplify_eq|].
  destruct (apply_mutation a m) as [a1| |] eqn:E; cbn in H; [|done..].
  transitivity a1; [by eapply evolves_mutation|by apply IH].
Qed.
End Provider.

(** ** Operations and events *)
Section Handlers.
Context {F : Felt} {Q : Quad} {C : Crypto} {St : Type} `{!StackInterface St}.
Abbreviation proc := (Proc St).

Definition adv_evolves (p p' : proc) : Prop := evolves (advice p) (advice p').

#[global] Instance adv_evolves_preorder : PreOrder adv_evolves.
Proof. split; [by intros p|]. intros p q r Hp Hq. unfold adv_evolves in *. by etrans. Qed.

Lemma evolves_on_stack f : keeps (St := St) adv_evolves (on_stack f).
Proof. intros p a p' H. unfold on_stack in H. destruct (f _); cbn in H; simplify_eq. unfold adv_evolves. done. Qed.

Lemma evolves_write_element a v : keeps (St := St) adv_evolves (mem_write_element a v).
Proof. intros p u p' H. unfold mem_write_element in H. destruct (write_element _ _ _ _); cbn in H; simplify_eq. unfold adv_evolves. done. Qed.

Lemma evolves_write_word a v : keeps (St := St) adv_evolves (mem_write_word a v).
Proof. intros p u p' H. unfold mem_write_word in H. destruct (write_word _ _ _ _); cbn in H; simplify_eq. unfold adv_evolves. done. Qed.

Lemma evolves_transcript w : keeps (St := St) adv_evolves (fun p => Ok ((), with_pc_transcript w p)).
Proof. intros p a p' [= _ <-]. unfold adv_evolves. done. Qed.

Lemma evolves_on_advice {A} (f : AdviceProvider -> adv_result (A * AdviceProvider)) :
  (forall a r a', f a = Ok (r, a') -> evolves a a') -> keeps (St := St) adv_evolves (on_advice f).
Proof.
  intros Hf p r p' H. unfold on_advice in H. destruct (f (advice p)) as [[r' a']| |] eqn:E; cbn in H; simplify_eq.
  by eapply Hf.
Qed.

Lemma evolves_adv f : (forall a a', f a = Ok a' -> evolves a a') -> keeps (St := St) adv_evolves (adv f).
Proof.
  intros Hf. apply evolves_on_advice. intros a [] a' H. destruct (f a) eqn:E; cbn in H; simplify_eq. by apply Hf.
Qed.

Lemma evolves_pop : keeps (St := St) adv_evolves (on_advice pop_stack).
Proof.
  apply evolves_on_advice. intros a v a' H. unfold pop_stack in H. destruct (adv_stack a) eqn:E; simplify_eq.
  apply evolves_shrink. rewrite E. cbn. lia.
Qed.
Lemma evolves_pop_word : keeps (St := St) adv_evolves (on_advice pop_stack_word).
Proof.
  apply evolves_on_advice. intros a v a' H. rewrite pop_stack_word_eq in H.
  destruct (adv_stack a) as [|? [|? [|? [|? ?]]]] eqn:E; simplify_eq. apply evolves_shrink. rewrite E. cbn. lia.
Qed.
Lemma evolves_pop_dword : keeps (St := St) adv_evolves (on_advice pop_stack_dword).
Proof.
  apply evolves_on_advice. intros a v a' H. rewrite pop_stack_dword_eq in H.
  destruct (adv_stack a) as [|? [|? [|? [|? [|? [|? [|? [|? ?]]]]]]]] eqn:E; simplify_eq.
  apply evolves_shrink. rewrite E. cbn. lia.
Qed.
Lemma evolves_get_path root d i : keeps (St := St) adv_evolves
  (on_advice (fun adv => p ← get_merkle_path adv root d i; Ok (Some p, adv))).
Proof.
  apply evolves_on_advice. intros a v a' H. destruct (get_merkle_path _ _ _ _); cbn in H; by simplify_eq.
Qed.
Lemma evolves_update root d i v : keeps (St := St) adv_evolves
  (on_advice (fun adv => '(p, _, adv) ← update_merkle_node adv root d i v; Ok (Some p, adv))).
Proof.
  apply evolves_on_advice. intros a r a' H. unfold update_merkle_node in H.
  destruct (node_index d i); cbn in H; [|done..].
  destruct (store_set_node _ _ _ _) as [[[? ?] ?]|]; cbn in H; simplify_eq. apply evolves_store.
Qed.

Ltac evolves_auto :=
  repeat first
    [ apply evolves_on_stack | apply evolves_write_element | apply evolves_write_word | apply evolves_transcript
    | apply evolves_pop | apply evolves_pop_word | apply evolves_pop_dword | apply evolves_get_path
    | apply evolves_update | progress keeps_auto ].

Lemma evolves_execute_op op : keeps (St := St) adv_evolves (execute_op op).
Proof.
  destruct op; cbn [execute_op];
    unfold no_helpers, op_push, op_pad, op_swap, op_swap_double_word, dup_nth, op_cswap, op_cswapw,
      op_add, op_neg, op_mul, op_inv, op_incr, op_and, op_or, op_not, op_eq, op_eqz, op_expacc,
      op_ext2mul, op_u32split, op_u32add, op_u32add3, op_u32sub, op_u32mul, op_u32madd, op_u32div,
      op_u32and, op_u32xor, op_u32assert2, op_assert, op_sdepth, op_caller, op_clk, op_advpop,
      op_advpopw, op_mloadw, op_mstorew, op_mload, op_mstore, op_mstream, op_pipe, op_hperm,
      op_mpverify, op_mrupdate, op_horner_eval_base, op_horner_eval_ext, op_log_precompile,
      op_crypto_stream, op_eval_circuit, op_fri_ext2fold4, pop2_applyfn_push, pop2_applyfn_push_op,
      require_u32_operands2, require_u32_operands3, get_quad, get_query_values, set, set_word,
      swap, swapw_nth, rotate_left, rotate_right, decrement_size, push;
    evolves_auto.
Qed.

Lemma evolves_system_event ev : keeps (St := St) adv_evolves (handle_system_event ev).
Proof.
  destruct ev; cbn [handle_system_event];
    unfold merge_merkle_nodes, copy_merkle_node_to_adv_stack, copy_map_value_to_adv_stack,
      copy_map_value_length_to_adv_stack, push_key_presence_flag, push_ext2_inv_result,
      push_leading_zeros, push_trailing_zeros, push_leading_ones, push_trailing_ones, push_ilog2,
      push_transformed_stack_top, insert_mem_values_into_adv_map, insert_hdword_into_adv_map,
      insert_hqword_into_adv_map, insert_hperm_into_adv_map, mem_err;
    keeps_auto; apply evolves_adv; intros adv0 adv1 H;
    eauto using evolves_push_stack, evolves_push_from_map, evolves_insert.
  - unfold merge_roots in H. destruct (store_merge_roots _ _ _) as [[? ?]|]; cbn in H; simplify_eq. apply evolves_store.
  - destruct (get_tree_node _ _ _ _); cbn in H; [|done..]. by eapply evolves_push_word.
  - destruct (get_mapped_values _ _); [|done]. by eapply evolves_push_stack.
Qed.
End Handlers.
