(* ===== verification/Execution.v ===== *)
(** * Program execution

    [processor/src/execution/], [continuation_stack.rs], [fast/step.rs],
    [fast/execution_api.rs] and [fast/basic_block/mod.rs]: a program is a forest of
    MAST nodes; its execution is driven by a stack of continuations.  Every
    row of the trace is one clock cycle; after each cycle a stopper may
    interrupt the execution, which is then resumed from the continuation stack.

    The source parametrises the loop by a tracer and executes decorators in debug
    and tracing mode; here the tracer is [NoopTracer] and both modes are off, as in
    [FastProcessor::new].  The host, which is user code, is an interface: it
    answers events with advice mutations and provides MAST forests by the
    digest of a procedure. *)

From Stdlib Require Import String.
From S2P Require Import Prelude Bits Field Types Events Operations OperandStack Memory Advice Processor SysEvents.
Import Op.
#[local] Open Scope Z_scope.

(** ** MAST forests: [core/src/mast/] *)

Definition MastNodeId := nat.

Section Mast.
Context {F : Felt} {C : Crypto}.

(** The nodes of a forest, with what the execution reads of them. *)
Inductive MastNodeKind :=
  | Block (op_batches : list (list Operation))
  | Join (first second : MastNodeId)
  | Split (on_true on_false : MastNodeId)
  | Loop (body : MastNodeId)
  | Call (callee : MastNodeId) (is_syscall : bool)
  | Dyn (is_dyncall : bool)
  | External.

Record MastNode := mkMastNode { node_kind : MastNodeKind; digest : Word }.

Record MastForest := mkMastForest {
  nodes : list MastNode;
  roots : list MastNodeId;
  forest_advice_map : AdviceMap;
}.

(** [MastForest::get_node_by_id(id).unwrap()], and [forest[id]] *)
Definition get_node (f : MastForest) (id : MastNodeId) : result MastNode := or_panic (nodes f !! id).

Definition is_external (n : MastNode) : bool :=
  match node_kind n with External => true | _ => false end.

(** [MastForest::find_procedure_root]: the first root with the digest. *)
Fixpoint find_root (f : MastForest) (ids : list MastNodeId) (d : Word) : result (option MastNodeId) :=
  match ids with
  | [] => Ok None
  | id :: ids =>
    n ← get_node f id;
    if bool_decide (digest n = d) then Ok (Some id) else find_root f ids d
  end.
Definition find_procedure_root (f : MastForest) (d : Word) : result (option MastNodeId) :=
  find_root f (roots f) d.

Record Program := mkProgram {
  mast_forest : MastForest;
  entrypoint : MastNodeId;
  kernel : list Word;
}.

(** ** Continuations: [continuation_stack.rs] *)
Inductive Continuation :=
  | StartNode (node_id : MastNodeId)
  | FinishJoin (node_id : MastNodeId)
  | FinishSplit (node_id : MastNodeId)
  | FinishLoop (node_id : MastNodeId) (was_entered : bool)
  | FinishCall (node_id : MastNodeId)
  | FinishDyn (node_id : MastNodeId)
  | FinishExternal (node_id : MastNodeId)
  | ResumeBasicBlock (node_id : MastNodeId) (batch_index op_idx_in_batch : nat)
  | Respan (node_id : MastNodeId) (batch_index : nat)
  | FinishBasicBlock (node_id : MastNodeId)
  | EnterForest (forest : MastForest)
  | AfterExitDecorators (node_id : MastNodeId)
  | AfterExitDecoratorsBasicBlock (node_id : MastNodeId).

(** [Continuation::increments_clk] *)
Definition increments_clk (c : Continuation) : bool :=
  match c with
  | StartNode _ | FinishJoin _ | FinishSplit _ | FinishLoop _ _ | FinishCall _ | FinishDyn _
  | ResumeBasicBlock _ _ _ | Respan _ _ | FinishBasicBlock _ => true
  | FinishExternal _ | EnterForest _ | AfterExitDecorators _ | AfterExitDecoratorsBasicBlock _ => false
  end.

(** [ContinuationStack]: a vector used as a stack; its top is the head of the list. *)
Definition ContinuationStack := list Continuation.
Definition new_continuation_stack (program : Program) : ContinuationStack :=
  [StartNode (entrypoint program)].

(** [iter_continuations_for_next_clock]: up to and including the first one that
    increments the clock. *)
Fixpoint continuations_for_next_clock (cs : ContinuationStack) : list Continuation :=
  match cs with
  | [] => []
  | c :: cs => if increments_clk c then [c] else c :: continuations_for_next_clock cs
  end.
End Mast.

(** ** The host: [SyncHost] *)

Section View.
Context {F : Felt} {C : Crypto}.

(** What [ProcessorState] lets an event handler read. *)
Record ProcessorState := mkProcessorState {
  pv_stack : list felt;
  pv_clk : Z;
  pv_ctx : ContextId;
  pv_memory : Memory;
  pv_advice : AdviceProvider;
}.
End View.

Class Host {F : Felt} {C : Crypto} := {
  HostState : Type;
  (** [on_event]: advice mutations, or an error of the handler *)
  on_event : HostState -> ProcessorState -> option (list AdviceMutation) * HostState;
  (** [get_mast_forest] *)
  get_mast_forest : HostState -> Word -> option MastForest * HostState;
}.

(** ** The execution loop *)
Section Execution.
Context {F : Felt} {Q : Quad} {C : Crypto} {St : Type} `{!StackInterface St} {HO : Host}.

Abbreviation proc := (Proc St).
Abbreviation M := (Processor.M (St := St)).

(** [ExecutionState], with the current forest. *)
Record EState := mkEState {
  processor : proc;
  continuation_stack : ContinuationStack;
  current_forest : MastForest;
  host : HostState;
}.

Definition with_processor (p : proc) (s : EState) : EState :=
  mkEState p (continuation_stack s) (current_forest s) (host s).
Definition push_continuation (c : Continuation) (s : EState) : EState :=
  mkEState (processor s) (c :: continuation_stack s) (current_forest s) (host s).
Definition set_forest (f : MastForest) (s : EState) : EState :=
  mkEState (processor s) (continuation_stack s) f (host s).
Definition set_host (h : HostState) (s : EState) : EState :=
  mkEState (processor s) (continuation_stack s) (current_forest s) h.

(** [InternalBreakReason] without [User], which is [XErr] or [XStop] below. *)
Inductive IoBreak :=
  | BreakEmit (continuation : Continuation)
  | BreakLoadFromDyn (dyn_node_id : MastNodeId) (callee_hash : Word)
  | BreakLoadFromExternal (external_node_id : MastNodeId) (procedure_hash : Word).

(** [ControlFlow<InternalBreakReason>] with the mutated state. *)
Inductive xres :=
  | XOk (s : EState)
  | XErr (e : ExecutionError)
  | XStop (continuation : option Continuation) (s : EState)
  | XIo (b : IoBreak) (s : EState)
  | XPanic.

Definition X := EState -> xres.

(** [m?; k] *)
Definition xthen (m k : X) : X := fun s =>
  match m s with
  | XOk s => k s
  | r => r
  end.
Definition xret : X := XOk.
Definition xerr (e : ExecutionError) : X := fun _ => XErr e.
Definition xpanic : X := fun _ => XPanic.

(** Run a handler of the processor. *)
Definition xrun {A} (m : M A) (k : A -> X) : X := fun s =>
  match m (processor s) with
  | Ok (a, p) => k a (with_processor p s)
  | Err e => XErr e
  | Panic => XPanic
  end.
Definition xlift {A} (o : result A) (k : A -> X) : X := fun s =>
  match o with
  | Ok a => k a s
  | Err e => XErr e
  | Panic => XPanic
  end.
Definition xpush (c : Continuation) (k : X) : X := fun s => k (push_continuation c s).

(** *** Stoppers: [fast/step.rs] *)

Inductive Stopper := NeverStopper | StepStopper.

Definition check_if_max_cycles_exceeded (k : X) : X := fun s =>
  if max_cycles (options (processor s)) <? clk (processor s)
  then XErr (CycleLimitExceeded (max_cycles (options (processor s))))
  else k s.

Definition continuation_stack_too_large : ExecutionError :=
  InternalErr "continuation stack size exceeded the allowed maximum"%string.

Definition check_if_continuation_stack_too_large (k : X) : X := fun s =>
  if (max_num_continuations (options (processor s)) <? length (continuation_stack s))%nat
  then XErr continuation_stack_too_large
  else k s.

Definition should_stop (stopper : Stopper) (continuation_after_stop : option Continuation) : X :=
  check_if_max_cycles_exceeded (check_if_continuation_stack_too_large (fun s =>
    match stopper with
    | NeverStopper => XOk s
    | StepStopper => XStop continuation_after_stop s
    end)).

Definition increment_clock (p : proc) : proc := with_clk (clk p + 1) p.

(** [finalize_clock_cycle_with_continuation] *)
Definition finalize_clock_cycle_with_continuation (stopper : Stopper) (c : option Continuation) : X :=
  fun s => should_stop stopper c (with_processor (increment_clock (processor s)) s).

Definition finalize_clock_cycle (stopper : Stopper) : X :=
  finalize_clock_cycle_with_continuation stopper None.

(** [get_next_ctx_id] *)
Definition get_next_ctx_id (p : proc) : ContextId := clk p + 1.

(** *** Basic blocks: [execution/basic_block.rs] *)

Definition get_continuation_after_executing_operation (op_batches : list (list Operation))
    (node_id : MastNodeId) (batch_index op_idx_in_batch : nat) : Continuation :=
  let last_op_idx_in_batch := (length (default [] (op_batches !! batch_index)) - 1)%nat in
  let last_batch_idx_in_block := (length op_batches - 1)%nat in
  if (op_idx_in_batch <? last_op_idx_in_batch)%nat
  then ResumeBasicBlock node_id batch_index (op_idx_in_batch + 1)
  else if (batch_index <? last_batch_idx_in_block)%nat
  then Respan node_id (batch_index + 1)
  else FinishBasicBlock node_id.

(** The loop of [execute_op_batch] over the operations from [op_idx_in_batch] on. *)
Fixpoint execute_batch_ops (stopper : Stopper) (op_batches : list (list Operation)) (node_id : MastNodeId)
    (batch_index op_idx_in_batch : nat) (ops : list Operation) : X :=
  match ops with
  | [] => xret
  | op :: ops =>
    let continuation :=
      get_continuation_after_executing_operation op_batches node_id batch_index op_idx_in_batch in
    match op with
    | Emit => fun s => XIo (BreakEmit continuation) s
    | _ =>
      xrun (execute_op op) (fun _ =>
      xthen (finalize_clock_cycle_with_continuation stopper (Some continuation))
            (execute_batch_ops stopper op_batches node_id batch_index (op_idx_in_batch + 1) ops))
    end
  end.

Definition execute_op_batch (stopper : Stopper) (op_batches : list (list Operation)) (node_id : MastNodeId)
    (batch_index start_op_idx : nat) : X :=
  match op_batches !! batch_index with
  | Some batch => execute_batch_ops stopper op_batches node_id batch_index start_op_idx (drop start_op_idx batch)
  | None => xpanic
  end.

(** The decorators of the end of a block and of its exit are not executed. *)
Definition finish_basic_block (stopper : Stopper) (node_id : MastNodeId) : X :=
  finalize_clock_cycle_with_continuation stopper (Some (AfterExitDecoratorsBasicBlock node_id)).

(** The loop of [execute_basic_block_node_from_batch]: [n] batches from [batch_index] on. *)
Fixpoint execute_batches (stopper : Stopper) (op_batches : list (list Operation)) (node_id : MastNodeId)
    (batch_index n : nat) : X :=
  match n with
  | O => finish_basic_block stopper node_id
  | S n =>
    xthen (finalize_clock_cycle_with_continuation stopper (Some (ResumeBasicBlock node_id batch_index 0)))
    (xthen (execute_op_batch stopper op_batches node_id batch_index 0)
           (execute_batches stopper op_batches node_id (batch_index + 1) n))
  end.
Definition execute_basic_block_node_from_batch (stopper : Stopper) (op_batches : list (list Operation))
    (node_id : MastNodeId) (start_batch_index : nat) : X :=
  execute_batches stopper op_batches node_id start_batch_index (length op_batches - start_batch_index).

Definition execute_basic_block_node_from_op_idx (stopper : Stopper) (op_batches : list (list Operation))
    (node_id : MastNodeId) (start_batch_index start_op_idx_in_batch : nat) : X :=
  xthen (execute_op_batch stopper op_batches node_id start_batch_index start_op_idx_in_batch)
        (execute_basic_block_node_from_batch stopper op_batches node_id (start_batch_index + 1)).

Definition execute_basic_block_node_from_start (stopper : Stopper) (op_batches : list (list Operation))
    (node_id : MastNodeId) : X :=
  xthen (finalize_clock_cycle_with_continuation stopper (Some (ResumeBasicBlock node_id 0 0)))
  (xthen (match op_batches with
          | [] => xret
          | _ => execute_op_batch stopper op_batches node_id 0 0
          end)
         (execute_basic_block_node_from_batch stopper op_batches node_id 1)).

(** [finish_emit_op_execution] *)
Definition finish_emit_op_execution (stopper : Stopper) (post_emit_continuation : Continuation) : X :=
  xthen (finalize_clock_cycle_with_continuation stopper (Some post_emit_continuation))
        (xpush post_emit_continuation xret).

(** *** Join, split and loop nodes: [join.rs], [split.rs], [loop.rs] *)

Definition start_join_node (stopper : Stopper) (node_id first second : MastNodeId) : X :=
  xpush (FinishJoin node_id) (xpush (StartNode second) (xpush (StartNode first)
    (finalize_clock_cycle stopper))).

Definition finish_join_node (stopper : Stopper) (node_id : MastNodeId) : X :=
  finalize_clock_cycle_with_continuation stopper (Some (AfterExitDecorators node_id)).

Definition start_split_node (stopper : Stopper) (node_id on_true on_false : MastNodeId) : X :=
  xrun (get 0) (fun condition =>
  xrun decrement_size (fun _ =>
  xpush (FinishSplit node_id)
    (if bool_decide (condition = ONE) then xpush (StartNode on_true) (finalize_clock_cycle stopper)
     else if bool_decide (condition = ZERO) then xpush (StartNode on_false) (finalize_clock_cycle stopper)
     else xerr (OperationErr (NotBinaryValueIf condition))))).

Definition finish_split_node (stopper : Stopper) (node_id : MastNodeId) : X :=
  finalize_clock_cycle_with_continuation stopper (Some (AfterExitDecorators node_id)).

Definition finish_loop_node (stopper : Stopper) (loop_was_entered : bool) (node_id : MastNodeId) : X :=
  xrun (if loop_was_entered then get 0 else mret ZERO) (fun condition =>
  fun s =>
  match nodes (current_forest s) !! node_id with
  | Some (mkMastNode (Loop body) _) =>
    (if bool_decide (condition = ONE) then
       xrun decrement_size (fun _ =>
       xpush (FinishLoop node_id true) (xpush (StartNode body) (finalize_clock_cycle stopper)))
     else if bool_decide (condition = ZERO) then
       xrun (if loop_was_entered then decrement_size else mret tt) (fun _ =>
       finalize_clock_cycle_with_continuation stopper (Some (AfterExitDecorators node_id)))
     else xerr (OperationErr (NotBinaryValueLoop condition))) s
  | _ => XPanic
  end).

Definition start_loop_node (stopper : Stopper) (node_id body : MastNodeId) : X :=
  xrun (get 0) (fun condition =>
  xrun decrement_size (fun _ =>
  if bool_decide (condition = ONE) then
    xpush (FinishLoop node_id true) (xpush (StartNode body) (finalize_clock_cycle stopper))
  else if bool_decide (condition = ZERO) then
    xthen (finalize_clock_cycle_with_continuation stopper (Some (FinishLoop node_id false)))
          (finish_loop_node stopper false node_id)
  else xerr (OperationErr (NotBinaryValueLoop condition)))).

(** *** Calls: [call.rs] *)

Definition FMP_INIT_VALUE : felt := new_unchecked (2 ^ 31).
Definition FMP_ADDR : felt := new_unchecked (2 ^ 32 - 1 - 1).

Definition set_ctx (c : ContextId) : M unit := fun p => Ok ((), with_system c (caller_hash p) p).
Definition set_caller_hash (h : Word) : M unit := fun p => Ok ((), with_system (ctx p) h p).

Definition mem_write_element_in (c : ContextId) (addr v : felt) : M unit := fun p =>
  m ← write_element (memory p) c addr v; Ok ((), with_memory m p).

(** Enter a new context: registers and frame pointer. *)
Definition init_context (new_ctx : ContextId) (callee_hash : Word) : M unit :=
  set_ctx new_ctx;;
  set_caller_hash callee_hash;;
  mem_write_element_in new_ctx FMP_ADDR FMP_INIT_VALUE.

Definition start_call_node (stopper : Stopper) (kernel : list Word) (node_id callee : MastNodeId)
    (is_syscall : bool) : X :=
  xrun save_context_and_truncate_stack (fun _ => fun s =>
  xlift (get_node (current_forest s) callee) (fun callee_node =>
  let callee_hash := digest callee_node in
  let enter :=
    xpush (FinishCall node_id) (xpush (StartNode callee) (finalize_clock_cycle stopper)) in
  if is_syscall then
    if bool_decide (callee_hash ∈ kernel) then xrun (set_ctx root_context) (fun _ => enter)
    else xerr (OperationErr (SyscallTargetNotInKernel callee_hash))
  else
    xrun (init_context (get_next_ctx_id (processor s)) callee_hash) (fun _ => enter)) s).

Definition finish_call_node (stopper : Stopper) (node_id : MastNodeId) : X :=
  xrun restore_context (fun _ =>
  finalize_clock_cycle_with_continuation stopper (Some (AfterExitDecorators node_id))).

(** *** Dynamic calls: [dyn.rs] *)

Definition start_dyn_node (stopper : Stopper) (node_id : MastNodeId) (is_dyncall : bool) : X :=
  xrun (get 0) (fun mem_addr =>
  xrun (mem_read_word mem_addr) (fun callee_hash =>
  xrun decrement_size (fun _ =>
  let resolve : X := fun s =>
    xlift (find_procedure_root (current_forest s) callee_hash) (fun callee =>
      match callee with
      | Some callee_id => xpush (StartNode callee_id) (finalize_clock_cycle stopper)
      | None => fun s => XIo (BreakLoadFromDyn node_id callee_hash) s
      end) s in
  if is_dyncall then
    fun s =>
    let new_ctx := get_next_ctx_id (processor s) in
    xrun save_context_and_truncate_stack (fun _ =>
    xrun (init_context new_ctx callee_hash) (fun _ =>
    xpush (FinishDyn node_id) resolve)) s
  else xpush (FinishDyn node_id) resolve))).

Definition finish_load_mast_forest_from_dyn_start (stopper : Stopper) (root_id : MastNodeId)
    (new_forest : MastForest) : X := fun s =>
  xpush (EnterForest (current_forest s)) (xpush (StartNode root_id)
    (fun s => finalize_clock_cycle stopper (set_forest new_forest s))) s.

Definition finish_dyn_node (stopper : Stopper) (node_id : MastNodeId) : X := fun s =>
  match nodes (current_forest s) !! node_id with
  | Some (mkMastNode (Dyn is_dyncall) _) =>
    xrun (if is_dyncall then restore_context else mret tt) (fun _ =>
    finalize_clock_cycle_with_continuation stopper (Some (AfterExitDecorators node_id))) s
  | _ => XPanic
  end.

(** *** External nodes: [external.rs] *)

Definition execute_external_node (node_id : MastNodeId) (d : Word) : X := fun s =>
  XIo (BreakLoadFromExternal node_id d) s.

Definition finish_load_mast_forest_from_external (resolved_node_id : MastNodeId)
    (new_mast_forest : MastForest) (external_node_id : MastNodeId) : X := fun s =>
  match nodes (current_forest s) !! external_node_id with
  | Some (mkMastNode External d) =>
    xlift (get_node new_mast_forest resolved_node_id) (fun n =>
      if is_external n then xerr (OperationErr (CircularExternalNode d))
      else
        xpush (FinishExternal external_node_id) (xpush (EnterForest (current_forest s))
        (xpush (StartNode resolved_node_id) (fun s => XOk (set_forest new_mast_forest s))))) s
  | _ => XPanic
  end.

(** *** The body of the main loop: [execute_impl] of [execution/mod.rs] *)

Definition start_node (stopper : Stopper) (kernel : list Word) (node_id : MastNodeId) (n : MastNode) : X :=
  match node_kind n with
  | Block op_batches => execute_basic_block_node_from_start stopper op_batches node_id
  | Join first second => start_join_node stopper node_id first second
  | Split on_true on_false => start_split_node stopper node_id on_true on_false
  | Loop body => start_loop_node stopper node_id body
  | Call callee is_syscall => start_call_node stopper kernel node_id callee is_syscall
  | Dyn is_dyncall => start_dyn_node stopper node_id is_dyncall
  | External => execute_external_node node_id (digest n)
  end.

(** [get_node_by_id(id).unwrap().unwrap_basic_block()] *)
Definition with_basic_block (node_id : MastNodeId) (k : list (list Operation) -> X) : X := fun s =>
  match nodes (current_forest s) !! node_id with
  | Some (mkMastNode (Block op_batches) _) => k op_batches s
  | _ => XPanic
  end.

Definition execute_continuation (stopper : Stopper) (kernel : list Word) (c : Continuation) : X :=
  match c with
  | StartNode node_id => fun s =>
    xlift (get_node (current_forest s) node_id) (fun n => start_node stopper kernel node_id n) s
  | FinishJoin node_id => finish_join_node stopper node_id
  | FinishSplit node_id => finish_split_node stopper node_id
  | FinishLoop node_id was_entered => finish_loop_node stopper was_entered node_id
  | FinishCall node_id => finish_call_node stopper node_id
  | FinishDyn node_id => finish_dyn_node stopper node_id
  | FinishExternal _ => xret
  | ResumeBasicBlock node_id batch_index op_idx_in_batch =>
    with_basic_block node_id (fun op_batches =>
      execute_basic_block_node_from_op_idx stopper op_batches node_id batch_index op_idx_in_batch)
  | Respan node_id batch_index =>
    with_basic_block node_id (fun op_batches =>
      execute_basic_block_node_from_batch stopper op_batches node_id batch_index)
  | FinishBasicBlock node_id => with_basic_block node_id (fun _ => finish_basic_block stopper node_id)
  | EnterForest previous_forest => fun s => XOk (set_forest previous_forest s)
  | AfterExitDecorators _ => xret
  | AfterExitDecoratorsBasicBlock node_id => with_basic_block node_id (fun _ => xret)
  end.

(** *** Events: [fast/basic_block/mod.rs] *)

Definition processor_state (p : proc) : result ProcessorState :=
  l ← st_elements (stack p);
  Ok (mkProcessorState l (clk p) (ctx p) (memory p) (advice p)).

Definition apply_host_event_mutations (id : felt) (mutations : option (list AdviceMutation)) : M unit :=
  match mutations with
  | Some mutations => adv (fun a => apply_mutations a mutations)
  | None => raise (EventErr id)
  end.

Definition op_emit_sync : X :=
  xrun (get 0) (fun id =>
  match from_event_id ⟦id⟧ with
  | Some system_event => xrun (handle_system_event system_event) (fun _ => xret)
  | None => fun s =>
    xlift (processor_state (processor s)) (fun view s =>
      let '(mutations, h) := on_event (host s) view in
      xrun (apply_host_event_mutations id mutations) (fun _ => xret) (set_host h s)) s
  end).

(** *** The outer loop: [FastProcessor::execute_impl] of [fast/execution_api.rs] *)

(** [load_mast_forest_sync] *)
Definition load_mast_forest_sync (node_digest : Word) (k : MastNodeId -> MastForest -> X) : X := fun s =>
  let '(found, h) := get_mast_forest (host s) node_digest in
  let s := set_host h s in
  match found with
  | None => XErr (ProcedureNotFound node_digest)
  | Some f =>
    xlift (find_procedure_root f node_digest) (fun root =>
      match root with
      | None => xerr (OperationErr (MalformedMastForestInHost node_digest))
      | Some root_id =>
        xrun (adv (fun a => extend_map a (forest_advice_map f))) (fun _ => k root_id f)
      end) s
  end.

(** The body of the outer loop: what follows a break. *)
Definition handle_break (stopper : Stopper) (b : IoBreak) : X :=
  match b with
  | BreakEmit continuation => xthen op_emit_sync (finish_emit_op_execution stopper continuation)
  | BreakLoadFromDyn _ callee_hash =>
    load_mast_forest_sync callee_hash (finish_load_mast_forest_from_dyn_start stopper)
  | BreakLoadFromExternal external_node_id procedure_hash =>
    load_mast_forest_sync procedure_hash (fun root_id f =>
      finish_load_mast_forest_from_external root_id f external_node_id)
  end.

(** One round: pop a continuation, execute it, and handle the break it may end
    with.  After a handled break the outer loop of the source enters the inner
    one again with the same state, so the two loops are one here. *)
Definition round (stopper : Stopper) (kernel : list Word) (c : Continuation) (s : EState) : xres :=
  match execute_continuation stopper kernel c s with
  | XIo b s => handle_break stopper b s
  | r => r
  end.

(** [ControlFlow<BreakReason, StackOutputs>] of the outer loop, with the final state. *)
Inductive flow :=
  | FDone (stack_outputs : list felt) (s : EState)
  | FErr (e : ExecutionError)
  | FStopped (continuation : option Continuation) (s : EState)
  | FPanic.

(** [StackOutputs::new] on the elements of the stack *)
Definition stack_outputs_of (s : EState) : flow :=
  match st_elements (stack (processor s)) with
  | Ok l =>
    if (MIN_STACK_DEPTH <? length l)%nat then FErr (OutputStackOverflow (length l - MIN_STACK_DEPTH))
    else FDone (l ++ replicate (MIN_STACK_DEPTH - length l) ZERO) s
  | Err e => FErr e
  | Panic => FPanic
  end.

(** The loop; [None] when the fuel is exhausted. *)
Fixpoint execute_impl (fuel : nat) (stopper : Stopper) (kernel : list Word) (s : EState) : option flow :=
  match continuation_stack s with
  | [] => Some (stack_outputs_of s)
  | c :: cs =>
    match fuel with
    | O => None
    | S fuel =>
      match round stopper kernel c (mkEState (processor s) cs (current_forest s) (host s)) with
      | XOk s => execute_impl fuel stopper kernel s
      | XErr e => Some (FErr e)
      | XStop c s => Some (FStopped c s)
      | XIo _ _ | XPanic => Some FPanic
      end
    end
  end.

(** *** Entry points *)

(** [FastProcessor::new_with_options] on the initial stack; the transcript starts with zero capacity. *)
Definition new_with_options (st : St) (advice_inputs : AdviceProvider) (opts : ExecutionOptions) : proc :=
  mkProc _ _ _ st 0 root_context EMPTY_WORD advice_inputs ∅ [] opts EMPTY_WORD.

(** [get_initial_resume_context] *)
Definition get_initial_resume_context (p : proc) (program : Program) (h : HostState) : result EState :=
  match extend_map (advice p) (forest_advice_map (mast_forest program)) with
  | Ok a => Ok (mkEState (with_advice a p) (new_continuation_stack program) (mast_forest program) h)
  | Err e => Err (AdviceErr e)
  | Panic => Panic
  end.

(** [execute_with_tracer_sync] with its result conversion: [None] is a run out of fuel. *)
Definition execute_sync (fuel : nat) (p : proc) (program : Program) (h : HostState) :
    option (result (list felt * proc)) :=
  match get_initial_resume_context p program h with
  | Ok s =>
    r ← execute_impl fuel NeverStopper (kernel program) s;
    Some match r with
         | FDone outputs s => Ok (outputs, processor s)
         | FErr e => Err e
         | FStopped _ _ | FPanic => Panic
         end
  | Err e => Some (Err e)
  | Panic => Some Panic
  end.

(** [step_sync] with [resume_context_from_flow]: the next state, or the outputs when done. *)
Inductive step_result :=
  | StepDone (stack_outputs : list felt) (s : EState)
  | StepMore (s : EState)
  | StepErr (e : ExecutionError)
  | StepPanic.

Definition step_sync (fuel : nat) (kernel : list Word) (s : EState) : option step_result :=
  r ← execute_impl fuel StepStopper kernel s;
  Some match r with
       | FDone outputs s => StepDone outputs s
       | FErr e => StepErr e
       | FStopped (Some c) s => StepMore (push_continuation c s)
       | FStopped None s => StepMore s
       | FPanic => StepPanic
       end.

(** The loop of [execute_by_step_sync]. *)
Fixpoint step_loop (fuel : nat) (kernel : list Word) (s : EState) : option flow :=
  match fuel with
  | O => None
  | S fuel =>
    r ← step_sync (S fuel) kernel s;
    match r with
    | StepDone outputs s => Some (FDone outputs s)
    | StepMore s => step_loop fuel kernel s
    | StepErr e => Some (FErr e)
    | StepPanic => Some FPanic
    end
  end.
End Execution.
