(* ===== verification/Stepping.v ===== *)
(** * Stepping and running

    Executing a program cycle by cycle with [StepStopper], resuming each time from
    the returned continuation stack, gives what running it with [NeverStopper]
    gives; and every run ends, because each round of the loop advances
    the clock, which is limited, or shortens the continuation stack. *)

From S2P Require Import Prelude Field Types Events Operations OperandStack Memory Advice Processor SysEvents Execution Frame.
Import Op.
#[local] Open Scope Z_scope.

Create HintDb clock.

Section Stepping.
Context {F : Felt} {Q : Quad} {C : Crypto} {St : Type} `{!StackInterface St} {HO : Host}.
Context (kernel : list Word).
#[local] Set Default Proof Using "Type*".

Abbreviation EState := (EState (St := St)).
Abbreviation X := (X (St := St)).
Abbreviation exec := (execute_continuation (St := St) NeverStopper kernel).

(** ** One clock cycle *)

Definition tick (s : EState) : EState := with_processor (increment_clock (processor s)) s.

Lemma finalize_cases c (s : EState) :
  (exists e, forall sp, finalize_clock_cycle_with_continuation sp c s = XErr e) \/
  (finalize_clock_cycle_with_continuation NeverStopper c s = XOk (tick s) /\
   finalize_clock_cycle_with_continuation StepStopper c s = XStop c (tick s)).
Proof.
  unfold finalize_clock_cycle_with_continuation, should_stop, check_if_max_cycles_exceeded,
    check_if_continuation_stack_too_large. fold (tick s).
  destruct (_ <? _); [left; by eexists|]. destruct (_ <? _)%nat; [left; by eexists|]. by right.
Qed.

(** The result of a step and that of a run of the same code: where the step stops,
    the run goes on as the returned continuation does. *)
Definition agree (run step : xres (St := St)) : Prop :=
  match step with
  | XStop None s => run = XOk s
  | XStop (Some c) s => run = exec c s
  | r => run = r
  end.

Lemma agree_run {A} (m : M A) (k k' : A -> X) s :
  (forall a p, agree (k a (with_processor p s)) (k' a (with_processor p s))) ->
  agree (xrun m k s) (xrun m k' s).
Proof. intros H. unfold xrun. destruct (m _) as [[a p]| |]; [apply H|done..]. Qed.

Lemma agree_lift {A} (o : result A) (k k' : A -> X) s :
  (forall a, o = Ok a -> agree (k a s) (k' a s)) -> agree (xlift o k s) (xlift o k' s).
Proof. intros H. unfold xlift. destruct o; [by apply H|done..]. Qed.

Lemma agree_finalize (c : Continuation) (k k' : X) s :
  k (tick s) = exec c (tick s) ->
  agree (xthen (finalize_clock_cycle_with_continuation NeverStopper (Some c)) k s)
        (xthen (finalize_clock_cycle_with_continuation StepStopper (Some c)) k' s).
Proof.
  intros H. unfold xthen. destruct (finalize_cases (Some c) s) as [[e He]|[-> ->]]; [by rewrite !He|done].
Qed.

Lemma agree_finalize_last (c : Continuation) s : exec c (tick s) = XOk (tick s) ->
  agree (finalize_clock_cycle_with_continuation NeverStopper (Some c) s)
        (finalize_clock_cycle_with_continuation StepStopper (Some c) s).
Proof.
  intros H. destruct (finalize_cases (Some c) s) as [[e He]|[-> ->]]; [by rewrite !He|done].
Qed.

Lemma agree_finalize_none s : agree (finalize_clock_cycle NeverStopper s) (finalize_clock_cycle StepStopper s).
Proof.
  unfold finalize_clock_cycle. destruct (finalize_cases None s) as [[e He]|[-> ->]]; [by rewrite !He|done].
Qed.

(** ** Basic blocks *)

Section Block.
Context (op_batches : list (list Operation)) (node_id : MastNodeId).
Definition in_block (s : EState) : Prop :=
  exists d, nodes (current_forest s) !! node_id = Some (mkMastNode (Block op_batches) d).

Lemma with_block k (s : EState) : in_block s -> with_basic_block node_id k s = k op_batches s.
Proof. intros [d H]. unfold with_basic_block. by rewrite H. Qed.

Lemma agree_finish s : in_block s ->
  agree (finish_basic_block NeverStopper node_id s) (finish_basic_block StepStopper node_id s).
Proof. intros H. apply agree_finalize_last. cbn [execute_continuation]. by rewrite with_block. Qed.

Lemma agree_from_batch b s : in_block s ->
  agree (execute_basic_block_node_from_batch NeverStopper op_batches node_id b s)
        (execute_basic_block_node_from_batch StepStopper op_batches node_id b s).
Proof.
  intros Hs. unfold execute_basic_block_node_from_batch.
  destruct (length op_batches - b)%nat as [|n] eqn:Hn; [by apply agree_finish|].
  cbn [execute_batches]. apply agree_finalize. cbn [execute_continuation]. rewrite with_block by done.
  unfold execute_basic_block_node_from_op_idx, execute_basic_block_node_from_batch.
  by replace (length op_batches - (b + 1))%nat with n by lia.
Qed.

(** After an operation, the run continues where the continuation points. *)
Lemma after_operation b i batch op ops s : in_block s -> op_batches !! b = Some batch ->
  drop i batch = op :: ops ->
  xthen (execute_batch_ops NeverStopper op_batches node_id b (i + 1) ops)
    (execute_basic_block_node_from_batch NeverStopper op_batches node_id (b + 1)) s =
  exec (get_continuation_after_executing_operation op_batches node_id b i) s.
Proof.
  intros Hs Hb Hd. assert (drop (i + 1) batch = ops) as Hd'.
  { rewrite <-drop_drop, Hd. done. }
  assert (length batch - i = S (length ops))%nat as Hlen by (rewrite <-length_drop, Hd; done).
  pose proof (lookup_lt_Some _ _ _ Hb) as Hlt.
  unfold get_continuation_after_executing_operation. rewrite Hb. change (default [] (Some batch)) with batch.
  destruct (Nat.ltb_spec i (length batch - 1)) as [Hi|Hi].
  - cbn [execute_continuation]. rewrite with_block by done. unfold execute_basic_block_node_from_op_idx, execute_op_batch.
    by rewrite Hb, Hd'.
  - destruct ops; [|simpl in Hlen; lia]. cbn [execute_batch_ops]. 
    destruct (Nat.ltb_spec b (length op_batches - 1)) as [Hlast|Hlast]; cbn [execute_continuation]; rewrite with_block by done; [done|].
    unfold xthen, xret, execute_basic_block_node_from_batch.
    by replace (length op_batches - (b + 1))%nat with 0%nat by lia.
Qed.

Lemma xthen_assoc (m k1 k2 : X) s : xthen (xthen m k1) k2 s = xthen m (xthen k1 k2) s.
Proof using Type. unfold xthen. by destruct (m s). Qed.

Lemma xthen_run {A} (m : M A) (k : A -> X) (k2 : X) s :
  xthen (xrun m k) k2 s = xrun m (fun a => xthen (k a) k2) s.
Proof using Type. unfold xthen, xrun. by destruct (m (processor s)) as [[]| |]. Qed.

Lemma agree_ops b i batch s : in_block s -> op_batches !! b = Some batch ->
  agree (xthen (execute_batch_ops NeverStopper op_batches node_id b i (drop i batch))
           (execute_basic_block_node_from_batch NeverStopper op_batches node_id (b + 1)) s)
        (xthen (execute_batch_ops StepStopper op_batches node_id b i (drop i batch))
           (execute_basic_block_node_from_batch StepStopper op_batches node_id (b + 1)) s).
Proof.
  intros Hs Hb. destruct (drop i batch) as [|op ops] eqn:Hd; [by apply agree_from_batch|].
  cbn [execute_batch_ops].
  destruct (decide (op = Emit)) as [->|Hne]; [done|].
  destruct op; try done; rewrite !xthen_run; apply agree_run; intros h p; cbv beta;
    rewrite !xthen_assoc; apply agree_finalize; eapply after_operation; done.
Qed.

Lemma agree_from_op_idx b i s : in_block s ->
  agree (execute_basic_block_node_from_op_idx NeverStopper op_batches node_id b i s)
        (execute_basic_block_node_from_op_idx StepStopper op_batches node_id b i s).
Proof.
  intros Hs. unfold execute_basic_block_node_from_op_idx, execute_op_batch.
  destruct (op_batches !! b) as [batch|] eqn:Hb; [|done]. by apply agree_ops.
Qed.

Lemma agree_from_start s : in_block s -> op_batches <> [] ->
  agree (execute_basic_block_node_from_start NeverStopper op_batches node_id s)
        (execute_basic_block_node_from_start StepStopper op_batches node_id s).
Proof.
  intros Hs Hne. unfold execute_basic_block_node_from_start. apply agree_finalize.
  cbn [execute_continuation]. rewrite with_block by done. destruct op_batches; [done|]. done.
Qed.
End Block.

(** ** All continuations *)

(** [BasicBlockNode::new] rejects a block without operations. *)
Definition wf_forest (f : MastForest) : Prop :=
  forall id d, nodes f !! id <> Some (mkMastNode (Block []) d).

Lemma agree_finish_loop entered id s :
  agree (finish_loop_node NeverStopper entered id s) (finish_loop_node StepStopper entered id s).
Proof.
  apply agree_run. intros v p. cbv beta.
  destruct (nodes _ !! id) as [[[] d]|]; try done.
  case_bool_decide; [|case_bool_decide; [|done]].
  - apply agree_run. intros _ p'. apply agree_finalize_none.
  - apply agree_run. intros _ p'. by apply agree_finalize_last.
Qed.

Lemma agree_start_node id n s : wf_forest (current_forest s) ->
  nodes (current_forest s) !! id = Some n ->
  agree (start_node NeverStopper kernel id n s) (start_node StepStopper kernel id n s).
Proof.
  intros Hwf Hn. unfold start_node. destruct n as [[B|i j|i j|i|i b|b|] d]; cbn [node_kind digest].
  - apply agree_from_start; [by exists d|]. intros ->. by apply (Hwf id d).
  - apply agree_finalize_none.
  - apply agree_run. intros v p. apply agree_run. intros _ p'. unfold xpush.
    case_bool_decide; [apply agree_finalize_none|]. case_bool_decide; [apply agree_finalize_none|done].
  - apply agree_run. intros v p. apply agree_run. intros _ p'. 
    case_bool_decide; [apply agree_finalize_none|]. case_bool_decide; [|done].
    by apply agree_finalize.
  - apply agree_run. intros _ p. apply agree_lift. intros callee _. cbv zeta.
    destruct b; [case_bool_decide; [|done]|]; apply agree_run; intros _ p'; apply agree_finalize_none.
  - apply agree_run. intros v p. apply agree_run. intros w p'. apply agree_run. intros _ p''.
    assert (forall s : EState, agree
      (xlift (find_procedure_root (current_forest s) w) (fun callee =>
         match callee with
         | Some callee_id => xpush (StartNode callee_id) (finalize_clock_cycle NeverStopper)
         | None => fun s => XIo (BreakLoadFromDyn id w) s
         end) s)
      (xlift (find_procedure_root (current_forest s) w) (fun callee =>
         match callee with
         | Some callee_id => xpush (StartNode callee_id) (finalize_clock_cycle StepStopper)
         | None => fun s => XIo (BreakLoadFromDyn id w) s
         end) s)) as Hresolve.
    { intros s'. apply agree_lift. intros [callee|] _; [apply agree_finalize_none|done]. }
    cbv zeta. destruct b; cbv beta iota; [|apply Hresolve].
    apply agree_run. intros _ q. apply agree_run. intros _ q'. apply Hresolve.
  - done.
Qed.

Lemma agree_continuation c s : wf_forest (current_forest s) ->
  agree (execute_continuation NeverStopper kernel c s) (execute_continuation StepStopper kernel c s).
Proof.
  intros Hwf.
  assert (forall id k k', (forall B, in_block B id s -> agree (k B s) (k' B s)) ->
    agree (with_basic_block id k s) (with_basic_block id k' s)) as Hblock.
  { intros id k k' H. unfold with_basic_block. destruct (nodes _ !! id) as [[[] d]|] eqn:E; try done.
    apply H. by exists d. }
  destruct c as [id|id|id|id e|id|id|id|id b i|id b|id|f|id|id]; cbn [execute_continuation]; try done.
  - unfold get_node. apply agree_lift. intros n Hn. apply agree_start_node; [done|].
    destruct (nodes _ !! id); cbn in Hn; by simplify_eq.
  - by apply agree_finalize_last.
  - by apply agree_finalize_last.
  - apply agree_finish_loop.
  - apply agree_run. intros _ p. by apply agree_finalize_last.
  - unfold finish_dyn_node. destruct (nodes _ !! id) as [[[] d]|]; try done.
    apply agree_run. intros _ p. by apply agree_finalize_last.
  - apply Hblock. intros B HB. by apply agree_from_op_idx.
  - apply Hblock. intros B HB. by apply agree_from_batch.
  - apply Hblock. intros B HB. by eapply agree_finish.
  - apply Hblock. done.
Qed.

(** ** One round *)

Definition push_opt (oc : option Continuation) (s : EState) : EState :=
  match oc with
  | Some c => push_continuation c s
  | None => s
  end.

Lemma op_emit_no_stop oc (s s1 : EState) : op_emit_sync s <> XStop oc s1.
Proof.
  unfold op_emit_sync, xrun, xlift, xret. destruct (get 0 _) as [[id p]| |]; try done.
  destruct (from_event_id _); [by destruct (handle_system_event _ _) as [[]| |]|].
  destruct (processor_state _) as [view| |]; try done. destruct (on_event _ _) as [ms h].
  by destruct (apply_host_event_mutations _ _ _) as [[]| |].
Qed.

Lemma handle_break_agree b s :
  match handle_break StepStopper b s with
  | XStop oc s1 => handle_break NeverStopper b s = XOk (push_opt oc s1)
  | r => handle_break NeverStopper b s = r
  end.
Proof.
  destruct b as [c|id d|id d]; cbn [handle_break].
  - unfold finish_emit_op_execution, xthen. destruct (op_emit_sync s) as [s1|e|oc s1|b s1|] eqn:E; try done.
    2: { by apply op_emit_no_stop in E. }
    destruct (finalize_cases (Some c) s1) as [[e He]|[-> ->]]; [by rewrite !He|done].
  - unfold load_mast_forest_sync. destruct (get_mast_forest _ _) as [[f|] h]; [|done].
    unfold xlift. destruct (find_procedure_root f d) as [[root|]| |]; try done.
    unfold xrun. destruct (adv _ _) as [[u p]| |]; try done.
    unfold finish_load_mast_forest_from_dyn_start, xpush, finalize_clock_cycle.
    match goal with |- context [finalize_clock_cycle_with_continuation StepStopper None ?s2] =>
      destruct (finalize_cases None s2) as [[e He]|[-> ->]]; [by rewrite !He|done] end.
  - destruct (load_mast_forest_sync _ _ s) as [| |oc s1| |] eqn:E; try done. exfalso. revert E.
    unfold load_mast_forest_sync, xlift, xrun, finish_load_mast_forest_from_external, xlift, xpush.
    repeat case_match; done.
Qed.

Lemma round_agree c s : wf_forest (current_forest s) ->
  match round StepStopper kernel c s with
  | XStop oc s1 =>
    round NeverStopper kernel c s = XOk (push_opt oc s1) \/
    exists c', oc = Some c' /\ round NeverStopper kernel c s = round NeverStopper kernel c' s1
  | r => round NeverStopper kernel c s = r
  end.
Proof.
  intros Hwf. pose proof (agree_continuation c s Hwf) as Ha. unfold round, agree in *.
  destruct (execute_continuation StepStopper kernel c s) as [s1|e|[c'|] s1|b s1|]; rewrite Ha; try done.
  - right. by exists c'.
  - by left.
  - pose proof (handle_break_agree b s1) as Hb. destruct (handle_break StepStopper b s1); try done. by left.
Qed.

(** ** Progress *)

Definition wf_continuation (c : Continuation) : Prop :=
  match c with
  | EnterForest f => wf_forest f
  | _ => True
  end.

Abbreviation clock s := (clk (processor s)).
Abbreviation limit s := (max_cycles (options (processor s))).

(** [s'] follows [s]: at most [n] continuations were pushed, the clock advanced
    (it must have when [t] holds) within its limit, and no malformed block came in. *)
Definition follows (n : nat) (t : bool) (s s' : EState) : Prop :=
  options (processor s') = options (processor s) /\
  (clock s < clock s' <= limit s \/ (t = false /\ clock s' = clock s)) /\
  exists cs, continuation_stack s' = cs ++ continuation_stack s /\ (length cs <= n)%nat /\
    (wf_forest (current_forest s) -> Forall wf_continuation cs /\ wf_forest (current_forest s')).

Lemma follows_refl s : follows 0 false s s.
Proof. split; [done|]. split; [by right|]. exists []. by split_and!; [..|intros; split]. Qed.

Lemma follows_trans n1 t1 n2 t2 s1 s2 s3 : follows n1 t1 s1 s2 -> follows n2 t2 s2 s3 ->
  follows (n1 + n2) (t1 || t2) s1 s3.
Proof.
  intros (Ho1 & Hc1 & cs1 & E1 & L1 & W1) (Ho2 & Hc2 & cs2 & E2 & L2 & W2).
  split; [congruence|]. split.
  - rewrite Ho1 in Hc2. destruct Hc1 as [|[-> ?]], Hc2 as [|[-> ?]]; [left; lia..|right; split; [done|congruence]].
  - exists (cs2 ++ cs1). split; [by rewrite E2, E1, app_assoc|]. split; [rewrite length_app; lia|].
    intros Hw. destruct (W1 Hw) as [F1 Hw2]. destruct (W2 Hw2) as [F2 Hw3]. split; [by apply Forall_app|done].
Qed.

Lemma follows_weaken n1 t1 n2 t2 s s' : follows n1 t1 s s' -> (n1 <= n2)%nat -> (t2 = true -> t1 = true) ->
  follows n2 t2 s s'.
Proof.
  intros (Ho & Hc & cs & E & L & W) Hn Ht. split; [done|]. split.
  - destruct t2; [rewrite Ht in Hc by done; intuition|]. destruct Hc as [Hc|[_ Hc]]; auto.
  - exists cs. split_and!; [done|lia|done].
Qed.

(** A handler of the processor leaves the execution state alone. *)
Lemma follows_processor p s : clk p = clk (processor s) -> options p = options (processor s) ->
  follows 0 false s (with_processor p s).
Proof. intros Hc Ho. split; [done|]. split; [by right|]. exists []. by split_and!; [..|intros; split]. Qed.

Lemma follows_push c s : (wf_forest (current_forest s) -> wf_continuation c) ->
  follows 1 false s (push_continuation c s).
Proof.
  intros Hc. split; [done|]. split; [by right|]. exists [c]. split_and!; [done..|].
  intros Hw. split; [|done]. constructor; [by apply Hc|constructor].
Qed.

Definition wf_opt (oc : option Continuation) : Prop :=
  match oc with
  | Some c => wf_continuation c
  | None => True
  end.

(** Breaks other than the one of an external node. *)
Definition io_internal (b : IoBreak) : Prop :=
  match b with
  | BreakEmit c => wf_continuation c
  | BreakLoadFromDyn _ _ => True
  | BreakLoadFromExternal _ _ => False
  end.

(** What a computation does to the state it returns, stops in, or breaks in. *)
Definition post (n : nat) (t : bool) (s : EState) (r : xres (St := St)) : Prop :=
  match r with
  | XOk s' => follows n t s s'
  | XStop oc s' => follows n true s s' /\ wf_opt oc
  | XIo b s' => follows n false s s' /\ io_internal b
  | XErr _ | XPanic => True
  end.
Definition posts (n : nat) (t : bool) (m : X) : Prop := forall s, post n t s (m s).

Lemma post_weaken n t n' t' s r : post n t s r -> (n <= n')%nat -> (t' = true -> t = true) -> post n' t' s r.
Proof.
  intros Hr Hn Ht. destruct r; cbn in *; try done; [by eapply follows_weaken|..];
    (destruct Hr; split; [by eapply follows_weaken|done]).
Qed.

Lemma post_after n1 t1 n2 t2 s s1 r : follows n1 t1 s s1 -> post n2 t2 s1 r -> post (n1 + n2) (t1 || t2) s r.
Proof.
  intros Hs Hr. destruct r; cbn in *; try done.
  - by eapply follows_trans.
  - destruct Hr. split; [|done]. eapply follows_weaken; [by eapply follows_trans|lia|].
    intros _. apply orb_true_r.
  - destruct Hr. split; [|done]. eapply follows_weaken; [by eapply follows_trans|lia|done].
Qed.

Lemma posts_weaken n t n' t' (m : X) : posts n t m -> (n <= n')%nat -> (t' = true -> t = true) ->
  posts n' t' m.
Proof. intros Hm Hn Ht s. by eapply post_weaken. Qed.

Lemma posts_then n1 t1 n2 t2 t (m k : X) : posts n1 t1 m -> posts n2 t2 k ->
  (t = true -> t1 || t2 = true) -> posts (n1 + n2) t (xthen m k).
Proof.
  intros Hm Hk Ht s. specialize (Hm s). unfold xthen. destruct (m s) as [s1|e|oc s1|b s1|]; try done.
  - eapply post_weaken; [by eapply post_after|lia|done].
  - destruct Hm as [Hm Hb]. split; [|done]. by eapply follows_weaken; [apply Hm|lia|].
  - destruct Hm as [Hm Hb]. split; [|done]. by eapply follows_weaken; [apply Hm|lia|].
Qed.

Lemma posts_finalize sp oc : wf_opt oc -> posts 0 true (finalize_clock_cycle_with_continuation sp oc).
Proof.
  intros Hoc s. unfold finalize_clock_cycle_with_continuation, should_stop, check_if_max_cycles_exceeded,
    check_if_continuation_stack_too_large.
  cbn [processor with_processor options increment_clock with_clk clk continuation_stack].
  destruct (Z.ltb_spec (limit s) (clock s + 1)); [done|]. destruct (_ <? _)%nat; [done|].
  assert (follows 0 true s (tick s)) as Ht.
  { split; [done|]. split; [left; cbn; lia|]. exists []. split_and!; [done..|]. by intros; split. }
  by destruct sp; [|split].
Qed.

(** Handlers that leave the clock and the options alone. *)
Definition same_clock (p p' : Proc St) : Prop := clk p' = clk p /\ options p' = options p.
#[global] Instance same_clock_preorder : PreOrder same_clock.
Proof. split; [by split|]. intros p q r [] []. split; congruence. Qed.

Lemma keeps_framed_clock {A} (m : Processor.M (St := St) A) : keeps framed m -> keeps same_clock m.
Proof. intros Hm p a p' H. destruct (Hm p a p' H). by split. Qed.

Lemma posts_run {A} n t (m : M A) (k : A -> X) :
  keeps same_clock m -> (forall a, posts n t (k a)) -> posts n t (xrun m k).
Proof.
  intros Hm Hk s. unfold xrun. destruct (m (processor s)) as [[a p]| |] eqn:E; try done.
  apply Hm in E as [Hc Ho]. pose proof (follows_processor p s Hc Ho) as Hp.
  exact (post_after 0 false _ _ _ _ _ Hp (Hk a (with_processor p s))).
Qed.

Lemma posts_push c n t (k : X) : wf_continuation c -> posts n t k -> posts (S n) t (xpush c k).
Proof.
  intros Hc Hk s. unfold xpush.
  exact (post_after 1 false _ _ _ _ _ (follows_push c s (fun _ => Hc)) (Hk (push_continuation c s))).
Qed.

Lemma posts_lift {A} n t (o : EState -> result A) (k : A -> X) : (forall a, posts n t (k a)) ->
  posts n t (fun s => xlift (o s) k s).
Proof. intros Hk s. unfold xlift. destruct (o s); [apply Hk|done..]. Qed.

Lemma posts_err n t e : posts n t (xerr e).
Proof. by intros s. Qed.
Lemma posts_ret : posts 0 false xret.
Proof. intros s. apply follows_refl. Qed.

Lemma clock_execute_op op : keeps same_clock (execute_op op : M _).
Proof. apply keeps_framed_clock, framed_execute_op. Qed.
Lemma clock_decrement : keeps same_clock (decrement_size : M _).
Proof. apply keeps_framed_clock, framed_on_stack. Qed.
Lemma clock_get i : keeps same_clock (get i : M _).
Proof. apply keeps_get. apply _. Qed.
Lemma clock_read_word a : keeps same_clock (mem_read_word a : M _).
Proof. apply keeps_read_word. apply _. Qed.
Lemma clock_ret {A} (a : A) : keeps same_clock (mret a : M A).
Proof. apply keeps_ret. apply _. Qed.
Lemma clock_save : keeps same_clock (save_context_and_truncate_stack : M _).
Proof.
  intros p a p' H. unfold save_context_and_truncate_stack in H.
  destruct (st_truncate _) as [[]| |]; cbn in H; by simplify_eq.
Qed.
Lemma clock_restore : keeps same_clock (restore_context : M _).
Proof.
  intros p a p' H. unfold restore_context in H. destruct (_ <? _)%nat; [done|].
  destruct (call_stack p); [done|]. destruct (st_restore_overflow _ _); cbn in H; by simplify_eq.
Qed.
Lemma clock_init_context c h : keeps same_clock (init_context c h : M _).
Proof.
  intros p a p' H. unfold init_context, set_ctx, set_caller_hash, mem_write_element_in, mbind, M_bind in H.
  cbn in H. destruct (write_element _ _ _ _); cbn in H; by simplify_eq.
Qed.
Lemma clock_set_ctx c : keeps same_clock (set_ctx c : M _).
Proof. intros p a p' H. unfold set_ctx in H. by simplify_eq. Qed.
Lemma clock_adv f : keeps same_clock (adv f : M _).
Proof. intros p a p' H. apply keeps_framed_clock in H; [done|]. apply framed_on_advice. Qed.
Lemma clock_system_event ev : keeps same_clock (handle_system_event ev : M _).
Proof.
  intros p a p' H. apply adv_only_handle_system_event, adv_only_framed in H. destruct H. by split.
Qed.

#[local] Hint Resolve clock_execute_op clock_decrement clock_get clock_read_word clock_ret clock_save
  clock_restore clock_init_context clock_set_ctx clock_adv clock_system_event posts_finalize posts_err
  posts_ret : clock.
#[local] Hint Extern 0 (wf_opt _) => exact I : clock.

Lemma wf_after_operation B id b i : wf_opt (Some (get_continuation_after_executing_operation B id b i)).
Proof. cbn. unfold get_continuation_after_executing_operation. by repeat case_match. Qed.
#[local] Hint Resolve wf_after_operation : clock.

Lemma posts_batch_ops sp B id b i ops : posts 0 false (execute_batch_ops sp B id b i ops).
Proof.
  revert i. induction ops as [|op ops IH]; intros i; [apply posts_ret|]. cbn [execute_batch_ops].
  destruct (decide (op = Emit)) as [->|Hne]; [intros s; split; [apply follows_refl|]|].
  { apply wf_after_operation. }
  assert (posts 0 false (xrun (execute_op op) (fun _ =>
    xthen (finalize_clock_cycle_with_continuation sp (Some (get_continuation_after_executing_operation B id b i)))
      (execute_batch_ops sp B id b (i + 1) ops)))) as H.
  { apply posts_run; [auto with clock|]. intros h. by apply (posts_then 0 true 0 false); auto with clock. }
  destruct op; done.
Qed.

Lemma posts_op_batch sp B id b i : posts 0 false (execute_op_batch sp B id b i).
Proof. unfold execute_op_batch. destruct (B !! b); [apply posts_batch_ops|by intros s]. Qed.

Lemma posts_batches sp B id b n : posts 0 true (execute_batches sp B id b n).
Proof.
  revert b. induction n as [|n IH]; intros b; [by apply posts_finalize|]. cbn [execute_batches].
  apply (posts_then 0 true 0 true); [auto with clock| |done].
  apply (posts_then 0 false 0 true); [apply posts_op_batch|apply IH|done].
Qed.

Lemma posts_from_batch sp B id b : posts 0 true (execute_basic_block_node_from_batch sp B id b).
Proof. apply posts_batches. Qed.

Lemma posts_from_op_idx sp B id b i : posts 0 true (execute_basic_block_node_from_op_idx sp B id b i).
Proof. apply (posts_then 0 false 0 true); [apply posts_op_batch|apply posts_from_batch|done]. Qed.

Lemma posts_from_start sp B id : posts 0 true (execute_basic_block_node_from_start sp B id).
Proof.
  unfold execute_basic_block_node_from_start. apply (posts_then 0 true 0 true); [auto with clock| |done].
  apply (posts_then 0 false 0 true); [|apply posts_from_batch|done].
  destruct B; [apply posts_ret|apply posts_op_batch].
Qed.

(** Two continuations pushed in a cycle. *)
Lemma posts_enter sp c1 c2 : wf_continuation c1 -> wf_continuation c2 ->
  posts 2 true (xpush c1 (xpush c2 (finalize_clock_cycle sp))).
Proof. intros. do 2 (apply posts_push; [done|]). by apply posts_finalize. Qed.

Lemma posts_finish_loop sp e id : posts 2 true (finish_loop_node sp e id).
Proof.
  apply posts_run; [destruct e; auto with clock|]. intros v s.
  destruct (nodes _ !! id) as [[[| | |body| | |] d]|]; try done. revert s.
  case_bool_decide; [|case_bool_decide; [|apply posts_err]].
  - apply posts_run; [auto with clock|]. intros _. by apply posts_enter.
  - apply posts_run; [destruct e; auto with clock|]. intros _.
    eapply posts_weaken; [by apply posts_finalize|lia|done].
Qed.

Lemma posts_start_node sp id n : is_external n = false -> posts 3 true (start_node sp kernel id n).
Proof.
  unfold start_node, is_external. intros Hext. destruct (node_kind n) as [B|i j|i j|body|callee b|b|]; [..|done].
  - eapply posts_weaken; [apply posts_from_start|lia|done].
  - apply posts_push; [done|]. by apply posts_enter.
  - apply (posts_weaken 2 true); [|lia|done]. apply posts_run; [auto with clock|]. intros v.
    apply posts_run; [auto with clock|]. intros _.
    case_bool_decide; [by apply posts_enter|]. case_bool_decide; [by apply posts_enter|].
    apply posts_push; [done|apply posts_err].
  - apply (posts_weaken 2 true); [|lia|done]. apply posts_run; [auto with clock|]. intros v.
    apply posts_run; [auto with clock|]. intros _.
    case_bool_decide; [by apply posts_enter|]. case_bool_decide; [|apply posts_err].
    apply (posts_then 0 true 2 true); [auto with clock|apply posts_finish_loop|done].
  - apply (posts_weaken 2 true); [|lia|done]. apply posts_run; [auto with clock|]. intros _ s.
    apply (posts_lift 2 true (fun s => get_node (current_forest s) callee)). intros n'. cbv zeta.
    destruct b; [case_bool_decide; [|apply posts_err]|];
      (apply posts_run; [auto with clock|]; intros _; by apply posts_enter).
  - apply (posts_weaken 2 true); [|lia|done]. unfold start_dyn_node.
    do 3 (apply posts_run; [auto with clock|]; intros ?). cbv zeta.
    assert (forall w, posts 1 true (fun s => xlift (find_procedure_root (current_forest s) w) (fun callee =>
         match callee with
         | Some callee_id => xpush (StartNode callee_id) (finalize_clock_cycle sp)
         | None => fun s => XIo (BreakLoadFromDyn id w) s
         end) s)) as Hresolve.
    { intros w. apply posts_lift. intros [callee|]; [apply posts_push; [done|by apply posts_finalize]|].
      intros s. split; [|done]. eapply follows_weaken; [apply follows_refl|lia|done]. }
    destruct b; [|by apply posts_push].
    intros s. revert s. intros s0. 
    apply (posts_run 2 true); [auto with clock|]. intros _.
    apply posts_run; [auto with clock|]. intros _. by apply posts_push.
Qed.

(** A continuation that increments the clock does, or breaks before the end of its cycle. *)
Definition starts_external (c : Continuation) (s : EState) : bool :=
  match c with
  | StartNode id =>
    match nodes (current_forest s) !! id with
    | Some n => is_external n
    | None => false
    end
  | _ => false
  end.

Lemma post_continuation sp c s : wf_continuation c -> starts_external c s = false ->
  post (if increments_clk c then 3 else 0) (increments_clk c) s (execute_continuation sp kernel c s).
Proof.
  intros Hc Hext.
  assert (forall n t id k, (forall B, posts n t (k B)) -> posts n t (with_basic_block id k)) as Hblock.
  { intros n t id k Hk s'. unfold with_basic_block. destruct (nodes _ !! id) as [[[] d]|]; try done. apply Hk. }
  destruct c; cbn [increments_clk execute_continuation starts_external] in *; [|clear Hext; revert s..].
  - unfold xlift, get_node. destruct (nodes _ !! node_id) as [n|]; [|done]. by apply posts_start_node.
  - eapply posts_weaken; [by apply posts_finalize|lia|done].
  - eapply posts_weaken; [by apply posts_finalize|lia|done].
  - eapply posts_weaken; [apply posts_finish_loop|lia|done].
  - apply posts_run; [auto with clock|]. intros _. eapply posts_weaken; [by apply posts_finalize|lia|done].
  - intros s. unfold finish_dyn_node. destruct (nodes _ !! node_id) as [[[| | | | |b|] d]|]; try done.
    apply (posts_run 3 true); [destruct b; auto with clock|]. intros _.
    eapply posts_weaken; [by apply posts_finalize|lia|done].
  - apply posts_ret.
  - apply Hblock. intros B. eapply posts_weaken; [apply posts_from_op_idx|lia|done].
  - apply Hblock. intros B. eapply posts_weaken; [apply posts_from_batch|lia|done].
  - apply Hblock. intros B. eapply posts_weaken; [by apply posts_finalize|lia|done].
  - intros s. split; [done|]. split; [by right|]. exists []. by split_and!.
  - apply posts_ret.
  - apply Hblock. intros B. apply posts_ret.
Qed.

(** ** Breaks *)

(** The host provides well-formed forests. *)
Definition wf_host : Prop := forall h d f h', get_mast_forest h d = (Some f, h') -> wf_forest f.

Lemma follows_host h s : follows 0 false s (set_host h s).
Proof. split; [done|]. split; [by right|]. exists []. by split_and!; [..|intros; split]. Qed.

Lemma posts_host n t (h : EState -> HostState) (m : X) : posts n t m -> posts n t (fun s => m (set_host (h s) s)).
Proof.
  intros Hm s. exact (post_after 0 false _ _ _ _ _ (follows_host (h s) s) (Hm (set_host (h s) s))).
Qed.

Lemma posts_op_emit : posts 0 false op_emit_sync.
Proof.
  apply posts_run; [auto with clock|]. intros id. destruct (from_event_id _).
  - apply posts_run; auto with clock.
  - apply (posts_lift 0 false (fun s => processor_state (processor s))). intros view s.
    destruct (on_event (host s) view) as [ms h] eqn:E.
    apply (posts_host 0 false (fun _ => h)). apply posts_run; [|auto with clock].
    destruct ms; [apply clock_adv|]. apply keeps_raise. apply _.
Qed.

Lemma posts_load n t d (k : MastNodeId -> MastForest -> X) : wf_host ->
  (forall root f, wf_forest f -> posts n t (k root f)) -> posts n t (load_mast_forest_sync d k).
Proof.
  intros Hh Hk s. unfold load_mast_forest_sync. destruct (get_mast_forest (host s) d) as [[f|] h] eqn:E; [|done].
  apply Hh in E. apply (posts_host n t (fun _ => h)).
  apply (posts_lift n t (fun _ => find_procedure_root f d)). intros [root|]; [|apply posts_err].
  apply posts_run; [auto with clock|]. intros _. by apply Hk.
Qed.

Lemma follows_set_forest f s : wf_forest f -> follows 0 false s (set_forest f s).
Proof. intros Hf. split; [done|]. split; [by right|]. exists []. by split_and!. Qed.

Lemma posts_dyn_load sp root f : wf_forest f -> posts 2 true (finish_load_mast_forest_from_dyn_start sp root f).
Proof.
  intros Hf s. unfold finish_load_mast_forest_from_dyn_start, xpush.
  set (s2 := push_continuation _ (push_continuation _ s)).
  assert (follows 2 false s (set_forest f s2)) as H2.
  { split; [done|]. split; [by right|]. exists [StartNode root; EnterForest (current_forest s)].
    split_and!; [done..|]. intros Hw. split; [|done]. by repeat constructor. }
  exact (post_after 2 false 0 true _ _ _ H2 (posts_finalize sp None I (set_forest f s2))).
Qed.

(** The node an external reference resolves to starts next, and is not external. *)
Definition starts_internal (s : EState) : bool :=
  match continuation_stack s with
  | StartNode id :: _ =>
    match nodes (current_forest s) !! id with
    | Some n => negb (is_external n)
    | None => false
    end
  | _ => false
  end.

Lemma external_load id root f s : wf_forest f ->
  match finish_load_mast_forest_from_external root f id s with
  | XOk s' => follows 3 false s s' /\ starts_internal s' = true
  | XErr _ | XPanic => True
  | _ => False
  end.
Proof.
  intros Hf. unfold finish_load_mast_forest_from_external.
  destruct (nodes (current_forest s) !! id) as [[[] d]|]; try done.
  unfold xlift, get_node. destruct (nodes f !! root) as [n|] eqn:En; [cbn|done].
  destruct (is_external n) eqn:Ee; [done|]. unfold xpush. split.
  - split; [done|]. split; [by right|].
    exists [StartNode root; EnterForest (current_forest s); FinishExternal id].
    split_and!; [done..|]. intros Hw. split; [|done]. by repeat constructor.
  - unfold starts_internal. cbn. by rewrite En, Ee.
Qed.

Lemma post_break sp b s : wf_host -> io_internal b -> post 3 true s (handle_break sp b s).
Proof.
  intros Hh Hb. destruct b as [c|id d|id d]; [| |done]; cbn [handle_break].
  - revert s. apply (posts_then 0 false 3 true); [apply posts_op_emit| |done].
    apply (posts_then 0 true 3 false); [by apply posts_finalize| |done].
    intros s. eapply follows_weaken; [apply (follows_push c); by intros _|lia|done].
  - revert s. apply posts_load; [done|]. intros root f Hf.
    eapply posts_weaken; [by apply posts_dyn_load|lia|done].
Qed.

Lemma finalize_no_io sp oc (s : EState) b s' : finalize_clock_cycle_with_continuation sp oc s <> XIo b s'.
Proof.
  unfold finalize_clock_cycle_with_continuation, should_stop, check_if_max_cycles_exceeded,
    check_if_continuation_stack_too_large. by repeat case_match.
Qed.

Lemma handle_break_no_io sp b s b' s' : handle_break sp b s <> XIo b' s'.
Proof.
  destruct b; cbn [handle_break]; unfold load_mast_forest_sync, finish_load_mast_forest_from_external,
    finish_load_mast_forest_from_dyn_start, finish_emit_op_execution, op_emit_sync, finalize_clock_cycle,
    xthen, xlift, xrun, xpush, xret, xerr; repeat case_match; simplify_eq; try done;
    intros ?; simplify_eq; by eapply finalize_no_io.
Qed.

(** ** One round makes progress *)

Lemma round_progress sp c s : wf_host -> wf_continuation c ->
  match round sp kernel c s with
  | XOk s' =>
    follows 6 true s s' \/
    (increments_clk c = false /\ follows 0 false s s') \/
    (starts_external c s = true /\ follows 3 false s s' /\ starts_internal s' = true)
  | XStop oc s' => follows 6 true s s' /\ wf_opt oc
  | XIo _ _ => False
  | XErr _ | XPanic => True
  end.
Proof.
  intros Hh Hc. destruct (starts_external c s) eqn:Hext.
  - destruct c as [id| | | | | | | | | | | |]; try done. cbn in Hext.
    destruct (nodes (current_forest s) !! id) as [[k d]|] eqn:En; [|done].
    destruct k; try done. unfold round. cbn [execute_continuation]. unfold xlift, get_node. rewrite En. cbn.
    unfold load_mast_forest_sync. destruct (get_mast_forest (host s) d) as [[f|] h] eqn:Eh; [|done].
    apply Hh in Eh. unfold xlift, xrun. destruct (find_procedure_root f d) as [[root|]| |]; try done.
    destruct (adv _ _) as [[u p]| |] eqn:Ea; try done.
    apply clock_adv in Ea as [Hclk Hopt].
    pose proof (external_load id root f (with_processor p (set_host h s)) Eh) as Hx.
    pose proof (follows_host h s) as F1.
    pose proof (follows_processor p (set_host h s) Hclk Hopt) as F2.
    pose proof (follows_trans _ _ _ _ _ _ _ F1 F2) as F3.
    destruct (finish_load_mast_forest_from_external _ _ _ _); try done. destruct Hx as [Hx Hi].
    right. right. split_and!; [done| |done]. exact (follows_trans _ _ _ _ _ _ _ F3 Hx).
  - pose proof (post_continuation sp c s Hc Hext) as Hp. unfold round.
    destruct (execute_continuation sp kernel c s) as [s1|e|oc s1|b s1|]; try done.
    + cbn in Hp. destruct (increments_clk c); [left|right; left; done].
      by eapply follows_weaken; [apply Hp|lia|].
    + destruct Hp as [Hp Hoc]. split; [|done].
      eapply follows_weaken; [apply Hp|destruct (increments_clk c); lia|done].
    + destruct Hp as [Hp Hb]. pose proof (post_break sp b s1 Hh Hb) as Hq.
      assert (follows 3 false s s1) as Hp3.
      { by eapply follows_weaken; [apply Hp|destruct (increments_clk c); lia|]. }
      pose proof (post_after _ _ _ _ _ _ _ Hp3 Hq) as Hpq.
      destruct (handle_break sp b s1) eqn:E; try done; [by left|].
      by apply handle_break_no_io in E.
Qed.

(** ** Termination *)

Record wf_state (s : EState) : Prop := {
  ws_forest : wf_forest (current_forest s);
  ws_stack : Forall wf_continuation (continuation_stack s);
  ws_clock : clock s <= limit s;
}.

(** Every round decreases the cycles left or the continuation stack; resolving an
    external node lengthens the stack but leads to a node that takes a cycle. *)
Definition measure (s : EState) : nat :=
  Z.to_nat (10 * (limit s - clock s)) + length (continuation_stack s) +
  (if starts_internal s then 0 else 3).

Definition popped (cs : ContinuationStack) (s : EState) : EState :=
  mkEState (processor s) cs (current_forest s) (host s).

Definition opt_length (oc : option Continuation) : nat :=
  match oc with Some _ => 1 | None => 0 end.

(** What a state [n] pushes after a popped one is like, in terms of the one before. *)
Lemma follows_popped n t c cs s s' oc : wf_state s -> continuation_stack s = c :: cs ->
  follows n t (popped cs s) s' -> wf_opt oc ->
  wf_state (push_opt oc s') /\ clock s <= clock (push_opt oc s') /\
  limit (push_opt oc s') = limit s /\
  (length (continuation_stack (push_opt oc s')) <= length (continuation_stack s) + n - 1 + opt_length oc)%nat /\
  (t = true -> clock s < clock (push_opt oc s')).
Proof.
  intros [Hf Hs Hc] E (Ho & Hclk & cs' & Ecs & Hlen & Hwf) Hoc. rewrite E in Hs. apply Forall_cons in Hs as [_ Hs].
  cbn in Ho, Hclk, Ecs, Hwf. destruct (Hwf Hf) as [Hcs' Hf'].
  assert (processor (push_opt oc s') = processor s') as Hp by by destruct oc.
  rewrite Hp, Ho. split; [split|].
  - by destruct oc.
  - assert (Forall wf_continuation (continuation_stack s')) by (rewrite Ecs; by apply Forall_app).
    destruct oc; [by constructor|done].
  - rewrite Hp, Ho. lia.
  - split; [lia|]. split; [done|]. split.
    + rewrite E. destruct oc; cbn; rewrite Ecs, length_app; cbn; lia.
    + intros ->. lia.
Qed.

Lemma starts_internal_popped c cs s : continuation_stack s = c :: cs ->
  (increments_clk c = false -> starts_internal s = false) /\
  (starts_external c (popped cs s) = true -> starts_internal s = false).
Proof.
  intros E. unfold starts_internal, starts_external. rewrite E. split; [by destruct c|].
  destruct c; cbn; try done. destruct (nodes _ !! _); [|done]. by intros ->.
Qed.

Lemma round_wf sp c cs s : wf_host -> wf_state s -> continuation_stack s = c :: cs ->
  match round sp kernel c (popped cs s) with
  | XOk s' => wf_state s' /\ clock s <= clock s' /\ (measure s' < measure s)%nat
  | XStop oc s' => wf_state (push_opt oc s') /\ clock s < clock (push_opt oc s') /\
                   (measure (push_opt oc s') < measure s)%nat
  | XIo _ _ => False
  | XErr _ | XPanic => True
  end.
Proof.
  intros Hh Hw E. assert (wf_continuation c) as Hc.
  { pose proof (ws_stack _ Hw) as Hs. rewrite E in Hs. by apply Forall_cons in Hs as [Hs _]. }
  pose proof (round_progress sp c (popped cs s) Hh Hc) as Hr.
  destruct (starts_internal_popped c cs s E) as [Hi1 Hi2].
  destruct (round sp kernel c (popped cs s)) as [s'|e|oc s'|b s'|]; try done.
  - destruct Hr as [Hr|[[Hinc Hr]|(Hext & Hr & Hint)]];
      apply (follows_popped _ _ c cs s s' None Hw E) in Hr as (Hw' & Hle & Hlim & Hlen & Hlt); try done;
      cbn [push_opt opt_length length] in *; (split; [done|]; split; [done|]); unfold measure;
      rewrite Hlim; pose proof (ws_clock _ Hw'); rewrite E in *; cbn [length] in *.
    + specialize (Hlt eq_refl). destruct (starts_internal s), (starts_internal s'); lia.
    + rewrite Hi1 by done. destruct (starts_internal s'); lia.
    + rewrite Hi2, Hint by done. lia.
  - destruct Hr as [Hr Hoc].
    apply (follows_popped _ _ c cs s s' oc Hw E) in Hr as (Hw' & Hle & Hlim & Hlen & Hlt); [|done].
    specialize (Hlt eq_refl). split_and!; [done..|]. unfold measure. rewrite Hlim.
    pose proof (ws_clock _ Hw'). rewrite E in *. cbn [length] in *.
    assert (opt_length oc <= 1)%nat by (destruct oc; cbn; lia).
    destruct (starts_internal s), (starts_internal (push_opt oc s')); lia.
Qed.

(** One unfolding of the loop. *)
Lemma execute_impl_cons n sp c cs s : continuation_stack s = c :: cs ->
  execute_impl (S n) sp kernel s =
  match round sp kernel c (popped cs s) with
  | XOk s => execute_impl n sp kernel s
  | XErr e => Some (FErr e)
  | XStop c s => Some (FStopped c s)
  | XIo _ _ | XPanic => Some FPanic
  end.
Proof. intros E. cbn [execute_impl]. by rewrite E. Qed.

Lemma execute_impl_nil n sp s : continuation_stack s = [] ->
  execute_impl n sp kernel s = Some (stack_outputs_of s).
Proof. intros E. destruct n; cbn [execute_impl]; by rewrite E. Qed.

(** The loop ends within the measure. *)
Lemma execute_impl_terminates sp n s : wf_host -> wf_state s -> (measure s <= n)%nat ->
  exists r, execute_impl n sp kernel s = Some r.
Proof.
  intros Hh. revert s. induction n as [|n IH]; intros s Hw Hn;
    (destruct (continuation_stack s) as [|c cs] eqn:E; [rewrite execute_impl_nil by done; by eexists|]).
  - unfold measure in Hn. rewrite E in Hn. simpl in Hn. lia.
  - rewrite (execute_impl_cons n sp c cs) by done. pose proof (round_wf sp c cs s Hh Hw E) as Hr.
    destruct (round sp kernel c (popped cs s)) as [s'|e|oc s'|b s'|]; [|by eexists..].
    destruct Hr as (Hw' & _ & Hm). apply IH; [done|lia].
Qed.

Lemma execute_impl_mono n m sp s r : execute_impl n sp kernel s = Some r -> (n <= m)%nat ->
  execute_impl m sp kernel s = Some r.
Proof.
  revert m s. induction n as [|n IH]; intros m s H Hle;
    (destruct (continuation_stack s) as [|c cs] eqn:E;
     [rewrite execute_impl_nil in H by done; rewrite execute_impl_nil by done; done|]).
  - cbn in H. by rewrite E in H.
  - destruct m as [|m]; [lia|]. rewrite (execute_impl_cons m sp c cs s E). rewrite (execute_impl_cons n sp c cs s E) in H.
    destruct (round sp kernel c (popped cs s)); try done. apply IH; [exact H|lia].
Qed.

(** ** Stepping is running *)

(** The result of running to the end. *)
Definition run_result (s : EState) (r : flow) : Prop := exists n, execute_impl n NeverStopper kernel s = Some r.

Lemma run_round c cs s r : continuation_stack s = c :: cs ->
  run_result s r <->
  match round NeverStopper kernel c (popped cs s) with
  | XOk s' => run_result s' r
  | XErr e => r = FErr e
  | XStop oc s' => r = FStopped oc s'
  | XIo _ _ | XPanic => r = FPanic
  end.
Proof.
  intros E. unfold run_result. split.
  - intros [[|n] H]; [cbn in H; by rewrite E in H|]. rewrite (execute_impl_cons n _ c cs) in H by done.
    destruct (round _ _ _ _); simplify_eq; eauto.
  - intros H. destruct (round NeverStopper kernel c (popped cs s)) as [s'| | | |] eqn:Er.
    1: destruct H as [n H]; exists (S n). 2-5: exists 1%nat.
    all: rewrite (execute_impl_cons _ _ c cs) by done; rewrite Er; by subst.
Qed.

(** The states before and after a step run to the same result. *)
Lemma step_sync_run n s r : wf_host -> wf_state s -> step_sync n kernel s = Some r ->
  match r with
  | StepDone outputs s' => run_result s (FDone outputs s')
  | StepMore s' => wf_state s' /\ clock s < clock s' /\ (measure s' < measure s)%nat /\
                   forall f, run_result s' f <-> run_result s f
  | StepErr e => run_result s (FErr e)
  | StepPanic => run_result s FPanic
  end.
Proof.
  intros Hh. unfold step_sync. revert s r. induction n as [|n IH]; intros s r Hw H;
    (destruct (continuation_stack s) as [|c cs] eqn:E;
     [rewrite execute_impl_nil in H by done|]).
  1, 3: assert (run_result s (stack_outputs_of s)) as Hr by (exists 0%nat; by rewrite execute_impl_nil).
  1, 2: cbn in H; simplify_eq; revert Hr; unfold stack_outputs_of; repeat case_match; simplify_eq; done.
  - cbn in H. by rewrite E in H.
  - rewrite (execute_impl_cons n _ c cs) in H by done.
    pose proof (round_agree c (popped cs s) (ws_forest _ Hw)) as Ha.
    pose proof (round_wf StepStopper c cs s Hh Hw E) as Hr.
    destruct (round StepStopper kernel c (popped cs s)) as [s'|e|oc s'|b s'|]; try done.
    + destruct Hr as (Hw' & Hle & Hm). specialize (IH s' r Hw' H).
      assert (forall f, run_result s' f <-> run_result s f) as Hiff.
      { intros f. by rewrite (run_round c cs s f E), Ha. }
      destruct r as [o s''|s''|e|]; [by apply Hiff| |by apply Hiff..].
      destruct IH as (Hw'' & Hlt & Hm' & Hiff'). split_and!; [done|lia|lia|]. intros f. by rewrite Hiff'.
    + cbn in H. simplify_eq. apply (run_round c cs s _ E). by rewrite Ha.
    + assert (r = StepMore (push_opt oc s')) as -> by (destruct oc; cbn in H; by simplify_eq).
      destruct Hr as (Hw' & Hlt & Hm). split_and!; [done..|]. intros f. rewrite (run_round c cs s f E).
      destruct Ha as [->|(c' & -> & ->)]; [done|].
      rewrite (run_round c' (continuation_stack s') (push_continuation c' s') f eq_refl). by destruct s'.
    + cbn in H. simplify_eq. apply (run_round c cs s _ E). by rewrite Ha.
Qed.

Lemma step_loop_run n s : wf_host -> wf_state s -> (measure s < n)%nat ->
  exists r, step_loop n kernel s = Some r /\ run_result s r.
Proof.
  intros Hh. revert s. induction n as [|n IH]; intros s Hw Hn; [lia|]. cbn [step_loop].
  destruct (execute_impl_terminates StepStopper (S n) s Hh Hw) as [r Hr]; [lia|].
  unfold step_sync at 1. rewrite Hr. cbn [mbind option_bind].
  pose proof (step_sync_run (S n) s) as Hs. unfold step_sync in Hs. rewrite Hr in Hs. cbn [mbind option_bind] in Hs.
  specialize (Hs _ Hh Hw eq_refl).
  set (sr := match r with FDone o s => StepDone o s | FErr e => StepErr e | FStopped (Some c) s => StepMore (push_continuation c s)
    | FStopped None s => StepMore s | FPanic => StepPanic end) in *.
  destruct sr as [o s'|s'|e|]; [by eexists| |by eexists..].
  destruct Hs as (Hw' & _ & Hm & Hiff). destruct (IH s' Hw') as (f & Hf & Hrun); [lia|].
  exists f. split; [done|]. by apply Hiff.
Qed.

(** Running and stepping end within the same fuel with the same result. *)
Lemma run_step_agree n s : wf_host -> wf_state s -> (measure s < n)%nat ->
  exists r, execute_impl n NeverStopper kernel s = Some r /\ step_loop n kernel s = Some r.
Proof.
  intros Hh Hw Hn. destruct (step_loop_run n s Hh Hw Hn) as (r & Hs & m & Hm).
  destruct (execute_impl_terminates NeverStopper n s Hh Hw) as [r' Hr]; [lia|].
  exists r'. split; [done|]. rewrite Hs. f_equal.
  apply (execute_impl_mono _ (Nat.max n m)) in Hr; [|lia]. apply (execute_impl_mono _ (Nat.max n m)) in Hm; [|lia].
  congruence.
Qed.
End Stepping.
