(* ===== verification/BasicBlocks.v ===== *)
(** * Basic blocks run their operations in order

    The execution loop leaves a basic block at every [Emit], handles the event, and
    resumes the block from a continuation.  Here the block is given a direct
    meaning, its operations one after another with a clock cycle each, and
    the loop is shown to implement it. *)

From S2P Require Import Prelude Field Types Events Operations OperandStack Memory Advice Processor SysEvents.
From S2P Require Import Execution Frame Stepping.
Import Op.
#[local] Open Scope Z_scope.

Section Blocks.
Context {F : Felt} {Q : Quad} {C : Crypto} {St : Type} `{!StackInterface St} {HO : Host}.
Abbreviation EState := (EState (St := St)).
Abbreviation X := (X (St := St)).

(** ** The direct meaning *)

Definition cycle : X := finalize_clock_cycle NeverStopper.

Definition run_op (op : Operation) : X :=
  match op with
  | Emit => op_emit_sync
  | _ => xrun (execute_op op) (fun _ => xret)
  end.

Fixpoint run_ops (ops : list Operation) : X :=
  match ops with
  | [] => xret
  | op :: ops => xthen (run_op op) (xthen cycle (run_ops ops))
  end.

(** A cycle for the start of each batch and one for the end of the block. *)
Fixpoint run_block (op_batches : list (list Operation)) : X :=
  match op_batches with
  | [] => cycle
  | batch :: op_batches => xthen cycle (xthen (run_ops batch) (run_block op_batches))
  end.

Lemma run_ops_app ops1 ops2 (s : EState) : run_ops (ops1 ++ ops2) s = xthen (run_ops ops1) (run_ops ops2) s.
Proof.
  revert s. induction ops1 as [|op ops1 IH]; intros s; [done|]. cbn [run_ops app].
  unfold xthen in *. destruct (run_op op s); try done. destruct (cycle s0); try done.
Qed.

Lemma xthen_Ok (m k : X) s s' : m s = XOk s' -> xthen m k s = k s'.
Proof. intros H. unfold xthen. by rewrite H. Qed.

Lemma xthen_Err (m k : X) s e : m s = XErr e -> xthen m k s = XErr e.
Proof. intros H. unfold xthen. by rewrite H. Qed.

(** ** The loop *)
Section Loop.
Context (kernel : list Word).
#[local] Set Default Proof Using "Type*".
Abbreviation exec := (execute_continuation (St := St) NeverStopper kernel).

(** The result [r] of going on after a handler returned [x]. *)
Definition continues (x : xres (St := St)) (r : flow) : Prop :=
  match x with
  | XOk s' => run_result kernel s' r
  | XErr e => r = FErr e
  | XStop oc s' => r = FStopped oc s'
  | XIo _ _ | XPanic => r = FPanic
  end.

Definition after_break (x : xres (St := St)) : xres (St := St) :=
  match x with
  | XIo b s => handle_break NeverStopper b s
  | r => r
  end.

Lemma round_after c (s : EState) : round NeverStopper kernel c s = after_break (exec c s).
Proof. unfold round, after_break. by destruct (exec c s). Qed.

Lemma finalize_cycle c (s : EState) : finalize_clock_cycle_with_continuation NeverStopper c s = cycle s.
Proof. reflexivity. Qed.

Lemma cycle_cases (s : EState) : cycle s = XOk (tick s) \/ exists e, cycle s = XErr e.
Proof.
  destruct (finalize_cases kernel None s) as [[e He]|[H _]]; [right; exists e; apply He|by left].
Qed.

Lemma op_emit_inv (s s' : EState) : op_emit_sync s = XOk s' ->
  current_forest s' = current_forest s /\ continuation_stack s' = continuation_stack s.
Proof.
  unfold op_emit_sync, xrun, xlift, xret.
  destruct (get 0 (processor s)) as [[id p]| |]; try done.
  destruct (from_event_id _).
  - destruct (handle_system_event _ _) as [[]| |]; try done. by intros [= <-].
  - destruct (processor_state _); try done. destruct (on_event _ _) as [ms h].
    destruct (apply_host_event_mutations _ _ _) as [[]| |]; try done. by intros [= <-].
Qed.

Section Block.
Context (op_batches : list (list Operation)) (node_id : MastNodeId).
Abbreviation in_block := (in_block (St := St) op_batches node_id).
Abbreviation from_batch := (execute_basic_block_node_from_batch (St := St) NeverStopper op_batches node_id).

Lemma tick_in_block s : in_block s -> in_block (tick s).
Proof. done. Qed.

(** The rest of a batch, given the rest of the block. *)
Lemma batch_ops_run b i batch ops (rest : X) s r : op_batches !! b = Some batch -> drop i batch = ops ->
  (forall s, in_block s -> continues (after_break (from_batch (b + 1) s)) r <-> continues (rest s) r) ->
  in_block s ->
  continues (after_break (xthen (execute_batch_ops NeverStopper op_batches node_id b i ops)
                                (from_batch (b + 1)) s)) r <->
  continues (xthen (run_ops ops) rest s) r.
Proof.
  intros Hb Hd Hrest. revert i s Hd. induction ops as [|op ops IH]; intros i s Hd Hs; [by apply Hrest|].
  assert (drop (i + 1) batch = ops) as Hd' by (rewrite <-drop_drop, Hd; done).
  cbn [execute_batch_ops run_ops]. rewrite (xthen_assoc (run_op op)).
  destruct (decide (op = Emit)) as [->|Hne].
  - change (continues (xthen op_emit_sync (finish_emit_op_execution NeverStopper
      (get_continuation_after_executing_operation op_batches node_id b i)) s) r <->
      continues (xthen op_emit_sync (xthen (xthen cycle (run_ops ops)) rest) s) r).
    destruct (op_emit_sync s) as [s1| | | |] eqn:He; [|unfold xthen; by rewrite He..].
    rewrite !(xthen_Ok _ _ _ _ He). destruct (op_emit_inv _ _ He) as [Hf _].
    assert (in_block s1) as Hs1 by (unfold Stepping.in_block; by rewrite Hf).
    unfold finish_emit_op_execution. rewrite (xthen_assoc cycle).
    destruct (cycle_cases s1) as [Hc|[e Hc]]; [|by rewrite !(xthen_Err _ _ s1 e)].
    rewrite (xthen_Ok cycle _ _ _ Hc), (xthen_Ok _ _ s1 (tick s1)) by done.
    unfold xpush, xret. cbn [continues].
    rewrite (run_round kernel (get_continuation_after_executing_operation op_batches node_id b i)
      (continuation_stack (tick s1))) by reflexivity. rewrite round_after.
    fold (continues (after_break (exec (get_continuation_after_executing_operation op_batches node_id b i)
      (popped (continuation_stack (tick s1)) (push_continuation
        (get_continuation_after_executing_operation op_batches node_id b i) (tick s1))))) r).
    replace (popped _ (push_continuation _ (tick s1))) with (tick s1) by by destruct s1.
    rewrite <-(after_operation kernel op_batches node_id b i batch Emit ops) by done.
    by apply (IH (i + 1)%nat (tick s1)).
  - assert (continues (after_break (xthen (xrun (execute_op op) (fun _ =>
        xthen cycle (execute_batch_ops NeverStopper op_batches node_id b (i + 1) ops))) (from_batch (b + 1)) s)) r <->
      continues (xthen (xrun (execute_op op) (fun _ => xret)) (xthen (xthen cycle (run_ops ops)) rest) s) r) as H.
    { rewrite !xthen_run. unfold xrun. destruct (execute_op op (processor s)) as [[h p]| |]; [|done..].
      rewrite xthen_assoc. unfold xret. rewrite (xthen_Ok XOk _ _ _ eq_refl), xthen_assoc.
      destruct (cycle_cases (with_processor p s)) as [Hc|[e Hc]]; [|by rewrite !(xthen_Err _ _ _ _ Hc)].
      rewrite !(xthen_Ok cycle _ _ _ Hc). by apply (IH (i + 1)%nat (tick (with_processor p s))). }
    destruct op; try done; exact H.
Qed.

Lemma from_batch_run n b s r : (length op_batches - b = n)%nat -> in_block s ->
  continues (after_break (from_batch b s)) r <-> continues (run_block (drop b op_batches) s) r.
Proof.
  revert b s. induction n as [|n IH]; intros b s Hn Hs.
  - rewrite drop_ge by lia. unfold execute_basic_block_node_from_batch. rewrite Hn. cbn [execute_batches run_block].
    unfold finish_basic_block. rewrite finalize_cycle. by destruct (cycle_cases s) as [->|[e ->]].
  - destruct (lookup_lt_is_Some_2 op_batches b) as [batch Hb]; [lia|].
    rewrite (drop_S _ batch) by done. cbn [run_block].
    unfold execute_basic_block_node_from_batch at 1. rewrite Hn. cbn [execute_batches].
    unfold xthen at 1 3. rewrite finalize_cycle. destruct (cycle_cases s) as [->|[e ->]]; [|done].
    unfold execute_op_batch. rewrite Hb.
    replace n with (length op_batches - (b + 1))%nat at 1 by lia.
    replace (S b) with (b + 1)%nat by lia. eapply batch_ops_run; [done|done| |done].
    intros s' Hs'. apply IH; [lia|done].
Qed.

Lemma start_block_run s r : in_block s -> op_batches <> [] ->
  continues (after_break (execute_basic_block_node_from_start NeverStopper op_batches node_id s)) r <->
  continues (run_block op_batches s) r.
Proof.
  intros Hs Hne. rewrite <-(from_batch_run (length op_batches) 0 s r : _ -> _ -> _ <-> continues (run_block op_batches s) r)
    by (done || lia).
  unfold execute_basic_block_node_from_start, execute_basic_block_node_from_batch.
  destruct op_batches as [|batch rest] eqn:E; [done|].
  rewrite Nat.sub_0_r. cbn [execute_batches length]. by rewrite Nat.sub_succ, Nat.sub_0_r.
Qed.
End Block.

(** A basic block on top of the continuation stack is its operations in order. *)
Lemma run_basic_block id cs op_batches d (s : EState) r :
  continuation_stack s = StartNode id :: cs ->
  nodes (current_forest s) !! id = Some (mkMastNode (Block op_batches) d) -> op_batches <> [] ->
  run_result kernel s r <-> continues (run_block op_batches (popped cs s)) r.
Proof.
  intros Hc Hn Hne. rewrite (run_round kernel _ cs) by done. rewrite round_after. cbn [execute_continuation].
  unfold xlift, get_node. cbn [current_forest popped]. rewrite Hn. cbn [or_panic]. unfold start_node. cbn [node_kind].
  rewrite <-(start_block_run op_batches id) by (done || by exists d). reflexivity.
Qed.
End Loop.
End Blocks.

(** ** Straight-line code

    Most operations do not read the clock: [Clk] pushes it, and two others report it
    (the circuit evaluator and the error of a crypto stream).  A sequence of
    operations of the first kind without [Emit] runs in a block as it does with
    the clock standing still. *)
Section ClockFree.
Context {F : Felt} {Q : Quad} {C : Crypto} {St : Type} `{!StackInterface St}.
Abbreviation proc := (Proc St).
Abbreviation M := (Processor.M (St := St)).

Definition at_clock {A} (c : Z) (r : A * proc) : A * proc := (r.1, with_clk c r.2).
Definition clock_free {A} (m : M A) : Prop := forall p c, m (with_clk c p) = at_clock c <$> m p.

Lemma clock_free_ret {A} (a : A) : clock_free (mret a : M A).
Proof. done. Qed.
Lemma clock_free_bind {A B} (m : M A) (f : A -> M B) :
  clock_free m -> (forall a, clock_free (f a)) -> clock_free (m ≫= f).
Proof.
  intros Hm Hf p c. unfold mbind, M_bind. rewrite Hm. destruct (m p) as [[a p']| |]; [|done..].
  cbn. apply Hf.
Qed.
Lemma clock_free_lift {A} (o : result A) : clock_free (lift o : M A).
Proof. intros p c. unfold lift. by destruct o. Qed.
Lemma clock_free_raise {A} e : clock_free (raise e : M A).
Proof. done. Qed.
Lemma clock_free_gets {A} (f : proc -> A) : (forall p c, f (with_clk c p) = f p) -> clock_free (gets f).
Proof. intros H p c. unfold gets. by rewrite H. Qed.
Lemma clock_free_on_stack f : clock_free (on_stack f : M _).
Proof. intros p c. unfold on_stack. cbn. by destruct (f (stack p)). Qed.
Lemma clock_free_on_advice {A} (f : AdviceProvider -> adv_result (A * AdviceProvider)) : clock_free (on_advice f : M _).
Proof. intros p c. unfold on_advice. cbn. by destruct (f (advice p)) as [[]| |]. Qed.
Lemma clock_free_get i : clock_free (get i : M _).
Proof. intros p c. unfold get. cbn. by destruct (st_get _ _). Qed.
Lemma clock_free_get_word i : clock_free (get_word i : M _).
Proof. intros p c. unfold get_word. cbn. by destruct (st_get_word _ _). Qed.
Lemma clock_free_get_double_word i : clock_free (get_double_word i : M _).
Proof. intros p c. unfold get_double_word. change (stack (with_clk c p)) with (stack p).
  by destruct (st_get_list (stack p) i 8). Qed.
Lemma clock_free_read_element a : clock_free (mem_read_element a : M _).
Proof. intros p c. unfold mem_read_element. cbn. by destruct (read_element _ _ _). Qed.
Lemma clock_free_read_word a : clock_free (mem_read_word a : M _).
Proof. intros p c. unfold mem_read_word. cbn. by destruct (read_word _ _ _). Qed.
Lemma clock_free_write_element a v : clock_free (mem_write_element a v : M _).
Proof. intros p c. unfold mem_write_element. cbn. by destruct (write_element _ _ _ _). Qed.
Lemma clock_free_write_word a v : clock_free (mem_write_word a v : M _).
Proof. intros p c. unfold mem_write_word. cbn. by destruct (write_word _ _ _ _). Qed.
Lemma clock_free_transcript w : clock_free (fun p => Ok ((), with_pc_transcript w p)).
Proof. done. Qed.
End ClockFree.

Create HintDb clock_free.
#[export] Hint Resolve clock_free_ret clock_free_lift clock_free_raise clock_free_on_stack clock_free_on_advice
  clock_free_get clock_free_get_word clock_free_get_double_word clock_free_read_element clock_free_read_word
  clock_free_write_element clock_free_write_word clock_free_transcript : clock_free.
#[export] Hint Extern 1 (clock_free (gets _)) => (apply clock_free_gets; done) : clock_free.

Ltac clock_free_auto :=
  repeat first
    [ solve [auto with clock_free nocore]
    | apply clock_free_on_stack
    | apply clock_free_bind; [|intros ?]
    | match goal with
      | |- clock_free (match ?x with _ => _ end) => destruct x
      end ].

Section Straight.
Context {F : Felt} {Q : Quad} {C : Crypto} {St : Type} `{!StackInterface St} {HO : Host}.

Definition plain (op : Operation) : bool :=
  match op with
  | Clk | CryptoStream | EvalCircuit | Emit => false
  | _ => true
  end.

Lemma clock_free_execute_op op : plain op = true -> clock_free (execute_op (St := St) op).
Proof.
  intros Hop. destruct op; try done; cbn [execute_op];
    unfold no_helpers, op_push, op_pad, op_swap, op_swap_double_word, dup_nth, op_cswap, op_cswapw,
      op_add, op_neg, op_mul, op_inv, op_incr, op_and, op_or, op_not, op_eq, op_eqz, op_expacc,
      op_ext2mul, op_u32split, op_u32add, op_u32add3, op_u32sub, op_u32mul, op_u32madd, op_u32div,
      op_u32and, op_u32xor, op_u32assert2, op_assert, op_sdepth, op_caller, op_clk, op_advpop,
      op_advpopw, op_mloadw, op_mstorew, op_mload, op_mstore, op_mstream, op_pipe, op_hperm,
      op_mpverify, op_mrupdate, op_horner_eval_base, op_horner_eval_ext, op_log_precompile,
      op_crypto_stream, op_eval_circuit, op_fri_ext2fold4, pop2_applyfn_push, pop2_applyfn_push_op,
      require_u32_operands2, require_u32_operands3, get_quad, get_query_values, op_err, set, set_word,
      swap, swapw_nth, rotate_left, rotate_right, decrement_size, push;
    clock_free_auto.
Qed.

Abbreviation EState := (EState (St := St)).

(** There is room for [n] more cycles. *)
Definition cycles_left (n : nat) (s : EState) : Prop :=
  clk (processor s) + Z.of_nat n <= max_cycles (options (processor s)) /\
  (length (continuation_stack s) <= max_num_continuations (options (processor s)))%nat.

(** The state after [n] cycles that leave [p]. *)
Definition after_cycles (n : nat) (p : Proc St) (s : EState) : EState :=
  with_processor (with_clk (clk p + Z.of_nat n) p) s.

Lemma cycle_Ok s n : cycles_left (S n) s -> cycle s = XOk (tick s).
Proof.
  intros [Hc Hs]. unfold cycle, finalize_clock_cycle, finalize_clock_cycle_with_continuation, should_stop,
    check_if_max_cycles_exceeded, check_if_continuation_stack_too_large. cbn -[Nat.ltb Z.ltb].
  rewrite (proj2 (Z.ltb_ge _ _)) by lia. by rewrite (proj2 (Nat.ltb_ge _ _)) by lia.
Qed.

Lemma execute_ops_run ops (s : EState) p' : forallb plain ops = true -> cycles_left (length ops) s ->
  execute_ops ops (processor s) = Ok ((), p') -> run_ops ops s = XOk (after_cycles (length ops) p' s).
Proof.
  revert s p'. induction ops as [|op ops IH]; intros s p' Hp Hl He.
  - injection He as <-. unfold after_cycles. destruct s as [[] ? ? ?]. cbn. by rewrite Z.add_0_r.
  - cbn [forallb] in Hp. apply andb_true_iff in Hp as [Hop Hp]. cbn [execute_ops run_ops] in *.
    unfold mbind, M_bind in He. destruct (execute_op op (processor s)) as [[h p]| |] eqn:Eop; [|done..]. cbn in He.
    assert (framed (processor s) p) as [Hclk _ _ _ Hopt _] by apply (framed_execute_op op _ _ _ Eop).
    assert (run_op op s = XOk (with_processor p s)) as Hrun 
      by (destruct op; try discriminate Hop; cbn [run_op]; unfold xrun; by rewrite Eop).
    rewrite (xthen_Ok _ _ _ _ Hrun). destruct Hl as [Hl1 Hl2]. cbn [length] in Hl1.
    rewrite (xthen_Ok _ _ _ (tick (with_processor p s))).
    2: { apply (cycle_Ok _ (length ops)). split; cbn; rewrite Hopt; [lia|done]. }
    assert (keeps (St := St) framed (execute_ops ops)) as Hk.
    { clear. induction ops as [|op ops IH]; cbn [execute_ops]; [apply keeps_ret, _|].
      apply keeps_bind; [apply _|apply framed_execute_op|done]. }
    assert (clk p' = clk p) as Hclk' by by apply (Hk _ _ _ He).
    assert (clock_free (execute_ops (St := St) ops)) as Hfree.
    { clear -Hp. induction ops as [|op ops IH]; cbn [execute_ops]; [apply clock_free_ret|].
      cbn in Hp. apply andb_true_iff in Hp as [Hop Hp].
      apply clock_free_bind; [by apply clock_free_execute_op|intros _; by apply IH]. }
    rewrite (IH _ (with_clk (clk p + 1) p')).
    + unfold after_cycles, tick, with_processor, with_clk. cbn -[Z.add Z.of_nat]. rewrite Hclk'.
      do 3 f_equal. cbn [length]. lia.
    + done.
    + split; cbn; rewrite Hopt; [lia|done].
    + cbn. unfold increment_clock. rewrite Hfree, He. done.
Qed.
End Straight.
