(* ===== verification/Contexts.v ===== *)
(** * Execution contexts

    A [call] runs its callee in a context numbered after the clock, with the caller's
    registers and overflow stack saved; a [syscall] runs a kernel procedure in the root context.
    Shown here: saving and restoring are inverse, every context number in use is at most the
    clock, and so a called procedure always starts with a memory nobody has
    written, except for its frame pointer. *)

From S2P Require Import Prelude Bits Field Types Events Operations OperandStack StackRefinement Memory Advice Processor SysEvents.
From S2P Require Import Frame Execution Stepping BasicBlocks.
Import Op.
#[local] Open Scope Z_scope.

(** ** Saving and restoring, on the buffer of the processor *)
Section SaveRestore.
Context {F : Felt} {Q : Quad} {C : Crypto}.
Abbreviation fproc := (Proc Fast.stack).

(** The callee of a call starts with the top 16 elements of the caller's stack [l], and everything below them reads as zero. *)
Lemma save_context_Ok (p : fproc) l : stack_rel (stack p) l -> exists p1, save_context_and_truncate_stack p = Ok ((), p1) /\
  stack_rel (stack p1) (take 16 l) /\ call_stack p1 = mkExecutionContextInfo _ (reverse (drop 16 l)) (ctx p) (caller_hash p) :: call_stack p /\
  p1 = with_call_stack (call_stack p1) (with_stack (stack p1) p).
Proof.
  intros Hl. destruct (truncate_Ok _ _ Hl) as (s & E & Hs). unfold save_context_and_truncate_stack. cbn [st_truncate Fast.fast_interface]. rewrite E.
  cbn [mbind outcome_bind]. eexists. by split_and!.
Qed.
Lemma restore_context_Ok (p : fproc) l ov c h cs : stack_rel (stack p) l -> length l = 16%nat -> (length ov < Fast.STACK_BUFFER_SIZE - 16)%nat ->
  call_stack p = mkExecutionContextInfo _ (reverse ov) c h :: cs ->
  exists p', restore_context p = Ok ((), p') /\ stack_rel (stack p') (l ++ ov) /\ p' = with_call_stack cs (with_system c h (with_stack (stack p') p)).
Proof.
  intros Hl H16 Ho Hc. unfold restore_context. cbn [st_depth st_restore_overflow Fast.fast_interface]. rewrite <-(rel_len _ _ Hl), H16, Hc. cbn [Nat.ltb Nat.leb].
  destruct (restore_Ok _ _ (reverse ov) Hl H16) as (s & E & Hs); [by rewrite length_reverse|]. rewrite reverse_involutive in Hs.
  cbn [overflow_stack eci_ctx fn_hash]. rewrite E. cbn [mbind outcome_bind]. eexists. by split_and!.
Qed.
Lemma restore_too_deep (p : fproc) l : stack_rel (stack p) l -> (16 < length l)%nat ->
  restore_context p = Err (OperationErr (InvalidStackDepthOnReturn (length l))).
Proof.
  intros Hl H. unfold restore_context. cbn [st_depth Fast.fast_interface]. rewrite <-(rel_len _ _ Hl).
  by rewrite (proj2 (Nat.ltb_lt _ _)) by (unfold MIN_STACK_DEPTH; lia).
Qed.
End SaveRestore.

(** ** Context numbers *)
Section Fresh.
Context {F : Felt} {Q : Quad} {C : Crypto} {St : Type} `{!StackInterface St} {HO : Host}.
#[local] Set Default Proof Using "Type*".
Abbreviation EState := (EState (St := St)).
Abbreviation X := (X (St := St)).
Abbreviation proc := (Proc St).

(** Context numbers in use are at most [b], and memory above is untouched. *)
Record contexts_below (b : Z) (p : proc) : Prop := {
  cb_zero : 0 <= b;
  cb_ctx : ctx p <= b;
  cb_saved : Forall (fun ci => eci_ctx ci <= b) (call_stack p);
  cb_memory c a : b < c -> mem_cell (memory p) c a = ZERO;
}.

Definition fresh (s : EState) : Prop := contexts_below (clk (processor s)) (processor s).
(** During a call, before the clock is incremented. *)
Definition fresh_next (s : EState) : Prop := contexts_below (clk (processor s) + 1) (processor s).

Lemma contexts_below_mono b b' p : b <= b' -> contexts_below b p -> contexts_below b' p.
Proof.
  intros Hb [H0 H1 H2 H3]. split; [lia|lia| |intros; apply H3; lia].
  eapply Forall_impl; [exact H2|]. cbn. lia.
Qed.

Lemma fresh_weaken s : fresh s -> fresh_next s.
Proof. apply contexts_below_mono. lia. Qed.

Lemma contexts_framed b p p' : framed p p' -> contexts_below b p -> contexts_below b p'.
Proof.
  intros [Hclk Hctx _ Hcs _ Hm] [H0 H1 H2 H3]. split; [done|by rewrite Hctx|by rewrite Hcs|].
  intros c a Hc. rewrite Hm by lia. by apply H3.
Qed.

(** Postconditions of handlers: on a return or a stop the state satisfies [Q], on a break [R]. *)
Definition ensures (P : EState -> Prop) (m : X) (Q : EState -> Prop) (R : IoBreak -> EState -> Prop) : Prop :=
  forall s, P s ->
    match m s with
    | XOk s' | XStop _ s' => Q s'
    | XIo b s' => R b s'
    | XErr _ | XPanic => True
    end.

(** Only a dynamic call breaks between entering a context and the clock. *)
Definition at_break (b : IoBreak) : EState -> Prop :=
  match b with
  | BreakLoadFromDyn _ _ => fresh_next
  | _ => fresh
  end.

Abbreviation handles P m := (ensures P m fresh at_break).

Lemma handles_then P (m k : X) : handles P m -> handles fresh k -> handles P (xthen m k).
Proof.
  intros Hm Hk s Hs. unfold xthen. specialize (Hm s Hs). destruct (m s); [by apply Hk|done..].
Qed.

Lemma handles_run {A} (P P' : EState -> Prop) (m : M A) (k : A -> X) :
  (forall s a p, P s -> m (processor s) = Ok (a, p) -> P' (with_processor p s)) ->
  (forall a, handles P' (k a)) -> handles P (xrun m k).
Proof.
  intros Hm Hk s Hs. unfold xrun. destruct (m (processor s)) as [[a p]| |] eqn:E; [|done..].
  apply Hk. by eapply Hm.
Qed.

(** A handler that respects the frame keeps the bounds. *)
Lemma handles_framed {A} (m : M A) (k : A -> X) : keeps framed m -> (forall a, handles fresh (k a)) ->
  handles fresh (xrun m k).
Proof.
  intros Hm. apply handles_run. intros s a p Hs H. pose proof (Hm _ _ _ H) as Hf.
  unfold fresh. cbn. rewrite (fr_clk _ _ Hf). by eapply contexts_framed.
Qed.

Lemma handles_lift {A} P (o : EState -> result A) (k : A -> X) : (forall a, handles P (k a)) ->
  handles P (fun s => xlift (o s) k s).
Proof. intros Hk s Hs. unfold xlift. destruct (o s); [by apply Hk|done..]. Qed.

Lemma handles_push P c (k : X) : (forall s, P s -> P (push_continuation c s)) -> handles P k -> handles P (xpush c k).
Proof. intros HP Hk s Hs. apply Hk. by apply HP. Qed.

Lemma handles_finalize sp oc : handles fresh_next (finalize_clock_cycle_with_continuation sp oc).
Proof.
  intros s Hs. unfold finalize_clock_cycle_with_continuation, should_stop, check_if_max_cycles_exceeded,
    check_if_continuation_stack_too_large.
  repeat case_match; simplify_eq; try done; by destruct Hs.
Qed.

Lemma handles_weaken (P P' : EState -> Prop) (m : X) : (forall s, P s -> P' s) -> handles P' m -> handles P m.
Proof. intros HP Hm s Hs. by apply Hm, HP. Qed.

Lemma handles_cycle sp oc : handles fresh (finalize_clock_cycle_with_continuation sp oc).
Proof. eapply handles_weaken, handles_finalize. apply fresh_weaken. Qed.

Lemma handles_ret : handles fresh xret.
Proof. by intros s Hs. Qed.
Lemma handles_err P e : handles P (xerr e).
Proof. done. Qed.
Lemma handles_io P b : (forall s, P s -> at_break b s) -> handles P (fun s => XIo b s).
Proof. intros H s Hs. by apply H. Qed.
Lemma handles_panic P : handles P xpanic.
Proof. done. Qed.

(** *** Context switches *)

Lemma save_fresh s u p : fresh s -> save_context_and_truncate_stack (processor s) = Ok (u, p) ->
  fresh (with_processor p s).
Proof.
  intros [H0 H1 H2 H3] H. unfold save_context_and_truncate_stack in H.
  destruct (st_truncate _) as [[ov st]| |]; cbn in H; simplify_eq. split; cbn; [done|done| |done].
  by constructor.
Qed.

Lemma restore_fresh s u p : fresh s -> restore_context (processor s) = Ok (u, p) -> fresh (with_processor p s).
Proof.
  intros [H0 H1 H2 H3] H. unfold restore_context in H. destruct (_ <? _)%nat; [done|].
  destruct (call_stack (processor s)) as [|ci cs]; [done|]. apply Forall_cons in H2 as [Hci H2].
  destruct (st_restore_overflow _ _); cbn in H; simplify_eq. by split.
Qed.

Lemma init_context_fresh h s u p : fresh s ->
  init_context (get_next_ctx_id (processor s)) h (processor s) = Ok (u, p) -> fresh_next (with_processor p s).
Proof.
  intros [H0 H1 H2 H3] H. unfold init_context, set_ctx, set_caller_hash, mem_write_element_in, mbind, M_bind in H.
  cbn in H. destruct (write_element _ _ _ _) as [m| |] eqn:E; cbn in H; simplify_eq.
  unfold get_next_ctx_id in *. split; cbn; [lia|lia| |].
  - eapply Forall_impl; [exact H2|]. cbn. lia.
  - intros c a Hc. rewrite (mem_cell_write_element _ _ _ _ _ c a E), decide_False by (intros []; lia). apply H3. lia.
Qed.

(** *** Node handlers *)

Lemma handles_batch_ops sp B id b i ops : handles fresh (execute_batch_ops sp B id b i ops).
Proof.
  revert i. induction ops as [|op ops IH]; intros i; cbn [execute_batch_ops]; [apply handles_ret|].
  destruct op; try (apply handles_framed; [apply framed_execute_op|intros _];
    apply handles_then; [apply handles_cycle|apply IH]).
  by apply handles_io.
Qed.

Lemma handles_op_batch sp B id b i : handles fresh (execute_op_batch sp B id b i).
Proof. unfold execute_op_batch. destruct (B !! b); [apply handles_batch_ops|apply handles_panic]. Qed.

Lemma handles_batches sp B id b n : handles fresh (execute_batches sp B id b n).
Proof.
  revert b. induction n as [|n IH]; intros b; cbn [execute_batches]; [apply handles_cycle|].
  apply handles_then; [apply handles_cycle|]. apply handles_then; [apply handles_op_batch|apply IH].
Qed.

Lemma handles_from_start sp B id : handles fresh (execute_basic_block_node_from_start sp B id).
Proof.
  apply handles_then; [apply handles_cycle|]. apply handles_then; [|apply handles_batches].
  destruct B; [apply handles_ret|apply handles_op_batch].
Qed.

Lemma handles_enter sp c1 c2 : handles fresh (xpush c1 (xpush c2 (finalize_clock_cycle sp))).
Proof. apply handles_push; [done|]. apply handles_push; [done|]. apply handles_cycle. Qed.

Lemma handles_match_node id (k : MastNode -> X) :
  (forall n, handles fresh (k n)) ->
  handles fresh (fun s => match nodes (current_forest s) !! id with Some n => k n s | None => XPanic end).
Proof. intros Hk s Hs. destruct (nodes (current_forest s) !! id); [by apply Hk|done]. Qed.

Lemma handles_finish_loop sp e id : handles fresh (finish_loop_node sp e id).
Proof.
  unfold finish_loop_node. apply handles_framed; [destruct e; [apply keeps_get, _|apply keeps_ret, _]|intros v s Hs].
  destruct (nodes (current_forest s) !! id) as [[k d]|]; [|done]. destruct k as [| | |body| | |]; try done. revert s Hs.
  match goal with |- forall s, fresh s -> match (if ?b then ?x else ?y) s with _ => _ end =>
    change (handles fresh (if b then x else y)) end.
  case_bool_decide; [apply handles_framed; [apply framed_on_stack|intros _; apply handles_enter]|].
  case_bool_decide; [|apply handles_err].
  apply handles_framed; [destruct e; [apply framed_on_stack|apply keeps_ret, _]|intros _; apply handles_cycle].
Qed.

Lemma handles_start_call sp kernel id callee b : handles fresh (start_call_node sp kernel id callee b).
Proof.
  unfold start_call_node. apply (handles_run _ fresh); [intros s a p; apply save_fresh|intros _ s Hs].
  unfold xlift. destruct (get_node (current_forest s) callee) as [n| |]; [|done..].
  destruct b.
  - case_bool_decide; [|done]. revert s Hs. 
    match goal with |- forall s, fresh s -> match ?m s with _ => _ end => change (handles fresh m) end.
    apply (handles_run _ fresh); [|intros _; apply handles_enter].
    intros s a p [H0 H1 H2 H3] [= <- <-]. by split.
  - unfold xrun. destruct (init_context _ _ (processor s)) as [[u p]| |] eqn:E; [|done..].
    apply (handles_finalize sp None). exact (init_context_fresh _ s u p Hs E).
Qed.

Lemma handles_dyn_resolve P sp id h : (forall s, P s -> fresh_next s) ->
  handles P (fun s => xlift (find_procedure_root (current_forest s) h) (fun callee =>
      match callee with
      | Some callee_id => xpush (StartNode callee_id) (finalize_clock_cycle sp)
      | None => fun s => XIo (BreakLoadFromDyn id h) s
      end) s).
Proof.
  intros HP. apply (handles_lift P (fun s => find_procedure_root (current_forest s) h)). intros [i|].
  - intros s Hs. apply (handles_finalize sp None). exact (HP s Hs).
  - by apply handles_io.
Qed.

Lemma handles_start_dyn sp id b : handles fresh (start_dyn_node sp id b).
Proof.
  unfold start_dyn_node. apply handles_framed; [apply keeps_get, _|intros addr].
  apply handles_framed; [apply keeps_read_word, _|intros h].
  apply handles_framed; [apply framed_on_stack|intros _].
  destruct b; [|apply handles_push; [done|]; apply handles_dyn_resolve, fresh_weaken].
  intros s Hs. set (new_ctx := get_next_ctx_id (processor s)).
  unfold xrun at 1. destruct (save_context_and_truncate_stack (processor s)) as [[u p]| |] eqn:E; [|done..].
  assert (get_next_ctx_id p = new_ctx) as Hc.
  { unfold new_ctx, get_next_ctx_id. unfold save_context_and_truncate_stack in E.
    destruct (st_truncate _) as [[ov st]| |]; cbn in E; by simplify_eq. }
  pose proof (save_fresh s u p Hs E) as Hs1. rewrite <-Hc.
  unfold xrun at 1. cbn [processor with_processor].
  destruct (init_context (get_next_ctx_id p) h p) as [[u' p']| |] eqn:E'; [|done..].
  pose proof (init_context_fresh h (with_processor p s) u' p' Hs1 E') as Hs2.
  apply (handles_push fresh_next (FinishDyn id)); [done| |exact Hs2].
  by apply (handles_dyn_resolve fresh_next sp id h).
Qed.

Lemma handles_finish_dyn sp id : handles fresh (finish_dyn_node sp id).
Proof.
  intros s Hs. unfold finish_dyn_node. destruct (nodes (current_forest s) !! id) as [[k d]|]; [|done].
  destruct k as [| | | | |b|]; try done. revert s Hs.
  match goal with |- forall s, fresh s -> match ?m s with _ => _ end => change (handles fresh m) end.
  destruct b; [|apply handles_framed; [apply keeps_ret, _|intros; apply handles_cycle]].
  apply (handles_run _ fresh); [intros s a p; apply restore_fresh|intros; apply handles_cycle].
Qed.

Lemma handles_start_node sp kernel id n : handles fresh (start_node sp kernel id n).
Proof.
  unfold start_node. destruct (node_kind n).
  - apply handles_from_start.
  - unfold start_join_node. apply handles_push; [done|apply handles_enter].
  - unfold start_split_node. apply handles_framed; [apply keeps_get, _|intros v].
    apply handles_framed; [apply framed_on_stack|intros _].
    do 2 (case_bool_decide; [apply handles_enter|]). apply handles_push; [done|apply handles_err].
  - unfold start_loop_node. apply handles_framed; [apply keeps_get, _|intros v].
    apply handles_framed; [apply framed_on_stack|intros _].
    case_bool_decide; [apply handles_enter|]. case_bool_decide; [|apply handles_err].
    apply handles_then; [apply handles_cycle|apply handles_finish_loop].
  - apply handles_start_call.
  - apply handles_start_dyn.
  - by apply handles_io.
Qed.

Lemma handles_with_block id (k : list (list Operation) -> X) : (forall B, handles fresh (k B)) ->
  handles fresh (with_basic_block id k).
Proof.
  intros Hk s Hs. unfold with_basic_block.
  destruct (nodes (current_forest s) !! id) as [[[] d]|]; try done. by apply Hk.
Qed.

Lemma handles_continuation sp kernel c : handles fresh (execute_continuation sp kernel c).
Proof.
  destruct c; cbn [execute_continuation]; try apply handles_cycle; try apply handles_ret.
  - apply (handles_lift fresh (fun s => get_node (current_forest s) node_id)). intros n. apply handles_start_node.
  - apply handles_finish_loop.
  - apply (handles_run _ fresh); [intros s a p; apply restore_fresh|intros; apply handles_cycle].
  - apply handles_finish_dyn.
  - apply handles_with_block. intros B. apply handles_then; [apply handles_op_batch|apply handles_batches].
  - apply handles_with_block. intros B. apply handles_batches.
  - apply handles_with_block. intros B. apply handles_cycle.
  - apply handles_with_block. intros B. apply handles_ret.
Qed.

(** *** Breaks *)

Lemma handles_adv P f (k : unit -> X) : (forall p a s, P (with_processor p s) -> P (with_processor (with_advice a p) s)) ->
  (forall u, handles P (k u)) -> handles P (xrun (adv f) k).
Proof.
  intros HP. apply handles_run. intros s a p Hs H. pose proof (adv_only_adv f _ _ _ H) as ->.
  apply HP. by destruct s.
Qed.

Lemma handles_op_emit : handles fresh op_emit_sync.
Proof.
  unfold op_emit_sync. apply handles_framed; [apply keeps_get, _|intros id]. destruct (from_event_id _) as [ev|].
  - apply handles_framed; [|intros _; apply handles_ret]. intros p a p' H. apply adv_only_framed.
    by eapply adv_only_handle_system_event.
  - apply (handles_lift fresh (fun s => processor_state (processor s))). intros view s Hs.
    destruct (on_event (host s) view) as [ms h].
    eapply (handles_framed (apply_host_event_mutations id ms) (fun _ => xret)); [|intros _; apply handles_ret|exact Hs].
    unfold apply_host_event_mutations. destruct ms; [|apply keeps_raise, _]. apply framed_on_advice.
Qed.

Lemma handles_load P d (k : MastNodeId -> MastForest -> X) :
  (forall p a s, P (with_processor p s) -> P (with_processor (with_advice a p) s)) ->
  (forall h s, P s -> P (set_host h s)) ->
  (forall i f, handles P (k i f)) -> handles P (load_mast_forest_sync d k).
Proof.
  intros HPa HPh Hk s Hs. unfold load_mast_forest_sync. destruct (get_mast_forest (host s) d) as [[f|] h]; [|done].
  eapply (handles_lift P (fun s => find_procedure_root f d)); [|by apply HPh]. intros [i|]; [|apply handles_err].
  apply handles_adv; [done|intros; apply Hk].
Qed.

Lemma handle_break_fresh sp b : handles (at_break b) (handle_break sp b).
Proof.
  destruct b; cbn [handle_break at_break].
  - apply handles_then; [apply handles_op_emit|]. apply handles_then; [apply handles_cycle|].
    apply handles_push; [done|apply handles_ret].
  - apply handles_load; [intros p a s []; by split|done|]. intros i f s Hs.
    by apply (handles_finalize sp None).
  - apply handles_load; [intros p a s []; by split|done|]. intros i f s Hs.
    unfold finish_load_mast_forest_from_external.
    destruct (nodes (current_forest s) !! external_node_id) as [[[] d]|]; try done.
    unfold xlift. destruct (get_node f i) as [n| |]; try done. by destruct (is_external n).
Qed.

Lemma round_fresh sp kernel c s : fresh s ->
  match round sp kernel c s with
  | XOk s' | XStop _ s' => fresh s'
  | _ => True
  end.
Proof.
  intros Hs. unfold round. pose proof (handles_continuation sp kernel c s Hs) as H.
  destruct (execute_continuation sp kernel c s) as [s'| | |b s'|]; try done.
  pose proof (handle_break_fresh sp b s' H) as H'. by destruct (handle_break sp b s').
Qed.

(** ** Reachable states *)

(** One round of the loop. *)
Inductive step (kernel : list Word) : EState -> EState -> Prop :=
  | step_round s c cs s' : continuation_stack s = c :: cs ->
      round NeverStopper kernel c (popped cs s) = XOk s' -> step kernel s s'.

Lemma reachable_fresh kernel s0 s : fresh s0 -> rtc (step kernel) s0 s -> fresh s.
Proof.
  intros H0 Hr. induction Hr as [|s1 s2 s3 Hs _ IH]; [done|]. apply IH. destruct Hs as [s c cs s' Hc Hs].
  pose proof (round_fresh NeverStopper kernel c (popped cs s) H0) as H. by rewrite Hs in H.
Qed.

Lemma initial_fresh st a o program h s : get_initial_resume_context (new_with_options st a o) program h = Ok s -> fresh s.
Proof.
  unfold get_initial_resume_context. destruct (extend_map _ _); [|done..]. intros [= <-]. split; cbn; [done..| |].
  - constructor.
  - intros c x _. unfold mem_cell. rewrite lookup_empty. cbn. destruct (mod4_cases x) as [->|[->|[->| ->]]]; done.
Qed.

(** A call from a reachable state starts in a context of its own whose memory is zero
    but for the frame pointer. *)
Lemma call_starts_fresh kernel s s' id cs callee d : fresh s ->
  continuation_stack s = StartNode id :: cs ->
  nodes (current_forest s) !! id = Some (mkMastNode (Call callee false) d) ->
  step kernel s s' ->
  ctx (processor s') = clk (processor s) + 1 /\ continuation_stack s' = StartNode callee :: FinishCall id :: cs /\
  (exists n, nodes (current_forest s) !! callee = Some n /\ caller_hash (processor s') = digest n) /\
  forall a, mem_cell (memory (processor s')) (ctx (processor s')) a =
    if decide (a = ⟦FMP_ADDR⟧) then FMP_INIT_VALUE else ZERO.
Proof.
  intros Hf Hc Hn Hstep. inversion Hstep as [s0 c0 cs0 s1 Hc0 Hs]; subst s0 s1. rewrite Hc in Hc0. injection Hc0 as <- <-.
  unfold round in Hs. cbn [execute_continuation] in Hs. unfold xlift, get_node in Hs. cbn [current_forest popped] in Hs.
  rewrite Hn in Hs. cbn [or_panic start_node node_kind] in Hs. unfold start_call_node, xrun in Hs. cbn [processor popped] in Hs.
  destruct (save_context_and_truncate_stack (processor s)) as [[u p]| |] eqn:E; [|done..].
  pose proof (save_fresh s u p Hf E) as Hp.
  assert (clk p = clk (processor s)) as Hclk.
  { unfold save_context_and_truncate_stack in E. destruct (st_truncate _) as [[ov st]| |]; cbn in E; by simplify_eq. }
  unfold xlift, get_node in Hs. cbn [current_forest with_processor popped] in Hs.
  destruct (nodes (current_forest s) !! callee) as [n|]; [|done]. cbn [or_panic] in Hs.
  unfold get_next_ctx_id in Hs. cbn [processor with_processor] in Hs.
  unfold init_context, set_ctx, set_caller_hash, mem_write_element_in, mbind, M_bind in Hs. cbn in Hs.
  destruct (write_element _ _ _ _) as [m| |] eqn:Ew; cbn in Hs; [|done..].
  unfold xpush, finalize_clock_cycle, finalize_clock_cycle_with_continuation, should_stop, check_if_max_cycles_exceeded,
    check_if_continuation_stack_too_large in Hs. repeat case_match; simplify_eq. cbn.
  split_and!; [by rewrite Hclk|done|by exists n|].
  intros a. rewrite (mem_cell_write_element _ _ _ _ _ _ a Ew).
  destruct (decide (a = ⟦FMP_ADDR⟧)) as [->|Hne]; [by rewrite decide_True|]. rewrite decide_False by (by intros []).
  apply (cb_memory _ _ Hp). cbn. lia.
Qed.

(** A system call enters the root context, and only for a procedure of the kernel. *)
Lemma syscall_in_kernel kernel s s' id cs callee d :
  continuation_stack s = StartNode id :: cs ->
  nodes (current_forest s) !! id = Some (mkMastNode (Call callee true) d) ->
  step kernel s s' ->
  (exists n, nodes (current_forest s) !! callee = Some n /\ digest n ∈ kernel) /\
  ctx (processor s') = root_context /\ caller_hash (processor s') = caller_hash (processor s).
Proof.
  intros Hc Hn Hstep. inversion Hstep as [s0 c0 cs0 s1 Hc0 Hs]; subst s0 s1. rewrite Hc in Hc0. injection Hc0 as <- <-.
  unfold round in Hs. cbn [execute_continuation] in Hs. unfold xlift, get_node in Hs. cbn [current_forest popped] in Hs.
  rewrite Hn in Hs. cbn [or_panic start_node node_kind] in Hs. unfold start_call_node, xrun in Hs. cbn [processor popped] in Hs.
  destruct (save_context_and_truncate_stack (processor s)) as [[u p]| |] eqn:E; [|done..].
  assert (caller_hash p = caller_hash (processor s)) as Hh.
  { unfold save_context_and_truncate_stack in E. destruct (st_truncate _) as [[ov st]| |]; cbn in E; by simplify_eq. }
  unfold xlift, get_node in Hs. cbn [current_forest with_processor popped] in Hs.
  destruct (nodes (current_forest s) !! callee) as [n|]; [|done]. cbn [or_panic] in Hs.
  case_bool_decide as Hk; [|done]. split; [by exists n|].
  unfold xpush, finalize_clock_cycle, finalize_clock_cycle_with_continuation, should_stop, check_if_max_cycles_exceeded,
    check_if_continuation_stack_too_large in Hs. cbn in Hs. repeat case_match; by simplify_eq.
Qed.
End Fresh.
