(* ===== verification/Refinement.v ===== *)
(** * The buffer processor implements the ideal processor

    Every operation handler, run on a processor whose operand stack is the buffer
    of the fast processor, does what it does on the unbounded zero-padded list:
    related states go to related states with the same helper registers, the same
    errors are raised, no array access is ever out of range, and the only extra
    outcome is that the buffer is full. *)

From S2P Require Import Prelude Field Types Operations OperandStack StackRefinement Memory Advice Ace Processor.
Import Op.
#[local] Open Scope Z_scope.

(** ** Panic freedom of the shared parts *)
Section NoPanic.
Context {F : Felt} {Q : Quad} {C : Crypto}.

Lemma read_element_no_panic m c a : no_panic (read_element m c a).
Proof. unfold no_panic. rewrite read_element_eq. by split_match. Qed.

Lemma read_word_no_panic m c a : no_panic (read_word m c a).
Proof. unfold no_panic. rewrite read_word_eq. by repeat split_match. Qed.

Lemma clean_addr_no_panic a : no_panic (clean_addr a).
Proof. unfold clean_addr, no_panic. by split_match. Qed.

Lemma write_element_no_panic m c a v : no_panic (write_element m c a v).
Proof.
  apply no_panic_bind; [apply clean_addr_no_panic|]. intros x _.
  unfold split_addr, no_panic. by destruct (m !! _).
Qed.

Lemma write_word_no_panic m c a w : no_panic (write_word m c a w).
Proof.
  apply no_panic_bind; [apply clean_addr_no_panic|]. intros x _.
  unfold enforce_word_aligned_addr, no_panic. by split_match.
Qed.

Lemma do_eval_no_panic e ptr i : no_panic (do_eval e ptr i).
Proof.
  unfold do_eval, ace_or, no_panic.
  destruct (decode_instruction i) as [[[l r] op]|]; simpl; [|done].
  destruct (bus_read_value (wire_bus e) l) as [[vl b]|]; simpl; [|done].
  by destruct (bus_read_value b r) as [[vr b']|].
Qed.

(** The wire count checked by [eval_circuit_impl] is the one [circuit_new] asserts. *)
Lemma circuit_new_Ok c k v e : v mod 2 = 0 -> v + e <= MAX_NUM_ACE_WIRES ->
  exists ce, circuit_new c k (v / 2) e = Ok ce /\
    ce = mkCircuitEvaluation c k (bus_new (v + e)) [] [] column_new column_new column_new (v / 2) e.
Proof.
  intros Hv Hle. unfold circuit_new.
  replace (2 * (v / 2) + e) with (v + e) by zlia.
  rewrite (proj2 (Z.leb_le _ _)) by done. eauto.
Qed.

Lemma eval_circuit_impl_no_panic c ptr k v e m : no_panic (eval_circuit_impl c ptr k v e m).
Proof.
  unfold eval_circuit_impl, no_panic. felt_ranges.
  destruct (Z.ltb_spec MAX_NUM_ACE_WIRES (Z.min (⟦v⟧ + ⟦e⟧) (2 ^ 64 - 1))) as [|Hle]; [done|].
  destruct (Z.eqb_spec (⟦v⟧ mod 2) 0) as [Hv|]; [|done].
  destruct (Z.eqb_spec ⟦v⟧ 0) as [|Hv0]; [done|].
  destruct (Z.eqb_spec (⟦e⟧ mod 4) 0) as [He|]; [|done].
  destruct (Z.eqb_spec ⟦e⟧ 0) as [|He0]; [done|]. cbn [negb orb].
  change MAX_NUM_ACE_WIRES with 1073741823 in Hle.
  destruct (circuit_new_Ok c k ⟦v⟧ ⟦e⟧ Hv) as (ce & -> & _).
  { change MAX_NUM_ACE_WIRES with 1073741823. lia. }
  rewrite bind_Ok. apply no_panic_bind.
  { apply no_panic_for_each. intros [p0 e0] i. unfold read_row. apply no_panic_bind; [apply read_word_no_panic|done]. }
  intros [p1 e1] _. apply no_panic_bind.
  { apply no_panic_for_each. intros [p0 e0] i. unfold eval_row. apply no_panic_bind; [apply read_element_no_panic|].
    intros ? _. apply no_panic_bind; [apply do_eval_no_panic|done]. }
  intros [p2 e2] _. by case_bool_decide.
Qed.

Lemma map_err_no_panic {E E' A} (f : E -> E') (o : outcome E A) :
  no_panic o -> no_panic (map_err f o).
Proof. by destruct o. Qed.

Lemma pop_stack_no_panic a : no_panic (pop_stack a).
Proof. unfold pop_stack, no_panic. by destruct (adv_stack a). Qed.
Lemma pop_stack_word_no_panic a : no_panic (pop_stack_word a).
Proof. rewrite pop_stack_word_eq. unfold no_panic. repeat split_match; done. Qed.
Lemma pop_stack_dword_no_panic a : no_panic (pop_stack_dword a).
Proof. rewrite pop_stack_dword_eq. unfold no_panic. repeat split_match; done. Qed.
Lemma node_index_no_panic d i : no_panic (node_index d i).
Proof. unfold node_index, no_panic. by destruct (node_index_from_elements d i). Qed.
Lemma get_merkle_path_no_panic a r d i : no_panic (get_merkle_path a r d i).
Proof.
  apply no_panic_bind; [apply node_index_no_panic|]. intros x _. unfold no_panic.
  by destruct (store_get_path _ _ _).
Qed.
Lemma update_merkle_node_no_panic a r d i v : no_panic (update_merkle_node a r d i v).
Proof.
  apply no_panic_bind; [apply node_index_no_panic|]. intros x _. unfold no_panic.
  by destruct (store_set_node _ _ _ _) as [[[? ?] ?]|].
Qed.
Lemma validate_no_panic s d c k : no_panic (validate_dual_word_stream_addrs s d c k).
Proof.
  unfold validate_dual_word_stream_addrs, guard_err, no_panic.
  repeat (split_match; simpl; try done).
Qed.
End NoPanic.

#[export] Hint Resolve read_element_no_panic read_word_no_panic write_element_no_panic
  write_word_no_panic eval_circuit_impl_no_panic pop_stack_no_panic pop_stack_word_no_panic
  pop_stack_dword_no_panic get_merkle_path_no_panic update_merkle_node_no_panic
  validate_no_panic : vm.

(** ** Related processors *)
Section Sim.
Context {F : Felt} {Q : Quad} {C : Crypto}.

Abbreviation fproc := (Proc Fast.stack).
Abbreviation iproc := (Proc (list felt)).

(** Saved overflow stacks always fit back into the buffer. *)
Definition overflow_fits (ci : ExecutionContextInfo) : Prop :=
  (length (overflow_stack ci) < Fast.STACK_BUFFER_SIZE - 16)%nat.

Record proc_rel (p : fproc) (q : iproc) : Prop := {
  pr_stack : stack_rel (stack p) (stack q);
  pr_clk : clk p = clk q;
  pr_ctx : ctx p = ctx q;
  pr_caller_hash : caller_hash p = caller_hash q;
  pr_advice : advice p = advice q;
  pr_memory : memory p = memory q;
  pr_call_stack : call_stack p = call_stack q;
  pr_options : options p = options q;
  pr_pc_transcript : pc_transcript p = pc_transcript q;
  pr_overflow : Forall overflow_fits (call_stack p);
}.

(** Two runs of the same handler: [P] holds of the common value. *)
Definition psim {A} (P : A -> Prop) (m1 : M (St := Fast.stack) A) (m2 : M (St := list felt) A) : Prop :=
  forall p q, proc_rel p q ->
    outcome_sim (eq stack_overflow)
      (fun r1 r2 => r1.1 = r2.1 /\ P r1.1 /\ proc_rel r1.2 r2.2) (m1 p) (m2 q).

Lemma psim_bind {A B} (P : A -> Prop) (R : B -> Prop) m1 m2 (f1 : A -> M B) (f2 : A -> M B) :
  psim P m1 m2 -> (forall a, P a -> psim R (f1 a) (f2 a)) -> psim R (m1 ≫= f1) (m2 ≫= f2).
Proof.
  intros Hm Hf p q Hpq. eapply outcome_sim_bind; [by apply Hm|].
  intros [a p'] [b q'] (E & HP & Hr). simpl in *. subst b. by apply Hf.
Qed.

Lemma psim_weaken {A} (P R : A -> Prop) m1 m2 :
  psim P m1 m2 -> (forall a, P a -> R a) -> psim R m1 m2.
Proof.
  intros H HPR p q Hpq. eapply outcome_sim_weaken, (H p q Hpq). intros r1 r2 (? & ? & ?). auto.
Qed.

Lemma psim_ret {A} (P : A -> Prop) a : P a -> psim P (mret a) (mret a).
Proof. intros HP p q Hpq. by constructor. Qed.

Lemma psim_lift {A} (o : result A) : no_panic o -> psim (fun a => o = Ok a) (lift o) (lift o).
Proof. intros Ho p q Hpq. unfold lift. destruct o; [by constructor|constructor|done]. Qed.

Lemma psim_raise {A} (P : A -> Prop) e : psim P (raise e) (raise e).
Proof. intros p q Hpq. constructor. Qed.

(** *** Stack methods *)

Lemma with_stack_rel p q s l : proc_rel p q -> stack_rel s l -> proc_rel (with_stack s p) (with_stack l q).
Proof. intros [] Hs. by split. Qed.

Lemma psim_on_stack f g :
  (forall s l, stack_rel s l -> msim stack_rel (f s) (g l)) ->
  psim (fun _ => True) (on_stack f) (on_stack g).
Proof.
  intros H p q Hpq. unfold on_stack.
  eapply outcome_sim_bind; [apply H, Hpq|]. intros s l Hs. constructor.
  split_and!; [done|done|]. by apply with_stack_rel.
Qed.

Lemma psim_get i : (i < 16)%nat -> psim (fun _ => True) (get i) (get i).
Proof.
  intros Hi p q Hpq. pose proof (rel_depth _ _ (pr_stack _ _ Hpq)).
  destruct (stack_get_rel _ _ i (pr_stack _ _ Hpq)) as (x & E1 & E2 & _); [lia|].
  unfold get. cbn [st_get Fast.fast_interface Ideal.ideal_interface]. rewrite E1, E2.
  by constructor.
Qed.

Lemma psim_get_word i : (i + 4 <= 16)%nat -> psim (fun _ => True) (get_word i) (get_word i).
Proof.
  intros Hi p q Hpq. pose proof (rel_depth _ _ (pr_stack _ _ Hpq)).
  destruct (stack_get_word_rel _ _ i (pr_stack _ _ Hpq)) as (x & E1 & E2); [lia|].
  unfold get_word. cbn [st_get_word Fast.fast_interface Ideal.ideal_interface]. rewrite E1, E2.
  by constructor.
Qed.

Lemma get_list_rel s l i n : stack_rel s l -> (i + n <= length l)%nat ->
  exists vs, st_get_list s i n = Ok vs /\ st_get_list l i n = Ok vs /\ length vs = n.
Proof.
  intros Hs. revert i. induction n as [|n IH]; intros i Hi; [by exists []|].
  destruct (stack_get_rel s l i Hs) as (x & E1 & E2 & _); [lia|].
  destruct (IH (i + 1)%nat) as (vs & E3 & E4 & E5); [lia|]. exists (x :: vs).
  simpl. rewrite E1, E2. simpl. rewrite E3, E4. simpl. by rewrite E5.
Qed.

Lemma psim_get_double_word i : (i + 8 <= 16)%nat ->
  psim (fun vs => length vs = 8%nat) (get_double_word i) (get_double_word i).
Proof.
  intros Hi p q Hpq. pose proof (rel_depth _ _ (pr_stack _ _ Hpq)).
  destruct (get_list_rel _ _ i 8 (pr_stack _ _ Hpq)) as (vs & E1 & E2 & Hl); [lia|].
  unfold get_double_word. rewrite E1, E2. by constructor.
Qed.

Lemma psim_set i v : (i < 16)%nat -> psim (fun _ => True) (set i v) (set i v).
Proof.
  intros Hi. apply psim_on_stack. intros s l Hs. pose proof (rel_depth _ _ Hs).
  apply stack_write_rel; [done|lia].
Qed.

Lemma psim_set_word i w : (i + 4 <= 16)%nat -> psim (fun _ => True) (set_word i w) (set_word i w).
Proof.
  intros Hi. apply psim_on_stack. intros s l Hs. pose proof (rel_depth _ _ Hs).
  apply stack_write_word_rel; [done|lia].
Qed.

Lemma psim_swap i j : (i < 16)%nat -> (j < 16)%nat -> psim (fun _ => True) (swap i j) (swap i j).
Proof.
  intros Hi Hj. apply psim_on_stack. intros s l Hs. pose proof (rel_depth _ _ Hs).
  apply stack_swap_rel; [done|lia..].
Qed.

Lemma psim_swapw n : (1 <= n <= 3)%nat -> psim (fun _ => True) (swapw_nth n) (swapw_nth n).
Proof.
  intros Hn. apply psim_on_stack. intros s l Hs. pose proof (rel_depth _ _ Hs).
  apply swapw_nth_rel; [done|lia..].
Qed.

Lemma psim_rotate_left n : (2 <= n <= 16)%nat -> psim (fun _ => True) (rotate_left n) (rotate_left n).
Proof.
  intros Hn. apply psim_on_stack. intros s l Hs. pose proof (rel_depth _ _ Hs).
  apply rotate_left_rel; [done|lia..].
Qed.

Lemma psim_rotate_right n : (2 <= n <= 16)%nat -> psim (fun _ => True) (rotate_right n) (rotate_right n).
Proof.
  intros Hn. apply psim_on_stack. intros s l Hs. pose proof (rel_depth _ _ Hs).
  apply rotate_right_rel; [done|lia..].
Qed.

Lemma psim_decrement : psim (fun _ => True) decrement_size decrement_size.
Proof. apply psim_on_stack. intros s l Hs. by apply decrement_rel. Qed.

Lemma psim_push v : psim (fun _ => True) (push v) (push v).
Proof. apply psim_on_stack. intros s l Hs. by apply push_rel. Qed.

(** *** System, memory and advice *)

Lemma psim_gets {A} (f : fproc -> A) (g : iproc -> A) :
  (forall p q, proc_rel p q -> f p = g q) -> psim (fun _ => True) (gets f) (gets g).
Proof. intros H p q Hpq. unfold gets. rewrite (H p q Hpq). by constructor. Qed.

Lemma psim_depth : psim (fun _ => True) (gets (fun p => st_depth (stack p)))
  (gets (fun p => st_depth (stack p))).
Proof. apply psim_gets. intros p q [Hs]. symmetry. apply (rel_len _ _ Hs). Qed.
Lemma psim_clk : psim (fun _ => True) (gets clk) (gets clk).
Proof. by apply psim_gets; intros p q []. Qed.
Lemma psim_ctx : psim (fun _ => True) (gets ctx) (gets ctx).
Proof. by apply psim_gets; intros p q []. Qed.
Lemma psim_caller_hash : psim (fun _ => True) (gets caller_hash) (gets caller_hash).
Proof. by apply psim_gets; intros p q []. Qed.
Lemma psim_memory : psim (fun _ => True) (gets memory) (gets memory).
Proof. by apply psim_gets; intros p q []. Qed.
Lemma psim_transcript : psim (fun _ => True) (gets pc_transcript) (gets pc_transcript).
Proof. by apply psim_gets; intros p q []. Qed.

Lemma psim_read_element a : psim (fun _ => True) (mem_read_element a) (mem_read_element a).
Proof.
  intros p q Hpq. unfold mem_read_element. rewrite (pr_memory _ _ Hpq), (pr_ctx _ _ Hpq).
  pose proof (read_element_no_panic (memory q) (ctx q) a).
  destruct (read_element _ _ _); simpl; [by constructor|constructor|done].
Qed.

Lemma psim_read_word a : psim (fun _ => True) (mem_read_word a) (mem_read_word a).
Proof.
  intros p q Hpq. unfold mem_read_word. rewrite (pr_memory _ _ Hpq), (pr_ctx _ _ Hpq).
  pose proof (read_word_no_panic (memory q) (ctx q) a).
  destruct (read_word _ _ _); simpl; [by constructor|constructor|done].
Qed.

Lemma with_memory_rel p q m : proc_rel p q -> proc_rel (with_memory m p) (with_memory m q).
Proof. intros []. by split. Qed.

Lemma psim_write_element a v : psim (fun _ => True) (mem_write_element a v) (mem_write_element a v).
Proof.
  intros p q Hpq. unfold mem_write_element. rewrite (pr_memory _ _ Hpq), (pr_ctx _ _ Hpq).
  pose proof (write_element_no_panic (memory q) (ctx q) a v).
  destruct (write_element _ _ _ _); simpl; [constructor|constructor|done].
  split_and!; [done|done|by apply with_memory_rel].
Qed.

Lemma psim_write_word a v : psim (fun _ => True) (mem_write_word a v) (mem_write_word a v).
Proof.
  intros p q Hpq. unfold mem_write_word. rewrite (pr_memory _ _ Hpq), (pr_ctx _ _ Hpq).
  pose proof (write_word_no_panic (memory q) (ctx q) a v).
  destruct (write_word _ _ _ _); simpl; [constructor|constructor|done].
  split_and!; [done|done|by apply with_memory_rel].
Qed.

Lemma with_advice_rel p q a : proc_rel p q -> proc_rel (with_advice a p) (with_advice a q).
Proof. intros []. by split. Qed.

Lemma psim_on_advice {A} (P : A -> Prop) (f : AdviceProvider -> adv_result (A * AdviceProvider)) :
  (forall a, no_panic (f a)) -> (forall a r a', f a = Ok (r, a') -> P r) ->
  psim P (on_advice f) (on_advice f).
Proof.
  intros Hf HP p q Hpq. unfold on_advice. rewrite (pr_advice _ _ Hpq).
  pose proof (Hf (advice q)). destruct (f (advice q)) as [[r a]|e|] eqn:E; simpl; [|constructor|done].
  constructor. split_and!; [done|by eapply HP|by apply with_advice_rel].
Qed.

Lemma psim_set_transcript w :
  psim (fun _ => True) ((fun p => Ok ((), with_pc_transcript w p)) : M unit)
                       ((fun p => Ok ((), with_pc_transcript w p)) : M unit).
Proof. intros p q []. constructor. by split_and!. Qed.
End Sim.

(** Primitive steps, with their index conditions discharged. *)
Ltac psim_prim :=
  lazymatch goal with
  | |- psim _ (get _) _ => apply psim_get; lia
  | |- psim _ (set _ _) _ => apply psim_set; lia
  | |- psim _ (get_word _) _ => apply psim_get_word; lia
  | |- psim _ (set_word _ _) _ => apply psim_set_word; lia
  | |- psim _ (get_double_word _) _ => apply psim_get_double_word; lia
  | |- psim _ (swap _ _) _ => apply psim_swap; lia
  | |- psim _ (swapw_nth _) _ => apply psim_swapw; lia
  | |- psim _ (rotate_left _) _ => apply psim_rotate_left; lia
  | |- psim _ (rotate_right _) _ => apply psim_rotate_right; lia
  | |- psim _ decrement_size _ => apply psim_decrement
  | |- psim _ (push _) _ => apply psim_push
  | |- psim _ (gets _) _ =>
    first [ apply psim_depth | apply psim_clk | apply psim_ctx | apply psim_caller_hash
          | apply psim_memory | apply psim_transcript ]
  | |- psim _ (mem_read_element _) _ => apply psim_read_element
  | |- psim _ (mem_read_word _) _ => apply psim_read_word
  | |- psim _ (mem_write_element _ _) _ => apply psim_write_element
  | |- psim _ (mem_write_word _ _) _ => apply psim_write_word
  | |- psim _ (lift _) _ => apply psim_lift; solve [auto with vm | done]
  | |- psim _ (on_advice _) _ =>
    apply (psim_on_advice (fun _ => True)); [solve [auto with vm]|done]
  | |- psim _ (fun _ => _) _ => apply psim_set_transcript
  end.

(** Walk through a handler: binds of primitive steps, returns, errors, and case
    distinctions on values both runs agree on. *)
Ltac psim_intro :=
  let H := fresh "Hv" in
  intros ? H; cbv beta in H |- *;
  lazymatch type of H with
  | Ok _ = Ok _ => injection H as <-; cbn
  | True => clear H
  | _ => idtac
  end.
Ltac psim_step :=
  first
    [ apply psim_ret; exact I
    | apply psim_raise
    | eapply psim_weaken; [psim_prim|done]
    | eapply psim_bind; [psim_prim|psim_intro]
    | match goal with
      | |- psim _ (match ?x with _ => _ end) (match ?x with _ => _ end) => destruct x eqn:?
      | |- psim _ (match ?x with _ => _ end ≫= _) _ => destruct x eqn:?
      end ].
Ltac psim_auto := repeat psim_step.

Section Ops.
Context {F : Felt} {Q : Quad} {C : Crypto}.

Abbreviation same m := (psim (fun _ => True) m m).

Lemma double_word_Ok (l : list felt) : length l = 8%nat -> no_panic (double_word l).
Proof. by destruct l as [|? [|? [|? [|? [|? [|? [|? [|? [|? ?]]]]]]]]]. Qed.
Hint Resolve double_word_Ok : vm.

Lemma psim_pop2 f : same (pop2_applyfn_push f).
Proof. unfold pop2_applyfn_push. psim_auto. Qed.

Lemma psim_pop2_op (f : felt -> felt -> outcome OperationError felt) :
  (forall a b, no_panic (f a b)) -> same (pop2_applyfn_push_op f).
Proof.
  intros Hf. unfold pop2_applyfn_push_op. psim_auto.
  eapply psim_bind; [apply psim_lift, map_err_no_panic, Hf|]. intros. psim_auto.
Qed.

Lemma psim_u32_2 i j : (i < 16)%nat -> (j < 16)%nat -> same (require_u32_operands2 i j).
Proof. intros. unfold require_u32_operands2, op_err. psim_auto. Qed.

Lemma psim_u32_3 i j k : (i < 16)%nat -> (j < 16)%nat -> (k < 16)%nat ->
  same (require_u32_operands3 i j k).
Proof. intros. unfold require_u32_operands3, op_err. psim_auto. Qed.

Lemma psim_get_quad j : (j < 8)%nat -> same (get_quad j).
Proof. intros. unfold get_quad. psim_auto. Qed.

Lemma assert_binary_no_panic v : no_panic (assert_binary v).
Proof. unfold assert_binary, no_panic. by split_match. Qed.

Lemma psim_and : same op_and.
Proof.
  unfold op_and. eapply psim_bind; [apply psim_pop2_op|intros; psim_auto]. intros a b.
  apply no_panic_bind; [apply assert_binary_no_panic|]. intros _ _.
  apply no_panic_bind; [apply assert_binary_no_panic|]. intros _ _. unfold no_panic. by split_match.
Qed.

Lemma psim_or : same op_or.
Proof.
  unfold op_or. eapply psim_bind; [apply psim_pop2_op|intros; psim_auto]. intros a b.
  apply no_panic_bind; [apply assert_binary_no_panic|]. intros _ _.
  apply no_panic_bind; [apply assert_binary_no_panic|]. intros _ _. unfold no_panic. by split_match.
Qed.

Lemma psim_cswap : same op_cswap.
Proof. unfold op_cswap, op_err. psim_auto. Qed.

Lemma psim_cswapw : same op_cswapw.
Proof. unfold op_cswapw, op_err. psim_auto. Qed.

Lemma verify_merkle_root_no_panic r v p i e :
  no_panic (verify_merkle_root r v (Some p) i e).
Proof. unfold verify_merkle_root, no_panic. simpl. by split_match. Qed.

Lemma update_merkle_root_no_panic r o n p i e :
  no_panic (update_merkle_root r o n (Some p) i e).
Proof. unfold update_merkle_root, no_panic. simpl. by repeat split_match. Qed.

Lemma psim_mpverify err : same (op_mpverify err).
Proof.
  unfold op_mpverify. psim_auto.
  eapply psim_bind; [apply (psim_on_advice (fun o => exists x, o = Some x))|].
  - intros adv. apply no_panic_bind; [auto with vm|done].
  - intros adv r adv' Hr. bind_inv Hr. injection Hr as <- <-. eauto.
  - intros ? [x ->]. eapply psim_bind; [apply psim_lift, verify_merkle_root_no_panic|].
    intros. psim_auto.
Qed.

Lemma psim_mrupdate : same op_mrupdate.
Proof.
  unfold op_mrupdate, op_err. psim_auto.
  eapply psim_bind; [apply (psim_on_advice (fun o => exists x, o = Some x))|].
  - intros adv. apply no_panic_bind; [auto with vm|]. by intros [[? ?] ?] _.
  - intros adv r adv' Hr. bind_inv Hr. match type of Hr with context [match ?x with _ => _ end] => destruct x as [[? ?] ?] end.
    injection Hr as <- <-. eauto.
  - intros ? [x ->]. eapply (psim_bind (fun _ => True)); [psim_auto|]. intros ? _.
    eapply psim_bind; [apply psim_lift, update_merkle_root_no_panic|].
    intros. psim_auto.
Qed.

Lemma land3_cases p : 0 <= p ->
  Z.land p 3 = 0 \/ Z.land p 3 = 1 \/ Z.land p 3 = 2 \/ Z.land p 3 = 3.
Proof. intros. rewrite (Z.land_ones p 2 ltac:(done) : Z.land p 3 = p mod 4). zlia. Qed.

Lemma psim_fri : same op_fri_ext2fold4.
Proof.
  unfold op_fri_ext2fold4, get_query_values, op_err.
  eapply (psim_bind (fun l => exists a b c d, l = [a; b; c; d]));
    [psim_auto; apply psim_ret; eauto|].
  intros ? (v0 & v1 & v2 & v3 & ->). do 2 (eapply psim_bind; [psim_prim|intros; cbv beta zeta]).
  pose proof (canonical_range a0) as Hr.
  destruct (land3_cases ⟦a0⟧) as [->|[->|[->| ->]]]; [lia| | | |]; simpl in *; simplify_eq/=;
    psim_auto.
Qed.

Lemma psim_eval_circuit : same op_eval_circuit.
Proof. unfold op_eval_circuit. psim_auto. Qed.

(** The dispatcher; [Emit] is not executed by it. *)
Lemma psim_execute_op op : op <> Emit -> same (execute_op op).
Proof.
  intros Hop. destruct op; cbn [execute_op]; try done;
    try apply psim_and; try apply psim_or; try apply psim_cswap; try apply psim_cswapw;
    try apply psim_mpverify; try apply psim_mrupdate; try apply psim_fri;
    unfold no_helpers, op_err, op_assert, op_sdepth, op_caller, op_clk, op_add, op_neg, op_mul,
      op_inv, op_incr, op_not, op_eq, op_eqz, op_expacc, op_ext2mul, op_u32split, op_u32add,
      op_u32add3, op_u32sub, op_u32mul, op_u32madd, op_u32div, op_u32and, op_u32xor,
      op_u32assert2, op_pad, dup_nth, op_swap, op_swap_double_word, op_push, op_advpop,
      op_advpopw, op_mloadw, op_mstorew, op_mload, op_mstore, op_mstream, op_pipe, op_hperm,
      op_horner_eval_base, op_horner_eval_ext, op_eval_circuit, op_log_precompile,
      op_crypto_stream, op_err, word_tuple, permute, split_element;
    repeat first
      [ progress psim_auto
      | eapply psim_bind; [first [ apply psim_pop2 | apply psim_u32_2; lia | apply psim_u32_3; lia
                                 | apply psim_get_quad; lia | apply psim_eval_circuit ]
                          |psim_intro] ].
Qed.

(** *** Context switches *)

Lemma psim_save_context : same save_context_and_truncate_stack.
Proof.
  intros p q Hpq. unfold save_context_and_truncate_stack.
  destruct (pr_stack _ _ Hpq) as [Hinv Hlen _]. pose proof (truncate_rel _ _ (pr_stack _ _ Hpq)) as H.
  cbn [st_truncate Fast.fast_interface Ideal.ideal_interface] in *. unfold Ideal.truncate in *.
  inversion H as [[ov s] b Hb E1 E2| |e o He E1 E2]; subst; cbn; [|by constructor].
  destruct Hb as [-> Hs]. constructor. split_and!; [done|done|].
  destruct Hpq as [? Hclk Hctx Hch Hadv Hmem Hcs Hopt Hpc Hov].
  split; cbn [stack clk ctx caller_hash advice memory call_stack options pc_transcript
    with_call_stack with_stack]; try done.
  - by rewrite Hctx, Hch, Hcs.
  - constructor; [|done]. unfold overflow_fits. cbn [overflow_stack].
    rewrite length_reverse, length_drop, Hlen. destruct Hinv. blia.
Qed.

Lemma psim_restore_context : forall p q, proc_rel p q -> call_stack p <> [] ->
  outcome_sim (eq stack_overflow) (fun r1 r2 => r1.1 = r2.1 /\ proc_rel r1.2 r2.2)
    (restore_context p) (restore_context q).
Proof.
  intros p q Hpq Hne. unfold restore_context.
  pose proof (rel_depth _ _ (pr_stack _ _ Hpq)) as Hd.
  destruct (pr_stack _ _ Hpq) as [_ Hlen _].
  destruct Hpq as [Hs Hclk Hctx Hch Hadv Hmem Hcs Hopt Hpc Hov].
  cbn [st_depth st_restore_overflow Fast.fast_interface Ideal.ideal_interface]. rewrite <-Hlen.
  destruct (Nat.ltb_spec MIN_STACK_DEPTH (length (stack q))); [constructor|]. rewrite <-Hcs.
  destruct (call_stack p) as [|ci cs] eqn:E; [done|]. apply Forall_cons in Hov as [Hci Hov].
  eapply outcome_sim_bind; [apply restore_rel; [done| |exact Hci]|].
  { unfold MIN_STACK_DEPTH in *. lia. }
  intros s l Hsl. constructor. split; [done|]. by split.
Qed.

(** A straight-line sequence of operations. *)
Lemma psim_execute_ops ops : Emit ∉ ops -> same (execute_ops ops).
Proof.
  induction ops as [|op ops IH]; intros Hne; simpl; [by apply psim_ret|].
  apply not_elem_of_cons in Hne as [Hop Hne].
  eapply psim_bind; [by apply psim_execute_op|]. intros _ _. by apply IH.
Qed.
End Ops.
