(* ===== verification/ExecRefinement.v ===== *)
(** * Execution on the buffer implements execution on the ideal stack

    The simulation of [Refinement] lifted through system events, the
    continuation handlers and the execution loop: a program run by the processor with the
    operand-stack buffer either fails because the buffer is full, or ends exactly as on
    the unbounded zero-padded stack. *)

From S2P Require Import Prelude Bits Field Types Events Operations OperandStack StackRefinement Memory Advice.
From S2P Require Import Processor SysEvents Refinement Execution.
Import Op.
#[local] Open Scope Z_scope.

(** ** Panic freedom of the advice provider *)
Section AdvNoPanic.
Context {F : Felt} {C : Crypto}.

Lemma check_stack_capacity_no_panic a n : no_panic (check_stack_capacity a n).
Proof. unfold check_stack_capacity, no_panic. by repeat split_match. Qed.
Lemma push_stack_no_panic a v : no_panic (push_stack a v).
Proof. apply no_panic_bind; [apply check_stack_capacity_no_panic|done]. Qed.
Lemma push_stack_word_no_panic a w : no_panic (push_stack_word a w).
Proof. apply no_panic_bind; [apply check_stack_capacity_no_panic|done]. Qed.
Lemma push_from_map_no_panic a k b n : no_panic (push_from_map a k b n).
Proof.
  unfold push_from_map. destruct (_ !! k); [|done].
  apply no_panic_bind; [apply check_stack_capacity_no_panic|done].
Qed.
Lemma extend_stack_no_panic a vs : no_panic (extend_stack a vs).
Proof. apply no_panic_bind; [apply check_stack_capacity_no_panic|done]. Qed.
Lemma insert_into_map_no_panic a k v : no_panic (insert_into_map a k v).
Proof. unfold insert_into_map, no_panic. by repeat split_match. Qed.
Lemma get_tree_node_no_panic a r d i : no_panic (get_tree_node a r d i).
Proof.
  apply no_panic_bind; [apply node_index_no_panic|]. intros x _. unfold no_panic. by split_match.
Qed.
Lemma merge_roots_no_panic a l r : no_panic (merge_roots a l r).
Proof. unfold merge_roots, no_panic. by repeat split_match. Qed.
Lemma extend_map_no_panic a m : no_panic (extend_map a m).
Proof. unfold extend_map, merge, no_panic. by repeat split_match. Qed.
Lemma apply_mutations_no_panic a ms : no_panic (apply_mutations a ms).
Proof.
  apply no_panic_for_each. intros b []; cbn [apply_mutation]; try done;
    [apply extend_stack_no_panic|apply extend_map_no_panic].
Qed.
Lemma merge_merkle_no_panic a l r : no_panic (p ← merge_roots a l r; let '(_, b) := p in Ok b).
Proof. apply no_panic_bind; [apply merge_roots_no_panic|]. by intros [] _. Qed.
Lemma copy_merkle_no_panic a r d i : no_panic (node ← get_tree_node a r d i; push_stack_word a node).
Proof. apply no_panic_bind; [apply get_tree_node_no_panic|]. intros. apply push_stack_word_no_panic. Qed.
Lemma map_length_no_panic a key : no_panic
  match get_mapped_values a key with
  | Some values => push_stack a (new_unchecked (Z.of_nat (length values)))
  | None => Err (MapKeyNotFound key)
  end.
Proof. destruct (get_mapped_values a key); [apply push_stack_no_panic|done]. Qed.

Lemma read_range_no_panic m c a n : no_panic (read_range m c a n).
Proof.
  revert a. induction n as [|n IH]; intros a; [done|]. apply no_panic_bind.
  - unfold read_element_impl, split_addr, no_panic. destruct (m !! _) as [w|]; [|done].
    destruct (word_get_some w (a mod 4)) as [v Hv]; [by apply Z.mod_pos_bound|].
    change (Z.of_nat WORD_SIZE) with 4. by rewrite Hv.
  - intros v _. apply no_panic_bind; [apply IH|done].
Qed.
End AdvNoPanic.

#[export] Hint Resolve push_stack_no_panic push_stack_word_no_panic push_from_map_no_panic
  insert_into_map_no_panic extend_map_no_panic apply_mutations_no_panic merge_merkle_no_panic
  copy_merkle_no_panic map_length_no_panic read_range_no_panic : vm.

(** ** System events *)
Section Events.
Context {F : Felt} {Q : Quad} {C : Crypto}.
Abbreviation same m := (psim (fun _ => True) m m).

Lemma psim_get_word_safe i : same (get_word_safe i).
Proof.
  intros p q Hpq. destruct (stack_get_word_safe_rel _ _ i (pr_stack _ _ Hpq)) as (w & E1 & E2).
  unfold get_word_safe. cbn [st_get_word_safe Fast.fast_interface Ideal.ideal_interface].
  rewrite E1, E2. by constructor.
Qed.

Lemma psim_options : same (gets options).
Proof. by apply psim_gets; intros p q []. Qed.

Lemma psim_adv f : (forall a, no_panic (f a)) -> same (adv f).
Proof.
  intros Hf. apply (psim_on_advice (fun _ => True)); [|done].
  intros a. apply no_panic_bind; [apply Hf|done].
Qed.

Lemma psim_handle_system_event ev : same (handle_system_event ev).
Proof.
  destruct ev; cbn [handle_system_event];
    unfold merge_merkle_nodes, copy_merkle_node_to_adv_stack, copy_map_value_to_adv_stack,
      copy_map_value_length_to_adv_stack, push_key_presence_flag, push_ext2_inv_result,
      push_leading_zeros, push_trailing_zeros, push_leading_ones, push_trailing_ones, push_ilog2,
      push_transformed_stack_top, insert_mem_values_into_adv_map, insert_hdword_into_adv_map,
      insert_hqword_into_adv_map, insert_hperm_into_adv_map, mem_err, op_err,
      HDWORD_TO_MAP_WITH_DOMAIN_DOMAIN_OFFSET;
    repeat first
      [ progress psim_auto
      | apply psim_adv; auto with vm
      | eapply psim_bind;
          [first [apply psim_get_word_safe | apply psim_options | apply psim_adv; auto with vm]
          |psim_intro] ].
Qed.

Lemma psim_set_ctx c : same (set_ctx c).
Proof.
  intros p q []. constructor. split_and!; [done|done|]. by split.
Qed.

Lemma psim_init_context c h : same (init_context c h).
Proof.
  unfold init_context. eapply psim_bind; [apply psim_set_ctx|intros _ _].
  eapply (psim_bind (fun _ => True)).
  - intros p q []. constructor. split_and!; [done|done|]. by split.
  - intros _ _ p q Hpq. unfold mem_write_element_in. rewrite (pr_memory _ _ Hpq).
    pose proof (write_element_no_panic (memory q) c FMP_ADDR FMP_INIT_VALUE).
    destruct (write_element _ _ _ _); simpl; [constructor|constructor|done].
    split_and!; [done|done|by apply with_memory_rel].
Qed.
End Events.

(** ** Executions *)
Section Exec.
Context {F : Felt} {Q : Quad} {C : Crypto} {HO : Host}.

Abbreviation fstate := (EState (St := Fast.stack)).
Abbreviation istate := (EState (St := list felt)).
Abbreviation fX := (X (St := Fast.stack)).
Abbreviation iX := (X (St := list felt)).

Record state_rel (s : fstate) (t : istate) : Prop := {
  sr_processor : proc_rel (processor s) (processor t);
  sr_continuations : continuation_stack s = continuation_stack t;
  sr_forest : current_forest s = current_forest t;
  sr_host : host s = host t;
}.

(** Results of a handler: the same control flow in related states, or the buffer is full. *)
Inductive xsim : xres (St := Fast.stack) -> xres (St := list felt) -> Prop :=
  | xsim_Ok s t : state_rel s t -> xsim (XOk s) (XOk t)
  | xsim_Err e : xsim (XErr e) (XErr e)
  | xsim_limit r : xsim (XErr stack_overflow) r
  | xsim_Stop c s t : state_rel s t -> xsim (XStop c s) (XStop c t)
  | xsim_Io b s t : state_rel s t -> xsim (XIo b s) (XIo b t)
  | xsim_Panic : xsim XPanic XPanic.

Definition esim (m1 : fX) (m2 : iX) : Prop := forall s t, state_rel s t -> xsim (m1 s) (m2 t).

Lemma state_rel_processor s t p q :
  state_rel s t -> proc_rel p q -> state_rel (with_processor p s) (with_processor q t).
Proof. intros [] ?. by split. Qed.

Lemma esim_then m1 m2 k1 k2 : esim m1 m2 -> esim k1 k2 -> esim (xthen m1 k1) (xthen m2 k2).
Proof.
  intros Hm Hk s t Hst. unfold xthen. specialize (Hm s t Hst).
  inversion Hm; subst; try by constructor. by apply Hk.
Qed.

Lemma esim_run {A} (P : A -> Prop) m1 m2 (k1 : A -> fX) (k2 : A -> iX) :
  psim P m1 m2 -> (forall a, P a -> esim (k1 a) (k2 a)) -> esim (xrun m1 k1) (xrun m2 k2).
Proof.
  intros Hm Hk s t Hst. unfold xrun. specialize (Hm _ _ (sr_processor _ _ Hst)).
  inversion Hm as [[a p] [b q] (E & HP & Hpq)| |e o He]; subst; [|by constructor|by constructor].
  simpl in *. subst b. apply Hk; [done|]. by apply state_rel_processor.
Qed.

Lemma esim_lift {A} (o : result A) (k1 : A -> fX) (k2 : A -> iX) :
  (forall a, esim (k1 a) (k2 a)) -> esim (xlift o k1) (xlift o k2).
Proof. intros Hk s t Hst. unfold xlift. destruct o; [by apply Hk|constructor|constructor]. Qed.

Lemma esim_push c k1 k2 : esim k1 k2 -> esim (xpush c k1) (xpush c k2).
Proof.
  intros Hk s t []. apply Hk. split; try done. cbn. by f_equal.
Qed.

Lemma esim_ret : esim xret xret.
Proof. intros s t Hst. by constructor. Qed.
Lemma esim_err e : esim (xerr e) (xerr e).
Proof. intros s t Hst. constructor. Qed.
Lemma esim_panic : esim xpanic xpanic.
Proof. intros s t Hst. constructor. Qed.
Lemma esim_io b : esim (fun s => XIo b s) (fun s => XIo b s).
Proof. intros s t Hst. by constructor. Qed.
Lemma esim_set_forest f : esim (fun s => XOk (set_forest f s)) (fun s => XOk (set_forest f s)).
Proof. intros s t []. constructor. by split. Qed.

(** Handlers that read the current forest. *)
Lemma esim_forest (k1 : MastForest -> fX) (k2 : MastForest -> iX) :
  (forall f, esim (k1 f) (k2 f)) ->
  esim (fun s => k1 (current_forest s) s) (fun s => k2 (current_forest s) s).
Proof. intros Hk s t Hst. rewrite (sr_forest _ _ Hst). by apply Hk. Qed.

Lemma esim_finalize stopper c :
  esim (finalize_clock_cycle_with_continuation stopper c)
       (finalize_clock_cycle_with_continuation stopper c).
Proof.
  intros s t Hst. assert (state_rel (with_processor (increment_clock (processor s)) s)
    (with_processor (increment_clock (processor t)) t)) as Hst'.
  { apply state_rel_processor; [done|]. destruct Hst as [[] _ _ _]. split; try done. cbn. congruence. }
  unfold finalize_clock_cycle_with_continuation, should_stop, check_if_max_cycles_exceeded,
    check_if_continuation_stack_too_large.
  destruct Hst' as [Hp Hc Hf Hh]. rewrite (pr_options _ _ Hp), (pr_clk _ _ Hp), Hc.
  repeat case_match; by constructor.
Qed.

Lemma esim_restore stopper c :
  esim (xrun restore_context (fun _ => finalize_clock_cycle_with_continuation stopper c))
       (xrun restore_context (fun _ => finalize_clock_cycle_with_continuation stopper c)).
Proof.
  intros s t Hst. pose proof (sr_processor _ _ Hst) as Hp.
  destruct (call_stack (processor s)) as [|ci cs] eqn:E.
  - unfold xrun, restore_context. rewrite E, <-(pr_call_stack _ _ Hp), E.
    cbn [st_depth Fast.fast_interface Ideal.ideal_interface].
    rewrite <-(rel_len _ _ (pr_stack _ _ Hp)).
    destruct (MIN_STACK_DEPTH <? _)%nat; constructor.
  - unfold xrun. assert (call_stack (processor s) <> []) as Hne by by rewrite E.
    pose proof (psim_restore_context _ _ Hp Hne) as Hr.
    inversion Hr as [[a p] [b q] (E' & Hpq)| |e o He]; subst; [|by constructor|by constructor].
    apply esim_finalize. by apply state_rel_processor.
Qed.
End Exec.

(** Walk through a continuation handler. *)
Ltac esim_step :=
  first
    [ apply esim_ret | apply esim_err | apply esim_panic | apply esim_io | apply esim_set_forest
    | apply esim_finalize | apply esim_restore
    | apply esim_push | apply esim_then | apply esim_lift; intros ?
    | eapply esim_run;
        [first [psim_prim | apply psim_save_context | apply psim_set_ctx | apply psim_init_context
               | apply psim_handle_system_event | apply psim_adv; auto with vm
               | by apply psim_ret | by apply psim_execute_op]
        |psim_intro]
    | match goal with
      | |- esim (match ?x with _ => _ end) _ => destruct x eqn:?
      end ].
Ltac esim_auto := repeat esim_step.

Section Handlers.
Context {F : Felt} {Q : Quad} {C : Crypto} {HO : Host}.

Abbreviation same m := (esim m m).

Lemma esim_batch_ops stopper bs id b i ops : same (execute_batch_ops stopper bs id b i ops).
Proof.
  revert i. induction ops as [|op ops IH]; intros i; cbn [execute_batch_ops]; [apply esim_ret|].
  destruct op; try (eapply esim_run; [apply psim_execute_op; done|]; intros _ _;
    apply esim_then; [apply esim_finalize|apply IH]).
  apply esim_io.
Qed.

Lemma esim_op_batch stopper bs id b i : same (execute_op_batch stopper bs id b i).
Proof. unfold execute_op_batch. destruct (bs !! b); [apply esim_batch_ops|apply esim_panic]. Qed.

Lemma esim_batches stopper bs id b n : same (execute_batches stopper bs id b n).
Proof.
  revert b. induction n as [|n IH]; intros b; cbn [execute_batches]; [apply esim_finalize|].
  apply esim_then; [apply esim_finalize|]. apply esim_then; [apply esim_op_batch|apply IH].
Qed.

Lemma esim_block_start stopper bs id : same (execute_basic_block_node_from_start stopper bs id).
Proof.
  unfold execute_basic_block_node_from_start. apply esim_then; [apply esim_finalize|].
  apply esim_then; [|apply esim_batches]. destruct bs; [apply esim_ret|apply esim_op_batch].
Qed.

Lemma esim_finish_loop stopper b id : same (finish_loop_node stopper b id).
Proof.
  unfold finish_loop_node.
  apply (esim_run (fun _ => True)); [destruct b; [psim_prim|by apply psim_ret]|intros v _].
  intros s t Hst. rewrite <-(sr_forest _ _ Hst).
  destruct (nodes (current_forest s) !! id) as [[k d]|]; [|constructor].
  destruct k as [| | |body| | |]; try constructor. revert s t Hst.
  match goal with |- forall s t, _ -> xsim (?m1 s) (?m2 t) => change (esim m1 m2) end.
  case_bool_decide; [esim_auto|]. case_bool_decide; [|esim_auto].
  apply (esim_run (fun _ => True)); [destruct b; [psim_prim|by apply psim_ret]|intros; esim_auto].
Qed.

Lemma esim_start_call stopper kernel id callee b : same (start_call_node stopper kernel id callee b).
Proof.
  unfold start_call_node. eapply esim_run; [apply psim_save_context|intros _ _].
  intros s t Hst. rewrite <-(sr_forest _ _ Hst). unfold get_next_ctx_id.
  rewrite <-(pr_clk _ _ (sr_processor _ _ Hst)). revert Hst.
  generalize (clk (processor s) + 1) (current_forest s). intros c f. revert s t.
  match goal with |- forall s t, _ -> xsim (?m1 s) (?m2 t) => change (esim m1 m2) end.
  unfold finalize_clock_cycle. esim_auto.
Qed.

Lemma esim_start_dyn stopper id b : same (start_dyn_node stopper id b).
Proof.
  unfold start_dyn_node. do 3 (eapply esim_run; [psim_prim|intros ? _]).
  set (resolve1 := fun s : EState => xlift (find_procedure_root (current_forest s) a0) _ s).
  set (resolve2 := fun s : EState => xlift (find_procedure_root (current_forest s) a0) _ s).
  assert (esim resolve1 resolve2) as Hres.
  { apply (esim_forest (fun f => xlift (find_procedure_root f a0) _)
                       (fun f => xlift (find_procedure_root f a0) _)).
    intros f. unfold finalize_clock_cycle. esim_auto. }
  destruct b; [|by apply esim_push].
  intros s t Hst. unfold get_next_ctx_id. rewrite (pr_clk _ _ (sr_processor _ _ Hst)). revert s t Hst.
  intros s t. generalize (clk (processor t) + 1). intros c. revert s t.
  match goal with |- forall s t, _ -> xsim (?m1 s) (?m2 t) => change (esim m1 m2) end.
  esim_auto. exact Hres.
Qed.

Lemma esim_finish_dyn stopper id : same (finish_dyn_node stopper id).
Proof.
  intros s t Hst. unfold finish_dyn_node. rewrite <-(sr_forest _ _ Hst).
  destruct (nodes (current_forest s) !! id) as [[k d]|]; [|constructor].
  destruct k as [| | | | |b|]; try constructor. revert s t Hst.
  match goal with |- forall s t, _ -> xsim (?m1 s) (?m2 t) => change (esim m1 m2) end.
  destruct b; [apply esim_restore|]. esim_auto.
Qed.

Lemma esim_with_block id (k1 k2 : list (list Operation) -> X) :
  (forall bs, esim (k1 bs) (k2 bs)) -> esim (with_basic_block id k1) (with_basic_block id k2).
Proof.
  intros Hk s t Hst. unfold with_basic_block. rewrite <-(sr_forest _ _ Hst).
  destruct (nodes (current_forest s) !! id) as [[[] d]|]; try constructor. by apply Hk.
Qed.

Lemma esim_start_node stopper kernel id n : same (start_node stopper kernel id n).
Proof.
  unfold start_node. destruct (node_kind n).
  - apply esim_block_start.
  - unfold start_join_node, finalize_clock_cycle. esim_auto.
  - unfold start_split_node, finalize_clock_cycle. esim_auto.
  - unfold start_loop_node, finalize_clock_cycle. esim_auto. apply esim_finish_loop.
  - apply esim_start_call.
  - apply esim_start_dyn.
  - apply esim_io.
Qed.

Lemma esim_continuation stopper kernel c : same (execute_continuation stopper kernel c).
Proof.
  destruct c; cbn [execute_continuation]; unfold finish_join_node, finish_split_node, finish_call_node,
    finish_basic_block; esim_auto.
  - apply (esim_forest (fun f => xlift (get_node f node_id) _) (fun f => xlift (get_node f node_id) _)).
    intros f. apply esim_lift. intros n. apply esim_start_node.
  - apply esim_finish_loop.
  - apply esim_finish_dyn.
  - apply esim_with_block. intros bs. apply esim_then; [apply esim_op_batch|apply esim_batches].
  - apply esim_with_block. intros bs. apply esim_batches.
  - apply esim_with_block. intros bs. apply esim_finalize.
  - apply esim_with_block. intros bs. apply esim_ret.
Qed.

Lemma esim_set_host h k1 k2 : esim k1 k2 -> esim (fun s => k1 (set_host h s)) (fun s => k2 (set_host h s)).
Proof. intros Hk s t []. apply Hk. by split. Qed.

Lemma processor_state_rel p q : proc_rel p q -> processor_state p = processor_state q.
Proof.
  intros [Hs]. unfold processor_state. cbn [st_elements Fast.fast_interface Ideal.ideal_interface].
  rewrite (elements_rel _ _ Hs). simpl. congruence.
Qed.

Lemma esim_op_emit : same op_emit_sync.
Proof.
  unfold op_emit_sync. esim_auto. intros s t Hst.
  rewrite (processor_state_rel _ _ (sr_processor _ _ Hst)). revert s t Hst.
  intros s t. generalize (processor_state (processor t)). intros v Hst. revert s t Hst.
  match goal with |- forall s t, _ -> xsim (?m1 s) (?m2 t) => change (esim m1 m2) end.
  apply esim_lift. intros view s t Hst. rewrite (sr_host _ _ Hst).
  destruct (on_event (host t) view) as [ms h].
  eapply (esim_set_host h); [|exact Hst]. eapply esim_run; [|intros; apply esim_ret].
  unfold apply_host_event_mutations. destruct ms; [|apply psim_raise]. apply psim_adv; auto with vm.
Qed.

Lemma esim_load d (k1 k2 : MastNodeId -> MastForest -> X) :
  (forall i f, esim (k1 i f) (k2 i f)) ->
  esim (load_mast_forest_sync d k1) (load_mast_forest_sync d k2).
Proof.
  intros Hk s t Hst. unfold load_mast_forest_sync. rewrite (sr_host _ _ Hst).
  destruct (get_mast_forest (host t) d) as [[f|] h]; [|constructor].
  eapply (esim_set_host h); [|exact Hst]. apply esim_lift. intros [i|]; [|apply esim_err].
  eapply esim_run; [apply psim_adv; auto with vm|]. intros _ _. apply Hk.
Qed.

Lemma esim_external_loaded i f id : same (finish_load_mast_forest_from_external i f id).
Proof.
  intros s t Hst. unfold finish_load_mast_forest_from_external. rewrite <-(sr_forest _ _ Hst).
  destruct (nodes (current_forest s) !! id) as [[[] d]|]; try constructor. revert Hst.
  generalize (current_forest s). intros g. revert s t.
  match goal with |- forall s t, _ -> xsim (?m1 s) (?m2 t) => change (esim m1 m2) end.
  esim_auto.
Qed.

Lemma esim_handle_break stopper b : same (handle_break stopper b).
Proof.
  destruct b; cbn [handle_break].
  - apply esim_then; [apply esim_op_emit|]. unfold finish_emit_op_execution. esim_auto.
  - apply esim_load. intros i f. unfold finish_load_mast_forest_from_dyn_start.
    apply (esim_forest (fun g => xpush (EnterForest g) _) (fun g => xpush (EnterForest g) _)).
    intros g. do 2 apply esim_push. intros s t []. apply esim_finalize. by split.
  - apply esim_load. intros i f. apply esim_external_loaded.
Qed.

Lemma esim_round stopper kernel c : same (round stopper kernel c).
Proof.
  intros s t Hst. unfold round. pose proof (esim_continuation stopper kernel c s t Hst) as H.
  inversion H; subst; try by constructor. by apply esim_handle_break.
Qed.

(** Results of whole executions. *)
Inductive fsim : option (flow (St := Fast.stack)) -> option (flow (St := list felt)) -> Prop :=
  | fsim_Done o s t : state_rel s t -> fsim (Some (FDone o s)) (Some (FDone o t))
  | fsim_Err e : fsim (Some (FErr e)) (Some (FErr e))
  | fsim_limit r : fsim (Some (FErr stack_overflow)) r
  | fsim_Stopped c s t : state_rel s t -> fsim (Some (FStopped c s)) (Some (FStopped c t))
  | fsim_Panic : fsim (Some FPanic) (Some FPanic)
  | fsim_fuel : fsim None None.

Lemma stack_outputs_rel s t : state_rel s t ->
  fsim (Some (stack_outputs_of s)) (Some (stack_outputs_of t)).
Proof.
  intros Hst. unfold stack_outputs_of. cbn [st_elements Fast.fast_interface Ideal.ideal_interface].
  rewrite (elements_rel _ _ (pr_stack _ _ (sr_processor _ _ Hst))).
  destruct (_ <? _)%nat; by constructor.
Qed.

Lemma execute_impl_rel n stopper kernel s t : state_rel s t ->
  fsim (execute_impl n stopper kernel s) (execute_impl n stopper kernel t).
Proof.
  revert s t. induction n as [|n IH]; intros s t Hst; cbn [execute_impl];
    rewrite <-(sr_continuations _ _ Hst);
    (destruct (continuation_stack s) as [|c cs]; [by apply stack_outputs_rel|]); [constructor|].
  assert (state_rel (mkEState (processor s) cs (current_forest s) (host s))
                    (mkEState (processor t) cs (current_forest t) (host t))) as Hst'.
  { destruct Hst. by split. }
  pose proof (esim_round stopper kernel c _ _ Hst') as H.
  inversion H; subst; try by constructor. by apply IH.
Qed.

Lemma new_with_options_rel s l a o : stack_rel s l ->
  proc_rel (new_with_options s a o) (new_with_options l a o).
Proof. intros Hs. by split. Qed.

(** [execute_sync] on related processors. *)
Lemma execute_sync_rel n p q program h : proc_rel p q ->
  execute_sync n p program h = Some (Err stack_overflow) \/
  match execute_sync n p program h, execute_sync n q program h with
  | Some (Ok (o1, p')), Some (Ok (o2, q')) => o1 = o2 /\ proc_rel p' q'
  | Some (Err e1), Some (Err e2) => e1 = e2
  | Some Panic, Some Panic | None, None => True
  | _, _ => False
  end.
Proof.
  intros Hpq. unfold execute_sync, get_initial_resume_context. rewrite (pr_advice _ _ Hpq).
  destruct (extend_map _ _) as [a| |]; [|by right..].
  assert (state_rel (mkEState (with_advice a p) (new_continuation_stack program) (mast_forest program) h)
    (mkEState (with_advice a q) (new_continuation_stack program) (mast_forest program) h)) as Hst.
  { split; try done. by apply with_advice_rel. }
  pose proof (execute_impl_rel n NeverStopper (kernel program) _ _ Hst) as H.
  inversion H as [o s t Hs| | | | |]; subst; cbn; try (by right); [|by left].
  right. split; [done|]. apply Hs.
Qed.
End Handlers.
