(* ===== verification/OpSpecs.v ===== *)
(** * What the operations compute

    The operations on the ideal stack, given by the stack they leave.  [runs l op l']
    says that [op] takes the operand stack [l] to [l'] and leaves the rest of the
    processor as it is; the equations of this file are the ones the compiled
    instruction sequences of the assembler are run with.  With the refinement theorem they
    transfer to the buffer processor. *)

From S2P Require Import Prelude Bits Field Types Operations OperandStack Memory Advice Ace Processor.
From Stdlib Require Import Ring.
Import Op.
#[local] Open Scope Z_scope.

Abbreviation pad_to := Ideal.pad_to.
Arguments Ideal.pad_to : simpl never.
Arguments split_element : simpl never.
Arguments invalid_u32s : simpl never.

(** ** Zero padding *)
Section Pad.
Context {F : Felt}.

Lemma pad_to_cons n x (l : list felt) : pad_to (S n) (x :: l) = x :: pad_to n l.
Proof. reflexivity. Qed.

Lemma pad_to_long n (l : list felt) : (n <= length l)%nat -> pad_to n l = l.
Proof. intros. unfold Ideal.pad_to. replace (n - length l)%nat with 0%nat by lia. apply app_nil_r. Qed.

Lemma length_pad_to n (l : list felt) : length (pad_to n l) = Nat.max n (length l).
Proof. unfold Ideal.pad_to. rewrite length_app, length_replicate. lia. Qed.

Lemma take_pad_to n (l : list felt) : take (length l) (pad_to n l) = l.
Proof. unfold pad_to. rewrite take_app_le by lia. apply firstn_all. Qed.

Lemma pad_to_pad_to n m (l : list felt) : (m <= n)%nat -> pad_to n (pad_to m l) = pad_to n l.
Proof.
  intros. unfold Ideal.pad_to. rewrite <-app_assoc. f_equal.
  rewrite length_app, length_replicate, <-replicate_add. f_equal. lia.
Qed.

Lemma pad_to_pad_to_ge n m (l : list felt) : (n <= m)%nat -> pad_to n (pad_to m l) = pad_to m l.
Proof. intros. apply pad_to_long. rewrite length_pad_to. lia. Qed.

(** The stack below a popped element. *)
Lemma pad_to_stack (l : list felt) : (16 <= length l)%nat -> pad_to 16 l = l.
Proof. apply pad_to_long. Qed.
End Pad.

(** Evaluate a handler on a stack whose top is known. *)
Ltac eval_op :=
  cbn [execute_op];
  cbv [op_cswap op_and op_or op_not op_inv op_assert pop2_applyfn_push_op op_expacc op_ext2mul
       op_u32split op_u32add op_u32add3 op_u32sub op_u32mul op_u32madd op_u32div op_u32and
       op_u32xor op_u32assert2 require_u32_operands2 require_u32_operands3 op_err
       mbind M_bind mret M_ret outcome_bind outcome_ret lift raise get set swap decrement_size
       push get_word on_stack with_stack];
  cbn.

(** ** Extension-field elements *)
Section QuadOn.
Context {F : Felt} {Q : Quad}.

(** An extension-field element on the stack, low coefficient first. *)
Definition quad_on (x : QuadFelt) (l : list felt) : list felt := coef0 x :: coef1 x :: l.

End QuadOn.

(** ** Straight-line runs *)
Section Runs.
Context {F : Felt} {Q : Quad} {C : Crypto}.

Abbreviation iproc := (Proc (list felt)).

(** [op] is a function of the operand stack alone. *)
Definition runs (l : list felt) (op : Operation) (l' : list felt) : Prop :=
  forall q : iproc, exists h, execute_op op (with_stack l q) = Ok (h, with_stack l' q).

Definition execs (l : list felt) (ops : list Operation) (l' : list felt) : Prop :=
  forall q : iproc, execute_ops ops (with_stack l q) = Ok ((), with_stack l' q).

Definition fails (l : list felt) (ops : list Operation) (e : ExecutionError) : Prop :=
  forall q : iproc, execute_ops ops (with_stack l q) = Err e.

Lemma execs_nil l : execs l [] l.
Proof. intros q. reflexivity. Qed.

Lemma execs_cons l op l1 ops l2 : runs l op l1 -> execs l1 ops l2 -> execs l (op :: ops) l2.
Proof.
  intros H1 H2 q. destruct (H1 q) as [h Hq]. cbn [execute_ops].
  unfold mbind, M_bind. rewrite Hq. simpl. apply H2.
Qed.

Lemma execute_ops_app (ops1 ops2 : list Operation) (p : iproc) :
  execute_ops (ops1 ++ ops2) p = ('(_, p') ← execute_ops ops1 p; execute_ops ops2 p').
Proof.
  revert p. induction ops1 as [|op ops1 IH]; intros p; [done|].
  cbn [app execute_ops]. unfold mbind, M_bind.
  destruct (execute_op op p) as [[h p']| |]; simpl; [|done|done]. apply IH.
Qed.

Lemma execs_app l ops1 l1 ops2 l2 : execs l ops1 l1 -> execs l1 ops2 l2 -> execs l (ops1 ++ ops2) l2.
Proof. intros H1 H2 q. rewrite execute_ops_app, (H1 q). apply H2. Qed.

Lemma execs_eq l ops l1 l2 : execs l ops l1 -> l1 = l2 -> execs l ops l2.
Proof. by intros ? <-. Qed.

Lemma fails_cons l op l1 ops e : runs l op l1 -> fails l1 ops e -> fails l (op :: ops) e.
Proof.
  intros H1 H2 q. destruct (H1 q) as [h Hq]. cbn [execute_ops].
  unfold mbind, M_bind. rewrite Hq. simpl. apply H2.
Qed.

Lemma fails_app l ops1 l1 ops2 e : execs l ops1 l1 -> fails l1 ops2 e -> fails l (ops1 ++ ops2) e.
Proof. intros H1 H2 q. rewrite execute_ops_app, (H1 q). apply H2. Qed.

Lemma fails_prefix l ops1 ops2 e : fails l ops1 e -> fails l (ops1 ++ ops2) e.
Proof. intros H q. by rewrite execute_ops_app, (H q). Qed.

Lemma fails_now l op ops e :
  (forall q : iproc, execute_op op (with_stack l q) = Err e) -> fails l (op :: ops) e.
Proof. intros H q. cbn [execute_ops]. unfold mbind, M_bind. by rewrite (H q). Qed.

(** [ops] ends in some error, never in a result. *)
Definition rejects (l : list felt) (ops : list Operation) : Prop :=
  forall q : iproc, exists e, execute_ops ops (with_stack l q) = Err e.

Lemma fails_rejects l ops e : fails l ops e -> rejects l ops.
Proof. intros H q. by exists e. Qed.

Lemma rejects_cons l op l1 ops : runs l op l1 -> rejects l1 ops -> rejects l (op :: ops).
Proof. intros H1 H2 q. destruct (H2 q) as [e He]. exists e. destruct (H1 q) as [h Hq].
  cbn [execute_ops]. unfold mbind, M_bind. rewrite Hq. exact He.
Qed.

Lemma rejects_app l ops1 l1 ops2 : execs l ops1 l1 -> rejects l1 ops2 -> rejects l (ops1 ++ ops2).
Proof. intros H1 H2 q. destruct (H2 q) as [e He]. exists e. by rewrite execute_ops_app, (H1 q). Qed.

Lemma rejects_prefix l ops1 ops2 : rejects l ops1 -> rejects l (ops1 ++ ops2).
Proof. intros H q. destruct (H q) as [e He]. exists e. by rewrite execute_ops_app, He. Qed.

(** *** Stack manipulation *)

Lemma run_noop l : runs l Noop l. Proof. intros q. by eexists. Qed.
Lemma run_push v l : runs l (Push v) (v :: l). Proof. intros q. by eexists. Qed.
Lemma run_pad l : runs l Pad (ZERO :: l). Proof. intros q. by eexists. Qed.
Lemma run_drop a l : runs (a :: l) Drop (pad_to 16 l). Proof. intros q. by eexists. Qed.
Lemma run_dup0 a l : runs (a :: l) Dup0 (a :: a :: l). Proof. intros q. by eexists. Qed.
Lemma run_dup1 a b l : runs (a :: b :: l) Dup1 (b :: a :: b :: l). Proof. intros q. by eexists. Qed.
Lemma run_dup2 a b c l : runs (a :: b :: c :: l) Dup2 (c :: a :: b :: c :: l).
Proof. intros q. by eexists. Qed.
Lemma run_dup3 a b c d l : runs (a :: b :: c :: d :: l) Dup3 (d :: a :: b :: c :: d :: l).
Proof. intros q. by eexists. Qed.
Lemma run_dup4 a b c d e l : runs (a :: b :: c :: d :: e :: l) Dup4 (e :: a :: b :: c :: d :: e :: l).
Proof. intros q. by eexists. Qed.
Lemma run_dup5 a b c d e f l :
  runs (a :: b :: c :: d :: e :: f :: l) Dup5 (f :: a :: b :: c :: d :: e :: f :: l).
Proof. intros q. by eexists. Qed.
Lemma run_dup6 a b c d e f g l :
  runs (a :: b :: c :: d :: e :: f :: g :: l) Dup6 (g :: a :: b :: c :: d :: e :: f :: g :: l).
Proof. intros q. by eexists. Qed.
Lemma run_dup7 a b c d e f g h l :
  runs (a :: b :: c :: d :: e :: f :: g :: h :: l) Dup7 (h :: a :: b :: c :: d :: e :: f :: g :: h :: l).
Proof. intros q. by eexists. Qed.
Lemma run_swap a b l : runs (a :: b :: l) Swap (b :: a :: l). Proof. intros q. by eexists. Qed.
Lemma run_movup2 a b c l : runs (a :: b :: c :: l) MovUp2 (c :: a :: b :: l).
Proof. intros q. by eexists. Qed.
Lemma run_movup3 a b c d l : runs (a :: b :: c :: d :: l) MovUp3 (d :: a :: b :: c :: l).
Proof. intros q. by eexists. Qed.
Lemma run_movup4 a b c d e l : runs (a :: b :: c :: d :: e :: l) MovUp4 (e :: a :: b :: c :: d :: l).
Proof. intros q. by eexists. Qed.
Lemma run_movdn2 a b c l : runs (a :: b :: c :: l) MovDn2 (b :: c :: a :: l).
Proof. intros q. by eexists. Qed.
Lemma run_movdn3 a b c d l : runs (a :: b :: c :: d :: l) MovDn3 (b :: c :: d :: a :: l).
Proof. intros q. by eexists. Qed.

Lemma run_cswap_0 a b l : runs (ZERO :: a :: b :: l) CSwap (a :: b :: pad_to 14 l).
Proof. intros q. eexists. eval_op. rewrite canonical_ZERO. reflexivity. Qed.
Lemma run_cswap_1 a b l : runs (ONE :: a :: b :: l) CSwap (b :: a :: pad_to 14 l).
Proof. intros q. eexists. eval_op. rewrite canonical_ONE. reflexivity. Qed.

(** *** Field operations *)

Definition bit (b : bool) : felt := if b then ONE else ZERO.

Lemma run_add b a l : runs (b :: a :: l) Add ((a + b)%F :: pad_to 15 l). Proof. intros q. by eexists. Qed.
Lemma run_mul b a l : runs (b :: a :: l) Mul ((a * b)%F :: pad_to 15 l). Proof. intros q. by eexists. Qed.
Lemma run_neg a l : runs (a :: l) Neg ((- a)%F :: l). Proof. intros q. by eexists. Qed.
Lemma run_incr a l : runs (a :: l) Incr ((a + ONE)%F :: l). Proof. intros q. by eexists. Qed.
Lemma run_eq b a l : runs (b :: a :: l) Eq (bit (bool_decide (a = b)) :: pad_to 15 l).
Proof. intros q. by eexists. Qed.
Lemma run_eqz a l : runs (a :: l) Eqz (bit (bool_decide (a = ZERO)) :: l).
Proof. intros q. by eexists. Qed.

Lemma bit_ONE b : bool_decide (bit b = ONE) = b.
Proof. pose proof ONE_neq_ZERO. by destruct b; case_bool_decide. Qed.

Lemma bit_ZERO b : bool_decide (bit b = ZERO) = negb b.
Proof. pose proof ONE_neq_ZERO. by destruct b; case_bool_decide. Qed.

Lemma assert_binary_bit b : assert_binary (bit b) = Ok ().
Proof. unfold assert_binary. rewrite !bool_decide_not, bit_ONE, bit_ZERO. by destruct b. Qed.

Lemma run_and x y l : runs (bit y :: bit x :: l) And (bit (x && y) :: pad_to 15 l).
Proof.
  intros q. eexists. eval_op.
  rewrite !assert_binary_bit. cbn. rewrite !bit_ONE. by destruct x, y.
Qed.

Lemma run_or x y l : runs (bit y :: bit x :: l) Or (bit (x || y) :: pad_to 15 l).
Proof.
  intros q. eexists. eval_op.
  rewrite !assert_binary_bit. cbn. rewrite !bit_ONE. by destruct x, y.
Qed.

Lemma run_not x l : runs (bit x :: l) Not (bit (negb x) :: l).
Proof.
  intros q. eexists. eval_op. rewrite bit_ZERO, bit_ONE. by destruct x.
Qed.

Lemma run_inv a l : a <> ZERO -> runs (a :: l) Inv (inverse a :: l).
Proof.
  intros Ha q. eexists. eval_op. rewrite bool_decide_false by done. reflexivity.
Qed.

(** *** Assertions *)

Lemma run_assert e l : runs (ONE :: l) (Assert e) (pad_to 16 l).
Proof.
  intros q. eexists. eval_op. rewrite bool_decide_false by (intros H; by apply H).
  reflexivity.
Qed.

Lemma fail_assert a e l ops : a <> ONE ->
  fails (a :: l) (Assert e :: ops) (OperationErr (FailedAssertion e)).
Proof.
  intros Ha. apply fails_now. intros q. eval_op.
  by rewrite bool_decide_true by done.
Qed.

(** An assertion that is executed successfully holds. *)
Lemma assert_inv a e l (q : iproc) ops r :
  execute_ops (Assert e :: ops) (with_stack (a :: l) q) = Ok r ->
  a = ONE /\ execute_ops ops (with_stack (pad_to 16 l) q) = Ok r.
Proof.
  destruct (decide (a = ONE)) as [->|Ha].
  - intros H. split; [done|]. rewrite <-H. destruct (run_assert e l q) as [h Hq].
    cbn [execute_ops]. unfold mbind, M_bind. by rewrite Hq.
  - intros H. by rewrite (fail_assert a e l ops Ha q) in H.
Qed.
End Runs.

(** ** 32-bit operations *)

(** The field element of an integer. *)
Abbreviation fe := new_unchecked.

Section U32.
Context {F : Felt} {Q : Quad} {C : Crypto}.

Lemma fe_canonical z : 0 <= z < modulus -> ⟦fe z⟧ = z.
Proof. apply canonical_new. Qed.

Lemma fe_u32 z : u32 z -> ⟦fe z⟧ = z.
Proof. unfold u32. intros. apply canonical_new. unfold modulus. lia. Qed.

Lemma fe_inj x y : 0 <= x < modulus -> 0 <= y < modulus -> fe x = fe y <-> x = y.
Proof.
  intros Hx Hy. split; [|by intros ->]. intros H.
  by rewrite <-(fe_canonical x Hx), <-(fe_canonical y Hy), H.
Qed.

Lemma fe_0 : fe 0 = ZERO.
Proof. apply canonical_inj. rewrite canonical_new, canonical_ZERO by (unfold modulus; lia). done. Qed.
Lemma fe_1 : fe 1 = ONE.
Proof. apply canonical_inj. rewrite canonical_new, canonical_ONE by (unfold modulus; lia). done. Qed.

(** Field operations on integers that stay below the order. *)
Lemma fe_add x y : 0 <= x -> 0 <= y -> x + y < modulus -> (fe x + fe y)%F = fe (x + y).
Proof.
  intros. apply canonical_inj. rewrite canonical_add_small; rewrite ?fe_canonical; lia.
Qed.
Lemma fe_mul x y : 0 <= x < modulus -> 0 <= y < modulus -> x * y < modulus ->
  (fe x * fe y)%F = fe (x * y).
Proof.
  intros. apply canonical_inj. rewrite canonical_mul_small; rewrite ?fe_canonical; nia.
Qed.
Lemma fe_sub x y : 0 <= y <= x -> x < modulus -> (fe x + - fe y)%F = fe (x - y).
Proof.
  intros. apply canonical_inj. rewrite canonical_add, canonical_neg, !fe_canonical by lia.
  rewrite Z.add_mod_idemp_r by done. rewrite Z.mod_small; lia.
Qed.

Lemma invalid_u32s_nil vs : Forall (fun v => ⟦v⟧ < 2 ^ 32) vs -> invalid_u32s vs = [].
Proof.
  unfold invalid_u32s. induction 1 as [|v vs Hv _ IH]; [done|]. cbn [List.filter] in *.
  unfold U32_MAX in *. rewrite (proj2 (Z.ltb_ge _ _)) by lia. exact IH.
Qed.

Lemma invalid_u32s_spec vs : invalid_u32s vs <> [] <-> Exists (fun v => 2 ^ 32 <= ⟦v⟧) vs.
Proof.
  unfold invalid_u32s. induction vs as [|v vs IH]; cbn [List.filter] in *.
  - split; [done|]. intros H. inversion H.
  - unfold U32_MAX in *. rewrite Exists_cons, <-IH. destruct (Z.ltb_spec (2 ^ 32 - 1) ⟦v⟧).
    + split; [|done]. intros _. left. lia.
    + split; [by right|]. intros [?|?]; [lia|done].
Qed.

Lemma split_element_fe z : 0 <= z < modulus -> split_element (fe z) = (fe (z / 2 ^ 32), fe (z mod 2 ^ 32)).
Proof. intros. unfold split_element. by rewrite fe_canonical, Z.shiftr_div_pow2. Qed.

Ltac u32_operands :=
  rewrite invalid_u32s_nil
    by (repeat constructor; rewrite fe_u32 by done; match goal with H : u32 _ |- _ => apply H end).

Lemma run_u32split z l : 0 <= z < modulus ->
  runs (fe z :: l) U32split (fe (z mod 2 ^ 32) :: fe (z / 2 ^ 32) :: l).
Proof. intros Hz q. eexists. eval_op. rewrite split_element_fe by done. reflexivity. Qed.

Lemma run_u32add x y l : u32 x -> u32 y ->
  runs (fe x :: fe y :: l) U32add (fe ((x + y) mod 2 ^ 32) :: fe ((x + y) / 2 ^ 32) :: l).
Proof.
  intros Hx Hy q. eexists. eval_op. u32_operands.
  rewrite !fe_u32, split_element_fe by (unfold u32, modulus in *; lia). reflexivity.
Qed.

Lemma run_u32add3 x y z l : u32 x -> u32 y -> u32 z ->
  runs (fe x :: fe y :: fe z :: l) U32add3
    (fe ((x + y + z) mod 2 ^ 32) :: fe ((x + y + z) / 2 ^ 32) :: pad_to 14 l).
Proof.
  intros Hx Hy Hz q. eexists. eval_op. u32_operands.
  rewrite !fe_u32, split_element_fe by (unfold u32, modulus in *; lia). reflexivity.
Qed.

Lemma u32_mul_bound x y : u32 x -> u32 y -> 0 <= x * y <= 18446744065119617025.
Proof. unfold u32. nia. Qed.

Lemma run_u32mul x y l : u32 x -> u32 y ->
  runs (fe x :: fe y :: l) U32mul (fe ((x * y) mod 2 ^ 32) :: fe ((x * y) / 2 ^ 32) :: l).
Proof.
  intros Hx Hy q. eexists. eval_op. u32_operands. pose proof (u32_mul_bound x y Hx Hy).
  rewrite !fe_u32, split_element_fe by (unfold modulus; done || lia). reflexivity.
Qed.

Lemma run_u32madd x y z l : u32 x -> u32 y -> u32 z ->
  runs (fe x :: fe y :: fe z :: l) U32madd
    (fe ((x * y + z) mod 2 ^ 32) :: fe ((x * y + z) / 2 ^ 32) :: pad_to 14 l).
Proof.
  intros Hx Hy Hz q. eexists. eval_op. u32_operands. pose proof (u32_mul_bound x y Hx Hy).
  rewrite !fe_u32, split_element_fe by (unfold modulus, u32 in *; done || lia). reflexivity.
Qed.

(** The wrapping 64-bit subtraction: its sign bit and its low half. *)
Lemma wrapping_sub_u32 x y : u32 x -> u32 y ->
  Z.shiftr ((x - y) mod 2 ^ 64) 63 = (if x <? y then 1 else 0) /\
  Z.land ((x - y) mod 2 ^ 64) U32_MAX = (x - y) mod 2 ^ 32.
Proof.
  intros Hx Hy. rewrite Z.shiftr_div_pow2 by done.
  change U32_MAX with (Z.ones 32). rewrite Z.land_ones by done.
  unfold u32 in *. change (2 ^ 64) with 18446744073709551616. change (2 ^ 63) with 9223372036854775808.
  change (2 ^ 32) with 4294967296 in *. destruct (Z.ltb_spec x y); split; zlia.
Qed.

Lemma run_u32sub y x l : u32 x -> u32 y ->
  runs (fe y :: fe x :: l) U32sub (bit (x <? y) :: fe ((x - y) mod 2 ^ 32) :: l).
Proof.
  intros Hx Hy q. eexists. eval_op. u32_operands. rewrite !fe_u32 by done.
  destruct (wrapping_sub_u32 x y Hx Hy) as [-> ->].
  destruct (x <? y); cbn; rewrite ?fe_0, ?fe_1; reflexivity.
Qed.

Lemma run_u32div y x l : u32 x -> u32 y -> y <> 0 ->
  runs (fe y :: fe x :: l) U32div (fe (x mod y) :: fe (x / y) :: l).
Proof.
  intros Hx Hy Hne q. eexists. eval_op. u32_operands. rewrite !fe_u32 by done.
  rewrite (proj2 (Z.eqb_neq _ _)) by done.
  replace (x - x / y * y) with (x mod y) by (rewrite Z.mod_eq by done; lia). reflexivity.
Qed.

Lemma fail_u32div_zero x l ops : u32 x ->
  fails (ZERO :: fe x :: l) (U32div :: ops) (OperationErr DivideByZero).
Proof.
  intros Hx. rewrite <-fe_0. apply fails_now. intros q. eval_op. 
  assert (u32 0) by (unfold u32; lia). u32_operands. rewrite !fe_u32 by done. reflexivity.
Qed.

Lemma run_u32and x y l : u32 x -> u32 y ->
  runs (fe x :: fe y :: l) U32and (fe (Z.land x y) :: pad_to 15 l).
Proof. intros Hx Hy q. eexists. eval_op. u32_operands. rewrite !fe_u32 by done. reflexivity. Qed.

Lemma run_u32xor x y l : u32 x -> u32 y ->
  runs (fe x :: fe y :: l) U32xor (fe (Z.lxor x y) :: pad_to 15 l).
Proof. intros Hx Hy q. eexists. eval_op. u32_operands. rewrite !fe_u32 by done. reflexivity. Qed.

(** The two-operand operations reject operands that are not 32-bit. *)
Definition u32_binary (op : Operation) : bool :=
  match op with U32add | U32sub | U32mul | U32div | U32and | U32xor => true | _ => false end.

Lemma fail_u32_operands op a b l ops : u32_binary op = true -> invalid_u32s [a; b] <> [] ->
  fails (a :: b :: l) (op :: ops) (OperationErr (NotU32Values (invalid_u32s [a; b]))).
Proof.
  intros Hop Hinv. apply fails_now. intros q.
  destruct (invalid_u32s [a; b]) as [|v vs] eqn:E; [done|].
  destruct op; try discriminate Hop; eval_op; rewrite E; reflexivity.
Qed.

Lemma run_u32assert2 x y e l : u32 x -> u32 y ->
  runs (fe x :: fe y :: l) (U32assert2 e) (fe x :: fe y :: l).
Proof. intros Hx Hy q. eexists. eval_op. u32_operands. reflexivity. Qed.
End U32.

(** ** Exponentiation and extension-field steps *)
Section Steps.
Context {F : Felt} {Q : Quad} {C : Crypto}.

Add Ring felt_ring_steps : felt_ring_theory.

Fixpoint felt_pow (b : felt) (n : nat) : felt :=
  match n with
  | O => ONE
  | S n => (b * felt_pow b n)%F
  end.

Lemma run_expacc z b acc e l : 0 <= e < modulus ->
  runs (z :: b :: acc :: fe e :: l) Expacc
    (bit (Z.odd e) :: (b * b)%F :: (acc * (if Z.odd e then b else ONE))%F :: fe (e / 2) :: l).
Proof.
  intros He q. exists (HExpacc (if Z.odd e then b else ONE)). eval_op. rewrite !fe_canonical by done.
  rewrite (Z.land_ones e 1 ltac:(done) : Z.land e 1 = e mod 2), Z.shiftr_div_pow2 by done.
  change (2 ^ 1) with 2. rewrite Zmod_odd. destruct (Z.odd e); cbn; rewrite ?fe_0, ?fe_1; reflexivity.
Qed.

Lemma run_ext2mul b0 b1 a0 a1 l :
  runs (b0 :: b1 :: a0 :: a1 :: l) Ext2Mul
    (b0 :: b1 :: coef0 (quad_mul (quad_new a0 a1) (quad_new b0 b1)) ::
     coef1 (quad_mul (quad_new a0 a1) (quad_new b0 b1)) :: l).
Proof.
  intros q. eexists. rewrite quad_mul_new, !coef0_new, !coef1_new.
  replace (a0 * b1 + a1 * b0)%F with ((b0 + b1) * (a1 + a0) - b0 * a0 - b1 * a1)%F by ring.
  replace (a0 * b0 + fe 7 * (a1 * b1))%F with (b0 * a0 + fe 7 * (b1 * a1))%F by ring.
  eval_op. reflexivity.
Qed.
End Steps.
