(* ===== verification/CryptoOps.v ===== *)
(** * What the proof-system operations compute

    The operations of [crypto_ops/mod.rs] and [fri_ops/mod.rs] that a recursive
    verifier relies on, against their mathematical meaning: the FRI step folds four evaluations into
    the value of the interpolating cubic, the Horner steps evaluate eight (or four)
    more coefficients of a polynomial, Merkle operations accept exactly the paths
    that compute the root, and the stream cipher adds the rate to the plaintext. *)

From S2P Require Import Prelude Field Types Operations OperandStack Memory Advice Processor OpSpecs.
From Stdlib Require Import Ring.
Import Op.
#[local] Open Scope Z_scope.

(** ** FRI folding *)
Section Fri.
Context {F : Felt} {Q : Quad} {C : Crypto}.

Add Ring felt_ring_fri : felt_ring_theory.
Add Ring quad_ring_fri : quad_ring_theory.

(** A cubic polynomial over the extension field. *)
Definition cubic (c0 c1 c2 c3 x : QuadFelt) : QuadFelt :=
  quad_add c0 (quad_mul x (quad_add c1 (quad_mul x (quad_add c2 (quad_mul x c3))))).

(** [TAU_INV] is the inverse of a fourth root of unity. *)
Definition TAU : felt := inverse TAU_INV.

Lemma TWO_INV_two : (TWO_INV + TWO_INV)%F = ONE.
Proof. apply canonical_inj. unfold TWO_INV. rewrite canonical_add, !canonical_new, canonical_ONE; done. Qed.

Lemma TAU_INV_square : (TAU_INV * TAU_INV)%F = TAU2_INV.
Proof. apply canonical_inj. unfold TAU_INV, TAU2_INV. rewrite canonical_mul, !canonical_new; done. Qed.

Lemma TAU_INV_cube : (TAU_INV * TAU2_INV)%F = TAU3_INV.
Proof. apply canonical_inj. unfold TAU_INV, TAU2_INV, TAU3_INV. rewrite canonical_mul, !canonical_new; done. Qed.

Lemma TAU2_INV_neg : TAU2_INV = (- ONE)%F.
Proof. apply canonical_inj. unfold TAU2_INV. rewrite canonical_neg, canonical_new, canonical_ONE; done. Qed.

Lemma TAU_INV_nonzero : TAU_INV <> ZERO.
Proof. rewrite felt_eq_iff. unfold TAU_INV. rewrite canonical_new, canonical_ZERO; done. Qed.

(** [fold2] of the values of [e + x o] at [x] and [-x] is [e + x' o] when [ep = x' / x]. *)
Lemma fold2_ok e o x ep : fold2 (quad_add e (quad_mul x o)) (quad_sub e (quad_mul x o)) ep =
  quad_add e (quad_mul (quad_mul ep x) o).
Proof.
  unfold fold2. rewrite quad_scale_from. set (h := quad_from TWO_INV).
  assert (quad_add h h = quad_new ONE ZERO) as Hh.
  { unfold h. rewrite quad_from_new, quad_add_new, !coef0_new, !coef1_new, TWO_INV_two. f_equal. ring. }
  transitivity (quad_mul (quad_add h h) (quad_add e (quad_mul (quad_mul ep x) o))); [ring|].
  rewrite Hh. ring.
Qed.

Lemma quad_from_ONE : quad_from ONE = quad_new ONE ZERO.
Proof. apply quad_from_new. Qed.

Lemma scale_back a x : x <> ZERO -> quad_mul (quad_scale a (inverse x)) (quad_from x) = a.
Proof.
  intros Hx. rewrite quad_scale_from. transitivity (quad_mul a (quad_mul (quad_from (inverse x)) (quad_from x))); [ring|].
  rewrite <-quad_from_mul, inverse_mul, quad_from_ONE by done. ring.
Qed.

Lemma TAU_square : quad_mul (quad_from TAU) (quad_from TAU) = quad_neg (quad_new ONE ZERO).
Proof.
  rewrite <-quad_from_mul, <-quad_from_ONE, <-quad_from_neg. f_equal. unfold TAU.
  transitivity (inverse (TAU_INV * TAU_INV))%F.
  - apply felt_inverse_unique.
    transitivity ((inverse TAU_INV * TAU_INV) * (inverse TAU_INV * TAU_INV))%F; [ring|].
    rewrite inverse_mul by apply TAU_INV_nonzero. ring.
  - rewrite TAU_INV_square, TAU2_INV_neg. symmetry. apply felt_inverse_unique. ring.
Qed.

(** The four values of a cubic on the coset [x, tau x, -x, -tau x] fold to its value at [alpha]. *)
Lemma fold4_ok c0 c1 c2 c3 alpha x : x <> ZERO ->
  let f := cubic c0 c1 c2 c3 in
  let X := quad_from x in
  let TX := quad_mul (quad_from TAU) X in
  let '(ev, es) := compute_evaluation_points alpha (inverse x) in
  exists tmp0 tmp1, fold4 [f X; f TX; f (quad_neg X); f (quad_neg TX)] ev es = Ok (f alpha, tmp0, tmp1) /\
    tmp0 = quad_add (quad_add c0 (quad_mul alpha c1)) (quad_mul (quad_mul X X) (quad_add c2 (quad_mul alpha c3))) /\
    tmp1 = quad_sub (quad_add c0 (quad_mul alpha c1)) (quad_mul (quad_mul X X) (quad_add c2 (quad_mul alpha c3))).
Proof.
  intros Hx f X TX. unfold compute_evaluation_points. set (ev := quad_scale alpha (inverse x)).
  assert (quad_mul ev X = alpha) as Hev by by apply scale_back.
  assert (quad_mul (quad_scale ev TAU_INV) TX = alpha) as Hev1.
  { transitivity (quad_mul (quad_mul (quad_scale ev TAU_INV) (quad_from TAU)) X); [unfold TX; ring|].
    rewrite <-Hev. f_equal. rewrite quad_scale_from.
    transitivity (quad_mul ev (quad_mul (quad_from TAU) (quad_from TAU_INV))); [ring|].
    rewrite <-quad_from_mul. unfold TAU. rewrite inverse_mul, quad_from_ONE by apply TAU_INV_nonzero. ring. }
  assert (quad_mul TX TX = quad_neg (quad_mul X X)) as HTX.
  { transitivity (quad_mul (quad_mul (quad_from TAU) (quad_from TAU)) (quad_mul X X)); [unfold TX; ring|].
    rewrite TAU_square. ring. }
  assert (forall y ep, quad_mul ep y = alpha -> fold2 (f y) (f (quad_neg y)) ep =
    quad_add (quad_add c0 (quad_mul alpha c1)) (quad_mul (quad_mul y y) (quad_add c2 (quad_mul alpha c3)))) as Hfold.
  { intros y ep Hep. set (e := quad_add c0 (quad_mul (quad_mul y y) c2)). set (o := quad_add c1 (quad_mul (quad_mul y y) c3)).
    replace (f y) with (quad_add e (quad_mul y o)) by (unfold f, cubic, e, o; ring).
    replace (f (quad_neg y)) with (quad_sub e (quad_mul y o)) by (unfold f, cubic, e, o; ring).
    rewrite fold2_ok, Hep. unfold e, o. ring. }
  eexists _, _. cbn [fold4]. split_and!; [|reflexivity|reflexivity]. f_equal.
  rewrite (Hfold X ev Hev), (Hfold TX _ Hev1), HTX.
  set (P := quad_add c0 (quad_mul alpha c1)). set (R := quad_add c2 (quad_mul alpha c3)).
  assert (quad_add P (quad_mul (quad_neg (quad_mul X X)) R) = quad_sub P (quad_mul (quad_mul X X) R)) as -> by ring.
  rewrite fold2_ok. do 2 f_equal.
  transitivity (quad_add P (quad_mul (quad_mul (quad_mul ev X) (quad_mul ev X)) R)); [ring|]. rewrite Hev.
  unfold P, R, f, cubic. ring.
Qed.

(** The domain segment of a position: the four elements of the query, in the order they
    are stored, are the values at [X], [-X], [tau X] and [-tau X]. *)
Definition query (f : QuadFelt -> QuadFelt) (x : felt) (seg : Z) : QuadFelt :=
  let X := quad_from x in
  let TX := quad_mul (quad_from TAU) X in
  match seg with
  | 0 => f X
  | 1 => f (quad_neg X)
  | 2 => f TX
  | _ => f (quad_neg TX)
  end.
Definition segment_factor (seg : Z) : felt :=
  match seg with
  | 0 => ONE
  | 1 => TAU2_INV
  | 2 => TAU_INV
  | _ => TAU3_INV
  end.
Definition segment_flags (seg : Z) : list felt :=
  match seg with
  | 0 => [ONE; ZERO; ZERO; ZERO]
  | 1 => [ZERO; ZERO; ONE; ZERO]
  | 2 => [ZERO; ONE; ZERO; ZERO]
  | _ => [ZERO; ZERO; ZERO; ONE]
  end.

Abbreviation iproc := (Proc (list felt)).

#[local] Arguments compute_evaluation_points : simpl never.
#[local] Arguments fold4 : simpl never.
#[local] Arguments Z.land : simpl never.
#[local] Arguments Z.shiftr : simpl never.

Ltac index_nat :=
  change (Z.to_nat 0) with 0%nat in *; change (Z.to_nat 1) with 1%nat in *;
  change (Z.to_nat 2) with 2%nat in *; change (Z.to_nat 3) with 3%nat in *.

(** The operation, for a position in segment [seg] and a query that folds to [v]. *)
Lemma fri_ext2fold4_run q0 q1 q2 q3 prev alpha x poe p s8 ptr rest ev es v tmp0 tmp1 seg (q : iproc) :
  Z.land ⟦p⟧ 3 = seg -> (seg = 0 /\ prev = q0 \/ seg = 1 /\ prev = q1 \/ seg = 2 /\ prev = q2 \/ seg = 3 /\ prev = q3) ->
  poe <> ZERO -> x = (poe * segment_factor seg)%F ->
  compute_evaluation_points alpha (inverse x) = (ev, es) ->
  fold4 [q0; q2; q1; q3] ev es = Ok (v, tmp0, tmp1) ->
  execute_op FriE2F4 (with_stack (quad_on q0 (quad_on q1 (quad_on q2
    (quad_on q3 (s8 :: p :: poe :: quad_on prev (quad_on alpha (ptr :: rest))))))) q) =
  Ok (HFriExt2Fold4 ev es x (inverse x), with_stack (quad_on tmp0 (quad_on tmp1 (segment_flags seg ++
      (poe * poe)%F :: segment_factor seg :: (ptr + EIGHT)%F :: ((poe * poe) * (poe * poe))%F ::
      new_unchecked (Z.shiftr ⟦p⟧ 2) :: quad_on v (pad_to 1 rest)))) q).
Proof.
  intros Hseg Hprev Hpoe Hx Hpts Hf.
  unfold quad_on. cbn [execute_op]. unfold op_fri_ext2fold4, get_query_values.
  unfold mbind, M_bind, lift. cbn. rewrite !quad_eta, (bool_decide_false (poe = ZERO)), Hseg by done. cbn.
  destruct Hprev as [[-> ->]|[[-> ->]|[[-> ->]|[-> ->]]]]; cbn; cbn [segment_factor segment_flags] in *;
    index_nat; cbn;
    rewrite !quad_eta, bool_decide_false by (intros Hne; by apply Hne); cbn; rewrite <-Hx, Hpts; cbn; rewrite Hf; reflexivity.
Qed.

Lemma fri_ext2fold4_ok c0 c1 c2 c3 alpha x poe p s8 ptr rest (q : iproc) :
  let f := cubic c0 c1 c2 c3 in
  let seg := ⟦p⟧ mod 4 in
  poe <> ZERO -> x = (poe * segment_factor seg)%F ->
  exists h tmp0 tmp1,
    execute_op FriE2F4 (with_stack (quad_on (query f x 0) (quad_on (query f x 1) (quad_on (query f x 2)
      (quad_on (query f x 3) (s8 :: p :: poe :: quad_on (query f x seg) (quad_on alpha (ptr :: rest))))))) q) =
    Ok (h, with_stack (quad_on tmp0 (quad_on tmp1 (segment_flags seg ++
      (poe * poe)%F :: segment_factor seg :: (ptr + EIGHT)%F :: ((poe * poe) * (poe * poe))%F ::
      new_unchecked (⟦p⟧ / 4) :: quad_on (f alpha) (pad_to 1 rest)))) q).
Proof.
  intros f seg Hpoe Hx.
  assert (x <> ZERO) as Hx0.
  { rewrite Hx. intros H. apply felt_mul_zero in H as [H|H]; [done|]. revert H. rewrite felt_eq_iff.
    unfold segment_factor, TAU2_INV, TAU_INV, TAU3_INV. repeat case_match;
    rewrite ?canonical_ONE, ?canonical_new, canonical_ZERO; done. }
  pose proof (fold4_ok c0 c1 c2 c3 alpha x Hx0) as Hf. cbv zeta in Hf. fold f in Hf.
  destruct (compute_evaluation_points alpha (inverse x)) as [ev es] eqn:Hpts.
  destruct Hf as (tmp0 & tmp1 & Hf & _). exists (HFriExt2Fold4 ev es x (inverse x)), tmp0, tmp1.
  rewrite <-(Z.shiftr_div_pow2 ⟦p⟧ 2 ltac:(done) : _ = ⟦p⟧ / 4).
  assert (Z.land ⟦p⟧ 3 = seg) as Hseg by (apply (Z.land_ones ⟦p⟧ 2); done).
  apply fri_ext2fold4_run; [done| |done..].
  assert (seg = 0 \/ seg = 1 \/ seg = 2 \/ seg = 3) as [->|[->|[->| ->]]] by (unfold seg; zlia); auto 8.
Qed.

(** A value inconsistent with the previous layer is rejected. *)
Lemma fri_ext2fold4_inconsistent q0 q1 q2 q3 prev alpha poe p s8 ptr rest (q : iproc) :
  poe <> ZERO -> [q0; q1; q2; q3] !! Z.to_nat (⟦p⟧ mod 4) <> Some prev ->
  execute_op FriE2F4 (with_stack (quad_on q0 (quad_on q1 (quad_on q2
    (quad_on q3 (s8 :: p :: poe :: quad_on prev (quad_on alpha (ptr :: rest))))))) q) =
  Err (OperationErr (FriError FriInconsistentProjection)).
Proof.
  intros Hpoe Hne. rewrite <-(Z.land_ones ⟦p⟧ 2 : _ -> _ = ⟦p⟧ mod 4) in Hne by done.
  change (Z.ones 2) with 3 in Hne.
  unfold quad_on. cbn [execute_op]. unfold op_fri_ext2fold4, get_query_values.
  unfold mbind, M_bind, lift. cbn. rewrite !quad_eta, (bool_decide_false (poe = ZERO)) by done. cbn.
  assert (Z.land ⟦p⟧ 3 = 0 \/ Z.land ⟦p⟧ 3 = 1 \/ Z.land ⟦p⟧ 3 = 2 \/ Z.land ⟦p⟧ 3 = 3) as Hcases.
  { rewrite (Z.land_ones ⟦p⟧ 2 : _ -> Z.land _ 3 = _) by done. zlia. }
  destruct Hcases as [E|[E|[E|E]]]; rewrite E in Hne |- *; index_nat; cbn in Hne |- *;
    rewrite !quad_eta, bool_decide_true by (intros ->; by apply Hne); reflexivity.
Qed.
End Fri.

(** ** Horner evaluation *)
Section Horner.
Context {F : Felt} {Q : Quad} {C : Crypto}.
Abbreviation iproc := (Proc (list felt)).

Add Ring quad_ring_horner : quad_ring_theory.

#[local] Arguments read_element : simpl never.
#[local] Arguments read_word : simpl never.

(** [HornerBase] absorbs eight coefficients of the base field. *)
Lemma horner_eval_base_ok c0 c1 c2 c3 c4 c5 c6 c7 s8 s9 s10 s11 s12 addr acc hs e0 e1 rest (q : iproc) :
  read_element (memory q) (ctx q) addr = Ok e0 ->
  read_element (memory q) (ctx q) (addr + ONE)%F = Ok e1 ->
  acc = eval_poly (reverse hs) (quad_new e0 e1) ->
  exists h,
    execute_op HornerBase (with_stack ([c0; c1; c2; c3; c4; c5; c6; c7; s8; s9; s10; s11; s12; addr] ++
      quad_on acc rest) q) =
    Ok (h, with_stack ([c0; c1; c2; c3; c4; c5; c6; c7; s8; s9; s10; s11; s12; addr] ++
      quad_on (eval_poly (reverse (hs ++ (quad_from <$> [c0; c1; c2; c3; c4; c5; c6; c7]))) (quad_new e0 e1)) rest) q).
Proof.
  intros H0 H1 Hacc.
  rewrite <-(horner_fold _ (quad_from <$> [c0; c1; c2; c3; c4; c5; c6; c7]) hs acc Hacc). eexists. cbn [execute_op]. unfold op_horner_eval_base, quad_on.
  unfold mbind, M_bind, lift, mem_read_element. cbn. rewrite H0. cbn. rewrite H1. cbn.
  rewrite quad_eta. reflexivity.
Qed.

(** [HornerExt] absorbs four coefficients of the extension field. *)
Lemma horner_eval_ext_ok q0 q1 q2 q3 s8 s9 s10 s11 s12 addr acc hs w rest (q : iproc) :
  read_word (memory q) (ctx q) addr = Ok w ->
  acc = eval_poly (reverse hs) (quad_new (w0 w) (w1 w)) ->
  exists h,
    execute_op HornerExt (with_stack (quad_on q0 (quad_on q1 (quad_on q2 (quad_on q3
      ([s8; s9; s10; s11; s12; addr] ++ quad_on acc rest))))) q) =
    Ok (h, with_stack (quad_on q0 (quad_on q1 (quad_on q2 (quad_on q3
      ([s8; s9; s10; s11; s12; addr] ++
        quad_on (eval_poly (reverse (hs ++ [q0; q1; q2; q3])) (quad_new (w0 w) (w1 w))) rest))))) q).
Proof.
  intros Hw Hacc. rewrite <-(horner_fold_ext _ [q0; q1; q2; q3] hs acc Hacc). eexists. cbn [execute_op]. unfold op_horner_eval_ext, get_quad, quad_on.
  unfold mbind, M_bind, lift, mem_read_word. cbn. rewrite Hw. cbn.
  rewrite !quad_eta. reflexivity.
Qed.
End Horner.

(** ** Merkle paths *)
Section Merkle.
Context {F : Felt} {Q : Quad} {C : Crypto}.
Abbreviation iproc := (Proc (list felt)).

#[local] Arguments get_merkle_path : simpl never.
#[local] Arguments update_merkle_node : simpl never.

Lemma word_eta (w : Word) : mkWord (w0 w) (w1 w) (w2 w) (w3 w) = w.
Proof. by destruct w. Qed.

Lemma path_verify_eq p i n r : path_verify p i n r = bool_decide (compute_root p i n = Some r).
Proof.
  destruct (path_verify p i n r) eqn:E; symmetry.
  - apply bool_decide_eq_true. by apply path_verify_spec.
  - apply bool_decide_eq_false. intros H%path_verify_spec. congruence.
Qed.

(** [MpVerify] accepts exactly when the path of the store computes the root, and changes nothing. *)
Lemma mpverify_eq err node depth index root rest (q : iproc) :
  let st := word_elements node ++ [depth; index] ++ word_elements root ++ rest in
  execute_op (MpVerify err) (with_stack st q) =
  match get_merkle_path (advice q) root depth index with
  | Ok p =>
    if bool_decide (compute_root p ⟦index⟧ node = Some root) then Ok (HMerklePath ZERO, with_stack st q)
    else Err (OperationErr (MerklePathVerificationFailed node index root err))
  | Err e => Err (AdviceErr e)
  | Panic => Panic
  end.
Proof.
  cbn zeta. unfold word_elements. cbn [execute_op]. unfold op_mpverify, mbind, M_bind, lift, on_advice. cbn.
  rewrite ?take_0. cbn.
  rewrite !word_eta. destruct (get_merkle_path _ _ _ _) as [p|e|]; cbn; [|done..].
  rewrite path_verify_eq. by case_bool_decide.
Qed.

(** [MrUpdate] replaces the old value by the new root only along a path of the given depth
    that computes the old root from the old value. *)
Lemma mrupdate_eq old depth index root new rest (q : iproc) :
  let below := [depth; index] ++ word_elements root ++ word_elements new ++ rest in
  let fail := Err (OperationErr (MerklePathVerificationFailed old index root ZERO)) in
  execute_op MrUpdate (with_stack (word_elements old ++ below) q) =
  match update_merkle_node (advice q) root depth index new with
  | Ok (path, _, a) =>
    if path_len path =? ⟦depth⟧ then
      if bool_decide (compute_root path ⟦index⟧ old = Some root) then
        match compute_root path ⟦index⟧ new with
        | Some new_root =>
          Ok (HMerklePath ZERO, with_stack (word_elements new_root ++ below) (with_advice a q))
        | None => fail
        end
      else fail
    else Err (OperationErr (InvalidMerklePathLength (path_len path) depth))
  | Err e => Err (AdviceErr e)
  | Panic => Panic
  end.
Proof.
  cbn zeta. unfold word_elements. cbn [execute_op]. unfold op_mrupdate, mbind, M_bind, lift, on_advice. cbn.
  rewrite ?take_0. cbn.
  rewrite !word_eta. destruct (update_merkle_node _ _ _ _ _) as [[[path sr] a]|e|]; cbn; [|done..].
  destruct (Z.eqb_spec (path_len path) ⟦depth⟧) as [Hd|]; cbn; [|done].
  rewrite path_verify_eq. case_bool_decide as Hold; [|done].
  by destruct (compute_root path ⟦index⟧ new) as [nr|].
Qed.
End Merkle.

(** ** The stream cipher *)
Section Stream.
Context {F : Felt} {Q : Quad} {C : Crypto}.
Abbreviation iproc := (Proc (list felt)).

#[local] Arguments read_word : simpl never.
#[local] Arguments write_word : simpl never.
#[local] Arguments validate_dual_word_stream_addrs : simpl never.

(** Two aligned double words that lie in memory and do not overlap. *)
Definition stream_ok (src dst : felt) : Prop :=
  ⟦src⟧ mod 4 = 0 /\ ⟦dst⟧ mod 4 = 0 /\ ⟦src⟧ + 8 <= U32_MAX /\ ⟦dst⟧ + 8 <= U32_MAX /\
  (⟦src⟧ + 8 <= ⟦dst⟧ \/ ⟦dst⟧ + 8 <= ⟦src⟧).

Lemma validate_ok src dst c k : stream_ok src dst -> validate_dual_word_stream_addrs src dst c k = Ok ().
Proof.
  intros (_ & _ & Hs & Hd & Hdis). unfold validate_dual_word_stream_addrs, guard_err.
  rewrite (proj2 (Z.leb_le ⟦src⟧ U32_MAX)), (proj2 (Z.leb_le (⟦src⟧ + 8) U32_MAX)),
    (proj2 (Z.leb_le ⟦dst⟧ U32_MAX)), (proj2 (Z.leb_le (⟦dst⟧ + 8) U32_MAX)) by lia. cbn.
  destruct (Z.ltb_spec ⟦src⟧ (⟦dst⟧ + 8)), (Z.ltb_spec ⟦dst⟧ (⟦src⟧ + 8)); cbn; try done. lia.
Qed.

Lemma next_word a : ⟦a⟧ + 8 <= U32_MAX -> ⟦(a + WORD_SIZE_FELT)%F⟧ = ⟦a⟧ + 4.
Proof.
  intros H. unfold U32_MAX in H. felt_ranges.
  assert (⟦WORD_SIZE_FELT⟧ = 4) as E by (apply canonical_new; unfold modulus; lia).
  rewrite canonical_add_small; rewrite E; [done|unfold modulus; lia].
Qed.

Lemma write_word_eq m c a w : ⟦a⟧ < 2 ^ 32 -> ⟦a⟧ mod 4 = 0 -> write_word m c a w = Ok (<[(c, ⟦a⟧) := w]> m).
Proof.
  intros Ha Hm. unfold write_word, clean_addr, enforce_word_aligned_addr.
  rewrite (proj2 (Z.ltb_lt _ _)) by done. cbn -[Z.modulo]. change (Z.of_nat WORD_SIZE) with 4.
  by rewrite Hm.
Qed.

(** The ciphertext: every element of the keystream added to the plaintext. *)
Lemma crypto_stream_ok r0 r1 s8 s9 s10 s11 src dst rest (q : iproc) : stream_ok src dst ->
  let cell := mem_cell (memory q) (ctx q) in
  let plain i := mkWord (cell (⟦src⟧ + i)) (cell (⟦src⟧ + i + 1)) (cell (⟦src⟧ + i + 2)) (cell (⟦src⟧ + i + 3)) in
  let c1 := word_add (plain 0) r0 in
  let c2 := word_add (plain 4) r1 in
  execute_op CryptoStream (with_stack (word_elements r0 ++ word_elements r1 ++ [s8; s9; s10; s11; src; dst] ++ rest) q) =
  Ok (HEmpty, with_stack (word_elements c1 ++ word_elements c2 ++
        [s8; s9; s10; s11; (src + DOUBLE_WORD_SIZE)%F; (dst + DOUBLE_WORD_SIZE)%F] ++ rest)
      (with_memory (<[(ctx q, ⟦dst⟧ + 4) := c2]> (<[(ctx q, ⟦dst⟧) := c1]> (memory q))) q)).
Proof.
  intros Hok cell plain c1 c2. pose proof (validate_ok src dst (ctx q) (clk q) Hok) as Hv.
  destruct Hok as (Hs & Hd & Hsr & Hdr & Hdis).
  assert (⟦src⟧ < 2 ^ 32 /\ ⟦dst⟧ < 2 ^ 32 /\ ⟦src⟧ + 4 < 2 ^ 32 /\ ⟦dst⟧ + 4 < 2 ^ 32) as (H1 & H2 & H3 & H4)
    by (unfold U32_MAX in *; lia).
  assert (forall a, ⟦a⟧ < 2 ^ 32 -> ⟦a⟧ mod 4 = 0 -> read_word (memory q) (ctx q) a =
    Ok (mkWord (cell ⟦a⟧) (cell (⟦a⟧ + 1)) (cell (⟦a⟧ + 2)) (cell (⟦a⟧ + 3)))) as Hread.
  { intros a Ha Hm. rewrite read_word_eq, (proj2 (Z.ltb_lt _ _)), Hm by done. done. }
  assert (forall z, z mod 4 = 0 -> (z + 4) mod 4 = 0) as Hmod by zlia.
  unfold word_elements. cbn [execute_op]. unfold op_crypto_stream, mbind, M_bind, lift, mem_read_word, mem_write_word. cbn.
  rewrite Hv. cbn. rewrite Hread by done. cbn. rewrite Hread by (rewrite ?next_word; auto). cbn.
  rewrite write_word_eq by done. cbn. rewrite write_word_eq by (rewrite ?next_word; auto). cbn.
  rewrite !next_word by done. unfold c1, c2, plain. rewrite Z.add_0_r. reflexivity.
Qed.

(** Streaming with the same keystream is undone by subtracting it. *)
Definition word_sub (a b : Word) : Word :=
  mkWord (w0 a - w0 b)%F (w1 a - w1 b)%F (w2 a - w2 b)%F (w3 a - w3 b)%F.

Add Ring felt_ring_stream : felt_ring_theory.

Lemma word_sub_add a b : word_sub (word_add a b) b = a.
Proof. destruct a, b. unfold word_sub, word_add. cbn. f_equal; ring. Qed.
End Stream.
