(* ===== verification/Air.v ===== *)
(** * Constraints over the execution trace

    [air/src/constraints/]: a valid execution trace satisfies polynomial constraints between neighbouring rows.  The code
    builds them as expressions over the columns of the current and the next row; here the expressions are a
    syntax tree and [eval] gives their value on two rows.  The builder collects assertions, each on all rows, the first, the
    last, or all but the last.

    On a row that encodes a known operation most terms vanish.  [simp] evaluates an expression partially, given the values of
    some columns; it is proved to keep the value, so that what the constraints mean for one operation can be
    computed. *)

From Stdlib Require Import Ring.
From S2P Require Import Prelude Field.
#[local] Open Scope Z_scope.

(** The columns of the main trace ([*/columns.rs]): system, decoder, stack, range checker and chiplets; and the values the builder
    supplies on each row, the periodic columns and the transition selector *)
Inductive column :=
  | ColClk | ColCtx | ColFnHash (i : nat)
  | ColAddr | ColOpBit (i : nat) | ColHasherState (i : nat) | ColInSpan | ColGroupCount | ColOpIndex | ColBatchFlag (i : nat)
  | ColExtra (i : nat)
  | ColTop (i : nat) | ColB0 | ColB1 | ColH0
  | ColRangeMultiplicity | ColRangeValue
  | ColChiplet (i : nat) | ColSPerm
  | ColPeriodic (i : nat) | ColIsTransition.

Module Air.

Inductive expr :=
  | Local (c : column)
  | Next (c : column)
  | Const (z : Z)
  | EAdd (a b : expr)
  | ESub (a b : expr)
  | EMul (a b : expr)
  | ENeg (a : expr).

Declare Scope expr_scope.
Delimit Scope expr_scope with E.
Bind Scope expr_scope with expr.
Infix "+" := EAdd : expr_scope.
Infix "-" := ESub : expr_scope.
Infix "*" := EMul : expr_scope.
Notation "- x" := (ENeg x) : expr_scope.

Definition E0 : expr := Const 0.
Definition E1 : expr := Const 1.
(** [BoolNot::not], [double], [E::sum_array] and iterator sums *)
Definition enot (e : expr) : expr := (E1 - e)%E.
Definition edouble (e : expr) : expr := (e + e)%E.
Definition esum (l : list expr) : expr := foldl EAdd E0 l.

(** [horner_eval_bits] *)
Definition horner_eval_bits (limbs : list expr) : expr :=
  match reverse limbs with
  | [] => E0
  | b :: bs => foldl (fun acc bit => (edouble acc + bit)%E) b bs
  end.

(** ** The builder *)

Inductive rows := EveryRow | FirstRow | LastRow | TransitionRow.
Record constraint := mkConstraint { on : rows; body : expr }.

Definition assert_zero (e : expr) : list constraint := [mkConstraint EveryRow e].
Definition assert_eq (a b : expr) : list constraint := assert_zero (a - b).
Definition assert_one (e : expr) : list constraint := assert_eq e E1.
Definition assert_bool (e : expr) : list constraint := assert_zero (e * (e - E1)).
Definition assert_zeros (l : list expr) : list constraint := concat (assert_zero <$> l).
Definition assert_bools (l : list expr) : list constraint := concat (assert_bool <$> l).
Definition when (f : expr) (cs : list constraint) : list constraint := (fun c => mkConstraint (on c) (f * body c)) <$> cs.
Definition on_rows (r : rows) (cs : list constraint) : list constraint := (fun c => mkConstraint r (body c)) <$> cs.
Abbreviation when_transition := (on_rows TransitionRow).
Abbreviation when_first_row := (on_rows FirstRow).
Abbreviation when_last_row := (on_rows LastRow).

(** ** Values *)

Section Eval.
Context {F : Felt}.

Definition row := column -> felt.

Fixpoint eval (l n : row) (e : expr) : felt :=
  match e with
  | Local c => l c
  | Next c => n c
  | Const z => new_unchecked z
  | EAdd a b => (eval l n a + eval l n b)%F
  | ESub a b => (eval l n a - eval l n b)%F
  | EMul a b => (eval l n a * eval l n b)%F
  | ENeg a => (- eval l n a)%F
  end.

(** The constraint on a pair of neighbouring rows; the next row of the last one is the first. *)
Definition holds (first last : bool) (l n : row) (c : constraint) : Prop :=
  match on c with
  | EveryRow => eval l n (body c) = ZERO
  | FirstRow => first = true -> eval l n (body c) = ZERO
  | LastRow => last = true -> eval l n (body c) = ZERO
  | TransitionRow => last = false -> eval l n (body c) = ZERO
  end.
Definition satisfied (first last : bool) (l n : row) (cs : list constraint) : Prop := Forall (holds first last l n) cs.
End Eval.

(** ** Partial evaluation *)

Definition is_E0 (e : expr) : bool := match e with Const 0 => true | _ => false end.
Definition is_E1 (e : expr) : bool := match e with Const 1 => true | _ => false end.
Definition is_neg1 (e : expr) : bool := match e with ENeg a => is_E1 a | _ => false end.

Definition sneg (a : expr) : expr :=
  if is_E0 a then E0 else if is_neg1 a then E1 else ENeg a.
Definition sadd (a b : expr) : expr :=
  if is_E0 a then b else if is_E0 b then a
  else if (is_E1 a && is_neg1 b) || (is_neg1 a && is_E1 b) then E0 else EAdd a b.
Definition ssub (a b : expr) : expr :=
  if is_E0 b then a else if is_E0 a then sneg b else if is_E1 a && is_E1 b then E0 else ESub a b.
Definition smul (a b : expr) : expr :=
  if is_E0 a || is_E0 b then E0 else if is_E1 a then b else if is_E1 b then a
  else if is_neg1 a then sneg b else if is_neg1 b then sneg a else EMul a b.

(** The known bits among the columns of a row *)
Definition knowledge := column -> option bool.
Definition nothing : knowledge := fun _ => None.

(** With what is known of the current and of the next row *)
Fixpoint simp2 (k k' : knowledge) (e : expr) : expr :=
  match e with
  | Local c => match k c with Some b => Const (Z.b2z b) | None => e end
  | Next c => match k' c with Some b => Const (Z.b2z b) | None => e end
  | Const _ => e
  | EAdd a b => sadd (simp2 k k' a) (simp2 k k' b)
  | ESub a b => ssub (simp2 k k' a) (simp2 k k' b)
  | EMul a b => let a := simp2 k k' a in if is_E0 a then E0 else smul a (simp2 k k' b)
  | ENeg a => sneg (simp2 k k' a)
  end.
Definition simp (k : knowledge) : expr -> expr := simp2 k nothing.

(** The constraints that are left *)
Definition residual2 (k k' : knowledge) (cs : list constraint) : list constraint :=
  filter (fun c => is_E0 (body c) = false) ((fun c => mkConstraint (on c) (simp2 k k' (body c))) <$> cs).
Definition residual (k : knowledge) : list constraint -> list constraint := residual2 k nothing.

Section Sound.
Context {F : Felt}.
Add Ring felt_ring_air : felt_ring_theory.

Definition felt_bit (b : bool) : felt := if b then ONE else ZERO.
Definition agrees (l : row) (k : knowledge) : Prop := forall c b, k c = Some b -> l c = felt_bit b.

Lemma is_E0_eval l n e : is_E0 e = true -> eval l n e = ZERO.
Proof. destruct e as [| |[]| | | |]; try done. intros _. apply new_unchecked_0. Qed.
Lemma is_E1_eval l n e : is_E1 e = true -> eval l n e = ONE.
Proof. destruct e as [| |[|[]|]| | | |]; try done. intros _. apply new_unchecked_1. Qed.
Lemma is_neg1_eval l n e : is_neg1 e = true -> eval l n e = (- ONE)%F.
Proof. destruct e; try done. cbn. intros H. by rewrite (is_E1_eval l n _ H). Qed.

Lemma eval_E0 l n : eval l n E0 = ZERO.
Proof. apply new_unchecked_0. Qed.
Lemma eval_E1 l n : eval l n E1 = ONE.
Proof. apply new_unchecked_1. Qed.

Ltac known_eval :=
  rewrite ?eval_E0, ?eval_E1;
  repeat match goal with
  | H : is_E0 ?e = true |- _ => rewrite (is_E0_eval _ _ e H) in *; clear H
  | H : is_E1 ?e = true |- _ => rewrite (is_E1_eval _ _ e H) in *; clear H
  | H : is_neg1 ?e = true |- _ => rewrite (is_neg1_eval _ _ e H) in *; clear H
  | H : (_ && _) = true |- _ => apply andb_true_iff in H as [? ?]
  end.

Lemma sneg_eval l n a : eval l n (sneg a) = (- eval l n a)%F.
Proof. unfold sneg. destruct (is_E0 a) eqn:H0; [|destruct (is_neg1 a) eqn:H1]; known_eval; cbn [eval]; ring. Qed.
Lemma sadd_eval l n a b : eval l n (sadd a b) = (eval l n a + eval l n b)%F.
Proof.
  unfold sadd. destruct (is_E0 a) eqn:Ha; [known_eval; ring|]. destruct (is_E0 b) eqn:Hb; [known_eval; ring|].
  destruct (is_E1 a && is_neg1 b) eqn:H1; [|destruct (is_neg1 a && is_E1 b) eqn:H2]; cbn [orb]; known_eval; cbn [eval]; ring.
Qed.
Lemma ssub_eval l n a b : eval l n (ssub a b) = (eval l n a - eval l n b)%F.
Proof.
  unfold ssub. destruct (is_E0 b) eqn:Hb; [known_eval; ring|]. destruct (is_E0 a) eqn:Ha; [rewrite sneg_eval; known_eval; ring|].
  destruct (is_E1 a && is_E1 b) eqn:H1; known_eval; cbn [eval]; ring.
Qed.
Lemma smul_eval l n a b : eval l n (smul a b) = (eval l n a * eval l n b)%F.
Proof.
  unfold smul. destruct (is_E0 a) eqn:Ha; [cbn [orb]; known_eval; ring|].
  destruct (is_E0 b) eqn:Hb; [cbn [orb]; known_eval; ring|]. cbn [orb].
  destruct (is_E1 a) eqn:H1; [known_eval; ring|]. destruct (is_E1 b) eqn:H2; [known_eval; ring|].
  destruct (is_neg1 a) eqn:H3; [rewrite sneg_eval; known_eval; ring|].
  destruct (is_neg1 b) eqn:H4; [rewrite sneg_eval; known_eval; ring|]. done.
Qed.

Lemma simp2_eval l n k k' e : agrees l k -> agrees n k' -> eval l n (simp2 k k' e) = eval l n e.
Proof.
  intros Hk Hk'. induction e as [c|c|z|a IHa b IHb|a IHa b IHb|a IHa b IHb|a IHa]; cbn [simp2]; try done.
  - destruct (k c) as [b|] eqn:E; [|done]. cbn. rewrite (Hk c b E). destruct b; [apply new_unchecked_1|apply new_unchecked_0].
  - destruct (k' c) as [b|] eqn:E; [|done]. cbn. rewrite (Hk' c b E). destruct b; [apply new_unchecked_1|apply new_unchecked_0].
  - by rewrite sadd_eval, IHa, IHb.
  - by rewrite ssub_eval, IHa, IHb.
  - destruct (is_E0 (simp2 k k' a)) eqn:Ha; [|by rewrite smul_eval, IHa, IHb]. cbn [eval]. rewrite <-IHa, (is_E0_eval l n _ Ha), eval_E0. ring.
  - by rewrite sneg_eval, IHa.
Qed.
Lemma agrees_nothing n : agrees n nothing.
Proof. by intros c b. Qed.
Lemma simp_eval l n k e : agrees l k -> eval l n (simp k e) = eval l n e.
Proof. intros Hk. apply simp2_eval; [done|apply agrees_nothing]. Qed.

(** On rows with the known bits, the constraints hold exactly when the residual ones do. *)
Lemma residual2_satisfied first last l n k k' cs : agrees l k -> agrees n k' ->
  satisfied first last l n cs <-> satisfied first last l n (residual2 k k' cs).
Proof.
  intros Hk Hk'. unfold satisfied, residual2. induction cs as [|c cs IH]; [done|]. rewrite list.Forall_cons, IH. cbn [fmap list_fmap].
  assert (Hc : holds first last l n (mkConstraint (on c) (simp2 k k' (body c))) <-> holds first last l n c).
  { unfold holds. cbn. by rewrite (simp2_eval l n k k' _ Hk Hk'). }
  destruct (is_E0 (simp2 k k' (body c))) eqn:E.
  - rewrite filter_cons_False by (cbn; congruence). rewrite <-Hc. split; [tauto|]. intros H. split; [|done].
    unfold holds. cbn. rewrite (is_E0_eval l n _ E). by destruct (on c).
  - rewrite filter_cons_True by done. rewrite list.Forall_cons. tauto.
Qed.
Lemma residual_satisfied first last l n k cs : agrees l k ->
  satisfied first last l n cs <-> satisfied first last l n (residual k cs).
Proof. intros Hk. apply residual2_satisfied; [done|apply agrees_nothing]. Qed.

Lemma satisfied_app first last l n cs cs' : satisfied first last l n (cs ++ cs') <-> satisfied first last l n cs /\ satisfied first last l n cs'.
Proof. apply Forall_app. Qed.
End Sound.
End Air.

(** ** Concrete rows *)
Import Air.
Definition zrow := column -> Z.

(** Reduction modulo the order, in one comparison where there is nothing to do *)
Definition redZ (z : Z) : Z := if (0 <=? z) && (z <? modulus) then z else z mod modulus.

Fixpoint evalZ (l n : zrow) (e : expr) : Z :=
  match e with
  | Local c => l c
  | Next c => n c
  | Const z => z
  | EAdd a b => redZ (evalZ l n a + evalZ l n b)
  | ESub a b => redZ (evalZ l n a - evalZ l n b)
  | EMul a b => let x := evalZ l n a in if x =? 0 then 0 else redZ (x * evalZ l n b)
  | ENeg a => redZ (- evalZ l n a)
  end.
Lemma redZ_mod z : redZ z = z mod modulus.
Proof. unfold redZ. destruct (0 <=? z) eqn:H0, (z <? modulus) eqn:H1; cbn [andb]; try done. symmetry. apply Z.mod_small. lia. Qed.
Lemma evalZ_mul l n a b : evalZ l n (EMul a b) = (evalZ l n a * evalZ l n b) mod modulus.
Proof. cbn [evalZ]. cbv zeta. rewrite redZ_mod. destruct (Z.eqb_spec (evalZ l n a) 0) as [->|]; done. Qed.

(** The constants of the expression are reduced. *)
Fixpoint reduced (e : expr) : bool :=
  match e with
  | Local _ | Next _ => true
  | Const z => (0 <=? z) && (z <? modulus)
  | EAdd a b | ESub a b | EMul a b => reduced a && reduced b
  | ENeg a => reduced a
  end.

Definition holdsZ (first last : bool) (l n : zrow) (c : constraint) : bool :=
  let v := evalZ l n (body c) =? 0 in
  match on c with EveryRow => v | FirstRow => negb first || v | LastRow => negb last || v | TransitionRow => last || v end.
Definition satisfiedZ (first last : bool) (l n : zrow) (cs : list constraint) : bool :=
  forallb (fun c => reduced (body c)) cs && forallb (holdsZ first last l n) cs.
(** The rows [0..N-1] of a trace *)
Definition trace_okZ (N : nat) (t : nat -> zrow) (cs : list constraint) : bool :=
  forallb (fun c => reduced (body c)) cs &&
  forallb (fun i => forallb (holdsZ (i =? 0)%nat (S i =? N)%nat (t i) (t (S i mod N)%nat)) cs) (seq 0 N).

Section Concrete.
Context {F : Felt}.

Definition felt_row (f : zrow) : row := fun c => new_unchecked (f c).
Definition in_range (f : zrow) : Prop := forall c, 0 <= f c < modulus.

Lemma evalZ_range l n e : in_range l -> in_range n -> reduced e = true -> 0 <= evalZ l n e < modulus.
Proof.
  intros Hl Hn. assert (0 < modulus) by done. destruct e; rewrite ?evalZ_mul; cbn [evalZ reduced]; rewrite ?redZ_mod; intros H';
    try apply Hl; try apply Hn; try (apply Z.mod_pos_bound; done). lia.
Qed.

Lemma evalZ_eval l n e : in_range l -> in_range n -> reduced e = true -> ⟦eval (felt_row l) (felt_row n) e⟧ = evalZ l n e.
Proof.
  intros Hl Hn. induction e as [c|c|z|a IHa b IHb|a IHa b IHb|a IHa b IHb|a IHa]; rewrite ?evalZ_mul; cbn [eval evalZ reduced]; rewrite ?redZ_mod; intros Hr;
    try apply andb_true_iff in Hr as [Hra Hrb].
  - by apply canonical_new.
  - by apply canonical_new.
  - apply canonical_new. lia.
  - by rewrite canonical_add, IHa, IHb.
  - by rewrite canonical_sub, IHa, IHb.
  - by rewrite canonical_mul, IHa, IHb.
  - by rewrite canonical_neg, IHa.
Qed.

Lemma satisfiedZ_ok first last l n cs : in_range l -> in_range n -> satisfiedZ first last l n cs = true ->
  satisfied first last (felt_row l) (felt_row n) cs.
Proof.
  intros Hl Hn H. apply andb_true_iff in H as [Hr H]. unfold satisfied. apply Forall_forall. intros c Hc. rewrite forallb_forall in Hr, H.
  specialize (Hr c Hc). specialize (H c Hc). unfold holdsZ in H.
  assert (Hv : (evalZ l n (body c) =? 0) = true -> eval (felt_row l) (felt_row n) (body c) = ZERO).
  { intros He. apply canonical_inj. rewrite evalZ_eval, canonical_ZERO by done. by apply Z.eqb_eq. }
  unfold holds. destruct (on c); [auto|intros ->; auto..].
Qed.
Lemma trace_okZ_satisfied N t cs i : (forall i, in_range (t i)) -> trace_okZ N t cs = true -> (i < N)%nat ->
  satisfied (i =? 0)%nat (S i =? N)%nat (felt_row (t i)) (felt_row (t (S i mod N)%nat)) cs.
Proof.
  intros Ht H Hi. apply andb_true_iff in H as [Hr H]. rewrite forallb_forall in H. specialize (H i (proj2 (in_seq N 0 i) ltac:(lia))).
  apply satisfiedZ_ok; [apply Ht..|]. unfold satisfiedZ. by rewrite Hr, H.
Qed.
End Concrete.
