(* ===== verification/AirFlags.v ===== *)
(** * Operation flags

    [air/src/constraints/op_flags/mod.rs]: from the seven opcode bits of a row, one flag per operation, and composite flags that
    tell at each depth of the stack whether the item stays, moves left or moves right.  Flags of high opcodes use two extra
    columns in place of products of bits.  Arrays filled by [array::from_fn] are functions of the index. *)

From S2P Require Import Prelude Field Types Operations Air.
Import Air.
#[local] Open Scope Z_scope.

Module OpFlags.
Import opcodes.

Definition NUM_DEGREE_7_OPS : nat := 64.
Definition DEGREE_7_OPCODE_STARTS : Z := 0.
Definition DEGREE_7_OPCODE_ENDS : Z := DEGREE_7_OPCODE_STARTS + 63.
Definition DEGREE_6_OPCODE_STARTS : Z := DEGREE_7_OPCODE_ENDS + 1.
Definition DEGREE_6_OPCODE_ENDS : Z := DEGREE_6_OPCODE_STARTS + 15.
Definition DEGREE_5_OPCODE_STARTS : Z := DEGREE_6_OPCODE_ENDS + 1.
Definition DEGREE_5_OPCODE_ENDS : Z := DEGREE_5_OPCODE_STARTS + 15.
Definition DEGREE_4_OPCODE_STARTS : Z := DEGREE_5_OPCODE_ENDS + 1.

(** [get_op_index] *)
Definition get_op_index (opcode : Z) : nat :=
  if opcode <=? DEGREE_7_OPCODE_ENDS then Z.to_nat opcode
  else if opcode <=? DEGREE_6_OPCODE_ENDS then Z.to_nat ((opcode - DEGREE_6_OPCODE_STARTS) / 2)
  else if opcode <=? DEGREE_5_OPCODE_ENDS then Z.to_nat (opcode - DEGREE_5_OPCODE_STARTS)
  else Z.to_nat ((opcode - DEGREE_4_OPCODE_STARTS) / 4).

#[local] Open Scope nat_scope.

(** [bits[k][v]] *)
Definition bits (k v : nat) : expr := match v with 0 => (E1 - Local (ColOpBit k))%E | _ => Local (ColOpBit k) end.

(** [i >> n] and the low bits of [i] *)
Definition shr (i n : nat) : nat := i / 2 ^ n.
Definition low (i n : nat) : nat := i mod 2 ^ n.

Definition b32 (i : nat) : expr := (bits 3 (shr i 1) * bits 2 (low i 1))%E.
Definition b321 (i : nat) : expr := (b32 (shr i 1) * bits 1 (low i 1))%E.
Definition b3210 (i : nat) : expr := (b321 (shr i 1) * bits 0 (low i 1))%E.
Definition b432 (i : nat) : expr := (bits 4 (shr i 2) * b32 (low i 2))%E.
Definition b654 (i : nat) : expr := (bits 5 (shr i 1) * bits 4 (low i 1) * bits 6 0)%E.
Definition b654321 (i : nat) : expr := (b654 (shr i 3) * b321 (low i 3))%E.

(** The pre-[b0] flags of two adjacent opcodes *)
Definition pre_b0 (opcode : Z) : expr := b654321 (shr (Z.to_nat opcode) 1).
Definition movup_or_movdn : list expr := pre_b0 <$> [MOVUP2; MOVUP3; MOVUP4; MOVUP5; MOVUP6; MOVUP7; MOVUP8].
Definition swapw2_or_swapw3 : expr := pre_b0 SWAPW2.
Definition advpopw_or_expacc : expr := pre_b0 ADVPOPW.

Definition degree7_op_flags (i : nat) : expr := (b654321 (shr i 1) * bits 0 (low i 1))%E.
Definition degree6_prefix : expr := (bits 6 1 * bits 5 0 * bits 4 0)%E.
Definition degree6_op_flags (i : nat) : expr := (degree6_prefix * b321 i)%E.
Definition degree5_op_flags (i : nat) : expr := (Local (ColExtra 0) * b3210 i)%E.
Definition degree4_op_flags (i : nat) : expr := (b432 i * Local (ColExtra 1))%E.

Definition op7 (op : Z) : expr := degree7_op_flags (Z.to_nat op).
Definition op6 (op : Z) : expr := degree6_op_flags (get_op_index op).
Definition op5 (op : Z) : expr := degree5_op_flags (get_op_index op).
Definition op4 (op : Z) : expr := degree4_op_flags (get_op_index op).

(** ** Composite flags: [compute_composite_flags] *)

(** [accumulate_depth_deltas]: prefix sums *)
Fixpoint accumulate_from (acc : expr) (deltas : list expr) : list expr :=
  match deltas with
  | [] => []
  | d :: ds => let s := (acc + d)%E in s :: accumulate_from s ds
  end.
Definition accumulate_depth_deltas (deltas : list expr) : list expr :=
  match deltas with [] => [] | d :: ds => d :: accumulate_from d ds end.

Definition prefix_01 : expr := (bits 6 0 * bits 5 1)%E.
Definition prefix_100 : expr := (bits 6 1 * bits 5 0 * bits 4 0)%E.

(** [end_block_flags().is_loop] *)
Definition is_loop_end : expr := Local (ColHasherState 5).
Definition end_loop_flag : expr := (op4 END * is_loop_end)%E.

Definition nth_pair (i : nat) : expr := nth i movup_or_movdn E0.

Definition no_shift_depth0 : expr :=
  esum [op7 NOOP; op6 U32ASSERT2; op5 MPVERIFY; op5 SPAN; op5 JOIN; op7 EMIT; op4 RESPAN; op4 HALT; op4 CALL;
        (op4 END * (E1 - is_loop_end))%E].
Definition no_shift_depth1 : expr := (esum (degree7_op_flags <$> seq 0 8) - op7 NOOP)%E.
Definition u32_arith_group : expr := (prefix_100 * bits 3 0)%E.
Definition no_shift_depth4 : expr := esum [nth_pair 1; advpopw_or_expacc; swapw2_or_swapw3; op7 EXT2MUL; op4 MRUPDATE].
Definition no_shift_depth8 : expr := (nth_pair 5 + op7 SWAPW - swapw2_or_swapw3)%E.
Definition no_shift_depth12 : expr := (swapw2_or_swapw3 + op5 HPERM - op7 SWAPW3)%E.

Definition no_shift_flags : list expr := accumulate_depth_deltas
  [no_shift_depth0; no_shift_depth1; (op7 SWAP + u32_arith_group)%E; nth_pair 0; no_shift_depth4; nth_pair 2; nth_pair 3; nth_pair 4;
   no_shift_depth8; nth_pair 6; E0; E0; no_shift_depth12; E0; E0; E0].

Definition all_mov_pairs : expr := esum movup_or_movdn.
Definition all_movdn : expr := (all_mov_pairs * bits 0 1)%E.
Definition left_shift_depth1 : expr :=
  esum [op7 ASSERT; all_movdn; op7 DROP; op7 MSTORE; op7 MSTOREW; degree7_op_flags 47; op5 SPLIT; op5 LOOP; end_loop_flag; op5 DYN;
        op5 DYNCALL].
Definition left_shift_depth2 : expr := (esum (degree7_op_flags <$> seq 32 8) - op7 ASSERT)%E.
Definition left_shift_depth3 : expr := (op7 CSWAP + op6 U32ADD3 + op6 U32MADD - op7 MOVDN2)%E.

Definition left_shift_flags : list expr := accumulate_depth_deltas
  [E0; left_shift_depth1; left_shift_depth2; left_shift_depth3; (- op7 MOVDN3)%E; (op7 MLOADW - op7 MOVDN4)%E; (- op7 MOVDN5)%E;
   (- op7 MOVDN6)%E; (- op7 MOVDN7)%E; (op7 CSWAPW - op7 MOVDN8)%E; E0; E0; E0; E0; E0; E0].

Definition all_movup : expr := (all_mov_pairs * bits 0 0)%E.
Definition right_shift_depth0 : expr := (esum (degree7_op_flags <$> seq 48 16) + op5 PUSH + all_movup)%E.

Definition right_shift_flags : list expr := accumulate_depth_deltas
  [right_shift_depth0; op6 U32SPLIT; (- op7 MOVUP2)%E; (- op7 MOVUP3)%E; (- op7 MOVUP4)%E; (- op7 MOVUP5)%E; (- op7 MOVUP6)%E;
   (- op7 MOVUP7)%E; (- op7 MOVUP8)%E; E0; E0; E0; E0; E0; E0; E0].

Definition prefix_011 : expr := (prefix_01 * bits 4 1)%E.
Definition right_shift : expr := (prefix_011 + op5 PUSH + op6 U32SPLIT)%E.

Definition prefix_010 : expr := (prefix_01 * bits 4 0)%E.
Definition u32_add3_madd_group : expr := (prefix_100 * bits 3 1 * bits 2 1)%E.
Definition left_shift : expr :=
  esum [prefix_010; u32_add3_madd_group; op5 SPLIT; op5 LOOP; op4 REPEAT; end_loop_flag; op5 DYN].

Definition control_flow : expr :=
  esum [(bits 3 0 * bits 2 1 * Local (ColExtra 0))%E; (bits 4 1 * Local (ColExtra 1))%E; op5 DYNCALL; op5 DYN; op4 SYSCALL; op4 CALL].
Definition u32_rc_op : expr := prefix_100.
Definition overflow : expr := ((Local ColB0 - Const 16) * Local ColH0)%E.

(** [no_shift_at], [left_shift_at], [right_shift_at] *)
Definition no_shift_at (i : nat) : expr := nth i no_shift_flags E0.
Definition left_shift_at (i : nat) : expr := nth i left_shift_flags E0.
Definition right_shift_at (i : nat) : expr := nth i right_shift_flags E0.

(** The getters: [self.$array[get_op_index($op)]] with the array of the opcode's range *)
Definition flag (op : Z) : expr :=
  (if op <=? DEGREE_7_OPCODE_ENDS then degree7_op_flags (get_op_index op)
   else if op <=? DEGREE_6_OPCODE_ENDS then degree6_op_flags (get_op_index op)
   else if op <=? DEGREE_5_OPCODE_ENDS then degree5_op_flags (get_op_index op)
   else degree4_op_flags (get_op_index op))%Z.

(** Flags of the next row *)
Definition next_prefix : expr := (Next (ColExtra 1) * Next (ColOpBit 4))%E.
Definition next_bit (k v : nat) : expr := match v with 0 => (E1 - Next (ColOpBit k))%E | _ => Next (ColOpBit k) end.
Definition b32_next (i : nat) : expr := (next_bit 3 (shr i 1) * next_bit 2 (low i 1))%E.
Definition end_next : expr := (next_prefix * b32_next 0)%E.
Definition repeat_next : expr := (next_prefix * b32_next 1)%E.
Definition respan_next : expr := (next_prefix * b32_next 2)%E.
Definition halt_next : expr := (next_prefix * b32_next 3)%E.

(** ** What a row with a given opcode knows *)
Definition op_knowledge (opcode : Z) : knowledge := fun c =>
  match c with
  | ColOpBit k => if (k <? 7)%nat then Some (Z.testbit opcode (Z.of_nat k)) else None
  | ColExtra 0 => Some (Z.testbit opcode 6 && negb (Z.testbit opcode 5) && Z.testbit opcode 4)
  | ColExtra 1 => Some (Z.testbit opcode 6 && Z.testbit opcode 5)
  | _ => None
  end.
End OpFlags.
