(* ===== verification/AirStack.v ===== *)
(** * Constraints on the operand stack

    [air/src/constraints/stack/]: general shifts, overflow bookkeeping, operations that rewrite stack items, field and u32 arithmetic,
    and the operations of the recursive verifier. *)

From S2P Require Import Prelude Field Types Operations Air AirFlags.
Import Air OpFlags opcodes.
#[local] Open Scope nat_scope.

Module AirStack.

Definition s (i : nat) : expr := Local (ColTop i).
Definition s' (i : nat) : expr := Next (ColTop i).
(** [user_op_helpers]: the hasher state from position 2 *)
Definition uop (i : nat) : expr := Local (ColHasherState (2 + i)).

(** ** [general.rs] *)
Definition general_position_0 : list constraint :=
  let flag_sum := (no_shift_at 0 + left_shift_at 1)%E in
  let expected := (no_shift_at 0 * s 0 + left_shift_at 1 * s 1)%E in
  when_transition (assert_zero (s' 0 * flag_sum - expected)).
Definition general_position (i : nat) : list constraint :=
  let flag_sum := (no_shift_at i + left_shift_at (i + 1) + right_shift_at (i - 1))%E in
  let expected := (no_shift_at i * s i + left_shift_at (i + 1) * s (i + 1) + right_shift_at (i - 1) * s (i - 1))%E in
  when_transition (assert_zero (s' i * flag_sum - expected)).
Definition general_position_15 : list constraint :=
  let flag_sum := (no_shift_at 15 + right_shift_at 14)%E in
  let expected := (no_shift_at 15 * s 15 + right_shift_at 14 * s 14)%E in
  when_transition (assert_zero (s' 15 * flag_sum - expected)).
Definition enforce_general : list constraint :=
  general_position_0 ++ concat (general_position <$> seq 1 14) ++ general_position_15.

(** ** [overflow.rs] *)
Definition F_16 : expr := Const 16.
Definition enforce_stack_depth_constraints : list constraint :=
  let depth := Local ColB0 in
  let depth_next := Next ColB0 in
  let call_or_dyncall_or_syscall := (flag CALL + flag DYNCALL + flag SYSCALL)%E in
  let is_call_or_dyncall_end := Local (ColHasherState 6) in
  let is_syscall_end := Local (ColHasherState 7) in
  let call_or_dyncall_or_syscall_end := (flag END * (is_call_or_dyncall_end + is_syscall_end))%E in
  let normal_mask := (E1 - call_or_dyncall_or_syscall - call_or_dyncall_or_syscall_end)%E in
  let depth_delta_part := ((depth_next - depth) * normal_mask)%E in
  let left_shift_part := (left_shift * overflow)%E in
  let right_shift_part := right_shift in
  let call_part := (call_or_dyncall_or_syscall * (depth_next - F_16))%E in
  when_transition (assert_zero (depth_delta_part + left_shift_part - right_shift_part + call_part)).
Definition enforce_overflow_index_constraints : list constraint :=
  when_transition (when right_shift (assert_eq (Next ColB1) (Local ColClk))) ++
  when_transition (when (enot overflow) (when left_shift (assert_zero (s' 15)))).
Definition enforce_overflow : list constraint :=
  when_first_row (assert_eq (Local ColB0) F_16) ++
  when_last_row (assert_eq (Local ColB0) F_16) ++
  when_first_row (assert_zero (Local ColB1)) ++
  when_last_row (assert_zero (Local ColB1)) ++
  enforce_stack_depth_constraints ++
  when (enot overflow) (assert_eq (Local ColB0) F_16) ++
  enforce_overflow_index_constraints.

(** ** [ops.rs] *)

(** [when(flag).assert_eq(..)] for a list of positions *)
Definition moves (op : Z) (eqs : list (nat * nat)) : list constraint :=
  when (flag op) (concat ((fun '(i, j) => assert_eq (s' i) (s j)) <$> eqs)).
Definition dup_constraints : list constraint :=
  concat ((fun '(op, i) => moves op [(0, i)])
    <$> [(DUP0, 0); (DUP1, 1); (DUP2, 2); (DUP3, 3); (DUP4, 4); (DUP5, 5); (DUP6, 6); (DUP7, 7); (DUP9, 9); (DUP11, 11); (DUP13, 13);
         (DUP15, 15)]).
Definition movup_constraints : list constraint :=
  concat ((fun '(op, i) => moves op [(0, i)])
    <$> [(MOVUP2, 2); (MOVUP3, 3); (MOVUP4, 4); (MOVUP5, 5); (MOVUP6, 6); (MOVUP7, 7); (MOVUP8, 8)]).
Definition movdn_constraints : list constraint :=
  concat ((fun '(op, i) => moves op [(i, 0)])
    <$> [(MOVDN2, 2); (MOVDN3, 3); (MOVDN4, 4); (MOVDN5, 5); (MOVDN6, 6); (MOVDN7, 7); (MOVDN8, 8)]).
Definition swapw_constraints : list constraint :=
  moves SWAPW [(0, 4); (1, 5); (2, 6); (3, 7); (4, 0); (5, 1); (6, 2); (7, 3)] ++
  moves SWAPW2 [(0, 8); (1, 9); (2, 10); (3, 11); (8, 0); (9, 1); (10, 2); (11, 3)] ++
  moves SWAPW3 [(0, 12); (1, 13); (2, 14); (3, 15); (12, 0); (13, 1); (14, 2); (15, 3)] ++
  moves SWAPDW [(0, 8); (1, 9); (2, 10); (3, 11); (4, 12); (5, 13); (6, 14); (7, 15); (8, 0); (9, 1); (10, 2); (11, 3); (12, 4);
                (13, 5); (14, 6); (15, 7)].
(** [c * a + (1 - c) * b] with the selector on the top *)
Definition select (a b : nat) : expr := (s 0 * s a + enot (s 0) * s b)%E.
Definition cswap_constraints : list constraint :=
  when (flag CSWAP) (assert_bool (s 0)) ++
  when (flag CSWAP) (assert_eq (s' 0) (select 2 1) ++ assert_eq (s' 1) (select 1 2)) ++
  when (flag CSWAPW) (assert_bool (s 0)) ++
  when (flag CSWAPW)
    (assert_eq (s' 0) (select 5 1) ++ assert_eq (s' 1) (select 6 2) ++ assert_eq (s' 2) (select 7 3) ++ assert_eq (s' 3) (select 8 4) ++
     assert_eq (s' 4) (select 1 5) ++ assert_eq (s' 5) (select 2 6) ++ assert_eq (s' 6) (select 3 7) ++ assert_eq (s' 7) (select 4 8)).
Definition enforce_ops : list constraint :=
  when_transition
    (when (flag PAD) (assert_zero (s' 0)) ++
     dup_constraints ++
     when (flag CLK) (assert_eq (s' 0) (Local ColClk)) ++
     moves SWAP [(0, 1); (1, 0)] ++
     movup_constraints ++
     movdn_constraints ++
     swapw_constraints ++
     cswap_constraints ++
     when (flag ASSERT) (assert_one (s 0)) ++
     when (flag CALLER) (concat ((fun i => assert_eq (s' i) (Local (ColFnHash i))) <$> seq 0 4)) ++
     when (flag SDEPTH) (assert_eq (s' 0) (Local ColB0))).

(** ** [stack_arith/mod.rs] *)
Definition F_1 : expr := Const 1.
Definition F_2 : expr := Const 2.
Definition F_7 : expr := Const 7.
Definition TWO_POW_16 : expr := Const (2 ^ 16).
Definition TWO_POW_32 : expr := Const (2 ^ 32).
Definition TWO_POW_32_MINUS_1 : expr := Const (2 ^ 32 - 1).
Definition TWO_POW_48 : expr := Const (2 ^ 48).

Definition field_constraints : list constraint :=
  when_transition (when (flag ADD) (assert_eq (s' 0) (s 0 + s 1))) ++
  when_transition (when (flag NEG) (assert_zero (s' 0 + s 0))) ++
  when_transition (when (flag MUL) (assert_eq (s' 0) (s 0 * s 1))) ++
  when_transition (when (flag INV) (assert_one (s' 0 * s 0))) ++
  when_transition (when (flag INCR) (assert_eq (s' 0) (s 0 + F_1))) ++
  when (flag NOT) (assert_bool (s 0)) ++
  when_transition (when (flag NOT) (assert_eq (s 0 + s' 0) F_1)) ++
  when (flag AND) (assert_bool (s 0) ++ assert_bool (s 1)) ++
  when_transition (when (flag AND) (assert_eq (s' 0) (s 0 * s 1))) ++
  when (flag OR) (assert_bool (s 0) ++ assert_bool (s 1)) ++
  when_transition (when (flag OR) (assert_eq (s' 0) (s 0 + s 1 - s 0 * s 1))).
Definition eq_diff : expr := (s 0 - s 1)%E.
Definition eq_constraints : list constraint :=
  when_transition (when (flag EQ) (assert_zero (eq_diff * s' 0) ++ assert_eq (s' 0) (E1 - eq_diff * uop 0))) ++
  when_transition (when (flag EQZ) (assert_zero (s 0 * s' 0) ++ assert_eq (s' 0) (E1 - s 0 * uop 0))).
Definition expacc_constraints : list constraint :=
  when_transition (when (flag EXPACC)
    (assert_eq (s' 1) (s 1 * s 1) ++
     assert_eq (uop 0) ((s 1 - F_1) * s' 0 + F_1) ++
     assert_eq (s' 2) (s 2 * uop 0) ++
     assert_eq (s 3) (s' 3 * F_2 + s' 0) ++
     assert_bool (s' 0))).
Definition ext2mul_constraints : list constraint :=
  let a0_b0 := (s 2 * s 0)%E in
  let a1_b1 := (s 3 * s 1)%E in
  when_transition (when (flag EXT2MUL)
    (assert_eq (s' 0) (s 0) ++
     assert_eq (s' 1) (s 1) ++
     assert_eq (s' 2) (a0_b0 + a1_b1 * F_7) ++
     assert_eq (s' 3) ((s 2 + s 3) * (s 0 + s 1) - a0_b0 - a1_b1))).

Definition u32_v_lo : expr := (uop 1 * TWO_POW_16 + uop 0)%E.
Definition u32_v_hi : expr := (uop 3 * TWO_POW_16 + uop 2)%E.
Definition u32_v48 : expr := (uop 2 * TWO_POW_32 + u32_v_lo)%E.
Definition u32_v64 : expr := (uop 3 * TWO_POW_48 + u32_v48)%E.
Definition u32_constraints : list constraint :=
  let u32_split_mul_madd := (flag U32SPLIT + flag U32MUL + flag U32MADD)%E in
  let u32_v_hi_comp := (E1 - uop 4 * (TWO_POW_32_MINUS_1 - u32_v_hi))%E in
  let u32_two_outputs := (flag U32SPLIT + flag U32ADD + flag U32ADD3 + flag U32MUL + flag U32MADD)%E in
  when u32_split_mul_madd (assert_zero (u32_v_hi_comp * u32_v_lo)) ++
  when_transition (when u32_two_outputs (assert_eq (s' 0) u32_v_lo ++ assert_eq (s' 1) u32_v_hi)) ++
  when (flag U32SPLIT) (assert_eq (s 0) u32_v64) ++
  when (flag U32ADD) (assert_eq (s 0 + s 1) u32_v48) ++
  when (flag U32ADD3) (assert_eq (s 0 + s 1 + s 2) u32_v48) ++
  when (flag U32ADD + flag U32ADD3) (assert_zero (uop 3)) ++
  when_transition (when (flag U32SUB)
    (assert_eq (s 1) (s 0 + s' 1 - s' 0 * TWO_POW_32) ++ assert_bool (s' 0) ++ assert_eq (s' 1) u32_v_lo)) ++
  when (flag U32MUL) (assert_eq (s 0 * s 1) u32_v64) ++
  when (flag U32MADD) (assert_eq (s 0 * s 1 + s 2) u32_v64) ++
  when_transition (when (flag U32DIV)
    (assert_eq (s 1) (s 0 * s' 1 + s' 0) ++ assert_eq (s 1 - s' 1) u32_v_lo ++ assert_eq (s 0 - s' 0) (u32_v_hi + F_1))) ++
  when_transition (when (flag U32ASSERT2) (assert_eq (s' 0) u32_v_hi ++ assert_eq (s' 1) u32_v_lo)).
Definition enforce_arith : list constraint :=
  field_constraints ++ eq_constraints ++ expacc_constraints ++ ext2mul_constraints ++ u32_constraints.

(** ** [ext_field.rs] *)
Definition quad : Type := expr * expr.
Definition W : expr := Const 7.
Definition qdouble (a : quad) : quad := (edouble a.1, edouble a.2).
Definition qsquare (a : quad) : quad :=
  ((a.1 * a.1 + W * (a.2 * a.2))%E, edouble (a.1 * a.2)).
Definition qmul (a b : quad) : quad :=
  ((a.1 * b.1 + W * (a.2 * b.2))%E, (a.1 * b.2 + a.2 * b.1)%E).
Definition qadd (a b : quad) : quad := ((a.1 + b.1)%E, (a.2 + b.2)%E).
Definition qsub (a b : quad) : quad := ((a.1 - b.1)%E, (a.2 - b.2)%E).
Definition qadd_base (a : quad) (c : expr) : quad := ((a.1 + c)%E, a.2).
Definition qmul_base (a : quad) (c : expr) : quad := ((a.1 * c)%E, (a.2 * c)%E).
Definition assert_eq_quad (a b : quad) : list constraint := assert_eq a.1 b.1 ++ assert_eq a.2 b.2.

(** ** [crypto.rs] *)
Definition F_3 : expr := Const 3.
Definition F_4 : expr := Const 4.
Definition F_8 : expr := Const 8.
Definition TAU_INV : expr := Const 18446462594437873665.
Definition TAU2_INV : expr := Const 18446744069414584320.
Definition TAU3_INV : expr := Const 281474976710656.

Definition enforce_cryptostream_constraints : list constraint :=
  when_transition (when (flag CRYPTOSTREAM)
    (assert_eq (s' 8) (s 8) ++ assert_eq (s' 9) (s 9) ++ assert_eq (s' 10) (s 10) ++ assert_eq (s' 11) (s 11) ++
     assert_eq (s' 12) (s 12 + F_8) ++ assert_eq (s' 13) (s 13 + F_8) ++ assert_eq (s' 14) (s 14) ++ assert_eq (s' 15) (s 15))).

Definition preserved_14 : list constraint := concat ((fun i => assert_eq (s' i) (s i)) <$> seq 0 14).

Definition enforce_hornerbase_constraints : list constraint :=
  let alpha : quad := (uop 0, uop 1) in
  let alpha_sq := qsquare alpha in
  let alpha_cubed := qmul alpha_sq alpha in
  let tmp0 : quad := (uop 4, uop 5) in
  let tmp1 : quad := (uop 2, uop 3) in
  let acc : quad := (s 14, s 15) in
  let acc_next : quad := (s' 14, s' 15) in
  let tmp0_expected := qadd_base (qadd (qmul acc alpha_sq) (qmul_base alpha (s 0))) (s 1) in
  let tmp1_expected := qadd_base (qadd (qadd (qmul tmp0 alpha_cubed) (qmul_base alpha_sq (s 2))) (qmul_base alpha (s 3))) (s 4) in
  let acc_expected := qadd_base (qadd (qadd (qmul tmp1 alpha_cubed) (qmul_base alpha_sq (s 5))) (qmul_base alpha (s 6))) (s 7) in
  when_transition (when (flag HORNERBASE) preserved_14) ++
  when (flag HORNERBASE) (assert_eq_quad tmp0 tmp0_expected ++ assert_eq_quad tmp1 tmp1_expected) ++
  when_transition (when (flag HORNERBASE) (assert_eq_quad acc_next acc_expected)).

Definition enforce_hornerext_constraints : list constraint :=
  let alpha : quad := (uop 0, uop 1) in
  let alpha_sq := qsquare alpha in
  let tmp : quad := (uop 4, uop 5) in
  let acc : quad := (s 14, s 15) in
  let acc_next : quad := (s' 14, s' 15) in
  let tmp_expected := qadd (qadd (qmul acc alpha_sq) (qmul alpha (s 0, s 1))) (s 2, s 3) in
  let acc_expected := qadd (qadd (qmul tmp alpha_sq) (qmul alpha (s 4, s 5))) (s 6, s 7) in
  when_transition (when (flag HORNEREXT) preserved_14) ++
  when (flag HORNEREXT) (assert_eq_quad tmp tmp_expected) ++
  when_transition (when (flag HORNEREXT) (assert_eq_quad acc_next acc_expected)).

(** [fold2_doubled]: twice the folded value *)
Definition fold2_doubled (a b ep : quad) : quad := qadd (qadd a b) (qmul (qsub a b) ep).

Definition enforce_frie2f4_constraints : list constraint :=
  let q0 : quad := (s 0, s 1) in
  let q2 : quad := (s 2, s 3) in
  let q1 : quad := (s 4, s 5) in
  let q3 : quad := (s 6, s 7) in
  let folded_pos := s 8 in
  let tree_index := s 9 in
  let poe := s 10 in
  let prev_eval : quad := (s 11, s 12) in
  let alpha : quad := (s 13, s 14) in
  let layer_ptr := s 15 in
  let seg_flag_0 := s' 4 in
  let seg_flag_1 := s' 5 in
  let seg_flag_2 := s' 6 in
  let seg_flag_3 := s' 7 in
  let folded_pos_next := s' 12 in
  let segment_index := (edouble seg_flag_1 + seg_flag_2 + seg_flag_3 * F_3)%E in
  let tau_factor := s' 9 in
  let expected_tau := (seg_flag_0 + seg_flag_1 * TAU_INV + seg_flag_2 * TAU2_INV + seg_flag_3 * TAU3_INV)%E in
  let domain_point := uop 4 in
  let domain_point_inv := uop 5 in
  let eval_point : quad := (uop 0, uop 1) in
  let eval_point_sq : quad := (uop 2, uop 3) in
  let fold_mid0 : quad := (s' 0, s' 1) in
  let fold_mid1 : quad := (s' 2, s' 3) in
  let fold_result : quad := (s' 13, s' 14) in
  let eval_point_coset := qmul_base eval_point TAU_INV in
  let selected_re := (s 0 * seg_flag_0 + s 4 * seg_flag_1 + s 2 * seg_flag_2 + s 6 * seg_flag_3)%E in
  let selected_im := (s 1 * seg_flag_0 + s 5 * seg_flag_1 + s 3 * seg_flag_2 + s 7 * seg_flag_3)%E in
  let poe_sq := s' 8 in
  let poe_fourth := s' 11 in
  let layer_ptr_next := s' 10 in
  when (flag FRIE2F4)
    (assert_bools [seg_flag_0; seg_flag_1; seg_flag_2; seg_flag_3] ++
     assert_one (seg_flag_0 + seg_flag_1 + seg_flag_2 + seg_flag_3) ++
     assert_eq tree_index (folded_pos_next * F_4 + segment_index) ++
     assert_eq tau_factor expected_tau ++
     assert_eq domain_point (poe * tau_factor) ++
     assert_one (domain_point * domain_point_inv) ++
     assert_eq_quad eval_point (qmul_base alpha domain_point_inv) ++
     assert_eq_quad eval_point_sq (qsquare eval_point) ++
     assert_eq_quad (qdouble fold_mid0) (fold2_doubled q0 q2 eval_point) ++
     assert_eq_quad (qdouble fold_mid1) (fold2_doubled q1 q3 eval_point_coset) ++
     assert_eq_quad (qdouble fold_result) (fold2_doubled fold_mid0 fold_mid1 eval_point_sq) ++
     assert_eq_quad prev_eval (selected_re, selected_im) ++
     assert_eq poe_sq (poe * poe) ++
     assert_eq poe_fourth (poe_sq * poe_sq) ++
     assert_eq layer_ptr_next (layer_ptr + F_8) ++
     assert_eq folded_pos_next folded_pos).

Definition enforce_crypto : list constraint :=
  enforce_cryptostream_constraints ++ enforce_hornerbase_constraints ++ enforce_hornerext_constraints ++ enforce_frie2f4_constraints.

(** ** [stack/mod.rs] *)
Definition enforce_main : list constraint :=
  enforce_general ++ enforce_overflow ++ enforce_ops ++ enforce_crypto ++ enforce_arith.
End AirStack.
