(* ===== verification/AirRows.v ===== *)
(** * Rows of the trace and states of the processor

    When a row of the trace stands for the processor about to execute an operation, and the stack columns of the next row for the
    stack after it.  [to_user_op_helpers] ([processor/src/tracer.rs]) fills the helper columns from the helper registers an
    operation reports. *)

From S2P Require Import Prelude Bits Field Types Operations OperandStack Memory Advice Ace Processor OpSpecs Air AirFlags AirStack.
From Stdlib Require Import Ring.
Import Op Air OpFlags AirStack.
#[local] Open Scope Z_scope.

(** ** Helper columns *)
Section Helpers.
Context {F : Felt} {Q : Quad}.

(** [split_u32_into_u16] of [trace/utils.rs]: high and low half, each cast to 16 bits *)
Definition split_u32_into_u16 (value : Z) : Z * Z := (Z.land (Z.shiftr value 16) 65535, Z.land value 65535).

(** [try_inverse().unwrap_or(ZERO)] *)
Definition inverse_or_zero (x : felt) : felt := if bool_decide (x = ZERO) then ZERO else inverse x.

(** The four limbs of two 32-bit values *)
Definition limbs (lo hi : felt) : list felt :=
  let '(t1, t0) := split_u32_into_u16 ⟦lo⟧ in
  let '(t3, t2) := split_u32_into_u16 ⟦hi⟧ in
  [new_unchecked t0; new_unchecked t1; new_unchecked t2; new_unchecked t3].

(** [OperationHelperRegisters::to_user_op_helpers] *)
Definition to_user_op_helpers (h : OperationHelperRegisters) : list felt :=
  match h with
  | HEq stack_second stack_first =>
    let h0 := if bool_decide (stack_second = stack_first) then ZERO else inverse (stack_first - stack_second)%F in
    [h0; ZERO; ZERO; ZERO; ZERO; ZERO]
  | HU32Split lo hi | HU32Mul lo hi | HU32Madd lo hi =>
    let m := inverse_or_zero (from_u32 (2 ^ 32 - 1) - hi)%F in limbs lo hi ++ [m; ZERO]
  | HEqz top => [inverse_or_zero top; ZERO; ZERO; ZERO; ZERO; ZERO]
  | HExpacc acc_update_val => [acc_update_val; ZERO; ZERO; ZERO; ZERO; ZERO]
  | HFriExt2Fold4 ev es x x_inv => [coef0 ev; coef1 ev; coef0 es; coef1 es; x; x_inv]
  | HU32Add sum carry | HU32Add3 sum carry => limbs sum carry ++ [ZERO; ZERO]
  | HU32Sub second_new =>
    let '(t1, t0) := split_u32_into_u16 ⟦second_new⟧ in [new_unchecked t0; new_unchecked t1; ZERO; ZERO; ZERO; ZERO]
  | HU32Div lo hi => limbs lo hi ++ [ZERO; ZERO]
  | HU32Assert2 first second => limbs second first ++ [ZERO; ZERO]
  | HHPerm addr | HMerklePath addr => [addr; ZERO; ZERO; ZERO; ZERO; ZERO]
  | HHornerEvalBase alpha tmp0 tmp1 => [coef0 alpha; coef1 alpha; coef0 tmp1; coef1 tmp1; coef0 tmp0; coef1 tmp0]
  | HHornerEvalExt alpha k0 k1 acc_tmp => [coef0 alpha; coef1 alpha; k0; k1; coef0 acc_tmp; coef1 acc_tmp]
  | HLogPrecompile addr cap_prev => addr :: word_elements cap_prev ++ [ZERO]
  | HEmpty => replicate 6 ZERO
  end.
End Helpers.

(** ** Rows *)
Section Rows.
Context {F : Felt} {Q : Quad} {C : Crypto}.

(** The row shows the operation and the top of the stack, the depth, the clock and the caller of the processor.  Depths
    and clocks are 32-bit. *)
Record row_of (l : row) (op : Operation) (p : Proc (list felt)) : Prop := {
  ro_op : agrees l (op_knowledge (op_code op));
  ro_stack : exists rest, stack p = ((fun i => l (ColTop i)) <$> seq 0 16) ++ rest;
  ro_small : Z.of_nat (length (stack p)) + 1 < 2 ^ 32;
  ro_depth : l ColB0 = new_unchecked (Z.of_nat (length (stack p)));
  ro_clk : l ColClk = from_u32 (clk p);
  ro_hash : ((fun i => l (ColFnHash i)) <$> seq 0 4) = word_elements (caller_hash p);
}.

(** The next row shows the stack [st]; position 15 is left out when the flag is set. *)
Record next_of (n : row) (but_last : bool) (st : list felt) : Prop := {
  no_top i : (i < 16)%nat -> (but_last = true -> i <> 15%nat) -> st !! i = Some (n (ColTop i));
  no_depth : n ColB0 = new_unchecked (Z.of_nat (length st));
}.

(** Limbs in the helper columns are 16-bit: what the range checker enforces on rows of 32-bit operations. *)
Definition limbs_checked (l : row) : Prop := forall i, (i < 4)%nat -> ⟦l (ColHasherState (2 + i))⟧ < 2 ^ 16.

(** The equations a pair of inner rows has to satisfy *)
Definition eqs (l n : row) (cs : list constraint) : Prop :=
  foldr (fun c P => match on c with FirstRow | LastRow => P | _ => eval l n (body c) = ZERO /\ P end) True cs.

Lemma satisfied_eqs l n cs : satisfied false false l n cs <-> eqs l n cs.
Proof.
  unfold satisfied. induction cs as [|c cs IH]; [done|]. rewrite list.Forall_cons, IH. cbn [eqs foldr]. unfold holds.
  destruct (on c); split; try tauto; intros H; (split; [|tauto]); done.
Qed.

(** The constraints of the stack on a row of operation [op] *)
Lemma stack_eqs l n op : agrees l (op_knowledge (op_code op)) ->
  satisfied false false l n enforce_main <-> eqs l n (residual (op_knowledge (op_code op)) enforce_main).
Proof. intros Hk. by rewrite (residual_satisfied _ _ _ _ _ _ Hk), satisfied_eqs. Qed.

(** ** The overflow flag *)

Lemma felt_of_depth (d : nat) : Z.of_nat d < 2 ^ 32 -> ⟦new_unchecked (Z.of_nat d)⟧ = Z.of_nat d.
Proof. intros. apply canonical_new. unfold modulus. lia. Qed.

Add Ring felt_ring_rows : felt_ring_theory.

(** The constraint on the helper forces the flag to tell whether the stack is deeper than 16. *)
Lemma overflow_flag (b0 h0 : felt) (k : nat) : Z.of_nat (16 + k) < 2 ^ 32 -> b0 = new_unchecked (Z.of_nat (16 + k)) ->
  ((new_unchecked 1 - (b0 - new_unchecked 16) * h0) * (b0 - new_unchecked 16))%F = ZERO ->
  ((b0 - new_unchecked 16) * h0)%F = if (k =? 0)%nat then ZERO else ONE.
Proof.
  intros Hk -> H. destruct (Nat.eqb_spec k 0) as [->|Hne].
  { change (new_unchecked (Z.of_nat (16 + 0))) with (new_unchecked 16). ring. }
  apply felt_mul_zero in H as [H|H]; apply felt_sub_zero in H; [by rewrite <-H, new_unchecked_1|].
  apply (f_equal as_canonical_u64) in H. rewrite !canonical_new in H by (unfold modulus; lia). lia.
Qed.

Lemma depth_succ (d : nat) : Z.of_nat (S d) < 2 ^ 32 -> new_unchecked (Z.of_nat (S d)) = (new_unchecked (Z.of_nat d) + ONE)%F.
Proof.
  intros Hd. apply canonical_inj. rewrite canonical_add, canonical_ONE, !canonical_new by (unfold modulus; lia).
  rewrite Z.mod_small by (unfold modulus; lia). lia.
Qed.

(** ** What one row determines of the next *)

(** The operation executes and the next row shows the stack, but for position 15 when the item comes from the overflow
    table. *)
Definition shown (op : Operation) (p : Proc (list felt)) (n : row) : Prop :=
  exists h st, execute_op op p = Ok (h, with_stack st p) /\
    next_of n (decrements_stack_size op && (16 <? length (stack p))%nat) st.

Lemma pad_to_1 (rest : list felt) : pad_to 1 rest = match rest with [] => [ZERO] | _ => rest end.
Proof. destruct rest; [done|]. by apply pad_to_long; cbn; lia. Qed.

(** The goal for one operation on a stack whose top is in the row *)
Definition step_sound (op : Operation) : Prop := forall l n p, row_of l op p -> satisfied false false l n enforce_main -> shown op p n.

(** The three ways the depth changes *)
Lemma depth_same (nb lb : felt) (d d' : nat) : lb = new_unchecked (Z.of_nat d) -> nb = lb -> d' = d -> nb = new_unchecked (Z.of_nat d').
Proof. by intros -> -> ->. Qed.
Lemma depth_right (nb lb : felt) (d d' : nat) : lb = new_unchecked (Z.of_nat d) -> (nb - lb)%F = new_unchecked 1 -> d' = S d ->
  Z.of_nat d + 1 < 2 ^ 32 -> nb = new_unchecked (Z.of_nat d').
Proof.
  intros -> H -> Hd. rewrite depth_succ by lia. rewrite new_unchecked_1 in H.
  transitivity ((nb - new_unchecked (Z.of_nat d)) + new_unchecked (Z.of_nat d))%F; [ring|]. rewrite H. ring.
Qed.
Lemma depth_left (nb lb ov : felt) (k d' : nat) : lb = new_unchecked (Z.of_nat (16 + k)) -> (nb - lb + ov)%F = ZERO ->
  ov = (if (k =? 0)%nat then ZERO else ONE) -> d' = Nat.max 16 (15 + k) -> Z.of_nat (16 + k) + 1 < 2 ^ 32 -> nb = new_unchecked (Z.of_nat d').
Proof.
  intros Hl H -> -> Hk. assert (nb = (lb - (if (k =? 0)%nat then ZERO else ONE))%F) as ->.
  { transitivity (nb - lb + (if (k =? 0)%nat then ZERO else ONE) + (lb - (if (k =? 0)%nat then ZERO else ONE)))%F; [ring|]. rewrite H. ring. }
  rewrite Hl. destruct k as [|k]; cbn [Nat.eqb].
  - change (Z.of_nat (Nat.max 16 (15 + 0))) with (Z.of_nat (16 + 0)). ring.
  - replace (Nat.max 16 (15 + S k)) with (16 + k)%nat by lia. replace (16 + S k)%nat with (S (16 + k)) by lia. rewrite depth_succ by lia. ring.
Qed.

(** The next row, position by position *)
Lemma next_of_intro (n : row) (b : bool) (top : list felt) (st : list felt) : length top = 15%nat ->
  (forall i x, top !! i = Some x -> x = n (ColTop i)) ->
  (exists y rest, st = top ++ y :: rest /\ ((b = true -> 15%nat <> 15%nat) -> y = n (ColTop 15))) ->
  n ColB0 = new_unchecked (Z.of_nat (length st)) -> next_of n b st.
Proof.
  intros Hl Ht (y & rest & -> & Hy) Hd. split; [|done]. intros i Hi Hb. destruct (decide (i < 15)%nat) as [Hlt|Hge].
  - rewrite lookup_app_l by lia. destruct (lookup_lt_is_Some_2 top i) as [x Hx]; [lia|]. by rewrite Hx, (Ht i x Hx).
  - assert (i = 15%nat) as -> by lia. rewrite lookup_app_r by lia. rewrite Hl. cbn. by rewrite Hy.
Qed.

(** Without and with a left shift *)
Lemma next_of_kept (n : row) (top : list felt) (y : felt) (rest : list felt) : length top = 15%nat ->
  (forall i x, top !! i = Some x -> x = n (ColTop i)) -> y = n (ColTop 15) -> n ColB0 = new_unchecked (Z.of_nat (16 + length rest)) ->
  next_of n false (top ++ y :: rest).
Proof.
  intros Hl Ht Hy Hd. apply (next_of_intro _ _ top); [done..| |]; [by exists y, rest|]. rewrite length_app, Hl. exact Hd.
Qed.

Lemma next_of_left (n : row) (top : list felt) (rest : list felt) (lb ov : felt) : length top = 15%nat ->
  (forall i x, top !! i = Some x -> x = n (ColTop i)) -> Z.of_nat (16 + length rest) + 1 < 2 ^ 32 ->
  lb = new_unchecked (Z.of_nat (16 + length rest)) -> (n ColB0 - lb + ov)%F = ZERO -> ov = (if (length rest =? 0)%nat then ZERO else ONE) ->
  ((new_unchecked 1 - ov) * n (ColTop 15))%F = ZERO -> next_of n (16 <? 16 + length rest)%nat (top ++ pad_to 1 rest).
Proof.
  intros Hl Ht Hsm Hlb Hb Hov Hz. apply (next_of_intro _ _ top); [done..| |].
  - destruct rest as [|r rest]; [|exists r, rest; split; [by rewrite pad_to_1|by intros []]].
    exists ZERO, []. split; [done|]. intros _. subst ov. cbn in Hz. rewrite new_unchecked_1 in Hz. rewrite <-Hz. ring.
  - eapply depth_left; try done. rewrite length_app, Hl, length_pad_to. lia.
Qed.

(** A run of the operation on the stack shown in the row *)
Lemma shown_run op p n L st : stack p = L -> runs L op st ->
  next_of n (decrements_stack_size op && (16 <? length (stack p))%nat) st -> shown op p n.
Proof.
  intros HL Hr Hn. destruct (Hr p) as [h Hh]. exists h, st. split; [|done]. rewrite <-Hh. subst L. by destruct p.
Qed.

(** *** Field equations *)

Lemma from_u32_new (z : Z) : 0 <= z < 2 ^ 32 -> from_u32 z = new_unchecked z.
Proof. intros Hz. apply canonical_inj. rewrite canonical_from_u32, canonical_new by (unfold modulus; lia). done. Qed.
(** An equation that differs from another by a ring identity *)
Lemma felt_eq_diff (a b x y : felt) : a = b -> (x - y)%F = (a - b)%F -> x = y.
Proof. intros -> H. apply felt_sub_zero. rewrite H. ring. Qed.
Lemma felt_eq_diff_neg (a b x y : felt) : a = b -> (x - y)%F = (b - a)%F -> x = y.
Proof. intros H. by apply felt_eq_diff. Qed.
Lemma felt_boolean (x : felt) : (x * (x - new_unchecked 1))%F = ZERO -> exists b, x = bit b.
Proof.
  rewrite new_unchecked_1. intros H. apply felt_mul_zero in H as [->|H]; [by exists false|]. apply felt_sub_zero in H as ->. by exists true.
Qed.
(** The flag of a comparison with zero: [d * r = 0] and [r = 1 - d * h] *)
Lemma zero_flag (d r h : felt) : (d * r)%F = ZERO -> r = (new_unchecked 1 - d * h)%F -> r = bit (bool_decide (d = ZERO)).
Proof.
  rewrite new_unchecked_1. intros H1 H2. case_bool_decide as Hd; [rewrite H2, Hd; unfold bit; ring|].
  by apply felt_mul_zero in H1 as [?|?].
Qed.
End Rows.
