(* ===== verification/AirSound.v ===== *)
(** * The stack constraints determine the next stack

    For the operations whose effect the main constraints of the stack fix, satisfied constraints mean that the processor
    executes the operation and that the next row shows its stack. *)

From S2P Require Import Prelude Bits Field Types Operations OperandStack Memory Advice Ace Processor OpSpecs Air AirFlags AirStack AirRows.
From Stdlib Require Import Ring.
Import Op Air OpFlags AirStack.
#[local] Open Scope Z_scope.

(** Compute the constraints that are left on a row of the operation. *)
Ltac residual_eqs op H :=
  match goal with
  | Hk : agrees ?l _ |- _ =>
    match type of H with satisfied _ _ _ ?n _ => apply (stack_eqs l n op Hk) in H end;
    let r := eval vm_compute in (residual (op_knowledge (op_code op)) enforce_main) in
    let E := fresh in
    assert (E : residual (op_knowledge (op_code op)) enforce_main = r) by (vm_compute; reflexivity);
    rewrite E in H; clear E; cbn [eqs foldr on body eval] in H
  end.

(** Open the row of operation [op] and the constraints on it. *)
Ltac sound_open op :=
  match goal with Hr : row_of ?l op ?p, Hs : satisfied _ _ _ _ enforce_main |- _ =>
    let st := fresh "st" in let rest := fresh "rest" in let Hst := fresh "Hst" in
    destruct Hr as [Hk (rest & Hst) Hsm Hd Hc Hh]; residual_eqs op Hs;
    destruct p as [st pclk pctx ph padv pmem pcs popt ppc]; cbn [stack clk caller_hash] in *; cbn in Hst; subst st;
    destruct_and? Hs; cbn [length] in Hd, Hsm;
    match goal with H : ((new_unchecked 1 - _) * _)%F = ZERO |- _ =>
      apply (overflow_flag _ _ (length rest)) in H; [|cbn; lia|exact Hd]; rename H into Hov end;
    repeat match goal with H : (_ - _)%F = ZERO |- _ => apply felt_sub_zero in H end
  end.
Ltac sound_start := lazymatch goal with |- step_sound ?op => intros l n p Hr Hs; sound_open op end.

Ltac sound_depth :=
  match goal with
  | Hd : ?lb = new_unchecked _, H : ?nb = ?lb |- ?nb = _ => apply (depth_same _ _ _ _ Hd H)
  | Hd : ?lb = new_unchecked _, H : (?nb - ?lb)%F = _ |- ?nb = _ => apply (depth_right _ _ _ _ Hd H)
  end; cbn; lia.

(** An item of the next row from the equation on it *)
Ltac top_eq :=
  first [congruence
        | match goal with
          | H : ?y = _ |- _ = ?y => rewrite H, ?new_unchecked_1; ring
          end].

Ltac sound_top :=
  let j := fresh "j" in let x := fresh "x" in intros j x;
  repeat match goal with
  | |- (_ :: _) !! ?j = Some ?x -> _ => destruct j as [|j]; [let H := fresh in intros H; injection H as <-; try top_eq|cbn [lookup list_lookup]]
  end; try done.

(** Check the next row position by position; equations that need arithmetic are left. *)
Ltac sound_end :=
  cbn; rewrite ?pad_to_cons; cbn;
  match goal with |- next_of _ ?b (?x0 :: ?x1 :: ?x2 :: ?x3 :: ?x4 :: ?x5 :: ?x6 :: ?x7 :: ?x8 :: ?x9 :: ?x10 :: ?x11 :: ?x12 :: ?x13 :: ?x14 :: ?r) =>
    let top := constr:([x0; x1; x2; x3; x4; x5; x6; x7; x8; x9; x10; x11; x12; x13; x14]) in
    match r with
    | ?y :: ?r => apply (next_of_kept _ top y r); [reflexivity|sound_top|try congruence|sound_depth]
    | pad_to 1 ?r => eapply (next_of_left _ top r); [reflexivity|sound_top|eassumption..]
    end
  end.

(** Moves of stack items *)
Ltac sound_move := sound_start; eexists _, _; (split; [eval_op; reflexivity|]); sound_end.
Ltac sound_run lem := sound_start; eapply shown_run; [reflexivity|apply lem|]; sound_end.

Ltac by_ring H := first [apply (felt_eq_diff _ _ _ _ H); ring | apply (felt_eq_diff_neg _ _ _ _ H); ring].
Ltac top0 E := match goal with H : context [?n (ColTop 0)] |- _ = ?n (ColTop 0) => rename H into E end.

(** Rewrite the stack shown with a known item. *)
Ltac sound_with lem := eapply shown_run; [cbn; repeat match goal with H : ?l (ColTop _) = _ |- context [?l (ColTop _)] => rewrite H end; reflexivity|apply lem|]; sound_end.

Ltac sound_bools :=
  repeat match goal with H : (?x * (?x - new_unchecked 1))%F = ZERO |- _ => let b := fresh "b" in apply felt_boolean in H as [b H] end;
  repeat match goal with Hx : ?x = bit ?b, H : context [?x] |- _ => lazymatch H with Hx => fail | _ => rewrite Hx in H end end.

Ltac bit_cases := repeat match goal with b : bool |- _ => destruct b end; cbn [bit negb andb orb] in *.

Section Sound.
Context {F : Felt} {Q : Quad} {C : Crypto}.
Add Ring felt_ring_sound : felt_ring_theory.

(** *** Moves of stack items *)
Definition moves_of_items : list Operation :=
  [Noop; Swap; SwapW; SwapW2; SwapDW; Pad; Clk; Dup0; Dup1; Dup2; Dup3; Dup4; Dup5; Dup6; Dup7; Dup9; Dup11; Dup13; Dup15;
   MovUp2; MovUp3; MovUp4; MovUp5; MovUp6; MovUp7; MovUp8; MovDn2; MovDn3; MovDn4; MovDn5; MovDn6; MovDn7; MovDn8].

Lemma sound_moves : Forall step_sound moves_of_items.
Proof. repeat constructor; sound_move. Qed.

Lemma sound_sdepth : step_sound SDepth.
Proof. sound_move. rewrite from_u32_new by lia. congruence. Qed.
Lemma sound_drop : step_sound Drop.
Proof. sound_run @run_drop. Qed.

(** *** Field arithmetic *)
Lemma sound_add : step_sound Add. Proof. sound_run @run_add. Qed.
Lemma sound_mul : step_sound Mul. Proof. sound_run @run_mul. Qed.
Lemma sound_incr : step_sound Incr. Proof. sound_run @run_incr. Qed.

Lemma sound_neg : step_sound Neg.
Proof. sound_run @run_neg. top0 E. by_ring E. Qed.

Lemma sound_assert e : step_sound (Assert e).
Proof. sound_start.
  match goal with H : l (ColTop 0) = _ |- _ => rewrite new_unchecked_1 in H end. sound_with @run_assert. Qed.

Lemma sound_inv : step_sound Inv.
Proof.
  sound_start.
  match goal with H : (n (ColTop 0) * l (ColTop 0))%F = _ |- _ => rewrite new_unchecked_1 in H; rename H into Hinv end.
  eapply shown_run; [reflexivity|apply run_inv|sound_end].
  - intros E. rewrite E in Hinv. apply ONE_neq_ZERO. rewrite <-Hinv. ring.
  - symmetry. apply felt_inverse_unique. rewrite <-Hinv. ring.
Qed.

Lemma sound_not : step_sound Not.
Proof.
  sound_start. sound_bools. sound_with @run_not. top0 E. rewrite new_unchecked_1 in E. bit_cases; by_ring E.
Qed.
Lemma sound_and : step_sound And.
Proof. sound_start. sound_bools. sound_with @run_and. top0 E. bit_cases; by_ring E. Qed.
Lemma sound_or : step_sound Or.
Proof. sound_start. sound_bools. sound_with @run_or. top0 E. bit_cases; by_ring E. Qed.

Lemma sound_eqz : step_sound Eqz.
Proof. sound_run @run_eqz. symmetry. eapply zero_flag; eassumption. Qed.
Lemma sound_eq : step_sound Eq.
Proof.
  sound_run @run_eq. symmetry. etransitivity; [eapply zero_flag; eassumption|]. f_equal. apply bool_decide_ext. split.
  - intros E. by apply felt_sub_zero in E.
  - intros ->. ring.
Qed.

Lemma sound_ext2mul : step_sound Ext2Mul.
Proof.
  sound_run @run_ext2mul; rewrite quad_mul_new, ?coef0_new, ?coef1_new;
    match goal with H : ?y = _ |- _ = ?y => rewrite H; ring end.
Qed.

(** *** Conditional swaps *)
Lemma run_cswapw_0 a b c d e f g h l : runs (ZERO :: a :: b :: c :: d :: e :: f :: g :: h :: l) CSwapW (a :: b :: c :: d :: e :: f :: g :: h :: pad_to 8 l).
Proof. intros q. eexists. cbn [execute_op]. cbv [op_cswapw]. eval_op. rewrite canonical_ZERO. reflexivity. Qed.
Lemma run_cswapw_1 a b c d e f g h l : runs (ONE :: a :: b :: c :: d :: e :: f :: g :: h :: l) CSwapW (e :: f :: g :: h :: a :: b :: c :: d :: pad_to 8 l).
Proof. intros q. eexists. cbn [execute_op]. cbv [op_cswapw]. eval_op. rewrite canonical_ONE. reflexivity. Qed.

Lemma sound_cswap : step_sound CSwap.
Proof.
  sound_start. sound_bools. destruct b; cbn [bit] in *; [sound_with @run_cswap_1|sound_with @run_cswap_0].
Qed.
Lemma sound_cswapw : step_sound CSwapW.
Proof.
  sound_start. sound_bools. destruct b; cbn [bit] in *; [sound_with @run_cswapw_1|sound_with @run_cswapw_0].
Qed.
End Sound.

(** ** 32-bit operations *)
Section U32.
Context {F : Felt} {Q : Quad} {C : Crypto}.
Add Ring felt_ring_u32 : felt_ring_theory.

Definition small (x : felt) : Prop := ⟦x⟧ < 2 ^ 32.

(** [op] with [k] operands the constraints do not check themselves *)
Definition step_sound_u32 (k : nat) (op : Operation) : Prop := forall l n p, row_of l op p -> limbs_checked l ->
  Forall (fun i => small (l (ColTop i))) (seq 0 k) -> satisfied false false l n enforce_main -> shown op p n.

(** ** Values of limbs *)

Lemma fe_of (x : felt) : fe ⟦x⟧ = x.
Proof. apply canonical_inj, fe_canonical, canonical_range. Qed.

Lemma two_limbs (a b : felt) : ⟦a⟧ < 2 ^ 16 -> ⟦b⟧ < 2 ^ 16 -> (b * fe 65536 + a)%F = fe (⟦b⟧ * 2 ^ 16 + ⟦a⟧).
Proof.
  intros Ha Hb. pose proof (canonical_range a). pose proof (canonical_range b). rewrite <-(fe_of a) at 1. rewrite <-(fe_of b) at 1.
  unfold modulus in *. rewrite fe_mul, fe_add by (unfold modulus; lia). done.
Qed.

(** The value of a high and a low half as an integer, when it is below the order *)
Lemma halves (lo hi x : Z) : u32 lo -> u32 hi -> hi * 2 ^ 32 + lo < modulus -> 0 <= x < modulus ->
  fe x = (fe hi * fe 4294967296 + fe lo)%F -> lo = x mod 2 ^ 32 /\ hi = x / 2 ^ 32.
Proof.
  unfold u32. intros Hlo Hhi Hm Hx E. unfold modulus in *.
  rewrite fe_mul, fe_add in E by (unfold modulus; lia). apply fe_inj in E; [|unfold modulus; lia..]. subst x.
  change (2 ^ 32) with 4294967296 in *. split; zlia.
Qed.

(** The check that goes with a 64-bit value: when the high half is all ones the low half is zero. *)
Lemma canonical_check (lo hi : Z) (m : felt) : u32 lo -> u32 hi ->
  ((fe 1 - m * (fe 4294967295 - fe hi)) * fe lo)%F = ZERO -> hi * 2 ^ 32 + lo < modulus.
Proof.
  unfold u32. intros Hlo Hhi H. unfold modulus. apply felt_mul_zero in H as [H|H].
  - destruct (Z.eq_dec hi 4294967295) as [->|]; [|lia]. apply felt_sub_zero in H. exfalso. apply ONE_neq_ZERO.
    rewrite <-fe_1, H. ring.
  - rewrite <-fe_0 in H. apply fe_inj in H; unfold modulus; lia.
Qed.

(** The limbs of a row *)
Lemma limbs_values (l : row) : limbs_checked l -> exists lo hi, u32 lo /\ u32 hi /\
  (l (ColHasherState 3) * fe 65536 + l (ColHasherState 2))%F = fe lo /\ (l (ColHasherState 5) * fe 65536 + l (ColHasherState 4))%F = fe hi /\
  (l (ColHasherState 5) * fe 281474976710656 + (l (ColHasherState 4) * fe 4294967296 + fe lo))%F = (fe hi * fe 4294967296 + fe lo)%F /\
  (l (ColHasherState 5) = ZERO -> hi < 2 ^ 16 /\ (l (ColHasherState 4) * fe 4294967296 + fe lo)%F = (fe hi * fe 4294967296 + fe lo)%F).
Proof.
  intros Hl. pose proof (Hl 0%nat ltac:(lia)) as L0. pose proof (Hl 1%nat ltac:(lia)) as L1.
  pose proof (Hl 2%nat ltac:(lia)) as L2. pose proof (Hl 3%nat ltac:(lia)) as L3. cbn in L0, L1, L2, L3.
  pose proof (canonical_range (l (ColHasherState 2))). pose proof (canonical_range (l (ColHasherState 3))).
  pose proof (canonical_range (l (ColHasherState 4))). pose proof (canonical_range (l (ColHasherState 5))).
  exists (⟦l (ColHasherState 3)⟧ * 2 ^ 16 + ⟦l (ColHasherState 2)⟧), (⟦l (ColHasherState 5)⟧ * 2 ^ 16 + ⟦l (ColHasherState 4)⟧).
  rewrite !two_limbs by lia. unfold u32. split_and!; try done; try lia.
  - rewrite <-(two_limbs (l (ColHasherState 4))) by lia.
    replace (fe 281474976710656) with (fe 65536 * fe 4294967296)%F by (rewrite fe_mul by (unfold modulus; lia); done). ring.
  - intros E. rewrite <-(two_limbs (l (ColHasherState 4))) by lia. rewrite E, canonical_ZERO. split; [lia|ring].
Qed.

Lemma fe_sum2 (a b : felt) : small a -> small b -> (a + b)%F = fe (⟦a⟧ + ⟦b⟧).
Proof.
  unfold small. intros. pose proof (canonical_range a). pose proof (canonical_range b).
  rewrite <-(fe_of a) at 1. rewrite <-(fe_of b) at 1. apply fe_add; unfold modulus; lia.
Qed.
Lemma fe_sum3 (a b c : felt) : small a -> small b -> small c -> (a + b + c)%F = fe (⟦a⟧ + ⟦b⟧ + ⟦c⟧).
Proof.
  unfold small. intros. pose proof (canonical_range a). pose proof (canonical_range b). pose proof (canonical_range c).
  rewrite (fe_sum2 a b) by done. rewrite <-(fe_of c) at 1. apply fe_add; unfold modulus; lia.
Qed.
Lemma fe_prod (a b : felt) : small a -> small b -> (a * b)%F = fe (⟦a⟧ * ⟦b⟧) /\ 0 <= ⟦a⟧ * ⟦b⟧ <= 18446744065119617025.
Proof.
  unfold small. intros. pose proof (canonical_range a). pose proof (canonical_range b). split; [|nia].
  rewrite <-(fe_of a) at 1. rewrite <-(fe_of b) at 1. apply fe_mul; unfold modulus in *; nia.
Qed.

Lemma small_u32 (a : felt) : small a -> u32 ⟦a⟧.
Proof. unfold small, u32. pose proof (canonical_range a). lia. Qed.

(** The runs of [OpSpecs], on field elements *)
Ltac felt_run H := rewrite !fe_of in H; eauto using small_u32.

Lemma felt_u32split a l : runs (a :: l) U32split (fe (⟦a⟧ mod 2 ^ 32) :: fe (⟦a⟧ / 2 ^ 32) :: l).
Proof. pose proof (run_u32split ⟦a⟧ l (canonical_range a)) as H. felt_run H. Qed.
Lemma felt_u32add a b l : small a -> small b ->
  runs (a :: b :: l) U32add (fe ((⟦a⟧ + ⟦b⟧) mod 2 ^ 32) :: fe ((⟦a⟧ + ⟦b⟧) / 2 ^ 32) :: l).
Proof. intros. pose proof (run_u32add ⟦a⟧ ⟦b⟧ l) as H1. felt_run H1. Qed.
Lemma felt_u32add3 a b c l : small a -> small b -> small c ->
  runs (a :: b :: c :: l) U32add3 (fe ((⟦a⟧ + ⟦b⟧ + ⟦c⟧) mod 2 ^ 32) :: fe ((⟦a⟧ + ⟦b⟧ + ⟦c⟧) / 2 ^ 32) :: pad_to 14 l).
Proof. intros. pose proof (run_u32add3 ⟦a⟧ ⟦b⟧ ⟦c⟧ l) as H2. felt_run H2. Qed.
Lemma felt_u32mul a b l : small a -> small b ->
  runs (a :: b :: l) U32mul (fe ((⟦a⟧ * ⟦b⟧) mod 2 ^ 32) :: fe ((⟦a⟧ * ⟦b⟧) / 2 ^ 32) :: l).
Proof. intros. pose proof (run_u32mul ⟦a⟧ ⟦b⟧ l) as H1. felt_run H1. Qed.
Lemma felt_u32madd a b c l : small a -> small b -> small c ->
  runs (a :: b :: c :: l) U32madd (fe ((⟦a⟧ * ⟦b⟧ + ⟦c⟧) mod 2 ^ 32) :: fe ((⟦a⟧ * ⟦b⟧ + ⟦c⟧) / 2 ^ 32) :: pad_to 14 l).
Proof. intros. pose proof (run_u32madd ⟦a⟧ ⟦b⟧ ⟦c⟧ l) as H2. felt_run H2. Qed.
Lemma felt_u32sub b a l : small a -> small b ->
  runs (b :: a :: l) U32sub (bit (⟦a⟧ <? ⟦b⟧) :: fe ((⟦a⟧ - ⟦b⟧) mod 2 ^ 32) :: l).
Proof. intros. pose proof (run_u32sub ⟦b⟧ ⟦a⟧ l) as H1. felt_run H1. Qed.
Lemma felt_u32assert2 a b e l : small a -> small b -> runs (a :: b :: l) (U32assert2 e) (a :: b :: l).
Proof. intros. pose proof (run_u32assert2 ⟦a⟧ ⟦b⟧ e l) as H1. felt_run H1. Qed.

(** ** The operations *)

Ltac u32_open op :=
  intros l n p Hr Hl Hu Hs; destruct (limbs_values l Hl) as (lo & hi & Hlo & Hhi & Elo & Ehi & E64 & E48); sound_open op;
  cbn [seq] in Hu; repeat (let H := fresh in apply list.Forall_cons in Hu as [H Hu]; pose proof (small_u32 _ H)); rewrite ?Elo, ?Ehi, ?E64 in *.

(** The two results from the limbs of the value *)
Ltac u32_results lem Hx :=
  eapply shown_run; [reflexivity|apply lem; assumption|];
  let H1 := fresh in let H2 := fresh in
  apply halves in Hx as [H1 H2]; [rewrite <-H1, <-H2; sound_end|assumption|assumption|try (unfold u32, modulus in *; lia)..].

Lemma sound_u32add : step_sound_u32 2 U32add.
Proof.
  u32_open U32add. destruct E48 as [? E48]; [done|]. rewrite E48, fe_sum2 in * by done.
  match goal with H : fe (_ + _) = _ |- _ => u32_results @felt_u32add H end.
Qed.
Lemma sound_u32add3 : step_sound_u32 3 U32add3.
Proof.
  u32_open U32add3. destruct E48 as [? E48]; [done|]. rewrite E48, fe_sum3 in * by done.
  match goal with H : fe (_ + _) = _ |- _ => u32_results @felt_u32add3 H end.
Qed.

Ltac canonical_value :=
  match goal with H : ((fe 1 - _ * (fe 4294967295 - fe ?hi)) * fe ?lo)%F = ZERO |- _ => apply canonical_check in H; [|done..] end.

Lemma sound_u32split : step_sound_u32 0 U32split.
Proof.
  u32_open U32split. canonical_value. pose proof (canonical_range (l (ColTop 0))).
  match goal with H : l (ColTop 0) = (fe _ * _ + _)%F |- _ => rewrite <-(fe_of (l (ColTop 0))) in H; u32_results @felt_u32split H end.
Qed.
Lemma sound_u32mul : step_sound_u32 2 U32mul.
Proof.
  u32_open U32mul. canonical_value. destruct (fe_prod (l (ColTop 0)) (l (ColTop 1))) as [E Hp]; [done..|].
  rewrite E in *. match goal with H : fe (_ * _) = _ |- _ => u32_results @felt_u32mul H end.
Qed.
Lemma sound_u32madd : step_sound_u32 3 U32madd.
Proof.
  u32_open U32madd. canonical_value. destruct (fe_prod (l (ColTop 0)) (l (ColTop 1))) as [E Hp]; [done..|].
  assert (E2 : (fe (⟦l (ColTop 0)⟧ * ⟦l (ColTop 1)⟧) + l (ColTop 2))%F = fe (⟦l (ColTop 0)⟧ * ⟦l (ColTop 1)⟧ + ⟦l (ColTop 2)⟧)).
  { rewrite <-(fe_of (l (ColTop 2))) at 1. apply fe_add; unfold u32, modulus in *; lia. }
  rewrite E, E2 in *. match goal with H : fe (_ + _) = _ |- _ => u32_results @felt_u32madd H end.
Qed.

Lemma sound_u32assert2 e : step_sound_u32 0 (U32assert2 e).
Proof.
  u32_open (U32assert2 e). eapply shown_run; [reflexivity|apply felt_u32assert2|sound_end].
  - unfold small. assert (l (ColTop 0) = fe hi) as -> by congruence. rewrite fe_u32 by done. apply Hhi.
  - unfold small. assert (l (ColTop 1) = fe lo) as -> by congruence. rewrite fe_u32 by done. apply Hlo.
Qed.

(** A difference of 32-bit values and its borrow *)
Lemma sub_result (x y d : Z) (b : bool) : u32 x -> u32 y -> u32 d -> fe x = (fe y + fe d - bit b * fe 4294967296)%F ->
  b = (x <? y) /\ d = (x - y) mod 2 ^ 32.
Proof.
  unfold u32. intros Hx Hy Hd E. assert (E' : fe (x + (if b then 4294967296 else 0)) = fe (y + d)).
  { rewrite <-!fe_add by (unfold modulus; destruct b; lia). rewrite E. destruct b; cbn [bit]; rewrite ?fe_0; ring. }
  apply fe_inj in E'; [|unfold modulus; destruct b; lia..]. change (2 ^ 32) with 4294967296 in *.
  destruct b, (Z.ltb_spec x y); split; zlia.
Qed.

Lemma sound_u32sub : step_sound_u32 2 U32sub.
Proof.
  u32_open U32sub. sound_bools. rename b into borrow.
  match goal with E : l (ColTop 1) = (_ - _)%F, E1 : n (ColTop 1) = fe lo |- _ =>
    rewrite E1, <-(fe_of (l (ColTop 0))), <-(fe_of (l (ColTop 1))) in E; apply sub_result in E as [-> ->]; [|done..] end.
  eapply shown_run; [reflexivity|apply felt_u32sub; assumption|sound_end].
Qed.
End U32.
