(* ===== verification/AirComplete.v ===== *)
(** * The trace of the processor satisfies the stack constraints

    The row of an operation, with the helper columns the processor fills from the helper registers of the operation, and the row
    of the stack after it satisfy the main constraints of the stack. *)

From S2P Require Import Prelude Bits Field Types Operations OperandStack Memory Advice Ace Processor OpSpecs CryptoOps Air AirFlags AirStack AirRows AirSound.
From Stdlib Require Import Ring.
Import Op Air OpFlags AirStack.
#[local] Open Scope Z_scope.

Section Honest.
Context {F : Felt} {Q : Quad} {C : Crypto}.
Add Ring felt_ring_honest : felt_ring_theory.

(** The helper columns of an operation and of the overflow table *)
Record helpers_of (l : row) (h : OperationHelperRegisters) : Prop := {
  ho_user : ((fun i => l (ColHasherState (2 + i))) <$> seq 0 6) = to_user_op_helpers h;
  ho_overflow : l ColH0 = inverse_or_zero (l ColB0 - new_unchecked 16)%F;
}.

(** The row after an operation: the top of the stack, its depth and, when an item went to the overflow table, the clock cycle of
    that row. *)
Record row_after (l n : row) (op : Operation) (st : list felt) : Prop := {
  ra_top i : (i < 16)%nat -> st !! i = Some (n (ColTop i));
  ra_depth : n ColB0 = new_unchecked (Z.of_nat (length st));
  ra_overflow : increments_stack_size op = true -> n ColB1 = l ColClk;
}.

Definition step_complete (op : Operation) : Prop := forall l n p h p', row_of l op p -> execute_op op p = Ok (h, p') ->
  helpers_of l h -> row_after l n op (stack p') -> satisfied false false l n enforce_main.
Definition step_complete_when (op : Operation) (when : row -> Prop) : Prop := forall l n p h p', row_of l op p -> execute_op op p = Ok (h, p') ->
  helpers_of l h -> row_after l n op (stack p') -> when l -> satisfied false false l n enforce_main.

(** ** The overflow columns *)

Lemma overflow_honest (b0 h0 : felt) (k : nat) : Z.of_nat (16 + k) < 2 ^ 32 -> b0 = new_unchecked (Z.of_nat (16 + k)) ->
  h0 = inverse_or_zero (b0 - new_unchecked 16)%F -> ((b0 - new_unchecked 16) * h0)%F = if (k =? 0)%nat then ZERO else ONE.
Proof.
  intros Hk Hb ->. unfold inverse_or_zero. case_bool_decide as E.
  - apply felt_sub_zero in E. rewrite Hb in E. apply (f_equal as_canonical_u64) in E.
    rewrite !canonical_new in E by (unfold modulus; lia). destruct k; [|lia]. cbn. ring.
  - destruct k as [|k]; [destruct E; rewrite Hb; change (Z.of_nat (16 + 0)) with 16; ring|]. cbn.
    rewrite <-(inverse_mul (b0 - new_unchecked 16)%F) by done. ring.
Qed.

Lemma overflow_depth (b0 ov : felt) (k : nat) : b0 = new_unchecked (Z.of_nat (16 + k)) -> ov = (if (k =? 0)%nat then ZERO else ONE) ->
  ((new_unchecked 1 - ov) * (b0 - new_unchecked 16))%F = ZERO.
Proof.
  intros -> ->. destruct k; cbn [Nat.eqb]; rewrite ?new_unchecked_1; [|ring]. change (Z.of_nat (16 + 0)) with 16. ring.
Qed.

(** Depth and last position after a left shift *)
Lemma left_depth (nb lb ov : felt) (rest : list felt) : lb = new_unchecked (Z.of_nat (16 + length rest)) ->
  nb = new_unchecked (Z.of_nat (15 + length (pad_to 1 rest))) -> Z.of_nat (16 + length rest) + 1 < 2 ^ 32 ->
  ov = (if (length rest =? 0)%nat then ZERO else ONE) -> (nb - lb + ov)%F = ZERO.
Proof.
  intros -> -> Hk ->. rewrite length_pad_to. destruct rest as [|x rest]; cbn [length Nat.eqb].
  - change (Z.of_nat (15 + Nat.max 1 0)) with (Z.of_nat (16 + 0)). ring.
  - replace (15 + Nat.max 1 (S (length rest)))%nat with (16 + length rest)%nat by lia.
    replace (16 + S (length rest))%nat with (S (16 + length rest)) by lia. cbn [length] in Hk. rewrite depth_succ by lia. ring.
Qed.

Lemma left_last (x ov : felt) (rest : list felt) : pad_to 1 rest !! 0%nat = Some x -> ov = (if (length rest =? 0)%nat then ZERO else ONE) ->
  ((new_unchecked 1 - ov) * x)%F = ZERO.
Proof.
  rewrite pad_to_1, new_unchecked_1. intros Hx ->. destruct rest as [|y rest]; cbn in *; [injection Hx as <-|]; ring.
Qed.

(** The stack after a run *)
Lemma run_result op (p : Proc (list felt)) L st h p' : stack p = L -> runs L op st -> execute_op op p = Ok (h, p') -> stack p' = st.
Proof.
  intros HL Hr Hx. destruct (Hr p) as [h' Hh]. subst L. replace (with_stack (stack p) p) with p in Hh by (by destruct p).
  rewrite Hx in Hh. injection Hh as -> ->. done.
Qed.
End Honest.

(** Open the row of the operation and compute the constraints on it. *)
Ltac complete_open_at op :=
  let Hst := fresh "Hst" in let rest := fresh "rest" in
  intros l n p h p' [Hk (rest & Hst) Hsm Hd Hc Hh] Hx [Hu Ho] [Ht Hb Hb1]; try intros Hwhen; apply (stack_eqs l n op Hk);
  let r := eval vm_compute in (residual (op_knowledge (op_code op)) enforce_main) in
  let E := fresh in
  assert (E : residual (op_knowledge (op_code op)) enforce_main = r) by (vm_compute; reflexivity);
  rewrite E; clear E; cbn [eqs foldr on body eval];
  destruct p as [st pclk pctx ph padv pmem pcs popt ppc]; cbn [stack clk caller_hash] in *; cbn in Hst; subst st;
  cbn [length] in Hd, Hsm; cbn in Hu;
  pose proof (overflow_honest _ _ (length rest) ltac:(cbn; lia) Hd Ho) as Hov.
Ltac complete_open := lazymatch goal with |- step_complete ?op => complete_open_at op | |- step_complete_when ?op _ => complete_open_at op end.

(** The items of the next row *)
Ltac next_items :=
  match goal with Ht : forall i, (i < 16)%nat -> ?st !! i = Some (?n (ColTop i)) |- _ =>
    pose proof (Ht 0%nat ltac:(lia)); pose proof (Ht 1%nat ltac:(lia)); pose proof (Ht 2%nat ltac:(lia)); pose proof (Ht 3%nat ltac:(lia));
    pose proof (Ht 4%nat ltac:(lia)); pose proof (Ht 5%nat ltac:(lia)); pose proof (Ht 6%nat ltac:(lia)); pose proof (Ht 7%nat ltac:(lia));
    pose proof (Ht 8%nat ltac:(lia)); pose proof (Ht 9%nat ltac:(lia)); pose proof (Ht 10%nat ltac:(lia)); pose proof (Ht 11%nat ltac:(lia));
    pose proof (Ht 12%nat ltac:(lia)); pose proof (Ht 13%nat ltac:(lia)); pose proof (Ht 14%nat ltac:(lia)); pose proof (Ht 15%nat ltac:(lia));
    clear Ht
  end;
  repeat match goal with H : (_ :: _) !! _ = Some _ |- _ => cbn [lookup list_lookup] in H end;
  repeat match goal with H : Some ?x = Some (?n (ColTop ?i)) |- _ => injection H as H; rewrite <-?H end.

(** One equation of the next row *)
Ltac complete_eq :=
  first
    [ ring
    | match goal with Hov : ?ov = if (length ?rest =? 0)%nat then _ else _, Hd : ?lb = fe _ |- ((fe 1 - ?ov) * (?lb - fe 16))%F = ZERO =>
        exact (overflow_depth lb ov (length rest) Hd Hov) end
    | match goal with Hov : ?ov = if (length ?rest =? 0)%nat then _ else _ |- ((fe 1 - ?ov) * ?x)%F = ZERO =>
        apply (left_last x ov rest); [assumption|exact Hov] end
    | match goal with Hov : ?ov = if (length ?rest =? 0)%nat then _ else _, Hd : ?lb = fe _, Hb : ?nb = fe _, Hsm : _ + 1 < 2 ^ 32 |- (?nb - ?lb + ?ov)%F = ZERO =>
        exact (left_depth nb lb ov rest Hd Hb Hsm Hov) end
    | match goal with Hd : ?lb = fe _, Hb : ?nb = fe _ |- (?nb - ?lb - fe 1)%F = ZERO =>
        rewrite Hb, Hd, new_unchecked_1; etransitivity; [|instantiate (1 := (ONE - ONE)%F); ring]; f_equal; rewrite depth_succ by (cbn; lia); ring end
    | match goal with Hd : ?lb = fe _, Hb : ?nb = fe _ |- (?nb - ?lb)%F = ZERO => rewrite Hb, Hd; ring end
    | exact I ].

(** The processor computes the stack by evaluation, or by a run. *)
Ltac complete_eqs := next_items; split_and!; try complete_eq.
Ltac complete_eval :=
  match goal with Hx : execute_op _ _ = Ok _ |- _ =>
    revert Hx; eval_op; let E := fresh in intros E; injection E as <- <- end;
  cbn in *; rewrite ?take_0, ?drop_0 in *; cbn [app length] in *; complete_eqs.
Ltac complete_move := complete_open; complete_eval.
Ltac complete_by lem :=
  match goal with Hx : execute_op _ _ = Ok _ |- _ => eapply run_result in Hx; [|reflexivity|apply lem]; rewrite Hx, ?pad_to_cons in *; clear Hx end;
  cbn [length] in *; complete_eqs.
Ltac complete_run lem := complete_open; complete_by lem.

Section Complete.
Context {F : Felt} {Q : Quad} {C : Crypto}.
Add Ring felt_ring_complete : felt_ring_theory.

Lemma run_swapdw x0 x1 x2 x3 x4 x5 x6 x7 x8 x9 x10 x11 x12 x13 x14 x15 l :
  runs (x0 :: x1 :: x2 :: x3 :: x4 :: x5 :: x6 :: x7 :: x8 :: x9 :: x10 :: x11 :: x12 :: x13 :: x14 :: x15 :: l) SwapDW
    (x8 :: x9 :: x10 :: x11 :: x12 :: x13 :: x14 :: x15 :: x0 :: x1 :: x2 :: x3 :: x4 :: x5 :: x6 :: x7 :: l).
Proof. intros q. by eexists. Qed.
Lemma complete_swapdw : step_complete SwapDW.
Proof. complete_run @run_swapdw. Qed.

(** The moves but for [SWAPDW] *)
Lemma complete_moves : Forall (fun op => op = SwapDW \/ step_complete op) (SwapW3 :: moves_of_items).
Proof.
  unfold moves_of_items. repeat first [apply Forall_nil_2 | apply Forall_cons_2];
    first [left; reflexivity | right; complete_move; rewrite ?Hb1, ?Hc by done; try complete_eq].
Qed.
Lemma complete_sdepth : step_complete SDepth.
Proof. complete_move; rewrite ?Hb1 by done; try complete_eq. rewrite Hd, from_u32_new by lia. ring. Qed.
Lemma complete_caller : step_complete Caller.
Proof. complete_open. destruct ph. cbn in Hh. injection Hh as E0 E1 E2 E3. complete_eval; rewrite ?E0, ?E1, ?E2, ?E3; ring. Qed.
Lemma complete_drop : step_complete Drop. Proof. complete_run @run_drop. Qed.

(** *** Field arithmetic *)
Lemma complete_add : step_complete Add. Proof. complete_run @run_add. Qed.
Lemma complete_mul : step_complete Mul. Proof. complete_run @run_mul. Qed.
Lemma complete_neg : step_complete Neg. Proof. complete_run @run_neg. Qed.
Lemma complete_incr : step_complete Incr. Proof. complete_run @run_incr. rewrite new_unchecked_1. ring. Qed.
Lemma complete_ext2mul : step_complete Ext2Mul.
Proof. complete_run @run_ext2mul; rewrite quad_mul_new, ?coef0_new, ?coef1_new; ring. Qed.

Lemma complete_assert e : step_complete (Assert e).
Proof.
  complete_open. destruct (decide (l (ColTop 0) = ONE)) as [E|E].
  - rewrite E in *. complete_by @run_assert. rewrite new_unchecked_1. ring.
  - revert Hx. eval_op. by rewrite bool_decide_true.
Qed.
Lemma complete_inv : step_complete Inv.
Proof.
  complete_open. destruct (decide (l (ColTop 0) = ZERO)) as [E|E].
  - revert Hx. eval_op. by rewrite bool_decide_true.
  - pose proof (fun rest => run_inv _ rest E) as Hrun. complete_by Hrun. rewrite inverse_mul, new_unchecked_1 by done. ring.
Qed.

Lemma bit_eqs b : (bit b * (bit b - new_unchecked 1))%F = ZERO.
Proof. rewrite new_unchecked_1. destruct b; cbn; ring. Qed.
Lemma binary_bit x : assert_binary x = Ok () -> exists b, x = bit b.
Proof.
  unfold assert_binary. destruct (decide (x = ZERO)) as [->|H0]; [by exists false|]. destruct (decide (x = ONE)) as [->|H1]; [by exists true|].
  by rewrite !bool_decide_true.
Qed.

Lemma complete_not : step_complete Not.
Proof.
  complete_open. assert (exists b, l (ColTop 0) = bit b) as [b E].
  { revert Hx. eval_op. case_bool_decide; [by exists false|]. case_bool_decide; [by exists true|done]. }
  rewrite E in *. complete_by @run_not; [apply bit_eqs|]. rewrite new_unchecked_1. destruct b; cbn; ring.
Qed.

(** Operands of a logical operation that executes are bits. *)
Lemma binary_operands op (p : Proc (list felt)) a b rest r : op = And \/ op = Or -> execute_op op p = Ok r -> stack p = b :: a :: rest ->
  exists x y, a = bit x /\ b = bit y.
Proof.
  intros Hop Hx Hst. destruct p. cbn in Hst. subst. destruct Hop as [-> | ->]; revert Hx; eval_op;
    destruct (assert_binary b) as [[]| |] eqn:Eb; cbn; try done; destruct (assert_binary a) as [[]| |] eqn:Ea; cbn; try done; intros _;
    apply binary_bit in Ea as [x ->], Eb as [y ->]; by exists x, y.
Qed.

Lemma complete_and : step_complete And.
Proof.
  complete_open. destruct (binary_operands And _ _ _ _ _ (or_introl eq_refl) Hx eq_refl) as (x & y & E1 & E0). rewrite E0, E1 in *.
  complete_by @run_and; try apply bit_eqs. destruct x, y; cbn; ring.
Qed.
Lemma complete_or : step_complete Or.
Proof.
  complete_open. destruct (binary_operands Or _ _ _ _ _ (or_intror eq_refl) Hx eq_refl) as (x & y & E1 & E0). rewrite E0, E1 in *.
  complete_by @run_or; try apply bit_eqs. destruct x, y; cbn; ring.
Qed.

(** *** Conditional swaps *)
Lemma canonical_bit (x : felt) : ⟦x⟧ = 0 \/ ⟦x⟧ = 1 -> exists b, x = bit b.
Proof.
  intros [E|E]; [exists false|exists true]; apply canonical_inj; cbn [bit]; rewrite E; [by rewrite canonical_ZERO|by rewrite canonical_ONE].
Qed.
Lemma selector_bit op (p : Proc (list felt)) a rest r : op = CSwap \/ op = CSwapW -> execute_op op p = Ok r -> stack p = a :: rest ->
  exists b, a = bit b.
Proof.
  intros Hop Hx Hst. destruct p. cbn in Hst. subst. destruct Hop as [-> | ->]; revert Hx; cbn [execute_op]; cbv [op_cswapw]; eval_op;
    intros Hx; apply canonical_bit; destruct ⟦a⟧ as [|[]|]; auto; discriminate.
Qed.

Lemma complete_cswap : step_complete CSwap.
Proof.
  complete_open. destruct (selector_bit CSwap _ _ _ _ (or_introl eq_refl) Hx eq_refl) as ([] & E); cbn in E; rewrite E in *.
  - complete_by @run_cswap_1; rewrite new_unchecked_1; ring.
  - complete_by @run_cswap_0; rewrite new_unchecked_1; ring.
Qed.
Lemma complete_cswapw : step_complete CSwapW.
Proof.
  complete_open. destruct (selector_bit CSwapW _ _ _ _ (or_intror eq_refl) Hx eq_refl) as ([] & E); cbn in E; rewrite E in *.
  - complete_by @run_cswapw_1; rewrite new_unchecked_1; ring.
  - complete_by @run_cswapw_0; rewrite new_unchecked_1; ring.
Qed.
End Complete.

(** ** 32-bit operations *)
Section Exec.
Context {F : Felt} {Q : Quad} {C : Crypto}.
Add Ring felt_ring_exec : felt_ring_theory.

(** [op] takes the stack [L] to [st] and reports [H]. *)
Definition reports (L : list felt) (op : Operation) (H : OperationHelperRegisters) (st : list felt) : Prop :=
  forall q : Proc (list felt), execute_op op (with_stack L q) = Ok (H, with_stack st q).

Lemma reports_result op (p : Proc (list felt)) L H st h p' : stack p = L -> reports L op H st -> execute_op op p = Ok (h, p') ->
  h = H /\ stack p' = st.
Proof.
  intros HL Hr Hx. specialize (Hr p). subst L. replace (with_stack (stack p) p) with p in Hr by (by destruct p).
  rewrite Hx in Hr. by injection Hr as -> ->.
Qed.

(** *** Comparisons and exponentiation *)
Lemma reports_eq b a l : reports (b :: a :: l) Eq (HEq a b) (bit (bool_decide (a = b)) :: pad_to 15 l).
Proof. intros q. reflexivity. Qed.
Lemma reports_eqz a l : reports (a :: l) Eqz (HEqz a) (bit (bool_decide (a = ZERO)) :: l).
Proof. intros q. reflexivity. Qed.
Lemma reports_expacc z b acc e l : reports (z :: b :: acc :: e :: l) Expacc (HExpacc (if Z.odd ⟦e⟧ then b else ONE))
  (bit (Z.odd ⟦e⟧) :: (b * b)%F :: (acc * (if Z.odd ⟦e⟧ then b else ONE))%F :: fe (⟦e⟧ / 2) :: l).
Proof.
  intros q. eval_op. rewrite (Z.land_ones ⟦e⟧ 1 ltac:(done) : Z.land ⟦e⟧ 1 = ⟦e⟧ mod 2), Z.shiftr_div_pow2 by done.
  change (2 ^ 1) with 2. rewrite Zmod_odd. destruct (Z.odd ⟦e⟧); cbn; rewrite ?fe_0, ?fe_1; reflexivity.
Qed.

(** *** 32-bit operations *)

Lemma invalid_nil vs : invalid_u32s vs = [] -> Forall small vs.
Proof.
  intros E. apply Forall_forall. intros x Hx. unfold small. apply Z.nle_gt. intros Hle.
  apply (proj2 (invalid_u32s_spec vs)); [|done]. apply Exists_exists. by exists x.
Qed.

Lemma small_operands2 op (p : Proc (list felt)) a b rest r : op ∈ [U32add; U32sub; U32mul; U32div; U32and; U32xor] -> execute_op op p = Ok r ->
  stack p = a :: b :: rest -> small a /\ small b.
Proof.
  intros Hop Hx Hst. destruct p. cbn in Hst. subst.
  assert (E : invalid_u32s [a; b] = []).
  { destruct (invalid_u32s [a; b]) as [|v vs] eqn:E; [done|]. rewrite !elem_of_cons, elem_of_nil in Hop.
    destruct_or? Hop; subst; revert Hx; eval_op; rewrite ?E; done. }
  apply invalid_nil in E. rewrite !list.Forall_cons in E. tauto.
Qed.
Lemma small_operands3 op (p : Proc (list felt)) a b c rest r : op ∈ [U32add3; U32madd] -> execute_op op p = Ok r ->
  stack p = a :: b :: c :: rest -> small a /\ small b /\ small c.
Proof.
  intros Hop Hx Hst. destruct p. cbn in Hst. subst.
  assert (E : invalid_u32s [a; b; c] = []).
  { destruct (invalid_u32s [a; b; c]) as [|v vs] eqn:E; [done|]. rewrite !elem_of_cons, elem_of_nil in Hop.
    destruct_or? Hop; subst; revert Hx; eval_op; rewrite ?E; done. }
  apply invalid_nil in E. rewrite !list.Forall_cons in E. tauto.
Qed.

Ltac reports_u32 :=
  intros; intros q; eval_op; rewrite ?invalid_u32s_nil by (repeat constructor; assumption);
  repeat match goal with H : small ?a |- _ => apply small_u32 in H end.

Lemma reports_u32split a l : reports (a :: l) U32split (HU32Split (fe (⟦a⟧ mod 2 ^ 32)) (fe (⟦a⟧ / 2 ^ 32)))
  (fe (⟦a⟧ mod 2 ^ 32) :: fe (⟦a⟧ / 2 ^ 32) :: l).
Proof. intros q. eval_op. unfold split_element. rewrite Z.shiftr_div_pow2 by done. reflexivity. Qed.
Lemma reports_u32add a b l : small a -> small b -> let x := ⟦a⟧ + ⟦b⟧ in
  reports (a :: b :: l) U32add (HU32Add (fe (x mod 2 ^ 32)) (fe (x / 2 ^ 32))) (fe (x mod 2 ^ 32) :: fe (x / 2 ^ 32) :: l).
Proof. reports_u32. rewrite split_element_fe by (unfold u32, modulus in *; lia). reflexivity. Qed.
Lemma reports_u32add3 a b c l : small a -> small b -> small c -> let x := ⟦a⟧ + ⟦b⟧ + ⟦c⟧ in
  reports (a :: b :: c :: l) U32add3 (HU32Add3 (fe (x mod 2 ^ 32)) (fe (x / 2 ^ 32))) (fe (x mod 2 ^ 32) :: fe (x / 2 ^ 32) :: pad_to 14 l).
Proof. reports_u32. rewrite split_element_fe by (unfold u32, modulus in *; lia). reflexivity. Qed.
Lemma reports_u32mul a b l : small a -> small b -> let x := ⟦a⟧ * ⟦b⟧ in
  reports (a :: b :: l) U32mul (HU32Mul (fe (x mod 2 ^ 32)) (fe (x / 2 ^ 32))) (fe (x mod 2 ^ 32) :: fe (x / 2 ^ 32) :: l).
Proof. intros Ha Hb. destruct (fe_prod a b Ha Hb). reports_u32. rewrite split_element_fe by (unfold modulus in *; lia). reflexivity. Qed.
Lemma reports_u32madd a b c l : small a -> small b -> small c -> let x := ⟦a⟧ * ⟦b⟧ + ⟦c⟧ in
  reports (a :: b :: c :: l) U32madd (HU32Madd (fe (x mod 2 ^ 32)) (fe (x / 2 ^ 32))) (fe (x mod 2 ^ 32) :: fe (x / 2 ^ 32) :: pad_to 14 l).
Proof. intros Ha Hb Hc. destruct (fe_prod a b Ha Hb). reports_u32. rewrite split_element_fe by (unfold u32, modulus in *; lia). reflexivity. Qed.
Lemma reports_u32sub b a l : small a -> small b -> let d := fe ((⟦a⟧ - ⟦b⟧) mod 2 ^ 32) in
  reports (b :: a :: l) U32sub (HU32Sub d) (bit (⟦a⟧ <? ⟦b⟧) :: d :: l).
Proof.
  reports_u32. destruct (wrapping_sub_u32 ⟦a⟧ ⟦b⟧) as [-> ->]; [done..|].
  destruct (⟦a⟧ <? ⟦b⟧); cbn; rewrite ?fe_0, ?fe_1; reflexivity.
Qed.
Lemma reports_u32div b a l : small a -> small b -> ⟦b⟧ <> 0 ->
  reports (b :: a :: l) U32div (HU32Div (fe (⟦a⟧ - ⟦a⟧ / ⟦b⟧)) (fe (⟦b⟧ - ⟦a⟧ mod ⟦b⟧ - 1))) (fe (⟦a⟧ mod ⟦b⟧) :: fe (⟦a⟧ / ⟦b⟧) :: l).
Proof.
  reports_u32. rewrite (proj2 (Z.eqb_neq _ _)) by done.
  replace (⟦a⟧ - ⟦a⟧ / ⟦b⟧ * ⟦b⟧) with (⟦a⟧ mod ⟦b⟧) by (rewrite Z.mod_eq by done; lia). reflexivity.
Qed.
Lemma reports_u32assert2 a b e l : small a -> small b -> reports (a :: b :: l) (U32assert2 e) (HU32Assert2 a b) (a :: b :: l).
Proof. reports_u32. reflexivity. Qed.
End Exec.

Ltac complete_reports lem :=
  match goal with Hx : execute_op _ _ = Ok _ |- _ =>
    let Eh := fresh in
    eapply reports_result in Hx as [Eh Hx]; [|reflexivity|apply lem]; rewrite Hx, ?pad_to_cons in *; clear Hx; subst;
    cbn [length] in * end.

Section Complete.
Context {F : Felt} {Q : Quad} {C : Crypto}.
Add Ring felt_ring_helpers : felt_ring_theory.

(** *** Comparisons and exponentiation *)
Lemma complete_eqz : step_complete Eqz.
Proof.
  complete_open. complete_reports @reports_eqz. cbn in Hu. injection Hu as Hu _ _ _ _ _. rewrite Hu. unfold inverse_or_zero.
  complete_eqs; rewrite ?new_unchecked_1; case_bool_decide as E; unfold bit; rewrite ?E; try ring.
  transitivity (inverse (l (ColTop 0)) * l (ColTop 0) - ONE)%F; [ring|]. rewrite inverse_mul by done. ring.
Qed.
Lemma complete_eq : step_complete Eq.
Proof.
  complete_open. complete_reports @reports_eq. cbn in Hu. injection Hu as Hu _ _ _ _ _. rewrite Hu.
  complete_eqs; rewrite ?new_unchecked_1; case_bool_decide as E; unfold bit; rewrite ?E; try ring.
  assert ((l (ColTop 0) - l (ColTop 1))%F <> ZERO) as Hne by (intros E'; by apply felt_sub_zero in E').
  apply inverse_mul in Hne. apply (felt_eq_diff _ _ _ _ Hne). ring.
Qed.
Lemma complete_expacc : step_complete Expacc.
Proof.
  complete_open. complete_reports @reports_expacc. cbn in Hu. injection Hu as Hu _ _ _ _ _. rewrite Hu.
  assert (E : l (ColTop 3) = (fe (⟦l (ColTop 3)⟧ / 2) * fe 2 + bit (Z.odd ⟦l (ColTop 3)⟧))%F).
  { pose proof (canonical_range (l (ColTop 3))). rewrite <-(fe_of (l (ColTop 3))) at 1.
    assert (bit (Z.odd ⟦l (ColTop 3)⟧) = fe (⟦l (ColTop 3)⟧ mod 2)) as ->.
    { rewrite Zmod_odd. by destruct (Z.odd _); cbn [bit]; rewrite ?fe_0, ?fe_1. }
    rewrite fe_mul, fe_add; [f_equal|..]; unfold modulus in *; zlia. }
  complete_eqs; try apply bit_eqs; [destruct (Z.odd _); cbn [bit]; rewrite new_unchecked_1; ring|]. rewrite E at 1. ring.
Qed.

(** *** Limbs *)
Lemma honest_limbs (z : Z) (t0 t1 : Z) : u32 z -> split_u32_into_u16 ⟦fe z⟧ = (t1, t0) ->
  t0 = z mod 2 ^ 16 /\ t1 = z / 2 ^ 16 /\ (fe t1 * fe 65536 + fe t0)%F = fe z.
Proof.
  intros Hz. rewrite fe_u32 by done. unfold split_u32_into_u16. intros [= <- <-]. unfold u32 in Hz.
  change 65535 with (Z.ones 16). rewrite !Z.land_ones, Z.shiftr_div_pow2 by done.
  change (2 ^ 32) with 4294967296 in *. change (2 ^ 16) with 65536. assert (z / 65536 mod 65536 = z / 65536) as -> by zlia.
  split_and!; [done..|]. rewrite fe_mul, fe_add; [f_equal|..]; unfold modulus; zlia.
Qed.

Lemma limbs_shown (l : row) (lo hi : Z) tail : u32 lo -> u32 hi ->
  [l (ColHasherState 2); l (ColHasherState 3); l (ColHasherState 4); l (ColHasherState 5); l (ColHasherState 6); l (ColHasherState 7)]
    = limbs (fe lo) (fe hi) ++ tail ->
  (l (ColHasherState 3) * fe 65536 + l (ColHasherState 2))%F = fe lo /\ (l (ColHasherState 5) * fe 65536 + l (ColHasherState 4))%F = fe hi /\
  (l (ColHasherState 5) * fe 281474976710656 + (l (ColHasherState 4) * fe 4294967296 + fe lo))%F = (fe hi * fe 4294967296 + fe lo)%F /\
  (hi < 2 ^ 16 -> l (ColHasherState 5) = ZERO /\ l (ColHasherState 4) = fe hi) /\ [l (ColHasherState 6); l (ColHasherState 7)] = tail.
Proof.
  intros Hlo Hhi. unfold limbs. destruct (split_u32_into_u16 ⟦fe lo⟧) as [t1 t0] eqn:E1, (split_u32_into_u16 ⟦fe hi⟧) as [t3 t2] eqn:E2.
  apply honest_limbs in E1 as (-> & -> & Elo); [|done]. apply honest_limbs in E2 as (-> & -> & Ehi); [|done].
  cbn [app]. intros [= -> -> -> -> Ht]. split_and!; [done..| | |by rewrite <-Ht].
  - rewrite <-Ehi.
    replace (fe 281474976710656) with (fe 65536 * fe 4294967296)%F by (rewrite fe_mul by (unfold modulus; lia); done). ring.
  - intros Hs. unfold u32 in Hhi. rewrite Z.div_small, Z.mod_small by lia. by rewrite fe_0.
Qed.

(** The value of the limbs *)
Lemma fe_halves (x : Z) : 0 <= x < modulus -> (fe (x / 2 ^ 32) * fe 4294967296 + fe (x mod 2 ^ 32))%F = fe x.
Proof.
  intros Hx. unfold modulus in *. change (2 ^ 32) with 4294967296. rewrite fe_mul, fe_add; [f_equal|..]; unfold modulus; zlia.
Qed.
Lemma halves_u32 (x : Z) : 0 <= x < modulus -> u32 (x mod 2 ^ 32) /\ u32 (x / 2 ^ 32).
Proof. unfold u32, modulus. change (2 ^ 32) with 4294967296. intros. zlia. Qed.

(** The check on a 64-bit value *)
Lemma check_honest (x : Z) (m : felt) : 0 <= x < modulus -> m = inverse_or_zero (from_u32 (2 ^ 32 - 1) - fe (x / 2 ^ 32))%F ->
  ((fe 1 - m * (fe 4294967295 - fe (x / 2 ^ 32))) * fe (x mod 2 ^ 32))%F = ZERO.
Proof.
  intros Hx ->. rewrite from_u32_new by lia. change (2 ^ 32 - 1) with 4294967295. unfold inverse_or_zero. case_bool_decide as E.
  - apply felt_sub_zero, fe_inj in E; [|unfold modulus in *; change (2 ^ 32) with 4294967296; zlia..].
    assert (x mod 2 ^ 32 = 0) as ->; [|rewrite fe_0; ring]. unfold modulus in *. change (2 ^ 32) with 4294967296 in *. zlia.
  - rewrite inverse_mul, fe_1 by done. ring.
Qed.

(** *** 32-bit operations *)
Ltac bounds := unfold u32, modulus in *; lia.

(** The limbs of [x], the first 32 bits being the first result *)
Ltac value_limbs x :=
  match goal with Hu : [_; _; _; _; _; _] = to_user_op_helpers _ |- _ =>
    cbn [to_user_op_helpers] in Hu; assert (Hx : 0 <= x < modulus); [|
    let E64 := fresh "E64" in
    destruct (halves_u32 x Hx) as [Hlo Hhi];
    apply limbs_shown in Hu as (Elo & Ehi & E64 & E48 & Etail); [|exact Hlo|exact Hhi];
    try (destruct E48 as [E5 E4]; [unfold u32 in *; change (2 ^ 32) with 4294967296; change (2 ^ 16) with 65536; zlia|]; rewrite ?E4, ?E5 in *);
    rewrite ?Elo, ?Ehi, ?E64 in *; rewrite ?(fe_halves x Hx) in * ]
  end.

Ltac u32_operands2 op :=
  match goal with Hx : execute_op op _ = Ok _ |- _ =>
    let Ha := fresh "Ha" in let Hb := fresh "Hb" in
    destruct (small_operands2 op _ _ _ _ _ ltac:(set_solver) Hx eq_refl) as [Ha Hb]; pose proof (small_u32 _ Ha); pose proof (small_u32 _ Hb) end.
Ltac u32_operands3 op :=
  match goal with Hx : execute_op op _ = Ok _ |- _ =>
    let Ha := fresh "Ha" in let Hb := fresh "Hb" in let Hc := fresh "Hc" in
    destruct (small_operands3 op _ _ _ _ _ _ ltac:(set_solver) Hx eq_refl) as (Ha & Hb & Hc);
    pose proof (small_u32 _ Ha); pose proof (small_u32 _ Hb); pose proof (small_u32 _ Hc) end.

Lemma complete_u32add : step_complete U32add.
Proof.
  complete_open. u32_operands2 U32add. pose proof (fun l => reports_u32add _ _ l Ha Hb0) as Hrun. cbn zeta in Hrun.
  complete_reports Hrun. value_limbs (⟦l (ColTop 0)⟧ + ⟦l (ColTop 1)⟧); [bounds|]. complete_eqs. rewrite fe_sum2 by done. ring.
Qed.
Lemma complete_u32add3 : step_complete U32add3.
Proof.
  complete_open. u32_operands3 U32add3. pose proof (fun l => reports_u32add3 _ _ _ l Ha Hb0 Hc0) as Hrun. cbn zeta in Hrun.
  complete_reports Hrun. value_limbs (⟦l (ColTop 0)⟧ + ⟦l (ColTop 1)⟧ + ⟦l (ColTop 2)⟧); [bounds|]. complete_eqs. rewrite fe_sum3 by done. ring.
Qed.

(** The check column of a 64-bit value *)
Ltac check_column :=
  match goal with Et : [_; _] = [_; _] |- _ => let Em := fresh in injection Et as Em _; apply check_honest; [assumption|exact Em] end.

Lemma complete_u32split : step_complete U32split.
Proof.
  complete_open. complete_reports @reports_u32split. value_limbs ⟦l (ColTop 0)⟧; [apply canonical_range|].
  complete_eqs; [rewrite Hb1 by done; ring|check_column|rewrite fe_of; ring].
Qed.
Lemma complete_u32mul : step_complete U32mul.
Proof.
  complete_open. u32_operands2 U32mul. pose proof (fun l => reports_u32mul _ _ l Ha Hb0) as Hrun. cbn zeta in Hrun.
  complete_reports Hrun. destruct (fe_prod _ _ Ha Hb0) as [E ?]. value_limbs (⟦l (ColTop 0)⟧ * ⟦l (ColTop 1)⟧); [bounds|].
  complete_eqs; [check_column|rewrite E; ring].
Qed.
Lemma complete_u32madd : step_complete U32madd.
Proof.
  complete_open. u32_operands3 U32madd. pose proof (fun l => reports_u32madd _ _ _ l Ha Hb0 Hc0) as Hrun. cbn zeta in Hrun.
  complete_reports Hrun. destruct (fe_prod _ _ Ha Hb0) as [E ?]. value_limbs (⟦l (ColTop 0)⟧ * ⟦l (ColTop 1)⟧ + ⟦l (ColTop 2)⟧); [bounds|].
  complete_eqs; [check_column|]. rewrite E, <-(fe_of (l (ColTop 2))) at 1. rewrite fe_add by bounds. ring.
Qed.

Lemma complete_u32assert2 e : step_complete (U32assert2 e).
Proof.
  complete_open. assert (Ha : small (l (ColTop 0)) /\ small (l (ColTop 1))).
  { revert Hx. eval_op. destruct (invalid_u32s _) eqn:E; [intros _|by case_bool_decide].
    apply invalid_nil in E. rewrite !list.Forall_cons in E. tauto. }
  destruct Ha as [Ha Hb0]. pose proof (fun l => reports_u32assert2 _ _ e l Ha Hb0) as Hrun. complete_reports Hrun. cbn [to_user_op_helpers] in Hu.
  rewrite <-(fe_of (l (ColTop 0))), <-(fe_of (l (ColTop 1))) in Hu.
  apply limbs_shown in Hu as (Elo & Ehi & _); [|by apply small_u32..]. rewrite Elo, Ehi, !fe_of. complete_eqs.
Qed.

Lemma complete_u32sub : step_complete U32sub.
Proof.
  complete_open. u32_operands2 U32sub. pose proof (fun l => reports_u32sub _ _ l Hb0 Ha) as Hrun. cbn zeta in Hrun.
  complete_reports Hrun. cbn [to_user_op_helpers] in Hu. set (d := (⟦l (ColTop 1)⟧ - ⟦l (ColTop 0)⟧) mod 2 ^ 32) in *.
  assert (Hd32 : u32 d) by (unfold u32; apply Z.mod_pos_bound; lia).
  destruct (split_u32_into_u16 ⟦fe d⟧) as [t1 t0] eqn:Et. apply honest_limbs in Et as (_ & _ & Et); [|done]. injection Hu as E2 E3 _ _ _ _.
  rewrite E2, E3, Et. complete_eqs; [|apply bit_eqs].
  assert (fe (⟦l (ColTop 1)⟧ + (if ⟦l (ColTop 1)⟧ <? ⟦l (ColTop 0)⟧ then 4294967296 else 0)) = fe (⟦l (ColTop 0)⟧ + d)) as E.
  { f_equal. unfold u32, d in *. change (2 ^ 32) with 4294967296 in *. destruct (Z.ltb_spec ⟦l (ColTop 1)⟧ ⟦l (ColTop 0)⟧); zlia. }
  rewrite <-!fe_add, !fe_of in E by (destruct (Z.ltb _ _); bounds).
  apply (felt_eq_diff _ _ _ _ E). destruct (Z.ltb _ _); cbn [bit]; rewrite ?fe_0; ring.
Qed.

Lemma complete_u32div : step_complete U32div.
Proof.
  complete_open. u32_operands2 U32div. destruct (Z.eq_dec ⟦l (ColTop 0)⟧ 0) as [E0|Hne].
  { revert Hx. eval_op. rewrite invalid_u32s_nil by (repeat constructor; done). by rewrite E0. }
  pose proof (fun l => reports_u32div _ _ l Hb0 Ha Hne) as Hrun. complete_reports Hrun. cbn [to_user_op_helpers] in Hu.
  set (b := ⟦l (ColTop 0)⟧) in *. set (a := ⟦l (ColTop 1)⟧) in *. unfold u32 in *.
  pose proof (Z.mod_pos_bound a b ltac:(lia)). pose proof (Z.div_mod a b Hne). assert (0 <= a / b <= a) by (split; [apply Z.div_pos; lia|apply Z.div_le_upper_bound; nia]).
  apply limbs_shown in Hu as (Elo & Ehi & _); [|unfold u32; lia..]. rewrite Elo, Ehi.
  assert (El0 : l (ColTop 0) = fe b) by (symmetry; apply fe_of). assert (El1 : l (ColTop 1) = fe a) by (symmetry; apply fe_of).
  complete_eqs; rewrite ?El0, ?El1.
  - rewrite fe_mul, fe_add by (unfold modulus; nia). replace (b * (a / b) + a mod b) with a by lia. ring.
  - assert (fe a = (fe (a / b) + fe (a - a / b))%F) as ->; [rewrite fe_add by (unfold modulus; lia); f_equal; lia|ring].
  - assert (fe b = (fe (a mod b) + fe (b - a mod b - 1) + fe 1)%F) as ->; [rewrite !fe_add by (unfold modulus; lia); f_equal; lia|ring].
Qed.

(** The bitwise operations are looked up in their chiplet; the stack constraints only move the other items. *)
Lemma complete_u32and : step_complete U32and.
Proof.
  complete_open. u32_operands2 U32and. pose proof (fun l => run_u32and ⟦_⟧ ⟦_⟧ l (small_u32 _ Ha) (small_u32 _ Hb0)) as Hrun.
  rewrite !fe_of in Hrun. complete_by Hrun.
Qed.
Lemma complete_u32xor : step_complete U32xor.
Proof.
  complete_open. u32_operands2 U32xor. pose proof (fun l => run_u32xor ⟦_⟧ ⟦_⟧ l (small_u32 _ Ha) (small_u32 _ Hb0)) as Hrun.
  rewrite !fe_of in Hrun. complete_by Hrun.
Qed.
Lemma complete_push v : step_complete (Push v).
Proof. complete_move; rewrite ?Hb1 by done; try complete_eq. Qed.

(** *** Memory, advice and hashing

    Values that come from the memory, the advice provider or the hasher are checked by lookups; the constraints of the stack are on the other
    items, and on the addresses that advance. *)
Ltac eval_effect :=
  cbn [execute_op];
  cbv [op_mload op_mstore op_mloadw op_mstorew op_mstream op_pipe op_advpop op_advpopw op_hperm op_mpverify op_mrupdate op_horner_eval_base
       op_horner_eval_ext op_log_precompile op_crypto_stream op_eval_circuit no_helpers mem_read_element mem_read_word mem_write_element
       mem_write_word on_advice get_double_word double_word gets get_quad permute set_word op_err mbind M_bind mret M_ret outcome_bind
       outcome_ret lift raise get set decrement_size push get_word on_stack with_stack with_memory with_advice with_pc_transcript];
  cbn.
(** Only the outcomes that succeed are left. *)
Ltac split_outcomes :=
  repeat (match goal with |- context [match ?x with _ => _ end] =>
    lazymatch x with context [match _ with _ => _ end] => fail | _ => destruct x eqn:? end end;
    change MIN_STACK_DEPTH with 16%nat; rewrite ?pad_to_cons; cbn; try (let E := fresh in intros E; discriminate E)).
Ltac complete_effect :=
  complete_open; match goal with Hx : execute_op _ _ = Ok _ |- _ => revert Hx; eval_effect; change MIN_STACK_DEPTH with 16%nat; rewrite ?pad_to_cons; cbn; split_outcomes;
    let E := fresh in intros E; injection E as <- <- end;
  cbn in *; rewrite ?take_0, ?drop_0, ?pad_to_cons in *; cbn [app length] in *; complete_eqs.

Lemma complete_mload : step_complete MLoad. Proof. complete_effect. Qed.
Lemma complete_mstore : step_complete MStore. Proof. complete_effect. Qed.
Lemma complete_mloadw : step_complete MLoadW. Proof. complete_effect. Qed.
Lemma complete_mstorew : step_complete MStoreW. Proof. complete_effect. Qed.
Lemma complete_mstream : step_complete MStream. Proof. complete_effect. Qed.
Lemma complete_pipe : step_complete Pipe. Proof. complete_effect. Qed.
Lemma complete_advpop : step_complete AdvPop. Proof. complete_effect. rewrite Hb1 by done. ring. Qed.
Lemma complete_advpopw : step_complete AdvPopW. Proof. complete_effect. Qed.
Lemma complete_hperm : step_complete HPerm. Proof. complete_effect. Qed.
Lemma complete_mpverify e : step_complete (MpVerify e). Proof. complete_effect. Qed.
Lemma complete_mrupdate : step_complete MrUpdate. Proof. complete_effect. Qed.
Lemma complete_log_precompile : step_complete LogPrecompile. Proof. complete_effect. Qed.
Lemma complete_eval_circuit : step_complete EvalCircuit. Proof. complete_effect. Qed.
Lemma complete_crypto_stream : step_complete CryptoStream.
Proof. complete_effect; unfold DOUBLE_WORD_SIZE; ring. Qed.

(** *** Polynomials *)
Ltac quad_coordinates := rewrite ?quad_from_new, ?quad_mul_new, ?quad_add_new, ?quad_sub_new, ?quad_scale_new, ?coef0_new, ?coef1_new.
Lemma horner2_coefs (acc alpha : QuadFelt) (c0 c1 : felt) :
  let horner acc c := quad_add (quad_mul acc alpha) (quad_from c) in
  let r := horner (horner acc c0) c1 in let a0 := coef0 alpha in let a1 := coef1 alpha in let s0 := (a0 * a0 + fe 7 * (a1 * a1))%F in let s1 := (a0 * a1 + a0 * a1)%F in
  coef0 r = (coef0 acc * s0 + fe 7 * (coef1 acc * s1) + a0 * c0 + c1)%F /\ coef1 r = (coef0 acc * s1 + coef1 acc * s0 + a1 * c0)%F.
Proof. cbv beta zeta. repeat (progress quad_coordinates). split; ring. Qed.
Lemma horner3_coefs (acc alpha : QuadFelt) (c0 c1 c2 : felt) :
  let horner acc c := quad_add (quad_mul acc alpha) (quad_from c) in
  let r := horner (horner (horner acc c0) c1) c2 in
  let a0 := coef0 alpha in let a1 := coef1 alpha in let s0 := (a0 * a0 + fe 7 * (a1 * a1))%F in let s1 := (a0 * a1 + a0 * a1)%F in
  let t0 := (s0 * a0 + fe 7 * (s1 * a1))%F in let t1 := (s0 * a1 + s1 * a0)%F in
  coef0 r = (coef0 acc * t0 + fe 7 * (coef1 acc * t1) + s0 * c0 + a0 * c1 + c2)%F /\ coef1 r = (coef0 acc * t1 + coef1 acc * t0 + s1 * c0 + a1 * c1)%F.
Proof. cbv beta zeta. repeat (progress quad_coordinates). split; ring. Qed.
(** The helper columns hold the point and the two intermediate values. *)
Ltac in_columns P :=
  repeat match goal with E : _ (ColHasherState _) = ?x |- _ =>
    lazymatch x with coef0 _ => idtac | coef1 _ => idtac end; lazymatch type of P with context [x] => rewrite <-E in P end end;
  rewrite ?coef0_new, ?coef1_new in P.
Lemma complete_horner_base : step_complete HornerBase.
Proof.
  complete_effect; injection Hu as E0 E1 E2 E3 E4 E5.
  all: match type of E4 with _ = coef0 ?t0 => match type of E2 with _ = coef0 ?t1 => match type of E0 with _ = coef0 ?al =>
    destruct (horner2_coefs (quad_new (l (ColTop 14)) (l (ColTop 15))) al (l (ColTop 0)) (l (ColTop 1))) as [P0 P1];
    destruct (horner3_coefs t0 al (l (ColTop 2)) (l (ColTop 3)) (l (ColTop 4))) as [P2 P3];
    destruct (horner3_coefs t1 al (l (ColTop 5)) (l (ColTop 6)) (l (ColTop 7))) as [P4 P5] end end end.
  all: cbv beta zeta in P0, P1, P2, P3, P4, P5; in_columns P0; in_columns P1; in_columns P2; in_columns P3; in_columns P4; in_columns P5.
  all: first [rewrite P4; ring|rewrite P5; ring|rewrite P2; ring|rewrite P3; ring|rewrite P0; ring|rewrite P1; ring].
Qed.
Lemma horner_ext_coefs (acc alpha c0 c1 : QuadFelt) :
  let step acc c := quad_add c (quad_mul alpha acc) in
  let r := step (step acc c0) c1 in let a0 := coef0 alpha in let a1 := coef1 alpha in let s0 := (a0 * a0 + fe 7 * (a1 * a1))%F in let s1 := (a0 * a1 + a0 * a1)%F in
  coef0 r = (coef0 acc * s0 + fe 7 * (coef1 acc * s1) + (a0 * coef0 c0 + fe 7 * (a1 * coef1 c0)) + coef0 c1)%F /\
  coef1 r = (coef0 acc * s1 + coef1 acc * s0 + (a0 * coef1 c0 + a1 * coef0 c0) + coef1 c1)%F.
Proof. cbv beta zeta. repeat (progress quad_coordinates). split; ring. Qed.
Lemma complete_horner_ext : step_complete HornerExt.
Proof.
  complete_effect; injection Hu as E0 E1 _ _ E4 E5.
  all: match type of E4 with _ = coef0 ?t0 => match type of E0 with _ = coef0 ?al =>
    destruct (horner_ext_coefs (quad_new (l (ColTop 14)) (l (ColTop 15))) al (quad_new (l (ColTop 0)) (l (ColTop 1))) (quad_new (l (ColTop 2)) (l (ColTop 3)))) as [P0 P1];
    destruct (horner_ext_coefs t0 al (quad_new (l (ColTop 4)) (l (ColTop 5))) (quad_new (l (ColTop 6)) (l (ColTop 7)))) as [P2 P3] end end.
  all: cbv beta zeta in P0, P1, P2, P3; in_columns P0; in_columns P1; in_columns P2; in_columns P3.
  all: first [rewrite P2; ring|rewrite P3; ring|rewrite P0; ring|rewrite P1; ring].
Qed.

(** *** FRI folding: the constraints also fix the item at position 8, which the processor does not read. *)
Lemma fold2_twice (f_x f_neg_x ep : QuadFelt) : let r := fold2 f_x f_neg_x ep in
  (coef0 r + coef0 r)%F = (coef0 f_x + coef0 f_neg_x + ((coef0 f_x - coef0 f_neg_x) * coef0 ep + fe 7 * ((coef1 f_x - coef1 f_neg_x) * coef1 ep)))%F /\
  (coef1 r + coef1 r)%F = (coef1 f_x + coef1 f_neg_x + ((coef0 f_x - coef0 f_neg_x) * coef1 ep + (coef1 f_x - coef1 f_neg_x) * coef0 ep))%F.
Proof.
  cbv zeta. unfold fold2. rewrite quad_scale_new, coef0_new, coef1_new, !quad_add_new, !coef0_new, !coef1_new, quad_mul_new, quad_sub_new, !coef0_new, !coef1_new.
  split; (match goal with |- _ = ?s => transitivity ((TWO_INV + TWO_INV) * s)%F end; [ring|rewrite TWO_INV_two; ring]).
Qed.
Lemma quad_on_new a b (l : list felt) : quad_on (quad_new a b) l = a :: b :: l.
Proof. unfold quad_on. by rewrite coef0_new, coef1_new. Qed.
(** The operation, by the segment of the position *)
Lemma fri_segments x0 x1 x2 x3 x4 x5 x6 x7 x8 x9 x10 x11 x12 x13 x14 x15 rest (q : Proc (list felt)) r :
  execute_op FriE2F4 (with_stack (x0 :: x1 :: x2 :: x3 :: x4 :: x5 :: x6 :: x7 :: x8 :: x9 :: x10 :: x11 :: x12 :: x13 :: x14 :: x15 :: rest) q) = Ok r ->
  let seg := Z.land ⟦x9⟧ 3 in x10 <> ZERO /\ (seg = 0 /\ x11 = x0 /\ x12 = x1 \/ seg = 1 /\ x11 = x2 /\ x12 = x3 \/ seg = 2 /\ x11 = x4 /\ x12 = x5 \/
    seg = 3 /\ x11 = x6 /\ x12 = x7).
Proof.
  intros Hx seg. assert (x10 <> ZERO) as Hp.
  { intros E. revert Hx. cbn [execute_op]. unfold op_fri_ext2fold4, get_query_values. unfold mbind, M_bind, lift. cbn. by rewrite bool_decide_true. }
  split; [done|]. set (qs := [quad_new x0 x1; quad_new x2 x3; quad_new x4 x5; quad_new x6 x7]).
  assert (Z.land ⟦x9⟧ 3 = ⟦x9⟧ mod 4) as El by (apply (Z.land_ones ⟦x9⟧ 2); done).
  destruct (decide (qs !! Z.to_nat (⟦x9⟧ mod 4) = Some (quad_new x11 x12))) as [E|E].
  - assert (forall a b c d, quad_new a b = quad_new c d -> a = c /\ b = d) as Hinj.
    { intros a b c d H. split; [apply (f_equal coef0) in H; by rewrite !coef0_new in H|apply (f_equal coef1) in H; by rewrite !coef1_new in H]. }
    unfold seg. rewrite El. assert (⟦x9⟧ mod 4 = 0 \/ ⟦x9⟧ mod 4 = 1 \/ ⟦x9⟧ mod 4 = 2 \/ ⟦x9⟧ mod 4 = 3) as [H|[H|[H|H]]] by zlia; rewrite H in E |- *;
      injection E as E; apply Hinj in E as [E1 E2]; subst; auto 8.
  - exfalso. pose proof (fri_ext2fold4_inconsistent _ _ _ _ (quad_new x11 x12) (quad_new x13 x14) x10 x9 x8 x15 rest q Hp E) as Hf.
    rewrite !quad_on_new, Hx in Hf. discriminate Hf.
Qed.
Lemma reports_fri x0 x1 x2 x3 x4 x5 x6 x7 x8 x9 x10 x11 x12 x13 x14 x15 rest seg : Z.land ⟦x9⟧ 3 = seg -> x10 <> ZERO ->
  (seg = 0 /\ x11 = x0 /\ x12 = x1 \/ seg = 1 /\ x11 = x2 /\ x12 = x3 \/ seg = 2 /\ x11 = x4 /\ x12 = x5 \/ seg = 3 /\ x11 = x6 /\ x12 = x7) ->
  let x := (x10 * segment_factor seg)%F in let ev := quad_new (x13 * inverse x)%F (x14 * inverse x)%F in let es := quad_mul ev ev in
  let tmp0 := fold2 (quad_new x0 x1) (quad_new x2 x3) ev in let tmp1 := fold2 (quad_new x4 x5) (quad_new x6 x7) (quad_scale ev Processor.TAU_INV) in
  let v := fold2 tmp0 tmp1 es in
  reports (x0 :: x1 :: x2 :: x3 :: x4 :: x5 :: x6 :: x7 :: x8 :: x9 :: x10 :: x11 :: x12 :: x13 :: x14 :: x15 :: rest) FriE2F4 (HFriExt2Fold4 ev es x (inverse x))
    (coef0 tmp0 :: coef1 tmp0 :: coef0 tmp1 :: coef1 tmp1 :: segment_flags seg ++ (x10 * x10)%F :: segment_factor seg :: (x15 + EIGHT)%F ::
      ((x10 * x10) * (x10 * x10))%F :: new_unchecked (Z.shiftr ⟦x9⟧ 2) :: coef0 v :: coef1 v :: pad_to 1 rest).
Proof.
  intros Hseg Hp Hc x ev es tmp0 tmp1 v q.
  assert (quad_scale (quad_new x13 x14) (inverse x) = ev) as Eev by by rewrite quad_scale_new, coef0_new, coef1_new.
  pose proof (fri_ext2fold4_run (quad_new x0 x1) (quad_new x2 x3) (quad_new x4 x5) (quad_new x6 x7) (quad_new x11 x12) (quad_new x13 x14) x x10 x9 x8 x15 rest ev es v tmp0 tmp1 seg q) as Hrun.
  rewrite !quad_on_new in Hrun. apply Hrun; [done| |done|done| |done].
  - destruct Hc as [(-> & -> & ->)|[(-> & -> & ->)|[(-> & -> & ->)|(-> & -> & ->)]]]; auto 8.
  - unfold compute_evaluation_points. by rewrite Eev.
Qed.
Lemma segment_factor_nonzero seg : segment_factor seg <> ZERO.
Proof.
  intros H. revert H. rewrite felt_eq_iff. unfold segment_factor, Processor.TAU2_INV, Processor.TAU_INV, Processor.TAU3_INV. repeat case_match;
    rewrite ?canonical_ONE, ?canonical_new, canonical_ZERO; done.
Qed.
(** A position is four times the folded one, and its segment. *)
Lemma position_segment (p : felt) seg : Z.land ⟦p⟧ 3 = seg -> p = (fe (Z.shiftr ⟦p⟧ 2) * fe 4 + fe seg)%F.
Proof.
  intros <-. pose proof (canonical_range p) as Hp. rewrite (Z.land_ones ⟦p⟧ 2 : _ -> Z.land _ 3 = _), Z.shiftr_div_pow2 by done. change (2 ^ 2) with 4.
  rewrite fe_mul, fe_add; unfold modulus in *; [|zlia..]. transitivity (fe ⟦p⟧); [symmetry; apply fe_of|]. f_equal. zlia.
Qed.
Ltac fri_constants :=
  change (fe 18446462594437873665) with Processor.TAU_INV; change (fe 18446744069414584320) with Processor.TAU2_INV; change (fe 281474976710656) with Processor.TAU3_INV;
  change EIGHT with (fe 8); rewrite ?fe_0, ?fe_1, ?(eq_sym (fe_add 1 1 ltac:(done) ltac:(done) ltac:(done)) : fe 2 = _), ?fe_1.
Lemma complete_fri : step_complete_when FriE2F4 (fun l => l (ColTop 8) = new_unchecked (Z.shiftr ⟦l (ColTop 9)⟧ 2)).
Proof.
  complete_open. destruct (fri_segments _ _ _ _ _ _ _ _ _ _ _ _ _ _ _ _ rest (mkProc _ _ _ [] pclk pctx ph padv pmem pcs popt ppc) _ Hx) as [Hp Hcase].
  assert (forall seg, inverse (l (ColTop 10) * segment_factor seg) * (l (ColTop 10) * segment_factor seg) = ONE)%F as Hinv.
  { intros seg. apply inverse_mul. intros E. apply felt_mul_zero in E as [E|E]; [done|]. by apply segment_factor_nonzero in E. }
  pose proof (reports_fri _ _ _ _ _ _ _ _ (l (ColTop 8)) _ _ _ _ (l (ColTop 13)) (l (ColTop 14)) (l (ColTop 15)) rest _ eq_refl Hp Hcase) as Hrun.
  pose proof (position_segment _ _ eq_refl : l (ColTop 9) = _) as Hpos. cbv zeta in Hrun.
  destruct Hcase as [(E & E1 & E2)|[(E & E1 & E2)|[(E & E1 & E2)|(E & E1 & E2)]]]; rewrite E in Hrun, Hpos; cbn [segment_factor segment_flags app] in Hrun.
  all: match type of Hrun with reports _ _ (HFriExt2Fold4 ?ev ?es ?x ?xi) _ =>
    match type of Hrun with context [fold2 ?t0 ?t1 es] => destruct (fold2_twice t0 t1 es) as [F0 F1];
      match t0 with fold2 ?a ?b _ => destruct (fold2_twice a b ev) as [F2 F3] end;
      match t1 with fold2 ?a ?b ?e => destruct (fold2_twice a b e) as [F4 F5] end end end.
  all: complete_reports Hrun; cbn [to_user_op_helpers] in Hu; rewrite ?coef0_new, ?coef1_new in Hu; injection Hu as U0 U1 U2 U3 U4 U5.
  all: pose proof (Hinv 0) as I0; pose proof (Hinv 1) as I1; pose proof (Hinv 2) as I2; pose proof (Hinv 3) as I3; cbn [segment_factor] in I0, I1, I2, I3.
  all: clear Hrun Hinv Hp Hk; next_items; rewrite ?F0, ?F1, ?F2, ?F3, ?F4, ?F5.
  all: split_and!; try complete_eq; rewrite ?Hwhen, ?U0, ?U1, ?U2, ?U3, ?U4, ?U5, ?E1, ?E2; fri_constants.
  all: try solve [ring].
  all: try solve [rewrite quad_mul_new, ?coef0_new, ?coef1_new; ring].
  all: try solve [rewrite Hpos at 1; fri_constants; ring].
  all: try solve [match goal with |- (?a * ?b - ONE)%F = ZERO => transitivity (b * a - ONE)%F; [ring|rewrite ?I0, ?I1, ?I2, ?I3; ring] end].
  all: rewrite ?quad_scale_new, ?coef0_new, ?coef1_new; ring.
Qed.
End Complete.
