(* ===== verification/AirDecoder.v ===== *)
(** * Constraints on the decoder, the system columns and the range checker

    [air/src/constraints/decoder/mod.rs], [system/mod.rs] and [range/mod.rs]. *)

From S2P Require Import Prelude Field Types Operations Air AirFlags.
Import Air OpFlags opcodes.
#[local] Open Scope nat_scope.

Module AirDecoder.

Definition F_1 : expr := Const 1.
Definition F_128 : expr := Const 128.
(** [CONTROLLER_ROWS_PER_PERM_FELT] of [trace/chiplets/hasher.rs] *)
Definition CONTROLLER_ROWS_PER_PERM_FELT : expr := Const 2.

(** ** [decoder/mod.rs] *)

Definition h (i : nat) : expr := Local (ColHasherState i).
Definition h' (i : nat) : expr := Next (ColHasherState i).
Definition b (i : nat) : expr := Local (ColOpBit i).
Definition in_span : expr := Local ColInSpan.
Definition in_span_next : expr := Next ColInSpan.
(** [is_loop_body] and [is_loop] of [end_block_flags] *)
Definition is_loop_body : expr := h 4.
Definition is_loop : expr := h 5.

Definition delta_group_count : expr := (Local ColGroupCount - Next ColGroupCount)%E.
Definition is_push : expr := flag PUSH.

Definition in_span_constraints : list constraint :=
  when_first_row (assert_zero in_span) ++
  assert_bool in_span ++
  when_transition (when (flag SPAN) (assert_one in_span_next)) ++
  when_transition (when (flag RESPAN) (assert_one in_span_next)).

Definition op_bit_constraints : list constraint := assert_bools (b <$> seq 0 7).

Definition e0 : expr := Local (ColExtra 0).
Definition e1 : expr := Local (ColExtra 1).
Definition extra_constraints : list constraint :=
  assert_eq e0 (b 6 * enot (b 5) * b 4) ++
  assert_eq e1 (b 6 * b 5).

Definition op_group_constraints : list constraint :=
  when (b 6 - e1 - e0) (assert_zero (b 0)) ++
  when e1 (assert_zero (b 0) ++ assert_zero (b 1)).

Definition s0 : expr := Local (ColTop 0).
Definition semantic_constraints : list constraint :=
  when (flag SPLIT + flag LOOP) (assert_bool s0) ++
  when (flag DYN) (assert_zeros [h 4; h 5; h 6; h 7]) ++
  when (flag REPEAT) (assert_one s0 ++ assert_one is_loop_body) ++
  when (flag END) (when is_loop (assert_zero s0)) ++
  when_transition (when (flag END * repeat_next) (concat ((fun i => assert_eq (h' i) (h i)) <$> seq 0 5))) ++
  when_transition (when (flag HALT) (assert_one halt_next)).

Definition group_count_constraints : list constraint :=
  when_transition (when in_span
    (assert_bool delta_group_count ++ when delta_group_count (when (enot is_push) (assert_zero (h 0))))) ++
  when_transition (when (flag SPAN + flag RESPAN + is_push) (assert_one delta_group_count)) ++
  when_transition (when delta_group_count (assert_zero (end_next + respan_next))) ++
  when (flag END) (assert_zero (Local ColGroupCount)).

Definition same_group_count : expr := (in_span * in_span_next * enot delta_group_count)%E.
Definition op_next : expr := horner_eval_bits ((fun k => Next (ColOpBit k)) <$> seq 0 7).
Definition h0_shift : expr := (h 0 - h' 0 * F_128 - op_next)%E.
Definition h0_active : expr := (flag SPAN + flag RESPAN + is_push + same_group_count)%E.
Definition op_group_decoding_constraints : list constraint :=
  when_transition (when h0_active (assert_zero h0_shift)) ++
  when_transition (when in_span (when (end_next + respan_next) (assert_zero (h 0)))).

Definition op_index : expr := Local ColOpIndex.
Definition op_index_next : expr := Next ColOpIndex.
Definition new_group : expr := (delta_group_count - is_push)%E.
(** [range_check *= op_index - i] for [i] from 1 to 8 *)
Definition range_check : expr := foldl (fun acc i => (acc * (op_index - Const (Z.of_nat i)))%E) op_index (seq 1 8).
Definition op_index_constraints : list constraint :=
  when_transition (when (flag SPAN + flag RESPAN) (assert_zero op_index_next)) ++
  when_transition (when in_span (when new_group (assert_zero op_index_next))) ++
  when_transition (when in_span (when in_span_next (when (enot new_group) (assert_eq op_index_next (op_index + F_1))))) ++
  assert_zero range_check.

Definition bc (i : nat) : expr := Local (ColBatchFlag i).
Definition groups_8 : expr := bc 0.
Definition not_bc0 : expr := enot (bc 0).
Definition groups_4 : expr := (not_bc0 * bc 1 * enot (bc 2))%E.
Definition groups_2 : expr := (not_bc0 * enot (bc 1) * bc 2)%E.
Definition groups_1 : expr := (not_bc0 * bc 1 * bc 2)%E.
Definition groups_1_or_2 : expr := (groups_1 + groups_2)%E.
Definition groups_1_or_2_or_4 : expr := (groups_1_or_2 + groups_4)%E.
Definition span_or_respan : expr := (flag SPAN + flag RESPAN)%E.
Definition batch_flag_constraints : list constraint :=
  assert_bools (bc <$> seq 0 3) ++
  assert_eq span_or_respan (groups_1_or_2_or_4 + groups_8) ++
  when (enot span_or_respan) (assert_zero (bc 0 + bc 1 + bc 2)) ++
  when groups_1_or_2_or_4 (concat ((fun i => assert_zero (h (4 + i))) <$> seq 0 4)) ++
  when groups_1_or_2 (concat ((fun i => assert_zero (h (2 + i))) <$> seq 0 2)) ++
  when groups_1 (assert_zero (h 1)).

Definition addr_constraints : list constraint :=
  when_transition (when in_span (assert_eq (Next ColAddr) (Local ColAddr))) ++
  when_transition (when (flag RESPAN) (assert_eq (Next ColAddr) (Local ColAddr + CONTROLLER_ROWS_PER_PERM_FELT))) ++
  when (flag HALT) (assert_zero (Local ColAddr)).

Definition control_flow_constraints : list constraint :=
  assert_one (in_span + control_flow) ++
  when_last_row (assert_one (flag HALT)).

Definition enforce_main : list constraint :=
  in_span_constraints ++ op_bit_constraints ++ extra_constraints ++ op_group_constraints ++ semantic_constraints ++
  group_count_constraints ++ op_group_decoding_constraints ++ op_index_constraints ++ batch_flag_constraints ++ addr_constraints ++
  control_flow_constraints.
End AirDecoder.

(** ** [system/mod.rs] *)
Module AirSystem.
Definition F_1 : expr := Const 1.
Definition clk : expr := Local ColClk.

Definition clk_constraints : list constraint :=
  when_first_row (assert_zero clk) ++
  when_transition (assert_eq (Next ColClk) (clk + F_1)).

Definition call_dyncall_flag : expr := (flag CALL + flag DYNCALL)%E.
Definition change_ctx_flag : expr := (flag CALL + flag SYSCALL + flag DYNCALL + flag END)%E.
Definition ctx_constraints : list constraint :=
  when_transition
    (when call_dyncall_flag (assert_eq (Next ColCtx) (clk + F_1)) ++
     when (flag SYSCALL) (assert_zero (Next ColCtx)) ++
     when (enot change_ctx_flag) (assert_eq (Next ColCtx) (Local ColCtx))).

Definition f_load : expr := (flag CALL + flag DYNCALL)%E.
Definition f_preserve : expr := enot (f_load + flag END).
Definition fn_hash_constraints : list constraint :=
  when_transition
    (when f_load (concat ((fun i => assert_eq (Next (ColFnHash i)) (Local (ColHasherState i))) <$> seq 0 4)) ++
     when f_preserve (concat ((fun i => assert_eq (Next (ColFnHash i)) (Local (ColFnHash i))) <$> seq 0 4))).

Definition enforce_main : list constraint := clk_constraints ++ ctx_constraints ++ fn_hash_constraints.
End AirSystem.

(** ** [range/mod.rs] *)
Module AirRange.
Definition TWO_POW_16_MINUS_1 : expr := Const (2 ^ 16 - 1).
Definition v : expr := Local ColRangeValue.
Definition change_v : expr := (Next ColRangeValue - v)%E.
(** The steps of the column: 0 or a power of 3 *)
Definition steps : list Z := [1; 3; 9; 27; 81; 243; 729; 2187]%Z.
Definition enforce_main : list constraint :=
  when_first_row (assert_zero v) ++
  when_last_row (assert_eq v TWO_POW_16_MINUS_1) ++
  when_transition (assert_zero (foldl (fun acc s => (acc * (change_v - Const s))%E) change_v steps)).
End AirRange.
