(* ===== verification/AirTrace.v ===== *)
(** * Traces

    A trace is a sequence of rows; every pair of neighbours satisfies the constraints, the last row being followed by the first.  The
    constraints of the decoder make every row encode one opcode, with exactly the flag of that opcode set, and rows
    inside a basic block execute the operations packed into the group of the block. *)

From S2P Require Import Prelude Bits Field Types Operations Batching BatchCorrect OperandStack Memory Advice Ace Processor OpSpecs Air AirFlags AirStack AirRows AirDecoder.
From Stdlib Require Import Ring.
Import Op Air OpFlags.
#[local] Open Scope Z_scope.

(** ** Opcodes *)

(** The opcodes the system of constraints can tell apart: seven bits, with unused bits of two groups zero *)
Definition encodable (opcode : Z) : bool :=
  (0 <=? opcode) && (opcode <? 128) && ((opcode <? 64) || (80 <=? opcode) || (opcode mod 2 =? 0)) && ((opcode <? 96) || (opcode mod 4 =? 0)).

(** Every opcode of [opcodes] *)
Import opcodes.
Definition vm_opcodes : list Z :=
  [NOOP; EQZ; NEG; INV; INCR; NOT; MLOAD; SWAP; CALLER; MOVUP2; MOVDN2; MOVUP3; MOVDN3; ADVPOPW; EXPACC; MOVUP4; MOVDN4; MOVUP5; MOVDN5;
   MOVUP6; MOVDN6; MOVUP7; MOVDN7; SWAPW; EXT2MUL; MOVUP8; MOVDN8; SWAPW2; SWAPW3; SWAPDW; EMIT; ASSERT; EQ; ADD; MUL; AND; OR; U32AND;
   U32XOR; FRIE2F4; DROP; CSWAP; CSWAPW; MLOADW; MSTORE; MSTOREW; PAD; DUP0; DUP1; DUP2; DUP3; DUP4; DUP5; DUP6; DUP7; DUP9; DUP11;
   DUP13; DUP15; ADVPOP; SDEPTH; CLK; U32ADD; U32SUB; U32MUL; U32DIV; U32SPLIT; U32ASSERT2; U32ADD3; U32MADD; HPERM; MPVERIFY; PIPE;
   MSTREAM; SPLIT; LOOP; SPAN; JOIN; DYN; HORNERBASE; HORNEREXT; PUSH; DYNCALL; EVALCIRCUIT; LOGPRECOMPILE; MRUPDATE; CRYPTOSTREAM;
   SYSCALL; CALL; END; REPEAT; RESPAN; HALT].
Definition control_flow_opcodes : list Z := [SPLIT; LOOP; SPAN; JOIN; DYN; DYNCALL; SYSCALL; CALL; END; REPEAT; RESPAN; HALT].
Definition u32_opcodes : list Z := [U32ADD; U32SUB; U32MUL; U32DIV; U32SPLIT; U32ASSERT2; U32ADD3; U32MADD].
Definition mem (x : Z) (l : list Z) : bool := existsb (Z.eqb x) l.

(** ** Values of flags *)

(** The value of an expression that the known columns decide *)
Definition flag_value (k : knowledge) (e : expr) : option bool :=
  match simp k e with Const 0 => Some false | Const 1 => Some true | _ => None end.

Definition all_opcodes : list Z := Z.of_nat <$> seq 0 128.
Definition flags_checked (opcode : Z) : bool :=
  forallb (fun o => bool_decide (flag_value (op_knowledge opcode) (flag o) = Some (opcode =? o))) vm_opcodes &&
  bool_decide (flag_value (op_knowledge opcode) control_flow = Some (mem opcode control_flow_opcodes)) &&
  bool_decide (flag_value (op_knowledge opcode) u32_rc_op = Some (mem opcode u32_opcodes)).

Lemma all_flags_checked : forallb (fun o => negb (encodable o) || flags_checked o) all_opcodes = true.
Proof. vm_compute. reflexivity. Qed.

Lemma vm_opcodes_encodable : forallb encodable vm_opcodes = true.
Proof. vm_compute. reflexivity. Qed.

Section Conj.
Context {F : Felt}.
(** The constraints one by one *)
Lemma satisfied_conj first last l n cs : satisfied first last l n cs <-> foldr (fun c P => holds first last l n c /\ P) True cs.
Proof. unfold satisfied. induction cs as [|c cs IH]; [done|]. by rewrite list.Forall_cons, IH. Qed.
End Conj.

(** The equations of a list of constraints, flags left as they are *)
Ltac open_constraints H :=
  match type of H with satisfied _ _ _ _ ?cs =>
    let r := eval cbv -[flag control_flow repeat_next halt_next end_next respan_next AirDecoder.op_next AirDecoder.is_push] in cs in
    change cs with r in H; apply satisfied_conj in H; unfold holds in H; cbn [foldr on body eval] in H
  end.

Ltac in_opcodes := (vm_compute; repeat constructor) || (unfold vm_opcodes; set_solver).

Section Rows.
Context {F : Felt}.
Add Ring felt_ring_trace : felt_ring_theory.

Lemma flag_value_eval l n k e v : agrees l k -> flag_value k e = Some v -> eval l n e = felt_bit v.
Proof.
  intros Hk. unfold flag_value. rewrite <-(simp_eval l n k e Hk).
  destruct (simp k e) as [| |[|[]|]| | | |]; try done; intros [= <-]; cbn [eval felt_bit]; [apply new_unchecked_0|apply new_unchecked_1].
Qed.

(** The row encodes the opcode. *)
Definition encodes (l : row) (opcode : Z) : Prop := encodable opcode = true /\ agrees l (op_knowledge opcode).

Lemma encodable_range o : encodable o = true -> 0 <= o < 128.
Proof. unfold encodable. lia. Qed.

Lemma encodes_checked l o : encodes l o -> flags_checked o = true.
Proof.
  intros [He _]. pose proof (encodable_range o He) as Hr. pose proof all_flags_checked as H. rewrite forallb_forall in H.
  specialize (H o). rewrite He in H. apply H. unfold all_opcodes. apply list_elem_of_In, list_elem_of_fmap.
  exists (Z.to_nat o). split; [lia|]. apply elem_of_seq. lia.
Qed.

Lemma encodes_flag l n o o' : encodes l o -> o' ∈ vm_opcodes -> eval l n (flag o') = felt_bit (o =? o').
Proof.
  intros He Ho. pose proof (encodes_checked l o He) as H. unfold flags_checked in H. apply andb_true_iff in H as [H _].
  apply andb_true_iff in H as [H _]. rewrite forallb_forall in H. specialize (H o' (proj1 (list_elem_of_In _ _) Ho)).
  apply bool_decide_eq_true in H. exact (flag_value_eval l n _ _ _ (proj2 He) H).
Qed.
Lemma encodes_control_flow l n o : encodes l o -> eval l n control_flow = felt_bit (mem o control_flow_opcodes).
Proof.
  intros He. pose proof (encodes_checked l o He) as H. unfold flags_checked in H. apply andb_true_iff in H as [H _].
  apply andb_true_iff in H as [_ H]. apply bool_decide_eq_true in H. exact (flag_value_eval l n _ _ _ (proj2 He) H).
Qed.
Lemma encodes_u32 l n o : encodes l o -> eval l n u32_rc_op = felt_bit (mem o u32_opcodes).
Proof.
  intros He. pose proof (encodes_checked l o He) as H. unfold flags_checked in H. apply andb_true_iff in H as [_ H].
  apply bool_decide_eq_true in H. exact (flag_value_eval l n _ _ _ (proj2 He) H).
Qed.

(** ** The decoder's constraints on one row *)

(** The opcode of seven bits *)
Definition opcode_of (bs : list bool) : Z := foldr (fun (b : bool) acc => Z.b2z b + 2 * acc) 0 bs.

(** What is checked of the bits and the extra columns *)
Definition bits_checked (b0 b1 b2 b3 b4 b5 b6 : bool) : bool :=
  let o := opcode_of [b0; b1; b2; b3; b4; b5; b6] in
  forallb (fun k => eqb (Z.testbit o (Z.of_nat k)) (nth k [b0; b1; b2; b3; b4; b5; b6] false)) (seq 0 7) &&
  (encodable o || (b6 && negb b5 && negb b4 && b0) || (b6 && b5 && (b0 || b1))).
Lemma bits_checked_all b0 b1 b2 b3 b4 b5 b6 : bits_checked b0 b1 b2 b3 b4 b5 b6 = true.
Proof. destruct b0, b1, b2, b3, b4, b5, b6; vm_compute; reflexivity. Qed.

Lemma bit_felt (x : felt) : (x * (x - new_unchecked 1))%F = ZERO -> exists b, x = felt_bit b.
Proof. intros H. apply felt_boolean in H as [b ->]. by exists b. Qed.

Lemma felt_bit_not (b : bool) : (new_unchecked 1 - felt_bit b)%F = felt_bit (negb b).
Proof. rewrite new_unchecked_1. destruct b; cbn; ring. Qed.
Lemma felt_bit_mul (a b : bool) : (felt_bit a * felt_bit b)%F = felt_bit (a && b).
Proof. destruct a, b; cbn; ring. Qed.
Lemma felt_bit_gate (b : bool) (x : felt) : (felt_bit b * x)%F = ZERO -> b = true -> x = ZERO.
Proof. intros H ->. cbn in H. rewrite <-H. ring. Qed.
Lemma felt_bit_zero (b : bool) : felt_bit b = ZERO -> b = false.
Proof. destruct b; [|done]. intros H. by destruct ONE_neq_ZERO. Qed.
Lemma felt_bit_inj a b : felt_bit a = felt_bit b -> a = b.
Proof. pose proof ONE_neq_ZERO. destruct a, b; cbn; congruence. Qed.

Lemma row_opcode first last l n : satisfied first last l n AirDecoder.enforce_main -> exists o, encodes l o.
Proof.
  intros H. unfold AirDecoder.enforce_main in H. rewrite !satisfied_app in H. destruct H as (_ & Hb & He & Hg & _).
  open_constraints Hb. open_constraints He. open_constraints Hg.
  destruct Hb as (H0 & H1 & H2 & H3 & H4 & H5 & H6 & _), He as (He0 & He1 & _), Hg as (Hg1 & Hg2 & Hg3 & _).
  apply bit_felt in H0 as [b0 E0], H1 as [b1 E1], H2 as [b2 E2], H3 as [b3 E3], H4 as [b4 E4], H5 as [b5 E5], H6 as [b6 E6].
  apply felt_sub_zero in He0, He1. rewrite E4, E5, E6, felt_bit_not, !felt_bit_mul in He0. rewrite E5, E6, felt_bit_mul in He1.
  rewrite He0, He1, E0, E6 in Hg1. rewrite He1, E0 in Hg2. rewrite He1, E1 in Hg3.
  pose proof (bits_checked_all b0 b1 b2 b3 b4 b5 b6) as Hc. unfold bits_checked in Hc. apply andb_true_iff in Hc as [Ht Hc].
  rewrite forallb_forall in Ht.
  exists (opcode_of [b0; b1; b2; b3; b4; b5; b6]). split.
  - assert ((felt_bit b6 - felt_bit (b6 && b5) - felt_bit (b6 && negb b5 && b4))%F = felt_bit (b6 && negb b5 && negb b4)) as Eu
      by (destruct b6, b5, b4; cbn; ring).
    rewrite Eu in Hg1. rewrite felt_bit_mul in Hg1, Hg2, Hg3. apply felt_bit_zero in Hg1, Hg2, Hg3.
    destruct (encodable _); [done|]. destruct b6, b5, b4, b0, b1; done.
  - intros c v. unfold op_knowledge. destruct c as [| |? | |k| | | | | |k| | | | | | | | | |]; try done.
    + destruct (Nat.ltb_spec k 7) as [Hk|]; [|done]. intros Hv. apply (inj Some) in Hv. subst v.
      specialize (Ht k ltac:(apply in_seq; lia)). apply eqb_prop in Ht. rewrite Ht.
      do 7 (destruct k as [|k]; [assumption|]). lia.
    + destruct k as [|[|k]]; [| |done].
      * pose proof (Ht 4%nat ltac:(apply in_seq; lia)) as T4. pose proof (Ht 5%nat ltac:(apply in_seq; lia)) as T5.
        pose proof (Ht 6%nat ltac:(apply in_seq; lia)) as T6. apply eqb_prop in T4, T5, T6. change (Z.of_nat 4) with 4 in T4. change (Z.of_nat 5) with 5 in T5. change (Z.of_nat 6) with 6 in T6.
        rewrite T4, T5, T6. by intros [= <-].
      * pose proof (Ht 5%nat ltac:(apply in_seq; lia)) as T5. pose proof (Ht 6%nat ltac:(apply in_seq; lia)) as T6.
        apply eqb_prop in T5, T6. change (Z.of_nat 5) with 5 in T5. change (Z.of_nat 6) with 6 in T6. rewrite T5, T6. by intros [= <-].
Qed.
End Rows.

(** [constraints/mod.rs], [enforce_main], but for the chiplets, whose constraints read the columns of the chiplets *)
Definition main_constraints : list constraint :=
  AirSystem.enforce_main ++ AirRange.enforce_main ++ AirStack.enforce_main ++ AirDecoder.enforce_main.

(** ** Neighbouring rows *)
Section Trace.
Context {F : Felt}.
Add Ring felt_ring_rows2 : felt_ring_theory.

Definition trace := nat -> row.

(** The constraints hold on all [N] rows; the row after the last is the first. *)
Definition trace_ok (N : nat) (t : trace) (cs : list constraint) : Prop :=
  forall i, (i < N)%nat -> satisfied (i =? 0)%nat (S i =? N)%nat (t i) (t (S i mod N)%nat) cs.

Lemma trace_step N t cs i : trace_ok N t cs -> (S i < N)%nat -> satisfied (i =? 0)%nat false (t i) (t (S i)) cs.
Proof.
  intros H Hi. specialize (H i ltac:(lia)). rewrite Nat.mod_small in H by lia. by rewrite (proj2 (Nat.eqb_neq (S i) N)) in H by lia.
Qed.
Lemma trace_ok_app N t cs cs' : trace_ok N t (cs ++ cs') -> trace_ok N t cs /\ trace_ok N t cs'.
Proof. intros H. split; intros i Hi; specialize (H i Hi); by apply satisfied_app in H as [? ?]. Qed.

(** The flags read from the next row *)
Lemma next_flags l n : eval l n end_next = eval n n (flag END) /\ eval l n repeat_next = eval n n (flag REPEAT) /\
  eval l n respan_next = eval n n (flag RESPAN) /\ eval l n halt_next = eval n n (flag HALT).
Proof. split_and!; cbv -[felt ZERO ONE felt_add felt_mul felt_sub felt_neg new_unchecked]; ring. Qed.



(** ** One step of the decoder *)

(** The facts the decoder's constraints give on a row with opcode [o] followed by one with opcode [o'] *)
Record decoder_row (first last : bool) (l n : row) (o : Z) : Prop := {
  dr_in_span : l ColInSpan = felt_bit (negb (mem o control_flow_opcodes));
  dr_first : first = true -> mem o control_flow_opcodes = true;
  dr_last : last = true -> o = HALT;
  dr_op_index : ⟦l ColOpIndex⟧ <= 8;
}.

Lemma index_range (x : felt) : eval (fun _ => x) (fun _ => x) AirDecoder.range_check = ZERO -> ⟦x⟧ <= 8.
Proof.
  cbv -[felt ZERO ONE felt_add felt_mul felt_sub felt_neg new_unchecked as_canonical_u64 Z.le]. intros H.
  repeat (apply felt_mul_zero in H as [H|H]; [|apply felt_sub_zero in H; rewrite H, canonical_new by (unfold modulus; lia); lia]).
  rewrite H, canonical_ZERO. lia.
Qed.

Lemma decoder_row_of first last l n o : satisfied first last l n AirDecoder.enforce_main -> encodes l o -> decoder_row first last l n o.
Proof.
  intros H Ho. unfold AirDecoder.enforce_main in H. rewrite !satisfied_app in H.
  destruct H as (Hs & _ & _ & _ & _ & _ & _ & Hi & _ & _ & Hc).
  open_constraints Hs. open_constraints Hc. apply satisfied_app in Hi as [_ Hi]. rewrite !satisfied_app in Hi. destruct Hi as (_ & _ & Hi).
  apply satisfied_conj in Hi. unfold holds in Hi. cbn [foldr on body AirDecoder.range_check assert_zero] in Hi.
  destruct Hs as (Hf & _), Hc as (Hc & Hl & _), Hi as (Hi & _).
  rewrite (encodes_control_flow _ _ _ Ho) in Hc. apply felt_sub_zero in Hc.
  assert (Hsp : l ColInSpan = felt_bit (negb (mem o control_flow_opcodes))).
  { rewrite <-felt_bit_not, <-Hc. ring. }
  split; [done| | |].
  - intros Hfirst. specialize (Hf Hfirst). rewrite Hsp in Hf. apply felt_bit_zero in Hf. by apply negb_false_iff in Hf.
  - intros Hlast. specialize (Hl Hlast). rewrite (encodes_flag _ _ _ _ Ho) in Hl by in_opcodes.
    apply felt_sub_zero in Hl. rewrite new_unchecked_1 in Hl. change ONE with (felt_bit true) in Hl. apply felt_bit_inj in Hl. by apply Z.eqb_eq in Hl.
  - apply index_range. exact Hi.
Qed.

(** The opcode a row shows *)
Definition row_op (l : row) : Z := opcode_of ((fun k => bool_decide (l (ColOpBit k) = ONE)) <$> seq 0 7).

Lemma opcode_of_testbits : forallb (fun o => opcode_of ((fun k => Z.testbit o (Z.of_nat k)) <$> seq 0 7) =? o) all_opcodes = true.
Proof. vm_compute. reflexivity. Qed.

Lemma encodes_bit l o k : encodes l o -> (k < 7)%nat -> l (ColOpBit k) = felt_bit (Z.testbit o (Z.of_nat k)).
Proof. intros [_ Ha] Hk. apply Ha. unfold op_knowledge. by rewrite (proj2 (Nat.ltb_lt k 7)). Qed.

Lemma encodes_row_op l o : encodes l o -> row_op l = o.
Proof.
  intros Ho. pose proof (encodable_range o (proj1 Ho)) as Hr. pose proof opcode_of_testbits as H. rewrite forallb_forall in H.
  transitivity (opcode_of ((fun k => Z.testbit o (Z.of_nat k)) <$> seq 0 7)).
  - unfold row_op. f_equal. apply list_fmap_ext. intros i k Hk. apply lookup_seq in Hk as [-> Hk]. rewrite (encodes_bit l o) by (done || lia).
    pose proof ONE_neq_ZERO. destruct (Z.testbit _ _); cbn; [by apply bool_decide_true|]. apply bool_decide_false. congruence.
  - apply Z.eqb_eq, H. unfold all_opcodes. apply list_elem_of_In, list_elem_of_fmap.
    exists (Z.to_nat o). split; [lia|]. apply elem_of_seq. lia.
Qed.

Lemma row_encodes first last l n : satisfied first last l n AirDecoder.enforce_main -> encodes l (row_op l).
Proof. intros H. destruct (row_opcode _ _ _ _ H) as [o Ho]. by rewrite (encodes_row_op l o Ho). Qed.

(** Once halted, the machine stays halted. *)
Lemma halt_step first l n : satisfied first false l n AirDecoder.enforce_main -> encodes n (row_op n) -> row_op l = HALT -> row_op n = HALT.
Proof.
  intros H Hn Hl. pose proof (row_encodes _ _ _ _ H) as Ho. unfold AirDecoder.enforce_main in H. rewrite !satisfied_app in H.
  destruct H as (_ & _ & _ & _ & Hs & _). unfold AirDecoder.semantic_constraints in Hs. rewrite !satisfied_app in Hs.
  destruct Hs as (_ & _ & _ & _ & _ & Hs). open_constraints Hs. destruct Hs as [Hs _]. specialize (Hs eq_refl).
  rewrite (encodes_flag _ _ _ _ Ho) in Hs by in_opcodes. rewrite Hl in Hs.
  apply felt_bit_gate in Hs; [|done]. apply felt_sub_zero in Hs. rewrite (proj2 (proj2 (proj2 (next_flags l n)))) in Hs.
  rewrite (encodes_flag _ _ _ _ Hn) in Hs by in_opcodes. rewrite new_unchecked_1 in Hs. change ONE with (felt_bit true) in Hs.
  apply felt_bit_inj in Hs. by apply Z.eqb_eq in Hs.
Qed.

Lemma halt_absorbs N t i j : trace_ok N t AirDecoder.enforce_main -> (i <= j < N)%nat -> row_op (t i) = HALT -> row_op (t j) = HALT.
Proof.
  intros H [Hij Hj] Hi. induction j as [|j IH]; [by assert (i = 0)%nat as -> by lia|].
  destruct (decide (i = S j)) as [->|]; [done|]. pose proof (trace_step _ _ _ j H ltac:(lia)) as Hs.
  apply (halt_step _ _ _ Hs); [|apply IH; lia]. exact (row_encodes _ _ _ _ (H (S j) Hj)).
Qed.

(** ** The system columns *)

Lemma clock N t i : trace_ok N t AirSystem.enforce_main -> (i < N)%nat -> Z.of_nat N < 2 ^ 32 -> t i ColClk = new_unchecked (Z.of_nat i).
Proof.
  intros H Hi HN. induction i as [|i IH].
  - specialize (H 0%nat Hi). unfold AirSystem.enforce_main in H. apply satisfied_app in H as [H _]. open_constraints H.
    destruct H as [H _]. cbn in H. rewrite new_unchecked_0. by apply H.
  - pose proof (trace_step _ _ _ i H Hi) as Hs. unfold AirSystem.enforce_main in Hs. apply satisfied_app in Hs as [Hs _]. open_constraints Hs.
    destruct Hs as (_ & Hs & _). specialize (Hs eq_refl). apply felt_sub_zero in Hs. rewrite Hs, IH, new_unchecked_1 by lia.
    by rewrite depth_succ by lia.
Qed.

(** The context of the next row and, in [0 .. 4), the digest of the running procedure *)
Definition next_ctx (l : row) (o : Z) : option felt :=
  if mem o [CALL; DYNCALL] then Some (l ColClk + new_unchecked 1)%F
  else if o =? SYSCALL then Some ZERO
  else if o =? END then None
  else Some (l ColCtx).
Definition next_fn_hash (l : row) (o : Z) (i : nat) : option felt :=
  if mem o [CALL; DYNCALL] then Some (l (ColHasherState i))
  else if o =? END then None
  else Some (l (ColFnHash i)).

Lemma context_step first l n o : satisfied first false l n AirSystem.enforce_main -> encodes l o ->
  (forall c, next_ctx l o = Some c -> n ColCtx = c) /\ (forall i c, (i < 4)%nat -> next_fn_hash l o i = Some c -> n (ColFnHash i) = c).
Proof.
  intros H Ho. unfold AirSystem.enforce_main in H. rewrite !satisfied_app in H. destruct H as (_ & Hc & Hf).
  open_constraints Hc. open_constraints Hf. destruct_and? Hc. destruct_and? Hf.
  repeat match goal with H : false = false -> _ |- _ => specialize (H eq_refl); rewrite ?(encodes_flag _ _ _ _ Ho) in H by in_opcodes end.
  unfold next_ctx, next_fn_hash, mem, CALL, DYNCALL, SYSCALL, END. cbn [existsb].
  destruct (Z.eqb_spec o 108) as [E108|_]; [|destruct (Z.eqb_spec o 92) as [E92|_]; [|destruct (Z.eqb_spec o 104) as [E104|_];
    [|destruct (Z.eqb_spec o 112) as [E112|_]]]]; try subst o; cbn [Z.eqb Pos.eqb felt_bit orb] in *; rewrite ?new_unchecked_1 in *;
    (split; [intros c [= <-]|intros i c Hi [= <-]; destruct i as [|[|[|[|i]]]]]); try lia;
    match goal with |- ?x = _ => match goal with H : context [x] |- _ => apply (felt_eq_diff _ _ _ _ H); ring end end.
Qed.

(** ** The range checker *)

(** Each step of the column is 0 or a power of three, at most 2187. *)
Lemma range_step first l n : satisfied first false l n AirRange.enforce_main ->
  exists d, 0 <= d <= 2187 /\ n ColRangeValue = (l ColRangeValue + new_unchecked d)%F.
Proof.
  intros H. unfold AirRange.enforce_main in H. rewrite !satisfied_app in H. destruct H as (_ & _ & H). open_constraints H.
  destruct H as [H _]. specialize (H eq_refl).
  assert (Hd : forall d, (n ColRangeValue - l ColRangeValue)%F = new_unchecked d -> n ColRangeValue = (l ColRangeValue + new_unchecked d)%F).
  { intros d E. rewrite <-E. ring. }
  repeat (apply felt_mul_zero in H as [H|H]; [|apply felt_sub_zero, Hd in H; eexists; split; [|exact H]; lia]).
  exists 0. split; [lia|]. apply Hd. by rewrite new_unchecked_0.
Qed.

(** Along the trace the column does not decrease, counted as an integer. *)
Lemma range_monotone N t j d w : trace_ok N t AirRange.enforce_main -> (j + d < N)%nat -> Z.of_nat N < 2 ^ 32 ->
  0 <= w <= 2187 * Z.of_nat j -> t j ColRangeValue = new_unchecked w ->
  exists v, w <= v <= w + 2187 * Z.of_nat d /\ t (j + d)%nat ColRangeValue = new_unchecked v.
Proof.
  intros H Hd HN Hw Hj. induction d as [|d IH]; [exists w; rewrite Nat.add_0_r; split; [lia|done]|].
  destruct IH as (v & Hv & E); [lia|]. pose proof (trace_step _ _ _ (j + d) H ltac:(lia)) as Hs.
  destruct (range_step _ _ _ Hs) as (s & Hsr & Es). exists (v + s). split; [lia|].
  replace (j + S d)%nat with (S (j + d)) by lia. rewrite Es, E. apply fe_add; unfold modulus; lia.
Qed.
End Trace.
