(* ===== verification/AirGroups.v ===== *)
(** * Decoding of operation groups

    Inside a basic block the decoder peels one opcode per row off the group in [h0].  The operations on the rows of a group are the
    ones [Batching] packed into it. *)

From S2P Require Import Prelude Bits Field Types Operations Batching BatchCorrect OperandStack Memory Advice Ace Processor OpSpecs Air AirFlags AirStack AirRows AirDecoder AirTrace.
From Stdlib Require Import Ring.
Import Op Air OpFlags opcodes.
#[local] Open Scope Z_scope.

(** ** Base 128 *)

(** The value of a list of digits, lowest first *)
Definition digits_value (os : list Z) : Z := foldr (fun o acc => o + 128 * acc) 0 os.

Lemma digits_bound os : Forall (fun o => 0 <= o < 128) os -> 0 <= digits_value os < 128 ^ Z.of_nat (length os).
Proof.
  induction 1 as [|o os Ho _ IH]; cbn [digits_value foldr length] in *; [cbn; lia|]. fold (digits_value os) in *.
  rewrite Nat2Z.inj_succ, Z.pow_succ_r by lia. lia.
Qed.

Lemma digits_inj a b j : Forall (fun o => 0 <= o < 128) a -> Forall (fun o => 0 <= o < 128) b -> digits_value a = digits_value b ->
  nth j a 0 = nth j b 0.
Proof.
  intros Ha. revert b j. induction Ha as [|o a Ho Ha IH]; intros b j Hb E.
  - revert j. induction Hb as [|o b Ho Hb IHb]; intros j; [done|]. cbn [digits_value foldr] in E. fold (digits_value b) in E.
    pose proof (digits_bound b Hb). destruct j as [|j]; cbn; [lia|]. rewrite <-IHb by (cbn; lia). by destruct j.
  - destruct Hb as [|o' b Ho' Hb]; cbn [digits_value foldr] in E; fold (digits_value a) in E; [|fold (digits_value b) in E].
    + pose proof (digits_bound a Ha). destruct j as [|j]; cbn; [lia|]. rewrite (IH [] j); [by destruct j|constructor|cbn; lia].
    + destruct j as [|j]; cbn; [lia|]. apply IH; [done|lia].
Qed.

Lemma digits_snoc os o : digits_value (os ++ [o]) = digits_value os + 128 ^ Z.of_nat (length os) * o.
Proof.
  induction os as [|x os IH]; cbn [app digits_value foldr length]; [lia|]. fold (digits_value (os ++ [o])). fold (digits_value os).
  rewrite IH, Nat2Z.inj_succ, Z.pow_succ_r by lia. lia.
Qed.

Section Pack.
Context {F : Felt}.

Lemma op_code_range (op : Operation) : 0 <= op_code op < 128.
Proof. destruct op; vm_compute; split; discriminate || reflexivity. Qed.
Lemma op_codes_range (ops : list Operation) : Forall (fun o => 0 <= o < 128) (op_code <$> ops).
Proof. apply Forall_fmap, Forall_true. intros op. apply op_code_range. Qed.

(** A packed group holds the opcodes as digits. *)
Lemma pack_group_digits (ops : list Operation) : (length ops <= 9)%nat -> pack_group ops = digits_value (op_code <$> ops).
Proof.
  induction ops as [|op ops IH] using rev_ind; [done|]. rewrite length_app. cbn [length]. intros Hl.
  rewrite pack_group_snoc, IH, fmap_app by lia. cbn [fmap list_fmap]. rewrite digits_snoc, length_fmap. unfold pack_opcode.
  set (v := digits_value (op_code <$> ops)). pose proof (digits_bound _ (op_codes_range ops)) as Hv. rewrite length_fmap in Hv. fold v in Hv.
  pose proof (op_code_range op) as Ho. assert (H9 : 128 ^ Z.of_nat (length ops) <= 128 ^ 8) by (apply Z.pow_le_mono_r; lia).
  replace (Z.of_nat (OP_BITS * length ops)) with (7 * Z.of_nat (length ops)) by (unfold OP_BITS; lia).
  assert (E : 128 ^ Z.of_nat (length ops) = 2 ^ (7 * Z.of_nat (length ops))) by (rewrite Z.pow_mul_r by lia; done).
  rewrite Z.shiftl_mul_pow2 by lia. rewrite <-E, Z.mod_small by (split; [nia|]; apply Z.le_lt_trans with (127 * 128 ^ 8); [nia|done]).
  rewrite <-Z.add_nocarry_lor; [lia|]. rewrite E in *. apply Z.bits_inj'. intros i Hi. rewrite Z.land_spec, Z.bits_0.
  destruct (Z.lt_ge_cases i (7 * Z.of_nat (length ops))).
  - rewrite Z.mul_pow2_bits_low by lia. apply andb_false_r.
  - destruct (Z.eq_dec v 0) as [->|]; [by rewrite Z.bits_0|]. rewrite (Z.bits_above_log2 v); [done|lia|].
    apply Z.log2_lt_pow2; [lia|]. apply Z.lt_le_trans with (1 := proj2 Hv). apply Z.pow_le_mono_r; lia.
Qed.
End Pack.

(** ** Rows of a group *)
Section Groups.
Context {F : Felt} {Q : Quad} {C : Crypto}.
Add Ring felt_ring_groups : felt_ring_theory.

Lemma double_bit (x : Z) (b : bool) : 0 <= x < 2 ^ 32 -> (fe x + fe x + felt_bit b)%F = fe (Z.b2z b + 2 * x).
Proof.
  intros Hx. assert (felt_bit b = fe (Z.b2z b)) as -> by (by destruct b; cbn; rewrite ?fe_0, ?fe_1).
  rewrite !fe_add by (unfold modulus; destruct b; cbn; lia). f_equal. lia.
Qed.

(** The opcode of the next row, from its bits *)
Lemma op_next_value l n o : encodes n o -> eval l n AirDecoder.op_next = fe o.
Proof.
  intros Ho. rewrite <-(encodes_row_op n o Ho) at 1.
  assert (Hb : forall k, (k < 7)%nat -> exists b, n (ColOpBit k) = felt_bit b /\ bool_decide (n (ColOpBit k) = ONE) = b).
  { intros k Hk. exists (Z.testbit o (Z.of_nat k)). rewrite (encodes_bit n o k Ho Hk). split; [done|]. pose proof ONE_neq_ZERO.
    destruct (Z.testbit _ _); cbn; [by apply bool_decide_true|apply bool_decide_false; congruence]. }
  unfold row_op. cbn [seq fmap list_fmap].
  destruct (Hb 0%nat ltac:(lia)) as (b0 & E0 & ->), (Hb 1%nat ltac:(lia)) as (b1 & E1 & ->), (Hb 2%nat ltac:(lia)) as (b2 & E2 & ->),
    (Hb 3%nat ltac:(lia)) as (b3 & E3 & ->), (Hb 4%nat ltac:(lia)) as (b4 & E4 & ->), (Hb 5%nat ltac:(lia)) as (b5 & E5 & ->),
    (Hb 6%nat ltac:(lia)) as (b6 & E6 & ->).
  cbn. rewrite E0, E1, E2, E3, E4, E5, E6. assert (felt_bit b6 = fe (Z.b2z b6 + 2 * 0)) as -> by (by destruct b6; cbn; rewrite ?fe_0, ?fe_1).
  rewrite !double_bit by (destruct b1, b2, b3, b4, b5, b6; cbn; lia). done.
Qed.

Definition inside (l : row) : Prop := mem (row_op l) control_flow_opcodes = false.

(** The next row is in the same group: the count of groups changes only by the immediate of a [PUSH]. *)
Definition continues (l n : row) : Prop :=
  inside l /\ inside n /\ (l ColGroupCount - n ColGroupCount)%F = felt_bit (row_op l =? PUSH).
(** The next row is the first of a group whose value is [v]: the first group of a batch, or a later one. *)
Definition group_starts (l n : row) (v : felt) : Prop :=
  mem (row_op l) [SPAN; RESPAN] = true /\ v = l (ColHasherState 0) \/
  inside l /\ (l ColGroupCount - n ColGroupCount - felt_bit (row_op l =? PUSH))%F = ONE /\
    v = (n (ColHasherState 0) * fe 128 + fe (row_op n))%F.

Lemma in_span_inside first last l n : satisfied first last l n AirDecoder.enforce_main -> inside l -> l ColInSpan = ONE.
Proof.
  intros H Hi. rewrite (dr_in_span _ _ _ _ _ (decoder_row_of _ _ _ _ _ H (row_encodes _ _ _ _ H))). unfold inside in Hi. by rewrite Hi.
Qed.

(** The equations on [h0] and on the position in the group *)
Lemma group_equations first l n : satisfied first false l n AirDecoder.enforce_main -> encodes n (row_op n) ->
  let f o := felt_bit (row_op l =? o) in
  let delta := (l ColGroupCount - n ColGroupCount)%F in
  let active := (f SPAN + f RESPAN + f PUSH + l ColInSpan * n ColInSpan * (fe 1 - delta))%F in
  (active * (l (ColHasherState 0) - n (ColHasherState 0) * fe 128 - fe (row_op n)))%F = ZERO /\
  ((f SPAN + f RESPAN) * n ColOpIndex)%F = ZERO /\
  (l ColInSpan * ((delta - f PUSH) * n ColOpIndex))%F = ZERO /\
  (l ColInSpan * (n ColInSpan * ((fe 1 - (delta - f PUSH)) * (n ColOpIndex - (l ColOpIndex + fe 1)))))%F = ZERO /\
  ((f SPAN + f RESPAN + f PUSH) * (delta - fe 1))%F = ZERO.
Proof.
  intros H Hn. pose proof (row_encodes _ _ _ _ H) as Ho. unfold AirDecoder.enforce_main in H. rewrite !satisfied_app in H.
  destruct H as (_ & _ & _ & _ & _ & Hg & Hd & Hi & _).
  unfold AirDecoder.group_count_constraints in Hg. rewrite !satisfied_app in Hg. destruct Hg as (_ & Hg & _).
  unfold AirDecoder.op_group_decoding_constraints in Hd. rewrite !satisfied_app in Hd. destruct Hd as (Hd & _).
  unfold AirDecoder.op_index_constraints in Hi. rewrite !satisfied_app in Hi. destruct Hi as (Hi1 & Hi2 & Hi3 & _).
  open_constraints Hg. open_constraints Hd. open_constraints Hi1. open_constraints Hi2. open_constraints Hi3.
  change AirDecoder.is_push with (flag PUSH) in *. destruct Hg as [Hg _], Hd as [Hd _], Hi1 as [Hi1 _], Hi2 as [Hi2 _], Hi3 as [Hi3 _].
  specialize (Hg eq_refl). specialize (Hd eq_refl). specialize (Hi1 eq_refl). specialize (Hi2 eq_refl). specialize (Hi3 eq_refl).
  rewrite !(encodes_flag _ _ _ _ Ho) in Hg by in_opcodes. rewrite !(encodes_flag _ _ _ _ Ho) in Hd by in_opcodes.
  rewrite !(encodes_flag _ _ _ _ Ho) in Hi1 by in_opcodes. rewrite !(encodes_flag _ _ _ _ Ho) in Hi2 by in_opcodes.
  rewrite !(encodes_flag _ _ _ _ Ho) in Hi3 by in_opcodes. rewrite (op_next_value l n _ Hn) in Hd. split_and!; assumption.
Qed.

Lemma inside_flags l : inside l -> (row_op l =? SPAN) = false /\ (row_op l =? RESPAN) = false.
Proof.
  unfold inside, mem, control_flow_opcodes. cbn [existsb]. rewrite !orb_false_iff. tauto.
Qed.

Lemma continue_step first l n : satisfied first false l n AirDecoder.enforce_main -> encodes n (row_op n) -> n ColInSpan = ONE -> continues l n ->
  l (ColHasherState 0) = (n (ColHasherState 0) * fe 128 + fe (row_op n))%F /\ n ColOpIndex = (l ColOpIndex + fe 1)%F.
Proof.
  intros H Hn Hsp (Hl & _ & Hd). pose proof (in_span_inside _ _ _ _ H Hl) as Hlsp.
  destruct (group_equations _ _ _ H Hn) as (E1 & _ & _ & E2 & _). destruct (inside_flags l Hl) as [F1 F2].
  cbn zeta in *. rewrite Hsp, Hlsp, Hd, ?F1, ?F2, fe_1 in *. cbn [felt_bit] in *. split.
  - apply (felt_eq_diff _ _ _ _ E1). destruct (row_op l =? PUSH); cbn [felt_bit]; ring.
  - apply (felt_eq_diff _ _ _ _ E2). ring.
Qed.

Lemma start_step first l n v : satisfied first false l n AirDecoder.enforce_main -> encodes n (row_op n) -> group_starts l n v ->
  (n (ColHasherState 0) * fe 128 + fe (row_op n))%F = v /\ n ColOpIndex = ZERO.
Proof.
  intros H Hn [[Hs ->]|(Hi & Hd & ->)]; destruct (group_equations _ _ _ H Hn) as (E1 & E2 & E3 & _ & E4); cbn zeta in *.
  - assert ((felt_bit (row_op l =? SPAN) + felt_bit (row_op l =? RESPAN))%F = ONE /\ (row_op l =? PUSH) = false) as [Hf Hp].
    { unfold mem in Hs. cbn [existsb] in Hs. rewrite orb_false_r in Hs. apply orb_true_iff in Hs as [Hs|Hs]; apply Z.eqb_eq in Hs; rewrite Hs;
        (split; [cbn; ring|done]). }
    rewrite Hf, Hp in *. cbn [felt_bit] in *. rewrite fe_1 in *.
    assert (Hd : (l ColGroupCount - n ColGroupCount)%F = ONE) by (apply (felt_eq_diff _ _ _ _ E4); ring). rewrite Hd in *.
    split; [apply (felt_eq_diff_neg _ _ _ _ E1); ring|]. apply (felt_eq_diff _ _ _ _ E2). ring.
  - split; [done|]. rewrite Hd, (in_span_inside _ _ _ _ H Hi) in E3. apply (felt_eq_diff _ _ _ _ E3). ring.
Qed.

(** ** A whole group *)

Section Run.
Variables (N : nat) (t : trace).
Hypothesis Hok : trace_ok N t AirDecoder.enforce_main.

(** The rows [r], ..., [r + k] are in one group. *)
Definition one_group (r k : nat) : Prop := forall j, (j < k)%nat -> continues (t (r + j)%nat) (t (S (r + j))).

Lemma trace_encodes i : (i < N)%nat -> encodes (t i) (row_op (t i)).
Proof using Hok. intros Hi. exact (row_encodes _ _ _ _ (Hok i Hi)). Qed.

Lemma group_step r k j : one_group r k -> (r + k < N)%nat -> (j < k)%nat ->
  t (r + j)%nat (ColHasherState 0) = (t (S (r + j)) (ColHasherState 0) * fe 128 + fe (row_op (t (S (r + j)))))%F /\
  t (S (r + j)) ColOpIndex = (t (r + j)%nat ColOpIndex + fe 1)%F.
Proof using Hok.
  intros Hg Hk Hj. pose proof (trace_step _ _ _ (r + j) Hok ltac:(lia)) as Hs. specialize (Hg j Hj).
  apply (continue_step _ _ _ Hs); [apply trace_encodes; lia| |done].
  exact (in_span_inside _ _ _ _ (Hok (S (r + j)) ltac:(lia)) (proj1 (proj2 Hg))).
Qed.

(** A group has at most nine operations. *)
Lemma group_length r k : one_group r k -> (r + k < N)%nat -> t r ColOpIndex = ZERO -> (k <= 8)%nat.
Proof using Hok.
  intros Hg Hk H0. assert (Hi : forall j, (j <= k)%nat -> (j <= 9)%nat -> t (r + j)%nat ColOpIndex = fe (Z.of_nat j)).
  { induction j as [|j IH]; intros Hj H9; [by rewrite Nat.add_0_r, H0, fe_0|]. replace (r + S j)%nat with (S (r + j)) by lia.
    rewrite (proj2 (group_step r k j Hg Hk ltac:(lia))), IH by lia. rewrite fe_add by (unfold modulus; lia). f_equal. lia. }
  destruct (Nat.le_gt_cases k 8) as [|H9]; [done|]. exfalso. specialize (Hi 9%nat ltac:(lia) ltac:(lia)).
  pose proof (dr_op_index _ _ _ _ _ (decoder_row_of _ _ _ _ _ (Hok (r + 9)%nat ltac:(lia)) (trace_encodes (r + 9)%nat ltac:(lia)))) as Hb.
  rewrite Hi, canonical_new in Hb by (unfold modulus; lia). lia.
Qed.

(** The opcodes of the rows are the digits of the group. *)
Lemma group_digits r k : one_group r k -> (r + k < N)%nat -> (k <= 8)%nat -> t (r + k)%nat (ColHasherState 0) = ZERO ->
  (t r (ColHasherState 0) * fe 128 + fe (row_op (t r)))%F = fe (digits_value ((fun j => row_op (t j)) <$> seq r (S k))).
Proof using Hok.
  revert r. induction k as [|k IH]; intros r Hg Hk H8 H0.
  - rewrite Nat.add_0_r in *. cbn [seq fmap list_fmap digits_value foldr]. rewrite H0, Z.mul_0_r, Z.add_0_r. ring.
  - assert (Hg' : one_group (S r) k).
    { intros j Hj. specialize (Hg (S j) ltac:(lia)). by replace (r + S j)%nat with (S r + j)%nat in Hg by lia. }
    specialize (IH (S r) Hg' ltac:(lia) ltac:(lia)). replace (S r + k)%nat with (r + S k)%nat in IH by lia. specialize (IH H0).
    destruct (group_step r (S k) 0 Hg Hk ltac:(lia)) as [E _]. rewrite Nat.add_0_r in E. rewrite E, IH.
    assert (Hd : Forall (fun o => 0 <= o < 128) ((fun j => row_op (t j)) <$> seq (S r) (S k))).
    { apply Forall_fmap, Forall_forall. intros j Hj. apply elem_of_seq in Hj. cbn. apply encodable_range, (trace_encodes j). lia. }
    pose proof (digits_bound _ Hd) as Hb. rewrite length_fmap, length_seq in Hb. pose proof (encodable_range _ (proj1 (trace_encodes r ltac:(lia)))).
    assert (128 ^ Z.of_nat (S k) <= 128 ^ 8) by (apply Z.pow_le_mono_r; lia). change (128 ^ 8) with 72057594037927936 in *.
    change (seq r (S (S k))) with (r :: seq (S r) (S k)). rewrite fmap_cons. cbn [digits_value foldr]. fold (digits_value ((fun j => row_op (t j)) <$> seq (S r) (S k))).
    rewrite fe_mul, fe_add by (unfold modulus; lia). f_equal. lia.
Qed.
End Run.
End Groups.
