(* ===== verification/AirFree.v ===== *)
(** * Positions the constraints leave free

    Next-row positions of the stack that no constraint mentions on a row of a given opcode, and a forged division. *)

From S2P Require Import Prelude Bits Field Types Operations Batching BatchCorrect OperandStack Memory Advice Ace Processor OpSpecs Air AirFlags AirStack AirRows AirSound AirComplete AirDecoder AirTrace.
From Stdlib Require Import Ring.
Import Op Air OpFlags opcodes.
#[local] Open Scope Z_scope.

(** The expression reads position [i] of the next row. *)
Fixpoint mentions (i : nat) (e : expr) : bool :=
  match e with
  | Next (ColTop j) => (i =? j)%nat
  | EAdd a b | ESub a b | EMul a b => mentions i a || mentions i b
  | ENeg a => mentions i a
  | _ => false
  end.

(** Positions of the next row that are free after an operation, for operations documented to fix them *)
Definition free_positions (opcode : Z) : list nat :=
  if opcode =? SWAPW3 then [8; 9; 10; 11]%nat
  else if opcode =? CALLER then seq 4 12
  else if (opcode =? MSTREAM) || (opcode =? PIPE) then seq 8 8
  else if (opcode =? EVALCIRCUIT) || (opcode =? SYSCALL) then seq 0 16
  else if opcode =? REPEAT then seq 0 15
  else [].

Definition unmentioned (opcode : Z) : bool :=
  let cs := residual (op_knowledge opcode) main_constraints in
  forallb (fun i => forallb (fun c => negb (mentions i (body c))) cs) (free_positions opcode).

Lemma all_unmentioned : forallb unmentioned [SWAPW3; CALLER; MSTREAM; PIPE; EVALCIRCUIT; SYSCALL; REPEAT] = true.
Proof. vm_compute. reflexivity. Qed.

Lemma free_unmentioned opcode : unmentioned opcode = true.
Proof.
  pose proof all_unmentioned as H. cbn [forallb] in H. repeat (apply andb_true_iff in H as [? H]).
  unfold unmentioned, free_positions in *.
  destruct (Z.eqb_spec opcode SWAPW3) as [->|]; [assumption|]. destruct (Z.eqb_spec opcode CALLER) as [->|]; [assumption|].
  destruct (Z.eqb_spec opcode MSTREAM) as [->|]; [assumption|]. destruct (Z.eqb_spec opcode PIPE) as [->|]; [assumption|].
  destruct (Z.eqb_spec opcode EVALCIRCUIT) as [->|]; [assumption|]. destruct (Z.eqb_spec opcode SYSCALL) as [->|]; [assumption|].
  destruct (Z.eqb_spec opcode REPEAT) as [->|]; [assumption|]. reflexivity.
Qed.

Section Free.
Context {F : Felt} {Q : Quad} {C : Crypto}.
Add Ring felt_ring_free : felt_ring_theory.

(** The two rows differ at most in the given positions. *)
Definition differ_at (ps : list nat) (n n' : row) : Prop := forall c, (forall i, i ∈ ps -> c <> ColTop i) -> n' c = n c.

Lemma eval_unmentioned ps l n n' e : differ_at ps n n' -> (forall i, i ∈ ps -> mentions i e = false) -> eval l n' e = eval l n e.
Proof.
  intros Hd. induction e as [c|c|z|a IHa b IHb|a IHa b IHb|a IHa b IHb|a IHa]; cbn [eval mentions]; intros Hm; try done;
    try (rewrite IHa, IHb by (intros i Hi; specialize (Hm i Hi); apply orb_false_iff in Hm; tauto); done).
  - apply Hd. intros i Hi ->. specialize (Hm i Hi). cbn in Hm. by rewrite Nat.eqb_refl in Hm.
  - by rewrite (IHa Hm).
Qed.

Lemma free_satisfied opcode first last l n n' : agrees l (op_knowledge opcode) -> differ_at (free_positions opcode) n n' ->
  satisfied first last l n main_constraints -> satisfied first last l n' main_constraints.
Proof.
  intros Hk Hd H. apply (residual_satisfied _ _ _ _ _ _ Hk). apply (residual_satisfied _ _ _ _ _ _ Hk) in H.
  unfold satisfied in *. rewrite Forall_forall in *. intros c Hc. specialize (H c Hc).
  assert (E : eval l n' (body c) = eval l n (body c)).
  { apply (eval_unmentioned _ _ _ _ _ Hd). intros i Hi. pose proof (free_unmentioned opcode) as Hf. unfold unmentioned in Hf.
    rewrite forallb_forall in Hf. specialize (Hf i (proj1 (list_elem_of_In _ _) Hi)). rewrite forallb_forall in Hf.
    specialize (Hf c (proj1 (list_elem_of_In _ _) Hc)). by apply negb_true_iff in Hf. }
  unfold holds in *. by rewrite E.
Qed.

(** The processor does not change these positions. *)
Lemma swapw3_keeps (p p' : Proc (list felt)) h i : (16 <= length (stack p))%nat -> execute_op SwapW3 p = Ok (h, p') ->
  i ∈ free_positions SWAPW3 -> stack p' !! i = stack p !! i.
Proof.
  intros Hl Hx Hi. destruct p as [st pclk pctx ph padv pmem pcs popt ppc]. cbn [stack] in *.
  do 16 (destruct st as [|? st]; [cbn in Hl; lia|]). revert Hx. eval_op. intros Hx. injection Hx as <- <-. cbn [stack].
  cbn in Hi. rewrite !elem_of_cons, elem_of_nil in Hi. by destruct_or? Hi; subst.
Qed.
Lemma caller_keeps (p p' : Proc (list felt)) h i : (16 <= length (stack p))%nat -> execute_op Caller p = Ok (h, p') ->
  i ∈ free_positions CALLER -> stack p' !! i = stack p !! i.
Proof.
  intros Hl Hx Hi. destruct p as [st pclk pctx ph padv pmem pcs popt ppc]. cbn [stack] in *. destruct ph.
  do 16 (destruct st as [|? st]; [cbn in Hl; lia|]). revert Hx. cbn. intros Hx. injection Hx as <- <-. cbn [stack].
  cbn in Hi. rewrite !elem_of_cons, elem_of_nil in Hi. by destruct_or? Hi; subst.
Qed.

(** ** A forged division *)

(** The row with other limbs in its helper columns *)
Definition with_limbs (l : row) (t : list felt) : row := fun c =>
  match c with ColHasherState (S (S i)) => default (l c) (t !! i) | _ => l c end.
(** The row after a division with quotient [q] and remainder [r] *)
Definition after_div (l : row) (q r : felt) : row := fun c => match c with ColTop 0 => r | ColTop 1 => q | _ => l c end.

Lemma with_limbs_checked l lo hi : u32 lo -> u32 hi -> limbs_checked (with_limbs l (limbs (fe lo) (fe hi))).
Proof.
  intros Hlo Hhi i Hi. unfold limbs. destruct (split_u32_into_u16 ⟦fe lo⟧) as [t1 t0] eqn:E1, (split_u32_into_u16 ⟦fe hi⟧) as [t3 t2] eqn:E2.
  apply honest_limbs in E1 as (-> & -> & _); [|done]. apply honest_limbs in E2 as (-> & -> & _); [|done]. unfold u32 in *.
  change (2 ^ 32) with 4294967296 in *. change (2 ^ 16) with 65536.
  destruct i as [|[|[|[|i]]]]; cbn; try lia; rewrite canonical_new; unfold modulus; zlia.
Qed.

(** The three equations of [U32DIV], one divisor too far *)
Lemma forged_arith a b : 0 <= a < 2 ^ 32 -> 0 < b -> 2 * b <= 2 ^ 32 -> a / b < a ->
  let lo := a - (a / b + 1) in let hi := 2 * b - a mod b - 1 in
  u32 lo /\ u32 hi /\ (fe a - (fe b * fe (a / b + 1) + (fe (a mod b) - fe b)))%F = ZERO /\
  (fe a - fe (a / b + 1) - fe lo)%F = ZERO /\ (fe b - (fe (a mod b) - fe b) - (fe hi + fe 1))%F = ZERO.
Proof.
  intros Ha Hb H2b Hq lo hi. pose proof (Z.mod_pos_bound a b Hb). pose proof (Z.div_mod a b ltac:(lia)) as Hdiv.
  assert (0 <= a / b) by (apply Z.div_pos; lia). unfold u32.
  assert (Eb : (fe b * fe (a / b + 1))%F = fe (b * (a / b) + b)) by (rewrite fe_mul by (unfold modulus; nia); f_equal; lia).
  assert (Ea : (fe (b * (a / b) + b) + fe (a mod b))%F = (fe a + fe b)%F) by (rewrite !fe_add by (unfold modulus; lia); f_equal; lia).
  assert (Eq : fe a = (fe (a / b + 1) + fe lo)%F) by (rewrite fe_add by (unfold modulus, lo; lia); f_equal; unfold lo; lia).
  assert (Er : (fe b + fe b)%F = (fe (a mod b) + fe hi + fe 1)%F) by (rewrite !fe_add by (unfold modulus, hi; lia); f_equal; unfold hi; lia).
  split_and!; try (unfold lo, hi; lia).
  - rewrite Eb. transitivity (fe a + fe b - (fe (b * (a / b) + b) + fe (a mod b)))%F; [ring|]. rewrite Ea. ring.
  - rewrite Eq. ring.
  - transitivity ((fe b + fe b) - (fe (a mod b) + fe hi + fe 1))%F; [ring|]. rewrite Er. ring.
Qed.

Lemma forged_div l p : row_of l U32div p -> l ColH0 = inverse_or_zero (l ColB0 - fe 16)%F ->
  let b := ⟦l (ColTop 0)⟧ in let a := ⟦l (ColTop 1)⟧ in a < 2 ^ 32 -> 0 < b -> 2 * b <= 2 ^ 32 -> a / b < a ->
  let lo := a - (a / b + 1) in let hi := 2 * b - a mod b - 1 in
  let l' := with_limbs l (limbs (fe lo) (fe hi)) in
  limbs_checked l' /\ satisfied false false l' (after_div l (fe (a / b + 1)) (fe (a mod b) - l (ColTop 0))%F) AirStack.enforce_main.
Proof.
  intros [Hk (rest & Hst) Hsm Hd Hc Hh] Ho b a Ha Hb H2b Hq lo hi l'. pose proof (canonical_range (l (ColTop 1))) as Hra. fold a in Hra.
  destruct (forged_arith a b ltac:(lia) Hb H2b Hq) as (Hlo & Hhi & Eq1 & Eq2 & Eq3). fold lo hi in Hlo, Hhi, Eq2, Eq3.
  split; [by apply with_limbs_checked|]. set (n := after_div _ _ _).
  assert (Hk' : agrees l' (op_knowledge (op_code U32div))).
  { intros c v Hv. rewrite <-(Hk c v Hv). destruct c as [| |? | |k|k| | | | |k| | | | | | | | | |]; done. }
  assert (Hu : [l' (ColHasherState 2); l' (ColHasherState 3); l' (ColHasherState 4); l' (ColHasherState 5); l' (ColHasherState 6); l' (ColHasherState 7)]
    = limbs (fe lo) (fe hi) ++ [l (ColHasherState 6); l (ColHasherState 7)]).
  { unfold l', limbs. by destruct (split_u32_into_u16 ⟦fe lo⟧), (split_u32_into_u16 ⟦fe hi⟧). }
  apply limbs_shown in Hu as (Elo & Ehi & _); [|done..]. apply (stack_eqs l' n U32div Hk').
  let r := eval vm_compute in (residual (op_knowledge (op_code U32div)) AirStack.enforce_main) in
    assert (E : residual (op_knowledge (op_code U32div)) AirStack.enforce_main = r) by (vm_compute; reflexivity).
  rewrite E; clear E; cbn [eqs foldr on body eval]. rewrite Elo, Ehi.
  assert (El0 : l (ColTop 0) = fe b) by (symmetry; apply fe_of). assert (El1 : l (ColTop 1) = fe a) by (symmetry; apply fe_of).
  assert (Hlen : length (stack p) = (16 + length rest)%nat) by (rewrite Hst, length_app; done).
  assert (Hov : ((l ColB0 - fe 16) * l ColH0)%F = if (length rest =? 0)%nat then ZERO else ONE).
  { apply overflow_honest; [lia|by rewrite <-Hlen|done]. }
  rewrite Hlen in Hd.
  split_and!; unfold n, l'; cbn [after_div with_limbs]; try ring; rewrite ?El0, ?El1; try done. exact (overflow_depth _ _ _ Hd Hov).
Qed.
End Free.
