(* ===== verification/Chiplets.v ===== *)
(** * Constraints on the chiplets

    [air/src/constraints/chiplets]: the columns of the chiplets are shared by six chiplets stacked on top of each other, in the order
    hash controller, permutation, bitwise, memory, circuit evaluation and kernel ROM.  Selector columns say which one owns a
    row.  The overlays of [columns.rs] are offsets into the shared columns. *)

From S2P Require Import Prelude Field Types Operations Air AirFlags AirStack.
Import Air.
#[local] Open Scope nat_scope.

(** Constants of [miden_core::chiplets::hasher::Hasher], the permutation of the [miden-crypto] package, by round and lane *)
Class HasherParams := {
  MAT_DIAG : nat -> Z;
  ARK_EXT_INITIAL : nat -> nat -> Z;
  ARK_INT : nat -> Z;
  ARK_EXT_TERMINAL : nat -> nat -> Z;
}.

Definition chip (i : nat) : expr := Local (ColChiplet i).
Definition chip' (i : nat) : expr := Next (ColChiplet i).
(** [builder.is_transition()] *)
Definition is_transition_flag : expr := Local ColIsTransition.
Definition periodic (i : nat) : expr := Local (ColPeriodic i).

(** ** Selectors: [selectors.rs] *)
Module ChipletSelectors.

Record ChipletFlags := mkFlags { is_active : expr; is_transition : expr; is_last : expr; next_is_first : expr }.

(** [chiplet_selectors] of [columns.rs] *)
Definition s_ctrl : expr := chip 0.
Definition s_perm : expr := Local ColSPerm.
Definition s1 : expr := chip 1.
Definition s2 : expr := chip 2.
Definition s3 : expr := chip 3.
Definition s4 : expr := chip 4.
Definition s_ctrl_next : expr := chip' 0.
Definition s_perm_next : expr := Next ColSPerm.
Definition s1_next : expr := chip' 1.
Definition s2_next : expr := chip' 2.
Definition s3_next : expr := chip' 3.
Definition s4_next : expr := chip' 4.

Definition s_ctrl_or_s_perm : expr := (s_ctrl + s_perm)%E.
Definition s_ctrl_or_s_perm_next : expr := (s_ctrl_next + s_perm_next)%E.
Definition s0 : expr := enot s_ctrl_or_s_perm.

Definition tri_state_constraints : list constraint :=
  assert_bool s_ctrl ++ assert_bool s_perm ++ assert_bool s_ctrl_or_s_perm ++
  when_transition
    (when s_ctrl (assert_one s_ctrl_or_s_perm_next) ++
     when s_perm (assert_zero s_ctrl_next) ++
     when s0 (assert_zero s_ctrl_next ++ assert_zero s_perm_next)).

Definition s01 : expr := (s0 * s1)%E.
Definition s012 : expr := (s01 * s2)%E.
Definition s0123 : expr := (s012 * s3)%E.
Definition s01234 : expr := (s0123 * s4)%E.

Definition remaining_constraints : list constraint :=
  when s0 (assert_bool s1) ++ when s01 (assert_bool s2) ++ when s012 (assert_bool s3) ++ when s0123 (assert_bool s4) ++
  when_transition
    (when s01 (assert_eq s1_next s1) ++ when s012 (assert_eq s2_next s2) ++
     when s0123 (assert_eq s3_next s3) ++ when s01234 (assert_eq s4_next s4)).

Definition last_row_constraints : list constraint :=
  when_last_row
    (assert_zero s_ctrl ++ assert_zero s_perm ++ assert_one s1 ++ assert_one s2 ++ assert_one s3 ++ assert_one s4).

(** The constraints [build_chiplet_selectors] enforces, then the flags it returns *)
Definition build_chiplet_selectors : list constraint :=
  tri_state_constraints ++ remaining_constraints ++ last_row_constraints.

Definition controller : ChipletFlags :=
  mkFlags s_ctrl (is_transition_flag * s_ctrl * s_ctrl_next) (s_ctrl * enot s_ctrl_next) E0.
Definition permutation : ChipletFlags :=
  mkFlags s_perm (is_transition_flag * s_perm * s_perm_next) (s_perm * enot s_perm_next) (is_last controller * s_perm_next).
Definition bitwise : ChipletFlags :=
  mkFlags (s0 - s01) (is_transition_flag * s0 * enot s1_next) ((s0 - s01) * s1_next) (is_last permutation * enot s1_next).
Definition memory : ChipletFlags :=
  mkFlags (s01 - s012) (is_transition_flag * s01 * enot s2_next) ((s01 - s012) * s2_next) (is_last bitwise * enot s2_next).
Definition ace : ChipletFlags :=
  mkFlags (s012 - s0123) (is_transition_flag * s012 * enot s3_next) ((s012 - s0123) * s3_next) (is_last memory * enot s3_next).
Definition kernel_rom : ChipletFlags :=
  mkFlags (s0123 - s01234) (is_transition_flag * s0123 * enot s4_next) ((s0123 - s01234) * s4_next) (is_last ace * enot s4_next).
End ChipletSelectors.
Import ChipletSelectors.

(** ** The bitwise chiplet: [bitwise.rs] *)
Module AirBitwise.
Definition op_flag : nat := 2.
Definition a : nat := 3.
Definition b : nat := 4.
Definition a_bits : list nat := seq 5 4.
Definition b_bits : list nat := seq 9 4.
Definition prev_output : nat := 13.
Definition output : nat := 14.
Definition k_first : expr := periodic 16.
Definition k_transition : expr := periodic 17.
Definition F_16 : expr := Const 16.

Definition op_flag_constraints : list constraint :=
  assert_bool (chip op_flag) ++ when k_transition (assert_eq (chip op_flag) (chip' op_flag)).

Definition input_constraints : list constraint :=
  assert_bools (chip <$> a_bits) ++ assert_bools (chip <$> b_bits) ++
  when k_first
    (assert_eq (chip a) (horner_eval_bits (chip <$> a_bits)) ++ assert_eq (chip b) (horner_eval_bits (chip <$> b_bits)) ++
     assert_zero (chip prev_output)) ++
  when k_transition
    (assert_eq (chip' a) (chip a * F_16 + horner_eval_bits (chip' <$> a_bits)) ++
     assert_eq (chip' b) (chip b * F_16 + horner_eval_bits (chip' <$> b_bits))).

Definition a_and_b_bit (i : nat) : expr := (chip (5 + i) * chip (9 + i))%E.
Definition a_and_b : expr := horner_eval_bits (a_and_b_bit <$> seq 0 4).
Definition a_xor_b_bit (i : nat) : expr := (chip (5 + i) + chip (9 + i) - edouble (a_and_b_bit i))%E.
Definition a_xor_b : expr := horner_eval_bits (a_xor_b_bit <$> seq 0 4).
Definition expected_z : expr := (chip prev_output * F_16 + a_and_b + chip op_flag * (a_xor_b - a_and_b))%E.

Definition output_constraints : list constraint :=
  when k_transition (assert_eq (chip output) (chip' prev_output)) ++
  assert_eq (chip output) expected_z.

Definition enforce_bitwise_constraints : list constraint :=
  when (is_active bitwise) (op_flag_constraints ++ input_constraints ++ output_constraints).
End AirBitwise.

(** ** The memory chiplet: [memory.rs] *)
Module AirMemory.
Definition is_read : nat := 3.
Definition is_word : nat := 4.
Definition ctx : nat := 5.
Definition word_addr : nat := 6.
Definition idx0 : nat := 7.
Definition idx1 : nat := 8.
Definition clk : nat := 9.
Definition value (i : nat) : nat := 10 + i.
Definition d0 : nat := 14.
Definition d1 : nat := 15.
Definition d_inv : nat := 16.
Definition is_same_ctx_and_addr : nat := 17.
Definition TWO_POW_16 : expr := Const (2 ^ 16).

Definition binary_constraints : list constraint :=
  when (is_active memory)
    (assert_bool (chip is_read) ++ assert_bool (chip is_word) ++ assert_bool (chip idx0) ++ assert_bool (chip idx1) ++
     when (chip is_word) (assert_zero (chip idx0) ++ assert_zero (chip idx1))).

(** [compute_not_written_flags] on the columns of the next row *)
Definition selected (i : nat) : expr :=
  match i with
  | 0 => enot (chip' idx1) * enot (chip' idx0)
  | 1 => enot (chip' idx1) * chip' idx0
  | 2 => chip' idx1 * enot (chip' idx0)
  | _ => chip' idx1 * chip' idx0
  end%E.
Definition is_element_write : expr := (enot (chip' is_read) * enot (chip' is_word))%E.
Definition not_written (i : nat) : expr := (chip' is_read + is_element_write * enot (selected i))%E.

Definition first_row_constraints : list constraint :=
  when (next_is_first memory) (concat ((fun i => when (not_written i) (assert_zero (chip' (value i)))) <$> seq 0 4)).

Definition ctx_delta : expr := (chip' ctx - chip ctx)%E.
Definition ctx_changed : expr := (ctx_delta * chip' d_inv)%E.
Definition same_ctx : expr := enot ctx_changed.
Definition addr_delta : expr := (chip' word_addr - chip word_addr)%E.
Definition addr_changed : expr := (addr_delta * chip' d_inv)%E.
Definition same_addr : expr := enot addr_changed.
Definition clk_delta : expr := (chip' clk - chip clk)%E.
Definition computed_delta : expr := (ctx_changed * ctx_delta + same_ctx * (addr_changed * addr_delta + same_addr * clk_delta))%E.
Definition delta_next : expr := (chip' d1 * TWO_POW_16 + chip' d0)%E.
Definition clk_no_change : expr := (E1 - clk_delta * chip' d_inv)%E.
Definition any_write : expr := (enot (chip is_read) + enot (chip' is_read))%E.

Definition transition_constraints : list constraint :=
  when (is_transition memory)
    (assert_bool ctx_changed ++
     when same_ctx (assert_zero ctx_delta ++ assert_bool addr_changed ++ when same_addr (assert_zero addr_delta)) ++
     assert_eq (chip' is_same_ctx_and_addr) (same_ctx * same_addr) ++
     assert_eq computed_delta delta_next ++
     when (chip' is_same_ctx_and_addr) (when clk_no_change (assert_zero any_write)) ++
     concat ((fun i => when (not_written i) (assert_eq (chip' (value i)) (chip' is_same_ctx_and_addr * chip (value i)))) <$> seq 0 4)).

Definition enforce_memory_constraints : list constraint :=
  binary_constraints ++ first_row_constraints ++ transition_constraints.
End AirMemory.

(** ** The circuit evaluation chiplet: [ace.rs] *)
Module AirAce.
Import AirStack.
Definition s_start : nat := 4.
Definition s_block : nat := 5.
Definition ctx : nat := 6.
Definition ptr : nat := 7.
Definition clk : nat := 8.
Definition eval_op : nat := 9.
Definition id_0 : nat := 10.
Definition id_1 : nat := 13.
(** The mode columns: [num_eval] when reading, [id_2] when evaluating *)
Definition num_eval : nat := 16.
Definition id_2 : nat := 16.
Definition v_0 : quad := (chip 11, chip 12).
Definition v_1 : quad := (chip 14, chip 15).
Definition v_2 : quad := (chip 17, chip 18).

Definition f_eval : expr := chip s_block.
Definition f_eval_next : expr := chip' s_block.
Definition f_read : expr := enot f_eval.
Definition f_read_next : expr := enot f_eval_next.
Definition s_transition : expr := enot (chip' s_start).

Definition first_row_constraints : list constraint := when (next_is_first ace) (assert_one (chip' s_start)).
Definition binary_constraints : list constraint := when (is_active ace) (assert_bool (chip s_start) ++ assert_bool (chip s_block)).
Definition block_constraints : list constraint :=
  when (is_last ace) (assert_zero (chip s_start)) ++
  when (is_transition ace) (when (chip s_start) (assert_zero (chip' s_start))) ++
  when (is_active ace) (when (chip s_start) (assert_zero f_eval)) ++
  when (is_transition ace) (when s_transition (when f_eval (assert_zero f_read_next))).
Definition section_constraints : list constraint :=
  when (is_transition ace * s_transition)
    (assert_eq (chip' ctx) (chip ctx) ++ assert_eq (chip' clk) (chip clk) ++
     assert_eq (chip' ptr) (chip ptr + f_read * F_4 + f_eval) ++
     assert_eq (chip id_0) (chip' id_0 + edouble f_read + f_eval)).
Definition read_constraints : list constraint :=
  when (is_active ace) (when f_read (assert_eq (chip id_1) (chip id_0 - F_1))) ++
  when (is_transition ace) (when f_read
    (assert_eq (f_read_next * chip' num_eval + f_eval_next * chip' id_0) (chip num_eval))).
Definition op_square : expr := (chip eval_op * chip eval_op)%E.
Definition expected : quad :=
  let linear := qadd v_1 (qmul_base v_2 (chip eval_op)) in
  let nonlinear := qmul v_1 v_2 in
  qadd (qmul_base (qsub linear nonlinear) op_square) nonlinear.
Definition eval_constraints : list constraint :=
  when (is_active ace * f_eval) (assert_zero (chip eval_op * (op_square - F_1)) ++ assert_eq_quad v_0 expected).
Definition f_end : expr := (is_last ace + is_transition ace * chip' s_start)%E.
Definition final_constraints : list constraint :=
  when f_end (assert_zero f_read ++ assert_eq_quad v_0 (E0, E0) ++ assert_zero (chip id_0)).

Definition enforce_ace_constraints_all_rows : list constraint :=
  first_row_constraints ++ binary_constraints ++ block_constraints ++ section_constraints ++ read_constraints ++
  eval_constraints ++ final_constraints.
End AirAce.

(** ** The kernel ROM chiplet: [kernel_rom.rs] *)
Module AirKernelRom.
Definition s_first : nat := 5.
Definition root (i : nat) : nat := 6 + i.

Definition enforce_kernel_rom_constraints : list constraint :=
  when (is_active kernel_rom) (assert_bool (chip s_first)) ++
  when (is_transition kernel_rom * enot (chip' s_first))
    (concat ((fun i => assert_eq (chip' (root i)) (chip (root i))) <$> seq 0 4)) ++
  when (next_is_first kernel_rom) (assert_one (chip' s_first)).
End AirKernelRom.

(** ** The hash controller: [hasher_control/flags.rs] and [hasher_control/mod.rs] *)
Module AirController.
Definition s0 : nat := 1.
Definition s1 : nat := 2.
Definition s2 : nat := 3.
Definition state (i : nat) : nat := 4 + i.
Definition node_index : nat := 16.
Definition mrupdate_id : nat := 17.
Definition is_boundary : nat := 18.
Definition direction_bit : nat := 19.

(** [ControllerFlags::new], on the current row ([c := chip]) and on the next one ([c := chip']) *)
Section Flags.
Variable c : nat -> expr.
Definition is_input : expr := c s0.
Definition is_output : expr := (enot (c s0) * enot (c s1))%E.
Definition is_padding : expr := (enot (c s0) * c s1)%E.
Definition is_sponge_input : expr := (c s0 * enot (c s1) * enot (c s2))%E.
Definition is_merkle_input : expr := (c s0 * (c s1 + c s2 - c s1 * c s2))%E.
Definition is_hout : expr := (is_output * enot (c s2))%E.
Definition is_sout : expr := (is_output * c s2)%E.
Definition is_mv_input : expr := (c s0 * c s1 * enot (c s2))%E.
End Flags.

Definition skeleton_constraints : list constraint :=
  when_first_row (assert_one (is_active controller * is_input chip)) ++
  when (is_active controller) (assert_bools [chip s0; chip s1; chip s2]) ++
  when (is_active controller) (assert_bool (chip is_boundary)) ++
  when (is_transition controller) (when (is_output chip) (assert_zero (is_output chip'))) ++
  when (is_transition controller) (when (is_padding chip) (assert_one (is_padding chip'))) ++
  when (is_active controller) (when (is_padding chip) (assert_zeros [chip is_boundary; chip direction_bit])).

Definition start_constraints : list constraint :=
  when (is_last controller) (assert_zero (is_input chip)) ++
  when (is_last controller) (when (is_output chip) (assert_one (chip is_boundary))) ++
  when (is_transition controller) (when (is_input chip) (assert_one (is_output chip'))).

Definition sponge_constraints : list constraint :=
  when (is_active controller) (when (is_sponge_input chip) (assert_zeros [chip node_index; chip direction_bit])) ++
  when (is_transition controller * is_sponge_input chip' * enot (chip' is_boundary))
    (concat ((fun i => assert_eq (chip' (state (8 + i))) (chip (state (8 + i)))) <$> seq 0 4)).

(** The gate of the constraints between the levels of a Merkle path *)
Definition next_level : expr :=
  (is_active controller * is_output chip * enot (chip is_boundary) * is_merkle_input chip')%E.
Definition merkle_constraints : list constraint :=
  when (is_active controller * is_merkle_input chip)
    (assert_eq (chip node_index) (edouble (chip' node_index) + chip direction_bit) ++
     assert_bool (chip direction_bit) ++
     assert_zeros ((fun i => chip (state (8 + i))) <$> seq 0 4)) ++
  when (is_active controller) (when (is_output chip) (when (enot (chip is_boundary)) (when (is_merkle_input chip')
    (assert_eq (chip' node_index) (chip node_index))))) ++
  when next_level
    (assert_eq (chip direction_bit) (chip' direction_bit) ++
     concat ((fun j => assert_eq (chip (state j))
       (chip' (state j) + chip direction_bit * (chip' (state (4 + j)) - chip' (state j)))) <$> seq 0 4)) ++
  when (is_transition controller)
    (assert_eq (chip' mrupdate_id) (chip mrupdate_id + is_mv_input chip' * chip' is_boundary)).

Definition end_constraints : list constraint :=
  when (is_active controller) (when (is_hout chip) (assert_zeros [chip node_index; chip direction_bit])) ++
  when (is_active controller) (when (is_sout chip) (when (chip is_boundary) (assert_zero (chip direction_bit)))).

Definition enforce_controller_constraints : list constraint :=
  skeleton_constraints ++ start_constraints ++ sponge_constraints ++ merkle_constraints ++ end_constraints.
End AirController.

(** ** The permutation: [permutation/mod.rs] and [permutation/state.rs] *)

(** The operations of [PrimeCharacteristicRing] the helpers are generic in *)
Class CharRing (E : Type) := { r_zero : E; r_add : E -> E -> E; r_sub : E -> E -> E; r_mul : E -> E -> E }.
#[global] Instance expr_ring : CharRing expr := {| r_zero := E0; r_add := EAdd; r_sub := ESub; r_mul := EMul |}.
#[global] Instance felt_char_ring `{F : Felt} : CharRing felt := {| r_zero := ZERO; r_add := felt_add; r_sub := felt_sub; r_mul := felt_mul |}.
Declare Scope char_scope.
Delimit Scope char_scope with CR.
Infix "+" := r_add : char_scope.
Infix "-" := r_sub : char_scope.
Infix "*" := r_mul : char_scope.

Module AirPermutation.
Definition STATE_WIDTH : nat := 12.

Section Helpers.
Context {E : Type} {R : CharRing E}.
#[local] Open Scope char_scope.

Definition double (x : E) : E := x + x.
(** [exp_const_u64::<7>] *)
Definition exp_7 (x : E) : E := let x2 := x * x in let x3 := x2 * x in let x4 := x2 * x2 in x3 * x4.
(** [E::sum_array] *)
Definition sum_array (l : list E) : E := foldl r_add r_zero l.

Definition matmul_m4 (input : list E) : list E :=
  let a := nth 0 input r_zero in let b := nth 1 input r_zero in let c := nth 2 input r_zero in let d := nth 3 input r_zero in
  let t01 := a + b in
  let t23 := c + d in
  let t0123 := t01 + t23 in
  let t01123 := t0123 + b in
  let t01233 := t0123 + d in
  [t01123 + t01; t01123 + double c; t01233 + t23; t01233 + double a].

Definition apply_matmul_external (state : list E) : list E :=
  let b0 := matmul_m4 (take 4 state) in
  let b1 := matmul_m4 (take 4 (drop 4 state)) in
  let b2 := matmul_m4 (take 4 (drop 8 state)) in
  let stored := zip_with r_add (zip_with r_add b0 b1) b2 in
  zip_with r_add b0 stored ++ zip_with r_add b1 stored ++ zip_with r_add b2 stored.

Definition apply_matmul_internal (state mat_diag : list E) : list E :=
  let sum := sum_array state in
  zip_with (fun s d => s * d + sum) state mat_diag.

(** Add the round constants, apply the S-box and the external layer *)
Definition external_round (state ark_ext : list E) : list E :=
  apply_matmul_external (exp_7 <$> zip_with r_add state ark_ext).

Definition apply_init_plus_ext (h ark_ext : list E) : list E := external_round (apply_matmul_external h) ark_ext.

(** One round of [apply_packed_internals]: the next state and the check of the witness *)
Definition packed_internal (mat_diag : list E) (s : list E * list E) (wk : E * E) : list E * list E :=
  let '(state, witness_checks) := s in
  let '(w, ark_int) := wk in
  let sbox_input := nth 0 state r_zero + ark_int in
  (apply_matmul_internal (<[0 := w]> state) mat_diag, witness_checks ++ [w - exp_7 sbox_input]).
Definition apply_packed_internals (h w ark_int mat_diag : list E) : list E * list E :=
  foldl (packed_internal mat_diag) (h, []) (zip w ark_int).

Definition apply_internal_plus_ext (h : list E) (w0 ark_int_const : E) (ark_ext mat_diag : list E) : list E * E :=
  let sbox_input := nth 0 h r_zero + ark_int_const in
  let witness_check := w0 - exp_7 sbox_input in
  let intermediate := apply_matmul_internal (<[0 := w0]> h) mat_diag in
  (external_round intermediate ark_ext, witness_check).
End Helpers.

Definition witness (i : nat) : nat := 1 + i.
Definition state (i : nat) : nat := 4 + i.
Definition multiplicity : nat := 16.
Definition unused_padding : list nat := seq 17 3.
Definition is_init_ext : expr := periodic 0.
Definition is_ext : expr := periodic 1.
Definition is_packed_int : expr := periodic 2.
Definition is_int_ext : expr := periodic 3.
Definition ark : list expr := (fun i => periodic (4 + i)) <$> seq 0 STATE_WIDTH.
Definition h : list expr := (fun i => chip (state i)) <$> seq 0 STATE_WIDTH.
Definition h_next : list expr := (fun i => chip' (state i)) <$> seq 0 STATE_WIDTH.
Definition w : list expr := (fun i => chip (witness i)) <$> seq 0 3.

Section Constraints.
Context {P : HasherParams}.
Definition mat_diag : list expr := (fun i => Const (MAT_DIAG i)) <$> seq 0 STATE_WIDTH.
Definition ark_int_21 : expr := Const (ARK_INT 21).

Definition assert_all_eq (l l' : list expr) : list constraint := concat (zip_with assert_eq l l').

Definition enforce_permutation_steps (perm_gate : expr) : list constraint :=
  when (perm_gate * (E1 - is_packed_int - is_int_ext)) (assert_zero (chip (witness 0))) ++
  when (perm_gate * (E1 - is_packed_int)) (assert_zero (chip (witness 1)) ++ assert_zero (chip (witness 2))) ++
  when (perm_gate * is_init_ext) (assert_all_eq h_next (apply_init_plus_ext h ark)) ++
  when (perm_gate * is_ext) (assert_all_eq h_next (external_round h ark)) ++
  (let '(expected, witness_checks) := apply_packed_internals h w (take 3 ark) mat_diag in
   when (perm_gate * is_packed_int) (assert_zeros witness_checks ++ assert_all_eq h_next expected)) ++
  (let '(expected, witness_check) := apply_internal_plus_ext h (chip (witness 0)) ark_int_21 ark mat_diag in
   when (perm_gate * is_int_ext) (assert_zero witness_check ++ assert_all_eq h_next expected)).

Definition not_cycle_end : expr := esum [is_init_ext; is_ext; is_packed_int; is_int_ext].

Definition enforce_permutation_constraints : list constraint :=
  enforce_permutation_steps (is_active permutation) ++
  when (is_active permutation) (assert_zeros (chip <$> unused_padding)) ++
  when (is_active permutation) (when not_cycle_end (assert_eq (chip' multiplicity) (chip multiplicity))) ++
  when (next_is_first permutation) (assert_zero not_cycle_end) ++
  when (is_last permutation) (assert_zero not_cycle_end).
End Constraints.
End AirPermutation.

(** ** All chiplets: [chiplets/mod.rs], and the periodic columns of [columns.rs] *)
Module AirChiplets.
Section Chiplets.
Context {P : HasherParams}.

Definition enforce_main : list constraint :=
  AirPermutation.enforce_permutation_constraints ++ AirController.enforce_controller_constraints ++
  AirBitwise.enforce_bitwise_constraints ++ AirMemory.enforce_memory_constraints ++
  AirAce.enforce_ace_constraints_all_rows ++ AirKernelRom.enforce_kernel_rom_constraints.

Definition HASH_CYCLE_LEN : nat := 16.
(** A column that is one on the given rows of the cycle *)
Definition marked (rows : list nat) : list Z := (fun i => Z.b2z (bool_decide (i ∈ rows))) <$> seq 0 HASH_CYCLE_LEN.
Definition ark_column (lane : nat) : list Z :=
  ((fun r => ARK_EXT_INITIAL r lane) <$> seq 0 4) ++
  ((fun triple => if lane <? 3 then ARK_INT (triple * 3 + lane) else 0%Z) <$> seq 0 7) ++
  ((fun r => ARK_EXT_TERMINAL r lane) <$> seq 0 4) ++ [0%Z].
Definition hasher_columns : list (list Z) :=
  [marked [0]; marked [1; 2; 3; 12; 13; 14]; marked (seq 4 7); marked [11]] ++ (ark_column <$> seq 0 AirPermutation.STATE_WIDTH).
Definition bitwise_columns : list (list Z) := [[1; 0; 0; 0; 0; 0; 0; 0]; [1; 1; 1; 1; 1; 1; 1; 0]]%Z.
Definition periodic_columns : list (list Z) := hasher_columns ++ bitwise_columns.
(** The value of a periodic column on a row *)
Definition periodic_value (k i : nat) : Z := let col := nth k periodic_columns [] in nth (i mod length col) col 0%Z.
End Chiplets.
End AirChiplets.
