(* ===== verification/ChipletRegions.v ===== *)
(** * Regions of the chiplets

    The selectors split a trace into regions, one for each chiplet in a fixed order, followed by padding.  The flags of a chiplet
    tell its rows, its last row and the row before its first. *)

From S2P Require Import Prelude Field Types Operations Air AirFlags AirStack AirRows AirDecoder AirTrace Chiplets.
From Stdlib Require Import Ring.
Import Air ChipletSelectors.
#[local] Open Scope nat_scope.

Inductive region := RController | RPermutation | RBitwise | RMemory | RAce | RKernelRom | RPadding.
#[global] Instance region_eq_dec : EqDecision region.
Proof. solve_decision. Defined.
Definition rank (r : region) : nat :=
  match r with RController => 0 | RPermutation => 1 | RBitwise => 2 | RMemory => 3 | RAce => 4 | RKernelRom => 5 | RPadding => 6 end.
Definition regions : list region := [RController; RPermutation; RBitwise; RMemory; RAce; RKernelRom; RPadding].

(** The selectors of a row of the region *)
Definition region_knowledge (r : region) : knowledge := fun c =>
  match c with
  | ColChiplet 0 => Some (rank r =? 0)
  | ColSPerm => Some (rank r =? 1)
  | ColChiplet j => if (j <=? 4) && (S j <=? rank r) then Some (S j <? rank r) else None
  | _ => None
  end.
Definition flags_of (r : region) : option ChipletFlags :=
  match r with
  | RController => Some controller | RPermutation => Some permutation | RBitwise => Some bitwise | RMemory => Some memory
  | RAce => Some ace | RKernelRom => Some kernel_rom | RPadding => None
  end.

(** The regions a row of a region may be followed by *)
Definition follows (r r' : region) : bool := (rank r <=? rank r') && ((0 <? rank r) || (rank r' <=? 1)).

(** The value of an expression on rows of two regions, when the selectors decide it *)
Definition flag_value2 (r r' : region) (e : expr) : option bool :=
  match simp2 (region_knowledge r) (region_knowledge r') e with Const 0 => Some false | Const 1 => Some true | _ => None end.

(** The same for the transition flags, which carry the transition selector *)
Definition transition_value (r r' : region) (e : expr) : option bool :=
  match simp2 (region_knowledge r) (region_knowledge r') e with Const 0 => Some false | Local ColIsTransition => Some true | _ => None end.

(** What the flags are on two neighbouring rows *)
Definition region_flags_checked (r r' : region) : bool :=
  forallb (fun c =>
    match flags_of c with
    | None => true
    | Some f =>
      bool_decide (flag_value2 r r' (is_active f) = Some (bool_decide (r = c))) &&
      (negb (follows r r') ||
       (bool_decide (flag_value2 r r' (is_last f) = Some (bool_decide (r = c) && negb (bool_decide (r' = c)))) &&
        bool_decide (flag_value2 r r' (next_is_first f) =
          Some ((S (rank r) =? rank c) && bool_decide (r' = c))) &&
        bool_decide (transition_value r r' (is_transition f) = Some (bool_decide (r = c) && bool_decide (r' = c)))))
    end) regions.
Lemma all_region_flags : forallb (fun r => forallb (region_flags_checked r) regions) regions = true.
Proof. vm_compute. reflexivity. Qed.

(** No pair of neighbours other than those of [follows] satisfies the selectors' constraints. *)
Definition refuted (on_row : rows -> bool) (r r' : region) : bool :=
  existsb (fun c => on_row (on c) && let e := simp2 (region_knowledge r) (region_knowledge r') (body c) in is_E1 e || is_neg1 e)
    build_chiplet_selectors.
Definition transition_rows (o : rows) : bool := match o with TransitionRow => true | _ => false end.
Definition last_rows (o : rows) : bool := match o with LastRow => true | _ => false end.
Lemma all_refuted : forallb (fun r => forallb (fun r' => (follows r r' || refuted transition_rows r r') &&
  (bool_decide (r = RPadding) || refuted last_rows r r')) regions) regions = true.
Proof. vm_compute. reflexivity. Qed.

Lemma elem_regions (r : region) : In r regions.
Proof. destruct r; cbn; tauto. Qed.
Lemma forallb_regions (f : region -> region -> bool) r r' : forallb (fun r => forallb (f r) regions) regions = true -> f r r' = true.
Proof. intros H. rewrite forallb_forall in H. specialize (H r (elem_regions r)). rewrite forallb_forall in H. exact (H r' (elem_regions r')). Qed.

Section Regions.
Context {F : Felt}.
Add Ring felt_ring_regions : felt_ring_theory.

Definition in_region (l : row) (r : region) : Prop := agrees l (region_knowledge r).

(** The region the selectors of a row show *)
Definition region_of (l : row) : region :=
  if bool_decide (l (ColChiplet 0) = ONE) then RController
  else if bool_decide (l ColSPerm = ONE) then RPermutation
  else if bool_decide (l (ColChiplet 1) = ZERO) then RBitwise
  else if bool_decide (l (ColChiplet 2) = ZERO) then RMemory
  else if bool_decide (l (ColChiplet 3) = ZERO) then RAce
  else if bool_decide (l (ColChiplet 4) = ZERO) then RKernelRom
  else RPadding.

Lemma refuted_false on_row first last l n r r' : satisfied first last l n build_chiplet_selectors -> in_region l r -> in_region n r' ->
  (forall o, on_row o = true -> match o with EveryRow => True | FirstRow => first = true | LastRow => last = true | TransitionRow => last = false end) ->
  refuted on_row r r' = false.
Proof.
  intros H Hl Hn Ho. apply not_true_is_false. intros Hr. unfold refuted in Hr. apply existsb_exists in Hr as (c & Hc & Hr).
  apply andb_true_iff in Hr as [Hon Hr]. unfold satisfied in H. rewrite Forall_forall in H. specialize (H c (proj2 (list_elem_of_In _ _) Hc)).
  specialize (Ho _ Hon). assert (eval l n (body c) = ZERO) as Hz by (unfold holds in H; destruct (on c); auto).
  rewrite <-(simp2_eval l n _ _ _ Hl Hn) in Hz. apply orb_true_iff in Hr as [Hr|Hr].
  - rewrite (is_E1_eval l n _ Hr) in Hz. by apply ONE_neq_ZERO.
  - rewrite (is_neg1_eval l n _ Hr) in Hz. apply ONE_neq_ZERO. transitivity (- - ONE)%F; [ring|]. rewrite Hz. ring.
Qed.

Lemma region_follows first l n r r' : satisfied first false l n build_chiplet_selectors -> in_region l r -> in_region n r' -> follows r r' = true.
Proof.
  intros H Hl Hn. pose proof (forallb_regions _ r r' all_refuted) as Hc. apply andb_true_iff in Hc as [Hc _].
  apply orb_true_iff in Hc as [Hc|Hc]; [done|]. rewrite (refuted_false transition_rows _ _ _ _ _ _ H Hl Hn) in Hc; [done|]. by intros [].
Qed.
Lemma region_last first l n r r' : satisfied first true l n build_chiplet_selectors -> in_region l r -> in_region n r' -> r = RPadding.
Proof.
  intros H Hl Hn. pose proof (forallb_regions _ r r' all_refuted) as Hc. apply andb_true_iff in Hc as [_ Hc].
  apply orb_true_iff in Hc as [Hc|Hc]; [by apply bool_decide_eq_true in Hc|].
  rewrite (refuted_false last_rows _ _ _ _ _ _ H Hl Hn) in Hc; [done|]. by intros [].
Qed.

Lemma two_nonzero : (ONE + ONE)%F <> ZERO.
Proof. intros H. apply (f_equal as_canonical_u64) in H. by rewrite canonical_add, canonical_ONE, canonical_ZERO in H. Qed.

(** A bit under an active gate *)
Lemma gated_bit (g x : felt) : g = ONE -> (g * (x * (x - ONE)))%F = ZERO -> exists b, x = felt_bit b.
Proof. intros -> H. apply bit_felt. rewrite new_unchecked_1, <-H. ring. Qed.

Lemma agrees_region l r : l (ColChiplet 0) = felt_bit (rank r =? 0) -> l ColSPerm = felt_bit (rank r =? 1) ->
  (forall j, 1 <= j <= 4 -> S j <= rank r -> l (ColChiplet j) = felt_bit (S j <? rank r)) -> in_region l r.
Proof.
  intros H0 Hp Hj c b. unfold region_knowledge. destruct c as [| |? | |?|?| | | |?|?|?| | | | | |j| |?|]; try done.
  - destruct j as [|j]; [by intros [= <-]|]. destruct (Nat.leb_spec (S j) 4); [|done]. destruct (Nat.leb_spec (S (S j)) (rank r)); [|done].
    cbn [andb]. intros [= <-]. apply Hj; lia.
  - by intros [= <-].
Qed.

Lemma row_region first last l n : satisfied first last l n build_chiplet_selectors -> in_region l (region_of l).
Proof.
  intros H. unfold build_chiplet_selectors in H. rewrite !satisfied_app in H. destruct H as (Ht & Hr & _).
  open_constraints Ht. open_constraints Hr. destruct Ht as (H0 & Hp & Hs & _), Hr as (H1 & H2 & H3 & H4 & _).
  apply bit_felt in H0 as [b0 E0], Hp as [bp Ep]. rewrite E0, Ep in *. pose proof ONE_neq_ZERO as H10. rewrite new_unchecked_1 in *.
  assert (Hbit : forall x : felt, (ONE - (ZERO + ZERO) = ONE)%F) by (intros; ring). specialize (Hbit ZERO).
  unfold region_of. rewrite E0, Ep.
  destruct b0, bp; cbn [felt_bit] in *.
  - exfalso. apply two_nonzero. rewrite <-Hs. ring.
  - rewrite bool_decide_true by done. by apply agrees_region; [..|cbn; lia].
  - rewrite bool_decide_false, bool_decide_true by congruence. by apply agrees_region; [..|cbn; lia].
  - rewrite !bool_decide_false by congruence. rewrite Hbit in *.
    repeat match goal with H : (?g * (l ?c * (l ?c - ONE)))%F = ZERO |- _ =>
      apply gated_bit in H; [|ring]; let b := fresh "b" in let E := fresh "E" in destruct H as [b E]; rewrite E in *; destruct b; cbn [felt_bit] in *;
        [rewrite bool_decide_false by done|
         rewrite bool_decide_true by done; apply agrees_region; [done|done|]; intros [|[|[|[|[|?]]]]] ? ?; cbn in *; lia || done] end.
    apply agrees_region; [done|done|]; intros [|[|[|[|[|?]]]]] ? ?; cbn in *; lia || done.
Qed.

(** A gate that is not zero can be dropped. *)
Lemma satisfied_gate first last l n g cs : eval l n g <> ZERO -> satisfied first last l n (when g cs) -> satisfied first last l n cs.
Proof.
  intros Hg H. unfold satisfied, when in *. rewrite Forall_fmap in H. refine (Forall_impl _ _ _ H _). intros c. unfold holds. cbn.
  assert (forall x : felt, (eval l n g * x)%F = ZERO -> x = ZERO) as Hx by (intros x Hz; apply felt_mul_zero in Hz as [Hz|Hz]; [by destruct Hg|done]).
  destruct (on c); auto.
Qed.
Lemma satisfied_when first last l n g cs : eval l n g = ONE -> satisfied first last l n (when g cs) -> satisfied first last l n cs.
Proof. intros Hg. apply satisfied_gate. rewrite Hg. apply ONE_neq_ZERO. Qed.

(** ** Traces *)

(** What the builder supplies: the transition selector vanishes on the last row only, and the periodic columns repeat. *)
Definition supplied {P : HasherParams} (N : nat) (t : trace) : Prop :=
  (forall i, i < N -> t i ColIsTransition = ZERO <-> S i = N) /\
  (forall i k, i < N -> k < 18 -> t i (ColPeriodic k) = new_unchecked (AirChiplets.periodic_value k i)).

Section Trace.
Variables (N : nat) (t : trace).
Hypothesis Hsel : trace_ok N t build_chiplet_selectors.

Lemma trace_region i : i < N -> in_region (t i) (region_of (t i)).
Proof using Hsel. intros Hi. exact (row_region _ _ _ _ (Hsel i Hi)). Qed.
Lemma trace_follows i : S i < N -> follows (region_of (t i)) (region_of (t (S i))) = true.
Proof using Hsel. intros Hi. apply (region_follows _ _ _ _ _ (trace_step _ _ _ _ Hsel Hi)); apply trace_region; lia. Qed.
Lemma follows_rank r r' : follows r r' = true -> rank r <= rank r' /\ (rank r = 0 -> rank r' <= 1).
Proof. by destruct r, r'; vm_compute; intros; lia. Qed.
Lemma rank_mono i j : i <= j < N -> rank (region_of (t i)) <= rank (region_of (t j)).
Proof using Hsel.
  intros [Hij Hj]. induction j as [|j IH]; [by replace i with 0 by lia|]. destruct (decide (i = S j)) as [->|]; [done|].
  pose proof (follows_rank _ _ (trace_follows j Hj)). specialize (IH ltac:(lia) ltac:(lia)). lia.
Qed.
Lemma rank_inj r r' : rank r = rank r' -> r = r'.
Proof. by destruct r, r'. Qed.
(** A region is an interval of rows. *)
Lemma region_between i k j : i <= k <= j -> j < N -> region_of (t i) = region_of (t j) -> region_of (t k) = region_of (t i).
Proof using Hsel.
  intros Hk Hj E. pose proof (rank_mono i k ltac:(lia)). pose proof (rank_mono k j ltac:(lia)). apply rank_inj. rewrite <-E in *. lia.
Qed.
Lemma region_last_row : 0 < N -> region_of (t (N - 1)) = RPadding.
Proof using Hsel.
  intros HN. pose proof (Hsel (N - 1) ltac:(lia)) as H. replace (S (N - 1)) with N in H by lia. rewrite Nat.eqb_refl, Nat.Div0.mod_same in H.
  apply (region_last _ _ _ _ (region_of (t 0)) H); apply trace_region; lia.
Qed.
Lemma region_not_last i : i < N -> region_of (t i) <> RPadding -> S i < N.
Proof using Hsel. intros Hi Hr. destruct (decide (S i = N)) as [E|]; [|lia]. destruct Hr. rewrite <-region_last_row by lia. do 2 f_equal. lia. Qed.
(** The first row of a region *)
Lemma region_start i r : i < N -> region_of (t i) = r -> exists j, j <= i /\ region_of (t j) = r /\ (j = 0 \/ rank (region_of (t (j - 1))) < rank r).
Proof using Hsel.
  intros Hi Hr. induction i as [|i IH]; [by exists 0; auto|]. destruct (decide (region_of (t i) = r)) as [E|E].
  - destruct (IH ltac:(lia) E) as (j & ? & ? & ?). exists j. split; [lia|done].
  - exists (S i). split_and!; [done|done|]. right. replace (S i - 1) with i by lia. pose proof (rank_mono i (S i) ltac:(lia)) as Hm.
    rewrite Hr in Hm. assert (rank (region_of (t i)) <> rank r) by (intros E'; apply E; by apply rank_inj). lia.
Qed.

(** The rows of a region are an interval. *)
Lemma region_interval i : i < N -> exists a b, a <= i <= b /\ b < N /\ forall k, k < N -> region_of (t k) = region_of (t i) <-> a <= k <= b.
Proof using Hsel.
  intros Hi. destruct (region_start i _ Hi eq_refl) as (a & Ha & Ra & Hfirst).
  assert (forall d, d <= N - i -> exists b, i <= b /\ b < N /\ region_of (t b) = region_of (t i) /\
    forall k, k < i + d -> k < N -> region_of (t k) = region_of (t i) -> k <= b) as Hd.
  { intros d. induction d as [|d IH]; intros Hd; [exists i; split_and!; try done; lia|]. destruct IH as (b & ? & ? & ? & Hk); [lia|].
    destruct (decide (region_of (t (i + d)) = region_of (t i))) as [Rd|Rd].
    - exists (i + d). split_and!; try done; lia.
    - exists b. split_and!; try done. intros k Hk' HkN Rk. destruct (decide (k = i + d)) as [->|]; [done|]. apply Hk; [lia|done..]. }
  destruct (Hd (N - i) ltac:(lia)) as (b & Hib & Hb & Rb & Hk). exists a, b. split_and!; try done. intros k HkN. split.
  - intros Rk. split; [|apply Hk; [lia|done..]]. destruct (decide (a <= k)) as [|Hlt]; [done|]. exfalso. destruct Hfirst as [->|Hfirst]; [lia|].
    pose proof (rank_mono k (a - 1) ltac:(lia)) as Hm. rewrite Rk in Hm. lia.
  - intros Hak. rewrite (region_between a k b) by (lia || congruence). done.
Qed.

(** The constraints on two rows, simplified with the regions of the rows *)
Lemma region_residual cs i : trace_ok N t cs -> S i < N ->
  satisfied (i =? 0) false (t i) (t (S i)) (residual2 (region_knowledge (region_of (t i))) (region_knowledge (region_of (t (S i)))) cs).
Proof using Hsel.
  intros H Hi. apply residual2_satisfied; [apply trace_region; lia|apply trace_region; lia|]. exact (trace_step _ _ _ _ H Hi).
Qed.
(** The flags of the chiplets on neighbouring rows *)
Lemma region_flags i c f : S i < N -> flags_of c = Some f ->
  let r := region_of (t i) in let r' := region_of (t (S i)) in
  eval (t i) (t (S i)) (is_active f) = felt_bit (bool_decide (r = c)) /\
  eval (t i) (t (S i)) (is_last f) = felt_bit (bool_decide (r = c) && negb (bool_decide (r' = c))) /\
  eval (t i) (t (S i)) (next_is_first f) = felt_bit ((S (rank r) =? rank c) && bool_decide (r' = c)) /\
  eval (t i) (t (S i)) (is_transition f) = (t i ColIsTransition * felt_bit (bool_decide (r = c) && bool_decide (r' = c)))%F.
Proof using Hsel.
  intros Hi Hf r r'. pose proof (trace_region i ltac:(lia)) as Hl. pose proof (trace_region (S i) Hi) as Hn. fold r in Hl. fold r' in Hn.
  pose proof (forallb_regions _ r r' all_region_flags) as Hc. unfold region_flags_checked in Hc. rewrite forallb_forall in Hc.
  specialize (Hc c (elem_regions c)). rewrite Hf, (trace_follows i Hi : follows r r' = true) in Hc. cbn [negb orb] in Hc.
  rewrite !andb_true_iff, !bool_decide_eq_true in Hc. destruct Hc as (Ha & (Hla & Hfi) & Htr).
  assert (Hv : forall e b, flag_value2 r r' e = Some b -> eval (t i) (t (S i)) e = felt_bit b).
  { intros e b. unfold flag_value2. rewrite <-(simp2_eval _ _ _ _ e Hl Hn). destruct (simp2 _ _ e) as [| |[|[]|]| | | |]; try done; intros [= <-];
      [apply new_unchecked_0|apply new_unchecked_1]. }
  split_and!; [by apply Hv..|]. unfold transition_value in Htr. rewrite <-(simp2_eval _ _ _ _ (is_transition f) Hl Hn).
  destruct (simp2 _ _ (is_transition f)) as [[]| |[|[]|]| | | |]; try discriminate Htr; apply (inj Some) in Htr; rewrite <-Htr; cbn [eval felt_bit];
    [ring|rewrite new_unchecked_0; ring].
Qed.
(** Inside a region its transition flag is not zero. *)
Lemma transition_gate {P : HasherParams} i c f : supplied N t -> S i < N -> flags_of c = Some f ->
  region_of (t i) = c -> region_of (t (S i)) = c -> eval (t i) (t (S i)) (is_transition f) <> ZERO.
Proof using Hsel.
  intros [HT _] Hi Hf Hr Hr' Hz. destruct (region_flags i c f Hi Hf) as (_ & _ & _ & Ht). rewrite Ht, Hr, Hr', !bool_decide_true in Hz by done.
  assert (t i ColIsTransition = ZERO) as Hz' by (rewrite <-Hz; cbn; ring). apply HT in Hz'; lia.
Qed.
End Trace.
End Regions.

(** The equations of a list of constraints on rows of known regions *)
Ltac open_residual H :=
  match type of H with satisfied _ _ _ _ ?cs =>
    let r := eval vm_compute in cs in
    change cs with r in H; apply satisfied_conj in H; unfold holds in H; cbn [foldr on body eval] in H
  end.
