(* ===== verification/ChipletPermutation.v ===== *)
(** * The permutation chiplet computes the permutation

    A cycle of 16 rows packs the 30 rounds of Poseidon2 into 15 steps.  The reference applies the rounds one by one, with the linear layers
    given by their matrices. *)

From S2P Require Import Prelude Field Types Operations Air AirFlags AirStack AirRows AirDecoder AirTrace Chiplets ChipletRegions.
From Stdlib Require Import Ring.
Import Air ChipletSelectors AirPermutation.
#[local] Open Scope nat_scope.

(** ** Helpers commute with evaluation *)

Record char_hom {E E'} {R : CharRing E} {R' : CharRing E'} (f : E -> E') : Prop := {
  hom_zero : f r_zero = r_zero;
  hom_add : forall x y, f (r_add x y) = r_add (f x) (f y);
  hom_sub : forall x y, f (r_sub x y) = r_sub (f x) (f y);
  hom_mul : forall x y, f (r_mul x y) = r_mul (f x) (f y);
}.

Section Hom.
Context {E E' : Type} {R : CharRing E} {R' : CharRing E'} (f : E -> E').
Hypothesis Hf : char_hom f.

Lemma hom_nth k l : f (nth k l r_zero) = nth k (f <$> l) r_zero.
Proof using Hf. rewrite <-(hom_zero f Hf). symmetry. apply map_nth. Qed.
Lemma hom_zip_add l l' : f <$> zip_with r_add l l' = zip_with r_add (f <$> l) (f <$> l').
Proof using Hf. revert l'. induction l as [|x l IH]; intros [|y l']; [done..|]. cbn. by rewrite (hom_add f Hf), IH. Qed.
Lemma hom_exp_7 x : f (exp_7 x) = exp_7 (f x).
Proof using Hf. unfold exp_7. by rewrite !(hom_mul f Hf). Qed.
Lemma hom_sum l : f (sum_array l) = sum_array (f <$> l).
Proof using Hf.
  unfold sum_array. rewrite <-(hom_zero f Hf). generalize (@r_zero _ R). induction l as [|x l IH]; intros z; [done|]. cbn. by rewrite IH, (hom_add f Hf).
Qed.
Lemma hom_m4 l : f <$> matmul_m4 l = matmul_m4 (f <$> l).
Proof using Hf. unfold matmul_m4, double. cbn. by rewrite !(hom_add f Hf), !hom_nth. Qed.
Lemma hom_external l : f <$> apply_matmul_external l = apply_matmul_external (f <$> l).
Proof using Hf. unfold apply_matmul_external. by rewrite !fmap_app, !hom_zip_add, !hom_m4, !fmap_take, !fmap_drop. Qed.
Lemma hom_internal l d : f <$> apply_matmul_internal l d = apply_matmul_internal (f <$> l) (f <$> d).
Proof using Hf.
  unfold apply_matmul_internal. rewrite <-hom_sum. generalize (sum_array l). intros s. revert d.
  induction l as [|x l IH]; intros [|y d]; [done..|]. cbn. by rewrite (hom_add f Hf), (hom_mul f Hf), IH.
Qed.
Lemma hom_round l a : f <$> external_round l a = external_round (f <$> l) (f <$> a).
Proof using Hf.
  unfold external_round. rewrite hom_external. f_equal. rewrite <-hom_zip_add, <-!list_fmap_compose. apply list_fmap_ext. intros _ x _. apply hom_exp_7.
Qed.
Lemma hom_init l a : f <$> apply_init_plus_ext l a = apply_init_plus_ext (f <$> l) (f <$> a).
Proof using Hf. unfold apply_init_plus_ext. by rewrite hom_round, hom_external. Qed.
Lemma hom_packed d wks s wc : foldl (packed_internal (f <$> d)) (f <$> s, f <$> wc) (prod_map f f <$> wks) =
  (f <$> (foldl (packed_internal d) (s, wc) wks).1, f <$> (foldl (packed_internal d) (s, wc) wks).2).
Proof using Hf.
  revert s wc. induction wks as [|[x a] wks IH]; intros s wc; [done|]. cbn [fmap list_fmap foldl].
  destruct (packed_internal d (s, wc) (x, a)) as [s' wc'] eqn:Es. rewrite <-IH. f_equal.
  unfold packed_internal in *. injection Es as <- <-. cbn [prod_map fst snd]. f_equal.
  - by rewrite hom_internal, list_fmap_insert.
  - rewrite fmap_app, <-hom_nth, <-(hom_add f Hf), <-hom_exp_7. cbn. by rewrite (hom_sub f Hf).
Qed.
Lemma hom_packed_internals l x a d : apply_packed_internals (f <$> l) (f <$> x) (f <$> a) (f <$> d) =
  (f <$> (apply_packed_internals l x a d).1, f <$> (apply_packed_internals l x a d).2).
Proof using Hf.
  unfold apply_packed_internals. rewrite <-hom_packed. f_equal.
  revert a. induction x as [|y x IH]; intros [|b a]; cbn; [done..|]. by rewrite IH.
Qed.
Lemma hom_int_ext l x c a d : apply_internal_plus_ext (f <$> l) (f x) (f c) (f <$> a) (f <$> d) =
  (f <$> (apply_internal_plus_ext l x c a d).1, f (apply_internal_plus_ext l x c a d).2).
Proof using Hf.
  unfold apply_internal_plus_ext. cbn [fst snd]. f_equal.
  - by rewrite hom_round, hom_internal, list_fmap_insert.
  - by rewrite (hom_sub f Hf), hom_exp_7, (hom_add f Hf), hom_nth.
Qed.
End Hom.

(** ** The reference *)
Section Reference.
Context {F : Felt} {P : HasherParams}.
Add Ring felt_ring_ref : felt_ring_theory.

Definition felts (g : nat -> Z) : list felt := (fun i => new_unchecked (g i)) <$> seq 0 STATE_WIDTH.
Definition felt_sum (l : list felt) : felt := foldr felt_add ZERO l.
Definition mat_mul (m : nat -> nat -> Z) (s : list felt) : list felt :=
  (fun i => felt_sum (imap (fun j x => (of_Z (m i j) * x)%F) s)) <$> seq 0 (length s).

(** The matrix of the external layer: twice the 4 x 4 block on the diagonal, the block elsewhere *)
Definition M4 (i j : nat) : Z := nth ((j + 4 - i) mod 4) [2; 3; 1; 1]%Z 0%Z.
Definition external_matrix (i j : nat) : Z := ((if (i / 4 =? j / 4)%nat then 2 else 1) * M4 (i mod 4) (j mod 4))%Z.
(** The matrix of the internal layer: all ones, plus a diagonal *)
Definition internal_layer (s : list felt) : list felt := zip_with (fun x d => (x * d + felt_sum s)%F) s (felts MAT_DIAG).

Definition sbox (x : felt) : felt := (x * x * x * x * x * x * x)%F.
Definition full_round (s c : list felt) : list felt := mat_mul external_matrix (sbox <$> zip_with felt_add s c).
Definition partial_round (s : list felt) (c : Z) : list felt :=
  match s with x :: s' => internal_layer (sbox (x + new_unchecked c)%F :: s') | [] => [] end.

(** Poseidon2: the external layer, four full rounds, 22 partial rounds, four full rounds *)
Definition poseidon2 (s : list felt) : list felt :=
  let s := mat_mul external_matrix s in
  let s := foldl (fun s r => full_round s (felts (ARK_EXT_INITIAL r))) s (seq 0 4) in
  let s := foldl (fun s r => partial_round s (ARK_INT r)) s (seq 0 22) in
  foldl (fun s r => full_round s (felts (ARK_EXT_TERMINAL r))) s (seq 0 4).

Lemma list_12 (s : list felt) : length s = 12 -> exists a b c d e f g h i j k l, s = [a; b; c; d; e; f; g; h; i; j; k; l].
Proof.
  intros H. do 12 (destruct s as [|? s]; [done|]). destruct s; [|done]. by repeat eexists.
Qed.
Lemma external_eq s : length s = 12 -> apply_matmul_external s = mat_mul external_matrix s.
Proof.
  intros H. apply list_12 in H as (a & b & c & d & e & f & g & h & i & j & k & l & ->).
  unfold mat_mul. cbn [length seq]. cbn [fmap list_fmap imap compose felt_sum foldr].
  cbv [external_matrix M4 Nat.div Nat.modulo Nat.divmod fst snd Nat.add Nat.sub Nat.eqb nth Z.mul Pos.mul].
  cbv [apply_matmul_external matmul_m4 take drop nth zip_with app r_add felt_char_ring double].
  change 6%Z with (2 * 3)%Z. change 4%Z with (2 * 2)%Z. change 3%Z with (1 + (1 + 1))%Z. change 2%Z with (1 + 1)%Z. autorewrite with of_Z.
  repeat (f_equal; [ring|]). f_equal. ring.
Qed.
Lemma exp_7_eq x : exp_7 x = sbox x.
Proof. unfold exp_7, sbox. cbn. ring. Qed.
Lemma sum_array_eq (s : list felt) : sum_array s = felt_sum s.
Proof.
  unfold sum_array, felt_sum. cbn. enough (forall z, foldl felt_add z s = (z + foldr felt_add ZERO s)%F) as -> by ring.
  induction s as [|x s IH]; intros z; cbn; [ring|]. rewrite IH. ring.
Qed.
Lemma round_eq s c : length s = 12 -> length c = 12 -> external_round s c = full_round s c.
Proof.
  intros Hs Hc. unfold external_round, full_round. rewrite external_eq by (rewrite length_fmap, length_zip_with; lia). f_equal.
  apply list_fmap_ext. intros _ x _. apply exp_7_eq.
Qed.
Lemma length_full s c : length s = 12 -> length c = 12 -> length (full_round s c) = 12.
Proof. intros Hs Hc. unfold full_round, mat_mul. rewrite length_fmap, length_seq, length_fmap, length_zip_with. lia. Qed.
Lemma length_felts g : length (felts g) = 12.
Proof. unfold felts. by rewrite length_fmap, length_seq. Qed.
Lemma length_partial s c : length s = 12 -> length (partial_round s c) = 12.
Proof. intros Hs. destruct s; [done|]. unfold partial_round, internal_layer. rewrite length_zip_with, length_felts. cbn in *. lia. Qed.
(** An internal round whose S-box output is a checked witness *)
Lemma internal_eq s w c : length s = 12 -> (w - exp_7 (nth 0 s ZERO + new_unchecked c))%F = ZERO ->
  apply_matmul_internal (<[0 := w]> s) (felts MAT_DIAG) = partial_round s c.
Proof.
  intros Hs Hw. apply felt_sub_zero in Hw. destruct s as [|x s]; [done|]. cbn [nth] in Hw. rewrite exp_7_eq in Hw. subst w.
  unfold apply_matmul_internal, partial_round, internal_layer. rewrite sum_array_eq. done.
Qed.

Lemma packed_prefix d wks s wc : exists l, (foldl (packed_internal d) (s, wc) wks).2 = wc ++ l.
Proof.
  revert s wc. induction wks as [|[x a] wks IH]; intros s wc; [exists []; by rewrite app_nil_r|]. cbn [foldl].
  destruct (packed_internal d (s, wc) (x, a)) as [s' wc'] eqn:Es. destruct (IH s' wc') as [l ->]. unfold packed_internal in Es. injection Es as <- <-.
  rewrite <-app_assoc. by eexists.
Qed.
(** Packed internal rounds with checked witnesses are partial rounds. *)
Lemma packed_rounds ws cs s wc : length ws = length cs -> length s = 12 ->
  Forall (fun x => x = ZERO) (foldl (packed_internal (felts MAT_DIAG)) (s, wc) (zip ws (new_unchecked <$> cs))).2 ->
  (foldl (packed_internal (felts MAT_DIAG)) (s, wc) (zip ws (new_unchecked <$> cs))).1 = foldl partial_round s cs.
Proof.
  revert ws s wc. induction cs as [|c cs IH]; intros [|w ws] s wc Hl Hs Hz; try done. cbn [zip fmap list_fmap zip_with foldl] in *.
  destruct (packed_internal (felts MAT_DIAG) (s, wc) (w, new_unchecked c)) as [s' wc'] eqn:Es.
  unfold packed_internal in Es. injection Es as Es Ew.
  destruct (packed_prefix (felts MAT_DIAG) (zip ws (new_unchecked <$> cs)) s' wc') as [l El].
  assert (s' = partial_round s c) as ->.
  { rewrite <-Es. apply internal_eq; [done|]. rewrite El, <-Ew in Hz. rewrite !Forall_app in Hz.
    destruct Hz as [[_ Hz] _]. by inversion Hz. }
  apply IH; [by injection Hl|by apply length_partial|done].
Qed.
End Reference.

(** ** Rows of the region *)
Section Rows.
Context {F : Felt} {P : HasherParams}.
Add Ring felt_ring_perm : felt_ring_theory.

Definition state_of (l : row) : list felt := (fun i => l (ColChiplet (state i))) <$> seq 0 STATE_WIDTH.
Lemma eval_hom l n : char_hom (eval l n).
Proof. split; [apply eval_E0|done..]. Qed.

Lemma satisfied_all_eq first last l n es es' : length es = length es' -> satisfied first last l n (assert_all_eq es es') ->
  eval l n <$> es = eval l n <$> es'.
Proof.
  revert es'. induction es as [|e es IH]; intros [|e' es'] Hlen H; try done. unfold assert_all_eq in H. cbn in H.
  apply (satisfied_app _ _ _ _ (assert_eq e e')) in H as [He H]. cbn. rewrite (IH es' ltac:(by injection Hlen) H). f_equal.
  apply satisfied_conj in He as [He _]. unfold holds in He. cbn in He. by apply felt_sub_zero.
Qed.
Lemma satisfied_zeros first last l n es : satisfied first last l n (assert_zeros es) -> Forall (fun x => x = ZERO) (eval l n <$> es).
Proof.
  unfold assert_zeros. induction es as [|e es IH]; intros H; [constructor|]. cbn in H. apply (satisfied_app _ _ _ _ (assert_zero e)) in H as [He H].
  constructor; [|by apply IH]. apply satisfied_conj in He as [He _]. exact He.
Qed.

(** One step of the cycle: full rounds on rows 0 to 3 and 12 to 14, three partial rounds on rows 4 to 10, one of each on row 11 *)
Definition cycle_step (m : nat) (s : list felt) : list felt :=
  if m =? 0 then full_round (mat_mul external_matrix s) (felts (ARK_EXT_INITIAL 0))
  else if m <=? 3 then full_round s (felts (ARK_EXT_INITIAL m))
  else if m <=? 10 then foldl (fun s r => partial_round s (ARK_INT r)) s (seq ((m - 4) * 3) 3)
  else if m =? 11 then full_round (partial_round s (ARK_INT 21)) (felts (ARK_EXT_TERMINAL 0))
  else full_round s (felts (ARK_EXT_TERMINAL (m - 11))).

(** The steps of a cycle are the permutation. *)
Lemma cycle_poseidon2 s : foldl (fun s m => cycle_step m s) s (seq 0 15) = poseidon2 s.
Proof. reflexivity. Qed.

(** What the periodic columns select on row [m] of a cycle *)
Definition selects (m : nat) : list nat := if m =? 0 then [0] else if m <=? 3 then [1] else if m <=? 10 then [2] else if m =? 11 then [3] else if m <=? 14 then [1] else [].
Lemma sixteen_cases (Q : nat -> Prop) i : (forall m, m < 16 -> Q m) -> Q (i mod 16).
Proof. intros H. apply H. by apply Nat.mod_upper_bound. Qed.
Lemma selector_value k i : k < 4 -> AirChiplets.periodic_value k i = Z.b2z (existsb (Nat.eqb k) (selects (i mod 16))).
Proof.
  intros Hk. assert (AirChiplets.periodic_value k i = nth (i mod 16) (nth k AirChiplets.periodic_columns []) 0%Z) as ->
    by (do 4 (destruct k as [|k]; [reflexivity|]); lia).
  apply (sixteen_cases (fun m => nth m _ _ = Z.b2z (existsb (Nat.eqb k) (selects m)))).
  intros m Hm. do 4 (destruct k as [|k]; [do 16 (destruct m as [|m]; [reflexivity|]); lia|]). lia.
Qed.
(** The round constants of a row *)
Definition row_ark (m : nat) (lane : nat) : Z := nth m (AirChiplets.ark_column lane) 0%Z.
Lemma ark_value lane i : lane < 12 -> AirChiplets.periodic_value (4 + lane) i = row_ark (i mod 16) lane.
Proof. intros Hk. do 12 (destruct lane as [|lane]; [reflexivity|]). lia. Qed.

Section Cycle.
Variables (N : nat) (t : trace).
Hypothesis Hsel : trace_ok N t build_chiplet_selectors.
Hypothesis Hperm : trace_ok N t enforce_permutation_constraints.
Hypothesis Hsup : supplied N t.

Lemma selector i k : i < N -> k < 4 -> t i (ColPeriodic k) = felt_bit (existsb (Nat.eqb k) (selects (i mod 16))).
Proof using Hsup.
  intros Hi Hk. destruct Hsup as [_ H]. rewrite (H i k Hi ltac:(lia)), selector_value by done.
  destruct (existsb _ _); [apply new_unchecked_1|apply new_unchecked_0].
Qed.
Lemma ark_row i n : i < N -> eval (t i) n <$> ark = felts (row_ark (i mod 16)).
Proof using Hsup.
  intros Hi. unfold ark, felts. rewrite <-list_fmap_compose. apply list_fmap_ext. intros j k Hk. apply lookup_seq in Hk as [-> Hk].
  change (t i (ColPeriodic (4 + j)) = new_unchecked (row_ark (i mod 16) j)). unfold STATE_WIDTH in *.
  destruct Hsup as [_ H]. by rewrite (H i (4 + j) Hi), ark_value by lia.
Qed.
Lemma state_eval i n : eval (t i) n <$> h = state_of (t i) /\ eval (t i) n <$> h_next = state_of n.
Proof. done. Qed.
Lemma length_state l : length (state_of l) = 12.
Proof. unfold state_of. by rewrite length_fmap, length_seq. Qed.
Lemma active_one i n : region_of (t i) = RPermutation -> i < N -> eval (t i) n (is_active permutation) = ONE.
Proof using Hsel. intros Hr Hi. pose proof (trace_region N t Hsel i Hi) as H. rewrite Hr in H. exact (H ColSPerm true eq_refl). Qed.

(** The constraints of the step that a row selects *)
Lemma step_constraints i k : region_of (t i) = RPermutation -> S i < N -> k < 4 -> existsb (Nat.eqb k) (selects (i mod 16)) = true ->
  let l := t i in let n := t (S i) in
  (k = 0 -> state_of n = apply_init_plus_ext (state_of l) (felts (row_ark (i mod 16)))) /\
  (k = 1 -> state_of n = external_round (state_of l) (felts (row_ark (i mod 16)))) /\
  (k = 2 -> exists ws, length ws = 3 /\
     let r := apply_packed_internals (state_of l) ws (take 3 (felts (row_ark (i mod 16)))) (felts MAT_DIAG) in
     state_of n = r.1 /\ Forall (fun x => x = ZERO) r.2) /\
  (k = 3 -> exists w0, let r := apply_internal_plus_ext (state_of l) w0 (new_unchecked (ARK_INT 21)) (felts (row_ark (i mod 16))) (felts MAT_DIAG) in
     state_of n = r.1 /\ r.2 = ZERO).
Proof using Hsel Hperm Hsup.
  intros Hr Hi Hk Hs l n. pose proof (trace_step _ _ _ _ Hperm Hi) as H. fold l n in H. unfold enforce_permutation_constraints in H.
  apply satisfied_app in H as [H _]. unfold enforce_permutation_steps in H.
  pose proof (hom_packed_internals (eval l n) (eval_hom _ _) h w (take 3 ark) mat_diag) as Hpe.
  pose proof (hom_int_ext (eval l n) (eval_hom _ _) h (chip (witness 0)) ark_int_21 ark mat_diag) as Hie.
  assert (length (apply_packed_internals h w (take 3 ark) mat_diag).1 = 12) as Lp by reflexivity.
  assert (length (apply_internal_plus_ext h (chip (witness 0)) ark_int_21 ark mat_diag).1 = 12) as Li by reflexivity.
  destruct (apply_packed_internals h w (take 3 ark) mat_diag) as [pe pw], (apply_internal_plus_ext h (chip (witness 0)) ark_int_21 ark mat_diag) as [ie iw].
  rewrite !satisfied_app in H. destruct H as (_ & _ & Hinit & Hext & Hpack & Hint). cbn [fst snd] in *.
  assert (Hg : forall p, p = k -> eval l n (is_active permutation * periodic p) = ONE).
  { intros p ->. change (eval (t i) n (is_active permutation) * t i (ColPeriodic k) = ONE)%F.
    rewrite (active_one i n Hr ltac:(lia)), (selector i k ltac:(lia) Hk), Hs. cbn. ring. }
  pose proof (ark_row i n ltac:(lia)) as Ea. fold l in Ea.
  rewrite fmap_take, Ea in Hpe. rewrite Ea in Hie.
  split_and!; intros ->.
  - apply satisfied_when, satisfied_all_eq in Hinit; [|done|by apply Hg]. by rewrite hom_init, Ea in Hinit by apply eval_hom.
  - apply satisfied_when, satisfied_all_eq in Hext; [|done|by apply Hg]. by rewrite hom_round, Ea in Hext by apply eval_hom.
  - apply satisfied_when, satisfied_app in Hpack as [Hw Hst]; [|by apply Hg]. apply satisfied_zeros in Hw. apply satisfied_all_eq in Hst; [|by rewrite Lp].
    exists (eval l n <$> w). split; [done|]. cbn zeta. rewrite (Hpe : apply_packed_internals (state_of l) _ _ (felts MAT_DIAG) = _). done.
  - apply satisfied_when, satisfied_app in Hint as [Hw Hst]; [|by apply Hg]. apply satisfied_conj in Hw as [Hw _]. apply satisfied_all_eq in Hst; [|by rewrite Li].
    exists (eval l n (chip (witness 0))). cbn zeta. rewrite (Hie : apply_internal_plus_ext (state_of l) _ (new_unchecked (ARK_INT 21)) _ (felts MAT_DIAG) = _). done.
Qed.

Lemma perm_step i : region_of (t i) = RPermutation -> S i < N -> i mod 16 < 15 -> state_of (t (S i)) = cycle_step (i mod 16) (state_of (t i)).
Proof using Hsel Hperm Hsup.
  intros Hr Hi Hm. pose proof (step_constraints i) as H. pose proof (length_state (t i)) as Hl. pose proof length_felts as Hf.
  revert Hm H. generalize (i mod 16). intros m Hm H.
  destruct (decide (m = 0)) as [->|]; [|destruct (decide (m = 11)) as [->|]].
  - destruct (H 0 Hr Hi ltac:(lia) eq_refl) as (H0 & _). rewrite H0 by done. unfold apply_init_plus_ext.
    rewrite external_eq, round_eq by (done || (unfold mat_mul; by rewrite length_fmap, length_seq)). done.
  - destruct (H 3 Hr Hi ltac:(lia) eq_refl) as (_ & _ & _ & H3). destruct (H3 eq_refl) as (w0 & Hst & Hw). rewrite Hst. cbn [fst].
    unfold apply_internal_plus_ext in *. cbn [fst snd] in *. rewrite (internal_eq _ _ _ Hl Hw), round_eq by (done || by apply length_partial). done.
  - destruct (decide (4 <= m <= 10)) as [Hp|Hp].
    + destruct (H 2 Hr Hi ltac:(lia)) as (_ & _ & H2 & _); [do 11 (destruct m as [|m]; [lia || reflexivity|]); lia|].
      destruct (H2 eq_refl) as (ws & Hws & Hst & Hz). rewrite Hst. clear H H2 Hst.
      assert (take 3 (felts (row_ark m)) = new_unchecked <$> (ARK_INT <$> seq ((m - 4) * 3) 3)) as Ea
        by (do 11 (destruct m as [|m]; [lia || reflexivity|]); lia).
      unfold apply_packed_internals in *. rewrite Ea in *. rewrite packed_rounds by done.
      do 11 (destruct m as [|m]; [lia || reflexivity|]). lia.
    + destruct (H 1 Hr Hi ltac:(lia)) as (_ & H1 & _); [do 15 (destruct m as [|m]; [lia || reflexivity|]); lia|].
      rewrite H1, round_eq by done. do 15 (destruct m as [|m]; [lia || reflexivity|]). lia.
Qed.

(** A whole cycle inside the region *)
Lemma cycle_rows r k : r mod 16 = 0 -> k <= 15 -> r + k < N -> region_of (t r) = RPermutation -> region_of (t (r + k)) = RPermutation ->
  state_of (t (r + k)) = foldl (fun s m => cycle_step m s) (state_of (t r)) (seq 0 k).
Proof using Hsel Hperm Hsup.
  intros Hr. induction k as [|k IH]; intros Hk Hn R0 Rk; [by rewrite Nat.add_0_r|].
  assert (region_of (t (r + k)) = RPermutation) as Rk'.
  { rewrite (region_between N t Hsel r (r + k) (r + S k)) by (lia || congruence). done. }
  rewrite seq_S, foldl_app, <-IH by (lia || done). replace (r + S k) with (S (r + k)) by lia.
  assert ((r + k) mod 16 = k) as Hm by (rewrite Nat.Div0.add_mod, Hr, Nat.add_0_l, Nat.Div0.mod_mod; apply Nat.mod_small; lia).
  rewrite perm_step by (try rewrite Hm; lia || done). by rewrite Hm.
Qed.

(** The region starts on row 0 of a cycle and ends on row 15. *)
Lemma not_cycle_end_value i n : i < N -> eval (t i) n not_cycle_end = felt_bit (negb (i mod 16 =? 15)).
Proof using Hsup.
  intros Hi. unfold not_cycle_end, is_init_ext, is_ext, is_packed_int, is_int_ext, periodic. cbn [esum foldl eval].
  rewrite !(selector i) by lia. rewrite eval_E0. pose proof (Nat.mod_upper_bound i 16 ltac:(lia)) as Hm. revert Hm.
  generalize (i mod 16). intros m Hm. do 16 (destruct m as [|m]; [cbn; ring|]). lia.
Qed.
Lemma cycle_boundary i g : S i < N -> eval (t i) (t (S i)) g = ONE ->
  satisfied (i =? 0) false (t i) (t (S i)) (when g (assert_zero not_cycle_end)) -> i mod 16 = 15.
Proof using Hsup.
  intros Hi Hg H. apply satisfied_when in H; [|done]. apply satisfied_conj in H as [H _]. unfold holds in H. cbn [on body assert_zero] in H.
  rewrite not_cycle_end_value in H by lia. apply felt_bit_zero in H. apply negb_false_iff in H. by apply Nat.eqb_eq.
Qed.
Lemma region_boundaries i : S i < N ->
  (region_of (t i) = RPermutation -> region_of (t (S i)) <> RPermutation -> i mod 16 = 15) /\
  (region_of (t i) = RController -> region_of (t (S i)) = RPermutation -> i mod 16 = 15).
Proof using Hsel Hperm Hsup.
  intros Hi. destruct (region_flags N t Hsel i RPermutation permutation Hi eq_refl) as (_ & Hl & Hf & _).
  pose proof (trace_step _ _ _ _ Hperm Hi) as H. unfold enforce_permutation_constraints in H. rewrite !satisfied_app in H.
  destruct H as (_ & _ & _ & Hfirst & Hlast). split; intros R R'.
  - apply (cycle_boundary i (is_last permutation) Hi); [|done]. rewrite Hl, R. by rewrite (bool_decide_false (region_of (t (S i)) = _)) by done.
  - apply (cycle_boundary i (next_is_first permutation) Hi); [|done]. rewrite Hf, R, R'. done.
Qed.

(** Every row of the region is in a cycle that the region contains. *)
Lemma cycle_inside i : i < N -> region_of (t i) = RPermutation -> region_of (t 0) = RController ->
  let r := i - i mod 16 in r mod 16 = 0 /\ r + 15 < N /\ region_of (t r) = RPermutation /\ region_of (t (r + 15)) = RPermutation.
Proof using Hsel Hperm Hsup.
  intros Hi Hr H0 r. pose proof (Nat.div_mod i 16 ltac:(lia)) as Hd. pose proof (Nat.mod_upper_bound i 16 ltac:(lia)) as Hm.
  assert (r = 16 * (i / 16)) as Er by lia.
  assert (forall k, k <= i mod 16 -> region_of (t (i - k)) = RPermutation) as Hback.
  { intros k. induction k as [|k IH]; intros Hk; [by rewrite Nat.sub_0_r|]. specialize (IH ltac:(lia)).
    destruct (decide (region_of (t (i - S k)) = RPermutation)) as [|Hn]; [done|]. exfalso.
    assert (S (i - S k) = i - k) as Es by lia. assert (S (i - S k) < N) as Hlt by lia.
    assert (region_of (t (i - S k)) = RController) as Hc.
    { pose proof (rank_mono N t Hsel (i - S k) (i - k) ltac:(lia)) as Hrk. rewrite IH in Hrk. apply rank_inj.
      assert (rank (region_of (t (i - S k))) <> rank RPermutation) by (intros E; apply Hn; by apply rank_inj). cbn in *. lia. }
    destruct (region_boundaries (i - S k) Hlt) as [_ Hb]. rewrite Es in Hb. specialize (Hb Hc IH).
    replace (i - S k) with ((i mod 16 - S k) + (i / 16) * 16) in Hb by lia. rewrite Nat.Div0.mod_add, Nat.mod_small in Hb by lia. lia. }
  assert (forall k, i mod 16 + k <= 15 -> i + k < N /\ region_of (t (i + k)) = RPermutation) as Hforth.
  { intros k. induction k as [|k IH]; intros Hk; [by rewrite Nat.add_0_r|]. destruct IH as [Hlt IH]; [lia|].
    pose proof (region_not_last N t Hsel (i + k) Hlt ltac:(by rewrite IH)) as Hn. replace (i + S k) with (S (i + k)) by lia. split; [done|].
    destruct (decide (region_of (t (S (i + k))) = RPermutation)) as [|Hc]; [done|]. exfalso.
    destruct (region_boundaries (i + k) Hn) as [Hb _]. specialize (Hb IH Hc).
    replace (i + k) with ((i mod 16 + k) + (i / 16) * 16) in Hb by lia. rewrite Nat.Div0.mod_add, Nat.mod_small in Hb by lia. lia. }
  split_and!.
  - rewrite Er, Nat.mul_comm. apply Nat.Div0.mod_mul.
  - destruct (Hforth (15 - i mod 16) ltac:(lia)). lia.
  - replace r with (i - i mod 16) by lia. by apply Hback.
  - replace (r + 15) with (i + (15 - i mod 16)) by lia. apply Hforth. lia.
Qed.
End Cycle.
End Rows.
