(* ===== verification/ChipletBitwise.v ===== *)
(** * The bitwise chiplet computes bitwise operations

    Eight rows process two 32-bit operands, four bits a row.  The permutation region ends on a cycle boundary, so the cycles of the
    periodic columns are aligned with the region. *)

From S2P Require Import Prelude Field Types Operations Air AirFlags AirStack AirRows AirDecoder AirTrace Chiplets ChipletRegions ChipletPermutation.
From Stdlib Require Import Ring.
Import Air ChipletSelectors.
#[local] Open Scope nat_scope.

(** AND, or XOR when the flag is set *)
Definition bitop (x : bool) : Z -> Z -> Z := if x then Z.lxor else Z.land.
Definition bitf (x : bool) : bool -> bool -> bool := if x then xorb else andb.
Definition nib (b0 b1 b2 b3 : bool) : Z := (2 * (2 * (2 * Z.b2z b3 + Z.b2z b2) + Z.b2z b1) + Z.b2z b0)%Z.

Lemma bitop_spec x a b i : Z.testbit (bitop x a b) i = bitf x (Z.testbit a i) (Z.testbit b i).
Proof. destruct x; [apply Z.lxor_spec|apply Z.land_spec]. Qed.
Lemma bitop_double x a b p q : bitop x (2 * a + Z.b2z p) (2 * b + Z.b2z q) = (2 * bitop x a b + Z.b2z (bitf x p q))%Z.
Proof.
  apply Z.bits_inj'. intros i Hi. rewrite bitop_spec. destruct (Z.eq_dec i 0%Z) as [->|].
  - by rewrite !Z.testbit_0_r.
  - replace i with (Z.succ (i - 1)) by lia. by rewrite !Z.testbit_succ_r, bitop_spec by lia.
Qed.
Lemma bitop_0 x : bitop x 0 0 = 0%Z.
Proof. by destruct x. Qed.
Lemma nib_range b0 b1 b2 b3 : (0 <= nib b0 b1 b2 b3 < 16)%Z.
Proof. unfold nib. destruct b0, b1, b2, b3; cbn; lia. Qed.
Lemma bitop_nib x a b a0 a1 a2 a3 b0 b1 b2 b3 :
  bitop x (a * 16 + nib a0 a1 a2 a3) (b * 16 + nib b0 b1 b2 b3) =
  (bitop x a b * 16 + nib (bitf x a0 b0) (bitf x a1 b1) (bitf x a2 b2) (bitf x a3 b3))%Z.
Proof.
  unfold nib.
  replace (a * 16 + (2 * (2 * (2 * Z.b2z a3 + Z.b2z a2) + Z.b2z a1) + Z.b2z a0))%Z
    with (2 * (2 * (2 * (2 * a + Z.b2z a3) + Z.b2z a2) + Z.b2z a1) + Z.b2z a0)%Z by lia.
  replace (b * 16 + (2 * (2 * (2 * Z.b2z b3 + Z.b2z b2) + Z.b2z b1) + Z.b2z b0))%Z
    with (2 * (2 * (2 * (2 * b + Z.b2z b3) + Z.b2z b2) + Z.b2z b1) + Z.b2z b0)%Z by lia.
  rewrite !bitop_double. lia.
Qed.

Section Bits.
Context {F : Felt}.
Add Ring felt_ring_bits : felt_ring_theory.

Lemma felt_bit_of_Z b : felt_bit b = of_Z (Z.b2z b).
Proof. destruct b; cbn; by autorewrite with of_Z. Qed.
Lemma and_bit a b : (felt_bit a * felt_bit b)%F = of_Z (Z.b2z (bitf false a b)).
Proof. destruct a, b; cbn; autorewrite with of_Z; ring. Qed.
Lemma xor_bit a b : (felt_bit a + felt_bit b - (felt_bit a * felt_bit b + felt_bit a * felt_bit b))%F = of_Z (Z.b2z (bitf true a b)).
Proof. destruct a, b; cbn; autorewrite with of_Z; ring. Qed.
Lemma of_Z_2 : of_Z 2 = (ONE + ONE)%F.
Proof. change 2%Z with (1 + 1)%Z. by autorewrite with of_Z. Qed.
Lemma horner_nib (b0 b1 b2 b3 : bool) :
  (of_Z (Z.b2z b3) + of_Z (Z.b2z b3) + of_Z (Z.b2z b2) + (of_Z (Z.b2z b3) + of_Z (Z.b2z b3) + of_Z (Z.b2z b2)) + of_Z (Z.b2z b1) +
   (of_Z (Z.b2z b3) + of_Z (Z.b2z b3) + of_Z (Z.b2z b2) + (of_Z (Z.b2z b3) + of_Z (Z.b2z b3) + of_Z (Z.b2z b2)) + of_Z (Z.b2z b1)) +
   of_Z (Z.b2z b0))%F = of_Z (nib b0 b1 b2 b3).
Proof. unfold nib. autorewrite with of_Z. rewrite of_Z_2. ring. Qed.
End Bits.

Section Bitwise.
Context {F : Felt} {P : HasherParams}.
Add Ring felt_ring_bitwise : felt_ring_theory.
Import AirBitwise.

Lemma one_mul (x : felt) : (ONE * x)%F = x.
Proof. ring. Qed.

Lemma eight_cases (Q : nat -> Prop) i : (forall m, m < 8 -> Q m) -> Q (i mod 8).
Proof. intros H. apply H. by apply Nat.mod_upper_bound. Qed.
Lemma k_first_value i : AirChiplets.periodic_value 16 i = Z.b2z (i mod 8 =? 0).
Proof.
  change (nth (i mod 8) [1; 0; 0; 0; 0; 0; 0; 0]%Z 0%Z = Z.b2z (i mod 8 =? 0)). apply (eight_cases (fun m => nth m _ _ = Z.b2z (m =? 0))).
  intros m Hm. do 8 (destruct m as [|m]; [done|]). lia.
Qed.
Lemma k_transition_value i : AirChiplets.periodic_value 17 i = Z.b2z (negb (i mod 8 =? 7)).
Proof.
  change (nth (i mod 8) [1; 1; 1; 1; 1; 1; 1; 0]%Z 0%Z = Z.b2z (negb (i mod 8 =? 7))). apply (eight_cases (fun m => nth m _ _ = Z.b2z (negb (m =? 7)))).
  intros m Hm. do 8 (destruct m as [|m]; [done|]). lia.
Qed.

(** Four columns hold the bits of a value. *)
Definition limbs_hold (l : row) (base : nat) (b0 b1 b2 b3 : bool) : Prop :=
  l (ColChiplet base) = felt_bit b0 /\ l (ColChiplet (1 + base)) = felt_bit b1 /\
  l (ColChiplet (2 + base)) = felt_bit b2 /\ l (ColChiplet (3 + base)) = felt_bit b3.

Section Rows.
Variables (N : nat) (t : trace).
Hypothesis Hsel : trace_ok N t build_chiplet_selectors.
Hypothesis Hbw : trace_ok N t enforce_bitwise_constraints.
Hypothesis Hsup : supplied N t.

Lemma bitwise_row i : i < N -> region_of (t i) = RBitwise -> exists x a0 a1 a2 a3 b0 b1 b2 b3,
  t i (ColChiplet op_flag) = felt_bit x /\ limbs_hold (t i) 5 a0 a1 a2 a3 /\ limbs_hold (t i) 9 b0 b1 b2 b3 /\
  t i (ColChiplet output) = (t i (ColChiplet prev_output) * of_Z 16 + of_Z (nib (bitf x a0 b0) (bitf x a1 b1) (bitf x a2 b2) (bitf x a3 b3)))%F /\
  (i mod 8 = 0 -> t i (ColChiplet a) = of_Z (nib a0 a1 a2 a3) /\ t i (ColChiplet b) = of_Z (nib b0 b1 b2 b3) /\
     t i (ColChiplet prev_output) = ZERO) /\
  (i mod 8 <> 7 -> forall n0 n1 n2 n3 m0 m1 m2 m3, limbs_hold (t (S i)) 5 n0 n1 n2 n3 -> limbs_hold (t (S i)) 9 m0 m1 m2 m3 ->
     t (S i) (ColChiplet op_flag) = felt_bit x /\
     t (S i) (ColChiplet a) = (t i (ColChiplet a) * of_Z 16 + of_Z (nib n0 n1 n2 n3))%F /\
     t (S i) (ColChiplet b) = (t i (ColChiplet b) * of_Z 16 + of_Z (nib m0 m1 m2 m3))%F /\
     t (S i) (ColChiplet prev_output) = t i (ColChiplet output)).
Proof using Hsel Hbw Hsup.
  intros Hi Hr. pose proof (region_not_last N t Hsel i Hi) as Hn. rewrite Hr in Hn. specialize (Hn ltac:(done)).
  pose proof (trace_step _ _ _ _ Hbw Hn) as H. pose proof (trace_region N t Hsel i Hi) as Hl. rewrite Hr in Hl.
  apply (residual_satisfied _ _ _ _ _ _ Hl) in H. open_residual H. destruct_and? H.
  destruct Hsup as [_ Hper].
  rewrite (Hper i 16 Hi ltac:(lia)), k_first_value in *. rewrite (Hper i 17 Hi ltac:(lia)), k_transition_value in *.
  repeat match goal with H : (?x * (?x - new_unchecked 1))%F = ZERO |- _ =>
    apply bit_felt in H; let b := fresh "b" in let E := fresh "E" in destruct H as [b E]; rewrite E in * end.
  rewrite <-(of_Z_small 16) in * by (unfold modulus; lia).
  unfold output, prev_output, op_flag, a, b. eexists _, _, _, _, _, _, _, _, _. split_and!; [done|by split_and!..| | |].
  - match goal with H : (t i (ColChiplet 14) - _)%F = ZERO |- _ => apply felt_sub_zero in H; rewrite H end.
    rewrite !xor_bit, !and_bit, !horner_nib.
    match goal with |- context [felt_mul (felt_bit ?x) _] => destruct x; cbn [felt_bit]; ring end.
  - intros Hmod. rewrite Hmod in *. cbn [Nat.eqb Z.b2z negb] in *. rewrite new_unchecked_1 in *.
    repeat match goal with H : (ONE * _)%F = ZERO |- _ => rewrite one_mul in H end.
    repeat match goal with H : (_ - _)%F = ZERO |- _ => apply felt_sub_zero in H end.
    rewrite !felt_bit_of_Z, !horner_nib in *. done.
  - intros Hmod n0 n1 n2 n3 m0 m1 m2 m3 (N0 & N1 & N2 & N3) (M0 & M1 & M2 & M3). rewrite (proj2 (Nat.eqb_neq _ _) Hmod) in *.
    cbn [negb Z.b2z Nat.add] in *. rewrite new_unchecked_1 in *.
    repeat match goal with H : (ONE * _)%F = ZERO |- _ => rewrite one_mul in H end.
    repeat match goal with H : (_ - _)%F = ZERO |- _ => apply felt_sub_zero in H end.
    rewrite N0, N1, N2, N3, M0, M1, M2, M3, !felt_bit_of_Z, !horner_nib in *. done.
Qed.

(** After [k + 1] rows of a cycle the columns hold the operation on the leading [4 * (k + 1)] bits. *)
Lemma bitwise_cycle r k : r mod 8 = 0 -> k <= 7 -> r + k < N -> region_of (t r) = RBitwise -> region_of (t (r + k)) = RBitwise ->
  exists x A B, (0 <= A < 16 ^ Z.of_nat (S k))%Z /\ (0 <= B < 16 ^ Z.of_nat (S k))%Z /\
    t (r + k) (ColChiplet op_flag) = felt_bit x /\ t (r + k) (ColChiplet a) = of_Z A /\ t (r + k) (ColChiplet b) = of_Z B /\
    t (r + k) (ColChiplet output) = of_Z (bitop x A B).
Proof using Hsel Hbw Hsup.
  intros Hr. induction k as [|k IH]; intros Hk Hn R0 Rk.
  - rewrite Nat.add_0_r in *. destruct (bitwise_row r Hn R0) as (x & a0 & a1 & a2 & a3 & b0 & b1 & b2 & b3 & Hx & _ & _ & Ho & Hf & _).
    destruct (Hf Hr) as (Ea & Eb & Ep). pose proof (nib_range a0 a1 a2 a3). pose proof (nib_range b0 b1 b2 b3).
    exists x, (nib a0 a1 a2 a3), (nib b0 b1 b2 b3). split_and!; try done; try (cbn; lia).
    rewrite Ho, Ep. rewrite <-(Z.add_0_l (nib a0 a1 a2 a3)), <-(Z.add_0_l (nib b0 b1 b2 b3)).
    rewrite (bitop_nib x 0 0), bitop_0, of_Z_add, of_Z_mul, of_Z_0. ring.
  - assert (region_of (t (r + k)) = RBitwise) as Rk'.
    { rewrite (region_between N t Hsel r (r + k) (r + S k)) by (lia || congruence). done. }
    destruct (IH ltac:(lia) ltac:(lia) R0 Rk') as (x & A & B & HA & HB & Hx & Ea & Eb & Eo).
    assert ((r + k) mod 8 = k) as Hm by (rewrite Nat.Div0.add_mod, Hr, Nat.add_0_l, Nat.Div0.mod_mod; apply Nat.mod_small; lia).
    destruct (bitwise_row (r + k) ltac:(lia) Rk') as (y & ? & ? & ? & ? & ? & ? & ? & ? & Hx0 & _ & _ & _ & _ & Hnext).
    rewrite Hx in Hx0. apply felt_bit_inj in Hx0 as <-. replace (r + S k) with (S (r + k)) in * by lia.
    destruct (bitwise_row (S (r + k)) Hn Rk) as (z & a0 & a1 & a2 & a3 & b0 & b1 & b2 & b3 & Hx1 & La & Lb & Ho & _ & _).
    destruct (Hnext ltac:(lia) _ _ _ _ _ _ _ _ La Lb) as (Hx' & Ea' & Eb' & Ep'). rewrite Hx1 in Hx'. apply felt_bit_inj in Hx' as ->.
    pose proof (nib_range a0 a1 a2 a3). pose proof (nib_range b0 b1 b2 b3).
    exists x, (A * 16 + nib a0 a1 a2 a3)%Z, (B * 16 + nib b0 b1 b2 b3)%Z.
    assert (16 ^ Z.of_nat (S (S k)) = 16 * 16 ^ Z.of_nat (S k))%Z as Hp by (rewrite (Nat2Z.inj_succ (S k)), Z.pow_succ_r; lia).
    split_and!; try done; try lia.
    + by rewrite Ea', Ea, of_Z_add, of_Z_mul.
    + by rewrite Eb', Eb, of_Z_add, of_Z_mul.
    + by rewrite Ho, Ep', Eo, bitop_nib, of_Z_add, of_Z_mul.
Qed.

Hypothesis Hperm : trace_ok N t AirPermutation.enforce_permutation_constraints.

(** The last row of a cycle is preceded by the other seven rows of the cycle, all in the region. *)
Lemma bitwise_aligned i k : i < N -> region_of (t i) = RBitwise -> region_of (t 0) = RController -> k <= i mod 8 -> region_of (t (i - k)) = RBitwise.
Proof using Hsel Hperm Hsup.
  intros Hi Hr H0. pose proof (Nat.div_mod i 8 ltac:(lia)) as Hd. pose proof (Nat.mod_upper_bound i 8 ltac:(lia)) as Hm.
  induction k as [|k IH]; intros Hk; [by rewrite Nat.sub_0_r|]. specialize (IH ltac:(lia)).
  destruct (decide (region_of (t (i - S k)) = RBitwise)) as [|Hn]; [done|]. exfalso.
  assert (S (i - S k) = i - k) as Es by lia. assert (S (i - S k) < N) as Hlt by lia.
  pose proof (trace_follows N t Hsel (i - S k) Hlt) as Hfol. rewrite Es, IH in Hfol.
  assert (region_of (t (i - S k)) = RPermutation) as Hp by (destruct (region_of (t (i - S k))); done).
  destruct (region_boundaries N t Hsel Hperm Hsup (i - S k) Hlt) as [Hb _]. rewrite Es, IH in Hb. specialize (Hb Hp ltac:(done)).
  replace (i - S k) with ((i mod 8 - S k) + (i / 8) * 8) in Hb by lia.
  assert (((i mod 8 - S k) + (i / 8) * 8) mod 8 = 7) as H7.
  { rewrite (Nat.div_mod ((i mod 8 - S k) + (i / 8) * 8) 16), Hb by lia. generalize (((i mod 8 - S k) + (i / 8) * 8) / 16). intros q.
    replace (16 * q + 15) with (7 + (2 * q + 1) * 8) by lia. by rewrite Nat.Div0.mod_add. }
  rewrite Nat.Div0.mod_add, Nat.mod_small in H7 by lia. lia.
Qed.

Lemma bitwise_result i : i < N -> region_of (t i) = RBitwise -> region_of (t 0) = RController -> i mod 8 = 7 ->
  exists x A B, (0 <= A < 2 ^ 32)%Z /\ (0 <= B < 2 ^ 32)%Z /\
    t i (ColChiplet op_flag) = felt_bit x /\ t i (ColChiplet a) = new_unchecked A /\ t i (ColChiplet b) = new_unchecked B /\
    t i (ColChiplet output) = new_unchecked (bitop x A B) /\ (0 <= bitop x A B < 2 ^ 32)%Z.
Proof using Hsel Hbw Hsup Hperm.
  intros Hi Hr H0 Hm. pose proof (Nat.div_mod i 8 ltac:(lia)) as Hd.
  assert ((i - 7) mod 8 = 0) as Hs by (replace (i - 7) with (0 + (i / 8) * 8) by lia; by rewrite Nat.Div0.mod_add).
  pose proof (bitwise_aligned i 7 Hi Hr H0 ltac:(lia)) as Hstart. replace i with ((i - 7) + 7) in Hi, Hr |- * by lia.
  destruct (bitwise_cycle (i - 7) 7 Hs ltac:(lia) Hi Hstart Hr) as (x & A & B & HA & HB & Hx & Ea & Eb & Eo).
  change (16 ^ Z.of_nat 8)%Z with (2 ^ 32)%Z in *. exists x, A, B. assert (0 <= bitop x A B < 2 ^ 32)%Z as Hop.
  { assert (forall y, (0 <= y < 2 ^ 32)%Z -> Z.shiftr y 32 = 0%Z) as Hsh by (intros y Hy; rewrite Z.shiftr_div_pow2 by lia; by apply Z.div_small).
    split; [destruct x; [apply Z.lxor_nonneg|apply Z.land_nonneg]; lia|].
    apply Z.lt_nge. intros Hge. assert (Z.shiftr (bitop x A B) 32 = 0%Z) as Hz.
    { destruct x; cbn [bitop]; [rewrite Z.shiftr_lxor|rewrite Z.shiftr_land]; by rewrite !Hsh. }
    rewrite Z.shiftr_div_pow2 in Hz by lia. pose proof (Z.div_le_lower_bound (bitop x A B) (2 ^ 32) 1 ltac:(lia) ltac:(lia)). lia. }
  rewrite <-!of_Z_small by (unfold modulus; lia). split_and!; try done; lia.
Qed.
End Rows.
End Bitwise.
