(* ===== verification/ChipletMemory.v ===== *)
(** * The memory chiplet is a memory

    The rows of the memory region are sorted by context, address and clock cycle.  A row that does not write an element keeps the value of
    the row before it at the same address, or starts from zero; so every access sees the last write before it. *)

From S2P Require Import Prelude Field Types Operations Air AirFlags AirStack AirRows AirDecoder AirTrace Chiplets ChipletRegions.
From Stdlib Require Import Ring.
Import Air ChipletSelectors.
#[local] Open Scope nat_scope.

Section Memory.
Context {F : Felt} {P : HasherParams}.
Add Ring felt_ring_memory : felt_ring_theory.
Import AirMemory.

Definition at_col (l : row) (c : nat) : Z := ⟦l (ColChiplet c)⟧.

(** What the lookups of the buses ensure: 32-bit contexts, addresses and cycles, and 16-bit limbs of the differences *)
Definition access_ranges (l : row) : Prop :=
  (at_col l ctx < 2 ^ 32)%Z /\ (at_col l word_addr < 2 ^ 32)%Z /\ (at_col l clk < 2 ^ 32)%Z /\
  (at_col l d0 < 2 ^ 16)%Z /\ (at_col l d1 < 2 ^ 16)%Z.

Definition reads (l : row) : Prop := l (ColChiplet is_read) = ONE.
(** The access writes element [j] of the word. *)
Definition writes (l : row) (j : nat) : Prop :=
  l (ColChiplet is_read) = ZERO /\
  (l (ColChiplet is_word) = ONE \/ l (ColChiplet idx0) = felt_bit (Nat.odd j) /\ l (ColChiplet idx1) = felt_bit (2 <=? j)).
Definition same_word (l n : row) : Prop := at_col l ctx = at_col n ctx /\ at_col l word_addr = at_col n word_addr.

(** Two rows in order: the address increases, or stays with a later cycle, or both read in one cycle. *)
Definition access_order (l n : row) : Prop :=
  (at_col l ctx < at_col n ctx)%Z \/
  at_col l ctx = at_col n ctx /\
    ((at_col l word_addr < at_col n word_addr)%Z \/
     at_col l word_addr = at_col n word_addr /\
       ((at_col l clk < at_col n clk)%Z \/ at_col l clk = at_col n clk /\ reads l /\ reads n)).

(** The difference of two 32-bit elements that is a 32-bit value *)
Lemma difference (x x' e1 e0 : felt) : (⟦x⟧ < 2 ^ 32)%Z -> (⟦x'⟧ < 2 ^ 32)%Z -> (⟦e1⟧ < 2 ^ 16)%Z -> (⟦e0⟧ < 2 ^ 16)%Z ->
  (x' - x)%F = (e1 * new_unchecked (2 ^ 16) + e0)%F -> (⟦x'⟧ = ⟦x⟧ + (⟦e1⟧ * 2 ^ 16 + ⟦e0⟧))%Z.
Proof.
  intros Hx Hx' H1 H0 E. pose proof (canonical_range x). pose proof (canonical_range x'). pose proof (canonical_range e1). pose proof (canonical_range e0).
  apply of_Z_close; [unfold modulus; lia|]. rewrite !of_Z_add, of_Z_mul, !of_Z_canonical, (of_Z_small (2 ^ 16)) by (unfold modulus; lia).
  rewrite <-E. ring.
Qed.

(** The selection of the difference that must not be negative: contexts, addresses, cycles *)
Lemma select_difference (c c' a a' k k' d e1 e0 s r r' : felt) :
  (⟦c⟧ < 2 ^ 32 /\ ⟦c'⟧ < 2 ^ 32 /\ ⟦a⟧ < 2 ^ 32 /\ ⟦a'⟧ < 2 ^ 32 /\ ⟦k⟧ < 2 ^ 32 /\ ⟦k'⟧ < 2 ^ 32 /\ ⟦e1⟧ < 2 ^ 16 /\ ⟦e0⟧ < 2 ^ 16)%Z ->
  ((c' - c) * d * ((c' - c) * d - ONE) = ZERO /\ (ONE - (c' - c) * d) * (c' - c) = ZERO /\
   (ONE - (c' - c) * d) * ((a' - a) * d * ((a' - a) * d - ONE)) = ZERO /\
   (ONE - (c' - c) * d) * ((ONE - (a' - a) * d) * (a' - a)) = ZERO /\
   s = (ONE - (c' - c) * d) * (ONE - (a' - a) * d) /\
   (c' - c) * d * (c' - c) + (ONE - (c' - c) * d) * ((a' - a) * d * (a' - a) + (ONE - (a' - a) * d) * (k' - k)) = e1 * new_unchecked (2 ^ 16) + e0 /\
   s * ((ONE - (k' - k) * d) * (ONE - r + (ONE - r'))) = ZERO)%F ->
  (exists b, r = felt_bit b) -> (exists b, r' = felt_bit b) ->
  (s = ZERO /\ (⟦c⟧ < ⟦c'⟧)%Z) \/ (s = ZERO /\ c = c' /\ (⟦a⟧ < ⟦a'⟧)%Z) \/
  (s = ONE /\ c = c' /\ a = a' /\ (⟦k⟧ < ⟦k'⟧ \/ ⟦k⟧ = ⟦k'⟧ /\ r = ONE /\ r' = ONE)%Z).
Proof.
  intros (Rc & Rc' & Ra & Ra' & Rk & Rk' & R1 & R0) (H1 & H2 & H3 & H4 & Hs & Hd & Hw) [br ->] [br' ->].
  pose proof ONE_neq_ZERO as H10.
  assert (forall x x' : felt, ((x' - x) * d = ONE -> x' - x = e1 * new_unchecked (2 ^ 16) + e0 -> (⟦x⟧ < 2 ^ 32 -> ⟦x'⟧ < 2 ^ 32 -> ⟦x⟧ < ⟦x'⟧)%Z)%F) as Hlt.
  { intros x x' Hi E Rx Rx'. pose proof (difference x x' e1 e0 Rx Rx' R1 R0 E). felt_ranges.
    destruct (Z.eq_dec (⟦x⟧)%Z (⟦x'⟧)%Z) as [Ex|]; [|lia]. apply canonical_inj in Ex as ->. exfalso. apply H10. rewrite <-Hi. ring. }
  apply felt_mul_zero in H1 as [Ec|Ec]; [|apply felt_sub_zero in Ec].
  - rewrite Ec in *. assert ((c' - c)%F = ZERO) as Ec' by (rewrite <-H2; ring). apply felt_sub_zero in Ec' as ->.
    assert (((a' - a) * d * ((a' - a) * d - ONE))%F = ZERO) as H3' by (rewrite <-H3; ring).
    apply felt_mul_zero in H3' as [Ea|Ea]; [|apply felt_sub_zero in Ea]; rewrite Ea in *.
    + right; right. assert ((a' - a)%F = ZERO) as Ea' by (rewrite <-H4; ring). apply felt_sub_zero in Ea' as ->.
      assert (s = ONE) as -> by (rewrite Hs; ring). split_and!; try done.
      assert ((k' - k)%F = (e1 * new_unchecked (2 ^ 16) + e0)%F) as Ek by (rewrite <-Hd; ring).
      pose proof (difference k k' e1 e0 Rk Rk' R1 R0 Ek). felt_ranges. destruct (Z.eq_dec (⟦k⟧)%Z (⟦k'⟧)%Z) as [E|]; [|left; lia]. right. split; [done|].
      apply canonical_inj in E as ->. assert ((ONE - felt_bit br + (ONE - felt_bit br'))%F = ZERO) as Hz by (rewrite <-Hw; ring).
      destruct br, br'; cbn in *; try done; exfalso; [apply H10; rewrite <-Hz; ring..|apply two_nonzero; rewrite <-Hz; ring].
    + right; left. split_and!; [rewrite Hs; ring|done|]. apply Hlt; [done| |done|done]. rewrite <-Hd. ring.
  - rewrite Ec in *. left. split; [rewrite Hs; ring|]. apply Hlt; [done| |done|done]. rewrite <-Hd. ring.
Qed.
(** ** The constraints on two rows of the region *)
Record memory_step (l n : row) : Prop := {
  ms_order : access_order l n;
  ms_values : forall j, j < 4 -> ~ writes n j -> n (ColChiplet (value j)) = l (ColChiplet (value j)) /\ same_word l n \/
    n (ColChiplet (value j)) = ZERO /\ ~ same_word l n;
}.

(** The flag of an element that is not written *)
Lemma not_written_one l n j : j < 4 -> (exists b, n (ColChiplet is_read) = felt_bit b) -> (exists b, n (ColChiplet is_word) = felt_bit b) ->
  (exists b, n (ColChiplet idx0) = felt_bit b) -> (exists b, n (ColChiplet idx1) = felt_bit b) -> ~ writes n j -> eval l n (not_written j) = ONE.
Proof.
  intros Hj [r Er] [w Ew] [x Ex] [y Ey] Hw. pose proof ONE_neq_ZERO as H10.
  unfold not_written, is_element_write, selected, chip'. unfold writes in Hw.
  assert (~ (r = false /\ (w = true \/ x = Nat.odd j /\ y = (2 <=? j)))) as Hw'.
  { intros [-> H]. apply Hw. rewrite Er, Ew, Ex, Ey. split; [done|]. destruct H as [->|[-> ->]]; auto. }
  destruct j as [|[|[|[|j]]]]; [..|lia]; cbn [eval enot]; rewrite Er, Ew, Ex, Ey, ?eval_E1; destruct r, w, x, y; cbn [felt_bit]; try ring; exfalso; apply Hw'; cbn; tauto.
Qed.

#[local] Instance writes_dec l j : Decision (writes l j).
Proof. unfold writes. apply _. Defined.
#[local] Instance same_word_dec l n : Decision (same_word l n).
Proof. unfold same_word. apply _. Defined.

(** ** Sequences of accesses *)
Section Sequence.
Variables (rows : nat -> row) (s e : nat).
Hypothesis Hstep : forall i, s <= i -> i < e -> memory_step (rows i) (rows (S i)).
Hypothesis Hfirst : forall j, j < 4 -> ~ writes (rows s) j -> rows s (ColChiplet (value j)) = ZERO.

Definition order_le (l n : row) : Prop :=
  (at_col l ctx < at_col n ctx)%Z \/ at_col l ctx = at_col n ctx /\
    ((at_col l word_addr < at_col n word_addr)%Z \/ at_col l word_addr = at_col n word_addr /\ (at_col l clk <= at_col n clk)%Z).

Lemma order_refl l : order_le l l.
Proof. right. split; [done|]. right. by split. Qed.
Lemma rows_sorted i k : s <= i -> i <= k -> k <= e -> order_le (rows i) (rows k).
Proof using Hstep.
  intros Hs Hik Hk. induction k as [|k IH]; [replace i with 0 by lia; apply order_refl|].
  destruct (decide (i = S k)) as [->|]; [apply order_refl|]. specialize (IH ltac:(lia) ltac:(lia)).
  pose proof (ms_order _ _ (Hstep k ltac:(lia) ltac:(lia))) as Ho. unfold access_order, order_le in *. lia.
Qed.
Lemma same_between i m k : s <= i -> i <= m -> m <= k -> k <= e -> same_word (rows i) (rows k) -> same_word (rows i) (rows m) /\ same_word (rows m) (rows k).
Proof using Hstep.
  intros Hs Him Hmk Hk Hw. pose proof (rows_sorted i m Hs Him ltac:(lia)). pose proof (rows_sorted m k ltac:(lia) Hmk Hk).
  unfold order_le, same_word in *. lia.
Qed.
(** Two accesses of one cycle to one word are reads. *)
Lemma same_cycle_reads i k : s <= i -> i < k -> k <= e -> same_word (rows i) (rows k) -> at_col (rows i) clk = at_col (rows k) clk ->
  reads (rows i) /\ reads (rows k).
Proof using Hstep.
  intros Hs Hik Hk Hw Hc. assert (forall m, i <= m -> m < k -> reads (rows m) /\ reads (rows (S m))) as Hr.
  { intros m Him Hmk. pose proof (rows_sorted i m Hs Him ltac:(lia)). pose proof (rows_sorted (S m) k ltac:(lia) ltac:(lia) Hk).
    pose proof (ms_order _ _ (Hstep m ltac:(lia) ltac:(lia))) as Ho. unfold access_order, order_le, same_word in *.
    destruct Ho as [?|(? & [?|(? & [?|(? & ? & ?)])])]; [lia..|done]. }
  split; [apply (Hr i); lia|]. replace k with (S (k - 1)) by lia. apply (Hr (k - 1)); lia.
Qed.

(** The value of an element comes from the last write to it at this address, or is zero. *)
Lemma last_write i j : s <= i -> i <= e -> j < 4 ->
  (exists k, s <= k <= i /\ same_word (rows k) (rows i) /\ writes (rows k) j /\ rows i (ColChiplet (value j)) = rows k (ColChiplet (value j)) /\
     forall m, k < m <= i -> ~ writes (rows m) j) \/
  ((forall k, s <= k <= i -> same_word (rows k) (rows i) -> ~ writes (rows k) j) /\ rows i (ColChiplet (value j)) = ZERO).
Proof using Hstep Hfirst.
  intros Hs He Hj. destruct (decide (writes (rows i) j)) as [Hw|Hw].
  { left. exists i. split_and!; try done. intros m ?; lia. }
  induction i as [|i IH]; [right; replace s with 0 in * by lia; split; [intros k Hk ?; by replace k with 0 by lia|by apply Hfirst]|].
  destruct (decide (s = S i)) as [Heq|Hne]; [rewrite <-Heq in *; right; split; [intros k Hk ?; by replace k with s by lia|by apply Hfirst]|].
  destruct (ms_values _ _ (Hstep i ltac:(lia) ltac:(lia)) j Hj Hw) as [[Ev Hsame]|[Ev Hdiff]].
  - assert ((exists k, s <= k <= i /\ same_word (rows k) (rows i) /\ writes (rows k) j /\ rows i (ColChiplet (value j)) = rows k (ColChiplet (value j)) /\
       forall m, k < m <= i -> ~ writes (rows m) j) \/
      ((forall k, s <= k <= i -> same_word (rows k) (rows i) -> ~ writes (rows k) j) /\ rows i (ColChiplet (value j)) = ZERO)) as [H|H].
    { destruct (decide (writes (rows i) j)) as [Hw'|Hw']; [|by apply IH; try lia].
      left. exists i. split_and!; try done; [lia|]. intros m ?; lia. }
    + destruct H as (k & Hk & Hkw & Hkwr & Hkv & Hm). left. exists k. split_and!; try done; try lia.
      * unfold same_word in *. lia.
      * by rewrite Ev.
      * intros m Hmi. destruct (decide (m = S i)) as [->|]; [done|]. apply Hm. lia.
    + destruct H as [Hn Hz]. right. split; [|by rewrite Ev]. intros k Hk Hkw. destruct (decide (k = S i)) as [->|]; [done|].
      apply Hn; [lia|]. unfold same_word in *. lia.
  - right. split; [|done]. intros k Hk Hkw. destruct (decide (k = S i)) as [->|]; [done|]. exfalso. apply Hdiff.
    apply (same_between k i (S i)); lia || done.
Qed.

(** The write the value of an access comes from *)
Definition wrote (k i j : nat) : Prop :=
  s <= k <= e /\ same_word (rows k) (rows i) /\ (at_col (rows k) clk <= at_col (rows i) clk)%Z /\ writes (rows k) j.

Lemma writes_not_reads l j : writes l j -> ~ reads l.
Proof. unfold writes, reads. intros [-> _] H. symmetry in H. by apply ONE_neq_ZERO. Qed.
Lemma wrote_before k i j : s <= i <= e -> wrote k i j -> k <= i.
Proof using Hstep.
  intros Hi (Hk & Hw & Hc & Hwr). destruct (decide (k <= i)) as [|Hn]; [done|]. exfalso.
  assert (same_word (rows i) (rows k)) as Hw' by (unfold same_word in *; lia).
  pose proof (rows_sorted i k ltac:(lia) ltac:(lia) ltac:(lia)) as Ho. apply (writes_not_reads _ _ Hwr).
  apply (same_cycle_reads i k); try lia; try done. unfold order_le, same_word in *. lia.
Qed.

Lemma consistent i j : s <= i <= e -> j < 4 ->
  (forall k, wrote k i j -> (forall k', wrote k' i j -> (at_col (rows k') clk <= at_col (rows k) clk)%Z) ->
     rows i (ColChiplet (value j)) = rows k (ColChiplet (value j))) /\
  ((forall k, ~ wrote k i j) -> rows i (ColChiplet (value j)) = ZERO).
Proof using Hstep Hfirst.
  intros Hi Hj. destruct (last_write i j ltac:(lia) ltac:(lia) Hj) as [(k0 & Hk0 & Hw0 & Hwr0 & Hv0 & Hm0)|[Hn Hz]].
  - assert (wrote k0 i j) as Hwr.
    { split_and!; try done; try lia. pose proof (rows_sorted k0 i ltac:(lia) ltac:(lia) ltac:(lia)) as Ho. unfold order_le, same_word in *. lia. }
    split; [|intros H; by destruct (H k0)]. intros k Hk Hmax. rewrite Hv0.
    pose proof (wrote_before k i j Hi Hk) as Hki. destruct (decide (k0 < k)) as [Hlt|]; [exfalso; apply (Hm0 k); [lia|apply Hk]|].
    destruct (decide (k = k0)) as [->|]; [done|]. exfalso. specialize (Hmax k0 Hwr). destruct Hk as (? & Hkw & ? & Hkwr).
    assert (same_word (rows k) (rows k0)) as Hs by (unfold same_word in *; lia).
    pose proof (rows_sorted k k0 ltac:(lia) ltac:(lia) ltac:(lia)) as Ho. apply (writes_not_reads _ _ Hkwr).
    apply (same_cycle_reads k k0); try lia; try done. unfold order_le, same_word in *. lia.
  - split; [|done]. intros k Hk _. exfalso. pose proof (wrote_before k i j Hi Hk). destruct Hk as (? & ? & ? & Hwr). by apply (Hn k); [lia|..].
Qed.
End Sequence.

Section Rows.
Variables (N : nat) (t : trace).
Hypothesis Hsel : trace_ok N t build_chiplet_selectors.
Hypothesis Hmem : trace_ok N t enforce_memory_constraints.
Hypothesis Hsup : supplied N t.

Lemma memory_bits i : i < N -> region_of (t i) = RMemory ->
  (exists b, t i (ColChiplet is_read) = felt_bit b) /\ (exists b, t i (ColChiplet is_word) = felt_bit b) /\
  (exists b, t i (ColChiplet idx0) = felt_bit b) /\ (exists b, t i (ColChiplet idx1) = felt_bit b).
Proof using Hsel Hmem.
  intros Hi Hr. pose proof (region_not_last N t Hsel i Hi ltac:(by rewrite Hr)) as Hn.
  destruct (region_flags N t Hsel i RMemory memory Hn eq_refl) as (Ha & _).
  pose proof (trace_step _ _ _ _ Hmem Hn) as H. apply satisfied_app in H as [H _].
  apply satisfied_when in H; [|by rewrite Ha, Hr]. open_residual H. destruct_and? H. split_and!; by apply bit_felt.
Qed.

Lemma memory_transition i : S i < N -> region_of (t i) = RMemory -> region_of (t (S i)) = RMemory ->
  access_ranges (t i) -> access_ranges (t (S i)) -> memory_step (t i) (t (S i)).
Proof using Hsel Hmem Hsup.
  intros Hi Hr Hr' Rl Rn. pose proof (trace_step _ _ _ _ Hmem Hi) as H. unfold enforce_memory_constraints in H.
  rewrite !satisfied_app in H. destruct H as (_ & _ & H). unfold transition_constraints in H.
  apply satisfied_gate in H; [|by apply (transition_gate N t Hsel i RMemory)].
  pose proof (memory_bits (S i) Hi Hr') as (Br & Bw & Bx & By).
  rewrite !satisfied_app in H. destruct H as (H1 & H2 & H3 & H4 & H5 & H6).
  open_residual H1. open_residual H2. open_residual H3. open_residual H4. open_residual H5.
  rewrite new_unchecked_1 in *. destruct H1 as [H1 _], H2 as (H2a & H2b & H2c & _), H3 as [H3 _], H4 as [H4 _], H5 as [H5 _].
  apply felt_sub_zero in H3, H4. destruct Rl as (Rc & Ra & Rk & _), Rn as (Rc' & Ra' & Rk' & R0 & R1). unfold at_col in *.
  pose proof (memory_bits i ltac:(lia) Hr) as (Br' & _).
  pose proof (select_difference _ _ _ _ _ _ _ _ _ _ _ _ ltac:(split_and!; [exact Rc|exact Rc'|exact Ra|exact Ra'|exact Rk|exact Rk'|exact R1|exact R0])
    ltac:(split_and!; [exact H1|exact H2a|exact H2b|exact H2c|exact H3|exact H4|exact H5]) Br' Br) as Hsel'.
  split.
  - unfold access_order, at_col, reads. destruct Hsel' as [[_ ?]|[(_ & E & ?)|(_ & E & E' & ?)]]; rewrite ?E, ?E'; tauto.
  - intros j Hj Hw. pose proof (not_written_one (t i) (t (S i)) j Hj Br Bw Bx By Hw) as Hone.
    assert (t (S i) (ColChiplet (value j)) = (t (S i) (ColChiplet is_same_ctx_and_addr) * t i (ColChiplet (value j)))%F) as Hv.
    { assert (satisfied (i =? 0) false (t i) (t (S i)) (when (not_written j) (assert_eq (chip' (value j)) (chip' is_same_ctx_and_addr * chip (value j))))) as H6'.
      { cbn [seq fmap list_fmap concat] in H6. rewrite !satisfied_app in H6. destruct H6 as (? & ? & ? & ? & _). by destruct j as [|[|[|[|j]]]]; [..|lia]. }
      apply satisfied_when in H6'; [|done]. apply satisfied_conj in H6' as [H6' _]. unfold holds in H6'. cbn in H6'. by apply felt_sub_zero in H6'. }
    unfold same_word, at_col. destruct Hsel' as [[E ?]|[(E & Ec & ?)|(E & Ec & Ea & ?)]]; rewrite Hv; change is_same_ctx_and_addr with 17; rewrite E.
    + right. split; [ring|lia].
    + right. split; [ring|lia].
    + left. rewrite Ec, Ea. split; [ring|done].
Qed.

(** The first row of the region, when the region before it is not empty *)
Lemma memory_first i j : S i < N -> region_of (t i) = RBitwise -> region_of (t (S i)) = RMemory -> j < 4 -> ~ writes (t (S i)) j ->
  t (S i) (ColChiplet (value j)) = ZERO.
Proof using Hsel Hmem.
  intros Hi Hr Hr' Hj Hw. destruct (region_flags N t Hsel i RMemory memory Hi eq_refl) as (_ & _ & Hf & _). rewrite Hr, Hr' in Hf.
  pose proof (trace_step _ _ _ _ Hmem Hi) as H. unfold enforce_memory_constraints in H. rewrite !satisfied_app in H. destruct H as (_ & H & _).
  apply satisfied_when in H; [|by rewrite Hf]. pose proof (memory_bits (S i) Hi Hr') as (Br & Bw & Bx & By).
  assert (satisfied (i =? 0) false (t i) (t (S i)) (when (not_written j) (assert_zero (chip' (value j))))) as H'.
  { cbn [seq fmap list_fmap concat] in H. rewrite !satisfied_app in H. destruct H as (? & ? & ? & ? & _). by destruct j as [|[|[|[|j]]]]; [..|lia]. }
  apply satisfied_when in H'; [|by apply not_written_one]. apply satisfied_conj in H' as [H' _]. exact H'.
Qed.

Hypothesis Hranges : forall k, k < N -> region_of (t k) = RMemory -> access_ranges (t k).

(** The region is a sequence of accesses. *)
Lemma memory_rows i : i < N -> region_of (t i) = RMemory -> exists a b, a <= i <= b /\
  (forall k, k < N /\ region_of (t k) = RMemory <-> a <= k <= b) /\
  (forall k, a <= k -> k < b -> memory_step (t k) (t (S k))).
Proof using Hsel Hmem Hsup Hranges.
  intros Hi Ri. destruct (region_interval N t Hsel i Hi) as (a & b & Hab & Hb & Hk). rewrite Ri in Hk.
  exists a, b. split_and!; try lia.
  - intros k. split; [intros [? ?]; by apply Hk|]. intros ?. split; [lia|]. apply Hk; lia.
  - intros k H1 H2. apply memory_transition; [lia|apply Hk; lia|apply Hk; lia|apply Hranges; [lia|apply Hk; lia]..].
Qed.

Lemma memory_consistent s i j : S s < N -> region_of (t s) = RBitwise -> region_of (t (S s)) = RMemory ->
  i < N -> region_of (t i) = RMemory -> j < 4 ->
  let wrote k := k < N /\ region_of (t k) = RMemory /\ same_word (t k) (t i) /\ (at_col (t k) clk <= at_col (t i) clk)%Z /\ writes (t k) j in
  (forall k, wrote k -> (forall k', wrote k' -> (at_col (t k') clk <= at_col (t k) clk)%Z) -> t i (ColChiplet (value j)) = t k (ColChiplet (value j))) /\
  ((forall k, ~ wrote k) -> t i (ColChiplet (value j)) = ZERO).
Proof using Hsel Hmem Hsup Hranges.
  intros Hs R0 R1 Hi Ri Hj wr. destruct (memory_rows i Hi Ri) as (a & b & Hab & Hk & Hstep).
  assert (a = S s) as ->.
  { pose proof (proj1 (Hk (S s)) (conj Hs R1)). destruct (decide (a <= s)); [|lia].
    destruct (proj2 (Hk s) ltac:(lia)) as [_ Rs]. by rewrite R0 in Rs. }
  assert (forall k, wrote t (S s) b k i j <-> wr k) as Hwr by (intros k; unfold wrote, wr; specialize (Hk k); tauto).
  destruct (consistent t (S s) b Hstep) with (i := i) (j := j) as [H1 H2]; [|done..|].
  - intros m Hm Hw. by apply memory_first.
  - split.
    + intros k Hwk Hmax. apply H1; [by apply Hwr|]. intros k' Hk'. apply Hmax. by apply Hwr.
    + intros Hno. apply H2. intros k Hwk. apply (Hno k). by apply Hwr.
Qed.
(** Two accesses to one word in one cycle are reads. *)
Lemma memory_cycles i k : i < N -> k < N -> region_of (t i) = RMemory -> region_of (t k) = RMemory -> i <> k ->
  same_word (t i) (t k) -> at_col (t i) clk = at_col (t k) clk -> reads (t i) /\ reads (t k).
Proof using Hsel Hmem Hsup Hranges.
  intros Hi Hk Ri Rk Hne Hw Hc. destruct (memory_rows i Hi Ri) as (a & b & Hab & Hr & Hstep).
  pose proof (proj1 (Hr k) (conj Hk Rk)). destruct (decide (i < k)).
  - apply (same_cycle_reads t a b Hstep); lia || done.
  - apply and_comm. apply (same_cycle_reads t a b Hstep); try lia. unfold same_word in *. lia.
Qed.
End Rows.
End Memory.
