(* ===== verification/ChipletAce.v ===== *)
(** * Sections of the circuit evaluation chiplet, and the kernel ROM

    A section of the circuit chiplet reads its inputs, two a row, then evaluates its gates, one a row; node numbers count down
    to zero, and the value of the last node is zero. *)

From S2P Require Import Prelude Field Types Operations Air AirFlags AirStack AirRows AirDecoder AirTrace Chiplets ChipletRegions.
From Stdlib Require Import Ring.
Import Air ChipletSelectors.
#[local] Open Scope nat_scope.

Section Ace.
Context {F : Felt} {Q : Quad} {P : HasherParams}.
Add Ring felt_ring_ace : felt_ring_theory.
Import AirAce.

Definition quad_at (l : row) (c : nat) : QuadFelt := quad_new (l (ColChiplet c)) (l (ColChiplet (S c))).
Definition starts (l : row) : bool := bool_decide (l (ColChiplet s_start) = ONE).
Definition evaluates (l : row) : bool := bool_decide (l (ColChiplet s_block) = ONE).

(** A row of the chiplet by itself: reading rows number two nodes, evaluating rows compute one of three operations *)
Record ace_row (l : row) : Prop := {
  ar_start : l (ColChiplet s_start) = felt_bit (starts l);
  ar_block : l (ColChiplet s_block) = felt_bit (evaluates l);
  ar_starts_reading : starts l = true -> evaluates l = false;
  ar_read : evaluates l = false -> l (ColChiplet id_1) = (l (ColChiplet id_0) - ONE)%F;
  ar_eval : evaluates l = true ->
    l (ColChiplet eval_op) = (- ONE)%F /\ quad_at l 11 = quad_sub (quad_at l 14) (quad_at l 17) \/
    l (ColChiplet eval_op) = ZERO /\ quad_at l 11 = quad_mul (quad_at l 14) (quad_at l 17) \/
    l (ColChiplet eval_op) = ONE /\ quad_at l 11 = quad_add (quad_at l 14) (quad_at l 17);
}.
(** A row inside a section and the next one *)
Record ace_next (l n : row) : Prop := {
  an_block : evaluates l = true -> evaluates n = true;
  an_ctx : n (ColChiplet ctx) = l (ColChiplet ctx);
  an_clk : n (ColChiplet clk) = l (ColChiplet clk);
  an_ptr : n (ColChiplet ptr) = (l (ColChiplet ptr) + of_Z (if evaluates l then 1 else 4))%F;
  an_id : l (ColChiplet id_0) = (n (ColChiplet id_0) + of_Z (if evaluates l then 1 else 2))%F;
  an_num_eval : evaluates l = false -> l (ColChiplet num_eval) = (if evaluates n then n (ColChiplet id_0) else n (ColChiplet num_eval));
}.
(** The last row of a section *)
Record ace_end (l : row) : Prop := {
  ae_block : evaluates l = true;
  ae_value : quad_at l 11 = quad_new ZERO ZERO;
  ae_id : l (ColChiplet id_0) = ZERO;
}.

Lemma bit_decides (x : felt) : (x * (x - ONE))%F = ZERO -> x = felt_bit (bool_decide (x = ONE)).
Proof. intros H. destruct (bool_decide_reflect (x = ONE)) as [|Hn]; [done|]. apply felt_mul_zero in H as [H|H]; [done|]. by apply felt_sub_zero in H. Qed.

(** The selection between the three operations of a gate *)
Lemma gate_operation (op a0 a1 x0 x1 y0 y1 : felt) : (op * (op * op - ONE))%F = ZERO ->
  a0 = ((x0 + y0 * op - (x0 * y0 + new_unchecked 7 * (x1 * y1))) * (op * op) + (x0 * y0 + new_unchecked 7 * (x1 * y1)))%F ->
  a1 = ((x1 + y1 * op - (x0 * y1 + x1 * y0)) * (op * op) + (x0 * y1 + x1 * y0))%F ->
  op = (- ONE)%F /\ quad_new a0 a1 = quad_sub (quad_new x0 x1) (quad_new y0 y1) \/
  op = ZERO /\ quad_new a0 a1 = quad_mul (quad_new x0 x1) (quad_new y0 y1) \/
  op = ONE /\ quad_new a0 a1 = quad_add (quad_new x0 x1) (quad_new y0 y1).
Proof.
  intros Hop -> ->. rewrite quad_sub_new, quad_mul_new, quad_add_new, !coef0_new, !coef1_new.
  apply felt_mul_zero in Hop as [->|Hop]; [right; left; split; [done|]; f_equal; ring|].
  assert (((op - ONE) * (op - - ONE))%F = ZERO) as H by (rewrite <-Hop; ring).
  apply felt_mul_zero in H as [H|H]; apply felt_sub_zero in H as ->; [right; right|left]; (split; [done|]; f_equal; ring).
Qed.

Section Rows.
Variables (N : nat) (t : trace).
Hypothesis Hsel : trace_ok N t build_chiplet_selectors.
Hypothesis Hace : trace_ok N t enforce_ace_constraints_all_rows.
Hypothesis Hsup : supplied N t.

(** The constraints of the chiplet by group *)
Lemma ace_groups i : S i < N ->
  satisfied (i =? 0) false (t i) (t (S i)) first_row_constraints /\ satisfied (i =? 0) false (t i) (t (S i)) binary_constraints /\
  satisfied (i =? 0) false (t i) (t (S i)) block_constraints /\ satisfied (i =? 0) false (t i) (t (S i)) section_constraints /\
  satisfied (i =? 0) false (t i) (t (S i)) read_constraints /\ satisfied (i =? 0) false (t i) (t (S i)) eval_constraints /\
  satisfied (i =? 0) false (t i) (t (S i)) final_constraints.
Proof using Hace. intros Hi. pose proof (trace_step _ _ _ _ Hace Hi) as H. unfold enforce_ace_constraints_all_rows in H. by rewrite !satisfied_app in H. Qed.

Lemma ace_row_ok i : i < N -> region_of (t i) = RAce -> ace_row (t i).
Proof using Hsel Hace.
  intros Hi Hr. pose proof (region_not_last N t Hsel i Hi ltac:(by rewrite Hr)) as Hn.
  destruct (region_flags N t Hsel i RAce ace Hn eq_refl) as (Ha & _). rewrite Hr, bool_decide_true in Ha by done. cbn [felt_bit] in Ha.
  destruct (ace_groups i Hn) as (_ & Hb & Hblk & _ & Hrd & Hev & _). unfold block_constraints in Hblk. unfold read_constraints in Hrd.
  rewrite !satisfied_app in Hblk. rewrite !satisfied_app in Hrd. destruct Hblk as (_ & _ & Hsb & _), Hrd as (Hid & _). apply satisfied_when in Hb, Hsb, Hid; try done.
  open_residual Hb. open_residual Hsb. open_residual Hid. rewrite new_unchecked_1 in *. destruct Hb as (B1 & B2 & _).
  apply bit_decides in B1, B2. change (t i (ColChiplet s_start) = felt_bit (starts (t i))) in B1.
  change (t i (ColChiplet s_block) = felt_bit (evaluates (t i))) in B2. unfold s_start, s_block in B1, B2. split; try done.
  - intros Es. rewrite Es in B1. destruct (evaluates (t i)); [|done]. exfalso. apply ONE_neq_ZERO. destruct Hsb as [Hsb _].
    cbn [felt_bit] in B1, B2. rewrite <-Hsb, B1, B2. ring.
  - intros Ee. rewrite Ee in B2. destruct Hid as [Hid _]. cbn [felt_bit] in B2. rewrite B2 in Hid. apply felt_sub_zero. rewrite <-Hid. unfold id_1, id_0. ring.
  - intros Ee. rewrite Ee in B2. cbn [felt_bit] in B2. apply satisfied_when in Hev; [|cbn [eval]; rewrite Ha; unfold f_eval, chip, s_block; cbn [eval]; rewrite B2; ring].
    open_residual Hev. rewrite new_unchecked_1 in Hev. destruct Hev as (Hop & H0 & H1 & _). apply felt_sub_zero in H0, H1.
    by apply gate_operation.
Qed.

Lemma ace_next_ok i : S i < N -> region_of (t i) = RAce -> region_of (t (S i)) = RAce -> starts (t (S i)) = false -> ace_next (t i) (t (S i)).
Proof using Q Hsel Hace Hsup.
  intros Hn Hr Hr' Hs. pose proof (ace_row_ok i ltac:(lia) Hr) as Rl. pose proof (ace_row_ok (S i) Hn Hr') as Rn.
  pose proof (transition_gate N t Hsel i RAce ace Hsup Hn eq_refl Hr Hr') as Hg.
  destruct (ace_groups i Hn) as (_ & _ & Hblk & Hsec & Hrd & _). unfold block_constraints in Hblk. unfold read_constraints in Hrd.
  rewrite !satisfied_app in Hblk. rewrite !satisfied_app in Hrd. destruct Hblk as (_ & _ & _ & Hblk), Hrd as (_ & Hrd).
  pose proof (ar_start _ Rn) as Es. rewrite Hs in Es. cbn [felt_bit] in Es.
  assert (eval (t i) (t (S i)) s_transition = ONE) as Ht by (unfold s_transition, chip', enot; cbn [eval]; rewrite Es, eval_E1; ring).
  apply satisfied_gate in Hblk, Hrd; try done. apply satisfied_when in Hblk; [|done].
  apply satisfied_gate in Hsec; [|cbn [eval]; rewrite Ht; intros Hz; apply Hg; rewrite <-Hz; ring].
  pose proof (ar_block _ Rl) as El. pose proof (ar_block _ Rn) as En.
  open_residual Hblk. open_residual Hrd. open_residual Hsec. rewrite new_unchecked_1 in *.
  destruct Hblk as [Hblk _], Hrd as [Hrd _], Hsec as (Hctx & Hclk & Hptr & Hid & _).
  apply felt_sub_zero in Hctx, Hclk, Hptr, Hid. unfold s_block in *. rewrite El, En in *.
  split; try done.
  - intros Ee. rewrite Ee in *. destruct (evaluates (t (S i))); [done|]. exfalso. apply ONE_neq_ZERO. rewrite <-Hblk. cbn. ring.
  - unfold ptr. rewrite Hptr. destruct (evaluates (t i)); cbn [felt_bit]; rewrite of_Z_small by (unfold modulus; lia); rewrite ?new_unchecked_1; ring.
  - unfold id_0. rewrite Hid. destruct (evaluates (t i)); cbn [felt_bit]; rewrite of_Z_small by (unfold modulus; lia).
    + rewrite new_unchecked_1. ring.
    + rewrite <-(of_Z_small 2) by (unfold modulus; lia). change 2%Z with (1 + 1)%Z. autorewrite with of_Z. ring.
  - intros Ee. rewrite Ee in *. cbn [felt_bit] in Hrd. unfold num_eval, id_0.
    assert (forall x y : felt, ((ONE - ZERO) * (x - y) = ZERO -> y = x)%F) as Hx by (intros x y H; symmetry; apply felt_sub_zero; rewrite <-H; ring).
    apply Hx in Hrd. rewrite Hrd. destruct (evaluates (t (S i))); cbn [felt_bit]; ring.
Qed.

(** The row after is outside the section. *)
Lemma ace_end_ok i : i < N -> region_of (t i) = RAce -> (region_of (t (S i)) = RAce -> starts (t (S i)) = true) -> ace_end (t i) /\ starts (t i) = false.
Proof using Q Hsel Hace Hsup.
  intros Hi Hr Hs. pose proof (region_not_last N t Hsel i Hi ltac:(by rewrite Hr)) as Hn. pose proof (ace_row_ok i Hi Hr) as Rl.
  destruct (region_flags N t Hsel i RAce ace Hn eq_refl) as (_ & Hlast & _ & Htr). rewrite Hr in Hlast, Htr.
  assert (eval (t i) (t (S i)) f_end <> ZERO) as Hg.
  { unfold f_end, chip'. cbn [eval]. rewrite Hlast. destruct (decide (region_of (t (S i)) = RAce)) as [Hr'|Hr'].
    - pose proof (ar_start _ (ace_row_ok (S i) Hn Hr')) as Es. rewrite Hs in Es by done. cbn in Es. rewrite Es, Hr', bool_decide_true by done. cbn [andb negb felt_bit].
      intros Hz. apply (transition_gate N t Hsel i RAce ace Hsup Hn eq_refl Hr Hr'). rewrite <-Hz. ring.
    - rewrite Htr, bool_decide_true, (bool_decide_false (region_of (t (S i)) = RAce)) by done. cbn. intros Hz. apply ONE_neq_ZERO. rewrite <-Hz. ring. }
  destruct (ace_groups i Hn) as (_ & _ & Hblk & _ & _ & _ & Hf). apply satisfied_gate in Hf; [|done].
  open_residual Hf. rewrite new_unchecked_1, new_unchecked_0 in Hf. destruct Hf as (Hb & H0 & H1 & Hid & _).
  pose proof (ar_block _ Rl) as Eb. unfold s_block in Eb. rewrite Eb in Hb.
  assert (evaluates (t i) = true) as Ee.
  { destruct (evaluates (t i)); [done|]. exfalso. apply ONE_neq_ZERO. rewrite <-Hb. cbn. ring. }
  split.
  - split; [done| |done]. unfold quad_at. apply felt_sub_zero in H0, H1. by rewrite H0, H1.
  - destruct (starts (t i)) eqn:E; [|done]. by rewrite (ar_starts_reading _ Rl E) in Ee.
Qed.

(** The first row of the region starts a section, when the region before it is not empty. *)
Lemma ace_first i : S i < N -> region_of (t i) = RMemory -> region_of (t (S i)) = RAce -> starts (t (S i)) = true.
Proof using Hsel Hace.
  intros Hi Hr Hr'. destruct (region_flags N t Hsel i RAce ace Hi eq_refl) as (_ & _ & Hf & _). rewrite Hr, Hr' in Hf.
  destruct (ace_groups i Hi) as (H & _). apply satisfied_when in H; [|by rewrite Hf]. open_residual H. destruct H as [H _].
  rewrite new_unchecked_1 in H. apply felt_sub_zero in H. unfold starts. by apply bool_decide_eq_true.
Qed.

(** ** Sections *)

(** The rows [a..b] are a section: it starts at [a] and only there, and the row after [b] is outside. *)
Definition ace_section (a b : nat) : Prop :=
  a <= b < N /\ (forall k, a <= k <= b -> region_of (t k) = RAce /\ starts (t k) = (k =? a)) /\
  (region_of (t (S b)) = RAce -> starts (t (S b)) = true).

Lemma last_start j i : j <= i -> starts (t j) = true -> exists a, j <= a <= i /\ starts (t a) = true /\ forall k, a < k <= i -> starts (t k) = false.
Proof.
  intros Hji Hj. induction i as [|i IH]; [exists 0; replace j with 0 in * by lia; split_and!; try done; lia|].
  destruct (starts (t (S i))) eqn:E; [exists (S i); split_and!; try done; lia|].
  destruct (decide (j = S i)) as [->|]; [by rewrite E in Hj|]. destruct IH as (a & ? & ? & Hk); [lia|]. exists a. split_and!; try done; try lia.
  intros k Hki. destruct (decide (k = S i)) as [->|]; [done|]. apply Hk. lia.
Qed.
Lemma next_end i d : i < N -> N - i <= d -> region_of (t i) = RAce ->
  exists b, i <= b < N /\ (forall k, i <= k <= b -> region_of (t k) = RAce) /\ (forall k, i < k <= b -> starts (t k) = false) /\
    (region_of (t (S b)) = RAce -> starts (t (S b)) = true).
Proof using Hsel.
  revert i. induction d as [|d IH]; intros i Hi Hd Hr; [lia|].
  pose proof (region_not_last N t Hsel i Hi ltac:(by rewrite Hr)) as Hn.
  destruct (decide (region_of (t (S i)) = RAce /\ starts (t (S i)) = false)) as [[Hr' Hs]|Hno].
  - destruct (IH (S i)) as (b & ? & H1 & H2 & H3); [lia..|done|]. exists b. split_and!; try done; try lia; intros k Hk.
    + destruct (decide (k = i)) as [->|]; [done|]. apply H1. lia.
    + destruct (decide (k = S i)) as [->|]; [done|]. apply H2. lia.
  - exists i. split_and!; try done; [intros k ?; by replace k with i by lia|intros k ?; lia|].
    intros Hr'. destruct (starts (t (S i))) eqn:E; [done|]. by destruct Hno.
Qed.
(** Every row of the region is in a section, when the region before it is not empty. *)
Lemma section_exists s i : s < i < N -> region_of (t s) = RMemory -> region_of (t i) = RAce -> exists a b, a <= i <= b /\ ace_section a b.
Proof using Hsel Hace.
  intros Hsi Hs Hr. destruct (region_start N t Hsel i RAce ltac:(lia) Hr) as (j & Hj & Rj & Hbefore).
  assert (s < j) as Hsj.
  { destruct (decide (s < j)); [done|]. pose proof (rank_mono N t Hsel j s ltac:(lia)) as Hm. rewrite Hs, Rj in Hm. cbn in Hm. lia. }
  assert (region_of (t (j - 1)) = RMemory) as Rp.
  { destruct Hbefore as [->|Hlt]; [lia|]. pose proof (rank_mono N t Hsel s (j - 1) ltac:(lia)) as Hm. rewrite Hs in Hm. apply rank_inj. cbn in *. lia. }
  assert (starts (t j) = true) as Sj.
  { replace j with (S (j - 1)) by lia. apply ace_first; [lia|done|]. by replace (S (j - 1)) with j by lia. }
  destruct (last_start j i Hj Sj) as (a & Ha & Sa & Hna). destruct (next_end i (N - i)) as (b & Hb & H1 & H2 & H3); [lia..|done|].
  exists a, b. split; [lia|]. split_and!; try done; try lia. intros k Hk.
  split; [destruct (decide (k < i)); [rewrite (region_between N t Hsel j k i) by (lia || congruence); done|apply H1; lia]|].
  destruct (Nat.eqb_spec k a) as [->|]; [done|]. destruct (decide (k <= i)); [apply Hna|apply H2]; lia.
Qed.

Section Section.
Variables a b : nat.
Hypothesis Hsec : ace_section a b.

Lemma section_row k : a <= k <= b -> ace_row (t k).
Proof using Hsel Hace Hsec. intros Hk. destruct Hsec as (? & H & _). apply ace_row_ok; [lia|by apply H]. Qed.
Lemma section_step k : a <= k < b -> ace_next (t k) (t (S k)).
Proof using Q Hsel Hace Hsup Hsec.
  intros Hk. destruct Hsec as (? & H & _). apply ace_next_ok; [lia|apply H; lia|apply H; lia|]. destruct (H (S k) ltac:(lia)) as [_ ->]. apply Nat.eqb_neq. lia.
Qed.
Lemma section_end : ace_end (t b) /\ a < b.
Proof using Q Hsel Hace Hsup Hsec.
  destruct Hsec as (? & H & He). destruct (H b ltac:(lia)) as [Rb Sb]. destruct (ace_end_ok b ltac:(lia) Rb He) as [E Ns].
  split; [done|]. rewrite Ns in Sb. symmetry in Sb. apply Nat.eqb_neq in Sb. lia.
Qed.
(** Reading rows come first, then evaluating rows; there is one of each at least. *)
Lemma section_split : exists m, a <= m < b /\ forall k, a <= k <= b -> evaluates (t k) = (m <? k).
Proof using Q Hsel Hace Hsup Hsec.
  destruct section_end as [E Hab]. assert (forall d, d <= b - a ->
    (forall k, a <= k <= a + d -> evaluates (t k) = false) \/ exists m, a <= m < a + d /\ forall k, a <= k <= a + d -> evaluates (t k) = (m <? k)) as Hd.
  { intros d. induction d as [|d IH]; intros Hd.
    - left. intros k Hk. replace k with a by lia. apply (ar_starts_reading _ (section_row a ltac:(lia))). destruct Hsec as (? & H & _).
      destruct (H a ltac:(lia)) as [_ ->]. apply Nat.eqb_refl.
    - destruct IH as [IH|(m & Hm & IH)]; [lia|..].
      + destruct (evaluates (t (a + S d))) eqn:Ee.
        * right. exists (a + d). split; [lia|]. intros k Hk. destruct (decide (k = a + S d)) as [->|]; [rewrite Ee; symmetry; apply Nat.ltb_lt; lia|].
          rewrite IH by lia. symmetry. apply Nat.ltb_ge. lia.
        * left. intros k Hk. destruct (decide (k = a + S d)) as [->|]; [done|]. apply IH. lia.
      + right. exists m. split; [lia|]. intros k Hk. destruct (decide (k = a + S d)) as [->|]; [|apply IH; lia].
        pose proof (an_block _ _ (section_step (a + d) ltac:(lia))) as Hb. rewrite Nat.add_succ_r, Hb; [symmetry; apply Nat.ltb_lt; lia|].
        rewrite IH by lia. apply Nat.ltb_lt. lia. }
  destruct (Hd (b - a) ltac:(lia)) as [H|(m & Hm & H)].
  - pose proof (ae_block _ E) as Eb. rewrite H in Eb by lia. done.
  - exists m. split; [lia|]. intros k Hk. apply H. lia.
Qed.
(** The number of the first node of a row *)
Definition node_number (m k : nat) : Z := if m <? k then Z.of_nat b - Z.of_nat k else 2 * (Z.of_nat m + 1 - Z.of_nat k) + (Z.of_nat b - Z.of_nat m - 1).
Lemma section_numbers m k : a <= m < b -> (forall k, a <= k <= b -> evaluates (t k) = (m <? k)) -> a <= k <= b ->
  t k (ColChiplet id_0) = of_Z (node_number m k) /\ (k <= m -> t k (ColChiplet num_eval) = of_Z (node_number m (S m))).
Proof using Q Hsel Hace Hsup Hsec.
  intros Hm Hev Hk. remember (b - k) as d eqn:Ed. revert k Hk Ed. induction d as [|d IH]; intros k Hk Ed.
  - replace k with b by lia. split; [|lia]. rewrite (ae_id _ (proj1 section_end)). unfold node_number. rewrite (proj2 (Nat.ltb_lt m b)) by lia.
    rewrite Z.sub_diag. by autorewrite with of_Z.
  - destruct (IH (S k) ltac:(lia) ltac:(lia)) as [H1 H2]. pose proof (section_step k ltac:(lia)) as Hstep. split.
    + rewrite (an_id _ _ Hstep), H1, <-of_Z_add, Hev by lia. f_equal. unfold node_number.
      destruct (Nat.ltb_spec m k), (Nat.ltb_spec m (S k)); lia.
    + intros Hkm. rewrite (an_num_eval _ _ Hstep), Hev by (rewrite ?Hev by lia; try apply Nat.ltb_ge; lia).
      destruct (Nat.ltb_spec m (S k)); [|apply H2; lia]. by replace (S m) with (S k) by lia.
Qed.
(** The pointer and the identity of the section *)
Lemma section_pointers m k : a <= m < b -> (forall k, a <= k <= b -> evaluates (t k) = (m <? k)) -> a <= k <= b ->
  t k (ColChiplet ctx) = t a (ColChiplet ctx) /\ t k (ColChiplet clk) = t a (ColChiplet clk) /\
  t k (ColChiplet ptr) = (t a (ColChiplet ptr) + of_Z (4 * Z.of_nat (Nat.min k (S m) - a) + Z.of_nat (k - S m)))%F.
Proof using Q Hsel Hace Hsup Hsec.
  intros Hm Hev Hk. induction k as [|k IH].
  - replace a with 0 by lia. split_and!; try done. replace (Nat.min 0 (S m) - 0) with 0 by lia. replace (0 - S m) with 0 by lia. cbn. autorewrite with of_Z. ring.
  - destruct (decide (a = S k)) as [->|Hne].
    { split_and!; try done. replace (Nat.min (S k) (S m) - S k) with 0 by lia. replace (S k - S m) with 0 by lia. cbn. autorewrite with of_Z. ring. }
    destruct (IH ltac:(lia)) as (H1 & H2 & H3). pose proof (section_step k ltac:(lia)) as Hstep.
    rewrite (an_ctx _ _ Hstep), (an_clk _ _ Hstep), (an_ptr _ _ Hstep). split_and!; try done. rewrite H3, Hev by lia.
    transitivity (t a (ColChiplet ptr) + of_Z (4 * Z.of_nat (Nat.min k (S m) - a) + Z.of_nat (k - S m) + (if m <? k then 1 else 4)))%F;
      [rewrite (of_Z_add _ (if m <? k then 1 else 4)); ring|]. do 2 f_equal. destruct (Nat.ltb_spec m k); lia.
Qed.
End Section.
End Rows.

(** ** The kernel ROM *)
Section KernelRom.
Import AirKernelRom.
Variables (N : nat) (t : trace).
Hypothesis Hsel : trace_ok N t build_chiplet_selectors.
Hypothesis Hrom : trace_ok N t enforce_kernel_rom_constraints.
Hypothesis Hsup : supplied N t.
Definition same_root (l n : row) : Prop := forall j, j < 4 -> l (ColChiplet (root j)) = n (ColChiplet (root j)).

Lemma kernel_rom_next i : S i < N -> region_of (t i) = RKernelRom -> region_of (t (S i)) = RKernelRom ->
  t (S i) (ColChiplet s_first) = ONE \/ t (S i) (ColChiplet s_first) = ZERO /\ same_root (t i) (t (S i)).
Proof using Hsel Hrom Hsup.
  intros Hi Hr Hr'. pose proof (region_not_last N t Hsel (S i) Hi ltac:(by rewrite Hr')) as Hn.
  pose proof (trace_step _ _ _ _ Hrom Hi) as H. pose proof (trace_step _ _ _ _ Hrom Hn) as H'.
  unfold enforce_kernel_rom_constraints in H, H'. rewrite !satisfied_app in H. rewrite !satisfied_app in H'. destruct H as (_ & H & _), H' as (H' & _).
  destruct (region_flags N t Hsel (S i) RKernelRom kernel_rom Hn eq_refl) as (Ha & _). apply satisfied_when in H'; [|by rewrite Ha, Hr'].
  open_residual H'. rewrite new_unchecked_1 in H'. destruct H' as [H' _]. apply bit_decides in H'. unfold s_first.
  destruct (bool_decide_reflect (t (S i) (ColChiplet 5) = ONE)) as [|_]; [by left|]. right. cbn in H'. split; [done|].
  apply satisfied_gate in H.
  - open_residual H. destruct H as (H0 & H1 & H2 & H3 & _). apply felt_sub_zero in H0, H1, H2, H3. intros [|[|[|[|j]]]] Hj; [by symmetry..|lia].
  - unfold chip', enot, s_first. cbn [eval]. rewrite H', eval_E1. intros Hz.
    apply (transition_gate N t Hsel i RKernelRom kernel_rom Hsup Hi eq_refl Hr Hr'). rewrite <-Hz. ring.
Qed.
Lemma kernel_rom_first i : S i < N -> region_of (t i) = RAce -> region_of (t (S i)) = RKernelRom -> t (S i) (ColChiplet s_first) = ONE.
Proof using Hsel Hrom.
  intros Hi Hr Hr'. destruct (region_flags N t Hsel i RKernelRom kernel_rom Hi eq_refl) as (_ & _ & Hf & _). rewrite Hr, Hr' in Hf.
  pose proof (trace_step _ _ _ _ Hrom Hi) as H. unfold enforce_kernel_rom_constraints in H. rewrite !satisfied_app in H. destruct H as (_ & _ & H).
  apply satisfied_when in H; [|by rewrite Hf]. open_residual H. destruct H as [H _]. rewrite new_unchecked_1 in H. by apply felt_sub_zero in H.
Qed.
(** The digest of a row is that of the last row before it that starts a digest. *)
Lemma kernel_rom_digest s i : s < i < N -> region_of (t s) = RAce -> region_of (t i) = RKernelRom ->
  exists k, k <= i /\ region_of (t k) = RKernelRom /\ t k (ColChiplet s_first) = ONE /\
    (forall j, k < j <= i -> t j (ColChiplet s_first) = ZERO) /\ forall j, k <= j <= i -> same_root (t k) (t j).
Proof using Hsel Hrom Hsup.
  intros Hsi Hs Hr. induction i as [|i IH]; [lia|].
  assert (t (S i) (ColChiplet s_first) = ONE -> exists k, k <= S i /\ region_of (t k) = RKernelRom /\ t k (ColChiplet s_first) = ONE /\
    (forall j, k < j <= S i -> t j (ColChiplet s_first) = ZERO) /\ forall j, k <= j <= S i -> same_root (t k) (t j)) as Hhere.
  { intros Hf. exists (S i). split_and!; try done; [lia|]. intros j Hj. by replace j with (S i) by lia. }
  destruct (decide (region_of (t i) = RKernelRom)) as [Ri|Ri].
  - destruct (kernel_rom_next i ltac:(lia) Ri Hr) as [Hf|[Hz Hroot]]; [by apply Hhere|].
    assert (s < i) by (destruct (decide (s = i)) as [->|]; [congruence|lia]).
    destruct (IH ltac:(lia) Ri) as (k & ? & ? & ? & H1 & H2). exists k. split_and!; try done; try lia; intros j Hj.
    + destruct (decide (j = S i)) as [->|]; [done|]. apply H1. lia.
    + destruct (decide (j = S i)) as [->|]; [|apply H2; lia]. intros c Hc. rewrite (H2 i ltac:(lia) c Hc). by apply Hroot.
  - apply Hhere. apply kernel_rom_first; [lia| |done].
    pose proof (rank_mono N t Hsel s i ltac:(lia)) as H1. pose proof (rank_mono N t Hsel i (S i) ltac:(lia)) as H2. rewrite Hs in H1. rewrite Hr in H2.
    destruct (region_of (t i)); cbn in *; try lia; done.
Qed.
End KernelRom.
End Ace.
