(* ===== verification/ChipletMerkle.v ===== *)
(** * Merkle paths of the hash controller

    The controller records a permutation as an input row and an output row.  A Merkle path is a sequence of such pairs, one a level:
    the digest of a level is routed into the half of the next input its direction bit selects, and the bits make up the index of
    the leaf. *)

From S2P Require Import Prelude Field Types Operations Air AirFlags AirStack AirRows AirDecoder AirTrace Chiplets ChipletRegions ChipletPermutation.
From Stdlib Require Import Ring.
Import Air ChipletSelectors.
#[local] Open Scope nat_scope.

Section Merkle.
Context {F : Felt} {P : HasherParams}.
Add Ring felt_ring_merkle : felt_ring_theory.
Import AirController.

Definition input_row (l : row) : Prop := l (ColChiplet s0) = ONE.
Definition merkle_row (l : row) : Prop := input_row l /\ (l (ColChiplet s1) = ONE \/ l (ColChiplet s2) = ONE).
Definition output_row (l : row) : Prop := l (ColChiplet s0) = ZERO /\ l (ColChiplet s1) = ZERO.
(** An output that returns a digest *)
Definition digest_row (l : row) : Prop := output_row l /\ l (ColChiplet s2) = ZERO.

Definition direction (l : row) : bool := bool_decide (l (ColChiplet direction_bit) = ONE).
Definition word_at (l : row) (k : nat) : list felt := (fun j => l (ColChiplet (state (4 * k + j)))) <$> seq 0 4.
(** The node an input row hashes, and its sibling *)
Definition node (l : row) : list felt := word_at l (if direction l then 1 else 0).
Definition sibling (l : row) : list felt := word_at l (if direction l then 0 else 1).

(** ** The reference: the root of a path *)
Definition merge (x y : list felt) : list felt := take 4 (poseidon2 (x ++ y ++ replicate 4 ZERO)).
Definition climb (x : list felt) (step : bool * list felt) : list felt := if step.1 then merge step.2 x else merge x step.2.
Definition compute_root (leaf : list felt) (path : list (bool * list felt)) : list felt := foldl climb leaf path.
Fixpoint path_index (bits : list bool) : Z := match bits with [] => 0 | b :: bits => Z.b2z b + 2 * path_index bits end.

(** ** The rows of the controller *)
Section Rows.
Variables (N : nat) (t : trace).
Hypothesis Hsel : trace_ok N t build_chiplet_selectors.
Hypothesis Hctrl : trace_ok N t enforce_controller_constraints.
Hypothesis Hsup : supplied N t.

Lemma controller_groups i : S i < N ->
  let sat cs := satisfied (i =? 0) false (t i) (t (S i)) cs in
  sat skeleton_constraints /\ sat start_constraints /\ sat sponge_constraints /\ sat merkle_constraints /\ sat end_constraints.
Proof using Hctrl. intros Hi sat. pose proof (trace_step _ _ _ _ Hctrl Hi) as H. unfold enforce_controller_constraints in H. by rewrite !satisfied_app in H. Qed.

Lemma controller_active i : S i < N -> region_of (t i) = RController -> eval (t i) (t (S i)) (is_active controller) = ONE.
Proof using Hsel. intros Hi Hr. destruct (region_flags N t Hsel i RController controller Hi eq_refl) as (H & _). by rewrite H, Hr. Qed.

(** The first row is an input row of the controller. *)
Lemma controller_first : 0 < N -> region_of (t 0) = RController /\ input_row (t 0).
Proof using Hsel Hctrl.
  intros HN. pose proof (Hctrl 0 HN) as H. unfold enforce_controller_constraints, skeleton_constraints in H. rewrite !satisfied_app in H.
  destruct H as ((H & _) & _). open_residual H. destruct H as [H _]. specialize (H eq_refl). rewrite new_unchecked_1 in H. apply felt_sub_zero in H.
  pose proof (trace_region N t Hsel 0 HN) as Hr. pose proof (Hr (ColChiplet 0) (rank (region_of (t 0)) =? 0) eq_refl) as E.
  rewrite E in H. pose proof ONE_neq_ZERO as H10. destruct (Nat.eqb_spec (rank (region_of (t 0))) 0) as [E0|]; cbn [felt_bit] in H.
  - split; [by apply rank_inj|]. unfold input_row, s0. rewrite <-H. ring.
  - exfalso. apply H10. rewrite <-H. ring.
Qed.

(** An input row is followed by an output row. *)
Lemma input_then_output i : i < N -> region_of (t i) = RController -> input_row (t i) ->
  S i < N /\ region_of (t (S i)) = RController /\ output_row (t (S i)).
Proof using Hsel Hctrl Hsup.
  intros Hi Hr Hin. pose proof (region_not_last N t Hsel i Hi ltac:(by rewrite Hr)) as Hn.
  destruct (controller_groups i Hn) as (_ & Hst & _). unfold start_constraints in Hst. rewrite !satisfied_app in Hst. destruct Hst as (Hlast & _ & Hnext).
  unfold input_row, s0 in Hin. destruct (decide (region_of (t (S i)) = RController)) as [Hr'|Hr'].
  - split_and!; [done..|]. pose proof (region_not_last N t Hsel (S i) Hn ltac:(by rewrite Hr')) as Hn'.
    destruct (controller_groups (S i) Hn') as (Hsk & _). unfold skeleton_constraints in Hsk. rewrite !satisfied_app in Hsk. destruct Hsk as (_ & Hb & _).
    apply satisfied_when in Hb; [|by apply controller_active]. open_residual Hb. destruct Hb as (B0 & B1 & _). apply bit_felt in B0 as [b0 E0], B1 as [b1 E1].
    apply satisfied_gate in Hnext; [|by apply (transition_gate N t Hsel i RController)].
    open_residual Hnext. rewrite new_unchecked_1, Hin in Hnext. destruct Hnext as [H _].
    unfold output_row, s0, s1. rewrite E0, E1 in *. destruct b0, b1; cbn [felt_bit] in *; try done;
      (exfalso; apply ONE_neq_ZERO; transitivity (- ZERO)%F; [rewrite <-H; ring|ring]).
  - exfalso. destruct (region_flags N t Hsel i RController controller Hn eq_refl) as (_ & Hl & _).
    rewrite Hr, (bool_decide_false (region_of (t (S i)) = RController)) in Hl by done. apply satisfied_when in Hlast; [|done].
    open_residual Hlast. destruct Hlast as [H _]. rewrite Hin in H. by apply ONE_neq_ZERO.
Qed.

Lemma merkle_flag l n : merkle_row n -> (exists b, n (ColChiplet s1) = felt_bit b) -> (exists b, n (ColChiplet s2) = felt_bit b) ->
  eval l n (is_merkle_input chip') = ONE /\ eval n l (is_merkle_input chip) = ONE.
Proof.
  intros [H0 H] [b1 E1] [b2 E2]. unfold input_row in H0. unfold is_merkle_input, chip, chip'. cbn [eval]. rewrite H0, E1, E2 in *.
  destruct b1, b2; cbn [felt_bit] in *; split; try ring; exfalso; destruct H as [H|H]; symmetry in H; by apply ONE_neq_ZERO.
Qed.
Lemma controller_bits i : i < N -> region_of (t i) = RController ->
  (exists b, t i (ColChiplet s1) = felt_bit b) /\ (exists b, t i (ColChiplet s2) = felt_bit b).
Proof using Hsel Hctrl.
  intros Hi Hr. pose proof (region_not_last N t Hsel i Hi ltac:(by rewrite Hr)) as Hn.
  destruct (controller_groups i Hn) as (Hsk & _). unfold skeleton_constraints in Hsk. rewrite !satisfied_app in Hsk. destruct Hsk as (_ & Hb & _).
  apply satisfied_when in Hb; [|by apply controller_active]. open_residual Hb. destruct Hb as (_ & B1 & B2 & _). split; by apply bit_felt.
Qed.

(** The input row of a level *)
Lemma level_input i : S i < N -> region_of (t i) = RController -> merkle_row (t i) ->
  t i (ColChiplet node_index) = (of_Z (Z.b2z (direction (t i))) + of_Z 2 * t (S i) (ColChiplet node_index))%F /\
  t i (ColChiplet direction_bit) = felt_bit (direction (t i)) /\ word_at (t i) 2 = replicate 4 ZERO.
Proof using Hsel Hctrl.
  intros Hn Hr Hm. destruct (controller_bits i ltac:(lia) Hr) as [B1 B2].
  destruct (controller_groups i Hn) as (_ & _ & _ & H & _). unfold merkle_constraints in H. rewrite !satisfied_app in H. destruct H as (H & _).
  apply satisfied_when in H; [|cbn [eval]; rewrite controller_active, (proj2 (merkle_flag (t (S i)) _ Hm B1 B2)) by done; ring].
  open_residual H. rewrite new_unchecked_1 in H. destruct H as (Hi & Hd & H8 & H9 & H10 & H11 & _). apply felt_sub_zero in Hi.
  assert (t i (ColChiplet direction_bit) = felt_bit (direction (t i))) as Ed.
  { unfold direction. apply felt_mul_zero in Hd as [Hd|Hd]; [|apply felt_sub_zero in Hd]; unfold direction_bit; rewrite Hd.
    - by rewrite bool_decide_false by (intros Hx; by apply ONE_neq_ZERO).
    - by rewrite bool_decide_true. }
  split_and!; [|done|].
  - unfold node_index. rewrite Hi. unfold direction_bit in Ed. rewrite Ed. change 2%Z with (1 + 1)%Z. rewrite of_Z_add, of_Z_1.
    destruct (direction (t i)); cbn [felt_bit Z.b2z]; rewrite ?of_Z_0, ?of_Z_1; ring.
  - unfold word_at. cbn. rewrite H8, H9, H10, H11. done.
Qed.

(** From the output row of a level to the input row of the next one *)
Lemma level_next i : S i < N -> region_of (t i) = RController -> output_row (t i) -> t i (ColChiplet is_boundary) = ZERO ->
  region_of (t (S i)) = RController -> merkle_row (t (S i)) ->
  t (S i) (ColChiplet node_index) = t i (ColChiplet node_index) /\ word_at (t i) 0 = node (t (S i)).
Proof using Hsel Hctrl.
  intros Hn Hr [Ho0 Ho1] Hb Hr' Hm. destruct (controller_bits (S i) Hn Hr') as [B1 B2]. pose proof (merkle_flag (t i) _ Hm B1 B2) as [Hf _].
  destruct (controller_groups i Hn) as (_ & _ & _ & H & _). unfold merkle_constraints in H. rewrite !satisfied_app in H. destruct H as (_ & Hi & Hd & _).
  assert (eval (t i) (t (S i)) (is_output chip) = ONE) as Eo.
  { unfold is_output, enot, chip. cbn [eval]. rewrite Ho0, Ho1, eval_E1. ring. }
  assert (eval (t i) (t (S i)) (enot (chip is_boundary)) = ONE) as Eb by (unfold enot, chip; cbn [eval]; rewrite Hb, eval_E1; ring).
  pose proof (controller_active i Hn Hr) as Ea. split.
  - do 4 (apply satisfied_when in Hi; [|done]). open_residual Hi. destruct Hi as [Hi _]. by apply felt_sub_zero in Hi.
  - apply satisfied_when in Hd; [|unfold next_level; cbn [eval]; rewrite Ea, Eo, Hf; fold eval; cbn [eval] in Eb; rewrite Eb; ring].
    open_residual Hd. destruct Hd as (Hd & H0 & H1 & H2 & H3 & _). apply felt_sub_zero in Hd, H0, H1, H2, H3.
    pose proof (region_not_last N t Hsel (S i) Hn ltac:(by rewrite Hr')) as Hn'.
    destruct (level_input (S i) Hn' Hr' Hm) as (_ & Ed & _). unfold direction_bit in Ed. rewrite Hd, Ed in H0, H1, H2, H3.
    unfold node, word_at. cbn [seq fmap list_fmap]. unfold state. cbn [Nat.mul Nat.add]. rewrite H0, H1, H2, H3.
    destruct (direction (t (S i))); cbn [felt_bit Nat.mul Nat.add]; repeat f_equal; ring.
Qed.

Lemma digest_index i : S i < N -> region_of (t i) = RController -> digest_row (t i) -> t i (ColChiplet node_index) = ZERO.
Proof using Hsel Hctrl.
  intros Hn Hr ((H0 & H1) & H2). destruct (controller_groups i Hn) as (_ & _ & _ & _ & H). unfold end_constraints in H. rewrite !satisfied_app in H.
  destruct H as [H _]. apply satisfied_when in H; [|by apply controller_active].
  apply satisfied_when in H; [|unfold is_hout, is_output, enot, chip; cbn [eval]; rewrite H0, H1, H2, eval_E1; ring].
  open_residual H. by destruct H as (H & _).
Qed.

(** ** Paths *)

(** The rows from [r] on are a path of [S d] levels; the output of each level but the last is not final. *)
Definition merkle_path (r d : nat) : Prop :=
  (forall k, k <= d -> r + 2 * k < N /\ region_of (t (r + 2 * k)) = RController /\ merkle_row (t (r + 2 * k))) /\
  (forall k, k < d -> t (S (r + 2 * k)) (ColChiplet is_boundary) = ZERO).
Definition path_steps (r d : nat) : list (bool * list felt) :=
  (fun k => (direction (t (r + 2 * k)), sibling (t (r + 2 * k)))) <$> seq 0 (S d).

(** The output of each level is the permutation of its input. *)
Definition permuted (r d : nat) : Prop := forall k, k <= d -> state_of (t (S (r + 2 * k))) = poseidon2 (state_of (t (r + 2 * k))).

Lemma state_words l : state_of l = word_at l 0 ++ word_at l 1 ++ word_at l 2.
Proof. done. Qed.
Lemma level_hash l o : word_at l 2 = replicate 4 ZERO -> state_of o = poseidon2 (state_of l) ->
  word_at o 0 = climb (node l) (direction l, sibling l).
Proof.
  intros Hc Ho. unfold climb, merge, node, sibling. cbn [fst snd]. change (word_at o 0) with (take 4 (state_of o)).
  rewrite Ho, state_words, Hc. by destruct (direction l).
Qed.

Lemma path_shorter r d : merkle_path r (S d) -> merkle_path r d.
Proof. intros [H1 H2]. split; intros k Hk; [apply H1|apply H2]; lia. Qed.
Lemma path_output r d k : merkle_path r d -> k <= d ->
  S (r + 2 * k) < N /\ region_of (t (S (r + 2 * k))) = RController /\ output_row (t (S (r + 2 * k))).
Proof using Hsel Hctrl Hsup. intros [H _] Hk. destruct (H k Hk) as (? & ? & Hm). by apply input_then_output; [..|apply Hm]. Qed.

Lemma path_level r d : merkle_path r (S d) ->
  word_at (t (S (r + 2 * d))) 0 = node (t (r + 2 * S d)) /\ t (r + 2 * S d) (ColChiplet node_index) = t (S (r + 2 * d)) (ColChiplet node_index).
Proof using Hsel Hctrl Hsup.
  intros Hp. destruct (path_output r (S d) d Hp ltac:(lia)) as (Hn & Hr & Ho). destruct (proj1 Hp (S d) ltac:(lia)) as (Hn' & Hr' & Hm).
  replace (r + 2 * S d) with (S (S (r + 2 * d))) in * by lia. apply and_comm. apply level_next; try done. apply (proj2 Hp). lia.
Qed.

(** The digest of the last level is the root. *)
Lemma path_root r d : merkle_path r d -> permuted r d -> word_at (t (S (r + 2 * d))) 0 = compute_root (node (t r)) (path_steps r d).
Proof using Hsel Hctrl Hsup.
  intros Hp Hh. assert (forall k, k <= d -> word_at (t (S (r + 2 * k))) 0 = climb (node (t (r + 2 * k))) (direction (t (r + 2 * k)), sibling (t (r + 2 * k)))) as Hl.
  { intros k Hk. apply level_hash; [|by apply Hh]. destruct (proj1 Hp k Hk) as (? & ? & ?). apply level_input; [|done..]. apply (path_output r d k Hp Hk). }
  clear Hh. induction d as [|d IH].
  - specialize (Hl 0 ltac:(lia)). change (2 * 0) with 0 in *. rewrite Nat.add_0_r in *. rewrite Hl. unfold path_steps, compute_root. cbn [seq fmap list_fmap foldl]. change (2 * 0) with 0. by rewrite Nat.add_0_r.
  - unfold path_steps, compute_root. rewrite seq_S, fmap_app, foldl_app. cbn [Nat.add]. rewrite (Hl (S d)) by lia.
    rewrite <-(proj1 (path_level r d Hp)), IH; [done|by apply path_shorter|]. intros k Hk. apply Hl. lia.
Qed.

Lemma path_index_app bits b : path_index (bits ++ [b]) = (path_index bits + 2 ^ Z.of_nat (length bits) * Z.b2z b)%Z.
Proof. induction bits as [|c bits IH]; [destruct b; done|]. cbn [app path_index length]. rewrite IH, Nat2Z.inj_succ, Z.pow_succ_r by lia. lia. Qed.
Lemma path_index_range bits : (0 <= path_index bits < 2 ^ Z.of_nat (length bits))%Z.
Proof. induction bits as [|b bits IH]; [cbn; lia|]. cbn [path_index length]. rewrite Nat2Z.inj_succ, Z.pow_succ_r by lia. destruct b; cbn; lia. Qed.

(** The index of the leaf is made of the direction bits and of what is left of it after the last level. *)
Lemma path_position r d : merkle_path r d ->
  t r (ColChiplet node_index) = (of_Z (path_index (path_steps r d).*1) + of_Z (2 ^ Z.of_nat (S d)) * t (S (r + 2 * d)) (ColChiplet node_index))%F.
Proof using Hsel Hctrl Hsup.
  intros Hp. assert (forall k, k <= d -> t (r + 2 * k) (ColChiplet node_index) =
    (of_Z (Z.b2z (direction (t (r + 2 * k)%nat))) + of_Z 2 * t (S (r + 2 * k)) (ColChiplet node_index))%F) as Hl.
  { intros k Hk. destruct (proj1 Hp k Hk) as (? & ? & ?). apply level_input; [|done..]. apply (path_output r d k Hp Hk). }
  induction d as [|d IH].
  - specialize (Hl 0 ltac:(lia)). change (2 * 0) with 0 in *. rewrite Nat.add_0_r in *. rewrite Hl. unfold path_steps. cbn [seq fmap list_fmap fst path_index].
    change (2 * 0) with 0. rewrite Nat.add_0_r. rewrite Z.mul_0_r, Z.add_0_r. done.
  - rewrite (IH (path_shorter _ _ Hp)) by (intros k Hk; apply Hl; lia). rewrite <-(proj2 (path_level r d Hp)), (Hl (S d)) by lia.
    unfold path_steps. rewrite (seq_S (S d)), !fmap_app. cbn [Nat.add fmap list_fmap fst]. rewrite path_index_app, !length_fmap, length_seq.
    rewrite (Nat2Z.inj_succ (S d)), Z.pow_succ_r by lia. rewrite of_Z_add, !of_Z_mul. ring.
Qed.
End Rows.
End Merkle.
