(* ===== verification/ChipletFree.v ===== *)
(** * Columns the chiplets' constraints leave free

    The flag of the row before the first one of a chiplet is built from the last row of the chiplet stacked below it, so it does not
    fire when that chiplet has no rows.  The constraints on the first row of the kernel ROM and of the memory are then
    not applied: columns of these rows can be changed without breaking a constraint. *)

From S2P Require Import Prelude Field Types Operations Air AirFlags AirStack AirRows AirDecoder AirTrace Chiplets ChipletRegions ChipletPermutation.
From Stdlib Require Import Ring.
Import Air ChipletSelectors.
#[local] Open Scope nat_scope.

(** [constraints/mod.rs], [enforce_main], after the constraints of the selectors *)
Definition all_constraints {P : HasherParams} : list constraint :=
  build_chiplet_selectors ++ main_constraints ++ AirChiplets.enforce_main.

(** The expression reads one of the chiplet columns [loc] of the current row or [nxt] of the next one. *)
Fixpoint touches (loc nxt : list nat) (e : expr) : bool :=
  match e with
  | Local (ColChiplet j) => existsb (Nat.eqb j) loc
  | Next (ColChiplet j) => existsb (Nat.eqb j) nxt
  | EAdd a b | ESub a b | EMul a b => touches loc nxt a || touches loc nxt b
  | ENeg a => touches loc nxt a
  | _ => false
  end.

(** What is known of the changed row too *)
Definition also (k k' : knowledge) : knowledge := fun c => match k c with Some b => Some b | None => k' c end.
Definition bit_at (j : nat) (b : bool) : knowledge := fun c => match c with ColChiplet i => if i =? j then Some b else None | _ => None end.
Definition cycle_end : knowledge := fun c => match c with ColPeriodic k => if k <? 4 then Some false else None | _ => None end.

(** With the rows changed in the columns, each constraint keeps its value, or vanishes with what is known of the changed row. *)
Definition unaffected (k k' kc kc' : knowledge) (loc nxt : list nat) (cs : list constraint) : bool :=
  forallb (fun c => if touches loc nxt (simp2 k k' (body c)) then is_E0 (simp2 kc kc' (body c)) else true) cs.

Section Free.
Context {F : Felt}.

(** The rows differ at most in the chiplet columns. *)
Definition differ_in (cols : list nat) (l l' : row) : Prop := forall c, (forall j, In j cols -> c <> ColChiplet j) -> l' c = l c.

Lemma differ_refl l : differ_in [] l l.
Proof. by intros c _. Qed.
Lemma differ_col cols l l' j : differ_in cols l l' -> existsb (Nat.eqb j) cols = false -> l' (ColChiplet j) = l (ColChiplet j).
Proof. intros H Hj. apply H. intros i Hi [= ->]. rewrite <-not_true_iff_false, existsb_exists in Hj. apply Hj. exists i. split; [done|apply Nat.eqb_refl]. Qed.
Lemma eval_untouched loc nxt l n l' n' e : differ_in loc l l' -> differ_in nxt n n' -> touches loc nxt e = false -> eval l' n' e = eval l n e.
Proof.
  intros Hl Hn. induction e as [c|c|z|a IHa b IHb|a IHa b IHb|a IHa b IHb|a IHa]; cbn [eval touches]; intros Ht; try done;
    try (apply orb_false_iff in Ht as [Ha Hb]; by rewrite (IHa Ha), (IHb Hb)).
  - destruct c; try (by apply Hl); by apply (differ_col loc).
  - destruct c; try (by apply Hn); by apply (differ_col nxt).
  - by rewrite (IHa Ht).
Qed.
Lemma unaffected_satisfied first last k k' kc kc' loc nxt cs l n l' n' :
  agrees l k -> agrees n k' -> agrees l' k -> agrees n' k' -> agrees l' kc -> agrees n' kc' ->
  differ_in loc l l' -> differ_in nxt n n' -> unaffected k k' kc kc' loc nxt cs = true ->
  satisfied first last l n cs -> satisfied first last l' n' cs.
Proof.
  intros Al An Al' An' Bl Bn Dl Dn Hu H. unfold satisfied in *. rewrite Forall_forall in *. intros c Hc. specialize (H c Hc).
  unfold unaffected in Hu. rewrite forallb_forall in Hu. specialize (Hu c (proj1 (list_elem_of_In _ _) Hc)). destruct (touches loc nxt (simp2 k k' (body c))) eqn:Et.
  - assert (eval l' n' (body c) = ZERO) as E by (rewrite <-(simp2_eval l' n' kc kc') by done; by apply is_E0_eval).
    unfold holds. rewrite E. by destruct (on c).
  - apply (eval_untouched loc nxt l n l' n') in Et; [|done..]. rewrite !simp2_eval in Et by done. unfold holds in *. by rewrite Et.
Qed.

Lemma agrees_also l k k' : agrees l k -> agrees l k' -> agrees l (also k k').
Proof. intros H H' c b. unfold also. destruct (k c) eqn:E; [intros [= ->]; by apply H|apply H']. Qed.
Lemma agrees_bit l j b : l (ColChiplet j) = felt_bit b -> agrees l (bit_at j b).
Proof. intros H c b'. unfold bit_at. destruct c; try done. destruct (Nat.eqb_spec i j) as [->|]; [|done]. by intros [= <-]. Qed.
(** The columns above the selectors are not part of what a region shows. *)
Lemma differ_region cols l l' r : forallb (Nat.ltb 4) cols = true -> differ_in cols l l' -> in_region l r -> in_region l' r.
Proof.
  intros Hc Hd H c b Hk. rewrite (Hd c); [by apply H|]. intros j Hj ->. rewrite forallb_forall in Hc. specialize (Hc j Hj).
  apply Nat.ltb_lt in Hc. unfold region_knowledge in Hk. do 5 (destruct j as [|j]; [lia|]). done.
Qed.

Lemma after_kernel_rom r : rank RKernelRom <= rank r -> r <> RKernelRom -> r = RPadding.
Proof. destruct r; cbn; try lia; done. Qed.
Lemma after_memory r : rank RMemory <= rank r -> r <> RMemory -> In r [RAce; RKernelRom; RPadding].
Proof. destruct r; cbn; try lia; try done; tauto. Qed.

(** ** A row changed in a trace *)
Definition changed_at (m : nat) (cols : list nat) (t t' : trace) : Prop :=
  (forall i, i <> m -> t' i = t i) /\ differ_in cols (t m) (t' m).

Lemma changed_ok N t t' m cols cs : changed_at (S m) cols t t' -> trace_ok N t cs -> S (S m) < N ->
  satisfied (m =? 0) false (t m) (t' (S m)) cs -> satisfied false false (t' (S m)) (t (S (S m))) cs -> trace_ok N t' cs.
Proof.
  intros [Hsame _] H Hm H1 H2 i Hi. destruct (decide (i = m)) as [->|]; [|destruct (decide (i = S m)) as [->|]].
  - rewrite Nat.mod_small, (Hsame m) by lia. by rewrite (proj2 (Nat.eqb_neq (S m) N)) by lia.
  - rewrite Nat.mod_small, (Hsame (S (S m))) by lia. by rewrite (proj2 (Nat.eqb_neq (S (S m)) N)) by lia.
  - rewrite (Hsame i) by done. rewrite Hsame; [by apply H|]. destruct (decide (S i = N)) as [->|]; [rewrite Nat.Div0.mod_same; lia|].
    rewrite Nat.mod_small by lia. lia.
Qed.

Section Trace.
Context {P : HasherParams}.
Variables (N : nat) (t : trace).
Hypothesis Hok : trace_ok N t all_constraints.

Lemma all_selectors : trace_ok N t build_chiplet_selectors.
Proof using Hok. by apply trace_ok_app in Hok as [? _]. Qed.

(** *** The kernel ROM after the memory *)
Lemma kernel_rom_checked : unaffected (region_knowledge RMemory) (region_knowledge RKernelRom) nothing nothing [] (seq 5 5) all_constraints = true /\
  unaffected (region_knowledge RKernelRom) (region_knowledge RPadding) (also (region_knowledge RKernelRom) (bit_at 5 false)) (region_knowledge RPadding)
    (seq 5 5) [] all_constraints = true /\
  unaffected (region_knowledge RKernelRom) (also (region_knowledge RKernelRom) (bit_at 5 true))
    (also (region_knowledge RKernelRom) (bit_at 5 false)) (also (region_knowledge RKernelRom) (bit_at 5 true)) (seq 5 5) [] all_constraints = true.
Proof. split_and!; vm_compute; reflexivity. Qed.

Lemma kernel_rom_free i t' : region_of (t i) = RMemory -> region_of (t (S i)) = RKernelRom -> S i < N ->
  (region_of (t (S (S i))) = RKernelRom -> t (S (S i)) (ColChiplet AirKernelRom.s_first) = ONE) ->
  changed_at (S i) (seq 5 5) t t' -> t' (S i) (ColChiplet AirKernelRom.s_first) = ZERO -> trace_ok N t' all_constraints.
Proof using Hok.
  intros Ri Rk Hi Hnext Hch Hz. pose proof all_selectors as Hsel. pose proof (region_not_last N t Hsel (S i) Hi ltac:(by rewrite Rk)) as Hn.
  pose proof (trace_region N t Hsel i ltac:(lia)) as Al. pose proof (trace_region N t Hsel (S i) Hi) as Ak. pose proof (trace_region N t Hsel (S (S i)) Hn) as An.
  rewrite Ri in Al. rewrite Rk in Ak. pose proof (proj2 Hch) as Hd. pose proof (fun H => differ_region _ _ _ _ H Hd Ak) as Ak'. specialize (Ak' eq_refl).
  destruct kernel_rom_checked as (C1 & C2 & C3). apply (changed_ok N t t' i (seq 5 5)); [exact Hch|exact Hok|exact Hn|..].
  - apply (unaffected_satisfied _ _ _ _ _ _ _ _ _ (t i) (t (S i)) _ _ Al Ak Al Ak' (agrees_nothing _) (agrees_nothing _) (differ_refl _) Hd C1).
    exact (trace_step _ _ _ _ Hok Hi).
  - pose proof (trace_step _ _ _ _ Hok Hn) as H. pose proof (agrees_also _ _ _ Ak' (agrees_bit _ _ false Hz)) as Bk'.
    destruct (decide (region_of (t (S (S i))) = RKernelRom)) as [Rn|Rn].
    + rewrite Rn in An. pose proof (agrees_also _ _ _ An (agrees_bit _ _ true (Hnext Rn))) as Bn.
      exact (unaffected_satisfied _ _ _ _ _ _ _ _ _ _ _ _ _ Ak Bn Ak' Bn Bk' Bn Hd (differ_refl _) C3 H).
    + assert (region_of (t (S (S i))) = RPadding) as Rp.
      { pose proof (rank_mono N t Hsel (S i) (S (S i)) ltac:(lia)) as Hm. rewrite Rk in Hm. exact (after_kernel_rom _ Hm Rn). }
      rewrite Rp in An. exact (unaffected_satisfied _ _ _ _ _ _ _ _ _ _ _ _ _ Ak An Ak' An Bk' An Hd (differ_refl _) C2 H).
Qed.

(** *** The memory after the permutations *)
Lemma memory_checked :
  unaffected (also (region_knowledge RPermutation) cycle_end) (region_knowledge RMemory) nothing nothing [] (seq 10 4) all_constraints = true /\
  forallb (fun r => unaffected (region_knowledge RMemory) (region_knowledge r) nothing nothing (seq 10 4) [] all_constraints) [RAce; RKernelRom; RPadding] = true /\
  unaffected (region_knowledge RMemory) (also (region_knowledge RMemory) (bit_at 17 false)) nothing nothing (seq 10 4) [] all_constraints = true.
Proof. split_and!; vm_compute; reflexivity. Qed.

Lemma memory_free i t' : supplied N t -> region_of (t i) = RPermutation -> region_of (t (S i)) = RMemory -> S i < N ->
  (region_of (t (S (S i))) = RMemory -> t (S (S i)) (ColChiplet AirMemory.is_same_ctx_and_addr) = ZERO) ->
  changed_at (S i) (seq 10 4) t t' -> trace_ok N t' all_constraints.
Proof using Hok.
  intros Hsup Ri Rk Hi Hnext Hch. pose proof all_selectors as Hsel. pose proof (region_not_last N t Hsel (S i) Hi ltac:(by rewrite Rk)) as Hn.
  assert (trace_ok N t AirPermutation.enforce_permutation_constraints) as Hperm.
  { apply trace_ok_app in Hok as [_ H]. apply trace_ok_app in H as [_ H]. by apply trace_ok_app in H as [? _]. }
  destruct (region_boundaries N t Hsel Hperm Hsup i Hi) as [Hb _]. specialize (Hb Ri ltac:(by rewrite Rk)).
  assert (agrees (t i) cycle_end) as Hend.
  { intros c b. unfold cycle_end. destruct c as [| | | | | | | | | | | | | | | | | | |k|]; try done. destruct (Nat.ltb_spec k 4); [|done]. intros [= <-].
    rewrite (selector N t Hsup i k) by lia. rewrite Hb. done. }
  pose proof (trace_region N t Hsel i ltac:(lia)) as Al. pose proof (trace_region N t Hsel (S i) Hi) as Ak. pose proof (trace_region N t Hsel (S (S i)) Hn) as An.
  rewrite Ri in Al. rewrite Rk in Ak. pose proof (proj2 Hch) as Hd. pose proof (fun H => differ_region _ _ _ _ H Hd Ak) as Ak'. specialize (Ak' eq_refl).
  pose proof (agrees_also _ _ _ Al Hend) as Bl.
  destruct memory_checked as (C1 & C2 & C3). apply (changed_ok N t t' i (seq 10 4)); [exact Hch|exact Hok|exact Hn|..].
  - apply (unaffected_satisfied _ _ _ _ _ _ _ _ _ (t i) (t (S i)) _ _ Bl Ak Bl Ak' (agrees_nothing _) (agrees_nothing _) (differ_refl _) Hd C1).
    exact (trace_step _ _ _ _ Hok Hi).
  - pose proof (trace_step _ _ _ _ Hok Hn) as H. destruct (decide (region_of (t (S (S i))) = RMemory)) as [Rn|Rn].
    + rewrite Rn in An. pose proof (agrees_also _ _ _ An (agrees_bit _ _ false (Hnext Rn))) as Bn.
      exact (unaffected_satisfied _ _ _ _ _ _ _ _ _ _ _ _ _ Ak Bn Ak' Bn (agrees_nothing _) (agrees_nothing _) Hd (differ_refl _) C3 H).
    + assert (In (region_of (t (S (S i)))) [RAce; RKernelRom; RPadding]) as Hin.
      { pose proof (rank_mono N t Hsel (S i) (S (S i)) ltac:(lia)) as Hm. rewrite Rk in Hm. exact (after_memory _ Hm Rn). }
      rewrite forallb_forall in C2. specialize (C2 _ Hin).
      exact (unaffected_satisfied _ _ _ _ _ _ _ _ _ _ _ _ _ Ak An Ak' An (agrees_nothing _) (agrees_nothing _) Hd (differ_refl _) C2 H).
Qed.
End Trace.
End Free.
