(* ===== verification/ChipletConcrete.v ===== *)
(** * Concrete traces of the chiplets

    Two small traces that satisfy the constraints, built from their rows: one in which every chiplet has rows, with a Merkle path of two
    levels, and one in which the bitwise and circuit chiplets are empty.  The rest of the trace runs a program of one basic block. *)

From S2P Require Import Prelude Field Goldilocks Types Operations Air AirFlags AirStack AirRows AirDecoder AirTrace Chiplets ChipletRegions ChipletPermutation ChipletFree.
Import Air OpFlags opcodes ChipletSelectors.
#[local] Open Scope Z_scope.

(** Small constants for the permutation *)
#[global] Instance ToyParams : HasherParams := {|
  MAT_DIAG i := Z.of_nat i + 2;
  ARK_EXT_INITIAL r i := 100 * Z.of_nat r + Z.of_nat i + 1;
  ARK_INT r := 1000 + Z.of_nat r;
  ARK_EXT_TERMINAL r i := 500 + 10 * Z.of_nat r + Z.of_nat i |}.

Module DemoChiplets.
#[local] Instance mod_ring : CharRing Z := {|
  r_zero := 0; r_add a b := redZ (a + b); r_sub a b := redZ (a - b); r_mul a b := redZ (a * b) |}.

(** ** Rows of a permutation cycle *)
Definition ark_at (m : nat) : list Z := (fun lane => nth m (AirChiplets.ark_column lane) 0) <$> seq 0 12.
Definition diag : list Z := MAT_DIAG <$> seq 0 12.
(** The witnesses of a row and the next state *)
Definition internal_steps (s : list Z) (ks : list Z) : list Z * list Z :=
  foldl (fun '(ws, s) k => let w := AirPermutation.exp_7 (r_add (nth 0 s 0) k) in
    (ws ++ [w], AirPermutation.apply_matmul_internal (<[0%nat := w]> s) diag)) ([], s) ks.
Definition next_state (m : nat) (s : list Z) : list Z * list Z :=
  if (m =? 0)%nat then ([0; 0; 0], AirPermutation.apply_init_plus_ext s (ark_at m))
  else if (m <=? 3)%nat then ([0; 0; 0], AirPermutation.external_round s (ark_at m))
  else if (m <=? 10)%nat then internal_steps s (take 3 (ark_at m))
  else if (m =? 11)%nat then let '(ws, s) := internal_steps s [ARK_INT 21] in (ws ++ [0; 0], AirPermutation.external_round s (ark_at m))
  else if (m <=? 14)%nat then ([0; 0; 0], AirPermutation.external_round s (ark_at m))
  else ([0; 0; 0], s).
Fixpoint cycle_states (k m : nat) (s : list Z) : list (list Z * list Z) :=
  match k with O => [] | S k => let '(ws, s') := next_state m s in (ws, s) :: cycle_states k (S m) s' end.
Definition cycle (s : list Z) : list (list Z * list Z) := cycle_states 16 0 s.
Definition permute (s : list Z) : list Z := (nth 15 (cycle s) ([], [])).2.

(** ** Rows of the chiplets: the permutation selector and the shared columns *)
Definition crow : Type := Z * list Z.
Definition ctrl_row (sel state : list Z) (index boundary dir : Z) : crow := (0, [1] ++ sel ++ state ++ [index; 0; boundary; dir]).
Definition ctrl_padding : crow := ctrl_row [0; 1; 0] (replicate 12 0) 0 0 0.
Definition perm_rows (s : list Z) : list crow := (fun '(ws, s) => (1, [0] ++ ws ++ s ++ [1; 0; 0; 0])) <$> cycle s.
Definition bits4 (z : Z) : list Z := (fun i => Z.b2z (Z.testbit z i)) <$> [0; 1; 2; 3].
Definition bitwise_rows (a b : Z) : list crow :=
  (fun k => let up x := Z.shiftr x (28 - 4 * Z.of_nat k) in let a := up a in let b := up b in
    (0, [0; 0; 1; a; b] ++ bits4 a ++ bits4 b ++ [Z.shiftr (Z.lxor a b) 4; Z.lxor a b])) <$> seq 0 8.
Definition memory_row (is_read addr clk : Z) (word : list Z) (d dinv same : Z) : crow :=
  (0, [0; 1; 0; is_read; 1; 0; addr; 0; 0; clk] ++ word ++ [d; 0; dinv; same]).
Definition ace_read_row : crow := (0, [0; 1; 1; 0; 1; 0; 2; 100; 7; 0; 2; 5; 6; 1; 5; 6; 0; 0; 0]).
Definition ace_eval_row : crow := (0, [0; 1; 1; 0; 0; 1; 2; 104; 7; modulus - 1; 0; 0; 0; 2; 5; 6; 1; 5; 6]).
Definition rom_row (first : Z) (digest : list Z) : crow := (0, [0; 1; 1; 1; 0; first] ++ digest).
Definition padding_row : crow := (0, [0; 1; 1; 1; 1]).

(** A path of two levels: the leaf at index 2 *)
Definition leaf : list Z := [1; 2; 3; 4].
Definition state0 : list Z := leaf ++ [5; 6; 7; 8] ++ [0; 0; 0; 0].
Definition state1 : list Z := [9; 10; 11; 12] ++ take 4 (permute state0) ++ [0; 0; 0; 0].
Definition full_rows : list crow := Eval vm_compute in
  [ctrl_row [1; 0; 1] state0 2 1 0; ctrl_row [0; 0; 1] (permute state0) 1 0 1;
   ctrl_row [1; 0; 1] state1 1 0 1; ctrl_row [0; 0; 0] (permute state1) 0 1 0] ++ replicate 12 ctrl_padding ++
  perm_rows state0 ++ perm_rows state1 ++ bitwise_rows 3405691582 4277009102 ++
  [memory_row 0 8 3 [1; 2; 3; 4] 0 0 0; memory_row 1 8 4 [1; 2; 3; 4] 1 1 1;
   ace_read_row; ace_eval_row; rom_row 1 [21; 22; 23; 24]; rom_row 0 [21; 22; 23; 24]; padding_row; padding_row].
(** No bitwise operation and no circuit: a permutation, a read of the memory, and one kernel procedure *)
Definition sparse_rows : list crow := Eval vm_compute in
  [ctrl_row [1; 0; 1] state0 0 1 0; ctrl_row [0; 0; 0] (permute state0) 0 1 0] ++ replicate 14 ctrl_padding ++
  perm_rows state0 ++ [memory_row 1 8 3 [0; 0; 0; 0] 0 0 0; rom_row 1 [21; 22; 23; 24]] ++ replicate 6 padding_row.

(** ** The other columns: [SPAN], [NOOP], [END], [HALT]... *)
Definition opcode_at (i : nat) : Z := match i with O => SPAN | 1%nat => NOOP | 2%nat => END | _ => HALT end.
Definition range_value (i : nat) : Z := foldr Z.add 0 (take i (replicate 29 2187 ++ [729; 729; 243; 243; 81; 81; 3; 3])).
Definition cpu_row (i : nat) : zrow := fun c =>
  match op_knowledge (opcode_at i) c with
  | Some v => Z.b2z v
  | None =>
    match c with
    | ColClk => Z.of_nat i
    | ColB0 => 16
    | ColRangeValue => range_value i
    | ColGroupCount => if (i =? 0)%nat then 1 else 0
    | ColBatchFlag 1 | ColBatchFlag 2 => if (i =? 0)%nat then 1 else 0
    | ColInSpan => if (i =? 1)%nat then 1 else 0
    | _ => 0
    end
  end.
(** The periodic columns, tabulated over a cycle *)
Definition periodic_table : list (list Z) :=
  Eval vm_compute in (fun i => (fun k => AirChiplets.periodic_value k i) <$> seq 0 18) <$> seq 0 16.
Definition whole_row (rows : list crow) (i : nat) : zrow := fun c =>
  match c with
  | ColChiplet j => nth j (nth i rows (0, [])).2 0
  | ColSPerm => (nth i rows (0, [])).1
  | ColPeriodic k => nth k (nth (i mod 16) periodic_table []) 0
  | ColIsTransition => if (S i =? length rows)%nat then 0 else 1
  | _ => cpu_row i c
  end.

(** ** The constraints on a cycle, with shared intermediate values *)
Lemma evalZ_hom l n : char_hom (evalZ l n).
Proof. split; try done. intros x y. change (evalZ l n (EMul x y) = redZ (evalZ l n x * evalZ l n y)). by rewrite evalZ_mul, redZ_mod. Qed.

Section Steps.
Variables (first last : bool) (l n : zrow).
Let ok cs := forallb (holdsZ first last l n) cs = true.

Lemma ok_app cs cs' : ok cs -> ok cs' -> ok (cs ++ cs').
Proof. unfold ok. intros H H'. by rewrite forallb_app, H, H'. Qed.
Lemma ok_when g cs : (evalZ l n g <> 0 -> ok cs) -> ok (when g cs).
Proof.
  unfold ok. intros H. apply forallb_forall. intros c Hc. unfold when in Hc. apply list_elem_of_In, list_elem_of_fmap in Hc as (c0 & -> & Hc0).
  unfold holdsZ. cbn [on body]. change (evalZ l n (g * body c0)%E) with (evalZ l n (EMul g (body c0))). rewrite evalZ_mul.
  destruct (Z.eq_dec (evalZ l n g) 0) as [->|Hg]; [cbn; by destruct (on c0), first, last|]. specialize (H Hg). rewrite forallb_forall in H.
  specialize (H c0 (proj1 (list_elem_of_In _ _) Hc0)). unfold holdsZ in H.
  destruct (Z.eqb_spec (evalZ l n (body c0)) 0) as [->|]; [by rewrite Z.mul_0_r; destruct (on c0), first, last|].
  destruct (on c0); cbn in *; try done; destruct first, last; done.
Qed.
Lemma ok_zeros es : Forall (fun z => z = 0) (evalZ l n <$> es) -> ok (assert_zeros es).
Proof.
  unfold assert_zeros. induction es as [|e es IH]; [done|]. cbn [fmap list_fmap]. intros H. inversion H as [|? ? He Hes]; subst. cbn [concat].
  apply ok_app; [|by apply IH]. unfold ok, assert_zero, holdsZ. cbn [forallb on body]. by rewrite He.
Qed.
Lemma ok_all_eq es es' : evalZ l n <$> es = evalZ l n <$> es' -> ok (AirPermutation.assert_all_eq es es').
Proof.
  revert es'. unfold AirPermutation.assert_all_eq. induction es as [|e es IH]; intros [|e' es']; try done. cbn [fmap list_fmap zip_with concat]. intros [= E Es].
  apply ok_app; [|by apply IH]. unfold ok, assert_eq, assert_zero, holdsZ. cbn [forallb on body].
  change (evalZ l n (e - e')%E) with (redZ (evalZ l n e - evalZ l n e')). by rewrite E, Z.sub_diag.
Qed.
Definition list_eqb (a b : list Z) : bool := bool_decide (a = b).
(** The values of [enforce_permutation_steps], each computed once *)
Definition stepsZ (g : expr) : bool :=
  let ev := evalZ l n in
  if ev g =? 0 then true else
  let h := ev <$> AirPermutation.h in let h' := ev <$> AirPermutation.h_next in let ark := ev <$> AirPermutation.ark in
  let w := ev <$> AirPermutation.w in let d := ev <$> AirPermutation.mat_diag in
  (if ev (E1 - AirPermutation.is_packed_int - AirPermutation.is_int_ext)%E =? 0 then true else nth 0 w 0 =? 0) &&
  (if ev (E1 - AirPermutation.is_packed_int)%E =? 0 then true else (nth 1 w 0 =? 0) && (nth 2 w 0 =? 0)) &&
  (if ev AirPermutation.is_init_ext =? 0 then true else list_eqb h' (AirPermutation.apply_init_plus_ext h ark)) &&
  (if ev AirPermutation.is_ext =? 0 then true else list_eqb h' (AirPermutation.external_round h ark)) &&
  (if ev AirPermutation.is_packed_int =? 0 then true else
     let '(expected, checks) := AirPermutation.apply_packed_internals h w (take 3 ark) d in forallb (Z.eqb 0) checks && list_eqb h' expected) &&
  (if ev AirPermutation.is_int_ext =? 0 then true else
     let '(expected, check) := AirPermutation.apply_internal_plus_ext h (nth 0 w 0) (ARK_INT 21) ark d in (check =? 0) && list_eqb h' expected).

(** A conjunct of [stepsZ] under its gate *)
Lemma gateZ (z : Z) (b : bool) : (if z =? 0 then true else b) = true -> z <> 0 -> b = true.
Proof. intros H Hz. by rewrite (proj2 (Z.eqb_neq z 0) Hz) in H. Qed.
Lemma mulZ_nonzero g e : evalZ l n (g * e)%E <> 0 -> evalZ l n g <> 0 /\ evalZ l n e <> 0.
Proof. change (g * e)%E with (EMul g e). rewrite evalZ_mul. intros H. split; intros E; apply H; rewrite E, ?Z.mul_0_r; done. Qed.
Lemma stepsZ_ok g : stepsZ g = true -> ok (AirPermutation.enforce_permutation_steps g).
Proof.
  intros H. unfold stepsZ in H. pose proof (evalZ_hom l n) as Hh. pose proof (gateZ _ _ H) as H'. clear H. unfold AirPermutation.enforce_permutation_steps.
  pose proof (hom_packed_internals (evalZ l n) Hh AirPermutation.h AirPermutation.w (take 3 AirPermutation.ark) AirPermutation.mat_diag) as Ep.
  pose proof (hom_int_ext (evalZ l n) Hh AirPermutation.h (chip (AirPermutation.witness 0)) AirPermutation.ark_int_21 AirPermutation.ark AirPermutation.mat_diag) as Ei.
  change (evalZ l n AirPermutation.ark_int_21) with (ARK_INT 21) in Ei.
  change (evalZ l n (chip (AirPermutation.witness 0))) with (nth 0 (evalZ l n <$> AirPermutation.w) 0) in Ei. rewrite fmap_take in Ep.
  destruct (AirPermutation.apply_packed_internals AirPermutation.h _ _ _) as [pe pc].
  destruct (AirPermutation.apply_internal_plus_ext AirPermutation.h _ _ _ _) as [ie ic]. cbn [fst snd] in Ep, Ei. rewrite Ep, Ei in H'. clear Ep Ei.
  rewrite <-(hom_init _ Hh), <-(hom_round _ Hh) in H'. unfold list_eqb in H'. cbv zeta in H'.
  repeat apply ok_app; apply ok_when; intros Hg; apply mulZ_nonzero in Hg as [Hg He]; specialize (H' Hg); rewrite !andb_true_iff in H';
    destruct H' as (((((H1 & H2) & H3) & H4) & H5) & H6).
  - apply (gateZ _ _ H1) in He. apply (ok_zeros [_]). constructor; [exact (proj1 (Z.eqb_eq _ _) He)|done].
  - apply (gateZ _ _ H2) in He. apply andb_true_iff in He as [Ha Hb]. apply (ok_zeros [_; _]).
    constructor; [exact (proj1 (Z.eqb_eq _ _) Ha)|]. constructor; [exact (proj1 (Z.eqb_eq _ _) Hb)|done].
  - apply (gateZ _ _ H3), bool_decide_eq_true in He. by apply ok_all_eq.
  - apply (gateZ _ _ H4), bool_decide_eq_true in He. by apply ok_all_eq.
  - apply (gateZ _ _ H5), andb_true_iff in He as [Hc He]. apply bool_decide_eq_true in He. apply ok_app; [|by apply ok_all_eq].
    apply ok_zeros. rewrite forallb_forall in Hc. apply Forall_forall. intros z Hz. symmetry. by apply Z.eqb_eq, Hc, list_elem_of_In.
  - apply (gateZ _ _ H6), andb_true_iff in He as [Hc He]. apply bool_decide_eq_true in He. apply ok_app; [|by apply ok_all_eq].
    apply (ok_zeros [_]). constructor; [exact (proj1 (Z.eqb_eq _ _) Hc)|done].
Qed.
End Steps.

(** ** The two traces satisfy the constraints *)
Definition demo (rows : list crow) : trace := fun i => felt_row (whole_row rows i).

Definition row_reduced (r : crow) : bool := forallb (fun z => (0 <=? z) && (z <? modulus)) (r.1 :: r.2).
Lemma nth_reduced (l : list Z) k : forallb (fun z => (0 <=? z) && (z <? modulus)) l = true -> 0 <= nth k l 0 < modulus.
Proof.
  intros H. destruct (nth_in_or_default k l 0) as [Hk| ->]; [|unfold modulus; lia]. rewrite forallb_forall in H. specialize (H _ Hk). lia.
Qed.
Lemma cpu_row_range i : (i < 100)%nat -> in_range (cpu_row i).
Proof.
  intros Hi c. unfold cpu_row. destruct (op_knowledge (opcode_at i) c) as [[]|]; [vm_compute; split; congruence..|].
  assert (0 <= range_value i < modulus) as Hr.
  { do 38 (destruct i as [|i]; [vm_compute; split; congruence|]). vm_compute. split; congruence. }
  repeat case_match; try exact Hr; unfold modulus; lia.
Qed.
Lemma whole_row_range rows i : forallb row_reduced rows = true -> (i < 100)%nat -> in_range (whole_row rows i).
Proof.
  intros H Hi c. assert (row_reduced (nth i rows (0, [])) = true) as Hr.
  { destruct (nth_in_or_default i rows (0, [])) as [Hk| ->]; [|done]. rewrite forallb_forall in H. by apply H. }
  unfold row_reduced in Hr. pose proof (nth_reduced _ 0%nat Hr) as H0. cbn [nth] in H0. cbn [forallb] in Hr. apply andb_true_iff in Hr as [_ Hr].
  unfold whole_row. destruct c as [| |? | |?|?| | | |?|?|?| | | | | |j| |k|]; try (by apply cpu_row_range).
  - by apply nth_reduced.
  - exact H0.
  - apply nth_reduced. destruct (nth_in_or_default (i mod 16) periodic_table []) as [Hk| ->]; [|done]. revert Hk. generalize (nth (i mod 16) periodic_table []).
    apply forallb_forall. vm_compute. reflexivity.
  - destruct (S i =? length rows)%nat; unfold modulus; lia.
Qed.

Lemma demo_supplied rows : (length rows <= 100)%nat -> supplied (length rows) (demo rows).
Proof.
  intros HN. split.
  - intros i Hi. unfold demo, felt_row, whole_row. destruct (Nat.eqb_spec (S i) (length rows)) as [E|E]; [rewrite new_unchecked_0|rewrite new_unchecked_1]; [done|].
    split; [|done]. intros Hz. by apply ONE_neq_ZERO in Hz.
  - intros i k Hi Hk. unfold demo, felt_row, whole_row. f_equal.
    assert (forallb (fun i => forallb (fun k => nth k (nth (i mod 16) periodic_table []) 0 =? AirChiplets.periodic_value k i) (seq 0 18)) (seq 0 100) = true) as Hc
      by (vm_compute; reflexivity).
    rewrite forallb_forall in Hc. specialize (Hc i (proj2 (in_seq 100 0 i) ltac:(lia))). rewrite forallb_forall in Hc.
    specialize (Hc k (proj2 (in_seq 18 0 k) ltac:(lia))). by apply Z.eqb_eq.
Qed.

(** The constraints but for the steps of the permutation *)
Definition other_constraints : list constraint :=
  ChipletSelectors.build_chiplet_selectors ++ main_constraints ++
  (let g := is_active permutation in
   when g (assert_zeros (chip <$> AirPermutation.unused_padding)) ++
   when g (when AirPermutation.not_cycle_end (assert_eq (chip' AirPermutation.multiplicity) (chip AirPermutation.multiplicity))) ++
   when (next_is_first permutation) (assert_zero AirPermutation.not_cycle_end) ++
   when (is_last permutation) (assert_zero AirPermutation.not_cycle_end)) ++
  AirController.enforce_controller_constraints ++ AirBitwise.enforce_bitwise_constraints ++ AirMemory.enforce_memory_constraints ++
  AirAce.enforce_ace_constraints_all_rows ++ AirKernelRom.enforce_kernel_rom_constraints.
Definition demo_check (rows : list crow) : bool :=
  let N := length rows in
  (N <? 100)%nat && forallb row_reduced rows && trace_okZ N (whole_row rows) other_constraints &&
  forallb (fun i => stepsZ (whole_row rows i) (whole_row rows (S i mod N)) (is_active permutation)) (seq 0 N).

Lemma steps_reduced : forallb (fun c => reduced (body c)) (AirPermutation.enforce_permutation_steps (is_active permutation)) = true.
Proof. vm_compute. reflexivity. Qed.
Lemma demo_ok rows : demo_check rows = true -> trace_ok (length rows) (demo rows) all_constraints.
Proof.
  intros H. unfold demo_check in H. cbv zeta in H. rewrite !andb_true_iff in H. destruct H as (((HN & Hr) & Ho) & Hs). apply Nat.ltb_lt in HN.
  assert (forall i, (i <= length rows)%nat -> in_range (whole_row rows i)) as Hrange by (intros i Hi; apply whole_row_range; [done|lia]).
  intros i Hi. assert (S i mod length rows <= length rows)%nat as Hi' by (pose proof (Nat.mod_upper_bound (S i) (length rows) ltac:(lia)); lia).
  assert (satisfied (i =? 0)%nat (S i =? length rows)%nat (demo rows i) (demo rows (S i mod length rows)%nat) other_constraints) as Hother.
  { apply satisfiedZ_ok; [apply Hrange; lia|by apply Hrange|]. unfold satisfiedZ. unfold trace_okZ in Ho. apply andb_true_iff in Ho as [-> Ho].
    rewrite forallb_forall in Ho. by rewrite (Ho i (proj2 (in_seq (length rows) 0 i) ltac:(lia))). }
  assert (satisfied (i =? 0)%nat (S i =? length rows)%nat (demo rows i) (demo rows (S i mod length rows)%nat)
    (AirPermutation.enforce_permutation_steps (is_active permutation))) as Hsteps.
  { apply satisfiedZ_ok; [apply Hrange; lia|by apply Hrange|]. unfold satisfiedZ. rewrite steps_reduced. cbn [andb]. apply stepsZ_ok.
    rewrite forallb_forall in Hs. exact (Hs i (proj2 (in_seq (length rows) 0 i) ltac:(lia))). }
  unfold all_constraints, AirChiplets.enforce_main, AirPermutation.enforce_permutation_constraints. unfold other_constraints in Hother. cbv zeta in Hother.
  rewrite !satisfied_app in *. tauto.
Qed.
Lemma full_check : demo_check full_rows = true.
Proof. vm_compute. reflexivity. Qed.
Lemma sparse_check : demo_check sparse_rows = true.
Proof. vm_compute. reflexivity. Qed.

(** Regions of the rows *)
Lemma felt_eq_small a b : 0 <= a < modulus -> 0 <= b < modulus -> new_unchecked a = new_unchecked b -> a = b.
Proof. intros Ha Hb H. apply (f_equal as_canonical_u64) in H. by rewrite !canonical_new in H. Qed.
End DemoChiplets.
