(* ===== verification/TraceTables.v ===== *)
(** * Tables of the chiplets: shared definitions, the bitwise chiplet and the kernel ROM

    [processor/src/trace/chiplets/bitwise/mod.rs] and [kernel_rom/mod.rs] build the rows of two chiplets from the operations of the
    program.  The constraints on the rows of a chiplet are discharged from what the rows show. *)

From stdpp Require Import sorting.
From S2P Require Import Prelude Field Types Operations Air AirFlags AirStack AirRows AirDecoder AirTrace Chiplets ChipletRegions ChipletPermutation ChipletBitwise.
From Stdlib Require Import Ring.
Import Air ChipletSelectors.
#[local] Open Scope nat_scope.

(** ** Ordered maps

    A [BTreeMap] iterates in the order of its keys. *)
Section BTree.
Context {K : Type} `{Countable K} (key_le : K -> K -> bool).

Definition entry_le {V} (a b : K * V) : Prop := key_le a.1 b.1 = true.
#[global] Instance entry_le_dec {V} : RelDecision (entry_le (V := V)).
Proof. intros a b. unfold entry_le. apply _. Defined.
Definition btree_entries {V} (m : gmap K V) : list (K * V) := merge_sort entry_le (map_to_list m).

Lemma btree_entries_perm {V} (m : gmap K V) : btree_entries m ≡ₚ map_to_list m.
Proof. apply merge_sort_Permutation. Qed.
Lemma btree_entries_elem {V} (m : gmap K V) k v : (k, v) ∈ btree_entries m <-> m !! k = Some v.
Proof. by rewrite btree_entries_perm, elem_of_map_to_list. Qed.
Lemma btree_entries_length {V} (m : gmap K V) : length (btree_entries m) = size m.
Proof. by rewrite btree_entries_perm, length_map_to_list. Qed.
(** The entries after an insertion, up to their order *)
Lemma btree_entries_insert {V} (m : gmap K V) k v : btree_entries (<[k := v]> m) ≡ₚ (k, v) :: btree_entries (delete k m).
Proof.
  rewrite !btree_entries_perm. rewrite <-insert_delete_eq. apply map_to_list_insert. apply lookup_delete_eq.
Qed.
Lemma btree_entries_delete {V} (m : gmap K V) k v : m !! k = Some v -> btree_entries m ≡ₚ (k, v) :: btree_entries (delete k m).
Proof. intros Hk. rewrite <-(btree_entries_insert m k v), insert_id; done. Qed.
(** The number of items the entries give, after an insertion and at a key *)
Lemma btree_bind_insert {V B} (f : K * V -> list B) (m : gmap K V) k v :
  length (btree_entries (<[k := v]> m) ≫= f) = length (f (k, v)) + length (btree_entries (delete k m) ≫= f).
Proof. rewrite btree_entries_insert. cbn [mbind list_bind]. by rewrite length_app. Qed.
Lemma btree_bind_lookup {V B} (f : K * V -> list B) (m : gmap K V) k v : m !! k = Some v ->
  length (btree_entries m ≫= f) = length (f (k, v)) + length (btree_entries (delete k m) ≫= f).
Proof. intros Hk. rewrite <-btree_bind_insert. by rewrite insert_id. Qed.
Lemma btree_bind_new {V B} (f : K * V -> list B) (m : gmap K V) k v : m !! k = None ->
  length (btree_entries (<[k := v]> m) ≫= f) = length (f (k, v)) + length (btree_entries m ≫= f).
Proof. intros Hk. by rewrite btree_bind_insert, delete_id. Qed.

(** The entries are in the order of the keys, without repetition. *)
Hypothesis key_le_total : forall a b, key_le a b = true \/ key_le b a = true.
Lemma btree_entries_sorted {V} (m : gmap K V) i x y : btree_entries m !! i = Some x -> btree_entries m !! S i = Some y -> key_le x.1 y.1 = true /\ x.1 <> y.1.
Proof using key_le_total.
  intros Hx Hy. assert (Total (entry_le (V := V))) as Ht by (intros [a ?] [b ?]; apply key_le_total). split.
  - pose proof (Sorted_merge_sort entry_le (map_to_list m)) as Hs. change (Sorted entry_le (btree_entries m)) in Hs.
    revert i Hx Hy. induction Hs as [|z l Hl IH Hz]; intros [|i] Hx Hy; try done; cbn in Hx, Hy; [|by apply (IH i)].
    destruct l; [done|]. cbn in Hy. simplify_eq. by inversion Hz.
  - intros E. assert (NoDup (btree_entries m).*1) as Hnd by (rewrite btree_entries_perm; apply NoDup_fst_map_to_list).
    assert (i = S i); [|lia]. eapply (NoDup_lookup _ _ _ x.1 Hnd); rewrite list_lookup_fmap; [by rewrite Hx|rewrite Hy; cbn; by f_equal].
Qed.
End BTree.

(** Arrays are compared from their first element on. *)
Fixpoint array_le (a b : list Z) : bool :=
  match a, b with
  | [], _ => true
  | _, [] => false
  | x :: a, y :: b => if (x =? y)%Z then array_le a b else (x <? y)%Z
  end.

(** ** Sequences of rows *)
Definition chain {A} (R : A -> A -> Prop) (l : list A) : Prop := forall i x y, l !! i = Some x -> l !! S i = Some y -> R x y.

Section Chain.
Context {A : Type} (R : A -> A -> Prop).

Lemma chain_nil : chain R [].
Proof. by intros i x y H. Qed.
Lemma chain_cons x l : chain R l -> (forall y, head l = Some y -> R x y) -> chain R (x :: l).
Proof. intros H Hx [|i] a b Ha Hb; cbn in *; [simplify_eq; apply Hx; by rewrite head_lookup|by apply (H i)]. Qed.
Lemma chain_app l l' : chain R l -> chain R l' -> (forall x y, last l = Some x -> head l' = Some y -> R x y) -> chain R (l ++ l').
Proof.
  intros H H' Hx i a b Ha Hb. destruct (decide (S i < length l)) as [Hi|Hi].
  - rewrite lookup_app_l in Ha by lia. rewrite lookup_app_l in Hb by lia. by apply (H i).
  - rewrite lookup_app_r in Hb by lia. destruct (decide (S i = length l)) as [E|].
    + rewrite lookup_app_l in Ha by lia. rewrite <-E, Nat.sub_diag in Hb. apply Hx; [|by rewrite head_lookup].
      rewrite last_lookup, <-E. done.
    + rewrite lookup_app_r in Ha by lia. apply (H' (i - length l)); [done|]. by replace (S (i - length l)) with (S i - length l) by lia.
Qed.
Lemma chain_snoc l x : chain R l -> (forall y, last l = Some y -> R y x) -> chain R (l ++ [x]).
Proof. intros H Hx. apply chain_app; [done|by intros [|i] ? ? ? ?|]. intros a b Ha [= <-]. by apply Hx. Qed.
Lemma chain_take l n : chain R l -> chain R (take n l).
Proof. intros H i a b Ha Hb. apply lookup_take_Some in Ha as [Ha _], Hb as [Hb _]. by apply (H i). Qed.
Lemma chain_drop l n : chain R l -> chain R (drop n l).
Proof. intros H i a b. rewrite !lookup_drop. intros Ha Hb. apply (H (n + i)); [done|]. by replace (S (n + i)) with (n + S i) by lia. Qed.
Lemma chain_replicate n x : R x x -> chain R (replicate n x).
Proof. intros H i a b Ha Hb. apply lookup_replicate in Ha as [-> _], Hb as [-> _]. done. Qed.
End Chain.
Lemma chain_fmap {A B} (f : A -> B) (R : A -> A -> Prop) (R' : B -> B -> Prop) l : (forall x y, R x y -> R' (f x) (f y)) -> chain R l -> chain R' (f <$> l).
Proof. intros Hf H i a b. rewrite !list_lookup_fmap_Some. intros (x & -> & Hx) (y & -> & Hy). apply Hf. by apply (H i). Qed.

Lemma chain_bind {A B} (f : A -> list B) (R : B -> B -> Prop) l : (forall x, x ∈ l -> chain R (f x) /\ f x <> []) ->
  (forall i x y a b, l !! i = Some x -> l !! S i = Some y -> a ∈ f x -> head (f y) = Some b -> R a b) -> chain R (l ≫= f).
Proof.
  induction l as [|x l IH]; intros Hin Hadj; [apply chain_nil|]. cbn [mbind list_bind]. apply chain_app.
  - apply Hin. left.
  - apply IH; [intros y Hy; apply Hin; by right|]. intros i y z a b Hy Hz. by apply (Hadj (S i) y z).
  - intros a b Ha Hb. destruct l as [|y l]; [done|]. apply (Hadj 0 x y); [done..|by apply last_Some_elem_of|].
    destruct (Hin y ltac:(right; left)) as [_ Hy]. cbn in Hb. by destruct (f y).
Qed.
Lemma head_bind {A B} (f : A -> list B) l b : (forall x, x ∈ l -> f x <> []) -> head (l ≫= f) = Some b -> exists x, head l = Some x /\ head (f x) = Some b.
Proof. intros Hne H. destruct l as [|x l]; [done|]. exists x. split; [done|]. specialize (Hne x ltac:(left)). cbn in H. by destruct (f x). Qed.

(** ** What a row shows *)
Section Shows.
Context {F : Felt}.
Add Ring felt_ring_tables : felt_ring_theory.

(** The columns from [first] on hold the values. *)
Definition shows (l : row) (first : nat) (vals : list felt) : Prop := forall j v, vals !! j = Some v -> l (ColChiplet (first + j)) = v.

Lemma shows_cons l first v vals : shows l first (v :: vals) <-> l (ColChiplet first) = v /\ shows l (S first) vals.
Proof.
  split.
  - intros H. split; [by rewrite <-(H 0 v eq_refl), Nat.add_0_r|]. intros j w Hj. by rewrite <-(H (S j) w Hj), Nat.add_succ_r.
  - intros [<- H] [|j] w Hj; [by injection Hj as <-; rewrite Nat.add_0_r|]. by rewrite Nat.add_succ_r, <-Nat.add_succ_l, (H j w Hj).
Qed.
Lemma shows_nil l first : shows l first [] <-> True.
Proof. by split; [|intros _ j v Hj]. Qed.

(** Constraints under a gate *)
Lemma when_ok first last l n g cs : satisfied first last l n cs -> satisfied first last l n (when g cs).
Proof.
  intros H. unfold satisfied, when in *. rewrite Forall_fmap. refine (Forall_impl _ _ _ H _). intros c. unfold holds. cbn.
  assert (forall x : felt, x = ZERO -> (eval l n g * x)%F = ZERO) as Hx by (intros x ->; ring). destruct (on c); auto.
Qed.
Lemma when_zero first last l n g cs : eval l n g = ZERO -> satisfied first last l n (when g cs).
Proof.
  intros H. unfold satisfied, when in *. rewrite Forall_fmap. apply Forall_true. intros c. unfold holds. cbn. rewrite H.
  assert (forall x : felt, (ZERO * x)%F = ZERO) as Hx by (intros x; ring). destruct (on c); auto.
Qed.
End Shows.
(** The columns one by one *)
Ltac open_shows H := unfold shows in H; fold (shows) in H; rewrite ?shows_cons, shows_nil in H; destruct_and? H.

(** The equations of a goal on rows of known regions *)
Ltac open_goal :=
  match goal with |- satisfied _ _ _ _ ?cs =>
    let r := eval vm_compute in cs in
    change cs with r; apply satisfied_conj; unfold holds; cbn [foldr on body eval]
  end.

(** ** The bitwise chiplet *)
Module Bitwise.
(** The rows of [Bitwise::trace], whose thirteen columns grow together *)
Abbreviation Bitwise := (list (list felt)).

Section Bitwise.
Context {F : Felt}.
#[local] Open Scope Z_scope.

Definition BITWISE_AND : felt := ZERO.
Definition BITWISE_XOR : felt := ONE.

Definition trace_len (bw : Bitwise) : nat := length bw.

Definition assert_u32 (value : felt) : result Z :=
  if ⟦value⟧ <? 2 ^ 32 then Ok ⟦value⟧ else Err (OperationErr (NotU32Values [value])).

(** [add_bitwise_trace_row], with the two columns of the output *)
Definition bitwise_trace_row (selector : felt) (a b prev_output output : Z) : list felt :=
  [selector; new_unchecked a; new_unchecked b;
   new_unchecked (Z.land a 1); new_unchecked (Z.land (Z.shiftr a 1) 1); new_unchecked (Z.land (Z.shiftr a 2) 1); new_unchecked (Z.land (Z.shiftr a 3) 1);
   new_unchecked (Z.land b 1); new_unchecked (Z.land (Z.shiftr b 1) 1); new_unchecked (Z.land (Z.shiftr b 2) 1); new_unchecked (Z.land (Z.shiftr b 3) 1);
   new_unchecked prev_output; new_unchecked output].

(** The body of the loop of [u32and] and [u32xor] *)
Definition bitwise_step (selector : felt) (op : Z -> Z -> Z) (a b : Z) (s : Z * Bitwise) (bit_offset : Z) : Z * Bitwise :=
  let '(result, trace) := s in
  let a := Z.shiftr a bit_offset in
  let b := Z.shiftr b bit_offset in
  let result_4_bit := Z.land (op a b) 15 in
  let result' := Z.lor (Z.shiftl result 4) result_4_bit in
  (result', trace ++ [bitwise_trace_row selector a b result result']).
(** [(0..32).step_by(4).rev()] *)
Definition bit_offsets : list Z := [28; 24; 20; 16; 12; 8; 4; 0].

Definition u32and (bw : Bitwise) (a b : felt) : result (felt * Bitwise) :=
  a ← assert_u32 a;
  b ← assert_u32 b;
  let '(result, bw) := foldl (bitwise_step BITWISE_AND Z.land a b) (0, bw) bit_offsets in
  Ok (new_unchecked result, bw).
Definition u32xor (bw : Bitwise) (a b : felt) : result (felt * Bitwise) :=
  a ← assert_u32 a;
  b ← assert_u32 b;
  let '(result, bw) := foldl (bitwise_step BITWISE_XOR Z.lxor a b) (0, bw) bit_offsets in
  Ok (new_unchecked result, bw).

(** *** The rows of one operation *)
Definition selector (x : bool) : felt := if x then BITWISE_XOR else BITWISE_AND.
Definition block_row (x : bool) (a b : Z) (m : nat) : list felt :=
  let A := Z.shiftr a (28 - 4 * Z.of_nat m) in
  let B := Z.shiftr b (28 - 4 * Z.of_nat m) in
  bitwise_trace_row (selector x) A B (bitop x (Z.shiftr A 4) (Z.shiftr B 4)) (bitop x A B).
Definition block (x : bool) (a b : Z) : Bitwise := block_row x a b <$> seq 0 8.

Lemma bitop_shiftr x a b k : 0 <= k -> bitop x (Z.shiftr a k) (Z.shiftr b k) = Z.shiftr (bitop x a b) k.
Proof. intros Hk. apply Z.bits_inj'. intros i Hi. rewrite bitop_spec, !Z.shiftr_spec, bitop_spec by lia. done. Qed.
Lemma append_limb r z : r = Z.shiftr z 4 -> Z.lor (Z.shiftl r 4) (Z.land z 15) = z.
Proof.
  intros ->. apply Z.bits_inj'. intros i Hi. rewrite Z.lor_spec, Z.land_spec. change 15 with (Z.ones 4).
  destruct (Z.ltb_spec i 4).
  - rewrite Z.shiftl_spec_low, Z.ones_spec_low by lia. by rewrite andb_true_r.
  - rewrite Z.shiftl_spec, Z.shiftr_spec, Z.ones_spec_high by lia. rewrite andb_false_r, orb_false_r. f_equal. lia.
Qed.
Lemma step_block x a b m bw : (m < 8)%nat ->
  bitwise_step (selector x) (bitop x) a b (bitop x (Z.shiftr a (32 - 4 * Z.of_nat m)) (Z.shiftr b (32 - 4 * Z.of_nat m)), bw) (28 - 4 * Z.of_nat m) =
  (bitop x (Z.shiftr a (32 - 4 * Z.of_nat (S m))) (Z.shiftr b (32 - 4 * Z.of_nat (S m))), bw ++ [block_row x a b m]).
Proof.
  intros Hm. unfold bitwise_step. rewrite append_limb.
  - replace (32 - 4 * Z.of_nat (S m)) with (28 - 4 * Z.of_nat m) by lia. f_equal. f_equal. f_equal. unfold block_row. f_equal. f_equal;
      rewrite Z.shiftr_shiftr by lia; f_equal; lia.
  - rewrite <-bitop_shiftr, !Z.shiftr_shiftr by lia. repeat f_equal; lia.
Qed.
Lemma shiftr_u32 a : 0 <= a < 2 ^ 32 -> Z.shiftr a 32 = 0.
Proof. intros Ha. rewrite Z.shiftr_div_pow2 by lia. by apply Z.div_small. Qed.
Lemma loop_rows x a b bw k : 0 <= a < 2 ^ 32 -> 0 <= b < 2 ^ 32 -> (k <= 8)%nat ->
  foldl (bitwise_step (selector x) (bitop x) a b) (0, bw) ((fun m => 28 - 4 * Z.of_nat m) <$> seq 0 k) =
  (bitop x (Z.shiftr a (32 - 4 * Z.of_nat k)) (Z.shiftr b (32 - 4 * Z.of_nat k)), bw ++ (block_row x a b <$> seq 0 k)).
Proof.
  intros Ha Hb. induction k as [|k IH]; intros Hk; [change (32 - 4 * Z.of_nat 0) with 32; cbn [seq fmap list_fmap foldl]; by rewrite !shiftr_u32, bitop_0, app_nil_r|].
  rewrite seq_S, !fmap_app, foldl_app, IH by lia. cbn [fmap list_fmap foldl Nat.add]. rewrite step_block, <-app_assoc by lia. done.
Qed.
Lemma loop_block x a b bw : 0 <= a < 2 ^ 32 -> 0 <= b < 2 ^ 32 ->
  foldl (bitwise_step (selector x) (bitop x) a b) (0, bw) bit_offsets = (bitop x a b, bw ++ block x a b).
Proof. intros Ha Hb. exact (loop_rows x a b bw 8 Ha Hb ltac:(lia)). Qed.

(** The result of an operation, and the rows it appends *)
Lemma assert_u32_eq x : assert_u32 x = if bool_decide (⟦x⟧ < 2 ^ 32) then Ok ⟦x⟧ else Err (OperationErr (NotU32Values [x])).
Proof. unfold assert_u32. destruct (Z.ltb_spec ⟦x⟧ (2 ^ 32)); [by rewrite bool_decide_true|by rewrite bool_decide_false by lia]. Qed.
Lemma u32_op_block (op : bool) bw a b : ⟦a⟧ < 2 ^ 32 -> ⟦b⟧ < 2 ^ 32 ->
  (if op then u32xor else u32and) bw a b = Ok (new_unchecked (bitop op ⟦a⟧ ⟦b⟧), bw ++ block op ⟦a⟧ ⟦b⟧).
Proof.
  intros Ha Hb. felt_ranges. destruct op; [unfold u32xor|unfold u32and]; rewrite !assert_u32_eq, !bool_decide_true by done; cbn [mbind outcome_bind].
  - rewrite (loop_block true) by lia. done.
  - rewrite (loop_block false) by lia. done.
Qed.
Lemma u32_op_error (op : bool) bw a b : ~ (⟦a⟧ < 2 ^ 32 /\ ⟦b⟧ < 2 ^ 32) ->
  (if op then u32xor else u32and) bw a b = Err (OperationErr (NotU32Values [if bool_decide (⟦a⟧ < 2 ^ 32) then b else a])).
Proof.
  intros Hn. destruct op; [unfold u32xor|unfold u32and]; rewrite !assert_u32_eq;
    (destruct (bool_decide_reflect (⟦a⟧ < 2 ^ 32)); [|done]); cbn [mbind outcome_bind]; (rewrite bool_decide_false; [done|tauto]).
Qed.

(** *** The constraints *)
(** The four low bits of an integer *)
Lemma nib_bits z : z = Z.shiftr z 4 * 16 + nib (Z.testbit z 0) (Z.testbit z 1) (Z.testbit z 2) (Z.testbit z 3).
Proof.
  assert (forall y, y = 2 * Z.shiftr y 1 + Z.b2z (Z.testbit y 0)) as Hd.
  { intros y. rewrite Z.shiftr_div_pow2, Z.bit0_mod by lia. change (2 ^ 1) with 2. apply Z.div_mod. done. }
  pose proof (Hd z) as H0. pose proof (Hd (Z.shiftr z 1)) as H1. pose proof (Hd (Z.shiftr z 2)) as H2. pose proof (Hd (Z.shiftr z 3)) as H3.
  rewrite Z.shiftr_shiftr, Z.shiftr_spec in H1, H2, H3 by lia. change (1 + 1) with 2 in H1. change (2 + 1) with 3 in H2. change (3 + 1) with 4 in H3. rewrite Z.add_0_l in *. unfold nib. lia.
Qed.
Lemma low_bit z k : 0 <= k -> new_unchecked (Z.land (Z.shiftr z k) 1) = felt_bit (Z.testbit z k).
Proof.
  intros Hk. change 1 with (Z.ones 1) at 1. rewrite Z.land_ones by lia. change (2 ^ 1) with 2.
  rewrite <-Z.bit0_mod, Z.shiftr_spec, Z.add_0_l by lia. destruct (Z.testbit z k); [apply new_unchecked_1|apply new_unchecked_0].
Qed.
Lemma op_selector_bit x : selector x = felt_bit x.
Proof. by destruct x. Qed.
End Bitwise.

Section Complete.
Context {F : Felt} {P : HasherParams}.
Add Ring felt_ring_bitwise_trace : felt_ring_theory.
Import AirBitwise.

(** The row shows one step of an operation on the operands' leading limbs [A] and [B]. *)
Definition shows_bits (l : row) (x : bool) (A B : Z) : Prop :=
  shows l 2 (bitwise_trace_row (selector x) A B (bitop x (Z.shiftr A 4) (Z.shiftr B 4)) (bitop x A B)).

Lemma bitop_range x a b : (0 <= a < 2 ^ 32)%Z -> (0 <= b < 2 ^ 32)%Z -> (0 <= bitop x a b < 2 ^ 32)%Z.
Proof.
  intros Ha Hb. split; [destruct x; [apply Z.lxor_nonneg|apply Z.land_nonneg]; lia|]. apply Z.lt_nge. intros Hge.
  pose proof (bitop_shiftr x a b 32 ltac:(lia)) as H. rewrite !shiftr_u32, bitop_0, Z.shiftr_div_pow2 in H by lia.
  pose proof (Z.div_le_lower_bound (bitop x a b) (2 ^ 32) 1 ltac:(lia) ltac:(lia)). lia.
Qed.
Lemma shiftr_range a k : (0 <= k)%Z -> (0 <= a < 2 ^ 32)%Z -> (0 <= Z.shiftr a k < 2 ^ 32)%Z.
Proof.
  intros Hk Ha. rewrite Z.shiftr_div_pow2 by lia. pose proof (Z.pow_pos_nonneg 2 k ltac:(lia) Hk). split; [apply Z.div_pos; lia|].
  apply Z.le_lt_trans with a; [|lia]. apply Z.div_le_upper_bound; nia.
Qed.

(** The columns of such a row *)
Lemma shows_bits_columns l x A B : (0 <= A < 2 ^ 32)%Z -> (0 <= B < 2 ^ 32)%Z -> shows_bits l x A B ->
  l (ColChiplet 2) = felt_bit x /\ l (ColChiplet 3) = of_Z A /\ l (ColChiplet 4) = of_Z B /\
  (l (ColChiplet 5) = felt_bit (Z.testbit A 0) /\ l (ColChiplet 6) = felt_bit (Z.testbit A 1) /\
   l (ColChiplet 7) = felt_bit (Z.testbit A 2) /\ l (ColChiplet 8) = felt_bit (Z.testbit A 3)) /\
  (l (ColChiplet 9) = felt_bit (Z.testbit B 0) /\ l (ColChiplet 10) = felt_bit (Z.testbit B 1) /\
   l (ColChiplet 11) = felt_bit (Z.testbit B 2) /\ l (ColChiplet 12) = felt_bit (Z.testbit B 3)) /\
  l (ColChiplet 13) = of_Z (bitop x (Z.shiftr A 4) (Z.shiftr B 4)) /\ l (ColChiplet 14) = of_Z (bitop x A B).
Proof.
  intros HA HB H. unfold shows_bits, bitwise_trace_row in H. rewrite !shows_cons in H. destruct_and! H.
  pose proof (bitop_range x A B HA HB). pose proof (bitop_range x _ _ (shiftr_range A 4 ltac:(lia) HA) (shiftr_range B 4 ltac:(lia) HB)).
  rewrite !of_Z_small by (unfold modulus; lia). rewrite <-(low_bit A 0), <-(low_bit B 0), !Z.shiftr_0_r by lia. rewrite <-!low_bit, <-op_selector_bit by lia.
  split_and!; assumption.
Qed.
(** The limb appended to an integer, and the operation on it *)
Lemma limb_felt A : of_Z A = (of_Z (Z.shiftr A 4) * of_Z 16 + of_Z (nib (Z.testbit A 0) (Z.testbit A 1) (Z.testbit A 2) (Z.testbit A 3)))%F.
Proof. rewrite (nib_bits A) at 1. by rewrite of_Z_add, of_Z_mul. Qed.
Lemma limb_op x A B : of_Z (bitop x A B) = (of_Z (bitop x (Z.shiftr A 4) (Z.shiftr B 4)) * of_Z 16 +
  of_Z (nib (bitf x (Z.testbit A 0) (Z.testbit B 0)) (bitf x (Z.testbit A 1) (Z.testbit B 1)) (bitf x (Z.testbit A 2) (Z.testbit B 2)) (bitf x (Z.testbit A 3) (Z.testbit B 3))))%F.
Proof. rewrite (nib_bits A) at 1. rewrite (nib_bits B) at 1. rewrite bitop_nib. by rewrite of_Z_add, of_Z_mul. Qed.
Lemma bit_square b : (felt_bit b * (felt_bit b - new_unchecked 1))%F = ZERO.
Proof. rewrite new_unchecked_1. destruct b; cbn; ring. Qed.

Lemma bitwise_row_ok first last l n x A B kf kt : in_region l RBitwise -> (0 <= A < 2 ^ 32)%Z -> (0 <= B < 2 ^ 32)%Z -> shows_bits l x A B ->
  l (ColPeriodic 16) = felt_bit kf -> l (ColPeriodic 17) = felt_bit kt ->
  (kf = true -> Z.shiftr A 4 = 0%Z /\ Z.shiftr B 4 = 0%Z) ->
  (kt = true -> exists A' B', (0 <= A' < 2 ^ 32)%Z /\ (0 <= B' < 2 ^ 32)%Z /\ Z.shiftr A' 4 = A /\ Z.shiftr B' 4 = B /\ shows_bits n x A' B') ->
  satisfied first last l n enforce_bitwise_constraints.
Proof.
  intros Hr HA HB Hl Ek Ek' Hkf Hkt. apply (residual_satisfied _ _ _ _ _ _ Hr). open_goal.
  destruct (shows_bits_columns l x A B HA HB Hl) as (E2 & E3 & E4 & (E5 & E6 & E7 & E8) & (E9 & E10 & E11 & E12) & E13 & E14).
  rewrite E2, E3, E4, E5, E6, E7, E8, E9, E10, E11, E12, E13, E14, Ek, Ek'. rewrite <-(of_Z_small 16) by (unfold modulus; lia).
  assert (forall y : felt, (ZERO * y)%F = ZERO) as Hz by (intros; ring). assert (forall y : felt, (y - y)%F = ZERO) as Hd by (intros; ring).
  split_and!; try apply bit_square; try done.
  - destruct kt; cbn [felt_bit]; [|apply Hz]. destruct (Hkt eq_refl) as (A' & B' & HA' & HB' & _ & _ & Hn).
    destruct (shows_bits_columns n x A' B' HA' HB' Hn) as (-> & _). ring.
  - destruct kf; cbn [felt_bit]; [|apply Hz]. rewrite !felt_bit_of_Z, !horner_nib, (limb_felt A), (proj1 (Hkf eq_refl)), of_Z_0. ring.
  - destruct kf; cbn [felt_bit]; [|apply Hz]. rewrite !felt_bit_of_Z, !horner_nib, (limb_felt B), (proj2 (Hkf eq_refl)), of_Z_0. ring.
  - destruct kf; cbn [felt_bit]; [|apply Hz]. destruct (Hkf eq_refl) as [-> ->]. rewrite bitop_0, of_Z_0. ring.
  - destruct kt; cbn [felt_bit]; [|apply Hz]. destruct (Hkt eq_refl) as (A' & B' & HA' & HB' & <- & _ & Hn).
    destruct (shows_bits_columns n x A' B' HA' HB' Hn) as (_ & -> & _ & (-> & -> & -> & ->) & _). rewrite !felt_bit_of_Z, !horner_nib, (limb_felt A'). ring.
  - destruct kt; cbn [felt_bit]; [|apply Hz]. destruct (Hkt eq_refl) as (A' & B' & HA' & HB' & _ & <- & Hn).
    destruct (shows_bits_columns n x A' B' HA' HB' Hn) as (_ & _ & -> & _ & (-> & -> & -> & ->) & _). rewrite !felt_bit_of_Z, !horner_nib, (limb_felt B'). ring.
  - destruct kt; cbn [felt_bit]; [|apply Hz]. destruct (Hkt eq_refl) as (A' & B' & HA' & HB' & <- & <- & Hn).
    destruct (shows_bits_columns n x A' B' HA' HB' Hn) as (_ & _ & _ & _ & _ & -> & _). ring.
  - rewrite !xor_bit, !and_bit, !horner_nib, (limb_op x A B). destruct x; cbn [felt_bit]; ring.
Qed.
(** *** The table is a sequence of blocks. *)
Definition blocks_of (ops : list (bool * Z * Z)) : Bitwise := ops ≫= (fun '(x, a, b) => block x a b).
Definition bitwise_wf (bw : Bitwise) : Prop := exists ops, bw = blocks_of ops /\
  Forall (fun '(x, a, b) => (0 <= a < 2 ^ 32)%Z /\ (0 <= b < 2 ^ 32)%Z) ops.

Lemma blocks_cons x a b ops : blocks_of ((x, a, b) :: ops) = block x a b ++ blocks_of ops.
Proof. done. Qed.
Lemma blocks_lookup ops k : blocks_of ops !! k = ops !! (k / 8) ≫= (fun '(x, a, b) => Some (block_row x a b (k mod 8))).
Proof.
  revert k. induction ops as [|[[x a] b] ops IH]; intros k; [done|]. rewrite blocks_cons.
  destruct (decide (k < 8)) as [Hk|Hk].
  - rewrite lookup_app_l by done. rewrite Nat.div_small, Nat.mod_small by done. unfold block. rewrite list_lookup_fmap, lookup_seq_lt by done. done.
  - rewrite lookup_app_r, IH; change (length (block x a b)) with 8; [|lia]. replace (k / 8) with (S ((k - 8) / 8)).
    + replace (k mod 8) with ((k - 8) mod 8); [done|]. replace k with (k - 8 + 1 * 8) at 2 by lia. by rewrite Nat.Div0.mod_add.
    + replace k with (k - 8 + 1 * 8) at 2 by lia. rewrite Nat.div_add by lia. lia.
Qed.
Lemma blocks_length ops : length (blocks_of ops) = 8 * length ops.
Proof. induction ops as [|[[x a] b] ops IH]; [done|]. rewrite blocks_cons, length_app, IH. change (length (block x a b)) with 8. cbn [length]. lia. Qed.

Lemma u32_op_wf (op : bool) bw a b r bw' : bitwise_wf bw -> (if op then u32xor else u32and) bw a b = Ok (r, bw') -> bitwise_wf bw'.
Proof.
  intros (ops & -> & Hops) H. destruct (decide ((⟦a⟧ < 2 ^ 32)%Z /\ (⟦b⟧ < 2 ^ 32)%Z)) as [[Ha Hb]|Hn].
  - rewrite u32_op_block in H by done. injection H as _ <-. exists (ops ++ [(op, ⟦a⟧%Z, ⟦b⟧%Z)]). felt_ranges. split.
    + unfold blocks_of. rewrite bind_app. cbn [mbind list_bind]. by rewrite app_nil_r.
    + apply Forall_app. split; [done|]. repeat constructor; lia.
  - by rewrite u32_op_error in H.
Qed.

Lemma periodic_bits N (t : trace) i : supplied N t -> i < N -> t i (ColPeriodic 16) = felt_bit (i mod 8 =? 0) /\ t i (ColPeriodic 17) = felt_bit (negb (i mod 8 =? 7)).
Proof.
  intros [_ H] Hi. rewrite !H, k_first_value, k_transition_value by lia.
  split; [destruct (i mod 8 =? 0)|destruct (i mod 8 =? 7)]; first [apply new_unchecked_1|apply new_unchecked_0].
Qed.

(** A table that starts on a cycle boundary satisfies the constraints. *)
Lemma bitwise_rows_ok bw N (t : trace) s i first last n : bitwise_wf bw -> supplied N t -> s mod 8 = 0 -> s <= i < s + length bw -> i < N ->
  in_region (t i) RBitwise -> (forall k r, bw !! k = Some r -> shows (t (s + k)) 2 r) -> (S i < s + length bw -> n = t (S i)) ->
  satisfied first last (t i) n enforce_bitwise_constraints.
Proof.
  intros (ops & -> & Hops) Hsup Hs Hi HiN Hr Hrows Hn. destruct (periodic_bits N t i Hsup HiN) as [Ek Ek'].
  set (k := i - s). assert (i = s + k) as Eik by lia. rewrite blocks_length in *.
  assert (i mod 8 = k mod 8) as Em by (rewrite Eik, Nat.Div0.add_mod, Hs, Nat.add_0_l, Nat.Div0.mod_mod; done).
  pose proof (Nat.mod_upper_bound k 8 ltac:(lia)) as Hm. pose proof (Nat.div_mod k 8 ltac:(lia)) as Hdm.
  destruct (lookup_lt_is_Some_2 ops (k / 8)) as [[[x a] b] Hop]; [apply Nat.Div0.div_lt_upper_bound; lia|].
  pose proof (proj1 (Forall_lookup _ _) Hops _ _ Hop) as [Ha Hb]. cbn beta iota in Ha, Hb.
  pose proof (Hrows k _ ltac:(rewrite blocks_lookup, Hop; reflexivity)) as Hrow. rewrite <-Eik in Hrow.
  eapply (bitwise_row_ok _ _ _ _ x (Z.shiftr a (28 - 4 * Z.of_nat (k mod 8))) (Z.shiftr b (28 - 4 * Z.of_nat (k mod 8))) _ _ Hr); [apply shiftr_range; lia..|exact Hrow|exact Ek|exact Ek'| |].
  - intros H0. apply Nat.eqb_eq in H0. rewrite Em in H0. rewrite H0, !Z.shiftr_shiftr by lia. change (28 - 4 * Z.of_nat 0 + 4)%Z with 32%Z. by rewrite !shiftr_u32.
  - intros H7. apply negb_true_iff, Nat.eqb_neq in H7. rewrite Em in H7.
    assert (S k = S (k mod 8) + k / 8 * 8) as Esk by lia.
    assert (S k / 8 = k / 8 /\ S k mod 8 = S (k mod 8)) as [Ed Emod].
    { split; rewrite Esk; [rewrite Nat.div_add, Nat.div_small by lia; lia|rewrite Nat.Div0.mod_add, Nat.mod_small by lia; lia]. }
    assert (k / 8 < length ops) as Hlt by (by eapply lookup_lt_Some).
    exists (Z.shiftr a (28 - 4 * Z.of_nat (S (k mod 8)))), (Z.shiftr b (28 - 4 * Z.of_nat (S (k mod 8)))).
    rewrite !Z.shiftr_shiftr by lia. split_and!; [apply shiftr_range; lia..|f_equal; lia|f_equal; lia|].
    rewrite Hn by lia. replace (S i) with (s + S k) by lia. apply Hrows. rewrite blocks_lookup, Ed, Hop, Emod. reflexivity.
Qed.
End Complete.
End Bitwise.

(** ** The kernel ROM *)
(** The conversion of a digest to 32 bytes, of the [miden-crypto] package: distinct digests have distinct bytes. *)
Class WordBytes `{F : Felt} := {
  word_bytes : Word -> list Z;
  #[global] word_bytes_inj :: Inj (=) (=) word_bytes;
}.

Module KernelRom.
Section KernelRom.
Context {F : Felt} {B : WordBytes}.

Record ProcAccessInfo := mkProcAccessInfo { proc_hash : Word; num_accesses : nat }.
Record KernelRom := mkKernelRom { access_map : gmap (list Z) ProcAccessInfo; kernel : list Word; rom_trace_len : nat }.

(** [KernelRom::new]; a [Kernel] is its list of procedure digests *)
Definition kernel_rom_new (kernel : list Word) : KernelRom :=
  mkKernelRom (foldl (fun m proc_hash => <[word_bytes proc_hash := mkProcAccessInfo proc_hash 0]> m) ∅ kernel) kernel (length kernel).

Definition access_proc (rom : KernelRom) (proc_root : Word) : result KernelRom :=
  match access_map rom !! word_bytes proc_root with
  | None => Err (OperationErr (SyscallTargetNotInKernel proc_root))
  | Some info =>
    Ok (mkKernelRom (<[word_bytes proc_root := mkProcAccessInfo (proc_hash info) (S (num_accesses info))]> (access_map rom))
          (kernel rom) (S (rom_trace_len rom)))
  end.

(** [ProcAccessInfo::write_into_trace] *)
Definition proc_row (info : ProcAccessInfo) (is_first : bool) : list felt :=
  (if is_first then ONE else ZERO) :: word_elements (proc_hash info).
Definition proc_rows (info : ProcAccessInfo) : list (list felt) := proc_row info true :: replicate (num_accesses info) (proc_row info false).
(** The rows [KernelRom::fill_trace] writes *)
Definition kernel_rom_rows (rom : KernelRom) : list (list felt) := btree_entries array_le (access_map rom) ≫= fun '(_, info) => proc_rows info.

(** *** The length of the table *)
Definition rom_wf (rom : KernelRom) : Prop := length (kernel_rom_rows rom) = rom_trace_len rom.

Lemma proc_rows_length info : length (proc_rows info) = S (num_accesses info).
Proof. unfold proc_rows. cbn. by rewrite length_replicate. Qed.
Lemma access_proc_wf rom root rom' : rom_wf rom -> access_proc rom root = Ok rom' -> rom_wf rom'.
Proof.
  unfold rom_wf, access_proc. intros H Ha. destruct (access_map rom !! word_bytes root) as [info|] eqn:E; [|done]. injection Ha as <-.
  unfold kernel_rom_rows in *. cbn [access_map rom_trace_len]. rewrite <-H, btree_bind_insert, (btree_bind_lookup _ _ _ _ _ E), !proc_rows_length. done.
Qed.
(** The constructor of [Kernel] rejects duplicates. *)
Lemma kernel_rom_new_wf kernel : NoDup kernel -> rom_wf (kernel_rom_new kernel).
Proof.
  unfold rom_wf, kernel_rom_rows, kernel_rom_new. cbn [access_map rom_trace_len].
  assert (forall ks m, NoDup ks -> (forall w, w ∈ ks -> m !! word_bytes w = None) ->
    length (btree_entries array_le (foldl (fun m w => <[word_bytes w := mkProcAccessInfo w 0]> m) m ks) ≫= fun '(_, info) => proc_rows info) =
    length ks + length (btree_entries array_le m ≫= fun '(_, info) => proc_rows info)) as H.
  { intros ks. induction ks as [|w ks IH]; intros m Hnd Hm; [done|]. apply NoDup_cons in Hnd as [Hw Hnd]. cbn [foldl length]. rewrite IH; [|done|].
    - rewrite btree_bind_new by (apply Hm; left). rewrite proc_rows_length. cbn [num_accesses]. lia.
    - intros v Hv. rewrite lookup_insert_ne; [apply Hm; by right|]. intros E. apply (inj word_bytes) in E as ->. done. }
  intros Hnd. rewrite H; [|done|by intros; apply lookup_empty]. unfold btree_entries. rewrite map_to_list_empty. cbn. lia.
Qed.

(** *** The constraints *)
Definition rom_step (l n : list felt) : Prop := head n = Some ONE \/ head n = Some ZERO /\ tail n = tail l.
Definition rom_row (l : list felt) : Prop := length l = 5 /\ (head l = Some ONE \/ head l = Some ZERO).

Lemma proc_rows_ok info : chain rom_step (proc_rows info) /\ Forall rom_row (proc_rows info) /\ (head (proc_rows info) ≫= head) = Some ONE.
Proof.
  unfold proc_rows. split_and!; [|constructor|done].
  - apply chain_cons; [apply chain_replicate; by right|]. intros y Hy. right. destruct (num_accesses info); [done|]. by injection Hy as <-.
  - split; [done|by left].
  - apply Forall_replicate. split; [done|by right].
Qed.
Lemma kernel_rom_rows_ok rom : let rows := kernel_rom_rows rom in
  chain rom_step rows /\ Forall rom_row rows /\ (forall r, head rows = Some r -> head r = Some ONE).
Proof.
  cbn zeta. unfold kernel_rom_rows. generalize (btree_entries array_le (access_map rom)). intros infos.
  induction infos as [|[k info] infos (IH1 & IH2 & IH3)]; [split_and!; [apply chain_nil|constructor|done]|].
  destruct (proc_rows_ok info) as (H1 & H2 & H3). change (((k, info) :: infos) ≫= ?f) with (proc_rows info ++ (infos ≫= f)). split_and!.
  - apply chain_app; [done..|]. intros x y _ Hy. left. by apply IH3.
  - by apply Forall_app.
  - intros r Hr. unfold proc_rows in *. cbn in Hr. by injection Hr as <-.
Qed.
End KernelRom.

Section Complete.
Context {F : Felt} {P : HasherParams}.
Add Ring felt_ring_rom_trace : felt_ring_theory.
Import AirKernelRom.

(** A row of the region: inside it, at its end, and the row before it *)
Lemma rom_bit l v : shows l 5 v -> rom_row v -> exists b, l (ColChiplet 5) = felt_bit b.
Proof.
  intros Hv [Hlen Hb]. destruct v as [|f v]; [done|]. apply shows_cons in Hv as [-> _].
  cbn in Hb; destruct Hb as [[= ->]|[= ->]]; [by exists true|by exists false].
Qed.
Lemma rom_end_ok first last l n v : in_region l RKernelRom -> in_region n RPadding -> shows l 5 v -> rom_row v ->
  satisfied first last l n enforce_kernel_rom_constraints.
Proof.
  intros Hl Hn Hv Hrow. destruct (rom_bit l v Hv Hrow) as [b Eb]. apply (residual2_satisfied _ _ _ _ _ _ _ Hl Hn). open_goal. rewrite Eb.
  split; [apply Bitwise.bit_square|done].
Qed.
Lemma rom_inner_ok first last l n v v' : in_region l RKernelRom -> in_region n RKernelRom -> shows l 5 v -> shows n 5 v' -> rom_row v -> rom_row v' ->
  rom_step v v' -> satisfied first last l n enforce_kernel_rom_constraints.
Proof.
  intros Hl Hn Hv Hv' Hrow [Hlen' _] Hstep. destruct (rom_bit l v Hv Hrow) as [b Eb]. destruct Hrow as [Hlen _].
  do 5 (destruct v as [|? v]; [done|]; destruct v' as [|? v']; [done|]). destruct v, v'; [|done..].
  rewrite !shows_cons in Hv, Hv'. destruct_and! Hv. destruct_and! Hv'. apply (residual2_satisfied _ _ _ _ _ _ _ Hl Hn). open_goal. rewrite Eb.
  split; [apply Bitwise.bit_square|]. rewrite new_unchecked_1. unfold rom_step in Hstep. cbn in Hstep. destruct Hstep as [[= ->]|([= ->] & [= -> -> -> ->])]; simplify_eq;
    repeat match goal with H : ?x = ?y :> felt |- _ => rewrite H end; split_and!; try done; ring.
Qed.
Lemma rom_first_ok first last l n v' : in_region l RAce -> in_region n RKernelRom -> shows n 5 v' -> head v' = Some ONE ->
  satisfied first last l n enforce_kernel_rom_constraints.
Proof.
  intros Hl Hn Hv' Hh. destruct v' as [|f v']; [done|]. injection Hh as ->. apply shows_cons in Hv' as [E _].
  apply (residual2_satisfied _ _ _ _ _ _ _ Hl Hn). open_goal. rewrite E, new_unchecked_1. split; [ring|done].
Qed.
End Complete.
End KernelRom.
