(* ===== verification/TraceMemory.v ===== *)
(** * Table of the memory chiplet

    [processor/src/trace/chiplets/memory]: every access is recorded with the word after it, by context and word address; the rows are
    written in the order of contexts, addresses and accesses.  The table refines the memory of the processor, and its rows satisfy the
    constraints. *)

From stdpp Require Import sorting.
From S2P Require Import Prelude Field Types Memory Operations Air AirFlags AirStack AirRows AirDecoder AirTrace Chiplets ChipletRegions ChipletMemory TraceTables.
From Stdlib Require Import Ring Field.
Import Air ChipletSelectors.
#[local] Open Scope Z_scope.

Module MemoryTable.
Inductive MemoryOperation := OpRead | OpWrite.
Inductive MemoryAccessType := Element (addr_idx_in_word : Z) | WholeWord.
#[global] Instance memory_operation_eq_dec : EqDecision MemoryOperation.
Proof. solve_decision. Defined.

Record MemorySegmentAccess {F : Felt} := mkAccess {
  access_clk : felt;
  operation : MemoryOperation;
  access_type : MemoryAccessType;
  access_word : Word;
}.
Arguments MemorySegmentAccess : clear implicits.
Arguments MemorySegmentAccess {F}.
Arguments mkAccess {F}.
(** The accesses to each word of a segment *)
Abbreviation MemorySegmentTrace := (gmap Z (list MemorySegmentAccess)).

Section Table.
Context {F : Felt}.
Definition INIT_MEM_VALUE : Word := EMPTY_WORD.

(** ** A segment: [segment.rs] *)
Definition addr_to_word_addr_and_idx (addr : Z) : Z * Z := let idx := addr mod Z.of_nat WORD_SIZE in (addr - idx, idx).

Definition segment_get_value (seg : MemorySegmentTrace) (addr : Z) : option felt :=
  let '(word_addr, addr_idx_in_word) := addr_to_word_addr_and_idx addr in
  addr_trace ← seg !! word_addr;
  access ← last addr_trace;
  word_get (access_word access) (Z.to_nat addr_idx_in_word).
Definition segment_get_word (seg : MemorySegmentTrace) (addr : Z) : outcome unit (option Word) :=
  if negb (addr mod Z.of_nat WORD_SIZE =? 0) then Err ()
  else
    let '(word_addr, _) := addr_to_word_addr_and_idx addr in
    Ok (addr_trace ← seg !! word_addr; access_word <$> last addr_trace).

Definition read_word_helper (seg : MemorySegmentTrace) (ctx : Z) (word_addr : Z) (clk : felt) (ty : MemoryAccessType) :
    result (Word * MemorySegmentTrace) :=
  match seg !! word_addr with
  | None => Ok (INIT_MEM_VALUE, <[word_addr := [mkAccess clk OpRead ty INIT_MEM_VALUE]]> seg)
  | Some addr_trace =>
    last_access ← or_panic (last addr_trace);
    if bool_decide (access_clk last_access = clk) && bool_decide (operation last_access = OpWrite)
    then Err (MemoryErr (IllegalMemoryAccess ctx word_addr ⟦clk⟧))
    else
      let last_word := access_word last_access in
      Ok (last_word, <[word_addr := addr_trace ++ [mkAccess clk OpRead ty last_word]]> seg)
  end.
Definition segment_read (seg : MemorySegmentTrace) (ctx : Z) (addr : Z) (clk : felt) : result (felt * MemorySegmentTrace) :=
  let '(word_addr, addr_idx_in_word) := addr_to_word_addr_and_idx addr in
  '(word, seg) ← read_word_helper seg ctx word_addr clk (Element addr_idx_in_word);
  v ← or_panic (word_get word (Z.to_nat addr_idx_in_word));
  Ok (v, seg).
Definition segment_read_word (seg : MemorySegmentTrace) (ctx : Z) (word_addr : Z) (clk : felt) : result (Word * MemorySegmentTrace) :=
  let '(word_addr, _) := addr_to_word_addr_and_idx word_addr in
  read_word_helper seg ctx word_addr clk WholeWord.
Definition segment_write (seg : MemorySegmentTrace) (ctx : Z) (addr : Z) (clk : felt) (value : felt) : result MemorySegmentTrace :=
  let '(word_addr, addr_idx_in_word) := addr_to_word_addr_and_idx addr in
  match seg !! word_addr with
  | None =>
    let word := word_set EMPTY_WORD (Z.to_nat addr_idx_in_word) value in
    Ok (<[word_addr := [mkAccess clk OpWrite (Element addr_idx_in_word) word]]> seg)
  | Some addr_trace =>
    last_access ← or_panic (last addr_trace);
    if bool_decide (access_clk last_access = clk) then Err (MemoryErr (IllegalMemoryAccess ctx addr ⟦clk⟧))
    else
      let word := word_set (access_word last_access) (Z.to_nat addr_idx_in_word) value in
      Ok (<[word_addr := addr_trace ++ [mkAccess clk OpWrite (Element addr_idx_in_word) word]]> seg)
  end.
Definition segment_write_word (seg : MemorySegmentTrace) (ctx : Z) (addr : Z) (clk : felt) (word : Word) : result MemorySegmentTrace :=
  let '(word_addr, _) := addr_to_word_addr_and_idx addr in
  let access := mkAccess clk OpWrite WholeWord word in
  match seg !! word_addr with
  | None => Ok (<[word_addr := [access]]> seg)
  | Some addr_trace =>
    last_access ← or_panic (last addr_trace);
    if bool_decide (access_clk last_access = clk) then Err (MemoryErr (IllegalMemoryAccess ctx addr ⟦clk⟧))
    else Ok (<[word_addr := addr_trace ++ [access]]> seg)
  end.

(** ** All segments: [mod.rs] *)
Record MemoryTrace := mkMemory { segments : gmap Z MemorySegmentTrace; num_trace_rows : nat }.
Definition memory_default : MemoryTrace := mkMemory ∅ 0.

Definition get_value (m : MemoryTrace) (ctx : Z) (addr : Z) : option felt :=
  segment ← segments m !! ctx; segment_get_value segment addr.
Definition get_word (m : MemoryTrace) (ctx : Z) (addr : Z) : result (option Word) :=
  match segments m !! ctx with
  | Some segment => map_err (fun _ => MemoryErr (UnalignedWordAccess addr ctx)) (segment_get_word segment addr)
  | None => Ok None
  end.

(** [self.trace.entry(ctx).or_default()] *)
Definition segment_of (m : MemoryTrace) (ctx : Z) : MemorySegmentTrace := default ∅ (segments m !! ctx).
(** One more row, with the updated segment *)
Definition record_access (m : MemoryTrace) (ctx : Z) (seg : MemorySegmentTrace) : MemoryTrace :=
  mkMemory (<[ctx := seg]> (segments m)) (S (num_trace_rows m)).
Definition u32_addr (addr : felt) : result Z := if ⟦addr⟧ <? 2 ^ 32 then Ok ⟦addr⟧ else Err (MemoryErr (AddressOutOfBounds ⟦addr⟧)).
Definition check_aligned (ctx : Z) (addr : Z) : result unit :=
  guard_err (addr mod Z.of_nat WORD_SIZE =? 0) (MemoryErr (UnalignedWordAccess addr ctx)).

(** Clocks are [u32] values. *)
Definition read (m : MemoryTrace) (ctx : Z) (addr : felt) (clk : Z) : result (felt * MemoryTrace) :=
  addr ← u32_addr addr;
  '(v, seg) ← segment_read (segment_of m ctx) ctx addr (from_u32 clk);
  Ok (v, record_access m ctx seg).
Definition read_word (m : MemoryTrace) (ctx : Z) (addr : felt) (clk : Z) : result (Word * MemoryTrace) :=
  addr ← u32_addr addr;
  _ ← check_aligned ctx addr;
  '(w, seg) ← segment_read_word (segment_of m ctx) ctx addr (from_u32 clk);
  Ok (w, record_access m ctx seg).
Definition write (m : MemoryTrace) (ctx : Z) (addr : felt) (clk : Z) (value : felt) : result MemoryTrace :=
  addr ← u32_addr addr;
  seg ← segment_write (segment_of m ctx) ctx addr (from_u32 clk) value;
  Ok (record_access m ctx seg).
Definition write_word (m : MemoryTrace) (ctx : Z) (addr : felt) (clk : Z) (value : Word) : result MemoryTrace :=
  addr ← u32_addr addr;
  _ ← check_aligned ctx addr;
  seg ← segment_write_word (segment_of m ctx) ctx addr (from_u32 clk) value;
  Ok (record_access m ctx seg).

(** ** Rows *)
(** [split_element_u32_into_u16] of [trace/utils.rs] *)
Definition split_element_u32_into_u16 (value : felt) : felt * felt :=
  let '(hi, lo) := split_u32_into_u16 ⟦value⟧ in (new_unchecked hi, new_unchecked lo).

(** The accesses in the order of the nested loops *)
Definition addr_accesses (ctx : Z) (x : Z * list MemorySegmentAccess) : list (Z * Z * MemorySegmentAccess) :=
  (fun memory_access => (ctx, x.1, memory_access)) <$> x.2.
Definition segment_accesses (x : Z * MemorySegmentTrace) : list (Z * Z * MemorySegmentAccess) := btree_entries Z.leb x.2 ≫= addr_accesses x.1.
Definition accesses (m : MemoryTrace) : list (Z * Z * MemorySegmentAccess) := btree_entries Z.leb (segments m) ≫= segment_accesses.

(** [get_first_row_info] *)
Definition get_first_row_info (m : MemoryTrace) : result (option (Z * Z * felt)) :=
  match btree_entries Z.leb (segments m) with
  | [] => Ok None
  | (ctx, segment) :: _ =>
    '(addr, addr_trace) ← or_panic (head (btree_entries Z.leb segment));
    access ← or_panic (head addr_trace);
    Ok (Some (ctx, addr, access_clk access))
  end.

Definition index_bits (ty : MemoryAccessType) : result (felt * (felt * felt)) :=
  match ty with
  | Element 0 => Ok (ZERO, (ZERO, ZERO))
  | Element 1 => Ok (ZERO, (ZERO, ONE))
  | Element 2 => Ok (ZERO, (ONE, ZERO))
  | Element 3 => Ok (ZERO, (ONE, ONE))
  | Element _ => Panic
  | WholeWord => Ok (ONE, (ZERO, ZERO))
  end.
Definition row_delta (prev_ctx prev_addr prev_clk ctx addr clk : felt) : felt :=
  if bool_decide (prev_ctx <> ctx) then (ctx - prev_ctx)%F
  else if bool_decide (prev_addr <> addr) then (addr - prev_addr)%F
  else (clk - prev_clk)%F.

(** The body of the loops of [fill_trace]: the values of the previous access, and the rows so far *)
Definition fill_row (s : felt * felt * felt * list (list felt)) (x : Z * Z * MemorySegmentAccess) : result (felt * felt * felt * list (list felt)) :=
  let '(prev_ctx, prev_addr, prev_clk, rows) := s in
  let '(ctx, addr, memory_access) := x in
  let ctx := from_u32 ctx in
  let felt_addr := from_u32 addr in
  let clk := access_clk memory_access in
  let is_read := match operation memory_access with OpRead => ONE | OpWrite => ZERO end in
  '(is_word, (idx1, idx0)) ← index_bits (access_type memory_access);
  let delta := row_delta prev_ctx prev_addr prev_clk ctx felt_addr clk in
  let '(delta_hi, delta_lo) := split_element_u32_into_u16 delta in
  let same := if bool_decide (prev_ctx = ctx) && bool_decide (prev_addr = felt_addr) then ONE else ZERO in
  let word_index := addr / Z.of_nat WORD_SIZE in
  let row := [is_read; is_word; ctx; felt_addr; idx0; idx1; clk] ++ word_elements (access_word memory_access) ++
    [delta_lo; delta_hi; inverse_or_zero delta; same; new_unchecked (Z.land word_index 65535); new_unchecked (Z.land (Z.shiftr word_index 16) 65535)] in
  Ok (ctx, felt_addr, clk, rows ++ [row]).
Definition memory_rows (m : MemoryTrace) : result (list (list felt)) :=
  first ← get_first_row_info m;
  match first with
  | None => Ok []
  | Some (ctx, addr, clk) =>
    '(_, _, _, rows) ← for_each (accesses m) fill_row (from_u32 ctx, from_u32 addr, (clk - ONE)%F, []);
    Ok rows
  end.

(** ** One access: the match of [initialize_chiplets] in [trace/parallel/mod.rs] *)
Inductive MemoryAccess :=
  | ReadElement (addr : felt) (ctx : Z) (clk : Z)
  | WriteElement (addr element : felt) (ctx : Z) (clk : Z)
  | ReadWord (addr : felt) (ctx : Z) (clk : Z)
  | WriteWord (addr : felt) (word : Word) (ctx : Z) (clk : Z).
Definition clk_of (a : MemoryAccess) : Z :=
  match a with ReadElement _ _ clk | WriteElement _ _ _ clk | ReadWord _ _ clk | WriteWord _ _ _ clk => clk end.
Definition ctx_of (a : MemoryAccess) : Z :=
  match a with ReadElement _ ctx _ | WriteElement _ _ ctx _ | ReadWord _ ctx _ | WriteWord _ _ ctx _ => ctx end.
Definition memory_step (m : MemoryTrace) (mem_access : MemoryAccess) : result MemoryTrace :=
  match mem_access with
  | ReadElement addr ctx clk => snd <$> read m ctx addr clk
  | WriteElement addr element ctx clk => write m ctx addr clk element
  | ReadWord addr ctx clk => snd <$> read_word m ctx addr clk
  | WriteWord addr word ctx clk => write_word m ctx addr clk word
  end.

(** ** Well-formed tables *)
(** The access writes element [j] of the word. *)
Definition written (a : MemorySegmentAccess) (j : nat) : Prop :=
  operation a = OpWrite /\ (access_type a = WholeWord \/ access_type a = Element (Z.of_nat j)).
Definition access_wf (a : MemorySegmentAccess) : Prop :=
  ⟦access_clk a⟧ < 2 ^ 32 /\ match access_type a with Element i => 0 <= i < 4 | WholeWord => True end.
(** The first access to a word, and an access after another one *)
Definition access_first (a : MemorySegmentAccess) : Prop := forall j, (j < 4)%nat -> ~ written a j -> word_get (access_word a) j = Some ZERO.
Definition access_after (p a : MemorySegmentAccess) : Prop :=
  ⟦access_clk p⟧ <= ⟦access_clk a⟧ /\ (access_clk p = access_clk a -> operation p = OpRead /\ operation a = OpRead) /\
  forall j, (j < 4)%nat -> ~ written a j -> word_get (access_word a) j = word_get (access_word p) j.
Definition addr_trace_wf (c : Z) (tr : list MemorySegmentAccess) : Prop :=
  tr <> [] /\ Forall access_wf tr /\ Forall (fun a => ⟦access_clk a⟧ <= c) tr /\ chain access_after tr /\ forall a, head tr = Some a -> access_first a.
Record memory_wf (c : Z) (m : MemoryTrace) : Prop := {
  mw_ctx : forall ctx seg, segments m !! ctx = Some seg -> 0 <= ctx < 2 ^ 32 /\ seg <> ∅;
  mw_addr : forall ctx seg wa tr, segments m !! ctx = Some seg -> seg !! wa = Some tr -> 0 <= wa < 2 ^ 32 /\ addr_trace_wf c tr;
  mw_rows : num_trace_rows m = length (accesses m);
}.

(** An operation appends one access at one word. *)
Definition trace_at (m : MemoryTrace) (ctx wa : Z) : list MemorySegmentAccess := default [] (segment_of m ctx !! wa).
Definition appends (m : MemoryTrace) (ctx wa : Z) (a : MemorySegmentAccess) (m' : MemoryTrace) : Prop :=
  m' = record_access m ctx (<[wa := trace_at m ctx wa ++ [a]]> (segment_of m ctx)).
Definition fits (m : MemoryTrace) (ctx wa : Z) (a : MemorySegmentAccess) : Prop :=
  access_wf a /\ match last (trace_at m ctx wa) with Some p => access_after p a | None => access_first a end.

Lemma aligned_range addr : 0 <= addr < 2 ^ 32 -> 0 <= addr - addr mod Z.of_nat WORD_SIZE < 2 ^ 32 /\ 0 <= addr mod Z.of_nat WORD_SIZE < 4.
Proof.
  intros H. change (Z.of_nat WORD_SIZE) with 4. pose proof (Z.mod_pos_bound addr 4 ltac:(lia)). pose proof (Z.mod_le addr 4 ltac:(lia) ltac:(lia)). lia.
Qed.
Lemma word_get_empty j : (j < 4)%nat -> word_get EMPTY_WORD j = Some ZERO.
Proof. intros Hj. by do 4 (destruct j as [|j]; [done|]); lia. Qed.
Lemma word_get_set_ne w i j v : 0 <= i < 4 -> (j < 4)%nat -> i <> Z.of_nat j -> word_get (word_set w (Z.to_nat i) v) j = word_get w j.
Proof.
  intros Hi Hj Hne. rewrite <-(Nat2Z.id j), word_get_set by lia. by rewrite decide_False.
Qed.

Section Step.
Variables (m : MemoryTrace) (c : Z).
Hypothesis Hwf : memory_wf c m.

Lemma trace_at_wf ctx wa : trace_at m ctx wa = [] /\ segment_of m ctx !! wa = None \/ segment_of m ctx !! wa = Some (trace_at m ctx wa) /\ addr_trace_wf c (trace_at m ctx wa).
Proof using Hwf.
  unfold trace_at, segment_of. destruct (segments m !! ctx) as [seg|] eqn:E; cbn; [|left; by rewrite lookup_empty].
  destruct (seg !! wa) as [tr|] eqn:E'; cbn; [right|by left]. split; [done|]. by apply (mw_addr _ _ Hwf ctx seg wa).
Qed.
Lemma last_clk ctx wa p : last (trace_at m ctx wa) = Some p -> ⟦access_clk p⟧ <= c.
Proof using Hwf.
  intros Hp. destruct (trace_at_wf ctx wa) as [[E _]|[_ (_ & _ & Hc & _)]]; [by rewrite E in Hp|].
  by apply (proj1 (Forall_forall _ _) Hc), last_Some_elem_of.
Qed.

Lemma read_helper_appends ctx wa clk ty w seg : c <= ⟦clk⟧ < 2 ^ 32 -> match ty with Element i => 0 <= i < 4 | WholeWord => True end ->
  read_word_helper (segment_of m ctx) ctx wa clk ty = Ok (w, seg) ->
  let a := mkAccess clk OpRead ty w in seg = <[wa := trace_at m ctx wa ++ [a]]> (segment_of m ctx) /\ fits m ctx wa a /\
    w = default EMPTY_WORD (access_word <$> last (trace_at m ctx wa)).
Proof using Hwf.
  intros Hc Hty H. cbv zeta. unfold read_word_helper in H. unfold fits.
  assert (access_wf (mkAccess clk OpRead ty w)) as Ha by (split; [cbn; lia|done]). destruct (trace_at_wf ctx wa) as [[E E']|[E' Hw]]; rewrite E' in H.
  - rewrite E. injection H as <- <-. split_and!; [done|done| |done]. intros j Hj _. by apply word_get_empty.
  - destruct (last (trace_at m ctx wa)) as [p|] eqn:El; [|by apply last_None in El; destruct Hw]. cbn [or_panic mbind outcome_bind] in H.
    pose proof (last_clk ctx wa p El) as Hp. destruct (bool_decide_reflect (access_clk p = clk)) as [Ec|Ec]; cbn [andb] in H.
    + destruct (bool_decide_reflect (operation p = OpWrite)) as [Eo|Eo]; [done|]. injection H as <- <-. split_and!; [done|done| |done].
      split_and!; [cbn; lia| |done]. intros _. split; [by destruct (operation p)|done].
    + injection H as <- <-. split_and!; [done|done| |done]. split_and!; [cbn; lia| |done]. done.
Qed.

(** The word after a write *)
Definition stored (ty : MemoryAccessType) (w : Word) (w' : Word) : Prop :=
  forall j, (j < 4)%nat -> ty <> WholeWord -> ty <> Element (Z.of_nat j) -> word_get w' j = word_get w j.
Lemma write_fits ctx wa clk ty w : c <= ⟦clk⟧ < 2 ^ 32 -> match ty with Element i => 0 <= i < 4 | WholeWord => True end ->
  (forall p, last (trace_at m ctx wa) = Some p -> access_clk p <> clk) ->
  stored ty (default EMPTY_WORD (access_word <$> last (trace_at m ctx wa))) w -> fits m ctx wa (mkAccess clk OpWrite ty w).
Proof using Hwf.
  intros Hc Hty Hlast Hs. split; [split; [cbn; lia|done]|]. destruct (last (trace_at m ctx wa)) as [p|] eqn:El; cbn in Hs.
  - pose proof (last_clk ctx wa p El). split_and!; [cbn; lia|intros E; by destruct (Hlast p eq_refl)|].
    intros j Hj Hw. apply Hs; [done|..]; intros E; apply Hw; (split; [done|]); [by left|by right].
  - intros j Hj Hw. rewrite <-(word_get_empty j Hj). apply Hs; [done|..]; intros E; apply Hw; (split; [done|]); [by left|by right].
Qed.
Lemma write_appends ctx addr clk value seg : c <= ⟦clk⟧ < 2 ^ 32 -> 0 <= addr < 2 ^ 32 -> segment_write (segment_of m ctx) ctx addr clk value = Ok seg ->
  let wa := addr - addr mod 4 in
  let a := mkAccess clk OpWrite (Element (addr mod 4)) (word_set (default EMPTY_WORD (access_word <$> last (trace_at m ctx wa))) (Z.to_nat (addr mod 4)) value) in
  seg = <[wa := trace_at m ctx wa ++ [a]]> (segment_of m ctx) /\ fits m ctx wa a.
Proof using Hwf.
  intros Hc Haddr H wa a. destruct (aligned_range addr Haddr) as [_ Hi]. unfold segment_write, addr_to_word_addr_and_idx in H.
  change (Z.of_nat WORD_SIZE) with 4 in *. fold wa in H.
  assert (stored (Element (addr mod 4)) (default EMPTY_WORD (access_word <$> last (trace_at m ctx wa))) (access_word a)) as Hs.
  { intros j Hj _ Hne. cbn. apply word_get_set_ne; [done..|]. by intros E; rewrite E in Hne. }
  destruct (trace_at_wf ctx wa) as [[E E']|[E' Hw]]; rewrite E' in H.
  - injection H as <-. split; [unfold a; by rewrite E|]. apply write_fits; [done..|by rewrite E|done].
  - destruct (last (trace_at m ctx wa)) as [p|] eqn:El; [|by apply last_None in El; destruct Hw]. cbn [or_panic mbind outcome_bind] in H.
    destruct (bool_decide_reflect (access_clk p = clk)) as [Ec|Ec]; [done|]. injection H as <-. split; [done|].
    apply write_fits; [done..| |by rewrite El]. intros q Hq. rewrite El in Hq. by injection Hq as <-.
Qed.
Lemma write_word_appends ctx addr clk w seg : c <= ⟦clk⟧ < 2 ^ 32 -> segment_write_word (segment_of m ctx) ctx addr clk w = Ok seg ->
  let wa := addr - addr mod 4 in let a := mkAccess clk OpWrite WholeWord w in
  seg = <[wa := trace_at m ctx wa ++ [a]]> (segment_of m ctx) /\ fits m ctx wa a.
Proof using Hwf.
  intros Hc H wa a. unfold segment_write_word, addr_to_word_addr_and_idx in H. change (Z.of_nat WORD_SIZE) with 4 in *. fold wa in H.
  destruct (trace_at_wf ctx wa) as [[E E']|[E' Hw]]; rewrite E' in H.
  - injection H as <-. split; [by rewrite E|]. apply write_fits; [done..|by rewrite E|]. by intros j _ [].
  - destruct (last (trace_at m ctx wa)) as [p|] eqn:El; [|by apply last_None in El; destruct Hw]. cbn [or_panic mbind outcome_bind] in H.
    destruct (bool_decide_reflect (access_clk p = clk)) as [Ec|Ec]; [done|]. injection H as <-. split; [done|].
    apply write_fits; [done..| |by intros j _ []]. intros q Hq. rewrite El in Hq. by injection Hq as <-.
Qed.

(** *** The table after an access *)
Lemma addr_accesses_length ctx x : length (addr_accesses ctx x) = length x.2.
Proof. apply length_fmap. Qed.
Lemma segment_accesses_snoc ctx (seg : MemorySegmentTrace) wa a :
  length (segment_accesses (ctx, <[wa := default [] (seg !! wa) ++ [a]]> seg)) = S (length (segment_accesses (ctx, seg))).
Proof.
  unfold segment_accesses. cbn [fst snd]. rewrite btree_bind_insert, addr_accesses_length. cbn [snd]. rewrite length_app. cbn [length].
  destruct (seg !! wa) as [tr|] eqn:E; cbn [default].
  - rewrite (btree_bind_lookup _ _ _ _ _ E), addr_accesses_length. cbn [snd]. unfold id. lia.
  - rewrite delete_id by done. done.
Qed.
Lemma appends_wf ctx wa a m' : 0 <= ctx < 2 ^ 32 -> 0 <= wa < 2 ^ 32 -> c <= ⟦access_clk a⟧ -> fits m ctx wa a -> appends m ctx wa a m' -> memory_wf ⟦access_clk a⟧ m'.
Proof using Hwf.
  intros Hctx Hwa Hc [Ha Hfit] ->. assert (forall tr, addr_trace_wf c tr -> addr_trace_wf ⟦access_clk a⟧ tr) as Hmono.
  { intros tr (H1 & H2 & H3 & H4 & H5). split_and!; try done. refine (Forall_impl _ _ _ H3 _). cbn. intros. lia. }
  assert (addr_trace_wf ⟦access_clk a⟧ (trace_at m ctx wa ++ [a])) as Hnew.
  { destruct (trace_at_wf ctx wa) as [[E _]|[_ (H1 & H2 & H3 & H4 & H5)]].
    - rewrite E in Hfit |- *. cbn in Hfit |- *. split_and!; [done|by constructor|by repeat constructor|by intros [|i] ? ? ? ?|by intros b [= <-]].
    - split_and!; [by destruct (trace_at m ctx wa)|apply Forall_app; by split; [|constructor]| | |].
      + apply Forall_app. split; [refine (Forall_impl _ _ _ H3 _); cbn; intros; lia|by repeat constructor].
      + apply chain_snoc; [done|]. intros y Hy. by rewrite Hy in Hfit.
      + intros b Hb. apply H5. destruct (trace_at m ctx wa); [done|exact Hb]. }
  split; cbn [segments num_trace_rows record_access].
  - intros ctx' seg Hs. destruct (decide (ctx' = ctx)) as [->|Hne].
    + rewrite lookup_insert_eq in Hs. injection Hs as <-. split; [done|]. apply insert_non_empty.
    + rewrite lookup_insert_ne in Hs by done. by apply (mw_ctx _ _ Hwf).
  - intros ctx' seg wa' tr Hs Ht. destruct (decide (ctx' = ctx)) as [->|Hne].
    + rewrite lookup_insert_eq in Hs. injection Hs as <-. destruct (decide (wa' = wa)) as [->|Hne'].
      * rewrite lookup_insert_eq in Ht. by injection Ht as <-.
      * rewrite lookup_insert_ne in Ht by done. unfold segment_of in Ht. destruct (segments m !! ctx) as [seg'|] eqn:E; [|by cbn in Ht; rewrite lookup_empty in Ht].
        destruct (mw_addr _ _ Hwf _ _ _ _ E Ht). auto.
    + rewrite lookup_insert_ne in Hs by done. destruct (mw_addr _ _ Hwf _ _ _ _ Hs Ht). auto.
  - unfold accesses, trace_at. cbn [segments record_access]. rewrite btree_bind_insert, (mw_rows _ _ Hwf), segment_accesses_snoc. unfold accesses, segment_of.
    destruct (segments m !! ctx) as [seg|] eqn:E; cbn [default].
    + by rewrite (btree_bind_lookup _ _ _ _ _ E).
    + rewrite delete_id by done. done.
Qed.

(** *** What the accesses do *)
Definition word_view (m : MemoryTrace) (ctx wa : Z) : Word := default EMPTY_WORD (access_word <$> last (trace_at m ctx wa)).

Lemma u32_addr_Ok addr a : u32_addr addr = Ok a -> a = ⟦addr⟧ /\ 0 <= ⟦addr⟧ < 2 ^ 32.
Proof. unfold u32_addr. felt_ranges. destruct (Z.ltb_spec ⟦addr⟧ (2 ^ 32)); [|done]. intros [= <-]. lia. Qed.
Lemma check_aligned_Ok ctx addr u : check_aligned ctx addr = Ok u -> addr mod 4 = 0.
Proof. unfold check_aligned, guard_err. change (Z.of_nat WORD_SIZE) with 4. destruct (Z.eqb_spec (addr mod 4) 0); done. Qed.
Lemma clk_felt clk : 0 <= clk < 2 ^ 32 -> c <= clk -> c <= ⟦from_u32 clk⟧ < 2 ^ 32.
Proof. intros H Hc. rewrite canonical_from_u32 by done. lia. Qed.

(** The access recorded for each operation, at the word of the address *)
Lemma read_appends ctx addr clk v m' : c <= clk -> 0 <= clk < 2 ^ 32 -> read m ctx addr clk = Ok (v, m') ->
  0 <= ⟦addr⟧ < 2 ^ 32 /\ let wa := ⟦addr⟧ - ⟦addr⟧ mod 4 in
  let a := mkAccess (from_u32 clk) OpRead (Element (⟦addr⟧ mod 4)) (word_view m ctx wa) in
  appends m ctx wa a m' /\ fits m ctx wa a /\ word_get (word_view m ctx wa) (Z.to_nat (⟦addr⟧ mod 4)) = Some v.
Proof using Hwf.
  intros Hc Hclk H. unfold read in H. apply bind_Ok_inv in H as (a & Ha & H). apply u32_addr_Ok in Ha as [-> Ha]. split; [done|].
  destruct (aligned_range _ Ha) as [_ Hi]. unfold segment_read, addr_to_word_addr_and_idx in H. change (Z.of_nat WORD_SIZE) with 4 in *.
  apply bind_Ok_inv in H as ([v' seg] & H & H'). injection H' as -> <-. apply bind_Ok_inv in H as ([w seg'] & H & H').
  apply bind_Ok_inv in H' as (v'' & Hv & H'). injection H' as -> ->.
  destruct (read_helper_appends _ _ _ (Element (⟦addr⟧ mod 4)) _ _ (clk_felt clk Hclk Hc) Hi H) as (-> & Hf & Ew). cbv zeta. unfold word_view. rewrite <-Ew.
  split_and!; [done|done|]. destruct (word_get w (Z.to_nat (⟦addr⟧ mod 4))); [by injection Hv as ->|done].
Qed.
Lemma read_word_appends ctx addr clk w m' : c <= clk -> 0 <= clk < 2 ^ 32 -> read_word m ctx addr clk = Ok (w, m') ->
  0 <= ⟦addr⟧ < 2 ^ 32 /\ ⟦addr⟧ mod 4 = 0 /\ let a := mkAccess (from_u32 clk) OpRead WholeWord w in
  appends m ctx ⟦addr⟧ a m' /\ fits m ctx ⟦addr⟧ a /\ w = word_view m ctx ⟦addr⟧.
Proof using Hwf.
  intros Hc Hclk H. unfold read_word in H. apply bind_Ok_inv in H as (a & Ha & H). apply u32_addr_Ok in Ha as [-> Ha].
  apply bind_Ok_inv in H as (u & Hu & H). apply check_aligned_Ok in Hu. split; [done|]. split; [done|].
  unfold segment_read_word, addr_to_word_addr_and_idx in H. change (Z.of_nat WORD_SIZE) with 4 in *. rewrite Hu, Z.sub_0_r in H.
  apply bind_Ok_inv in H as ([w' seg] & H & H'). injection H' as -> <-.
  by destruct (read_helper_appends _ _ _ WholeWord _ _ (clk_felt clk Hclk Hc) I H) as (-> & Hf & Ew).
Qed.
Lemma write_element_appends ctx addr clk v m' : c <= clk -> 0 <= clk < 2 ^ 32 -> write m ctx addr clk v = Ok m' ->
  0 <= ⟦addr⟧ < 2 ^ 32 /\ let wa := ⟦addr⟧ - ⟦addr⟧ mod 4 in
  let a := mkAccess (from_u32 clk) OpWrite (Element (⟦addr⟧ mod 4)) (word_set (word_view m ctx wa) (Z.to_nat (⟦addr⟧ mod 4)) v) in
  appends m ctx wa a m' /\ fits m ctx wa a.
Proof using Hwf.
  intros Hc Hclk H. unfold write in H. apply bind_Ok_inv in H as (a & Ha & H). apply u32_addr_Ok in Ha as [-> Ha]. split; [done|].
  apply bind_Ok_inv in H as (seg & H & H'). injection H' as <-. by destruct (write_appends _ _ _ _ _ (clk_felt clk Hclk Hc) Ha H) as [-> Hf].
Qed.
Lemma write_whole_appends ctx addr clk w m' : c <= clk -> 0 <= clk < 2 ^ 32 -> write_word m ctx addr clk w = Ok m' ->
  0 <= ⟦addr⟧ < 2 ^ 32 /\ ⟦addr⟧ mod 4 = 0 /\ let a := mkAccess (from_u32 clk) OpWrite WholeWord w in
  appends m ctx ⟦addr⟧ a m' /\ fits m ctx ⟦addr⟧ a.
Proof using Hwf.
  intros Hc Hclk H. unfold write_word in H. apply bind_Ok_inv in H as (a & Ha & H). apply u32_addr_Ok in Ha as [-> Ha].
  apply bind_Ok_inv in H as (u & Hu & H). apply check_aligned_Ok in Hu. split; [done|]. split; [done|].
  apply bind_Ok_inv in H as (seg & H & H'). injection H' as <-. destruct (write_word_appends _ _ _ _ _ (clk_felt clk Hclk Hc) H) as [-> Hf].
  rewrite Hu, Z.sub_0_r in *. done.
Qed.

(** Accesses in the order of their cycles keep the table well-formed. *)
Lemma memory_step_wf acc m' : c <= clk_of acc < 2 ^ 32 -> 0 <= clk_of acc -> 0 <= ctx_of acc < 2 ^ 32 -> memory_step m acc = Ok m' -> memory_wf (clk_of acc) m'.
Proof using Hwf.
  intros Hc H0 Hctx H. assert (0 <= clk_of acc < 2 ^ 32) as Hclk by lia. destruct Hc as [Hc _].
  assert (forall wa a, 0 <= wa < 2 ^ 32 -> access_clk a = from_u32 (clk_of acc) -> appends m (ctx_of acc) wa a m' -> fits m (ctx_of acc) wa a -> memory_wf (clk_of acc) m') as Hend.
  { intros wa a Hwa Ea Happ Hfit. rewrite <-(canonical_from_u32 (clk_of acc)), <-Ea by done. apply (appends_wf (ctx_of acc) wa); try done.
    rewrite Ea, canonical_from_u32 by done. done. }
  destruct acc as [addr ctx clk|addr v ctx clk|addr ctx clk|addr w ctx clk]; cbn in *.
  - destruct (read m ctx addr clk) as [[v m'']| |] eqn:E; try done. injection H as ->. destruct (read_appends _ _ _ _ _ Hc Hclk E) as (Ha & ? & ? & _).
    eapply Hend; cycle 2; [eassumption..| |reflexivity]. change 4 with (Z.of_nat WORD_SIZE). by apply aligned_range.
  - destruct (write_element_appends _ _ _ _ _ Hc Hclk H) as (Ha & ? & ?). eapply Hend; cycle 2; [eassumption..| |reflexivity]. change 4 with (Z.of_nat WORD_SIZE). by apply aligned_range.
  - destruct (read_word m ctx addr clk) as [[w m'']| |] eqn:E; try done. injection H as ->. destruct (read_word_appends _ _ _ _ _ Hc Hclk E) as (Ha & ? & ? & ? & _).
    by eapply Hend; cycle 2; [eassumption..| |].
  - destruct (write_whole_appends _ _ _ _ _ Hc Hclk H) as (Ha & ? & ? & ?). by eapply Hend; cycle 2; [eassumption..| |].
Qed.

Lemma appends_view ctx wa a m' ctx' wa' : appends m ctx wa a m' ->
  word_view m' ctx' wa' = if decide (ctx' = ctx /\ wa' = wa) then access_word a else word_view m ctx' wa'.
Proof.
  intros ->. unfold word_view, trace_at, segment_of at 1, record_access. cbn [segments]. destruct (decide (ctx' = ctx)) as [->|Hne].
  - rewrite lookup_insert_eq. cbn [default]. unfold id. destruct (decide (wa' = wa)) as [->|Hne'].
    + rewrite decide_True by done. rewrite lookup_insert_eq. cbn [default]. unfold id. rewrite last_snoc. done.
    + rewrite decide_False by tauto. by rewrite lookup_insert_ne.
  - rewrite decide_False by tauto. by rewrite lookup_insert_ne.
Qed.
End Step.

(** ** The memory of the processor

    The words of the table and of the map of [Memory.v] agree; a read gives the value of the map, and a write updates both. *)
Definition same_memory (M : Memory) (m : MemoryTrace) : Prop :=
  forall (ctx : Z) wa, wa mod 4 = 0 -> default EMPTY_WORD (M !! (ctx, wa)) = word_view m ctx wa.

Lemma aligned_mod a : (a - a mod 4) mod 4 = 0.
Proof. rewrite Zminus_mod_idemp_r, Z.sub_diag. done. Qed.
Lemma same_read M m ctx wa a m' : same_memory M m -> appends m ctx wa a m' -> access_word a = word_view m ctx wa -> same_memory M m'.
Proof.
  intros HM Happ Ha ctx' wa' Hwa. rewrite (appends_view m ctx wa a m') by done. destruct (decide (ctx' = ctx /\ wa' = wa)) as [[-> ->]|]; [|by apply HM].
  rewrite Ha. by apply HM.
Qed.
Lemma same_write M m ctx wa a m' : same_memory M m -> appends m ctx wa a m' -> same_memory (<[(ctx, wa) := access_word a]> M) m'.
Proof.
  intros HM Happ ctx' wa' Hwa. rewrite (appends_view m ctx wa a m') by done. destruct (decide (ctx' = ctx /\ wa' = wa)) as [[-> ->]|Hne].
  - by rewrite lookup_insert_eq.
  - rewrite lookup_insert_ne by (intros E; apply Hne; by simplify_eq). by apply HM.
Qed.
Lemma read_exact M m c ctx addr clk v m' : memory_wf c m -> same_memory M m -> c <= clk -> 0 <= clk < 2 ^ 32 -> read m ctx addr clk = Ok (v, m') ->
  Memory.read_element M ctx addr = Ok v /\ same_memory M m'.
Proof.
  intros Hwf HM Hc Hclk H. destruct (read_appends m c Hwf _ _ _ _ _ Hc Hclk H) as (Ha & Happ & _ & Hv). split; [|by eapply same_read].
  rewrite read_element_eq, (proj2 (Z.ltb_lt _ _)) by lia. unfold mem_cell. by rewrite HM, Hv by apply aligned_mod.
Qed.
Lemma read_word_exact M m c ctx addr clk w m' : memory_wf c m -> same_memory M m -> c <= clk -> 0 <= clk < 2 ^ 32 -> read_word m ctx addr clk = Ok (w, m') ->
  Memory.read_word M ctx addr = Ok w /\ same_memory M m'.
Proof.
  intros Hwf HM Hc Hclk H. destruct (read_word_appends m c Hwf _ _ _ _ _ Hc Hclk H) as (Ha & Hal & Happ & _ & ->). split; [|by eapply same_read].
  unfold Memory.read_word, clean_addr, read_word_impl, enforce_word_aligned_addr. rewrite (proj2 (Z.ltb_lt _ _)) by lia. cbn [mbind outcome_bind].
  change (Z.of_nat WORD_SIZE) with 4. rewrite Hal. cbn [Z.eqb mbind outcome_bind]. f_equal. exact (HM ctx _ Hal).
Qed.
Lemma write_exact M m c ctx addr clk v m' : memory_wf c m -> same_memory M m -> c <= clk -> 0 <= clk < 2 ^ 32 -> write m ctx addr clk v = Ok m' ->
  exists M', Memory.write_element M ctx addr v = Ok M' /\ same_memory M' m'.
Proof.
  intros Hwf HM Hc Hclk H. destruct (write_element_appends m c Hwf _ _ _ _ _ Hc Hclk H) as (Ha & Happ & _). eexists. split; [|by eapply same_write].
  unfold Memory.write_element, clean_addr, split_addr. rewrite (proj2 (Z.ltb_lt _ _)) by lia. cbn [mbind outcome_bind access_word]. change (Z.of_nat WORD_SIZE) with 4.
  rewrite <-HM by apply aligned_mod. unfold ContextId in *. by destruct (M !! (ctx, ⟦addr⟧ - ⟦addr⟧ mod 4)).
Qed.
Lemma write_word_exact M m c ctx addr clk w m' : memory_wf c m -> same_memory M m -> c <= clk -> 0 <= clk < 2 ^ 32 -> write_word m ctx addr clk w = Ok m' ->
  exists M', Memory.write_word M ctx addr w = Ok M' /\ same_memory M' m'.
Proof.
  intros Hwf HM Hc Hclk H. destruct (write_whole_appends m c Hwf _ _ _ _ _ Hc Hclk H) as (Ha & Hal & Happ & _). eexists. split; [|by eapply same_write].
  unfold Memory.write_word, clean_addr, enforce_word_aligned_addr. rewrite (proj2 (Z.ltb_lt _ _)) by lia. cbn [mbind outcome_bind access_word].
  change (Z.of_nat WORD_SIZE) with 4. by rewrite Hal.
Qed.
(** *** When an access is recorded: unless the word was written in the same cycle, or is written and was accessed in it *)
Definition conflict (m : MemoryTrace) (ctx wa : Z) (clk : felt) (is_write : bool) : bool :=
  match last (trace_at m ctx wa) with
  | Some p => bool_decide (access_clk p = clk) && (is_write || bool_decide (operation p = OpWrite))
  | None => false
  end.
Lemma read_helper_total m c ctx wa clk ty : memory_wf c m -> exists seg, read_word_helper (segment_of m ctx) ctx wa clk ty =
  if conflict m ctx wa clk false then Err (MemoryErr (IllegalMemoryAccess ctx wa ⟦clk⟧)) else Ok (word_view m ctx wa, seg).
Proof.
  intros Hwf. unfold read_word_helper, conflict, word_view. destruct (trace_at_wf m c Hwf ctx wa) as [[E E']|[E' Hw]]; rewrite E'; [rewrite E; by eexists|].
  destruct (last (trace_at m ctx wa)) as [p|] eqn:El; [|by apply last_None in El; destruct Hw]. cbn [or_panic mbind outcome_bind orb].
  destruct (bool_decide (access_clk p = clk) && bool_decide (operation p = OpWrite)); [by exists ∅|by eexists].
Qed.
Lemma segment_write_total m c ctx addr clk v : memory_wf c m -> exists seg, segment_write (segment_of m ctx) ctx addr clk v =
  if conflict m ctx (addr - addr mod 4) clk true then Err (MemoryErr (IllegalMemoryAccess ctx addr ⟦clk⟧)) else Ok seg.
Proof.
  intros Hwf. unfold segment_write, conflict, addr_to_word_addr_and_idx. change (Z.of_nat WORD_SIZE) with 4. set (wa := addr - addr mod 4).
  destruct (trace_at_wf m c Hwf ctx wa) as [[E E']|[E' Hw]]; rewrite E'; [rewrite E; by eexists|].
  destruct (last (trace_at m ctx wa)) as [p|] eqn:El; [|by apply last_None in El; destruct Hw]. cbn [or_panic mbind outcome_bind orb]. rewrite andb_true_r.
  destruct (bool_decide (access_clk p = clk)); [by exists ∅|by eexists].
Qed.
Lemma segment_write_word_total m c ctx addr clk w : memory_wf c m -> exists seg, segment_write_word (segment_of m ctx) ctx addr clk w =
  if conflict m ctx (addr - addr mod 4) clk true then Err (MemoryErr (IllegalMemoryAccess ctx addr ⟦clk⟧)) else Ok seg.
Proof.
  intros Hwf. unfold segment_write_word, conflict, addr_to_word_addr_and_idx. change (Z.of_nat WORD_SIZE) with 4. set (wa := addr - addr mod 4).
  destruct (trace_at_wf m c Hwf ctx wa) as [[E E']|[E' Hw]]; rewrite E'; [rewrite E; by eexists|].
  destruct (last (trace_at m ctx wa)) as [p|] eqn:El; [|by apply last_None in El; destruct Hw]. cbn [or_panic mbind outcome_bind orb]. rewrite andb_true_r.
  destruct (bool_decide (access_clk p = clk)); [by exists ∅|by eexists].
Qed.

(** No access panics. *)
Lemma memory_step_no_panic m c acc : memory_wf c m -> no_panic (memory_step m acc).
Proof.
  intros Hwf. unfold no_panic. destruct acc as [addr ctx clk|addr v ctx clk|addr ctx clk|addr w ctx clk]; cbn [memory_step].
  - unfold read, u32_addr. destruct (⟦addr⟧ <? 2 ^ 32); [|done]. cbn [mbind outcome_bind]. unfold segment_read, addr_to_word_addr_and_idx. change (Z.of_nat WORD_SIZE) with 4.
    destruct (read_helper_total m c ctx (⟦addr⟧ - ⟦addr⟧ mod 4) (from_u32 clk) (Element (⟦addr⟧ mod 4)) Hwf) as [seg ->]. destruct (conflict _ _ _ _ _); [done|].
    cbn [mbind outcome_bind]. destruct (word_get_some (word_view m ctx (⟦addr⟧ - ⟦addr⟧ mod 4)) (⟦addr⟧ mod 4)) as [v ->]; [by apply Z.mod_pos_bound|]. done.
  - unfold write, u32_addr. destruct (⟦addr⟧ <? 2 ^ 32); [|done]. cbn [mbind outcome_bind].
    destruct (segment_write_total m c ctx ⟦addr⟧ (from_u32 clk) v Hwf) as [seg ->]. by destruct (conflict _ _ _ _ _).
  - unfold read_word, u32_addr. destruct (⟦addr⟧ <? 2 ^ 32); [|done]. cbn [mbind outcome_bind]. unfold check_aligned, guard_err.
    destruct (⟦addr⟧ mod _ =? 0); [|done]. cbn [mbind outcome_bind]. unfold segment_read_word, addr_to_word_addr_and_idx. change (Z.of_nat WORD_SIZE) with 4.
    destruct (read_helper_total m c ctx (⟦addr⟧ - ⟦addr⟧ mod 4) (from_u32 clk) WholeWord Hwf) as [seg ->]. by destruct (conflict _ _ _ _ _).
  - unfold write_word, u32_addr. destruct (⟦addr⟧ <? 2 ^ 32); [|done]. cbn [mbind outcome_bind]. unfold check_aligned, guard_err.
    destruct (⟦addr⟧ mod _ =? 0); [|done]. cbn [mbind outcome_bind].
    destruct (segment_write_word_total m c ctx ⟦addr⟧ (from_u32 clk) w Hwf) as [seg ->]. by destruct (conflict _ _ _ _ _).
Qed.

(** The outcome of an access to the table, from the outcome of the same access to the memory of the processor: an error is the same error, and an
    access that succeeds is recorded, with the result [post], unless it conflicts. *)
Definition recorded {A R} (o : result A) (conflicting : bool) (err : ExecutionError) (o' : result R) (post : A -> R -> Prop) : Prop :=
  match o with
  | Ok a => if conflicting then o' = Err err else exists r, o' = Ok r /\ post a r
  | Err e => o' = Err e
  | Panic => False
  end.
Section Outcome.
Variables (M : Memory) (m : MemoryTrace) (c ctx : Z) (addr : felt) (clk : Z).
Hypotheses (Hwf : memory_wf c m) (HM : same_memory M m) (Hc : c <= clk) (Hclk : 0 <= clk < 2 ^ 32) (Hctx : 0 <= ctx < 2 ^ 32).
#[local] Notation wa := (⟦addr⟧ - ⟦addr⟧ mod 4).
#[local] Notation illegal a := (MemoryErr (IllegalMemoryAccess ctx a ⟦from_u32 clk⟧)).

Lemma step_wf acc m' : clk_of acc = clk -> ctx_of acc = ctx -> memory_step m acc = Ok m' -> memory_wf clk m'.
Proof using Hwf Hc Hclk Hctx. intros E1 E2 H. rewrite <-E1. apply (memory_step_wf m c Hwf acc); rewrite ?E1, ?E2; lia || done. Qed.
Lemma read_recorded : recorded (Memory.read_element M ctx addr) (conflict m ctx wa (from_u32 clk) false) (illegal wa) (read m ctx addr clk)
  (fun v '(v', m') => v' = v /\ same_memory M m' /\ memory_wf clk m').
Proof using Hwf HM Hc Hclk Hctx.
  destruct (Z.ltb_spec ⟦addr⟧ (2 ^ 32)) as [Ha|Ha].
  - destruct (read_helper_total m c ctx wa (from_u32 clk) (Element (⟦addr⟧ mod 4)) Hwf) as [seg Es].
    destruct (word_get_some (word_view m ctx wa) (⟦addr⟧ mod 4)) as [v Ev]; [pose proof (Z.mod_pos_bound ⟦addr⟧ 4); lia|].
    assert (read m ctx addr clk = if conflict m ctx wa (from_u32 clk) false then Err (illegal wa) else Ok (v, record_access m ctx seg)) as Er.
    { unfold read, u32_addr. rewrite (proj2 (Z.ltb_lt _ _) Ha). cbn [mbind outcome_bind]. unfold segment_read, addr_to_word_addr_and_idx.
      change (Z.of_nat WORD_SIZE) with 4. rewrite Es. destruct (conflict _ _ _ _ _); [done|]. cbn [mbind outcome_bind]. by rewrite Ev. }
    rewrite read_element_eq, (proj2 (Z.ltb_lt _ _) Ha). unfold recorded. rewrite Er. destruct (conflict _ _ _ _ _); [done|]. eexists. split; [done|].
    pose proof (read_exact M m c ctx addr clk _ _ Hwf HM Hc Hclk Er) as [E' Hs]. rewrite read_element_eq, (proj2 (Z.ltb_lt _ _) Ha) in E'. injection E' as ->.
    split_and!; [done|done|]. by apply (step_wf (ReadElement addr ctx clk)); [..|cbn; rewrite Er].
  - unfold read, u32_addr, Memory.read_element, clean_addr. by rewrite (proj2 (Z.ltb_ge _ _) Ha).
Qed.
Lemma read_word_recorded : recorded (Memory.read_word M ctx addr) (conflict m ctx wa (from_u32 clk) false) (illegal wa) (read_word m ctx addr clk)
  (fun w '(w', m') => w' = w /\ same_memory M m' /\ memory_wf clk m').
Proof using Hwf HM Hc Hclk Hctx.
  destruct (read_helper_total m c ctx wa (from_u32 clk) WholeWord Hwf) as [seg Es].
  unfold recorded. destruct (Memory.read_word M ctx addr) as [w| |] eqn:EM; pose proof EM as EM';
    unfold Memory.read_word, clean_addr, read_word_impl, enforce_word_aligned_addr in EM'; destruct (⟦addr⟧ <? 2 ^ 32) eqn:Ha; cbn [mbind outcome_bind] in EM'; try done;
    destruct (⟦addr⟧ mod Z.of_nat WORD_SIZE =? 0) eqn:Hal; cbn [mbind outcome_bind] in EM'; try done.
  - assert (read_word m ctx addr clk = if conflict m ctx wa (from_u32 clk) false then Err (illegal wa) else Ok (word_view m ctx wa, record_access m ctx seg)) as Er.
    { unfold read_word, u32_addr, check_aligned, guard_err. rewrite Ha. cbn [mbind outcome_bind]. rewrite Hal. cbn [mbind outcome_bind].
      unfold segment_read_word, addr_to_word_addr_and_idx. change (Z.of_nat WORD_SIZE) with 4. rewrite Es. by destruct (conflict _ _ _ _ _). }
    rewrite Er. destruct (conflict _ _ _ _ _); [done|]. destruct (read_word_exact M m c ctx addr clk _ _ Hwf HM Hc Hclk Er) as (E' & Hs).
    rewrite EM in E'. injection E' as ->. eexists. split; [done|]. split_and!; [done|done|]. by apply (step_wf (ReadWord addr ctx clk)); [..|cbn; rewrite Er].
  - injection EM' as <-. unfold read_word, u32_addr, check_aligned, guard_err. rewrite Ha. cbn [mbind outcome_bind]. by rewrite Hal.
  - injection EM' as <-. unfold read_word, u32_addr. by rewrite Ha.
  - injection EM' as <-. unfold read_word, u32_addr. by rewrite Ha.
Qed.
Lemma write_recorded v : recorded (Memory.write_element M ctx addr v) (conflict m ctx wa (from_u32 clk) true) (illegal ⟦addr⟧) (write m ctx addr clk v)
  (fun M' m' => same_memory M' m' /\ memory_wf clk m').
Proof using Hwf HM Hc Hclk Hctx.
  destruct (segment_write_total m c ctx ⟦addr⟧ (from_u32 clk) v Hwf) as [seg Es].
  destruct (⟦addr⟧ <? 2 ^ 32) eqn:Ha.
  - assert (write m ctx addr clk v = if conflict m ctx wa (from_u32 clk) true then Err (illegal ⟦addr⟧) else Ok (record_access m ctx seg)) as Er.
    { unfold write, u32_addr. rewrite Ha. cbn [mbind outcome_bind]. rewrite Es. by destruct (conflict _ _ _ _ _). }
    rewrite Er. destruct (conflict _ _ _ _ _).
    + unfold Memory.write_element, clean_addr. rewrite Ha. cbn [mbind outcome_bind]. unfold split_addr. unfold ContextId in *. by destruct (M !! _).
    + destruct (write_exact M m c ctx addr clk v _ Hwf HM Hc Hclk Er) as (M' & EM & Hs). unfold recorded. rewrite EM. eexists.
      split_and!; [done|done|]. by apply (step_wf (WriteElement addr v ctx clk)).
  - unfold Memory.write_element, clean_addr, write, u32_addr. by rewrite Ha.
Qed.
Lemma write_word_recorded w : recorded (Memory.write_word M ctx addr w) (conflict m ctx wa (from_u32 clk) true) (illegal ⟦addr⟧) (write_word m ctx addr clk w)
  (fun M' m' => same_memory M' m' /\ memory_wf clk m').
Proof using Hwf HM Hc Hclk Hctx.
  destruct (segment_write_word_total m c ctx ⟦addr⟧ (from_u32 clk) w Hwf) as [seg Es].
  unfold recorded. destruct (Memory.write_word M ctx addr w) as [M'| |] eqn:EM; pose proof EM as EM';
    unfold Memory.write_word, clean_addr, enforce_word_aligned_addr in EM'; destruct (⟦addr⟧ <? 2 ^ 32) eqn:Ha; cbn [mbind outcome_bind] in EM'; try done;
    destruct (⟦addr⟧ mod Z.of_nat WORD_SIZE =? 0) eqn:Hal; cbn [mbind outcome_bind] in EM'; try done.
  - assert (write_word m ctx addr clk w = if conflict m ctx wa (from_u32 clk) true then Err (illegal ⟦addr⟧) else Ok (record_access m ctx seg)) as Er.
    { unfold write_word, u32_addr, check_aligned, guard_err. rewrite Ha. cbn [mbind outcome_bind]. rewrite Hal. cbn [mbind outcome_bind]. rewrite Es. by destruct (conflict _ _ _ _ _). }
    rewrite Er. destruct (conflict _ _ _ _ _); [done|]. destruct (write_word_exact M m c ctx addr clk w _ Hwf HM Hc Hclk Er) as (M'' & EM'' & Hs).
    rewrite EM in EM''. injection EM'' as <-. eexists. split_and!; [done|done|]. by apply (step_wf (WriteWord addr w ctx clk)).
  - injection EM' as <-. unfold write_word, u32_addr, check_aligned, guard_err. rewrite Ha. cbn [mbind outcome_bind]. by rewrite Hal.
  - injection EM' as <-. unfold write_word, u32_addr. by rewrite Ha.
  - injection EM' as <-. unfold write_word, u32_addr. by rewrite Ha.
Qed.
End Outcome.

(** ** The order of the rows *)
Definition access_lt (x y : Z * Z * MemorySegmentAccess) : Prop :=
  let '(ctx, wa, a) := x in let '(ctx', wa', a') := y in
  ctx < ctx' /\ access_first a' \/ ctx = ctx' /\ (wa < wa' /\ access_first a' \/ wa = wa' /\ access_after a a').
Definition entry_wf (x : Z * Z * MemorySegmentAccess) : Prop := let '(ctx, wa, a) := x in 0 <= ctx < 2 ^ 32 /\ 0 <= wa < 2 ^ 32 /\ access_wf a.

Lemma leb_total a b : (a <=? b) = true \/ (b <=? a) = true.
Proof. lia. Qed.

Section Order.
Variables (m : MemoryTrace) (c : Z).
Hypothesis Hwf : memory_wf c m.

Lemma addr_accesses_elem ctx x e : e ∈ addr_accesses ctx x <-> exists a, e = (ctx, x.1, a) /\ a ∈ x.2.
Proof. unfold addr_accesses. rewrite list_elem_of_fmap. done. Qed.
Lemma accesses_elem ctx wa a : (ctx, wa, a) ∈ accesses m -> exists seg tr, segments m !! ctx = Some seg /\ seg !! wa = Some tr /\ a ∈ tr.
Proof.
  unfold accesses. rewrite list_elem_of_bind. intros ([ctx' seg] & He & Hs). apply btree_entries_elem in Hs. unfold segment_accesses in He.
  apply list_elem_of_bind in He as ([wa' tr] & He & Ht). apply btree_entries_elem in Ht. apply addr_accesses_elem in He as (a' & [= -> -> ->] & Ha). eauto.
Qed.
Lemma accesses_wf : Forall entry_wf (accesses m).
Proof using Hwf.
  apply Forall_forall. intros [[ctx wa] a] H. apply accesses_elem in H as (seg & tr & Hs & Ht & Ha). unfold entry_wf.
  destruct (mw_ctx _ _ Hwf _ _ Hs) as [? _]. destruct (mw_addr _ _ Hwf _ _ _ _ Hs Ht) as [? (_ & Hf & _)]. split_and!; try lia.
  by apply (proj1 (Forall_forall _ _) Hf).
Qed.

(** The accesses of one word, of one segment, and of all of them *)
Lemma addr_chain ctx wa tr : addr_trace_wf c tr -> chain access_lt (addr_accesses ctx (wa, tr)) /\ addr_accesses ctx (wa, tr) <> [].
Proof.
  intros (Hne & _ & _ & Hc & _). split; [|by destruct tr]. unfold addr_accesses. cbn [fst snd]. apply (chain_fmap _ access_after); [|done]. intros x y H. right. auto.
Qed.
(** The first access of each block, with [addr_accesses] as the blocks *)
Lemma addr_head ctx wa tr e : addr_trace_wf c tr -> head (addr_accesses ctx (wa, tr)) = Some e -> exists a, e = (ctx, wa, a) /\ access_first a.
Proof. intros (_ & _ & _ & _ & Hf) H. destruct tr as [|a tr]; [done|]. injection H as <-. exists a. split; [done|]. by apply Hf. Qed.
Lemma segment_entries ctx seg x : segments m !! ctx = Some seg -> x ∈ btree_entries Z.leb seg -> addr_trace_wf c x.2.
Proof using Hwf. intros Hs Hx. destruct x as [wa tr]. apply btree_entries_elem in Hx. by apply (mw_addr _ _ Hwf ctx seg wa). Qed.
Lemma segment_chain ctx seg : segments m !! ctx = Some seg -> chain access_lt (segment_accesses (ctx, seg)) /\ segment_accesses (ctx, seg) <> [].
Proof using Hwf.
  intros Hs. unfold segment_accesses. cbn [fst snd]. split.
  - apply chain_bind.
    + intros [wa tr] Hx. apply addr_chain. by apply (segment_entries ctx seg (wa, tr)).
    + intros i [wa tr] [wa' tr'] e e' Hx Hy He He'. destruct (btree_entries_sorted Z.leb leb_total _ _ _ _ Hx Hy) as [Hle Hne]. cbn in Hle, Hne.
      apply addr_accesses_elem in He as (a & -> & _). apply addr_head in He' as (a' & -> & Ha'); [|by apply (segment_entries ctx seg (wa', tr')), (list_elem_of_lookup_2 _ (S i))].
      right. split; [done|]. left. split; [cbn; lia|done].
  - destruct (mw_ctx _ _ Hwf _ _ Hs) as [_ Hne]. destruct (btree_entries Z.leb seg) as [|[wa tr] l] eqn:E.
    + exfalso. apply Hne. apply map_to_list_empty_iff, Permutation_nil_r. by rewrite <-(btree_entries_perm Z.leb), E.
    + pose proof (segment_entries ctx seg (wa, tr) Hs ltac:(rewrite E; left)) as Ht. destruct (addr_chain ctx wa tr Ht) as [_ Hn]. cbn [mbind list_bind]. intros Hb. by apply app_nil in Hb as [Hb _].
Qed.
Lemma segment_head ctx seg e : segments m !! ctx = Some seg -> head (segment_accesses (ctx, seg)) = Some e -> exists wa a, e = (ctx, wa, a) /\ access_first a.
Proof using Hwf.
  intros Hs He. apply head_bind in He as ([wa tr] & Hx & He).
  - apply addr_head in He as (a & -> & Ha); [by eauto|]. apply (segment_entries ctx seg (wa, tr)); [done|]. by apply head_Some_elem_of.
  - intros [wa tr] Hx. apply addr_chain. by apply (segment_entries ctx seg (wa, tr)).
Qed.
Lemma accesses_chain : chain access_lt (accesses m).
Proof using Hwf.
  apply chain_bind.
  - intros [ctx seg] Hx. apply btree_entries_elem in Hx. by apply segment_chain.
  - intros i [ctx seg] [ctx' seg'] e e' Hx Hy He He'. destruct (btree_entries_sorted Z.leb leb_total _ _ _ _ Hx Hy) as [Hle Hne]. cbn in Hle, Hne.
    unfold segment_accesses in He. apply list_elem_of_bind in He as ([wa tr] & He & _). apply addr_accesses_elem in He as (a & -> & _).
    apply segment_head in He' as (wa' & a' & -> & Ha'); [|eapply (proj1 (btree_entries_elem Z.leb _ _ _)), list_elem_of_lookup_2, Hy]. left. split; [cbn; lia|done].
Qed.
Lemma accesses_head e : head (accesses m) = Some e -> access_first e.2.
Proof using Hwf.
  intros He. apply head_bind in He as ([ctx seg] & Hx & He).
  - apply segment_head in He as (wa & a & -> & Ha); [done|]. apply (proj1 (btree_entries_elem Z.leb _ _ _)). by apply head_Some_elem_of.
  - intros [ctx seg] Hx. apply btree_entries_elem in Hx. by apply segment_chain.
Qed.

(** ** The rows are written, without a panic *)
Definition values (x : Z * Z * MemorySegmentAccess) : felt * felt * felt := let '(ctx, wa, a) := x in (from_u32 ctx, from_u32 wa, access_clk a).
(** The row of an access after the values of the previous one *)
Definition row_of_access (prev : felt * felt * felt) (x : Z * Z * MemorySegmentAccess) (r : list felt) : Prop :=
  exists rows, fill_row (prev, []) x = Ok (values x, rows) /\ rows = [r].

Lemma fill_row_ok prev rows x : entry_wf x -> exists r, row_of_access prev x r /\ fill_row (prev, rows) x = Ok (values x, rows ++ [r]) .
Proof.
  destruct prev as [[pc pa] pk], x as [[ctx wa] a]. intros (_ & _ & _ & Hty). unfold row_of_access, fill_row.
  destruct (index_bits (access_type a)) as [[iw [i1 i0]]| |] eqn:E.
  - cbn [mbind outcome_bind]. destruct (split_element_u32_into_u16 _) as [hi lo]. eexists. split; [eexists; split; reflexivity|done].
  - unfold index_bits in E. repeat case_match; done.
  - unfold index_bits in E. destruct (access_type a) as [i|]; [|done]. assert (i = 0 \/ i = 1 \/ i = 2 \/ i = 3) as [->|[->|[->| ->]]] by lia; done.
Qed.
Lemma fill_rows_ok xs prev rows : Forall entry_wf xs -> exists prev' rows', for_each xs fill_row (prev, rows) = Ok (prev', rows ++ rows') /\ length rows' = length xs /\
  (forall x r, head xs = Some x -> head rows' = Some r -> row_of_access prev x r) /\
  (forall k x y r, xs !! k = Some x -> xs !! S k = Some y -> rows' !! S k = Some r -> row_of_access (values x) y r).
Proof.
  revert prev rows. induction xs as [|x xs IH]; intros prev rows Hwf'; [exists prev, []; rewrite app_nil_r; done|].
  apply Forall_cons in Hwf' as [Hx Hxs]. destruct (fill_row_ok prev rows x Hx) as (r & Hr & Hf). cbn [for_each]. rewrite Hf. cbn [mbind outcome_bind].
  destruct (IH (values x) (rows ++ [r]) Hxs) as (prev' & rows' & Hfe & Hlen & Hh & Hk). exists prev', (r :: rows'). rewrite Hfe, <-app_assoc.
  split_and!; [done|cbn; by rewrite Hlen|by intros y r' [= <-] [= <-]|]. intros [|k] y z r' Hy Hz Hr'; cbn in Hy, Hz, Hr'.
  - injection Hy as <-. apply Hh; by rewrite head_lookup.
  - by apply (Hk k).
Qed.
Lemma memory_rows_ok : exists rows prev, memory_rows m = Ok rows /\ length rows = num_trace_rows m /\
  (forall x r, head (accesses m) = Some x -> head rows = Some r -> row_of_access prev x r) /\
  (forall k x y r, accesses m !! k = Some x -> accesses m !! S k = Some y -> rows !! S k = Some r -> row_of_access (values x) y r).
Proof using Hwf.
  rewrite (mw_rows _ _ Hwf). unfold memory_rows, get_first_row_info. destruct (btree_entries Z.leb (segments m)) as [|[ctx seg] l] eqn:E.
  - unfold accesses. rewrite E. exists [], (ZERO, ZERO, ZERO). done.
  - assert (segments m !! ctx = Some seg) as Hs by (apply (proj1 (btree_entries_elem Z.leb _ _ _)); rewrite E; left).
    destruct (segment_chain ctx seg Hs) as [_ Hne]. unfold segment_accesses in Hne. cbn [fst snd] in Hne.
    destruct (btree_entries Z.leb seg) as [|[wa tr] l'] eqn:E'; [done|]. cbn [head or_panic mbind outcome_bind].
    pose proof (segment_entries ctx seg (wa, tr) Hs ltac:(rewrite E'; left)) as (Htr & _). cbn in Htr. destruct tr as [|a tr]; [done|]. cbn [head or_panic mbind outcome_bind].
    destruct (fill_rows_ok (accesses m) (from_u32 ctx, from_u32 wa, (access_clk a - ONE)%F) [] accesses_wf) as ([[? ?] ?] & rows & -> & Hlen & Hh & Hk).
    exists rows, (from_u32 ctx, from_u32 wa, (access_clk a - ONE)%F). done.
Qed.
Lemma row_of_access_length prev x r : row_of_access prev x r -> length r = 17%nat.
Proof.
  destruct prev as [[pc pa] pk], x as [[ctx wa] a]. intros (rows & Hf & ->). unfold fill_row in Hf.
  destruct (index_bits (access_type a)) as [[iw [i1 i0]]| |]; try done. cbn [mbind outcome_bind] in Hf. destruct (split_element_u32_into_u16 _). by injection Hf as <-.
Qed.
(** Every row is the row of an access, after the values of the access before it. *)
Lemma memory_rows_at rows : memory_rows m = Ok rows -> length rows = num_trace_rows m /\
  forall k r, rows !! k = Some r -> exists x p, accesses m !! k = Some x /\ entry_wf x /\ row_of_access p x r /\ length r = 17%nat /\ (k = 0%nat -> access_first x.2) /\
    (forall k' y, k = S k' -> accesses m !! k' = Some y -> p = values y /\ access_lt y x).
Proof using Hwf.
  intros Hm. destruct memory_rows_ok as (rows' & prev & Em & Hlen & Hh & Hk). rewrite Hm in Em. injection Em as <-. split; [done|]. intros k r Hr.
  pose proof (lookup_lt_Some _ _ _ Hr) as Hlt. rewrite Hlen, (mw_rows _ _ Hwf) in Hlt. destruct (lookup_lt_is_Some_2 _ _ Hlt) as [x Hx].
  pose proof (proj1 (Forall_lookup _ _) accesses_wf _ _ Hx) as Hwx. exists x.
  assert (exists p, row_of_access p x r /\ (forall k' y, k = S k' -> accesses m !! k' = Some y -> p = values y /\ access_lt y x)) as (p & Hp & Hy).
  { destruct k as [|k]; [exists prev; split; [apply Hh; by rewrite head_lookup|done]|]. destruct (lookup_lt_is_Some_2 (accesses m) k) as [y Hy]; [lia|].
    exists (values y). split; [by apply (Hk k y x r)|]. intros k' y' [= <-] Hy'. rewrite Hy in Hy'. injection Hy' as <-. split; [done|]. by apply (accesses_chain k). }
  exists p. split_and!; [done..|by eapply row_of_access_length| |done]. intros ->. apply accesses_head. by rewrite head_lookup.
Qed.
End Order.
End Table.

Section Complete.
Context {F : Felt}.
Add Field felt_field_memory_trace : felt_field_theory.
Import AirMemory.

Definition is_write (a : MemorySegmentAccess) : bool := bool_decide (operation a = OpWrite).
(** Whether the access writes the element *)
Definition writesb (a : MemorySegmentAccess) (j : nat) : bool :=
  is_write a && match access_type a with WholeWord => true | Element i => i =? Z.of_nat j end.
Lemma writesb_written a j : writesb a j = false -> ~ written a j.
Proof.
  unfold writesb, written, is_write. intros H [Ho Ht]. rewrite Ho in H. cbn in H. destruct Ht as [Ht|Ht]; rewrite Ht in H; [done|]. by rewrite Z.eqb_refl in H.
Qed.
Definition index_of (a : MemorySegmentAccess) : Z := match access_type a with Element i => i | WholeWord => 0 end.
Definition is_whole (a : MemorySegmentAccess) : bool := match access_type a with Element i => false | WholeWord => true end.

(** The columns of the row of an access *)
Record shows_access (l : row) (prev : felt * felt * felt) (ctx wa : Z) (a : MemorySegmentAccess) : Prop := {
  sa_read : l (ColChiplet 3) = felt_bit (negb (is_write a));
  sa_word : l (ColChiplet 4) = felt_bit (is_whole a);
  sa_ctx : l (ColChiplet 5) = from_u32 ctx;
  sa_addr : l (ColChiplet 6) = from_u32 wa;
  sa_idx0 : l (ColChiplet 7) = felt_bit (Z.odd (index_of a));
  sa_idx1 : l (ColChiplet 8) = felt_bit (2 <=? index_of a);
  sa_clk : l (ColChiplet 9) = access_clk a;
  sa_value : forall j, (j < 4)%nat -> word_get (access_word a) j = Some (l (ColChiplet (10 + j)));
  sa_delta : let delta := row_delta prev.1.1 prev.1.2 prev.2 (from_u32 ctx) (from_u32 wa) (access_clk a) in
    (⟦delta⟧ < 2 ^ 32 -> (l (ColChiplet 15) * new_unchecked 65536 + l (ColChiplet 14))%F = delta) /\
    l (ColChiplet 16) = inverse_or_zero delta;
  sa_same : l (ColChiplet 17) = felt_bit (bool_decide (prev.1.1 = from_u32 ctx) && bool_decide (prev.1.2 = from_u32 wa));
}.

Lemma split_join (x : felt) : ⟦x⟧ < 2 ^ 32 -> let '(hi, lo) := split_element_u32_into_u16 x in (hi * new_unchecked 65536 + lo)%F = x.
Proof.
  intros Hx. pose proof (canonical_range x). unfold split_element_u32_into_u16, split_u32_into_u16.
  change 65535 with (Z.ones 16). rewrite !Z.land_ones by lia. rewrite Z.shiftr_div_pow2 by lia.
  pose proof (Z.mod_pos_bound ⟦x⟧ (2 ^ 16) ltac:(lia)). pose proof (Z.div_mod ⟦x⟧ (2 ^ 16) ltac:(lia)).
  rewrite (Z.mod_small (⟦x⟧ / 2 ^ 16)) by (split; [apply Z.div_pos; lia|apply Z.div_lt_upper_bound; lia]).
  assert (0 <= ⟦x⟧ / 2 ^ 16) by (apply Z.div_pos; lia).
  rewrite <-!of_Z_small by (unfold modulus; lia). change 65536 with (2 ^ 16). rewrite <-of_Z_mul, <-of_Z_add. transitivity (of_Z ⟦x⟧); [f_equal; lia|apply of_Z_canonical].
Qed.
Lemma row_shows l prev ctx wa a r : entry_wf (ctx, wa, a) -> row_of_access prev (ctx, wa, a) r -> shows l 3 r -> shows_access l prev ctx wa a.
Proof.
  destruct prev as [[pc pa] pk]. intros (_ & _ & _ & Hty) (rows & Hf & ->) Hs. unfold fill_row in Hf.
  destruct (index_bits (access_type a)) as [[iw [i1 i0]]| |] eqn:E; try done. cbn [mbind outcome_bind] in Hf.
  set (delta := row_delta pc pa pk (from_u32 ctx) (from_u32 wa) (access_clk a)) in *.
  pose proof (split_join delta) as Hj. destruct (split_element_u32_into_u16 delta) as [hi lo]. injection Hf as <-. cbn [word_elements app] in Hs.
  rewrite !shows_cons in Hs. destruct_and! Hs.
  assert (iw = felt_bit (is_whole a) /\ i0 = felt_bit (Z.odd (index_of a)) /\ i1 = felt_bit (2 <=? index_of a)) as (-> & -> & ->).
  { unfold is_whole, index_of. destruct (access_type a) as [i|]; [|by injection E as <- <- <-].
    assert (i = 0 \/ i = 1 \/ i = 2 \/ i = 3) as [->|[->|[->| ->]]] by lia; by injection E as <- <- <-. }
  split; try done.
  - unfold is_write. destruct (operation a); done.
  - intros j Hj'. do 4 (destruct j as [|j]; [cbn; by f_equal|]). lia.
  - cbn [fst snd]. fold delta. split; [|done]. intros Hd. rewrite <-(Hj Hd). congruence.
Qed.

Lemma not_written_eval l n prev ctx wa a j : entry_wf (ctx, wa, a) -> shows_access n prev ctx wa a -> (j < 4)%nat -> eval l n (not_written j) = felt_bit (negb (writesb a j)).
Proof.
  intros (_ & _ & _ & Hty) Ha Hj. unfold not_written, is_element_write, selected, chip'. destruct Ha as [H3 H4 _ _ H7 H8 _ _ _ _].
  unfold writesb, is_whole, index_of in *.
  destruct (access_type a) as [i|]; [assert (i = 0 \/ i = 1 \/ i = 2 \/ i = 3) as [->|[->|[->| ->]]] by lia|]; destruct (is_write a);
    (do 4 (destruct j as [|j]; [cbn [eval enot]; unfold AirMemory.is_read, AirMemory.is_word, idx0, idx1; rewrite H3, H4, H7, H8, ?eval_E1; cbv [felt_bit negb andb orb Z.eqb Z.of_nat Pos.of_succ_nat Pos.succ Z.odd Z.leb Z.compare Pos.compare Pos.compare_cont Pos.eqb]; ring|])); lia.
Qed.
Lemma inverse_or_zero_mul (x : felt) : x <> ZERO -> (x * inverse_or_zero x)%F = ONE.
Proof. intros Hx. unfold inverse_or_zero. rewrite bool_decide_false by done. rewrite <-(inverse_mul x Hx). ring. Qed.
(** The selection of the difference between two accesses *)
Lemma select_ok (c c' a a' k k' d e s w : felt) : let delta := row_delta c a k c' a' k' in
  d = inverse_or_zero delta -> e = delta -> s = felt_bit (bool_decide (c = c') && bool_decide (a = a')) -> (c = c' -> a = a' -> k = k' -> w = ZERO) ->
  ((c' - c) * d * ((c' - c) * d - ONE) = ZERO /\ (ONE - (c' - c) * d) * (c' - c) = ZERO /\
   (ONE - (c' - c) * d) * ((a' - a) * d * ((a' - a) * d - ONE)) = ZERO /\
   (ONE - (c' - c) * d) * ((ONE - (a' - a) * d) * (a' - a)) = ZERO /\
   s - (ONE - (c' - c) * d) * (ONE - (a' - a) * d) = ZERO /\
   (c' - c) * d * (c' - c) + (ONE - (c' - c) * d) * ((a' - a) * d * (a' - a) + (ONE - (a' - a) * d) * (k' - k)) - e = ZERO /\
   s * ((ONE - (k' - k) * d) * w) = ZERO)%F.
Proof.
  intros delta -> -> -> Hw. assert (forall x y : felt, (x - y)%F = ZERO <-> x = y) as Hsub by (intros x y; split; [apply felt_sub_zero|intros ->; ring]).
  unfold delta, row_delta. destruct (decide (c = c')) as [<-|Hc].
  - rewrite (bool_decide_false (c <> c)), (bool_decide_true (c = c)) by tauto. destruct (decide (a = a')) as [<-|Ha].
    + rewrite (bool_decide_false (a <> a)), (bool_decide_true (a = a)) by tauto. cbn [andb felt_bit].
      assert (forall y : felt, ((c - c) * y)%F = ZERO) as -> by (intros; ring). assert (forall y : felt, ((a - a) * y)%F = ZERO) as -> by (intros; ring).
      split_and!; try ring. destruct (decide (k = k')) as [E|E]; [rewrite (Hw eq_refl eq_refl E); ring|].
      rewrite inverse_or_zero_mul by (rewrite Hsub; congruence). ring.
    + rewrite (bool_decide_true (a <> a')), (bool_decide_false (a = a')) by done. cbn [andb felt_bit].
      assert (forall y : felt, ((c - c) * y)%F = ZERO) as -> by (intros; ring). rewrite inverse_or_zero_mul by (rewrite Hsub; congruence). split_and!; ring.
  - rewrite (bool_decide_true (c <> c')), (bool_decide_false (c = c')) by done. cbn [andb felt_bit].
    rewrite inverse_or_zero_mul by (rewrite Hsub; congruence). split_and!; ring.
Qed.

Section Rows.
Variables (l n : row) (ctx wa ctx' wa' : Z) (a a' : MemorySegmentAccess).
Hypothesis Hy : entry_wf (ctx', wa', a').

Lemma memory_binary_ok first last prev : in_region l RMemory -> entry_wf (ctx, wa, a) -> shows_access l prev ctx wa a -> satisfied first last l n binary_constraints.
Proof.
  intros Hl _ [H3 H4 _ _ H7 H8 _ _ _ _]. apply (residual_satisfied _ _ _ _ _ _ Hl). open_goal. rewrite H3, H4, H7, H8.
  split_and!; try apply Bitwise.bit_square; try done; unfold is_whole, index_of; destruct (access_type a); cbn; ring.
Qed.
(** The first access of the table *)
Lemma memory_first_ok first last prev : shows_access n prev ctx' wa' a' -> access_first a' -> satisfied first last l n first_row_constraints.
Proof using Hy.
  intros Hn Hf. apply when_ok. cbn [seq fmap list_fmap concat]. rewrite app_nil_r, !satisfied_app.
  assert (forall j, (j < 4)%nat -> satisfied first last l n (when (not_written j) (assert_zero (chip' (value j))))) as H; [|split_and!; apply H; lia].
  intros j Hj. destruct (writesb a' j) eqn:E; [apply when_zero; rewrite (not_written_eval l n prev ctx' wa' a' j Hy Hn Hj), E; done|].
  apply when_ok, satisfied_conj. split; [|done]. unfold holds. cbn. pose proof (sa_value _ _ _ _ _ Hn j Hj) as Hv.
  rewrite (Hf j Hj (writesb_written _ _ E)) in Hv. by injection Hv as <-.
Qed.

Hypothesis Hx : entry_wf (ctx, wa, a).
Hypothesis Hlt : access_lt (ctx, wa, a) (ctx', wa', a').

Lemma from_u32_inj x y : 0 <= x < 2 ^ 32 -> 0 <= y < 2 ^ 32 -> from_u32 x = from_u32 y <-> x = y.
Proof. intros Hx' Hy'. split; [|by intros ->]. intros H. apply (f_equal as_canonical_u64) in H. by rewrite !canonical_from_u32 in H. Qed.
Lemma delta_small : ⟦row_delta (from_u32 ctx) (from_u32 wa) (access_clk a) (from_u32 ctx') (from_u32 wa') (access_clk a')⟧ < 2 ^ 32.
Proof using Hx Hy Hlt.
  destruct Hx as (Hc & Hw & Hk & _), Hy as (Hc' & Hw' & Hk' & _). unfold access_lt in Hlt. unfold row_delta.
  destruct (bool_decide_reflect (from_u32 ctx <> from_u32 ctx')) as [E|E]; [|destruct (bool_decide_reflect (from_u32 wa <> from_u32 wa')) as [E'|E']].
  - rewrite canonical_sub_small, !canonical_from_u32 by (rewrite ?canonical_from_u32 by done; lia). lia.
  - apply dec_stable in E. apply from_u32_inj in E; [|done..]. rewrite canonical_sub_small, !canonical_from_u32 by (rewrite ?canonical_from_u32 by done; lia). lia.
  - apply dec_stable in E, E'. apply from_u32_inj in E, E'; [|done..]. assert (access_after a a') as (Hle & _) by (destruct Hlt as [?|[_ [?|?]]]; [lia..|tauto]).
    felt_ranges. rewrite canonical_sub_small by lia. lia.
Qed.
Lemma values_kept j : (j < 4)%nat -> writesb a' j = false -> forall v, word_get (access_word a) j = Some v ->
  word_get (access_word a') j = Some (felt_bit (bool_decide (from_u32 ctx = from_u32 ctx') && bool_decide (from_u32 wa = from_u32 wa')) * v)%F.
Proof using Hx Hy Hlt.
  intros Hj Hw v Hv. destruct Hx as (Hc & Hwa & _), Hy as (Hc' & Hwa' & _). unfold access_lt in Hlt. apply writesb_written in Hw.
  assert (forall b, access_first a' -> b = false -> word_get (access_word a') j = Some (felt_bit b * v)%F) as Hfirst.
  { intros b H ->. rewrite (H j Hj Hw). f_equal. cbn. ring. }
  destruct Hlt as [[? H]|[-> [[? H]|[-> (_ & _ & H)]]]].
  - apply Hfirst; [done|]. rewrite bool_decide_false; [done|]. rewrite from_u32_inj by done. lia.
  - apply Hfirst; [done|]. rewrite (bool_decide_false (from_u32 wa = from_u32 wa')); [apply andb_false_r|]. rewrite from_u32_inj by done. lia.
  - rewrite !bool_decide_true by done. rewrite (H j Hj Hw), Hv. f_equal. cbn. ring.
Qed.
Lemma any_write_zero : from_u32 ctx = from_u32 ctx' -> from_u32 wa = from_u32 wa' -> access_clk a = access_clk a' ->
  (ONE - felt_bit (negb (is_write a)) + (ONE - felt_bit (negb (is_write a'))))%F = ZERO.
Proof using Hx Hy Hlt.
  intros E E' Ek. destruct Hx as (Hc & Hwa & _), Hy as (Hc' & Hwa' & _). apply from_u32_inj in E, E'; [|done..]. unfold access_lt in Hlt.
  assert (access_after a a') as (_ & H & _) by (destruct Hlt as [?|[_ [?|?]]]; [lia..|tauto]). destruct (H Ek) as [Ho Ho']. unfold is_write. rewrite Ho, Ho'. rewrite bool_decide_false by done. cbn. ring.
Qed.
Hypothesis Hn : shows_access n (values (ctx, wa, a)) ctx' wa' a'.
Lemma memory_transition_ok first last prev : shows_access l prev ctx wa a -> satisfied first last l n transition_constraints.
Proof using Hx Hy Hn Hlt.
  intros Hl. apply when_ok. rewrite !satisfied_app.
  destruct Hl as [L3 _ L5 L6 _ _ L9 Lv _ _]. pose proof Hn as [N3 _ N5 N6 _ _ N9 Nv [Nd Ni] Ns]. cbn [values fst snd] in Nd, Ni, Ns.
  destruct (select_ok _ _ _ _ _ _ _ _ _ _ Ni (Nd delta_small) Ns any_write_zero) as (Q1 & Q2 & Q3 & Q4 & Q5 & Q6 & Q7).
  split_and!; [open_goal; rewrite ?L3, ?L5, ?L6, ?L9, ?N3, ?N5, ?N6, ?N9, ?new_unchecked_1; by split_and!..|].
  cbn [seq fmap list_fmap concat]. rewrite app_nil_r, !satisfied_app.
  assert (forall j, (j < 4)%nat -> satisfied first last l n (when (not_written j) (assert_eq (chip' (value j)) (chip' is_same_ctx_and_addr * chip (value j))))) as H;
    [|split_and!; apply H; lia].
  intros j Hj. destruct (writesb a' j) eqn:E; [apply when_zero; rewrite (not_written_eval l n _ ctx' wa' a' j Hy Hn Hj), E; done|].
  apply when_ok, satisfied_conj. split; [|done]. unfold holds. cbn. specialize (Lv j Hj). specialize (Nv j Hj).
  rewrite (values_kept j Hj E _ Lv) in Nv. injection Nv as Nv. unfold is_same_ctx_and_addr, value. rewrite <-Nv, Ns. ring.
Qed.
End Rows.
End Complete.
End MemoryTable.
