(* ===== verification/TraceAce.v ===== *)
(** * Table of the circuit evaluation chiplet

    [processor/src/trace/chiplets/ace]: the evaluations of circuits are kept by the cycle they happen in, and each one fills a section of
    rows from its columns.  The columns come from the evaluation loop of [Ace.v]. *)

From stdpp Require Import sorting.
From S2P Require Import Prelude Field Types Memory Ace AceCorrect Operations Air AirFlags AirStack AirRows AirDecoder AirTrace Chiplets ChipletRegions ChipletAce TraceTables.
From Stdlib Require Import Ring.
Import Air ChipletSelectors.
#[local] Open Scope nat_scope.
#[local] Arguments seq : simpl never.

(** ** Columns of a table

    The cells by column and row; a table has a number of rows, and an access past it panics. *)
Section Columns.
Context {F : Felt}.
Definition columns : Type := nat -> nat -> felt.
Definition zero_columns : columns := fun _ _ => ZERO.

Definition set_cell (len c i : nat) (v : felt) (cols : columns) : result columns :=
  if i <? len then Ok (fun c' i' => if (c' =? c) && (i' =? i) then v else cols c' i') else Panic.
(** [columns[c][a..b].fill(v)] *)
Definition fill_range (len c a b : nat) (v : felt) (cols : columns) : result columns :=
  if (a <=? b) && (b <=? len) then Ok (fun c' i' => if (c' =? c) && ((a <=? i') && (i' <? b)) then v else cols c' i') else Panic.
(** [columns[c][a..b].copy_from_slice(vals)] *)
Definition copy_range (len c a b : nat) (vals : list felt) (cols : columns) : result columns :=
  if (a <=? b) && (b <=? len) && (length vals =? b - a)
  then Ok (fun c' i' => if (c' =? c) && ((a <=? i') && (i' <? b)) then nth (i' - a) vals ZERO else cols c' i') else Panic.
End Columns.

Module AceTable.
Section Ace.
Context {F : Felt} {Q : Quad}.
Add Ring felt_ring_ace_trace : felt_ring_theory.

Definition SELECTOR_START_IDX : nat := 0.
Definition SELECTOR_BLOCK_IDX : nat := 1.
Definition CTX_IDX : nat := 2.
Definition PTR_IDX : nat := 3.
Definition CLK_IDX : nat := 4.
Definition EVAL_OP_IDX : nat := 5.
Definition ID_0_IDX : nat := 6.
Definition V_0_0_IDX : nat := 7.
Definition V_0_1_IDX : nat := 8.
Definition ID_1_IDX : nat := 9.
Definition V_1_0_IDX : nat := 10.
Definition V_1_1_IDX : nat := 11.
Definition READ_NUM_EVAL_IDX : nat := 12.
Definition ID_2_IDX : nat := 12.
Definition V_2_0_IDX : nat := 13.
Definition V_2_1_IDX : nat := 14.
Definition M_1_IDX : nat := 14.
Definition M_0_IDX : nat := 15.

Definition num_rows (e : CircuitEvaluation) : nat := Z.to_nat (num_read_rows e + num_eval_rows e).

(** The loops over the multiplicities, and what is left of the iterator *)
Definition fill_read_multiplicity (len : nat) (s : list felt * columns) (row_index : nat) : result (list felt * columns) :=
  match s with
  | (m_0 :: m_1 :: rest, cols) =>
    cols ← set_cell len M_0_IDX row_index m_0 cols;
    cols ← set_cell len M_1_IDX row_index m_1 cols;
    Ok (rest, cols)
  | _ => Panic
  end.
Definition fill_eval_multiplicity (len : nat) (s : list felt * columns) (row_index : nat) : result (list felt * columns) :=
  match s with
  | (m_0 :: rest, cols) => cols ← set_cell len M_0_IDX row_index m_0 cols; Ok (rest, cols)
  | _ => Panic
  end.

(** [CircuitEvaluation::fill], on a table of [len] rows *)
Definition circuit_fill (len : nat) (e : CircuitEvaluation) (offset : nat) (cols : columns) : result columns :=
  let num_read := Z.to_nat (num_read_rows e) in
  let num_eval := Z.to_nat (num_eval_rows e) in
  let last := offset + (num_read + num_eval) in
  let read_end := offset + num_read in
  let eval_end := read_end + num_eval in
  cols ← set_cell len SELECTOR_START_IDX offset ONE cols;
  cols ← fill_range len SELECTOR_START_IDX (S offset) len ZERO cols;
  cols ← fill_range len SELECTOR_BLOCK_IDX offset read_end ZERO cols;
  cols ← fill_range len SELECTOR_BLOCK_IDX read_end eval_end ONE cols;
  cols ← fill_range len CTX_IDX offset last (from_u32 (ce_ctx e)) cols;
  cols ← copy_range len PTR_IDX offset last (col_ptr e) cols;
  cols ← fill_range len CLK_IDX offset last (from_u32 (ce_clk e)) cols;
  cols ← fill_range len READ_NUM_EVAL_IDX offset read_end (from_u32 (num_eval_rows e - 1)) cols;
  cols ← copy_range len EVAL_OP_IDX read_end eval_end (col_op e) cols;
  cols ← copy_range len ID_0_IDX offset last (wc_id (col_wire_out e)) cols;
  cols ← copy_range len V_0_0_IDX offset last (wc_v_0 (col_wire_out e)) cols;
  cols ← copy_range len V_0_1_IDX offset last (wc_v_1 (col_wire_out e)) cols;
  cols ← copy_range len ID_1_IDX offset last (wc_id (col_wire_left e)) cols;
  cols ← copy_range len V_1_0_IDX offset last (wc_v_0 (col_wire_left e)) cols;
  cols ← copy_range len V_1_1_IDX offset last (wc_v_1 (col_wire_left e)) cols;
  cols ← copy_range len ID_2_IDX read_end eval_end (wc_id (col_wire_right e)) cols;
  cols ← copy_range len V_2_0_IDX read_end eval_end (wc_v_0 (col_wire_right e)) cols;
  cols ← copy_range len V_2_1_IDX read_end eval_end (wc_v_1 (col_wire_right e)) cols;
  let multiplicities := (fun '(_, m) => from_u32 m) <$> wires (wire_bus e) in
  '(multiplicities, cols) ← for_each (seq offset num_read) (fill_read_multiplicity len) (multiplicities, cols);
  '(_, cols) ← for_each (seq read_end num_eval) (fill_eval_multiplicity len) (multiplicities, cols);
  Ok cols.

(** [Ace]: the evaluations by cycle *)
Definition Ace : Type := gmap Z CircuitEvaluation.
Definition evaluations (ace : Ace) : list CircuitEvaluation := (btree_entries Z.leb ace).*2.
Definition ace_trace_len (ace : Ace) : nat := foldl (fun n e => n + num_rows e) 0 (evaluations ace).
Definition add_circuit_evaluation (ace : Ace) (clk : Z) (e : CircuitEvaluation) : Ace := <[clk := e]> ace.

(** [Ace::fill_trace]: the columns written to the fragment *)
Definition fill_step (len : nat) (s : nat * columns) (e : CircuitEvaluation) : result (nat * columns) :=
  let '(offset, cols) := s in
  cols ← circuit_fill len e offset cols;
  Ok (offset + num_rows e, cols).
Definition ace_fill (ace : Ace) : result columns :=
  let len := ace_trace_len ace in
  '(_, cols) ← for_each (evaluations ace) (fill_step len) (0, zero_columns);
  Ok cols.

(** ** The columns of an evaluation *)
Record section_wf (e : CircuitEvaluation) (R E : nat) (p0 : felt) : Prop := {
  sw_read : num_read_rows e = Z.of_nat R;
  sw_eval : num_eval_rows e = Z.of_nat E;
  sw_nonempty : 0 < R /\ 0 < E;
  sw_size : (2 * Z.of_nat R + Z.of_nat E <= MAX_NUM_ACE_WIRES)%Z;
  sw_ptr : col_ptr e = ((fun k => (p0 + of_Z (4 * Z.of_nat k))%F) <$> seq 0 R) ++ ((fun j => (p0 + of_Z (4 * Z.of_nat R + Z.of_nat j))%F) <$> seq 0 E);
  sw_out : wc_id (col_wire_out e) = ((fun k => of_Z (2 * Z.of_nat R + Z.of_nat E - 1 - 2 * Z.of_nat k)) <$> seq 0 R) ++ ((fun j => of_Z (Z.of_nat E - 1 - Z.of_nat j)) <$> seq 0 E);
  sw_left : exists l, length l = E /\ wc_id (col_wire_left e) = ((fun k => of_Z (2 * Z.of_nat R + Z.of_nat E - 2 - 2 * Z.of_nat k)) <$> seq 0 R) ++ l;
  sw_lengths : length (wc_v_0 (col_wire_out e)) = R + E /\ length (wc_v_1 (col_wire_out e)) = R + E /\
    length (wc_v_0 (col_wire_left e)) = R + E /\ length (wc_v_1 (col_wire_left e)) = R + E /\
    length (wc_id (col_wire_right e)) = E /\ length (wc_v_0 (col_wire_right e)) = E /\ length (wc_v_1 (col_wire_right e)) = E /\ length (col_op e) = E /\
    length (wires (wire_bus e)) = 2 * R + E;
  (** The gates *)
  sw_gates : forall j, j < E -> exists op, nth j (col_op e) ZERO = ace_op_felt op /\
    quad_new (nth (R + j) (wc_v_0 (col_wire_out e)) ZERO) (nth (R + j) (wc_v_1 (col_wire_out e)) ZERO) =
    ace_apply op (quad_new (nth (R + j) (wc_v_0 (col_wire_left e)) ZERO) (nth (R + j) (wc_v_1 (col_wire_left e)) ZERO))
      (quad_new (nth j (wc_v_0 (col_wire_right e)) ZERO) (nth j (wc_v_1 (col_wire_right e)) ZERO));
  sw_output : quad_new (nth (R + E - 1) (wc_v_0 (col_wire_out e)) ZERO) (nth (R + E - 1) (wc_v_1 (col_wire_out e)) ZERO) = quad_zero;
}.

(** *** The columns after [r] reads and [g] gates *)
Record rows_wf (e : CircuitEvaluation) (W : Z) (p0 : felt) (r g : nat) : Prop := {
  rw_width : num_wires (wire_bus e) = W;
  rw_next : id_next (wire_bus e) = of_Z (W - 1 - 2 * Z.of_nat r - Z.of_nat g);
  rw_ptr : col_ptr e = ((fun k => (p0 + of_Z (4 * Z.of_nat k))%F) <$> seq 0 r) ++ ((fun j => (p0 + of_Z (4 * Z.of_nat r + Z.of_nat j))%F) <$> seq 0 g);
  rw_out : wc_id (col_wire_out e) = ((fun k => of_Z (W - 1 - 2 * Z.of_nat k)) <$> seq 0 r) ++ ((fun j => of_Z (W - 1 - 2 * Z.of_nat r - Z.of_nat j)) <$> seq 0 g);
  rw_left : exists l, length l = g /\ wc_id (col_wire_left e) = ((fun k => of_Z (W - 2 - 2 * Z.of_nat k)) <$> seq 0 r) ++ l;
  rw_lengths : length (wc_v_0 (col_wire_out e)) = r + g /\ length (wc_v_1 (col_wire_out e)) = r + g /\
    length (wc_v_0 (col_wire_left e)) = r + g /\ length (wc_v_1 (col_wire_left e)) = r + g /\
    length (wc_id (col_wire_right e)) = g /\ length (wc_v_0 (col_wire_right e)) = g /\ length (wc_v_1 (col_wire_right e)) = g /\ length (col_op e) = g /\
    length (wires (wire_bus e)) = 2 * r + g;
  rw_gates : forall j, j < g -> exists op, nth j (col_op e) ZERO = ace_op_felt op /\
    quad_new (nth (r + j) (wc_v_0 (col_wire_out e)) ZERO) (nth (r + j) (wc_v_1 (col_wire_out e)) ZERO) =
    ace_apply op (quad_new (nth (r + j) (wc_v_0 (col_wire_left e)) ZERO) (nth (r + j) (wc_v_1 (col_wire_left e)) ZERO))
      (quad_new (nth j (wc_v_0 (col_wire_right e)) ZERO) (nth j (wc_v_1 (col_wire_right e)) ZERO));
  rw_last : 0 < g -> exists m, last (wires (wire_bus e)) =
    Some (quad_new (nth (r + g - 1) (wc_v_0 (col_wire_out e)) ZERO) (nth (r + g - 1) (wc_v_1 (col_wire_out e)) ZERO), m);
}.

Lemma seq_snoc {A} (f : nat -> A) n : f <$> seq 0 (S n) = (f <$> seq 0 n) ++ [f n].
Proof. by rewrite seq_S, fmap_app. Qed.
Lemma next_id (a b : Z) : (of_Z a - ONE)%F = of_Z (a - 1) /\ (of_Z b + of_Z 4)%F = of_Z (b + 4).
Proof. by rewrite of_Z_sub, of_Z_1, of_Z_add. Qed.

Lemma do_read_wf e W p0 r w : rows_wf e W p0 r 0 -> rows_wf (do_read e (p0 + of_Z (4 * Z.of_nat r))%F w) W p0 (S r) 0.
Proof.
  intros [Hw Hn Hp Ho (l & Hl & Hle) (L1 & L2 & L3 & L4 & L5 & L6 & L7 & L8 & L9) _ _]. rewrite Z.sub_0_r in Hn.
  assert (forall z, (of_Z z - ONE)%F = of_Z (z - 1)) as Hone by (intros z; by rewrite of_Z_sub, of_Z_1).
  unfold do_read. cbn. split; cbn; try done.
  - rewrite Hn, !Hone. f_equal. lia.
  - by rewrite Hp, (seq_snoc _ r), <-!app_assoc.
  - by rewrite Ho, Hn, (seq_snoc _ r), <-!app_assoc.
  - exists []. split; [done|]. destruct l; [|done]. rewrite Hle, Hn, Hone, !app_nil_r, (seq_snoc _ r).
    by replace (W - 1 - 2 * Z.of_nat r - 1)%Z with (W - 2 - 2 * Z.of_nat r)%Z by lia.
  - rewrite !length_app. cbn. lia.
  - lia.
  - lia.
Qed.
Lemma bus_read_value_keeps b id v b' : bus_read_value b id = Some (v, b') -> id_next b' = id_next b /\ num_wires b' = num_wires b /\ length (wires b') = length (wires b).
Proof.
  unfold bus_read_value. destruct (id + 1 <=? num_wires b)%Z; [|done]. destruct (wires b !! _) as [[v0 m]|]; [|done]. cbn. intros [= <- <-]. cbn. by rewrite length_insert.
Qed.
Lemma nth_snoc {A} (l : list A) x d k : length l = k -> nth k (l ++ [x]) d = x.
Proof. intros <-. rewrite app_nth2, Nat.sub_diag by lia. done. Qed.
Lemma do_eval_wf e W p0 r g i e' : rows_wf e W p0 r g -> do_eval e (p0 + of_Z (4 * Z.of_nat r + Z.of_nat g))%F i = Ok e' -> rows_wf e' W p0 r (S g).
Proof.
  intros [Hw Hn Hp Ho (l & Hl & Hle) (L1 & L2 & L3 & L4 & L5 & L6 & L7 & L8 & L9) Hg _] H. unfold do_eval in H.
  destruct (decode_instruction i) as [[[il ir] op]|]; [|done]. cbn in H.
  destruct (bus_read_value (wire_bus e) il) as [[vl b1]|] eqn:E1; [|done]. cbn in H.
  destruct (bus_read_value b1 ir) as [[vr b2]|] eqn:E2; [|done]. cbn in H. injection H as <-.
  apply bus_read_value_keeps in E1 as (N1 & W1 & K1), E2 as (N2 & W2 & K2).
  split; cbn.
  - congruence.
  - rewrite N2, N1, Hn. transitivity (of_Z (W - 1 - 2 * Z.of_nat r - Z.of_nat g - 1)); [by rewrite (of_Z_sub _ 1), of_Z_1|f_equal; lia].
  - by rewrite Hp, (seq_snoc _ g), <-!app_assoc.
  - rewrite Ho, N2, N1, Hn, (seq_snoc _ g), <-!app_assoc. done.
  - exists (l ++ [from_u32 il]). rewrite length_app, Hle, <-app_assoc. cbn. split; [lia|done].
  - rewrite !length_app. cbn. lia.
  - intros j Hj. destruct (decide (j = g)) as [->|].
    + exists op. rewrite !nth_snoc by lia. by rewrite !quad_eta.
    + destruct (Hg j ltac:(lia)) as (op' & ? & ?). exists op'. rewrite !app_nth1 by lia. done.
  - intros _. exists 0%Z. rewrite last_snoc. replace (r + S g - 1) with (r + g) by lia. rewrite !nth_snoc by lia. by rewrite quad_eta.
Qed.
Lemma circuit_new_wf ctx clk r g e p0 : circuit_new ctx clk r g = Ok e -> (0 < 2 * r + g)%Z -> rows_wf e (2 * r + g) p0 0 0 /\ num_read_rows e = r /\ num_eval_rows e = g /\ (2 * r + g <= MAX_NUM_ACE_WIRES)%Z.
Proof.
  unfold circuit_new. destruct (Z.leb_spec (2 * r + g) MAX_NUM_ACE_WIRES); [|done]. intros [= <-] Hpos. split_and!; try done. split; cbn; try done; [|by exists []|lia|lia].
  change MAX_NUM_ACE_WIRES with 1073741823%Z in *. apply canonical_inj. rewrite canonical_from_u32, canonical_of_Z, Z.mod_small by (unfold modulus; lia). lia.
Qed.
Lemma do_read_counts e p w : num_read_rows (do_read e p w) = num_read_rows e /\ num_eval_rows (do_read e p w) = num_eval_rows e.
Proof. done. Qed.
Lemma do_eval_counts e p i e' : do_eval e p i = Ok e' -> num_read_rows e' = num_read_rows e /\ num_eval_rows e' = num_eval_rows e.
Proof.
  unfold do_eval. destruct (decode_instruction i) as [[[il ir] op]|]; [|done]. cbn. destruct (bus_read_value _ il) as [[vl b1]|]; [|done]. cbn.
  destruct (bus_read_value b1 ir) as [[vr b2]|]; [|done]. cbn. by intros [= <-].
Qed.

Definition same_counts (e e' : CircuitEvaluation) : Prop := num_read_rows e' = num_read_rows e /\ num_eval_rows e' = num_eval_rows e.
Lemma read_rows_wf mem ctx W n p0 r0 k e s : rows_wf e W p0 r0 0 -> for_each (seq k n) (read_row mem ctx) ((p0 + of_Z (4 * Z.of_nat r0))%F, e) = Ok s ->
  s.1 = (p0 + of_Z (4 * Z.of_nat (r0 + n)))%F /\ rows_wf s.2 W p0 (r0 + n) 0 /\ same_counts e s.2.
Proof.
  revert r0 k e. induction n as [|n IH]; intros r0 k e He H; [injection H as <-; by rewrite Nat.add_0_r|].
  change (seq k (S n)) with (k :: seq (S k) n) in H. cbn [for_each] in H.
  apply bind_Ok_inv in H as ([p1 e1] & H1 & H). unfold read_row in H1. apply bind_Ok_inv in H1 as (w & _ & H1). injection H1 as <- <-.
  pose proof (do_read_wf _ _ _ _ w He) as He'.
  assert ((p0 + of_Z (4 * Z.of_nat r0) + PTR_OFFSET_WORD)%F = (p0 + of_Z (4 * Z.of_nat (S r0)))%F) as Ep.
  { unfold PTR_OFFSET_WORD. rewrite <-(of_Z_small 4) by (unfold modulus; lia). replace (4 * Z.of_nat (S r0))%Z with (4 * Z.of_nat r0 + 4)%Z by lia. rewrite (of_Z_add _ 4). ring. }
  rewrite Ep in H. destruct (IH (S r0) (S k) _ He' H) as (H1 & H2 & H3 & H4). replace (r0 + S n) with (S r0 + n) by lia. done.
Qed.
Lemma eval_rows_wf mem ctx W n p0 r g0 k e s : rows_wf e W p0 r g0 -> for_each (seq k n) (eval_row mem ctx) ((p0 + of_Z (4 * Z.of_nat r + Z.of_nat g0))%F, e) = Ok s ->
  rows_wf s.2 W p0 r (g0 + n) /\ same_counts e s.2.
Proof.
  revert g0 k e. induction n as [|n IH]; intros g0 k e He H; [injection H as <-; by rewrite Nat.add_0_r|].
  change (seq k (S n)) with (k :: seq (S k) n) in H. cbn [for_each] in H.
  apply bind_Ok_inv in H as ([p1 e1] & H1 & H). unfold eval_row in H1. apply bind_Ok_inv in H1 as (i & _ & H1). apply bind_Ok_inv in H1 as (e' & E & H1).
  injection H1 as <- <-. pose proof (do_eval_wf _ _ _ _ _ _ _ He E) as He'.
  assert ((p0 + of_Z (4 * Z.of_nat r + Z.of_nat g0) + PTR_OFFSET_ELEM)%F = (p0 + of_Z (4 * Z.of_nat r + Z.of_nat (S g0)))%F) as Ep.
  { unfold PTR_OFFSET_ELEM. replace (4 * Z.of_nat r + Z.of_nat (S g0))%Z with (4 * Z.of_nat r + Z.of_nat g0 + 1)%Z by lia. rewrite (of_Z_add _ 1), of_Z_1. ring. }
  rewrite Ep in H. destruct (IH (S g0) (S k) _ He' H) as (H1 & H2 & H3). destruct (do_eval_counts _ _ _ _ E) as [C1 C2].
  replace (g0 + S n) with (S g0 + n) by lia. split; [done|]. split; congruence.
Qed.
(** A successful evaluation *)
Lemma eval_circuit_section ctx ptr clk nv ne mem e : eval_circuit_impl ctx ptr clk nv ne mem = Ok e -> exists R E, section_wf e R E ptr.
Proof.
  intros H. unfold eval_circuit_impl in H. felt_ranges.
  destruct (MAX_NUM_ACE_WIRES <? _)%Z; [done|]. destruct (negb (⟦nv⟧ mod 2 =? 0)%Z || (⟦nv⟧ =? 0)%Z) eqn:Ev; [done|].
  destruct (negb (⟦ne⟧ mod 4 =? 0)%Z || (⟦ne⟧ =? 0)%Z) eqn:Ee; [done|]. apply orb_false_iff in Ev as [Hv2 Hv0], Ee as [_ He0].
  apply negb_false_iff, Z.eqb_eq in Hv2. apply Z.eqb_neq in Hv0, He0.
  pose proof (Z.div_mod ⟦nv⟧ 2 ltac:(lia)) as Hdiv. rewrite Hv2, Z.add_0_r in Hdiv. set (r := (⟦nv⟧ / 2)%Z) in *.
  destruct (circuit_new ctx clk r ⟦ne⟧) as [e0| |] eqn:E0; try done. cbn [mbind outcome_bind] in H.
  apply (circuit_new_wf _ _ _ _ _ ptr) in E0 as (Hw0 & Hr0 & Hg0 & Hsize); [|lia].
  destruct (for_each (seq 0 (Z.to_nat r)) _ _) as [[p1 e1]| |] eqn:E1; try done. cbn [mbind outcome_bind] in H.
  destruct (for_each (seq 0 (Z.to_nat ⟦ne⟧)) _ _) as [[p2 e2]| |] eqn:E2; try done. cbn [mbind outcome_bind] in H.
  assert (forall z : felt, z = (z + of_Z (4 * Z.of_nat 0))%F) as Hz by (intros z; change (4 * Z.of_nat 0)%Z with 0%Z; rewrite of_Z_0; ring).
  rewrite (Hz ptr) in E1. destruct (read_rows_wf _ _ _ _ _ 0 _ _ _ Hw0 E1) as (Ep1 & Hw1 & Hr1 & Hg1). cbn [fst snd] in Ep1, Hw1, Hr1, Hg1.
  rewrite Ep1, <-(Z.add_0_r (4 * _)) in E2. destruct (eval_rows_wf _ _ _ _ _ _ 0 _ _ _ Hw1 E2) as (Hw2 & Hr2 & Hg2). cbn [fst snd] in Hw2, Hr2, Hg2.
  destruct (bool_decide_reflect (output_value e2 = Some quad_zero)) as [Ho|]; [|done]. injection H as <-.
  exists (Z.to_nat r), (Z.to_nat ⟦ne⟧). change (0 + Z.to_nat r) with (Z.to_nat r) in *. change (0 + Z.to_nat ⟦ne⟧%Z) with (Z.to_nat ⟦ne⟧) in *.
  set (R := Z.to_nat r) in *. set (E := Z.to_nat ⟦ne⟧) in *. assert (Z.of_nat R = r /\ Z.of_nat E = ⟦ne⟧)%Z as [ER EE] by lia.
  destruct Hw2 as [_ _ Hp Hout Hleft Hlen Hgates Hlast]. rewrite <-ER, <-EE in *. split; try done; try congruence; try lia.
  - rewrite Hout. f_equal. apply list_fmap_ext. intros ? j _. f_equal. lia.
  - unfold output_value in Ho. destruct (bus_is_finalized _); [|done]. destruct (Hlast ltac:(lia)) as (m & Hm). rewrite Hm in Ho. cbn in Ho. by injection Ho.
Qed.

(** ** The rows of a section *)
Definition multiplicity (e : CircuitEvaluation) (k : nat) : felt := nth k ((fun '(_, m) => from_u32 m) <$> wires (wire_bus e)) ZERO.
Definition section_row (e : CircuitEvaluation) (R k : nat) : list felt :=
  let eval := R <=? k in
  [felt_bit (k =? 0); felt_bit eval; from_u32 (ce_ctx e); nth k (col_ptr e) ZERO; from_u32 (ce_clk e);
   if eval then nth (k - R) (col_op e) ZERO else ZERO;
   nth k (wc_id (col_wire_out e)) ZERO; nth k (wc_v_0 (col_wire_out e)) ZERO; nth k (wc_v_1 (col_wire_out e)) ZERO;
   nth k (wc_id (col_wire_left e)) ZERO; nth k (wc_v_0 (col_wire_left e)) ZERO; nth k (wc_v_1 (col_wire_left e)) ZERO;
   if eval then nth (k - R) (wc_id (col_wire_right e)) ZERO else from_u32 (num_eval_rows e - 1);
   if eval then nth (k - R) (wc_v_0 (col_wire_right e)) ZERO else ZERO;
   if eval then nth (k - R) (wc_v_1 (col_wire_right e)) ZERO else multiplicity e (2 * k + 1);
   multiplicity e (if eval then R + k else 2 * k)].

(** The loops over the multiplicities *)
Lemma read_multiplicities len ms n a cols : 2 * n <= length ms -> a + n <= len ->
  exists cols', for_each (seq a n) (fill_read_multiplicity len) (ms, cols) = Ok (drop (2 * n) ms, cols') /\
    forall c i, cols' c i = if (a <=? i) && (i <? a + n) then
      if c =? M_0_IDX then nth (2 * (i - a)) ms ZERO else if c =? M_1_IDX then nth (2 * (i - a) + 1) ms ZERO else cols c i else cols c i.
Proof.
  revert ms a cols. induction n as [|n IH]; intros ms a cols Hms Ha.
  - exists cols. split; [done|]. intros c i. destruct (Nat.leb_spec a i), (Nat.ltb_spec i (a + 0)); try lia; done.
  - destruct ms as [|m0 [|m1 ms]]; cbn [length] in Hms; [lia..|]. change (seq a (S n)) with (a :: seq (S a) n). cbn [for_each].
    unfold fill_read_multiplicity at 2. unfold set_cell. rewrite (proj2 (Nat.ltb_lt a len)) by lia. cbn [mbind outcome_bind].
    edestruct (IH ms (S a)) as (cols' & -> & Hc); [lia..|]. exists cols'. split; [by replace (2 * S n) with (S (S (2 * n))) by lia|].
    intros c i. rewrite Hc. clear Hc. destruct (Nat.leb_spec (S a) i), (Nat.leb_spec a i), (Nat.ltb_spec i (S a + n)), (Nat.ltb_spec i (a + S n)); try lia; cbn [andb].
    + replace (i - a) with (S (i - S a)) by lia. replace (2 * S (i - S a)) with (S (S (2 * (i - S a)))) by lia. cbn [nth Nat.add].
      rewrite (proj2 (Nat.eqb_neq i a)), !andb_false_r by lia. done.
    + rewrite (proj2 (Nat.eqb_neq i a)), !andb_false_r by lia. done.
    + replace i with a by lia. rewrite Nat.eqb_refl, Nat.sub_diag, !andb_true_r. cbn [Nat.mul nth Nat.add]. destruct (Nat.eqb_spec c M_0_IDX) as [->|]; done.
    + rewrite (proj2 (Nat.eqb_neq i a)), !andb_false_r by lia. done.
Qed.
Lemma eval_multiplicities len ms n a cols : n <= length ms -> a + n <= len ->
  exists cols', for_each (seq a n) (fill_eval_multiplicity len) (ms, cols) = Ok (drop n ms, cols') /\
    forall c i, cols' c i = if (a <=? i) && (i <? a + n) then if c =? M_0_IDX then nth (i - a) ms ZERO else cols c i else cols c i.
Proof.
  revert ms a cols. induction n as [|n IH]; intros ms a cols Hms Ha.
  - exists cols. split; [done|]. intros c i. destruct (Nat.leb_spec a i), (Nat.ltb_spec i (a + 0)); try lia; done.
  - destruct ms as [|m0 ms]; cbn [length] in Hms; [lia|]. change (seq a (S n)) with (a :: seq (S a) n). cbn [for_each].
    unfold fill_eval_multiplicity at 2. unfold set_cell. rewrite (proj2 (Nat.ltb_lt a len)) by lia. cbn [mbind outcome_bind].
    edestruct (IH ms (S a)) as (cols' & -> & Hc); [lia..|]. exists cols'. split; [done|].
    intros c i. rewrite Hc. clear Hc. destruct (Nat.leb_spec (S a) i), (Nat.leb_spec a i), (Nat.ltb_spec i (S a + n)), (Nat.ltb_spec i (a + S n)); try lia; cbn [andb];
      try (rewrite (proj2 (Nat.eqb_neq i a)), !andb_false_r by lia); try done.
    + by replace (i - a) with (S (i - S a)) by lia.
    + replace i with a by lia. rewrite Nat.eqb_refl, Nat.sub_diag, !andb_true_r. done.
Qed.

Lemma fill_range_ok len c a b v cols : a <= b <= len ->
  fill_range len c a b v cols = Ok (fun c' i' => if (c' =? c) && ((a <=? i') && (i' <? b)) then v else cols c' i').
Proof. intros H. unfold fill_range. rewrite (proj2 (Nat.leb_le a b)), (proj2 (Nat.leb_le b len)) by lia. done. Qed.
Lemma copy_range_ok len c a b vals cols : a <= b <= len -> length vals = b - a ->
  copy_range len c a b vals cols = Ok (fun c' i' => if (c' =? c) && ((a <=? i') && (i' <? b)) then nth (i' - a) vals ZERO else cols c' i').
Proof. intros H Hl. unfold copy_range. rewrite (proj2 (Nat.leb_le a b)), (proj2 (Nat.leb_le b len)), (proj2 (Nat.eqb_eq _ _) Hl) by lia. done. Qed.

Lemma nth_dropped {A} (l : list A) n i d : nth i (drop n l) d = nth (n + i) l d.
Proof. by rewrite !nth_lookup, lookup_drop. Qed.
Lemma circuit_fill_ok len e R E p0 offset (cols : columns) : section_wf e R E p0 -> offset + (R + E) <= len -> (forall c i, offset <= i -> cols c i = ZERO) ->
  exists cols', circuit_fill len e offset cols = Ok cols' /\ (forall c i, i < offset -> cols' c i = cols c i) /\
    (forall c k, c < 16 -> k < R + E -> cols' c (offset + k) = nth c (section_row e R k) ZERO) /\
    (forall c i, offset + (R + E) <= i -> cols' c i = ZERO).
Proof.
  intros [Hr Hg [HR HE] _ Hp Ho (l & Hl & Hle) (L1 & L2 & L3 & L4 & L5 & L6 & L7 & L8 & L9) _ _] Hlen Hz.
  assert (length (col_ptr e) = R + E) as Lp by (rewrite Hp, length_app, !length_fmap, !length_seq; done).
  assert (length (wc_id (col_wire_out e)) = R + E) as Lo by (rewrite Ho, length_app, !length_fmap, !length_seq; done).
  assert (length (wc_id (col_wire_left e)) = R + E) as Ll by (rewrite Hle, length_app, length_fmap, length_seq; lia).
  unfold circuit_fill. rewrite Hr, Hg, !Nat2Z.id. cbv zeta. unfold set_cell at 1. rewrite (proj2 (Nat.ltb_lt offset len)) by lia. cbn [mbind outcome_bind].
  repeat first [rewrite fill_range_ok by lia; cbn [mbind outcome_bind]|rewrite copy_range_ok by lia; cbn [mbind outcome_bind]].
  edestruct (read_multiplicities len ((fun '(_, m) => from_u32 m) <$> wires (wire_bus e)) R offset) as (cols1 & -> & H1); [rewrite length_fmap; lia|lia|]. cbn [mbind outcome_bind].
  edestruct (eval_multiplicities len (drop (2 * R) ((fun '(_, m) => from_u32 m) <$> wires (wire_bus e))) E (offset + R)) as (cols2 & -> & H2);
    [rewrite length_drop, length_fmap; lia|lia|]. cbn [mbind outcome_bind]. exists cols2. split_and!; [done|..].
  - intros c i Hi. rewrite H2, H1. 
    repeat match goal with |- context [?a <=? i] => rewrite (proj2 (Nat.leb_gt a i)) by lia end. cbn [andb]. rewrite !andb_false_r.
    rewrite (proj2 (Nat.eqb_neq i offset)), andb_false_r by lia. done.
  - intros c k Hc Hk. rewrite H2, H1. clear H1 H2. rewrite nth_dropped.
    assert (offset + k - offset = k /\ offset + k - (offset + R) = k - R) as [-> ->] by lia.
    rewrite (proj2 (Nat.leb_le offset (offset + k))), (proj2 (Nat.ltb_lt (offset + k) (offset + R + E))), (proj2 (Nat.ltb_lt (offset + k) (offset + (R + E)))),
      (proj2 (Nat.ltb_lt (offset + k) len)) by lia.
    replace (offset + k <? offset + R) with (k <? R) by (destruct (Nat.ltb_spec k R), (Nat.ltb_spec (offset + k) (offset + R)); lia || done).
    replace (offset + R <=? offset + k) with (R <=? k) by (destruct (Nat.leb_spec R k), (Nat.leb_spec (offset + R) (offset + k)); lia || done).
    replace (S offset <=? offset + k) with (1 <=? k) by (destruct (Nat.leb_spec 1 k), (Nat.leb_spec (S offset) (offset + k)); lia || done).
    replace (offset + k =? offset) with (k =? 0) by (destruct (Nat.eqb_spec k 0), (Nat.eqb_spec (offset + k) offset); lia || done).
    rewrite (Hz c (offset + k)) by lia. unfold section_row, multiplicity. rewrite Hg.
    destruct (Nat.leb_spec R k), (Nat.ltb_spec k R), (Nat.leb_spec 1 k), (Nat.eqb_spec k 0); try lia;
      try (replace (2 * R + (k - R)) with (R + k) by lia);
      do 16 (destruct c as [|c]; [reflexivity|]); lia.
  - intros c i Hi. rewrite H2, H1. rewrite (Hz c i) by lia.
    rewrite (proj2 (Nat.ltb_ge i (offset + R + E))), (proj2 (Nat.ltb_ge i (offset + (R + E)))), (proj2 (Nat.ltb_ge i (offset + R))), (proj2 (Nat.eqb_neq i offset)) by lia.
    rewrite !andb_false_r. by destruct ((c =? SELECTOR_START_IDX) && ((S offset <=? i) && (i <? len))).
Qed.

(** The rows of all sections *)
Definition section_rows (e : CircuitEvaluation) : list (list felt) := section_row e (Z.to_nat (num_read_rows e)) <$> seq 0 (num_rows e).
Definition ace_rows (es : list CircuitEvaluation) : list (list felt) := es ≫= section_rows.
Definition evaluation_wf (e : CircuitEvaluation) : Prop := exists R E p0, section_wf e R E p0.

Lemma section_counts e R E p0 : section_wf e R E p0 -> Z.to_nat (num_read_rows e) = R /\ num_rows e = R + E.
Proof. intros [Hr Hg _ _ _ _ _ _ _ _]. unfold num_rows. rewrite Hr, Hg. lia. Qed.
Lemma section_rows_length e : length (section_rows e) = num_rows e.
Proof. unfold section_rows. by rewrite length_fmap, length_seq. Qed.
Lemma foldl_rows es n : foldl (fun n e => n + num_rows e) n es = n + length (ace_rows es).
Proof.
  revert n. induction es as [|e es IH]; intros n; [cbn; lia|]. cbn [foldl]. rewrite IH. unfold ace_rows. cbn [mbind list_bind]. rewrite length_app, section_rows_length. lia.
Qed.
Lemma ace_trace_len_rows ace : ace_trace_len ace = length (ace_rows (evaluations ace)).
Proof. unfold ace_trace_len. by rewrite foldl_rows. Qed.

Lemma fill_steps_ok len es offset (cols : columns) : Forall evaluation_wf es -> offset + length (ace_rows es) <= len -> (forall c i, offset <= i -> cols c i = ZERO) ->
  exists s, for_each es (fill_step len) (offset, cols) = Ok s /\ (forall c i, i < offset -> s.2 c i = cols c i) /\
    forall i r, ace_rows es !! i = Some r -> forall c, c < 16 -> s.2 c (offset + i) = nth c r ZERO.
Proof.
  revert offset cols. induction es as [|e es IH]; intros offset cols Hwf Hlen Hz; [by exists (offset, cols)|].
  apply Forall_cons in Hwf as [(R & E & p0 & Hw) Hes]. destruct (section_counts e R E p0 Hw) as [HR HN].
  unfold ace_rows in Hlen. cbn [mbind list_bind] in Hlen. rewrite length_app, section_rows_length, HN in Hlen.
  destruct (circuit_fill_ok len e R E p0 offset cols Hw ltac:(lia) Hz) as (cols' & Hf & H1 & H2 & H3).
  assert (fill_step len (offset, cols) e = Ok (offset + num_rows e, cols')) as Hstep by (unfold fill_step; by rewrite Hf).
  cbn [for_each]. rewrite Hstep. cbn [mbind outcome_bind]. rewrite HN.
  destruct (IH (offset + (R + E)) cols' Hes) as (s & Hs & G1 & G2); [unfold ace_rows; lia|done|]. exists s. split_and!; [done|..].
  - intros c i Hi. rewrite G1, H1 by lia. done.
  - intros i r Hi c Hc. unfold ace_rows in Hi. cbn [mbind list_bind] in Hi. destruct (decide (i < R + E)) as [Hlt|Hge].
    + rewrite lookup_app_l in Hi by (rewrite section_rows_length; lia). unfold section_rows in Hi. rewrite list_lookup_fmap, lookup_seq_lt, HR in Hi by lia.
      injection Hi as <-. rewrite G1, H2 by lia. done.
    + rewrite lookup_app_r in Hi by (rewrite section_rows_length; lia). rewrite section_rows_length, HN in Hi.
      rewrite <-(G2 _ _ Hi c Hc). f_equal. lia.
Qed.
Lemma ace_fill_ok ace : Forall evaluation_wf (evaluations ace) ->
  exists cols, ace_fill ace = Ok cols /\ forall i r, ace_rows (evaluations ace) !! i = Some r -> forall c, c < 16 -> cols c i = nth c r ZERO.
Proof.
  intros Hwf. destruct (fill_steps_ok (ace_trace_len ace) (evaluations ace) 0 zero_columns Hwf) as ([o cols] & Hf & _ & H); [rewrite ace_trace_len_rows; lia|done|].
  exists cols. split; [|done]. unfold ace_fill. cbv zeta. by rewrite Hf.
Qed.

(** ** Neighbouring rows *)
Definition section_at (r : list felt) (e : CircuitEvaluation) (R E : nat) (p0 : felt) (k : nat) : Prop := section_wf e R E p0 /\ k < R + E /\ r = section_row e R k.
Lemma ace_rows_lookup es i r : Forall evaluation_wf es -> ace_rows es !! i = Some r -> exists e R E p0 k, section_at r e R E p0 k /\ (i = 0 -> k = 0) /\
  (S k < R + E -> ace_rows es !! S i = Some (section_row e R (S k))) /\
  (S k = R + E -> forall r', ace_rows es !! S i = Some r' -> exists e' R' E' p0', section_at r' e' R' E' p0' 0).
Proof.
  revert i. induction es as [|e es IH]; intros i Hwf Hi; [done|]. apply Forall_cons in Hwf as [(R & E & p0 & Hw) Hes].
  destruct (section_counts e R E p0 Hw) as [HR HN]. unfold ace_rows in Hi |- *. cbn [mbind list_bind] in Hi |- *.
  assert (forall j, j < R + E -> (section_rows e ++ (es ≫= section_rows)) !! j = Some (section_row e R j)) as Hin.
  { intros j Hj. rewrite lookup_app_l by (rewrite section_rows_length; lia). unfold section_rows. by rewrite list_lookup_fmap, lookup_seq_lt, HR by lia. }
  destruct (decide (i < R + E)) as [Hlt|Hge].
  - rewrite Hin in Hi by done. injection Hi as <-. exists e, R, E, p0, i. split_and!; [done..| |].
    + intros HS. by apply Hin.
    + intros HS r' Hr'. rewrite lookup_app_r in Hr' by (rewrite section_rows_length; lia). rewrite section_rows_length, HN, HS, Nat.sub_diag in Hr'.
      destruct es as [|e' es']; [done|]. apply Forall_cons in Hes as [(R' & E' & p0' & Hw') _]. destruct (section_counts e' R' E' p0' Hw') as [HR' HN'].
      cbn [mbind list_bind] in Hr'. destruct (sw_nonempty _ _ _ _ Hw') as [HR0 _].
      rewrite lookup_app_l in Hr' by (rewrite section_rows_length; lia). unfold section_rows in Hr'. rewrite list_lookup_fmap, lookup_seq_lt, HR' in Hr' by lia.
      injection Hr' as <-. exists e', R', E', p0'. split_and!; [done|lia|done].
  - rewrite lookup_app_r in Hi by (rewrite section_rows_length; lia). rewrite section_rows_length, HN in Hi.
    destruct (IH _ Hes Hi) as (e' & R' & E' & p0' & k & Hat & _ & Hnext & Hend). exists e', R', E', p0', k. split_and!; [done|intros ->; destruct (sw_nonempty _ _ _ _ Hw); lia|..].
    + intros HS. rewrite lookup_app_r by (rewrite section_rows_length; lia). rewrite section_rows_length, HN. rewrite <-(Hnext HS). f_equal. lia.
    + intros HS r' Hr'. rewrite lookup_app_r in Hr' by (rewrite section_rows_length; lia). rewrite section_rows_length, HN in Hr'. apply (Hend HS).
      rewrite <-Hr'. unfold ace_rows. f_equal. lia.
Qed.
End Ace.

Section Complete.
Context {F : Felt} {Q : Quad}.
Add Ring felt_ring_ace_complete : felt_ring_theory.
Import AirAce.

Definition id_value (R E k : nat) : Z := if k <? R then (2 * Z.of_nat R + Z.of_nat E - 1 - 2 * Z.of_nat k)%Z else (Z.of_nat E - 1 - Z.of_nat (k - R))%Z.
Definition ptr_value (R k : nat) : Z := if k <? R then (4 * Z.of_nat k)%Z else (4 * Z.of_nat R + Z.of_nat (k - R))%Z.
(** The columns of a row of a section *)
Record shows_section (l : row) (e : CircuitEvaluation) (R E : nat) (p0 : felt) (k : nat) : Prop := {
  ss_start : l (ColChiplet 4) = felt_bit (k =? 0);
  ss_block : l (ColChiplet 5) = felt_bit (R <=? k);
  ss_ctx : l (ColChiplet 6) = from_u32 (ce_ctx e);
  ss_ptr : l (ColChiplet 7) = (p0 + of_Z (ptr_value R k))%F;
  ss_clk : l (ColChiplet 8) = from_u32 (ce_clk e);
  ss_id : l (ColChiplet 10) = of_Z (id_value R E k);
  ss_read : k < R -> l (ColChiplet 13) = of_Z (id_value R E k - 1) /\ l (ColChiplet 16) = of_Z (Z.of_nat E - 1);
  ss_gate : R <= k ->
    (l (ColChiplet 9) * (l (ColChiplet 9) * l (ColChiplet 9) - ONE))%F = ZERO /\
    l (ColChiplet 11) = ((l (ColChiplet 14) + l (ColChiplet 17) * l (ColChiplet 9) - (l (ColChiplet 14) * l (ColChiplet 17) + new_unchecked 7 * (l (ColChiplet 15) * l (ColChiplet 18)))) *
      (l (ColChiplet 9) * l (ColChiplet 9)) + (l (ColChiplet 14) * l (ColChiplet 17) + new_unchecked 7 * (l (ColChiplet 15) * l (ColChiplet 18))))%F /\
    l (ColChiplet 12) = ((l (ColChiplet 15) + l (ColChiplet 18) * l (ColChiplet 9) - (l (ColChiplet 14) * l (ColChiplet 18) + l (ColChiplet 15) * l (ColChiplet 17))) *
      (l (ColChiplet 9) * l (ColChiplet 9)) + (l (ColChiplet 14) * l (ColChiplet 18) + l (ColChiplet 15) * l (ColChiplet 17)))%F;
  ss_last : S k = R + E -> l (ColChiplet 11) = ZERO /\ l (ColChiplet 12) = ZERO;
}.

Lemma nth_fmap_seq {A} (f : nat -> A) n k d : k < n -> nth k (f <$> seq 0 n) d = f k.
Proof. intros Hk. by rewrite nth_lookup, list_lookup_fmap, lookup_seq_lt. Qed.
Lemma nth_app_lt {A} (l l' : list A) k d : k < length l -> nth k (l ++ l') d = nth k l d.
Proof. apply app_nth1. Qed.
Lemma quad_new_inj (a b a' b' : felt) : quad_new a b = quad_new a' b' -> a = a' /\ b = b'.
Proof. intros H. split; [by rewrite <-(coef0_new a b), H, coef0_new|by rewrite <-(coef1_new a b), H, coef1_new]. Qed.
(** The reverse of [gate_operation] *)
Lemma gate_equations (op : AceOp) (a0 a1 x0 x1 y0 y1 : felt) : quad_new a0 a1 = ace_apply op (quad_new x0 x1) (quad_new y0 y1) -> let o := ace_op_felt op in
  (o * (o * o - ONE))%F = ZERO /\
  a0 = ((x0 + y0 * o - (x0 * y0 + new_unchecked 7 * (x1 * y1))) * (o * o) + (x0 * y0 + new_unchecked 7 * (x1 * y1)))%F /\
  a1 = ((x1 + y1 * o - (x0 * y1 + x1 * y0)) * (o * o) + (x0 * y1 + x1 * y0))%F.
Proof.
  destruct op; cbn [ace_apply ace_op_felt]; rewrite ?quad_sub_new, ?quad_mul_new, ?quad_add_new, !coef0_new, !coef1_new; intros H; apply quad_new_inj in H as [-> ->]; cbv zeta; split_and!; ring.
Qed.

Lemma section_shows l r e R E p0 k : section_at r e R E p0 k -> shows l 4 r -> shows_section l e R E p0 k.
Proof.
  intros ([Hr Hg [HR HE] Hsize Hp Ho (ls & Hl & Hle) (L1 & L2 & L3 & L4 & L5 & L6 & L7 & L8 & L9) Hgates Hout] & Hk & ->) H.
  unfold section_row in H. rewrite !shows_cons in H. destruct H as (H4 & H5 & H6 & H7 & H8 & H9 & H10 & H11 & H12 & H13 & H14 & H15 & H16 & H17 & H18 & _).
  change MAX_NUM_ACE_WIRES with 1073741823%Z in Hsize.
  split; try done.
  - rewrite H7, Hp. unfold ptr_value. destruct (Nat.ltb_spec k R).
    + rewrite nth_app_lt, nth_fmap_seq by (rewrite ?length_fmap, ?length_seq; lia). done.
    + rewrite app_nth2; rewrite length_fmap, length_seq; [|lia]. by rewrite nth_fmap_seq by lia.
  - rewrite H10, Ho. unfold id_value. destruct (Nat.ltb_spec k R).
    + rewrite nth_app_lt, nth_fmap_seq by (rewrite ?length_fmap, ?length_seq; lia). done.
    + rewrite app_nth2; rewrite length_fmap, length_seq; [|lia]. by rewrite nth_fmap_seq by lia.
  - intros Hk'. rewrite H13, H16, Hle. unfold id_value. rewrite (proj2 (Nat.ltb_lt k R)), (proj2 (Nat.leb_gt R k)) by lia.
    rewrite nth_app_lt, nth_fmap_seq by (rewrite ?length_fmap, ?length_seq; lia). split; [f_equal; lia|].
    rewrite Hg. apply canonical_inj. rewrite canonical_from_u32, canonical_of_Z, Z.mod_small by (unfold modulus; lia). done.
  - intros Hk'. rewrite (proj2 (Nat.leb_le R k)) in * by lia. destruct (Hgates (k - R) ltac:(lia)) as (op & Hop & Hgate).
    replace (R + (k - R)) with k in Hgate by lia. rewrite H9, Hop, H11, H12, H14, H15, H17, H18. by apply gate_equations.
  - intros HS. replace (R + E - 1) with k in Hout by lia. unfold quad_zero in Hout. apply quad_new_inj in Hout as [E0 E1]. by rewrite H11, H12.
Qed.

Lemma id_step (R E k : nat) : S k < R + E -> id_value R E k = (id_value R E (S k) + if (R <=? k)%nat then 1 else 2)%Z.
Proof. intros Hk. unfold id_value. destruct (Nat.ltb_spec k R), (Nat.ltb_spec (S k) R), (Nat.leb_spec R k); lia. Qed.
Lemma ptr_step (R k : nat) : ptr_value R (S k) = (ptr_value R k + if (R <=? k)%nat then 1 else 4)%Z.
Proof. unfold ptr_value. destruct (Nat.ltb_spec k R), (Nat.ltb_spec (S k) R), (Nat.leb_spec R k); lia. Qed.
Lemma of_Z_two : of_Z 2 = (ONE + ONE)%F.
Proof. change 2%Z with (1 + 1)%Z. by autorewrite with of_Z. Qed.

(** The constraints on one row alone *)
Lemma ace_row_equations l e R E p0 k : 0 < R -> shows_section l e R E p0 k ->
  (l (ColChiplet 4) * l (ColChiplet 5))%F = ZERO /\ ((new_unchecked 1 - l (ColChiplet 5)) * (l (ColChiplet 13) - (l (ColChiplet 10) - new_unchecked 1)))%F = ZERO /\
  (l (ColChiplet 5) * (l (ColChiplet 9) * (l (ColChiplet 9) * l (ColChiplet 9) - new_unchecked 1)))%F = ZERO.
Proof.
  intros HR Hs. rewrite new_unchecked_1. rewrite (ss_start _ _ _ _ _ _ Hs), (ss_block _ _ _ _ _ _ Hs), (ss_id _ _ _ _ _ _ Hs). split_and!.
  - destruct (Nat.eqb_spec k 0), (Nat.leb_spec R k); try lia; cbn; ring.
  - destruct (Nat.leb_spec R k); cbn; [ring|]. destruct (ss_read _ _ _ _ _ _ Hs) as [-> _]; [done|]. rewrite of_Z_sub, of_Z_1. ring.
  - destruct (Nat.leb_spec R k); cbn; [|ring]. destruct (ss_gate _ _ _ _ _ _ Hs) as [-> _]; [done|]. ring.
Qed.
(** The last row of a section *)
Lemma ace_last_columns l e R E p0 k : 0 < R -> 0 < E -> shows_section l e R E p0 k -> S k = R + E ->
  l (ColChiplet 4) = ZERO /\ l (ColChiplet 5) = ONE /\ l (ColChiplet 11) = ZERO /\ l (ColChiplet 12) = ZERO /\ l (ColChiplet 10) = ZERO.
Proof.
  intros HR HE Hs Hk. destruct (ss_last _ _ _ _ _ _ Hs Hk) as [H1 H2]. rewrite (ss_start _ _ _ _ _ _ Hs), (ss_block _ _ _ _ _ _ Hs), (ss_id _ _ _ _ _ _ Hs).
  rewrite (proj2 (Nat.eqb_neq k 0)), (proj2 (Nat.leb_le R k)) by lia. split_and!; try done.
  unfold id_value. rewrite (proj2 (Nat.ltb_ge k R)) by lia. replace (Z.of_nat E - 1 - Z.of_nat (k - R))%Z with 0%Z by lia. apply of_Z_0.
Qed.
Lemma gate_zero (b : bool) (x y : felt) : (b = true -> x = y) -> (felt_bit b * (x - y))%F = ZERO.
Proof. intros H. destruct b; cbn; [rewrite H by done; ring|ring]. Qed.

Section Rows.
Variables (l n : row) (r : list felt) (e : CircuitEvaluation) (R E : nat) (p0 : felt) (k : nat).
Hypothesis Hat : section_at r e R E p0 k.
Hypothesis Hl : in_region l RAce.
Hypothesis Hshow : shows l 4 r.

Lemma ace_inner_ok first last : in_region n RAce -> S k < R + E -> shows n 4 (section_row e R (S k)) -> satisfied first last l n enforce_ace_constraints_all_rows.
Proof using Hat Hl Hshow.
  intros Hn Hk Hs'. pose proof (section_shows _ _ _ _ _ _ _ Hat Hshow) as S1. destruct Hat as (Hwf & _ & _).
  assert (section_at (section_row e R (S k)) e R E p0 (S k)) as Hat' by done. pose proof (section_shows _ _ _ _ _ _ _ Hat' Hs') as S2.
  destruct (sw_nonempty _ _ _ _ Hwf) as [HR HE]. destruct (ace_row_equations _ _ _ _ _ _ HR S1) as (Q1 & Q2 & Q3).
  apply (residual2_satisfied _ _ _ _ _ _ _ Hl Hn). open_goal.
  destruct S1 as [s4 s5 s6 s7 s8 s10 sr sg _], S2 as [n4 n5 n6 n7 n8 n10 nr _ _]. cbn [Nat.eqb felt_bit] in n4.
  split_and!; try done; rewrite ?s4, ?s5, ?n4, ?n5; try apply Bitwise.bit_square; rewrite ?new_unchecked_1.
  - ring.
  - destruct (Nat.leb_spec R k); [|cbn; ring]. rewrite (proj2 (Nat.leb_le R (S k))) by lia. cbn. ring.
  - rewrite s6, n6. ring.
  - rewrite s8, n8. ring.
  - rewrite s7, n7, ptr_step, of_Z_add. rewrite <-(of_Z_small 4) by (unfold modulus; lia). destruct (R <=? k); cbn [felt_bit]; rewrite ?of_Z_1; ring.
  - rewrite s10, n10, (id_step R E k Hk), of_Z_add. destruct (R <=? k); cbn [felt_bit]; rewrite ?of_Z_1, ?of_Z_two; ring.
  - destruct (Nat.leb_spec R k); cbn [felt_bit]; [ring|]. destruct (sr ltac:(lia)) as [_ ->]. destruct (Nat.leb_spec R (S k)); cbn [felt_bit].
    + rewrite n10. unfold id_value. rewrite (proj2 (Nat.ltb_ge (S k) R)) by lia. replace (S k - R) with 0 by lia. change (Z.of_nat 0) with 0%Z. rewrite Z.sub_0_r. ring.
    + destruct (nr ltac:(lia)) as [_ ->]. ring.
  - apply gate_zero. intros Hb. apply Nat.leb_le in Hb. apply (sg Hb).
  - apply gate_zero. intros Hb. apply Nat.leb_le in Hb. apply (sg Hb).
  - ring.
  - ring.
  - ring.
  - ring.
Qed.
Lemma ace_boundary_ok first last e' R' E' p0' r' : in_region n RAce -> S k = R + E -> section_at r' e' R' E' p0' 0 -> shows n 4 r' ->
  satisfied first last l n enforce_ace_constraints_all_rows.
Proof using Hat Hl Hshow.
  intros Hn Hk Hat' Hs'. pose proof (section_shows _ _ _ _ _ _ _ Hat Hshow) as S1. pose proof (section_shows _ _ _ _ _ _ _ Hat' Hs') as S2. destruct Hat as (Hwf & _ & _).
  destruct (sw_nonempty _ _ _ _ Hwf) as [HR HE]. destruct (ace_row_equations _ _ _ _ _ _ HR S1) as (Q1 & Q2 & Q3).
  destruct (ace_last_columns _ _ _ _ _ _ HR HE S1 Hk) as (E4 & E5 & E11 & E12 & E10). pose proof (ss_start _ _ _ _ _ _ S2) as n4. cbn [Nat.eqb felt_bit] in n4.
  destruct (ss_gate _ _ _ _ _ _ S1 ltac:(lia)) as (_ & G1 & G2).
  apply (residual2_satisfied _ _ _ _ _ _ _ Hl Hn). open_goal. split_and!; try done; rewrite ?new_unchecked_1.
  all: try (rewrite <-G1, E11; ring). all: try (rewrite <-G2, E12; ring). all: rewrite ?E4, ?E5, ?n4, ?E11, ?E12, ?E10; ring.
Qed.
Lemma ace_end_rows_ok first last reg : reg = RKernelRom \/ reg = RPadding -> in_region n reg -> S k = R + E -> satisfied first last l n enforce_ace_constraints_all_rows.
Proof using Hat Hl Hshow.
  intros Hreg Hn Hk. pose proof (section_shows _ _ _ _ _ _ _ Hat Hshow) as S1. destruct Hat as (Hwf & _ & _).
  destruct (sw_nonempty _ _ _ _ Hwf) as [HR HE]. destruct (ace_row_equations _ _ _ _ _ _ HR S1) as (Q1 & Q2 & Q3).
  destruct (ace_last_columns _ _ _ _ _ _ HR HE S1 Hk) as (E4 & E5 & E11 & E12 & E10). destruct (ss_gate _ _ _ _ _ _ S1 ltac:(lia)) as (_ & G1 & G2).
  apply (residual2_satisfied _ _ _ _ _ _ _ Hl Hn). destruct Hreg as [->| ->]; open_goal; split_and!; try done; rewrite ?new_unchecked_1;
    try (rewrite <-G1, E11; ring); try (rewrite <-G2, E12; ring); rewrite ?E4, ?E5, ?E11, ?E12, ?E10; ring.
Qed.
End Rows.
Lemma ace_first_ok first last l n r' e' R' E' p0' : in_region l RMemory -> in_region n RAce -> section_at r' e' R' E' p0' 0 -> shows n 4 r' ->
  satisfied first last l n enforce_ace_constraints_all_rows.
Proof.
  intros Hl Hn Hat' Hs'. pose proof (ss_start _ _ _ _ _ _ (section_shows _ _ _ _ _ _ _ Hat' Hs')) as n4. cbn [Nat.eqb felt_bit] in n4.
  apply (residual2_satisfied _ _ _ _ _ _ _ Hl Hn). open_goal. rewrite n4, new_unchecked_1. split; [ring|done].
Qed.
End Complete.
End AceTable.
