(* ===== verification/TraceHasher.v ===== *)
(** * Table of the hash chiplet

    [processor/src/trace/chiplets/hasher]: a request appends pairs of controller rows, the state before and after a permutation; requests
    for a block that was hashed before copy the rows of the first time.  At the end the controller rows are padded to whole
    cycles and one cycle of permutation rows is appended for each different input state. *)

From stdpp Require Import sorting.
From S2P Require Import Prelude Field Types Operations Batching Air AirFlags AirStack AirRows AirDecoder AirTrace Chiplets ChipletRegions ChipletPermutation TraceTables.
From Stdlib Require Import Ring.
Import Air ChipletSelectors.
#[local] Open Scope nat_scope.

(** The functions of the hasher of the [miden-crypto] package: the layers of Poseidon2 and the permutation, on states of twelve elements *)
Class HasherFunctions {F : Felt} {P : HasherParams} := {
  h_apply_matmul_external : list felt -> list felt;
  h_matmul_internal : list felt -> list felt;
  h_add_rc : list felt -> list felt -> list felt;
  h_apply_sbox : list felt -> list felt;
  apply_permutation_12 : list felt -> list felt;
  h_external_spec s : length s = 12 -> h_apply_matmul_external s = mat_mul external_matrix s;
  h_internal_spec s : length s = 12 -> h_matmul_internal s = internal_layer s;
  h_add_rc_spec s c : length s = 12 -> length c = 12 -> h_add_rc s c = zip_with felt_add s c;
  h_sbox_spec s : length s = 12 -> h_apply_sbox s = sbox <$> s;
  h_permutation_spec s : length s = 12 -> apply_permutation_12 s = poseidon2 s;
}.

Module HashTable.
Section Hasher.
Context {F : Felt} {P : HasherParams} {H : HasherFunctions}.

Definition HASH_CYCLE_LEN : nat := 16.
Definition STATE_WIDTH : nat := 12.
Definition RATE_LEN : nat := 8.
Definition LINEAR_HASH : list felt := [ONE; ZERO; ZERO].
Definition MP_VERIFY : list felt := [ONE; ZERO; ONE].
Definition MR_UPDATE_OLD : list felt := [ONE; ONE; ZERO].
Definition MR_UPDATE_NEW : list felt := [ONE; ONE; ONE].
Definition RETURN_HASH : list felt := [ZERO; ZERO; ZERO].
Definition RETURN_STATE : list felt := [ZERO; ZERO; ONE].

(** ** The trace: [trace.rs].  The columns of [HasherTrace] grow together, so the trace is its list of rows. *)
Record hrow := mkRow {
  selectors : list felt;
  hasher_state : list felt;
  node_index : felt;
  mrupdate_id : felt;
  is_boundary : felt;
  direction_bit : felt;
  s_perm : felt;
}.
Definition next_row_addr (tr : list hrow) : felt := new_unchecked (Z.of_nat (length tr) + 1).

Definition append_controller_row (tr : list hrow) (selectors state : list felt) (node_index mrupdate_id is_boundary direction_bit : felt) : list hrow :=
  tr ++ [mkRow selectors state node_index mrupdate_id is_boundary direction_bit ZERO].
Definition append_perm_row_with_witnesses (tr : list hrow) (state : list felt) (multiplicity : felt) (witnesses : list felt) : list hrow :=
  tr ++ [mkRow witnesses state multiplicity ZERO ZERO ZERO ONE].

Definition ark_row (g : nat -> Z) : list felt := (fun i => new_unchecked (g i)) <$> seq 0 STATE_WIDTH.
Definition ext_round (state rc : list felt) : list felt := h_apply_matmul_external (h_apply_sbox (h_add_rc state rc)).
(** One internal round: the output of the S-box on the first element, and the state after the round *)
Definition int_round (state : list felt) (ark_int : Z) : felt * list felt :=
  let sbox_out := AirPermutation.exp_7 (nth 0 state ZERO + new_unchecked ark_int)%F in
  (sbox_out, h_matmul_internal (<[0 := sbox_out]> state)).

(** [append_permutation_cycle] *)
Definition append_permutation_cycle (tr : list hrow) (init_state : list felt) (multiplicity : felt) : list hrow :=
  let state := init_state in
  let zeros := [ZERO; ZERO; ZERO] in
  let tr := append_perm_row_with_witnesses tr state multiplicity zeros in
  let state := ext_round (h_apply_matmul_external state) (ark_row (ARK_EXT_INITIAL 0)) in
  let '(tr, state) := foldl (fun '(tr, state) r =>
    (append_perm_row_with_witnesses tr state multiplicity zeros, ext_round state (ark_row (ARK_EXT_INITIAL r)))) (tr, state) [1; 2; 3] in
  let '(tr, state) := foldl (fun '(tr, state) triple =>
    let base := triple * 3 in
    let pre_state := state in
    let '(witnesses, state) := foldl (fun '(ws, state) k => let '(w, state) := int_round state (ARK_INT (base + k)) in (ws ++ [w], state)) ([], state) [0; 1; 2] in
    (append_perm_row_with_witnesses tr pre_state multiplicity witnesses, state)) (tr, state) (seq 0 7) in
  let pre_state := state in
  let '(w0, state) := int_round state (ARK_INT 21) in
  let state := ext_round state (ark_row (ARK_EXT_TERMINAL 0)) in
  let tr := append_perm_row_with_witnesses tr pre_state multiplicity [w0; ZERO; ZERO] in
  let '(tr, state) := foldl (fun '(tr, state) r =>
    (append_perm_row_with_witnesses tr state multiplicity zeros, ext_round state (ark_row (ARK_EXT_TERMINAL r)))) (tr, state) [1; 2; 3] in
  append_perm_row_with_witnesses tr state multiplicity zeros.

Definition pad_to_cycle_boundary (tr : list hrow) (mrupdate_id : felt) : list hrow :=
  let padding_selectors := [ZERO; ONE; ZERO] in
  let remainder := length tr mod HASH_CYCLE_LEN in
  if remainder =? 0 then tr
  else foldl (fun tr _ => append_controller_row tr padding_selectors (replicate STATE_WIDTH ZERO) ZERO mrupdate_id ZERO ZERO) tr (seq 0 (HASH_CYCLE_LEN - remainder)).

(** Rows of a range that is not in the trace cannot be accessed. *)
Definition range_ok (tr : list hrow) (a b : nat) : bool := (b <=? length tr) || (b <=? a).
Definition input_states_in_range (tr : list hrow) (a b : nat) : result (list (list felt)) :=
  if range_ok tr a b then Ok (hasher_state <$> filter (fun r => nth 0 (selectors r) ZERO = ONE /\ s_perm r = ZERO) (take (b - a) (drop a tr))) else Panic.
(** [copy_trace]: the state of the last row of the range, and the trace with the copy *)
Definition copy_trace (tr : list hrow) (a b : nat) : result (list felt * list hrow) :=
  if (a <=? b) && (b <=? length tr) then
    let tr' := tr ++ take (b - a) (drop a tr) in
    r ← or_panic (if b =? 0 then None else tr' !! (b - 1));
    Ok (hasher_state r, tr')
  else Panic.
Definition overwrite_mrupdate_id_in_range (tr : list hrow) (a b : nat) (id : felt) : result (list hrow) :=
  if range_ok tr a b then
    Ok (imap (fun i r => if (a <=? i) && (i <? b) then mkRow (selectors r) (hasher_state r) (node_index r) id (is_boundary r) (direction_bit r) (s_perm r) else r) tr)
  else Panic.

(** The values of a row, in the order of [HasherTrace::fill_trace] *)
Definition hasher_values (r : hrow) : list felt :=
  selectors r ++ hasher_state r ++ [node_index r; mrupdate_id r; is_boundary r; direction_bit r; s_perm r].

(** ** The chiplet: [mod.rs] *)
Record Hasher := mkHasher {
  h_trace : list hrow;
  memoized_trace_map : gmap (list Z) (nat * nat);
  perm_request_map : gmap (list Z) Z;
  h_mrupdate_id : felt;
  finalized : bool;
}.
Definition hasher_default : Hasher := mkHasher [] ∅ ∅ ZERO false.

Definition digest_to_key (digest : Word) : list Z := as_canonical_u64 <$> word_elements digest.
Definition state_to_key (state : list felt) : list Z := as_canonical_u64 <$> state.
Definition key_to_state (key : list Z) : list felt := new_unchecked <$> key.

Definition next_multiple_of (n m : nat) : nat := (n + (m - 1)) / m * m.
Definition region_lengths (h : Hasher) : nat * nat :=
  (next_multiple_of (length (h_trace h)) HASH_CYCLE_LEN, size (perm_request_map h) * HASH_CYCLE_LEN).
Definition estimate_trace_len (h : Hasher) : nat := let '(controller_len, perm_len) := region_lengths h in controller_len + perm_len.
Definition hasher_trace_len (h : Hasher) : nat := if finalized h then length (h_trace h) else estimate_trace_len h.

(** *** Helpers on states *)
Definition init_state (init_values : list felt) (padding_flag : felt) : list felt := init_values ++ [padding_flag; ZERO; ZERO; ZERO].
Definition init_state_from_words_with_domain (w1 w2 : Word) (domain : felt) : list felt :=
  word_elements w1 ++ word_elements w2 ++ [ZERO; domain; ZERO; ZERO].
Definition init_state_from_words (w1 w2 : Word) : list felt := init_state_from_words_with_domain w1 w2 ZERO.
Definition absorb_into_state (state values : list felt) : list felt := values ++ drop RATE_LEN state.
Definition get_digest (state : list felt) : Word :=
  mkWord (nth 0 state ZERO) (nth 1 state ZERO) (nth 2 state ZERO) (nth 3 state ZERO).
Definition build_merge_state (a b : Word) (index_bit : Z) : result (list felt) :=
  match index_bit with
  | 0%Z => Ok (init_state_from_words a b)
  | 1%Z => Ok (init_state_from_words b a)
  | _ => Panic
  end.

(** *** Requests *)
Definition with_trace (tr : list hrow) (h : Hasher) : Hasher := mkHasher tr (memoized_trace_map h) (perm_request_map h) (h_mrupdate_id h) (finalized h).
(** [*entry(key).or_insert(0) += 1] *)
Definition record_perm_request (h : Hasher) (state : list felt) : Hasher :=
  let key := state_to_key state in
  mkHasher (h_trace h) (memoized_trace_map h) (<[key := (default 0 (perm_request_map h !! key) + 1)%Z]> (perm_request_map h)) (h_mrupdate_id h) (finalized h).

Record RowFlags := mkFlags { in_index : felt; out_index : felt; in_boundary : felt; out_boundary : felt; in_direction : felt; out_direction : felt }.
Definition append_controller_permutation (h : Hasher) (init_selectors final_selectors state : list felt) (f : RowFlags) : Hasher * list felt :=
  let tr := append_controller_row (h_trace h) init_selectors state (in_index f) (h_mrupdate_id h) (in_boundary f) (in_direction f) in
  let permuted := apply_permutation_12 state in
  let tr := append_controller_row tr final_selectors permuted (out_index f) (h_mrupdate_id h) (out_boundary f) (out_direction f) in
  (record_perm_request (with_trace tr h) state, permuted).
(** The flags of a sponge: boundaries only *)
Definition sponge_flags (b_in b_out : felt) : RowFlags := mkFlags ZERO ZERO b_in b_out ZERO ZERO.

Definition permute (h : Hasher) (state : list felt) : felt * list felt * Hasher :=
  let addr := next_row_addr (h_trace h) in
  let '(h, permuted) := append_controller_permutation h LINEAR_HASH RETURN_STATE state (sponge_flags ONE ONE) in
  (addr, permuted, h).

Definition get_memoized_trace (h : Hasher) (hash : Word) : option (nat * nat) := memoized_trace_map h !! digest_to_key hash.
Definition insert_to_memoized_trace_map (h : Hasher) (addr : felt) (hash : Word) : Hasher :=
  let start_row := Z.to_nat (⟦addr⟧ - 1) in
  let end_row := Z.to_nat (⟦next_row_addr (h_trace h)⟧ - 1) in
  mkHasher (h_trace h) (<[digest_to_key hash := (start_row, end_row)]> (memoized_trace_map h)) (perm_request_map h) (h_mrupdate_id h) (finalized h).
Definition replay_memoized_trace (h : Hasher) (expected_hash : Word) : result (option (felt * Word * Hasher)) :=
  match get_memoized_trace h expected_hash with
  | None => Ok None
  | Some (start_row, end_row) =>
    let addr := next_row_addr (h_trace h) in
    let append_start := length (h_trace h) in
    '(state, tr) ← copy_trace (h_trace h) start_row end_row;
    let append_end := length tr in
    tr ← overwrite_mrupdate_id_in_range tr append_start append_end (h_mrupdate_id h);
    states ← input_states_in_range tr append_start append_end;
    let h := foldl record_perm_request (with_trace tr h) states in
    Ok (Some (addr, get_digest state, h))
  end.

Definition hash_control_block (h : Hasher) (h1 h2 : Word) (domain : felt) (expected_hash : Word) : result (felt * Word * Hasher) :=
  memoized ← replay_memoized_trace h expected_hash;
  match memoized with
  | Some memoized => Ok memoized
  | None =>
    let addr := next_row_addr (h_trace h) in
    let init_state := init_state_from_words_with_domain h1 h2 domain in
    let '(h, permuted) := append_controller_permutation h LINEAR_HASH RETURN_HASH init_state (sponge_flags ONE ONE) in
    let h := insert_to_memoized_trace_map h addr expected_hash in
    Ok (addr, get_digest permuted, h)
  end.

Definition hash_basic_block (h : Hasher) (op_batches : list OpBatch) (expected_hash : Word) : result (felt * Word * Hasher) :=
  memoized ← replay_memoized_trace h expected_hash;
  match memoized with
  | Some memoized => Ok memoized
  | None =>
    let addr := next_row_addr (h_trace h) in
    match op_batches with
    | [] => Panic
    | [b] =>
      let '(h, permuted) := append_controller_permutation h LINEAR_HASH RETURN_HASH (init_state (groups b) ZERO) (sponge_flags ONE ONE) in
      let h := insert_to_memoized_trace_map h addr expected_hash in
      Ok (addr, get_digest permuted, h)
    | b :: rest =>
      let '(h, state) := append_controller_permutation h LINEAR_HASH RETURN_STATE (init_state (groups b) ZERO) (sponge_flags ONE ZERO) in
      let middle := take (length rest - 1) rest in
      let '(h, state) := foldl (fun '(h, state) b =>
        append_controller_permutation h LINEAR_HASH RETURN_STATE (absorb_into_state state (groups b)) (sponge_flags ZERO ZERO)) (h, state) middle in
      last_batch ← or_panic (last rest);
      let '(h, permuted) := append_controller_permutation h LINEAR_HASH RETURN_HASH (absorb_into_state state (groups last_batch)) (sponge_flags ZERO ONE) in
      let h := insert_to_memoized_trace_map h addr expected_hash in
      Ok (addr, get_digest permuted, h)
    end
  end.

(** *** Merkle paths, given by their nodes *)
Inductive MerklePathContext := MpVerify | MrUpdateOld | MrUpdateNew.
Definition main_selectors (c : MerklePathContext) : list felt :=
  match c with MpVerify => MP_VERIFY | MrUpdateOld => MR_UPDATE_OLD | MrUpdateNew => MR_UPDATE_NEW end.

Definition merkle_level (context : MerklePathContext) (depth : nat) (s : Hasher * Word * Z) (x : nat * Word) : result (Hasher * Word * Z) :=
  let '(h, root, index) := s in
  let '(i, sibling) := x in
  let is_first := i =? 0 in
  let is_last := i =? depth - 1 in
  let is_boundary_input := if is_first then ONE else ZERO in
  let is_boundary_output := if is_last then ONE else ZERO in
  let b_i := Z.land index 1 in
  state ← build_merge_state root sibling b_i;
  let input_node_idx := new_unchecked index in
  let output_node_idx := new_unchecked (Z.shiftr index 1) in
  let b_next := if is_last then 0%Z else Z.land (Z.shiftr index 1) 1 in
  let final_selectors := if is_last then RETURN_HASH else RETURN_STATE in
  let '(h, permuted) := append_controller_permutation h (main_selectors context) final_selectors state
    (mkFlags input_node_idx output_node_idx is_boundary_input is_boundary_output (new_unchecked b_i) (new_unchecked b_next)) in
  Ok (h, get_digest permuted, Z.shiftr index 1).
Definition verify_merkle_path (h : Hasher) (value : Word) (path : list Word) (index : Z) (context : MerklePathContext) : result (Word * Hasher) :=
  let depth := length path in
  if depth =? 0 then Panic
  else if negb ((if (64 <=? depth)%nat then 0 else Z.shiftr index (Z.of_nat depth)) =? 0)%Z then Panic
  else
    '(h, root, _) ← for_each (imap (fun i sibling => (i, sibling)) path) (merkle_level context depth) (h, value, index);
    Ok (root, h).
Definition build_merkle_root (h : Hasher) (value : Word) (path : list Word) (index : felt) : result (felt * Word * Hasher) :=
  let addr := next_row_addr (h_trace h) in
  '(root, h) ← verify_merkle_path h value path ⟦index⟧ MpVerify;
  Ok (addr, root, h).
Definition update_merkle_root (h : Hasher) (old_value new_value : Word) (path : list Word) (index : felt) : result (felt * Word * Word * Hasher) :=
  let h := mkHasher (h_trace h) (memoized_trace_map h) (perm_request_map h) (h_mrupdate_id h + ONE)%F (finalized h) in
  let address := next_row_addr (h_trace h) in
  let index := ⟦index⟧%Z in
  '(old_root, h) ← verify_merkle_path h old_value path index MrUpdateOld;
  '(new_root, h) ← verify_merkle_path h new_value path index MrUpdateNew;
  Ok (address, old_root, new_root, h).

(** *** The end of the trace *)
Definition finalize_trace (h : Hasher) : Hasher :=
  if finalized h then h
  else
    let tr := pad_to_cycle_boundary (h_trace h) (h_mrupdate_id h) in
    let tr := foldl (fun tr '(key, multiplicity) => append_permutation_cycle tr (key_to_state key) (new_unchecked multiplicity)) tr
      (btree_entries array_le (perm_request_map h)) in
    mkHasher tr (memoized_trace_map h) ∅ (h_mrupdate_id h) true.
(** The rows [fill_trace] copies *)
Definition hasher_rows (h : Hasher) : list (list felt) := hasher_values <$> h_trace (finalize_trace h).
End Hasher.

(** ** The rows of the controller *)
Section Controller.
Context {F : Felt}.
Add Ring felt_ring_hasher_rows : felt_ring_theory.

Definition is_out (r : hrow) : Prop := selectors r = RETURN_HASH \/ selectors r = RETURN_STATE.
Definition is_merkle (r : hrow) : Prop := selectors r = MP_VERIFY \/ selectors r = MR_UPDATE_OLD \/ selectors r = MR_UPDATE_NEW.
Definition is_sponge (r : hrow) : Prop := selectors r = LINEAR_HASH.
Definition is_pad (r : hrow) : Prop := selectors r = [ZERO; ONE; ZERO].
Definition is_bit (x : felt) : Prop := x = ZERO \/ x = ONE.

(** What holds of a row by itself *)
Definition row_ok (r : hrow) : Prop :=
  length (hasher_state r) = 12 /\ s_perm r = ZERO /\ is_bit (is_boundary r) /\
  (is_sponge r /\ node_index r = ZERO /\ direction_bit r = ZERO \/
   is_merkle r /\ is_bit (direction_bit r) /\ drop 8 (hasher_state r) = replicate 4 ZERO \/
   selectors r = RETURN_HASH /\ node_index r = ZERO /\ direction_bit r = ZERO \/
   selectors r = RETURN_STATE /\ (is_boundary r = ONE -> direction_bit r = ZERO) \/
   is_pad r /\ is_boundary r = ZERO /\ direction_bit r = ZERO).

(** What holds of a row and the next one, but for the identifier of an update *)
Inductive step_ok (l n : hrow) : Prop :=
  | sponge_out : is_sponge l -> is_out n -> step_ok l n
  | merkle_out : is_merkle l -> is_out n -> node_index l = (node_index n + node_index n + direction_bit l)%F -> step_ok l n
  | out_sponge : is_out l -> is_sponge n -> is_boundary n = ONE \/ is_boundary n = ZERO /\ drop 8 (hasher_state n) = drop 8 (hasher_state l) -> step_ok l n
  | out_merkle : is_out l -> is_merkle n ->
      is_boundary l = ONE \/
      is_boundary l = ZERO /\ node_index n = node_index l /\ direction_bit n = direction_bit l /\
      (direction_bit l = ZERO /\ take 4 (hasher_state l) = take 4 (hasher_state n) \/
       direction_bit l = ONE /\ take 4 (hasher_state l) = take 4 (drop 4 (hasher_state n))) -> step_ok l n
  | out_pad : is_out l \/ is_pad l -> is_pad n -> step_ok l n.

(** The identifier changes on the first row of an update. *)
Definition mv_start (r : hrow) : bool := bool_decide (selectors r = MR_UPDATE_OLD) && bool_decide (is_boundary r = ONE).
Definition mr_next (id : felt) (r : hrow) : Prop := mrupdate_id r = (id + felt_bit (mv_start r))%F.

(** The columns of the chiplets on a row of the hasher *)
Definition shows_hasher (l : row) (r : hrow) : Prop := shows l 1 (take 19 (hasher_values r)).

Lemma row_length r : row_ok r -> length (selectors r) = 3.
Proof.
  unfold row_ok, is_sponge, is_merkle, is_pad. intros (_ & _ & _ & H).
  destruct H as [(-> & _)|[([-> |[-> | ->]] & _)|[(-> & _)|[(-> & _)|(-> & _)]]]]; done.
Qed.

Lemma list_3 (s : list felt) : length s = 3 -> exists a b c, s = [a; b; c].
Proof. intros H. do 3 (destruct s as [|? s]; [done|]). destruct s; [|done]. by repeat eexists. Qed.
(** The columns of a row *)
Lemma hasher_columns_shown l r : shows_hasher l r -> length (selectors r) = 3 -> length (hasher_state r) = 12 ->
  (forall j, j < 3 -> l (ColChiplet (1 + j)) = nth j (selectors r) ZERO) /\
  (forall j, j < 12 -> l (ColChiplet (4 + j)) = nth j (hasher_state r) ZERO) /\
  l (ColChiplet 16) = node_index r /\ l (ColChiplet 17) = mrupdate_id r /\ l (ColChiplet 18) = is_boundary r /\ l (ColChiplet 19) = direction_bit r.
Proof.
  intros Hv L3 L12. destruct (list_3 _ L3) as (a & b & c & Es). destruct (list_12 _ L12) as (s0 & s1 & s2 & s3 & s4 & s5 & s6 & s7 & s8 & s9 & s10 & s11 & Eh).
  unfold shows_hasher, hasher_values in Hv. rewrite Es, Eh in *. cbn [app take] in Hv. rewrite !shows_cons in Hv. destruct_and! Hv. split_and!; try done.
  - intros [|[|[|?]]] Hj; try done; lia.
  - intros j Hj. do 12 (destruct j as [|j]; [done|]). lia.
Qed.

(** The flag of the first row of an update, on the columns *)
Lemma sel_neq (a b c a' b' c' : felt) : a <> a' \/ b <> b' \/ c <> c' -> [a; b; c] <> [a'; b'; c'].
Proof. intros H [= -> -> ->]. by destruct H as [H|[H|H]]. Qed.
Lemma mv_start_value r : row_ok r ->
  felt_bit (mv_start r) = (nth 0 (selectors r) ZERO * nth 1 (selectors r) ZERO * (ONE - nth 2 (selectors r) ZERO) * is_boundary r)%F.
Proof.
  intros (_ & _ & Hb & H). unfold mv_start, is_sponge, is_merkle, is_pad, LINEAR_HASH, MP_VERIFY, MR_UPDATE_OLD, MR_UPDATE_NEW, RETURN_HASH, RETURN_STATE in *.
  pose proof ONE_neq_ZERO as H1. assert (ZERO <> ONE) as H0 by done.
  destruct H as [(-> & _)|[([-> |[-> | ->]] & _)|[(-> & _)|[(-> & _)|(-> & _)]]]]; cbn [nth];
    first [rewrite (bool_decide_false ([_; _; _] = _)) by (apply sel_neq; tauto); cbn [andb felt_bit]; ring | rewrite (bool_decide_true ([_; _; _] = _)) by done].
  destruct Hb as [-> | ->]; [rewrite bool_decide_false by done|rewrite bool_decide_true by done]; cbn [andb felt_bit]; ring.
Qed.
Lemma neq_01 : ZERO <> ONE :> felt.
Proof. intros H. by apply ONE_neq_ZERO. Qed.

(** The columns one by one *)
Definition columns_eqs (l : row) (sel st : list felt) (ni mr b d : felt) : Prop :=
  match sel, st with
  | [e0; e1; e2], [s0; s1; s2; s3; s4; s5; s6; s7; s8; s9; s10; s11] =>
    l (ColChiplet 1) = e0 /\ l (ColChiplet 2) = e1 /\ l (ColChiplet 3) = e2 /\
    (l (ColChiplet 4) = s0 /\ l (ColChiplet 5) = s1 /\ l (ColChiplet 6) = s2 /\ l (ColChiplet 7) = s3) /\
    (l (ColChiplet 8) = s4 /\ l (ColChiplet 9) = s5 /\ l (ColChiplet 10) = s6 /\ l (ColChiplet 11) = s7) /\
    (l (ColChiplet 12) = s8 /\ l (ColChiplet 13) = s9 /\ l (ColChiplet 14) = s10 /\ l (ColChiplet 15) = s11) /\
    l (ColChiplet 16) = ni /\ l (ColChiplet 17) = mr /\ l (ColChiplet 18) = b /\ l (ColChiplet 19) = d
  | _, _ => False
  end.
Lemma row_columns_eqs l r : shows_hasher l r -> row_ok r ->
  columns_eqs l (selectors r) (hasher_state r) (node_index r) (mrupdate_id r) (is_boundary r) (direction_bit r).
Proof.
  intros Hv Hr. destruct (hasher_columns_shown l r Hv (row_length r Hr) (proj1 Hr)) as (H3 & H12 & H).
  destruct (list_3 _ (row_length r Hr)) as (a & b & c & Es). destruct (list_12 _ (proj1 Hr)) as (s0 & s1 & s2 & s3 & s4 & s5 & s6 & s7 & s8 & s9 & s10 & s11 & Eh).
  rewrite Es, Eh in *. unfold columns_eqs.
  split_and!; first [apply H | apply (H3 0); lia | apply (H3 1); lia | apply (H3 2); lia | idtac];
    [apply (H12 0)|apply (H12 1)|apply (H12 2)|apply (H12 3)|apply (H12 4)|apply (H12 5)|apply (H12 6)|apply (H12 7)|apply (H12 8)|apply (H12 9)|apply (H12 10)|apply (H12 11)]; lia.
Qed.

(** Neighbouring rows of the controller *)
Lemma controller_inner_ok first last l n r r' : in_region l RController -> in_region n RController -> shows_hasher l r -> shows_hasher n r' ->
  row_ok r -> row_ok r' -> step_ok r r' -> mr_next (mrupdate_id r) r' -> (first = true -> nth 0 (selectors r) ZERO = ONE) ->
  satisfied first last l n AirController.enforce_controller_constraints.
Proof.
  intros Hl Hn Hv Hv' Hr Hr' Hs Hm Hf. unfold mr_next in Hm. rewrite (mv_start_value r' Hr') in Hm.
  pose proof (row_columns_eqs l r Hv Hr) as Hc. pose proof (row_columns_eqs n r' Hv' Hr') as Hc'. clear Hv Hv'.
  apply (residual2_satisfied _ _ _ _ _ _ _ Hl Hn). open_goal. clear Hl Hn. rewrite new_unchecked_1.
  destruct r as [sel st ni mr b d sp], r' as [sel' st' ni' mr' b' d' sp']. cbn [selectors hasher_state node_index mrupdate_id is_boundary direction_bit s_perm] in *.
  pose proof (row_length _ Hr) as L3. pose proof (row_length _ Hr') as L3'. pose proof (proj1 Hr) as L12. pose proof (proj1 Hr') as L12'. cbn in L3, L3', L12, L12'.
  destruct (list_3 _ L3) as (e0 & e1 & e2 & ->). destruct (list_3 _ L3') as (f0 & f1 & f2 & ->).
  destruct (list_12 _ L12) as (? & ? & ? & ? & ? & ? & ? & ? & ? & ? & ? & ? & ->).
  destruct (list_12 _ L12') as (? & ? & ? & ? & ? & ? & ? & ? & ? & ? & ? & ? & ->). clear L3 L3' L12 L12'.
  unfold columns_eqs in *. cbn [nth selectors] in *.
  destruct_and! Hc. destruct_and! Hc'. repeat match goal with E : _ (ColChiplet _) = _ |- _ => rewrite ?E; clear E end. subst mr'.
  split; [intros E; rewrite (Hf E); ring|]. clear Hf.
  clear Hr'. destruct Hr as (_ & _ & Hb & Hr). unfold is_sponge, is_merkle, is_pad, is_bit in Hr. cbn [selectors hasher_state node_index mrupdate_id is_boundary direction_bit s_perm drop replicate] in *.
  unfold LINEAR_HASH, MP_VERIFY, MR_UPDATE_OLD, MR_UPDATE_NEW, RETURN_HASH, RETURN_STATE in Hr.
  destruct Hs as [Hk Hk'|Hk Hk' Hi|Hk Hk' Hi|Hk Hk' Hi|Hk Hk'];
  unfold is_sponge, is_merkle, is_out, is_pad, LINEAR_HASH, MP_VERIFY, MR_UPDATE_OLD, MR_UPDATE_NEW, RETURN_HASH, RETURN_STATE in Hk, Hk';
  cbn [selectors hasher_state node_index mrupdate_id is_boundary direction_bit s_perm drop take] in *.
  all: pose proof ONE_neq_ZERO as H1; pose proof neq_01 as H0.
  - injection Hk as -> -> ->. destruct Hr as [(_ & -> & ->)|Hr]; [|exfalso; destruct Hr as [([Hr|[Hr|Hr]] & _)|[(Hr & _)|[(Hr & _)|(Hr & _)]]]; congruence].
    destruct Hk' as [[= -> -> ->]|[= -> -> ->]], Hb as [-> | ->]; split_and!; try done; ring.
  - destruct Hr as [(Hr & _)|[(_ & Hd & [= -> -> -> ->])|Hr]]; [exfalso; destruct Hk as [Hk|[Hk|Hk]]; congruence| |exfalso; destruct Hr as [(Hr & _)|[(Hr & _)|(Hr & _)]], Hk as [Hk|[Hk|Hk]]; congruence].
    subst ni. destruct Hk as [[= -> -> ->]|[[= -> -> ->]|[= -> -> ->]]], Hk' as [[= -> -> ->]|[= -> -> ->]], Hb as [-> | ->], Hd as [-> | ->]; split_and!; try done; ring.
  - injection Hk' as -> -> ->. destruct Hr as [(Hr & _)|[([Hr|[Hr|Hr]] & _)|[(Hr & -> & ->)|[(Hr & Hd)|(Hr & _)]]]]; try (exfalso; destruct Hk as [Hk|Hk]; congruence);
    injection Hr as -> -> ->; [clear Hk|clear Hk];
    destruct Hi as [-> |(-> & [= -> -> -> ->])], Hb as [-> | ->]; try rewrite (Hd eq_refl); split_and!; try done; ring.
  - destruct Hr as [(Hr & _)|[([Hr|[Hr|Hr]] & _)|[(Hr & -> & ->)|[(Hr & Hd)|(Hr & _)]]]]; try (exfalso; destruct Hk as [Hk|Hk]; congruence);
    injection Hr as -> -> ->; (destruct Hi as [-> |(-> & -> & -> & [(? & [= -> -> -> ->])|(? & [= -> -> -> ->])])]; try rewrite (Hd eq_refl); subst);
    destruct Hk' as [[= -> -> ->]|[[= -> -> ->]|[= -> -> ->]]]; split_and!; try done; try ring.
  - injection Hk' as -> -> ->. destruct Hr as [(Hr & _)|[([Hr|[Hr|Hr]] & _)|[(Hr & -> & ->)|[(Hr & Hd)|(Hr & -> & ->)]]]]; try (exfalso; destruct Hk as [[Hk|Hk]|Hk]; congruence);
    injection Hr as -> -> ->; try (destruct Hb as [-> | ->]; try rewrite (Hd eq_refl)); split_and!; try done; ring.
Qed.

(** The last row of the controller *)
Definition ends (r : hrow) : Prop := is_pad r \/ is_out r /\ is_boundary r = ONE.
Lemma controller_last_ok first last l n r : in_region l RController -> in_region n RPermutation -> shows_hasher l r -> row_ok r -> ends r -> first = false ->
  satisfied first last l n AirController.enforce_controller_constraints.
Proof.
  intros Hl Hn Hv Hr He ->. pose proof (row_columns_eqs l r Hv Hr) as Hc. clear Hv.
  apply (residual2_satisfied _ _ _ _ _ _ _ Hl Hn). open_goal. clear Hl Hn. rewrite new_unchecked_1.
  destruct r as [sel st ni mr b d sp]. cbn [selectors hasher_state node_index mrupdate_id is_boundary direction_bit s_perm] in *.
  pose proof (row_length _ Hr) as L3. pose proof (proj1 Hr) as L12. cbn in L3, L12. destruct (list_3 _ L3) as (e0 & e1 & e2 & ->).
  destruct (list_12 _ L12) as (? & ? & ? & ? & ? & ? & ? & ? & ? & ? & ? & ? & ->). clear L3 L12.
  unfold columns_eqs in *. destruct_and! Hc. repeat match goal with E : _ (ColChiplet _) = _ |- _ => rewrite ?E; clear E end. split; [done|].
  destruct Hr as (_ & _ & Hb & Hr). unfold ends, is_out, is_sponge, is_merkle, is_pad, is_bit, LINEAR_HASH, MP_VERIFY, MR_UPDATE_OLD, MR_UPDATE_NEW, RETURN_HASH, RETURN_STATE in *.
  cbn [selectors hasher_state node_index mrupdate_id is_boundary direction_bit s_perm drop replicate] in *. pose proof ONE_neq_ZERO. pose proof neq_01.
  destruct Hr as [(Hr & _)|[([Hr|[Hr|Hr]] & _)|[(Hr & -> & ->)|[(Hr & Hd)|(Hr & -> & ->)]]]]; try (exfalso; destruct He as [He|[[He|He] _]]; congruence);
    injection Hr as -> -> ->; (destruct He as [He|[_ He]]; [try (exfalso; congruence)|subst]); try rewrite (Hd eq_refl); split_and!; try done; try ring; congruence.
Qed.
End Controller.

(** ** The rows of a permutation *)
Section Cycle.
Context {F : Felt} {P : HasherParams} {H : HasherFunctions}.
Add Ring felt_ring_hasher_cycle : felt_ring_theory.

Lemma ext_round_eq s g : length s = 12 -> ext_round s (ark_row g) = full_round s (felts g).
Proof.
  intros Hs. unfold ext_round, full_round. change (ark_row g) with (felts g).
  rewrite h_add_rc_spec, h_sbox_spec, h_external_spec; rewrite ?length_fmap, ?length_zip_with, ?length_felts; try done; lia.
Qed.
Lemma int_round_eq s c : length s = 12 -> int_round s c = (sbox (nth 0 s ZERO + new_unchecked c)%F, partial_round s c).
Proof.
  intros Hs. unfold int_round. rewrite exp_7_eq, h_internal_spec by (by rewrite length_insert). by destruct s.
Qed.
Lemma length_cycle_step m s : length s = 12 -> length (cycle_step m s) = 12.
Proof.
  intros Hs. unfold cycle_step. assert (length (mat_mul external_matrix s) = 12) as Hm by (unfold mat_mul; by rewrite length_fmap, length_seq).
  destruct (m =? 0); [by apply length_full; [|apply length_felts]|]. destruct (m <=? 3); [by apply length_full; [|apply length_felts]|]. destruct (m <=? 10).
  - cbn [seq foldl]. by do 3 apply length_partial.
  - destruct (m =? 11); apply length_full; try apply length_felts; try done. by apply length_partial.
Qed.

(** The witnesses of row [m] of a cycle on a state, and the row *)
Definition cycle_witnesses (m : nat) (s : list felt) : list felt :=
  let w c s := sbox (nth 0 s ZERO + new_unchecked (ARK_INT c))%F in
  if (4 <=? m) && (m <=? 10) then
    let c := (m - 4) * 3 in
    [w c s; w (c + 1) (partial_round s (ARK_INT c)); w (c + 2) (partial_round (partial_round s (ARK_INT c)) (ARK_INT (c + 1)))]
  else if m =? 11 then [w 21 s; ZERO; ZERO] else [ZERO; ZERO; ZERO].
Lemma length_cycle_witnesses m s : length (cycle_witnesses m s) = 3.
Proof. unfold cycle_witnesses. by destruct ((4 <=? m) && (m <=? 10)), (m =? 11). Qed.
Definition cycle_row (mult : felt) (m : nat) (s : list felt) : hrow := mkRow (cycle_witnesses m s) s mult ZERO ZERO ZERO ONE.
Definition cycle_states (s : list felt) (ms : list nat) : list felt := foldl (fun s m => cycle_step m s) s ms.
Fixpoint cycle_rows (mult : felt) (ms : list nat) (s : list felt) : list hrow :=
  match ms with [] => [] | m :: ms => cycle_row mult m s :: cycle_rows mult ms (cycle_step m s) end.

Lemma length_cycle_states ms s : length s = 12 -> length (cycle_states s ms) = 12.
Proof. revert s. induction ms as [|m ms IH]; intros s Hs; [done|]. apply IH. by apply length_cycle_step. Qed.
Lemma cycle_rows_app mult a b s : cycle_rows mult (a ++ b) s = cycle_rows mult a s ++ cycle_rows mult b (cycle_states s a).
Proof. revert s. induction a as [|m a IH]; intros s; [done|]. cbn. by rewrite IH. Qed.
(** A loop whose body appends one row *)
Lemma cycle_loop mult body (ks : list nat) (f : nat -> nat) tr s :
  (forall tr s k, k ∈ ks -> length s = 12 -> body (tr, s) k = (tr ++ [cycle_row mult (f k) s], cycle_step (f k) s)) -> length s = 12 ->
  foldl body (tr, s) ks = (tr ++ cycle_rows mult (f <$> ks) s, cycle_states s (f <$> ks)).
Proof.
  revert tr s. induction ks as [|k ks IH]; intros tr s Hb Hs; [cbn; by rewrite app_nil_r|]. cbn [foldl fmap list_fmap cycle_rows].
  rewrite Hb by (done || left). rewrite IH; [by rewrite <-app_assoc|intros; apply Hb; [by right|done]|by apply length_cycle_step].
Qed.

Ltac three_rounds k Hk := apply elem_of_seq in Hk; destruct k as [|[|[|[|?]]]]; first [exfalso; lia|reflexivity].

(** The sixteen rows of a cycle *)
Lemma permutation_cycle_rows tr s mult : length s = 12 -> append_permutation_cycle tr s mult = tr ++ cycle_rows mult (seq 0 16) s.
Proof.
  intros Hs. unfold append_permutation_cycle, append_perm_row_with_witnesses.
  assert (length (h_apply_matmul_external s) = 12) as Hm by (rewrite h_external_spec by done; unfold mat_mul; by rewrite length_fmap, length_seq).
  rewrite ext_round_eq, h_external_spec by done. change (full_round _ _) with (cycle_step 0 s). set (s1 := cycle_step 0 s).
  assert (length s1 = 12) as Hs1 by by apply length_cycle_step.
  rewrite (cycle_loop mult _ (seq 1 3) (fun k => k)); [|intros tr' s' k Hk Hs'; rewrite ext_round_eq by done; three_rounds k Hk|done].
  set (s4 := cycle_states s1 _). assert (length s4 = 12) as Hs4 by by apply length_cycle_states.
  rewrite (cycle_loop mult _ (seq 0 7) (fun k => 4 + k)); [| |done].
  2: { intros tr' s' k Hk Hs'. cbn [foldl]. rewrite !int_round_eq by (done || by repeat apply length_partial). cbn [app].
    apply elem_of_seq in Hk. rewrite Nat.add_0_r. do 7 (destruct k as [|k]; [reflexivity|]). lia. }
  set (s11 := cycle_states s4 _). assert (length s11 = 12) as Hs11 by by apply length_cycle_states.
  rewrite int_round_eq, ext_round_eq by (done || by apply length_partial). change (full_round _ _) with (cycle_step 11 s11).
  set (s12 := cycle_step 11 s11). assert (length s12 = 12) as Hs12 by by apply length_cycle_step.
  rewrite (cycle_loop mult _ (seq 1 3) (fun k => 11 + k)); [|intros tr' s' k Hk Hs'; rewrite ext_round_eq by done; three_rounds k Hk|done].
  set (s15 := cycle_states s12 _). change (seq 0 16) with ([0] ++ seq 1 3 ++ seq 4 7 ++ [11] ++ seq 12 3 ++ [15]).
  rewrite !cycle_rows_app, <-!app_assoc. reflexivity.
Qed.

(** *** The constraints *)
Import AirPermutation.
Lemma all_eq_ok first last l n es es' : eval l n <$> es = eval l n <$> es' -> satisfied first last l n (assert_all_eq es es').
Proof.
  revert es'. induction es as [|e es IH]; intros [|e' es'] E; try done; [constructor..|]. injection E as E1 E2. unfold assert_all_eq. cbn [zip_with concat].
  apply (satisfied_app _ _ _ _ (assert_eq e e')). split; [|by apply IH]. apply satisfied_conj. split; [|done]. unfold holds. cbn. rewrite E1. ring.
Qed.
Lemma zeros_ok first last l n es : Forall (fun x => x = ZERO) (eval l n <$> es) -> satisfied first last l n (assert_zeros es).
Proof.
  intros Hz. induction es as [|e es IH]; [constructor|]. cbn in Hz. inversion Hz. unfold assert_zeros. cbn.
  apply (satisfied_app _ _ _ _ (assert_zero e)). split; [|by apply IH]. by apply satisfied_conj.
Qed.
Lemma zero_ok first last l n e : eval l n e = ZERO -> satisfied first last l n (assert_zero e).
Proof. intros E. apply satisfied_conj. by split. Qed.

(** The witnesses of a row pass their checks, and give the next state. *)
Lemma witness_checked s c : length s = 12 -> (sbox (nth 0 s ZERO + new_unchecked c) - exp_7 (nth 0 s ZERO + new_unchecked c))%F = ZERO.
Proof. intros Hs. rewrite exp_7_eq. ring. Qed.
Lemma internal_witness s c : length s = 12 ->
  apply_matmul_internal (<[0 := sbox (nth 0 s ZERO + new_unchecked c)%F]> s) (felts MAT_DIAG) = partial_round s c.
Proof. intros Hs. apply internal_eq; [done|by apply witness_checked]. Qed.
Lemma packed_witnesses m s : 4 <= m <= 10 -> length s = 12 ->
  let r := apply_packed_internals s (cycle_witnesses m s) (take 3 (felts (row_ark m))) (felts MAT_DIAG) in
  r.1 = cycle_step m s /\ Forall (fun x => x = ZERO) r.2.
Proof.
  intros Hm Hs. assert (take 3 (felts (row_ark m)) = new_unchecked <$> [ARK_INT ((m - 4) * 3); ARK_INT ((m - 4) * 3 + 1); ARK_INT ((m - 4) * 3 + 2)]) as ->
    by (do 11 (destruct m as [|m]; [lia || reflexivity|]); lia).
  assert (cycle_step m s = foldl partial_round s [ARK_INT ((m - 4) * 3); ARK_INT ((m - 4) * 3 + 1); ARK_INT ((m - 4) * 3 + 2)]) as ->
    by (do 11 (destruct m as [|m]; [lia || reflexivity|]); lia).
  unfold cycle_witnesses. rewrite (proj2 (Nat.leb_le 4 m)), (proj2 (Nat.leb_le m 10)) by lia. cbn [andb]. cbn zeta.
  unfold apply_packed_internals. cbn [fmap list_fmap zip zip_with foldl]. unfold packed_internal. cbn [fst snd app].
  change (@r_sub felt _) with felt_sub. change (@r_add felt _) with felt_add. change (@r_zero felt _) with ZERO.
  rewrite !internal_witness by by repeat apply length_partial.
  split; [done|]. repeat constructor; apply witness_checked; by repeat apply length_partial.
Qed.
Lemma int_ext_witness s : length s = 12 -> let r := apply_internal_plus_ext s (nth 0 (cycle_witnesses 11 s) ZERO) (new_unchecked (ARK_INT 21)) (felts (row_ark 11)) (felts MAT_DIAG) in
  r.1 = cycle_step 11 s /\ r.2 = ZERO.
Proof.
  intros Hs. unfold cycle_witnesses, apply_internal_plus_ext. cbn [Nat.leb Nat.eqb andb nth fst snd].
  change (@r_sub felt _) with felt_sub. change (@r_add felt _) with felt_add. change (@r_zero felt _) with ZERO. split; [|by apply witness_checked].
  rewrite internal_witness by done. rewrite round_eq; [reflexivity|by apply length_partial|apply length_felts].
Qed.
Lemma row_rounds m s : length s = 12 -> (m = 0 -> apply_init_plus_ext s (felts (row_ark m)) = cycle_step m s) /\
  (1 <= m <= 3 \/ 12 <= m <= 14 -> external_round s (felts (row_ark m)) = cycle_step m s).
Proof.
  intros Hs. split.
  - intros ->. unfold apply_init_plus_ext. rewrite external_eq by done. rewrite round_eq; [reflexivity| |apply length_felts].
    unfold mat_mul. by rewrite length_fmap, length_seq.
  - intros Hm. rewrite round_eq; [|done|apply length_felts]. do 15 (destruct m as [|m]; [lia || reflexivity|]). lia.
Qed.

Lemma nth_list (g : nat -> felt) (l : list felt) k : length l = k -> (forall j, j < k -> g j = nth j l ZERO) -> g <$> seq 0 k = l.
Proof.
  intros Hl Hg. apply list_eq. intros j. rewrite list_lookup_fmap. destruct (decide (j < k)) as [Hj|Hj].
  - rewrite lookup_seq_lt by done. cbn. rewrite Hg by done. symmetry. rewrite <-Hl in Hj. destruct (lookup_lt_is_Some_2 l j Hj) as [x Hx].
    rewrite Hx. f_equal. symmetry. by apply nth_lookup_Some.
  - rewrite lookup_seq_ge by lia. symmetry. apply lookup_ge_None. lia.
Qed.
(** A row of a cycle and the row after it *)
Lemma cycle_row_ok first last l n mult m s r' : in_region l RPermutation -> in_region n r' -> m < 16 -> length s = 12 ->
  (forall k, k < 4 -> l (ColPeriodic k) = felt_bit (existsb (Nat.eqb k) (selects m))) -> eval l n <$> ark = felts (row_ark m) ->
  shows_hasher l (cycle_row mult m s) -> (m < 15 -> r' = RPermutation /\ shows_hasher n (cycle_row mult (S m) (cycle_step m s))) ->
  satisfied first last l n enforce_permutation_constraints.
Proof.
  intros Hl Hn Hm Hs Hk Ha Hv Hv'.
  pose proof (length_cycle_witnesses m s) as Hw.
  destruct (hasher_columns_shown _ _ Hv Hw Hs) as (C3 & C12 & C16 & C17 & C18 & C19). cbn [cycle_row selectors hasher_state node_index mrupdate_id is_boundary direction_bit] in *.
  assert (eval l n <$> h = s) as Eh by (exact (nth_list (fun i => l (ColChiplet (state i))) s 12 Hs C12)).
  assert (eval l n <$> w = cycle_witnesses m s) as Ew by (exact (nth_list (fun i => l (ColChiplet (witness i))) _ 3 Hw C3)).
  assert (m < 15 -> eval l n <$> h_next = cycle_step m s /\ n (ColChiplet 16) = mult) as Hn'.
  { intros Hlt. destruct (Hv' Hlt) as [_ Hx].
    pose proof (length_cycle_witnesses (S m) (cycle_step m s)) as Hw'.
    destruct (hasher_columns_shown _ _ Hx Hw' (length_cycle_step m s Hs)) as (_ & D12 & D16 & _). cbn [cycle_row hasher_state node_index] in *. split; [|done].
    exact (nth_list (fun i => n (ColChiplet (state i))) _ 12 (length_cycle_step m s Hs) D12). }
  assert (eval l n <$> mat_diag = felts MAT_DIAG) as Ed by reflexivity.
  pose proof (Hl ColSPerm true eq_refl) as Ep. cbn [felt_bit] in Ep.
  assert (forall k (e : expr), k < 4 -> existsb (Nat.eqb k) (selects m) = false -> eval l n (e * periodic k)%E = ZERO) as Hoff.
  { intros k e Hk4 Hf. unfold periodic. cbn [eval]. rewrite (Hk k Hk4), Hf. cbn. ring. }
  unfold enforce_permutation_constraints, enforce_permutation_steps.
  pose proof (hom_packed_internals (eval l n) (eval_hom l n) h w (take 3 ark) mat_diag) as Hp. rewrite fmap_take, Eh, Ew, Ha, Ed in Hp.
  pose proof (hom_int_ext (eval l n) (eval_hom l n) h (chip (witness 0)) ark_int_21 ark mat_diag) as Hx. rewrite Eh, Ha, Ed in Hx.
  destruct (apply_packed_internals h w (take 3 ark) mat_diag) as [pe pc], (apply_internal_plus_ext h (chip (witness 0)) ark_int_21 ark mat_diag) as [xe xc].
  cbn [fst snd] in *. destruct (row_rounds m s Hs) as [Hr0 Hr1]. repeat (apply satisfied_app; split).
  - destruct (decide (4 <= m <= 11)) as [Hmm|Hmm].
    + apply when_zero. cbn [eval]. unfold is_packed_int, is_int_ext, periodic. cbn [eval]. rewrite (Hk 2), (Hk 3), eval_E1 by lia.
      do 12 (destruct m as [|m]; [lia || (cbn; ring)|]). lia.
    + apply when_ok, zero_ok. cbn [chip eval]. rewrite (C3 0 : _ -> l (ColChiplet (witness 0)) = _) by lia.
      do 16 (destruct m as [|m]; [lia || done|]). lia.
  - destruct (decide (4 <= m <= 10)) as [Hmm|Hmm].
    + apply when_zero. cbn [eval]. unfold is_packed_int, periodic. cbn [eval]. rewrite (Hk 2), eval_E1 by lia.
      do 11 (destruct m as [|m]; [lia || (cbn; ring)|]). lia.
    + apply when_ok. apply satisfied_app. split; apply zero_ok; cbn [chip eval];
        [rewrite (C3 1 : _ -> l (ColChiplet (witness 1)) = _) by lia|rewrite (C3 2 : _ -> l (ColChiplet (witness 2)) = _) by lia];
        do 16 (destruct m as [|m]; [lia || done|]); lia.
  - destruct (decide (m = 0)) as [Hmm|Hmm].
    + apply when_ok, all_eq_ok. destruct Hn' as [-> _]; [lia|]. rewrite (hom_init _ (eval_hom l n)), Eh, Ha. by rewrite Hr0.
    + apply when_zero, (Hoff 0); [lia|]. do 16 (destruct m as [|m]; [done|]). lia.
  - destruct (decide (1 <= m <= 3 \/ 12 <= m <= 14)) as [Hmm|Hmm].
    + apply when_ok, all_eq_ok. destruct Hn' as [-> _]; [lia|]. rewrite (hom_round _ (eval_hom l n)), Eh, Ha. by rewrite Hr1.
    + apply when_zero, (Hoff 1); [lia|]. do 16 (destruct m as [|m]; [lia || done|]). lia.
  - destruct (decide (4 <= m <= 10)) as [Hmm|Hmm].
    + destruct (packed_witnesses m s Hmm Hs) as [E1 E2]. rewrite Hp in E1, E2. cbn [fst snd] in E1, E2. apply when_ok, satisfied_app.
      split; [by apply zeros_ok|]. apply all_eq_ok. rewrite E1. apply Hn'. lia.
    + apply when_zero, (Hoff 2); [lia|]. do 16 (destruct m as [|m]; [lia || done|]). lia.
  - destruct (decide (m = 11)) as [->|Hmm].
    + destruct (int_ext_witness s Hs) as [E1 E2].
      rewrite <-(C3 0 ltac:(lia) : l (ColChiplet (witness 0)) = _) in E1, E2. cbn [eval chip ark_int_21] in Hx. rewrite Hx in E1, E2. cbn [fst snd] in E1, E2.
      apply when_ok, satisfied_app. split; [by apply zero_ok|]. apply all_eq_ok. rewrite E1. apply Hn'. lia.
    + apply when_zero, (Hoff 3); [lia|]. do 16 (destruct m as [|m]; [done || lia|]). lia.
  - apply when_ok, zeros_ok. cbn. rewrite C17, C18, C19. by repeat constructor.
  - apply when_ok. destruct (decide (m = 15)) as [->|].
    + apply when_zero. unfold not_cycle_end, is_init_ext, is_ext, is_packed_int, is_int_ext, periodic. cbn [esum foldl eval]. rewrite !Hk, eval_E0 by lia. cbn. ring.
    + apply when_ok, satisfied_conj. split; [|done]. unfold holds. cbn. change multiplicity with 16. rewrite C16. destruct Hn' as [_ ->]; [lia|]. ring.
  - apply when_zero. pose proof (Hl (ColChiplet 0) false eq_refl) as E0. cbn. rewrite E0. cbn. ring.
  - destruct (decide (m = 15)) as [->|].
    + apply when_ok, zero_ok. unfold not_cycle_end, is_init_ext, is_ext, is_packed_int, is_int_ext, periodic. cbn [esum foldl eval]. rewrite !Hk, eval_E0 by lia. cbn. ring.
    + apply when_zero. destruct Hv' as [-> _]; [lia|]. pose proof (Hn ColSPerm true eq_refl) as E1. cbn. rewrite E1, new_unchecked_1. cbn. ring.
Qed.
End Cycle.
End HashTable.
