(* ===== verification/TraceRequests.v ===== *)
(** * Requests to the hash chiplet

    The rows a request appends to the controller form a segment: it starts with a boundary input, ends with a boundary output, and
    neighbouring rows fit together.  Segments can be appended to each other, so the controller's trace stays one. *)

From S2P Require Import Prelude Field Types Operations Batching Air AirFlags AirStack AirRows AirDecoder AirTrace Chiplets ChipletRegions ChipletPermutation ChipletMerkle TraceTables TraceHasher.
From Stdlib Require Import Ring.
Import Air HashTable.
#[local] Open Scope nat_scope.

Module HashRequests.

(** ** Segments *)
Section Segments.
Context {F : Felt}.

Definition opens (r : hrow) : Prop := (is_sponge r \/ is_merkle r) /\ is_boundary r = ONE.
Definition closes (r : hrow) : Prop := is_out r /\ is_boundary r = ONE.
(** A segment that ends with row [l] *)
Definition open_seg (s : list hrow) (l : hrow) : Prop :=
  Forall row_ok s /\ chain step_ok s /\ (exists r, head s = Some r /\ opens r) /\ last s = Some l.
Definition seg_ok (s : list hrow) : Prop := exists l, open_seg s l /\ closes l.

Lemma closes_opens l n : closes l -> opens n -> step_ok l n.
Proof. intros [Hl Hb] [[Hn|Hn] Hb']; [apply out_sponge|apply out_merkle]; auto. Qed.
Lemma open_new a b : opens a -> row_ok a -> row_ok b -> step_ok a b -> open_seg [a; b] b.
Proof.
  intros Ho Ha Hb Hs. split_and!; [by rewrite !Forall_cons| |by eexists|done].
  apply chain_cons; [apply chain_cons; [apply chain_nil|done]|]. by intros y [= <-].
Qed.
Lemma open_app s l s' l' : open_seg s l -> Forall row_ok s' -> chain step_ok s' -> (forall r, head s' = Some r -> step_ok l r) -> last s' = Some l' ->
  open_seg (s ++ s') l'.
Proof.
  intros (Hr & Hc & (r & Hh & Ho) & Hl) Hr' Hc' Hs Hl'. split_and!.
  - by apply Forall_app.
  - apply chain_app; [done..|]. intros x y Hx Hy. rewrite Hl in Hx. injection Hx as <-. by apply Hs.
  - exists r. split; [|done]. destruct s; [done|]. done.
  - by rewrite last_app, Hl'.
Qed.
Lemma open_pair s l a b : open_seg s l -> row_ok a -> row_ok b -> step_ok l a -> step_ok a b -> open_seg (s ++ [a; b]) b.
Proof.
  intros Ho Ha Hb Hla Hab. eapply open_app; [done|by rewrite !Forall_cons| |by intros r [= <-]|done].
  apply chain_cons; [apply chain_cons; [apply chain_nil|done]|]. by intros y [= <-].
Qed.
Lemma seg_app s s' : seg_ok s -> seg_ok s' -> seg_ok (s ++ s').
Proof.
  intros (l & Ho & Hc) (l' & (Hr & Hch & (r & Hh & Hop) & Hl) & Hc'). exists l'. split; [|done]. eapply open_app; [done..| |done].
  intros x Hx. rewrite Hh in Hx. injection Hx as <-. by apply closes_opens.
Qed.
Lemma seg_append tr s : tr = [] \/ seg_ok tr -> seg_ok s -> seg_ok (tr ++ s).
Proof. intros [->|H] Hs; [done|by apply seg_app]. Qed.

(** *** The identifiers of updates along the rows *)
Fixpoint mr_path (id : felt) (s : list hrow) (id' : felt) : Prop :=
  match s with [] => id = id' | r :: s => mr_next id r /\ mr_path (mrupdate_id r) s id' end.
Lemma mr_path_app id a b id' : mr_path id (a ++ b) id' <-> exists k, mr_path id a k /\ mr_path k b id'.
Proof.
  revert id. induction a as [|r a IH]; intros id; cbn; [naive_solver|]. rewrite IH. naive_solver.
Qed.
Lemma mr_path_chain id s id' : mr_path id s id' -> chain (fun l n => mr_next (mrupdate_id l) n) s.
Proof.
  revert id. induction s as [|r s IH]; intros id H; [apply chain_nil|]. destruct H as [_ H]. apply chain_cons; [by eapply IH|].
  intros y Hy. destruct s; [done|]. injection Hy as <-. apply H.
Qed.
Add Ring felt_ring_requests : felt_ring_theory.
Lemma mr_path_same id s : Forall (fun r => mrupdate_id r = id /\ mv_start r = false) s -> mr_path id s id.
Proof.
  induction 1 as [|r s [E Hm] _ IH]; [done|]. cbn. unfold mr_next. rewrite Hm, E. split; [cbn; ring|done].
Qed.

(** *** The states that are permuted *)
Definition is_in (r : hrow) : Prop := nth 0 (selectors r) ZERO = ONE /\ s_perm r = ZERO.
#[global] Instance is_in_dec r : Decision (is_in r).
Proof. unfold is_in. apply _. Defined.
Definition input_states (s : list hrow) : list (list felt) := hasher_state <$> filter is_in s.
Definition bump (m : gmap (list Z) Z) (state : list felt) : gmap (list Z) Z := <[state_to_key state := (default 0 (m !! state_to_key state) + 1)%Z]> m.
Lemma input_states_app a b : input_states (a ++ b) = input_states a ++ input_states b.
Proof. unfold input_states. by rewrite filter_app, fmap_app. Qed.
Lemma opens_in r : row_ok r -> opens r -> is_in r.
Proof.
  intros (_ & Hp & _) [[Hs|[Hs|[Hs|Hs]]] _]; unfold is_in; rewrite Hs; done.
Qed.
End Segments.

(** ** The state of the chiplet *)
Section Requests.
Context {F : Felt} {P : HasherParams} {H : HasherFunctions}.
Add Ring felt_ring_requests2 : felt_ring_theory.

Lemma length_permutation s : length s = 12 -> length (apply_permutation_12 s) = 12.
Proof. intros Hs. rewrite h_permutation_spec, <-cycle_poseidon2 by done. by apply (length_cycle_states (seq 0 15)). Qed.

(** The two rows of a permutation *)
Definition input_of (id : felt) (sel state : list felt) (f : RowFlags) : hrow := mkRow sel state (in_index f) id (in_boundary f) (in_direction f) ZERO.
Definition output_of (id : felt) (sel state : list felt) (f : RowFlags) : hrow :=
  mkRow sel (apply_permutation_12 state) (out_index f) id (out_boundary f) (out_direction f) ZERO.
Definition pair_rows (id : felt) (init fin state : list felt) (f : RowFlags) : list hrow := [input_of id init state f; output_of id fin state f].

(** [h'] is [h] after rows that request their input states *)
Record extends (h : Hasher) (s : list hrow) (h' : Hasher) : Prop := mkExtends {
  ext_trace : h_trace h' = h_trace h ++ s;
  ext_memo : memoized_trace_map h' = memoized_trace_map h;
  ext_requests : perm_request_map h' = foldl bump (perm_request_map h) (input_states s);
  ext_id : h_mrupdate_id h' = h_mrupdate_id h;
  ext_finalized : finalized h' = finalized h;
}.
Lemma extends_refl h : extends h [] h.
Proof. split; try done. by rewrite app_nil_r. Qed.
Lemma extends_trans h s h' s' h'' : extends h s h' -> extends h' s' h'' -> extends h (s ++ s') h''.
Proof.
  intros [T M R I Fi] [T' M' R' I' Fi']. split; try congruence.
  - by rewrite T', T, app_assoc.
  - by rewrite R', R, input_states_app, foldl_app.
Qed.
Lemma append_extends h init fin state f : nth 0 init ZERO = ONE -> nth 0 fin ZERO = ZERO ->
  extends h (pair_rows (h_mrupdate_id h) init fin state f) (append_controller_permutation h init fin state f).1.
Proof.
  intros Hi Hf. split; try done.
  - cbn. unfold append_controller_row. by rewrite <-app_assoc.
  - unfold pair_rows, input_states. rewrite filter_cons_True by done. rewrite filter_cons_False; [done|]. intros [E _]. cbn in E. rewrite Hf in E. by apply neq_01.
Qed.

(** The invariant: the trace is a segment, its identifiers are consecutive, the requests count its input rows, and the memoized ranges are segments
    of sponges. *)
Definition slice {A} (a b : nat) (tr : list A) : list A := take (b - a) (drop a tr).
Definition sponge_only (s : list hrow) : Prop := Forall (fun r => ~ is_merkle r) s.
Definition count_requests (states : list (list felt)) : gmap (list Z) Z := foldl bump ∅ states.
Record hinv (h : Hasher) : Prop := mkHinv {
  inv_trace : h_trace h = [] \/ seg_ok (h_trace h);
  inv_ids : mr_path ZERO (h_trace h) (h_mrupdate_id h);
  inv_requests : perm_request_map h = count_requests (input_states (h_trace h));
  inv_memo : forall k a b, memoized_trace_map h !! k = Some (a, b) ->
    a <= b <= length (h_trace h) /\ seg_ok (slice a b (h_trace h)) /\ sponge_only (slice a b (h_trace h));
  inv_open : finalized h = false;
}.
Lemma hinv_default : hinv hasher_default.
Proof. split; try done. by left. Qed.

(** A segment is appended; the identifier may have been incremented before. *)
Definition with_id (id : felt) (h : Hasher) : Hasher := mkHasher (h_trace h) (memoized_trace_map h) (perm_request_map h) id (finalized h).
Lemma hinv_extend h id s h' : hinv h -> extends (with_id id h) s h' -> mr_path (h_mrupdate_id h) s id -> seg_ok s -> hinv h' /\ h_trace h' <> [].
Proof.
  intros [Ht Hi Hr Hm Ho] [T M R I Fi] Hp Hs. cbn in *. split.
  - split.
    + rewrite T. right. by apply seg_append.
    + rewrite T, I. apply mr_path_app. by exists (h_mrupdate_id h).
    + rewrite R, T, Hr. unfold count_requests. by rewrite input_states_app, foldl_app.
    + intros k a b Hk. rewrite M in Hk. destruct (Hm k a b Hk) as (Hab & Hseg & Hsp). rewrite T, length_app. unfold slice in *.
      rewrite drop_app_le, take_app_le by (rewrite ?length_drop; lia). split_and!; [lia..|done|done].
    + by rewrite Fi.
  - rewrite T. destruct Hs as (l & (_ & _ & (r & Hh & _) & _) & _). destruct s; [done|]. by destruct (h_trace h).
Qed.
Lemma next_row_addr_value (tr : list hrow) : (Z.of_nat (length tr) + 1 < modulus)%Z -> Z.to_nat (⟦next_row_addr tr⟧ - 1) = length tr.
Proof. intros Hlt. unfold next_row_addr. rewrite canonical_new by lia. lia. Qed.
(** The range of the rows after a prefix is memoized. *)
Lemma hinv_insert h pre s hash : hinv h -> h_trace h = pre ++ s -> seg_ok s -> sponge_only s -> (Z.of_nat (length (h_trace h)) + 1 < modulus)%Z ->
  hinv (insert_to_memoized_trace_map h (next_row_addr pre) hash).
Proof.
  intros [Ht Hi Hr Hm Ho] E Hs Hsp Hlt. split; try done. unfold insert_to_memoized_trace_map. cbn [memoized_trace_map h_trace].
  intros k a b. destruct (decide (k = digest_to_key hash)) as [->|Hne].
  - rewrite lookup_insert_eq. rewrite !next_row_addr_value by (rewrite ?E, ?length_app in *; lia). intros [= <- <-].
    unfold slice. rewrite E, length_app, drop_app_length. rewrite take_ge by lia. split_and!; [lia..|done|done].
  - rewrite lookup_insert_ne by done. apply Hm.
Qed.

(** *** Memoized requests *)
Definition set_id (id : felt) (r : hrow) : hrow := mkRow (selectors r) (hasher_state r) (node_index r) id (is_boundary r) (direction_bit r) (s_perm r).
Lemma set_id_step id l n : step_ok l n -> step_ok (set_id id l) (set_id id n).
Proof. intros []; [apply sponge_out|apply merkle_out|apply out_sponge|apply out_merkle|apply out_pad]; done. Qed.
Lemma set_id_seg id s : seg_ok s -> seg_ok (set_id id <$> s).
Proof.
  intros (l & (Hr & Hc & (r & Hh & Ho) & Hl) & Hcl). exists (set_id id l). split; [|done]. split_and!.
  - apply Forall_fmap. exact Hr.
  - refine (chain_fmap _ _ _ _ _ Hc). apply set_id_step.
  - exists (set_id id r). split; [|done]. rewrite head_lookup, list_lookup_fmap, <-head_lookup, Hh. done.
  - by rewrite fmap_last, Hl.
Qed.
Lemma overwrite_appended tr sl id : overwrite_mrupdate_id_in_range (tr ++ sl) (length tr) (length (tr ++ sl)) id = Ok (tr ++ (set_id id <$> sl)).
Proof.
  unfold overwrite_mrupdate_id_in_range, range_ok. rewrite Nat.leb_refl, imap_app. cbn [orb]. do 2 f_equal.
  - apply list_eq. intros i. rewrite list_lookup_imap. destruct (tr !! i) as [r|] eqn:E; [|done]. apply lookup_lt_Some in E. cbn.
    by rewrite (proj2 (Nat.leb_gt _ _)) by lia.
  - apply list_eq. intros i. rewrite list_lookup_imap, list_lookup_fmap. destruct (sl !! i) as [r|] eqn:E; [|done]. apply lookup_lt_Some in E. cbn [fmap option_fmap option_map].
    rewrite (proj2 (Nat.leb_le _ _)), (proj2 (Nat.ltb_lt _ _)) by (rewrite ?length_app; lia). done.
Qed.
Lemma input_states_appended tr sl sl' : length sl' = length sl -> input_states_in_range (tr ++ sl') (length tr) (length (tr ++ sl)) = Ok (input_states sl').
Proof.
  intros E. unfold input_states_in_range, range_ok. rewrite !length_app, E, Nat.leb_refl. cbn [orb]. rewrite drop_app_length, take_ge by lia. done.
Qed.
Lemma record_requests h states : foldl record_perm_request h states =
  mkHasher (h_trace h) (memoized_trace_map h) (foldl bump (perm_request_map h) states) (h_mrupdate_id h) (finalized h).
Proof. revert h. induction states as [|st states IH]; intros h; [by destruct h|]. cbn [foldl]. by rewrite IH. Qed.
Lemma not_merkle_start r : ~ is_merkle r -> mv_start r = false.
Proof. intros Hn. unfold mv_start. rewrite bool_decide_false; [done|]. intros E. apply Hn. unfold is_merkle. tauto. Qed.

(** A replayed request appends its memoized rows, with the current identifier. *)
Lemma replay_hinv h hash addr digest h' : hinv h -> replay_memoized_trace h hash = Ok (Some (addr, digest, h')) -> hinv h' /\ h_trace h' <> [].
Proof.
  intros Hinv. unfold replay_memoized_trace, get_memoized_trace. destruct (memoized_trace_map h !! _) as [[a b]|] eqn:Em; [|done].
  destruct (inv_memo h Hinv _ _ _ Em) as (Hab & Hseg & Hsp). unfold copy_trace.
  rewrite (proj2 (Nat.leb_le a b)), (proj2 (Nat.leb_le b _)) by lia. cbn [andb]. fold (slice a b (h_trace h)).
  destruct (if b =? 0 then None else _) as [r|]; [|done]. cbn [or_panic mbind outcome_bind]. rewrite overwrite_appended. cbn [mbind outcome_bind].
  rewrite input_states_appended by apply length_fmap. cbn [mbind outcome_bind]. rewrite record_requests. intros [= _ _ <-].
  set (s := set_id (h_mrupdate_id h) <$> slice a b (h_trace h)).
  apply (hinv_extend h (h_mrupdate_id h) s); [done| | |by apply set_id_seg].
  - by split.
  - apply mr_path_same. unfold s. apply Forall_fmap. refine (Forall_impl _ _ _ Hsp _). intros x Hx. split; [done|]. by apply not_merkle_start.
Qed.

(** *** Sponges *)
Lemma sponge_input_ok id state b : length state = 12 -> is_bit b -> forall b', row_ok (input_of id LINEAR_HASH state (sponge_flags b b')).
Proof. intros Hs Hb b'. split_and!; [done..|]. by left. Qed.
Lemma sponge_output_ok id state b fin : length state = 12 -> is_bit b -> fin = RETURN_HASH \/ fin = RETURN_STATE ->
  forall b', row_ok (output_of id fin state (sponge_flags b' b)).
Proof. intros Hs Hb Hf b'. split_and!; [by apply length_permutation|done..|]. destruct Hf as [-> | ->]; tauto. Qed.
Lemma sponge_pair_step id state fin f : fin = RETURN_HASH \/ fin = RETURN_STATE -> step_ok (input_of id LINEAR_HASH state f) (output_of id fin state f).
Proof. intros Hf. by apply sponge_out. Qed.
Lemma sponge_pair_only id init fin state f : init = LINEAR_HASH -> fin = RETURN_HASH \/ fin = RETURN_STATE ->
  Forall (fun r => ~ is_merkle r /\ mrupdate_id r = id) (pair_rows id init fin state f).
Proof.
  intros -> Hf. unfold is_merkle, LINEAR_HASH, MP_VERIFY, MR_UPDATE_OLD, MR_UPDATE_NEW, RETURN_HASH, RETURN_STATE in *.
  pose proof ONE_neq_ZERO. pose proof neq_01. apply Forall_cons. split; [|apply Forall_cons; split; [|done]]; (split; [|done]); cbn; intros E.
  - destruct E as [E|[E|E]]; congruence.
  - destruct Hf as [-> | ->], E as [E|[E|E]]; congruence.
Qed.
Lemma bit_0 : is_bit ZERO.
Proof. by left. Qed.
Lemma bit_1 : is_bit ONE.
Proof. by right. Qed.
Lemma sponge_mr id s : Forall (fun r => ~ is_merkle r /\ mrupdate_id r = id) s -> mr_path id s id /\ sponge_only s.
Proof.
  intros Hs. split; [apply mr_path_same; refine (Forall_impl _ _ _ Hs _)|refine (Forall_impl _ _ _ Hs _)]; intros r [Hm E]; [|done].
  split; [done|]. by apply not_merkle_start.
Qed.

(** A sponge of one permutation *)
Lemma single_sponge h fin state : hinv h -> length state = 12 -> fin = RETURN_HASH \/ fin = RETURN_STATE ->
  let h' := (append_controller_permutation h LINEAR_HASH fin state (sponge_flags ONE ONE)).1 in
  hinv h' /\ exists s, h_trace h' = h_trace h ++ s /\ seg_ok s /\ sponge_only s.
Proof.
  intros Hinv Hs Hf h'. set (s := pair_rows (h_mrupdate_id h) LINEAR_HASH fin state (sponge_flags ONE ONE)).
  assert (extends h s h') as Hx by (apply append_extends; [done|by destruct Hf as [-> | ->]]).
  destruct (sponge_mr _ s (sponge_pair_only (h_mrupdate_id h) LINEAR_HASH fin state (sponge_flags ONE ONE) eq_refl Hf)) as [Hm Ho].
  assert (seg_ok s) as Hseg.
  { exists (output_of (h_mrupdate_id h) fin state (sponge_flags ONE ONE)). split; [|done].
    apply open_new; [by split; [left|]|by apply sponge_input_ok; [|apply bit_1]|by apply sponge_output_ok; [|apply bit_1|]|by apply sponge_pair_step]. }
  split; [|by exists s; split_and!; [apply Hx|..]]. by apply (hinv_extend h (h_mrupdate_id h) s); [|destruct h|..].
Qed.

(** A sponge in progress: its rows [s] after [h0], its state [st] *)
Definition absorbing (h0 : Hasher) (p : Hasher * list felt) : Prop :=
  exists s l, extends h0 s p.1 /\ open_seg s l /\ Forall (fun r => ~ is_merkle r /\ mrupdate_id r = h_mrupdate_id h0) s /\
    is_out l /\ hasher_state l = p.2 /\ length p.2 = 12.
Lemma absorb_length st (g : list felt) : length st = 12 -> length g = 8 -> length (absorb_into_state st g) = 12 /\ drop 8 (absorb_into_state st g) = drop 8 st.
Proof.
  intros Hs Hg. unfold absorb_into_state, RATE_LEN. rewrite length_app, length_drop. split; [lia|]. by rewrite drop_app_length' by done.
Qed.
Lemma absorb_step h0 h st g fin b : absorbing h0 (h, st) -> length g = 8 -> fin = RETURN_HASH \/ fin = RETURN_STATE -> is_bit b ->
  let p := append_controller_permutation h LINEAR_HASH fin (absorb_into_state st g) (sponge_flags ZERO b) in
  absorbing h0 p /\ (b = ONE -> exists s, extends h0 s p.1 /\ seg_ok s /\ Forall (fun r => ~ is_merkle r /\ mrupdate_id r = h_mrupdate_id h0) s).
Proof.
  intros (s & l & Hx & Ho & Hall & Hout & Hst & Hlen) Hg Hf Hb p. cbn [fst snd] in *. destruct (absorb_length st g Hlen Hg) as [Ha Hd].
  set (st' := absorb_into_state st g) in *. set (i := input_of (h_mrupdate_id h0) LINEAR_HASH st' (sponge_flags ZERO b)).
  set (o := output_of (h_mrupdate_id h0) fin st' (sponge_flags ZERO b)).
  assert (extends h [i; o] p.1) as Hx'.
  { unfold i, o. rewrite <-(ext_id _ _ _ Hx). apply append_extends; [done|by destruct Hf as [-> | ->]]. }
  assert (open_seg (s ++ [i; o]) o) as Ho'.
  { apply (open_pair s l); [done|by apply sponge_input_ok; [|apply bit_0]|by apply sponge_output_ok| |by apply sponge_pair_step].
    apply out_sponge; [done..|]. right. split; [done|]. cbn. by rewrite Hd, Hst. }
  assert (Forall (fun r => ~ is_merkle r /\ mrupdate_id r = h_mrupdate_id h0) (s ++ [i; o])) as Hall'.
  { apply Forall_app. split; [done|]. exact (sponge_pair_only (h_mrupdate_id h0) LINEAR_HASH fin st' (sponge_flags ZERO b) eq_refl Hf). }
  pose proof (extends_trans _ _ _ _ _ Hx Hx') as Hxx. split.
  - exists (s ++ [i; o]), o. split_and!; [done..|]. by apply length_permutation.
  - intros ->. exists (s ++ [i; o]). split_and!; [done| |done]. by exists o.
Qed.

Lemma absorb_first h state : length state = 12 -> absorbing h (append_controller_permutation h LINEAR_HASH RETURN_STATE state (sponge_flags ONE ZERO)).
Proof.
  intros Hs. set (f := sponge_flags ONE ZERO). exists (pair_rows (h_mrupdate_id h) LINEAR_HASH RETURN_STATE state f), (output_of (h_mrupdate_id h) RETURN_STATE state f).
  assert (RETURN_STATE = RETURN_HASH \/ RETURN_STATE = RETURN_STATE) as Hf by by right.
  split_and!; [by apply append_extends| |by apply sponge_pair_only|by right|done|by apply length_permutation].
  apply open_new; [by split; [left|]|by apply sponge_input_ok; [|apply bit_1]|by apply sponge_output_ok; [|apply bit_0|]|by apply sponge_pair_step].
Qed.
Lemma absorb_loop h0 (bs : list OpBatch) p : absorbing h0 p -> Forall (fun b => length (groups b) = 8) bs ->
  absorbing h0 (foldl (fun '(h, state) b =>
    append_controller_permutation h LINEAR_HASH RETURN_STATE (absorb_into_state state (groups b)) (sponge_flags ZERO ZERO)) p bs).
Proof.
  revert p. induction bs as [|b bs IH]; intros [h st] Hp Hbs; [done|]. apply Forall_cons in Hbs as [Hb Hbs]. cbn [foldl]. apply IH; [|done].
  apply absorb_step; [done..|by right|apply bit_0].
Qed.

(** *** The requests keep the invariant *)
Definition row_bound (h : Hasher) : Prop := (Z.of_nat (length (h_trace h)) + 1 < modulus)%Z.

Lemma seg_not_nil s : seg_ok s -> s <> [].
Proof. intros (l & (_ & _ & (r & Hh & _) & _) & _). by destruct s. Qed.
Lemma append_not_nil {A} (tr s : list A) : s <> [] -> tr ++ s <> [].
Proof. by destruct tr, s. Qed.

Lemma permute_hinv h state addr permuted h' : hinv h -> length state = 12 -> permute h state = (addr, permuted, h') -> hinv h' /\ h_trace h' <> [].
Proof.
  intros Hinv Hs. unfold permute. destruct (append_controller_permutation _ _ _ _ _) as [h1 st] eqn:E. intros [= _ _ <-].
  destruct (single_sponge h RETURN_STATE state Hinv Hs ltac:(by right)) as [Hi (s & Ht & Hseg & _)]. rewrite E in *. cbn [fst] in *.
  split; [done|]. rewrite Ht. by apply append_not_nil, seg_not_nil.
Qed.
Lemma init_state_length g x : length g = 8 -> length (init_state g x) = 12.
Proof. intros Hg. unfold init_state. rewrite length_app. cbn. lia. Qed.

Lemma memoize_single h state hash : hinv h -> length state = 12 ->
  let h1 := (append_controller_permutation h LINEAR_HASH RETURN_HASH state (sponge_flags ONE ONE)).1 in
  row_bound h1 -> hinv (insert_to_memoized_trace_map h1 (next_row_addr (h_trace h)) hash) /\ h_trace h1 <> [].
Proof.
  intros Hinv Hs h1 Hb. destruct (single_sponge h RETURN_HASH state Hinv Hs ltac:(by left)) as [Hi (s & Ht & Hseg & Hsp)]. fold h1 in Hi, Ht.
  split; [by apply (hinv_insert h1 (h_trace h) s)|]. rewrite Ht. by apply append_not_nil, seg_not_nil.
Qed.
Lemma hash_control_block_hinv h h1 h2 domain hash addr digest h' : hinv h -> hash_control_block h h1 h2 domain hash = Ok (addr, digest, h') -> row_bound h' ->
  hinv h' /\ h_trace h' <> [].
Proof.
  intros Hinv. unfold hash_control_block. destruct (replay_memoized_trace h hash) as [[[[a d] hm]|]| |] eqn:Er; try done; cbn [mbind outcome_bind].
  - intros [= _ _ <-] _. by apply (replay_hinv h hash a d).
  - destruct (append_controller_permutation _ _ _ _ _) as [hn st] eqn:E. intros [= _ _ <-] Hb.
    destruct (memoize_single h (init_state_from_words_with_domain h1 h2 domain) hash Hinv eq_refl) as [Hi Hn]; rewrite E in *; done.
Qed.
Lemma hash_basic_block_hinv h batches hash addr digest h' : hinv h -> Forall (fun b => length (groups b) = 8) batches ->
  hash_basic_block h batches hash = Ok (addr, digest, h') -> row_bound h' -> hinv h' /\ h_trace h' <> [].
Proof.
  intros Hinv Hg. unfold hash_basic_block. destruct (replay_memoized_trace h hash) as [[[[a d] hm]|]| |] eqn:Er; try done; cbn [mbind outcome_bind].
  { intros [= _ _ <-] _. by apply (replay_hinv h hash a d). }
  destruct batches as [|b [|b' rest]]; [done| |].
  - destruct (append_controller_permutation _ _ _ _ _) as [hn st] eqn:E. intros [= _ _ <-] Hb. apply Forall_cons in Hg as [Hg _].
    destruct (memoize_single h (init_state (groups b) ZERO) hash Hinv (init_state_length _ _ Hg)) as [Hi Hn]; rewrite E in *; done.
  - apply Forall_cons in Hg as [Hg Hgs]. pose proof (absorb_first h _ (init_state_length _ ZERO Hg)) as Ha.
    destruct (append_controller_permutation _ _ _ _ _) as [h1 st1].
    pose proof (absorb_loop h (take (length (b' :: rest) - 1) (b' :: rest)) _ Ha (Forall_take _ _ _ Hgs)) as Hl. cbn zeta.
    destruct (foldl _ _ _) as [h2 st2]. destruct (last (b' :: rest)) as [lb|] eqn:El; [|done]. cbn [or_panic mbind outcome_bind].
    assert (length (groups lb) = 8) as Hlb by (rewrite Forall_forall in Hgs; apply Hgs; by apply last_Some_elem_of).
    destruct (absorb_step h h2 st2 (groups lb) RETURN_HASH ONE Hl Hlb ltac:(by left) bit_1) as [_ Hend].
    destruct (append_controller_permutation _ _ _ _ _) as [h3 st3]. destruct (Hend eq_refl) as (s & Hx & Hseg & Hall). cbn [fst] in Hx.
    intros [= _ _ <-] Hb. destruct (sponge_mr _ s Hall) as [Hm Hsp].
    destruct (hinv_extend h (h_mrupdate_id h) s h3 Hinv ltac:(by destruct h) Hm Hseg) as [Hi Hn]. split; [|done].
    apply (hinv_insert h3 (h_trace h) s); [done|apply Hx|done..].
Qed.

(** *** Merkle paths *)
Lemma digest_elements st : length st = 12 -> word_elements (get_digest st) = take 4 st.
Proof. intros Hs. by apply list_12 in Hs as (? & ? & ? & ? & ? & ? & ? & ? & ? & ? & ? & ? & ->). Qed.
Lemma land_1 z : Z.land z 1 = (z mod 2)%Z.
Proof. exact (Z.land_ones z 1 ltac:(lia)). Qed.
Lemma shiftr_1 z : Z.shiftr z 1 = (z / 2)%Z.
Proof. exact (Z.shiftr_div_pow2 z 1 ltac:(lia)). Qed.
(** The index of a node, its parent's and its direction *)
Lemma index_step z : (0 <= z < modulus)%Z -> new_unchecked z = (new_unchecked (Z.shiftr z 1) + new_unchecked (Z.shiftr z 1) + new_unchecked (Z.land z 1))%F.
Proof.
  intros Hz. rewrite shiftr_1, land_1. pose proof (Z.div_mod z 2 ltac:(lia)). pose proof (Z.mod_pos_bound z 2 ltac:(lia)).
  rewrite <-!of_Z_small by (unfold modulus in *; lia). rewrite <-!of_Z_add. f_equal. lia.
Qed.
Lemma direction_cases z : Z.land z 1 = 0%Z \/ Z.land z 1 = 1%Z.
Proof. rewrite land_1. pose proof (Z.mod_pos_bound z 2 ltac:(lia)). lia. Qed.
(** The state of a level *)
Lemma build_merge_state_ok root sibling z : exists st, build_merge_state root sibling (Z.land z 1) = Ok st /\ length st = 12 /\ drop 8 st = replicate 4 ZERO /\
  take 4 (apply_permutation_12 st) = climb (word_elements root) (Z.odd z, word_elements sibling) /\
  (new_unchecked (Z.land z 1) = ZERO /\ take 4 st = word_elements root \/ new_unchecked (Z.land z 1) = ONE /\ take 4 (drop 4 st) = word_elements root).
Proof.
  assert (Z.odd z = (Z.land z 1 =? 1)%Z) as ->.
  { rewrite land_1, Zmod_odd. by destruct (Z.odd z). }
  destruct (direction_cases z) as [-> | ->]; rewrite ?new_unchecked_0, ?new_unchecked_1; eexists; (split; [reflexivity|]);
    (split; [reflexivity|]); (split; [reflexivity|]); (split; [rewrite h_permutation_spec by reflexivity; cbn [Z.eqb Pos.eqb]; unfold climb, merge; cbn [fst snd]; reflexivity|]);
    [by left|by right].
Qed.
(** The directions and the siblings of a path *)
Fixpoint path_steps (z : Z) (path : list Word) : list (bool * list felt) :=
  match path with [] => [] | sibling :: path => (Z.odd z, word_elements sibling) :: path_steps (Z.shiftr z 1) path end.

Definition is_old (c : MerklePathContext) : bool := match c with MrUpdateOld => true | _ => false end.
(** The identifiers of the rows of a path: only the first row can start an update. *)
Definition marks (c : MerklePathContext) (id : felt) (s : list hrow) : Prop :=
  Forall (fun r => mrupdate_id r = id) s /\ Forall (fun r => mv_start r = false) (tail s) /\ (forall r, head s = Some r -> mv_start r = is_old c).
Lemma marks_path c id id0 s : marks c id s -> s <> [] -> id = (id0 + felt_bit (is_old c))%F -> mr_path id0 s id.
Proof.
  intros (Hid & Hmv & Hh) Hne E. destruct s as [|r s]; [done|]. apply Forall_cons in Hid as [Hr Hid]. cbn in *. unfold mr_next. rewrite (Hh r eq_refl), Hr.
  split; [done|]. apply mr_path_same. apply Forall_and. done.
Qed.
Lemma context_merkle id c st f : is_merkle (input_of id (main_selectors c) st f).
Proof. unfold is_merkle. destruct c; cbn; tauto. Qed.
Lemma context_start id c st f : mv_start (input_of id (main_selectors c) st f) = is_old c && bool_decide (in_boundary f = ONE).
Proof.
  unfold mv_start. cbn. f_equal. pose proof ONE_neq_ZERO. pose proof neq_01. unfold main_selectors, MR_UPDATE_OLD, MR_UPDATE_NEW, MP_VERIFY in *.
  destruct c; cbn; [apply bool_decide_false|apply bool_decide_true|apply bool_decide_false]; congruence.
Qed.
Lemma output_start id fin st f : fin = RETURN_HASH \/ fin = RETURN_STATE -> mv_start (output_of id fin st f) = false.
Proof.
  intros Hf. unfold mv_start. rewrite bool_decide_false; [done|]. pose proof ONE_neq_ZERO. pose proof neq_01. cbn.
  unfold MR_UPDATE_OLD, RETURN_HASH, RETURN_STATE in *. destruct Hf as [-> | ->]; congruence.
Qed.
Lemma context_selector c fin : fin = RETURN_HASH \/ fin = RETURN_STATE -> nth 0 (main_selectors c) ZERO = ONE /\ nth 0 fin ZERO = ZERO.
Proof. intros [-> | ->]; by destruct c. Qed.

(** A path in progress, at level [i] *)
Definition climbing (c : MerklePathContext) (h0 : Hasher) (i : nat) (p : Hasher * Word * Z) : Prop :=
  let '(h, root, idx) := p in exists s, extends h0 s h /\ marks c (h_mrupdate_id h0) s /\
    (i = 0 /\ s = [] \/ 0 < i /\ exists l, open_seg s l /\ selectors l = RETURN_STATE /\ is_boundary l = ZERO /\
      node_index l = new_unchecked idx /\ direction_bit l = new_unchecked (Z.land idx 1) /\ take 4 (hasher_state l) = word_elements root).

Lemma level_rows c h0 i h root idx st f fin : climbing c h0 i (h, root, idx) -> length st = 12 -> drop 8 st = replicate 4 ZERO -> (0 <= idx < modulus)%Z ->
  (new_unchecked (Z.land idx 1) = ZERO /\ take 4 st = word_elements root \/ new_unchecked (Z.land idx 1) = ONE /\ take 4 (drop 4 st) = word_elements root) ->
  in_index f = new_unchecked idx -> out_index f = new_unchecked (Z.shiftr idx 1) -> in_boundary f = (if i =? 0 then ONE else ZERO) ->
  in_direction f = new_unchecked (Z.land idx 1) -> fin = RETURN_HASH \/ fin = RETURN_STATE ->
  let id := h_mrupdate_id h0 in let o := output_of id fin st f in row_ok o ->
  let p := append_controller_permutation h (main_selectors c) fin st f in
  exists s, extends h0 s p.1 /\ marks c id s /\ open_seg s o /\ p.2 = apply_permutation_12 st.
Proof.
  intros (s & Hx & (Mid & Mmv & Mh) & Hs) Hst Hcap Hidx Hroute Ei Eo Eb Ed Hf id o Ho p.
  set (a := input_of id (main_selectors c) st f). destruct (context_selector c fin Hf) as [N1 N2].
  assert (extends h [a; o] p.1) as Hx' by (unfold a, o, id; rewrite <-(ext_id _ _ _ Hx); by apply append_extends).
  assert (row_ok a) as Ha.
  { split_and!; [done|done|cbn; rewrite Eb; destruct (i =? 0); [apply bit_1|apply bit_0]|]. right; left. split; [apply context_merkle|]. split; [|done].
    cbn. rewrite Ed. unfold is_bit. tauto. }
  assert (step_ok a o) as Hao.
  { apply merkle_out; [apply context_merkle|by destruct Hf; [left|right]|]. cbn. rewrite Ei, Eo, Ed. by apply index_step. }
  exists (s ++ [a; o]). split_and!; [by eapply extends_trans| | |done].
  - assert (mv_start o = false) as Mo by by apply output_start. split_and!.
    + apply Forall_app. split; [done|]. by rewrite !Forall_cons.
    + destruct Hs as [[_ ->]|[Hi (l & Hl & _)]]; [cbn; by rewrite Forall_cons|]. destruct s as [|r s]; [by destruct Hl as (_ & _ & (? & ? & _) & _)|]. cbn in *.
      apply Forall_app. split; [done|]. rewrite !Forall_cons. split_and!; [|done|done]. unfold a. rewrite context_start, Eb.
      rewrite (proj2 (Nat.eqb_neq i 0)), bool_decide_false by (lia || apply neq_01). by rewrite andb_false_r.
    + intros r Hr. destruct Hs as [[-> ->]|[Hi (l & Hl & _)]]; [|destruct s as [|r' s]; [by destruct Hl as (_ & _ & (? & ? & _) & _)|by apply Mh]].
      injection Hr as <-. unfold a. rewrite context_start, Eb. cbn. rewrite bool_decide_true by done. by rewrite andb_true_r.
  - destruct Hs as [[-> ->]|[Hi (l & Hl & El & Bl & Nl & Dl & Rl)]].
    + apply open_new; [split; [right; apply context_merkle|cbn; by rewrite Eb]|done..].
    + apply (open_pair s l); [done..| |done]. apply out_merkle; [by right|apply context_merkle|]. right. cbn. rewrite Ei, Ed, Nl, Dl, Rl.
      split_and!; [done..|]. destruct Hroute as [[? E]|[? E]]; [left|right]; by rewrite E.
Qed.

Lemma merkle_level_inner c depth h0 i h root idx sibling : climbing c h0 i (h, root, idx) -> S i < depth -> (0 <= idx < modulus)%Z ->
  exists h' root', merkle_level c depth (h, root, idx) (i, sibling) = Ok (h', root', Z.shiftr idx 1) /\ climbing c h0 (S i) (h', root', Z.shiftr idx 1) /\
    word_elements root' = climb (word_elements root) (Z.odd idx, word_elements sibling).
Proof.
  intros Hc Hi Hidx. unfold merkle_level. destruct (build_merge_state_ok root sibling idx) as (st & -> & Hst & Hcap & Hcl & Hroute). cbn [mbind outcome_bind].
  rewrite (proj2 (Nat.eqb_neq i (depth - 1))) by lia. set (f := mkFlags _ _ _ _ _ _).
  destruct (level_rows c h0 i h root idx st f RETURN_STATE Hc Hst Hcap Hidx Hroute eq_refl eq_refl eq_refl eq_refl ltac:(by right)) as (s & Hx & Hm & Ho & Hp).
  { split_and!; [by apply length_permutation|done|apply bit_0|]. do 3 right. left. split; [done|]. intros E. by destruct neq_01. }
  destruct (append_controller_permutation _ _ _ _ _) as [h' permuted]. cbn [fst snd] in *. subst permuted. eexists _, _. split; [reflexivity|].
  rewrite digest_elements by by apply length_permutation. split; [|done]. exists s. split_and!; [done..|]. right. split; [lia|]. eexists. split; [exact Ho|].
  split_and!; try done. by rewrite digest_elements by by apply length_permutation.
Qed.
Lemma merkle_level_last c depth h0 i h root idx sibling : climbing c h0 i (h, root, idx) -> S i = depth -> (0 <= idx < 2)%Z ->
  exists h' root', merkle_level c depth (h, root, idx) (i, sibling) = Ok (h', root', Z.shiftr idx 1) /\
    (exists s, extends h0 s h' /\ marks c (h_mrupdate_id h0) s /\ seg_ok s) /\ word_elements root' = climb (word_elements root) (Z.odd idx, word_elements sibling).
Proof.
  intros Hc Hi Hidx. unfold merkle_level. destruct (build_merge_state_ok root sibling idx) as (st & -> & Hst & Hcap & Hcl & Hroute). cbn [mbind outcome_bind].
  rewrite (proj2 (Nat.eqb_eq i (depth - 1))) by lia. set (f := mkFlags _ _ _ _ _ _).
  assert (out_index f = ZERO /\ out_direction f = ZERO) as [Zi Zd].
  { unfold f. cbn. rewrite shiftr_1, Z.div_small by lia. by rewrite new_unchecked_0. }
  destruct (level_rows c h0 i h root idx st f RETURN_HASH Hc Hst Hcap ltac:(unfold modulus; lia) Hroute eq_refl eq_refl eq_refl eq_refl ltac:(by left)) as (s & Hx & Hm & Ho & Hp).
  { split_and!; [by apply length_permutation|done|apply bit_1|]. do 2 right. left. done. }
  destruct (append_controller_permutation _ _ _ _ _) as [h' permuted]. cbn [fst snd] in *. subst permuted. eexists _, _. split; [reflexivity|].
  rewrite digest_elements by by apply length_permutation. split; [|done]. exists s. split_and!; [done..|]. eexists. split; [exact Ho|]. by split; [left|].
Qed.
Lemma merkle_loop c depth h0 path i h root idx : climbing c h0 i (h, root, idx) -> i + length path = depth -> path <> [] -> (0 <= idx < modulus)%Z ->
  (idx < 2 ^ Z.of_nat (length path))%Z ->
  exists h' root' z, for_each (imap (fun j sibling => (i + j, sibling)) path) (merkle_level c depth) (h, root, idx) = Ok (h', root', z) /\
    (exists s, extends h0 s h' /\ marks c (h_mrupdate_id h0) s /\ seg_ok s) /\ word_elements root' = compute_root (word_elements root) (path_steps idx path).
Proof.
  revert i h root idx. induction path as [|sibling path IH]; intros i h root idx Hc Hd Hne Hm Hidx; [done|].
  cbn [imap for_each length] in *. rewrite Nat.add_0_r. destruct path as [|sib' path].
  - destruct (merkle_level_last c depth h0 i h root idx sibling Hc) as (h' & root' & -> & Hs & Er); [cbn in *; lia|cbn in *; lia|].
    exists h', root', (Z.shiftr idx 1). split; [reflexivity|]. split; [done|]. by rewrite Er.
  - destruct (merkle_level_inner c depth h0 i h root idx sibling Hc) as (h' & root' & -> & Hc' & Er); [cbn in *; lia|done|].
    cbn [mbind outcome_bind]. rewrite shiftr_1 in *.
    destruct (IH (S i) h' root' (idx / 2)%Z Hc') as (h'' & root'' & z & El & Hs & Er'); [cbn in *; lia|done|split; [apply Z.div_pos; lia|apply Z.div_lt_upper_bound; lia]| |].
    + apply Z.div_lt_upper_bound; [lia|]. rewrite Nat2Z.inj_succ, Z.pow_succ_r in Hidx by lia. done.
    + exists h'', root'', z. split_and!; [|done|].
      * rewrite <-El. f_equal. apply imap_ext. intros j x _. cbn. f_equal. lia.
      * rewrite Er', Er, <-shiftr_1. reflexivity.
Qed.
(** A path that is verified appends a segment, and gives the root of the path. *)
Lemma verify_merkle_path_ok c h value path z root h' : (0 <= z < modulus)%Z -> verify_merkle_path h value path z c = Ok (root, h') ->
  (exists s, extends h s h' /\ marks c (h_mrupdate_id h) s /\ seg_ok s) /\ word_elements root = compute_root (word_elements value) (path_steps z path).
Proof.
  intros Hz. unfold verify_merkle_path. destruct (Nat.eqb_spec (length path) 0) as [|Hd]; [done|]. destruct (negb _) eqn:Eb; [done|].
  apply negb_false_iff, Z.eqb_eq in Eb.
  assert (z < 2 ^ Z.of_nat (length path))%Z as Hlt.
  { destruct (Nat.leb_spec 64 (length path)).
    - apply Z.lt_le_trans with (2 ^ 64)%Z; [unfold modulus in *; lia|]. apply Z.pow_le_mono_r; lia.
    - rewrite Z.shiftr_div_pow2 in Eb by lia. apply Z.div_small_iff in Eb; lia. }
  destruct (merkle_loop c (length path) h path 0 h value z) as (h1 & root1 & z1 & El & Hs & Er); try done.
  - exists []. split_and!; [apply extends_refl|by split_and!|by left].
  - intros ->. done.
  - cbn in El. rewrite El. cbn [mbind outcome_bind]. by intros [= <- <-].
Qed.
Lemma build_merkle_root_hinv h value path index addr root h' : hinv h -> build_merkle_root h value path index = Ok (addr, root, h') ->
  hinv h' /\ h_trace h' <> [] /\ word_elements root = compute_root (word_elements value) (path_steps ⟦index⟧ path).
Proof.
  intros Hinv. unfold build_merkle_root. destruct (verify_merkle_path _ _ _ _ _) as [[r h1]| |] eqn:E; try done. cbn [mbind outcome_bind]. intros [= _ <- <-].
  destruct (verify_merkle_path_ok _ _ _ _ _ _ _ (canonical_range index) E) as [(s & Hx & Hm & Hs) Er]. enough (hinv h1 /\ h_trace h1 <> []) by tauto.
  apply (hinv_extend h (h_mrupdate_id h) s); [done|by destruct h| |done]. apply (marks_path MpVerify); [done|by apply seg_not_nil|]. cbn. ring.
Qed.
Lemma update_merkle_root_hinv h old new path index addr r1 r2 h' : hinv h -> update_merkle_root h old new path index = Ok (addr, r1, r2, h') ->
  hinv h' /\ h_trace h' <> [] /\ word_elements r1 = compute_root (word_elements old) (path_steps ⟦index⟧ path) /\
  word_elements r2 = compute_root (word_elements new) (path_steps ⟦index⟧ path).
Proof.
  intros Hinv. unfold update_merkle_root. fold (with_id (h_mrupdate_id h + ONE)%F h). set (id := (h_mrupdate_id h + ONE)%F).
  destruct (verify_merkle_path (with_id id h) _ _ _ _) as [[ro h1]| |] eqn:E1; try done. cbn [mbind outcome_bind].
  destruct (verify_merkle_path h1 _ _ _ _) as [[rn h2]| |] eqn:E2; try done. cbn [mbind outcome_bind]. intros [= _ <- <- <-].
  destruct (verify_merkle_path_ok _ _ _ _ _ _ _ (canonical_range index) E1) as [(s1 & Hx1 & Hm1 & Hs1) Er1].
  destruct (verify_merkle_path_ok _ _ _ _ _ _ _ (canonical_range index) E2) as [(s2 & Hx2 & Hm2 & Hs2) Er2]. enough (hinv h2 /\ h_trace h2 <> []) by tauto.
  rewrite (ext_id _ _ _ Hx1) in Hm2. cbn in Hm1, Hm2.
  apply (hinv_extend h id (s1 ++ s2)); [done|by eapply extends_trans| |by apply seg_app]. apply mr_path_app. exists id. split.
  - by apply (marks_path MrUpdateOld); [|apply seg_not_nil|].
  - apply (marks_path MrUpdateNew); [done|by apply seg_not_nil|]. cbn. ring.
Qed.

(** ** The end of the trace *)

(** *** Multiplicities *)
Lemma key_state st : key_to_state (state_to_key st) = st.
Proof. unfold key_to_state, state_to_key. induction st as [|x st IH]; [done|]. cbn [fmap list_fmap]. by rewrite new_canonical, IH. Qed.
#[global] Instance state_to_key_inj : Inj (=) (=) state_to_key.
Proof. intros a b E. by rewrite <-(key_state a), <-(key_state b), E. Qed.
(** The map holds the number of times a state is requested. *)
Definition occurrences (st : list felt) (states : list (list felt)) : nat := length (filter (fun x => x = st) states).
Lemma count_requests_key states k v : count_requests states !! k = Some v -> exists st, st ∈ states /\ k = state_to_key st.
Proof.
  unfold count_requests. revert v. induction states as [|x states IH] using rev_ind; intros v; [done|]. rewrite foldl_app. cbn [foldl]. unfold bump at 1.
  destruct (decide (k = state_to_key x)) as [->|Hne]; [intros _; exists x; set_solver|]. rewrite lookup_insert_ne by done. intros E.
  destruct (IH _ E) as (st & ? & ?). exists st. set_solver.
Qed.
Lemma count_requests_value states st : count_requests states !! state_to_key st = if occurrences st states =? 0 then None else Some (Z.of_nat (occurrences st states)).
Proof.
  unfold count_requests, occurrences. induction states as [|x states IH] using rev_ind; [done|]. rewrite foldl_app, filter_app, length_app. cbn [foldl]. unfold bump at 1.
  destruct (decide (x = st)) as [->|Hne].
  - rewrite lookup_insert_eq, IH, filter_cons_True by done. rewrite filter_nil. cbn [length]. destruct (Nat.eqb_spec (length (filter (fun x => x = st) states)) 0) as [E|E].
    + by rewrite E.
    + rewrite (proj2 (Nat.eqb_neq _ 0)) by lia. cbn. f_equal. lia.
  - rewrite lookup_insert_ne by (intros E; apply (inj state_to_key) in E; done). rewrite filter_cons_False, filter_nil, Nat.add_0_r by done. done.
Qed.

(** *** Padding *)
Definition pad_row (id : felt) : hrow := mkRow [ZERO; ONE; ZERO] (replicate STATE_WIDTH ZERO) ZERO id ZERO ZERO ZERO.
Lemma append_pads tr id (ks : list nat) :
  foldl (fun tr _ => append_controller_row tr [ZERO; ONE; ZERO] (replicate STATE_WIDTH ZERO) ZERO id ZERO ZERO) tr ks = tr ++ replicate (length ks) (pad_row id).
Proof.
  revert tr. induction ks as [|k ks IH]; intros tr; [cbn; by rewrite app_nil_r|]. cbn [foldl length replicate]. rewrite IH. unfold append_controller_row.
  by rewrite <-app_assoc.
Qed.
Lemma pad_length n : exists k, next_multiple_of n 16 = n + k /\ k = (if n mod 16 =? 0 then 0 else 16 - n mod 16) /\ (n + k) mod 16 = 0.
Proof.
  pose proof (Nat.div_mod n 16 ltac:(lia)) as Hd. pose proof (Nat.mod_upper_bound n 16 ltac:(lia)) as Hm. unfold next_multiple_of.
  exists (if n mod 16 =? 0 then 0 else 16 - n mod 16). destruct (Nat.eqb_spec (n mod 16) 0) as [E|E].
  - split_and!; [|done|by rewrite Nat.add_0_r]. replace (n + (16 - 1)) with (15 + n / 16 * 16) by lia. rewrite Nat.div_add, Nat.div_small by lia. lia.
  - assert (n + (16 - n mod 16) = S (n / 16) * 16) as E2 by lia. split_and!; [|done|rewrite E2; apply Nat.Div0.mod_mul]. rewrite E2. f_equal.
    replace (n + (16 - 1)) with (n mod 16 - 1 + S (n / 16) * 16) by lia. rewrite Nat.div_add, Nat.div_small by lia. done.
Qed.
Lemma pad_rows tr id : exists k, pad_to_cycle_boundary tr id = tr ++ replicate k (pad_row id) /\ length tr + k = next_multiple_of (length tr) 16 /\ (length tr + k) mod 16 = 0.
Proof.
  destruct (pad_length (length tr)) as (k & E & -> & Hm). eexists. split_and!; [|done|done]. unfold pad_to_cycle_boundary, HASH_CYCLE_LEN.
  destruct (length tr mod 16 =? 0); [by rewrite app_nil_r|]. rewrite append_pads, length_seq. done.
Qed.

(** The rows of the controller region *)
Record controller_rows (ctrl : list hrow) : Prop := mkControllerRows {
  rows_ok : Forall row_ok ctrl;
  rows_chain : chain step_ok ctrl;
  rows_ids : chain (fun l n => mr_next (mrupdate_id l) n) ctrl;
  rows_head : exists r, head ctrl = Some r /\ is_in r;
  rows_last : exists r, last ctrl = Some r /\ ends r;
  rows_cycles : length ctrl mod 16 = 0;
}.
Lemma pad_row_ok id : row_ok (pad_row id).
Proof. split_and!; [done|done|apply bit_0|]. do 4 right. done. Qed.
Lemma mv_start_pad id : mv_start (pad_row id) = false.
Proof. apply not_merkle_start. unfold is_merkle, MP_VERIFY, MR_UPDATE_OLD, MR_UPDATE_NEW. cbn. pose proof ONE_neq_ZERO. pose proof neq_01. intros E; destruct E as [E|[E|E]]; congruence. Qed.
Lemma padded_rows h : hinv h -> h_trace h <> [] -> controller_rows (pad_to_cycle_boundary (h_trace h) (h_mrupdate_id h)) /\
  length (pad_to_cycle_boundary (h_trace h) (h_mrupdate_id h)) = next_multiple_of (length (h_trace h)) 16 /\
  exists k, pad_to_cycle_boundary (h_trace h) (h_mrupdate_id h) = h_trace h ++ replicate k (pad_row (h_mrupdate_id h)).
Proof.
  intros Hinv Hne. destruct (inv_trace h Hinv) as [?|(l & (Hr & Hc & (r & Hh & Ho) & Hl) & Hcl)]; [done|].
  destruct (pad_rows (h_trace h) (h_mrupdate_id h)) as (k & -> & El & Hm). rewrite length_app, length_replicate. split_and!; [|done|by exists k].
  split; [..|by rewrite length_app, length_replicate].
  - apply Forall_app. split; [done|]. apply Forall_replicate, pad_row_ok.
  - apply chain_app; [done|apply chain_replicate; by apply out_pad; [right|]|]. intros x y Hx Hy. rewrite Hl in Hx. injection Hx as <-.
    destruct k; [done|]. injection Hy as <-. apply out_pad; [|done]. left. apply Hcl.
  - apply (mr_path_chain ZERO _ (h_mrupdate_id h)), mr_path_app. exists (h_mrupdate_id h). split; [apply (inv_ids h Hinv)|].
    apply mr_path_same, Forall_replicate. split; [done|apply mv_start_pad].
  - exists r. split; [by destruct (h_trace h)|]. apply opens_in; [|done]. rewrite Forall_forall in Hr. apply Hr. rewrite head_lookup in Hh. by eapply list_elem_of_lookup_2.
  - rewrite last_app. destruct k as [|k]; [exists l; by split; [|right]|]. exists (pad_row (h_mrupdate_id h)). split; [|by left].
    by rewrite replicate_S_end, last_snoc.
Qed.

(** *** Permutation cycles *)
Definition entry_cycle (e : list Z * Z) : list hrow := cycle_rows (new_unchecked e.2) (seq 0 16) (key_to_state e.1).
Lemma cycle_rows_lookup mult s a n j : j < n -> cycle_rows mult (seq a n) s !! j = Some (cycle_row mult (a + j) (cycle_states s (seq a j))).
Proof.
  revert a s j. induction n as [|n IH]; intros a s j Hj; [lia|]. cbn [seq cycle_rows]. destruct j as [|j]; [by rewrite Nat.add_0_r|]. cbn [lookup list_lookup].
  rewrite IH by lia. cbn [seq]. unfold cycle_states. cbn [foldl]. by replace (S a + j) with (a + S j) by lia.
Qed.
Lemma cycle_rows_length mult s ms : length (cycle_rows mult ms s) = length ms.
Proof. revert s. induction ms as [|m ms IH]; intros s; [done|]. cbn. by rewrite IH. Qed.
Lemma entry_cycles_length es : length (es ≫= entry_cycle) = 16 * length es.
Proof. induction es as [|e es IH]; [done|]. cbn [mbind list_bind]. rewrite length_app, IH. unfold entry_cycle. rewrite cycle_rows_length, length_seq. cbn [length]. lia. Qed.
Lemma entry_cycles_lookup es k : (es ≫= entry_cycle) !! k =
  es !! (k / 16) ≫= fun e => Some (cycle_row (new_unchecked e.2) (k mod 16) (cycle_states (key_to_state e.1) (seq 0 (k mod 16)))).
Proof.
  revert k. induction es as [|e es IH]; intros k; [done|]. change ((e :: es) ≫= entry_cycle) with (entry_cycle e ++ (es ≫= entry_cycle)).
  assert (length (entry_cycle e) = 16) as He by (unfold entry_cycle; by rewrite cycle_rows_length, length_seq).
  destruct (decide (k < 16)) as [Hk|Hk].
  - rewrite lookup_app_l by lia. rewrite Nat.div_small, Nat.mod_small by done. unfold entry_cycle. rewrite cycle_rows_lookup by done. done.
  - rewrite lookup_app_r, IH, He by lia. assert (k = k - 16 + 1 * 16) as Ek by lia.
    assert (k / 16 = S ((k - 16) / 16)) as -> by (rewrite Ek at 1; rewrite Nat.div_add by lia; lia).
    assert (k mod 16 = (k - 16) mod 16) as -> by (rewrite Ek at 1; apply Nat.Div0.mod_add). done.
Qed.
Lemma append_cycles tr es : Forall (fun e : list Z * Z => length e.1 = 12) es ->
  foldl (fun tr '(key, multiplicity) => append_permutation_cycle tr (key_to_state key) (new_unchecked multiplicity)) tr es = tr ++ (es ≫= entry_cycle).
Proof.
  revert tr. induction es as [|[k v] es IH]; intros tr Hes; [cbn; by rewrite app_nil_r|]. apply Forall_cons in Hes as [Hk Hes]. cbn [foldl fst] in *.
  rewrite permutation_cycle_rows by (unfold key_to_state; by rewrite length_fmap). rewrite IH by done. by rewrite <-app_assoc.
Qed.
(** Every requested state is the state of an input row of the trace. *)
Lemma request_entry h k v : hinv h -> perm_request_map h !! k = Some v -> exists st, st ∈ input_states (h_trace h) /\ k = state_to_key st /\ length k = 12 /\
  v = Z.of_nat (occurrences st (input_states (h_trace h))).
Proof.
  intros Hinv. rewrite (inv_requests h Hinv). intros Hk. destruct (count_requests_key _ _ _ Hk) as (st & Hst & ->). exists st. split_and!; [done|done| |].
  - unfold state_to_key. rewrite length_fmap. unfold input_states in Hst. apply list_elem_of_fmap in Hst as (r & -> & Hr). apply list_elem_of_filter in Hr as [_ Hr].
    destruct (inv_trace h Hinv) as [E|(l & (Hok & _) & _)]; [rewrite E in Hr; set_solver|]. rewrite Forall_forall in Hok. apply (Hok r Hr).
  - rewrite count_requests_value in Hk. destruct (_ =? 0); [done|]. by injection Hk.
Qed.
Lemma finalize_rows h : hinv h -> h_trace h <> [] ->
  let ctrl := pad_to_cycle_boundary (h_trace h) (h_mrupdate_id h) in let es := btree_entries array_le (perm_request_map h) in
  h_trace (finalize_trace h) = ctrl ++ (es ≫= entry_cycle) /\ controller_rows ctrl /\ region_lengths h = (length ctrl, length (es ≫= entry_cycle)) /\
  Forall (fun e : list Z * Z => length e.1 = 12) es /\ es <> [].
Proof.
  intros Hinv Hne ctrl es. destruct (padded_rows h Hinv Hne) as (Hc & El & (k & Ek)).
  assert (Forall (fun e : list Z * Z => length e.1 = 12) es) as Hes.
  { apply Forall_forall. intros [key v] He. apply btree_entries_elem in He. destruct (request_entry h key v Hinv He) as (st & _ & _ & Hl & _). done. }
  split_and!; [|done| |done|].
  - unfold finalize_trace. rewrite (inv_open h Hinv). cbn [h_trace]. by rewrite append_cycles.
  - unfold region_lengths, HASH_CYCLE_LEN. rewrite entry_cycles_length. unfold es. rewrite btree_entries_length, <-El. f_equal. lia.
  - intros E. destruct (rows_head _ Hc) as (r & Hh & Hr). fold ctrl in Ek. 
    assert (head (h_trace h) = Some r) as Hh' by (fold ctrl in Hh; rewrite Ek in Hh; by destruct (h_trace h)).
    assert (hasher_state r ∈ input_states (h_trace h)) as Hin.
    { unfold input_states. apply list_elem_of_fmap. exists r. split; [done|]. apply list_elem_of_filter. split; [done|]. rewrite head_lookup in Hh'. by eapply list_elem_of_lookup_2. }
    assert (perm_request_map h !! state_to_key (hasher_state r) = None) as Hn.
    { destruct (perm_request_map h !! _) as [v|] eqn:Ev; [|done]. apply btree_entries_elem with (key_le := array_le) in Ev. fold es in Ev. rewrite E in Ev. set_solver. }
    rewrite (inv_requests h Hinv), count_requests_value in Hn. destruct (Nat.eqb_spec (occurrences (hasher_state r) (input_states (h_trace h))) 0) as [E0|]; [|done].
    unfold occurrences in E0. apply nil_length_inv in E0. apply (filter_nil_not_elem_of _ _ (hasher_state r)) in E0; [|done]. done.
Qed.
(** The length of the trace is known before it is finished. *)
Lemma hasher_trace_len_rows h : hinv h -> h_trace h <> [] -> hasher_trace_len h = length (h_trace (finalize_trace h)).
Proof.
  intros Hinv Hne. destruct (finalize_rows h Hinv Hne) as (-> & _ & El & _). unfold hasher_trace_len, estimate_trace_len.
  by rewrite (inv_open h Hinv), El, length_app.
Qed.

(** Every state that is permuted has a cycle, whose multiplicity is the number of times it is. *)
Lemma request_cycle h st : hinv h -> h_trace h <> [] -> st ∈ input_states (h_trace h) ->
  exists a, (region_lengths h).1 <= a /\ slice a (a + 16) (h_trace (finalize_trace h)) =
    cycle_rows (new_unchecked (Z.of_nat (occurrences st (input_states (h_trace h))))) (seq 0 16) st.
Proof.
  intros Hinv Hne Hst. destruct (finalize_rows h Hinv Hne) as (-> & _ & -> & _ & _). set (ctrl := pad_to_cycle_boundary _ _). set (es := btree_entries _ _).
  assert (occurrences st (input_states (h_trace h)) <> 0) as Ho.
  { unfold occurrences. intros E. apply nil_length_inv in E. apply (filter_nil_not_elem_of _ _ st) in E; [|done]. done. }
  assert ((state_to_key st, Z.of_nat (occurrences st (input_states (h_trace h)))) ∈ es) as He.
  { apply btree_entries_elem. rewrite (inv_requests h Hinv), count_requests_value. by rewrite (proj2 (Nat.eqb_neq _ 0) Ho). }
  apply list_elem_of_lookup_1 in He as [q Hq]. exists (length ctrl + 16 * q). cbn [fst]. split; [lia|]. unfold slice.
  rewrite drop_app_ge by lia. replace (length ctrl + 16 * q - length ctrl) with (16 * q) by lia. replace (length ctrl + 16 * q + 16 - (length ctrl + 16 * q)) with 16 by lia.
  rewrite <-(take_drop_middle es q _ Hq), bind_app. assert (length (take q es ≫= entry_cycle) = 16 * q) as El.
  { rewrite entry_cycles_length, length_take. apply lookup_lt_Some in Hq. lia. }
  rewrite <-El, drop_app_length. cbn [mbind list_bind]. unfold entry_cycle at 1. cbn [fst snd]. rewrite key_state.
  rewrite take_app_length'; [done|]. by rewrite cycle_rows_length, length_seq.
Qed.
Lemma cycle_permutes mult st : length st = 12 -> hasher_state <$> cycle_rows mult (seq 0 16) st !! 0 = Some st /\
  hasher_state <$> cycle_rows mult (seq 0 16) st !! 15 = Some (apply_permutation_12 st).
Proof. intros Hst. rewrite !cycle_rows_lookup by lia. split; [done|]. cbn [fmap option_fmap option_map hasher_state cycle_row Nat.add]. by rewrite h_permutation_spec, <-cycle_poseidon2. Qed.

(** A path of the right length is verified. *)
Lemma verify_merkle_path_total c h value path z : (0 <= z < modulus)%Z -> path <> [] -> (z < 2 ^ Z.of_nat (length path))%Z ->
  exists root h', verify_merkle_path h value path z c = Ok (root, h') /\ word_elements root = compute_root (word_elements value) (path_steps z path).
Proof.
  intros Hz Hp Hlt. destruct (merkle_loop c (length path) h path 0 h value z) as (h1 & root1 & z1 & El & _ & Er); try done.
  - exists []. split_and!; [apply extends_refl|by split_and!|by left].
  - exists root1, h1. split; [|done]. unfold verify_merkle_path. cbn in El.
    rewrite (proj2 (Nat.eqb_neq (length path) 0)) by (intros E; by apply Hp, nil_length_inv).
    assert ((if (64 <=? length path)%nat then 0%Z else Z.shiftr z (Z.of_nat (length path))) = 0%Z) as ->.
    { destruct (64 <=? length path); [done|]. rewrite Z.shiftr_div_pow2 by lia. apply Z.div_small. lia. }
    cbn [Z.eqb negb]. by rewrite El.
Qed.
(** *** Requests do not panic *)
Lemma replay_no_panic h hash : hinv h -> no_panic (replay_memoized_trace h hash).
Proof.
  intros Hinv. unfold no_panic, replay_memoized_trace, get_memoized_trace. destruct (memoized_trace_map h !! _) as [[a b]|] eqn:Em; [|done].
  destruct (inv_memo h Hinv _ _ _ Em) as (Hab & Hseg & _). unfold copy_trace.
  rewrite (proj2 (Nat.leb_le a b)), (proj2 (Nat.leb_le b _)) by lia. cbn [andb]. fold (slice a b (h_trace h)).
  assert (a < b) as Hlt.
  { destruct (decide (a = b)) as [->|]; [|lia]. exfalso. apply (seg_not_nil _ Hseg). unfold slice. by rewrite Nat.sub_diag. }
  rewrite (proj2 (Nat.eqb_neq b 0)) by lia. destruct (lookup_lt_is_Some_2 (h_trace h ++ slice a b (h_trace h)) (b - 1)) as [r ->]; [rewrite length_app; lia|].
  cbn [or_panic mbind outcome_bind]. rewrite overwrite_appended. cbn [mbind outcome_bind].
  by rewrite input_states_appended by apply length_fmap.
Qed.
Lemma hash_control_block_no_panic h h1 h2 domain hash : hinv h -> no_panic (hash_control_block h h1 h2 domain hash).
Proof.
  intros Hinv. apply no_panic_bind; [by apply replay_no_panic|]. intros [m|] _; [done|]. unfold no_panic. cbn zeta. by destruct (append_controller_permutation _ _ _ _ _).
Qed.
Lemma hash_basic_block_no_panic h batches hash : hinv h -> batches <> [] -> no_panic (hash_basic_block h batches hash).
Proof.
  intros Hinv Hne. apply no_panic_bind; [by apply replay_no_panic|]. intros [m|] _; [done|]. unfold no_panic. cbn zeta. destruct batches as [|b [|b' rest]]; [done| |].
  - by destruct (append_controller_permutation _ _ _ _ _).
  - destruct (append_controller_permutation _ _ _ _ _) as [h1 st1]. cbn zeta. destruct (foldl _ _ _) as [h2 st2].
    destruct (last (b' :: rest)) as [lb|] eqn:El; [|by apply last_None in El]. cbn [or_panic mbind outcome_bind]. by destruct (append_controller_permutation _ _ _ _ _).
Qed.
Lemma build_request_no_panic h value path index : path <> [] -> (⟦index⟧ < 2 ^ Z.of_nat (length path))%Z -> no_panic (build_merkle_root h value path index).
Proof.
  intros Hp Hi. destruct (verify_merkle_path_total MpVerify h value path ⟦index⟧ (canonical_range index) Hp Hi) as (root & h' & E & _).
  unfold no_panic, build_merkle_root. by rewrite E.
Qed.
Lemma update_request_no_panic h old new path index : path <> [] -> (⟦index⟧ < 2 ^ Z.of_nat (length path))%Z -> no_panic (update_merkle_root h old new path index).
Proof.
  intros Hp Hi. unfold no_panic, update_merkle_root. cbn zeta. set (h0 := mkHasher _ _ _ _ _).
  destruct (verify_merkle_path_total MrUpdateOld h0 old path ⟦index⟧ (canonical_range index) Hp Hi) as (root & h' & -> & _). cbn [mbind outcome_bind].
  destruct (verify_merkle_path_total MrUpdateNew h' new path ⟦index⟧ (canonical_range index) Hp Hi) as (root' & h'' & -> & _). done.
Qed.
End Requests.
End HashRequests.
