(* ===== verification/TraceChiplets.v ===== *)
(** * The trace of all chiplets

    [processor/src/trace/chiplets/mod.rs] stacks the tables of the chiplets and fills their selectors; [initialize_chiplets] of
    [trace/parallel/mod.rs] replays the requests of an execution.  The stacked trace satisfies every constraint on the chiplets. *)

From Stdlib Require Import String.
From S2P Require Import Prelude Field Types Memory Ace Operations Batching Air AirFlags AirStack AirRows AirDecoder AirTrace Chiplets ChipletRegions ChipletPermutation TraceTables TraceMemory TraceAce TraceHasher TraceRequests.
From Stdlib Require Import Ring.
Import Air ChipletSelectors.
#[local] Open Scope nat_scope.

(** ** Constraints that the selectors switch off *)
Definition applies (first last : bool) (o : rows) : bool := match o with EveryRow => true | FirstRow => first | LastRow => last | TransitionRow => negb last end.
Definition idle (first last : bool) (k k' : knowledge) (cs : list constraint) : bool :=
  forallb (fun c => negb (applies first last (on c)) || is_E0 (simp2 k k' (body c))) cs.
Lemma idle_ok {F : Felt} first last k k' cs l n : idle first last k k' cs = true -> agrees l k -> agrees n k' -> satisfied first last l n cs.
Proof.
  intros Hi Hl Hn. apply Forall_forall. intros c Hc. unfold idle in Hi. rewrite forallb_forall in Hi. specialize (Hi c (proj1 (list_elem_of_In _ _) Hc)).
  apply orb_true_iff in Hi as [Hi|Hi].
  - unfold holds. destruct (on c), first, last; done.
  - apply (is_E0_eval l n) in Hi. rewrite (simp2_eval l n k k' _ Hl Hn) in Hi. unfold holds. by destruct (on c).
Qed.
(** All pairs of neighbouring regions but those a chiplet uses *)
Definition pairs_idle (first : bool) (used : region -> region -> bool) (cs : list constraint) : bool :=
  forallb (fun r => forallb (fun r' => negb (follows r r') || used r r' || idle first false (region_knowledge r) (region_knowledge r') cs) regions) regions.
(** A chiplet uses its own rows and the row before its first. *)
Definition used_by (c r r' : region) : bool := bool_decide (r = c) || (bool_decide (r' = c) && (S (rank r) =? rank c)).
Definition own_rows (c r r' : region) : bool := bool_decide (r = c).
Lemma pairs_idle_ok {F : Felt} first used cs r r' l n : pairs_idle first used cs = true -> follows r r' = true -> used r r' = false ->
  in_region l r -> in_region n r' -> satisfied first false l n cs.
Proof.
  intros Hp Hf Hu Hl Hn. pose proof (forallb_regions (fun r r' => negb (follows r r') || used r r' || idle first false (region_knowledge r) (region_knowledge r') cs) r r' Hp) as Hc.
  cbn beta in Hc. rewrite Hf, Hu in Hc. cbn [negb orb] in Hc. by eapply idle_ok.
Qed.
Definition final_knowledge : knowledge := fun c => match c with ColIsTransition => Some false | _ => region_knowledge RPadding c end.

Lemma selectors_idle : pairs_idle true (fun _ _ => false) build_chiplet_selectors = true.
Proof. vm_compute. reflexivity. Qed.
Lemma permutation_idle {P : HasherParams} : pairs_idle true (used_by RPermutation) AirPermutation.enforce_permutation_constraints = true.
Proof. vm_compute. reflexivity. Qed.
Lemma controller_idle : pairs_idle false (used_by RController) AirController.enforce_controller_constraints = true.
Proof. vm_compute. reflexivity. Qed.
Lemma bitwise_idle : pairs_idle true (own_rows RBitwise) AirBitwise.enforce_bitwise_constraints = true.
Proof. vm_compute. reflexivity. Qed.
Lemma memory_idle : pairs_idle true (used_by RMemory) AirMemory.enforce_memory_constraints = true.
Proof. vm_compute. reflexivity. Qed.
Lemma ace_idle : pairs_idle true (used_by RAce) AirAce.enforce_ace_constraints_all_rows = true.
Proof. vm_compute. reflexivity. Qed.
Lemma kernel_rom_idle : pairs_idle true (used_by RKernelRom) AirKernelRom.enforce_kernel_rom_constraints = true.
Proof. vm_compute. reflexivity. Qed.
Lemma last_row_idle {P : HasherParams} : idle false true final_knowledge (region_knowledge RController) (build_chiplet_selectors ++ AirChiplets.enforce_main) = true.
Proof. vm_compute. reflexivity. Qed.
(** On its own rows the memory chiplet only checks bits when the next row is of another one. *)
Lemma memory_end_idle : forallb (fun r' => bool_decide (r' = RMemory) || negb (follows RMemory r') ||
  idle true false (region_knowledge RMemory) (region_knowledge r') (AirMemory.first_row_constraints ++ AirMemory.transition_constraints)) regions = true.
Proof. vm_compute. reflexivity. Qed.
Lemma memory_before_idle : idle true false (region_knowledge RBitwise) (region_knowledge RMemory) (AirMemory.binary_constraints ++ AirMemory.transition_constraints) = true.
Proof. vm_compute. reflexivity. Qed.
Lemma memory_inner_idle : idle true false (region_knowledge RMemory) (region_knowledge RMemory) AirMemory.first_row_constraints = true.
Proof. vm_compute. reflexivity. Qed.
Lemma cycle_start_idle {P : HasherParams} : idle true false (region_knowledge RController) (region_knowledge RPermutation)
  (AirPermutation.enforce_permutation_steps (is_active permutation) ++ when (is_active permutation) (assert_zeros (chip <$> AirPermutation.unused_padding)) ++
   when (is_active permutation) (when AirPermutation.not_cycle_end (assert_eq (chip' AirPermutation.multiplicity) (chip AirPermutation.multiplicity))) ++
   when (is_last permutation) (assert_zero AirPermutation.not_cycle_end)) = true.
Proof. vm_compute. reflexivity. Qed.

(** [kmerge_by] of the [itertools] package, on accesses compared by their clock: sorted sequences are merged into a sorted one. *)
Definition clk_sorted {F : Felt} : list MemoryTable.MemoryAccess -> Prop := chain (fun a b => MemoryTable.clk_of a <= MemoryTable.clk_of b)%Z.
Class KMerge {F : Felt} := {
  kmerge_by_clk : list (list MemoryTable.MemoryAccess) -> list MemoryTable.MemoryAccess;
  kmerge_sorted ls : Forall clk_sorted ls -> clk_sorted (kmerge_by_clk ls);
  kmerge_perm ls : kmerge_by_clk ls ≡ₚ concat ls;
}.

Module ChipletsTrace.
Section Chiplets.
Context {F : Felt} {Q : Quad} {P : HasherParams} {H : HasherFunctions} {B : WordBytes} {K : KMerge}.

Definition CHIPLETS_WIDTH : nat := 21.
Record Chiplets := mkChiplets {
  hasher : HashTable.Hasher;
  bitwise : list (list felt);
  memory : MemoryTable.MemoryTrace;
  ace : AceTable.Ace;
  kernel_rom : KernelRom.KernelRom;
}.
Definition chiplets_new (kernel : list Word) : Chiplets :=
  mkChiplets HashTable.hasher_default [] MemoryTable.memory_default ∅ (KernelRom.kernel_rom_new kernel).

Definition trace_len (c : Chiplets) : nat :=
  HashTable.hasher_trace_len (hasher c) + Bitwise.trace_len (bitwise c) + MemoryTable.num_trace_rows (memory c) +
  KernelRom.rom_trace_len (kernel_rom c) + AceTable.ace_trace_len (ace c) + 1.
(** The rows where the regions start.  A [RowIndex] is a [u32]: the conversion of a larger number panics, and so does an addition that overflows. *)
Definition row_index (value : nat) : result nat := if (Z.of_nat value <? 2 ^ 32)%Z then Ok value else Panic.
Definition row_index_add (row rhs : nat) : result nat := rhs ← row_index rhs; row_index (row + rhs).
Definition bitwise_start (c : Chiplets) : result nat := row_index (HashTable.hasher_trace_len (hasher c)).
Definition memory_start (c : Chiplets) : result nat := start ← bitwise_start c; row_index_add start (Bitwise.trace_len (bitwise c)).
Definition ace_start (c : Chiplets) : result nat := start ← memory_start c; row_index_add start (MemoryTable.num_trace_rows (memory c)).
Definition kernel_rom_start (c : Chiplets) : result nat := start ← ace_start c; row_index_add start (AceTable.ace_trace_len (ace c)).
Definition padding_start (c : Chiplets) : result nat := start ← kernel_rom_start c; row_index_add start (KernelRom.rom_trace_len (kernel_rom c)).

(** The fragments follow each other in the columns: each starts where the lengths of those before it end. *)
Definition bitwise_offset (c : Chiplets) : nat := HashTable.hasher_trace_len (hasher c).
Definition memory_offset (c : Chiplets) : nat := bitwise_offset c + Bitwise.trace_len (bitwise c).
Definition ace_offset (c : Chiplets) : nat := memory_offset c + MemoryTable.num_trace_rows (memory c).
Definition kernel_rom_offset (c : Chiplets) : nat := ace_offset c + AceTable.ace_trace_len (ace c).
Definition padding_offset (c : Chiplets) : nat := kernel_rom_offset c + KernelRom.rom_trace_len (kernel_rom c).

(** ** Filling the columns *)

(** A fragment is [num_rows] rows of the columns from [first] on, starting at row [start].  A table that is copied has as many rows as its
    fragment; one that is written cell by cell must not have more. *)
Definition in_fragment (first width start num_rows c i : nat) : bool := (first <=? c) && (c <? first + width) && ((start <=? i) && (i <? start + num_rows)).
Definition write_fragment (first width start num_rows : nat) (cells : nat -> nat -> felt) (cols : columns) : columns :=
  fun c i => if in_fragment first width start num_rows c i then cells (c - first) (i - start) else cols c i.
Definition row_cells (rows : list (list felt)) : nat -> nat -> felt := fun c i => nth c (nth i rows []) ZERO.
Definition copy_rows (len first width start num_rows : nat) (rows : list (list felt)) (cols : columns) : result columns :=
  if (start + num_rows <=? len) && (length rows =? num_rows) then Ok (write_fragment first width start num_rows (row_cells rows) cols) else Panic.
Definition set_rows (len first width start num_rows : nat) (rows : list (list felt)) (cols : columns) : result columns :=
  if (start + num_rows <=? len) && (length rows <=? num_rows) then Ok (write_fragment first width start (length rows) (row_cells rows) cols) else Panic.
Definition copy_columns (len first width start num_rows : nat) (cells cols : columns) : result columns :=
  if start + num_rows <=? len then Ok (write_fragment first width start num_rows cells cols) else Panic.

(** The row counters of the memory and of the kernel ROM count the rows of their fragments, so they stay below the start of the padding. *)
Definition fill_trace (c : Chiplets) (len : nat) : result columns :=
  let '(hasher_ctrl_len, _) := HashTable.region_lengths (hasher c) in
  memory_start ← memory_start c;
  ace_start ← ace_start c;
  kernel_rom_start ← kernel_rom_start c;
  padding_start ← padding_start c;
  cols ← fill_range len 0 0 hasher_ctrl_len ONE zero_columns;
  cols ← fill_range len 1 memory_start len ONE cols;
  cols ← fill_range len 2 ace_start len ONE cols;
  cols ← fill_range len 3 kernel_rom_start len ONE cols;
  cols ← fill_range len 4 padding_start len ONE cols;
  cols ← copy_rows len 1 20 0 (HashTable.hasher_trace_len (hasher c)) (HashTable.hasher_rows (hasher c)) cols;
  cols ← copy_rows len 2 13 (bitwise_offset c) (Bitwise.trace_len (bitwise c)) (bitwise c) cols;
  rows ← MemoryTable.memory_rows (memory c);
  cols ← set_rows len 3 17 (memory_offset c) (MemoryTable.num_trace_rows (memory c)) rows cols;
  cols ← set_rows len 5 5 (kernel_rom_offset c) (KernelRom.rom_trace_len (kernel_rom c)) (KernelRom.kernel_rom_rows (kernel_rom c)) cols;
  gen_trace ← AceTable.ace_fill (ace c);
  copy_columns len 4 16 (ace_offset c) (AceTable.ace_trace_len (ace c)) gen_trace cols.

(** The rows of the trace one after the other *)
Definition into_trace (c : Chiplets) (len : nat) : result (list felt) :=
  if trace_len c <=? len then
    cols ← fill_trace c len;
    Ok (seq 0 len ≫= fun row_idx => (fun column => cols column row_idx) <$> seq 0 CHIPLETS_WIDTH)
  else Panic.

(** ** The replay of an execution *)
(** A forest gives the batches of its basic blocks, and [None] for nodes of other kinds. *)
Inductive HasherOp :=
  | Permute (input_state : list felt)
  | HashControlBlock (h1 h2 : Word) (domain : felt) (expected_hash : Word)
  | HashBasicBlock (forest : list (option (list OpBatch))) (node_id : nat) (expected_hash : Word)
  | BuildMerkleRoot (value : Word) (path : list Word) (index : felt)
  | UpdateMerkleRoot (old_value new_value : Word) (path : list Word) (index : felt).
Inductive BitwiseOp := U32And | U32Xor.

Definition check_chiplets_trace_len (max_trace_len : nat) (c : Chiplets) : result Chiplets :=
  if max_trace_len <? trace_len c then Err (TraceLenExceeded max_trace_len) else Ok c.

Definition hasher_step (h : HashTable.Hasher) (op : HasherOp) : result HashTable.Hasher :=
  match op with
  | Permute input_state => Ok (HashTable.permute h input_state).2
  | HashControlBlock h1 h2 domain expected_hash => snd <$> HashTable.hash_control_block h h1 h2 domain expected_hash
  | HashBasicBlock forest node_id expected_hash =>
    match forest !! node_id with
    | None => Err (InternalErr "invalid node ID in hasher replay"%string)
    | Some None => Err (InternalErr "expected basic block node in hasher replay"%string)
    | Some (Some op_batches) => snd <$> HashTable.hash_basic_block h op_batches expected_hash
    end
  | BuildMerkleRoot value path index => snd <$> HashTable.build_merkle_root h value path index
  | UpdateMerkleRoot old_value new_value path index => snd <$> HashTable.update_merkle_root h old_value new_value path index
  end.
Definition bitwise_step (bw : list (list felt)) (op : BitwiseOp * felt * felt) : result (list (list felt)) :=
  match op with
  | (U32And, a, b) => snd <$> Bitwise.u32and bw a b
  | (U32Xor, a, b) => snd <$> Bitwise.u32xor bw a b
  end.

Definition with_hasher (c : Chiplets) (h : HashTable.Hasher) : Chiplets := mkChiplets h (bitwise c) (memory c) (ace c) (kernel_rom c).
Definition with_bitwise (c : Chiplets) (bw : list (list felt)) : Chiplets := mkChiplets (hasher c) bw (memory c) (ace c) (kernel_rom c).
Definition with_memory (c : Chiplets) (m : MemoryTable.MemoryTrace) : Chiplets := mkChiplets (hasher c) (bitwise c) m (ace c) (kernel_rom c).
Definition with_ace (c : Chiplets) (a : AceTable.Ace) : Chiplets := mkChiplets (hasher c) (bitwise c) (memory c) a (kernel_rom c).
Definition with_kernel_rom (c : Chiplets) (r : KernelRom.KernelRom) : Chiplets := mkChiplets (hasher c) (bitwise c) (memory c) (ace c) r.

(** The recorded requests *)
Record Replay := mkReplay {
  hasher_for_chiplet : list HasherOp;
  bitwise_replay : list (BitwiseOp * felt * felt);
  elements_written : list MemoryTable.MemoryAccess;
  words_written : list MemoryTable.MemoryAccess;
  elements_read : list MemoryTable.MemoryAccess;
  words_read : list MemoryTable.MemoryAccess;
  ace_replay : list (Z * CircuitEvaluation);
  kernel_replay : list Word;
}.
Definition initialize_chiplets (kernel : list Word) (r : Replay) (max_trace_len : nat) : result Chiplets :=
  let checked := check_chiplets_trace_len max_trace_len in
  c ← for_each (hasher_for_chiplet r) (fun c op => h ← hasher_step (hasher c) op; checked (with_hasher c h)) (chiplets_new kernel);
  c ← for_each (bitwise_replay r) (fun c op => bw ← bitwise_step (bitwise c) op; checked (with_bitwise c bw)) c;
  c ← for_each (kmerge_by_clk [elements_written r; words_written r; elements_read r; words_read r])
        (fun c mem_access => m ← MemoryTable.memory_step (memory c) mem_access; checked (with_memory c m)) c;
  c ← for_each (ace_replay r) (fun c '(clk, circuit_eval) => checked (with_ace c (AceTable.add_circuit_evaluation (ace c) clk circuit_eval))) c;
  for_each (kernel_replay r) (fun c proc_hash => rom ← KernelRom.access_proc (kernel_rom c) proc_hash; checked (with_kernel_rom c rom)) c.

(** ** The cells of the trace *)
Definition cell (flat : list felt) (row_idx column : nat) : felt := nth (row_idx * CHIPLETS_WIDTH + column) flat ZERO.
(** The columns of the chiplets in a trace; the last one is the selector of the permutation. *)
Definition with_chiplets (t : trace) (flat : list felt) : trace := fun i col =>
  match col with
  | ColChiplet j => if j <? 20 then cell flat i j else t i col
  | ColSPerm => cell flat i 20
  | _ => t i col
  end.

Lemma nth_rows {A} (f : nat -> list A) w a n i j d : (forall k, length (f k) = w) -> i < n -> j < w -> nth (i * w + j) (seq a n ≫= f) d = nth j (f (a + i)) d.
Proof.
  intros Hw. revert a i. induction n as [|n IH]; intros a i Hi Hj; [lia|]. cbn [seq mbind list_bind]. destruct i as [|i].
  - rewrite app_nth1 by (rewrite Hw; lia). by rewrite Nat.add_0_r.
  - rewrite app_nth2 by (rewrite Hw; lia). rewrite Hw. replace (S i * w + j - w) with (i * w + j) by lia. rewrite IH by lia. f_equal. f_equal. lia.
Qed.
Lemma length_rows {A} (f : nat -> list A) w l : (forall k, length (f k) = w) -> length (l ≫= f) = length l * w.
Proof. intros Hw. induction l as [|x l IH]; [done|]. cbn [mbind list_bind length]. rewrite length_app, Hw, IH. lia. Qed.
Lemma nth_fmap_index {A} (f : nat -> A) n j d : j < n -> nth j (f <$> seq 0 n) d = f j.
Proof. intros Hj. apply nth_lookup_Some. by rewrite list_lookup_fmap, lookup_seq_lt. Qed.
Lemma cell_value (cols : columns) len i c : i < len -> c < CHIPLETS_WIDTH ->
  cell (seq 0 len ≫= fun row_idx => (fun column => cols column row_idx) <$> seq 0 CHIPLETS_WIDTH) i c = cols c i.
Proof.
  intros Hi Hc. unfold cell. rewrite nth_rows by (done || intros; by rewrite length_fmap, length_seq). by rewrite nth_fmap_index.
Qed.
Lemma shows_nth l first vals : (forall j, j < length vals -> l (ColChiplet (first + j)) = nth j vals ZERO) -> shows l first vals.
Proof. intros Hl j v Hv. rewrite Hl by by eapply lookup_lt_Some. by apply nth_lookup_Some. Qed.

Lemma write_in first width start n cells cols c i : first <= c < first + width -> start <= i < start + n ->
  write_fragment first width start n cells cols c i = cells (c - first) (i - start).
Proof.
  intros Hc Hi. unfold write_fragment, in_fragment. rewrite !(proj2 (Nat.leb_le _ _)), !(proj2 (Nat.ltb_lt _ _)) by lia. done.
Qed.
Lemma write_out first width start n cells cols c i : c < first \/ first + width <= c \/ i < start \/ start + n <= i ->
  write_fragment first width start n cells cols c i = cols c i.
Proof.
  intros Hc. unfold write_fragment. destruct (in_fragment _ _ _ _ _ _) eqn:E; [|done]. unfold in_fragment in E.
  rewrite !andb_true_iff, !Nat.leb_le, !Nat.ltb_lt in E. lia.
Qed.
(** A selector column *)
Definition fill_from (c a b : nat) (cols : columns) : columns := fun c' i => if (c' =? c) && ((a <=? i) && (i <? b)) then ONE else cols c' i.
Lemma fill_other c a b cols c' i : c' <> c -> fill_from c a b cols c' i = cols c' i.
Proof. intros Hc. unfold fill_from. by rewrite (proj2 (Nat.eqb_neq c' c)). Qed.
Lemma fill_same c a b cols i : fill_from c a b cols c i = if (a <=? i) && (i <? b) then ONE else cols c i.
Proof. unfold fill_from. by rewrite Nat.eqb_refl. Qed.

(** A trace of at most [2 ^ 32] rows has row indices. *)
Lemma row_index_Ok n : (Z.of_nat n < 2 ^ 32)%Z -> row_index n = Ok n.
Proof. intros Hn. unfold row_index. by rewrite (proj2 (Z.ltb_lt _ _) Hn). Qed.
Lemma row_index_add_Ok r n : (Z.of_nat (r + n) < 2 ^ 32)%Z -> row_index_add r n = Ok (r + n).
Proof. intros Hn. unfold row_index_add. rewrite (row_index_Ok n) by lia. by apply row_index_Ok. Qed.
Lemma starts_Ok c : (Z.of_nat (trace_len c) <= 2 ^ 32)%Z ->
  memory_start c = Ok (memory_offset c) /\ ace_start c = Ok (ace_offset c) /\ kernel_rom_start c = Ok (kernel_rom_offset c) /\ padding_start c = Ok (padding_offset c).
Proof.
  unfold trace_len. intros Hlen.
  assert (memory_start c = Ok (memory_offset c)) as Em.
  { unfold memory_start, bitwise_start. rewrite row_index_Ok by lia. cbn [mbind outcome_bind]. rewrite row_index_add_Ok by lia. reflexivity. }
  assert (ace_start c = Ok (ace_offset c)) as Ea.
  { unfold ace_start. rewrite Em. cbn [mbind outcome_bind]. rewrite row_index_add_Ok by (unfold memory_offset, bitwise_offset; lia). reflexivity. }
  assert (kernel_rom_start c = Ok (kernel_rom_offset c)) as Ek.
  { unfold kernel_rom_start. rewrite Ea. cbn [mbind outcome_bind]. rewrite row_index_add_Ok by (unfold ace_offset, memory_offset, bitwise_offset; lia). reflexivity. }
  split_and!; try done. unfold padding_start. rewrite Ek. cbn [mbind outcome_bind].
  rewrite row_index_add_Ok by (unfold kernel_rom_offset, ace_offset, memory_offset, bitwise_offset; lia). reflexivity.
Qed.

(** ** Well-formed chiplets *)
Record chiplets_wf (c : Chiplets) : Prop := mkWf {
  cw_hasher : HashRequests.hinv (hasher c);
  cw_bitwise : Bitwise.bitwise_wf (bitwise c);
  cw_memory : exists k, MemoryTable.memory_wf k (memory c);
  cw_ace : Forall AceTable.evaluation_wf (AceTable.evaluations (ace c));
  cw_rom : KernelRom.rom_wf (kernel_rom c);
}.

Section Layout.
Variables (c : Chiplets) (len : nat).
Hypothesis Hwf : chiplets_wf c.
Hypothesis Hne : HashTable.h_trace (hasher c) <> [].
Hypothesis Hlen : trace_len c <= len.

Definition ctrl_len : nat := (HashTable.region_lengths (hasher c)).1.
Definition hrows : list HashTable.hrow := HashTable.h_trace (HashTable.finalize_trace (hasher c)).
(** The columns that [fill_trace] gives, for the rows of the memory and the columns of the circuit evaluations *)
Definition filled (mrows : list (list felt)) (gen : columns) : columns :=
  write_fragment 4 16 (ace_offset c) (AceTable.ace_trace_len (ace c)) gen
  (write_fragment 5 5 (kernel_rom_offset c) (KernelRom.rom_trace_len (kernel_rom c)) (row_cells (KernelRom.kernel_rom_rows (kernel_rom c)))
  (write_fragment 3 17 (memory_offset c) (MemoryTable.num_trace_rows (memory c)) (row_cells mrows)
  (write_fragment 2 13 (bitwise_offset c) (Bitwise.trace_len (bitwise c)) (row_cells (bitwise c))
  (write_fragment 1 20 0 (HashTable.hasher_trace_len (hasher c)) (row_cells (HashTable.hasher_rows (hasher c)))
  (fill_from 4 (padding_offset c) len (fill_from 3 (kernel_rom_offset c) len (fill_from 2 (ace_offset c) len (fill_from 1 (memory_offset c) len
  (fill_from 0 0 ctrl_len zero_columns))))))))).

Lemma starts : ctrl_len <= bitwise_offset c /\ bitwise_offset c <= memory_offset c <= ace_offset c /\ ace_offset c <= kernel_rom_offset c <= padding_offset c /\ padding_offset c < len.
Proof using P H Hwf Hne Hlen.
  unfold trace_len, padding_offset, kernel_rom_offset, ace_offset, memory_offset, bitwise_offset in *. split_and!; try lia.
  destruct (HashRequests.finalize_rows _ (cw_hasher c Hwf) Hne) as (E & _ & El & _).
  rewrite (HashRequests.hasher_trace_len_rows _ (cw_hasher c Hwf) Hne), E. unfold ctrl_len. rewrite El, length_app. cbn. lia.
Qed.
Lemma fill_trace_ok : (Z.of_nat (trace_len c) <= 2 ^ 32)%Z -> exists mrows gen, MemoryTable.memory_rows (memory c) = Ok mrows /\ AceTable.ace_fill (ace c) = Ok gen /\ fill_trace c len = Ok (filled mrows gen).
Proof using P H Hwf Hne Hlen.
  intros Hrows. destruct starts as (H1 & [H2 H3] & [H4 H5] & H6). destruct (cw_memory c Hwf) as [k Hk].
  destruct (MemoryTable.memory_rows_ok (memory c) k Hk) as (mrows & prev & Em & El & _). destruct (AceTable.ace_fill_ok (ace c) (cw_ace c Hwf)) as (gen & Eg & _).
  exists mrows, gen. split_and!; [done..|]. unfold fill_trace, filled, ctrl_len in *.
  destruct (starts_Ok c Hrows) as (-> & -> & -> & ->).
  destruct (HashTable.region_lengths (hasher c)) as [cl pl] eqn:Er. cbn [fst] in *.
  cbn [mbind outcome_bind]. unfold fill_range. rewrite !(proj2 (Nat.leb_le _ _)) by lia. cbn [andb mbind outcome_bind].
  unfold copy_rows, set_rows, copy_columns. rewrite Em, Eg. cbn [mbind outcome_bind].
  assert (length (HashTable.hasher_rows (hasher c)) = HashTable.hasher_trace_len (hasher c)) as Eh.
  { unfold HashTable.hasher_rows. rewrite length_fmap. symmetry. apply HashRequests.hasher_trace_len_rows; [apply Hwf|done]. }
  rewrite Eh, El, (cw_rom c Hwf). unfold Bitwise.trace_len. rewrite ?Nat.eqb_refl, ?Nat.leb_refl.
  unfold padding_offset, kernel_rom_offset, ace_offset, memory_offset, bitwise_offset, Bitwise.trace_len in *.
  repeat (rewrite ?(proj2 (Nat.leb_le _ _)) by lia; cbn [andb mbind outcome_bind]).
  reflexivity.
Qed.

(** The region of a row *)
Definition region_at (i : nat) : region :=
  if i <? ctrl_len then RController else if i <? bitwise_offset c then RPermutation else if i <? memory_offset c then RBitwise
  else if i <? ace_offset c then RMemory else if i <? kernel_rom_offset c then RAce else if i <? padding_offset c then RKernelRom else RPadding.
Lemma region_at_bounds i :
  match region_at i with
  | RController => i < ctrl_len
  | RPermutation => ctrl_len <= i < bitwise_offset c
  | RBitwise => bitwise_offset c <= i < memory_offset c
  | RMemory => memory_offset c <= i < ace_offset c
  | RAce => ace_offset c <= i < kernel_rom_offset c
  | RKernelRom => kernel_rom_offset c <= i < padding_offset c
  | RPadding => padding_offset c <= i
  end.
Proof using P H Hwf Hne Hlen.
  destruct starts as (H1 & [H2 H3] & [H4 H5] & H6). unfold region_at.
  destruct (Nat.ltb_spec i ctrl_len); [done|]. destruct (Nat.ltb_spec i (bitwise_offset c)); [lia|]. destruct (Nat.ltb_spec i (memory_offset c)); [lia|].
  destruct (Nat.ltb_spec i (ace_offset c)); [lia|]. destruct (Nat.ltb_spec i (kernel_rom_offset c)); [lia|]. destruct (Nat.ltb_spec i (padding_offset c)); lia.
Qed.

Section Cells.
Variables (mrows : list (list felt)) (gen : columns) (flat : list felt) (t : trace).
Hypothesis Hcell : forall i col, i < len -> col < CHIPLETS_WIDTH -> cell flat i col = filled mrows gen col i.
Let t' : trace := with_chiplets t flat.

Lemma chiplet_cell i j : i < len -> j < 20 -> t' i (ColChiplet j) = filled mrows gen j i.
Proof using Hcell. intros Hi Hj. unfold t', with_chiplets. rewrite (proj2 (Nat.ltb_lt j 20) Hj). apply Hcell; [done|]. unfold CHIPLETS_WIDTH. clear -Hj. lia. Qed.
Lemma perm_cell i : i < len -> t' i ColSPerm = filled mrows gen 20 i.
Proof using Hcell. intros Hi. apply Hcell; [done|]. unfold CHIPLETS_WIDTH. clear. lia. Qed.

Ltac start_bounds := destruct starts as (? & [? ?] & [? ?] & ?); unfold padding_offset, kernel_rom_offset, ace_offset, memory_offset, bitwise_offset in *.

(** The rows of the hasher *)
Lemma hasher_cell i r : i < bitwise_offset c -> hrows !! i = Some r -> forall j, j < 20 -> filled mrows gen (1 + j) i = nth j (HashTable.hasher_values r) ZERO.
Proof using P H Hwf Hne Hlen.
  intros Hi Hr j Hj. unfold filled. start_bounds. rewrite !write_out by lia. rewrite write_in by lia. unfold row_cells, HashTable.hasher_rows. f_equal; [lia|].
  apply nth_lookup_Some. rewrite Nat.sub_0_r, list_lookup_fmap. unfold hrows in Hr. by rewrite Hr.
Qed.
Lemma ctrl_cell i : i < len -> t' i (ColChiplet 0) = felt_bit (i <? ctrl_len).
Proof using P H Hwf Hne Hlen Hcell.
  intros Hi. rewrite chiplet_cell by lia. unfold filled. start_bounds. rewrite !write_out by lia. rewrite !fill_other by lia. rewrite fill_same.
  cbn [Nat.leb andb]. by destruct (i <? ctrl_len).
Qed.
(** The selectors after the hasher *)
Lemma selector_cell i j : bitwise_offset c <= i < len -> 1 <= j <= 4 -> S j <= rank (region_at i) -> t' i (ColChiplet j) = felt_bit (S j <? rank (region_at i)).
Proof using P H Hwf Hne Hlen Hcell.
  intros Hi Hj Hrank. rewrite chiplet_cell by lia. pose proof (region_at_bounds i) as Hb. unfold filled. start_bounds.
  destruct (region_at i); cbn [rank] in Hrank |- *; try (exfalso; lia);
    (destruct j as [|[|[|[|[|?]]]]]; try (exfalso; lia)); rewrite ?write_out by lia; rewrite ?fill_other by lia; rewrite fill_same;
    first [rewrite (proj2 (Nat.leb_le _ i)), (proj2 (Nat.ltb_lt i len)) by lia; reflexivity
          |rewrite (proj2 (Nat.leb_gt _ i)) by lia; cbn [andb]; rewrite ?fill_other by lia; reflexivity].
Qed.
Lemma perm_zero i : bitwise_offset c <= i < len -> t' i ColSPerm = ZERO.
Proof using P H Hwf Hne Hlen Hcell.
  intros Hi. rewrite perm_cell by lia. unfold filled. start_bounds. rewrite !write_out by lia. rewrite !fill_other by lia. done.
Qed.

Definition ctrl_rows : list HashTable.hrow := HashTable.pad_to_cycle_boundary (HashTable.h_trace (hasher c)) (HashTable.h_mrupdate_id (hasher c)).
Definition requests : list (list Z * Z) := btree_entries array_le (HashTable.perm_request_map (hasher c)).
Lemma hasher_layout : hrows = ctrl_rows ++ (requests ≫= HashRequests.entry_cycle) /\ HashRequests.controller_rows ctrl_rows /\ length ctrl_rows = ctrl_len /\
  0 < ctrl_len /\ bitwise_offset c = ctrl_len + 16 * length requests /\ 0 < length requests /\ Forall (fun e : list Z * Z => length e.1 = 12) requests.
Proof using P H Hwf Hne Hlen.
  destruct (HashRequests.finalize_rows _ (cw_hasher c Hwf) Hne) as (E & Hc & El & Hk & Hn). fold requests in *. fold ctrl_rows in *. unfold ctrl_len. rewrite El. cbn [fst].
  split_and!; try done.
  - destruct (HashRequests.rows_head _ Hc) as (r & Hh & _). destruct ctrl_rows; [done|]. cbn. lia.
  - unfold bitwise_offset. rewrite (HashRequests.hasher_trace_len_rows _ (cw_hasher c Hwf) Hne), E, length_app, HashRequests.entry_cycles_length. done.
  - destruct requests; [done|]. cbn. lia.
Qed.
(** Row [m] of the cycle of a request *)
Definition cycle_at (i : nat) (r : HashTable.hrow) : Prop := exists mult st, length st = 12 /\
  r = HashTable.cycle_row mult ((i - ctrl_len) mod 16) (HashTable.cycle_states st (seq 0 ((i - ctrl_len) mod 16))) /\
  ((i - ctrl_len) mod 16 < 15 -> hrows !! S i = Some (HashTable.cycle_row mult (S ((i - ctrl_len) mod 16)) (HashTable.cycle_states st (seq 0 (S ((i - ctrl_len) mod 16)))))).
Lemma hrow_at i : i < bitwise_offset c -> exists r, hrows !! i = Some r /\
  (i < ctrl_len -> ctrl_rows !! i = Some r /\ HashTable.row_ok r) /\ (ctrl_len <= i -> cycle_at i r).
Proof using P H Hwf Hne Hlen.
  intros Hi. destruct hasher_layout as (E & Hc & El & H0 & Eb & _ & Hk). destruct (decide (i < ctrl_len)) as [Hlt|Hge].
  - destruct (lookup_lt_is_Some_2 ctrl_rows i) as [r Hr]; [lia|]. exists r. split_and!; [by rewrite E, lookup_app_l by lia| |lia]. intros _. split; [done|].
    exact (proj1 (Forall_lookup _ _) (HashRequests.rows_ok _ Hc) _ _ Hr).
  - set (k := i - ctrl_len). destruct (lookup_lt_is_Some_2 requests (k / 16)) as [e He]; [apply Nat.Div0.div_lt_upper_bound; unfold k; lia|].
    assert (k = i - ctrl_len) as Dk by done. pose proof (HashRequests.entry_cycles_lookup requests) as Hl. pose proof (Nat.div_mod k 16 ltac:(lia)) as Hd. pose proof (Nat.mod_upper_bound k 16 ltac:(lia)) as Hm.
    eexists. split_and!; [rewrite E, lookup_app_r, El by lia; fold k; rewrite Hl, He; reflexivity|lia|]. intros _.
    exists (new_unchecked e.2), (HashTable.key_to_state e.1). fold k. split_and!; [|done|].
    + unfold HashTable.key_to_state. rewrite length_fmap. exact (proj1 (Forall_lookup _ _) Hk _ _ He).
    + intros Hm15. assert (S k = S (k mod 16) + k / 16 * 16) as Ek by lia. rewrite E, lookup_app_r, El by lia. replace (S i - ctrl_len) with (S k) by lia. rewrite Hl.
      replace (S k / 16) with (k / 16) by (rewrite Ek, Nat.div_add, (Nat.div_small (S (k mod 16))) by lia; lia).
      replace (S k mod 16) with (S (k mod 16)) by (rewrite Ek, Nat.Div0.mod_add, (Nat.mod_small (S (k mod 16))) by lia; lia). by rewrite He.
Qed.
Lemma hrow_lengths i r : i < bitwise_offset c -> hrows !! i = Some r -> length (HashTable.selectors r) = 3 /\ length (HashTable.hasher_state r) = 12 /\
  HashTable.s_perm r = felt_bit (negb (i <? ctrl_len)).
Proof using P H Hwf Hne Hlen.
  intros Hi Hr. destruct (hrow_at i Hi) as (r' & Hr' & Hc & Hp). rewrite Hr in Hr'. injection Hr' as <-. destruct (Nat.ltb_spec i ctrl_len) as [Hlt|Hge].
  - destruct (Hc Hlt) as [_ Hok]. split_and!; [by apply HashTable.row_length|apply Hok|apply Hok].
  - destruct (Hp Hge) as (mult & st & Hst & -> & _). cbn. split_and!; [apply HashTable.length_cycle_witnesses|by apply HashTable.length_cycle_states|done].
Qed.
Lemma hasher_shown i r : i < bitwise_offset c -> hrows !! i = Some r -> HashTable.shows_hasher (t' i) r /\ t' i ColSPerm = felt_bit (negb (i <? ctrl_len)).
Proof using P H Hwf Hne Hlen Hcell.
  intros Hi Hr. destruct starts as (? & ? & ? & ?). split.
  - apply shows_nth. rewrite length_take. intros j Hj. rewrite chiplet_cell by lia. rewrite (hasher_cell i r) by (done || lia). rewrite nth_firstn. by rewrite (proj2 (Nat.ltb_lt j 19)) by lia.
  - rewrite perm_cell by lia. change 20 with (1 + 19). rewrite (hasher_cell i r) by (done || lia). destruct (hrow_lengths i r Hi Hr) as (L3 & L12 & <-).
    unfold HashTable.hasher_values. rewrite app_nth2 by lia. rewrite app_nth2 by lia. by rewrite L3, L12.
Qed.
Lemma row_in_region i : i < len -> in_region (t' i) (region_at i).
Proof using P H Hwf Hne Hlen Hcell.
  intros Hi. pose proof (region_at_bounds i) as Hb. destruct starts as (? & [? ?] & [? ?] & ?). destruct (decide (i < bitwise_offset c)) as [Hlt|Hge].
  - destruct (hrow_at i Hlt) as (r & Hr & _). destruct (hasher_shown i r Hlt Hr) as [_ Hp]. pose proof (ctrl_cell i Hi) as Hcc.
    unfold region_at in *. destruct (Nat.ltb_spec i ctrl_len); [|rewrite (proj2 (Nat.ltb_lt i (bitwise_offset c))) by done]; (apply agrees_region; [done|done|cbn; lia]).
  - apply agrees_region; [|rewrite perm_zero by lia|intros; apply selector_cell; lia].
    + rewrite ctrl_cell by done. rewrite (proj2 (Nat.ltb_ge i ctrl_len)) by lia. destruct (region_at i); done || lia.
    + destruct (region_at i); done || lia.
Qed.

(** The rows of the other chiplets *)
Lemma fragment_shown first width start (rows : list (list felt)) k r : (forall j, j < width -> t' (start + k) (ColChiplet (first + j)) = row_cells rows j k) ->
  rows !! k = Some r -> length r <= width -> shows (t' (start + k)) first r.
Proof.
  intros Hc Hr Hl. apply shows_nth. intros j Hj. rewrite (Hc j (Nat.lt_le_trans _ _ _ Hj Hl)). unfold row_cells. by rewrite (nth_lookup_Some _ _ _ _ Hr).
Qed.
Lemma bitwise_shown k r : bitwise c !! k = Some r -> shows (t' (bitwise_offset c + k)) 2 r.
Proof using P H Hwf Hne Hlen Hcell.
  intros Hr. pose proof (lookup_lt_Some _ _ _ Hr) as Hk. apply (fragment_shown 2 13 (bitwise_offset c) (bitwise c)); [|done|].
  - intros j Hj. start_bounds. unfold Bitwise.trace_len in *. rewrite chiplet_cell by lia. unfold filled. unfold padding_offset, kernel_rom_offset, ace_offset, memory_offset, bitwise_offset, Bitwise.trace_len.
    rewrite !write_out by lia. rewrite write_in by lia. f_equal; lia.
  - destruct (cw_bitwise c Hwf) as (ops & E & _). rewrite E, Bitwise.blocks_lookup in Hr. destruct (ops !! (k / 8)) as [[[x a] b]|]; [|done]. injection Hr as <-. done.
Qed.
Lemma rom_shown k r : KernelRom.kernel_rom_rows (kernel_rom c) !! k = Some r -> shows (t' (kernel_rom_offset c + k)) 5 r.
Proof using P H Hwf Hne Hlen Hcell.
  intros Hr. pose proof (lookup_lt_Some _ _ _ Hr) as Hk. rewrite (cw_rom c Hwf) in Hk. apply (fragment_shown 5 5 (kernel_rom_offset c) (KernelRom.kernel_rom_rows (kernel_rom c))); [|done|].
  - intros j Hj. start_bounds. rewrite chiplet_cell by lia. unfold filled, padding_offset, kernel_rom_offset, ace_offset, memory_offset, bitwise_offset.
    rewrite (write_out 4) by lia. rewrite write_in by lia. f_equal; lia.
  - destruct (KernelRom.kernel_rom_rows_ok (kernel_rom c)) as (_ & Hf & _). destruct (proj1 (Forall_lookup _ _) Hf _ _ Hr) as [-> _]. done.
Qed.
Lemma memory_shown k r : length mrows = MemoryTable.num_trace_rows (memory c) -> mrows !! k = Some r -> length r <= 17 -> shows (t' (memory_offset c + k)) 3 r.
Proof using P H Hwf Hne Hlen Hcell.
  intros El Hr Hr17. pose proof (lookup_lt_Some _ _ _ Hr) as Hk. apply (fragment_shown 3 17 (memory_offset c) mrows); [|done..].
  intros j Hj. start_bounds. rewrite chiplet_cell by lia. unfold filled, padding_offset, kernel_rom_offset, ace_offset, memory_offset, bitwise_offset.
  rewrite (write_out 4), (write_out 5) by lia. rewrite write_in by lia. f_equal; lia.
Qed.
Lemma ace_shown k r : (forall i r, AceTable.ace_rows (AceTable.evaluations (ace c)) !! i = Some r -> forall j, j < 16 -> gen j i = nth j r ZERO) ->
  AceTable.ace_rows (AceTable.evaluations (ace c)) !! k = Some r -> length r <= 16 -> shows (t' (ace_offset c + k)) 4 r.
Proof using P H Hwf Hne Hlen Hcell.
  intros Hg Hr Hr16. pose proof (lookup_lt_Some _ _ _ Hr) as Hk. rewrite <-AceTable.ace_trace_len_rows in Hk. apply shows_nth. intros j Hj.
  start_bounds. rewrite chiplet_cell by lia. unfold filled, padding_offset, kernel_rom_offset, ace_offset, memory_offset, bitwise_offset. rewrite write_in by lia.
  replace (4 + j - 4) with j by lia. rewrite <-(Hg k r Hr j) by lia. f_equal. lia.
Qed.

(** ** The constraints on two neighbouring rows *)
Hypothesis Hsup : supplied len t.
Lemma supplied_with : supplied len t'.
Proof using Hsup. exact Hsup. Qed.

Lemma regions_follow i : follows (region_at i) (region_at (S i)) = true.
Proof using P H Hwf Hne Hlen.
  pose proof (region_at_bounds i) as Hi. pose proof (region_at_bounds (S i)) as Hs. destruct starts as (? & [? ?] & [? ?] & ?).
  destruct hasher_layout as (_ & _ & _ & _ & ? & ? & _). destruct (region_at i), (region_at (S i)); try reflexivity; lia.
Qed.
(** The constraints that are switched off *)
Lemma rows_idle used cs i : pairs_idle true used cs = true -> S i < len -> used (region_at i) (region_at (S i)) = false ->
  satisfied true false (t' i) (t' (S i)) cs.
Proof using P H Hwf Hne Hlen Hcell.
  intros Hp Hi Hu. apply (pairs_idle_ok true used cs (region_at i) (region_at (S i))); [done|apply regions_follow|done|apply row_in_region; lia..].
Qed.
Lemma satisfied_first first last (l n : row) cs : satisfied true last l n cs -> satisfied first last l n cs.
Proof. intros Hs. refine (Forall_impl _ _ _ Hs _). intros x. unfold holds. destruct (on x); auto. Qed.
Lemma region_eq i r : region_at i = r -> i < len -> in_region (t' i) r.
Proof using P H Hwf Hne Hlen Hcell. intros <- Hi. by apply row_in_region. Qed.

Lemma selectors_ok i : S i < len -> satisfied (i =? 0) false (t' i) (t' (S i)) build_chiplet_selectors.
Proof using P H Hwf Hne Hlen Hcell. intros Hi. apply satisfied_first. by apply (rows_idle (fun _ _ => false) _ i selectors_idle). Qed.

Lemma bitwise_ok i : S i < len -> satisfied (i =? 0) false (t' i) (t' (S i)) AirBitwise.enforce_bitwise_constraints.
Proof using P H Hwf Hne Hlen Hcell Hsup.
  intros Hi. destruct (decide (region_at i = RBitwise)) as [E|E].
  - pose proof (region_at_bounds i) as Hb. rewrite E in Hb. unfold memory_offset, Bitwise.trace_len in Hb.
    apply (Bitwise.bitwise_rows_ok (bitwise c) len t' (bitwise_offset c)); [apply Hwf|done| |lia|lia|by apply region_eq; [|lia]|apply bitwise_shown|done].
    destruct hasher_layout as (_ & Hc & El & _ & -> & _). pose proof (HashRequests.rows_cycles _ Hc) as Hm. rewrite El in Hm.
    apply Nat.Div0.mod_divides in Hm as [q Hq]. rewrite Hq. replace (16 * q + 16 * length requests) with ((2 * q + 2 * length requests) * 8) by lia. apply Nat.Div0.mod_mul.
  - apply satisfied_first, (rows_idle _ _ i bitwise_idle Hi). unfold own_rows. by rewrite bool_decide_false.
Qed.

Lemma rom_ok i : S i < len -> satisfied (i =? 0) false (t' i) (t' (S i)) AirKernelRom.enforce_kernel_rom_constraints.
Proof using P H Hwf Hne Hlen Hcell Hsup.
  intros Hi. destruct (KernelRom.kernel_rom_rows_ok (kernel_rom c)) as (Hch & Hf & Hh). pose proof (cw_rom c Hwf) as Hw. unfold KernelRom.rom_wf in Hw.
  set (rows := KernelRom.kernel_rom_rows (kernel_rom c)) in *. pose proof (region_at_bounds i) as Hb. pose proof (region_at_bounds (S i)) as Hb'.
  pose proof (row_in_region i ltac:(lia)) as Hl. pose proof (row_in_region (S i) Hi) as Hn. pose proof (regions_follow i) as Hfo. unfold padding_offset in *. rewrite <-Hw in *.
  assert (forall j, region_at j = RKernelRom -> kernel_rom_offset c <= j < kernel_rom_offset c + length rows -> exists r, rows !! (j - kernel_rom_offset c) = Some r /\ shows (t' j) 5 r /\ KernelRom.rom_row r) as Hrow.
  { intros j Ej Hj. destruct (lookup_lt_is_Some_2 rows (j - kernel_rom_offset c)) as [r Hr]; [lia|]. exists r. split; [done|]. split; [|exact (proj1 (Forall_lookup _ _) Hf _ _ Hr)].
    replace j with (kernel_rom_offset c + (j - kernel_rom_offset c)) by lia. by apply rom_shown. }
  destruct (used_by RKernelRom (region_at i) (region_at (S i))) eqn:Eu; [|by apply satisfied_first, (rows_idle _ _ i kernel_rom_idle)].
  destruct (region_at i) eqn:Ei, (region_at (S i)) eqn:Es; try discriminate Eu; try discriminate Hfo.
  - destruct (Hrow (S i) Es ltac:(lia)) as (r & Hr & Hsh & _). apply (KernelRom.rom_first_ok _ _ _ _ r Hl Hn Hsh). apply Hh. rewrite head_lookup.
    replace (S i - kernel_rom_offset c) with 0 in Hr by lia. done.
  - destruct (Hrow i Ei ltac:(lia)) as (r & Hr & Hsh & Hok), (Hrow (S i) Es ltac:(lia)) as (r' & Hr' & Hsh' & Hok').
    apply (KernelRom.rom_inner_ok _ _ _ _ r r' Hl Hn Hsh Hsh' Hok Hok'). apply (Hch (i - kernel_rom_offset c)); [done|]. by replace (S (i - kernel_rom_offset c)) with (S i - kernel_rom_offset c) by lia.
  - destruct (Hrow i Ei ltac:(lia)) as (r & Hr & Hsh & Hok). by apply (KernelRom.rom_end_ok _ _ _ _ r).
Qed.

Lemma memory_ok i : MemoryTable.memory_rows (memory c) = Ok mrows -> S i < len -> satisfied (i =? 0) false (t' i) (t' (S i)) AirMemory.enforce_memory_constraints.
Proof using P H Hwf Hne Hlen Hcell Hsup.
  intros Hm Hi. destruct (cw_memory c Hwf) as [k Hk]. destruct (MemoryTable.memory_rows_at _ _ Hk mrows Hm) as [El Hat].
  pose proof (region_at_bounds i) as Hb. pose proof (region_at_bounds (S i)) as Hb'. unfold ace_offset in Hb, Hb'. rewrite <-El in Hb, Hb'.
  pose proof (row_in_region i ltac:(lia)) as Hl. pose proof (row_in_region (S i) Hi) as Hn. pose proof (regions_follow i) as Hfo.
  assert (forall j, region_at j = RMemory -> memory_offset c <= j < memory_offset c + length mrows -> exists ctx wa a p,
    MemoryTable.accesses (memory c) !! (j - memory_offset c) = Some (ctx, wa, a) /\ MemoryTable.entry_wf (ctx, wa, a) /\ MemoryTable.shows_access (t' j) p ctx wa a /\
    (j - memory_offset c = 0 -> MemoryTable.access_first a) /\
    (forall k' y, j - memory_offset c = S k' -> MemoryTable.accesses (memory c) !! k' = Some y -> p = MemoryTable.values y /\ MemoryTable.access_lt y (ctx, wa, a))) as Hrow.
  { intros j Ej Hj. destruct (lookup_lt_is_Some_2 mrows (j - memory_offset c)) as [r Hr]; [lia|]. destruct (Hat _ _ Hr) as ([[ctx wa] a] & p & Hx & Hw & Hp & H17 & H0 & Hs).
    exists ctx, wa, a, p. split_and!; [done|done| |done|done]. apply (MemoryTable.row_shows _ _ _ _ _ r Hw Hp).
    pose proof (memory_shown (j - memory_offset c) r El Hr ltac:(lia)) as Hsh. by replace (memory_offset c + (j - memory_offset c)) with j in Hsh by lia. }
  destruct (used_by RMemory (region_at i) (region_at (S i))) eqn:Eu; [|by apply satisfied_first, (rows_idle _ _ i memory_idle)].
  unfold AirMemory.enforce_memory_constraints. rewrite !satisfied_app. destruct (decide (region_at i = RMemory)) as [Ei|Ei].
  - rewrite Ei in *. destruct (Hrow i Ei Hb) as (ctx & wa & a & p & Hx & Hw & Hsh & _). split; [by eapply MemoryTable.memory_binary_ok|].
    destruct (decide (region_at (S i) = RMemory)) as [Es|Es].
    + rewrite Es in *. destruct (Hrow (S i) Es Hb') as (ctx' & wa' & a' & p' & _ & Hw' & Hsh' & _ & Hprev).
      destruct (Hprev (i - memory_offset c) (ctx, wa, a) ltac:(lia) Hx) as [-> Hlt].
      split; [by apply satisfied_first, (idle_ok _ _ _ _ _ _ _ memory_inner_idle)|by eapply (MemoryTable.memory_transition_ok _ _ ctx wa ctx' wa' a a')].
    + rewrite <-satisfied_app. pose proof memory_end_idle as He. rewrite forallb_forall in He. specialize (He _ (elem_regions (region_at (S i)))).
      rewrite bool_decide_false, Hfo in He by done. by apply satisfied_first, (idle_ok _ _ _ _ _ _ _ He).
  - unfold used_by in Eu. rewrite bool_decide_false in Eu by done. cbn [orb] in Eu. apply andb_true_iff in Eu as [Es Er]. apply bool_decide_eq_true in Es. apply Nat.eqb_eq in Er.
    assert (region_at i = RBitwise) as E by (by apply rank_inj; injection Er). rewrite E, Es in *.
    destruct (Hrow (S i) Es Hb') as (ctx' & wa' & a' & p' & _ & Hw' & Hsh' & H0 & _).
    pose proof (idle_ok _ _ _ _ _ _ _ memory_before_idle Hl Hn) as Hid. rewrite satisfied_app in Hid. destruct Hid as [? ?].
    split_and!; [by apply satisfied_first|eapply (MemoryTable.memory_first_ok _ _ ctx' wa' a'); [done|done|apply H0; lia]|by apply satisfied_first].
Qed.

Lemma ace_ok i : (forall i r, AceTable.ace_rows (AceTable.evaluations (ace c)) !! i = Some r -> forall j, j < 16 -> gen j i = nth j r ZERO) ->
  S i < len -> satisfied (i =? 0) false (t' i) (t' (S i)) AirAce.enforce_ace_constraints_all_rows.
Proof using P H Hwf Hne Hlen Hcell Hsup.
  intros Hg Hi. pose proof (region_at_bounds i) as Hb. pose proof (region_at_bounds (S i)) as Hb'. unfold kernel_rom_offset in Hb, Hb'. rewrite AceTable.ace_trace_len_rows in Hb, Hb'.
  pose proof (row_in_region i ltac:(lia)) as Hl. pose proof (row_in_region (S i) Hi) as Hn. pose proof (regions_follow i) as Hfo.
  set (rows := AceTable.ace_rows (AceTable.evaluations (ace c))) in *.
  assert (forall j, region_at j = RAce -> ace_offset c <= j < ace_offset c + length rows -> exists r, rows !! (j - ace_offset c) = Some r /\ shows (t' j) 4 r) as Hrow.
  { intros j Ej Hj. destruct (lookup_lt_is_Some_2 rows (j - ace_offset c)) as [r Hr]; [lia|]. exists r. split; [done|].
    destruct (AceTable.ace_rows_lookup _ _ _ (cw_ace c Hwf) Hr) as (e & R & E & p0 & m & (_ & _ & ->) & _).
    pose proof (ace_shown (j - ace_offset c) _ Hg Hr ltac:(done)) as Hsh. by replace (ace_offset c + (j - ace_offset c)) with j in Hsh by lia. }
  destruct (used_by RAce (region_at i) (region_at (S i))) eqn:Eu; [|by apply satisfied_first, (rows_idle _ _ i ace_idle)].
  destruct (decide (region_at i = RAce)) as [Ei|Ei].
  - rewrite Ei in *. destruct (Hrow i Ei Hb) as (r & Hr & Hsh).
    destruct (AceTable.ace_rows_lookup _ _ _ (cw_ace c Hwf) Hr) as (e & R & E & p0 & m & Hat & _ & Hin & Hend). fold rows in Hin, Hend.
    assert (S (i - ace_offset c) = S i - ace_offset c) as Esub by lia. rewrite Esub in Hin, Hend. pose proof Hat as (_ & Hm & _).
    destruct (decide (region_at (S i) = RAce)) as [Es|Es].
    + rewrite Es in *. destruct (Hrow (S i) Es Hb') as (r' & Hr' & Hsh'). destruct (decide (S m < R + E)) as [Hlt|Hge].
      * specialize (Hin Hlt). rewrite Hr' in Hin. injection Hin as ->. by eapply (AceTable.ace_inner_ok _ _ r e R E p0 m).
      * destruct (Hend ltac:(lia) r' Hr') as (e' & R' & E' & p0' & Hat'). eapply (AceTable.ace_boundary_ok _ _ r e R E p0 m); [done..|lia|done|done].
    + assert (S m = R + E) as Hm'.
      { destruct (decide (S m < R + E)) as [Hlt|]; [|lia]. specialize (Hin Hlt). apply lookup_lt_Some in Hin. destruct (region_at (S i)); try discriminate Hfo; try done; cbn in *;
          unfold padding_offset, kernel_rom_offset in *; rewrite ?AceTable.ace_trace_len_rows in *; fold rows in Hb, Hb'; lia. }
      eapply (AceTable.ace_end_rows_ok _ _ r e R E p0 m); [done..| |done|done]. destruct (region_at (S i)); try discriminate Hfo; try done; auto.
  - unfold used_by in Eu. rewrite bool_decide_false in Eu by done. cbn [orb] in Eu. apply andb_true_iff in Eu as [Es Er]. apply bool_decide_eq_true in Es. apply Nat.eqb_eq in Er.
    assert (region_at i = RMemory) as E by (by apply rank_inj; injection Er). rewrite E, Es in *. destruct (Hrow (S i) Es Hb') as (r' & Hr' & Hsh').
    destruct (AceTable.ace_rows_lookup _ _ _ (cw_ace c Hwf) Hr') as (e' & R' & E' & p0' & m & Hat & H0 & _). rewrite H0 in Hat by lia.
    by eapply (AceTable.ace_first_ok _ _ _ _ r').
Qed.

Lemma controller_ok i : S i < len -> satisfied (i =? 0) false (t' i) (t' (S i)) AirController.enforce_controller_constraints.
Proof using P H Hwf Hne Hlen Hcell Hsup.
  intros Hi. destruct hasher_layout as (E & Hc & El & H0 & Eb & Hr0 & _). pose proof (region_at_bounds i) as Hb. pose proof (region_at_bounds (S i)) as Hb'.
  pose proof (row_in_region i ltac:(lia)) as Hl. pose proof (row_in_region (S i) Hi) as Hn. pose proof (regions_follow i) as Hfo.
  destruct (decide (region_at i = RController)) as [Ei|Ei].
  - rewrite Ei in *. destruct (hrow_at i ltac:(lia)) as (r & Hr & Hrc & _). destruct (Hrc Hb) as [Hcr Hok]. destruct (hasher_shown i r ltac:(lia) Hr) as [Hsh _].
    destruct (decide (region_at (S i) = RController)) as [Es|Es].
    + rewrite Es in *. destruct (hrow_at (S i) ltac:(lia)) as (r' & Hr' & Hrc' & _). destruct (Hrc' Hb') as [Hcr' Hok']. destruct (hasher_shown (S i) r' ltac:(lia) Hr') as [Hsh' _].
      apply (HashTable.controller_inner_ok _ _ _ _ r r' Hl Hn Hsh Hsh' Hok Hok').
      * by apply (HashRequests.rows_chain _ Hc i).
      * by apply (HashRequests.rows_ids _ Hc i).
      * intros E0. apply Nat.eqb_eq in E0. subst i. destruct (HashRequests.rows_head _ Hc) as (r0 & Hh & Hin & _). rewrite head_lookup, Hcr in Hh. by injection Hh as ->.
    + assert (region_at (S i) = RPermutation) as Es' by (destruct (region_at (S i)); done). rewrite Es' in *.
      destruct (HashRequests.rows_last _ Hc) as (r0 & Hla & He). rewrite last_lookup in Hla. replace (pred (length ctrl_rows)) with i in Hla by lia.
      rewrite Hcr in Hla. injection Hla as <-. pose proof (HashRequests.rows_cycles _ Hc) as Hm. rewrite El in Hm.
      apply (HashTable.controller_last_ok _ _ _ _ r Hl Hn Hsh Hok He). apply Nat.eqb_neq. intros ->. replace ctrl_len with 1 in Hm by lia. done.
  - assert ((i =? 0) = false) as ->.
    { apply Nat.eqb_neq. intros ->. apply Ei. unfold region_at. by rewrite (proj2 (Nat.ltb_lt 0 ctrl_len)). }
    apply (pairs_idle_ok false (used_by RController) _ (region_at i) (region_at (S i))); [apply controller_idle|done| |done|done].
    unfold used_by. rewrite bool_decide_false by done. cbn. by rewrite andb_false_r.
Qed.

Lemma permutation_ok i : S i < len -> satisfied (i =? 0) false (t' i) (t' (S i)) AirPermutation.enforce_permutation_constraints.
Proof using P H Hwf Hne Hlen Hcell Hsup.
  intros Hi. destruct hasher_layout as (E & Hc & El & H0 & Eb & Hr0 & _). pose proof (region_at_bounds i) as Hb. pose proof (region_at_bounds (S i)) as Hb'.
  pose proof (row_in_region i ltac:(lia)) as Hl. pose proof (row_in_region (S i) Hi) as Hn. pose proof (regions_follow i) as Hfo.
  pose proof (HashRequests.rows_cycles _ Hc) as Hm. rewrite El in Hm.
  destruct (used_by RPermutation (region_at i) (region_at (S i))) eqn:Eu; [|by apply satisfied_first, (rows_idle _ _ i permutation_idle)].
  destruct (decide (region_at i = RPermutation)) as [Ei|Ei].
  - rewrite Ei in *. destruct (hrow_at i ltac:(lia)) as (r & Hr & _ & Hrp). destruct (Hrp ltac:(lia)) as (mult & st & Hst & -> & Hnext). destruct (hasher_shown i _ ltac:(lia) Hr) as [Hsh _].
    assert (i mod 16 = (i - ctrl_len) mod 16) as Emod.
    { apply Nat.Div0.mod_divides in Hm as [q Hq]. replace i with (i - ctrl_len + q * 16) at 1 by lia. apply Nat.Div0.mod_add. }
    pose proof (Nat.mod_upper_bound (i - ctrl_len) 16 ltac:(lia)) as Hm16.
    apply (HashTable.cycle_row_ok _ _ _ _ mult ((i - ctrl_len) mod 16) (HashTable.cycle_states st (seq 0 ((i - ctrl_len) mod 16))) (region_at (S i))); [done|done|done|by apply HashTable.length_cycle_states| | |done|].
    + intros k Hk. rewrite <-Emod. apply (selector len t' supplied_with); lia.
    + rewrite <-Emod. apply (ark_row len t' supplied_with). lia.
    + intros Hm15. assert (S i < bitwise_offset c) as Hlt.
      { apply Nat.Div0.mod_divides in Hm as [q Hq]. destruct (decide (S i < bitwise_offset c)) as [|Hge]; [done|]. exfalso. assert (i - ctrl_len = 15 + (length requests - 1) * 16) as Ex by lia.
        rewrite Ex, Nat.Div0.mod_add in Hm15. cbn in Hm15. lia. }
      split.
      * unfold region_at. by rewrite (proj2 (Nat.ltb_ge (S i) ctrl_len)), (proj2 (Nat.ltb_lt (S i) (bitwise_offset c))) by lia.
      * specialize (Hnext Hm15). rewrite seq_S in Hnext. unfold HashTable.cycle_states in Hnext |- *. rewrite foldl_app in Hnext. cbn [foldl] in Hnext.
        by destruct (hasher_shown (S i) _ Hlt Hnext).
  - unfold used_by in Eu. rewrite bool_decide_false in Eu by done. cbn [orb] in Eu. apply andb_true_iff in Eu as [Es Er]. apply bool_decide_eq_true in Es. apply Nat.eqb_eq in Er.
    assert (region_at i = RController) as Ec by (by apply rank_inj; injection Er). rewrite Ec, Es in *.
    pose proof (idle_ok _ _ _ _ _ _ _ cycle_start_idle Hl Hn) as Hid. rewrite !satisfied_app in Hid. destruct Hid as (I1 & I2 & I3 & I4).
    unfold AirPermutation.enforce_permutation_constraints. rewrite !satisfied_app. split_and!; [by apply satisfied_first..| |by apply satisfied_first].
    apply when_ok, HashTable.zero_ok. rewrite (not_cycle_end_value len t' supplied_with) by lia.
    apply Nat.Div0.mod_divides in Hm as [q Hq]. replace i with (15 + (q - 1) * 16) by lia. rewrite Nat.Div0.mod_add. reflexivity.
Qed.

(** The last row, which is followed by the first *)
Lemma last_ok i : S i = len -> satisfied (i =? 0) true (t' i) (t' 0) (build_chiplet_selectors ++ AirChiplets.enforce_main).
Proof using P H Hwf Hne Hlen Hcell Hsup.
  intros Hi. destruct starts as (? & [? ?] & [? ?] & ?). destruct hasher_layout as (_ & _ & _ & Hc0 & Eb & ? & _).
  rewrite (proj2 (Nat.eqb_neq i 0)) by lia. apply (idle_ok false true final_knowledge (region_knowledge RController)); [apply last_row_idle| |].
  - assert (region_at i = RPadding) as Er.
    { unfold region_at. by rewrite (proj2 (Nat.ltb_ge i ctrl_len)), (proj2 (Nat.ltb_ge i (bitwise_offset c))), (proj2 (Nat.ltb_ge i (memory_offset c))),
        (proj2 (Nat.ltb_ge i (ace_offset c))), (proj2 (Nat.ltb_ge i (kernel_rom_offset c))), (proj2 (Nat.ltb_ge i (padding_offset c))) by lia. }
    pose proof (region_eq i RPadding Er ltac:(lia)) as Hl. intros col b Hk. destruct col; try exact (Hl _ b Hk). injection Hk as <-. by apply (proj1 Hsup i ltac:(lia)).
  - apply (region_eq 0 RController); [|lia]. unfold region_at. by rewrite (proj2 (Nat.ltb_lt 0 ctrl_len)).
Qed.
End Cells.

(** The stacked trace, in the columns of any trace *)
Lemma into_trace_ok : (Z.of_nat (trace_len c) <= 2 ^ 32)%Z -> exists flat, into_trace c len = Ok flat /\ length flat = len * CHIPLETS_WIDTH /\
  forall t, supplied len t -> trace_ok len (with_chiplets t flat) (build_chiplet_selectors ++ AirChiplets.enforce_main).
Proof using P H Hwf Hne Hlen.
  intros Hrows. destruct (fill_trace_ok Hrows) as (mrows & gen & Em & Eg & Ef). unfold into_trace. rewrite (proj2 (Nat.leb_le _ _) Hlen), Ef. cbn [mbind outcome_bind].
  eexists. split; [reflexivity|]. set (flat := seq 0 len ≫= _).
  assert (forall i col, i < len -> col < CHIPLETS_WIDTH -> cell flat i col = filled mrows gen col i) as Hcell by (intros; by apply cell_value).
  assert (forall i r, AceTable.ace_rows (AceTable.evaluations (ace c)) !! i = Some r -> forall j, j < 16 -> gen j i = nth j r ZERO) as Hg.
  { destruct (AceTable.ace_fill_ok (ace c) (cw_ace c Hwf)) as (gen' & Eg' & Hg). rewrite Eg in Eg'. by injection Eg' as <-. }
  split.
  - unfold flat. rewrite (length_rows _ CHIPLETS_WIDTH), length_seq; [done|]. intros k. by rewrite length_fmap, length_seq.
  - intros t Hsup i Hi. destruct (decide (S i = len)) as [E|E].
    + rewrite E, Nat.Div0.mod_same, Nat.eqb_refl. by apply (last_ok mrows gen).
    + rewrite (proj2 (Nat.eqb_neq (S i) len)), Nat.mod_small by lia. unfold AirChiplets.enforce_main. rewrite !satisfied_app.
      split_and!; [apply (selectors_ok mrows gen)|apply (permutation_ok mrows gen)|apply (controller_ok mrows gen)|apply (bitwise_ok mrows gen)|
        apply (memory_ok mrows gen)|apply (ace_ok mrows gen)|apply (rom_ok mrows gen)]; done || lia.
Qed.
End Layout.

(** ** The replay keeps the tables well-formed *)
Lemma for_each_keeps {X} (I : Chiplets -> Prop) (l : list X) (body : Chiplets -> X -> result Chiplets) (c c' : Chiplets) : (forall c x c', x ∈ l -> I c -> body c x = Ok c' -> I c') ->
  I c -> for_each l body c = Ok c' -> I c'.
Proof.
  revert c. induction l as [|x l IH]; intros c Hb Hc Hf; [by injection Hf as <-|]. cbn [for_each] in Hf. apply bind_Ok_inv in Hf as (c1 & H1 & Hf).
  apply (IH c1); [intros c2 y c3 Hy; apply Hb; by right|by apply (Hb c x c1); [left|..]|done].
Qed.
Lemma for_each_no_panic {X} (I : Chiplets -> Prop) (l : list X) (body : Chiplets -> X -> result Chiplets) (c : Chiplets) :
  (forall c x, x ∈ l -> I c -> no_panic (body c x) /\ forall c', body c x = Ok c' -> I c') -> I c -> no_panic (for_each l body c).
Proof.
  revert c. induction l as [|x l IH]; intros c Hb Hc; [done|]. cbn [for_each]. destruct (Hb c x ltac:(by left) Hc) as [Hn Hi].
  apply no_panic_bind; [done|]. intros c1 H1. apply IH; [|by apply Hi]. intros c2 y Hy. apply Hb. by right.
Qed.
Lemma check_no_panic max c : no_panic (check_chiplets_trace_len max c).
Proof. unfold check_chiplets_trace_len. by destruct (max <? trace_len c). Qed.
Lemma check_Ok max c c' : check_chiplets_trace_len max c = Ok c' -> c' = c /\ trace_len c <= max.
Proof. unfold check_chiplets_trace_len. destruct (Nat.ltb_spec max (trace_len c)); [done|]. by intros [= <-]. Qed.

(** What the types of the requests promise: arrays of twelve and of eight elements, [u32] clocks and contexts in the order of the execution,
    and circuits that were evaluated *)
Definition hasher_op_wf (op : HasherOp) : Prop :=
  match op with
  | Permute input_state => length input_state = 12
  | HashBasicBlock forest _ _ => forall batches, Some batches ∈ forest -> Forall (fun b => length (groups b) = 8) batches
  | _ => True
  end.
(** The assertions of the hasher: blocks have batches, and Merkle paths have nodes and an index below the number of leaves. *)
Definition hasher_op_accepted (op : HasherOp) : Prop :=
  match op with
  | HashBasicBlock forest _ _ => forall batches, Some batches ∈ forest -> batches <> []
  | BuildMerkleRoot _ path index | UpdateMerkleRoot _ _ path index => path <> [] /\ (⟦index⟧ < 2 ^ Z.of_nat (length path))%Z
  | _ => True
  end.
Definition access_in_range (a : MemoryTable.MemoryAccess) : Prop := (0 <= MemoryTable.clk_of a < 2 ^ 32)%Z /\ (0 <= MemoryTable.ctx_of a < 2 ^ 32)%Z.
Definition access_streams (r : Replay) : list (list MemoryTable.MemoryAccess) := [elements_written r; words_written r; elements_read r; words_read r].
Record replay_wf (r : Replay) : Prop := mkReplayWf {
  rw_hasher : Forall hasher_op_wf (hasher_for_chiplet r);
  rw_sorted : Forall clk_sorted (access_streams r);
  rw_range : Forall access_in_range (concat (access_streams r));
  rw_ace : Forall (fun x => exists ctx ptr num_read num_eval mem, eval_circuit_impl ctx ptr x.1 num_read num_eval mem = Ok x.2) (ace_replay r);
}.

Lemma length_le_trace_len h : length (HashTable.h_trace h) <= HashTable.hasher_trace_len h.
Proof.
  unfold HashTable.hasher_trace_len, HashTable.estimate_trace_len, HashTable.region_lengths. destruct (HashTable.finalized h); [done|].
  destruct (HashRequests.pad_length (length (HashTable.h_trace h))) as (k & E & _). unfold HashTable.HASH_CYCLE_LEN. rewrite E. lia.
Qed.
Lemma hasher_step_hinv h op h' : HashRequests.hinv h -> hasher_op_wf op -> hasher_step h op = Ok h' -> HashRequests.row_bound h' ->
  HashRequests.hinv h' /\ HashTable.h_trace h' <> [].
Proof.
  intros Hinv Hop Hs Hb. destruct op as [st|h1 h2 d e|forest id e|v path i|o n path i]; cbn [hasher_step hasher_op_wf] in *.
  - destruct (HashTable.permute h st) as [[a p] hp] eqn:E. injection Hs as <-. by apply (HashRequests.permute_hinv h st a p).
  - destruct (HashTable.hash_control_block h h1 h2 d e) as [[[a p] hp]| |] eqn:E; try done. injection Hs as <-. by apply (HashRequests.hash_control_block_hinv h h1 h2 d e a p).
  - destruct (forest !! id) as [[bs|]|] eqn:Ef; try done. destruct (HashTable.hash_basic_block h bs e) as [[[a p] hp]| |] eqn:E; try done. injection Hs as <-.
    apply (HashRequests.hash_basic_block_hinv h bs e a p); [done| |done|done]. apply Hop. by eapply list_elem_of_lookup_2.
  - destruct (HashTable.build_merkle_root h v path i) as [[[a p] hp]| |] eqn:E; try done. injection Hs as <-.
    destruct (HashRequests.build_merkle_root_hinv h v path i a p hp Hinv E) as (? & ? & _). done.
  - destruct (HashTable.update_merkle_root h o n path i) as [[[[a p] p'] hp]| |] eqn:E; try done. injection Hs as <-.
    destruct (HashRequests.update_merkle_root_hinv h o n path i a p p' hp Hinv E) as (? & ? & _). done.
Qed.
Lemma hasher_step_no_panic h op : HashRequests.hinv h -> hasher_op_accepted op -> no_panic (hasher_step h op).
Proof.
  intros Hinv Hop. assert (forall A B (f : A -> B) (o : result A), no_panic o -> no_panic (f <$> o)) as Hmap by (intros A B' f [| |]; done).
  destruct op as [st|h1 h2 d e|forest id e|v path i|o n path i]; cbn [hasher_step hasher_op_accepted] in *; [done| | |destruct Hop..].
  - by apply Hmap, HashRequests.hash_control_block_no_panic.
  - destruct (forest !! id) as [[bs|]|] eqn:Ef; [|done..]. apply Hmap, HashRequests.hash_basic_block_no_panic; [done|]. apply Hop. by eapply list_elem_of_lookup_2.
  - by apply Hmap, HashRequests.build_request_no_panic.
  - by apply Hmap, HashRequests.update_request_no_panic.
Qed.
Lemma bitwise_step_no_panic bw op : no_panic (bitwise_step bw op).
Proof.
  assert (forall x : felt, no_panic (Bitwise.assert_u32 x)) as Ha by (intros x; unfold Bitwise.assert_u32; by destruct (_ <? _)%Z).
  destruct op as [[[|] a] b]; cbn [bitwise_step]; [unfold Bitwise.u32and|unfold Bitwise.u32xor];
    (destruct (Bitwise.assert_u32 a) eqn:Ea; [|done|by destruct (Ha a)]); (destruct (Bitwise.assert_u32 b) eqn:Eb; [|done|by destruct (Ha b)]);
    cbn [mbind outcome_bind]; by destruct (foldl _ _ _).
Qed.
Lemma evaluations_wf (a : AceTable.Ace) : Forall AceTable.evaluation_wf (AceTable.evaluations a) <-> forall k e, a !! k = Some e -> AceTable.evaluation_wf e.
Proof.
  unfold AceTable.evaluations. rewrite Forall_fmap, Forall_forall. split.
  - intros Hf k e Hk. apply (Hf (k, e)). by apply btree_entries_elem.
  - intros Hf [k e] Hk. apply (Hf k e). by apply btree_entries_elem in Hk.
Qed.
Lemma chiplets_new_wf kernel : NoDup kernel -> chiplets_wf (chiplets_new kernel).
Proof.
  intros Hk. split; cbn.
  - apply HashRequests.hinv_default.
  - by exists [].
  - exists 0%Z. split; try done.
  - apply evaluations_wf. by intros.
  - by apply KernelRom.kernel_rom_new_wf.
Qed.

Section Replay.
Variable max : nat.
Hypothesis Hmax : (Z.of_nat max + 1 < modulus)%Z.

(** One request that is answered within the limit *)
Lemma hasher_body_wf c op c' : hasher_op_wf op -> chiplets_wf c -> (h ← hasher_step (hasher c) op; check_chiplets_trace_len max (with_hasher c h)) = Ok c' ->
  chiplets_wf c' /\ HashTable.h_trace (hasher c') <> [].
Proof using Hmax H P.
  intros Hop Hw Hs. apply bind_Ok_inv in Hs as (h & Hh & Hs). apply check_Ok in Hs as [-> Hlen].
  assert (HashRequests.row_bound h) as Hb.
  { pose proof (length_le_trace_len h). unfold trace_len in Hlen. cbn [hasher with_hasher] in Hlen. unfold HashRequests.row_bound. lia. }
  destruct (hasher_step_hinv _ _ _ (cw_hasher c Hw) Hop Hh Hb) as [Hi Hn]. split; [|done]. destruct Hw as [? ? ? ? ?]. by split.
Qed.
Lemma hasher_ops_wf ops c c' : Forall hasher_op_wf ops -> ops <> [] -> chiplets_wf c ->
  for_each ops (fun c op => h ← hasher_step (hasher c) op; check_chiplets_trace_len max (with_hasher c h)) c = Ok c' ->
  chiplets_wf c' /\ HashTable.h_trace (hasher c') <> [].
Proof using Hmax H P.
  intros Hops Hne Hwf. rewrite Forall_forall in Hops. destruct ops as [|op ops]; [done|]. cbn [for_each]. intros Hf. apply bind_Ok_inv in Hf as (c1 & H1 & Hf).
  refine (for_each_keeps (fun c => chiplets_wf c /\ HashTable.h_trace (hasher c) <> []) ops _ c1 c' _ _ Hf);
    [|by apply (hasher_body_wf c op); [apply Hops; left|..]].
  intros c2 x c3 Hx [Hw _]. apply hasher_body_wf; [|done]. apply Hops. by right.
Qed.
Lemma hasher_ops_no_panic ops c : Forall hasher_op_wf ops -> Forall hasher_op_accepted ops -> chiplets_wf c ->
  no_panic (for_each ops (fun c op => h ← hasher_step (hasher c) op; check_chiplets_trace_len max (with_hasher c h)) c).
Proof using Hmax H P.
  rewrite !Forall_forall. intros Hops Hacc. apply for_each_no_panic. intros c0 op Hop Hw. split.
  - apply no_panic_bind; [apply hasher_step_no_panic; [apply Hw|by apply Hacc]|]. intros h _. apply check_no_panic.
  - intros c1 H1. apply (hasher_body_wf c0 op); [by apply Hops|done..].
Qed.

Lemma bitwise_ops_wf ops c c' : chiplets_wf c -> for_each ops (fun c op => bw ← bitwise_step (bitwise c) op; check_chiplets_trace_len max (with_bitwise c bw)) c = Ok c' ->
  chiplets_wf c' /\ hasher c' = hasher c.
Proof.
  intros Hwf. apply (for_each_keeps (fun x => chiplets_wf x /\ hasher x = hasher c)); [|done]. intros c0 [[op a] b] c1 _ [Hw Eh] Hs.
  apply bind_Ok_inv in Hs as (bw & Hb & Hs). apply check_Ok in Hs as [-> _]. split; [|done]. destruct Hw as [? Hbw ? ? ?]. split; try done.
  cbn [bitwise with_bitwise]. destruct op; cbn [bitwise_step] in Hb.
  - destruct (Bitwise.u32and (bitwise c0) a b) as [[v bw']| |] eqn:E; try done. injection Hb as <-. by apply (Bitwise.u32_op_wf false _ a b v _ Hbw).
  - destruct (Bitwise.u32xor (bitwise c0) a b) as [[v bw']| |] eqn:E; try done. injection Hb as <-. by apply (Bitwise.u32_op_wf true _ a b v _ Hbw).
Qed.
(** The accesses come in the order of their clocks. *)
Lemma memory_ops_wf ops c c' k : clk_sorted ops -> Forall access_in_range ops -> chiplets_wf c -> MemoryTable.memory_wf k (memory c) ->
  (forall a, head ops = Some a -> k <= MemoryTable.clk_of a)%Z ->
  for_each ops (fun c mem_access => m ← MemoryTable.memory_step (memory c) mem_access; check_chiplets_trace_len max (with_memory c m)) c = Ok c' ->
  chiplets_wf c' /\ hasher c' = hasher c.
Proof.
  revert c k. induction ops as [|a ops IH]; intros c k Hs Hr Hwf Hm Hh Hf; [by injection Hf as <-|]. cbn [for_each] in Hf. apply bind_Ok_inv in Hf as (c1 & H1 & Hf).
  apply bind_Ok_inv in H1 as (m & Hst & H1). apply check_Ok in H1 as [-> _]. apply Forall_cons in Hr as [[Hclk Hctx] Hr]. specialize (Hh a eq_refl).
  pose proof (MemoryTable.memory_step_wf _ _ Hm a m ltac:(lia) ltac:(lia) Hctx Hst) as Hm'.
  apply (IH (with_memory c m) (MemoryTable.clk_of a)); [by apply (chain_drop _ _ 1) in Hs|done| |done| |done].
  - destruct Hwf as [? ? ? ? ?]. split; try done. by eexists.
  - intros b Hb. apply (Hs 0 a b); [done|]. change (ops !! 0 = Some b). by rewrite <-head_lookup.
Qed.
Lemma memory_ops_no_panic ops c k : clk_sorted ops -> Forall access_in_range ops -> MemoryTable.memory_wf k (memory c) ->
  (forall a, head ops = Some a -> k <= MemoryTable.clk_of a)%Z ->
  no_panic (for_each ops (fun c mem_access => m ← MemoryTable.memory_step (memory c) mem_access; check_chiplets_trace_len max (with_memory c m)) c).
Proof.
  revert c k. induction ops as [|a ops IH]; intros c k Hs Hr Hm Hh; [done|]. cbn [for_each]. apply no_panic_bind.
  - apply no_panic_bind; [by apply (MemoryTable.memory_step_no_panic _ k)|]. intros m _. apply check_no_panic.
  - intros c1 H1. apply bind_Ok_inv in H1 as (m & Hst & H1). apply check_Ok in H1 as [-> _]. apply Forall_cons in Hr as [[Hclk Hctx] Hr]. specialize (Hh a eq_refl).
    pose proof (MemoryTable.memory_step_wf _ _ Hm a m ltac:(lia) ltac:(lia) Hctx Hst) as Hm'.
    apply (IH (with_memory c m) (MemoryTable.clk_of a)); [by apply (chain_drop _ _ 1) in Hs|done|done|].
    intros b Hb. apply (Hs 0 a b); [done|]. change (ops !! 0 = Some b). by rewrite <-head_lookup.
Qed.
Lemma ace_ops_wf ops c c' : Forall (fun x => AceTable.evaluation_wf x.2) ops -> chiplets_wf c ->
  for_each ops (fun c '(clk, circuit_eval) => check_chiplets_trace_len max (with_ace c (AceTable.add_circuit_evaluation (ace c) clk circuit_eval))) c = Ok c' ->
  chiplets_wf c' /\ hasher c' = hasher c.
Proof.
  intros Hops Hwf. apply (for_each_keeps (fun x => chiplets_wf x /\ hasher x = hasher c)); [|done]. intros c0 [clk e] c1 Hx [Hw Eh] Hs. apply check_Ok in Hs as [-> _].
  split; [|done]. destruct Hw as [? ? ? Ha ?]. split; try done. cbn [ace with_ace]. rewrite evaluations_wf in Ha |- *. intros k e' Hl.
  apply (lookup_insert_Some (ace c0 : gmap Z CircuitEvaluation)) in Hl as [[_ <-]|[_ Hl]]; [exact (proj1 (Forall_forall _ _) Hops _ Hx)|by apply (Ha k)].
Qed.
Lemma kernel_ops_wf ops c c' : chiplets_wf c ->
  for_each ops (fun c proc_hash => rom ← KernelRom.access_proc (kernel_rom c) proc_hash; check_chiplets_trace_len max (with_kernel_rom c rom)) c = Ok c' ->
  chiplets_wf c' /\ hasher c' = hasher c.
Proof.
  intros Hwf. apply (for_each_keeps (fun x => chiplets_wf x /\ hasher x = hasher c)); [|done]. intros c0 root c1 _ [Hw Eh] Hs.
  apply bind_Ok_inv in Hs as (rom & Hr & Hs). apply check_Ok in Hs as [-> _]. split; [|done]. destruct Hw as [? ? ? ? Hrom]. split; try done.
  by apply (KernelRom.access_proc_wf _ root _ Hrom).
Qed.
(** The memory is not touched before its phase. *)
Lemma memory_untouched kernel r c1 c2 :
  for_each (hasher_for_chiplet r) (fun c op => h ← hasher_step (hasher c) op; check_chiplets_trace_len max (with_hasher c h)) (chiplets_new kernel) = Ok c1 ->
  for_each (bitwise_replay r) (fun c op => bw ← bitwise_step (bitwise c) op; check_chiplets_trace_len max (with_bitwise c bw)) c1 = Ok c2 ->
  MemoryTable.memory_wf 0 (memory c2).
Proof.
  intros H1 H2. assert (memory c2 = MemoryTable.memory_default) as ->; [|by split].
  transitivity (memory c1); [refine (for_each_keeps (fun x => memory x = memory c1) _ _ _ _ _ eq_refl H2)|
    refine (for_each_keeps (fun x => memory x = MemoryTable.memory_default) _ _ (chiplets_new kernel) _ _ eq_refl H1)]; intros c5 x c6 _ E Hb;
    apply bind_Ok_inv in Hb as (? & _ & Hb); by apply check_Ok in Hb as [-> _].
Qed.
(** The accesses, merged *)
Lemma merged_accesses r : replay_wf r -> let ops := kmerge_by_clk (access_streams r) in
  clk_sorted ops /\ Forall access_in_range ops /\ (forall a, head ops = Some a -> 0 <= MemoryTable.clk_of a)%Z.
Proof.
  intros [_ Hs Hr _] ops. assert (Forall access_in_range ops) as Hr' by (unfold ops; by rewrite kmerge_perm). split_and!; [by apply kmerge_sorted|done|].
  intros a Hx. apply head_Some_elem_of in Hx. rewrite Forall_forall in Hr'. apply Hr' in Hx. apply Hx.
Qed.
Lemma initialize_wf kernel r c : NoDup kernel -> replay_wf r -> hasher_for_chiplet r <> [] -> initialize_chiplets kernel r max = Ok c ->
  chiplets_wf c /\ HashTable.h_trace (hasher c) <> [].
Proof using Hmax H P.
  intros Hk Hr Hne Hi. destruct (merged_accesses r Hr) as (Hs & Hrg & Hhd). destruct Hr as [Hh _ _ Ha].
  unfold initialize_chiplets in Hi. apply bind_Ok_inv in Hi as (c1 & H1 & Hi). apply bind_Ok_inv in Hi as (c2 & H2 & Hi).
  apply bind_Ok_inv in Hi as (c3 & H3 & Hi). apply bind_Ok_inv in Hi as (c4 & H4 & Hi).
  destruct (hasher_ops_wf _ _ _ Hh Hne (chiplets_new_wf kernel Hk) H1) as [W1 N1]. destruct (bitwise_ops_wf _ _ _ W1 H2) as [W2 E2].
  destruct (memory_ops_wf _ _ _ 0%Z Hs Hrg W2 (memory_untouched _ _ _ _ H1 H2) Hhd H3) as [W3 E3].
  assert (Forall (fun x : Z * CircuitEvaluation => AceTable.evaluation_wf x.2) (ace_replay r)) as Ha'.
  { refine (Forall_impl _ _ _ Ha _). intros [clk e] (ctx & ptr & nr & ne & mem & E). destruct (AceTable.eval_circuit_section _ _ _ _ _ _ _ E) as (R & E' & Hw). by exists R, E', ptr. }
  destruct (ace_ops_wf _ _ _ Ha' W3 H4) as [W4 E4]. destruct (kernel_ops_wf _ _ _ W4 Hi) as [W5 E5]. split; [done|]. by rewrite E5, E4, E3, E2.
Qed.
Lemma initialize_no_panic kernel r : NoDup kernel -> replay_wf r -> Forall hasher_op_accepted (hasher_for_chiplet r) -> no_panic (initialize_chiplets kernel r max).
Proof using Hmax H P.
  intros Hk Hr Hacc. destruct (merged_accesses r Hr) as (Hs & Hrg & Hhd). unfold initialize_chiplets. cbn zeta.
  apply no_panic_bind; [apply hasher_ops_no_panic; [apply Hr|done|by apply chiplets_new_wf]|]. intros c1 H1.
  apply no_panic_bind; [apply no_panic_for_each; intros; apply no_panic_bind; [apply bitwise_step_no_panic|intros; apply check_no_panic]|]. intros c2 H2.
  apply no_panic_bind; [exact (memory_ops_no_panic _ _ 0%Z Hs Hrg (memory_untouched _ _ _ _ H1 H2) Hhd)|]. intros c3 _.
  apply no_panic_bind; [apply no_panic_for_each; intros s [clk e]; apply check_no_panic|]. intros c4 _.
  apply no_panic_for_each. intros s x. apply no_panic_bind; [unfold KernelRom.access_proc; by destruct (KernelRom.access_map _ !! _)|intros; apply check_no_panic].
Qed.
(** The length of the trace stays within the limit. *)
Ltac check_bound := intros c0 x c' Hb; first [apply bind_Ok_inv in Hb as (? & _ & Hb)|destruct x as [? ?]]; by apply check_Ok in Hb as [-> ?].
Lemma for_each_last_check {X} (l : list X) (body : Chiplets -> X -> result Chiplets) c c' : (forall c x c', body c x = Ok c' -> trace_len c' <= max) ->
  trace_len c <= max \/ l <> [] -> for_each l body c = Ok c' -> trace_len c' <= max.
Proof.
  intros Hb. revert c. induction l as [|x l IH]; intros c [Hc|Hc] Hf; [by injection Hf as <-|done|..]; cbn [for_each] in Hf; apply bind_Ok_inv in Hf as (c1 & H1 & Hf);
    (apply (IH c1); [left; by apply (Hb c x)|done]).
Qed.
Lemma initialize_length kernel r c : hasher_for_chiplet r <> [] -> initialize_chiplets kernel r max = Ok c -> trace_len c <= max.
Proof.
  intros Hne Hi. unfold initialize_chiplets in Hi. apply bind_Ok_inv in Hi as (c1 & H1 & Hi). apply bind_Ok_inv in Hi as (c2 & H2 & Hi).
  apply bind_Ok_inv in Hi as (c3 & H3 & Hi). apply bind_Ok_inv in Hi as (c4 & H4 & Hi).
  assert (trace_len c1 <= max) as L1 by (refine (for_each_last_check _ _ _ _ _ (or_intror Hne) H1); check_bound).
  assert (trace_len c2 <= max) as L2 by (refine (for_each_last_check _ _ _ _ _ (or_introl L1) H2); check_bound).
  assert (trace_len c3 <= max) as L3 by (refine (for_each_last_check _ _ _ _ _ (or_introl L2) H3); check_bound).
  assert (trace_len c4 <= max) as L4 by (refine (for_each_last_check _ _ _ _ _ (or_introl L3) H4); check_bound).
  refine (for_each_last_check _ _ _ _ _ (or_introl L4) Hi); check_bound.
Qed.
End Replay.
End Chiplets.
End ChipletsTrace.
