(* ===== verification/Assembly.v ===== *)
(** * Instruction lowering of the assembler

    [crates/assembly/src/instruction/]: every Miden assembly instruction of the field,
    extension-field, 32-bit and stack-manipulation groups is compiled to a
    sequence of VM operations.  The functions of the source append to a
    [BasicBlockBuilder]; here they return the appended operations, composed with
    [++] in the order of the source.  Constants [Felt::from_u8(c)] and
    [Felt::from_u32(c)] are written [fe c], their canonical value.

    An instruction whose immediate is rejected at assembly time returns [None]. *)

From S2P Require Import Prelude Field Types Events Operations OperandStack Processor OpSpecs.
Import Op.
#[local] Open Scope Z_scope.

Definition MAX_U32_SHIFT_VALUE : Z := 31.
Definition MAX_U32_ROTATE_VALUE : Z := 31.
Definition MAX_EXP_BITS : Z := 64.

Section Common.
Context {F : Felt}.

(** [push_value_ops] of [lib.rs], through [push_felt] *)
Definition push_value_ops (value : felt) : list Operation :=
  if bool_decide (value = ZERO) then [Pad]
  else if bool_decide (value = ONE) then [Pad; Incr]
  else [Push value].

(** [push_u32_value] of [instruction/mod.rs] *)
Definition push_u32_value (value : Z) : list Operation :=
  if value =? 0 then [Pad] else if value =? 1 then [Pad; Incr] else [Push (fe value)].

(** [BasicBlockBuilder::push_system_event] *)
Definition push_system_event (ev : SystemEvent) : list Operation := [Push (fe (event_id ev)); Emit; Drop].

(** [env_ops.rs] *)
Definition push_many (imms : list felt) : list Operation := flat_map push_value_ops imms.
Definition push_word (word : Word) : list Operation :=
  flat_map push_value_ops (reverse (word_elements word)).
End Common.

(** ** [field_ops.rs] *)
Module FieldOps.
Section FieldOps.
Context {F : Felt}.

Definition TWO : felt := fe 2.

Definition assertw (err_code : felt) : list Operation :=
  [MovUp4; Eq; Assert err_code; MovUp3; Eq; Assert err_code; MovUp2; Eq; Assert err_code;
   Eq; Assert err_code].

Definition add_imm (imm : felt) : list Operation :=
  if bool_decide (imm = ZERO) then [Noop]
  else if bool_decide (imm = ONE) then [Incr]
  else if bool_decide (imm = TWO) then [Incr; Incr]
  else [Push imm; Add].

Definition sub_imm (imm : felt) : list Operation :=
  if bool_decide (imm = ZERO) then [Noop] else [Push (- imm)%F; Add].

Definition mul_imm (imm : felt) : list Operation :=
  if bool_decide (imm = ZERO) then [Drop; Pad]
  else if bool_decide (imm = ONE) then [Noop]
  else [Push imm; Mul].

Definition div_imm (imm : felt) : option (list Operation) :=
  if bool_decide (imm = ZERO) then None
  else if bool_decide (imm = ONE) then Some [Noop]
  else Some [Push (inverse imm); Mul].

Definition append_pow2_op : list Operation :=
  [Push (fe 2)] ++ [Pad; Incr] ++ [Swap; Pad] ++
  [Expacc; Expacc; Expacc; Expacc; Expacc; Expacc] ++ [Drop; Drop] ++ [Swap; Eqz; Assert ZERO].

Definition pow2 : list Operation := append_pow2_op.

Definition exp (num_pow_bits : Z) : option (list Operation) :=
  if MAX_EXP_BITS <? num_pow_bits then None
  else Some ([Pad; Incr; MovUp2; Pad] ++ replicate (Z.to_nat num_pow_bits) Expacc ++
             [Drop; Drop] ++ [Swap; Eqz; Assert ZERO]).

Definition perform_exp_for_small_power (pow : Z) : option (list Operation) :=
  match pow with
  | 0 => Some [Drop; Pad; Incr]
  | 1 => Some [Noop]
  | 2 => Some [Dup0; Mul]
  | 3 => Some (replicate 2 Dup0 ++ replicate 2 Mul)
  | 4 => Some (replicate 3 Dup0 ++ replicate 3 Mul)
  | 5 => Some (replicate 4 Dup0 ++ replicate 4 Mul)
  | 6 => Some (replicate 5 Dup0 ++ replicate 5 Mul)
  | 7 => Some (replicate 6 Dup0 ++ replicate 6 Mul)
  | _ => None
  end.

(** [64 - leading_zeros] is the bit length. *)
Definition exp_imm (pow : felt) : option (list Operation) :=
  if ⟦pow⟧ <=? 7 then perform_exp_for_small_power ⟦pow⟧
  else
    let num_pow_bits := Z.log2 ⟦pow⟧ + 1 in
    ops ← exp num_pow_bits;
    Some ([Push pow] ++ ops).

Definition eq_imm (imm : felt) : list Operation :=
  if bool_decide (imm = ZERO) then [Eqz] else [Push imm; Eq].

Definition neq_imm (imm : felt) : list Operation :=
  if bool_decide (imm = ZERO) then [Eqz; Not] else [Push imm; Eq; Not].

Definition eqw : list Operation :=
  [Dup7; Dup4; Eq; Dup7; Dup4; Eq; And; Dup6; Dup3; Eq; And; Dup5; Dup2; Eq; And].

Definition split_elements : list Operation := [Swap; U32split; MovUp2; U32split].
Definition check_lt_and_eq : list Operation := [U32sub] ++ [Swap; Eqz].
Definition check_lt_high_bits : list Operation :=
  [MovUp3; MovUp2] ++ check_lt_and_eq ++ [MovUp2; MovUp3; Swap].
Definition check_lt : list Operation := [U32sub] ++ [Swap; Drop].
Definition set_result : list Operation := [And; Or].
Definition check_lte : list Operation := [U32sub] ++ [Swap; Eqz] ++ [Or].
Definition check_gt_high_bits : list Operation :=
  [Swap; MovUp3] ++ check_lt_and_eq ++ [MovUp2; MovUp3].

Definition lt : list Operation := split_elements ++ check_lt_high_bits ++ check_lt ++ set_result.
Definition lte : list Operation := split_elements ++ check_lt_high_bits ++ check_lte ++ set_result.
Definition gt : list Operation := split_elements ++ check_gt_high_bits ++ check_lt ++ set_result.
Definition gte : list Operation := split_elements ++ check_gt_high_bits ++ check_lte ++ set_result.

Definition is_odd : list Operation := [U32split; Swap; Drop; Pad; Incr; U32and].

(** [ilog2] without the event that provides the advice: what checks it. *)
Definition verify_ilog2 : list Operation :=
  [Dup0] ++ append_pow2_op ++ [MovUp2; Dup1; Dup1; Swap] ++ gte ++ [Assert ZERO; MovDn2] ++
  [MovUp2; Swap; Push (fe 2); Mul] ++ lt ++ [Dup1; Push (fe 63); Eq; Or; Assert ZERO].
Definition ilog2 : list Operation := push_system_event ILog2 ++ [AdvPop] ++ verify_ilog2.
End FieldOps.
End FieldOps.

(** ** [ext2_ops.rs] *)
Module Ext2Ops.
Section Ext2Ops.
Context {F : Felt}.

Definition ext2_add : list Operation := [Swap; MovUp3; Add; MovDn2; Add].
Definition ext2_sub : list Operation := [Neg; Swap; Neg; MovUp3; Add; MovDn2; Add].
Definition ext2_mul : list Operation := [Ext2Mul; Drop; Drop].
Definition ext2_neg : list Operation := [Neg; Swap; Neg; Swap].

(** What follows the event of [ext2_div] and [ext2_inv]. *)
Definition verify_ext2_inv : list Operation :=
  [AdvPop; AdvPop; Ext2Mul; MovUp3; Eqz; Assert ZERO; MovUp2; Assert ZERO].
Definition ext2_div : list Operation :=
  push_system_event Ext2Inv ++ verify_ext2_inv ++ [Ext2Mul; Drop; Drop].
Definition ext2_inv : list Operation := push_system_event Ext2Inv ++ verify_ext2_inv.
End Ext2Ops.
End Ext2Ops.

(** ** [u32_ops.rs] *)
Module U32Ops.
Section U32Ops.
Context {F : Felt}.
Import FieldOps.

Inductive U32OpMode := Wrapping | Overflowing.

Definition push_imm (imm : option Z) : list Operation :=
  match imm with Some imm => push_u32_value imm | None => [] end.

Definition u32testw : list Operation :=
  [Dup3; U32split; Drop; Eqz;
   Dup3; U32split; Drop; Eqz; And;
   Dup2; U32split; Drop; Eqz; And;
   Dup1; U32split; Drop; Eqz; And].

Definition u32assertw (err_code : felt) : list Operation :=
  [U32assert2 err_code; MovUp3; MovUp3; U32assert2 err_code; MovUp3; MovUp3].

Definition u32widening_add (imm : option Z) : list Operation := push_imm imm ++ [U32add].

Definition u32add (op_mode : U32OpMode) (imm : option Z) : list Operation :=
  u32widening_add imm ++
  match op_mode with
  | Overflowing => [Swap]
  | Wrapping => [Swap; Drop]
  end.

Definition u32overflowing_add (imm : option Z) : list Operation := u32widening_add imm ++ [Swap].
Definition u32widening_add3 : list Operation := [U32add3].
Definition u32overflowing_add3 : list Operation := [U32add3; Swap].
Definition u32wrapping_add3 : list Operation := [U32add3; Swap; Drop].

Definition is_mul_or_add (op : Operation) : bool :=
  match op with U32mul | U32add => true | _ => false end.

Definition handle_arithmetic_operation (op : Operation) (op_mode : U32OpMode) (imm : option Z) :
    list Operation :=
  push_imm imm ++ [op] ++
  match op_mode with
  | Wrapping => if is_mul_or_add op then [Swap; Drop] else [Drop]
  | Overflowing => []
  end.

Definition u32sub (op_mode : U32OpMode) (imm : option Z) : list Operation :=
  handle_arithmetic_operation U32sub op_mode imm.
Definition u32mul (op_mode : U32OpMode) (imm : option Z) : list Operation :=
  handle_arithmetic_operation U32mul op_mode imm.

Definition handle_division (imm : option Z) : option (list Operation) :=
  match imm with
  | Some imm => if imm =? 0 then None else Some (push_u32_value imm ++ [U32div])
  | None => Some [U32div]
  end.

Definition u32div (imm : option Z) : option (list Operation) :=
  ops ← handle_division imm; Some (ops ++ [Drop]).
Definition u32mod (imm : option Z) : option (list Operation) :=
  ops ← handle_division imm; Some (ops ++ [Swap; Drop]).
Definition u32divmod (imm : option Z) : option (list Operation) := handle_division imm.

(** [Instruction::U32Or], expanded in [instruction/mod.rs] *)
Definition u32or : list Operation := [Dup1; Dup1; U32and; Neg; Add; Add].

Definition u32not : list Operation := [Push (fe (2 ^ 32 - 1)); U32assert2 ZERO; Swap; U32sub; Drop].

Definition prepare_bitwise (MAX_VALUE : Z) (imm : option Z) : option (list Operation) :=
  match imm with
  | Some 0 => Some [Noop]
  | Some imm => if (imm =? 0) || (MAX_VALUE <? imm) then None
                else Some [Push (fe (Z.shiftl 1 imm))]
  | None => Some append_pow2_op
  end.

Definition imm_is_zero (imm : option Z) : bool := bool_decide (imm = Some 0).

Definition u32shl (imm : option Z) : option (list Operation) :=
  ops ← prepare_bitwise MAX_U32_SHIFT_VALUE imm;
  Some (ops ++ if imm_is_zero imm then [] else [U32mul; Swap; Drop]).

Definition u32shr (imm : option Z) : option (list Operation) :=
  ops ← prepare_bitwise MAX_U32_SHIFT_VALUE imm;
  Some (ops ++ if imm_is_zero imm then [] else [U32div; Drop]).

Definition u32rotl (imm : option Z) : option (list Operation) :=
  ops ← prepare_bitwise MAX_U32_ROTATE_VALUE imm;
  Some (ops ++ if imm_is_zero imm then [] else [U32mul; Add]).

Definition u32rotr (imm : option Z) : option (list Operation) :=
  match imm with
  | Some 0 => Some [Noop]
  | Some imm => if (imm =? 0) || (MAX_U32_ROTATE_VALUE <? imm) then None
                else Some ([Push (fe (Z.shiftl 1 (32 - imm)))] ++ [U32mul; Add])
  | None => Some ([Push (fe 32); Swap; U32sub; Drop] ++ append_pow2_op ++ [Mul; U32split; Add])
  end.

Definition u32popcnt : list Operation :=
  [Dup0; Push (fe (Z.shiftl 1 1)); U32div; Drop; Push (fe 0x55555555); U32and; U32sub; Drop;
   Dup0; Push (fe (Z.shiftl 1 2)); U32div; Drop; Push (fe 0x33333333); U32and;
   Swap; Push (fe 0x33333333); U32and; U32add; Swap; Drop;
   Dup0; Push (fe (Z.shiftl 1 4)); U32div; Drop; U32add; Swap; Drop; Push (fe 0x0F0F0F0F); U32and;
   Push (fe 0x01010101); U32mul; Swap; Drop; Push (fe (Z.shiftl 1 24)); U32div; Drop].

Definition verify_clz : list Operation :=
  [Push (fe 32); Dup1; Neg; Add] ++ append_pow2_op ++
  [Push (fe 1); Neg; Add;
   Push (fe 2); U32div; Drop;
   Dup0; Incr;
   Push (fe (2 ^ 32 - 1)); MovUp2; Neg; Add;
   Dup3; Eqz; MovDn3; MovUp4; U32and;
   Dup2; Push (fe 32); Eq; MovUp4; Dup1; Eq; Assert ZERO;
   MovDn2; Eq; Or; Assert ZERO].

Definition verify_clo : list Operation :=
  [Push (fe 32); Dup1; Neg; Add] ++ append_pow2_op ++
  [Push (fe 1); Neg; Add;
   Dup0; Push (fe 2); U32div; Drop;
   Push (fe (2 ^ 32 - 1)); Swap; Neg; Add;
   MovUp3; U32and;
   Push (fe (2 ^ 32 - 1)); MovUp2; Neg; Add;
   Eq; Assert ZERO].

Definition verify_ctz : list Operation :=
  [Swap; Dup1] ++ append_pow2_op ++
  [Dup0; Pad; Incr; Neg; Add; Swap; U32split; Swap; Drop; Dup0; MovUp2; Add; MovUp2; U32and;
   Eq; Assert ZERO].

Definition verify_cto : list Operation :=
  [Swap; Dup1] ++ append_pow2_op ++
  [Dup0; Pad; Incr; Neg; Add; Swap; U32split; Swap; Drop; Dup1; Add; MovUp2; U32and;
   Eq; Assert ZERO].

Definition u32clz : list Operation := push_system_event U32Clz ++ [AdvPop] ++ verify_clz.
Definition u32ctz : list Operation := push_system_event U32Ctz ++ [AdvPop] ++ verify_ctz.
Definition u32clo : list Operation := push_system_event U32Clo ++ [AdvPop] ++ verify_clo.
Definition u32cto : list Operation := push_system_event U32Cto ++ [AdvPop] ++ verify_cto.

Definition compute_lt : list Operation := [U32sub; Swap; Drop].
Definition compute_max_and_min : list Operation :=
  [Dup1; Dup1] ++ [U32sub; Swap; Drop; Eqz; CSwap].

Definition u32lt : list Operation := compute_lt.
Definition u32lte : list Operation := [Swap] ++ compute_lt ++ [Not].
Definition u32gt : list Operation := [Swap] ++ compute_lt.
Definition u32gte : list Operation := compute_lt ++ [Not].
Definition u32min : list Operation := compute_max_and_min ++ [Drop].
Definition u32max : list Operation := compute_max_and_min ++ [Swap; Drop].
End U32Ops.
End U32Ops.

(** ** Stack manipulation: the inline cases of [compile_instruction_impl] *)
Module StackInstr.
Section StackInstr.
Context {F : Felt}.

Definition dup (n : nat) : option (list Operation) :=
  match n with
  | 0 => Some [Dup0] | 1 => Some [Dup1] | 2 => Some [Dup2] | 3 => Some [Dup3]
  | 4 => Some [Dup4] | 5 => Some [Dup5] | 6 => Some [Dup6] | 7 => Some [Dup7]
  | 8 => Some [Pad; Dup9; Add] | 9 => Some [Dup9]
  | 10 => Some [Pad; Dup11; Add] | 11 => Some [Dup11]
  | 12 => Some [Pad; Dup13; Add] | 13 => Some [Dup13]
  | 14 => Some [Pad; Dup15; Add] | 15 => Some [Dup15]
  | _ => None
  end%nat.

Definition dupw (n : nat) : option (list Operation) :=
  match n with
  | 0 => Some (replicate 4 Dup3) | 1 => Some (replicate 4 Dup7)
  | 2 => Some (replicate 4 Dup11) | 3 => Some (replicate 4 Dup15)
  | _ => None
  end%nat.

Definition swap (n : nat) : option (list Operation) :=
  match n with
  | 1 => Some [Swap]
  | 2 => Some [Swap; MovUp2]
  | 3 => Some [MovDn2; MovUp3]
  | 4 => Some [MovDn3; MovUp4]
  | 5 => Some [MovDn4; MovUp5]
  | 6 => Some [MovDn5; MovUp6]
  | 7 => Some [MovDn6; MovUp7]
  | 8 => Some [MovDn7; MovUp8]
  | 9 => Some [MovDn8; SwapDW; Swap; SwapDW; MovUp8]
  | 10 => Some [MovDn8; SwapDW; Swap; MovUp2; SwapDW; MovUp8]
  | 11 => Some [MovDn8; SwapDW; MovDn2; MovUp3; SwapDW; MovUp8]
  | 12 => Some [MovDn8; SwapDW; MovDn3; MovUp4; SwapDW; MovUp8]
  | 13 => Some [MovDn8; SwapDW; MovDn4; MovUp5; SwapDW; MovUp8]
  | 14 => Some [MovDn8; SwapDW; MovDn5; MovUp6; SwapDW; MovUp8]
  | 15 => Some [MovDn8; SwapDW; MovDn6; MovUp7; SwapDW; MovUp8]
  | _ => None
  end%nat.

Definition movup (n : nat) : option (list Operation) :=
  match n with
  | 2 => Some [MovUp2] | 3 => Some [MovUp3] | 4 => Some [MovUp4] | 5 => Some [MovUp5]
  | 6 => Some [MovUp6] | 7 => Some [MovUp7] | 8 => Some [MovUp8]
  | 9 => Some [SwapDW; Swap; SwapDW; MovUp8]
  | 10 => Some [SwapDW; MovUp2; SwapDW; MovUp8]
  | 11 => Some [SwapDW; MovUp3; SwapDW; MovUp8]
  | 12 => Some [SwapDW; MovUp4; SwapDW; MovUp8]
  | 13 => Some [SwapDW; MovUp5; SwapDW; MovUp8]
  | 14 => Some [SwapDW; MovUp6; SwapDW; MovUp8]
  | 15 => Some [SwapDW; MovUp7; SwapDW; MovUp8]
  | _ => None
  end%nat.

Definition movdn (n : nat) : option (list Operation) :=
  match n with
  | 2 => Some [MovDn2] | 3 => Some [MovDn3] | 4 => Some [MovDn4] | 5 => Some [MovDn5]
  | 6 => Some [MovDn6] | 7 => Some [MovDn7] | 8 => Some [MovDn8]
  | 9 => Some [MovDn8; SwapDW; Swap; SwapDW]
  | 10 => Some [MovDn8; SwapDW; MovDn2; SwapDW]
  | 11 => Some [MovDn8; SwapDW; MovDn3; SwapDW]
  | 12 => Some [MovDn8; SwapDW; MovDn4; SwapDW]
  | 13 => Some [MovDn8; SwapDW; MovDn5; SwapDW]
  | 14 => Some [MovDn8; SwapDW; MovDn6; SwapDW]
  | 15 => Some [MovDn8; SwapDW; MovDn7; SwapDW]
  | _ => None
  end%nat.

Definition movupw (n : nat) : option (list Operation) :=
  match n with
  | 2 => Some [SwapW; SwapW2] | 3 => Some [SwapW; SwapW2; SwapW3] | _ => None
  end%nat.

Definition movdnw (n : nat) : option (list Operation) :=
  match n with
  | 2 => Some [SwapW2; SwapW] | 3 => Some [SwapW3; SwapW2; SwapW] | _ => None
  end%nat.

Definition reversew : list Operation := [MovDn3; Swap; MovUp2].
Definition reversedw : list Operation := reversew ++ [SwapW] ++ reversew.
Definition cdrop : list Operation := [CSwap; Drop].
Definition cdropw : list Operation := [CSwapW; Drop; Drop; Drop; Drop].
End StackInstr.
End StackInstr.

(** ** Stack manipulation instructions *)
#[local] Open Scope nat_scope.
Section AsmStack.
Context {F : Felt} {Q : Quad} {C : Crypto}.

(** A stack of legal depth shows its top 16 elements. *)
Lemma stack16 (l : list felt) : 16 <= length l ->
  exists a0 a1 a2 a3 a4 a5 a6 a7 a8 a9 a10 a11 a12 a13 a14 a15 r,
    l = a0 :: a1 :: a2 :: a3 :: a4 :: a5 :: a6 :: a7 ::
        a8 :: a9 :: a10 :: a11 :: a12 :: a13 :: a14 :: a15 :: r.
Proof.
  intros Hl.
  destruct l as [|a0 [|a1 [|a2 [|a3 [|a4 [|a5 [|a6 [|a7 [|a8 [|a9 [|a10 [|a11 [|a12 [|a13
    [|a14 [|a15 r]]]]]]]]]]]]]]]]; simpl in Hl; try lia.
  repeat eexists.
Qed.

Lemma felt_add_0_l (x : felt) : (ZERO + x)%F = x.
Proof. apply felt_ring_theory. Qed.

Lemma felt_add_0_r (x : felt) : (x + ZERO)%F = x.
Proof. rewrite <-(felt_add_0_l x) at 2. apply felt_ring_theory. Qed.

(** Exchange of the elements at positions 0 and [n]. *)
Definition swap_top (n : nat) (l : list felt) : list felt :=
  match l !! 0, l !! n with
  | Some a, Some b => <[0 := b]> (<[n := a]> l)
  | _, _ => l
  end.

(** Exchange of words is the same on lists of words. *)
Definition word_at (l : list felt) (k : nat) : list felt := take 4 (drop (4 * k) l).

Ltac open_stack l :=
  let H := fresh in
  assert (16 <= length l) as H by done;
  apply stack16 in H as (a0 & a1 & a2 & a3 & a4 & a5 & a6 & a7 & a8 & a9 & a10 & a11 & a12 & a13 &
    a14 & a15 & r & ->).

(** Split a table lookup [f n = Some ops] into its entries. *)
Tactic Notation "table" ident(n) hyp(H) :=
  destruct n as [|[|[|[|[|[|[|[|[|[|[|[|[|[|[|[|?]]]]]]]]]]]]]]]];
  cbn in H; first [discriminate H | injection H as <-].

(** Pushing a zero and adding the element below it. *)
Lemma pad_dup_add op (l : list felt) x :
  16 <= length l -> runs (ZERO :: l) op (x :: ZERO :: l) -> execs l [Pad; op; Add] (x :: l).
Proof.
  intros Hl Hop. eapply execs_cons; [apply run_pad|]. eapply execs_cons; [apply Hop|].
  eapply execs_cons; [apply run_add|]. rewrite felt_add_0_l, pad_to_long by lia. apply execs_nil.
Qed.

Lemma dup_correct n ops l x :
  16 <= length l -> StackInstr.dup n = Some ops -> l !! n = Some x -> execs l ops (x :: l).
Proof.
  intros Hl Hop Hx. open_stack l. table n Hop; injection Hx as <-;
    first [ intros q; reflexivity
          | apply pad_dup_add; [simpl; lia|intros q; eexists; reflexivity] ].
Qed.

Lemma swap_correct n ops l :
  16 <= length l -> StackInstr.swap n = Some ops -> execs l ops (swap_top n l).
Proof. intros Hl Hop. open_stack l. table n Hop; intros q; reflexivity. Qed.

(** [movup.n] and [movdn.n] move one element between the top and position [n]. *)
Lemma movup_correct n ops l x :
  16 <= length l -> StackInstr.movup n = Some ops -> l !! n = Some x ->
  execs l ops (x :: take n l ++ drop (S n) l).
Proof. intros Hl Hop Hx. open_stack l. table n Hop; injection Hx as <-; intros q; reflexivity. Qed.

Lemma movdn_correct n ops x l :
  16 <= length (x :: l) -> StackInstr.movdn n = Some ops ->
  execs (x :: l) ops (take n l ++ x :: drop n l).
Proof.
  intros Hl Hop. remember (x :: l) as l' eqn:E. open_stack l'. injection E as <- <-.
  table n Hop; intros q; reflexivity.
Qed.

Lemma dupw_correct n ops l :
  16 <= length l -> StackInstr.dupw n = Some ops -> execs l ops (word_at l n ++ l).
Proof. intros Hl Hop. open_stack l. table n Hop; intros q; reflexivity. Qed.

Lemma movupw_correct n ops l :
  16 <= length l -> StackInstr.movupw n = Some ops ->
  execs l ops (word_at l n ++ take (4 * n) l ++ drop (4 * n + 4) l).
Proof. intros Hl Hop. open_stack l. table n Hop; intros q; reflexivity. Qed.

Lemma movdnw_correct n ops l :
  16 <= length l -> StackInstr.movdnw n = Some ops ->
  execs l ops (take (4 * n) (drop 4 l) ++ word_at l 0 ++ drop (4 * n + 4) l).
Proof. intros Hl Hop. open_stack l. table n Hop; intros q; reflexivity. Qed.

Lemma reversew_correct l : 16 <= length l ->
  execs l StackInstr.reversew (reverse (take 4 l) ++ drop 4 l).
Proof. intros Hl. open_stack l. intros q. reflexivity. Qed.

Lemma reversedw_correct l : 16 <= length l ->
  execs l StackInstr.reversedw (reverse (take 8 l) ++ drop 8 l).
Proof. intros Hl. open_stack l. intros q. reflexivity. Qed.

(** Conditional drops keep one of two elements, or one of two words. *)
Lemma cdrop_correct b x y l : 13 <= length l ->
  execs (bit b :: x :: y :: l) StackInstr.cdrop (pad_to 16 ((if b then x else y) :: pad_to 14 l)).
Proof.
  intros Hl. destruct b.
  - eapply execs_cons; [apply run_cswap_1|]. eapply execs_cons; [apply run_drop|]. apply execs_nil.
  - eapply execs_cons; [apply run_cswap_0|]. eapply execs_cons; [apply run_drop|]. apply execs_nil.
Qed.
End AsmStack.
