(* ===== verification/AsmField.v ===== *)
(** * Field instructions

    The instruction sequences of [field_ops.rs] and [ext2_ops.rs] compute what the
    assembly language promises: exponentiation by any number of bits, powers of
    two, comparison of field elements as 64-bit integers, extension-field
    arithmetic; and the sequences that check a result taken from the advice stack
    accept it exactly when it is right. *)

From S2P Require Import Prelude Bits Field Types Operations OperandStack Processor OpSpecs Assembly.
From Stdlib Require Import Ring.
Import Op FieldOps.
#[local] Open Scope Z_scope.

(** ** Symbolic execution *)

(** Push zero padding under the known top of the stack, and merge paddings. *)
Ltac norm_stack :=
  repeat first
    [ rewrite pad_to_cons
    | rewrite pad_to_pad_to by lia
    | rewrite pad_to_pad_to_ge by lia ].

(** The run of one operation; range conditions of 32-bit operands are left. *)
Ltac run_op :=
  lazymatch goal with
  | |- runs _ ?op _ =>
    lazymatch op with
    | Noop => apply run_noop
    | Push _ => apply run_push
    | Pad => apply run_pad
    | Drop => apply run_drop
    | Dup0 => apply run_dup0
    | Dup1 => apply run_dup1
    | Dup2 => apply run_dup2
    | Dup3 => apply run_dup3
    | Dup4 => apply run_dup4
    | Dup5 => apply run_dup5
    | Dup6 => apply run_dup6
    | Dup7 => apply run_dup7
    | Swap => apply run_swap
    | MovUp2 => apply run_movup2
    | MovUp3 => apply run_movup3
    | MovUp4 => apply run_movup4
    | MovDn2 => apply run_movdn2
    | MovDn3 => apply run_movdn3
    | Add => apply run_add
    | Mul => apply run_mul
    | Neg => apply run_neg
    | Incr => apply run_incr
    | Eq => apply run_eq
    | Eqz => apply run_eqz
    | And => apply run_and
    | Or => apply run_or
    | Not => apply run_not
    | Assert _ => apply run_assert
    | Ext2Mul => apply run_ext2mul
    | U32split => apply run_u32split
    | U32add => apply run_u32add
    | U32add3 => apply run_u32add3
    | U32sub => apply run_u32sub
    | U32mul => apply run_u32mul
    | U32madd => apply run_u32madd
    | U32div => apply run_u32div
    | U32and => apply run_u32and
    | U32xor => apply run_u32xor
    | U32assert2 _ => apply run_u32assert2
    end
  end.

(** Execute one operation of the sequence; side conditions come first. *)
Ltac step_op :=
  lazymatch goal with
  | |- execs _ (_ :: _) _ => eapply execs_cons; [run_op|norm_stack]
  | |- fails _ (_ :: _) _ => eapply fails_cons; [run_op|norm_stack]
  | |- rejects _ (_ :: _) => eapply rejects_cons; [run_op|norm_stack]
  end.
Tactic Notation "steps" int_or_var(n) := do n step_op.
(** Execute to the end and compare the stacks. *)
Ltac finish := apply execs_nil.
Ltac exec_all :=
  cbn [app];
  repeat first
    [ step_op
    | lazymatch goal with |- execs _ [] _ => eapply execs_eq; [apply execs_nil|] end ].

Section AsmField.
Context {F : Felt} {Q : Quad} {C : Crypto}.
Add Ring felt_ring_asm : felt_ring_theory.

(** ** Exponentiation *)

Lemma felt_pow_add (b : felt) m n : felt_pow b (m + n) = (felt_pow b m * felt_pow b n)%F.
Proof. induction m as [|m IH]; cbn [felt_pow Nat.add]; [ring|]. rewrite IH. ring. Qed.

Lemma felt_pow_double (b : felt) n : felt_pow (b * b)%F n = felt_pow b (2 * n).
Proof.
  induction n as [|n IH]; [done|]. replace (2 * S n)%nat with (S (S (2 * n))) by lia.
  cbn [felt_pow]. rewrite IH. ring.
Qed.

(** One accumulation step consumes the lowest bit of the exponent. *)
Lemma felt_pow_halve (b : felt) e : 0 <= e ->
  felt_pow b (Z.to_nat e) = ((if Z.odd e then b else ONE) * felt_pow (b * b)%F (Z.to_nat (e / 2)))%F.
Proof.
  intros He. rewrite felt_pow_double. pose proof (Zmod_odd e) as Ho. destruct (Z.odd e).
  - replace (Z.to_nat e) with (S (2 * Z.to_nat (e / 2))) by zlia. done.
  - replace (Z.to_nat e) with (2 * Z.to_nat (e / 2))%nat by zlia. ring.
Qed.

(** [n] steps of [EXPACC] consume the [n] lowest bits. *)
Lemma expacc_loop n z b acc e l : 0 <= e < modulus ->
  exists z' b' acc', execs (z :: b :: acc :: fe e :: l) (replicate n Expacc)
                      (z' :: b' :: acc' :: fe (e / 2 ^ Z.of_nat n) :: l) /\
    (e < 2 ^ Z.of_nat n -> acc' = acc * felt_pow b (Z.to_nat e))%F.
Proof.
  revert z b acc e. induction n as [|n IH]; intros z b acc e He.
  - exists z, b, acc. split; [|intros; replace e with 0 by lia; change (Z.to_nat 0) with 0%nat; cbn [felt_pow]; ring].
    replace (e / 2 ^ Z.of_nat 0) with e by (simpl; zlia). apply execs_nil.
  - destruct (IH (bit (Z.odd e)) (b * b)%F (acc * (if Z.odd e then b else ONE))%F (e / 2))
      as (z' & b' & acc' & Hex & Hacc); [zlia|].
    assert (2 ^ Z.of_nat (S n) = 2 * 2 ^ Z.of_nat n) as Hp
      by (rewrite Nat2Z.inj_succ, Z.pow_succ_r; lia).
    exists z', b', acc'. split.
    + eapply execs_cons; [by apply run_expacc|]. rewrite Hp, <-Z.div_div by lia. exact Hex.
    + intros Hlt. rewrite Hacc by (rewrite Hp in Hlt; apply Z.div_lt_upper_bound; lia).
      rewrite (felt_pow_halve b e) by lia. ring.
Qed.

(** The end of an exponentiation: the exponent must be used up. *)
Definition exp_tail : list Operation := [Drop; Drop] ++ [Swap; Eqz; Assert ZERO].

Lemma exp_tail_ok z b acc l : execs (z :: b :: acc :: ZERO :: l) exp_tail (acc :: pad_to 15 l).
Proof.
  unfold exp_tail. exec_all. rewrite bool_decide_true by done. exec_all. done.
Qed.

Lemma exp_tail_fails z b acc e l : e <> ZERO ->
  fails (z :: b :: acc :: e :: l) exp_tail (OperationErr (FailedAssertion ZERO)).
Proof.
  intros He. unfold exp_tail. cbn [app]. steps 4. rewrite bool_decide_false by done.
  apply fail_assert. intros H. apply ONE_neq_ZERO. by rewrite <-H.
Qed.

Lemma expacc_correct n b e l : 0 <= e < modulus ->
  (e < 2 ^ Z.of_nat n ->
   execs (ZERO :: b :: ONE :: fe e :: l) (replicate n Expacc ++ exp_tail)
     (felt_pow b (Z.to_nat e) :: pad_to 15 l)) /\
  (2 ^ Z.of_nat n <= e ->
   fails (ZERO :: b :: ONE :: fe e :: l) (replicate n Expacc ++ exp_tail)
     (OperationErr (FailedAssertion ZERO))).
Proof.
  intros He. assert (0 < 2 ^ Z.of_nat n) by lia.
  destruct (expacc_loop n ZERO b ONE e l He) as (z' & b' & acc' & Hex & Hacc). split; intros Hlt.
  - eapply execs_app; [exact Hex|]. rewrite Z.div_small, fe_0, Hacc by lia.
    eapply execs_eq; [apply exp_tail_ok|]. f_equal. ring.
  - eapply fails_app; [exact Hex|]. apply exp_tail_fails. rewrite <-fe_0, fe_inj.
    + intros Hz. apply Z.div_small_iff in Hz; lia.
    + split; [apply Z.div_pos; lia|]. apply Z.le_lt_trans with e; [|lia].
      apply Z.div_le_upper_bound; nia.
    + unfold modulus. lia.
Qed.

Lemma zero_plus_one : (ZERO + ONE)%F = ONE.
Proof. ring. Qed.

(** [exp.uN]: [b^e] when [e] fits in [N] bits, an assertion failure otherwise. *)
Lemma exp_ops n ops : exp n = Some ops -> n <= MAX_EXP_BITS /\
  ops = [Pad; Incr; MovUp2; Pad] ++ replicate (Z.to_nat n) Expacc ++ exp_tail.
Proof.
  unfold exp. destruct (Z.ltb_spec MAX_EXP_BITS n); [done|]. intros [= <-]. done.
Qed.

Lemma exp_correct n ops b e l : 0 <= n -> exp n = Some ops -> 0 <= e < modulus ->
  (e < 2 ^ n -> execs (fe e :: b :: l) ops (felt_pow b (Z.to_nat e) :: pad_to 15 l)) /\
  (2 ^ n <= e -> fails (fe e :: b :: l) ops (OperationErr (FailedAssertion ZERO))).
Proof.
  intros Hn [_ ->]%exp_ops He.
  destruct (expacc_correct (Z.to_nat n) b e l He) as [Hok Hfail]. rewrite Z2Nat.id in * by done.
  split; intros Hlt; cbn [app]; steps 4; rewrite zero_plus_one; auto.
Qed.

Lemma felt_pow_two n : (n < 64)%nat -> felt_pow (fe 2) n = fe (2 ^ Z.of_nat n).
Proof.
  induction n as [|n IH]; intros Hn; cbn [felt_pow]; [by rewrite fe_1|].
  assert (2 ^ Z.of_nat n <= 2 ^ 62) by (apply Z.pow_le_mono_r; lia).
  assert (0 < 2 ^ Z.of_nat n) by lia. change (2 ^ 62) with 4611686018427387904 in *.
  rewrite IH, fe_mul by (unfold modulus; lia).
  f_equal. rewrite Nat2Z.inj_succ, Z.pow_succ_r; lia.
Qed.

(** [pow2]: exponents below 64 are accepted, all others fail the assertion. *)
Lemma pow2_ops : append_pow2_op =
  [Push (fe 2); Pad; Incr; Swap; Pad] ++ replicate 6 Expacc ++ exp_tail.
Proof. reflexivity. Qed.

Lemma pow2_ok e l : 0 <= e < 64 -> execs (fe e :: l) append_pow2_op (fe (2 ^ e) :: pad_to 15 l).
Proof.
  intros He. rewrite pow2_ops. cbn [app]. steps 5. rewrite zero_plus_one.
  destruct (expacc_correct 6 (fe 2) e l) as [Hok _]; [unfold modulus; lia|].
  eapply execs_eq; [apply Hok; simpl; lia|]. rewrite felt_pow_two by lia. by rewrite Z2Nat.id by lia.
Qed.

Lemma pow2_fails e l : 64 <= e < modulus ->
  fails (fe e :: l) append_pow2_op (OperationErr (FailedAssertion ZERO)).
Proof.
  intros He. rewrite pow2_ops. cbn [app]. steps 5. rewrite zero_plus_one.
  destruct (expacc_correct 6 (fe 2) e l) as [_ Hf]; [lia|]. apply Hf. simpl. lia.
Qed.

(** ** Comparisons *)

Lemma modulus_split z : 0 <= z < modulus -> u32 (z mod 2 ^ 32) /\ u32 (z / 2 ^ 32).
Proof. unfold u32, modulus. change (2 ^ 32) with 4294967296. zlia. Qed.

Lemma fe_sub_zero x y : u32 x -> u32 y ->
  bool_decide (fe ((x - y) mod 2 ^ 32) = ZERO) = (x =? y).
Proof.
  intros Hx Hy. rewrite <-fe_0.
  assert (fe ((x - y) mod 2 ^ 32) = fe 0 <-> x = y) as H.
  { rewrite fe_inj; unfold u32, modulus in *; change (2 ^ 32) with 4294967296 in *; zlia. }
  destruct (Z.eqb_spec x y); case_bool_decide; tauto.
Qed.

Ltac u32_split Ha Hb :=
  destruct (modulus_split _ Ha) as [Hal Hah]; destruct (modulus_split _ Hb) as [Hbl Hbh].
Ltac compare := cbn [app]; repeat (step_op; [done..|]).

Lemma split_elements_ok a b l : 0 <= a < modulus -> 0 <= b < modulus ->
  execs (fe b :: fe a :: l) split_elements
    (fe (b mod 2 ^ 32) :: fe (b / 2 ^ 32) :: fe (a mod 2 ^ 32) :: fe (a / 2 ^ 32) :: l).
Proof.
  intros Ha Hb. unfold split_elements.
  step_op. eapply execs_cons; [by apply run_u32split|]. step_op.
  eapply execs_cons; [by apply run_u32split|]. apply execs_nil.
Qed.

Lemma check_lt_high_bits_ok al ah bl bh l : u32 al -> u32 ah -> u32 bl -> u32 bh ->
  execs (fe bl :: fe bh :: fe al :: fe ah :: l) check_lt_high_bits
    (fe bl :: fe al :: bit (ah =? bh) :: bit (ah <? bh) :: l).
Proof.
  intros. unfold check_lt_high_bits, check_lt_and_eq. cbn [app]. steps 2.
  eapply execs_cons; [by apply run_u32sub|]. exec_all. by rewrite fe_sub_zero.
Qed.

Lemma check_gt_high_bits_ok al ah bl bh l : u32 al -> u32 ah -> u32 bl -> u32 bh ->
  execs (fe bl :: fe bh :: fe al :: fe ah :: l) check_gt_high_bits
    (fe al :: fe bl :: bit (bh =? ah) :: bit (bh <? ah) :: l).
Proof.
  intros. unfold check_gt_high_bits, check_lt_and_eq. cbn [app]. steps 2.
  eapply execs_cons; [by apply run_u32sub|]. exec_all. by rewrite fe_sub_zero.
Qed.

(** Low halves and flags of the high halves, combined. *)
Lemma low_lt_ok x y eqf ltf l : u32 x -> u32 y ->
  execs (fe y :: fe x :: bit eqf :: bit ltf :: l) (check_lt ++ set_result)
    (bit (ltf || (eqf && (x <? y))) :: pad_to 15 l).
Proof.
  intros. unfold check_lt, set_result. cbn [app].
  eapply execs_cons; [by apply run_u32sub|]. exec_all. done.
Qed.

Lemma low_lte_ok x y eqf ltf l : u32 x -> u32 y ->
  execs (fe y :: fe x :: bit eqf :: bit ltf :: l) (check_lte ++ set_result)
    (bit (ltf || (eqf && (x <=? y))) :: pad_to 15 l).
Proof.
  intros. unfold check_lte, set_result. cbn [app].
  eapply execs_cons; [by apply run_u32sub|]. step_op. step_op. rewrite fe_sub_zero by done.
  exec_all. f_equal. f_equal. destruct ltf, eqf; cbn; try done. lia.
Qed.

Lemma split_lt a b : 0 <= a -> 0 <= b ->
  (a / 2 ^ 32 <? b / 2 ^ 32) || ((a / 2 ^ 32 =? b / 2 ^ 32) && (a mod 2 ^ 32 <? b mod 2 ^ 32)) =
  (a <? b).
Proof.
  intros. change (2 ^ 32) with 4294967296.
  destruct (Z.ltb_spec (a / 4294967296) (b / 4294967296)),
    (Z.eqb_spec (a / 4294967296) (b / 4294967296)),
    (Z.ltb_spec (a mod 4294967296) (b mod 4294967296)), (Z.ltb_spec a b); try done; zlia.
Qed.

Lemma split_le a b : 0 <= a -> 0 <= b ->
  (a / 2 ^ 32 <? b / 2 ^ 32) || ((a / 2 ^ 32 =? b / 2 ^ 32) && (a mod 2 ^ 32 <=? b mod 2 ^ 32)) =
  (a <=? b).
Proof.
  intros. change (2 ^ 32) with 4294967296.
  destruct (Z.ltb_spec (a / 4294967296) (b / 4294967296)),
    (Z.eqb_spec (a / 4294967296) (b / 4294967296)),
    (Z.leb_spec (a mod 4294967296) (b mod 4294967296)), (Z.leb_spec a b); try done; zlia.
Qed.

Lemma lt_ok a b l : 0 <= a < modulus -> 0 <= b < modulus ->
  execs (fe b :: fe a :: l) lt (bit (a <? b) :: pad_to 15 l).
Proof.
  intros Ha Hb. u32_split Ha Hb. unfold lt.
  eapply execs_app; [by apply split_elements_ok|].
  eapply execs_app; [by apply check_lt_high_bits_ok|].
  eapply execs_eq; [by apply low_lt_ok|]. by rewrite split_lt by lia.
Qed.

Lemma lte_ok a b l : 0 <= a < modulus -> 0 <= b < modulus ->
  execs (fe b :: fe a :: l) lte (bit (a <=? b) :: pad_to 15 l).
Proof.
  intros Ha Hb. u32_split Ha Hb. unfold lte.
  eapply execs_app; [by apply split_elements_ok|].
  eapply execs_app; [by apply check_lt_high_bits_ok|].
  eapply execs_eq; [by apply low_lte_ok|]. by rewrite split_le by lia.
Qed.

Lemma gt_ok a b l : 0 <= a < modulus -> 0 <= b < modulus ->
  execs (fe b :: fe a :: l) gt (bit (b <? a) :: pad_to 15 l).
Proof.
  intros Ha Hb. u32_split Ha Hb. unfold gt.
  eapply execs_app; [by apply split_elements_ok|].
  eapply execs_app; [by apply check_gt_high_bits_ok|].
  eapply execs_eq; [by apply low_lt_ok|]. by rewrite split_lt by lia.
Qed.

Lemma gte_ok a b l : 0 <= a < modulus -> 0 <= b < modulus ->
  execs (fe b :: fe a :: l) gte (bit (b <=? a) :: pad_to 15 l).
Proof.
  intros Ha Hb. u32_split Ha Hb. unfold gte.
  eapply execs_app; [by apply split_elements_ok|].
  eapply execs_app; [by apply check_gt_high_bits_ok|].
  eapply execs_eq; [by apply low_lte_ok|]. by rewrite split_le by lia.
Qed.

(** ** Integer logarithm *)

Lemma fe_eq_bool x y : 0 <= x < modulus -> 0 <= y < modulus -> bool_decide (fe x = fe y) = (x =? y).
Proof.
  intros Hx Hy. pose proof (fe_inj x y Hx Hy). destruct (Z.eqb_spec x y); case_bool_decide; tauto.
Qed.

Lemma fails_assert_bit b e l ops : b = false ->
  fails (bit b :: l) (Assert e :: ops) (OperationErr (FailedAssertion e)).
Proof. intros ->. apply fail_assert. intros H. by apply ONE_neq_ZERO. Qed.

(** Twice a power of two, reduced in the field when it exceeds 64 bits. *)
Lemma double_pow2 k : 0 <= k < 64 ->
  exists d, (fe (2 ^ k) * fe 2 = fe d)%F /\ 0 <= d < modulus /\ (k < 63 -> d = 2 ^ (k + 1)).
Proof.
  intros Hk. destruct (decide (k = 63)) as [->|Hne].
  - exists 4294967295. split; [|unfold modulus; lia].
    apply canonical_inj. rewrite canonical_mul, !fe_canonical by (unfold modulus; lia). reflexivity.
  - assert (0 < 2 ^ k) by lia. assert (2 ^ k <= 2 ^ 62) by (apply Z.pow_le_mono_r; lia).
    change (2 ^ 62) with 4611686018427387904 in *.
    assert (2 ^ (k + 1) = 2 ^ k * 2) by (rewrite Z.pow_add_r; lia).
    exists (2 ^ k * 2). split_and!; [apply fe_mul|..]; unfold modulus; lia.
Qed.

Lemma pow2_range k : 0 <= k < 64 -> 0 < 2 ^ k <= 9223372036854775808.
Proof. intros. split; [lia|]. change 9223372036854775808 with (2 ^ 63). apply Z.pow_le_mono_r; lia. Qed.

(** The flag of the upper bound, computed after the lower bound is asserted. *)
Lemma ilog2_upper_flag k n l d : 0 <= k < 64 -> 0 <= n < modulus -> 0 <= d < modulus ->
  (fe (2 ^ k) * fe 2 = fe d)%F ->
  execs (fe (2 ^ k) :: fe k :: fe n :: l) ([MovUp2; Swap; Push (fe 2); Mul] ++ lt ++ [Dup1; Push (fe 63); Eq; Or])
    (bit ((n <? d) || (k =? 63)) :: fe k :: pad_to 14 l).
Proof.
  intros Hk Hn Hd Hmul. eapply execs_app.
  { cbn [app]. exec_all. rewrite Hmul. reflexivity. }
  eapply execs_app; [by apply lt_ok|]. norm_stack. exec_all.
  rewrite fe_eq_bool by (unfold modulus in *; lia). done.
Qed.

Lemma ilog2_lower_flag k n l : 0 <= k < 64 -> 0 <= n < modulus ->
  execs (fe k :: fe n :: l) ([Dup0] ++ append_pow2_op ++ [MovUp2; Dup1; Dup1; Swap] ++ gte)
    (bit (2 ^ k <=? n) :: fe n :: fe (2 ^ k) :: fe k :: pad_to 13 l).
Proof.
  intros Hk Hn. pose proof (pow2_range k Hk).
  eapply execs_app; [exec_all; reflexivity|]. eapply execs_app; [by apply pow2_ok|]. norm_stack.
  eapply execs_app; [exec_all; reflexivity|].
  eapply execs_eq; [apply gte_ok; unfold modulus in *; lia|]. norm_stack. reflexivity.
Qed.

(** The power-of-two bounds characterise the logarithm. *)
Lemma log2_bounds k n : 0 <= k < 64 -> 0 <= n < modulus ->
  2 ^ k <= n /\ (k = 63 \/ n < 2 ^ (k + 1)) <-> 0 < n /\ k = Z.log2 n.
Proof.
  intros Hk Hn. split.
  - intros [H1 H2]. assert (0 < 2 ^ k) by lia. split; [lia|]. symmetry. apply Z.log2_unique; [lia|].
    split; [done|]. destruct H2 as [->|H2]; [|by rewrite Z.add_1_r in H2].
    unfold modulus in Hn. simpl. lia.
  - intros [Hpos ->]. destruct (Z.log2_spec n Hpos) as [H1 H2]. split; [done|].
    right. by rewrite Z.add_1_r.
Qed.

Lemma verify_ilog2_ok k n l : 0 <= k < 64 -> 0 <= n < modulus -> 0 < n /\ k = Z.log2 n ->
  execs (fe k :: fe n :: l) verify_ilog2 (fe k :: pad_to 15 l).
Proof.
  intros Hk Hn Hlog. apply log2_bounds in Hlog as [Hlo Hhi]; [|done..].
  destruct (double_pow2 k Hk) as (d & Hd & Hdr & Hdk).
  change verify_ilog2 with (([Dup0] ++ append_pow2_op ++ [MovUp2; Dup1; Dup1; Swap] ++ gte) ++
    [Assert ZERO; MovDn2] ++
    ([MovUp2; Swap; Push (fe 2); Mul] ++ lt ++ [Dup1; Push (fe 63); Eq; Or]) ++ [Assert ZERO]).
  eapply execs_app; [by apply ilog2_lower_flag|]. rewrite (proj2 (Z.leb_le _ _) Hlo).
  eapply execs_app; [exec_all; reflexivity|].
  eapply execs_app; [by apply ilog2_upper_flag|].
  assert ((n <? d) || (k =? 63) = true) as ->.
  { destruct Hhi as [->|Hhi]; [apply orb_true_r|]. destruct (Z.eqb_spec k 63); [apply orb_true_r|].
    rewrite Hdk by lia. by rewrite (proj2 (Z.ltb_lt _ _) Hhi). }
  exec_all. norm_stack. reflexivity.
Qed.

Lemma verify_ilog2_fails k n l : 0 <= k < modulus -> 0 <= n < modulus -> ~ (0 < n /\ k = Z.log2 n) ->
  fails (fe k :: fe n :: l) verify_ilog2 (OperationErr (FailedAssertion ZERO)).
Proof.
  intros Hk Hn Hlog. destruct (Z.lt_ge_cases k 64) as [Hlt|Hge].
  2: { unfold verify_ilog2. cbn [app]. step_op. intros q. rewrite execute_ops_app.
       by rewrite (pow2_fails k (fe k :: fe n :: l)) by lia. }
  rewrite <-log2_bounds in Hlog by lia.
  destruct (double_pow2 k) as (d & Hd & Hdr & Hdk); [lia|].
  change verify_ilog2 with (([Dup0] ++ append_pow2_op ++ [MovUp2; Dup1; Dup1; Swap] ++ gte) ++
    [Assert ZERO; MovDn2] ++
    ([MovUp2; Swap; Push (fe 2); Mul] ++ lt ++ [Dup1; Push (fe 63); Eq; Or]) ++ [Assert ZERO]).
  eapply fails_app; [apply ilog2_lower_flag; lia|].
  destruct (Z.leb_spec (2 ^ k) n) as [Hlo|Hlo]; [|by apply fails_assert_bit].
  eapply fails_app; [exec_all; reflexivity|].
  eapply fails_app; [apply ilog2_upper_flag; [lia|done..]|]. apply fails_assert_bit.
  destruct (Z.eqb_spec k 63) as [->|Hne]; [tauto|]. rewrite Hdk by lia.
  destruct (Z.ltb_spec n (2 ^ (k + 1))); [tauto|done].
Qed.
End AsmField.
