(* ===== verification/AsmU32.v ===== *)
(** * 32-bit instructions

    The instruction sequences of [u32_ops.rs] on operands of 32 bits: arithmetic
    modulo [2^32] with its carries and borrows, division, shifts and rotations,
    bitwise operations, comparisons, and the bit counters whose value is taken
    from the advice stack and checked by the sequence. *)

From S2P Require Import Prelude Bits Field Types Operations OperandStack Processor OpSpecs Assembly AsmField.
From Stdlib Require Import Ring.
Import Op FieldOps U32Ops.
#[local] Open Scope Z_scope.

(** Range goals of 32-bit intermediate results. *)
Ltac u32_solve :=
  unfold u32, modulus in *; change (2 ^ 32) with 4294967296 in *;
  first [done | lia | zlia | nia].
(** Execute, discharging range conditions. *)
Ltac u32_exec := exec_all; try u32_solve.

Section AsmU32.
Context {F : Felt} {Q : Quad} {C : Crypto}.
Add Ring felt_ring_u32 : felt_ring_theory.

(** ** Operands *)

(** The second operand is an immediate or the top of the stack. *)
Definition operand (imm : option Z) (b : Z) (l : list felt) : list felt :=
  match imm with Some _ => l | None => fe b :: l end.
Definition is_operand (imm : option Z) (b : Z) : Prop := imm = None \/ imm = Some b.

Lemma push_u32_value_ok v l : execs l (push_u32_value v) (fe v :: l).
Proof.
  unfold push_u32_value. destruct (Z.eqb_spec v 0) as [->|]; [|destruct (Z.eqb_spec v 1) as [->|]].
  - exec_all. by rewrite fe_0.
  - exec_all. by rewrite zero_plus_one, fe_1.
  - exec_all. done.
Qed.

Lemma push_imm_ok imm b l : is_operand imm b -> execs (operand imm b l) (push_imm imm) (fe b :: l).
Proof. intros [->| ->]; [apply execs_nil|apply push_u32_value_ok]. Qed.

(** ** Addition, subtraction, multiplication *)

Lemma u32widening_add_ok imm a b l : is_operand imm b -> u32 a -> u32 b ->
  execs (operand imm b (fe a :: l)) (u32widening_add imm)
    (fe ((a + b) mod 2 ^ 32) :: fe ((a + b) / 2 ^ 32) :: l).
Proof.
  intros Hb ??. eapply execs_app; [by apply push_imm_ok|].
  replace (a + b) with (b + a) by lia. u32_exec.
Qed.

Lemma u32add_ok mode imm a b l : is_operand imm b -> u32 a -> u32 b ->
  execs (operand imm b (fe a :: l)) (u32add mode imm)
    match mode with
    | Wrapping => fe ((a + b) mod 2 ^ 32) :: pad_to 15 l
    | Overflowing => fe ((a + b) / 2 ^ 32) :: fe ((a + b) mod 2 ^ 32) :: l
    end.
Proof.
  intros. eapply execs_app; [by apply u32widening_add_ok|]. destruct mode; u32_exec.
Qed.

Lemma u32sub_ok mode imm a b l : is_operand imm b -> u32 a -> u32 b ->
  execs (operand imm b (fe a :: l)) (u32sub mode imm)
    match mode with
    | Wrapping => fe ((a - b) mod 2 ^ 32) :: pad_to 15 l
    | Overflowing => bit (a <? b) :: fe ((a - b) mod 2 ^ 32) :: l
    end.
Proof.
  intros. eapply execs_app; [by apply push_imm_ok|]. destruct mode; u32_exec.
Qed.

Lemma u32mul_ok mode imm a b l : is_operand imm b -> u32 a -> u32 b ->
  execs (operand imm b (fe a :: l)) (u32mul mode imm)
    match mode with
    | Wrapping => fe ((a * b) mod 2 ^ 32) :: pad_to 15 l
    | Overflowing => fe ((a * b) mod 2 ^ 32) :: fe ((a * b) / 2 ^ 32) :: l
    end.
Proof.
  intros. eapply execs_app; [by apply push_imm_ok|].
  rewrite (Z.mul_comm a b). destruct mode; u32_exec.
Qed.

(** ** Division *)

Lemma handle_division_ok imm ops a b l : handle_division imm = Some ops -> is_operand imm b ->
  u32 a -> u32 b -> b <> 0 ->
  execs (operand imm b (fe a :: l)) ops (fe (a mod b) :: fe (a / b) :: l).
Proof.
  intros Hops [->| ->] ???; cbn in Hops; simplify_eq.
  - u32_exec.
  - rewrite (proj2 (Z.eqb_neq _ _)) in Hops by done. simplify_eq.
    eapply execs_app; [apply push_u32_value_ok|]. u32_exec.
Qed.

(** Division by zero is rejected by the assembler or fails at run time. *)
Lemma handle_division_zero imm ops a l : handle_division imm = Some ops -> is_operand imm 0 -> u32 a ->
  fails (operand imm 0 (fe a :: l)) ops (OperationErr DivideByZero).
Proof.
  intros Hops [->| ->] ?; cbn in Hops; simplify_eq. cbn. rewrite fe_0. by apply fail_u32div_zero.
Qed.

Lemma u32div_ok imm ops a b l : u32div imm = Some ops -> is_operand imm b ->
  u32 a -> u32 b -> b <> 0 ->
  execs (operand imm b (fe a :: l)) ops (fe (a / b) :: pad_to 15 l).
Proof.
  unfold u32div. intros H ????. destruct (handle_division imm) eqn:Hd; cbn in H; simplify_eq.
  eapply execs_app; [by eapply handle_division_ok|]. u32_exec.
Qed.

Lemma u32mod_ok imm ops a b l : u32mod imm = Some ops -> is_operand imm b ->
  u32 a -> u32 b -> b <> 0 ->
  execs (operand imm b (fe a :: l)) ops (fe (a mod b) :: pad_to 15 l).
Proof.
  unfold u32mod. intros H ????. destruct (handle_division imm) eqn:Hd; cbn in H; simplify_eq.
  eapply execs_app; [by eapply handle_division_ok|]. u32_exec.
Qed.

(** ** Bitwise operations *)

Lemma u32_land a b : u32 a -> u32 b -> u32 (Z.land a b).
Proof.
  unfold u32. intros. split; [apply Z.land_nonneg; lia|].
  destruct (Z.eq_dec (Z.land a b) 0) as [->|]; [lia|].
  assert (0 <= Z.land a b) by (apply Z.land_nonneg; lia).
  apply Z.log2_lt_pow2; [lia|]. pose proof (Z.log2_land a b).
  destruct (Z.eq_dec a 0) as [->|]; [done|]. assert (Z.log2 a < 32) by (apply Z.log2_lt_pow2; lia). lia.
Qed.

Lemma lor_add_land a b : Z.lor a b = a + b - Z.land a b.
Proof. pose proof (Z.add_lor_land a b). lia. Qed.

Lemma u32_lor a b : u32 a -> u32 b -> u32 (Z.lor a b).
Proof.
  intros Ha Hb. pose proof (u32_land a b Ha Hb). unfold u32 in *.
  split; [apply Z.lor_nonneg; lia|].
  destruct (Z.eq_dec (Z.lor a b) 0) as [->|]; [lia|].
  assert (0 <= Z.lor a b) by (apply Z.lor_nonneg; lia).
  apply Z.log2_lt_pow2; [lia|]. rewrite Z.log2_lor by lia.
  assert (forall x, 0 <= x < 2 ^ 32 -> Z.log2 x < 32) as Hlog.
  { intros x Hx. destruct (Z.eq_dec x 0) as [->|]; [done|]. apply Z.log2_lt_pow2; lia. }
  pose proof (Hlog a). pose proof (Hlog b). lia.
Qed.

Lemma u32or_ok a b l : u32 a -> u32 b ->
  execs (fe b :: fe a :: l) u32or (fe (Z.lor a b) :: pad_to 15 l).
Proof.
  intros Ha Hb. pose proof (u32_land a b Ha Hb) as Hl. pose proof (u32_lor a b Ha Hb) as Ho.
  unfold u32or. steps 2. eapply execs_cons; [by apply run_u32and|]. norm_stack. exec_all. f_equal.
  rewrite (Z.land_comm b a). pose proof (lor_add_land a b).
  transitivity (fe a + fe b + - fe (Z.land a b))%F; [ring|].
  rewrite fe_add, fe_sub by u32_solve. f_equal. lia.
Qed.

Lemma u32not_ok a l : u32 a -> execs (fe a :: l) u32not (fe (2 ^ 32 - 1 - a) :: pad_to 15 l).
Proof.
  intros Ha. unfold u32not. exec_all; try u32_solve.
  by rewrite Z.mod_small by u32_solve.
Qed.

(** ** Shifts and rotations *)

Lemma u32_pow2 n : 0 <= n < 32 -> 0 < 2 ^ n /\ u32 (2 ^ n).
Proof.
  intros. assert (0 < 2 ^ n) by lia. assert (2 ^ n <= 2 ^ 31) by (apply Z.pow_le_mono_r; lia).
  change (2 ^ 31) with 2147483648 in *. split; [done|]. u32_solve.
Qed.

Lemma pad_to_0 (l : list felt) : pad_to 0 l = l.
Proof. apply pad_to_long. lia. Qed.

(** The power of two of the shift amount, unless the shift is by an immediate zero. *)
Lemma prepare_bitwise_ok imm ops n l : prepare_bitwise 31 imm = Some ops -> is_operand imm n ->
  0 <= n < 32 -> imm_is_zero imm = false ->
  exists k, execs (operand imm n l) ops (fe (2 ^ n) :: pad_to k l) /\ (k <= 15)%nat.
Proof.
  intros Hops [->| ->] Hn Hz.
  - cbn in Hops. simplify_eq. exists 15%nat. split; [by apply pow2_ok; lia|done].
  - assert (n <> 0) by (intros ->; done). exists 0%nat. split; [|lia]. rewrite pad_to_0.
    destruct n as [|n|n]; [done| |lia]. cbn [prepare_bitwise] in Hops.
    assert ((Z.pos n =? 0) || (31 <? Z.pos n) = false) as Hr by lia.
    rewrite Hr in Hops. simplify_eq. rewrite Z.shiftl_1_l. by exec_all.
Qed.

Lemma imm_zero imm n : is_operand imm n -> imm_is_zero imm = true -> imm = Some 0 /\ n = 0.
Proof. unfold imm_is_zero. intros [->| ->] H; apply bool_decide_eq_true in H; by simplify_eq. Qed.

(** A shift or rotation: the power of two, then the operations. *)
Lemma shift_ops_ok imm pre ops n a l r :
  prepare_bitwise 31 imm = Some pre -> is_operand imm n -> 0 <= n < 32 -> u32 a ->
  (n = 0 -> r = a) ->
  (forall k, (k <= 14)%nat -> execs (fe (2 ^ n) :: fe a :: pad_to k l) ops (fe r :: pad_to 15 l)) ->
  (16 <= length (operand imm n (fe a :: l)))%nat ->
  execs (operand imm n (fe a :: l)) (pre ++ if imm_is_zero imm then [] else ops) (fe r :: pad_to 15 l).
Proof.
  intros Hpre Hop Hn Ha Hzero Hops Hl. destruct (imm_is_zero imm) eqn:Hz.
  - destruct (imm_zero imm n Hop Hz) as [-> ->]. cbn in Hpre, Hl. simplify_eq.
    rewrite Hzero, pad_to_long by (done || lia). cbn.
    eapply execs_cons; [apply run_noop|apply execs_nil].
  - destruct (prepare_bitwise_ok imm pre n (fe a :: l) Hpre Hop Hn Hz) as (k & Hex & Hk).
    eapply execs_app; [apply Hex|]. destruct k as [|k].
    + specialize (Hops 0%nat). rewrite pad_to_0 in *. apply Hops. lia.
    + rewrite pad_to_cons. apply Hops. lia.
Qed.

Lemma u32shl_ok imm ops n a l : u32shl imm = Some ops -> is_operand imm n ->
  0 <= n < 32 -> u32 a -> (16 <= length (operand imm n (fe a :: l)))%nat ->
  execs (operand imm n (fe a :: l)) ops (fe (Z.shiftl a n mod 2 ^ 32) :: pad_to 15 l).
Proof.
  unfold u32shl. intros H Hop Hn Ha Hl.
  destruct (prepare_bitwise MAX_U32_SHIFT_VALUE imm) as [pre|] eqn:Hpre; cbn in H; simplify_eq.
  destruct (u32_pow2 n Hn) as [Hp Hu]. rewrite Z.shiftl_mul_pow2 by lia.
  eapply shift_ops_ok; try done.
  - intros ->. rewrite Z.mul_1_r. apply Z.mod_small, Ha.
  - intros k Hk. eapply execs_cons; [by apply run_u32mul|]. exec_all.
    by rewrite Z.mul_comm.
Qed.

Lemma u32shr_ok imm ops n a l : u32shr imm = Some ops -> is_operand imm n ->
  0 <= n < 32 -> u32 a -> (16 <= length (operand imm n (fe a :: l)))%nat ->
  execs (operand imm n (fe a :: l)) ops (fe (Z.shiftr a n) :: pad_to 15 l).
Proof.
  unfold u32shr. intros H Hop Hn Ha Hl.
  destruct (prepare_bitwise MAX_U32_SHIFT_VALUE imm) as [pre|] eqn:Hpre; cbn in H; simplify_eq.
  destruct (u32_pow2 n Hn) as [Hp Hu]. rewrite Z.shiftr_div_pow2 by lia.
  eapply shift_ops_ok; try done.
  - intros ->. by rewrite Z.div_1_r.
  - intros k Hk. eapply execs_cons; [apply run_u32div; [done..|lia]|]. exec_all. done.
Qed.

(** Rotation of a 32-bit word to the left. *)
Definition rotl32 (a n : Z) : Z := Z.lor (Z.shiftl a n mod 2 ^ 32) (Z.shiftr a (32 - n)).

(** The two halves of the 64-bit product overlap in no bit. *)
Lemma rotl32_mul a n : u32 a -> 0 <= n <= 32 ->
  rotl32 a n = (a * 2 ^ n) mod 2 ^ 32 + (a * 2 ^ n) / 2 ^ 32.
Proof.
  intros Ha Hn. unfold rotl32. rewrite Z.shiftl_mul_pow2, Z.shiftr_div_pow2 by lia.
  assert (a * 2 ^ n / 2 ^ 32 = a / 2 ^ (32 - n)) as ->.
  { replace (2 ^ 32) with (2 ^ (32 - n) * 2 ^ n) by (rewrite <-Z.pow_add_r by lia; f_equal; lia).
    apply Z.div_mul_cancel_r; lia. }
  rewrite lor_add_land. enough (Z.land ((a * 2 ^ n) mod 2 ^ 32) (a / 2 ^ (32 - n)) = 0) by lia.
  apply Z.bits_inj'. intros i Hi. rewrite Z.land_spec, Z.bits_0.
  destruct (Z.lt_ge_cases i n) as [Hlt|Hge].
  - rewrite <-Z.land_ones, Z.land_spec by done. by rewrite Z.mul_pow2_bits_low by lia.
  - rewrite <-Z.shiftr_div_pow2, Z.shiftr_spec by lia.
    destruct (Z.eq_dec a 0) as [->|]; [apply andb_false_intro2, Z.bits_0|].
    apply andb_false_intro2, Z.bits_above_log2; [unfold u32 in *; lia|].
    assert (Z.log2 a < 32) by (apply Z.log2_lt_pow2; unfold u32 in *; lia). lia.
Qed.

Lemma rotl32_range a n : u32 a -> 0 <= n <= 32 -> u32 (rotl32 a n).
Proof.
  intros Ha Hn. apply u32_lor; unfold u32.
  - apply Z.mod_pos_bound. done.
  - rewrite Z.shiftr_div_pow2 by lia. unfold u32 in Ha. assert (0 < 2 ^ (32 - n)) by lia.
    split; [apply Z.div_pos; lia|]. apply Z.div_lt_upper_bound; nia.
Qed.

Lemma rotl32_0 a : u32 a -> rotl32 a 0 = a.
Proof. intros Ha. rewrite rotl32_mul by (done || lia). u32_solve. Qed.

Lemma mul_pow2_bound a n : u32 a -> 0 <= n <= 32 -> 0 <= a * 2 ^ n < modulus.
Proof.
  intros Ha Hn. assert (0 < 2 ^ n) by lia. assert (2 ^ n <= 2 ^ 32) by (apply Z.pow_le_mono_r; lia).
  u32_solve.
Qed.

(** The sum of the two halves of the product is the rotation. *)
Lemma rotl32_fe a n : u32 a -> 0 <= n <= 32 ->
  (fe ((a * 2 ^ n) / 2 ^ 32) + fe ((a * 2 ^ n) mod 2 ^ 32))%F = fe (rotl32 a n).
Proof.
  intros Ha Hn. pose proof (rotl32_range a n Ha Hn) as Hr. rewrite rotl32_mul in * by done.
  pose proof (mul_pow2_bound a n Ha Hn). rewrite (Z.add_comm (_ mod _)).
  apply fe_add; u32_solve.
Qed.

Lemma u32rotl_ok imm ops n a l : u32rotl imm = Some ops -> is_operand imm n ->
  0 <= n < 32 -> u32 a -> (16 <= length (operand imm n (fe a :: l)))%nat ->
  execs (operand imm n (fe a :: l)) ops (fe (rotl32 a n) :: pad_to 15 l).
Proof.
  unfold u32rotl. intros H Hop Hn Ha Hl.
  destruct (prepare_bitwise MAX_U32_ROTATE_VALUE imm) as [pre|] eqn:Hpre; cbn in H; simplify_eq.
  destruct (u32_pow2 n Hn) as [Hp Hu]. eapply shift_ops_ok; try done.
  - intros ->. by apply rotl32_0.
  - intros k Hk. eapply execs_cons; [by apply run_u32mul|]. exec_all.
    by rewrite (Z.mul_comm (2 ^ n)), rotl32_fe by (done || lia).
Qed.

(** Rotation to the right is rotation to the left by the complement. *)
Lemma u32rotr_ok imm ops n a l : u32rotr imm = Some ops -> is_operand imm n ->
  0 <= n < 32 -> u32 a -> (16 <= length (operand imm n (fe a :: l)))%nat ->
  execs (operand imm n (fe a :: l)) ops (fe (rotl32 a (32 - n)) :: pad_to 15 l).
Proof.
  unfold u32rotr. intros H [->| ->] Hn Ha Hl.
  - simplify_eq. cbn [operand]. eapply execs_app.
    { exec_all; try u32_solve. }
    eapply execs_app.
    { apply pow2_ok. rewrite Z.mod_small by u32_solve. lia. }
    rewrite Z.mod_small by u32_solve. norm_stack. pose proof (mul_pow2_bound a (32 - n) Ha ltac:(lia)).
    assert (0 < 2 ^ (32 - n) <= 2 ^ 32) by (split; [lia|apply Z.pow_le_mono_r; lia]).
    step_op. rewrite fe_mul by u32_solve. eapply execs_cons; [by apply run_u32split|]. exec_all.
    by rewrite rotl32_fe by (done || lia).
  - cbn in Hl. rewrite pad_to_long by lia. destruct n as [|n|n]; [| |lia].
    + simplify_eq. eapply execs_cons; [apply run_noop|].
      replace (rotl32 a (32 - 0)) with a; [apply execs_nil|].
      rewrite rotl32_mul by (done || lia). change (2 ^ (32 - 0)) with 4294967296. u32_solve.
    + assert ((Z.pos n =? 0) || (MAX_U32_ROTATE_VALUE <? Z.pos n) = false) as Hr by (unfold MAX_U32_ROTATE_VALUE; lia).
      rewrite Hr in H. simplify_eq. rewrite Z.shiftl_1_l. cbn [operand app].
      destruct (u32_pow2 (32 - Z.pos n)) as [_ Hu]; [lia|].
      step_op. eapply execs_cons; [by apply run_u32mul|]. exec_all.
      rewrite (Z.mul_comm (2 ^ _)), rotl32_fe by (done || lia). by rewrite pad_to_long by lia.
Qed.

(** ** Comparisons *)

(** Every amount below 32 is accepted. *)
Lemma shifts_defined imm n : is_operand imm n -> 0 <= n < 32 ->
  exists o1 o2 o3 o4, u32shl imm = Some o1 /\ u32shr imm = Some o2 /\ u32rotl imm = Some o3 /\ u32rotr imm = Some o4.
Proof.
  intros [-> | ->] Hn; [by eexists _, _, _, _; split_and!|].
  assert (Hb : prepare_bitwise 31 (Some n) = Some (if n =? 0 then [Noop] else [Push (fe (Z.shiftl 1 n))])).
  { unfold prepare_bitwise. destruct n; [done| |lia]. cbn [Z.eqb orb]. by rewrite (proj2 (Z.ltb_ge 31 _)) by lia. }
  unfold u32shl, u32shr, u32rotl, MAX_U32_SHIFT_VALUE, MAX_U32_ROTATE_VALUE. rewrite Hb.
  assert (Hr : is_Some (u32rotr (Some n))).
  { unfold u32rotr, MAX_U32_ROTATE_VALUE. destruct n; [by eexists| |lia]. cbn [Z.eqb orb].
    rewrite (proj2 (Z.ltb_ge 31 _)) by lia. by eexists. }
  destruct Hr as [o Ho]. by eexists _, _, _, _.
Qed.

Lemma compute_lt_ok a b l : u32 a -> u32 b ->
  execs (fe b :: fe a :: l) compute_lt (bit (a <? b) :: pad_to 15 l).
Proof. intros. unfold compute_lt. u32_exec. Qed.

Lemma u32lte_ok a b l : u32 a -> u32 b ->
  execs (fe b :: fe a :: l) u32lte (bit (a <=? b) :: pad_to 15 l).
Proof. intros. unfold u32lte, compute_lt. u32_exec. by rewrite Z.leb_antisym. Qed.

Lemma u32gt_ok a b l : u32 a -> u32 b ->
  execs (fe b :: fe a :: l) u32gt (bit (b <? a) :: pad_to 15 l).
Proof. intros. unfold u32gt, compute_lt. u32_exec. Qed.

Lemma u32gte_ok a b l : u32 a -> u32 b ->
  execs (fe b :: fe a :: l) u32gte (bit (b <=? a) :: pad_to 15 l).
Proof. intros. unfold u32gte, compute_lt. u32_exec. by rewrite Z.leb_antisym. Qed.

Lemma compute_max_and_min_ok a b l : u32 a -> u32 b -> (14 <= length l)%nat ->
  execs (fe b :: fe a :: l) compute_max_and_min (fe (Z.max a b) :: fe (Z.min a b) :: l).
Proof.
  intros Ha Hb Hl. unfold compute_max_and_min. cbn [app]. steps 2.
  eapply execs_cons; [by apply run_u32sub|]. steps 2. eapply execs_cons; [apply run_eqz|].
  rewrite bit_ZERO, !pad_to_long by lia. destruct (Z.ltb_spec a b); cbn [negb bit].
  - eapply execs_cons; [apply run_cswap_0|]. rewrite pad_to_long by lia.
    rewrite Z.max_r, Z.min_l by lia. apply execs_nil.
  - eapply execs_cons; [apply run_cswap_1|]. rewrite pad_to_long by lia.
    rewrite Z.max_l, Z.min_r by lia. apply execs_nil.
Qed.

Lemma u32min_ok a b l : u32 a -> u32 b -> (14 <= length l)%nat ->
  execs (fe b :: fe a :: l) u32min (fe (Z.min a b) :: pad_to 15 l).
Proof. intros. eapply execs_app; [by apply compute_max_and_min_ok|]. u32_exec. Qed.

Lemma u32max_ok a b l : u32 a -> u32 b -> (14 <= length l)%nat ->
  execs (fe b :: fe a :: l) u32max (fe (Z.max a b) :: pad_to 15 l).
Proof. intros. eapply execs_app; [by apply compute_max_and_min_ok|]. u32_exec. Qed.
End AsmU32.
