(* ===== verification/AsmCount.v ===== *)
(** * Bit counters

    [u32clz], [u32ctz], [u32clo] and [u32cto] take their result from the advice
    stack, which the prover controls, and check it.  Here: each check accepts
    exactly the right count, whatever the advice holds; and [u32popcnt], which
    needs no advice, counts the set bits. *)

From S2P Require Import Prelude Field Types Operations OperandStack Processor Bits OpSpecs Assembly AsmField AsmU32.
From Stdlib Require Import Ring.
Import Op FieldOps U32Ops.
#[local] Open Scope Z_scope.

(** ** The checks *)
Section AsmCount.
Context {F : Felt} {Q : Quad} {C : Crypto}.
Add Ring felt_ring_count : felt_ring_theory.

Ltac u32_op lem := eapply execs_cons; [apply lem; try u32_solve|norm_stack].

Lemma reject_wide op a b l ops : u32_binary op = true ->
  2 ^ 32 <= ⟦a⟧ \/ 2 ^ 32 <= ⟦b⟧ -> rejects (a :: b :: l) (op :: ops).
Proof.
  intros Hop Hw. eapply fails_rejects. apply fail_u32_operands; [done|].
  apply invalid_u32s_spec. rewrite !Exists_cons. tauto.
Qed.

(** The common start of the leading counts. *)
Definition lead_prefix : list Operation :=
  [Push (fe 32); Dup1; Neg; Add] ++ append_pow2_op ++ [Push (fe 1); Neg; Add].

Lemma lead_prefix_ok c l : 0 <= c <= 32 ->
  execs (fe c :: l) lead_prefix (fe (2 ^ (32 - c) - 1) :: fe c :: pad_to 14 l).
Proof.
  intros Hc. assert (0 < 2 ^ (32 - c) <= 2 ^ 32) by (split; [lia|apply Z.pow_le_mono_r; lia]).
  unfold lead_prefix. eapply execs_app; [exec_all; reflexivity|].
  rewrite fe_sub by (unfold modulus; lia). eapply execs_app; [apply pow2_ok; lia|]. norm_stack.
  exec_all. by rewrite fe_sub by (unfold modulus; lia).
Qed.

(** A count out of range fails the power of two or leaves a value above 32 bits. *)
Lemma lead_prefix_out c l : 32 < c < modulus ->
  rejects (fe c :: l) lead_prefix \/
  exists g, execs (fe c :: l) lead_prefix (g :: fe c :: pad_to 14 l) /\ 2 ^ 32 <= ⟦g⟧.
Proof.
  intros Hc. assert ((fe 32 + - fe c)%F = fe (32 - c + modulus)) as Hsub.
  { apply canonical_inj. rewrite canonical_add, canonical_neg, !fe_canonical by (unfold modulus in *; lia).
    rewrite Z.add_mod_idemp_r by done.
    symmetry. apply Z.mod_unique with (-1); unfold modulus in *; lia. }
  destruct (Z.lt_ge_cases (32 - c + modulus) 64) as [Hlt|Hge].
  - right. eexists. split.
    + unfold lead_prefix. eapply execs_app; [exec_all; reflexivity|]. rewrite Hsub.
      eapply execs_app; [apply pow2_ok; lia|]. norm_stack. exec_all. reflexivity.
    + assert (2 ^ 33 <= 2 ^ (32 - c + modulus) <= 2 ^ 63) by (split; apply Z.pow_le_mono_r; lia).
      change (2 ^ 33) with 8589934592 in *. change (2 ^ 63) with 9223372036854775808 in *.
      rewrite fe_sub, fe_canonical; unfold modulus in *; lia.
  - left. unfold lead_prefix. eapply rejects_app; [exec_all; reflexivity|]. rewrite Hsub.
    apply rejects_prefix. eapply fails_rejects, pow2_fails. lia.
Qed.

Lemma bit_eq_bool x y : bool_decide (bit x = bit y) = Bool.eqb x y.
Proof. pose proof ONE_neq_ZERO. destruct x, y; case_bool_decide; simpl in *; congruence. Qed.

Lemma eqz_bool n : u32 n -> bool_decide (fe n = ZERO) = (n =? 0).
Proof. intros. rewrite <-fe_0. apply fe_eq_bool; u32_solve. Qed.

(** One assertion on a computed flag. *)
Lemma assert_flag b e l ops l' :
  (b = true -> execs (pad_to 16 l) ops l') -> b = true -> execs (bit b :: l) (Assert e :: ops) l'.
Proof. intros H ->. eapply execs_cons; [apply run_assert|by apply H]. Qed.

Lemma reject_flag b e l ops : (b = true -> rejects (pad_to 16 l) ops) -> rejects (bit b :: l) (Assert e :: ops).
Proof.
  intros H. destruct b; [eapply rejects_cons; [apply run_assert|by apply H]|].
  by eapply fails_rejects, fails_assert_bit.
Qed.

Lemma reject_false e l ops : rejects (bit false :: l) (Assert e :: ops).
Proof. by eapply fails_rejects, fails_assert_bit. Qed.

(** *** [verify_clz] *)

Definition clz_trace : list Operation :=
  [Push (fe 2); U32div; Drop; Dup0; Incr; Push (fe (2 ^ 32 - 1)); MovUp2; Neg; Add;
   Dup3; Eqz; MovDn3; MovUp4; U32and; Dup2; Push (fe 32); Eq; MovUp4; Dup1; Eq].

Lemma verify_clz_split :
  verify_clz = lead_prefix ++ clz_trace ++ [Assert ZERO; MovDn2; Eq; Or; Assert ZERO].
Proof. reflexivity. Qed.

Lemma half_range c : 0 <= c <= 32 ->
  u32 (2 ^ (32 - c) - 1) /\ u32 ((2 ^ (32 - c) - 1) / 2) /\ (2 ^ (32 - c) - 1) / 2 + 1 <= 2 ^ 31.
Proof.
  intros Hc. assert (0 < 2 ^ (32 - c) <= 2 ^ 32) by (split; [lia|apply Z.pow_le_mono_r; lia]).
  change (2 ^ 31) with 2147483648. unfold u32. change (2 ^ 32) with 4294967296 in *. zlia.
Qed.

Lemma clz_trace_ok c n l h : 0 <= c <= 32 -> u32 n -> h = (2 ^ (32 - c) - 1) / 2 ->
  execs (fe (2 ^ (32 - c) - 1) :: fe c :: fe n :: l) clz_trace
    (bit (Bool.eqb (n =? 0) (c =? 32)) :: bit (c =? 32) :: fe (Z.land n (2 ^ 32 - 1 - h)) ::
     fe (h + 1) :: fe c :: pad_to 13 l).
Proof.
  intros Hc Hn ->. destruct (half_range c Hc) as (Hg & Hh & Hb). change (2 ^ 31) with 2147483648 in Hb.
  unfold clz_trace. set (h := (2 ^ (32 - c) - 1) / 2) in *.
  step_op. u32_op run_u32div. steps 7. rewrite fe_sub by u32_solve.
  steps 4. u32_op run_u32and. steps 2. step_op. rewrite fe_eq_bool, eqz_bool by u32_solve.
  exec_all. rewrite bit_eq_bool, <-fe_1, fe_add by u32_solve. done.
Qed.

Lemma land_half n c h : u32 n -> 0 <= c < 32 -> h = (2 ^ (32 - c) - 1) / 2 ->
  h = 2 ^ (31 - c) - 1 /\ Z.land n (2 ^ 32 - 1 - h) = n / 2 ^ (31 - c) * 2 ^ (31 - c).
Proof.
  intros Hn Hc ->. replace (32 - c) with (31 - c + 1) by lia. rewrite div_2_pow_pred by lia.
  split; [done|]. replace (2 ^ 32 - 1 - (2 ^ (31 - c) - 1)) with (2 ^ 32 - 2 ^ (31 - c)) by lia.
  apply land_high; [done|lia].
Qed.

(** The flags that [verify_clz] asserts hold exactly for the right count. *)
Lemma clz_flags c n h : 0 <= c <= 32 -> u32 n -> h = (2 ^ (32 - c) - 1) / 2 ->
  Bool.eqb (n =? 0) (c =? 32) = true /\
    ((Z.land n (2 ^ 32 - 1 - h) =? h + 1) || (c =? 32)) = true <->
  c = leading_zeros n.
Proof.
  intros Hc Hn Hh. rewrite eqb_true_iff, orb_true_iff.
  destruct (Z.eqb_spec c 32) as [->|Hne].
  - pose proof (leading_zeros_32 n Hn) as H32. rewrite (Z.eqb_eq n 0). split.
    + intros [H _]. symmetry. by apply H32.
    + intros H. split; [by apply H32|by right].
  - destruct (land_half n c h Hn) as [-> ->]; [lia|done|]. rewrite leading_zeros_iff by (done || lia).
    assert (0 < 2 ^ (31 - c)) by lia. rewrite Z.eqb_eq, Z.eqb_neq. split.
    + intros [_ [He|]]; [nia|done].
    + intros He. split; [|left; lia]. intros ->. by rewrite Z.div_0_l in He by lia.
Qed.

Lemma verify_clz_ok n l : u32 n ->
  execs (fe (leading_zeros n) :: fe n :: l) verify_clz (fe (leading_zeros n) :: pad_to 15 l).
Proof.
  intros Hn. set (c := leading_zeros n). assert (0 <= c <= 32) as Hc by by apply leading_zeros_range.
  destruct (clz_flags c n _ Hc Hn eq_refl) as [_ [H1 H2]]; [done|].
  rewrite verify_clz_split. eapply execs_app; [by apply lead_prefix_ok|]. norm_stack.
  eapply execs_app; [by apply clz_trace_ok|]. rewrite H1. norm_stack. 
  step_op. steps 1. eapply execs_cons; [apply run_eq|].
  destruct (half_range c Hc) as (_ & Hh & Hb). change (2 ^ 31) with 2147483648 in Hb.
  pose proof (u32_land n (2 ^ 32 - 1 - (2 ^ (32 - c) - 1) / 2) Hn).
  rewrite fe_eq_bool by u32_solve. norm_stack.
  step_op. rewrite orb_comm, (Z.eqb_sym (_ + 1)), H2. exec_all. done.
Qed.

Lemma verify_clz_rejects c n l : 0 <= c < modulus -> u32 n -> c <> leading_zeros n ->
  rejects (fe c :: fe n :: l) verify_clz.
Proof.
  intros Hr Hn Hne. rewrite verify_clz_split. destruct (Z.le_gt_cases c 32) as [Hle|Hgt].
  - assert (0 <= c <= 32) as Hc by lia. pose proof (clz_flags c n _ Hc Hn eq_refl) as Hflags.
    eapply rejects_app; [by apply lead_prefix_ok|]. norm_stack.
    eapply rejects_app; [by apply clz_trace_ok|]. apply reject_flag. intros H1. norm_stack.
    step_op. eapply rejects_cons; [apply run_eq|].
    destruct (half_range c Hc) as (_ & Hh & Hb). change (2 ^ 31) with 2147483648 in Hb.
    pose proof (u32_land n (2 ^ 32 - 1 - (2 ^ (32 - c) - 1) / 2) Hn).
    rewrite fe_eq_bool by u32_solve. norm_stack.
    step_op. rewrite orb_comm, (Z.eqb_sym (_ + 1)). apply reject_flag. tauto.
  - destruct (lead_prefix_out c (fe n :: l)) as [H|(g & Hex & Hg)]; [lia|by apply rejects_prefix|].
    eapply rejects_app; [apply Hex|]. norm_stack. apply rejects_prefix.
    unfold clz_trace. step_op. apply reject_wide; [done|by right].
Qed.

(** *** [verify_clo] *)

Definition clo_trace : list Operation :=
  [Dup0; Push (fe 2); U32div; Drop; Push (fe (2 ^ 32 - 1)); Swap; Neg; Add; MovUp3; U32and;
   Push (fe (2 ^ 32 - 1)); MovUp2; Neg; Add; Eq].

Lemma verify_clo_split : verify_clo = lead_prefix ++ clo_trace ++ [Assert ZERO].
Proof. reflexivity. Qed.

Lemma clo_trace_ok c n l g : 0 <= c <= 32 -> u32 n -> g = 2 ^ (32 - c) - 1 ->
  execs (fe g :: fe c :: fe n :: l) clo_trace
    (bit (Z.land n (2 ^ 32 - 1 - g / 2) =? 2 ^ 32 - 1 - g) :: fe c :: pad_to 14 l).
Proof.
  intros Hc Hn ->. destruct (half_range c Hc) as (Hg & Hh & Hb). change (2 ^ 31) with 2147483648 in Hb.
  set (g := 2 ^ (32 - c) - 1) in *. unfold clo_trace.
  steps 2. u32_op run_u32div. steps 5. rewrite fe_sub by u32_solve. step_op.
  u32_op run_u32and. steps 4. rewrite fe_sub by u32_solve. eapply execs_cons; [apply run_eq|].
  pose proof (u32_land n (2 ^ 32 - 1 - g / 2) Hn). rewrite fe_eq_bool by u32_solve.
  norm_stack. apply execs_nil.
Qed.

Lemma clo_flag c n g : 0 <= c <= 32 -> u32 n -> g = 2 ^ (32 - c) - 1 ->
  (Z.land n (2 ^ 32 - 1 - g / 2) =? 2 ^ 32 - 1 - g) = true <-> c = leading_ones n.
Proof.
  intros Hc Hn ->. rewrite Z.eqb_eq. destruct (Z.eq_dec c 32) as [->|Hne].
  - change (2 ^ (32 - 32) - 1) with 0. rewrite Z.sub_0_r, (land_low n 32), Z.mod_small by (done || apply Hn).
    unfold leading_ones. pose proof (leading_zeros_32 (2 ^ 32 - 1 - n)) as H32. unfold u32 in *. lia.
  - destruct (land_half n c ((2 ^ (32 - c) - 1) / 2) Hn) as [_ ->]; [lia|done|]. rewrite leading_ones_iff by (done || lia).
    assert (2 ^ (c + 1) * 2 ^ (31 - c) = 2 ^ 32) by (rewrite <-Z.pow_add_r by lia; f_equal; lia).
    assert (2 ^ (32 - c) = 2 * 2 ^ (31 - c)) by (rewrite <-Z.pow_succ_r by lia; f_equal; lia).
    assert (0 < 2 ^ (31 - c)) by lia. nia.
Qed.

Lemma verify_clo_ok n l : u32 n ->
  execs (fe (leading_ones n) :: fe n :: l) verify_clo (fe (leading_ones n) :: pad_to 15 l).
Proof.
  intros Hn. set (c := leading_ones n).
  assert (0 <= c <= 32) as Hc by (apply leading_zeros_range; unfold u32 in *; lia).
  rewrite verify_clo_split. eapply execs_app; [by apply lead_prefix_ok|]. norm_stack.
  eapply execs_app; [by apply clo_trace_ok|].
  rewrite (proj2 (clo_flag c n _ Hc Hn eq_refl)) by done. norm_stack. exec_all. done.
Qed.

Lemma verify_clo_rejects c n l : 0 <= c < modulus -> u32 n -> c <> leading_ones n ->
  rejects (fe c :: fe n :: l) verify_clo.
Proof.
  intros Hr Hn Hne. rewrite verify_clo_split. destruct (Z.le_gt_cases c 32) as [Hle|Hgt].
  - assert (0 <= c <= 32) as Hc by lia. eapply rejects_app; [by apply lead_prefix_ok|]. norm_stack.
    eapply rejects_app; [by apply clo_trace_ok|]. apply reject_flag. intros H.
    by apply (clo_flag c n _ Hc Hn eq_refl) in H.
  - destruct (lead_prefix_out c (fe n :: l)) as [H|(g & Hex & Hg)]; [lia|by apply rejects_prefix|].
    eapply rejects_app; [apply Hex|]. norm_stack. apply rejects_prefix.
    unfold clo_trace. steps 2. apply reject_wide; [done|by right].
Qed.

(** *** [verify_ctz] and [verify_cto] *)

(** The common start of the trailing counts: the low half of the power of two
    and the power minus one. *)
Definition trail_prefix : list Operation :=
  [Swap; Dup1] ++ append_pow2_op ++ [Dup0; Pad; Incr; Neg; Add; Swap; U32split; Swap; Drop].

Lemma trail_prefix_ok c n l : 0 <= c < 64 ->
  execs (fe c :: fe n :: l) trail_prefix
    (fe (2 ^ c mod 2 ^ 32) :: fe (2 ^ c - 1) :: fe n :: fe c :: pad_to 13 l).
Proof.
  intros Hc. pose proof (pow2_range c Hc). unfold trail_prefix.
  eapply execs_app; [exec_all; reflexivity|]. eapply execs_app; [by apply pow2_ok|]. norm_stack.
  cbn [app]. steps 3. rewrite zero_plus_one, <-fe_1. steps 2.
  rewrite fe_sub by (unfold modulus; lia). step_op.
  eapply execs_cons; [apply run_u32split; unfold modulus; lia|]. exec_all. done.
Qed.

Lemma trail_prefix_out c n l : 64 <= c < modulus -> rejects (fe c :: fe n :: l) trail_prefix.
Proof.
  intros Hc. unfold trail_prefix. eapply rejects_app; [exec_all; reflexivity|].
  apply rejects_prefix. by eapply fails_rejects, pow2_fails.
Qed.

(** The mask of the [c + 1] lowest bits, and the low half of [2^c]. *)
Lemma trail_mask c : 0 <= c <= 32 ->
  u32 (2 ^ c mod 2 ^ 32) /\ u32 (2 ^ c - 1) /\ u32 (2 ^ c - 1 + 2 ^ c mod 2 ^ 32).
Proof.
  intros Hc. destruct (Z.eq_dec c 32) as [->|]; [vm_compute; done|].
  destruct (u32_pow2 c) as [Hp Hu]; [lia|].
  assert (2 ^ c <= 2 ^ 31) by (apply Z.pow_le_mono_r; lia). change (2 ^ 31) with 2147483648 in *.
  rewrite Z.mod_small by apply Hu. u32_solve.
Qed.

Lemma trail_wide c : 32 < c < 64 ->
  (fe (2 ^ c - 1) + fe (2 ^ c mod 2 ^ 32))%F = fe (2 ^ c - 1) /\ 2 ^ 32 <= ⟦fe (2 ^ c - 1)⟧.
Proof.
  intros Hc. assert (2 ^ c = 2 ^ (c - 32) * 2 ^ 32) as Hm by (rewrite <-Z.pow_add_r by lia; f_equal; lia).
  pose proof (pow2_range c ltac:(lia)).
  assert (2 ^ 33 <= 2 ^ c) by (apply Z.pow_le_mono_r; lia). change (2 ^ 33) with 8589934592 in *.
  rewrite fe_canonical by (unfold modulus; lia). split; [|lia].
  rewrite Hm at 2. rewrite Z.mod_mul by done. rewrite fe_0. ring.
Qed.

Definition ctz_trace : list Operation := [Dup0; MovUp2; Add; MovUp2; U32and; Eq].
Definition cto_trace : list Operation := [Dup1; Add; MovUp2; U32and; Eq].

Lemma verify_ctz_split : verify_ctz = trail_prefix ++ ctz_trace ++ [Assert ZERO].
Proof. reflexivity. Qed.
Lemma verify_cto_split : verify_cto = trail_prefix ++ cto_trace ++ [Assert ZERO].
Proof. reflexivity. Qed.

Lemma ctz_trace_ok lo m n c l : u32 lo -> u32 m -> u32 (m + lo) -> u32 n ->
  execs (fe lo :: fe m :: fe n :: c :: l) ctz_trace (bit (Z.land n (m + lo) =? lo) :: c :: pad_to 14 l).
Proof.
  intros Hlo Hm Hs Hn. unfold ctz_trace. steps 3. rewrite (fe_add lo m), (Z.add_comm lo) by u32_solve.
  step_op. u32_op run_u32and. eapply execs_cons; [apply run_eq|].
  pose proof (u32_land n (m + lo) Hn Hs). rewrite fe_eq_bool by u32_solve.
  norm_stack. rewrite Z.eqb_sym. apply execs_nil.
Qed.

Lemma cto_trace_ok lo m n c l : u32 lo -> u32 m -> u32 (m + lo) -> u32 n ->
  execs (fe lo :: fe m :: fe n :: c :: l) cto_trace (bit (Z.land n (m + lo) =? m) :: c :: pad_to 14 l).
Proof.
  intros Hlo Hm Hs Hn. unfold cto_trace. steps 2. rewrite fe_add, (Z.add_comm lo) by u32_solve.
  step_op. u32_op run_u32and. eapply execs_cons; [apply run_eq|].
  pose proof (u32_land n (m + lo) Hn Hs). rewrite fe_eq_bool by u32_solve.
  norm_stack. rewrite Z.eqb_sym. apply execs_nil.
Qed.

Lemma trail_land n c : u32 n -> 0 <= c < 32 ->
  2 ^ c mod 2 ^ 32 = 2 ^ c /\ Z.land n (2 ^ c - 1 + 2 ^ c) = n mod 2 ^ (c + 1).
Proof.
  intros Hn Hc. destruct (u32_pow2 c Hc) as [_ Hu]. split; [apply Z.mod_small, Hu|].
  rewrite <-land_low by lia. f_equal. rewrite Z.pow_add_r by lia. lia.
Qed.

Lemma ctz_flag c n : 0 <= c <= 32 -> u32 n ->
  (Z.land n (2 ^ c - 1 + 2 ^ c mod 2 ^ 32) =? 2 ^ c mod 2 ^ 32) = true <-> c = trailing_zeros n.
Proof.
  intros Hc Hn. rewrite Z.eqb_eq. destruct (Z.eq_dec c 32) as [->|Hne].
  - rewrite Z.mod_same, Z.add_0_r, (land_low n 32), Z.mod_small by (done || apply Hn).
    pose proof (trailing_zeros_32 n Hn). lia.
  - destruct (trail_land n c Hn ltac:(lia)) as [-> ->]. by rewrite trailing_zeros_iff by (done || lia).
Qed.

Lemma cto_flag c n : 0 <= c <= 32 -> u32 n ->
  (Z.land n (2 ^ c - 1 + 2 ^ c mod 2 ^ 32) =? 2 ^ c - 1) = true <-> c = trailing_ones n.
Proof.
  intros Hc Hn. rewrite Z.eqb_eq. destruct (Z.eq_dec c 32) as [->|Hne].
  - rewrite Z.mod_same, Z.add_0_r, (land_low n 32), Z.mod_small by (done || apply Hn).
    unfold trailing_ones. pose proof (trailing_zeros_32 (2 ^ 32 - 1 - n)) as H. unfold u32 in *. lia.
  - destruct (trail_land n c Hn ltac:(lia)) as [-> ->]. by rewrite trailing_ones_iff by (done || lia).
Qed.

Lemma verify_ctz_ok n l : u32 n ->
  execs (fe (trailing_zeros n) :: fe n :: l) verify_ctz (fe (trailing_zeros n) :: pad_to 15 l).
Proof.
  intros Hn. assert (0 <= trailing_zeros n <= 32) as Hc by by apply trailing_zeros_range.
  destruct (trail_mask _ Hc) as (H1 & H2 & H3).
  rewrite verify_ctz_split. eapply execs_app; [apply trail_prefix_ok; lia|].
  eapply execs_app; [by apply ctz_trace_ok|]. rewrite (proj2 (ctz_flag _ n Hc Hn)) by done.
  norm_stack. exec_all. done.
Qed.

Lemma verify_cto_ok n l : u32 n ->
  execs (fe (trailing_ones n) :: fe n :: l) verify_cto (fe (trailing_ones n) :: pad_to 15 l).
Proof.
  intros Hn. assert (0 <= trailing_ones n <= 32) as Hc by (apply trailing_zeros_range; unfold u32 in *; lia).
  destruct (trail_mask _ Hc) as (H1 & H2 & H3).
  rewrite verify_cto_split. eapply execs_app; [apply trail_prefix_ok; lia|].
  eapply execs_app; [by apply cto_trace_ok|]. rewrite (proj2 (cto_flag _ n Hc Hn)) by done.
  norm_stack. exec_all. done.
Qed.

(** Where the count exceeds 32, the mask is not a 32-bit value. *)
Lemma verify_ctz_rejects c n l : 0 <= c < modulus -> u32 n -> c <> trailing_zeros n ->
  rejects (fe c :: fe n :: l) verify_ctz.
Proof.
  intros Hr Hn Hne. rewrite verify_ctz_split. destruct (Z.lt_ge_cases c 64) as [Hlt|Hge].
  2: { apply rejects_prefix, trail_prefix_out. lia. }
  eapply rejects_app; [apply trail_prefix_ok; lia|]. destruct (Z.le_gt_cases c 32) as [Hle|Hgt].
  - assert (0 <= c <= 32) as Hc by lia. destruct (trail_mask _ Hc) as (H1 & H2 & H3).
    eapply rejects_app; [by apply ctz_trace_ok|]. apply reject_flag. intros H. by apply ctz_flag in H.
  - destruct (trail_wide c) as [Hadd Hw]; [lia|]. apply rejects_prefix. unfold ctz_trace. steps 3.
    replace (fe (2 ^ c mod 2 ^ 32) + fe (2 ^ c - 1))%F with (fe (2 ^ c - 1)) by (rewrite <-Hadd at 1; ring).
    step_op. apply reject_wide; [done|by right].
Qed.

Lemma verify_cto_rejects c n l : 0 <= c < modulus -> u32 n -> c <> trailing_ones n ->
  rejects (fe c :: fe n :: l) verify_cto.
Proof.
  intros Hr Hn Hne. rewrite verify_cto_split. destruct (Z.lt_ge_cases c 64) as [Hlt|Hge].
  2: { apply rejects_prefix, trail_prefix_out. lia. }
  eapply rejects_app; [apply trail_prefix_ok; lia|]. destruct (Z.le_gt_cases c 32) as [Hle|Hgt].
  - assert (0 <= c <= 32) as Hc by lia. destruct (trail_mask _ Hc) as (H1 & H2 & H3).
    eapply rejects_app; [by apply cto_trace_ok|]. apply reject_flag. intros H. by apply cto_flag in H.
  - destruct (trail_wide c) as [Hadd Hw]; [lia|]. apply rejects_prefix. unfold cto_trace. steps 2.
    replace (fe (2 ^ c mod 2 ^ 32) + fe (2 ^ c - 1))%F with (fe (2 ^ c - 1)) by (rewrite <-Hadd at 1; ring).
    step_op. apply reject_wide; [done|by right].
Qed.
End AsmCount.

(** ** Population count *)
Import Op U32Ops.
Fixpoint pos_count_ones (p : positive) : Z :=
  match p with
  | xI p => 1 + pos_count_ones p
  | xO p => pos_count_ones p
  | xH => 1
  end.
(** [u32::count_ones] *)
Definition count_ones (n : Z) : Z :=
  match n with
  | Zpos p => pos_count_ones p
  | _ => 0
  end.

Lemma count_ones_double n : 0 <= n -> count_ones (2 * n) = count_ones n.
Proof. by destruct n. Qed.
Lemma count_ones_succ_double n : 0 <= n -> count_ones (2 * n + 1) = 1 + count_ones n.
Proof. by destruct n. Qed.

Lemma count_ones_bit n : 0 <= n -> count_ones n = n mod 2 + count_ones (n / 2).
Proof.
  intros Hn. rewrite (Z.div_mod n 2) at 1 by done. rewrite Zmod_odd. destruct (Z.odd n).
  - rewrite count_ones_succ_double by zlia. done.
  - rewrite Z.add_0_r, count_ones_double by zlia. done.
Qed.

(** The count of a word is the sum of the counts of its bytes. *)
Lemma count_ones_byte d v : 0 <= d < 256 -> 0 <= v ->
  count_ones (d + 256 * v) = count_ones d + count_ones v.
Proof.
  intros Hd Hv.
  assert (forall k x, 0 <= x < 2 ^ Z.of_nat k ->
    count_ones (x + 2 ^ Z.of_nat k * v) = count_ones x + count_ones v) as Hind.
  { clear d Hd. induction k as [|k IH]; intros x Hx.
    - simpl in Hx. replace x with 0 by lia. change (2 ^ Z.of_nat 0) with 1. by rewrite Z.add_0_l, Z.mul_1_l.
    - rewrite Nat2Z.inj_succ, Z.pow_succ_r in * by lia.
      assert (0 < 2 ^ Z.of_nat k) by lia.
      rewrite count_ones_bit, (count_ones_bit x) by nia.
      replace (x + 2 * 2 ^ Z.of_nat k * v) with (x + 2 ^ Z.of_nat k * v * 2) by ring.
      rewrite Z.mod_add, Z.div_add by done. rewrite IH by zlia. lia. }
  apply (Hind 8%nat). done.
Qed.

(** ** Bytewise masks *)

Lemma land_split x y : 0 <= x -> 0 <= y ->
  Z.land x y = Z.land (x mod 256) (y mod 256) + 256 * Z.land (x / 256) (y / 256).
Proof.
  intros Hx Hy. rewrite (Z.div_mod (Z.land x y) 256) by done. change 256 with (2 ^ 8).
  rewrite <-!Z.shiftr_div_pow2, Z.shiftr_land by done.
  rewrite <-!Z.land_ones by done. rewrite Z.add_comm. f_equal.
  apply Z.bits_inj'. intros i Hi. rewrite !Z.land_spec. by destruct (Z.testbit x i), (Z.testbit y i), (Z.testbit (Z.ones 8) i).
Qed.

Lemma land_mask x m j : 0 <= j -> 0 <= m < 2 ^ j -> Z.land x m = Z.land (x mod 2 ^ j) m.
Proof.
  intros Hj Hm. rewrite <-(Z.mod_small m (2 ^ j) Hm) at 1. rewrite <-!Z.land_ones by done.
  apply Z.bits_inj'. intros i Hi. rewrite !Z.land_spec. by destruct (Z.testbit x i), (Z.testbit m i), (Z.testbit (Z.ones j) i).
Qed.

(** Shift by less than a byte, then keep the bits that come from the same byte. *)
Lemma land_field k d v m ms : 0 <= k < 8 -> 0 <= d < 256 -> 0 <= v ->
  0 <= m < 2 ^ (8 - k) -> 0 <= ms ->
  Z.land ((d + 256 * v) / 2 ^ k) (m + 256 * ms) = Z.land (d / 2 ^ k) m + 256 * Z.land (v / 2 ^ k) ms.
Proof.
  intros Hk Hd Hv Hm Hms. assert (0 < 2 ^ k) by lia.
  assert (2 ^ (8 - k) * 2 ^ k = 256) as Hp by (rewrite <-Z.pow_add_r by lia; by replace (8 - k + k) with 8 by lia).
  assert (m < 256) by nia. rewrite land_split by (try apply Z.div_pos; lia).
  replace ((m + 256 * ms) mod 256) with m by zlia. replace ((m + 256 * ms) / 256) with ms by zlia.
  assert ((d + 256 * v) / 2 ^ k / 256 = v / 2 ^ k) as ->.
  { rewrite Z.div_div, (Z.mul_comm _ 256), <-Z.div_div by lia. f_equal. zlia. }
  f_equal. rewrite (land_mask _ m (8 - k)), (land_mask (d / 2 ^ k) m (8 - k)) by lia. f_equal.
  rewrite <-Hp. rewrite Z.mod_mod_divide by (exists (2 ^ k); ring).
  replace (d + 2 ^ (8 - k) * 2 ^ k * v) with (d + v * 2 ^ (8 - k) * 2 ^ k) by ring.
  rewrite Z.div_add by lia. apply Z.mod_add. nia.
Qed.

(** The number of four bytes. *)
Definition bytes (b0 b1 b2 b3 : Z) : Z := b0 + 256 * (b1 + 256 * (b2 + 256 * (b3 + 256 * 0))).
Definition byte (b : Z) : Prop := 0 <= b < 256.

Lemma land_bytes k m b0 b1 b2 b3 : 0 <= k < 8 -> 0 <= m < 2 ^ (8 - k) ->
  byte b0 -> byte b1 -> byte b2 -> byte b3 ->
  Z.land (bytes b0 b1 b2 b3 / 2 ^ k) (bytes m m m m) =
  bytes (Z.land (b0 / 2 ^ k) m) (Z.land (b1 / 2 ^ k) m) (Z.land (b2 / 2 ^ k) m) (Z.land (b3 / 2 ^ k) m).
Proof.
  unfold byte. intros Hk Hm H0 H1 H2 H3. unfold bytes.
  rewrite !land_field by lia. rewrite Z.land_0_r. done.
Qed.

(** ** One byte *)

Definition pairs (b : Z) : Z := b - Z.land (b / 2) 0x55.
Definition nibbles (b : Z) : Z := Z.land (b / 4) 0x33 + Z.land b 0x33.
Definition byte_sum (b : Z) : Z := Z.land (b + b / 16) 0x0F.

Definition byte_ok (b : Z) : bool :=
  let p := pairs b in let n := nibbles p in
  (0 <=? p) && (p <? 256) && (0 <=? n) && (n / 16 <=? 4) && (n mod 16 <=? 4) &&
  (byte_sum n =? count_ones b) && (byte_sum n <=? 8).

Lemma all_bytes_ok : forallb byte_ok (List.map Z.of_nat (List.seq 0 256)) = true.
Proof. vm_compute. reflexivity. Qed.

Lemma byte_ok_spec b : byte b -> byte (pairs b) /\ 0 <= nibbles (pairs b) /\
  nibbles (pairs b) / 16 <= 4 /\ nibbles (pairs b) mod 16 <= 4 /\
  byte_sum (nibbles (pairs b)) = count_ones b /\ count_ones b <= 8.
Proof.
  intros Hb. pose proof (proj1 (forallb_forall _ _) all_bytes_ok b) as H.
  assert (In b (List.map Z.of_nat (List.seq 0 256))) as Hin.
  { apply in_map_iff. exists (Z.to_nat b). unfold byte in Hb. split; [lia|]. apply in_seq. lia. }
  specialize (H Hin). unfold byte_ok in H. cbv zeta in H. unfold byte. lia.
Qed.

(** ** The word *)

Lemma to_bytes n : u32 n -> exists b0 b1 b2 b3, n = bytes b0 b1 b2 b3 /\ byte b0 /\ byte b1 /\ byte b2 /\ byte b3.
Proof.
  unfold u32. change (2 ^ 32) with 4294967296. intros Hn.
  exists (n mod 256), (n / 256 mod 256), (n / 65536 mod 256), (n / 16777216).
  unfold bytes, byte. zlia.
Qed.

Lemma pairs_word b0 b1 b2 b3 : byte b0 -> byte b1 -> byte b2 -> byte b3 ->
  bytes b0 b1 b2 b3 - Z.land (bytes b0 b1 b2 b3 / 2) 0x55555555 =
  bytes (pairs b0) (pairs b1) (pairs b2) (pairs b3).
Proof.
  intros. change 0x55555555 with (bytes 0x55 0x55 0x55 0x55).
  rewrite (land_bytes 1) by (done || lia). unfold bytes, pairs. change (2 ^ 1) with 2. lia.
Qed.

Lemma nibbles_word b0 b1 b2 b3 : byte b0 -> byte b1 -> byte b2 -> byte b3 ->
  Z.land (bytes b0 b1 b2 b3 / 4) 0x33333333 + Z.land (bytes b0 b1 b2 b3) 0x33333333 =
  bytes (nibbles b0) (nibbles b1) (nibbles b2) (nibbles b3).
Proof.
  intros. change 0x33333333 with (bytes 0x33 0x33 0x33 0x33).
  rewrite (land_bytes 2) by (done || lia).
  rewrite <-(Z.div_1_r (bytes b0 b1 b2 b3)). change 1 with (2 ^ 0) at 1.
  rewrite (land_bytes 0) by (done || lia). unfold bytes, nibbles. change (2 ^ 2) with 4.
  rewrite !Z.div_1_r. lia.
Qed.

Lemma byte_sum_carry c x : 0 <= c -> Z.land (c + c / 16 + 16 * x) 0x0F = byte_sum c.
Proof.
  intros Hc. unfold byte_sum. rewrite (land_mask _ _ 4), (land_mask (c + c / 16) _ 4) by lia.
  f_equal. change (2 ^ 4) with 16. zlia.
Qed.

(** Nibbles of at most 4 leave room for the carry from the byte above. *)
Definition small (c : Z) : Prop := 0 <= c /\ c / 16 <= 4 /\ c mod 16 <= 4.

Lemma byte_sums_word c0 c1 c2 c3 : small c0 -> small c1 -> small c2 -> small c3 ->
  Z.land (bytes c0 c1 c2 c3 / 16 + bytes c0 c1 c2 c3) 0x0F0F0F0F =
  bytes (byte_sum c0) (byte_sum c1) (byte_sum c2) (byte_sum c3).
Proof.
  unfold small. intros H0 H1 H2 H3. change 0x0F0F0F0F with (bytes 0x0F 0x0F 0x0F 0x0F).
  assert (bytes c0 c1 c2 c3 / 16 + bytes c0 c1 c2 c3 =
    bytes (c0 + c0 / 16 + 16 * (c1 mod 16)) (c1 + c1 / 16 + 16 * (c2 mod 16))
      (c2 + c2 / 16 + 16 * (c3 mod 16)) (c3 + c3 / 16 + 16 * 0) / 2 ^ 0) as ->.
  { rewrite Z.div_1_r. unfold bytes. zlia. }
  rewrite (land_bytes 0) by (unfold byte; zlia). rewrite !Z.div_1_r, !byte_sum_carry by lia. done.
Qed.

Lemma sum_bytes s0 s1 s2 s3 : 0 <= s0 <= 8 -> 0 <= s1 <= 8 -> 0 <= s2 <= 8 -> 0 <= s3 <= 8 ->
  (bytes s0 s1 s2 s3 * 0x01010101) mod 2 ^ 32 / 2 ^ 24 = s0 + s1 + s2 + s3.
Proof.
  intros. unfold bytes. change (2 ^ 32) with 4294967296. change (2 ^ 24) with 16777216.
  set (low := s0 + 256 * (s0 + s1) + 65536 * (s0 + s1 + s2)).
  rewrite <-(Z.mod_unique _ 4294967296 (s1 + s2 + s3 + 256 * (s2 + s3) + 65536 * s3)
    (low + 16777216 * (s0 + s1 + s2 + s3))) by lia.
  symmetry. apply Z.div_unique with low; lia.
Qed.

Lemma count_ones_nonneg n : 0 <= count_ones n.
Proof. assert (forall p, 0 <= pos_count_ones p) as H by (induction p; simpl; lia). by destruct n; simpl. Qed.

Lemma count_ones_word b0 b1 b2 b3 : byte b0 -> byte b1 -> byte b2 -> byte b3 ->
  count_ones (bytes b0 b1 b2 b3) = count_ones b0 + count_ones b1 + count_ones b2 + count_ones b3.
Proof. unfold byte. intros. unfold bytes. rewrite !count_ones_byte by lia. simpl. lia. Qed.

(** The parallel sum, as the operations compute it. *)
Lemma parallel_sum n : u32 n -> exists v1 v2 v3,
  n - Z.land (n / 2) 0x55555555 = v1 /\ u32 v1 /\ Z.land (n / 2) 0x55555555 <= n /\
  Z.land (v1 / 4) 0x33333333 + Z.land v1 0x33333333 = v2 /\ 0 <= v2 /\ v2 / 16 + v2 < 2 ^ 32 /\
  Z.land (v2 / 16 + v2) 0x0F0F0F0F = v3 /\ u32 v3 /\
  (v3 * 0x01010101) mod 2 ^ 32 / 2 ^ 24 = count_ones n.
Proof.
  intros Hn. destruct (to_bytes n Hn) as (b0 & b1 & b2 & b3 & -> & H0 & H1 & H2 & H3).
  destruct (byte_ok_spec b0 H0) as (P0 & N0 & L0 & R0 & S0 & T0).
  destruct (byte_ok_spec b1 H1) as (P1 & N1 & L1 & R1 & S1 & T1).
  destruct (byte_ok_spec b2 H2) as (P2 & N2 & L2 & R2 & S2 & T2).
  destruct (byte_ok_spec b3 H3) as (P3 & N3 & L3 & R3 & S3 & T3).
  rewrite count_ones_word by done.
  pose proof (count_ones_nonneg b0). pose proof (count_ones_nonneg b1).
  pose proof (count_ones_nonneg b2). pose proof (count_ones_nonneg b3).
  pose proof (pairs_word b0 b1 b2 b3 H0 H1 H2 H3) as HP.
  eexists _, _, _. split; [apply HP|]. split; [unfold u32, bytes, byte in *; change (2 ^ 32) with 4294967296; lia|].
  split; [unfold bytes, byte in *; lia|].
  split; [by apply nibbles_word|].
  split; [unfold bytes; lia|]. split; [unfold bytes; change (2 ^ 32) with 4294967296; zlia|].
  split; [by apply byte_sums_word; unfold small|]. rewrite S0, S1, S2, S3.
  split; [unfold u32, bytes; change (2 ^ 32) with 4294967296; lia|].
  by rewrite sum_bytes by lia.
Qed.

Section AsmPopcnt.
Context {F : Felt} {Q : Quad} {C : Crypto}.

Ltac u32_op lem := eapply execs_cons; [apply lem; try u32_solve|norm_stack].

Lemma u32popcnt_ok n l : u32 n -> execs (fe n :: l) u32popcnt (fe (count_ones n) :: pad_to 15 l).
Proof.
  intros Hn. destruct (parallel_sum n Hn) as (v1 & v2 & v3 & E1 & U1 & Hle & E2 & Hv2 & U2 & E3 & U3 & E4).
  assert (forall x m, u32 x -> u32 m -> u32 (Z.land x m)) as Hand by apply u32_land.
  pose proof (Hand (n / 2) 0x55555555) as A1. pose proof (Hand (v1 / 4) 0x33333333) as A2.
  pose proof (Hand v1 0x33333333) as A3.
  unfold u32popcnt. change (Z.shiftl 1 1) with 2. change (Z.shiftl 1 2) with 4.
  change (Z.shiftl 1 4) with 16. change (Z.shiftl 1 24) with (2 ^ 24).
  steps 2. u32_op run_u32div. steps 2. u32_op run_u32and. rewrite (Z.land_comm 0x55555555).
  u32_op run_u32sub. rewrite E1, (Z.mod_small v1) by apply U1.
  steps 3. u32_op run_u32div. steps 2. u32_op run_u32and. rewrite (Z.land_comm 0x33333333).
  steps 2. u32_op run_u32and. rewrite (Z.land_comm 0x33333333 v1).
  u32_op run_u32add. rewrite (Z.add_comm (Z.land v1 _)), E2, (Z.mod_small v2) by u32_solve. 
  steps 4. u32_op run_u32div. step_op. u32_op run_u32add. rewrite (Z.mod_small (_ + v2)) by u32_solve.
  steps 3. u32_op run_u32and. rewrite (Z.land_comm 0x0F0F0F0F), E3.
  step_op. u32_op run_u32mul. steps 3.
  eapply execs_cons; [apply run_u32div; unfold u32; [apply Z.mod_pos_bound; lia|lia|lia]|]. norm_stack.
  rewrite (Z.mul_comm 0x01010101), E4. exec_all. done.
Qed.
End AsmPopcnt.
