(* ===== verification/AsmExt2.v ===== *)
(** * Extension-field instructions and instructions with immediates

    [ext2_ops.rs] and the immediate forms of [field_ops.rs].  The inverse of
    an extension-field element comes from the advice stack; the sequence after the
    event accepts exactly the inverse. *)

From S2P Require Import Prelude Bits Field Types Operations OperandStack Advice Processor OpSpecs Assembly AsmField.
From Stdlib Require Import Ring.
Import Op FieldOps Ext2Ops.
#[local] Open Scope Z_scope.

Section AsmExt2.
Context {F : Felt} {Q : Quad} {C : Crypto}.
Add Ring felt_ring_ext2 : felt_ring_theory.

Definition quad_one : QuadFelt := quad_new ONE ZERO.
Definition quad_zero : QuadFelt := quad_new ZERO ZERO.

Lemma cons_eq (x y : felt) l l' : x = y -> l = l' -> x :: l = y :: l'.
Proof. by intros -> ->. Qed.

Lemma ext2_add_ok x y l : execs (quad_on y (quad_on x l)) ext2_add (quad_on (quad_add x y) (pad_to 14 l)).
Proof.
  unfold ext2_add, quad_on. exec_all. rewrite quad_add_new, coef0_new, coef1_new.
  apply cons_eq; [ring|]. apply cons_eq; [ring|done].
Qed.

Lemma ext2_sub_ok x y l : execs (quad_on y (quad_on x l)) ext2_sub (quad_on (quad_sub x y) (pad_to 14 l)).
Proof.
  unfold ext2_sub, quad_on. exec_all. rewrite quad_sub_new, coef0_new, coef1_new.
  apply cons_eq; [ring|]. apply cons_eq; [ring|done].
Qed.

Lemma ext2_neg_ok x l : execs (quad_on x l) ext2_neg (quad_on (quad_sub quad_zero x) l).
Proof.
  unfold ext2_neg, quad_on, quad_zero. exec_all. rewrite quad_sub_new, !coef0_new, !coef1_new.
  apply cons_eq; [ring|]. apply cons_eq; [ring|done].
Qed.

Lemma ext2_mul_ok x y l : execs (quad_on y (quad_on x l)) ext2_mul (quad_on (quad_mul x y) (pad_to 14 l)).
Proof. unfold ext2_mul, quad_on. exec_all. by rewrite !quad_eta. Qed.

(** ** Inversion *)

Lemma quad_mul_comm x y : quad_mul x y = quad_mul y x.
Proof. rewrite !quad_mul_new. f_equal; ring. Qed.
Lemma quad_mul_assoc x y z : quad_mul x (quad_mul y z) = quad_mul (quad_mul x y) z.
Proof. rewrite !quad_mul_new, !coef0_new, !coef1_new. f_equal; ring. Qed.
Lemma quad_mul_1_r x : quad_mul x quad_one = x.
Proof.
  unfold quad_one. rewrite quad_mul_new, coef0_new, coef1_new. rewrite <-(quad_eta x) at 5. f_equal; ring.
Qed.

(** At most one element is an inverse. *)
Lemma quad_inverse_unique x y z : quad_mul x y = quad_one -> quad_mul x z = quad_one -> y = z.
Proof.
  intros Hy Hz. rewrite <-(quad_mul_1_r y), <-Hz, quad_mul_assoc, (quad_mul_comm y), Hy.
  rewrite quad_mul_comm. apply quad_mul_1_r.
Qed.

Lemma quad_mul_0_l x : quad_mul quad_zero x = quad_zero.
Proof. unfold quad_zero. rewrite quad_mul_new, !coef0_new, !coef1_new. f_equal; ring. Qed.

Lemma quad_inverse_iff x y : quad_mul x y = quad_one <-> x <> quad_zero /\ y = quad_inverse x.
Proof.
  split; [|intros [Hx ->]; by apply quad_inverse_mul].
  intros Hy. assert (Hx : x <> quad_zero).
  { intros ->. rewrite quad_mul_0_l in Hy. apply (f_equal coef0) in Hy. unfold quad_zero, quad_one in Hy.
    rewrite !coef0_new in Hy. by apply ONE_neq_ZERO. }
  split; [done|]. eapply quad_inverse_unique; [done|]. by apply quad_inverse_mul.
Qed.

Abbreviation iproc := (Proc (list felt)).

(** Replace the advice stack. *)
Definition set_adv (st : list felt) (q : iproc) : iproc := with_advice (with_adv_stack st (advice q)) q.

Lemma run_advpop v st l ops (q : iproc) : adv_stack (advice q) = v :: st ->
  execute_ops (AdvPop :: ops) (with_stack l q) = execute_ops ops (with_stack (v :: l) (set_adv st q)).
Proof.
  intros H. cbn [execute_ops execute_op]. unfold mbind, M_bind. cbn.
  unfold op_advpop, on_advice, pop_stack, mbind, M_bind. cbn. by rewrite H.
Qed.

Lemma fail_advpop l ops (q : iproc) : adv_stack (advice q) = [] ->
  execute_ops (AdvPop :: ops) (with_stack l q) = Err (AdviceErr StackReadFailed).
Proof.
  intros H. cbn [execute_ops execute_op]. unfold mbind, M_bind. cbn.
  unfold op_advpop, on_advice, pop_stack, mbind, M_bind. cbn. by rewrite H.
Qed.

Definition check_ext2_inv : list Operation :=
  [Ext2Mul; MovUp3; Eqz; Assert ZERO; MovUp2; Assert ZERO].

Lemma check_ext2_inv_ok x y l : quad_mul x y = quad_one ->
  execs (quad_on y (quad_on x l)) check_ext2_inv (quad_on y (pad_to 14 l)).
Proof.
  intros Hxy. unfold check_ext2_inv, quad_on, quad_one in *. steps 2. step_op.
  rewrite !quad_eta, Hxy, coef0_new, coef1_new. rewrite bool_decide_true by done. exec_all. done.
Qed.

Lemma check_ext2_inv_fails x y l : quad_mul x y <> quad_one ->
  fails (quad_on y (quad_on x l)) check_ext2_inv (OperationErr (FailedAssertion ZERO)).
Proof.
  intros Hxy. unfold check_ext2_inv, quad_on, quad_one in *. steps 3. rewrite !quad_eta.
  case_bool_decide as H1; [|by apply fails_assert_bit]. cbn [bit]. steps 2.
  apply fail_assert. intros H0. apply Hxy. rewrite <-(quad_eta (quad_mul x y)). by rewrite H0, H1.
Qed.

(** The two coefficients are popped high coefficient first. *)
Lemma verify_ext2_inv_eq x y st l (q : iproc) : adv_stack (advice q) = coef1 y :: coef0 y :: st ->
  execute_ops verify_ext2_inv (with_stack (quad_on x l) q) =
  if bool_decide (quad_mul x y = quad_one)
  then Ok ((), with_stack (quad_on y (pad_to 14 l)) (set_adv st q))
  else Err (OperationErr (FailedAssertion ZERO)).
Proof.
  intros H. change verify_ext2_inv with (AdvPop :: AdvPop :: check_ext2_inv).
  erewrite run_advpop, run_advpop by (try apply H; done).
  case_bool_decide as Hxy; [by rewrite (check_ext2_inv_ok x y l Hxy)|by rewrite (check_ext2_inv_fails x y l Hxy)].
Qed.

(** The quotient: the product with the inverse. *)
Lemma ext2_div_tail_eq z x y st l (q : iproc) : adv_stack (advice q) = coef1 y :: coef0 y :: st ->
  execute_ops (verify_ext2_inv ++ [Ext2Mul; Drop; Drop]) (with_stack (quad_on x (quad_on z l)) q) =
  if bool_decide (quad_mul x y = quad_one)
  then Ok ((), with_stack (quad_on (quad_mul z y) (pad_to 14 l)) (set_adv st q))
  else Err (OperationErr (FailedAssertion ZERO)).
Proof.
  intros H. rewrite execute_ops_app, (verify_ext2_inv_eq x y st) by done.
  case_bool_decide as Hxy; [|done]. cbn [mbind outcome_bind]. cbn.
  pose proof (ext2_mul_ok z y (pad_to 12 l) (set_adv st q)) as Hm. revert Hm.
  unfold quad_on, ext2_mul. rewrite !pad_to_cons, pad_to_pad_to by lia. intros Hm. exact Hm.
Qed.

(** ** Immediates

    Each immediate form does what pushing the immediate and executing the operation does. *)

Lemma push_value_ok v l : execs l (push_value_ops v) (v :: l).
Proof.
  unfold push_value_ops. case_bool_decide as H0; [|case_bool_decide as H1]; subst; exec_all; try done.
  by rewrite zero_plus_one.
Qed.

Lemma push_many_ok vs l : execs l (push_many vs) (reverse vs ++ l).
Proof.
  revert l. induction vs as [|v vs IH]; intros l; [apply execs_nil|].
  unfold push_many. cbn [flat_map]. eapply execs_app; [apply push_value_ok|].
  eapply execs_eq; [apply IH|]. by rewrite reverse_cons, <-app_assoc.
Qed.

Lemma push_word_ok w l : execs l (push_word w) (word_elements w ++ l).
Proof.
  unfold push_word. eapply execs_eq; [apply push_many_ok|]. by rewrite reverse_involutive.
Qed.

Lemma add_imm_ok imm a l : (15 <= length l)%nat -> execs (a :: l) (add_imm imm) ((a + imm)%F :: l).
Proof.
  intros Hl. unfold add_imm. repeat case_bool_decide; subst; exec_all; rewrite ?pad_to_long by done;
    (apply cons_eq; [|done]); [ring|done| |done].
  assert (TWO = ONE + ONE)%F as ->; [|ring]. unfold TWO.
  rewrite <-fe_1, fe_add by (unfold modulus; lia). done.
Qed.

Lemma sub_imm_ok imm a l : (15 <= length l)%nat -> execs (a :: l) (sub_imm imm) ((a - imm)%F :: l).
Proof.
  intros Hl. unfold sub_imm. case_bool_decide; subst; exec_all; rewrite ?pad_to_long by done;
    (apply cons_eq; [ring|done]).
Qed.

Lemma mul_imm_ok imm a l : (15 <= length l)%nat ->
  execs (a :: l) (mul_imm imm)
    ((a * imm)%F :: if bool_decide (imm = ZERO) then pad_to 16 l else l).
Proof.
  intros Hl. unfold mul_imm. repeat case_bool_decide; subst.
  - eapply execs_cons; [apply run_drop|]. exec_all. apply cons_eq; [ring|done].
  - exec_all. apply cons_eq; [ring|done].
  - exec_all. by rewrite pad_to_long by done.
Qed.

Lemma div_imm_ok imm ops a l : div_imm imm = Some ops -> (15 <= length l)%nat ->
  exists c, execs (a :: l) ops (c :: l) /\ (c * imm)%F = a /\ imm <> ZERO.
Proof.
  unfold div_imm. intros H Hl. repeat case_bool_decide; subst; simplify_eq.
  - exists a. split; [exec_all; done|]. split; [ring|apply ONE_neq_ZERO].
  - eexists. split; [exec_all; by rewrite pad_to_long by done|]. split; [|done].
    transitivity (a * (inverse imm * imm))%F; [ring|]. rewrite inverse_mul by done. ring.
Qed.

Lemma eq_imm_ok imm a l : (15 <= length l)%nat ->
  execs (a :: l) (eq_imm imm) (bit (bool_decide (a = imm)) :: l) /\
  execs (a :: l) (neq_imm imm) (bit (bool_decide (a <> imm)) :: l).
Proof.
  intros Hl. rewrite bool_decide_not. unfold eq_imm, neq_imm.
  case_bool_decide as H; subst; split; exec_all; by rewrite ?pad_to_long by done.
Qed.

(** *** Exponentiation by an immediate *)

Lemma dup_mul_pow k a l : (15 <= length l)%nat ->
  execs (a :: l) (replicate k Dup0 ++ replicate k Mul) (felt_pow a (S k) :: l).
Proof.
  intros Hl.
  assert (forall k l, execs (a :: l) (replicate k Dup0) (replicate (S k) a ++ l)) as Hdup.
  { clear. induction k as [|k IH]; intros l; [apply execs_nil|].
    eapply execs_cons; [apply run_dup0|]. eapply execs_eq; [apply IH|].
    replace (S (S k)) with (S k + 1)%nat by lia. by rewrite replicate_add, <-app_assoc. }
  assert (forall k c, execs (c :: replicate k a ++ l) (replicate k Mul) ((felt_pow a k * c)%F :: l)) as Hmul.
  { clear k. induction k as [|k IH]; intros c.
    - eapply execs_eq; [apply execs_nil|]. apply cons_eq; [simpl; ring|done].
    - cbn [replicate app]. eapply execs_cons; [apply run_mul|].
      rewrite pad_to_long by (rewrite length_app; lia).
      eapply execs_eq; [apply IH|]. apply cons_eq; [simpl; ring|done]. }
  eapply execs_app; [apply Hdup|]. eapply execs_eq; [apply Hmul|].
  apply cons_eq; [simpl; ring|done].
Qed.

Lemma small_power pow ops a l : perform_exp_for_small_power pow = Some ops -> (15 <= length l)%nat ->
  execs (a :: l) ops (felt_pow a (Z.to_nat pow) :: if pow =? 0 then pad_to 16 l else l).
Proof.
  intros H Hl. destruct (Z.eqb_spec pow 0) as [->|Hne].
  { cbn in H. simplify_eq. change (Z.to_nat 0) with 0%nat. exec_all. by rewrite zero_plus_one. }
  assert (exists k, Z.to_nat pow = S k /\ (ops = replicate k Dup0 ++ replicate k Mul \/ (k = 0%nat /\ ops = [Noop])))
    as (k & -> & [->|[-> ->]]).
  { destruct pow as [|[[[]|[]|]|[[]|[]|]|]|]; try done; cbn in H; simplify_eq;
      first [exists 6%nat; by auto|exists 5%nat; by auto|exists 4%nat; by auto|exists 3%nat; by auto
            |exists 2%nat; by auto|exists 1%nat; by auto|exists 0%nat; by auto]. }
  - by apply dup_mul_pow.
  - exec_all. apply cons_eq; [simpl; ring|done].
Qed.

Lemma exp_imm_ok pow ops a l : exp_imm pow = Some ops -> (15 <= length l)%nat ->
  execs (a :: l) ops (felt_pow a (Z.to_nat ⟦pow⟧) :: if ⟦pow⟧ =? 0 then pad_to 16 l else l).
Proof.
  unfold exp_imm. intros H Hl. destruct (Z.leb_spec ⟦pow⟧ 7) as [|Hgt]; [by apply small_power|].
  destruct (exp (Z.log2 ⟦pow⟧ + 1)) as [eops|] eqn:He; [|done]. cbn in H. simplify_eq.
  pose proof (canonical_range pow) as Hr. destruct (Z.log2_spec ⟦pow⟧) as [_ Hlog]; [lia|].
  rewrite (proj2 (Z.eqb_neq _ 0)) by lia.
  pose proof (Z.log2_nonneg ⟦pow⟧).
  destruct (exp_correct (Z.log2 ⟦pow⟧ + 1) _ a ⟦pow⟧ l ltac:(lia) He Hr) as [Hok _].
  rewrite new_canonical in Hok.
  eapply execs_cons; [apply run_push|]. eapply execs_eq; [apply Hok|].
  - rewrite Z.add_1_r. lia.
  - by rewrite pad_to_long by done.
Qed.

(** Every immediate exponent is accepted. *)
Lemma exp_imm_total pow : is_Some (exp_imm pow).
Proof.
  unfold exp_imm. pose proof (canonical_range pow) as Hr. destruct (Z.leb_spec ⟦pow⟧ 7) as [Hle|Hgt].
  - assert (⟦pow⟧ = 0 \/ ⟦pow⟧ = 1 \/ ⟦pow⟧ = 2 \/ ⟦pow⟧ = 3 \/ ⟦pow⟧ = 4 \/ ⟦pow⟧ = 5 \/ ⟦pow⟧ = 6 \/ ⟦pow⟧ = 7)
      as H by lia. intuition; match goal with H : ⟦pow⟧ = _ |- _ => rewrite H end; by eexists.
  - assert (Z.log2 ⟦pow⟧ < 64) as Hlt.
    { apply Z.log2_lt_pow2; [lia|]. change (2 ^ 64) with 18446744073709551616. unfold modulus in Hr. lia. }
    unfold exp, MAX_EXP_BITS. rewrite (proj2 (Z.ltb_ge _ _)) by lia. by eexists.
Qed.

(** ** Words: equality and assertion *)

Lemma eqw_ok (u v : Word) l : (8 <= length l)%nat ->
  execs (word_elements v ++ word_elements u ++ l) eqw
    (bit (bool_decide (u = v)) :: word_elements v ++ word_elements u ++ l).
Proof.
  destruct u as [a b c d], v as [a' b' c' d']. intros Hl. cbn [word_elements app w0 w1 w2 w3].
  unfold eqw. exec_all. rewrite !pad_to_long by (simpl; lia). apply cons_eq; [|done]. f_equal.
  repeat case_bool_decide; naive_solver.
Qed.

(** Compare and assert. *)
Ltac check_eq :=
  first
    [ eapply execs_cons; [apply run_eq|]; norm_stack; rewrite bool_decide_true by done; step_op
    | eapply fails_cons; [apply run_eq|]; norm_stack;
      case_bool_decide; [cbn [bit]; step_op|by apply fails_assert_bit] ].

Lemma assertw_ok e (w : Word) l :
  execs (word_elements w ++ word_elements w ++ l) (assertw e) (pad_to 16 l).
Proof.
  destruct w as [a b c d]. cbn [word_elements app w0 w1 w2 w3]. unfold assertw.
  do 3 (step_op; check_eq). check_eq. apply execs_nil.
Qed.

Lemma assertw_fails e (u v : Word) l : u <> v ->
  fails (word_elements v ++ word_elements u ++ l) (assertw e) (OperationErr (FailedAssertion e)).
Proof.
  destruct u as [a b c d], v as [a' b' c' d']. intros Hne. cbn [word_elements app w0 w1 w2 w3]. unfold assertw.
  do 3 (step_op; check_eq). check_eq.
  exfalso. congruence.
Qed.

Lemma is_odd_ok n l : 0 <= n < modulus -> execs (fe n :: l) is_odd (bit (Z.odd n) :: pad_to 15 l).
Proof.
  intros Hn. destruct (modulus_split n Hn) as [Hlo _]. unfold is_odd.
  eapply execs_cons; [by apply run_u32split|]. steps 4. rewrite zero_plus_one, <-fe_1.
  eapply execs_cons; [apply run_u32and; [unfold u32; lia|done]|]. norm_stack.
  eapply execs_eq; [apply execs_nil|]. apply cons_eq; [|done].
  rewrite Z.land_comm, (Z.land_ones _ 1 ltac:(done) : Z.land _ 1 = _ mod 2).
  change (2 ^ 32) with (2 * 2147483648). rewrite Z.mod_mod_divide by (exists 2147483648; done). rewrite Zmod_odd.
  destruct (Z.odd n); cbn [bit]; [apply fe_1|apply fe_0].
Qed.
End AsmExt2.
