(* ===== verification/AsmEvents.v ===== *)
(** * Instructions that ask the host for advice

    [u32clz], [u32ctz], [u32clo], [u32cto], [ilog2], [ext2inv] and [ext2div] emit a system
    event, pop the advice it pushed, and check it.  Here the whole instruction is
    run, event included, inside a basic block: with the processor's own event
    handler the check always passes, the result is the specified one, and the advice
    stack is left as it was. *)

From S2P Require Import Prelude Bits Field Types Events Operations OperandStack Memory Advice Processor SysEvents.
From S2P Require Import Execution Frame Stepping BasicBlocks OpSpecs Assembly AsmField AsmCount AsmExt2.
Import Op FieldOps Ext2Ops U32Ops.
#[local] Open Scope Z_scope.

Section AsmEvents.
Context {F : Felt} {Q : Quad} {C : Crypto} {HO : Host}.
Abbreviation EState := (EState (St := list felt)).
Abbreviation iproc := (Proc (list felt)).

(** [ops], run in a block on a state with the stack [l], leaves [l'] and takes one cycle
    per operation; [k] free places of the advice stack are used in between. *)
Definition completes (k : nat) (l : list felt) (ops : list Operation) (l' : list felt) : Prop :=
  forall s : EState, stack (processor s) = l -> cycles_left (length ops) s ->
    (length (adv_stack (advice (processor s))) + k <= MAX_ADVICE_STACK_SIZE)%nat ->
    run_ops ops s = XOk (after_cycles (length ops) (with_stack l' (processor s)) s).

(** [ops] is rejected with the error [e]. *)
Definition aborts (l : list felt) (ops : list Operation) (e : ExecutionError) : Prop :=
  forall s : EState, stack (processor s) = l -> cycles_left (length ops) s -> run_ops ops s = XErr e.

Lemma event_felt ev : ⟦(fe (event_id ev) : felt)⟧ = event_id ev.
Proof. apply fe_canonical, event_id_range. Qed.

Lemma with_stack_eta (q : iproc) l : stack q = l -> with_stack l q = q.
Proof. by destruct q; cbn; intros ->. Qed.

Lemma xrun_Ok {A} (m : M A) (k : A -> X) (s : EState) a p : m (processor s) = Ok (a, p) ->
  xrun m k s = k a (with_processor p s).
Proof. intros H. unfold xrun. by rewrite H. Qed.

(** The system event that the pushed identifier names is handled. *)
Lemma run_system_event ev (s : EState) q : (16 <= length (stack (processor s)))%nat ->
  cycles_left 3 s ->
  handle_system_event ev (with_stack (fe (event_id ev) :: stack (processor s)) (with_clk (clk (processor s) + 1) (processor s))) =
    Ok ((), q) ->
  run_ops (push_system_event ev) s =
    XOk (with_processor (with_clk (clk (processor s) + 3) (with_stack (stack (processor s)) q)) s).
Proof.
  intros Hlen [Hc Hn] Hev. destruct s as [p cs f h]. cbn [processor continuation_stack] in *.
  pose proof (adv_only_handle_system_event ev _ _ _ Hev) as Hq. unfold adv_only in Hq. cbn in Hq.
  revert Hev. rewrite Hq. generalize (advice q). clear q Hq. intros a Hev.
  unfold push_system_event. cbn [run_ops].
  rewrite (xthen_Ok _ _ _ (mkEState (with_stack (fe (event_id ev) :: stack p) p) cs f h)) by done.
  rewrite (xthen_Ok cycle _ _ (mkEState (with_stack (fe (event_id ev) :: stack p) (with_clk (clk p + 1) p)) cs f h))
    by (rewrite (cycle_Ok _ 2); [done|split; cbn; lia]).
  set (q := with_advice _ _) in *. rewrite (xthen_Ok _ _ _ (mkEState q cs f h)).
  2: { cbn [run_op]. unfold op_emit_sync. rewrite (xrun_Ok _ _ _ (fe (event_id ev)) (with_stack (fe (event_id ev) :: stack p) (with_clk (clk p + 1) p))) by done.
       rewrite event_felt, from_event_id_event_id. by rewrite (xrun_Ok _ _ _ () q) by done. }
  rewrite (xthen_Ok cycle _ _ (mkEState (with_clk (clk p + 1 + 1) q) cs f h))
    by (rewrite (cycle_Ok _ 1); [done|split; cbn; lia]).
  rewrite (xthen_Ok _ _ _ (mkEState (with_clk (clk p + 1 + 1) (with_stack (stack p) q)) cs f h)).
  2: { cbn [run_op]. destruct (run_drop (fe (event_id ev)) (stack p) (with_clk (clk p + 1 + 1) q)) as [hh Hd].
       rewrite pad_to_stack in Hd by done. etransitivity; [eapply xrun_Ok, Hd|done]. }
  rewrite (xthen_Ok cycle _ _ (mkEState (with_clk (clk p + 1 + 1 + 1) (with_stack (stack p) q)) cs f h))
    by (rewrite (cycle_Ok _ 0); [done|split; cbn; lia]).
  unfold xret, with_processor. cbn. by replace (clk p + 1 + 1 + 1) with (clk p + 3) by lia.
Qed.

(** An instruction that starts with an event: the handler pushes [vs] on the advice stack,
    and the rest pops them. *)
Lemma completes_event k ev vs rest l l' : (16 <= length l)%nat -> forallb plain rest = true ->
  (forall q : iproc, stack q = fe (event_id ev) :: l ->
     (length (adv_stack (advice q)) + k <= MAX_ADVICE_STACK_SIZE)%nat ->
     handle_system_event ev q = Ok ((), set_adv (vs ++ adv_stack (advice q)) q)) ->
  (forall (q : iproc) st, adv_stack (advice q) = vs ++ st ->
     execute_ops rest (with_stack l q) = Ok ((), with_stack l' (set_adv st q))) ->
  completes k l (push_system_event ev ++ rest) l'.
Proof.
  intros Hlen Hplain Hev Hrest s Hs Hc Ha. rewrite run_ops_app.
  set (p := processor s) in *. set (p1 := with_stack (fe (event_id ev) :: stack p) (with_clk (clk p + 1) p)).
  assert (cycles_left 3 s /\ forall q, clk q = clk p + 3 -> options q = options p ->
    cycles_left (length rest) (with_processor q s)) as [Hc3 Hcr].
  { destruct Hc as [H1 H2]. rewrite length_app in H1. cbn [length push_system_event] in H1. fold p in H1, H2.
    split; [split; cbn; fold p; [lia|done]|]. intros q Hq1 Hq2. split; cbn; rewrite ?Hq1, Hq2; [lia|done]. }
  assert (handle_system_event ev p1 = Ok ((), set_adv (vs ++ adv_stack (advice p)) p1)) as He.
  { apply (Hev p1); cbn; [by rewrite Hs|done]. }
  rewrite (xthen_Ok _ _ _ _ (run_system_event ev s _ ltac:(by fold p; rewrite Hs) Hc3 He)). fold p.
  set (p2 := with_clk (clk p + 3) _).
  erewrite (execute_ops_run _ _ (with_stack l' (set_adv (adv_stack (advice p)) p2))); [|done|by apply Hcr|].
  - unfold after_cycles, set_adv, with_adv_stack, p2. destruct s as [[? ? ? ? advice] ? ? ?]. cbn -[Z.add Z.of_nat] in *.
    unfold with_processor. cbn -[Z.add Z.of_nat]. unfold p. cbn -[Z.add Z.of_nat].
    do 2 f_equal. unfold with_clk, with_stack. cbn -[Z.add Z.of_nat]. f_equal.
    + lia.
    + by destruct advice.
  - cbn [processor with_processor]. rewrite <-(Hrest p2 (adv_stack (advice p))) by done.
    f_equal. unfold p2. cbn. by rewrite Hs.
Qed.

(** A handler that fails makes the instruction fail. *)
Lemma aborts_event ev rest l e : (forall q : iproc, stack q = fe (event_id ev) :: l ->
    handle_system_event ev q = Err e) -> aborts l (push_system_event ev ++ rest) e.
Proof.
  intros Hev s Hs [H1 H2]. rewrite length_app in H1. cbn [length push_system_event] in H1.
  unfold push_system_event. cbn [app run_ops]. destruct s as [p cs f h]. cbn [processor continuation_stack] in *.
  rewrite (xthen_Ok _ _ _ (mkEState (with_stack (fe (event_id ev) :: stack p) p) cs f h)) by done.
  rewrite (xthen_Ok cycle _ _ (mkEState (with_stack (fe (event_id ev) :: stack p) (with_clk (clk p + 1) p)) cs f h))
    by (rewrite (cycle_Ok _ (2 + length rest)); [done|split; cbn; lia]).
  apply xthen_Err. cbn [run_op]. unfold op_emit_sync.
  rewrite (xrun_Ok _ _ _ (fe (event_id ev)) (with_stack (fe (event_id ev) :: stack p) (with_clk (clk p + 1) p))) by done.
  rewrite event_felt, from_event_id_event_id. unfold xrun. rewrite Hev; [done|]. cbn. by rewrite Hs.
Qed.

(** ** Handlers that push one value *)

Lemma push_stack_Ok (a : AdviceProvider) v : (length (adv_stack a) + 1 <= MAX_ADVICE_STACK_SIZE)%nat ->
  push_stack a v = Ok (with_adv_stack (v :: adv_stack a) a).
Proof.
  intros H. unfold push_stack, check_stack_capacity. by rewrite (proj2 (Nat.ltb_ge _ _)) by lia.
Qed.

Lemma adv_push_Ok (q : iproc) v : (length (adv_stack (advice q)) + 1 <= MAX_ADVICE_STACK_SIZE)%nat ->
  adv (fun a => push_stack a v) q = Ok ((), set_adv (v :: adv_stack (advice q)) q).
Proof. intros H. unfold adv, on_advice. by rewrite push_stack_Ok. Qed.

Lemma push_transformed_Ok f x l n (q : iproc) : stack q = x :: fe n :: l -> u32 n ->
  (length (adv_stack (advice q)) + 1 <= MAX_ADVICE_STACK_SIZE)%nat ->
  push_transformed_stack_top f q = Ok ((), set_adv (f n :: adv_stack (advice q)) q).
Proof.
  intros Hq Hn Ha. unfold push_transformed_stack_top, get, mbind, M_bind. cbn. rewrite Hq. cbn.
  rewrite fe_u32 by done. rewrite (proj2 (Z.ltb_ge _ _)) by (unfold U32_MAX, u32 in *; lia). by apply adv_push_Ok.
Qed.

Lemma push_transformed_Err f x y l (q : iproc) : stack q = x :: y :: l -> 2 ^ 32 <= ⟦y⟧ ->
  push_transformed_stack_top f q = Err (OperationErr (NotU32Values [y])).
Proof.
  intros Hq Hn. unfold push_transformed_stack_top, get, mbind, M_bind. cbn. rewrite Hq. cbn.
  by rewrite (proj2 (Z.ltb_lt _ _)) by (unfold U32_MAX; lia).
Qed.

Lemma pop_and_check v l verify l' : execs (v :: l) verify l' ->
  forall (q : iproc) st, adv_stack (advice q) = [v] ++ st ->
    execute_ops (AdvPop :: verify) (with_stack l q) = Ok ((), with_stack l' (set_adv st q)).
Proof. intros Hv q st Hq. rewrite (run_advpop v st) by done. apply Hv. Qed.

Lemma from_u32_fe z : u32 z -> from_u32 z = fe z.
Proof. intros Hz. apply canonical_inj. rewrite fe_u32 by done. by apply canonical_from_u32. Qed.

Lemma completes_count ev f verify n l : u32 n -> u32 (f n) -> (15 <= length l)%nat -> forallb plain verify = true ->
  (forall q : iproc, handle_system_event ev q = push_transformed_stack_top (fun n => from_u32 (f n)) q) ->
  execs (fe (f n) :: fe n :: l) verify (fe (f n) :: l) -> 
  completes 1 (fe n :: l) (push_system_event ev ++ [AdvPop] ++ verify) (fe (f n) :: l).
Proof.
  intros Hn Hf Hl Hp Hev Hv. apply (completes_event _ _ [fe (f n)]); [cbn; lia|done| |by apply pop_and_check].
  intros q Hq Ha. rewrite Hev. rewrite <-from_u32_fe by done.
  exact (push_transformed_Ok (fun n => from_u32 (f n)) _ l n q Hq Hn Ha).
Qed.

Lemma aborts_count ev f rest y l : 2 ^ 32 <= ⟦y⟧ ->
  (forall q : iproc, handle_system_event ev q = push_transformed_stack_top f q) ->
  aborts (y :: l) (push_system_event ev ++ rest) (OperationErr (NotU32Values [y])).
Proof.
  intros Hy Hev. apply aborts_event. intros q Hq. rewrite Hev. by eapply push_transformed_Err.
Qed.

Lemma count_stack (v : felt) l : (15 <= length l)%nat -> v :: pad_to 15 l = v :: l.
Proof. intros. by rewrite pad_to_long. Qed.

Ltac count_range :=
  unfold leading_ones, trailing_ones;
  match goal with
  | |- u32 (leading_zeros ?n) => pose proof (leading_zeros_range n)
  | |- u32 (trailing_zeros ?n) => pose proof (trailing_zeros_range n)
  end; unfold u32 in *; lia.

Lemma u32clz_completes n l : u32 n -> (15 <= length l)%nat ->
  completes 1 (fe n :: l) u32clz (fe (leading_zeros n) :: l).
Proof.
  intros Hn Hl. apply completes_count; [done|by count_range|done..|]. eapply execs_eq; [by apply verify_clz_ok|by apply count_stack].
Qed.
Lemma u32ctz_completes n l : u32 n -> (15 <= length l)%nat ->
  completes 1 (fe n :: l) u32ctz (fe (trailing_zeros n) :: l).
Proof.
  intros Hn Hl. apply completes_count; [done|by count_range|done..|]. eapply execs_eq; [by apply verify_ctz_ok|by apply count_stack].
Qed.
Lemma u32clo_completes n l : u32 n -> (15 <= length l)%nat ->
  completes 1 (fe n :: l) u32clo (fe (leading_ones n) :: l).
Proof.
  intros Hn Hl. apply completes_count; [done|by count_range|done..|]. eapply execs_eq; [by apply verify_clo_ok|by apply count_stack].
Qed.
Lemma u32cto_completes n l : u32 n -> (15 <= length l)%nat ->
  completes 1 (fe n :: l) u32cto (fe (trailing_ones n) :: l).
Proof.
  intros Hn Hl. apply completes_count; [done|by count_range|done..|]. eapply execs_eq; [by apply verify_cto_ok|by apply count_stack].
Qed.

(** ** [ilog2] *)

Lemma ilog2_completes n l : 0 < n < modulus -> (15 <= length l)%nat ->
  completes 1 (fe n :: l) ilog2 (fe (Z.log2 n) :: l).
Proof.
  intros Hn Hl.
  assert (0 <= Z.log2 n < 64) as Hk.
  { split; [apply Z.log2_nonneg|]. apply Z.log2_lt_pow2; unfold modulus in Hn; lia. }
  apply (completes_event _ _ [fe (Z.log2 n)]); [cbn; lia|done| |].
  - intros q Hq Ha. cbn [handle_system_event]. unfold push_ilog2, get, mbind, M_bind. cbn. rewrite Hq. cbn.
    rewrite fe_canonical by lia. rewrite (proj2 (Z.eqb_neq _ _)) by lia.
    rewrite <-from_u32_fe by (unfold u32; lia). by apply adv_push_Ok.
  - apply pop_and_check. eapply execs_eq; [apply verify_ilog2_ok; [done|lia|split; [lia|done]]|by apply count_stack].
Qed.

Lemma ilog2_zero_aborts l : aborts (ZERO :: l) ilog2 (OperationErr LogArgumentZero).
Proof.
  apply aborts_event. intros q Hq. cbn [handle_system_event]. unfold push_ilog2, get, mbind, M_bind.
  cbn. rewrite Hq. cbn. by rewrite canonical_ZERO.
Qed.

(** ** [ext2inv] and [ext2div] *)

Lemma push_ext2_inv_Ok id x l (q : iproc) : stack q = id :: quad_on x l -> x <> quad_new ZERO ZERO ->
  (length (adv_stack (advice q)) + 2 <= MAX_ADVICE_STACK_SIZE)%nat ->
  push_ext2_inv_result q =
  Ok ((), set_adv ([coef1 (quad_inverse x); coef0 (quad_inverse x)] ++ adv_stack (advice q)) q).
Proof.
  intros Hq Hx Ha. unfold push_ext2_inv_result, get, mbind, M_bind. cbn. rewrite Hq. cbn.
  rewrite Hq. cbn. rewrite quad_eta, bool_decide_false by done. rewrite adv_push_Ok by (cbn; lia).
  cbn. rewrite adv_push_Ok; [done|]. cbn. lia.
Qed.

Lemma ext2_inv_completes x l : x <> quad_new ZERO ZERO -> (14 <= length l)%nat ->
  completes 2 (quad_on x l) ext2_inv (quad_on (quad_inverse x) l).
Proof.
  intros Hx Hl. apply (completes_event _ _ [coef1 (quad_inverse x); coef0 (quad_inverse x)]); [cbn; lia|done| |].
  - intros q Hq Ha. by eapply (push_ext2_inv_Ok _ x l).
  - intros q st Hq. rewrite (verify_ext2_inv_eq x (quad_inverse x) st) by done.
    rewrite bool_decide_true by by apply quad_inverse_mul. by rewrite pad_to_long.
Qed.

Lemma ext2_div_completes x z l : x <> quad_new ZERO ZERO -> (14 <= length l)%nat ->
  completes 2 (quad_on x (quad_on z l)) ext2_div (quad_on (quad_mul z (quad_inverse x)) l).
Proof.
  intros Hx Hl. apply (completes_event _ _ [coef1 (quad_inverse x); coef0 (quad_inverse x)]); [cbn; lia|done| |].
  - intros q Hq Ha. by eapply (push_ext2_inv_Ok _ x (quad_on z l)).
  - intros q st Hq. rewrite (ext2_div_tail_eq z x (quad_inverse x) st) by done.
    rewrite bool_decide_true by by apply quad_inverse_mul. by rewrite pad_to_long.
Qed.

Lemma ext2_zero_aborts rest l :
  aborts (quad_on (quad_new ZERO ZERO) l) (push_system_event Ext2Inv ++ rest) (OperationErr DivideByZero).
Proof.
  apply aborts_event. intros q Hq. cbn [handle_system_event].
  unfold push_ext2_inv_result, get, mbind, M_bind. cbn. rewrite Hq. cbn.
  rewrite Hq. cbn. by rewrite quad_eta, bool_decide_true.
Qed.
End AsmEvents.
