(* ===== verification/MachineTheorems.v ===== *)
(** * The machine: main theorems

    What the processor as a whole guarantees: refinement of the ideal stack machine,
    termination, agreement of stepping and running, safety of the operand-stack
    buffer, isolation of contexts, and the meaning of basic blocks.  Each
    theorem is followed by an instance on the Goldilocks field with the toy hasher. *)

From S2P Require Import Prelude Bits Field Goldilocks Types Events Instances Operations OperandStack StackRefinement.
From S2P Require Import Memory Advice Ace Processor SysEvents Frame Execution Stepping BasicBlocks.
From S2P Require Import Contexts Refinement ExecRefinement.
Import Op.
#[local] Open Scope Z_scope.

(** ** A concrete machine for the instances *)
Module Demo.

(** A host that knows no events and no forests. *)
#[global] Instance NoHost : Host := {|
  HostState := unit;
  on_event _ _ := (None, tt);
  get_mast_forest _ _ := (None, tt);
|}.

Definition advice : AdviceProvider := mkAdviceProvider [] ∅ (∅ : ToyCrypto.store) [].
Definition options : ExecutionOptions := mkExecutionOptions 1000 100 100.

(** [begin push.2 push.3 add end], a call of it, and a system call of it. *)
Definition block : MastNode := mkMastNode (Block [[Push (new_unchecked 2); Push (new_unchecked 3); Add]]) EMPTY_WORD.
Definition forest : MastForest :=
  mkMastForest [block; mkMastNode (Call 0%nat false) EMPTY_WORD; mkMastNode (Call 0%nat true) EMPTY_WORD] [0%nat] ∅.
Definition program (entry : MastNodeId) : Program := mkProgram forest entry [EMPTY_WORD].

Definition ideal_stack : list felt := Ideal.pad_to 16 [].
Definition start (entry : MastNodeId) : EState (St := list felt) :=
  mkEState (new_with_options ideal_stack advice options) [StartNode entry] forest tt.

Lemma wf_forest_demo : wf_forest forest.
Proof. by intros [|[|[|?]]] d. Qed.

Lemma wf_host_demo : wf_host.
Proof. by intros h d f h' [=]. Qed.

Lemma wf_start entry : wf_state (start entry).
Proof. split; [apply wf_forest_demo|by repeat constructor|by vm_compute]. Qed.

Lemma related : exists s, Fast.new_stack [] = Ok s /\
  proc_rel (new_with_options s advice options) (new_with_options ideal_stack advice options).
Proof.
  destruct (new_stack_rel []) as (s & Hs & Hr); [cbn; lia|]. exists s. split; [done|]. by apply new_with_options_rel.
Qed.
End Demo.

(** ** Refinement *)
Section Refinement.
Context {F : Felt} {Q : Quad} {C : Crypto} {HO : Host}.

(** C1: A program executed by a fresh processor with the 6850-element operand-stack buffer either
    fails because the buffer is full, or has the outcome it has on a machine whose stack is an
    unbounded list padded with zeros to depth 16: the same outputs and a related final
    state, the same error, or the same panic. *)
Theorem execute_sync_refines (inputs : list felt) : (length inputs <= MIN_STACK_DEPTH)%nat ->
  exists s, Fast.new_stack inputs = Ok s /\
  forall (n : nat) (a : AdviceProvider) (o : ExecutionOptions) (program : Program) (h : HostState),
  let fast := execute_sync n (new_with_options s a o) program h in
  let ideal := execute_sync n (new_with_options (Ideal.pad_to MIN_STACK_DEPTH inputs) a o) program h in
  fast = Some (Err stack_overflow) \/
  match fast, ideal with
  | Some (Ok (o1, p')), Some (Ok (o2, q')) => o1 = o2 /\ proc_rel p' q'
  | Some (Err e1), Some (Err e2) => e1 = e2
  | Some Panic, Some Panic | None, None => True
  | _, _ => False
  end.
Proof.
  intros Hn. destruct (new_stack_rel inputs Hn) as (s & Hs & Hr). exists s. split; [done|].
  intros n a o program h. cbn zeta. by apply execute_sync_rel, new_with_options_rel.
Qed.

(** Every operation other than [EMIT], run on related states of the two machines, leads to
    related states with the same helper registers or to the same error; it never panics,
    and the only extra outcome of the buffer is that it is full. *)
Theorem execute_op_refines (op : Operation) (p : Proc Fast.stack) (q : Proc (list felt)) :
  op <> Emit -> proc_rel p q ->
  outcome_sim (eq stack_overflow) (fun r1 r2 => r1.1 = r2.1 /\ proc_rel r1.2 r2.2)
    (execute_op op p) (execute_op op q).
Proof.
  intros Hop Hpq. eapply outcome_sim_weaken, (psim_execute_op op Hop p q Hpq). by intros ? ? (? & _ & ?).
Qed.

(** What the handlers rely on: the invariant of the buffer and that the saved overflow stacks
    fit back into it. *)
Definition machine_inv (p : Proc Fast.stack) : Prop :=
  stack_inv (stack p) /\ Forall overflow_fits (call_stack p).

(** The ideal processor in the same state. *)
Definition ideal_of (p : Proc Fast.stack) : Proc (list felt) :=
  mkProc _ _ _ (stack_abs (stack p)) (clk p) (ctx p) (caller_hash p) (advice p) (memory p) (call_stack p)
    (options p) (pc_transcript p).

Lemma machine_inv_rel p : machine_inv p -> proc_rel p (ideal_of p).
Proof. intros [H1 H2]. split; try done. by apply stack_rel_abs. Qed.

(** C7: On a processor that satisfies the invariant of the buffer (full size, depth at least 16, top
    inside the buffer, zeros below the bottom) no operation other than [EMIT] panics, and every
    operation that succeeds restores the invariant. *)
Theorem execute_op_safe (op : Operation) (p : Proc Fast.stack) : op <> Emit -> machine_inv p ->
  execute_op op p <> Panic /\
  forall h p', execute_op op p = Ok (h, p') -> machine_inv p' /\ (16 <= length (stack_abs (stack p')))%nat.
Proof.
  intros Hop Hp. pose proof (psim_execute_op op Hop p _ (machine_inv_rel p Hp)) as H.
  inversion H as [[h1 p1] [h2 q2] (_ & _ & Hr)| |]; subst; split; try done. intros h p' [= <- <-].
  pose proof (pr_stack _ _ Hr) as Hs. apply stack_rel_abs in Hs as Hs'. cbn in Hs'. destruct Hs' as [Hi Hl].
  split; [split; [done|by apply Hr]|]. rewrite <-Hl. by eapply rel_depth.
Qed.
End Refinement.

Lemma execute_sync_refines_witness : exists s, Fast.new_stack [ONE] = Ok s /\
  (execute_sync 100 (new_with_options s Demo.advice Demo.options) (Demo.program 0%nat) tt = Some (Err stack_overflow) \/
   match execute_sync 100 (new_with_options s Demo.advice Demo.options) (Demo.program 0%nat) tt,
         execute_sync 100 (new_with_options (Ideal.pad_to MIN_STACK_DEPTH [ONE]) Demo.advice Demo.options)
           (Demo.program 0%nat) tt with
   | Some (Ok (o1, p')), Some (Ok (o2, q')) => o1 = o2 /\ proc_rel p' q'
   | Some (Err e1), Some (Err e2) => e1 = e2
   | Some Panic, Some Panic | None, None => True
   | _, _ => False
   end).
Proof.
  destruct (execute_sync_refines (HO := Demo.NoHost) [ONE]) as (s & Hs & H); [vm_compute; lia|].
  exists s. split; [exact Hs|apply H].
Defined.

Lemma execute_op_refines_witness : exists s, Fast.new_stack [] = Ok s /\
  outcome_sim (eq stack_overflow) (fun r1 r2 => r1.1 = r2.1 /\ proc_rel r1.2 r2.2)
    (execute_op Add (new_with_options s Demo.advice Demo.options))
    (execute_op Add (new_with_options Demo.ideal_stack Demo.advice Demo.options)).
Proof.
  destruct Demo.related as (s & Hs & Hr). exists s. split; [exact Hs|].
  apply execute_op_refines; [discriminate|exact Hr].
Defined.

Lemma execute_op_safe_witness : exists s, Fast.new_stack [] = Ok s /\
  execute_op U32add (new_with_options s Demo.advice Demo.options) <> Panic.
Proof.
  destruct Demo.related as (s & Hs & Hr). exists s. split; [exact Hs|].
  apply execute_op_safe; [discriminate|]. split; [apply Hr|constructor].
Defined.

(** ** Termination and stepping *)
Section Loop.
Context {F : Felt} {Q : Quad} {C : Crypto} {St : Type} `{!StackInterface St} {HO : Host}.

(** C3: Every execution ends: from a well-formed state (no empty basic block in the current forest, in
    the forests to return to or in those the host provides, the clock within its limit) the loop returns a
    result within [measure s] rounds, ten for every cycle left plus the continuations on
    the stack, whichever stopper is used. *)
Theorem execution_terminates (kernel : list Word) (sp : Stopper) (n : nat) (s : EState) :
  wf_host -> wf_state s -> (measure s <= n)%nat -> exists r, execute_impl n sp kernel s = Some r.
Proof. apply execute_impl_terminates. Qed.

(** C6: Executing cycle by cycle is executing: running a program with [NeverStopper] and stepping it with
    [StepStopper], resuming from the returned continuation stack after each cycle until
    it is done, end within the same fuel in the same result (outputs and final state, or
    error). *)
Theorem stepping_is_running (kernel : list Word) (n : nat) (s : EState) :
  wf_host -> wf_state s -> (measure s < n)%nat ->
  exists r, execute_impl n NeverStopper kernel s = Some r /\ step_loop n kernel s = Some r.
Proof. apply run_step_agree. Qed.

(** C16: A basic block means its operations in order: running from a state whose next continuation is
    the start of a basic block gives what one cycle for each batch, then each operation
    (events handled in place) with a cycle each, and a final cycle give, although
    the loop leaves the block at each [EMIT] and resumes it through a continuation. *)
Theorem basic_block_runs_in_order (kernel : list Word) (id : MastNodeId) (cs : ContinuationStack)
    (op_batches : list (list Operation)) (d : Word) (s : EState) (r : flow) :
  continuation_stack s = StartNode id :: cs ->
  nodes (current_forest s) !! id = Some (mkMastNode (Block op_batches) d) -> op_batches <> [] ->
  (exists n, execute_impl n NeverStopper kernel s = Some r) <->
  match run_block op_batches (popped cs s) with
  | XOk s' => exists n, execute_impl n NeverStopper kernel s' = Some r
  | XErr e => r = FErr e
  | XStop oc s' => r = FStopped oc s'
  | XIo _ _ | XPanic => r = FPanic
  end.
Proof. apply run_basic_block. Qed.
End Loop.

Lemma execution_terminates_witness : exists r,
  execute_impl (measure (Demo.start 1%nat)) NeverStopper [] (Demo.start 1%nat) = Some r.
Proof.
  apply execution_terminates; [apply Demo.wf_host_demo|apply Demo.wf_start|apply Nat.le_refl].
Defined.

Lemma stepping_is_running_witness : exists r,
  execute_impl (S (measure (Demo.start 1%nat))) NeverStopper [] (Demo.start 1%nat) = Some r /\
  step_loop (S (measure (Demo.start 1%nat))) [] (Demo.start 1%nat) = Some r.
Proof.
  apply stepping_is_running; [apply Demo.wf_host_demo|apply Demo.wf_start|apply Nat.lt_succ_diag_r].
Defined.

Lemma basic_block_runs_in_order_witness : exists r,
  match run_block [[Push (new_unchecked 2); Push (new_unchecked 3); Add]] (popped [] (Demo.start 0%nat)) with
  | XOk s' => exists n, execute_impl n NeverStopper [] s' = Some r
  | XErr e => r = FErr e
  | XStop oc s' => r = FStopped oc s'
  | XIo _ _ | XPanic => r = FPanic
  end.
Proof.
  destruct (execute_impl_terminates [] NeverStopper (measure (Demo.start 0%nat)) (Demo.start 0%nat)) as [r Hr];
    [apply Demo.wf_host_demo|apply Demo.wf_start|apply Nat.le_refl|].
  exists r. apply (basic_block_runs_in_order [] 0%nat [] _ EMPTY_WORD (Demo.start 0%nat));
    [reflexivity|reflexivity|discriminate|]. exists (measure (Demo.start 0%nat)). exact Hr.
Defined.

(** ** What operations and events leave alone *)
Section Isolation.
Context {F : Felt} {Q : Quad} {C : Crypto} {St : Type} `{!StackInterface St} {HO : Host}.

(** C31: An operation changes no clock, context, caller hash, saved context or option, and
    no memory cell of any context but the current one. *)
Theorem operations_stay_in_context (op : Operation) (p p' : Proc St) h : execute_op op p = Ok (h, p') ->
  clk p' = clk p /\ ctx p' = ctx p /\ caller_hash p' = caller_hash p /\ call_stack p' = call_stack p /\
  options p' = options p /\
  forall c a, c <> ctx p -> mem_cell (memory p') c a = mem_cell (memory p) c a.
Proof. intros H. by destruct (framed_execute_op op p h p' H). Qed.

(** A system event handler changes the advice provider and nothing else: operand stack, memory,
    registers and transcript are those from before. *)
Theorem system_events_change_advice_only (ev : SystemEvent) (p p' : Proc St) u :
  handle_system_event ev p = Ok (u, p') -> p' = with_advice (advice p') p.
Proof. apply adv_only_handle_system_event. Qed.

(** No operation and no system event makes the advice stack exceed its maximum size, and
    none removes a key of the advice map or changes its value. *)
Theorem advice_bounded_and_monotone (p p' : Proc St) :
  (exists op h, execute_op op p = Ok (h, p')) \/ (exists ev u, handle_system_event ev p = Ok (u, p')) ->
  ((length (adv_stack (advice p)) <= MAX_ADVICE_STACK_SIZE)%nat ->
   (length (adv_stack (advice p')) <= MAX_ADVICE_STACK_SIZE)%nat) /\
  forall k v, adv_map (advice p) !! k = Some v -> adv_map (advice p') !! k = Some v.
Proof.
  intros H. assert (evolves (advice p) (advice p')) as [H1 H2].
  { destruct H as [(op & h & H)|(ev & u & H)]; [by eapply evolves_execute_op|by eapply evolves_system_event]. }
  split; [exact H1|]. intros k v Hk. by eapply lookup_weaken.
Qed.

(** C15: A procedure that is called starts in a context of its own, numbered after the clock, with
    the digest of the callee as caller hash and a memory in which every cell is zero except the
    frame pointer: in no execution from a fresh processor has that context been
    written before. *)
Theorem call_starts_with_fresh_memory (kernel : list Word) st a o program h (s0 s s' : EState) id cs callee d :
  get_initial_resume_context (new_with_options st a o) program h = Ok s0 ->
  rtc (step kernel) s0 s ->
  continuation_stack s = StartNode id :: cs ->
  nodes (current_forest s) !! id = Some (mkMastNode (Call callee false) d) ->
  step kernel s s' ->
  ctx (processor s') = clk (processor s) + 1 /\
  (exists n, nodes (current_forest s) !! callee = Some n /\ caller_hash (processor s') = digest n) /\
  forall x, mem_cell (memory (processor s')) (ctx (processor s')) x =
    if decide (x = ⟦FMP_ADDR⟧) then FMP_INIT_VALUE else ZERO.
Proof.
  intros H0 Hr Hc Hn Hs. apply initial_fresh in H0. pose proof (reachable_fresh _ _ _ H0 Hr) as Hf.
  destruct (call_starts_fresh _ _ _ _ _ _ _ Hf Hc Hn Hs) as (H1 & _ & H2 & H3). done.
Qed.

(** C27: A [syscall] enters the root context, keeps the caller hash, and succeeds only when the digest of
    its target is in the kernel. *)
Theorem syscall_targets_kernel (kernel : list Word) (s s' : EState) id cs callee d :
  continuation_stack s = StartNode id :: cs ->
  nodes (current_forest s) !! id = Some (mkMastNode (Call callee true) d) ->
  step kernel s s' ->
  (exists n, nodes (current_forest s) !! callee = Some n /\ digest n ∈ kernel) /\
  ctx (processor s') = root_context /\ caller_hash (processor s') = caller_hash (processor s).
Proof. apply syscall_in_kernel. Qed.
End Isolation.

Section Calls.
Context {F : Felt} {Q : Quad} {C : Crypto}.

(** C26: On the buffer of the processor, for a buffer that holds the stack [l]: saving the context succeeds, the callee starts with exactly the
    top 16 elements of [l] in a buffer whose cells below are zero, and the rest of the processor is as before; when a processor with
    the same call stack then restores the context, with 16 elements [l2] on its stack, the caller gets back its context, caller hash and call
    stack and a buffer that holds [l2] above the elements of [l] below the top 16; with more elements the return is rejected. *)
Theorem save_restore_roundtrip (p : Proc Fast.stack) l : stack_rel (stack p) l ->
  exists p1, save_context_and_truncate_stack p = Ok ((), p1) /\ stack_rel (stack p1) (take 16 l) /\
    p1 = with_call_stack (call_stack p1) (with_stack (stack p1) p) /\
  forall p2 l2, call_stack p2 = call_stack p1 -> stack_rel (stack p2) l2 ->
    (length l2 = 16%nat -> exists p3, restore_context p2 = Ok ((), p3) /\ stack_rel (stack p3) (l2 ++ drop 16 l) /\
       Fast.elements (stack p3) = Ok (l2 ++ drop 16 l) /\
       p3 = with_call_stack (call_stack p) (with_system (ctx p) (caller_hash p) (with_stack (stack p3) p2))) /\
    ((16 < length l2)%nat -> restore_context p2 = Err (OperationErr (InvalidStackDepthOnReturn (length l2)))).
Proof.
  intros Hl. destruct (save_context_Ok p l Hl) as (p1 & E & Hs & Hc & Hp). exists p1. split_and!; [done..|]. intros p2 l2 Hc2 Hl2. split.
  - intros H16. rewrite Hc in Hc2. assert (length (drop 16 l) < Fast.STACK_BUFFER_SIZE - 16)%nat as Hov.
    { rewrite length_drop. destruct (rel_bounds _ _ Hl) as (_ & ? & ? & ->). lia. }
    destruct (restore_context_Ok p2 l2 (drop 16 l) _ _ _ Hl2 H16 Hov Hc2) as (p3 & E3 & Hs3 & Hp3).
    exists p3. split_and!; [done..|by apply elements_rel|done].
  - by apply restore_too_deep.
Qed.
End Calls.

Abbreviation demo_proc := (new_with_options Demo.ideal_stack Demo.advice Demo.options).

Lemma operations_stay_in_context_witness :
  match execute_op MStore demo_proc with
  | Ok (_, p') => mem_cell (memory p') 7 0 = mem_cell ∅ 7 0
  | _ => False
  end.
Proof.
  destruct (execute_op MStore demo_proc) as [[h p']| |] eqn:E; [|discriminate E..].
  exact (proj2 (proj2 (proj2 (proj2 (proj2 (operations_stay_in_context MStore demo_proc p' h E))))) 7 0 ltac:(discriminate)).
Defined.

Lemma system_events_change_advice_only_witness :
  match handle_system_event U32Clz demo_proc with
  | Ok (_, p') => p' = with_advice (advice p') demo_proc
  | _ => False
  end.
Proof.
  destruct (handle_system_event U32Clz demo_proc) as [[u p']| |] eqn:E; [|discriminate E..].
  exact (system_events_change_advice_only U32Clz demo_proc p' u E).
Defined.

Lemma advice_bounded_and_monotone_witness :
  match handle_system_event U32Clz demo_proc with
  | Ok (_, p') => (length (adv_stack (advice p')) <= MAX_ADVICE_STACK_SIZE)%nat
  | _ => False
  end.
Proof.
  destruct (handle_system_event U32Clz demo_proc) as [[u p']| |] eqn:E; [|discriminate E..].
  refine (proj1 (advice_bounded_and_monotone demo_proc p' (or_intror (ex_intro _ U32Clz (ex_intro _ u E)))) _).
  apply Nat.le_0_l.
Defined.

(** The state after the first round of a program that starts with a call. *)
Lemma demo_call_steps (entry : MastNodeId) : entry = 1%nat \/ entry = 2%nat ->
  exists s', step [EMPTY_WORD] (Demo.start entry) s'.
Proof. intros [->| ->]; eexists; (econstructor; [reflexivity|reflexivity]). Qed.

Lemma call_starts_with_fresh_memory_witness : exists s' : EState (St := list felt),
  ctx (processor s') = 1 /\
  forall x, mem_cell (memory (processor s')) 1 x = if decide (x = ⟦FMP_ADDR⟧) then FMP_INIT_VALUE else ZERO.
Proof.
  destruct (demo_call_steps 1%nat) as [s' Hs]; [left; reflexivity|]. exists s'.
  destruct (call_starts_with_fresh_memory (HO := Demo.NoHost) [EMPTY_WORD] Demo.ideal_stack Demo.advice Demo.options (Demo.program 1%nat) tt
    (Demo.start 1%nat) (Demo.start 1%nat) s' 1%nat [] 0%nat EMPTY_WORD) as (H1 & _ & H2);
    [reflexivity|apply rtc_refl|reflexivity|reflexivity|exact Hs|].
  split; [exact H1|]. rewrite H1 in H2. exact H2.
Defined.

Lemma syscall_targets_kernel_witness : exists s' : EState (St := list felt), ctx (processor s') = root_context.
Proof.
  destruct (demo_call_steps 2%nat) as [s' Hs]; [right; reflexivity|]. exists s'.
  apply (syscall_targets_kernel [EMPTY_WORD] (Demo.start 2%nat) s' 2%nat [] 0%nat EMPTY_WORD);
    [reflexivity|reflexivity|exact Hs].
Defined.

(** A stack of 17 elements, and a callee that returns at once *)
Lemma save_restore_roundtrip_witness : exists s p1 p3, save_context_and_truncate_stack (new_with_options s Demo.advice Demo.options) = Ok ((), p1) /\
  restore_context p1 = Ok ((), p3) /\ Fast.elements (stack p1) = Ok (ONE :: replicate 15 ZERO) /\
  Fast.elements (stack p3) = Ok (ONE :: replicate 15 ZERO ++ [ONE]).
Proof.
  destruct (new_stack_rel [ONE]) as (s0 & _ & Hs0); [unfold MIN_STACK_DEPTH; cbn; lia|].
  destruct (restore_Ok s0 _ [ONE] Hs0) as (s & _ & Hs); [reflexivity|cbn [length]; blia|].
  destruct (save_restore_roundtrip (new_with_options s Demo.advice Demo.options) _ Hs) as (p1 & E1 & H1 & _ & Hr).
  destruct (Hr p1 _ eq_refl H1) as [Hr3 _]. destruct Hr3 as (p3 & E3 & _ & El & _); [reflexivity|]. exists s, p1, p3. split; [exact E1|]. split; [exact E3|].
  split; [exact (elements_rel _ _ H1)|exact El].
Defined.
