(* ===== verification/OperationTheorems.v ===== *)
(** * Components and operations: main theorems

    Memory, the encoding of operations and events, the advice provider, the
    arithmetic-circuit evaluator, and the operations that support proof verification.  Each theorem with a
    hypothesis is followed by an instance on the Goldilocks field with the toy hasher. *)

From S2P Require Import Prelude Bits Field Goldilocks Types Events Instances Operations OperandStack Memory Frame.
From S2P Require Import Advice Ace AceCorrect Processor OpSpecs CryptoOps.
Import Op.
#[local] Open Scope Z_scope.

(** ** Memory *)
Section Memory.
Context {F : Felt}.

(** C24: An element or an aligned word written to memory is read back, element by element too, and
    every other cell of the same and of all other contexts reads as before. *)
Theorem memory_read_after_write (m m' : Memory) (c : ContextId) (addr : felt) :
  (forall v, write_element m c addr v = Ok m' ->
     read_element m' c addr = Ok v /\
     forall c' a, (c', ⟦a⟧) <> (c, ⟦addr⟧) -> read_element m' c' a = read_element m c' a) /\
  (forall w, write_word m c addr w = Ok m' ->
     read_word m' c addr = Ok w /\
     (forall a, ⟦addr⟧ <= ⟦a⟧ < ⟦addr⟧ + 4 -> ⟦a⟧ < 2 ^ 32 -> read_element m' c a = Ok (word_elem w (⟦a⟧ - ⟦addr⟧))) /\
     forall c' a, ~ (c' = c /\ ⟦addr⟧ <= ⟦a⟧ < ⟦addr⟧ + 4) -> read_element m' c' a = read_element m c' a).
Proof.
  split; [intros v; apply write_read_element|]. intros w H. destruct (write_word_Ok _ _ _ _ _ H) as (Hlt & Hm & _).
  split_and!.
  - rewrite read_word_eq, (proj2 (Z.ltb_lt _ _) Hlt), Hm. cbn [Z.eqb].
    rewrite !(mem_cell_write_word _ _ _ _ _ _ _ H), !decide_True by lia.
    replace (⟦addr⟧ - ⟦addr⟧) with 0 by lia. replace (⟦addr⟧ + 1 - ⟦addr⟧) with 1 by lia.
    replace (⟦addr⟧ + 2 - ⟦addr⟧) with 2 by lia. replace (⟦addr⟧ + 3 - ⟦addr⟧) with 3 by lia. by destruct w.
  - intros a Ha Ha'. rewrite read_element_eq, (proj2 (Z.ltb_lt _ _) Ha'), (mem_cell_write_word _ _ _ _ _ _ _ H).
    by rewrite decide_True.
  - intros c' a Hn. rewrite !read_element_eq, (mem_cell_write_word _ _ _ _ _ _ _ H). by rewrite decide_False.
Qed.
End Memory.

(** ** Encodings *)

Section Encodings.
Context {F : Felt}.

(** Reading back a serialized operation returns it and the rest of the stream: opcodes are
    distinct and every immediate value is consumed exactly. *)
Theorem operation_roundtrip {S : FeltSerde} (op : Operation) (rest : list Z) :
  read_from (write_into op ++ rest) = Some (op, rest).
Proof. apply read_write_operation. Qed.

(** The identifiers of the system events are distinct field elements, an identifier is looked up to
    exactly the event it names, and every event is in the table. *)
Theorem system_event_ids (id : Z) (ev : SystemEvent) :
  (from_event_id id = Some ev <-> id = event_id ev) /\ 0 <= event_id ev < modulus /\ ev ∈ all_events.
Proof.
  split_and!; [|apply event_id_range..|apply all_events_complete].
  split; [apply from_event_id_sound|intros ->; apply from_event_id_event_id].
Qed.

(** The decoder of circuit instructions accepts exactly the encodings of two 30-bit wire
    identifiers and one of the three operations, and returns them. *)
Theorem ace_decode_exact (i : felt) (id_l id_r : Z) (op : AceOp) :
  decode_instruction i = Some (id_l, id_r, op) <->
  0 <= id_l < 2 ^ 30 /\ 0 <= id_r < 2 ^ 30 /\ ⟦i⟧ = id_l + id_r * 2 ^ 30 + ace_op_code op * 2 ^ 60.
Proof.
  rewrite decode_instruction_iff. change MAX_ID with 1073741823. change (2 ^ 30) with 1073741824.
  unfold encode_instruction. change (2 ^ 30) with 1073741824. change (2 ^ 60) with 1152921504606846976.
  split; intros (H1 & H2 & H3); split_and!; try lia.
  - rewrite H3. apply canonical_new. unfold modulus. destruct op; cbn; lia.
  - rewrite <-H3. symmetry. apply new_canonical.
Qed.
End Encodings.

(** ** The advice provider *)
Section Advice.
Context {F : Felt} {C : Crypto}.

(** Extending the advice map succeeds exactly when no key would change its value, and then the map
    is the union; otherwise the error names a conflicting key with both values, and the
    provider is not changed. *)
Theorem extend_map_is_union (a : AdviceProvider) (other : AdviceMap) :
  match extend_map a other with
  | Ok a' => (forall k v v', adv_map a !! k = Some v -> other !! k = Some v' -> v = v') /\
             a' = with_adv_map (adv_map a ∪ other) a
  | Err e => exists k v v', e = MapKeyAlreadyPresent k v v' /\
             adv_map a !! k = Some v /\ other !! k = Some v' /\ v <> v'
  | Panic => False
  end.
Proof. apply extend_map_eq. Qed.

(** Copying a map value to the advice stack leaves, from the top, its length when asked for, the
    values in order and as many zeros as make their number a multiple of the padding; it
    fails only when the stack would exceed its maximum. *)
Theorem push_from_map_layout (a : AdviceProvider) (key : Word) (values : list felt)
    (include_len : bool) (pad : nat) :
  adv_map a !! key = Some values ->
  let zeros := (if (pad =? 0)%nat then 0 else next_multiple_of (length values) pad - length values)%nat in
  let pushed := (if include_len then [new_unchecked (Z.of_nat (length values))] else []) ++ values ++ replicate zeros ZERO in
  push_from_map a key include_len pad =
    (if (MAX_ADVICE_STACK_SIZE <? length (adv_stack a) + length pushed)%nat
     then Err (StackSizeExceeded (length pushed) MAX_ADVICE_STACK_SIZE)
     else Ok (with_adv_stack (pushed ++ adv_stack a) a)) /\
  (pad <> 0%nat -> ((length values + zeros) mod pad = 0 /\ zeros < pad)%nat).
Proof.
  intros Hk. cbn zeta. split; [exact (push_from_map_eq a key values include_len pad Hk)|]. intros Hp.
  rewrite (proj2 (Nat.eqb_neq _ _) Hp).
  destruct (next_multiple_of_spec (length values) pad Hp) as [H1 H2].
  pose proof (next_multiple_of_ge (length values) pad Hp) as H3. split; [|lia].
  by replace (length values + (next_multiple_of (length values) pad - length values))%nat
    with (next_multiple_of (length values) pad) by lia.
Qed.
End Advice.

(** ** Circuits, FRI, polynomials, Merkle paths and the stream cipher *)
Section ProofSystem.
Context {F : Felt} {Q : Quad} {C : Crypto}.

(** The circuit evaluator accepts exactly when the numbers of inputs and gates are in range and
    aligned and the circuit in memory, evaluated gate by gate on its inputs by the reference
    evaluator, is well formed and ends in zero. *)
Theorem eval_circuit_exact (c : ContextId) (ptr : felt) (k : Z) (v e : felt) (m : Memory) :
  (exists ce, eval_circuit_impl c ptr k v e m = Ok ce) <->
  counts_ok v e /\ exists vals, circuit_values m c ptr v e = Some vals /\ last vals = Some quad_zero.
Proof. apply eval_circuit_impl_iff. Qed.

(** C30: [FRIE2F4] folds.  From the top, the stack holds the four query values (positions 0 to 7, two elements each, low coefficient first, in
    bit-reversed order), an item that is not read (8), the position [p] (9), the power [poe] of the domain generator (10), the value of the
    previous layer (11 and 12), the challenge (13 and 14) and the layer pointer (15); the segment is [p mod 4].  When [poe] is not zero, the query
    values are the values of a cubic polynomial over the extension field on the coset of [x], and the previous value is the one of the
    segment, the operation succeeds and leaves two intermediate values (0 to 3), the one-hot flags of the segment, with the flag of
    segment zero first (4 to 7), [poe ^ 2] (8), the factor of the segment (9), the pointer advanced by 8 (10), [poe ^ 4] (11), [p / 4] (12)
    and the value of the polynomial at the challenge (13 and 14), and the rest of the stack moves up by one; any other previous value is
    rejected. *)
Theorem fri_fold_exact (c0 c1 c2 c3 alpha prev : QuadFelt) (x poe p s8 ptr : felt) rest (q : Proc (list felt)) :
  let f := cubic c0 c1 c2 c3 in
  let seg := ⟦p⟧ mod 4 in
  poe <> ZERO -> x = (poe * segment_factor seg)%F ->
  exists h tmp0 tmp1,
    execute_op FriE2F4 (with_stack (quad_on (query f x 0) (quad_on (query f x 1) (quad_on (query f x 2)
      (quad_on (query f x 3) (s8 :: p :: poe :: quad_on prev (quad_on alpha (ptr :: rest))))))) q) =
    if bool_decide (prev = query f x seg) then
      Ok (h, with_stack (quad_on tmp0 (quad_on tmp1 (segment_flags seg ++
        (poe * poe)%F :: segment_factor seg :: (ptr + EIGHT)%F :: ((poe * poe) * (poe * poe))%F ::
        new_unchecked (⟦p⟧ / 4) :: quad_on (f alpha) (pad_to 1 rest)))) q)
    else Err (OperationErr (FriError FriInconsistentProjection)).
Proof.
  cbn zeta. intros Hp Hx. case_bool_decide as E; [subst prev; by apply fri_ext2fold4_ok|].
  exists HEmpty, (quad_new ZERO ZERO), (quad_new ZERO ZERO). apply fri_ext2fold4_inconsistent; [done|]. intros Hq. apply E.
  assert (Hs : 0 <= ⟦p⟧ mod 4 < 4) by (apply Z.mod_pos_bound; lia).
  assert (⟦p⟧ mod 4 = 0 \/ ⟦p⟧ mod 4 = 1 \/ ⟦p⟧ mod 4 = 2 \/ ⟦p⟧ mod 4 = 3) as [H|[H|[H|H]]] by lia;
    rewrite H in *; by injection Hq as <-.
Qed.

(** [HORNERBASE] and [HORNEREXT] evaluate polynomials: an accumulator that holds the value of a polynomial at the point
    in memory holds afterwards the value of the polynomial extended by the eight base-field, or the four extension-field,
    coefficients on the stack, so a sequence of these operations evaluates a polynomial given in chunks. *)
Theorem horner_evaluates acc hs w rest (addr : felt) s8 s9 s10 s11 s12 (q : Proc (list felt)) :
  read_word (memory q) (ctx q) addr = Ok w ->
  acc = eval_poly (reverse hs) (quad_new (w0 w) (w1 w)) ->
  (forall c0 c1 c2 c3 c4 c5 c6 c7, exists h,
    execute_op HornerBase (with_stack ([c0; c1; c2; c3; c4; c5; c6; c7; s8; s9; s10; s11; s12; addr] ++
      quad_on acc rest) q) =
    Ok (h, with_stack ([c0; c1; c2; c3; c4; c5; c6; c7; s8; s9; s10; s11; s12; addr] ++
      quad_on (eval_poly (reverse (hs ++ (quad_from <$> [c0; c1; c2; c3; c4; c5; c6; c7]))) (quad_new (w0 w) (w1 w))) rest) q)) /\
  (forall q0 q1 q2 q3, exists h,
    execute_op HornerExt (with_stack (quad_on q0 (quad_on q1 (quad_on q2 (quad_on q3
      ([s8; s9; s10; s11; s12; addr] ++ quad_on acc rest))))) q) =
    Ok (h, with_stack (quad_on q0 (quad_on q1 (quad_on q2 (quad_on q3
      ([s8; s9; s10; s11; s12; addr] ++
        quad_on (eval_poly (reverse (hs ++ [q0; q1; q2; q3])) (quad_new (w0 w) (w1 w))) rest))))) q)).
Proof.
  intros Hw Hacc. destruct (read_word_elements _ _ _ _ Hw) as [H0 H1].
  split; intros; [by apply horner_eval_base_ok|by apply horner_eval_ext_ok].
Qed.

(** [MPVERIFY] succeeds exactly when the Merkle store has a path to the given index and the path computes the
    root on the stack from the node on the stack; it changes nothing. *)
Theorem mpverify_checks_path err node depth index root rest (q : Proc (list felt)) :
  let st := word_elements node ++ [depth; index] ++ word_elements root ++ rest in
  execute_op (MpVerify err) (with_stack st q) =
  match get_merkle_path (advice q) root depth index with
  | Ok p =>
    if bool_decide (compute_root p ⟦index⟧ node = Some root) then Ok (HMerklePath ZERO, with_stack st q)
    else Err (OperationErr (MerklePathVerificationFailed node index root err))
  | Err e => Err (AdviceErr e)
  | Panic => Panic
  end.
Proof. apply mpverify_eq. Qed.

(** C29: [MRUPDATE] replaces the old value by a new root exactly when the path of the store has the given depth and
    computes the old root from the old value; the new root is the one the same path computes
    from the new value. *)
Theorem mrupdate_replaces_root old depth index root new rest (q : Proc (list felt)) :
  let below := [depth; index] ++ word_elements root ++ word_elements new ++ rest in
  let fail := Err (OperationErr (MerklePathVerificationFailed old index root ZERO)) in
  execute_op MrUpdate (with_stack (word_elements old ++ below) q) =
  match update_merkle_node (advice q) root depth index new with
  | Ok (path, _, a) =>
    if path_len path =? ⟦depth⟧ then
      if bool_decide (compute_root path ⟦index⟧ old = Some root) then
        match compute_root path ⟦index⟧ new with
        | Some new_root =>
          Ok (HMerklePath ZERO, with_stack (word_elements new_root ++ below) (with_advice a q))
        | None => fail
        end
      else fail
    else Err (OperationErr (InvalidMerklePathLength (path_len path) depth))
  | Err e => Err (AdviceErr e)
  | Panic => Panic
  end.
Proof. apply mrupdate_eq. Qed.

(** [CRYPTOSTREAM] on two aligned double words that do not overlap writes to the destination the plaintext plus the
    rate, which subtracting the rate recovers, leaves the ciphertext on the stack, and
    advances both addresses by eight. *)
Theorem crypto_stream_encrypts r0 r1 s8 s9 s10 s11 src dst rest (q : Proc (list felt)) : stream_ok src dst ->
  let cell := mem_cell (memory q) (ctx q) in
  let plain i := mkWord (cell (⟦src⟧ + i)) (cell (⟦src⟧ + i + 1)) (cell (⟦src⟧ + i + 2)) (cell (⟦src⟧ + i + 3)) in
  exists c1 c2,
    execute_op CryptoStream (with_stack (word_elements r0 ++ word_elements r1 ++ [s8; s9; s10; s11; src; dst] ++ rest) q) =
    Ok (HEmpty, with_stack (word_elements c1 ++ word_elements c2 ++
          [s8; s9; s10; s11; (src + DOUBLE_WORD_SIZE)%F; (dst + DOUBLE_WORD_SIZE)%F] ++ rest)
        (with_memory (<[(ctx q, ⟦dst⟧ + 4) := c2]> (<[(ctx q, ⟦dst⟧) := c1]> (memory q))) q)) /\
    word_sub c1 r0 = plain 0 /\ word_sub c2 r1 = plain 4.
Proof.
  intros H. cbn zeta. eexists _, _. split; [exact (crypto_stream_ok r0 r1 s8 s9 s10 s11 src dst rest q H)|].
  split; apply word_sub_add.
Qed.
End ProofSystem.

(** ** Instances *)

(** Field elements as eight bytes, least significant first. *)
Fixpoint le_bytes (n : nat) (z : Z) : list Z :=
  match n with
  | O => []
  | S n => z mod 256 :: le_bytes n (z / 256)
  end.
Fixpoint of_bytes (n : nat) (l : list Z) : option (Z * list Z) :=
  match n, l with
  | O, _ => Some (0, l)
  | S n, b :: l => '(z, l) ← of_bytes n l; Some (b + 256 * z, l)
  | S _, [] => None
  end.

Lemma of_le_bytes n z rest : 0 <= z < 256 ^ Z.of_nat n -> of_bytes n (le_bytes n z ++ rest) = Some (z, rest).
Proof.
  revert z. induction n as [|n IH]; intros z Hz; cbn [le_bytes of_bytes app].
  - rewrite Z.pow_0_r in Hz. f_equal. f_equal. lia.
  - rewrite Nat2Z.inj_succ, Z.pow_succ_r in Hz by lia. rewrite IH.
    + cbn. f_equal. f_equal. zlia.
    + split; [apply Z.div_pos; lia|]. apply Z.div_lt_upper_bound; lia.
Qed.

#[refine] #[global] Instance GoldilocksSerde : FeltSerde := {|
  write_felt x := le_bytes 8 ⟦x⟧;
  write_u64 z := le_bytes 8 z;
  read_felt l := '(z, l) ← of_bytes 8 l; Some (new_unchecked z, l);
|}.
Proof.
  - done.
  - intros x rest. felt_ranges. rewrite of_le_bytes by (unfold modulus in *; lia).
    transitivity (Some (new_unchecked ⟦x⟧, rest)); [reflexivity|by rewrite new_canonical].
Defined.

Lemma operation_roundtrip_witness : read_from (write_into (Push (new_unchecked 258)) ++ [7]) = Some (Push (new_unchecked 258), [7]).
Proof. apply (operation_roundtrip (S := GoldilocksSerde)). Defined.

Lemma push_from_map_layout_witness :
  push_from_map (mkAdviceProvider [ONE] {[EMPTY_WORD := [ONE; ZERO; ONE]]} (∅ : ToyCrypto.store) []) EMPTY_WORD true 4 =
  Ok (mkAdviceProvider [new_unchecked 3; ONE; ZERO; ONE; ZERO; ONE] {[EMPTY_WORD := [ONE; ZERO; ONE]]} (∅ : ToyCrypto.store) []).
Proof.
  refine (eq_trans (proj1 (push_from_map_layout (C := Toy) _ EMPTY_WORD [ONE; ZERO; ONE] true 4 _)) _);
    [apply lookup_singleton_eq|reflexivity].
Defined.

Definition demo_op_proc (l : list felt) : Proc (list felt) :=
  mkProc _ _ _ l 0 root_context EMPTY_WORD (mkAdviceProvider [] ∅ (∅ : ToyCrypto.store) []) ∅ []
    (mkExecutionOptions 1000 100 100) EMPTY_WORD.

Lemma fri_fold_exact_witness : exists h tmp0 tmp1 l,
  let f := cubic (quad_new ONE ZERO) (quad_new ZERO ONE) (quad_new ONE ONE) (quad_new ZERO ONE) in
  execute_op FriE2F4 (with_stack (quad_on (query f TAU_INV 0) (quad_on (query f TAU_INV 1) (quad_on (query f TAU_INV 2)
    (quad_on (query f TAU_INV 3) (ZERO :: new_unchecked 6 :: ONE :: quad_on (query f TAU_INV 2) (quad_on (quad_new ONE ONE) [ZERO]))))))
    (demo_op_proc [])) =
  Ok (h, with_stack (quad_on tmp0 (quad_on tmp1 l)) (demo_op_proc [])).
Proof.
  destruct (fri_fold_exact (quad_new ONE ZERO) (quad_new ZERO ONE) (quad_new ONE ONE) (quad_new ZERO ONE)
    (quad_new ONE ONE) (query (cubic (quad_new ONE ZERO) (quad_new ZERO ONE) (quad_new ONE ONE) (quad_new ZERO ONE)) TAU_INV 2)
    TAU_INV ONE (new_unchecked 6) ZERO ZERO [] (demo_op_proc [])) as (h & t0 & t1 & H);
    [apply ONE_neq_ZERO|reflexivity|].
  exists h, t0, t1. eexists. rewrite bool_decide_true in H by reflexivity. exact H.
Defined.

Lemma horner_evaluates_witness : exists h p',
  execute_op HornerBase (with_stack ([ONE; ONE; ONE; ONE; ONE; ONE; ONE; ONE; ZERO; ZERO; ZERO; ZERO; ZERO; ZERO] ++
    quad_on (eval_poly (reverse []) (quad_new (w0 EMPTY_WORD) (w1 EMPTY_WORD))) []) (demo_op_proc [])) = Ok (h, p').
Proof.
  destruct (horner_evaluates (eval_poly (reverse []) (quad_new (w0 EMPTY_WORD) (w1 EMPTY_WORD))) [] EMPTY_WORD [] ZERO
    ZERO ZERO ZERO ZERO ZERO (demo_op_proc [])) as [H _]; [reflexivity..|].
  destruct (H ONE ONE ONE ONE ONE ONE ONE ONE) as [h H']. exists h. eexists. exact H'.
Defined.

Lemma crypto_stream_encrypts_witness : exists p',
  execute_op CryptoStream (with_stack (word_elements EMPTY_WORD ++ word_elements EMPTY_WORD ++
    [ZERO; ZERO; ZERO; ZERO; ZERO; new_unchecked 8] ++ [ZERO; ZERO]) (demo_op_proc [])) = Ok (HEmpty, p').
Proof.
  destruct (crypto_stream_encrypts EMPTY_WORD EMPTY_WORD ZERO ZERO ZERO ZERO ZERO (new_unchecked 8) [ZERO; ZERO] (demo_op_proc []))
    as (c1 & c2 & H & _); [unfold stream_ok; split_and!; first [reflexivity|by vm_compute|(vm_compute; intuition congruence)]|].
  eexists. exact H.
Defined.
