(* ===== verification/BlockTheorems.v ===== *)
(** * Basic blocks: main theorems

    Batching, validation and serialization of basic blocks.  Each theorem with a hypothesis is followed by an
    instance on the Goldilocks field. *)

From S2P Require Import Prelude Field Goldilocks Types Instances Operations OperandStack Processor.
From S2P Require Import Batching BatchCorrect BatchValid BlockSerde BlockRoundtrip OperationTheorems.
Import Op.

Section Blocks.
Context {F : Felt}.

(** C13: Every list of operations is batched without a panic: the batches hold the operations in order once the padding is
    left out, and every check of [validate_batch_invariants] accepts them (full batches but the last, a power
    of two of groups, at most nine operations in a group, no immediate at the end of a group, group values and
    immediates in their slots, padding flags on groups that end in [Noop]). *)
Theorem batches_hold_operations (l : list Operation) :
  exists bs, batch_ops l = Ok bs /\ raw_operations bs = Ok l /\ validate_batch_invariants bs = Ok ().
Proof.
  destruct (batch_ops_eq l) as (css & Hb & Hl & Hok). exists (batch_of <$> css). split_and!; [done| |].
  - rewrite raw_operations_eq by apply Hok. by rewrite Hl.
  - by apply validate_batch_invariants_ok.
Qed.

(** Indices of operations (of assembly operations and decorators) translated to the padded operations point to the same
    operations, the index after the last operation included, and translating back returns them. *)
Theorem operation_indices_roundtrip {T} (l : list Operation) (asm_ops : list (nat * T)) bs :
  batch_ops l = Ok bs -> Forall (fun x => x.1 <= length l) asm_ops ->
  exists adjusted, adjust_asm_op_indices asm_ops bs = Ok adjusted /\ unadjust_asm_op_indices adjusted bs = Ok asm_ops /\
    Forall2 (fun x y => x.2 = y.2 /\ operations bs !! y.1 = l !! x.1) asm_ops adjusted.
Proof.
  intros Hb Hi. destruct (batch_ops_eq l) as (css & Hb' & Hl & Hok). rewrite Hb in Hb'. injection Hb' as ->.
  rewrite <-Hl in *. apply adjust_unadjust; [apply Hok|done].
Qed.

(** Iterating over a batch with the running group counter gives, for every operation, the group and position that the
    binary search over the group ends finds. *)
Theorem iterator_agrees_with_search (l : list Operation) bs b : batch_ops l = Ok bs -> b ∈ bs ->
  exists r, iter_with_groups b = Ok r /\ snd <$> r = ops b /\
    forall k x, r !! k = Some x -> op_idx_in_batch_to_group b k = Ok (Some x.1).
Proof.
  intros Hb Hin. destruct (batch_ops_eq l) as (css & Hb' & _ & [Hok _]). rewrite Hb in Hb'. injection Hb' as ->.
  apply list_elem_of_fmap in Hin as (cs & -> & Hcs). apply iter_with_groups_eq. by apply (Forall_forall batch_ok css).
Qed.

(** C14: A serialized basic block is read back exactly, group values included, wherever it lies in the node data: writing it appends its bytes to the
    data and returns its offset, which is the length of the data before it when that fits in a [u32] (and is cast to one otherwise), and reading at
    that length gives the batches. *)
Theorem block_serialization_roundtrip {FS : FeltSerde} {IS : IntSerde} (l : list Operation) bs (before after : list Z) :
  batch_ops l = Ok bs -> (Z.of_nat (length (operations bs)) < 2 ^ 32)%Z ->
  exists ops_offset bytes, encode_basic_block before bs = Ok (ops_offset, before ++ bytes) /\
    ((Z.of_nat (length before) < 2 ^ 32)%Z -> ops_offset = Z.of_nat (length before)) /\
    decode_operations (before ++ bytes ++ after) (Z.of_nat (length before)) = Ok bs.
Proof.
  intros Hb Hlen. destruct (batch_ops_eq l) as (css & Hb' & _ & [Hok _]). rewrite Hb in Hb'. injection Hb' as ->.
  destruct (decode_encode css before after Hok Hlen) as (bytes & He & Hd). eexists _, bytes. split_and!; [exact He| |exact Hd]. intros Hlt. apply Z.mod_small. lia.
Qed.
End Blocks.

Section Execution.
Context {F : Felt} {Q : Quad} {C : Crypto} {St : Type} `{!StackInterface St}.

Lemma execute_ops_snoc_noop (c r : list Operation) (p : Proc St) : execute_ops (c ++ Noop :: r) p = execute_ops (c ++ r) p.
Proof.
  revert p. induction c as [|op c IH]; intros p; cbn [app execute_ops].
  - reflexivity.
  - unfold mbind, M_bind. destruct (execute_op op p) as [[h p']| |]; [apply IH|done..].
Qed.

Lemma execute_padded (gs : list (list Operation)) (c r : list Operation) (p : Proc St) :
  execute_ops (c ++ all_ops gs ++ r) p = execute_ops (c ++ concat gs ++ r) p.
Proof.
  revert c. induction gs as [|g gs IH]; intros c; [done|]. change (all_ops (g :: gs)) with (padded g ++ all_ops gs). cbn [concat].
  rewrite <-!app_assoc. rewrite (app_assoc c (padded g)), IH. unfold padded. destruct (needs_pad g).
  - rewrite <-!app_assoc. cbn [app]. rewrite (app_assoc c g), execute_ops_snoc_noop. by rewrite <-app_assoc.
  - rewrite app_nil_r. by rewrite <-app_assoc.
Qed.

(** Padding is invisible to execution: running the padded operations of the batches from any state gives the
    result, state or error that running the original operations gives. *)
Theorem batched_execution (l : list Operation) bs (p : Proc St) : batch_ops l = Ok bs ->
  execute_ops (operations bs) p = execute_ops l p.
Proof.
  intros Hb. destruct (batch_ops_eq l) as (css & Hb' & Hl & _). rewrite Hb in Hb'. injection Hb' as ->.
  rewrite operations_eq, <-Hl. pose proof (execute_padded (concat css) [] [] p) as H. by rewrite !app_nil_r in H.
Qed.
End Execution.

(** ** Instances *)

(** Integers of fixed width, least significant byte first. *)
#[refine] #[global] Instance FixedIntSerde : IntSerde := {|
  write_usize n := le_bytes 8 (Z.of_nat n);
  read_usize l := '(z, l) ← of_bytes 8 l; Some (Z.to_nat z, l);
  write_u32 z := le_bytes 4 z;
  read_u32 l := of_bytes 4 l;
|}.
Proof.
  - intros n rest Hn. rewrite of_le_bytes by lia. cbn. by rewrite Nat2Z.id.
  - intros z rest Hz. apply of_le_bytes. lia.
Defined.

Definition demo_block : list Operation := [Push (new_unchecked 5); Add; Push (new_unchecked 6); Mul; Drop; Push ONE].
Definition demo_batches : list OpBatch := match batch_ops demo_block with Ok bs => bs | _ => [] end.

Lemma operation_indices_roundtrip_witness : exists adjusted,
  adjust_asm_op_indices [(0, true); (5, false); (6, true)] demo_batches = Ok adjusted /\
  unadjust_asm_op_indices adjusted demo_batches = Ok [(0, true); (5, false); (6, true)].
Proof.
  destruct (operation_indices_roundtrip demo_block [(0, true); (5, false); (6, true)] demo_batches) as (adj & H1 & H2 & _);
    [reflexivity|repeat constructor; cbn; lia|]. exists adj. exact (conj H1 H2).
Defined.

Lemma iterator_agrees_with_search_witness : exists b r, b ∈ demo_batches /\ iter_with_groups b = Ok r /\ snd <$> r = ops b.
Proof.
  destruct demo_batches as [|b bs] eqn:E; [apply (f_equal length) in E; vm_compute in E; discriminate E|].
  destruct (iterator_agrees_with_search demo_block demo_batches b) as (r & H1 & H2 & _); [reflexivity|rewrite E; left|].
  exists b, r. split; [left|]. exact (conj H1 H2).
Defined.

Lemma block_serialization_roundtrip_witness : exists bytes, encode_basic_block [1; 2]%Z demo_batches = Ok (2%Z, [1; 2]%Z ++ bytes) /\
  decode_operations ([1; 2]%Z ++ bytes ++ [3]%Z) 2 = Ok demo_batches.
Proof.
  destruct (block_serialization_roundtrip demo_block demo_batches [1; 2]%Z [3]%Z) as (o & bytes & He & Ho & Hd); [reflexivity..|].
  exists bytes. rewrite Ho in He by done. split; [exact He|exact Hd].
Defined.

Lemma batched_execution_witness :
  execute_ops (operations demo_batches) (demo_op_proc (replicate 16 ONE)) = execute_ops demo_block (demo_op_proc (replicate 16 ONE)).
Proof. apply batched_execution. reflexivity. Defined.
