(* ===== verification/AssemblerTheorems.v ===== *)
(** * Compiled instructions: main theorems

    What the operation sequences emitted by the assembler compute.  [execs l ops l'] says that the
    sequence takes the operand stack [l] (top first) to [l'] on every processor, [fails] that it stops with the given
    error and [rejects] that it stops with some error; [pad_to k] is the stack growing back
    to its minimum depth.  Instructions that ask the host for advice run in the full
    interpreter: [completes k] also needs room for [k] elements on the advice stack
    and enough cycles.  Each theorem with a hypothesis is followed by an instance. *)

From S2P Require Import Prelude Bits Field Goldilocks Types Events Instances Operations OperandStack Advice.
From S2P Require Import Processor SysEvents Execution BasicBlocks OpSpecs Assembly AsmField AsmU32.
From S2P Require Import AsmCount AsmExt2 AsmEvents MachineTheorems.
Import Op FieldOps Ext2Ops U32Ops.
#[local] Open Scope Z_scope.

(** ** Stack manipulation *)
Section Stack.
Context {F : Felt} {Q : Quad} {C : Crypto}.

(** The stack instructions are defined exactly for the indices of the language, and their expansions into
    the few native permutations duplicate, swap and move the element or word at the given index and nothing else. *)
Theorem stack_instructions_permute (n : nat) (l : list felt) : (16 <= length l)%nat ->
  match StackInstr.dup n with
  | Some ops => exists x, l !! n = Some x /\ execs l ops (x :: l)
  | None => (15 < n)%nat
  end /\
  match StackInstr.swap n with Some ops => execs l ops (swap_top n l) | None => (n = 0 \/ 15 < n)%nat end /\
  match StackInstr.movup n with
  | Some ops => exists x, l !! n = Some x /\ execs l ops (x :: take n l ++ drop (S n) l)
  | None => (n < 2 \/ 15 < n)%nat
  end /\
  match StackInstr.movdn n with
  | Some ops => exists x, head l = Some x /\ execs l ops (take n (tail l) ++ x :: drop n (tail l))
  | None => (n < 2 \/ 15 < n)%nat
  end /\
  match StackInstr.dupw n with Some ops => execs l ops (word_at l n ++ l) | None => (3 < n)%nat end /\
  match StackInstr.movupw n with
  | Some ops => execs l ops (word_at l n ++ take (4 * n) l ++ drop (4 * n + 4) l)
  | None => (n < 2 \/ 3 < n)%nat
  end /\
  match StackInstr.movdnw n with
  | Some ops => execs l ops (take (4 * n) (drop 4 l) ++ word_at l 0 ++ drop (4 * n + 4) l)
  | None => (n < 2 \/ 3 < n)%nat
  end.
Proof.
  intros Hl. split_and!.
  - destruct (StackInstr.dup n) eqn:E; [|do 16 (destruct n as [|n]; [done|]); lia].
    destruct (lookup_lt_is_Some_2 l n) as [x Hx]; [do 16 (destruct n as [|n]; [lia|]); done|].
    eauto using dup_correct.
  - destruct (StackInstr.swap n) eqn:E; [by apply swap_correct|do 16 (destruct n as [|n]; [done || lia|]); lia].
  - destruct (StackInstr.movup n) eqn:E; [|do 16 (destruct n as [|n]; [done || lia|]); lia].
    destruct (lookup_lt_is_Some_2 l n) as [x Hx]; [do 16 (destruct n as [|n]; [lia|]); done|].
    eauto using movup_correct.
  - destruct (StackInstr.movdn n) eqn:E; [|do 16 (destruct n as [|n]; [done || lia|]); lia].
    destruct l as [|x l]; [cbn in Hl; lia|]. exists x. split; [done|]. by apply movdn_correct.
  - destruct (StackInstr.dupw n) eqn:E; [by apply dupw_correct|do 4 (destruct n as [|n]; [done|]); lia].
  - destruct (StackInstr.movupw n) eqn:E; [by apply movupw_correct|do 4 (destruct n as [|n]; [done || lia|]); lia].
  - destruct (StackInstr.movdnw n) eqn:E; [by apply movdnw_correct|do 4 (destruct n as [|n]; [done || lia|]); lia].
Qed.

(** Immediate operands have the same effect as the operand on the stack would: constants, words, addition,
    subtraction, multiplication and comparison for every immediate, division for every nonzero one (zero is refused
    at assembly), whichever of the short encodings the compiler picks. *)
Theorem immediates_compute (imm a : felt) (w : Word) (l : list felt) : (15 <= length l)%nat ->
  execs l (push_value_ops imm) (imm :: l) /\
  execs l (push_word w) (word_elements w ++ l) /\
  execs (a :: l) (add_imm imm) ((a + imm)%F :: l) /\
  execs (a :: l) (sub_imm imm) ((a - imm)%F :: l) /\
  (exists l', execs (a :: l) (mul_imm imm) ((a * imm)%F :: l') /\ take (length l) l' = l) /\
  match div_imm imm with
  | Some ops => imm <> ZERO /\ exists c, execs (a :: l) ops (c :: l) /\ (c * imm)%F = a
  | None => imm = ZERO
  end /\
  execs (a :: l) (eq_imm imm) (bit (bool_decide (a = imm)) :: l) /\
  execs (a :: l) (neq_imm imm) (bit (bool_decide (a <> imm)) :: l).
Proof.
  intros Hl. destruct (eq_imm_ok imm a l Hl) as [He Hn].
  split_and!; [apply push_value_ok|apply push_word_ok|by apply add_imm_ok|by apply sub_imm_ok| | |done|done].
  - eexists. split; [by apply mul_imm_ok|].
    destruct (bool_decide (imm = ZERO)); [apply take_pad_to|apply firstn_all].
  - destruct (div_imm imm) eqn:E.
    + destruct (div_imm_ok _ _ a l E Hl) as (c & Hc & Hm & Hz). eauto.
    + unfold div_imm in E. by repeat case_bool_decide.
Qed.

(** Word comparison computes equality of all four elements; the word assertion passes exactly on equal words. *)
Theorem word_equality (u v : Word) (e : felt) (l : list felt) : (8 <= length l)%nat ->
  execs (word_elements v ++ word_elements u ++ l) eqw
    (bit (bool_decide (u = v)) :: word_elements v ++ word_elements u ++ l) /\
  (u = v -> execs (word_elements v ++ word_elements u ++ l) (assertw e) (pad_to 16 l)) /\
  (u <> v -> fails (word_elements v ++ word_elements u ++ l) (assertw e) (OperationErr (FailedAssertion e))).
Proof. intros Hl. split_and!; [by apply eqw_ok|intros <-; apply assertw_ok|apply assertw_fails]. Qed.
End Stack.

(** ** Field and extension field *)
Section Fields.
Context {F : Felt} {Q : Quad} {C : Crypto}.

(** [exp.u<n>] computes the power for every exponent of at most [n] bits and stops on a longer one; [exp.<imm>]
    computes the power for every exponent; [pow2] computes the power of two for exponents below 64 and stops on a larger
    exponent. *)
Theorem exponentiation_exact (n : Z) (e : Z) (b : felt) (l : list felt) :
  0 <= n <= 64 -> 0 <= e < modulus -> (15 <= length l)%nat ->
  (exists ops, exp n = Some ops /\
     if e <? 2 ^ n then execs (fe e :: b :: l) ops (felt_pow b (Z.to_nat e) :: l)
     else fails (fe e :: b :: l) ops (OperationErr (FailedAssertion ZERO))) /\
  (exists ops l', exp_imm (fe e) = Some ops /\
     execs (b :: l) ops (felt_pow b (Z.to_nat e) :: l') /\ take (length l) l' = l) /\
  (if e <? 64 then execs (fe e :: l) pow2 (fe (2 ^ e) :: l)
   else fails (fe e :: l) pow2 (OperationErr (FailedAssertion ZERO))).
Proof.
  intros Hn He Hl. assert (Hp : pad_to 15 l = l) by (by apply pad_to_long).
  split_and!.
  - destruct (exp n) as [ops|] eqn:E; [|unfold exp in E; change MAX_EXP_BITS with 64 in E; by destruct (Z.ltb_spec 64 n); [lia|]].
    exists ops. split; [done|]. destruct (exp_correct n ops b e l ltac:(lia) E He) as [H1 H2]. rewrite Hp in H1.
    destruct (Z.ltb_spec e (2 ^ n)); eauto.
  - destruct (exp_imm_total (fe e)) as [ops Ho]. eexists ops, _. split; [done|].
    pose proof (exp_imm_ok _ _ b l Ho Hl) as H. rewrite fe_canonical in H by done. split; [exact H|].
    destruct (e =? 0); [|apply firstn_all]. apply take_pad_to.
  - unfold pow2. destruct (Z.ltb_spec e 64); [|apply pow2_fails; lia]. pose proof (pow2_ok e l ltac:(lia)) as H'. by rewrite Hp in H'.
Qed.

(** [lt], [lte], [gt], [gte] and [is_odd] compare and test the canonical values of field elements. *)
Theorem field_comparisons (a b : Z) (l : list felt) : 0 <= a < modulus -> 0 <= b < modulus ->
  execs (fe b :: fe a :: l) lt (bit (a <? b) :: pad_to 15 l) /\
  execs (fe b :: fe a :: l) lte (bit (a <=? b) :: pad_to 15 l) /\
  execs (fe b :: fe a :: l) gt (bit (b <? a) :: pad_to 15 l) /\
  execs (fe b :: fe a :: l) gte (bit (b <=? a) :: pad_to 15 l) /\
  execs (fe a :: l) is_odd (bit (Z.odd a) :: pad_to 15 l).
Proof. intros Ha Hb. split_and!; auto using lt_ok, lte_ok, gt_ok, gte_ok, is_odd_ok. Qed.

(** The extension-field instructions add, subtract, multiply and negate elements of the quadratic extension. *)
Theorem ext2_arithmetic (x y : QuadFelt) (l : list felt) :
  execs (quad_on y (quad_on x l)) ext2_add (quad_on (quad_add x y) (pad_to 14 l)) /\
  execs (quad_on y (quad_on x l)) ext2_sub (quad_on (quad_sub x y) (pad_to 14 l)) /\
  execs (quad_on y (quad_on x l)) ext2_mul (quad_on (quad_mul x y) (pad_to 14 l)) /\
  execs (quad_on x l) ext2_neg (quad_on (quad_sub quad_zero x) l).
Proof. split_and!; auto using ext2_add_ok, ext2_sub_ok, ext2_mul_ok, ext2_neg_ok. Qed.
End Fields.

(** ** 32-bit integers *)
Section U32.
Context {F : Felt} {Q : Quad} {C : Crypto}.

(** 32-bit addition, subtraction and multiplication, with the second operand on the stack or immediate:
    wrapping modulo [2^32], or with the carry, the borrow or the high half. *)
Theorem u32_arithmetic (mode : U32OpMode) (imm : option Z) (a b : Z) (l : list felt) :
  is_operand imm b -> u32 a -> u32 b ->
  execs (operand imm b (fe a :: l)) (u32add mode imm)
    match mode with
    | Wrapping => fe ((a + b) mod 2 ^ 32) :: pad_to 15 l
    | Overflowing => fe ((a + b) / 2 ^ 32) :: fe ((a + b) mod 2 ^ 32) :: l
    end /\
  execs (operand imm b (fe a :: l)) (u32sub mode imm)
    match mode with
    | Wrapping => fe ((a - b) mod 2 ^ 32) :: pad_to 15 l
    | Overflowing => bit (a <? b) :: fe ((a - b) mod 2 ^ 32) :: l
    end /\
  execs (operand imm b (fe a :: l)) (u32mul mode imm)
    match mode with
    | Wrapping => fe ((a * b) mod 2 ^ 32) :: pad_to 15 l
    | Overflowing => fe ((a * b) mod 2 ^ 32) :: fe ((a * b) / 2 ^ 32) :: l
    end.
Proof. intros. split_and!; [by apply u32add_ok|by apply u32sub_ok|by apply u32mul_ok]. Qed.

(** 32-bit division gives the quotient, the remainder or both; a zero divisor stops the program, and as an
    immediate is refused at assembly. *)
Theorem u32_division (imm : option Z) (a b : Z) (l : list felt) : is_operand imm b -> u32 a -> u32 b ->
  match u32div imm, u32mod imm, u32divmod imm with
  | Some div, Some md, Some divmod =>
    if b =? 0 then
      fails (operand imm b (fe a :: l)) div (OperationErr DivideByZero) /\
      fails (operand imm b (fe a :: l)) md (OperationErr DivideByZero) /\
      fails (operand imm b (fe a :: l)) divmod (OperationErr DivideByZero)
    else
      execs (operand imm b (fe a :: l)) div (fe (a / b) :: pad_to 15 l) /\
      execs (operand imm b (fe a :: l)) md (fe (a mod b) :: pad_to 15 l) /\
      execs (operand imm b (fe a :: l)) divmod (fe (a mod b) :: fe (a / b) :: l)
  | None, None, None => imm = Some 0
  | _, _, _ => False
  end.
Proof.
  intros Hi Ha Hb. unfold u32divmod. destruct (handle_division imm) as [ops|] eqn:E.
  - pose proof (eq_refl (u32div imm)) as Ed. pose proof (eq_refl (u32mod imm)) as Em.
    unfold u32div at 2 in Ed. unfold u32mod at 2 in Em. rewrite E in Ed, Em. cbn [mbind option_bind] in Ed, Em.
    rewrite Ed, Em. destruct (Z.eqb_spec b 0) as [->|Hz].
    + pose proof (handle_division_zero imm ops a l E Hi Ha). split_and!; [by apply fails_prefix..|done].
    + split_and!; eauto using u32div_ok, u32mod_ok, handle_division_ok.
  - unfold u32div, u32mod. rewrite E. cbn. unfold handle_division in E. destruct imm as [z|]; [|done].
    destruct (Z.eqb_spec z 0); [by subst|done].
Qed.

(** Shifts and rotations of a 32-bit value by an amount below 32, on the stack or immediate. *)
Theorem u32_shifts_and_rotations (imm : option Z) (n a : Z) (l : list felt) :
  is_operand imm n -> 0 <= n < 32 -> u32 a -> (16 <= length (operand imm n (fe a :: l)))%nat ->
  exists shl shr rotl rotr,
    u32shl imm = Some shl /\ u32shr imm = Some shr /\ u32rotl imm = Some rotl /\ u32rotr imm = Some rotr /\
    execs (operand imm n (fe a :: l)) shl (fe (Z.shiftl a n mod 2 ^ 32) :: pad_to 15 l) /\
    execs (operand imm n (fe a :: l)) shr (fe (Z.shiftr a n) :: pad_to 15 l) /\
    execs (operand imm n (fe a :: l)) rotl (fe (rotl32 a n) :: pad_to 15 l) /\
    execs (operand imm n (fe a :: l)) rotr (fe (rotl32 a (32 - n)) :: pad_to 15 l).
Proof.
  intros Hi Hn Ha Hl. destruct (shifts_defined imm n Hi Hn) as (o1 & o2 & o3 & o4 & E1 & E2 & E3 & E4).
  exists o1, o2, o3, o4. split_and!; eauto using u32shl_ok, u32shr_ok, u32rotl_ok, u32rotr_ok.
Qed.

(** Comparison, minimum, maximum, bitwise or and complement of 32-bit values; [u32popcnt], the parallel bit
    count, counts the one bits. *)
Theorem u32_comparison_and_bits (a b : Z) (l : list felt) : u32 a -> u32 b -> (14 <= length l)%nat ->
  execs (fe b :: fe a :: l) u32lt (bit (a <? b) :: pad_to 15 l) /\
  execs (fe b :: fe a :: l) u32lte (bit (a <=? b) :: pad_to 15 l) /\
  execs (fe b :: fe a :: l) u32gt (bit (b <? a) :: pad_to 15 l) /\
  execs (fe b :: fe a :: l) u32gte (bit (b <=? a) :: pad_to 15 l) /\
  execs (fe b :: fe a :: l) u32min (fe (Z.min a b) :: pad_to 15 l) /\
  execs (fe b :: fe a :: l) u32max (fe (Z.max a b) :: pad_to 15 l) /\
  execs (fe b :: fe a :: l) u32or (fe (Z.lor a b) :: pad_to 15 l) /\
  execs (fe a :: l) u32not (fe (2 ^ 32 - 1 - a) :: pad_to 15 l) /\
  execs (fe a :: l) u32popcnt (fe (count_ones a) :: pad_to 15 l).
Proof.
  intros Ha Hb Hl.
  split_and!; auto using compute_lt_ok, u32lte_ok, u32gt_ok, u32gte_ok, u32min_ok, u32max_ok, u32or_ok, u32not_ok, u32popcnt_ok.
Qed.

End U32.

(** ** Instructions that use advice *)
Section Advised.
Context {F : Felt} {Q : Quad} {C : Crypto} {HO : Host}.

(** C28: The bit-counting instructions, run with the processor's own event handlers, return the counts; the code that checks
    the advice accepts the right count and no other, so a host that lies makes the program stop. *)
Theorem bit_counts_exact (c n : Z) (l : list felt) : 0 <= c < modulus -> u32 n -> (15 <= length l)%nat ->
  let exact instr verify count :=
    completes 1 (fe n :: l) instr (fe count :: l) /\
    if c =? count then execs (fe c :: fe n :: l) verify (fe c :: l) else rejects (fe c :: fe n :: l) verify in
  exact u32clz verify_clz (leading_zeros n) /\ exact u32ctz verify_ctz (trailing_zeros n) /\
  exact u32clo verify_clo (leading_ones n) /\ exact u32cto verify_cto (trailing_ones n).
Proof.
  intros Hc Hn Hl. cbn zeta. assert (Hp : pad_to 15 l = l) by by apply pad_to_long. split_and!.
  - by apply u32clz_completes.
  - destruct (Z.eqb_spec c (leading_zeros n)) as [->|]; [|by apply verify_clz_rejects].
    pose proof (verify_clz_ok n l Hn) as H. by rewrite Hp in H.
  - by apply u32ctz_completes.
  - destruct (Z.eqb_spec c (trailing_zeros n)) as [->|]; [|by apply verify_ctz_rejects].
    pose proof (verify_ctz_ok n l Hn) as H. by rewrite Hp in H.
  - by apply u32clo_completes.
  - destruct (Z.eqb_spec c (leading_ones n)) as [->|]; [|by apply verify_clo_rejects].
    pose proof (verify_clo_ok n l Hn) as H. by rewrite Hp in H.
  - by apply u32cto_completes.
  - destruct (Z.eqb_spec c (trailing_ones n)) as [->|]; [|by apply verify_cto_rejects].
    pose proof (verify_cto_ok n l Hn) as H. by rewrite Hp in H.
Qed.

(** [ilog2] returns the integer logarithm of every nonzero element and stops on zero; its check
    refuses every other advice. *)
Theorem ilog2_exact (n c : Z) (l : list felt) : 0 <= n < modulus -> 0 <= c < modulus -> (15 <= length l)%nat ->
  (if n =? 0 then aborts (fe n :: l) ilog2 (OperationErr LogArgumentZero)
   else completes 1 (fe n :: l) ilog2 (fe (Z.log2 n) :: l)) /\
  (n = 0 \/ c <> Z.log2 n -> fails (fe c :: fe n :: l) verify_ilog2 (OperationErr (FailedAssertion ZERO))).
Proof.
  intros Hn Hc Hl. split; [|intros H; apply verify_ilog2_fails; lia].
  destruct (Z.eqb_spec n 0) as [->|]; [|apply ilog2_completes; lia].
  rewrite fe_0. apply ilog2_zero_aborts.
Qed.

(** Inversion and division in the extension field return the inverse and the quotient for every nonzero divisor
    and stop on zero; the check of the advice accepts an element exactly when it is the inverse. *)
Theorem ext2_inverse_exact (x z y : QuadFelt) (l st : list felt) (q : Proc (list felt)) : (14 <= length l)%nat ->
  adv_stack (advice q) = coef1 y :: coef0 y :: st ->
  (if bool_decide (x = quad_zero) then
     aborts (quad_on x l) ext2_inv (OperationErr DivideByZero) /\
     aborts (quad_on x (quad_on z l)) ext2_div (OperationErr DivideByZero)
   else
     completes 2 (quad_on x l) ext2_inv (quad_on (quad_inverse x) l) /\
     completes 2 (quad_on x (quad_on z l)) ext2_div (quad_on (quad_mul z (quad_inverse x)) l)) /\
  execute_ops verify_ext2_inv (with_stack (quad_on x l) q) =
    if bool_decide (x <> quad_zero /\ y = quad_inverse x)
    then Ok ((), with_stack (quad_on y l) (set_adv st q))
    else Err (OperationErr (FailedAssertion ZERO)).
Proof.
  intros Hl Ha. split.
  - case_bool_decide; [subst; split; apply ext2_zero_aborts|]. auto using ext2_inv_completes, ext2_div_completes.
  - rewrite (verify_ext2_inv_eq x y st l q Ha). rewrite pad_to_long by done.
    erewrite bool_decide_ext; [done|]. apply quad_inverse_iff.
Qed.
End Advised.

(** ** Instances *)
Definition zeros (n : nat) : list felt := replicate n ZERO.

Lemma stack_instructions_permute_witness :
  execs (new_unchecked 7 :: zeros 15) [MovDn8; SwapDW; MovDn3; SwapDW] (zeros 11 ++ new_unchecked 7 :: zeros 4).
Proof.
  destruct (stack_instructions_permute 11 (new_unchecked 7 :: zeros 15)) as (_ & _ & _ & (x & E & H) & _); [cbn; lia|].
  injection E as <-. exact H.
Defined.

Lemma immediates_compute_witness : exists l', execs (ONE :: zeros 15) [Push (new_unchecked 5); Mul] ((ONE * new_unchecked 5)%F :: l').
Proof.
  destruct (immediates_compute (new_unchecked 5) ONE EMPTY_WORD (zeros 15)) as (_ & _ & _ & _ & (l' & H & _) & _); [cbn; lia|].
  exists l'. exact H.
Defined.

Lemma word_equality_witness : execs (word_elements EMPTY_WORD ++ word_elements EMPTY_WORD ++ zeros 8) (assertw ONE) (zeros 16).
Proof.
  destruct (word_equality EMPTY_WORD EMPTY_WORD ONE (zeros 8)) as (_ & H & _); [cbn; lia|]. exact (H eq_refl).
Defined.

Lemma exponentiation_exact_witness : execs (fe 5 :: zeros 15) pow2 (fe 32 :: zeros 15).
Proof.
  destruct (exponentiation_exact 6 5 ONE (zeros 15)) as (_ & _ & H); [lia|unfold modulus; lia|cbn; lia|]. exact H.
Defined.

Lemma field_comparisons_witness : execs (fe 9 :: fe (2 ^ 40) :: zeros 14) lt (bit false :: zeros 15).
Proof.
  destruct (field_comparisons (2 ^ 40) 9 (zeros 14)) as [H _]; [unfold modulus; lia..|]. exact H.
Defined.

Lemma u32_arithmetic_witness :
  execs (fe (2 ^ 32 - 1) :: zeros 15) (u32add Overflowing (Some 2)) (fe 1 :: fe 1 :: zeros 15).
Proof.
  destruct (u32_arithmetic Overflowing (Some 2) (2 ^ 32 - 1) 2 (zeros 15)) as [H _]; [by right|unfold u32; lia..|]. exact H.
Defined.

Lemma u32_division_witness :
  execs (fe 7 :: fe 100 :: zeros 14) [U32div; Drop] (fe 14 :: zeros 15) /\
  fails (fe 0 :: fe 100 :: zeros 14) [U32div; Drop] (OperationErr DivideByZero).
Proof.
  split.
  - destruct (u32_division None 100 7 (zeros 14)) as [H _]; [by left|unfold u32; lia..|]. exact H.
  - destruct (u32_division None 100 0 (zeros 14)) as [H _]; [by left|unfold u32; lia..|]. exact H.
Defined.

Lemma u32_shifts_and_rotations_witness : exists rotl,
  u32rotl (Some 4) = Some rotl /\ execs (fe 0x80000001 :: zeros 15) rotl (fe 0x18 :: zeros 15).
Proof.
  destruct (u32_shifts_and_rotations (Some 4) 4 0x80000001 (zeros 15)) as (shl & shr & rotl & rotr & _ & _ & E & _ & _ & _ & H & _);
    [by right|lia|unfold u32; lia|cbn; lia|]. exists rotl. exact (conj E H).
Defined.

Lemma u32_comparison_and_bits_witness : execs (fe 0xF0F0 :: zeros 14) u32popcnt (fe 8 :: zeros 15).
Proof.
  destruct (u32_comparison_and_bits 0xF0F0 3 (zeros 14)) as (_ & _ & _ & _ & _ & _ & _ & _ & H);
    [unfold u32; lia..|cbn; lia|]. exact H.
Defined.

Lemma bit_counts_exact_witness : completes (HO := Demo.NoHost) 1 (fe 8 :: zeros 15) u32ctz (fe 3 :: zeros 15) /\
  rejects (fe 4 :: fe 8 :: zeros 15) verify_ctz.
Proof.
  destruct (bit_counts_exact (HO := Demo.NoHost) 4 8 (zeros 15)) as (_ & H & _);
    [unfold modulus; lia|unfold u32; lia|cbn; lia|]. exact H.
Defined.

Lemma ilog2_exact_witness : completes (HO := Demo.NoHost) 1 (fe 9 :: zeros 15) ilog2 (fe 3 :: zeros 15).
Proof.
  destruct (ilog2_exact (HO := Demo.NoHost) 9 0 (zeros 15)) as [H _]; [unfold modulus; lia..|cbn; lia|]. exact H.
Defined.

Definition advised_proc : Proc (list felt) :=
  mkProc _ _ _ [] 0 root_context EMPTY_WORD
    (mkAdviceProvider [coef1 quad_zero; coef0 quad_zero] ∅ (∅ : ToyCrypto.store) []) ∅ []
    (mkExecutionOptions 1000 100 100) EMPTY_WORD.

Lemma ext2_inverse_exact_witness : aborts (HO := Demo.NoHost) (quad_on quad_zero (zeros 14)) ext2_inv (OperationErr DivideByZero).
Proof.
  destruct (ext2_inverse_exact (HO := Demo.NoHost) quad_zero quad_zero quad_zero (zeros 14) [] advised_proc) as [H _];
    [cbn; lia|reflexivity|]. rewrite bool_decide_true in H by reflexivity. exact (proj1 H).
Defined.
