(* ===== verification/CodegenTheorems.v ===== *)
(** * Circuit generation: main theorems

    What the generator of verifier circuits guarantees: every input has a slot of its own, the generated graph computes
    the verifier equation of the reference evaluators, the emitted circuit computes the graph, and the encoded circuit,
    run by the circuit evaluator of the processor, accepts exactly when the equation holds. *)

From S2P Require Import Prelude Field Goldilocks Types Instances Memory Ace AceCorrect AceLayout AceDag AceDagCorrect.
From S2P Require Import AceLower AceVerifier AceCircuit AceCircuitCorrect AceEncode.
Import Dag Circuit.
#[local] Open Scope nat_scope.

Section Codegen.
Context {F : Felt} {Q : Quad}.

(** ** Layouts *)

(** The index times the stride of a reduction is a [usize], as for every key the generator makes; the lookup of a larger index would overflow. *)
Definition key_fits (l : InputLayout) (k : InputKey) : Prop :=
  match k with VlpiReduction i => (Z.of_nat (i * vlpi_stride l) <= USIZE_MAX)%Z | _ => True end.
Definition policy_of (kind : LayoutKind) : LayoutPolicy := match kind with Native => native | Masm => masm end.

(** C34: For both kinds of layout and any counts, let [plan] be the layout with its regions one after another, aligned as the policy says,
    computed without a bound on the numbers.  When the end of [plan] exceeds [usize::MAX], building the layout panics.  When it does not, [plan] is
    the layout that is built; it passes its own validation; a key that is present has a slot below the number of inputs and no two keys
    (with an index that does not overflow) share a slot; and the layout of the recursive verifier has an even number of
    slots and starts every region at an even one, so that it can be read word by word. *)
Theorem layout_slots_distinct (kind : LayoutKind) (c : InputCounts) : let plan := planned c (policy_of kind) in
  ((USIZE_MAX < Z.of_nat (total_inputs plan))%Z -> layout_of_kind (E := AceError) kind c = Panic) /\
  ((Z.of_nat (total_inputs plan) <= USIZE_MAX)%Z ->
   layout_of_kind (E := AceError) kind c = Ok plan /\ validate (E := AceError) plan = Ok () /\ counts plan = c /\
   (forall k i, key_fits plan k -> index_of plan k = Some i -> i < total_inputs plan) /\
   (forall k k' i, key_fits plan k -> key_fits plan k' -> index_of plan k = Some i -> index_of plan k' = Some i -> k = k') /\
   (kind = Masm -> total_inputs plan mod 2 = 0 /\ Forall (fun r => offset r mod 2 = 0) (all_regions (regions plan)))).
Proof.
  cbn zeta. assert (layout_of_kind (E := AceError) kind c = build_with_policy c (policy_of kind)) as -> by (by destruct kind).
  pose proof (build_planned (E := AceError) c (policy_of kind)) as Hb. unfold in_usize in Hb. split; intros Hend.
  - by rewrite Hb, (proj2 (Z.leb_gt _ _) Hend).
  - rewrite (proj2 (Z.leb_le _ _) Hend) in Hb. split_and!; [done|by eapply built_validates|done|..].
    + intros k i _. by eapply index_of_lt.
    + intros k k' i _ _. eapply index_of_inj; [exact Hb|by destruct kind].
    + intros ->. by destruct (masm_aligned (E := AceError) c _ Hb) as (? & _ & ?).
Qed.

(** ** The verifier equation *)

(** [acc - quotient * (z^N - 1)] by the direct evaluators: what the root of the graph is compared with *)
Definition reference_root (inputs : list QuadFelt) (l : InputLayout) (base_constraints : list SymbolicExpression)
    (ext_constraints : list SymbolicExpressionExt) (cl : ConstraintLayout) (periodic : option (list (list QuadFelt))) :
    aresult QuadFelt :=
  periodic_values ← match periodic with
                    | Some data => z_k ← input_at inputs l ZK; eval_periodic_values data z_k
                    | None => Ok []
                    end;
  acc ← eval_folded_constraints inputs l base_constraints ext_constraints cl periodic_values;
  quotient ← eval_quotient inputs l;
  z_pow_n ← input_at inputs l ZPowN;
  Ok (quad_sub acc (quad_mul quotient (quad_sub z_pow_n quad_one))).

Section Graph.
Variables (kind : LayoutKind) (l : InputLayout) (inputs : list QuadFelt).
Hypothesis Hl : layout_of_kind (E := AceError) kind (counts l) = Ok l.
Hypothesis Hlen : length inputs = total_inputs l.

Lemma kind_valid : validated (E := AceError) l.
Proof using Hl. destruct kind; (split; [by eapply built_validates|by eapply built_fits]). Qed.

Lemma kind_full k i : index_of l k = Some i -> i < length inputs.
Proof using Hl Hlen. rewrite Hlen. apply (validated_index l kind_valid). Qed.

Lemma reference_graph fresh bc ec cl periodic v : num_randomness (counts l) = 2 -> 0 < num_quotient_chunks (counts l) ->
  (forall data, periodic = Some data -> length data = num_periodic (counts l)) ->
  reference_root inputs l bc ec cl periodic = Ok v ->
  exists dag, build_verifier_dag fresh bc ec cl l periodic = Ok dag /\ verifier_graph inputs l dag v.
Proof using Hl Hlen.
  intros Hr Hk Hp Hv. unfold reference_root in Hv. bind_inv Hv. bind_inv Hv. rewrite (eval_quotient_full inputs l kind_valid Hlen) in Hv.
  rewrite bind_Ok in Hv. bind_inv Hv. apply input_at_Ok in Ha1 as [_ <-]. injection Hv as <-.
  eapply (build_verifier_dag_spec inputs l kind_valid Hlen _ _ _ _ _ a); [done..| |done].
  destruct periodic as [data|]; [|by injection Ha]. bind_inv Ha. apply input_at_Ok in Ha1 as [_ <-]. split; [by apply Hp|done].
Qed.

Lemma graph_circuit dag v : verifier_graph inputs l dag v -> exists circuit,
  emit_circuit dag l = Ok circuit /\ circuit_of inputs l dag circuit v /\
  (exists n, length (operations circuit) = S n /\ root circuit = COperation n).
Proof using Hl Hlen.
  intros (Ho & Hk & (pre & a & c & Hn & Hi) & Hv). destruct (emit_circuit_Ok inputs l kind_full dag v Ho Hk Hv) as (circuit & He & Hc).
  exists circuit. split_and!; [done..|]. destruct Hc as (_ & _ & _ & _ & Hroot). by apply (Hroot _ _ Hn).
Qed.
End Graph.

(** C22: [build_verifier_dag] returns whenever the reference evaluators do, for two challenges, at least one quotient
    chunk and the declared number of periodic columns; the value of the graph is then theirs: the constraints folded
    with alpha, minus the recomposed quotient times the vanishing polynomial.  Sharing of nodes and constant
    folding do not change it. *)
Theorem verifier_dag_exact (fresh : nat) (kind : LayoutKind) (l : InputLayout) (inputs : list QuadFelt)
    (bc : list SymbolicExpression) (ec : list SymbolicExpressionExt) (cl : ConstraintLayout)
    (periodic : option (list (list QuadFelt))) (v : QuadFelt) :
  layout_of_kind (E := AceError) kind (counts l) = Ok l -> length inputs = total_inputs l ->
  num_randomness (counts l) = 2 -> 0 < num_quotient_chunks (counts l) ->
  (forall data, periodic = Some data -> length data = num_periodic (counts l)) ->
  reference_root inputs l bc ec cl periodic = Ok v ->
  exists dag, build_verifier_dag fresh bc ec cl l periodic = Ok dag /\ eval_dag inputs l dag = Ok v.
Proof.
  intros Hl Hlen Hr Hk Hp Hv. destruct (reference_graph kind l inputs Hl Hlen fresh bc ec cl periodic v Hr Hk Hp Hv) as (dag & Hd & Hg).
  exists dag. split; [done|]. destruct Hg as (Ho & Hkeys & _ & Hval). by apply (eval_dag_Ok inputs l (kind_full kind l inputs Hl Hlen)).
Qed.

(** ** Emission *)

(** For a graph in topological order, [emit_circuit] succeeds exactly when the layout has every input key of the graph,
    and the circuit then evaluates, on any inputs of the right number, to what the graph evaluates to. *)
Theorem emit_circuit_exact (kind : LayoutKind) (l : InputLayout) (dag : AceDag) :
  layout_of_kind (E := AceError) kind (counts l) = Ok l -> ordered_nodes (dag_nodes dag) ->
  index (dag_root dag) < length (dag_nodes dag) ->
  ((exists circuit, emit_circuit dag l = Ok circuit) <-> Forall (key_ok (in_layout l)) (dag_nodes dag)) /\
  forall circuit inputs, emit_circuit dag l = Ok circuit -> length inputs = total_inputs l ->
    exists v, eval circuit inputs = Ok v /\ eval_dag inputs l dag = Ok v.
Proof.
  intros Hl Ho Hr.
  assert (H : forall inputs, length inputs = total_inputs l -> Forall (key_ok (in_layout l)) (dag_nodes dag) ->
    exists v c, emit_circuit dag l = Ok c /\ eval c inputs = Ok v /\ eval_dag inputs l dag = Ok v).
  { intros inputs Hlen Hk. pose proof (kind_full kind l inputs Hl Hlen) as Hfull.
    destruct (lookup_lt_is_Some_2 (values (rho inputs l) (dag_nodes dag)) (index (dag_root dag))) as [v Hv]; [by rewrite length_values|].
    destruct (emit_circuit_Ok inputs l Hfull dag v Ho Hk Hv) as (c & Hc & Hlay & Hops & _ & Hval & _). exists v, c. split; [done|]. split.
    - apply eval_Ok; [by rewrite Hlay|done..].
    - by apply (eval_dag_Ok inputs l Hfull). }
  split.
  - split; [intros [c Hc]; by eapply emit_circuit_keys|]. intros Hk.
    destruct (H (replicate (total_inputs l) quad_zero)) as (v & c & Hc & _); [by rewrite length_replicate|done|]. by exists c.
  - intros c inputs Hc Hlen. destruct (H inputs Hlen) as (v & c' & Hc' & Hv); [by eapply emit_circuit_keys|]. rewrite Hc in Hc'. injection Hc' as <-. by exists v.
Qed.

(** ** The encoded circuit *)

(** What it means that the encoding of a circuit decides whether [v] is zero: it exists unless the circuit has too many nodes,
    and the processor accepts it exactly for zero, wherever a word-aligned address places inputs and encoding in memory. *)
Definition decides_zero (encoded : aresult EncodedCircuit) (inputs : list QuadFelt) (v : QuadFelt) : Prop :=
  match encoded with
  | Ok e => forall (m : Memory) ctx ptr clk,
      (⟦ptr⟧ mod 4 = 0)%Z -> (⟦ptr⟧ + Z.of_nat (2 * length inputs + length (instructions e)) <= 2 ^ 32)%Z ->
      mem_holds m ctx ⟦ptr⟧ (quad_felts inputs ++ instructions e) ->
      (exists ce, eval_circuit_impl ctx ptr clk (new_unchecked (Z.of_nat (num_vars e))) (new_unchecked (Z.of_nat (num_ops e))) m = Ok ce) <->
      v = quad_zero
  | Err (InvalidInputLayout (TooManyNodes n)) => (2 ^ 30 <= Z.of_nat n)%Z
  | _ => False
  end.

(** The value of the last operation is what the encoding is about; the root of the circuit is not encoded. *)
Lemma encoded_last (c : AceCircuit) (inputs : list QuadFelt) (n : nat) v :
  length inputs = total_inputs (layout c) -> inputs <> [] -> length inputs mod 2 = 0 ->
  ops_ok inputs (length (constants c)) (operations c) -> length (operations c) = S n -> op_vals inputs (constants c) (operations c) !! n = Some v ->
  decides_zero (to_ace c) inputs v.
Proof.
  intros Hlen Hne Hev Hok Hn Hv.
  pose proof (to_ace_Ok c (total_inputs (layout c)) eq_refl) as He. rewrite <-Hlen in He. specialize (He Hok). unfold decides_zero.
  destruct (to_ace c) as [e|[|[]]|]; try done.
  - destruct He as (nc & np & Henc). intros m ctx ptr clk Hal Hfit Hm.
    apply (encoded_circuit_accepted inputs c nc np e m ctx ptr clk v); try done. rewrite Hn. cbn. by rewrite Nat.sub_0_r.
  - by rewrite He in Hn.
Qed.
Lemma encoded_zero (c : AceCircuit) (inputs : list QuadFelt) (n : nat) :
  length inputs = total_inputs (layout c) -> inputs <> [] -> length inputs mod 2 = 0 ->
  ops_ok inputs (length (constants c)) (operations c) -> length (operations c) = S n ->
  exists v, eval (mkCircuit (layout c) (constants c) (operations c) (COperation n)) inputs = Ok v /\ decides_zero (to_ace c) inputs v.
Proof.
  intros Hlen Hne Hev Hok Hn.
  destruct (lookup_lt_is_Some_2 (op_vals inputs (constants c) (operations c)) n) as [v Hv]; [rewrite length_op_vals; lia|].
  exists v. split; [by apply eval_Ok|by apply (encoded_last c inputs n)].
Qed.

(** C23: For a circuit with a positive even number of inputs and at least one operation, whose operations refer to inputs, constants and earlier
    operations: it has an encoding unless it has at least 2^30 nodes; and the processor, given inputs and encoding one after the other at a
    word-aligned address of its memory, accepts
    exactly when the last operation evaluates to zero.  The encoding does not hold the root of the circuit, so this is the value of the circuit
    exactly for a circuit whose root is its last operation. *)
Theorem encoded_circuit_exact (c : AceCircuit) (inputs : list QuadFelt) (n : nat) :
  length inputs = total_inputs (layout c) -> inputs <> [] -> length inputs mod 2 = 0 ->
  ops_ok inputs (length (constants c)) (operations c) -> length (operations c) = S n ->
  exists v, eval (mkCircuit (layout c) (constants c) (operations c) (COperation n)) inputs = Ok v /\ decides_zero (to_ace c) inputs v /\
    (root c = COperation n -> eval c inputs = Ok v).
Proof.
  intros Hlen Hne Hev Hok Hn. destruct (encoded_zero c inputs n Hlen Hne Hev Hok Hn) as (v & Hv & Hd). exists v. split_and!; [done..|].
  intros Hr. destruct c. cbn in Hr. by subst.
Qed.

(** C4: The whole pipeline for the recursive verifier: on the aligned layout, the verifier graph is generated, the circuit
    is emitted and encoded (unless it has at least 2^30 nodes), and the processor evaluating it on inputs in memory accepts
    exactly when the folded constraints equal the quotient times the vanishing polynomial. *)
Theorem verifier_circuit_accepts (fresh : nat) (l : InputLayout) (inputs : list QuadFelt)
    (bc : list SymbolicExpression) (ec : list SymbolicExpressionExt) (cl : ConstraintLayout)
    (periodic : option (list (list QuadFelt))) (v : QuadFelt) :
  layout_of_kind (E := AceError) Masm (counts l) = Ok l -> length inputs = total_inputs l ->
  num_randomness (counts l) = 2 -> 0 < num_quotient_chunks (counts l) ->
  (forall data, periodic = Some data -> length data = num_periodic (counts l)) ->
  reference_root inputs l bc ec cl periodic = Ok v ->
  exists dag circuit, build_verifier_dag fresh bc ec cl l periodic = Ok dag /\ emit_circuit dag l = Ok circuit /\
    decides_zero (to_ace circuit) inputs v.
Proof.
  intros Hl Hlen Hr Hk Hp Hv. destruct (reference_graph Masm l inputs Hl Hlen fresh bc ec cl periodic v Hr Hk Hp Hv) as (dag & Hd & Hg).
  destruct (graph_circuit Masm l inputs Hl Hlen dag v Hg) as (c & Hc & (Hlay & Hok & _ & Hval & _) & n & Hn & Hroot).
  exists dag, c. split_and!; [done..|]. destruct (masm_aligned _ _ Hl) as (Hev & Hpos & _).
  destruct (encoded_zero c inputs n) as (w & Hw & Hdec); [by rewrite Hlay|intros ->; cbn in Hlen; lia|by rewrite Hlen|done..|].
  assert (mkCircuit (layout c) (constants c) (operations c) (COperation n) = c) as Ec by (destruct c; cbn in *; by subst). rewrite Ec in Hw.
  rewrite (eval_Ok inputs c v) in Hw; [by simplify_eq|by rewrite Hlay|done..].
Qed.
End Codegen.

(** ** Instances: a small system of constraints over the Goldilocks field *)
Module DemoCodegen.
Definition demo_counts : InputCounts := mkCounts 2 1 1 1 2 1 2.
Definition demo_layout (kind : LayoutKind) : InputLayout :=
  match layout_of_kind (E := AceError) kind demo_counts with
  | Ok l => l
  | _ => mkLayout (mkRegions (mkRegion 0 0) (mkRegion 0 0) (mkRegion 0 0) (mkRegion 0 0) (mkRegion 0 0) (mkRegion 0 0) (mkRegion 0 0)
           (mkRegion 0 0) (mkRegion 0 0) (mkRegion 0 0) (mkRegion 0 0)) 0 0 0 (mkStark 0 0 0 0 0 0 0 0 0 0) 0 demo_counts
  end.
Definition demo_inputs (kind : LayoutKind) : list QuadFelt :=
  (fun i => quad_new (new_unchecked (Z.of_nat i)) ZERO) <$> seq 0 (total_inputs (demo_layout kind)).

(** [first_row * (main[0] - public[0]) = 0], a periodic constraint and one on the auxiliary trace *)
Definition demo_base : list SymbolicExpression :=
  [SMul (SLeaf IsFirstRow) (SSub (SLeaf (LeafVariable (EntryMain 0) 0)) (SLeaf (LeafVariable EntryPublic 0)));
   SMul (SLeaf (LeafVariable EntryPeriodic 0)) (SNeg (SLeaf (LeafVariable (EntryMain 1) 1)))].
Definition demo_ext : list SymbolicExpressionExt :=
  [XAdd (XMul (XLeaf (ExtVariable (Permutation 0) 0)) (XLeaf (ExtVariable Challenge 1))) (XLeaf (ExtVariable PermutationValue 0))].
Definition demo_constraints : ConstraintLayout := mkConstraintLayout [0; 2] [1].
Definition demo_periodic : option (list (list QuadFelt)) := Some [[quad_one; quad_zero]].

Lemma demo_root kind : exists v, reference_root (demo_inputs kind) (demo_layout kind) demo_base demo_ext demo_constraints demo_periodic = Ok v.
Proof. destruct kind; eexists; reflexivity. Qed.

(** Every list of elements that fits is held by some memory. *)
Lemma memory_image (ctx : ContextId) (a : Z) (data : list felt) : (0 <= a)%Z -> (a + Z.of_nat (length data) <= 2 ^ 32)%Z ->
  exists m : Memory, mem_holds m ctx a data.
Proof.
  intros Ha. induction data as [|x data IH] using rev_ind; intros Hle; [by exists ∅|]. rewrite length_app in Hle. cbn [length] in Hle.
  destruct IH as [m Hm]; [lia|]. assert (Hc : (⟦new_unchecked (a + Z.of_nat (length data))⟧ = a + Z.of_nat (length data))%Z)
    by (apply canonical_new; unfold modulus; lia).
  assert (Hw : exists m', write_element m ctx (new_unchecked (a + Z.of_nat (length data))) x = Ok m').
  { unfold write_element, clean_addr. rewrite Hc, (proj2 (Z.ltb_lt _ _)), bind_Ok by lia. destruct (split_addr _) as [w i].
    destruct (m !! (ctx, w)); by eexists. }
  destruct Hw as [m' Hw]. exists m'. intros i y Hi. rewrite (mem_cell_write_element _ _ _ _ _ _ _ Hw), Hc.
  apply lookup_app_Some in Hi as [Hi|[Hge Hi]].
  - rewrite decide_False; [by apply Hm|]. apply lookup_lt_Some in Hi. intros [_ ?]. lia.
  - apply list_lookup_singleton_Some in Hi as [Hi <-]. rewrite decide_True; [done|]. split; [done|]. lia.
Qed.

(** A circuit of one subtraction: accepted when its two inputs agree *)
Definition demo_circuit : AceCircuit := mkCircuit (demo_layout Masm) [] [mkOp AceSub (CInput 0) (CInput 1)] (COperation 0).

Lemma demo_ops_ok : ops_ok (demo_inputs Masm) 0 (operations demo_circuit).
Proof.
  intros [|[]] o [=<-]. cbn [node_ok lhs rhs]. unfold demo_inputs. rewrite length_fmap, length_seq. vm_compute. split; repeat constructor.
Qed.
End DemoCodegen.

Lemma verifier_dag_exact_witness : exists v dag,
  build_verifier_dag 0 DemoCodegen.demo_base DemoCodegen.demo_ext DemoCodegen.demo_constraints (DemoCodegen.demo_layout Native) DemoCodegen.demo_periodic = Ok dag /\
  eval_dag (DemoCodegen.demo_inputs Native) (DemoCodegen.demo_layout Native) dag = Ok v.
Proof.
  destruct (DemoCodegen.demo_root Native) as [v Hv]. exists v.
  apply (verifier_dag_exact 0 Native (DemoCodegen.demo_layout Native) (DemoCodegen.demo_inputs Native) DemoCodegen.demo_base
    DemoCodegen.demo_ext DemoCodegen.demo_constraints DemoCodegen.demo_periodic v); [reflexivity|reflexivity|reflexivity|vm_compute; lia| |exact Hv].
  intros data Hd. injection Hd as <-. reflexivity.
Defined.

Lemma emit_circuit_exact_witness : exists circuit,
  emit_circuit (mkAceDag 0 [Input Alpha; Input (Public 0); Mul (mkNodeId 0 0) (mkNodeId 0 1)] (mkNodeId 0 2)) (DemoCodegen.demo_layout Masm) = Ok circuit.
Proof.
  destruct (emit_circuit_exact Masm (DemoCodegen.demo_layout Masm)
    (mkAceDag 0 [Input Alpha; Input (Public 0); Mul (mkNodeId 0 0) (mkNodeId 0 1)] (mkNodeId 0 2))) as [H _].
  - reflexivity.
  - intros [|[|[|i]]] n Hn; cbn in Hn; simplify_eq; cbn; rewrite ?Forall_cons; cbn; split_and?; try constructor; lia.
  - cbn. lia.
  - apply H. cbn. repeat constructor; by eexists.
Defined.

Lemma encoded_circuit_exact_witness : exists v, eval DemoCodegen.demo_circuit (DemoCodegen.demo_inputs Masm) = Ok v /\
  decides_zero (to_ace DemoCodegen.demo_circuit) (DemoCodegen.demo_inputs Masm) v.
Proof.
  destruct (encoded_circuit_exact DemoCodegen.demo_circuit (DemoCodegen.demo_inputs Masm) 0) as (v & _ & Hd & Hr);
    [reflexivity|discriminate|reflexivity|exact DemoCodegen.demo_ops_ok|reflexivity|]. exists v. split; [exact (Hr eq_refl)|exact Hd].
Defined.

Lemma verifier_circuit_accepts_witness : exists v dag circuit,
  build_verifier_dag 0 DemoCodegen.demo_base DemoCodegen.demo_ext DemoCodegen.demo_constraints (DemoCodegen.demo_layout Masm) DemoCodegen.demo_periodic = Ok dag /\
  emit_circuit dag (DemoCodegen.demo_layout Masm) = Ok circuit /\ decides_zero (to_ace circuit) (DemoCodegen.demo_inputs Masm) v.
Proof.
  destruct (DemoCodegen.demo_root Masm) as [v Hv]. exists v.
  apply (verifier_circuit_accepts 0 (DemoCodegen.demo_layout Masm) (DemoCodegen.demo_inputs Masm) DemoCodegen.demo_base
    DemoCodegen.demo_ext DemoCodegen.demo_constraints DemoCodegen.demo_periodic v); [reflexivity|reflexivity|reflexivity|vm_compute; lia| |exact Hv].
  intros data Hd. injection Hd as <-. reflexivity.
Defined.
