(* ===== verification/LinkerTheorems.v ===== *)
(** * The linker's call graph: main theorems

    Sorting of procedures by their calls: what the orders contain, when a cycle is reported, and when sorting
    panics instead. *)

From S2P Require Import Prelude CallGraph CallGraphCorrect CallGraphReach.
From stdpp Require Import gmap sorting fin_maps relations.
Import CallGraph.
#[local] Open Scope nat_scope.

(** ** Every cycle through the first node *)

(** [toposort] on a graph without roots starts at the first key. *)
Section FirstNode.
Variables (g g' : Graph) (first : gid) (output pushed : list gid).
Hypothesis HK : kahn g [first] (remaining g output) g' [] output pushed.

Lemma first_output : first ∈ output.
Proof using HK. rewrite (sorted_output _ _ _ _ _ HK). by left. Qed.

Lemma first_all_output : (forall n, n ∈ dom g -> exists p, edge g p n) -> acyclic (forward g first) ->
  forall n, n ∈ dom g -> n ∈ output.
Proof using HK.
  intros Hall Hac n Hn. destruct (decide (n ∈ output)) as [|Hno]; [done|].
  assert (Hc : forall n, n ∈ dom g -> n ∉ [first] -> exists p, edge g p n) by (intros m Hm _; by apply Hall).
  destruct (behind_cycle_of (forward g first) (dom g ∖ list_to_set output) n) as (m & Hm & _); [|intros x Hx|by destruct (Hac m)].
  - apply elem_of_difference. by rewrite elem_of_list_to_set.
  - apply elem_of_difference in Hx as [Hx Hxo]. rewrite elem_of_list_to_set in Hxo.
    destruct (left_pred _ _ _ _ _ HK Hc x Hx Hxo) as [p Hp]. apply (left_edge _ _ _ _ _ HK) in Hp as [Hpo Hp]. exists p. split.
    + apply elem_of_difference. rewrite elem_of_list_to_set. split; [by eapply edge_dom|done].
    + apply forward_edge. split; [done|]. intros ->. apply Hxo, first_output.
Qed.

Lemma pushed_before m n : tc (edge (forward g first)) m n -> m <> first -> forall i, pushed !! i = Some n ->
  exists j, j < i /\ pushed !! j = Some m.
Proof using HK.
  assert (Hone : forall a b i, edge g a b -> a <> first -> pushed !! i = Some b -> exists j, j < i /\ pushed !! j = Some a).
  { intros a b i Hab Ha Hi. destruct (k_before _ _ _ _ _ _ _ HK _ _ _ Hi Hab) as ([|j] & Hj & Hl); [by injection Hl as ->|].
    exists j. cbn in Hj, Hl. split; [lia|done]. }
  induction 1 as [a b [Hab _]%forward_edge|a k b Hak _ IH]; intros Ha i Hi; [by eapply Hone|]. apply forward_edge in Hak as [Hak Hk].
  destruct (IH Hk i Hi) as (j & Hj & Hl). destruct (Hone _ _ _ Hak Ha Hl) as (j' & ? & ?). exists j'. split; [lia|done].
Qed.

Lemma all_output_first : (forall n, n ∈ dom g -> n ∈ output) -> acyclic (forward g first).
Proof using HK.
  intros Hall n Hc. assert (Hnf : n <> first).
  { intros ->. apply tc_r_inv in Hc as [p [_ ?]%forward_edge]. done. }
  assert (n ∈ pushed) as [i Hi]%list_elem_of_lookup.
  { assert (n ∈ output) as H; [|rewrite (sorted_output _ _ _ _ _ HK) in H; apply elem_of_cons in H as [->|?]; done].
    apply Hall. apply tc_first in Hc as [m [Hm _]%forward_edge]. by eapply edge_dom. }
  destruct (pushed_before n n Hc Hnf i Hi) as (j & Hj & Hl).
  pose proof (NoDup_lookup _ _ _ _ (k_nodup _ _ _ _ _ _ _ HK) Hi Hl). lia.
Qed.
End FirstNode.

Lemma no_roots g : (forall n, n ∈ dom g -> exists p, edge g p n) -> roots_of g = [].
Proof.
  intros Hall. destruct (roots_of g) as [|r rs] eqn:E; [done|]. assert (r ∈ roots_of g) as [Hd Hr]%elem_of_roots by (rewrite E; by left).
  destruct (Hall r Hd) as [p Hp]. by destruct (Hr p).
Qed.

Lemma keys_nonempty g first rest : keys g = first :: rest -> first ∈ dom g /\ g <> ∅.
Proof.
  intros Hk. assert (Hd : first ∈ dom g) by (apply elem_of_keys; rewrite Hk; by left). split; [done|]. intros ->. by rewrite dom_empty_L in Hd.
Qed.

(** Without roots, sorting starts at the first key and ends in an error or a panic. *)
Lemma toposort_no_roots fuel g first rest : wf_graph g -> 2 * size g <= fuel -> keys g = first :: rest -> roots_of g = [] ->
  exists g' output pushed, kahn g [first] (remaining g output) g' [] output pushed /\
    toposort fuel g = Some (if existsb (fun n => bool_decide (n ∉ output) || bool_decide (out_edges g' n <> [])) (keys g')
                            then Err (in_cycle g') else Panic).
Proof.
  intros Hg Hf Hk Hr. destruct (keys_nonempty _ _ _ Hk) as [Hd Hne].
  destruct (sort_from fuel g [first] Hg) as (g' & output & pushed & Hs & HK); [by intros n ->%list_elem_of_singleton| |].
  { pose proof (length_keys g) as Hl. rewrite Hk in Hl. cbn in *. lia. }
  exists g', output, pushed. split; [done|]. unfold toposort. rewrite bool_decide_eq_false_2 by done. fold (roots_of g).
  rewrite Hr, Hk. change (take 1 (first :: rest)) with [first]. cbv beta iota zeta. rewrite Hs. by destruct (existsb _ _).
Qed.

(** ** Building and sorting *)

(** Graphs stay closed, without repeated edges and without self edges: the empty graph is, inserting a node and
    removing an edge keep this, and [add_edge] adds exactly its edge and its two nodes unless they are the same, in which
    case it panics. *)
Theorem call_graph_invariant :
  wf_graph ∅ /\
  (forall g id, wf_graph g -> wf_graph (get_or_insert_node g id)) /\
  (forall g a b, wf_graph g -> wf_graph (remove_edge g a b) /\ forall x y, edge (remove_edge g a b) x y <-> edge g x y /\ ~ (x = a /\ y = b)) /\
  (forall g a, add_edge (E := CycleError) g a a = Panic) /\
  (forall g a b, wf_graph g -> a <> b -> exists g', add_edge (E := CycleError) g a b = Ok g' /\ wf_graph g' /\
     dom g' = dom g ∪ {[a; b]} /\ forall x y, edge g' x y <-> edge g x y \/ (x = a /\ y = b)).
Proof.
  split_and!; [apply wf_empty|intros; by apply wf_get_or_insert| | |intros; by apply add_edge_spec].
  - intros g a b Hg. assert (He : forall x y, edge (remove_edge g a b) x y <-> edge g x y /\ ~ (x = a /\ y = b)).
    { intros x y. unfold edge. rewrite out_edges_remove. destruct (decide (x = a)) as [->|]; [|tauto]. rewrite list_elem_of_filter. tauto. }
    split; [|done]. destruct Hg as [H1 H2 H3]. split.
    + intros x y [H _]%He. rewrite dom_remove. by eapply H1.
    + intros x. rewrite out_edges_remove. destruct (decide (x = a)); [by apply NoDup_filter|done].
    + intros x [H _]%He. by apply (H3 x).
  - intros g a. unfold add_edge. by rewrite bool_decide_eq_true_2.
Qed.

(** C5: [toposort] ends within two iterations per node.  It returns an order exactly for acyclic graphs; the order lists
    every node once, callers before callees.  A cycle error names only nodes on a cycle or called from one, and
    names every node on a cycle when some node has no caller. *)
Theorem toposort_exact (fuel : nat) (g : Graph) : wf_graph g -> 2 * size g <= fuel ->
  (exists r, toposort fuel g = Some r /\ toposort_ok g r) /\
  (acyclic g <-> exists output, toposort fuel g = Some (Ok output)).
Proof.
  intros Hg Hf. destruct (toposort_spec fuel g Hg Hf) as (r & Hr & Hok). split; [by exists r|]. rewrite Hr. split.
  - intros Ha. destruct r as [o|s|]; [by exists o| |by destruct Hok].
    destruct Hok as ([n Hn] & Hb & _). by destruct (behind_cyclic g n (Hb n Hn)).
  - intros [o [= ->]]. apply Hok.
Qed.

(** C35: [toposort] panics, instead of reporting the cycle, exactly when the graph is not empty, every node has a caller, and
    every cycle goes through the first node of the map: its own expectation of a cycle then fails. *)
Theorem toposort_panic_iff (fuel : nat) (g : Graph) : wf_graph g -> 2 * size g <= fuel ->
  toposort fuel g = Some Panic <->
  exists first rest, keys g = first :: rest /\ (forall n, n ∈ dom g -> exists p, edge g p n) /\ acyclic (forward g first).
Proof.
  intros Hg Hf. split.
  - intros Hp. destruct (toposort_spec fuel g Hg Hf) as (r & Hr & Hok). rewrite Hp in Hr. injection Hr as <-. destruct Hok as [_ Hall].
    destruct (keys g) as [|first rest] eqn:Hk.
    { assert (g = ∅) as ->; [|done]. apply dom_empty_inv_L, set_eq. intros n. rewrite <-elem_of_keys, Hk, elem_of_nil. set_solver. }
    exists first, rest. split_and!; [done..|]. destruct (toposort_no_roots fuel g first rest Hg Hf Hk (no_roots g Hall)) as (g' & o & ps & HK & Ht).
    rewrite Hp in Ht. pose proof (has_cycle_spec _ _ _ _ _ HK) as Hc. destruct (existsb _ _); [done|]. eapply all_output_first; [exact HK|].
    intros n Hn. destruct (decide (n ∈ o)); [done|]. destruct Hc as [_ Hc]. discriminate Hc. by exists n.
  - intros (first & rest & Hk & Hall & Hac). destruct (toposort_no_roots fuel g first rest Hg Hf Hk (no_roots g Hall)) as (g' & o & ps & HK & ->).
    pose proof (has_cycle_spec _ _ _ _ _ HK) as Hc. destruct (existsb _ _); [|done]. destruct Hc as [(n & Hn & Hno) _]; [done|].
    destruct Hno. by eapply first_all_output.
Qed.

(** C25: [toposort_caller] ends within the square of the number of nodes plus one, never panics, and sorts the part of the graph
    that the caller reaches: the order lists exactly the reachable procedures, each once, callers first, and exists
    exactly when no reachable procedure is on a cycle; an error names every reachable procedure on a cycle, and only
    procedures called from such a cycle. *)
Theorem toposort_caller_exact (fuel : nat) (g : Graph) (caller : gid) : wf_graph g -> S (S (size g) * S (size g)) <= fuel ->
  (exists r, toposort_caller fuel g caller = Some r /\ toposort_caller_ok g caller r) /\
  ((forall n, rtc (edge g) caller n -> ~ tc (edge g) n n) <-> exists output, toposort_caller fuel g caller = Some (Ok output)).
Proof.
  intros Hg Hf. destruct (toposort_caller_spec fuel g caller Hg Hf) as (r & Hr & Hok). split; [by exists r|]. rewrite Hr. split.
  - intros Ha. destruct r as [o|s|]; [by exists o| |by destruct Hok].
    destruct Hok as ([n Hn] & Hb & _). destruct (Hb n Hn) as (m & Hm & Hc & _). by destruct (Ha m Hm).
  - intros [o [= ->]]. apply Hok.
Qed.

(** Linking adds the collected edges and sorts.  It panics when some procedure depends on itself; it succeeds exactly
    when there is no self edge and the dependencies, old and new, have no cycle, and then the graph is well formed and has
    exactly these edges. *)
Theorem link_edges_exact (fuel : nat) (g : Graph) (edges : list (gid * gid)) : wf_graph g -> 2 * (size g + 2 * length edges) <= fuel ->
  let depends x y := edge g x y \/ (x, y) ∈ edges in
  ((exists a, (a, a) ∈ edges) -> link_edges fuel g edges = Some Panic) /\
  ((exists g', link_edges fuel g edges = Some (Ok g')) <-> (forall n, ~ tc depends n n)) /\
  (forall g', link_edges fuel g edges = Some (Ok g') -> wf_graph g' /\ forall x y, edge g' x y <-> depends x y).
Proof.
  intros Hg Hf depends.
  assert (Hself : (exists a, (a, a) ∈ edges) -> link_edges fuel g edges = Some Panic).
  { intros [a Ha]. unfold link_edges. by rewrite (add_edges_self edges a g Ha). }
  destruct (decide (Exists (fun '(a, b) => a = b) edges)) as [Hs|Hs].
  - apply Exists_exists in Hs as ([a b] & Ha & ->). rewrite Hself by by exists b. split_and!; [done| |by intros]. split; [by intros []|].
    intros Hn. destruct (Hn b). apply tc_once. by right.
  - assert (Hne : Forall (fun '(a, b) => a <> b) edges).
    { apply Forall_forall. intros [a b] Hin ->. apply Hs, Exists_exists. by exists (b, b). }
    destruct (add_edges_spec (E := CycleError) edges g Hg Hne) as (g1 & H1 & Hw & Hsz & He).
    destruct (toposort_spec fuel g1 Hw) as (r & Hr & Hok); [lia|].
    assert (Hlink : link_edges fuel g edges = Some (match r with Ok _ => Ok g1 | Err s => Err s | Panic => Panic end)).
    { unfold link_edges. rewrite H1, Hr. by destruct r. }
    assert (Htc : (forall n, ~ tc depends n n) <-> acyclic g1).
    { split; intros H n Hn; apply (H n); (eapply tc_sub; [|exact Hn]); intros x y; by rewrite He. }
    rewrite Hlink, Htc. split_and!.
    + intros [a Ha]. rewrite Forall_forall in Hne. by destruct (Hne _ Ha).
    + destruct r as [o|s|]; (split; [try by intros []|]); [intros _; apply Hok|by eexists| |by intros Ha; destruct Hok].
      intros Ha. destruct Hok as ([n Hn] & Hb & _). by destruct (behind_cyclic g1 n (Hb n Hn)).
    + intros g' Hg'. destruct r; simplify_eq. done.
Qed.

(** ** Instances *)
Module DemoGraph.
Definition proc (m i : nat) : gid := mkGid m i.
Definition build (es : list (gid * gid)) : Graph := match add_edges (E := CycleError) ∅ es with Ok g => g | _ => ∅ end.

(** Six procedures in two modules, two of them not called; and two procedures that call each other *)
Definition layered_calls : list (gid * gid) :=
  [(proc 1 1, proc 1 2); (proc 2 1, proc 2 2); (proc 1 2, proc 2 2); (proc 1 2, proc 1 3); (proc 2 2, proc 2 3); (proc 2 3, proc 1 3)].
Definition mutual_calls : list (gid * gid) := [(proc 0 0, proc 0 1); (proc 0 1, proc 0 0)].

Lemma build_wf es : Forall (fun '(a, b) => a <> b) es -> wf_graph (build es).
Proof. intros Hf. unfold build. by destruct (add_edges_spec (E := CycleError) es ∅ wf_empty Hf) as (g & -> & ? & _). Qed.
End DemoGraph.

Lemma toposort_exact_witness : exists r, toposort 12 (DemoGraph.build DemoGraph.layered_calls) = Some r /\
  toposort_ok (DemoGraph.build DemoGraph.layered_calls) r.
Proof.
  destruct (toposort_exact 12 (DemoGraph.build DemoGraph.layered_calls)) as [H _];
    [by apply DemoGraph.build_wf; repeat constructor|by vm_compute; lia|exact H].
Defined.

(** Two procedures that call each other, and nothing else: linking panics. *)
Lemma toposort_panic_iff_witness : toposort 4 (DemoGraph.build DemoGraph.mutual_calls) = Some Panic /\
  exists first rest, keys (DemoGraph.build DemoGraph.mutual_calls) = first :: rest /\
    (forall n, n ∈ dom (DemoGraph.build DemoGraph.mutual_calls) -> exists p, edge (DemoGraph.build DemoGraph.mutual_calls) p n) /\
    acyclic (forward (DemoGraph.build DemoGraph.mutual_calls) first).
Proof.
  split; [vm_compute; reflexivity|].
  apply (toposort_panic_iff 4 (DemoGraph.build DemoGraph.mutual_calls));
    [by apply DemoGraph.build_wf; repeat constructor|by vm_compute; lia|vm_compute; reflexivity].
Defined.

Lemma toposort_caller_exact_witness : exists r, toposort_caller 50 (DemoGraph.build DemoGraph.layered_calls) (DemoGraph.proc 1 2) = Some r /\
  toposort_caller_ok (DemoGraph.build DemoGraph.layered_calls) (DemoGraph.proc 1 2) r.
Proof.
  destruct (toposort_caller_exact 50 (DemoGraph.build DemoGraph.layered_calls) (DemoGraph.proc 1 2)) as [H _];
    [by apply DemoGraph.build_wf; repeat constructor|by vm_compute; lia|exact H].
Defined.

Lemma link_edges_exact_witness : link_edges 8 ∅ DemoGraph.mutual_calls = Some Panic /\
  ((exists g', link_edges 8 ∅ DemoGraph.mutual_calls = Some (Ok g')) <->
   (forall n, ~ tc (fun x y => edge ∅ x y \/ (x, y) ∈ DemoGraph.mutual_calls) n n)).
Proof.
  split; [vm_compute; reflexivity|].
  destruct (link_edges_exact 8 ∅ DemoGraph.mutual_calls) as (_ & H & _); [apply wf_empty|by vm_compute; lia|exact H].
Defined.
