(* ===== verification/AirTheorems.v ===== *)
(** * Theorems on the execution trace

    What the main constraints of the trace guarantee: the stack of the next row, decoding of operations, the clock and the range
    column; where they leave values free; and that the trace of the processor satisfies them. *)

From S2P Require Import Prelude Bits Field Goldilocks Types Events Instances Operations Batching BatchCorrect OperandStack Memory Advice Ace Processor OpSpecs Air AirFlags AirStack AirRows AirSound AirComplete AirDecoder AirTrace AirGroups AirFree.
From Stdlib Require Import Ring.
Import Op Air OpFlags AirStack opcodes.
#[local] Open Scope Z_scope.

(** Membership in a literal list *)
Ltac in_list := solve [repeat first [apply list_elem_of_here | apply list_elem_of_further]].

Create HintDb air.
#[export] Hint Resolve sound_sdepth sound_drop sound_add sound_mul sound_incr sound_neg sound_assert sound_inv sound_not sound_and sound_or
  sound_eqz sound_eq sound_ext2mul sound_cswap sound_cswapw sound_u32add sound_u32add3 sound_u32split sound_u32mul sound_u32madd
  sound_u32assert2 sound_u32sub : air.
#[export] Hint Resolve complete_swapdw complete_sdepth complete_caller complete_drop complete_add complete_mul complete_neg complete_incr complete_ext2mul
  complete_assert complete_inv complete_not complete_and complete_or complete_cswap complete_cswapw complete_eqz complete_eq complete_expacc
  complete_u32add complete_u32add3 complete_u32split complete_u32mul complete_u32madd complete_u32assert2 complete_u32sub complete_u32div
  complete_u32and complete_u32xor complete_push complete_mload complete_mstore complete_mloadw complete_mstorew complete_mstream complete_pipe
  complete_advpop complete_advpopw complete_hperm complete_mpverify complete_mrupdate complete_log_precompile complete_eval_circuit
  complete_crypto_stream complete_horner_base complete_horner_ext : air.

Section Theorems.
Context {F : Felt} {Q : Quad} {C : Crypto}.
Add Ring felt_ring_air_theorems : felt_ring_theory.

(** ** The stack *)

(** Operations whose stack the main constraints fix, and how many operands have to be 32-bit values for that *)
Definition fixed_operands (op : Operation) : option nat :=
  match op with
  | Noop | Assert _ | SDepth | Clk | Add | Neg | Mul | Inv | Incr | And | Or | Not | Eq | Eqz | Ext2Mul | Pad | Drop
  | Dup0 | Dup1 | Dup2 | Dup3 | Dup4 | Dup5 | Dup6 | Dup7 | Dup9 | Dup11 | Dup13 | Dup15
  | Swap | SwapW | SwapW2 | SwapDW | MovUp2 | MovUp3 | MovUp4 | MovUp5 | MovUp6 | MovUp7 | MovUp8
  | MovDn2 | MovDn3 | MovDn4 | MovDn5 | MovDn6 | MovDn7 | MovDn8 | CSwap | CSwapW
  | U32split | U32assert2 _ => Some 0%nat
  | U32add | U32sub | U32mul => Some 2%nat
  | U32add3 | U32madd => Some 3%nat
  | _ => None
  end.
Definition uses_limbs (op : Operation) : bool := mem (op_code op) u32_opcodes.

Lemma sound_of_moves op : op ∈ moves_of_items -> step_sound op.
Proof. intros H. pose proof sound_moves as Hm. rewrite Forall_forall in Hm. by apply Hm. Qed.

(** C2: On a row that shows a processor about to execute one of these operations, with 16-bit limbs in the helper columns of a
    32-bit operation and 32-bit operands, the stack constraints hold only if the processor executes the operation without error, and
    then the next row shows the stack and the depth it leaves (the item that comes back from the overflow table is
    left to its lookup). *)
Theorem stack_air_sound (op : Operation) (k : nat) (l n : row) (p : Proc (list felt)) :
  fixed_operands op = Some k -> row_of l op p ->
  (uses_limbs op = true -> limbs_checked l) -> Forall (fun i => ⟦l (ColTop i)⟧ < 2 ^ 32) (seq 0 k) ->
  satisfied false false l n enforce_main ->
  exists h st, execute_op op p = Ok (h, with_stack st p) /\
    next_of n (decrements_stack_size op && (16 <? length (stack p))%nat) st.
Proof.
  intros Hf Hr Hl Hu Hs. change (shown op p n). destruct op; cbn in Hf; injection Hf as <- || discriminate Hf; try specialize (Hl eq_refl).
  all: lazymatch goal with
       | Hl : limbs_checked _, Hu : Forall _ (seq 0 ?k) |- shown ?op _ _ => enough (Hop : step_sound_u32 k op) by exact (Hop l n p Hr Hl Hu Hs)
       | |- shown ?op _ _ => enough (Hop : step_sound op) by exact (Hop l n p Hr Hs)
       end.
  all: first [ solve [auto with air] | apply sound_of_moves; in_list ].
Qed.

Lemma complete_of_moves op : op ∈ SwapW3 :: moves_of_items -> op <> SwapDW -> step_complete op.
Proof. intros H Hne. pose proof complete_moves as Hm. rewrite Forall_forall in Hm. by destruct (Hm op H). Qed.

(** C17: When the processor executes an operation, whichever one [execute_op] executes without an error (all of its operations but [EMIT], which it
    leaves to the event handler), the row it starts from, with the helper columns filled from the helper registers the operation reports and the
    overflow helper with the inverse of the depth above 16, and the row of the stack it leaves, with the clock in the overflow column when the
    stack grew, satisfy every main constraint of the stack (the depth stays below [2 ^ 32]).  For [FRIE2F4] the item at position 8, which the processor does not read, has to be
    the position (item 9) without its two low bits. *)
Theorem stack_air_complete (op : Operation) (l n : row) (p p' : Proc (list felt)) (h : OperationHelperRegisters) :
  row_of l op p -> execute_op op p = Ok (h, p') -> helpers_of l h -> row_after l n op (stack p') ->
  (op = FriE2F4 -> l (ColTop 8) = new_unchecked (Z.shiftr ⟦l (ColTop 9)⟧ 2)) ->
  satisfied false false l n enforce_main.
Proof.
  intros Hr Hx Hh Hn Hf. destruct (decide (op = FriE2F4)) as [->|Hne]; [by apply (complete_fri l n p h p'); auto|].
  enough (Hop : op <> Emit -> step_complete op) by (apply (Hop ltac:(by intros ->) l n p h p'); done).
  intros He. clear -Hne He. destruct op; try done; first [ solve [auto with air] | apply complete_of_moves; [in_list|done] ].
Qed.

(** C32: Positions of the stack that no main constraint of the system, the range checker, the stack and the decoder fixes: after
    [SWAPW3] positions 8 to 11, after [CALLER] those from 4, after [MSTREAM] and [PIPE] those from 8, after [EVALCIRCUIT] and
    [SYSCALL] all, after [REPEAT] all but the last, may hold anything in the next row; the processor keeps the items at these positions on [SWAPW3]
    and [CALLER]. *)
Theorem unconstrained_positions (opcode : Z) (first last : bool) (l n n' : row) :
  agrees l (op_knowledge opcode) -> differ_at (free_positions opcode) n n' ->
  (satisfied first last l n main_constraints <-> satisfied first last l n' main_constraints) /\
  forall (op : Operation) (p p' : Proc (list felt)) h i, op = SwapW3 \/ op = Caller -> (16 <= length (stack p))%nat ->
    execute_op op p = Ok (h, p') -> i ∈ free_positions (op_code op) -> stack p' !! i = stack p !! i.
Proof.
  intros Hk Hd. split.
  - split; apply (free_satisfied opcode); try done. intros c Hc. by rewrite (Hd c Hc).
  - intros op p p' h i [-> | ->] Hl Hx Hi; [by apply (swapw3_keeps p p' h)|by apply (caller_keeps p p' h)].
Qed.

(** C33: The constraints of [U32DIV], together with 16-bit limbs, admit a division that is wrong: for operands [a] and [b] of 32
    bits with [2 <= 2 * b <= 2 ^ 32] and [a / b < a], the next row may show the quotient [a / b + 1] with the negative remainder
    [a mod b - b], while the processor computes [a / b] and [a mod b]. *)
Theorem u32div_forgery (l : row) (p : Proc (list felt)) :
  row_of l U32div p -> l ColH0 = inverse_or_zero (l ColB0 - fe 16)%F ->
  let b := ⟦l (ColTop 0)⟧ in let a := ⟦l (ColTop 1)⟧ in a < 2 ^ 32 -> 0 < b -> 2 * b <= 2 ^ 32 -> a / b < a ->
  exists l' n, (forall c, (forall i, (2 <= i < 6)%nat -> c <> ColHasherState i) -> l' c = l c) /\
    limbs_checked l' /\ satisfied false false l' n enforce_main /\
    n (ColTop 1) = fe (a / b + 1) /\ n (ColTop 0) = (fe (a mod b) - fe b)%F /\
    exists h p', execute_op U32div p = Ok (h, p') /\ take 2 (stack p') = [fe (a mod b); fe (a / b)].
Proof.
  intros Hr Ho b a Ha Hb H2b Hq. destruct (forged_div l p Hr Ho Ha Hb H2b Hq) as [Hl Hs]. fold a b in Hl, Hs.
  eexists _, _. split; [|split; [exact Hl|split; [exact Hs|split; [done|split]]]].
  - intros c Hc. unfold with_limbs, limbs. destruct c as [| |? | |k|k| | | | |k| | | | | | | | | |]; try done. destruct k as [|[|k]]; try done.
    destruct (split_u32_into_u16 _), (split_u32_into_u16 _). do 4 (destruct k as [|k]; [exfalso; eapply Hc; [|reflexivity]; lia|]). done.
  - cbn. unfold b. by rewrite (fe_of (l (ColTop 0))).
  - destruct Hr as [_ (rest & Hst) _ _ _ _]. cbn in Hst.
    pose proof (reports_u32div (l (ColTop 0)) (l (ColTop 1))) as Hrun. specialize (Hrun (drop 2 (stack p)) Ha ltac:(unfold small; lia) ltac:(lia) p).
    rewrite Hst in Hrun. cbn [drop] in Hrun. replace (with_stack _ p) with p in Hrun at 1; [by eexists _, _|].
    destruct p. cbn in *. by subst.
Qed.

(** ** Whole traces *)

(** C8: On every row of a trace that satisfies the constraints of the system and the decoder, the opcode bits encode one opcode, the
    flag of that opcode is one and the flags of all others are zero, the in-span flag tells operations from control flow, the operation index is at most 8
    and the clock counts rows; the trace starts with a control-flow operation, halts for good, and ends halted; context and digest of
    the running procedure change only as [CALL], [DYNCALL], [SYSCALL] and [END] allow. *)
Theorem trace_decodes (N : nat) (t : trace) :
  (0 < N)%nat -> Z.of_nat N < 2 ^ 32 -> trace_ok N t (AirSystem.enforce_main ++ AirDecoder.enforce_main) ->
  (forall i, (i < N)%nat ->
    encodable (row_op (t i)) = true /\
    (forall c, c ∈ vm_opcodes -> eval (t i) (t (S i)) (flag c) = felt_bit (row_op (t i) =? c)) /\
    t i ColInSpan = felt_bit (negb (mem (row_op (t i)) control_flow_opcodes)) /\
    ⟦t i ColOpIndex⟧ <= 8 /\ ⟦t i ColClk⟧ = Z.of_nat i) /\
  mem (row_op (t 0%nat)) control_flow_opcodes = true /\
  (forall i j, (i <= j < N)%nat -> row_op (t i) = HALT -> row_op (t j) = HALT) /\
  row_op (t (N - 1)%nat) = HALT /\
  (forall i, (S i < N)%nat ->
    (forall c, next_ctx (t i) (row_op (t i)) = Some c -> t (S i) ColCtx = c) /\
    (forall j c, (j < 4)%nat -> next_fn_hash (t i) (row_op (t i)) j = Some c -> t (S i) (ColFnHash j) = c)).
Proof.
  intros HN Hb Hok. apply trace_ok_app in Hok as [Hsys Hdec].
  assert (He : forall i, (i < N)%nat -> encodes (t i) (row_op (t i))) by (intros i Hi; exact (row_encodes _ _ _ _ (Hdec i Hi))).
  assert (Hr : forall i, (i < N)%nat -> decoder_row (i =? 0)%nat (S i =? N)%nat (t i) (t (S i mod N)%nat) (row_op (t i)))
    by (intros i Hi; exact (decoder_row_of _ _ _ _ _ (Hdec i Hi) (He i Hi))).
  split_and!.
  - intros i Hi. destruct (Hr i Hi) as [H1 _ _ H2]. split_and!; [apply (He i Hi)| |done|done|].
    + intros c Hc. by apply encodes_flag; [apply He|].
    + rewrite (clock N t i Hsys Hi Hb). apply canonical_new. unfold modulus. lia.
  - by apply (dr_first _ _ _ _ _ (Hr 0%nat HN)).
  - intros i j Hij. by apply (halt_absorbs N t i j Hdec).
  - apply (dr_last _ _ _ _ _ (Hr (N - 1)%nat ltac:(lia))). apply Nat.eqb_eq. lia.
  - intros i Hi. apply (context_step _ _ _ _ (trace_step _ _ _ i Hsys Hi)). apply He. lia.
Qed.

(** C18: The rows of an operation group execute the operations packed into it.  When a group whose value is that of the operations [ops]
    (at most nine) starts after row [r], the rows from [r + 1] to [r + 1 + k] are in that group, and nothing of it is left
    after the last of them, then [k] is at most 8 and the opcodes of the rows are those of [ops], up to trailing [NOOP]s. *)
Theorem group_decoding_exact (N : nat) (t : trace) (r k : nat) (v : felt) (ops : list Operation) :
  trace_ok N t AirDecoder.enforce_main -> (S r + k < N)%nat -> group_starts (t r) (t (S r)) v -> one_group t (S r) k ->
  t (S r + k)%nat (ColHasherState 0) = ZERO -> (length ops <= 9)%nat -> v = fe (pack_group ops) ->
  (k <= 8)%nat /\ forall j,
    ((j <= k)%nat -> row_op (t (S r + j)%nat) = nth j (op_code <$> ops) NOOP) /\
    ((k < j)%nat -> nth j (op_code <$> ops) NOOP = NOOP).
Proof.
  intros Hok Hk Hst Hg H0 Hl Hv. pose proof (trace_step _ _ _ r Hok ltac:(lia)) as Hs.
  destruct (start_step _ _ _ _ Hs (trace_encodes N t Hok (S r) ltac:(lia)) Hst) as [Ev Hi].
  pose proof (group_length N t Hok _ _ Hg Hk Hi) as H8. split; [done|].
  pose proof (group_digits N t Hok _ _ Hg Hk H8 H0) as Ed. rewrite Ev, Hv, pack_group_digits in Ed by done.
  set (rows := (fun j => row_op (t j)) <$> seq (S r) (S k)) in *.
  assert (Hr : Forall (fun o => 0 <= o < 128) rows).
  { apply Forall_fmap, Forall_forall. intros j Hj. apply elem_of_seq in Hj. apply encodable_range, (trace_encodes N t Hok j). lia. }
  pose proof (digits_bound _ Hr) as B1. pose proof (digits_bound _ (op_codes_range ops)) as B2.
  assert (Hlr : length rows = S k) by (unfold rows; by rewrite length_fmap, length_seq).
  assert (H9 : forall x, (x <= 9)%nat -> 128 ^ Z.of_nat x <= 128 ^ 9) by (intros; apply Z.pow_le_mono_r; lia).
  pose proof (H9 (length rows) ltac:(lia)). pose proof (H9 (length (op_code <$> ops)) ltac:(rewrite length_fmap; lia)).
  apply fe_inj in Ed; [|unfold modulus; change (128 ^ 9) with 9223372036854775808 in *; lia..].
  intros j. pose proof (digits_inj _ _ j (op_codes_range ops) Hr Ed) as Hj. change NOOP with 0. split; intros Hjk; rewrite Hj.
  - unfold rows. symmetry. apply nth_lookup_Some. rewrite list_lookup_fmap, lookup_seq_lt by lia. done.
  - apply nth_overflow. lia.
Qed.

(** On every row of a trace shorter than [2 ^ 32] that satisfies the constraints of the range checker, the value column holds a
    16-bit value: a value that is looked up there is less than [2 ^ 16]. *)
Theorem range_column_16_bit (N : nat) (t : trace) (i : nat) :
  trace_ok N t AirRange.enforce_main -> (i < N)%nat -> Z.of_nat N < 2 ^ 32 -> ⟦t i ColRangeValue⟧ < 2 ^ 16.
Proof.
  intros H Hi HN.
  assert (H0 : t 0%nat ColRangeValue = new_unchecked 0).
  { specialize (H 0%nat ltac:(lia)). unfold AirRange.enforce_main in H. apply satisfied_app in H as [H _]. open_constraints H.
    destruct H as [H _]. rewrite new_unchecked_0. by apply H. }
  assert (HL : t (N - 1)%nat ColRangeValue = new_unchecked 65535).
  { specialize (H (N - 1)%nat ltac:(lia)). unfold AirRange.enforce_main in H. rewrite !satisfied_app in H. destruct H as (_ & H & _).
    open_constraints H. destruct H as [H _]. apply felt_sub_zero, H, Nat.eqb_eq. lia. }
  destruct (range_monotone N t 0 i 0 H ltac:(lia) HN ltac:(lia) H0) as (w & Hw & Ew). cbn in Ew.
  destruct (range_monotone N t i (N - 1 - i) w H ltac:(lia) HN ltac:(lia) Ew) as (v & Hv & Ev).
  replace (i + (N - 1 - i))%nat with (N - 1)%nat in Ev by lia. rewrite HL in Ev. apply fe_inj in Ev; [|unfold modulus; lia..].
  rewrite Ew, canonical_new by (unfold modulus; lia). lia.
Qed.
End Theorems.

(** ** Witnesses *)
Module DemoAir.
(** The row of an opcode; other columns are given. *)
Definition op_row (opcode : Z) (rest : zrow) : zrow := fun c =>
  match op_knowledge opcode c with Some v => Z.b2z v | None => rest c end.

Lemma op_row_agrees opcode rest : agrees (felt_row (op_row opcode rest)) (op_knowledge opcode).
Proof. intros c v E. unfold felt_row, op_row. rewrite E. destruct v; [apply new_unchecked_1|apply new_unchecked_0]. Qed.
Lemma op_row_range opcode rest : in_range rest -> in_range (op_row opcode rest).
Proof. intros H c. unfold op_row. destruct (op_knowledge opcode c) as [[]|]; [unfold modulus; cbn; lia..|apply H]. Qed.

(** A stack row with the given items on top, and depth 16 *)
Definition stack_row (top : list Z) : zrow := fun c => match c with ColTop i => nth i top 0 | ColB0 => 16 | _ => 0 end.
Lemma stack_row_range top : Forall (fun z => 0 <= z < modulus) top -> in_range (stack_row top).
Proof.
  intros H c. destruct c as [| |? | | | | | | | | |i| | | | | | | | |]; cbn; unfold modulus in *; try lia.
  destruct (nth_in_or_default i top 0) as [Hi| ->]; [|lia]. rewrite Forall_forall in H. by apply H, list_elem_of_In.
Qed.
Ltac row_range := first [apply op_row_range|idtac]; apply stack_row_range; repeat constructor; unfold modulus; lia.

Definition shown_proc (f : zrow) : Proc (list felt) :=
  mkProc _ _ _ ((fun i => felt_row f (ColTop i)) <$> seq 0 16) 0 root_context EMPTY_WORD
    (mkAdviceProvider [] ∅ (∅ : ToyCrypto.store) []) ∅ [] (mkExecutionOptions 1000 100 100) EMPTY_WORD.

Lemma shown_row_of (op : Operation) (top : list Z) : row_of (felt_row (op_row (op_code op) (stack_row top))) op (shown_proc (stack_row top)).
Proof.
  split.
  - apply op_row_agrees.
  - exists []. reflexivity.
  - cbn. lia.
  - reflexivity.
  - symmetry. apply (from_u32_new 0). lia.
  - change (replicate 4 (new_unchecked 0) = replicate 4 ZERO). by rewrite new_unchecked_0.
Qed.

(** 3 + 4 *)
Definition add_row : zrow := op_row ADD (stack_row [3; 4]).
Lemma add_air : satisfied false false (felt_row add_row) (felt_row (stack_row [7])) enforce_main.
Proof. apply satisfiedZ_ok; [row_range|row_range|]. vm_compute. reflexivity. Qed.

Lemma stack_air_sound_witness : exists h st, execute_op Add (shown_proc (stack_row [3; 4])) = Ok (h, with_stack st (shown_proc (stack_row [3; 4]))) /\
  next_of (felt_row (stack_row [7])) false st.
Proof.
  apply (stack_air_sound Add 0 (felt_row add_row) (felt_row (stack_row [7])) (shown_proc (stack_row [3; 4])));
    [reflexivity|exact (shown_row_of Add [3; 4])|discriminate|constructor|exact add_air].
Defined.

Add Ring felt_ring_demo_air : (@felt_ring_theory Goldilocks).
Lemma shallow_overflow opcode top : felt_row (op_row opcode (stack_row top)) ColH0 = inverse_or_zero (felt_row (op_row opcode (stack_row top)) ColB0 - fe 16)%F.
Proof.
  change (fe 0 = inverse_or_zero (fe 16 - fe 16)%F). unfold inverse_or_zero. rewrite bool_decide_true by ring. apply new_unchecked_0.
Qed.

(** A swap of 3 and 4 *)
Lemma stack_air_complete_witness :
  satisfied false false (felt_row (op_row SWAP (stack_row [3; 4]))) (felt_row (stack_row [4; 3])) enforce_main.
Proof.
  apply (stack_air_complete Swap _ _ (shown_proc (stack_row [3; 4])) (shown_proc (stack_row [4; 3])) HEmpty).
  - exact (shown_row_of Swap [3; 4]).
  - reflexivity.
  - split; [|apply shallow_overflow]. change (replicate 6 (new_unchecked 0) = replicate 6 ZERO). by rewrite new_unchecked_0.
  - split; [|reflexivity|discriminate]. intros k Hk. do 16 (destruct k as [|k]; [reflexivity|]). lia.
  - discriminate.
Defined.

(** [SWAPW3] on a stack of zeros; the forged next row has 1, 2, 3 and 4 at positions 8 to 11. *)
Definition swapw3_row : zrow := op_row SWAPW3 (fun c => match c with ColInSpan => 1 | _ => stack_row [] c end).
Definition swapw3_next (top : list Z) : zrow := fun c => match c with ColClk => 1 | _ => stack_row top c end.
Lemma swapw3_row_range : in_range swapw3_row.
Proof. apply op_row_range. intros c. pose proof (stack_row_range [] ltac:(constructor) c). destruct c; cbn in *; unfold modulus in *; lia. Qed.
Lemma swapw3_next_range top : Forall (fun z => 0 <= z < modulus) top -> in_range (swapw3_next top).
Proof. intros H c. pose proof (stack_row_range top H c). destruct c; cbn in *; unfold modulus in *; lia. Qed.

Lemma unconstrained_positions_witness :
  satisfied false false (felt_row swapw3_row) (felt_row (swapw3_next [0; 0; 0; 0; 0; 0; 0; 0; 1; 2; 3; 4])) main_constraints.
Proof.
  refine (proj1 (proj1 (unconstrained_positions SWAPW3 false false (felt_row swapw3_row) (felt_row (swapw3_next []))
    (felt_row (swapw3_next [0; 0; 0; 0; 0; 0; 0; 0; 1; 2; 3; 4])) _ _)) _).
  - apply op_row_agrees.
  - intros c Hc. unfold felt_row. destruct c as [| |? | | | | | | | | |k| | | | | | | | |]; try reflexivity.
    do 8 (destruct k as [|k]; [reflexivity|]). do 4 (destruct k as [|k]; [exfalso; eapply Hc; [|reflexivity]; in_list|]). by destruct k.
  - apply satisfiedZ_ok; [apply swapw3_row_range|apply swapw3_next_range; constructor|]. vm_compute. reflexivity.
Defined.

(** 5 divided by 2 may be proved to be 3. *)
Lemma u32div_forgery_witness : exists l' n, limbs_checked l' /\ satisfied false false l' n enforce_main /\ n (ColTop 1) = fe 3.
Proof.
  assert (E0 : ⟦fe 2⟧ = 2) by (apply fe_canonical; unfold modulus; lia). assert (E1 : ⟦fe 5⟧ = 5) by (apply fe_canonical; unfold modulus; lia).
  destruct (u32div_forgery (felt_row (op_row U32DIV (stack_row [2; 5]))) (shown_proc (stack_row [2; 5])) (shown_row_of U32div [2; 5])
    (shallow_overflow U32DIV [2; 5])) as (l' & n & _ & Hl & Hs & Hq & _).
  1-4: change (felt_row (op_row U32DIV (stack_row [2; 5])) (ColTop 0)) with (fe 2);
    change (felt_row (op_row U32DIV (stack_row [2; 5])) (ColTop 1)) with (fe 5); rewrite ?E0, ?E1; (lia || reflexivity).
  change (felt_row (op_row U32DIV (stack_row [2; 5])) (ColTop 0)) with (fe 2) in Hq.
  change (felt_row (op_row U32DIV (stack_row [2; 5])) (ColTop 1)) with (fe 5) in Hq. rewrite E0, E1 in Hq.
  exists l', n. split; [exact Hl|split; [exact Hs|exact Hq]].
Defined.

(** A program with one basic block: [SPAN], [PAD], [DROP], [END], [HALT] *)
Definition at_clk (k : Z) (f : zrow) : zrow := fun c => match c with ColClk => k | _ => f c end.
Definition demo_rows : list zrow :=
  [at_clk 0 (op_row SPAN (fun c => match c with ColHasherState 0 => PAD + 128 * DROP | ColGroupCount => 1 | ColBatchFlag 1 | ColBatchFlag 2 => 1 | _ => 0 end));
   at_clk 1 (op_row PAD (fun c => match c with ColHasherState 0 => DROP | ColInSpan => 1 | _ => 0 end));
   at_clk 2 (op_row DROP (fun c => match c with ColInSpan | ColOpIndex => 1 | _ => 0 end));
   at_clk 3 (op_row END (fun _ => 0));
   at_clk 4 (op_row HALT (fun _ => 0))].
Definition demo_trace : trace := fun i => felt_row (nth i demo_rows (fun _ => 0)).

Lemma at_clk_range k f : 0 <= k < modulus -> in_range f -> in_range (at_clk k f).
Proof. intros Hk Hf c. destruct c; try apply Hf. exact Hk. Qed.
Lemma demo_rows_range i : in_range (nth i demo_rows (fun _ => 0)).
Proof.
  do 5 (destruct i as [|i]; [apply at_clk_range; [unfold modulus; lia|apply op_row_range; intros c; repeat case_match; vm_compute; split; congruence]|]).
  intros c. destruct i; vm_compute; split; congruence.
Qed.
Lemma demo_trace_ok : trace_ok 5 demo_trace (AirSystem.enforce_main ++ AirDecoder.enforce_main).
Proof.
  intros i Hi. apply satisfiedZ_ok; [apply demo_rows_range..|]. do 5 (destruct i as [|i]; [vm_compute; reflexivity|]). lia.
Qed.

Lemma trace_decodes_witness : row_op (demo_trace 4%nat) = HALT /\ ⟦demo_trace 3%nat ColClk⟧ = 3.
Proof.
  destruct (trace_decodes 5 demo_trace ltac:(lia) ltac:(lia) demo_trace_ok) as (Hr & _ & _ & Hh & _). split; [exact Hh|].
  exact (proj2 (proj2 (proj2 (proj2 (Hr 3%nat ltac:(lia)))))).
Defined.

Lemma demo_op i o : match i with O => SPAN | 1%nat => PAD | 2%nat => DROP | _ => HALT end = o -> (i < 3)%nat -> row_op (demo_trace i) = o.
Proof.
  intros <- Hi. apply encodes_row_op. do 3 (destruct i as [|i]; [split; [reflexivity|]; intros c v E; destruct c as [| |? | |k|k| | | |k|k| | | | | | | | | |];
    try discriminate E; unfold demo_trace, felt_row, demo_rows, at_clk, op_row; cbn [nth]; rewrite E; destruct v; first [apply new_unchecked_1|apply new_unchecked_0]|]). lia.
Qed.

(** The group of [PAD] and [DROP] *)
Lemma group_decoding_exact_witness : (1 <= 8)%nat /\ row_op (demo_trace 2%nat) = DROP.
Proof.
  destruct (trace_ok_app _ _ _ _ demo_trace_ok) as [_ Hd].
  destruct (group_decoding_exact 5 demo_trace 0 1 (fe 5296) [Pad; Drop] Hd) as [H8 Hj].
  - lia.
  - left. split; [by rewrite (demo_op 0 SPAN eq_refl ltac:(lia))|reflexivity].
  - intros j Hj. assert (j = 0)%nat as -> by lia. change (continues (demo_trace 1%nat) (demo_trace 2%nat)). split; [unfold inside; by rewrite (demo_op 1 PAD eq_refl ltac:(lia))|split; [unfold inside; by rewrite (demo_op 2 DROP eq_refl ltac:(lia))|]].
    rewrite (demo_op 1 PAD eq_refl ltac:(lia)). change ((fe 0 - fe 0)%F = ZERO). ring.
  - apply new_unchecked_0.
  - cbn. lia.
  - reflexivity.
  - split; [exact H8|]. exact (proj1 (Hj 1%nat) ltac:(lia)).
Defined.

(** The range column from 0 to 65535 in 38 rows *)
Definition range_steps : list Z := replicate 29 2187 ++ [729; 729; 243; 243; 81; 81; 3; 3].
Definition range_rows (i : nat) : zrow := fun c => match c with ColRangeValue => foldr Z.add 0 (take i range_steps) | _ => 0 end.
Lemma range_rows_range i : in_range (range_rows i).
Proof.
  intros c. destruct c; lazymatch goal with |- context [ColRangeValue] => idtac | _ => vm_compute; split; congruence end.
  do 38 (destruct i as [|i]; [vm_compute; split; congruence|]). vm_compute. split; congruence.
Qed.
Lemma range_trace_ok : trace_ok 38 (fun i => felt_row (range_rows i)) AirRange.enforce_main.
Proof.
  intros i Hi. apply satisfiedZ_ok; [apply range_rows_range..|]. do 38 (destruct i as [|i]; [vm_compute; reflexivity|]). lia.
Qed.
Lemma range_column_16_bit_witness : ⟦felt_row (range_rows 37) ColRangeValue⟧ < 2 ^ 16.
Proof. exact (range_column_16_bit 38 (fun i => felt_row (range_rows i)) 37 range_trace_ok ltac:(lia) ltac:(lia)). Defined.
End DemoAir.
