(* ===== verification/ChipletTheorems.v ===== *)
(** * Theorems on the chiplets

    What the main constraints guarantee of the chiplets' part of a trace, against references that do not look at rows: bitwise operations
    on integers, the rounds of the permutation, a memory, circuits, Merkle roots; two first rows they leave free; and that the trace the
    processor generates satisfies them. *)

From S2P Require Import Prelude Field Goldilocks Types Events Instances Memory Ace Operations Batching Air AirFlags AirStack AirRows AirDecoder AirTrace Chiplets ChipletRegions ChipletPermutation ChipletBitwise ChipletMemory ChipletAce ChipletMerkle ChipletFree ChipletConcrete TraceTables TraceMemory TraceAce TraceHasher TraceRequests TraceChiplets.
From stdpp Require Import sorting.
From Stdlib Require Import Ring.
Import Air ChipletSelectors.
#[local] Open Scope nat_scope.

Section Theorems.
Context {F : Felt} {Q : Quad} {P : HasherParams}.
Add Ring felt_ring_chiplet_theorems : felt_ring_theory.

Section Trace.
Variables (N : nat) (t : trace).
Hypothesis Hok : trace_ok N t all_constraints.

Lemma all_parts : trace_ok N t build_chiplet_selectors /\ trace_ok N t AirPermutation.enforce_permutation_constraints /\
  trace_ok N t AirController.enforce_controller_constraints /\ trace_ok N t AirBitwise.enforce_bitwise_constraints /\
  trace_ok N t AirMemory.enforce_memory_constraints /\ trace_ok N t AirAce.enforce_ace_constraints_all_rows /\
  trace_ok N t AirKernelRom.enforce_kernel_rom_constraints.
Proof using Hok.
  split_and!; intros i Hi; specialize (Hok i Hi); unfold all_constraints, AirChiplets.enforce_main in Hok; rewrite !satisfied_app in Hok; tauto.
Qed.
Lemma starts_controller : 0 < N -> region_of (t 0) = RController.
Proof using Hok. intros HN. destruct all_parts as (Hsel & _ & Hc & _). by apply (controller_first N t Hsel Hc). Qed.

(** C19: The rows of a trace that satisfies the constraints fall into regions: the hash controller, the permutations, bitwise, memory,
    circuit evaluation, kernel ROM, padding, in this order; the first row is the controller's, the last one is padding, and only
    the controller's region must be followed by the next one in the order.  On each row the flag of the region's chiplet is one and the
    others are zero; the flag of the last row is one exactly where the region ends; and the flag of the row before the first
    one is one exactly where the region starts after a row of the region next below it. *)
Theorem chiplet_regions : 0 < N ->
  region_of (t 0) = RController /\ region_of (t (N - 1)) = RPadding /\
  (forall i, i < N -> in_region (t i) (region_of (t i))) /\
  (forall i j, i <= j < N -> rank (region_of (t i)) <= rank (region_of (t j))) /\
  (forall i, S i < N -> region_of (t i) = RController -> region_of (t (S i)) = RController \/ region_of (t (S i)) = RPermutation) /\
  (forall i c f, S i < N -> flags_of c = Some f ->
     let r := region_of (t i) in let r' := region_of (t (S i)) in
     eval (t i) (t (S i)) (is_active f) = felt_bit (bool_decide (r = c)) /\
     eval (t i) (t (S i)) (is_last f) = felt_bit (bool_decide (r = c) && negb (bool_decide (r' = c))) /\
     eval (t i) (t (S i)) (next_is_first f) = felt_bit ((S (rank r) =? rank c) && bool_decide (r' = c))).
Proof using Hok.
  intros HN. destruct all_parts as (Hsel & _). split_and!.
  - by apply starts_controller.
  - by apply region_last_row.
  - by apply trace_region.
  - by apply rank_mono.
  - intros i Hi Hr. pose proof (follows_rank _ _ (trace_follows N t Hsel i Hi)) as [_ Hf]. rewrite Hr in Hf. specialize (Hf eq_refl).
    destruct (region_of (t (S i))); cbn in Hf; try lia; auto.
  - intros i c f Hi Hf r r'. by destruct (region_flags N t Hsel i c f Hi Hf) as (? & ? & ? & _).
Qed.

(** What the builder adds to the rows: the periodic columns and the transition selector *)
Hypothesis Hsup : supplied N t.

(** C10: Every row of the permutation region is in a cycle of 16 rows inside the region, and the state of the last row of the cycle is
    the Poseidon2 permutation (the external layer, four full rounds, 22 partial rounds and four full rounds, with the linear
    layers given by their matrices) of the state of its first row. *)
Theorem permutation_chiplet_exact (i : nat) : i < N -> region_of (t i) = RPermutation ->
  let r := i - i mod 16 in
  (forall k, k <= 15 -> r + k < N /\ region_of (t (r + k)) = RPermutation) /\ state_of (t (r + 15)) = poseidon2 (state_of (t r)).
Proof using Hok Hsup.
  intros Hi Hr r. destruct all_parts as (Hsel & Hp & _).
  destruct (cycle_inside N t Hsel Hp Hsup i Hi Hr (starts_controller ltac:(lia))) as (Hm & Hn & R0 & R15). fold r in Hm, Hn, R0, R15. split.
  - intros k Hk. split; [lia|]. rewrite (region_between N t Hsel r (r + k) (r + 15)) by (lia || congruence). done.
  - rewrite (cycle_rows N t Hsel Hp Hsup r 15), cycle_poseidon2 by (lia || done). done.
Qed.

(** C36: The last row of each eight-row cycle of the bitwise region holds two 32-bit integers and their bitwise AND or XOR, as its
    selector says. *)
Theorem bitwise_chiplet_exact (i : nat) : i < N -> region_of (t i) = RBitwise -> i mod 8 = 7 ->
  exists (x : bool) (a b : Z), (0 <= a < 2 ^ 32)%Z /\ (0 <= b < 2 ^ 32)%Z /\
    t i (ColChiplet AirBitwise.op_flag) = felt_bit x /\ (⟦t i (ColChiplet AirBitwise.a)⟧ = a)%Z /\ (⟦t i (ColChiplet AirBitwise.b)⟧ = b)%Z /\
    (⟦t i (ColChiplet AirBitwise.output)⟧ = if x then Z.lxor a b else Z.land a b)%Z.
Proof using Hok Hsup.
  intros Hi Hr H7. destruct all_parts as (Hsel & Hp & _ & Hb & _).
  destruct (bitwise_result N t Hsel Hb Hsup Hp i Hi Hr (starts_controller ltac:(lia)) H7) as (x & a & b & Ha & Hb' & Hx & Ea & Eb & Eo & Ho).
  exists x, a, b. rewrite Ea, Eb, Eo, !canonical_new by (unfold modulus; lia). split_and!; try lia; try done. by destruct x.
Qed.

(** C11: When the bitwise region is not empty, the memory region is a memory: with 32-bit contexts, addresses and cycles and 16-bit limbs
    of the differences, the value of an element on a row is the one of the latest write to it at the same context and
    address up to the row's cycle, and zero when there is none; and two rows for one word in one cycle both read. *)
Theorem memory_chiplet_consistent (s i j : nat) :
  (forall k, k < N -> region_of (t k) = RMemory -> access_ranges (t k)) ->
  S s < N -> region_of (t s) = RBitwise -> region_of (t (S s)) = RMemory -> i < N -> region_of (t i) = RMemory -> j < 4 ->
  let wrote k := k < N /\ region_of (t k) = RMemory /\ same_word (t k) (t i) /\
    (at_col (t k) AirMemory.clk <= at_col (t i) AirMemory.clk)%Z /\ writes (t k) j in
  (forall k, wrote k -> (forall k', wrote k' -> (at_col (t k') AirMemory.clk <= at_col (t k) AirMemory.clk)%Z) ->
     t i (ColChiplet (AirMemory.value j)) = t k (ColChiplet (AirMemory.value j))) /\
  ((forall k, ~ wrote k) -> t i (ColChiplet (AirMemory.value j)) = ZERO) /\
  (forall k, k < N -> region_of (t k) = RMemory -> k <> i -> same_word (t i) (t k) ->
     at_col (t i) AirMemory.clk = at_col (t k) AirMemory.clk -> reads (t i) /\ reads (t k)).
Proof using Hok Hsup.
  intros Hr Hs R0 R1 Hi Ri Hj wrote. destruct all_parts as (Hsel & _ & _ & _ & Hm & _).
  destruct (memory_consistent N t Hsel Hm Hsup Hr s i j Hs R0 R1 Hi Ri Hj) as [H1 H2]. split_and!; [exact H1|exact H2|].
  intros k Hk Rk Hne Hw Hc. apply (memory_cycles N t Hsel Hm Hsup Hr i k); auto.
Qed.

(** C37: When the memory region is not empty, every row of the circuit region is in a section: reading rows, at least one, then
    evaluating rows, at least one.  The nodes are numbered downwards without a gap from the first reading row, two on a reading row and
    one on an evaluating one, to zero on the last row; each reading row holds the number of the first gate; each
    evaluating row holds the difference, the product or the sum of its operands in the quadratic extension; context and cycle stay, the
    pointer advances by four on a reading row and by one on an evaluating one; and the value of the last node is zero. *)
Theorem ace_chiplet_exact (s i : nat) : s < i < N -> region_of (t s) = RMemory -> region_of (t i) = RAce ->
  exists a m b, a <= i <= b /\ a <= m < b /\ ace_section N t a b /\ quad_at (t b) 11 = quad_new ZERO ZERO /\
  forall k, a <= k <= b ->
    evaluates (t k) = (m <? k) /\ t k (ColChiplet AirAce.id_0) = of_Z (node_number b m k) /\
    (k <= m -> t k (ColChiplet AirAce.id_1) = of_Z (node_number b m k - 1) /\
       t k (ColChiplet AirAce.num_eval) = of_Z (Z.of_nat b - Z.of_nat m - 1)) /\
    (m < k ->
       t k (ColChiplet AirAce.eval_op) = (- ONE)%F /\ quad_at (t k) 11 = quad_sub (quad_at (t k) 14) (quad_at (t k) 17) \/
       t k (ColChiplet AirAce.eval_op) = ZERO /\ quad_at (t k) 11 = quad_mul (quad_at (t k) 14) (quad_at (t k) 17) \/
       t k (ColChiplet AirAce.eval_op) = ONE /\ quad_at (t k) 11 = quad_add (quad_at (t k) 14) (quad_at (t k) 17)) /\
    t k (ColChiplet AirAce.ctx) = t a (ColChiplet AirAce.ctx) /\ t k (ColChiplet AirAce.clk) = t a (ColChiplet AirAce.clk) /\
    t k (ColChiplet AirAce.ptr) = (t a (ColChiplet AirAce.ptr) + of_Z (4 * Z.of_nat (Nat.min k (S m) - a) + Z.of_nat (k - S m)))%F.
Proof using Hok Hsup.
  intros Hsi Hs Hr. destruct all_parts as (Hsel & _ & _ & _ & _ & Ha & _).
  destruct (section_exists N t Hsel Ha s i Hsi Hs Hr) as (a & b & Hab & Hsec). destruct (section_split N t Hsel Ha Hsup a b Hsec) as (m & Hm & Hev).
  exists a, m, b. split_and!; try lia; [done|apply (section_end N t Hsel Ha Hsup a b Hsec)|]. intros k Hk.
  pose proof (section_row N t Hsel Ha a b Hsec k Hk) as Hrow. destruct (section_numbers N t Hsel Ha Hsup a b Hsec m k Hm Hev Hk) as [Hid Hne].
  destruct (section_pointers N t Hsel Ha Hsup a b Hsec m k Hm Hev Hk) as (? & ? & ?). specialize (Hev k Hk). split_and!; try done.
  - intros Hkm. split; [rewrite (ar_read _ Hrow), Hid by (rewrite Hev; apply Nat.ltb_ge; lia); by rewrite of_Z_sub, of_Z_1|].
    rewrite Hne by done. f_equal. unfold node_number. rewrite (proj2 (Nat.ltb_lt m (S m))) by lia. lia.
  - intros Hmk. apply (ar_eval _ Hrow). rewrite Hev. apply Nat.ltb_lt. lia.
Qed.

(** When the circuit region is not empty, every row of the kernel ROM holds the digest of the last row up to it that is marked as the
    first one of a digest. *)
Theorem kernel_rom_digests (s i : nat) : s < i < N -> region_of (t s) = RAce -> region_of (t i) = RKernelRom ->
  exists k, k <= i /\ region_of (t k) = RKernelRom /\ t k (ColChiplet AirKernelRom.s_first) = ONE /\
    (forall j, k < j <= i -> t j (ColChiplet AirKernelRom.s_first) = ZERO) /\ forall j, k <= j <= i -> same_root (t k) (t j).
Proof using Hok Hsup. intros Hsi Hs Hr. destruct all_parts as (Hsel & _ & _ & _ & _ & _ & Hk). by apply (kernel_rom_digest N t Hsel Hk Hsup s). Qed.

(** The permutation a pair of controller rows asks for: the first and the last row of a cycle hold the states of the pair. *)
Definition perm_linked (i : nat) : Prop := exists c, c < N /\ c mod 16 = 0 /\ region_of (t c) = RPermutation /\
  state_of (t c) = state_of (t i) /\ state_of (t (c + 15)) = state_of (t (S i)).

(** C20: On a Merkle path of the hash controller whose permutations are linked to cycles of the permutation region, the digest of the last
    output row is the root computed from the leaf of the first input row, the direction bits and the siblings.  When that row
    returns a digest, the index on the first row is, in the field, the number given by the bits; for a path of at most 63 levels it is
    that number, which is below two to the number of levels (with 64 levels a number and its sum with the order of the field are not told apart). *)
Theorem merkle_path_exact (r d : nat) : merkle_path N t r d -> (forall k, k <= d -> perm_linked (r + 2 * k)) ->
  word_at (t (S (r + 2 * d))) 0 = compute_root (node (t r)) (path_steps t r d) /\
  (digest_row (t (S (r + 2 * d))) ->
     t r (ColChiplet AirController.node_index) = of_Z (path_index (path_steps t r d).*1) /\
     (d < 63 -> (⟦t r (ColChiplet AirController.node_index)⟧ = path_index (path_steps t r d).*1)%Z /\
        (⟦t r (ColChiplet AirController.node_index)⟧ < 2 ^ Z.of_nat (S d))%Z)).
Proof using Hok Hsup.
  intros Hp Hl. destruct all_parts as (Hsel & Hpm & Hc & _). split.
  - apply (path_root N t Hsel Hc Hsup r d Hp). intros k Hk. destruct (Hl k Hk) as (c & Hcn & Hc16 & Rc & <- & <-).
    pose proof (cycle_inside N t Hsel Hpm Hsup c Hcn Rc (starts_controller ltac:(lia))) as Hin. rewrite Hc16, Nat.sub_0_r in Hin.
    destruct Hin as (_ & Hn & _ & R15). rewrite (cycle_rows N t Hsel Hpm Hsup c 15), cycle_poseidon2 by (lia || done). done.
  - intros Hd. destruct (path_output N t Hsel Hc Hsup r d d Hp ltac:(lia)) as (Hn & Rn & _).
    assert (S (S (r + 2 * d)) < N) as Hn' by (apply (region_not_last N t Hsel); [done|by rewrite Rn]).
    rewrite (path_position N t Hsel Hc Hsup r d Hp), (digest_index N t Hsel Hc _ Hn' Rn Hd).
    replace (of_Z (path_index (path_steps t r d).*1) + of_Z (2 ^ Z.of_nat (S d)) * ZERO)%F with (of_Z (path_index (path_steps t r d).*1)) by ring.
    split; [done|]. intros Hlt. pose proof (path_index_range (path_steps t r d).*1) as Hrange.
    assert (length (path_steps t r d).*1 = S d) as Hlen by (unfold path_steps; by rewrite !length_fmap, length_seq). rewrite Hlen in Hrange.
    assert (2 ^ Z.of_nat (S d) <= 2 ^ 63)%Z as Hpow by (apply Z.pow_le_mono_r; lia).
    rewrite canonical_of_Z, Z.mod_small by (unfold modulus; lia). lia.
Qed.

(** C38: When the circuit region is empty, the first row of the kernel ROM is not forced to start a digest: in a trace that satisfies the
    constraints, with the kernel ROM right after the memory and its second row, if any, starting a digest, the first row can be
    marked as a repetition and given any digest, and the constraints still hold. *)
Theorem kernel_rom_forgery (i : nat) (digest : nat -> felt) :
  S i < N -> region_of (t i) = RMemory -> region_of (t (S i)) = RKernelRom ->
  (region_of (t (S (S i))) = RKernelRom -> t (S (S i)) (ColChiplet AirKernelRom.s_first) = ONE) ->
  exists t', trace_ok N t' all_constraints /\ (forall k, k <> S i -> t' k = t k) /\ region_of (t' (S i)) = RKernelRom /\
    t' (S i) (ColChiplet AirKernelRom.s_first) = ZERO /\ forall j, j < 4 -> t' (S i) (ColChiplet (AirKernelRom.root j)) = digest j.
Proof using Hok.
  intros Hi Ri Rk Hn. pose (forged := fun c => match c with
    | ColChiplet 5 => ZERO | ColChiplet 6 => digest 0 | ColChiplet 7 => digest 1 | ColChiplet 8 => digest 2 | ColChiplet 9 => digest 3
    | c => t (S i) c end).
  pose (t' := fun k => if k =? S i then forged else t k). assert (t' (S i) = forged) as E by (unfold t'; by rewrite Nat.eqb_refl).
  exists t'. split_and!.
  - apply (kernel_rom_free N t Hok i t' Ri Rk Hi Hn); [|by rewrite E]. split.
    + intros k Hk. unfold t'. by rewrite (proj2 (Nat.eqb_neq k (S i)) Hk).
    + rewrite E. intros c Hc. unfold forged. destruct c as [| |? | |?|?| | | |?|?|?| | | | | |j| |?|]; try done.
      do 10 (destruct j as [|j]; [first [reflexivity|exfalso; eapply Hc; [|reflexivity]; cbn; tauto]|]). done.
  - intros k Hk. unfold t'. by rewrite (proj2 (Nat.eqb_neq k (S i)) Hk).
  - rewrite E, <-Rk. reflexivity.
  - by rewrite E.
  - intros j Hj. rewrite E. do 4 (destruct j as [|j]; [reflexivity|]). lia.
Qed.

(** C39: When the bitwise region is empty, the memory is not forced to start from zero: in a trace that satisfies the constraints, with the
    memory right after the permutations and its second row, if any, at another address, the values of the first row can be
    replaced by any others, whatever the row reads, and the constraints still hold. *)
Theorem memory_first_forgery (i : nat) (values : nat -> felt) :
  S i < N -> region_of (t i) = RPermutation -> region_of (t (S i)) = RMemory ->
  (region_of (t (S (S i))) = RMemory -> t (S (S i)) (ColChiplet AirMemory.is_same_ctx_and_addr) = ZERO) ->
  exists t', trace_ok N t' all_constraints /\ (forall k, k <> S i -> t' k = t k) /\ region_of (t' (S i)) = RMemory /\
    t' (S i) (ColChiplet AirMemory.is_read) = t (S i) (ColChiplet AirMemory.is_read) /\
    forall j, j < 4 -> t' (S i) (ColChiplet (AirMemory.value j)) = values j.
Proof using Hok Hsup.
  intros Hi Ri Rk Hn. pose (forged := fun c => match c with
    | ColChiplet 10 => values 0 | ColChiplet 11 => values 1 | ColChiplet 12 => values 2 | ColChiplet 13 => values 3 | c => t (S i) c end).
  pose (t' := fun k => if k =? S i then forged else t k). assert (t' (S i) = forged) as E by (unfold t'; by rewrite Nat.eqb_refl).
  exists t'. split_and!.
  - apply (memory_free N t Hok i t' Hsup Ri Rk Hi Hn). split.
    + intros k Hk. unfold t'. by rewrite (proj2 (Nat.eqb_neq k (S i)) Hk).
    + rewrite E. intros c Hc. unfold forged. destruct c as [| |? | |?|?| | | |?|?|?| | | | | |j| |?|]; try done.
      do 14 (destruct j as [|j]; [first [reflexivity|exfalso; eapply Hc; [|reflexivity]; cbn; tauto]|]). done.
  - intros k Hk. unfold t'. by rewrite (proj2 (Nat.eqb_neq k (S i)) Hk).
  - rewrite E, <-Rk. reflexivity.
  - by rewrite E.
  - intros j Hj. rewrite E. do 4 (destruct j as [|j]; [reflexivity|]). lia.
Qed.
End Trace.
End Theorems.

(** ** Traces that are generated *)
Section Generated.
Context {F : Felt} {Q : Quad} {P : HasherParams} {H : HasherFunctions} {B : WordBytes} {K : KMerge}.
Import ChipletsTrace.

(** C9: The chiplets are initialized from the recorded requests of an execution (permutations, blocks, Merkle paths and updates; bitwise
    operations; memory accesses in the order of the clock; circuit evaluations; kernel calls) with a limit on the length of their trace, the
    parameter [max_trace_len], which is below [2 ^ 32], where row indices end (the trace builder uses [2 ^ 29]); the kernel procedures are
    distinct, the requests are what their types and the execution make them ([replay_wf]), and there is at least one hash request, which every
    program makes.  Initialization never panics when the hasher's own assertions on a request hold: a block has a
    batch, and a Merkle path has a node and an index below the number of its leaves.  When it succeeds, the length of the trace is within the
    limit, no [u32] row index overflows, the trace of any length that is at least as long is built without a panic, and in the columns of
    any trace the constraints on the chiplets' selectors and on all chiplets hold on every row.  Otherwise it returned an error. *)
Theorem chiplet_trace_complete kernel r max : NoDup kernel -> replay_wf r -> hasher_for_chiplet r <> [] -> (Z.of_nat max < 2 ^ 32)%Z ->
  (Forall hasher_op_accepted (hasher_for_chiplet r) -> no_panic (initialize_chiplets kernel r max)) /\
  forall c N, initialize_chiplets kernel r max = Ok c -> trace_len c <= N -> trace_len c <= max /\
    exists flat, into_trace c N = Ok flat /\ length flat = N * CHIPLETS_WIDTH /\
      forall t, supplied N t -> trace_ok N (with_chiplets t flat) (build_chiplet_selectors ++ AirChiplets.enforce_main).
Proof.
  intros Hk Hr Hne Hmax. assert (Z.of_nat max + 1 < modulus)%Z as Hm by (unfold modulus; lia). split; [by apply initialize_no_panic|].
  intros c N Hi HN. pose proof (initialize_length max kernel r c Hne Hi) as Hl. split; [done|].
  destruct (initialize_wf max Hm kernel r c Hk Hr Hne Hi) as [Hwf Hn]. apply into_trace_ok; lia || done.
Qed.

(** C21: The hasher that is initialized from requests answers each of them: a state that is permuted on [n] input rows of the controller has a
    cycle of rows in the permutation region that carries the multiplicity [n], starts with the state and ends with the
    permutation of the state. *)
Theorem permutations_requested kernel r max c st : NoDup kernel -> replay_wf r -> hasher_for_chiplet r <> [] -> (Z.of_nat max + 1 < modulus)%Z ->
  initialize_chiplets kernel r max = Ok c ->
  let h := hasher c in let states := HashRequests.input_states (HashTable.h_trace h) in st ∈ states ->
  exists a rows, (HashTable.region_lengths h).1 <= a /\ rows = HashRequests.slice a (a + 16) (HashTable.h_trace (HashTable.finalize_trace h)) /\ length rows = 16 /\
    Forall (fun row => HashTable.node_index row = new_unchecked (Z.of_nat (HashRequests.occurrences st states)) /\ HashTable.s_perm row = ONE) rows /\
    HashTable.hasher_state <$> rows !! 0 = Some st /\ HashTable.hasher_state <$> rows !! 15 = Some (poseidon2 st).
Proof.
  intros Hk Hr Hne Hmax Hi h states Hst. destruct (initialize_wf max Hmax kernel r c Hk Hr Hne Hi) as [Hwf Hn]. pose proof (cw_hasher c Hwf) as Hh.
  assert (length st = 12) as Hl.
  { unfold states, HashRequests.input_states in Hst. apply list_elem_of_fmap in Hst as (x & -> & Hx). apply list_elem_of_filter in Hx as [_ Hx].
    destruct (HashRequests.inv_trace _ Hh) as [E|(l & (Hok & _) & _)]; [unfold h in Hx; rewrite E in Hx; by apply not_elem_of_nil in Hx|].
    rewrite Forall_forall in Hok. apply (Hok x Hx). }
  destruct (HashRequests.request_cycle h st Hh Hn Hst) as (a & Ha & E). exists a, (HashRequests.slice a (a + 16) (HashTable.h_trace (HashTable.finalize_trace h))).
  rewrite E, HashRequests.cycle_rows_length, length_seq. destruct (HashRequests.cycle_permutes (new_unchecked (Z.of_nat (HashRequests.occurrences st states))) st Hl) as [H1 H2].
  rewrite h_permutation_spec in H2 by done. split_and!; try done. apply Forall_lookup. intros k x Hx.
  pose proof (lookup_lt_Some _ _ _ Hx) as Hk'. rewrite HashRequests.cycle_rows_length, length_seq in Hk'. rewrite HashRequests.cycle_rows_lookup in Hx by done. by injection Hx as <-.
Qed.

(** C40: A request for a Merkle root with a path of at least one node and an index that fits the depth does not panic; it gives the root of the
    leaf along the siblings and the bits of the index.  An update gives the roots of the old and of the new leaf. *)
Theorem merkle_requests_exact h old new path index : path <> [] -> (⟦index⟧ < 2 ^ Z.of_nat (length path))%Z ->
  (exists addr root h', HashTable.build_merkle_root h old path index = Ok (addr, root, h') /\
    word_elements root = compute_root (word_elements old) (HashRequests.path_steps ⟦index⟧ path)) /\
  (exists addr old_root new_root h', HashTable.update_merkle_root h old new path index = Ok (addr, old_root, new_root, h') /\
    word_elements old_root = compute_root (word_elements old) (HashRequests.path_steps ⟦index⟧ path) /\
    word_elements new_root = compute_root (word_elements new) (HashRequests.path_steps ⟦index⟧ path)).
Proof.
  intros Hp Hi. pose proof (canonical_range index) as Hr. split.
  - destruct (HashRequests.verify_merkle_path_total HashTable.MpVerify h old path ⟦index⟧ Hr Hp Hi) as (root & h' & E & Er). unfold HashTable.build_merkle_root. rewrite E.
    by eexists _, root, h'.
  - unfold HashTable.update_merkle_root. set (h0 := HashTable.mkHasher _ _ _ _ _).
    destruct (HashRequests.verify_merkle_path_total HashTable.MrUpdateOld h0 old path ⟦index⟧ Hr Hp Hi) as (r1 & h1 & E1 & Er1). rewrite E1. cbn [mbind outcome_bind].
    destruct (HashRequests.verify_merkle_path_total HashTable.MrUpdateNew h1 new path ⟦index⟧ Hr Hp Hi) as (r2 & h2 & E2 & Er2). rewrite E2. cbn [mbind outcome_bind].
    by eexists _, r1, r2, h2.
Qed.

(** C12: The table of the memory chiplet refines the memory of the processor.  While the two hold the same words, an access at the current clock
    or later fails with the error of the processor when the processor fails; otherwise it is refused when the word was written in the same
    cycle, or is to be written and was accessed in it, and else it is recorded: a read gives the value the processor reads, and
    the two hold the same words after the access, in a table that is well-formed for the new clock. *)
Theorem memory_table_refines (M : Memory) m k (ctx : Z) addr clk : MemoryTable.memory_wf k m -> MemoryTable.same_memory M m -> (k <= clk)%Z -> (0 <= clk < 2 ^ 32)%Z -> (0 <= ctx < 2 ^ 32)%Z ->
  let wa := (⟦addr⟧ - ⟦addr⟧ mod 4)%Z in let now := from_u32 clk in
  let illegal a := MemoryErr (IllegalMemoryAccess ctx a ⟦now⟧) in
  MemoryTable.recorded (read_element M ctx addr) (MemoryTable.conflict m ctx wa now false) (illegal wa) (MemoryTable.read m ctx addr clk)
    (fun v '(v', m') => v' = v /\ MemoryTable.same_memory M m' /\ MemoryTable.memory_wf clk m') /\
  MemoryTable.recorded (read_word M ctx addr) (MemoryTable.conflict m ctx wa now false) (illegal wa) (MemoryTable.read_word m ctx addr clk)
    (fun w '(w', m') => w' = w /\ MemoryTable.same_memory M m' /\ MemoryTable.memory_wf clk m') /\
  (forall v, MemoryTable.recorded (write_element M ctx addr v) (MemoryTable.conflict m ctx wa now true) (illegal ⟦addr⟧%Z) (MemoryTable.write m ctx addr clk v)
    (fun M' m' => MemoryTable.same_memory M' m' /\ MemoryTable.memory_wf clk m')) /\
  (forall w, MemoryTable.recorded (write_word M ctx addr w) (MemoryTable.conflict m ctx wa now true) (illegal ⟦addr⟧%Z) (MemoryTable.write_word m ctx addr clk w)
    (fun M' m' => MemoryTable.same_memory M' m' /\ MemoryTable.memory_wf clk m')).
Proof.
  intros Hwf Hs Hk Hclk Hctx. split_and!.
  - by apply (MemoryTable.read_recorded M m k).
  - by apply (MemoryTable.read_word_recorded M m k).
  - intros v. by apply (MemoryTable.write_recorded M m k).
  - intros w. by apply (MemoryTable.write_word_recorded M m k).
Qed.
End Generated.

(** ** Witnesses *)
Module DemoChipletTheorems.
Import DemoChiplets.

Lemma full_ok : trace_ok 64 (demo full_rows) all_constraints.
Proof. exact (demo_ok full_rows full_check). Qed.
Lemma full_supplied : supplied 64 (demo full_rows).
Proof. apply (demo_supplied full_rows). cbn. lia. Qed.
Lemma sparse_ok : trace_ok 40 (demo sparse_rows) all_constraints.
Proof. exact (demo_ok sparse_rows sparse_check). Qed.
Lemma sparse_supplied : supplied 40 (demo sparse_rows).
Proof. apply (demo_supplied sparse_rows). cbn. lia. Qed.

Ltac shown := vm_compute; reflexivity.

Lemma chiplet_regions_witness : region_of (demo full_rows 63) = RPadding.
Proof. destruct (chiplet_regions 64 (demo full_rows) full_ok ltac:(lia)) as (_ & H & _). exact H. Defined.

Lemma permutation_chiplet_exact_witness : state_of (demo full_rows 31) = poseidon2 (state_of (demo full_rows 16)).
Proof. destruct (permutation_chiplet_exact 64 (demo full_rows) full_ok full_supplied 20 ltac:(lia) ltac:(shown)) as [_ H]. exact H. Defined.

Lemma bitwise_chiplet_exact_witness : exists x a b, demo full_rows 55 (ColChiplet AirBitwise.op_flag) = felt_bit x /\
  ⟦demo full_rows 55%nat (ColChiplet AirBitwise.output)⟧%Z = if x then Z.lxor a b else Z.land a b.
Proof.
  destruct (bitwise_chiplet_exact 64 (demo full_rows) full_ok full_supplied 55 ltac:(lia) ltac:(shown) eq_refl) as (x & a & b & _ & _ & Hx & _ & _ & Ho).
  exists x, a, b. split; [exact Hx|exact Ho].
Defined.

Lemma memory_ranges k : k < 64 -> region_of (demo full_rows k) = RMemory -> access_ranges (demo full_rows k).
Proof.
  intros Hk Hr. assert (k = 56 \/ k = 57) as [->| ->]; [|by vm_compute..].
  assert (forallb (fun k => implb (bool_decide (region_of (demo full_rows k) = RMemory)) ((k =? 56) || (k =? 57))) (seq 0 64) = true) as H by shown.
  rewrite forallb_forall in H. specialize (H k (proj2 (in_seq 64 0 k) ltac:(lia))). rewrite Hr in H. rewrite bool_decide_true in H by done. cbn [implb] in H.
  apply orb_true_iff in H as [H|H]; apply Nat.eqb_eq in H; auto.
Qed.
(** Row 57 reads what row 56 wrote. *)
Lemma memory_chiplet_consistent_witness : demo full_rows 57 (ColChiplet (AirMemory.value 2)) = demo full_rows 56 (ColChiplet (AirMemory.value 2)).
Proof.
  destruct (memory_chiplet_consistent 64 (demo full_rows) full_ok full_supplied 55 57 2 memory_ranges ltac:(lia) ltac:(shown) ltac:(shown) ltac:(lia)
    ltac:(shown) ltac:(lia)) as (H & _).
  apply (H 56).
  - split; [lia|]. split; [shown|]. split; [split; shown|]. split; [vm_compute; congruence|]. split; [shown|left; shown].
  - intros k' (Hk & Rk & _ & _ & Hw & _). destruct (decide (k' = 56)) as [->|Hne]; [apply Z.le_refl|]. exfalso.
    assert (forallb (fun k => implb (bool_decide (region_of (demo full_rows k) = RMemory) && bool_decide (demo full_rows k (ColChiplet AirMemory.is_read) = ZERO))
      (k =? 56)) (seq 0 64) = true) as Hc by shown.
    rewrite forallb_forall in Hc. specialize (Hc k' (proj2 (in_seq 64 0 k') ltac:(lia))). rewrite Rk, Hw, !bool_decide_true in Hc by reflexivity.
    cbn [implb andb] in Hc. apply Nat.eqb_eq in Hc. contradiction.
Defined.

Lemma ace_chiplet_exact_witness : exists a m b, a <= 59 <= b /\ a <= m < b /\ quad_at (demo full_rows b) 11 = quad_new ZERO ZERO.
Proof.
  destruct (ace_chiplet_exact 64 (demo full_rows) full_ok full_supplied 57 59 ltac:(lia) ltac:(shown) ltac:(shown)) as (a & m & b & H1 & H2 & _ & H3 & _).
  exists a, m, b. split; [exact H1|split; [exact H2|exact H3]].
Defined.

Lemma kernel_rom_digests_witness : exists k, k <= 61 /\ demo full_rows k (ColChiplet AirKernelRom.s_first) = ONE /\ same_root (demo full_rows k) (demo full_rows 61).
Proof.
  destruct (kernel_rom_digests 64 (demo full_rows) full_ok full_supplied 59 61 ltac:(lia) ltac:(shown) ltac:(shown)) as (k & Hk & _ & Hf & _ & H).
  exists k. split; [exact Hk|split; [exact Hf|apply H; lia]].
Defined.

(** The leaf at index 2 of a tree of depth 2 *)
Lemma merkle_path_exact_witness :
  word_at (demo full_rows 3) 0 = compute_root (node (demo full_rows 0)) (path_steps (demo full_rows) 0 1) /\
  ⟦demo full_rows 0%nat (ColChiplet AirController.node_index)⟧%Z = path_index [false; true].
Proof.
  destruct (merkle_path_exact 64 (demo full_rows) full_ok full_supplied 0 1) as [H1 H2].
  - split.
    + intros k Hk. destruct k as [|[|k]]; [..|lia]; (split; [lia|]; split; [shown|]; split; [shown|right; shown]).
    + intros k Hk. replace k with 0 by lia. shown.
  - intros k Hk. destruct k as [|[|k]]; [exists 16|exists 32|lia]; (split; [lia|]; split; [reflexivity|]; split; [shown|]; split; shown).
  - split; [exact H1|]. destruct (H2 ltac:(split; [split|]; shown)) as [_ H]. destruct (H ltac:(lia)) as [H' _]. exact H'.
Defined.

Lemma kernel_rom_forgery_witness : exists t', trace_ok 40 t' all_constraints /\ t' 33 (ColChiplet AirKernelRom.s_first) = ZERO /\
  t' 33 (ColChiplet (AirKernelRom.root 0)) = new_unchecked 666.
Proof.
  destruct (kernel_rom_forgery 40 (demo sparse_rows) sparse_ok 32 (fun _ => new_unchecked 666) ltac:(lia) ltac:(shown) ltac:(shown)) as (t' & H & _ & _ & Hf & Hd).
  - intros Hr. assert (region_of (demo sparse_rows 34) = RPadding) as E by shown. rewrite Hr in E. discriminate E.
  - exists t'. split; [exact H|split; [exact Hf|apply (Hd 0); lia]].
Defined.

Lemma memory_first_forgery_witness : exists t', trace_ok 40 t' all_constraints /\ t' 32 (ColChiplet AirMemory.is_read) = ONE /\
  t' 32 (ColChiplet (AirMemory.value 0)) = new_unchecked 666.
Proof.
  destruct (memory_first_forgery 40 (demo sparse_rows) sparse_ok sparse_supplied 31 (fun _ => new_unchecked 666) ltac:(lia) ltac:(shown) ltac:(shown))
    as (t' & H & _ & _ & Hr & Hd).
  - intros Hr. assert (region_of (demo sparse_rows 33) = RKernelRom) as E by shown. rewrite Hr in E. discriminate E.
  - exists t'. split; [exact H|split; [rewrite Hr; shown|apply (Hd 0); lia]].
Defined.
End DemoChipletTheorems.

(** ** A replay in which every chiplet has rows *)
Module DemoReplay.
Import ChipletsTrace.

(** The functions of the hasher, given by the reference *)
#[refine] #[local] Instance toy_hasher : HasherFunctions := {|
  h_apply_matmul_external := mat_mul external_matrix;
  h_matmul_internal := internal_layer;
  h_add_rc := zip_with felt_add;
  h_apply_sbox := map sbox;
  apply_permutation_12 := poseidon2 |}.
Proof. all: done. Defined.
#[refine] #[local] Instance canonical_bytes : WordBytes := {| word_bytes w := map as_canonical_u64 (word_elements w) |}.
Proof.
  intros x y E. destruct x, y. cbn in E. injection E as E0 E1 E2 E3. f_equal; by apply canonical_inj.
Defined.

Definition clk_le (a b : MemoryTable.MemoryAccess) : Prop := (MemoryTable.clk_of a <= MemoryTable.clk_of b)%Z.
#[local] Instance clk_le_dec : RelDecision clk_le.
Proof. intros a b. unfold clk_le. apply _. Defined.
Lemma sorted_chain {A} (R : A -> A -> Prop) l : Sorted R l -> chain R l.
Proof.
  induction 1 as [|x l Hl IH Hx]; [apply chain_nil|]. apply chain_cons; [done|]. intros y Hy. destruct l; [done|]. injection Hy as <-. by inversion Hx.
Qed.
#[refine] #[local] Instance sort_merge : KMerge := {| kmerge_by_clk ls := merge_sort clk_le (concat ls) |}.
Proof.
  - intros ls _. apply sorted_chain, Sorted_merge_sort. intros a b. unfold clk_le. lia.
  - intros ls. apply merge_sort_Permutation.
Defined.

Definition felt_of (z : Z) : felt := new_unchecked z.
Definition word_of (z : Z) : Word := mkWord (felt_of z) (felt_of (z + 1)) (felt_of (z + 2)) (felt_of (z + 3)).
Definition batch : OpBatch := mkOpBatch [] [] [] (felt_of <$> [7; 8; 9; 10; 11; 12; 13; 14]%Z) 8.
Definition gate : felt := felt_of (5 + 5 * 2 ^ 30).
Definition circuit : result CircuitEvaluation :=
  eval_circuit_impl 0%Z ZERO 7%Z (felt_of 2) (felt_of 4) (<[(0%Z, 4%Z) := mkWord gate gate gate gate]> (∅ : Memory)).
Definition replay : Replay := mkReplay
  [Permute (replicate 12 ONE); HashControlBlock (word_of 1) (word_of 5) ZERO (word_of 90); HashControlBlock (word_of 1) (word_of 5) ZERO (word_of 90);
   HashBasicBlock [None; Some [batch]] 1 (word_of 91); BuildMerkleRoot (word_of 1) [word_of 2] (felt_of 1);
   UpdateMerkleRoot (word_of 1) (word_of 9) [word_of 2] (felt_of 0)]
  [(U32And, felt_of 5, felt_of 3); (U32Xor, felt_of 5, felt_of 3)]
  [MemoryTable.WriteElement (felt_of 9) (felt_of 77) 0 4] [MemoryTable.WriteWord (felt_of 4) (word_of 20) 1 3]
  [MemoryTable.ReadElement (felt_of 9) 0 5] [MemoryTable.ReadWord (felt_of 8) 0 6]
  (match circuit with Ok e => [(7%Z, e)] | _ => [] end) [word_of 40; word_of 40].
Definition kernel : list Word := [word_of 40; word_of 50].
Definition chiplets : result Chiplets := initialize_chiplets kernel replay 4096.
(** Its length, and whether the first state is permuted *)
Definition summary (o : result Chiplets) : nat * bool :=
  match o with Ok c => (trace_len c, bool_decide (replicate 12 ONE ∈ HashRequests.input_states (HashTable.h_trace (hasher c)))) | _ => (0, false) end.
Lemma chiplets_summary : summary chiplets = (142, true).
Proof. vm_compute. reflexivity. Qed.
Lemma chiplets_Ok : exists c, initialize_chiplets kernel replay 4096 = Ok c /\ trace_len c = 142 /\
  replicate 12 ONE ∈ HashRequests.input_states (HashTable.h_trace (hasher c)).
Proof.
  pose proof chiplets_summary as E. unfold chiplets in E. destruct (initialize_chiplets kernel replay 4096) as [c| |]; [|discriminate E..]. exists c.
  unfold summary in E. injection E as E1 E2. apply bool_decide_eq_true in E2. done.
Qed.

Lemma replay_is_wf : replay_wf replay.
Proof.
  split.
  - repeat (apply Forall_cons; split; [try exact I|]); [reflexivity| |constructor]. intros bs Hb. apply elem_of_cons in Hb as [Hb|Hb]; [discriminate Hb|].
    apply list_elem_of_singleton in Hb. injection Hb as ->. repeat (apply Forall_cons; split; [reflexivity|]). constructor.
  - repeat (apply Forall_cons; split; [intros [|i] x y Hx Hy; discriminate Hy|]). constructor.
  - cbn [access_streams concat app replay elements_written words_written elements_read words_read].
    repeat (apply Forall_cons; split; [split; cbn; lia|]). constructor.
  - unfold replay. cbn [ace_replay]. destruct circuit as [e| |] eqn:E; [|constructor..]. apply Forall_cons. split; [|constructor].
    exists 0%Z, ZERO, (felt_of 2), (felt_of 4), (<[(0%Z, 4%Z) := mkWord gate gate gate gate]> (∅ : Memory)). exact E.
Qed.
Lemma kernel_distinct : NoDup kernel.
Proof. apply NoDup_cons. split; [|apply NoDup_singleton]. intros E. apply list_elem_of_singleton in E. apply (f_equal (fun w => as_canonical_u64 (w0 w))) in E. discriminate E. Qed.

(** The columns the builder supplies *)
Definition base (N : nat) : trace := fun i col =>
  match col with
  | ColIsTransition => if S i =? N then ZERO else ONE
  | ColPeriodic k => new_unchecked (AirChiplets.periodic_value k i)
  | _ => ZERO
  end.
Lemma base_supplied N : supplied N (base N).
Proof.
  split; [|done]. intros i Hi. unfold base. destruct (Nat.eqb_spec (S i) N) as [E|E]; [by split|]. split; [|done]. intros Hz. by apply ONE_neq_ZERO in Hz.
Qed.

Lemma replay_accepted : Forall hasher_op_accepted (hasher_for_chiplet replay).
Proof.
  repeat (apply Forall_cons; split; [try exact I|]); [|split; [discriminate|reflexivity]..|constructor].
  intros bs Hb. apply elem_of_cons in Hb as [Hb|Hb]; [discriminate Hb|]. apply list_elem_of_singleton in Hb. injection Hb as ->. discriminate.
Qed.
Lemma chiplet_trace_complete_witness : initialize_chiplets kernel replay 4096 <> Panic /\
  exists c flat, initialize_chiplets kernel replay 4096 = Ok c /\ into_trace c 256 = Ok flat /\
  trace_ok 256 (with_chiplets (base 256) flat) (build_chiplet_selectors ++ AirChiplets.enforce_main).
Proof.
  destruct (chiplet_trace_complete kernel replay 4096 kernel_distinct replay_is_wf ltac:(discriminate) ltac:(reflexivity)) as [Hn H]. split; [exact (Hn replay_accepted)|].
  destruct chiplets_Ok as (c & E & El & _). destruct (H c 256 E ltac:(lia)) as (_ & flat & Ef & _ & Ht).
  exists c, flat. split; [exact E|split; [exact Ef|]]. apply Ht, base_supplied.
Defined.
Lemma permutations_requested_witness : exists c a, initialize_chiplets kernel replay 4096 = Ok c /\
  HashTable.hasher_state <$> (HashRequests.slice a (a + 16) (HashTable.h_trace (HashTable.finalize_trace (hasher c)))) !! 15 = Some (poseidon2 (replicate 12 ONE)).
Proof.
  destruct chiplets_Ok as (c & E & _ & Hst).
  destruct (permutations_requested kernel replay 4096 c (replicate 12 ONE) kernel_distinct replay_is_wf ltac:(discriminate) ltac:(reflexivity) E Hst)
    as (a & rows & _ & -> & _ & _ & _ & H).
  exists c, a. split; [exact E|exact H].
Defined.
(** The leaf at index 1 of a tree of depth 1, which is its right one *)
Lemma merkle_requests_exact_witness : exists addr root h', HashTable.build_merkle_root HashTable.hasher_default (word_of 1) [word_of 2] (felt_of 1) = Ok (addr, root, h') /\
  word_elements root = ChipletMerkle.merge (word_elements (word_of 2)) (word_elements (word_of 1)).
Proof.
  destruct (merkle_requests_exact HashTable.hasher_default (word_of 1) (word_of 9) [word_of 2] (felt_of 1) ltac:(discriminate) ltac:(reflexivity)) as [(addr & root & h' & E & Er) _].
  exists addr, root, h'. split; [exact E|]. rewrite Er. reflexivity.
Defined.
(** The empty table, and a write to address 9 at clock 4 *)
Lemma write_Ok : exists M', write_element (∅ : Memory) 0%Z (felt_of 9) (felt_of 77) = Ok M'.
Proof.
  assert (match write_element (∅ : Memory) 0%Z (felt_of 9) (felt_of 77) with Ok _ => true | _ => false end = true) as H by (vm_compute; reflexivity).
  destruct (write_element _ _ _ _) as [M'| |]; [by exists M'|discriminate H..].
Qed.
Lemma memory_table_refines_witness : exists m' M', MemoryTable.write MemoryTable.memory_default 0 (felt_of 9) 4 (felt_of 77) = Ok m' /\
  write_element (∅ : Memory) 0%Z (felt_of 9) (felt_of 77) = Ok M' /\ MemoryTable.same_memory M' m'.
Proof.
  assert (MemoryTable.memory_wf 0 MemoryTable.memory_default) as Hwf by (split; [intros ? ? H; discriminate H|intros ? ? ? ? H; discriminate H|reflexivity]).
  assert (MemoryTable.same_memory ∅ MemoryTable.memory_default) as Hs by (intros ctx wa _; reflexivity).
  destruct (memory_table_refines ∅ MemoryTable.memory_default 0 0 (felt_of 9) 4 Hwf Hs ltac:(lia) ltac:(lia) ltac:(lia)) as (_ & _ & Hw & _).
  specialize (Hw (felt_of 77)). destruct write_Ok as [M' E]. unfold MemoryTable.recorded in Hw. rewrite E in Hw.
  destruct Hw as (m' & H1 & H2 & _). exists m', M'. split; [exact H1|split; [exact E|exact H2]].
Defined.
End DemoReplay.
